(* ===== verification/_CoqProject ===== *)
-Q . S2P
Prelude.v
Utils.v
Parallel.v
Collections.v
DisjointSet.v
UtilsTheorems.v
Field.v
Fext.v
CircularInterval.v
SmartVector.v
SmartVectorFacts.v
Vectors.v
SmartVectorOps.v
OperatorFacts.v
SmartVectorProcess.v
SmartVectorArith.v
SmartVectorMixed.v
SmartVectorTheorems.v
Symbolic.v
SymbolicFacts.v
SymbolicSimplify.v
Validate.v
Board.v
Compiler.v
CompilerFacts.v
Machine.v
BaseMachine.v
ExtMachine.v
EvaluateFacts.v
Degree.v
DegreeReduction.v
DegreeReductionFacts.v
Reduction.v
SymbolicTheorems.v
DegreeTheorems.v
Types.v
Poseidon.v
Smt.v
SmtFacts.v
SmtBuild.v
Binding.v
Accumulator.v
Account.v
AccountTheorems.v
SmtTheorems.v
AccumulatorFacts.v
AccumulatorOps.v
AccumulatorSound.v
AccumulatorTheorems.v
Bits.v
SuffixArray.v
Lzss.v
LzssFacts.v
LzssRun.v
Stream.v
LzssTheorems.v
Pack.v
Rlp.v
Tx.v
BlockEncode.v
CompressorApi.v
Dictionary.v
HeaderV1.v
BlobV1.v
PackV0.v
BlobContent.v
BlobV1Facts.v
LzssApi.v
BlockEncodeV0.v
HeaderV0.v
BlobV0.v
BlobV0Facts.v
Blob.v
BlobWitnesses.v
