(* ===== verification/Prelude.v ===== *)
(** * Verification of the Go prover

    The repository holds the prover of a zk-rollup (Go, under src/prover) beside its
    coordinator, contracts, tracer and client libraries. This development models parts of
    the prover as executable Rocq functions and proves what makes them correct. Go code
    becomes functions in the monad [res], whose second outcome is a panic; errors that Go
    returns as values stay values ([gerr]); integers are [Z] with the wrap-around of their
    width written out ([int64] and its kin); slices are lists with Go's bound checks
    ([idx], [store], [slice], [in_slice]).

    ** Parts of the program and where they are modelled

    The state manager. A rollup state is a sparse Merkle tree whose leaves form a sorted
    doubly linked list of hashed keys, the accumulator. The prover changes it by five
    operations and emits a trace for each; a verifier that knows only the root and the next
    free node checks the traces.
    - [Types]: octuplets of field elements and the
      encodings of integers (utils/types/field_koalaoctuplet.go, common.go).
    - [Poseidon]: the Merkle-Damgard hasher with its buffer (crypto/poseidon2_koalabear);
      its compression function is a parameter.
    - [Smt], [SmtFacts], [SmtBuild], [SmtTheorems]: the sparse Merkle tree, its proofs and
      updates, and the parallel construction of a full tree, whose goroutines are step
      sequences that may interleave in any order (crypto/state-management/smt_koalabear).
    - [Accumulator]: prover and verifier states, the five operations, their traces and the
      deferred Merkle checks (crypto/state-management/accumulator). [AccumulatorFacts]
      has the abstract linked list; it and [AccumulatorOps] show that the operations refine
      operations on an abstract map, [AccumulatorSound] that the verifier accepts nothing
      else and that the deferred checks hold; [AccumulatorTheorems] states the results, with
      a concrete run. [Binding] computes collisions of the compression function from two
      openings of one root and has a toy compression function for witnesses.
    - [Account], [AccountTheorems]: the leaf hash, account and address encodings, those of
      the Shomei traces included (utils/types/account.go and others).

    The algebra. Columns of the proof system are vectors over the KoalaBear field or its
    quartic extension, in compact representations.
    - [Field], [Fext]: the operations of gnark-crypto on the field and its extension as the
      classes [ElementOps] and [ExtOps] with their laws, the integers modulo the KoalaBear
      prime and its tower as instances, and the code of maths/field and maths/field/fext on
      top of them.
    - [Vectors]: maths/common/vector, vectorext, poly and polyext.
    - [CircularInterval]: intervals on a circle and their smallest cover.
    - [SmartVector], [SmartVectorFacts]: the constant, regular, rotated and windowed
      representations over any type of elements; [SmartVectorOps], [OperatorFacts],
      [SmartVectorProcess], [SmartVectorArith], [SmartVectorMixed]: linear combinations and
      products of mixed representations (maths/common/smartvectors and
      smartvectors_mixed). [SmartVectorTheorems]: witnesses and results.

    Symbolic expressions (symbolic). Constraints are polynomial expressions over columns.
    - [Symbolic]: expressions, their hashes and constructors with the simplification of sums
      and products; [SymbolicFacts] defines the value of an expression ([eval]), the shape
      of well-formed expressions ([wf]) and hashes that never identify different values
      ([faithful]); [SymbolicSimplify] proves that the constructors keep values.
    - [Board]: the board, a list of nodes in topological order with equal
      hashes merged.
    - [Compiler], [CompilerFacts]: bytecode with liveness analysis and slot reuse, the two
      machines that run it and the evaluation by chunks. [Machine] is the contract of one
      machine ([MachineLaws]) and the proof that a machine with this contract leaves the
      value of each live node in its slot; [BaseMachine] and [ExtMachine] discharge
      it for the base and the extension machine; [EvaluateFacts] puts the chunks together.
    - [Validate]: the check of hashes and shapes, and powers, which call it.
    - [Degree]: degrees with their cache, of expressions and of boards, and the polynomials
      they bound.
    - [DegreeReduction]: the replacement of subexpressions by new variables until the
      degrees are within a bound (degree_reduction.go). [DegreeReductionFacts] is about its
      iterator and about one substitution, [Reduction] about the collection of candidates
      and about the rounds ([run_ok], [seen], [extend]).
    - [SymbolicTheorems], [DegreeTheorems]: concrete expressions and the results.

    Blobs (lib/compressor/blob). Blocks are encoded, compressed, packed into field elements
    and put under a header; a maker fills a blob up to a limit.
    - [Bits]: bit writers and readers (bitio) as classes with their laws, and an instance on
      lists of bits.
    - [SuffixArray]: the suffix-array index and the search of the longest match
      (suffixarray.go). [Lzss]: the compressor and the decompressor (v0/compress/lzss);
      [LzssFacts] and [LzssRun] relate its stream to the data, [Stream] models the symbol
      streams (v0/compress/stream.go), [LzssTheorems] the description of a stream and states
      the results.
    - [Pack]: packing (encode/encode.go), its facts and results; [PackV0] that of v0.
    - [Rlp]: go-ethereum's RLP as a class with its laws and an executable codec; [Tx]:
      transactions (backend/ethereum/tx_encoding.go); [BlockEncode],
      [BlockEncodeV0]: blocks (v1/encode.go, v0/encode.go).
    - [Dictionary]: the store of dictionaries. [HeaderV1], [HeaderV0]: the blob headers.
    - [CompressorApi] is what a maker relies on in a compressor: the v1 and v2 makers use a
      third-party one; [LzssApi] discharges it with the compressor of the repository, which
      the v0 maker uses.
    - [BlobV1] (v1/blob_maker.go, v2/blob_maker.go), [BlobV0] (v0/blob_maker.go): the makers;
      [BlobContent] the batches of blocks they stand for, [BlobV1Facts], [BlobV0Facts] their
      invariants and the results; [Blob]: decompression of any version (blob.go) and the
      round trip of blocks; [BlobWitnesses] runs them on an example.

    Utilities. [Utils] (utils/utils.go, minmax.go), [Parallel] (utils/parallel,
    utils/arena), [Collections] (utils/collection), [DisjointSet], with [UtilsTheorems]. This file holds the monad, loops, slices, machine integers and the
    lemmas the components share.

    ** What the theorems show

    - The accumulator: from the initial state every sequence of operations that an abstract
      map allows succeeds, each trace is accepted by the verifier, and the state holds the
      entries of the map; an accepted trace of any kind leads to the state the honest prover
      makes, or yields a break of the compression function that is computed from it. The
      exceptions are theorems too: openings of the head of the list, and a verifier state
      that moves although an error is returned.
    - Merkle trees: roots, leaves and proofs after any updates; the parallel construction
      agrees with the sequential one under every interleaving; proofs bind their leaves.
    - Smart vectors: each operation has at each position the result of the operation on the
      elements there, for every mix of representations, without a panic.
    - Symbolic expressions: construction keeps values as long as coefficients and exponents
      do not overflow; compilation never gives the slot of a live node away; [Evaluate]
      returns the value of the expression at every position. The hypotheses that the code
      relies on without checking (no hash collisions, constant points of polynomial
      evaluations, base constants over base inputs) are explicit, and the theorems on
      overflow and on extension constants show what happens without them.
    - Degrees: the degree of an expression bounds that of the polynomial it stands for, on
      the expression and on its board; the reduction of degrees with a maximal number of
      rounds ends without a panic and keeps values; its iterator enumerates the
      sub-multisets. Without such a number it need not end, products that hold a factor
      twice lose it, and degrees left in the cache are returned for other assignments.
    - Blobs: the compressor is a byte buffer with one level of undo whose output
      decompresses to what was written; the decompressor returns on every input; the search
      of matches is exact; packing loses nothing. The makers refine lists of batches of
      blocks: after any calls the blob is within its limit and decompresses to the accepted
      blocks, which come back in standard form through [DecompressBlob]. Errors that outlive
      a reset, a revert that is accepted twice and a crafted blob on which decompression
      does not end are theorems too.
    - Utilities: workers on an atomic counter do every task exactly once and, under every
      schedule, come to the end; an arena
      hands out disjoint pieces for requests of one size and overlapping ones for mixed
      sizes; union-find, deterministic maps, encodings and their round trips.

    ** Bounds and fuel

    Loops that are not structural take fuel that is shown to be enough: the depth of the
    tree for Merkle paths; the length of the bytecode for the machines ([exec_loop]: each
    instruction moves the program counter forward); 64 for the loops that clear or shift a
    bit of a 64-bit integer ([round_down], [halve], logarithms); the rank for [Find] in
    disjoint sets; the number of nodes for walks of the linked list; the number of vectors
    below the exponents for the iterator over sub-multisets ([iterator_fuel]); the number of
    bytes left for the loops of the compressor and the decompressor; the size of the payload
    for the scan of block boundaries ([scan_batch_fuel] shows that more changes nothing). The
    rounds of
    the degree reduction have fuel of their own: more than the maximal number of
    eliminations suffices, and without this number no fuel need suffice. Lengths are assumed to
    be those of Go slices where wrap-around of an index would matter (below 2^63), node
    numbers of a board below 2^32.

    Goroutines. Where tasks share data their steps interleave arbitrarily ([SmtBuild],
    [Parallel]). The tasks of a parallel loop that write disjoint ranges of one
    slice run in launch order ([Vectors], [Compiler]).

    ** Parameters

    Code outside the repository is a class of operations with named laws: the field
    arithmetic and vector kernels of gnark-crypto, the compression functions, blake2b, the
    metadata of variables, the sorting of sort.Slice, the iteration order of Go maps, bitio,
    RLP and the third-party compressor of the v1 and v2 makers.
    Every theorem that uses them has a witness with a concrete instance.

    ** Not modelled

    Circuits over the gnark frontend (their semantics is that of a third-party library);
    FFT domains, Reed-Solomon and ring-SIS commitments, which are thin layers over
    gnark-crypto; the interactive-proof framework and its compilers (protocol), the zkEVM
    arithmetization (zkevm); printing, JSON, random sampling, file and process control; the
    services in other languages. The linear-time suffix sorting (suffixarray/sais.go and
    sais2.go, a copy of the Go standard library's) is in the repository and not modelled: the
    index and the compressor rely on its contract [SuffixSortLaws], a permutation of the
    positions sorted by suffix, which a merge sort meets in the witnesses. The C entry points
    of the compressor (libcompressor, libdecompressor) and the shnarf calculator are not
    modelled either. *)

From stdpp Require Export base list gmap fin_maps sorting strings vector.
From Stdlib Require Export ZArith Lia.

#[export] Set Default Goal Selector "!".

Declare Scope go_scope.
Delimit Scope go_scope with go.

#[global] Open Scope Z_scope.

(** ** Outcomes of Go calls

    A Go call either returns or panics. Errors that the code returns as values
    ([error]) stay values of the model: [gerr] is Go's [error] interface, with
    [None] for [nil] and the constant text of the message otherwise. *)

Inductive res (A : Type) : Type :=
| Ok (a : A)
| Panic.
Arguments Ok {A} a.
Arguments Panic {A}.

Notation gerr := (option string).

#[global] Instance res_ret : MRet res := λ A a, Ok a.
#[global] Instance res_bind : MBind res := λ A B f m,
  match m with Ok a => f a | Panic => Panic end.

#[global] Instance res_eq_dec `{EqDecision A} : EqDecision (res A).
Proof. solve_decision. Defined.

(** [utils.Require]: panics unless the condition holds. *)
Definition Require (b : bool) : res unit := if b then Ok () else Panic.

Lemma res_bind_Ok {A B} (m : res A) (f : A → res B) b :
  m ≫= f = Ok b ↔ ∃ a, m = Ok a ∧ f a = Ok b.
Proof. destruct m; simpl; naive_solver. Qed.

Lemma res_bind_ret {A B} (a : A) (f : A → res B) : Ok a ≫= f = f a.
Proof. done. Qed.

Lemma Require_Ok b u : Require b = Ok u ↔ b = true.
Proof. destruct b, u; simpl; naive_solver. Qed.

(** ** Machine integers

    Go's [int] and [int64] are 64-bit two's complement on the target. *)

Definition int64 (z : Z) : Z := (z + 2 ^ 63) mod 2 ^ 64 - 2 ^ 63.
Definition uint64 (z : Z) : Z := z mod 2 ^ 64.

Definition in_int64 (z : Z) : Prop := - 2 ^ 63 ≤ z < 2 ^ 63.

Lemma int64_id z : in_int64 z → int64 z = z.
Proof. unfold in_int64, int64. intros H. rewrite Z.mod_small; lia. Qed.

Lemma int64_range z : in_int64 (int64 z).
Proof.
  unfold in_int64, int64.
  pose proof (Z.mod_pos_bound (z + 2 ^ 63) (2 ^ 64) ltac:(lia)). lia.
Qed.

(** ** Slices

    Indexing, storing and slicing panic out of range, as Go's runtime does. A
    slice value is modelled by its elements; positions are Go [int]s. *)

Definition zlen {A} (l : list A) : Z := Z.of_nat (length l).

Definition idx {A} (l : list A) (i : Z) : res A :=
  if decide (0 ≤ i) then
    match l !! Z.to_nat i with Some a => Ok a | None => Panic end
  else Panic.

Definition store {A} (l : list A) (i : Z) (v : A) : res (list A) :=
  if decide (0 ≤ i < zlen l) then Ok (<[Z.to_nat i := v]> l) else Panic.

(** [l[a:b]] *)
Definition slice {A} (l : list A) (a b : Z) : res (list A) :=
  if decide (0 ≤ a ≤ b ∧ b ≤ zlen l)
  then Ok (take (Z.to_nat (b - a)) (drop (Z.to_nat a) l)) else Panic.

(** The loop combinator: [for _, x := range l { s = f(s, x) }]. *)
Fixpoint foldM {A B} (f : B → A → res B) (s : B) (l : list A) : res B :=
  match l with
  | [] => Ok s
  | x :: l' => s' ← f s x; foldM f s' l'
  end.

(** [mapM] of the standard prelude, for [res]: loops that build a slice. *)
Fixpoint mapR {A B} (f : A → res B) (l : list A) : res (list B) :=
  match l with
  | [] => Ok []
  | x :: l' => y ← f x; ys ← mapR f l'; Ok (y :: ys)
  end.

Lemma zlen_nonneg {A} (l : list A) : 0 ≤ zlen l.
Proof. unfold zlen; lia. Qed.

Lemma zlen_app {A} (l k : list A) : zlen (l ++ k) = zlen l + zlen k.
Proof. unfold zlen. rewrite length_app. lia. Qed.

Lemma zlen_insert {A} i (v : A) l : zlen (<[i:=v]> l) = zlen l.
Proof. unfold zlen. by rewrite length_insert. Qed.

Lemma zlen_replicate {A} n (v : A) : 0 ≤ n → zlen (replicate (Z.to_nat n) v) = n.
Proof. unfold zlen. rewrite length_replicate. lia. Qed.

Lemma idx_Ok {A} (l : list A) i a : idx l i = Ok a ↔ 0 ≤ i ∧ l !! Z.to_nat i = Some a.
Proof. unfold idx. case_decide; [|naive_solver lia]. destruct (l !! _); naive_solver. Qed.

Lemma idx_is_Ok {A} (l : list A) i : 0 ≤ i < zlen l → ∃ a, idx l i = Ok a.
Proof.
  unfold zlen. intros H. destruct (lookup_lt_is_Some_2 l (Z.to_nat i)) as [a Ha]; [lia|].
  exists a. apply idx_Ok. split; [lia|done].
Qed.

Lemma idx_nat {A} (l : list A) i a : 0 ≤ i → l !! Z.to_nat i = Some a → idx l i = Ok a.
Proof. intros Hi Ha. by apply idx_Ok. Qed.

Lemma store_Ok {A} (l : list A) i v :
  0 ≤ i < zlen l → store l i v = Ok (<[Z.to_nat i := v]> l).
Proof. intros. unfold store. by rewrite decide_True. Qed.

Lemma slice_Ok {A} (l : list A) a b :
  0 ≤ a ≤ b → b ≤ zlen l →
  slice l a b = Ok (take (Z.to_nat (b - a)) (drop (Z.to_nat a) l)).
Proof. intros. unfold slice. by rewrite decide_True. Qed.

Lemma foldM_app {A B} (f : B → A → res B) s l k :
  foldM f s (l ++ k) = foldM f s l ≫= λ s', foldM f s' k.
Proof. revert s. induction l as [|x l IH]; intros s; simpl; [done|]. destruct (f s x); simpl; [apply IH|done]. Qed.

Lemma mapR_app {A B} (f : A → res B) l k :
  mapR f (l ++ k) = mapR f l ≫= λ ys, mapR f k ≫= λ zs, Ok (ys ++ zs).
Proof.
  induction l as [|x l IH]; simpl; [by destruct (mapR f k)|]. destruct (f x); simpl; [|done].
  rewrite IH. destruct (mapR f l); simpl; [|done]. by destruct (mapR f k).
Qed.

Lemma elem_of_zip_l {A B} (l : list A) (k : list B) x y : (x, y) ∈ zip l k → x ∈ l.
Proof. intros (i & E)%list_elem_of_lookup. apply lookup_zip_with_Some in E as (? & ? & [= -> ->] & E & _). by eapply list_elem_of_lookup_2. Qed.

Lemma elem_of_zip_r {A B} (l : list A) (k : list B) x y : (x, y) ∈ zip l k → y ∈ k.
Proof. intros (i & E)%list_elem_of_lookup. apply lookup_zip_with_Some in E as (? & ? & [= -> ->] & _ & E). by eapply list_elem_of_lookup_2. Qed.

Lemma mapR_Ok {A B} (f : A → res B) (g : A → B) l :
  (∀ x, x ∈ l → f x = Ok (g x)) → mapR f l = Ok (g <$> l).
Proof.
  induction l as [|x l IH]; intros H; simpl; [done|].
  rewrite H by left. simpl. rewrite IH by (intros; apply H; by right). done.
Qed.

Lemma elem_of_snoc {A} (l : list A) x y : y ∈ l ++ [x] ↔ y ∈ l ∨ y = x.
Proof. by rewrite elem_of_app, list_elem_of_singleton. Qed.

Lemma elem_of_concat {A} (x : A) ls : x ∈ concat ls ↔ ∃ l, l ∈ ls ∧ x ∈ l.
Proof.
  rewrite list_elem_of_In, in_concat. setoid_rewrite list_elem_of_In. done.
Qed.

(** Loop rule for [for _, x := range L]: an invariant on the prefix visited. *)
Lemma foldM_rule {A B} (f : B → A → res B) (P : list A → B → Prop) (L : list A) s :
  P [] s →
  (∀ l x s, x ∈ L → P l s → ∃ s', f s x = Ok s' ∧ P (l ++ [x]) s') →
  ∃ s', foldM f s L = Ok s' ∧ P L s'.
Proof.
  intros H0 Hstep. cut (∀ k l s, (∀ x, x ∈ k → x ∈ L) → P l s → ∃ s', foldM f s k = Ok s' ∧ P (l ++ k) s').
  { intros Hgen. by apply (Hgen L []). }
  clear H0 s. induction k as [|x k IH]; intros l s Hk Hl; simpl.
  - exists s. by rewrite app_nil_r.
  - destruct (Hstep l x s) as (s1 & -> & H1); [apply Hk; set_solver|done|]. simpl.
    destruct (IH (l ++ [x]) s1) as (s' & E & HP); [set_solver|done|].
    exists s'. split; [done|]. by rewrite <-(assoc_L (++)) in HP.
Qed.

(** The same rule with the rest of the list. *)
Lemma foldM_prefix {A B} (f : B → A → res B) (P : list A → B → Prop) (L : list A) s :
  P [] s →
  (∀ l x k s, L = l ++ x :: k → P l s → ∃ s', f s x = Ok s' ∧ P (l ++ [x]) s') →
  ∃ s', foldM f s L = Ok s' ∧ P L s'.
Proof.
  intros H0 Hstep. cut (∀ k l s, L = l ++ k → P l s → ∃ s', foldM f s k = Ok s' ∧ P L s').
  { intros Hgen. by apply (Hgen L []). }
  clear H0 s. induction k as [|x k IH]; intros l s EL Hl; simpl.
  - rewrite app_nil_r in EL. subst. by exists s.
  - destruct (Hstep l x k s EL Hl) as (s1 & -> & H1). simpl. apply (IH (l ++ [x])); [|done].
    by rewrite <-(assoc_L (++)).
Qed.

(** Loop rule for [for i := a; i < a+n; i++]: an invariant indexed by the next
    iteration, total correctness. *)
Lemma foldM_seqZ {B} (f : B → Z → res B) (P : Z → B → Prop) a n s :
  0 ≤ n →
  P a s →
  (∀ i s, a ≤ i < a + n → P i s → ∃ s', f s i = Ok s' ∧ P (i + 1) s') →
  ∃ s', foldM f s (seqZ a n) = Ok s' ∧ P (a + n) s'.
Proof.
  intros Hn. rewrite <-(Z2Nat.id n) in * by lia. generalize (Z.to_nat n) as k.
  clear n Hn. intros k. revert a s. induction k as [|k IH]; intros a s Hs Hstep.
  - exists s. rewrite Z.add_0_r. done.
  - rewrite seqZ_cons by lia. simpl.
    destruct (Hstep a s) as (s1 & -> & H1); [lia|done|]. simpl.
    replace (Z.pred (Z.of_nat (S k))) with (Z.of_nat k) by lia.
    destruct (IH (Z.succ a) s1) as (s' & E & HP).
    + done.
    + intros i s2 Hi. apply Hstep. lia.
    + exists s'. split; [done|]. by replace (a + Z.of_nat (S k)) with (Z.succ a + Z.of_nat k) by lia.
Qed.

(** Loop rule for [for i := a+n-1; i >= a; i--]. *)
Lemma foldM_down {B} (f : B → Z → res B) (P : Z → B → Prop) a n s :
  0 ≤ n →
  P (a + n) s →
  (∀ i s, a ≤ i < a + n → P (i + 1) s → ∃ s', f s i = Ok s' ∧ P i s') →
  ∃ s', foldM f s (reverse (seqZ a n)) = Ok s' ∧ P a s'.
Proof.
  intros Hn. revert s. pattern n. apply natlike_ind; [by intros s; rewrite Z.add_0_r; exists s| |done].
  clear n Hn. intros n Hn IH s Hs Hstep.
  rewrite <-Z.add_1_r, (seqZ_app a n 1), reverse_app by lia.
  change (reverse (seqZ (a + n) 1)) with [Z.of_nat 0 + (a + n)]. rewrite Z.add_0_l. simpl.
  destruct (Hstep (a + n) s) as (s1 & -> & H1); [lia|by replace (a + n + 1) with (a + Z.succ n) by lia|]. simpl.
  apply IH; [done|]. intros i s2 Hi. apply Hstep. lia.
Qed.

Lemma foldM_seqZ_down {B} (f : B → Z → res B) (P : Z → B → Prop) n s :
  0 ≤ n →
  P n s →
  (∀ i s, 0 ≤ i < n → P (i + 1) s → ∃ s', f s i = Ok s' ∧ P i s') →
  ∃ s', foldM f s (reverse (seqZ 0 n)) = Ok s' ∧ P 0 s'.
Proof. exact (foldM_down f P 0 n s). Qed.

(** ** Big-endian byte strings

    Bytes are integers in [0, 256). *)

Definition is_byte (b : Z) : Prop := 0 ≤ b < 256.

Fixpoint be_bytes (n : nat) (x : Z) : list Z :=
  match n with
  | O => []
  | S n' => be_bytes n' (x / 256) ++ [x mod 256]
  end.

Definition be_val (l : list Z) : Z := foldl (λ a b, a * 256 + b) 0 l.

Lemma be_bytes_length n x : length (be_bytes n x) = n.
Proof. revert x. induction n as [|n IH]; intros x; simpl; [done|]. rewrite length_app, IH. simpl. lia. Qed.

Lemma be_bytes_is_byte n x : Forall is_byte (be_bytes n x).
Proof.
  revert x. induction n as [|n IH]; intros x; simpl; [done|].
  apply Forall_app. split; [apply IH|]. constructor; [|done]. apply Z.mod_pos_bound. lia.
Qed.

Lemma be_val_app l k : be_val (l ++ k) = be_val l * 256 ^ zlen k + be_val k.
Proof.
  unfold be_val. rewrite foldl_app.
  generalize (foldl (λ a b : Z, a * 256 + b) 0 l) as a. clear l. intros a. revert a.
  induction k as [|b k IH] using rev_ind; intros a; simpl; [unfold zlen; simpl; lia|].
  rewrite !foldl_app, zlen_app. simpl. rewrite IH.
  change (zlen [b]) with 1. rewrite Z.pow_add_r by (pose proof (zlen_nonneg k); lia). lia.
Qed.

Lemma be_val_bytes n x : be_val (be_bytes n x) = x mod 256 ^ Z.of_nat n.
Proof.
  revert x. induction n as [|n IH]; intros x; [simpl; by rewrite Z.mod_1_r|].
  cbn [be_bytes]. rewrite be_val_app, IH. change (zlen [x mod 256]) with 1.
  replace (Z.of_nat (S n)) with (1 + Z.of_nat n) by lia.
  rewrite Z.pow_add_r, Z.pow_1_r, Z.rem_mul_r by lia.
  unfold be_val. simpl. lia.
Qed.

Lemma be_bytes_val l n :
  Forall is_byte l → length l = n → be_bytes n (be_val l) = l.
Proof.
  intros H <-. induction l as [|b l IH] using rev_ind; [done|].
  apply Forall_app in H as [H1 H2]. inversion_clear H2 as [|? ? Hb _].
  rewrite length_app, Nat.add_comm. simpl. rewrite be_val_app.
  change (zlen [b]) with 1. change (be_val [b]) with b. unfold is_byte in Hb.
  rewrite Z.pow_1_r, (Z.add_comm _ b), Z.div_add, Z.div_small, Z.mod_add, Z.mod_small by lia.
  by rewrite Z.add_0_l, IH.
Qed.

Lemma be_val_bound l : Forall is_byte l → 0 ≤ be_val l < 256 ^ zlen l.
Proof.
  intros H. pose proof (be_val_bytes (length l) (be_val l)) as E.
  rewrite be_bytes_val in E by done. rewrite E. unfold zlen. apply Z.mod_pos_bound, Z.pow_pos_nonneg; lia.
Qed.

#[global] Arguments be_bytes : simpl never.
#[global] Arguments be_val : simpl never.

Lemma StronglySorted_lookup_lt {A} (R : A → A → Prop) l i j a b :
  StronglySorted R l → l !! i = Some a → l !! j = Some b → (i < j)%nat → R a b.
Proof.
  intros Hs. revert i j. induction Hs as [|x l Hs IH Hx]; intros i j Ha Hb Hij; [done|].
  destruct j as [|j]; [lia|]. destruct i as [|i]; simpl in *.
  - injection Ha as <-. rewrite Forall_forall in Hx. apply Hx. by eapply list_elem_of_lookup_2.
  - apply (IH i j); [done..|lia].
Qed.

(** ** Automation *)

Create HintDb go.
#[export] Hint Resolve zlen_nonneg be_bytes_is_byte be_bytes_length int64_range : go.

(** Splits every monadic [Ok] equation of the context into its steps. *)
Ltac inv_res :=
  repeat match goal with
  | H : _ ≫= _ = Ok _ |- _ => apply res_bind_Ok in H as (? & ? & ?)
  | H : Ok _ = Ok _ |- _ => injection H; clear H; intros; subst
  | H : Panic = Ok _ |- _ => discriminate H
  | H : Require _ = Ok _ |- _ => apply Require_Ok in H
  end.
