(* ===== verification/Utils.v ===== *)
(** * Integer and slice helpers

    Models src/prover/utils/utils.go and minmax.go: arithmetic on 64-bit [int]s
    (division truncates, overflow wraps) and the generic slice functions. *)

From S2P Require Export Prelude.

Module Utils.

(** ** Integers *)

Definition IsPowerOfTwo (n : Z) : bool := (Z.land n (int64 (n - 1)) =? 0) && (0 <? n).

Definition Abs (a : Z) : Z :=
  let mask := Z.shiftr a 63 in
  int64 (Z.lxor a mask - mask).

Definition DivCeil (a b : Z) : res Z :=
  if b =? 0 then Panic
  else
    let r := int64 (Z.quot a b) in
    if int64 (b * r) <? a then Ok (int64 (r + 1)) else Ok r.

Definition DivExact (a b : Z) : res Z :=
  if b =? 0 then Panic
  else
    let r := int64 (Z.quot a b) in
    if negb (int64 (r * b) =? a) then Panic else Ok r.

Definition smear (k v : Z) : Z := Z.lor v (Z.shiftr v k).

(** The instance at [int]. *)
Definition NextPowerOfTwo (n : Z) : res Z :=
  if (n <? 0) || (2 ^ 62 <? n) then Panic
  else
    let v := int64 (n - 1) in
    let v := smear 1 v in
    let v := smear 2 v in
    let v := smear 4 v in
    let v := smear 8 v in
    let v := smear 16 v in
    let v := smear 32 v in
    Ok (int64 (v + 1)).

Definition PositiveMod (a n : Z) : res Z :=
  if n =? 0 then Panic
  else let r := Z.rem a n in if r <? 0 then Ok (int64 (r + n)) else Ok r.

(** The loop of [Log2Floor]; an [int] has at most 63 bits to shift out. *)
Fixpoint log2_loop (fuel : nat) (i r : Z) : Z :=
  match fuel with
  | O => r
  | S f => if 1 <? i then log2_loop f (Z.shiftr i 1) (r + 1) else r
  end.

Definition Log2Floor (a : Z) : Z := log2_loop 63 a 0.

Definition Log2Ceil (a : Z) : Z :=
  let floor := Log2Floor a in
  if negb (a =? int64 (Z.shiftl 1 floor)) then floor + 1 else floor.

(** The subtractive loop of [GCD]: [None] when the fuel runs out. *)
Fixpoint gcd_loop (fuel : nat) (a b : Z) : option Z :=
  match fuel with
  | O => None
  | S f => if a =? b then Some a else if b <? a then gcd_loop f (a - b) b else gcd_loop f a (b - a)
  end.

Definition GCD (fuel : nat) (a b : Z) : option Z := gcd_loop fuel a b.

Definition NextMultipleOf (n multiple : Z) : res Z :=
  if multiple =? 0 then Panic
  else Ok (int64 (multiple * int64 (Z.quot (int64 (int64 (n + multiple) - 1)) multiple))).

(** [ToInt] on an [uint64], [ToUint64] and [ToUint16] on an [int]. *)
Definition ToInt (i : Z) : res Z := if 2 ^ 63 - 1 <? i then Panic else Ok i.
Definition ToUint64 (i : Z) : res Z := if i <? 0 then Panic else Ok i.
Definition ToUint16 (i : Z) : res Z := if (i <? 0) || (2 ^ 16 - 1 <? i) then Panic else Ok i.

(** [Max] and [Min] of a list of integers. *)
Definition Max (s : list Z) : res Z :=
  match s with [] => Panic | x :: _ => Ok (foldl (λ m v, if m <? v then v else m) x s) end.
Definition Min (s : list Z) : res Z :=
  match s with [] => Panic | x :: _ => Ok (foldl (λ m v, if v <? m then v else m) x s) end.

(** ** Slices *)

Section slices.
Context {T : Type}.

Definition Join (ts : list (list T)) : list T := foldl (λ r t, r ++ t) [] ts.

Definition RightPadWith (s : list T) (n : Z) (padWith : T) : res (list T) :=
  if n <? zlen s then Panic else Ok (s ++ replicate (Z.to_nat (n - zlen s)) padWith).

Definition RepeatSlice (s : list T) (n : Z) : list T :=
  foldl (λ r _, r ++ s) [] (seqZ 0 n).

Definition MapFunc {U} (s : list T) (f : T → U) : list U := f <$> s.

Definition Ternary (cond : bool) (ifTrue ifFalse : T) : T := if cond then ifTrue else ifFalse.

(** [SpliceExact]: the slices [slice[i : i+n]]. *)
Definition SpliceExact (s : list T) (n : Z) : res (list (list T)) :=
  if n =? 0 then Panic
  else if negb (Z.rem (zlen s) n =? 0) then Panic
  else mapR (λ k, slice s (k * n) (k * n + n)) (seqZ 0 (zlen s / n)).

Definition GrowSliceSize (zero : T) (s : list T) (size : Z) : list T :=
  if size <=? zlen s then s else s ++ replicate (Z.to_nat (size - zlen s)) zero.

(** [counts[x]++] over the indices. *)
Definition countInts (s : list Z) : res (list Z) :=
  m ← Max s;
  if m + 1 <? 0 then Panic
  else foldM (λ counts x, c ← idx counts x; store counts x (c + 1)) (replicate (Z.to_nat (m + 1)) 0) s.

Definition Partition (s : list T) (index : list Z) : res (list (list T)) :=
  if negb (zlen s =? zlen index) then Panic
  else if zlen s =? 0 then Ok []
  else
    m ← Max index;
    if m + 1 <? 0 then Panic
    else
      _ ← countInts index;
      foldM (λ ps xi, p ← idx ps (snd xi); store ps (snd xi) (p ++ [fst xi]))
        (replicate (Z.to_nat (m + 1)) []) (zip s index).
End slices.

(** [FillRange] on a slice of [n] entries, [RangeSlice]. *)
Definition FillRange (n start : Z) : list Z := (λ l, l + start) <$> seqZ 0 n.
Definition RangeSlice (length : Z) (startingPoints : list Z) : list Z :=
  let startingPoints := match startingPoints with [] => [0] | _ => startingPoints end in
  concat ((λ s, FillRange length s) <$> startingPoints).

(** ** Facts *)

Lemma Log2Floor_loop fuel i r :
  0 ≤ i < 2 ^ (Z.of_nat fuel + 1) → log2_loop fuel i r = r + Z.log2 i.
Proof.
  revert i r. induction fuel as [|f IH]; intros i r Hi.
  - change (2 ^ _) with 2 in Hi. assert (i = 0 ∨ i = 1) as [->| ->] by lia; simpl; lia.
  - simpl. destruct (Z.ltb_spec 1 i).
    + rewrite IH.
      * rewrite <-Z.div2_spec. pose proof (Z.log2_shiftr i 1 ltac:(lia)) as E.
        rewrite <-Z.div2_spec in E. pose proof (Z.log2_pos i ltac:(lia)). lia.
      * rewrite Z.shiftr_div_pow2 by lia. change (2 ^ 1) with 2.
        rewrite Nat2Z.inj_succ in Hi. replace (Z.succ (Z.of_nat f) + 1) with (Z.succ (Z.of_nat f + 1)) in Hi by lia.
        rewrite Z.pow_succ_r in Hi by lia. split; [apply Z.div_pos; lia|apply Z.div_lt_upper_bound; lia].
    + assert (i = 0 ∨ i = 1) as [->| ->] by lia; simpl; lia.
Qed.

Lemma Log2Floor_spec a : 0 ≤ a < 2 ^ 63 → Log2Floor a = Z.log2 a.
Proof. intros Ha. unfold Log2Floor. rewrite Log2Floor_loop; [lia|]. change (Z.of_nat 63 + 1) with 64. lia. Qed.

Lemma int64_pow2 k : 0 ≤ k ≤ 62 → int64 (Z.shiftl 1 k) = 2 ^ k.
Proof.
  intros Hk. rewrite Z.shiftl_1_l, int64_id; [done|]. unfold in_int64.
  pose proof (Z.pow_pos_nonneg 2 k ltac:(lia) ltac:(lia)).
  pose proof (Z.pow_le_mono_r 2 k 62 ltac:(lia) ltac:(lia)). lia.
Qed.

Lemma log2_62 a : 0 < a < 2 ^ 63 → 0 ≤ Z.log2 a ≤ 62.
Proof. intros Ha. pose proof (Z.log2_nonneg a). pose proof (proj1 (Z.log2_lt_pow2 a 63 ltac:(lia)) ltac:(lia)). lia. Qed.

Lemma Log2Ceil_spec a : 0 < a < 2 ^ 63 → Log2Ceil a = Z.log2_up a.
Proof.
  intros Ha. unfold Log2Ceil. pose proof (log2_62 a Ha). rewrite Log2Floor_spec, int64_pow2 by lia.
  pose proof (Z.log2_up_eqn a) as Hup.
  destruct (Z.eqb_spec a (2 ^ Z.log2 a)) as [E|Hne]; simpl.
  - rewrite E at 2. rewrite Z.log2_up_pow2 by lia. done.
  - destruct (decide (a = 1)) as [->|]; [by destruct Hne|]. rewrite Hup by lia.
    pose proof (Z.log2_spec a ltac:(lia)).
    assert (Z.log2 (Z.pred a) = Z.log2 a); [|lia].
    apply Z.log2_unique; lia.
Qed.

Lemma Log2Ceil_pow2 k : 0 ≤ k ≤ 62 → Log2Ceil (2 ^ k) = k.
Proof.
  intros Hk. pose proof (Z.pow_pos_nonneg 2 k ltac:(lia) ltac:(lia)).
  pose proof (Z.pow_lt_mono_r 2 k 63 ltac:(lia) ltac:(lia) ltac:(lia)).
  rewrite Log2Ceil_spec by lia. apply Z.log2_up_pow2; lia.
Qed.

(** [n & (n-1)] clears the lowest bit set. *)
Lemma land_pred_pow2 k : 0 ≤ k → Z.land (2 ^ k) (2 ^ k - 1) = 0.
Proof.
  intros Hk. replace (2 ^ k - 1) with (Z.ones k) by (rewrite Z.ones_equiv; lia).
  rewrite Z.land_ones by done. apply Z.mod_same. apply Z.pow_nonzero; lia.
Qed.

Lemma land_pred_zero n : 0 < n → Z.land n (n - 1) = 0 → n = 2 ^ Z.log2 n.
Proof.
  intros Hn E. pose proof (Z.log2_spec n Hn) as [L U]. pose proof (Z.log2_nonneg n).
  destruct (decide (n = 2 ^ Z.log2 n)) as [|Hne]; [done|exfalso].
  assert (Z.log2 (n - 1) = Z.log2 n) as E1 by (apply Z.log2_unique; lia).
  pose proof (Z.pow_pos_nonneg 2 (Z.log2 n) ltac:(lia) ltac:(lia)).
  pose proof (Z.bit_log2 n Hn) as B1. pose proof (Z.bit_log2 (n - 1) ltac:(lia)) as B2. rewrite E1 in B2.
  apply (f_equal (λ z, Z.testbit z (Z.log2 n))) in E. by rewrite Z.land_spec, B1, B2, Z.testbit_0_l in E.
Qed.

Lemma IsPowerOfTwo_spec n : in_int64 n → IsPowerOfTwo n = true ↔ ∃ k, 0 ≤ k ≤ 62 ∧ n = 2 ^ k.
Proof.
  intros R. unfold IsPowerOfTwo, in_int64 in *. rewrite andb_true_iff, Z.eqb_eq, Z.ltb_lt. split.
  - intros [E Hn]. rewrite int64_id in E by (unfold in_int64; lia).
    exists (Z.log2 n). split; [apply log2_62; lia|by apply land_pred_zero].
  - intros (k & Hk & ->). pose proof (Z.pow_pos_nonneg 2 k ltac:(lia) ltac:(lia)).
    rewrite int64_id by (unfold in_int64; lia). split; [apply land_pred_pow2; lia|done].
Qed.

(** ** NextPowerOfTwo *)

(** [w] has the bits of [v] copied to the [n - 1] positions below each. *)
Definition smeared (n v w : Z) : Prop :=
  ∀ i, 0 ≤ i → Z.testbit w i = true ↔ ∃ t, 0 ≤ t < n ∧ Z.testbit v (i + t) = true.

Lemma smeared_smear n v w : 0 < n → smeared n v w → smeared (2 * n) v (smear n w).
Proof.
  intros Hn S i Hi. unfold smear. rewrite Z.lor_spec, Z.shiftr_spec, orb_true_iff, (S i), (S (i + n)) by lia. split.
  - intros [(t & Ht & B)|(t & Ht & B)]; [exists t; split; [lia|done]|].
    exists (n + t). split; [lia|]. by rewrite Z.add_assoc.
  - intros (t & Ht & B). destruct (decide (t < n)); [left; exists t; split; [lia|done]|].
    right. exists (t - n). split; [lia|]. by replace (i + n + (t - n)) with (i + t) by lia.
Qed.

Lemma smeared_ones v w : 0 < v < 2 ^ 63 → smeared 64 v w → 0 ≤ w → w = Z.ones (Z.log2 v + 1).
Proof.
  intros Hv S Hw. pose proof (log2_62 v ltac:(lia)). apply Z.bits_inj'. intros i Hi.
  apply eq_true_iff_eq. rewrite (S i Hi), Z.ones_spec_iff by lia. split.
  - intros (t & Ht & B). split; [done|]. destruct (decide (i + t ≤ Z.log2 v)); [lia|].
    rewrite Z.bits_above_log2 in B by lia. done.
  - intros [_ Hlt]. exists (Z.log2 v - i). split; [lia|]. replace (i + (Z.log2 v - i)) with (Z.log2 v) by lia.
    apply Z.bit_log2. lia.
Qed.

Lemma smear_nonneg k v : 0 ≤ v → 0 ≤ smear k v.
Proof. intros Hv. unfold smear. rewrite Z.lor_nonneg, Z.shiftr_nonneg. done. Qed.

Definition smear_all (v : Z) : Z := smear 32 (smear 16 (smear 8 (smear 4 (smear 2 (smear 1 v))))).

Lemma smear_all_spec v : 0 < v < 2 ^ 63 → smear_all v = Z.ones (Z.log2 v + 1).
Proof.
  intros Hv. apply smeared_ones; [done| |unfold smear_all; repeat apply smear_nonneg; lia].
  unfold smear_all. apply (smeared_smear 32), (smeared_smear 16), (smeared_smear 8), (smeared_smear 4),
    (smeared_smear 2), (smeared_smear 1); try lia.
  intros i Hi. split.
  - intros B. exists 0. split; [lia|]. by rewrite Z.add_0_r.
  - intros (t & Ht & B). replace t with 0 in B by lia. by rewrite Z.add_0_r in B.
Qed.

Lemma NextPowerOfTwo_Ok n : 0 < n ≤ 2 ^ 62 → NextPowerOfTwo n = Ok (2 ^ Z.log2_up n).
Proof.
  intros Hn. unfold NextPowerOfTwo. rewrite (proj2 (Z.ltb_ge n 0)), (proj2 (Z.ltb_ge (2 ^ 62) n)) by lia. cbn [orb].
  rewrite (int64_id (n - 1)) by (unfold in_int64; lia). fold (smear_all (n - 1)).
  destruct (decide (n = 1)) as [->|Hne]; [done|].
  rewrite smear_all_spec, Z.log2_up_eqn, Z.ones_equiv by lia. rewrite <-Z.sub_1_r.
  replace (Z.succ (Z.log2 (n - 1))) with (Z.log2 (n - 1) + 1) by lia.
  rewrite Z.sub_1_r, Z.add_1_r, Z.succ_pred. rewrite int64_id; [done|].
  pose proof (Z.log2_lt_pow2 (n - 1) 62 ltac:(lia)) as [HL _]. specialize (HL ltac:(lia)).
  pose proof (Z.log2_nonneg (n - 1)).
  pose proof (Z.pow_le_mono_r 2 (Z.succ (Z.log2 (n - 1))) 62 ltac:(lia) ltac:(lia)).
  pose proof (Z.pow_pos_nonneg 2 (Z.succ (Z.log2 (n - 1))) ltac:(lia) ltac:(lia)).
  unfold in_int64. lia.
Qed.

(** ** Division *)

Lemma rem_cases a b :
  0 < b → (0 ≤ a ∧ 0 ≤ Z.rem a b < b) ∨ (a ≤ 0 ∧ - b < Z.rem a b ≤ 0).
Proof.
  intros Hb. destruct (Z.le_ge_cases 0 a); [left|right]; (split; [lia|]).
  - apply Z.rem_bound_pos; lia.
  - pose proof (Z.rem_bound_pos (- a) b ltac:(lia) ltac:(lia)) as B. rewrite Z.rem_opp_l in B by lia. lia.
Qed.

Lemma DivCeil_spec a b :
  in_int64 a → 0 < b < 2 ^ 63 → ∃ r, DivCeil a b = Ok r ∧ b * (r - 1) < a ≤ b * r.
Proof.
  unfold in_int64. intros Ha Hb. unfold DivCeil. rewrite (proj2 (Z.eqb_neq b 0)) by lia.
  pose proof (Z.quot_rem a b ltac:(lia)) as Hqr. set (q := Z.quot a b) in *.
  pose proof (rem_cases a b ltac:(lia)) as Hr.
  assert (- 2 ^ 63 ≤ q < 2 ^ 63) by nia.
  rewrite (int64_id q), (int64_id (b * q)) by (unfold in_int64; nia).
  destruct (Z.ltb_spec (b * q) a).
  - exists (q + 1). rewrite int64_id by (unfold in_int64; nia). split; [done|]. nia.
  - exists q. split; [done|]. nia.
Qed.

Lemma PositiveMod_spec a n : 0 < n < 2 ^ 63 → PositiveMod a n = Ok (a mod n).
Proof.
  intros Hn. unfold PositiveMod. rewrite (proj2 (Z.eqb_neq n 0)) by lia.
  pose proof (Z.quot_rem a n ltac:(lia)) as Hqr.
  pose proof (rem_cases a n ltac:(lia)) as Hr.
  destruct (Z.ltb_spec (Z.rem a n) 0).
  - rewrite int64_id by (unfold in_int64; lia). f_equal.
    apply (Z.mod_unique_pos a n (Z.quot a n - 1)); lia.
  - f_equal. apply (Z.mod_unique_pos a n (Z.quot a n)); lia.
Qed.

Lemma NextMultipleOf_spec n m :
  0 ≤ n < 2 ^ 62 → 0 < m < 2 ^ 62 →
  ∃ k, NextMultipleOf n m = Ok (m * k) ∧ n ≤ m * k < n + m.
Proof.
  intros Hn Hm. unfold NextMultipleOf. rewrite (proj2 (Z.eqb_neq m 0)) by lia.
  rewrite (int64_id (n + m)), (int64_id (n + m - 1)) by (unfold in_int64; lia).
  pose proof (Z.quot_rem (n + m - 1) m ltac:(lia)). pose proof (Z.rem_bound_pos (n + m - 1) m ltac:(lia) ltac:(lia)).
  set (q := Z.quot (n + m - 1) m) in *. assert (0 ≤ q < 2 ^ 63) by nia.
  rewrite (int64_id q), int64_id by (unfold in_int64; nia). exists q. split; [done|nia].
Qed.

(** The subtractive Euclid ends within [a + b] turns on positive integers. *)
Lemma GCD_spec a b fuel :
  0 < a → 0 < b → a + b ≤ Z.of_nat fuel → GCD fuel a b = Some (Z.gcd a b).
Proof.
  unfold GCD. revert a b. induction fuel as [|f IH]; intros a b Ha Hb Hf; [lia|]. simpl.
  destruct (Z.eqb_spec a b) as [->|]; [by rewrite Z.gcd_diag, Z.abs_eq by lia|].
  destruct (Z.ltb_spec b a).
  - rewrite IH by lia. f_equal. rewrite Z.gcd_comm, Z.gcd_sub_diag_r, Z.gcd_comm. done.
  - rewrite IH by lia. f_equal. apply Z.gcd_sub_diag_r.
Qed.

(** With a zero the loop of [GCD] never ends. *)
Lemma GCD_zero a fuel : 0 < a → GCD fuel a 0 = None.
Proof.
  intros Ha. unfold GCD. induction fuel as [|f IH]; simpl; [done|].
  rewrite (proj2 (Z.eqb_neq a 0)), (proj2 (Z.ltb_lt 0 a)), Z.sub_0_r by lia. done.
Qed.

(** ** Partition *)

Lemma Max_foldl l x :
  let m := foldl (λ m v : Z, if m <? v then v else m) x l in x ≤ m ∧ (∀ v, v ∈ l → v ≤ m) ∧ (m = x ∨ m ∈ l).
Proof.
  revert x. induction l as [|y l IH]; intros x; simpl.
  - split; [lia|]. split; [|by left]. intros v Hv. by apply elem_of_nil in Hv.
  - destruct (IH (if x <? y then y else x)) as (H1 & H2 & H3). destruct (Z.ltb_spec x y).
    + split; [lia|]. split; [intros v [->|Hv]%elem_of_cons; [lia|auto]|]. right. destruct H3 as [->|?]; set_solver.
    + split; [lia|]. split; [intros v [->|Hv]%elem_of_cons; [lia|auto]|]. destruct H3 as [->|?]; [by left|set_solver].
Qed.

Lemma Max_spec s m : Max s = Ok m → (∀ v, v ∈ s → v ≤ m) ∧ m ∈ s.
Proof.
  destruct s as [|x s]; [done|]. intros E. pose proof (Max_foldl (x :: s) x) as Hf. cbv zeta in Hf.
  assert (foldl (λ m v : Z, if m <? v then v else m) x (x :: s) = m) as E' by (unfold Max in E; congruence).
  rewrite E' in Hf. destruct Hf as (_ & H2 & [->|H3]); split; set_solver.
Qed.

Lemma countInts_Ok s m : Max s = Ok m → (∀ v, v ∈ s → 0 ≤ v) → ∃ c, countInts s = Ok c.
Proof.
  intros Hm Hpos. destruct (Max_spec s m Hm) as [Hle Hin]. unfold countInts. rewrite Hm, res_bind_ret.
  pose proof (Hpos m Hin). rewrite (proj2 (Z.ltb_ge (m + 1) 0)) by lia.
  destruct (foldM_rule (λ counts x, c ← idx counts x; store counts x (c + 1)) (λ _ c, zlen c = m + 1) s
    (replicate (Z.to_nat (m + 1)) 0)) as (c & -> & _).
  - apply zlen_replicate. lia.
  - intros l x c Hx Hc. pose proof (Hle x Hx). pose proof (Hpos x Hx).
    destruct (idx_is_Ok c x) as [y Hy]; [lia|]. rewrite Hy, res_bind_ret, store_Ok by lia.
    eexists. split; [done|]. by rewrite zlen_insert.
  - by exists c.
Qed.

(** The class of an index is the subsequence of the entries that carry it. *)
Lemma Partition_spec {T} (s : list T) index m :
  length s = length index → Max index = Ok m → (∀ v, v ∈ index → 0 ≤ v) →
  ∃ ps, Partition s index = Ok ps ∧ zlen ps = m + 1 ∧
    ∀ k, 0 ≤ k ≤ m → ps !! Z.to_nat k = Some ((filter (λ xi : T * Z, xi.2 = k) (zip s index)).*1).
Proof.
  intros HL Hm Hpos. destruct (Max_spec index m Hm) as [Hle Hin]. pose proof (Hpos m Hin).
  unfold Partition. unfold zlen at 1 2. rewrite HL, Z.eqb_refl. cbn [negb].
  rewrite (proj2 (Z.eqb_neq (zlen s) 0)).
  2:{ unfold zlen. rewrite HL. destruct index; [by apply elem_of_nil in Hin|done]. }
  rewrite Hm, res_bind_ret, (proj2 (Z.ltb_ge (m + 1) 0)) by lia.
  destruct (countInts_Ok index m Hm Hpos) as [c ->]. rewrite res_bind_ret.
  destruct (foldM_rule (λ ps (xi : T * Z), p ← idx ps (snd xi); store ps (snd xi) (p ++ [fst xi]))
    (λ l ps, zlen ps = m + 1 ∧ ∀ k, 0 ≤ k ≤ m → ps !! Z.to_nat k = Some ((filter (λ xi : T * Z, xi.2 = k) l).*1))
    (zip s index) (replicate (Z.to_nat (m + 1)) [])) as (ps & -> & Hl & Hk).
  - split; [apply zlen_replicate; lia|]. intros k Hk. apply lookup_replicate. split; [done|lia].
  - intros l [x i] ps Hxi [Hlen Hps]. assert (i ∈ index) as Hi by (by eapply elem_of_zip_r).
    pose proof (Hle i Hi). pose proof (Hpos i Hi). cbn [fst snd].
    assert (idx ps i = Ok ((filter (λ xi : T * Z, xi.2 = i) l).*1)) as -> by (apply idx_Ok; split; [lia|apply Hps; lia]).
    rewrite res_bind_ret, store_Ok by lia.
    eexists. split; [done|]. split; [by rewrite zlen_insert|]. intros k Hk. rewrite filter_app, fmap_app.
    destruct (decide (k = i)) as [->|Hne].
    + rewrite list_lookup_insert_eq by (unfold zlen in Hlen; lia). by rewrite (filter_cons_True _ (x, i) []).
    + rewrite list_lookup_insert_ne, Hps by lia. rewrite (filter_cons_False _ (x, i) []) by (simpl; congruence).
      simpl. by rewrite app_nil_r.
  - by exists ps.
Qed.

(** The pieces have the length asked for and give back the slice. *)
Lemma SpliceExact_spec {T} (s : list T) n k :
  0 < n → 0 ≤ k → zlen s = k * n →
  ∃ ls, SpliceExact s n = Ok ls ∧ concat ls = s ∧ Forall (λ l, zlen l = n) ls ∧ zlen ls = k.
Proof.
  intros Hn Hk E. unfold SpliceExact. rewrite (proj2 (Z.eqb_neq n 0)), E, Z.rem_mul, Z.div_mul by lia. cbn [negb Z.eqb].
  assert (Hpieces : ∀ j : nat, Z.of_nat j ≤ k →
    ∃ ls, mapR (λ i, slice s (i * n) (i * n + n)) (seqZ 0 (Z.of_nat j)) = Ok ls ∧
      concat ls = take (j * Z.to_nat n) s ∧ Forall (λ l, zlen l = n) ls ∧ length ls = j).
  { induction j as [|j IH]; intros Hj; [by exists []|]. destruct IH as (ls & Els & Ec & Fl & Ll); [lia|].
    rewrite seqZ_S, mapR_app, Els, res_bind_ret. simpl. rewrite slice_Ok by nia. simpl.
    eexists. split; [reflexivity|]. rewrite concat_app, Ec, Forall_app, length_app. simpl.
    replace (0 + Z.of_nat j) with (Z.of_nat j) by lia. rewrite app_nil_r.
    replace (Z.of_nat j * n + n - Z.of_nat j * n) with n by lia. unfold zlen in *.
    split; [|split; [|lia]].
    - replace (Z.to_nat (Z.of_nat j * n)) with (j * Z.to_nat n)%nat by nia.
      rewrite take_take_drop. f_equal. lia.
    - split; [done|]. constructor; [|done]. rewrite length_take, length_drop. nia. }
  destruct (Hpieces (Z.to_nat k)) as (ls & Els & Ec & Fl & Ll); [lia|]. rewrite Z2Nat.id in Els by lia.
  exists ls. split; [done|]. split; [|split; [done|unfold zlen; lia]]. rewrite Ec. apply take_ge. unfold zlen in E. nia.
Qed.
End Utils.
