(* ===== verification/Parallel.v ===== *)
(** * Parallel loops

    Models src/prover/utils/parallel: how [Execute] cuts an interval into tasks,
    the [AtomicCounter], and [ExecuteChunky] and [ExecuteThreadAware] as state
    machines whose steps are the atomic actions of the workers. [Interleave] is
    the general form of a concurrent execution of sequential programs. *)

From S2P Require Export Prelude.

Module Parallel.

(** ** parallel.go *)

(** The loop that launches the tasks: [i] of [k] left, with the extra iterations to
    hand out and the offset they made. *)
Fixpoint ranges_loop (k : nat) (i per extra offset : Z) : list (Z * Z) :=
  match k with
  | O => []
  | S k' =>
    let start := i * per + offset in
    let stop := start + per in
    if 0 <? extra then (start, stop + 1) :: ranges_loop k' (i + 1) per (extra - 1) (offset + 1)
    else (start, stop) :: ranges_loop k' (i + 1) per extra offset
  end.

(** The intervals that [Execute] passes to [work], given [runtime.GOMAXPROCS(0)] and
    the optional argument. *)
Definition Execute_ranges (gomaxprocs : Z) (maxCpus : list Z) (nbIterations : Z) : list (Z * Z) :=
  let nbTasks := match maxCpus with [m] => if m <? 1 then 1 else m | _ => gomaxprocs end in
  let nbTasks := Z.max 1 nbTasks in
  if nbTasks =? 1 then [(0, nbIterations)]
  else
    let per := Z.quot nbIterations nbTasks in
    let '(per, nbTasks) := if per <? 1 then (1, nbIterations) else (per, nbTasks) in
    let extra := nbIterations - nbTasks * per in
    ranges_loop (Z.to_nat nbTasks) 0 per extra 0.

(** The iterations of an interval. *)
Definition iterations (r : Z * Z) : list Z := seqZ r.1 (r.2 - r.1).

Lemma ranges_loop_cover k i per extra offset :
  0 ≤ per → 0 ≤ extra ≤ Z.of_nat k →
  concat (iterations <$> ranges_loop k i per extra offset) =
    seqZ (i * per + offset) (Z.of_nat k * per + extra).
Proof.
  intros Hp. revert i extra offset. induction k as [|k IH]; intros i extra offset He.
  - simpl. by replace extra with 0 by lia.
  - cbn [ranges_loop]. destruct (Z.ltb_spec 0 extra); rewrite fmap_cons; cbn [concat]; rewrite IH by lia;
      unfold iterations; cbn [fst snd]; symmetry.
    + replace (Z.of_nat (S k) * per + extra) with
        ((i * per + offset + per + 1 - (i * per + offset)) + (Z.of_nat k * per + (extra - 1))) by lia.
      rewrite seqZ_app by nia. do 2 f_equal; lia.
    + replace (Z.of_nat (S k) * per + extra) with
        ((i * per + offset + per - (i * per + offset)) + (Z.of_nat k * per + extra)) by lia.
      rewrite seqZ_app by nia. do 2 f_equal; lia.
Qed.

Lemma Execute_ranges_cover gomaxprocs maxCpus n :
  0 ≤ n → concat (iterations <$> Execute_ranges gomaxprocs maxCpus n) = seqZ 0 n.
Proof.
  intros Hn. unfold Execute_ranges.
  set (nbTasks := Z.max 1 _). assert (1 ≤ nbTasks) as H1 by lia. clearbody nbTasks.
  destruct (Z.eqb_spec nbTasks 1) as [->|Hne].
  - simpl. unfold iterations. simpl. by rewrite app_nil_r, Z.sub_0_r.
  - rewrite Z.quot_div_nonneg by lia. pose proof (Z.div_mod n nbTasks ltac:(lia)) as E.
    pose proof (Z.mod_pos_bound n nbTasks ltac:(lia)) as B.
    destruct (Z.ltb_spec (n / nbTasks) 1).
    + rewrite ranges_loop_cover by lia. f_equal. lia.
    + rewrite ranges_loop_cover by lia. f_equal. lia.
Qed.

Lemma ranges_elem cpus n k : 0 ≤ n → 0 ≤ k < n ↔ ∃ r, r ∈ Execute_ranges cpus [] n ∧ k ∈ iterations r.
Proof.
  intros Hn. rewrite <-(Z.add_0_l n) at 1. rewrite <-elem_of_seqZ, <-(Execute_ranges_cover cpus [] n), elem_of_concat by done.
  split.
  - intros (? & (r & -> & Hr)%list_elem_of_fmap & Hk). by exists r.
  - intros (r & Hr & Hk). exists (iterations r). split; [|done]. apply list_elem_of_fmap. by exists r.
Qed.

(** ** Interleavings *)

Section interleave.
Context {A : Type}.

(** [s] runs the sequences [ls] to their ends, one element of one of them at a time. *)
Inductive Interleave : list (list A) → list A → Prop :=
| Interleave_done ls : Forall (λ l, l = []) ls → Interleave ls []
| Interleave_step ls1 x l ls2 s :
    Interleave (ls1 ++ l :: ls2) s → Interleave (ls1 ++ (x :: l) :: ls2) (x :: s).

Lemma Interleave_elem ls s : Interleave ls s → s ≡ₚ concat ls.
Proof.
  induction 1 as [ls Hls|ls1 x l ls2 s _ IH].
  - induction Hls as [|l ls -> _ IH]; [done|]. exact IH.
  - rewrite IH, !concat_app. cbn [concat app]. rewrite <-Permutation_middle. done.
Qed.

(** Sequences whose steps only need earlier steps of their own, or steps already in
    [D], keep this property when they are interleaved. *)
Variable deps : A → list A.

Fixpoint contained (D l : list A) : Prop :=
  match l with
  | [] => True
  | x :: l' => deps x ⊆ D ∧ contained (x :: D) l'
  end.

Lemma contained_mono D D' l : D ⊆ D' → contained D l → contained D' l.
Proof.
  revert D D'. induction l as [|x l IH]; intros D D' Hs; simpl; [done|]. intros [H1 H2]. split; [set_solver|].
  eapply IH; [|exact H2]. set_solver.
Qed.

Lemma contained_Interleave ls s : Interleave ls s → ∀ D, Forall (contained D) ls → contained D s.
Proof.
  induction 1 as [ls Hls|ls1 x l ls2 s _ IH]; intros D HD; simpl; [done|].
  apply Forall_app in HD as [HD1 [[Hx Hl] HD2]%Forall_cons]. split; [done|]. apply IH.
  apply Forall_app. split; [|constructor; [done|]].
  - eapply Forall_impl; [exact HD1|]. intros k. apply contained_mono. set_solver.
  - eapply Forall_impl; [exact HD2|]. intros k. apply contained_mono. set_solver.
Qed.

Lemma contained_app D l k : contained D (l ++ k) ↔ contained D l ∧ contained (reverse l ++ D) k.
Proof.
  revert D. induction l as [|x l IH]; intros D; simpl; [naive_solver|]. rewrite IH, reverse_cons.
  rewrite <-(assoc_L (++)). simpl. naive_solver.
Qed.
End interleave.

(** ** atomic_counter.go *)

Record AtomicCounter : Type := mkCounter { n : Z; current : Z }.

Definition NewAtomicCounter (n : Z) : AtomicCounter := mkCounter n 0.

(** [current] is an [atomic.Uint32]. *)
Definition Next (c : AtomicCounter) : (Z * bool) * AtomicCounter :=
  let added := (current c + 1) mod 2 ^ 32 in
  let c := mkCounter (n c) added in
  let cur := added - 1 in
  if n c <=? cur then ((0, false), c) else ((cur, true), c).

(** ** chunky.go, thread_aware.go: workers that draw tasks from a counter *)

(** The workers at the head of their loop, the tasks that are being worked on, the
    tasks done ([wg.Done] was called) and the workers that left. *)
Record Workers : Type := mkWorkers {
  counter : AtomicCounter;
  idle : nat;
  working : list Z;
  finished : list Z;
  left_loop : nat
}.

Definition start_workers (nbIterations : Z) (numcpu : nat) : Workers :=
  mkWorkers (NewAtomicCounter nbIterations) numcpu [] [] 0.

Inductive worker_step : Workers → Workers → Prop :=
| worker_take c c' i w f e task :
    Next c = ((task, true), c') →
    worker_step (mkWorkers c (S i) w f e) (mkWorkers c' i (task :: w) f e)
| worker_leave c c' i w f e :
    Next c = ((0, false), c') →
    worker_step (mkWorkers c (S i) w f e) (mkWorkers c' i w f (S e))
| worker_finish c i w1 task w2 f e :
    worker_step (mkWorkers c i (w1 ++ task :: w2) f e) (mkWorkers c (S i) (w1 ++ w2) (task :: f) e).

(** No counter wraps: tasks and workers together are fewer than 2^32. *)
Definition bounded (N : Z) (numcpu : nat) : Prop := 0 ≤ N ∧ N + Z.of_nat numcpu < 2 ^ 32.

Record workers_inv (N : Z) (numcpu : nat) (s : Workers) : Prop := {
  wi_n : n (counter s) = N;
  wi_threads : (idle s + length (working s) + left_loop s = numcpu)%nat;
  wi_count : 0 ≤ current (counter s) ∧
    current (counter s) = Z.min N (current (counter s)) + Z.of_nat (left_loop s);
  wi_tasks : working s ++ finished s ≡ₚ seqZ 0 (Z.min N (current (counter s)))
}.

Lemma Next_small c :
  0 ≤ current c < 2 ^ 32 - 1 →
  Next c = (if n c <=? current c then (0, false) else (current c, true), mkCounter (n c) (current c + 1)).
Proof.
  intros Hc. unfold Next. rewrite Z.mod_small by lia. cbn [Parallel.n]. rewrite Z.add_simpl_r. by destruct (_ <=? _).
Qed.

Lemma seqZ_snoc a k : 0 ≤ k → seqZ a (k + 1) = seqZ a k ++ [a + k].
Proof. intros Hk. rewrite seqZ_app by lia. done. Qed.

Lemma worker_step_inv N numcpu s s' :
  bounded N numcpu → workers_inv N numcpu s → worker_step s s' → workers_inv N numcpu s'.
Proof.
  intros [HN HB] [E1 E2 [E3 E3'] E4] Hs. destruct Hs as [c c' i w f e task E|c c' i w f e E|c i w1 task w2 f e];
    simpl in *.
  - rewrite Next_small in E by lia. destruct (Z.leb_spec (n c) (current c)); [done|]. injection E as <- <-.
    split; simpl; [done|lia|lia|]. rewrite Z.min_r in * by lia. rewrite seqZ_snoc by lia.
    rewrite E4. rewrite Permutation_app_comm. done.
  - rewrite Next_small in E by lia. destruct (Z.leb_spec (n c) (current c)); [|done]. injection E as <-.
    split; simpl; [done|lia|lia|]. rewrite Z.min_l in * by lia. done.
  - rewrite length_app in E2. simpl in E2. split; simpl; [done|rewrite length_app; lia|done|]. rewrite <-E4.
    rewrite <-!(assoc_L (++)). simpl. by rewrite <-Permutation_middle.
Qed.

Definition reachable (N : Z) (numcpu : nat) (s : Workers) : Prop := rtc worker_step (start_workers N numcpu) s.

Lemma reachable_inv N numcpu s : bounded N numcpu → reachable N numcpu s → workers_inv N numcpu s.
Proof.
  intros HB Hr. assert (workers_inv N numcpu (start_workers N numcpu)) as H0.
  { destruct HB. split; simpl; [done|lia|lia|]. by rewrite Z.min_r by lia. }
  revert H0. induction Hr as [|s1 s2 s3 Hs _ IH]; [done|]. intros I. apply IH. by eapply worker_step_inv.
Qed.

(** When [wg.Wait] returns every task was done once. *)
Lemma workers_complete N numcpu s :
  bounded N numcpu → reachable N numcpu s → zlen (finished s) = N → finished s ≡ₚ seqZ 0 N ∧ working s = [].
Proof.
  intros HB Hr Hl. destruct (reachable_inv N numcpu s HB Hr) as [E1 E2 [E3 E3'] E4]. destruct HB as [HN HB].
  pose proof (Permutation_length E4) as EL. rewrite length_app, length_seqZ in EL. unfold zlen in Hl.
  assert (working s = []) as Ew by (apply length_zero_iff_nil; lia).
  rewrite Ew in E4. simpl in E4. split; [|done]. rewrite E4. f_equiv. lia.
Qed.

(** Until then some worker can move. *)
Lemma workers_progress N numcpu s :
  bounded N numcpu → (0 < numcpu)%nat → reachable N numcpu s → zlen (finished s) < N → ∃ s', worker_step s s'.
Proof.
  intros HB Hcpu Hr Hl. destruct (reachable_inv N numcpu s HB Hr) as [E1 E2 [E3 E3'] E4]. destruct HB as [HN HB].
  destruct s as [c i w f e]; simpl in *. destruct w as [|task w].
  - pose proof (Permutation_length E4) as EL. simpl in EL, E2. rewrite length_seqZ in EL. unfold zlen in Hl.
    assert (current c < N) by lia. destruct i as [|i]; [lia|]. eexists. eapply (worker_take c).
    rewrite Next_small by lia. rewrite (proj2 (Z.leb_gt (n c) (current c))) by lia. done.
  - eexists. apply (worker_finish c i [] task w f e).
Qed.

(** Steps that are left at most. *)
Definition work_left (N : Z) (s : Workers) : Z :=
  2 * (N - Z.min N (current (counter s))) + 2 * zlen (working s) + Z.of_nat (idle s).

Lemma worker_step_decreases N numcpu s s' :
  bounded N numcpu → workers_inv N numcpu s → worker_step s s' → work_left N s' < work_left N s.
Proof.
  intros [HN HB] [E1 E2 [E3 E3'] _] Hs. unfold work_left, zlen.
  destruct Hs as [c c' i w f e task E|c c' i w f e E|c i w1 task w2 f e]; simpl in *.
  - rewrite Next_small in E by lia. destruct (Z.leb_spec (n c) (current c)); [done|]. injection E as <- <-. simpl. lia.
  - rewrite Next_small in E by lia. destruct (Z.leb_spec (n c) (current c)); [|done]. injection E as <-. simpl. lia.
  - rewrite !length_app. simpl. lia.
Qed.

(** No run is longer than the work there is at the start. *)
Lemma workers_terminate N numcpu k s :
  bounded N numcpu → nsteps worker_step k (start_workers N numcpu) s → Z.of_nat k ≤ 2 * N + Z.of_nat numcpu.
Proof.
  intros HB Hr. cut (Z.of_nat k + work_left N s ≤ 2 * N + Z.of_nat numcpu ∧ 0 ≤ work_left N s); [lia|].
  pose proof (reachable_inv N numcpu (start_workers N numcpu) HB (rtc_refl _ _)) as H0.
  assert (work_left N (start_workers N numcpu) = 2 * N + Z.of_nat numcpu) as E0.
  { destruct HB. unfold work_left; simpl. rewrite Z.min_r by lia. unfold zlen; simpl. lia. }
  rewrite <-E0. clear E0. induction Hr as [s|k s1 s2 s3 Hs _ IH].
  - split; [lia|]. unfold work_left, zlen. lia.
  - pose proof (worker_step_decreases _ _ _ _ HB H0 Hs). destruct (IH (worker_step_inv _ _ _ _ HB H0 Hs)). lia.
Qed.

(** Whatever is chosen at each step, [P] holds at some point. *)
Inductive inevitably {S : Type} (R : S → S → Prop) (P : S → Prop) : S → Prop :=
| inevitably_now s : P s → inevitably R P s
| inevitably_later s s' : R s s' → (∀ s', R s s' → inevitably R P s') → inevitably R P s.

Definition all_done (N : Z) (numcpu : nat) (s : Workers) : Prop :=
  finished s ≡ₚ seqZ 0 N ∧ working s = [] ∧ left_loop s = numcpu.

Lemma workers_move N numcpu s : bounded N numcpu → (0 < numcpu)%nat → reachable N numcpu s → all_done N numcpu s ∨ ∃ s', worker_step s s'.
Proof.
  intros HB Hcpu Hr. destruct (Z.lt_ge_cases (zlen (finished s)) N) as [Hl|Hl]; [right; by eapply workers_progress|].
  destruct (reachable_inv N numcpu s HB Hr) as [E1 E2 [E3 E3'] E4]. pose proof (Permutation_length E4) as EL.
  rewrite length_app, length_seqZ in EL. unfold zlen in Hl. destruct HB as [HN HB].
  destruct (workers_complete N numcpu s (conj HN HB) Hr) as [EF EW]; [unfold zlen; lia|].
  rewrite EW in E2. simpl in E2. destruct s as [c [|i] w f e]; simpl in *; [left; split_and!; simpl; [done..|lia]|]. right.
  eexists. refine (worker_leave c _ i w f e _). rewrite Next_small by lia. by rewrite (proj2 (Z.leb_le (n c) (current c))) by lia.
Qed.

(** Every schedule comes to the end. *)
Lemma workers_inevitable N numcpu s : bounded N numcpu → (0 < numcpu)%nat → reachable N numcpu s → inevitably worker_step (all_done N numcpu) s.
Proof.
  intros HB Hcpu Hr. remember (Z.to_nat (work_left N s)) as k eqn:Ek. revert s Hr Ek. induction k as [k IH] using lt_wf_ind. intros s Hr Ek.
  destruct (workers_move N numcpu s HB Hcpu Hr) as [Hd|[s' Hs]]; [by constructor|]. apply (inevitably_later _ _ s s' Hs). clear s' Hs. intros s' Hs.
  pose proof (reachable_inv N numcpu s HB Hr) as I. pose proof (worker_step_decreases N numcpu s s' HB I Hs).
  assert (reachable N numcpu s') as Hr' by (eapply rtc_r; [exact Hr|exact Hs]).
  assert (0 ≤ work_left N s') by (unfold work_left, zlen; lia).
  eapply IH; [|exact Hr'|reflexivity]. lia.
Qed.
End Parallel.

(** * The vector arena

    Models src/prover/utils/arena/vector_arena.go, an allocator that hands out
    pieces of one block of memory and is called by concurrent goroutines. [get] is
    two atomic actions when the arena is exhausted: the offset is moved and then
    moved back. Between the two, other callers see the offset moved. *)

Module Arena.

(** The block is described by its length; [None] is the slice [nil] after [Free]. *)
Record VectorArena : Type := mkArena { data : option Z; offset : Z; isMmap : bool }.

Definition data_len (a : VectorArena) : Z := default 0 (data a).

Definition NewVectorArena (sizeof capacity : Z) : VectorArena :=
  mkArena (Some (int64 (sizeof * capacity))) 0 false.

Definition NewVectorArenaMmap (mmap_fails : bool) (sizeof capacity : Z) : VectorArena :=
  if mmap_fails then NewVectorArena sizeof capacity
  else mkArena (Some (int64 (sizeof * capacity))) 0 true.

Definition Free (a : VectorArena) : VectorArena :=
  if isMmap a && bool_decide (is_Some (data a)) then mkArena None (offset a) false else a.

(** The first atomic action of [get] and its test: the piece, if there is room. *)
Definition get_add (a : VectorArena) (nbBytes : Z) : option (Z * Z) * VectorArena :=
  let n := int64 (offset a + nbBytes) in
  let a := mkArena (data a) n (isMmap a) in
  let start := int64 (n - nbBytes) in
  let stop := n in
  if data_len a <? stop then (None, a) else (Some (start, stop), a).

(** The second atomic action, when there was none. *)
Definition get_undo (a : VectorArena) (nbBytes : Z) : VectorArena :=
  mkArena (data a) (int64 (offset a + - nbBytes)) (isMmap a).

(** [get] without interference. *)
Definition get (a : VectorArena) (nbBytes : Z) : option (Z * Z) * VectorArena :=
  let '(piece, a) := get_add a nbBytes in
  match piece with None => (None, get_undo a nbBytes) | Some _ => (piece, a) end.

Definition Reset (a : VectorArena) (off : Z) : VectorArena := mkArena (data a) off (isMmap a).

Definition Offset (a : VectorArena) : Z := offset a.

(** [Get]: a piece of the arena, or [None] for a slice made on the heap. Taking the
    address of the first byte of an empty piece panics. *)
Definition Get (sizeof : Z) (a : VectorArena) (vectorLen : Z) : res (option (Z * Z)) * VectorArena :=
  let requiredBytes := int64 (sizeof * vectorLen) in
  let '(chunk, a) := get a requiredBytes in
  match chunk with
  | None => (Ok None, a)
  | Some (s, e) => (if e - s <=? 0 then Panic else Ok (Some (s, e)), a)
  end.

(** ** Concurrent callers *)

(** The arena with the pieces handed out and the undo actions still to come. *)
Record Callers : Type := mkCallers { arena : VectorArena; pieces : list (Z * Z); undos : list Z }.

Inductive step : Callers → Callers → Prop :=
| step_get a a' ps us nb s e :
    0 ≤ nb → in_int64 (offset a + nb) → get_add a nb = (Some (s, e), a') →
    step (mkCallers a ps us) (mkCallers a' ((s, e) :: ps) us)
| step_fail a a' ps us nb :
    0 ≤ nb → in_int64 (offset a + nb) → get_add a nb = (None, a') →
    step (mkCallers a ps us) (mkCallers a' ps (nb :: us))
| step_undo a ps us1 nb us2 :
    step (mkCallers a ps (us1 ++ nb :: us2)) (mkCallers (get_undo a nb) ps (us1 ++ us2)).

Definition init (a : VectorArena) : Callers := mkCallers a [] [].

Definition disjoint (p q : Z * Z) : Prop := p.2 ≤ q.1 ∨ q.2 ≤ p.1.

(** Pieces in order, the last one first, none past [top]. *)
Fixpoint stacked (top : Z) (ps : list (Z * Z)) : Prop :=
  match ps with
  | [] => 0 ≤ top
  | (s, e) :: ps' => s ≤ e ≤ top ∧ stacked s ps'
  end.

Lemma stacked_bound top ps : stacked top ps → 0 ≤ top ∧ ∀ p, p ∈ ps → 0 ≤ p.1 ≤ p.2 ∧ p.2 ≤ top.
Proof.
  revert top. induction ps as [|[s e] ps IH]; intros top; simpl.
  - intros Ht. split; [done|]. intros p Hp. by apply elem_of_nil in Hp.
  - intros [Hse Hs]. destruct (IH s Hs) as [H0 Hps]. split; [lia|].
    intros p [->|Hp]%elem_of_cons; simpl; [lia|]. pose proof (Hps p Hp). lia.
Qed.

Lemma stacked_mono top top' ps : top ≤ top' → stacked top ps → stacked top' ps.
Proof. destruct ps as [|[s e] ps]; simpl; [lia|]. intros H [? ?]. split; [lia|done]. Qed.

(** Stacked pieces do not overlap. *)
Lemma stacked_disjoint top ps p q i j :
  stacked top ps → ps !! i = Some p → ps !! j = Some q → i ≠ j → disjoint p q.
Proof.
  revert top i j p q. induction ps as [|[s e] ps IH]; intros top i j p q; simpl; [done|]. intros [Hse Hs].
  destruct (stacked_bound s ps Hs) as [_ Hps].
  destruct i as [|i], j as [|j]; simpl; intros Ei Ej Hij; [done|..].
  - injection Ei as <-. apply list_elem_of_lookup_2 in Ej. pose proof (Hps q Ej). right. simpl. lia.
  - injection Ej as <-. apply list_elem_of_lookup_2 in Ei. pose proof (Hps p Ei). left. simpl. lia.
  - apply (IH s i j); [done|done|done|congruence].
Qed.

Lemma get_add_spec a nb :
  in_int64 (offset a) → in_int64 (offset a + nb) →
  get_add a nb = (if data_len a <? offset a + nb then None else Some (offset a, offset a + nb),
                  mkArena (data a) (offset a + nb) (isMmap a)).
Proof.
  intros H1 H2. unfold get_add. rewrite (int64_id (offset a + nb)) by done. unfold data_len; cbn [data].
  rewrite int64_id by (replace (offset a + nb - nb) with (offset a) by lia; done).
  replace (offset a + nb - nb) with (offset a) by lia. by destruct (_ <? _).
Qed.

(** ** Callers that ask for pieces of one size *)

(** All requests are for [nb] bytes: pending undo actions mean that the arena is
    full, so no piece is handed out above the real offset. *)
Record same_inv (nb len : Z) (c : Callers) : Prop := {
  si_data : data_len (arena c) = len;
  si_undos : Forall (λ u, u = nb) (undos c);
  si_range : in_int64 (offset (arena c));
  si_offset : offset (arena c) = nb * (zlen (pieces c) + zlen (undos c));
  si_stacked : stacked (nb * zlen (pieces c)) (pieces c);
  si_full : undos c ≠ [] → len < nb * (zlen (pieces c) + 1)
}.

Inductive same_step (nb : Z) : Callers → Callers → Prop :=
| same_get a a' ps us s e :
    in_int64 (offset a + nb) → get_add a nb = (Some (s, e), a') →
    same_step nb (mkCallers a ps us) (mkCallers a' ((s, e) :: ps) us)
| same_fail a a' ps us :
    in_int64 (offset a + nb) → get_add a nb = (None, a') →
    same_step nb (mkCallers a ps us) (mkCallers a' ps (nb :: us))
| same_undo a ps us1 us2 :
    same_step nb (mkCallers a ps (us1 ++ nb :: us2)) (mkCallers (get_undo a nb) ps (us1 ++ us2)).

Lemma zlen_cons {A} (x : A) l : zlen (x :: l) = zlen l + 1.
Proof. unfold zlen. simpl length. lia. Qed.

Lemma same_step_inv nb len c c' : 0 ≤ nb → same_inv nb len c → same_step nb c c' → same_inv nb len c'.
Proof.
  intros Hnb [E1 E2 E3 E4 E5 E6] Hs. destruct Hs as [a a' ps us s e Hi E|a a' ps us Hi E|a ps us1 us2]; cbn in *.
  - rewrite get_add_spec in E by done. rewrite E1 in E.
    destruct (Z.ltb_spec len (offset a + nb)); [done|]. injection E as <- <- <-.
    assert (us = []) as ->.
    { destruct us as [|u us]; [done|exfalso]. pose proof (E6 ltac:(done)).
      rewrite E4, zlen_cons in *. pose proof (zlen_nonneg us). nia. }
    split; cbn; rewrite ?zlen_cons in *; change (zlen (@nil Z)) with 0 in *; try done.
    + rewrite E4. lia.
    + split; [lia|]. by replace (offset a) with (nb * zlen ps) by lia.
  - rewrite get_add_spec in E by done. rewrite E1 in E.
    destruct (Z.ltb_spec len (offset a + nb)); [|done]. injection E as <-.
    split; cbn; rewrite ?zlen_cons; try done.
    + by constructor.
    + lia.
    + intros _. destruct us as [|u us]; [|by apply E6]. change (zlen (@nil Z)) with 0 in *. lia.
  - apply Forall_app in E2 as [F1 [_ F2]%Forall_cons]. rewrite !zlen_app, zlen_cons in *.
    assert (offset a + - nb = nb * (zlen ps + (zlen us1 + zlen us2))) as E by lia.
    pose proof (zlen_nonneg us1). pose proof (zlen_nonneg us2). pose proof (zlen_nonneg ps).
    assert (in_int64 (offset a + - nb)).
    { assert (0 ≤ nb * (zlen ps + (zlen us1 + zlen us2))) by (apply Z.mul_nonneg_nonneg; lia).
      unfold in_int64 in *. lia. }
    split; cbn; rewrite ?zlen_app; try done.
    + by apply Forall_app.
    + by apply int64_range.
    + by rewrite int64_id.
    + intros _. apply E6. by destruct us1.
Qed.

Lemma same_reachable nb len flag c :
  0 ≤ nb → rtc (same_step nb) (init (mkArena (Some len) 0 flag)) c → same_inv nb len c.
Proof.
  intros Hnb Hr. assert (same_inv nb len (init (mkArena (Some len) 0 flag))) as H0.
  { split; cbn; try done; change (zlen (@nil (Z * Z))) with 0; change (zlen (@nil Z)) with 0; lia. }
  revert H0. induction Hr as [|c1 c2 c3 Hs _ IH]; [done|]. intros I. apply IH. by eapply same_step_inv.
Qed.

(** ** Callers that ask for pieces of several sizes *)

(** A ten-byte arena. Two large requests fail; while one of them has moved the
    offset back and the other has not, pieces are handed out that overlap. *)
Definition clash0 : Callers := mkCallers (mkArena (Some 10) 0 false) [] [].
Definition clash : Callers := mkCallers (mkArena (Some 10) 10 false) [(8, 10); (6, 9); (0, 5)] [].

Lemma clash_reachable : rtc step clash0 clash.
Proof.
  eapply rtc_l; [eapply (step_get _ _ _ _ 5); [lia|by vm_compute|reflexivity]|].
  eapply rtc_l; [eapply (step_fail _ _ _ _ 8); [lia|by vm_compute|reflexivity]|].
  eapply rtc_l; [eapply (step_fail _ _ _ _ 1); [lia|by vm_compute|reflexivity]|].
  eapply rtc_l; [apply (step_undo _ _ [1] 8 [])|].
  eapply rtc_l; [eapply (step_get _ _ _ _ 3); [lia|by vm_compute|reflexivity]|].
  eapply rtc_l; [apply (step_undo _ _ [] 1 [])|].
  eapply rtc_l; [eapply (step_get _ _ _ _ 2); [lia|by vm_compute|reflexivity]|].
  apply rtc_refl.
Qed.
End Arena.
