(* ===== verification/Collections.v ===== *)
(** * Checked maps

    Models src/prover/utils/collection/mapping.go. Go iterates over a map in an
    arbitrary order, a new one at every [range]: the operations that iterate take
    the sequence of entries visited as an argument [range], and the facts hold for
    every sequence that lists each entry once. *)

From S2P Require Export Prelude.

Module Mapping.
Section mapping.
Context `{Countable K} {V : Type}.

Record t : Type := mk { InnerMap : gmap K V }.

(** An order in which [for k, v := range m] may visit the map. *)
Definition enumerates (range : list (K * V)) (m : gmap K V) : Prop := range ≡ₚ map_to_list m.

Definition NewMapping : t := {| InnerMap := ∅ |}.

Definition MustGet (kv : t) (key : K) : res V :=
  match InnerMap kv !! key with Some r => Ok r | None => Panic end.

Definition TryGet (kv : t) (key : K) : option V := InnerMap kv !! key.

Definition InsertNew (kv : t) (key : K) (value : V) : res t :=
  match InnerMap kv !! key with
  | Some _ => Panic
  | None => Ok {| InnerMap := <[key := value]> (InnerMap kv) |}
  end.

Definition Update (kv : t) (key : K) (value : V) : t :=
  {| InnerMap := <[key := value]> (InnerMap kv) |}.

Definition ListAllKeys (range : list (K * V)) : list K := range.*1.

(** Looks every key up before it panics. *)
Definition MustExists (kv : t) (keys : list K) : res unit :=
  Require (forallb (λ k, bool_decide (is_Some (InnerMap kv !! k))) keys).

Definition IterateFunc {S} (f : S → K → V → res S) (s : S) (range : list (K * V)) : res S :=
  foldM (λ s kv, f s kv.1 kv.2) s range.

Fixpoint Exists (kv : t) (ks : list K) : bool :=
  match ks with
  | [] => true
  | k :: ks' => match InnerMap kv !! k with Some _ => Exists kv ks' | None => false end
  end.

Definition ListValues (range : list (K * V)) : list V := range.*2.

Definition Del (kv : t) (k : K) : res t :=
  _ ← MustGet kv k; Ok {| InnerMap := delete k (InnerMap kv) |}.

Definition TryDel (kv : t) (k : K) : res (bool * t) :=
  let found := Exists kv [k] in
  if found then (_ ← MustGet kv k; Ok (found, {| InnerMap := delete k (InnerMap kv) |}))
  else Ok (found, kv).

Definition Len (range : list (K * V)) : Z := zlen (ListAllKeys range).

Definition Clone (range : list (K * V)) : res t :=
  foldM (λ r kv, InsertNew r kv.1 kv.2) NewMapping range.

(** ** Facts *)

Lemma MustGet_Ok kv k v : MustGet kv k = Ok v ↔ InnerMap kv !! k = Some v.
Proof. unfold MustGet. destruct (_ !! _); naive_solver. Qed.

Lemma InsertNew_fresh kv k v :
  InnerMap kv !! k = None → InsertNew kv k v = Ok {| InnerMap := <[k := v]> (InnerMap kv) |}.
Proof. unfold InsertNew. by intros ->. Qed.

Lemma enumerates_NoDup range m : enumerates range m → NoDup range.*1.
Proof. intros E. rewrite E. apply NoDup_fst_map_to_list. Qed.

Lemma enumerates_elem range m k v : enumerates range m → (k, v) ∈ range ↔ m !! k = Some v.
Proof. intros E. rewrite E. apply elem_of_map_to_list. Qed.

Lemma ListAllKeys_elem range m k : enumerates range m → k ∈ ListAllKeys range ↔ is_Some (m !! k).
Proof.
  intros E. unfold ListAllKeys. rewrite list_elem_of_fmap. split.
  - intros ([k' v] & -> & Hin). apply (enumerates_elem _ _ _ _ E) in Hin. by eexists.
  - intros [v Hv]. exists (k, v). split; [done|]. by apply (enumerates_elem _ _ _ _ E).
Qed.

Lemma Len_size range m : enumerates range m → Len range = Z.of_nat (size m).
Proof.
  intros E. unfold Len, ListAllKeys, zlen. rewrite length_fmap, E, length_map_to_list. done.
Qed.

Lemma Exists_spec kv ks : Exists kv ks = true ↔ ∀ k, k ∈ ks → is_Some (InnerMap kv !! k).
Proof.
  induction ks as [|k ks IH]; simpl.
  - split; [|done]. intros _ k Hk. by apply elem_of_nil in Hk.
  - destruct (InnerMap kv !! k) as [v|] eqn:E.
    + rewrite IH. split.
      * intros Hall k' [->|?]%elem_of_cons; [by eexists|auto].
      * intros Hall k' Hk'. apply Hall. set_solver.
    + split; [done|]. intros Hall. destruct (Hall k) as [v Hv]; [set_solver|congruence].
Qed.

Lemma MustExists_spec kv ks : MustExists kv ks = Ok () ↔ Exists kv ks = true.
Proof.
  unfold MustExists. rewrite Require_Ok, List.forallb_forall, Exists_spec.
  setoid_rewrite bool_decide_eq_true. by setoid_rewrite list_elem_of_In.
Qed.

(** The clone does not depend on the order of the visit. *)
Lemma Clone_spec range m : enumerates range m → Clone range = Ok {| InnerMap := m |}.
Proof.
  intros E. pose proof (enumerates_NoDup _ _ E) as ND. unfold Clone.
  assert (Hgen : ∀ r (acc : gmap K V), NoDup r.*1 → (∀ k v, (k, v) ∈ r → acc !! k = None) →
    foldM (λ r kv, InsertNew r kv.1 kv.2) {| InnerMap := acc |} r =
      Ok {| InnerMap := list_to_map r ∪ acc |}).
  { induction r as [|[k v] r IH]; intros acc NDr Hfree; simpl; [by rewrite (left_id_L ∅ _)|].
    apply NoDup_cons in NDr as [Hk NDr]. unfold InsertNew at 2. simpl.
    rewrite (Hfree k v) by set_solver. simpl. rewrite IH; [|done|].
    - do 2 f_equal. rewrite <-insert_union_l, insert_union_r; [done|].
      by apply not_elem_of_list_to_map_1.
    - intros k' v' Hin. rewrite lookup_insert_ne; [apply (Hfree k' v'); set_solver|].
      intros ->. apply Hk. apply list_elem_of_fmap. by exists (k', v'). }
  unfold NewMapping. rewrite Hgen; [|done|intros; apply lookup_empty].
  rewrite (right_id_L ∅ _). do 2 f_equal. rewrite (list_to_map_proper _ (map_to_list m)) by done.
  apply list_to_map_to_list.
Qed.
End mapping.
Arguments t : clear implicits.
Arguments t K {_ _} V.
End Mapping.

(** * Collections

    Models src/prover/utils/collection: the insertion-ordered map
    ([deterministic_map.go]), the sets ([set.go]), the queue ([fifo.go]) and the
    growing table ([vecvec.go]). *)



(** ** deterministic_map.go *)

Module DetMap.
Section detmap.
Context `{Countable K} {V : Type}.

Record t : Type := mk { InnerMap : gmap K Z; Values : list V; Keys : list K }.

Definition MakeDeterministicMap : t := mk ∅ [] [].

Definition InsertNew (kv : t) (key : K) (value : V) : res t :=
  match InnerMap kv !! key with
  | Some _ => Panic
  | None => Ok (mk (<[key := zlen (Values kv)]> (InnerMap kv)) (Values kv ++ [value]) (Keys kv ++ [key]))
  end.

Definition Set_ (kv : t) (key : K) (value : V) : res t :=
  match InnerMap kv !! key with
  | None => InsertNew kv key value
  | Some i => vs ← store (Values kv) i value; Ok (mk (InnerMap kv) vs (Keys kv))
  end.

(** [GetPtr] checks the index before it takes the address. *)
Definition GetPtr (kv : t) (key : K) : res (option Z) :=
  match InnerMap kv !! key with
  | None => Ok None
  | Some i => if zlen (Values kv) <=? i then Panic else Ok (Some i)
  end.

Definition Get (kv : t) (key : K) : res (option V) :=
  match InnerMap kv !! key with
  | None => Ok None
  | Some i => v ← idx (Values kv) i; Ok (Some v)
  end.

Definition MustGet (kv : t) (key : K) : res V :=
  match InnerMap kv !! key with None => Panic | Some i => idx (Values kv) i end.

Definition HasKey (kv : t) (key : K) : bool := bool_decide (is_Some (InnerMap kv !! key)).

(** What the iterators yield when they run to the end. *)
Definition IterKey (kv : t) : list K := Keys kv.
Definition IterValues (kv : t) : list V := Values kv.

Definition ValueSlice (kv : t) : list V := Values kv.
Definition Len (kv : t) : Z := zlen (Values kv).

(** The index and the two slices agree. *)
Record wf (kv : t) : Prop := {
  wf_length : length (Keys kv) = length (Values kv);
  wf_index k i : InnerMap kv !! k = Some i ↔ 0 ≤ i ∧ Keys kv !! Z.to_nat i = Some k
}.

(** The map it stands for. *)
Definition lookup (kv : t) (k : K) : option V := i ← InnerMap kv !! k; Values kv !! Z.to_nat i.

Lemma wf_empty : wf MakeDeterministicMap.
Proof. split; [done|]. intros k i. simpl. rewrite lookup_empty, lookup_nil. naive_solver. Qed.

Lemma wf_bound kv k i : wf kv → InnerMap kv !! k = Some i → 0 ≤ i < zlen (Values kv).
Proof.
  intros [HL HI] [Hi E]%HI. apply lookup_lt_Some in E. unfold zlen. lia.
Qed.

Lemma map_Get_spec kv k : wf kv → Get kv k = Ok (lookup kv k).
Proof.
  intros W. unfold Get, lookup. destruct (InnerMap kv !! k) as [i|] eqn:E; [|done]. simpl.
  pose proof (wf_bound _ _ _ W E) as B. destruct (idx_is_Ok (Values kv) i B) as [v Hv]. rewrite Hv.
  apply idx_Ok in Hv as [_ ->]. done.
Qed.

Lemma lookup_None kv k : wf kv → lookup kv k = None ↔ InnerMap kv !! k = None.
Proof.
  intros W. unfold lookup. destruct (InnerMap kv !! k) as [i|] eqn:E; [|done]. simpl.
  pose proof (wf_bound _ _ _ W E) as B. destruct (lookup_lt_is_Some_2 (Values kv) (Z.to_nat i)) as [v ->];
    [unfold zlen in B; lia|done].
Qed.

Lemma InsertNew_spec kv k v :
  wf kv → lookup kv k = None →
  ∃ kv', InsertNew kv k v = Ok kv' ∧ wf kv' ∧ Keys kv' = Keys kv ++ [k] ∧
    ∀ k', lookup kv' k' = if decide (k' = k) then Some v else lookup kv k'.
Proof.
  intros W Hk. apply (lookup_None _ _ W) in Hk. unfold InsertNew. rewrite Hk. eexists. split; [done|].
  destruct W as [HL HI]. split; [|split; [done|]].
  - split; cbn; [rewrite !length_app; simpl; lia|]. intros k' i. unfold zlen.
    rewrite lookup_insert_Some, lookup_app_Some, HI. rewrite <-HL. split.
    + intros [[<- <-]|[Hne [Hi E]]]; (split; [lia|]).
      * right. rewrite Nat2Z.id, Nat.sub_diag. done.
      * by left.
    + intros [Hi [E|[Hge E]]].
      * right. split; [|done]. intros <-. assert (InnerMap kv !! k = Some i); [by apply HI|congruence].
      * apply list_lookup_singleton_Some in E as [E ->]. left. split; [done|]. lia.
  - intros k'. unfold lookup. cbn. case_decide as D.
    + subst. rewrite lookup_insert_eq. simpl. unfold zlen. by rewrite Nat2Z.id, lookup_app_r, Nat.sub_diag by lia.
    + rewrite lookup_insert_ne by congruence. destruct (InnerMap kv !! k') as [i|] eqn:E; [|done]. simpl.
      apply HI in E as [Hi E]. apply lookup_lt_Some in E. by rewrite lookup_app_l by lia.
Qed.

(** [Set] keeps the position of a key that is there. *)
Lemma Set_spec kv k v :
  wf kv →
  ∃ kv', Set_ kv k v = Ok kv' ∧ wf kv' ∧
    Keys kv' = (if decide (lookup kv k = None) then Keys kv ++ [k] else Keys kv) ∧
    ∀ k', lookup kv' k' = if decide (k' = k) then Some v else lookup kv k'.
Proof.
  intros W. unfold Set_. destruct (InnerMap kv !! k) as [i|] eqn:E.
  - pose proof (wf_bound _ _ _ W E) as B. rewrite store_Ok, res_bind_ret by done. eexists. split; [done|].
    rewrite decide_False by (rewrite (lookup_None _ _ W), E; done). destruct W as [HL HI].
    split; [|split; [done|]].
    + split; cbn; [by rewrite length_insert|done].
    + intros k'. unfold lookup. cbn. case_decide as D.
      * subst. rewrite E. simpl. apply list_lookup_insert_eq. unfold zlen in B. lia.
      * destruct (InnerMap kv !! k') as [j|] eqn:Ej; [|done]. simpl. apply list_lookup_insert_ne.
        intros Eij. apply D. apply HI in E as [Hi E], Ej as [Hj Ej]. rewrite Eij in E. congruence.
  - apply (lookup_None _ _ W) in E. rewrite decide_True by done. by apply InsertNew_spec.
Qed.
End detmap.
Arguments t K {_ _} V.
End DetMap.

(** ** set.go *)

Module GoSet.
Section goset.
Context `{Countable K}.

Record t : Type := mk { Inner : gset K }.

Definition NewSet : t := mk ∅.

Fixpoint Exists (kv : t) (ks : list K) : bool :=
  match ks with
  | [] => true
  | k :: ks' => if decide (k ∈ Inner kv) then Exists kv ks' else false
  end.

(** Returns whether the key was there already. *)
Definition Insert (kv : t) (k : K) : bool * t :=
  if decide (k ∈ Inner kv) then (true, kv) else (false, mk ({[k]} ∪ Inner kv)).

(** The keys of [other] are written one by one, in some order [range]. *)
Definition Merge (kv : t) (range : list K) : t :=
  foldl (λ s k, mk ({[k]} ∪ Inner s)) kv range.

Definition Clear (kv : t) : t := mk ∅.
Definition Size (kv : t) : Z := Z.of_nat (size (Inner kv)).

Lemma set_Exists_spec kv ks : Exists kv ks = true ↔ ∀ k, k ∈ ks → k ∈ Inner kv.
Proof.
  induction ks as [|k ks IH]; simpl; [set_solver|]. case_decide; [rewrite IH; set_solver|]. set_solver.
Qed.

Lemma Insert_spec kv k : Insert kv k = (bool_decide (k ∈ Inner kv), mk ({[k]} ∪ Inner kv)).
Proof.
  unfold Insert. case_decide as D; [|by rewrite bool_decide_false]. rewrite bool_decide_true by done.
  destruct kv as [s]. simpl in *. do 2 f_equal. set_solver.
Qed.

Lemma Merge_spec kv other range :
  range ≡ₚ elements (Inner other) → Inner (Merge kv range) = Inner kv ∪ Inner other.
Proof.
  intros E. assert (∀ l s, Inner (foldl (λ s k, mk ({[k]} ∪ Inner s)) s l) = list_to_set l ∪ Inner s) as Hgen.
  { induction l as [|k l IH]; intros s; simpl; [set_solver|]. rewrite IH. simpl. set_solver. }
  unfold Merge. rewrite Hgen. assert (list_to_set range = Inner other) as ->; [|set_solver].
  apply set_eq. intros x. rewrite elem_of_list_to_set, E, elem_of_elements. done.
Qed.
End goset.
End GoSet.

(** ** fifo.go *)

Module Fifo.
Section fifo.
Context {T : Type}.

Local Notation t := (list T).
Definition NewFifo : t := [].
Definition Push (f : t) (v : T) : t := f ++ [v].
Definition Pop (f : t) : res (T * t) := v ← idx f 0; rest ← slice f 1 (zlen f); Ok (v, rest).
Definition TryPop (zero : T) (f : t) : res ((T * bool) * t) :=
  if zlen f =? 0 then Ok ((zero, false), f)
  else v ← idx f 0; rest ← slice f 1 (zlen f); Ok ((v, true), rest).
Definition Len (f : t) : Z := zlen f.
Definition IsEmpty (f : t) : bool := Len f =? 0.

Lemma Pop_cons v (f : t) : Pop (v :: f) = Ok (v, f).
Proof.
  unfold Pop. change (idx (v :: f) 0) with (Ok v). rewrite res_bind_ret.
  rewrite slice_Ok, res_bind_ret by (unfold zlen; simpl length; lia). do 2 f_equal. apply take_ge.
  unfold zlen. cbn [length drop Z.to_nat Pos.to_nat Pos.iter_op]. lia.
Qed.

Definition pushes (f : t) (vs : list T) : t := foldl Push f vs.

Fixpoint pops (n : nat) (f : t) : res (list T * t) :=
  match n with
  | O => Ok ([], f)
  | S n' => r ← Pop f; rs ← pops n' r.2; Ok (r.1 :: rs.1, rs.2)
  end.

Lemma pushes_app f vs : pushes f vs = f ++ vs.
Proof.
  revert f. induction vs as [|v vs IH]; intros f; simpl; [by rewrite app_nil_r|].
  unfold pushes in IH. rewrite IH. unfold Push. by rewrite <-(assoc_L (++)).
Qed.

(** Values come out in the order they went in. *)
Lemma pops_pushes vs (rest : t) : pops (length vs) (pushes NewFifo vs ++ rest) = Ok (vs, rest).
Proof.
  rewrite pushes_app. simpl. induction vs as [|v vs IH]; [done|]. cbn [length pops app].
  rewrite Pop_cons, res_bind_ret. cbn [fst snd]. by rewrite IH.
Qed.
End fifo.
End Fifo.

(** ** vecvec.go *)

Module VecVec.
Section vecvec.
Context {T : Type}.

Local Notation t := (list (list T)).

Definition NewVecVec (length : list Z) : res t :=
  match length with
  | [] => Ok []
  | n :: _ => if n <? 0 then Panic else Ok (replicate (Z.to_nat n) [])
  end.

(** [reserveOuter] and [Reserve] *)
Definition Reserve (v : t) (newLen : Z) : t := v ++ replicate (Z.to_nat (newLen - zlen v)) [].

Definition Len (v : t) : Z := zlen v.
Definition MustGet (v : t) (pos : Z) : res (list T) := idx v pos.
Definition GetOrEmpty (v : t) (pos : Z) : res (list T) := if Len v <=? pos then Ok [] else idx v pos.

Definition AppendToInner (v : t) (pos : Z) (ts : list T) : res t :=
  if zlen ts =? 0 then Panic
  else
    let v := Reserve v (pos + 1) in
    row ← idx v pos;
    store v pos (row ++ ts).

Definition LenOf (v : t) (pos : Z) : res (Z * t) :=
  let v := if Len v <=? pos then Reserve v (pos + 1) else v in
  row ← idx v pos; Ok (zlen row, v).

(** The row at a position, the rows past the end being empty. *)
Definition row (v : t) (pos : Z) : list T := default [] (v !! Z.to_nat pos).

Lemma row_Reserve v n pos : row (Reserve v n) pos = row v pos.
Proof.
  unfold row, Reserve. destruct (decide (Z.to_nat pos < length v)%nat).
  - by rewrite lookup_app_l by done.
  - rewrite lookup_app_r, (lookup_ge_None_2 v) by lia.
    destruct (replicate _ _ !! _) eqn:E; [|done]. by apply lookup_replicate in E as [-> _].
Qed.

Lemma zlen_Reserve v n : zlen (Reserve v n) = Z.max (zlen v) n.
Proof. unfold Reserve. rewrite zlen_app. unfold zlen. rewrite length_replicate. lia. Qed.

Lemma idx_vec_row v pos : 0 ≤ pos < zlen v → idx v pos = Ok (row v pos).
Proof.
  intros Hp. destruct (idx_is_Ok v pos Hp) as [r Hr]. rewrite Hr. apply idx_Ok in Hr as [_ E]. unfold row. by rewrite E.
Qed.

Lemma AppendToInner_spec v pos ts :
  0 ≤ pos → ts ≠ [] →
  ∃ v', AppendToInner v pos ts = Ok v' ∧ zlen v' = Z.max (zlen v) (pos + 1) ∧
    ∀ j, 0 ≤ j → row v' j = if decide (j = pos) then row v pos ++ ts else row v j.
Proof.
  intros Hp Hts. unfold AppendToInner.
  assert (zlen ts ≠ 0) as Hz by (unfold zlen; destruct ts; [done|simpl length; lia]).
  rewrite (proj2 (Z.eqb_neq _ _) Hz).
  assert (0 ≤ pos < zlen (Reserve v (pos + 1))) as B by (rewrite zlen_Reserve; lia).
  rewrite idx_vec_row, res_bind_ret, store_Ok by done. eexists. split; [done|].
  split; [rewrite zlen_insert; apply zlen_Reserve|]. intros j Hj. rewrite row_Reserve. unfold row at 1.
  case_decide as D.
  - subst. rewrite list_lookup_insert_eq; [done|]. unfold zlen in B. lia.
  - rewrite list_lookup_insert_ne by lia. fold (row (Reserve v (pos + 1)) j). apply row_Reserve.
Qed.

Lemma LenOf_spec v pos :
  0 ≤ pos → ∃ v', LenOf v pos = Ok (zlen (row v pos), v') ∧ zlen v' = Z.max (zlen v) (pos + 1) ∧ ∀ j, row v' j = row v j.
Proof.
  intros Hp. unfold LenOf, Len. destruct (Z.leb_spec (zlen v) pos).
  - rewrite idx_vec_row by (rewrite zlen_Reserve; lia). rewrite res_bind_ret, row_Reserve. eexists. split; [done|].
    split; [apply zlen_Reserve|]. intros j. apply row_Reserve.
  - rewrite idx_vec_row, res_bind_ret by lia. eexists. split; [done|]. split; [lia|done].
Qed.
End vecvec.
End VecVec.
