(* ===== verification/DisjointSet.v ===== *)
(** * Union-find

    Models src/prover/utils/collection/disjointset.go. [Find] is recursive along the
    parent pointers; the ranks increase along them, which bounds the recursion.
    Values that were never added count as singletons, as [Find] treats them. *)

From S2P Require Export Collections.

Module DisjointSet.
Section disjointset.
Context `{Countable T}.

Record t : Type := mk { Parent : gmap T T; Rank : DetMap.t T Z }.

Definition NewDisjointSet : t := mk ∅ DetMap.MakeDeterministicMap.

(** [ds.Parent[element] = element; ds.Rank.Set(element, 0)] *)
Definition add (ds : t) (element : T) : res t :=
  rank ← DetMap.Set_ (Rank ds) element 0;
  Ok (mk (<[element := element]> (Parent ds)) rank).

Definition NewDisjointSetFromList (elements : list T) : res t := foldM add NewDisjointSet elements.

(** Running out of fuel is reported as a panic; [Find_spec] shows that the fuel
    [fuel_of] is enough. *)
Fixpoint find (fuel : nat) (ds : t) (col : T) : res (T * t) :=
  match fuel with
  | O => Panic
  | S f =>
    ds ← match Parent ds !! col with None => add ds col | Some _ => Ok ds end;
    match Parent ds !! col with
    | None => Panic
    | Some p =>
      if decide (p = col) then Ok (p, ds)
      else
        r ← find f ds p;
        let '(root, ds) := r in
        Ok (root, mk (<[col := root]> (Parent ds)) (Rank ds))
    end
  end.

(** The ranks bound the length of the paths. *)
Definition fuel_of (ds : t) : nat := S (Z.to_nat (foldr Z.max 0 (DetMap.Values (Rank ds)))).

Definition Find (ds : t) (col : T) : res (T * t) := find (fuel_of ds) ds col.

Definition Union (ds : t) (col1 col2 : T) : res t :=
  r ← Find ds col1;
  let '(root1, ds) := r in
  r ← Find ds col2;
  let '(root2, ds) := r in
  if decide (root1 = root2) then Ok ds
  else
    rank1 ← DetMap.Get (Rank ds) root1;
    rank2 ← DetMap.Get (Rank ds) root2;
    let rank1 := default 0 rank1 in
    let rank2 := default 0 rank2 in
    if rank2 <? rank1 then Ok (mk (<[root2 := root1]> (Parent ds)) (Rank ds))
    else if rank1 <? rank2 then Ok (mk (<[root1 := root2]> (Parent ds)) (Rank ds))
    else
      rank ← DetMap.Set_ (Rank ds) root1 (rank1 + 1);
      Ok (mk (<[root2 := root1]> (Parent ds)) rank).

(** Every element is reset to a singleton and joined to the first one. *)
Definition AddList (ds : t) (elements : list T) : res t :=
  foldM (λ ds element,
    ds ← add ds element;
    first ← idx elements 0;
    r ← Find ds first;
    let '(root, ds) := r in
    Union ds root element) ds elements.

Definition Reset (ds : t) : t := NewDisjointSet.
Definition Has (ds : t) (col : T) : bool := bool_decide (is_Some (Parent ds !! col)).
Definition Size (ds : t) : Z := Z.of_nat (size (Parent ds)).

(** ** The partition *)

(** The parent of a value, itself when it is not in the structure. *)
Definition par (P : gmap T T) (x : T) : T := default x (P !! x).

Definition edge (P : gmap T T) (x y : T) : Prop := par P x = y ∧ x ≠ y.

Definition reaches (P : gmap T T) (x r : T) : Prop := rtc (edge P) x r ∧ par P r = r.

(** Two values are in the same set. *)
Definition same (ds : t) (x y : T) : Prop := ∃ r, reaches (Parent ds) x r ∧ reaches (Parent ds) y r.

Definition rk (ds : t) (x : T) : Z := default 0 (DetMap.lookup (Rank ds) x).

Record Inv (ds : t) : Prop := {
  inv_rank : DetMap.wf (Rank ds);
  inv_dom x : is_Some (Parent ds !! x) ↔ is_Some (DetMap.lookup (Rank ds) x);
  inv_closed x y : Parent ds !! x = Some y → is_Some (Parent ds !! y);
  inv_up x y : Parent ds !! x = Some y → x ≠ y → rk ds x < rk ds y;
  inv_pos x : 0 ≤ rk ds x
}.

Lemma par_Some P x y : P !! x = Some y → par P x = y.
Proof. unfold par. by intros ->. Qed.

Lemma reaches_unique P x r s : reaches P x r → reaches P x s → r = s.
Proof.
  intros [Hr Er]. induction Hr as [x|x y r [Ex Hne] _ IH]; intros [Hs Es].
  - destruct Hs as [|x y s [E Hne] _]; [done|]. congruence.
  - destruct Hs as [|x z s [Ez Hnz] Hs]; [congruence|]. apply IH; [done|]. split; [|done]. congruence.
Qed.

Lemma reaches_step P x r : reaches P (par P x) r ↔ reaches P x r.
Proof.
  destruct (decide (par P x = x)) as [E|Hne]; [by rewrite E|]. split.
  - intros [Hr Er]. split; [|done]. eapply rtc_l; [|exact Hr]. split; congruence.
  - intros [Hr Er]. split; [|done]. destruct Hr as [|x y r [<- _] Hr]; [congruence|done].
Qed.

Lemma rtc_root P r s : par P r = r → rtc (edge P) r s → s = r.
Proof. intros E Hs. destruct Hs as [|r y s [E' Hne] _]; congruence. Qed.

Lemma reaches_root P r : par P r = r → reaches P r r.
Proof. intros E. split; [apply rtc_refl|done]. Qed.

(** ** Bounds on the ranks *)

Definition top (ds : t) : Z := foldr Z.max 0 (DetMap.Values (Rank ds)).

Lemma foldr_max_ge (l : list Z) x : x ∈ l → x ≤ foldr Z.max 0 l.
Proof. induction l as [|y l IH]; [by intros ?%elem_of_nil|]. simpl. intros [->|Hx%IH]%elem_of_cons; lia. Qed.

Lemma foldr_max_nonneg (l : list Z) : 0 ≤ foldr Z.max 0 l.
Proof. induction l; simpl; lia. Qed.

Lemma rk_top ds x : rk ds x ≤ top ds.
Proof.
  unfold rk, top, DetMap.lookup. destruct (DetMap.InnerMap (Rank ds) !! x) as [i|]; simpl;
    [|apply foldr_max_nonneg].
  destruct (DetMap.Values (Rank ds) !! Z.to_nat i) as [v|] eqn:E; simpl; [|apply foldr_max_nonneg].
  apply foldr_max_ge. by eapply list_elem_of_lookup_2.
Qed.

(** Every value has a root. *)
Lemma reaches_exists ds x : Inv ds → ∃ r, reaches (Parent ds) x r.
Proof.
  intros I. remember (Z.to_nat (top ds - rk ds x)) as n eqn:En. revert x En.
  induction (lt_wf n) as [n _ IH]. intros x En.
  destruct (decide (par (Parent ds) x = x)) as [E|Hne]; [exists x; by apply reaches_root|].
  unfold par in Hne. destruct (Parent ds !! x) as [y|] eqn:Ey; [|done]. simpl in Hne.
  pose proof (inv_up ds I x y Ey ltac:(congruence)). pose proof (rk_top ds y).
  destruct (IH (Z.to_nat (top ds - rk ds y))) with (x := y) as [r Hr]; [lia|done|].
  exists r. apply reaches_step. by rewrite (par_Some _ _ _ Ey).
Qed.

Lemma reaches_up ds x r : Inv ds → reaches (Parent ds) x r → x ≠ r → rk ds x < rk ds r.
Proof.
  intros I [Hr _]. induction Hr as [|x y r [E Hne] Hr IH]; [done|]. intros _.
  unfold par in E. destruct (Parent ds !! x) as [z|] eqn:Ez; simpl in E; [|done]. subst z.
  pose proof (inv_up ds I x y Ez Hne). destruct (decide (y = r)) as [->|Hyr]; [done|]. pose proof (IH Hyr). lia.
Qed.

Lemma reaches_dom ds x r :
  Inv ds → is_Some (Parent ds !! x) → reaches (Parent ds) x r → is_Some (Parent ds !! r).
Proof.
  intros I Hx [Hr _]. induction Hr as [|x y r [E Hne] _ IH]; [done|]. apply IH.
  destruct Hx as [z Ez]. rewrite (par_Some _ _ _ Ez) in E. subst z. by eapply inv_closed.
Qed.

Lemma par_insert P x y z : par (<[x := y]> P) z = if decide (z = x) then y else par P z.
Proof.
  unfold par. case_decide as D; [subst; by rewrite lookup_insert_eq|by rewrite lookup_insert_ne].
Qed.

(** ** Path compression *)

(** Pointing a value at its root does not change the roots. *)
Lemma compress_back P x r y s :
  reaches P x r → x ≠ r → reaches (<[x := r]> P) y s → reaches P y s.
Proof.
  intros Hx Hne [Hs Es]. assert (s ≠ x) as Hsx.
  { intros ->. rewrite par_insert, decide_True in Es by done. congruence. }
  rewrite par_insert, decide_False in Es by done. split; [|done].
  induction Hs as [|y z s [E Hn] _ IH]; [apply rtc_refl|]. rewrite par_insert in E.
  case_decide as D; subst; [|eapply rtc_l; [by split|by apply IH]].
  etrans; [apply Hx|by apply IH].
Qed.

Lemma compress_Inv ds x r :
  Inv ds → is_Some (Parent ds !! x) → reaches (Parent ds) x r → x ≠ r →
  Inv (mk (<[x := r]> (Parent ds)) (Rank ds)).
Proof.
  intros I Hx Hr Hne. pose proof (reaches_dom ds x r I Hx Hr) as Hrd. pose proof (reaches_up ds x r I Hr Hne) as Hup.
  destruct I as [I1 I2 I3 I4 I5]. split; cbn [Parent Rank].
  - done.
  - intros y. rewrite <-I2. destruct (decide (y = x)) as [->|]; [by rewrite lookup_insert_eq|by rewrite lookup_insert_ne].
  - intros y z [[<- <-]|[Hyx E]]%lookup_insert_Some.
    + destruct (decide (r = x)) as [->|]; [by rewrite lookup_insert_eq|by rewrite lookup_insert_ne].
    + apply I3 in E. destruct (decide (z = x)) as [->|]; [by rewrite lookup_insert_eq|by rewrite lookup_insert_ne].
  - intros y z [[<- <-]|[Hyx E]]%lookup_insert_Some Hyz; [exact Hup|]. by apply I4.
  - done.
Qed.

Lemma compress_reaches ds x r y s :
  Inv ds → is_Some (Parent ds !! x) → reaches (Parent ds) x r → x ≠ r →
  reaches (<[x := r]> (Parent ds)) y s ↔ reaches (Parent ds) y s.
Proof.
  intros I Hx Hr Hne. split; [by apply compress_back|]. intros Hs.
  destruct (reaches_exists _ y (compress_Inv ds x r I Hx Hr Hne)) as [s' Hs']. cbn [Parent] in Hs'.
  pose proof (compress_back _ _ _ _ _ Hr Hne Hs') as Hs2.
  by rewrite (reaches_unique _ _ _ _ Hs Hs2).
Qed.

(** ** Find *)

Lemma add_absent ds x :
  Inv ds → Parent ds !! x = None →
  ∃ ds', add ds x = Ok ds' ∧ Inv ds' ∧ Parent ds' = <[x := x]> (Parent ds) ∧ (∀ y, rk ds' y = rk ds y).
Proof.
  intros I Hx. destruct (DetMap.Set_spec (Rank ds) x 0 (inv_rank ds I)) as (rank & E & W & _ & EL).
  unfold add. rewrite E, res_bind_ret. eexists. split; [done|].
  assert (DetMap.lookup (Rank ds) x = None) as Hnone.
  { destruct (DetMap.lookup (Rank ds) x) eqn:E'; [|done]. destruct (proj2 (inv_dom ds I x)) as [? ?]; [by eexists|congruence]. }
  assert (∀ y, rk (mk (<[x := x]> (Parent ds)) rank) y = rk ds y) as Ek.
  { intros y. unfold rk; cbn [Rank]. rewrite EL. case_decide; [subst; by rewrite Hnone|done]. }
  split; [|done]. split; cbn [Parent Rank].
  - done.
  - intros y. rewrite EL. case_decide as D; [subst; rewrite lookup_insert_eq; naive_solver|].
    rewrite lookup_insert_ne by congruence. apply I.
  - intros y z [[<- <-]|[Hyx E']]%lookup_insert_Some; [by rewrite lookup_insert_eq|].
    apply (inv_closed ds I) in E'. destruct (decide (z = x)) as [->|]; [by rewrite lookup_insert_eq|by rewrite lookup_insert_ne].
  - intros y z [[<- <-]|[Hyx E']]%lookup_insert_Some Hyz; [done|]. rewrite !Ek. by apply I.
  - intros y. rewrite Ek. apply I.
Qed.

(** What a call that only looks for a root leaves unchanged. *)
Record unchanged (ds ds' : t) (x : T) : Prop := {
  un_reaches y s : reaches (Parent ds') y s ↔ reaches (Parent ds) y s;
  un_rank y : rk ds' y = rk ds y;
  un_dom y : is_Some (Parent ds' !! y) ↔ is_Some (Parent ds !! y) ∨ y = x
}.

Lemma reaches_par P P' : (∀ y, par P' y = par P y) → ∀ y s, reaches P' y s ↔ reaches P y s.
Proof.
  intros E y s. unfold reaches. rewrite E. assert (∀ a b, edge P' a b ↔ edge P a b) as Ee.
  { intros a b. unfold edge. by rewrite E. }
  split; intros [Hr Hs]; (split; [|done]); (eapply rtc_subrel; [|exact Hr]); intros a b; by apply Ee.
Qed.

Lemma find_spec fuel ds x :
  Inv ds → (Z.to_nat (top ds - rk ds x) < fuel)%nat →
  ∃ r ds', find fuel ds x = Ok (r, ds') ∧ reaches (Parent ds) x r ∧ Inv ds' ∧ unchanged ds ds' x.
Proof.
  revert ds x. induction fuel as [|f IH]; intros ds x I Hf; [lia|]. cbn [find].
  destruct (Parent ds !! x) as [p|] eqn:Ex.
  - rewrite res_bind_ret, Ex. destruct (decide (p = x)) as [->|Hpx].
    + exists x, ds. split; [done|]. split; [apply reaches_root, par_Some, Ex|]. split; [done|].
      split; [done|done|]. intros y. split; [by left|]. intros [?| ->]; [done|by eexists].
    + pose proof (inv_up ds I x p Ex ltac:(congruence)) as Hup. pose proof (rk_top ds p).
      destruct (IH ds p I) as (r & ds2 & E2 & Hr & I2 & [U1 U2 U3]); [lia|]. rewrite E2, res_bind_ret.
      assert (reaches (Parent ds) x r) as Hxr by (apply reaches_step; by rewrite (par_Some _ _ _ Ex)).
      assert (reaches (Parent ds2) x r) as Hxr2 by by apply U1.
      assert (is_Some (Parent ds2 !! x)) as Hx2 by (apply U3; left; by eexists).
      assert (x ≠ r) as Hne.
      { intros ->. destruct (decide (p = r)) as [->|Hpr]; [done|]. pose proof (reaches_up ds p r I Hr Hpr). lia. }
      exists r, (mk (<[x := r]> (Parent ds2)) (Rank ds2)). split; [done|]. split; [done|].
      split; [by apply compress_Inv|]. split; cbn [Parent Rank].
      * intros y s. rewrite (compress_reaches ds2 x r y s I2 Hx2 Hxr2 Hne). apply U1.
      * exact U2.
      * intros y. destruct (decide (y = x)) as [->|Hyx]; [rewrite lookup_insert_eq; naive_solver|].
        rewrite lookup_insert_ne, U3 by congruence. split; [|naive_solver].
        intros [?| ->]; [by left|]. left. by eapply inv_closed.
  - destruct (add_absent ds x I Ex) as (ds1 & -> & I1 & EP & Ek). rewrite res_bind_ret, EP, lookup_insert_eq.
    rewrite decide_True by done. exists x, ds1. split; [done|].
    split; [apply reaches_root; unfold par; by rewrite Ex|]. split; [done|]. split; [|done|].
    + rewrite EP. apply reaches_par. intros y. rewrite par_insert. case_decide; [|done]. subst. unfold par. by rewrite Ex.
    + intros y. rewrite EP. destruct (decide (y = x)) as [->|]; [rewrite lookup_insert_eq; naive_solver|].
      rewrite lookup_insert_ne by congruence. naive_solver.
Qed.

Lemma Find_Ok ds x :
  Inv ds → ∃ r ds', Find ds x = Ok (r, ds') ∧ reaches (Parent ds) x r ∧ Inv ds' ∧ unchanged ds ds' x.
Proof.
  intros I. apply find_spec; [done|]. unfold fuel_of. fold (top ds). pose proof (inv_pos ds I x). lia.
Qed.

Lemma unchanged_same ds ds' x y z : unchanged ds ds' x → same ds' y z ↔ same ds y z.
Proof. intros U. unfold same. by setoid_rewrite (un_reaches _ _ _ U). Qed.

(** ** Union *)

(** Linking the root [b] under the root [a], with a rank of [a] large enough. *)
Section link.
Context (ds : t) (a b : T) (rank : DetMap.t T Z).
Hypothesis (I : Inv ds) (Ha : Parent ds !! a = Some a) (Hb : Parent ds !! b = Some b) (Hab : a ≠ b).
Hypothesis (W : DetMap.wf rank) (Hrk : ∀ y, y ≠ a → DetMap.lookup rank y = DetMap.lookup (Rank ds) y).
Hypothesis (Hra : is_Some (DetMap.lookup rank a)).
Let ds' := mk (<[b := a]> (Parent ds)) rank.
Hypothesis (Hge : rk ds a ≤ rk ds' a) (Hlt : rk ds b < rk ds' a).

Lemma link_rk y : y ≠ a → rk ds' y = rk ds y.
Proof. intros Hy. unfold rk, ds'; cbn [Rank]. by rewrite Hrk. Qed.

Lemma link_Inv : Inv ds'.
Proof.
  split; unfold ds'; cbn [Parent Rank].
  - done.
  - intros y. destruct (decide (y = b)) as [->|Hyb].
    { rewrite lookup_insert_eq, Hrk, <-(inv_dom ds I) by congruence. naive_solver. }
    rewrite lookup_insert_ne by congruence. destruct (decide (y = a)) as [->|Hya]; [rewrite Ha; naive_solver|].
    rewrite Hrk by done. apply I.
  - intros y z [[<- <-]|[Hyb E]]%lookup_insert_Some.
    + rewrite lookup_insert_ne, Ha by congruence. by eexists.
    + apply (inv_closed ds I) in E. destruct (decide (z = b)) as [->|]; [by rewrite lookup_insert_eq|by rewrite lookup_insert_ne].
  - intros y z [[<- <-]|[Hyb E]]%lookup_insert_Some Hyz; fold ds'.
    + rewrite (link_rk b) by congruence. done.
    + pose proof (inv_up ds I y z E Hyz) as Hup. assert (y ≠ a) as Hya by congruence. rewrite (link_rk y Hya).
      destruct (decide (z = a)) as [->|Hza]; [lia|]. by rewrite link_rk.
  - intros y. fold ds'. pose proof (inv_pos ds I y). destruct (decide (y = a)) as [->|Hya]; [lia|].
    by rewrite link_rk.
Qed.

Lemma link_reaches y s : reaches (Parent ds') y s → (reaches (Parent ds) y b ∧ s = a) ∨ (reaches (Parent ds) y s ∧ s ≠ b).
Proof.
  pose proof (par_Some _ _ _ Ha) as Pa. pose proof (par_Some _ _ _ Hb) as Pb.
  unfold ds'; cbn [Parent]. intros [Hs Es]. rewrite par_insert in Es. case_decide as D; [congruence|].
  induction Hs as [s|y z s [E Hne] Hs IH].
  - right. split; [by apply reaches_root|done].
  - rewrite par_insert in E. case_decide as D'.
    + subst. left. split; [by apply reaches_root|]. apply (rtc_root _ _ _) in Hs; [done|].
      by rewrite par_insert, decide_False by congruence.
    + destruct (IH D Es) as [[Hz ->]|[Hz Hsb]]; rewrite <-E in Hz; apply (proj1 (reaches_step _ _ _)) in Hz; [left|right]; done.
Qed.

Lemma link_reaches_iff y s :
  reaches (Parent ds') y s ↔ (reaches (Parent ds) y b ∧ s = a) ∨ (reaches (Parent ds) y s ∧ s ≠ b).
Proof.
  split; [apply link_reaches|]. intros C. destruct (reaches_exists ds' y link_Inv) as [s' Hs'].
  destruct (link_reaches y s' Hs') as [[Hy' ->]|[Hy' Hn']], C as [[Hy ->]|[Hy Hn]].
  - done.
  - by destruct Hn; apply (reaches_unique _ _ _ _ Hy Hy').
  - by destruct Hn'; apply (reaches_unique _ _ _ _ Hy' Hy).
  - by rewrite (reaches_unique _ _ _ _ Hy Hy').
Qed.

(** The two sets become one, the others stay. *)
Lemma link_same y z :
  same ds' y z ↔ same ds y z ∨ (same ds y a ∧ same ds z b) ∨ (same ds y b ∧ same ds z a).
Proof.
  pose proof (reaches_root _ _ (par_Some _ _ _ Ha)) as Ra. pose proof (reaches_root _ _ (par_Some _ _ _ Hb)) as Rb.
  assert (∀ y c, (c = a ∨ c = b) → same ds y c ↔ reaches (Parent ds) y c) as Hsame.
  { intros y' c Hc. split.
    - intros (r & H1 & H2). assert (r = c) as ->; [|done]. apply (reaches_unique _ c r c H2). by destruct Hc as [->| ->].
    - intros H1. exists c. split; [done|]. by destruct Hc as [->| ->]. }
  rewrite (Hsame y a), (Hsame z b), (Hsame y b), (Hsame z a) by auto. unfold same at 1. setoid_rewrite link_reaches_iff. split.
  - intros (r & [[H1 E1]|[H1 N1]] & [[H2 E2]|[H2 N2]]).
    + left. by exists b.
    + rewrite E1 in H2. by right; right.
    + rewrite E2 in H1. by right; left.
    + left. by exists r.
  - intros [(r & H1 & H2)|[[H1 H2]|[H1 H2]]].
    + destruct (decide (r = b)) as [->|Hr]; [exists a|exists r]; auto.
    + exists a. auto.
    + exists a. auto.
Qed.
End link.

Lemma reaches_root_Some ds r x :
  Inv ds → is_Some (Parent ds !! x) → reaches (Parent ds) x r → Parent ds !! r = Some r.
Proof.
  intros I Hx Hr. destruct (reaches_dom ds x r I Hx Hr) as [y Ey]. destruct Hr as [_ Er].
  rewrite (par_Some _ _ _ Ey) in Er. congruence.
Qed.

Lemma same_root ds x r y : reaches (Parent ds) x r → same ds y r ↔ same ds y x.
Proof.
  intros Hr. assert (reaches (Parent ds) r r) as Hrr by apply (reaches_root _ _ (proj2 Hr)).
  split; intros (s & H1 & H2); exists s; (split; [done|]).
  - by rewrite (reaches_unique _ _ _ _ H2 Hrr).
  - by rewrite (reaches_unique _ _ _ _ H2 Hr).
Qed.

Lemma Union_Ok ds x y :
  Inv ds → ∃ ds', Union ds x y = Ok ds' ∧ Inv ds' ∧
    ∀ u v, same ds' u v ↔ same ds u v ∨ (same ds u x ∧ same ds v y) ∨ (same ds u y ∧ same ds v x).
Proof.
  intros I. unfold Union. destruct (Find_Ok ds x I) as (a & ds1 & -> & Ra & I1 & U1). rewrite res_bind_ret.
  destruct (Find_Ok ds1 y I1) as (b & ds2 & -> & Rb & I2 & U2). rewrite res_bind_ret.
  apply (un_reaches _ _ _ U1) in Ra. assert (reaches (Parent ds2) x a) as Ra2 by by apply (un_reaches _ _ _ U2).
  assert (reaches (Parent ds2) y b) as Rb2 by by apply (un_reaches _ _ _ U2).
  assert (is_Some (Parent ds2 !! x)) as Dx by (apply (un_dom _ _ _ U2); left; apply (un_dom _ _ _ U1); by right).
  assert (is_Some (Parent ds2 !! y)) as Dy by (apply (un_dom _ _ _ U2); by right).
  assert (∀ u v, same ds2 u v ↔ same ds u v) as Es.
  { intros u v. rewrite (unchanged_same _ _ _ u v U2). apply (unchanged_same _ _ _ u v U1). }
  pose proof (reaches_root_Some _ _ _ I2 Dx Ra2) as Pa. pose proof (reaches_root_Some _ _ _ I2 Dy Rb2) as Pb.
  assert (∀ ds', (∀ u v, same ds' u v ↔ same ds2 u v ∨ (same ds2 u a ∧ same ds2 v b) ∨ (same ds2 u b ∧ same ds2 v a)) →
    ∀ u v, same ds' u v ↔ same ds u v ∨ (same ds u x ∧ same ds v y) ∨ (same ds u y ∧ same ds v x)) as Hfin.
  { intros ds' E u v. rewrite E, !(same_root _ _ _ _ Ra2), !(same_root _ _ _ _ Rb2), !Es. done. }
  destruct (decide (a = b)) as [<-|Hab].
  { exists ds2. split; [done|]. split; [done|]. apply Hfin. intros u v. split; [auto|].
    intros [?|[[(r & H1 & H2) (r' & H1' & H2')]|[(r & H1 & H2) (r' & H1' & H2')]]]; [done|..];
      (exists r; split; [done|]; by rewrite (reaches_unique _ _ _ _ H2 H2')). }
  rewrite !(DetMap.map_Get_spec (Rank ds2)), !res_bind_ret by apply I2.
  fold (rk ds2 a). fold (rk ds2 b). destruct (Z.ltb_spec (rk ds2 b) (rk ds2 a)) as [C1|C1].
  { eexists. split; [done|]. assert (is_Some (DetMap.lookup (Rank ds2) a)) by (apply (inv_dom ds2 I2); by eexists).
    split; [apply link_Inv; try done; apply I2|]. apply Hfin. intros u v. apply link_same; try done; apply I2. }
  destruct (Z.ltb_spec (rk ds2 a) (rk ds2 b)) as [C2|C2].
  { eexists. split; [done|]. assert (is_Some (DetMap.lookup (Rank ds2) b)) by (apply (inv_dom ds2 I2); by eexists).
    split; [apply link_Inv; try done; apply I2|]. apply Hfin. intros u v.
    rewrite (link_same ds2 b a (Rank ds2)); try done; try apply I2. tauto. }
  destruct (DetMap.Set_spec (Rank ds2) a (rk ds2 a + 1) (inv_rank ds2 I2)) as (rank & -> & W & _ & EL).
  rewrite res_bind_ret. eexists. split; [done|].
  assert (∀ z, z ≠ a → DetMap.lookup rank z = DetMap.lookup (Rank ds2) z) as Hz by (intros z Hne; rewrite EL; by case_decide).
  assert (is_Some (DetMap.lookup rank a)) as Hsa by (rewrite EL, decide_True by done; by eexists).
  assert (rk (mk (<[b := a]> (Parent ds2)) rank) a = rk ds2 a + 1) as Era.
  { unfold rk at 1; cbn [Rank]. by rewrite EL, decide_True by done. }
  split; [apply link_Inv; try done; lia|]. apply Hfin. intros u v. apply link_same; try done; lia.
Qed.

(** ** The empty structure *)

Lemma New_Inv : Inv NewDisjointSet.
Proof.
  split; cbn [Parent Rank NewDisjointSet].
  - apply DetMap.wf_empty.
  - intros x. unfold DetMap.lookup. simpl. rewrite !lookup_empty. simpl. naive_solver.
  - intros x y. by rewrite lookup_empty.
  - intros x y. by rewrite lookup_empty.
  - intros x. unfold rk, DetMap.lookup. simpl. by rewrite lookup_empty.
Qed.

Lemma New_same x y : same NewDisjointSet x y ↔ x = y.
Proof.
  assert (∀ z, reaches (Parent NewDisjointSet) z z) as R by (intros z; apply reaches_root; unfold par; simpl; by rewrite lookup_empty).
  split; [|intros ->; by exists y]. intros (r & H1 & H2).
  by rewrite <-(reaches_unique _ _ _ _ H1 (R x)), <-(reaches_unique _ _ _ _ H2 (R y)).
Qed.

(** A sequence of unions from the empty structure. *)
Definition unions (ds : t) (ps : list (T * T)) : res t := foldM (λ ds p, Union ds p.1 p.2) ds ps.

(** The least equivalence that holds the pairs. *)
Definition connected (ps : list (T * T)) : T → T → Prop := rtsc (λ x y, (x, y) ∈ ps).

Lemma same_refl ds x : Inv ds → same ds x x.
Proof. intros I. destruct (reaches_exists ds x I) as [r Hr]. by exists r. Qed.

Lemma same_sym ds x y : same ds x y → same ds y x.
Proof. intros (r & H1 & H2). by exists r. Qed.

Lemma same_trans ds x y z : same ds x y → same ds y z → same ds x z.
Proof. intros (r & H1 & H2) (s & H3 & H4). exists r. by rewrite (reaches_unique _ _ _ _ H2 H3) in *. Qed.

Lemma connected_mono ps qs x y : ps ⊆ qs → connected ps x y → connected qs x y.
Proof. intros Hs. apply rtc_subrel. intros a b [?|?]; [left|right]; set_solver. Qed.

Lemma connected_pair ps x y : (x, y) ∈ ps → connected ps x y.
Proof. intros Hp. apply rtc_once. by left. Qed.

Lemma connected_sym ps x y : connected ps x y → connected ps y x.
Proof. intros Hc. by symmetry. Qed.

Lemma connected_same ps ds x y :
  Inv ds → (∀ a b, (a, b) ∈ ps → same ds a b) → connected ps x y → same ds x y.
Proof.
  intros I Hps Hc. induction Hc as [|x y z [Hxy|Hyx] _ IH]; [by apply same_refl|..].
  - eapply same_trans; [|exact IH]. by apply Hps.
  - eapply same_trans; [|exact IH]. by apply same_sym, Hps.
Qed.

Lemma unions_Ok ps :
  ∃ ds, unions NewDisjointSet ps = Ok ds ∧ Inv ds ∧ ∀ x y, same ds x y ↔ connected ps x y.
Proof.
  destruct (foldM_rule (λ ds p, Union ds p.1 p.2) (λ l ds, Inv ds ∧ ∀ x y, same ds x y ↔ connected l x y)
    ps NewDisjointSet) as (ds & E & I & Hs).
  - split; [apply New_Inv|]. intros x y. rewrite New_same. split; [intros ->; apply rtc_refl|].
    intros Hc. induction Hc as [|x y z [Hp|Hp] _ _]; [done|by apply elem_of_nil in Hp..].
  - intros l [a b] ds _ [I Hs]. destruct (Union_Ok ds a b I) as (ds' & E & I' & Hu). exists ds'.
    split; [done|]. split; [done|]. intros x y. split.
    + rewrite Hu, !Hs. assert (connected (l ++ [(a, b)]) a b) as Hab by (apply connected_pair; set_solver).
      assert (∀ u v, connected l u v → connected (l ++ [(a, b)]) u v) as Hm by (intros u v; apply connected_mono; set_solver).
      intros [?|[[H1 H2]|[H1 H2]]]; [auto|..].
      * etrans; [by apply Hm|]. etrans; [exact Hab|]. by apply connected_sym, Hm.
      * etrans; [by apply Hm|]. etrans; [by apply connected_sym|]. by apply connected_sym, Hm.
    + apply connected_same; [done|]. intros u v [Hp|[= -> ->]]%elem_of_snoc; apply Hu.
      * left. apply Hs. by apply connected_pair.
      * right. left. split; by apply same_refl.
  - by exists ds.
Qed.
End disjointset.
Arguments t T {_ _}.

(** [AddList] on a value that is already there takes it out of its set: 1 and 2 are
    joined, and adding the list [1; 3] separates them. *)
Definition joined : res (t Z) := Union NewDisjointSet 2 1.
Definition readded : res (t Z) := ds ← joined; AddList ds [1; 3].

Definition root_of (r : res (t Z)) (x : Z) : res Z := ds ← r; f ← Find ds x; Ok f.1.
End DisjointSet.
