(* ===== verification/UtilsTheorems.v ===== *)
(** * Utilities: theorems

    What src/prover/utils, src/prover/utils/parallel, src/prover/utils/arena and
    src/prover/utils/collection guarantee. *)

From S2P Require Export Utils Parallel Collections DisjointSet.

Module UtilsTheorems.

(** ** Parallel loops *)

(** [Execute] does the iterations of the loop it replaces: whatever the number of
    processors and the optional bound, the intervals it hands to its goroutines are,
    one after the other, the iterations 0 to n - 1. *)
Theorem Execute_covers gomaxprocs maxCpus n :
  0 ≤ n → concat (Parallel.iterations <$> Parallel.Execute_ranges gomaxprocs maxCpus n) = seqZ 0 n.
Proof. apply Parallel.Execute_ranges_cover. Qed.

Lemma Execute_covers_witness :
  concat (Parallel.iterations <$> Parallel.Execute_ranges 4 [] 10) = seqZ 0 10.
Proof. apply (Execute_covers 4 [] 10). lia. Defined.

(** C37. Workers that draw tasks from the atomic counter do each task once: at any
    moment the tasks in progress and the tasks done are pairwise different; no run
    has more than two steps for each task and one for each worker; and from every state
    that is reached, whatever the scheduler does, the workers come to a state in which all
    tasks are done and all of them have left. *)
Theorem workers_eventually_done N numcpu :
  Parallel.bounded N numcpu → (0 < numcpu)%nat →
  (∀ s, Parallel.reachable N numcpu s → NoDup (Parallel.working s ++ Parallel.finished s)) ∧
  (∀ k s, nsteps Parallel.worker_step k (Parallel.start_workers N numcpu) s → Z.of_nat k ≤ 2 * N + Z.of_nat numcpu) ∧
  (∀ s, Parallel.reachable N numcpu s → Parallel.inevitably Parallel.worker_step (Parallel.all_done N numcpu) s).
Proof.
  intros HB Hcpu. split; [|split].
  - intros s Hr. rewrite (Parallel.wi_tasks _ _ _ (Parallel.reachable_inv N numcpu s HB Hr)). apply NoDup_seqZ.
  - intros k s. by apply Parallel.workers_terminate.
  - intros s. by apply Parallel.workers_inevitable.
Qed.

Lemma workers_eventually_done_witness :
  Parallel.bounded 5 2 ∧ Parallel.inevitably Parallel.worker_step (Parallel.all_done 5 2) (Parallel.start_workers 5 2).
Proof.
  assert (Parallel.bounded 5 2) as HB by (split; lia). split; [exact HB|].
  destruct (workers_eventually_done 5 2 HB ltac:(lia)) as (_ & _ & HT). apply HT. apply rtc_refl.
Defined.

(** ** The vector arena *)

(** Concurrent requests of the same size never overlap: in every state that
    callers of an arena reach with requests of one size, two pieces handed out are
    disjoint and lie within the arena. *)
Theorem arena_same_size nb len flag c i j p q :
  0 ≤ nb → rtc (Arena.same_step nb) (Arena.init (Arena.mkArena (Some len) 0 flag)) c →
  Arena.pieces c !! i = Some p → Arena.pieces c !! j = Some q → i ≠ j →
  Arena.disjoint p q ∧ 0 ≤ p.1 ≤ p.2 ∧ p.2 ≤ nb * zlen (Arena.pieces c).
Proof.
  intros Hnb Hr Hp Hq Hij. pose proof (Arena.same_reachable nb len flag c Hnb Hr) as I.
  pose proof (Arena.si_stacked _ _ _ I) as HS. split; [by eapply Arena.stacked_disjoint|].
  apply list_elem_of_lookup_2 in Hp. by apply (Arena.stacked_bound _ _ HS).
Qed.

(** Two requests of four bytes on an arena of ten. *)
Definition two_pieces : Arena.Callers := Arena.mkCallers (Arena.mkArena (Some 10) 8 false) [(4, 8); (0, 4)] [].

Lemma two_pieces_reachable : rtc (Arena.same_step 4) (Arena.init (Arena.mkArena (Some 10) 0 false)) two_pieces.
Proof.
  eapply rtc_l; [eapply Arena.same_get; [by vm_compute|reflexivity]|].
  eapply rtc_l; [eapply Arena.same_get; [by vm_compute|reflexivity]|]. apply rtc_refl.
Qed.

Lemma arena_same_size_witness : Arena.disjoint (4, 8) (0, 4) ∧ 0 ≤ 4 ≤ 8 ∧ 8 ≤ 4 * zlen (Arena.pieces two_pieces).
Proof. exact (arena_same_size 4 10 false two_pieces 0 1 (4, 8) (0, 4) ltac:(lia) two_pieces_reachable eq_refl eq_refl ltac:(lia)). Defined.

(** C38. Concurrent requests of different sizes can overlap: callers of an arena of ten
    bytes reach a state in which the pieces [8, 10) and [6, 9) are both handed out,
    because a failed request moves the offset back after others have moved it. *)
Theorem arena_mixed_sizes_overlap :
  ∃ c p q, rtc Arena.step (Arena.init (Arena.mkArena (Some 10) 0 false)) c ∧
    Arena.pieces c !! 0%nat = Some p ∧ Arena.pieces c !! 1%nat = Some q ∧ ¬ Arena.disjoint p q.
Proof.
  exists Arena.clash, (8, 10), (6, 9). split; [exact Arena.clash_reachable|]. split; [done|]. split; [done|].
  unfold Arena.disjoint. simpl. lia.
Qed.

(** ** Disjoint sets *)

Section sets.
Context `{Countable T}.

(** C39. Union-find computes the generated equivalence: after any sequence of [Union]s
    on a new disjoint set, which never panics, [Find] of two values gives the same
    representative exactly when the pairs connect them. *)
Theorem unions_find (ps : list (T * T)) :
  ∃ ds, DisjointSet.unions DisjointSet.NewDisjointSet ps = Ok ds ∧
    ∀ x y, ∃ r ds1 s ds2, DisjointSet.Find ds x = Ok (r, ds1) ∧ DisjointSet.Find ds1 y = Ok (s, ds2) ∧
      (r = s ↔ DisjointSet.connected ps x y).
Proof.
  destruct (DisjointSet.unions_Ok ps) as (ds & E & I & Hs). exists ds. split; [done|]. intros x y.
  destruct (DisjointSet.Find_Ok ds x I) as (r & ds1 & E1 & R1 & I1 & U1).
  destruct (DisjointSet.Find_Ok ds1 y I1) as (s & ds2 & E2 & R2 & _). exists r, ds1, s, ds2.
  split; [done|]. split; [done|]. rewrite <-Hs. apply (DisjointSet.un_reaches _ _ _ U1) in R2. split.
  - intros ->. by exists s.
  - intros (q & Q1 & Q2). rewrite (DisjointSet.reaches_unique _ _ _ _ R1 Q1). by apply (DisjointSet.reaches_unique _ _ _ _ Q2).
Qed.
End sets.

(** Adding a value that is there splits its set: 2 and 1 have the same
    representative after [Union 2 1], and different ones after a further
    [AddList [1; 3]]. *)
Theorem AddList_splits :
  DisjointSet.root_of DisjointSet.joined 1 = DisjointSet.root_of DisjointSet.joined 2 ∧
  DisjointSet.root_of DisjointSet.readded 1 = Ok 1 ∧ DisjointSet.root_of DisjointSet.readded 2 = Ok 2.
Proof. vm_compute. done. Qed.

(** ** Deterministic maps *)

(** The map after a sequence of [Set]s. *)
Definition set_all `{Countable K} {V} (kv : DetMap.t K V) (l : list (K * V)) : res (DetMap.t K V) :=
  foldM (λ kv x, DetMap.Set_ kv x.1 x.2) kv l.

(** A deterministic map iterates in the order of insertion: after any sequence of
    [Set]s, which never panics, the keys are the ones that were set, each once and in
    the order of their first occurrence, and [Get] returns the value set last. *)
Theorem DetMap_order `{Countable K} {V} (l : list (K * V)) :
  ∃ kv, set_all DetMap.MakeDeterministicMap l = Ok kv ∧
    DetMap.Keys kv = foldl (λ ks k, if decide (k ∈ ks) then ks else ks ++ [k]) [] l.*1 ∧
    ∀ k, DetMap.Get kv k = Ok (list_to_map (reverse l) (M := gmap K V) !! k).
Proof.
  destruct (foldM_rule (λ kv x, DetMap.Set_ kv x.1 x.2)
    (λ l kv, DetMap.wf kv ∧ DetMap.Keys kv = foldl (λ ks k, if decide (k ∈ ks) then ks else ks ++ [k]) [] l.*1 ∧
      (∀ k, DetMap.lookup kv k = list_to_map (reverse l) (M := gmap K V) !! k) ∧
      ∀ k, DetMap.lookup kv k = None ↔ k ∉ DetMap.Keys kv) l DetMap.MakeDeterministicMap) as (kv & E & W & HK & HL & _).
  - split; [apply DetMap.wf_empty|]. split; [done|]. split; [done|]. intros k. split; [intros _; apply not_elem_of_nil|done].
  - intros pre [k v] kv _ (W & HK & HL & HN). destruct (DetMap.Set_spec kv k v W) as (kv' & E & W' & HK' & HL'). simpl.
    exists kv'. split; [done|]. split; [done|]. split; [|split].
    + rewrite fmap_app, foldl_app, <-HK. simpl. rewrite HK'. pose proof (HN k).
      repeat case_decide; try done; exfalso; naive_solver.
    + intros k'. rewrite HL', reverse_app. simpl. rewrite lookup_insert. rewrite (HL k'). repeat case_decide; congruence.
    + intros k'. rewrite HL', HK'. pose proof (HN k'). repeat case_decide; subst; rewrite ?elem_of_snoc; naive_solver.
  - exists kv. split; [done|]. split; [done|]. intros k. rewrite DetMap.map_Get_spec by done. by rewrite HL.
Qed.

(** ** Integers and slices *)

(** Powers of two: [NextPowerOfTwo] gives the least power of two that is at least
    its argument, [Log2Ceil] its exponent, and [IsPowerOfTwo] recognises it. *)
Theorem NextPowerOfTwo_least n :
  0 < n ≤ 2 ^ 62 →
  ∃ m, Utils.NextPowerOfTwo n = Ok m ∧ n ≤ m ∧ m = 2 ^ Utils.Log2Ceil n ∧ Utils.IsPowerOfTwo m = true ∧
    ∀ k, 0 ≤ k ≤ 62 → n ≤ 2 ^ k → m ≤ 2 ^ k.
Proof.
  intros Hn. rewrite Utils.NextPowerOfTwo_Ok by done. eexists. split; [done|]. rewrite Utils.Log2Ceil_spec by lia.
  assert (0 ≤ Z.log2_up n ≤ 62) as HL.
  { split; [apply Z.log2_up_nonneg|]. pose proof (Z.log2_up_le_mono n (2 ^ 62) ltac:(lia)) as Hm.
    rewrite Z.log2_up_pow2 in Hm by lia. lia. }
  assert (n ≤ 2 ^ Z.log2_up n) as Hle by (apply Z.log2_up_le_pow2; lia).
  split; [done|]. split; [done|]. split.
  - apply Utils.IsPowerOfTwo_spec; [|by exists (Z.log2_up n)]. unfold in_int64.
    pose proof (Z.pow_le_mono_r 2 (Z.log2_up n) 62 ltac:(lia) ltac:(lia)). lia.
  - intros k Hk Hnk. apply Z.pow_le_mono_r; [lia|]. apply Z.log2_up_le_pow2; lia.
Qed.

Lemma NextPowerOfTwo_least_witness : ∃ m, Utils.NextPowerOfTwo 1025 = Ok m ∧ m = 2 ^ Utils.Log2Ceil 1025.
Proof. destruct (NextPowerOfTwo_least 1025 ltac:(lia)) as (m & E & _ & Em & _). exists m. split; [exact E|exact Em]. Defined.

(** [Partition] distributes a slice by an index: there is one part for each number
    up to the largest index, and part [k] holds the elements of index [k] in their
    order. *)
Theorem Partition_by_index {T} (s : list T) index m :
  length s = length index → Utils.Max index = Ok m → (∀ v, v ∈ index → 0 ≤ v) →
  ∃ ps, Utils.Partition s index = Ok ps ∧ zlen ps = m + 1 ∧
    ∀ k, 0 ≤ k ≤ m → ps !! Z.to_nat k = Some ((filter (λ xi : T * Z, xi.2 = k) (zip s index)).*1).
Proof. apply Utils.Partition_spec. Qed.

Lemma Partition_by_index_witness :
  ∃ ps, Utils.Partition [10; 20; 30] [1; 0; 1] = Ok ps ∧ ps !! Z.to_nat 1 = Some [10; 30].
Proof.
  destruct (Partition_by_index [10; 20; 30] [1; 0; 1] 1) as (ps & E & _ & HP); [done|done|set_solver by lia|].
  exists ps. split; [exact E|]. exact (HP 1 ltac:(lia)).
Defined.

(** [GCD] of positive numbers ends with their greatest common divisor within
    [a + b] rounds of its loop; with a zero as second argument it never ends. *)
Theorem GCD_ends a b :
  0 < a → (0 < b → Utils.GCD (Z.to_nat (a + b)) a b = Some (Z.gcd a b)) ∧ ∀ fuel, Utils.GCD fuel a 0 = None.
Proof.
  intros Ha. split; [|intros fuel; by apply Utils.GCD_zero]. intros Hb. apply Utils.GCD_spec; lia.
Qed.

Lemma GCD_ends_witness : Utils.GCD (Z.to_nat (12 + 18)) 12 18 = Some 6 ∧ Utils.GCD 100 12 0 = None.
Proof. destruct (GCD_ends 12 18 ltac:(lia)) as [E1 E2]. split; [exact (E1 ltac:(lia))|apply E2]. Defined.
End UtilsTheorems.
