(* ===== verification/Field.v ===== *)
(** * The base field interface

    [field.Element] (src/prover/maths/field/element.go) is an alias of the
    KoalaBear element of gnark-crypto, which is not part of the repository. The
    development is therefore parametric in it: [ElementOps] lists the methods the
    modelled code calls and [ElementLaws] the documented behaviour it relies on.
    [KoalaBear] at the end of the file is a concrete element type, the integers
    modulo 2^31 - 2^24 + 1, that shows the laws can be met and makes every
    definition executable. *)

From S2P Require Export Prelude.
From Stdlib Require Import Zmod Znumtheory Ring_theory Ring.

(** The modulus of KoalaBear. *)
Definition koalaModulus : Z := 2130706433.

Class ElementOps (F : Type) : Type := {
  el_eq_dec :: EqDecision F;
  (** the canonical representative, in [0, koalaModulus) *)
  el_val : F → Z;
  (** [SetInt64], [SetUint64], [NewElement], [SetBigInt]: reduction of an integer *)
  el_of_Z : Z → F;
  el_add : F → F → F;
  el_sub : F → F → F;
  el_mul : F → F → F;
  el_neg : F → F;
  el_inv : F → F;
  (** [Exp] *)
  el_exp : F → Z → F;
  (** [Cmp] on canonical representatives: -1, 0 or 1 *)
  el_cmp : F → F → Z;
  (** [Bytes]: 4 bytes, big endian *)
  el_bytes : F → list Z;
  (** [SetBytesCanonical]: [None] is the error return *)
  el_set_bytes_canonical : list Z → option F;
  (** [SetBytes]: big-endian integer reduced modulo the modulus *)
  el_set_bytes : list Z → F
}.

Definition el_zero `{ElementOps F} : F := el_of_Z 0.
Definition el_one `{ElementOps F} : F := el_of_Z 1.

Declare Scope el_scope.
Delimit Scope el_scope with el.
Infix "+" := el_add : el_scope.
Infix "-" := el_sub : el_scope.
Infix "*" := el_mul : el_scope.
Notation "- x" := (el_neg x) : el_scope.
Notation "0" := el_zero : el_scope.
Notation "1" := el_one : el_scope.

Class ElementLaws (F : Type) `{ElementOps F} : Prop := {
  el_ring : ring_theory (R := F) el_zero el_one el_add el_mul el_sub el_neg eq;
  el_val_range x : 0 ≤ el_val x < koalaModulus;
  el_of_val x : el_of_Z (el_val x) = x;
  el_val_of z : el_val (el_of_Z z) = z mod koalaModulus;
  el_of_Z_add a b : el_of_Z (a + b) = (el_of_Z a + el_of_Z b)%el;
  el_of_Z_mul a b : el_of_Z (a * b) = (el_of_Z a * el_of_Z b)%el;
  el_inv_r x : x ≠ el_zero → (x * el_inv x)%el = el_one;
  el_inv_0 : el_inv el_zero = el_zero;
  el_exp_0 x : el_exp x 0 = el_one;
  el_exp_succ x n : 0 ≤ n → el_exp x (Z.succ n) = (x * el_exp x n)%el;
  el_cmp_spec x y :
    el_cmp x y = match el_val x ?= el_val y with Lt => -1 | Eq => 0 | Gt => 1 end;
  el_bytes_spec x : el_bytes x = be_bytes 4 (el_val x);
  el_set_bytes_canonical_spec b :
    el_set_bytes_canonical b =
      if decide (length b = 4%nat ∧ be_val b < koalaModulus)
      then Some (el_of_Z (be_val b)) else None;
  el_set_bytes_spec b : el_set_bytes b = el_of_Z (be_val b)
}.

Section facts.
Context `{ElementLaws F}.
Implicit Types x y : F.
Local Open Scope el_scope.

Add Ring el_ring_local : el_ring.

Lemma el_val_inj x y : el_val x = el_val y → x = y.
Proof. intros E. by rewrite <-(el_of_val x), <-(el_of_val y), E. Qed.

Lemma el_of_Z_neg a : el_of_Z (- a) = - el_of_Z a.
Proof.
  assert (el_of_Z a + el_of_Z (- a) = 0) as E.
  { rewrite <-el_of_Z_add. by rewrite Z.add_opp_diag_r. }
  replace (el_of_Z (- a)) with (- el_of_Z a + (el_of_Z a + el_of_Z (- a))) by ring.
  rewrite E. ring.
Qed.

Lemma el_cmp_0 x y : el_cmp x y = 0%Z ↔ x = y.
Proof.
  rewrite el_cmp_spec. destruct (Z.compare_spec (el_val x) (el_val y)) as [E|E|E].
  - split; [|done]. intros _. by apply el_val_inj.
  - split; [done|]. intros ->. lia.
  - split; [done|]. intros ->. lia.
Qed.

Lemma el_bytes_length x : length (el_bytes x) = 4%nat.
Proof. by rewrite el_bytes_spec, be_bytes_length. Qed.

Lemma el_bytes_is_byte x : Forall is_byte (el_bytes x).
Proof. rewrite el_bytes_spec. apply be_bytes_is_byte. Qed.

(** [SetBytesCanonical] inverts [Bytes]. *)
Lemma el_set_bytes_canonical_bytes x : el_set_bytes_canonical (el_bytes x) = Some x.
Proof.
  pose proof (el_val_range x) as R. rewrite el_set_bytes_canonical_spec.
  rewrite el_bytes_spec, be_val_bytes, Z.mod_small by (unfold koalaModulus in R; lia).
  rewrite decide_True by (rewrite be_bytes_length; lia). by rewrite el_of_val.
Qed.

(** A canonical encoding is the only one [SetBytesCanonical] accepts. *)
Lemma el_set_bytes_canonical_Some b x :
  Forall is_byte b → el_set_bytes_canonical b = Some x → b = el_bytes x.
Proof.
  intros Hb. rewrite el_set_bytes_canonical_spec. case_decide as D; [|done].
  intros [= <-]. destruct D as [D1 D2]. pose proof (be_val_bound b Hb).
  rewrite el_bytes_spec, el_val_of, Z.mod_small by lia. by rewrite be_bytes_val.
Qed.

Lemma el_exp_1 x : el_exp x 1 = x.
Proof. change 1%Z with (Z.succ 0). rewrite el_exp_succ, el_exp_0 by lia. ring. Qed.

Lemma el_exp_add x a b : (0 ≤ a)%Z → (0 ≤ b)%Z → el_exp x (a + b)%Z = el_exp x a * el_exp x b.
Proof.
  intros Ha Hb. pattern a. apply natlike_ind; [| |done].
  - rewrite Z.add_0_l, el_exp_0. ring.
  - intros n Hn IH. rewrite Z.add_succ_l, !el_exp_succ, IH by lia. ring.
Qed.
End facts.

(** ** A concrete element type *)

Module KoalaBear.
Definition t : Type := Zmod koalaModulus.

(** Primality by trial division up to the square root. *)
Fixpoint no_divisor (fuel : nat) (d n : Z) : bool :=
  match fuel with
  | O => true
  | S f => negb (n mod d =? 0) && no_divisor f (d + 1) n
  end.

Lemma no_divisor_sound fuel d n x :
  0 < d → no_divisor fuel d n = true → d ≤ x < d + Z.of_nat fuel → ¬ (x | n).
Proof.
  revert d. induction fuel as [|f IH]; intros d Hd Hf Hx; [lia|].
  simpl in Hf. apply andb_prop in Hf as [H1 H2].
  destruct (decide (x = d)) as [->|].
  - intros Hdiv%Z.mod_divide; [|lia]. apply negb_true_iff, Z.eqb_neq in H1. lia.
  - apply (IH (d + 1)); [lia|done|lia].
Qed.

Lemma prime_by_trial n k :
  1 < n → no_divisor k 2 n = true → n < (2 + Z.of_nat k) ^ 2 → Z.prime n.
Proof.
  intros Hn Hk Hsq. split; [done|]. intros x Hx [y Hy].
  assert (x < 2 + Z.of_nat k ∨ y < 2 + Z.of_nat k) as [C|C] by nia.
  - apply (no_divisor_sound k 2 n x); [lia|done|lia|]. exists y. lia.
  - apply (no_divisor_sound k 2 n y); [lia|done|nia|]. exists x. lia.
Qed.

Lemma koalaModulus_prime : Z.prime koalaModulus.
Proof.
  apply (prime_by_trial _ (Z.to_nat 46160)); [done|by vm_compute|].
  rewrite Z2Nat.id by done. done.
Qed.

#[export] Instance ops : ElementOps t := {
  el_eq_dec x y := match decide (Zmod.to_Z x = Zmod.to_Z y) with
                   | left E => left (Zmod.unsigned_inj _ x y E)
                   | right N => right (λ E, N (f_equal Zmod.to_Z E)) end;
  el_val x := Zmod.to_Z x;
  el_of_Z z := Zmod.of_Z koalaModulus z;
  el_add := Zmod.add;
  el_sub := Zmod.sub;
  el_mul := Zmod.mul;
  el_neg := Zmod.opp;
  el_inv := Zmod.inv;
  el_exp := Zmod.pow;
  el_cmp x y := match Zmod.to_Z x ?= Zmod.to_Z y with Lt => -1 | Eq => 0 | Gt => 1 end;
  el_bytes x := be_bytes 4 (Zmod.to_Z x);
  el_set_bytes_canonical b :=
    if decide (length b = 4%nat ∧ be_val b < koalaModulus)
    then Some (Zmod.of_Z koalaModulus (be_val b)) else None;
  el_set_bytes b := Zmod.of_Z koalaModulus (be_val b)
}.

#[export] Instance laws : ElementLaws t.
Proof.
  split; try done.
  - apply Zmod.ring_theory.
  - intros x. pose proof (Zmod.unsigned_range x). assert (0 < koalaModulus) by done. simpl. lia.
  - intros x. apply Zmod.of_Z_unsigned.
  - intros z. apply Zmod.unsigned_of_Z.
  - intros a b. apply Zmod.of_Z_add.
  - intros a b. apply Zmod.of_Z_mul.
  - intros x Hx. apply Zmod.mul_inv_same_r_prime; [apply koalaModulus_prime|done].
  - intros x n Hn. by apply Zmod.pow_succ_nonneg_r.
Qed.
End KoalaBear.
