(* ===== verification/Fext.v ===== *)
(** * Extension field elements

    Model of src/prover/maths/field/fext: elements of the degree-four extension of
    KoalaBear ([E4], gnark-crypto's extensions.E4, a tower u^2 = 3, v^2 = u), and
    [GenericFieldElem], a value that is either a base or an extension element. The
    arithmetic of E4 belongs to gnark-crypto and is a parameter, [ExtOps], with its
    documented behaviour in [ExtLaws]. [KoalaExt] is a concrete instance. *)

From S2P Require Export Field Utils.
From Stdlib Require Import Zmod Znumtheory Ring_theory Ring.
Import Utils.

Record E4 (F : Type) : Type := mkE4 { B0A0 : F; B0A1 : F; B1A0 : F; B1A1 : F }.
Arguments mkE4 {F} _ _ _ _.
Arguments B0A0 {F} _.
Arguments B0A1 {F} _.
Arguments B1A0 {F} _.
Arguments B1A1 {F} _.

#[export] Instance E4_eq_dec `{EqDecision F} : EqDecision (E4 F).
Proof. solve_decision. Defined.

Class ExtOps (F : Type) `{ElementOps F} : Type := {
  e4_add : E4 F → E4 F → E4 F;
  e4_sub : E4 F → E4 F → E4 F;
  e4_neg : E4 F → E4 F;
  e4_mul : E4 F → E4 F → E4 F;
  e4_square : E4 F → E4 F;
  e4_inverse : E4 F → E4 F;
  e4_div : E4 F → E4 F → E4 F;
  (** [Exp] and [ExpInt64] *)
  e4_exp : E4 F → Z → E4 F;
  e4_mul_by_element : E4 F → F → E4 F
}.

Declare Scope e4_scope.
Delimit Scope e4_scope with e4.
Infix "+" := e4_add : e4_scope.
Infix "-" := e4_sub : e4_scope.
Infix "*" := e4_mul : e4_scope.

Module Fext.
Section ops.
Context `{ElementOps F, !ExtOps F}.
Notation Element := (E4 F).

Definition Zero : Element := mkE4 el_zero el_zero el_zero el_zero.
Definition One : Element := mkE4 el_one el_zero el_zero el_zero.
Definition NewFromUint (v1 v2 v3 v4 : Z) : Element :=
  mkE4 (el_of_Z v1) (el_of_Z v2) (el_of_Z v3) (el_of_Z v4).
Definition NewFromInt (v1 v2 v3 v4 : Z) : Element :=
  mkE4 (el_of_Z v1) (el_of_Z v2) (el_of_Z v3) (el_of_Z v4).
Definition Lift (v : F) : Element := mkE4 v el_zero el_zero el_zero.
Definition SetFromBase (x : F) : Element := mkE4 x el_zero el_zero el_zero.

(** These two set the first coordinate and keep the others of the receiver. *)
Definition SetFromUIntBase (z : Element) (v : Z) : Element := mkE4 (el_of_Z v) (B0A1 z) (B1A0 z) (B1A1 z).
Definition SetFromIntBase (z : Element) (v : Z) : Element := mkE4 (el_of_Z v) (B0A1 z) (B1A0 z) (B1A1 z).
Definition NewFromUintBase (b : Z) : Element := SetFromUIntBase Zero b.

Definition IsBase (z : Element) : bool :=
  bool_decide (B0A1 z = el_zero) && bool_decide (B1A0 z = el_zero) && bool_decide (B1A1 z = el_zero).

Definition GetBase (z : Element) : F * gerr :=
  if IsBase z then (B0A0 z, None)
  else (el_zero, Some "requested a base element but the field extension is not a wrapped field element"%string).

Definition AddByBase (first : Element) (second : F) : Element :=
  mkE4 (B0A0 first + second)%el (B0A1 first) (B1A0 first) (B1A1 first).

Definition DivByBase (first : Element) (second : F) : Element :=
  mkE4 (B0A0 first * el_inv second)%el (B0A1 first * el_inv second)%el
       (B1A0 first * el_inv second)%el (B1A1 first * el_inv second)%el.

(** [z == Zero] and [z == One] as gnark-crypto's [IsZero] and [IsOne]. *)
Definition IsZero (z : Element) : bool := bool_decide (z = Zero).
Definition IsOne (z : Element) : bool := bool_decide (z = One).

Definition Bytes (z : Element) : list Z :=
  el_bytes (B0A0 z) ++ el_bytes (B0A1 z) ++ el_bytes (B1A0 z) ++ el_bytes (B1A1 z).

(** The Montgomery constant and its inverse. *)
Definition MontConstant : F := el_of_Z 33554430.
Definition MontConstantInv : F := el_of_Z 1057030144.
Definition MulR (x : F) : F := (x * MontConstant)%el.
Definition MulRInvBase (x : F) : F := (x * MontConstantInv)%el.
Definition MulRInv (x : Element) : Element := e4_mul_by_element x MontConstantInv.

(** [koalabear.Element{u}]: the element whose limb is [u]; limbs hold the Montgomery
    form of the element. *)
Definition of_limb (u : Z) : F := MulRInvBase (el_of_Z u).

Definition SetBytes (data : list Z) : res Element :=
  a ← slice data 0 4; b ← slice data 4 8; c ← slice data 8 12; d ← slice data 12 16;
  Ok (mkE4 (of_limb (be_val a)) (of_limb (be_val b)) (of_limb (be_val c)) (of_limb (be_val d))).

(** [ExpToInt]: square and multiply from the bit below the leading one. *)
Definition exp_step (x : Element) (k : Z) (z : Element) (i : Z) : Element :=
  let z := e4_square z in
  if Z.land (Z.shiftr k i) 1 =? 1 then e4_mul z x else z.

Definition bits_Len (k : Z) : Z := if k =? 0 then 0 else Z.log2 k + 1.

Definition ExpToInt (x : Element) (k : Z) : Element :=
  if k =? 0 then One else
  let '(x, k) := if k <? 0 then (e4_inverse x, int64 (- k)) else (x, k) in
  foldl (exp_step x k) x (reverse (seqZ 0 (bits_Len (uint64 k) - 1))).

(** [BatchInvertInto]: [res] is the destination slice. The first loop stores the
    products of the prefixes, the second multiplies by the inverse of the suffix. *)
Definition invert_forward (a : list Element) (st : list bool * list Element * Element) (i : Z)
    : res (list bool * list Element * Element) :=
  let '(zeroes, r, accumulator) := st in
  x ← idx a i;
  if IsZero x then zeroes ← store zeroes i true; Ok (zeroes, r, accumulator)
  else r ← store r i accumulator; Ok (zeroes, r, e4_mul accumulator x).

Definition invert_backward (a : list Element) (zeroes : list bool) (st : list Element * Element) (i : Z)
    : res (list Element * Element) :=
  let '(r, accumulator) := st in
  z ← idx zeroes i;
  if (z : bool) then Ok (r, accumulator) else
  ri ← idx r i; x ← idx a i;
  r ← store r i (e4_mul ri accumulator);
  Ok (r, e4_mul accumulator x).

Definition BatchInvertInto (a r : list Element) : res (list Element) :=
  if negb (zlen a =? zlen r) then Panic else
  if zlen a =? 0 then Ok r else
  st ← foldM (invert_forward a) (replicate (length a) false, r, One) (seqZ 0 (zlen a));
  let '(zeroes, r, accumulator) := st in
  st ← foldM (invert_backward a zeroes) (r, e4_inverse accumulator) (reverse (seqZ 0 (zlen a)));
  Ok st.1.
End ops.
End Fext.
Import Fext.

Notation "0" := Zero : e4_scope.
Notation "1" := One : e4_scope.

Class ExtLaws (F : Type) `{ExtOps F} : Prop := {
  e4_ring : ring_theory (R := E4 F) Zero One e4_add e4_mul e4_sub e4_neg eq;
  e4_add_spec (x y : E4 F) : e4_add x y =
    mkE4 (B0A0 x + B0A0 y)%el (B0A1 x + B0A1 y)%el (B1A0 x + B1A0 y)%el (B1A1 x + B1A1 y)%el;
  e4_sub_spec (x y : E4 F) : e4_sub x y =
    mkE4 (B0A0 x - B0A0 y)%el (B0A1 x - B0A1 y)%el (B1A0 x - B1A0 y)%el (B1A1 x - B1A1 y)%el;
  e4_mul_by_element_spec (x : E4 F) b : e4_mul_by_element x b =
    mkE4 (B0A0 x * b)%el (B0A1 x * b)%el (B1A0 x * b)%el (B1A1 x * b)%el;
  e4_mul_Lift (x : E4 F) b : e4_mul x (Lift b) = e4_mul_by_element x b;
  e4_square_spec (x : E4 F) : e4_square x = e4_mul x x;
  e4_inverse_r (x : E4 F) : x ≠ Zero → e4_mul x (e4_inverse x) = One;
  e4_inverse_0 : e4_inverse Zero = Zero;
  e4_div_spec (x y : E4 F) : e4_div x y = e4_mul x (e4_inverse y);
  e4_exp_0 (x : E4 F) : e4_exp x 0 = One;
  e4_exp_succ (x : E4 F) n : 0 ≤ n → e4_exp x (Z.succ n) = e4_mul x (e4_exp x n)
}.

(** ** Facts *)

Section facts.
Context `{ElementLaws F, !ExtOps F, !ExtLaws F}.
Implicit Types x y z : E4 F.
Local Open Scope e4_scope.

Add Ring el_ring_fext : (el_ring (F := F)).
Add Ring e4_ring_fext : (e4_ring (F := F)).

Lemma IsBase_Lift (b : F) : IsBase (Lift b) = true.
Proof. unfold IsBase. simpl. by rewrite bool_decide_true. Qed.

Lemma IsBase_spec z : IsBase z = true ↔ z = Lift (B0A0 z).
Proof.
  split; [|intros ->; apply IsBase_Lift]. unfold IsBase. rewrite !andb_true_iff, !bool_decide_eq_true.
  destruct z; simpl. by intros [[-> ->] ->].
Qed.

Lemma Lift_inj (a b : F) : Lift a = Lift b → a = b.
Proof. by intros [= ->]. Qed.

Lemma Lift_add (a b : F) : Lift (a + b)%el = Lift a + Lift b.
Proof. rewrite e4_add_spec. unfold Lift. simpl. f_equal; ring. Qed.

Lemma Lift_sub (a b : F) : Lift (a - b)%el = Lift a - Lift b.
Proof. rewrite e4_sub_spec. unfold Lift. simpl. f_equal; ring. Qed.

Lemma Lift_mul (a b : F) : Lift (a * b)%el = Lift a * Lift b.
Proof. rewrite e4_mul_Lift, e4_mul_by_element_spec. unfold Lift. simpl. f_equal; ring. Qed.

Lemma Lift_zero : Lift el_zero = (0 : E4 F).
Proof. done. Qed.

Lemma Lift_one : Lift el_one = (1 : E4 F).
Proof. done. Qed.

Lemma Lift_exp (a : F) n : (0 ≤ n)%Z → Lift (el_exp a n) = e4_exp (Lift a) n.
Proof.
  intros Hn. pattern n. apply natlike_ind; [by rewrite el_exp_0, e4_exp_0| |done].
  intros k Hk IH. by rewrite el_exp_succ, e4_exp_succ, Lift_mul, IH.
Qed.

Lemma mul_by_element_Lift x b : e4_mul_by_element x b = x * Lift b.
Proof. by rewrite e4_mul_Lift. Qed.

Lemma AddByBase_Lift x b : AddByBase x b = x + Lift b.
Proof. rewrite e4_add_spec. unfold AddByBase, Lift. simpl. f_equal; ring. Qed.

Lemma e4_exp_1 x : e4_exp x 1 = x.
Proof. change 1%Z with (Z.succ 0). rewrite e4_exp_succ, e4_exp_0 by lia. ring. Qed.

Lemma e4_exp_add x a b : (0 ≤ a)%Z → (0 ≤ b)%Z → e4_exp x (a + b)%Z = e4_exp x a * e4_exp x b.
Proof.
  intros Ha Hb. pattern a. apply natlike_ind; [| |done].
  - rewrite Z.add_0_l, e4_exp_0. ring.
  - intros n Hn IH. rewrite Z.add_succ_l, !e4_exp_succ, IH by lia. ring.
Qed.

Lemma e4_exp_mul x a b : (0 ≤ a)%Z → (0 ≤ b)%Z → e4_exp x (a * b)%Z = e4_exp (e4_exp x a) b.
Proof.
  intros Ha Hb. pattern b. apply natlike_ind; [| |done].
  - by rewrite Z.mul_0_r, !e4_exp_0.
  - intros n Hn IH. rewrite Z.mul_succ_r, e4_exp_add, IH, e4_exp_succ by nia. ring.
Qed.

Lemma e4_mul_exp x y n : (0 ≤ n)%Z → e4_exp (x * y) n = e4_exp x n * e4_exp y n.
Proof.
  intros Hn. pattern n. apply natlike_ind; [| |done].
  - rewrite !e4_exp_0. ring.
  - intros k Hk IH. rewrite !e4_exp_succ, IH by lia. ring.
Qed.

Lemma e4_one_exp n : (0 ≤ n)%Z → e4_exp 1 n = 1.
Proof.
  intros Hn. pattern n. apply natlike_ind; [apply e4_exp_0| |done].
  intros k Hk IH. rewrite e4_exp_succ, IH by lia. ring.
Qed.

Lemma e4_zero_exp n : (0 < n)%Z → e4_exp 0 n = 0.
Proof. intros Hn. replace n with (Z.succ (n - 1)) by lia. rewrite e4_exp_succ by lia. ring. Qed.

(** *** Batch inversion *)

Lemma e4_one_ne_zero : (1 : E4 F) ≠ 0.
Proof.
  intros [= E]. apply (f_equal el_val) in E. unfold el_one, el_zero in E. rewrite !el_val_of in E. done.
Qed.

Lemma e4_mul_ne_zero x y : x ≠ 0 → y ≠ 0 → x * y ≠ 0.
Proof.
  intros Hx Hy E. apply Hy. transitivity (e4_inverse x * (x * y)); [|rewrite E; ring].
  transitivity ((x * e4_inverse x) * y); [|ring]. rewrite e4_inverse_r by done. ring.
Qed.

Lemma e4_inverse_unique x y : x * y = 1 → y = e4_inverse x.
Proof.
  intros E. assert (x ≠ 0) as Hx.
  { intros ->. apply e4_one_ne_zero. rewrite <-E. ring. }
  transitivity ((x * e4_inverse x) * y); [rewrite e4_inverse_r by done; ring|].
  transitivity ((x * y) * e4_inverse x); [ring|]. rewrite E. ring.
Qed.

(** The product of the elements that are not zero. *)
Definition prod_nz (l : list (E4 F)) : E4 F := foldl (λ p x, if IsZero x then p else p * x) 1 l.

Lemma prod_nz_snoc l x : prod_nz (l ++ [x]) = if IsZero x then prod_nz l else prod_nz l * x.
Proof. unfold prod_nz. by rewrite foldl_app. Qed.

Lemma prod_nz_ne_zero l : prod_nz l ≠ 0.
Proof.
  induction l as [|x l IH] using rev_ind; [apply e4_one_ne_zero|]. rewrite prod_nz_snoc.
  unfold IsZero. case_bool_decide; [done|]. by apply e4_mul_ne_zero.
Qed.

Lemma take_S_Z {A} (l : list A) i v :
  (0 ≤ i)%Z → l !! Z.to_nat i = Some v → take (Z.to_nat (i + 1)) l = take (Z.to_nat i) l ++ [v].
Proof. intros Hi Hv. rewrite Z2Nat.inj_add, Nat.add_1_r by lia. by apply take_S_r. Qed.

(** State of the first loop before index [n]. *)
Definition forward_inv (a r0 : list (E4 F)) (n : Z) (st : list bool * list (E4 F) * E4 F) : Prop :=
  let '(zeroes, r, acc) := st in
  length zeroes = length a ∧ length r = length a ∧ acc = prod_nz (take (Z.to_nat n) a) ∧
  ∀ j x, a !! j = Some x →
    zeroes !! j = Some (if decide (Z.of_nat j < n)%Z then IsZero x else false) ∧
    r !! j = if IsZero x then r0 !! j else
             if decide (Z.of_nat j < n)%Z then Some (prod_nz (take j a)) else r0 !! j.

Lemma invert_forward_inv a r0 i st : (0 ≤ i < zlen a)%Z → forward_inv a r0 i st →
  ∃ st', invert_forward a st i = Ok st' ∧ forward_inv a r0 (i + 1) st'.
Proof.
  destruct st as [[zs r] acc]. intros Hi (Lz & Lr & -> & Hj). unfold zlen in Hi. unfold forward_inv.
  destruct (lookup_lt_is_Some_2 a (Z.to_nat i)) as [x Hx]; [lia|].
  unfold invert_forward. rewrite (idx_nat a i x) by (done || lia). simpl.
  rewrite (take_S_Z a i x), prod_nz_snoc by (done || lia).
  destruct (IsZero x) eqn:Ez; rewrite store_Ok by (unfold zlen; lia); simpl; eexists;
    (split; [done|]); (split_and!; [by rewrite ?length_insert..|done|]); intros j y Hy;
    destruct (Hj j y Hy) as [H1 H2]; (destruct (decide (j = Z.to_nat i)) as [->|Nj];
    [assert (x = y) as <- by congruence; rewrite list_lookup_insert_eq by lia
    |rewrite list_lookup_insert_ne by done; destruct (IsZero y)]); rewrite ?H1, ?H2, ?Ez; split;
    repeat case_decide; done || lia.
Qed.

(** State of the second loop when the indices from [n] on are done. *)
Definition backward_inv (a r0 : list (E4 F)) (n : Z) (st : list (E4 F) * E4 F) : Prop :=
  let '(r, acc) := st in
  length r = length a ∧ prod_nz (take (Z.to_nat n) a) * acc = 1 ∧
  ∀ j x, a !! j = Some x →
    r !! j = if IsZero x then r0 !! j else
             Some (if decide (Z.of_nat j < n)%Z then prod_nz (take j a) else e4_inverse x).

Lemma invert_backward_inv a r0 zeroes i st : (0 ≤ i < zlen a)%Z →
  (∀ j x, a !! j = Some x → zeroes !! j = Some (IsZero x)) →
  backward_inv a r0 (i + 1) st →
  ∃ st', invert_backward a zeroes st i = Ok st' ∧ backward_inv a r0 i st'.
Proof.
  destruct st as [r acc]. intros Hi Hz (Lr & Hacc & Hj). unfold zlen in Hi.
  destruct (lookup_lt_is_Some_2 a (Z.to_nat i)) as [x Hx]; [lia|].
  unfold invert_backward. rewrite (idx_nat zeroes i (IsZero x)) by (try apply Hz; done || lia). simpl.
  rewrite (take_S_Z a i x), prod_nz_snoc in Hacc by (done || lia).
  destruct (IsZero x) eqn:Ez.
  - eexists. split; [done|]. split_and!; [done..|]. intros j y Hy. rewrite (Hj j y Hy).
    destruct (IsZero y) eqn:Ey; [done|]. assert (j ≠ Z.to_nat i) by congruence.
    repeat case_decide; try done; lia.
  - pose proof (Hj _ _ Hx) as Hr. rewrite Ez, decide_True in Hr by lia.
    rewrite (idx_nat r i _ ltac:(lia) Hr), (idx_nat a i x) by (done || lia). simpl.
    rewrite store_Ok by (unfold zlen; lia). simpl. eexists. split; [done|].
    split_and!; [by rewrite length_insert|rewrite <-Hacc; ring|].
    intros j y Hy. destruct (decide (j = Z.to_nat i)) as [->|Nj].
    + assert (x = y) as <- by congruence. rewrite Ez, decide_False, list_lookup_insert_eq by lia.
      f_equal. apply e4_inverse_unique. rewrite <-Hacc. ring.
    + rewrite list_lookup_insert_ne, (Hj j y Hy) by done. destruct (IsZero y); [done|].
      repeat case_decide; try done; lia.
Qed.

Lemma BatchInvertInto_spec a r : length a = length r →
  ∃ r', BatchInvertInto a r = Ok r' ∧ length r' = length a ∧
    ∀ j x, a !! j = Some x → r' !! j = if IsZero x then r !! j else Some (e4_inverse x).
Proof.
  intros L. unfold BatchInvertInto, zlen. rewrite L, Z.eqb_refl. simpl.
  destruct (Z.eqb_spec (Z.of_nat (length r)) 0) as [E|E].
  { exists r. split; [done|]. split; [done|]. intros j x Hx. apply lookup_lt_Some in Hx. lia. }
  rewrite <-L in *. destruct (foldM_seqZ (invert_forward a) (forward_inv a r) 0 (Z.of_nat (length a))
    (replicate (length a) false, r, One)) as ([[zs r1] acc] & -> & _ & L1 & -> & H1); [lia| | |].
  { split_and!; [by rewrite length_replicate|done|done|]. intros j x Hx.
    apply lookup_lt_Some in Hx. rewrite !decide_False by lia. rewrite lookup_replicate_2 by lia. by destruct (IsZero x). }
  { intros i st Hi. apply invert_forward_inv. unfold zlen. lia. }
  simpl. rewrite Z.add_0_l, Nat2Z.id, take_ge in * by lia.
  destruct (foldM_seqZ_down (invert_backward a zs) (backward_inv a r) (Z.of_nat (length a))
    (r1, e4_inverse (prod_nz a))) as ([r2 acc] & -> & L2 & _ & H2); [lia| | |].
  - split_and!; [done|rewrite Nat2Z.id, take_ge by lia; apply e4_inverse_r, prod_nz_ne_zero|].
    intros j x Hx. pose proof (lookup_lt_Some _ _ _ Hx). destruct (H1 j x Hx) as [_ ->].
    destruct (IsZero x); [done|]. by rewrite !decide_True by lia.
  - intros i st Hi. apply invert_backward_inv; [unfold zlen; lia|]. intros j x Hx.
    pose proof (lookup_lt_Some _ _ _ Hx). destruct (H1 j x Hx) as [-> _]. by rewrite decide_True by lia.
  - simpl. exists r2. split_and!; [done|done|]. intros j x Hx. rewrite (H2 j x Hx).
    destruct (IsZero x); [done|]. by rewrite decide_False by lia.
Qed.
End facts.

(** ** Generic elements

    The methods update their receiver; the receiver is the first argument and the
    updated receiver the result. *)

Module GenericFieldElem.
Section ops.
Context `{ElementOps F, !ExtOps F}.

Record t : Type := mk { Base : F; Ext : E4 F; IsBase : bool }.

Definition zero_value : t := mk el_zero Zero false.

Definition NewGenFieldFromBase (base : F) : t := mk base (SetFromBase base) true.
Definition NewGenFieldFromExt (ext : E4 F) : t := mk el_zero ext false.
Definition NewMinimalESHashFromExt (ext : E4 F) : t :=
  if Fext.IsBase ext then mk (GetBase ext).1 ext true else mk el_zero ext false.
Definition GenericFieldOne : t := NewGenFieldFromBase el_one.
Definition GenericFieldZero : t := NewGenFieldFromBase el_zero.

Definition GetBaseElem (e : t) : F * gerr :=
  if IsBase e then (Base e, None)
  else (el_zero, Some "cannot get Base element from an extension element"%string).

(** [GetExt] refreshes the extension field of the receiver. *)
Definition GetExt (e : t) : E4 F * t :=
  if IsBase e then (SetFromBase (Base e), mk (Base e) (SetFromBase (Base e)) true) else (Ext e, e).

(** The end of [Mul], [Div], [Square] and [Exp]: records whether [ext] is a base element. *)
Definition with_ext (ext : E4 F) : t :=
  if Fext.IsBase ext then mk (GetBase ext).1 ext true else mk el_zero ext false.

Definition Mul (e inp : t) : t :=
  if IsBase e && IsBase inp
  then let b := el_mul (Base e) (Base inp) in mk b (SetFromBase b) true
  else
    let ext := if IsBase e then e4_mul_by_element (Ext inp) (Base e) else Ext e in
    let ext := if IsBase inp then e4_mul_by_element ext (Base inp) else ext in
    let ext := if negb (IsBase e) && negb (IsBase inp) then e4_mul ext (Ext inp) else ext in
    with_ext ext.

Definition Add (e inp : t) : t :=
  match IsBase e, IsBase inp with
  | true, true => let b := el_add (Base e) (Base inp) in mk b (SetFromBase b) true
  | true, false => mk el_zero (AddByBase (Ext inp) (Base e)) false
  | false, true => mk (Base e) (AddByBase (Ext e) (Base inp)) false
  | false, false => mk (Base e) (e4_add (Ext e) (Ext inp)) false
  end.

Definition Div (e inp : t) : t :=
  if IsBase e && IsBase inp
  then let b := el_mul (Base e) (el_inv (Base inp)) in mk b (SetFromBase b) true
  else
    let ext := if IsBase e then e4_div (Ext e) (Ext inp) else Ext e in
    let ext := if IsBase inp then DivByBase ext (Base inp) else ext in
    let ext := if negb (IsBase e) && negb (IsBase inp) then e4_div ext (Ext inp) else ext in
    with_ext ext.

Definition Square (e inp : t) : t :=
  if IsBase inp
  then let b := el_mul (Base inp) (Base inp) in mk b (SetFromBase b) true
  else with_ext (e4_square (Ext inp)).

(** The base branch does not touch [IsBase] of the receiver. *)
Definition Exp (e inp : t) (exponent : Z) : t :=
  if IsBase inp
  then let b := el_exp (Base inp) exponent in mk b (SetFromBase b) (IsBase e)
  else with_ext (e4_exp (Ext inp) exponent).

Definition SetInt64 (e : t) (v : Z) : t := let b := el_of_Z v in mk b (SetFromBase b) true.
Definition SetGenericInt64 (v : Z) : t := let b := el_of_Z v in mk b (SetFromBase b) true.

Definition Inverse (z x : t) : t :=
  if IsBase x then mk (el_inv (Base x)) (Ext z) (IsBase z) else mk (Base z) (e4_inverse (Ext x)) (IsBase z).

Definition IsZero (e : t) : bool := if IsBase e then bool_decide (Base e = el_zero) else Fext.IsZero (Ext e).
Definition IsOne (e : t) : bool := if IsBase e then bool_decide (Base e = el_one) else Fext.IsOne (Ext e).

Definition IsEqual (e inp : t) : bool :=
  if Fext.IsBase (Ext e) && Fext.IsBase (Ext inp)
  then bool_decide (B0A0 (Ext e) = B0A0 (Ext inp)) else bool_decide (Ext e = Ext inp).

Definition IsEqualBase (e : t) (inp : F) : bool :=
  if IsBase e then bool_decide (Base e = inp)
  else if Fext.IsBase (Ext e) then bool_decide ((GetBase (Ext e)).1 = inp) else false.

Definition GenericBytes (z : t) : list Z := if IsBase z then el_bytes (Base z) else Bytes (Ext z).

(** The extension element a generic element stands for. *)
Definition value (e : t) : E4 F := if IsBase e then Lift (Base e) else Ext e.

(** The extension field holds the value. *)
Definition synced (e : t) : Prop := Ext e = value e.
End ops.
Arguments t F : clear implicits.

Section facts.
Context `{ElementLaws F, !ExtOps F, !ExtLaws F}.
Implicit Types e inp : t F.

Add Ring e4_ring_gen : (e4_ring (F := F)).

Lemma with_ext_spec x : value (with_ext x) = x ∧ synced (with_ext x).
Proof.
  unfold with_ext, synced, value. destruct (Fext.IsBase x) eqn:E; simpl; [|done].
  unfold GetBase. rewrite E. simpl. apply IsBase_spec in E. done.
Qed.

Lemma NewMinimalESHashFromExt_spec x :
  value (NewMinimalESHashFromExt x) = x ∧ synced (NewMinimalESHashFromExt x).
Proof. apply (with_ext_spec x). Qed.

Lemma generic_Mul_spec e inp : value (Mul e inp) = e4_mul (value e) (value inp) ∧ synced (Mul e inp).
Proof.
  unfold Mul. destruct (IsBase e) eqn:Ee, (IsBase inp) eqn:Ei; simpl.
  { unfold value, synced. rewrite Ee, Ei. simpl. split; [apply Lift_mul|done]. }
  all: match goal with |- context [with_ext ?y] => destruct (with_ext_spec y) as [-> S] end.
  all: split; [|exact S]; unfold value; rewrite Ee, Ei, ?mul_by_element_Lift; ring.
Qed.

Lemma Add_spec e inp : synced e → synced inp →
  value (Add e inp) = e4_add (value e) (value inp) ∧ synced (Add e inp).
Proof.
  unfold synced, value, Add. intros He Hi.
  destruct (IsBase e) eqn:Ee, (IsBase inp) eqn:Ei; simpl; rewrite ?AddByBase_Lift, ?Lift_add.
  all: split; try done; ring.
Qed.

Lemma Exp_spec e inp n : (0 ≤ n)%Z →
  value (Exp e inp n) = e4_exp (value inp) n ∧ synced (Exp e inp n).
Proof.
  intros Hn. unfold Exp. destruct (IsBase inp) eqn:Ei; simpl.
  - unfold value, synced. rewrite Ei. simpl. rewrite <-Lift_exp by done. by destruct (IsBase e).
  - destruct (with_ext_spec (e4_exp (Ext inp) n)) as [-> S]. unfold value. by rewrite Ei.
Qed.

Lemma Square_spec e inp : value (Square e inp) = e4_mul (value inp) (value inp) ∧ synced (Square e inp).
Proof.
  unfold Square. destruct (IsBase inp) eqn:Ei; simpl.
  - unfold value, synced. rewrite Ei. simpl. split; [apply Lift_mul|done].
  - destruct (with_ext_spec (e4_square (Ext inp))) as [-> S]. unfold value. rewrite Ei.
    split; [apply e4_square_spec|done].
Qed.

Lemma SetInt64_spec e v : value (SetInt64 e v) = Lift (el_of_Z v) ∧ synced (SetInt64 e v).
Proof. done. Qed.

Lemma gen_IsZero_spec e : IsZero e = bool_decide (value e = Zero).
Proof.
  unfold IsZero, value. destruct (IsBase e); [|done].
  apply bool_decide_ext. split; [by intros ->|apply Lift_inj].
Qed.

Lemma gen_IsOne_spec e : IsOne e = bool_decide (value e = One).
Proof.
  unfold IsOne, value. destruct (IsBase e); [|done].
  apply bool_decide_ext. split; [by intros ->|apply Lift_inj].
Qed.

(** [Inverse] stores the inverse in one of the two fields without recording which:
    on a fresh receiver the inverse of a base element is lost. *)
Lemma Inverse_loses (b : F) :
  IsBase (Inverse zero_value (NewGenFieldFromBase b)) = false ∧
  value (Inverse zero_value (NewGenFieldFromBase b)) = Zero.
Proof. done. Qed.
End facts.
End GenericFieldElem.

(** ** The concrete extension field *)

Module Tower.
Section tower.
Context `{ElementLaws F}.
Local Open Scope el_scope.

Definition three : F := el_of_Z 3.

Definition mul (x y : E4 F) : E4 F :=
  let '(mkE4 a b c d) := x in
  let '(mkE4 e f g h) := y in
  mkE4 (a * e + three * (b * f) + three * (c * h + d * g))
       (a * f + b * e + (c * g + three * (d * h)))
       (a * g + three * (b * h) + (c * e + three * (d * f)))
       (a * h + b * g + (c * f + d * e)).

(** The norm to the quadratic subfield, n0 + n1 u, and its norm to the base field. *)
Definition norm0 (x : E4 F) : F := let '(mkE4 a b c d) := x in a * a + three * (b * b) - three * (c * d + c * d).
Definition norm1 (x : E4 F) : F := let '(mkE4 a b c d) := x in a * b + a * b - (c * c + three * (d * d)).
Definition norm (x : E4 F) : F := norm0 x * norm0 x - three * (norm1 x * norm1 x).

Definition inverse (x : E4 F) : E4 F :=
  let i := el_inv (norm x) in
  let '(mkE4 a b c d) := x in
  mul (mkE4 a b (- c) (- d)) (mkE4 (norm0 x * i) (- (norm1 x * i)) 0 0).

(** Square and multiply. *)
Definition pow (x : E4 F) (n : Z) : E4 F := match n with Z.pos p => Pos.iter_op mul p x | _ => One end.

Instance ops : ExtOps F := {
  e4_add x y := mkE4 (B0A0 x + B0A0 y) (B0A1 x + B0A1 y) (B1A0 x + B1A0 y) (B1A1 x + B1A1 y);
  e4_sub x y := mkE4 (B0A0 x - B0A0 y) (B0A1 x - B0A1 y) (B1A0 x - B1A0 y) (B1A1 x - B1A1 y);
  e4_neg x := mkE4 (- B0A0 x) (- B0A1 x) (- B1A0 x) (- B1A1 x);
  e4_mul := mul;
  e4_square x := mul x x;
  e4_inverse := inverse;
  e4_div x y := mul x (inverse y);
  e4_exp := pow;
  e4_mul_by_element x b := mkE4 (B0A0 x * b) (B0A1 x * b) (B1A0 x * b) (B1A1 x * b)
}.

(** 3 and -3 are not squares. *)
Context (three_nonsquare : ∀ a b : F, a * a = three * (b * b) → a = 0 ∧ b = 0).
Context (minus_three_nonsquare : ∀ a b : F, a * a = - three * (b * b) → a = 0 ∧ b = 0).

Add Ring el_ring_tower : (el_ring (F := F)).

Lemma mul_inverse x : mul x (inverse x) = Lift (norm x * el_inv (norm x)).
Proof.
  destruct x as [a b c d]. unfold inverse. generalize (el_inv (norm (mkE4 a b c d))). intros i.
  unfold Lift, norm, mul, norm0, norm1. f_equal; ring.
Qed.

Lemma mul_assoc x y z : mul x (mul y z) = mul (mul x y) z.
Proof. destruct x, y, z. simpl. f_equal; ring. Qed.

Lemma sub_zero_eq (a b : F) : a - b = 0 → a = b.
Proof. intros E. transitivity (a - b + b); [ring|]. rewrite E. ring. Qed.

Lemma norm_zero x : norm x = 0 → x = Zero.
Proof.
  intros [E0 E1]%sub_zero_eq%three_nonsquare. destruct x as [a b c d]. simpl in E0, E1.
  apply sub_zero_eq in E0, E1.
  assert (a * a - three * (b * b) = 0 ∧ c * c - three * (d * d) = 0) as [Eab Ecd].
  { apply minus_three_nonsquare.
    transitivity ((a * a + three * (b * b)) * (a * a + three * (b * b))
      - three * ((a * b + a * b) * (a * b + a * b))); [ring|]. rewrite E0, E1. ring. }
  apply sub_zero_eq, three_nonsquare in Eab, Ecd. destruct Eab as [-> ->], Ecd as [-> ->]. done.
Qed.

Lemma laws : ExtLaws F.
Proof.
  split.
  - split; intros; unfold Zero, One; simpl; repeat match goal with x : E4 F |- _ => destruct x end; simpl; f_equal; ring.
  - done.
  - done.
  - done.
  - intros [a b c d] e. simpl. f_equal; ring.
  - done.
  - intros x Hx. simpl. rewrite mul_inverse, el_inv_r; [done|]. by intros ?%norm_zero.
  - change (inverse Zero = Zero). unfold inverse, Zero, mul. f_equal; ring.
  - done.
  - done.
  - intros x [|p|p] Hn; [| |lia].
    + destruct x as [a b c d]. unfold One. simpl. f_equal; ring.
    + change (Z.succ (Z.pos p)) with (Z.pos (p + 1)). rewrite Pos.add_1_r. apply (Pos.iter_op_succ _ mul mul_assoc).
Qed.
End tower.
End Tower.

(** Euler's criterion, one direction: in a field of 2h + 1 elements, an element whose
    power h is -1 is not the quotient of two squares. *)
Module Euler.
Section euler.
Context `{ElementLaws F} (h : Z) (h_nonneg : 0 ≤ h).
Local Open Scope el_scope.
Context (fermat : ∀ s : F, el_exp s (2 * h + 1)%Z = s).

Add Ring el_ring_euler : (el_ring (F := F)).

Lemma el_mul_zero (a b : F) : a * b = 0 → a ≠ 0 → b = 0.
Proof.
  intros E Ha. transitivity (el_inv a * (a * b)); [|rewrite E; ring].
  transitivity (a * el_inv a * b); [rewrite (el_inv_r a Ha)|]; ring.
Qed.

Lemma el_exp_square (x : F) n : (0 ≤ n)%Z → el_exp (x * x) n = el_exp x (2 * n)%Z.
Proof.
  intros Hn. pattern n. apply natlike_ind; [by rewrite Z.mul_0_r, !el_exp_0| |done].
  intros k Hk IH. replace (2 * Z.succ k)%Z with (Z.succ (Z.succ (2 * k))) by lia.
  rewrite !el_exp_succ, IH by lia. ring.
Qed.

Lemma two_ne_zero : el_of_Z 2 ≠ (0 : F).
Proof. intros E%(f_equal el_val). unfold el_zero in E. rewrite !el_val_of in E. done. Qed.

Lemma nonsquare (k s : F) : el_exp k h = - el_one → s * s = k → s = 0.
Proof.
  intros Hk <-. rewrite el_exp_square in Hk by done.
  assert (s = - s) as E.
  { rewrite <-(fermat s) at 1. rewrite Z.add_1_r, el_exp_succ, Hk by lia. ring. }
  apply (el_mul_zero (el_of_Z 2)); [|apply two_ne_zero].
  change 2%Z with (1 + 1)%Z. rewrite el_of_Z_add. change (el_of_Z 1) with (1 : F).
  transitivity (s + s); [ring|]. rewrite E at 2. ring.
Qed.

Lemma nonsquare_ratio (k a b : F) : k ≠ 0 →
  el_exp k h = - el_one → a * a = k * (b * b) → a = 0 ∧ b = 0.
Proof.
  intros Nk Hk E. destruct (decide (b = 0)) as [->|Hb].
  - split; [|done]. destruct (decide (a = 0)) as [|Ha]; [done|].
    apply (el_mul_zero a); [|done]. rewrite E. ring.
  - exfalso. assert (a * el_inv b = 0) as E0.
    { apply (nonsquare k); [done|].
      transitivity (a * a * (el_inv b * el_inv b)); [ring|]. rewrite E.
      transitivity (k * ((b * el_inv b) * (b * el_inv b))); [ring|]. rewrite (el_inv_r b Hb). ring. }
    apply Hb, (el_mul_zero b); [|done]. apply (el_mul_zero k); [|done]. rewrite <-E.
    transitivity (a * el_inv b * (a * b)); [|rewrite E0; ring].
    transitivity (a * (a * (b * el_inv b))); [rewrite (el_inv_r b Hb)|]; ring.
Qed.
End euler.
End Euler.

Module KoalaExt.
Notation F := KoalaBear.t.
#[export] Existing Instances KoalaBear.ops KoalaBear.laws.
Local Open Scope el_scope.

#[export] Instance ops : ExtOps F := Tower.ops.

Definition half : Z := 1065353216.

Lemma fermat (s : F) : el_exp s (2 * half + 1) = s.
Proof.
  assert (2 * half + 1 = koalaModulus)%Z as -> by reflexivity.
  apply (Zmod.fermat s KoalaBear.koalaModulus_prime).
Qed.

Lemma nonsquare_by_power (k a b : F) :
  el_val k ≠ 0%Z → el_val (el_exp k half) = (koalaModulus - 1)%Z →
  a * a = k * (b * b) → a = 0 ∧ b = 0.
Proof.
  intros Nk Hk. refine (Euler.nonsquare_ratio half _ fermat k a b _ _).
  - done.
  - intros ->. apply Nk. reflexivity.
  - apply el_val_inj. rewrite Hk. vm_compute. reflexivity.
Qed.

#[export] Instance laws : ExtLaws F.
Proof.
  apply Tower.laws; intros a b; apply nonsquare_by_power; vm_compute; (reflexivity || discriminate).
Qed.
End KoalaExt.
