(* ===== verification/CircularInterval.v ===== *)
(** * Intervals of a circle

    Model of src/prover/maths/common/smartvectors/circular_interval.go: intervals over
    the integers modulo a circle size, their union and the smallest interval that
    covers a list of intervals. *)

From S2P Require Export Utils.
Import Utils.

Module CircularInterval.

Record t : Type := mk { circleSize : Z; istart : Z; IntervalLen : Z }.

#[global] Instance eq_dec : EqDecision t.
Proof. solve_decision. Defined.

Definition IvalWithFullLen (n : Z) : res t := if n <=? 0 then Panic else Ok (mk n 0 n).

Definition IvalWithStartLen (start len n : Z) : res t :=
  if len =? 0 then Panic
  else if (start <? 0) || (n <=? start) then Panic
  else if n <=? len then Panic
  else Ok (mk n start len).

Definition IvalWithStartStop (start stop n : Z) : res t :=
  if start =? stop then Panic
  else if (start <? 0) || (n <=? start) then Panic
  else if (stop <? 0) || (n <=? stop) then Panic
  else l ← PositiveMod (stop - start) n; Ok (mk n start l).

Definition Start (c : t) : Z := istart c.
Definition Stop (c : t) : res Z := PositiveMod (int64 (istart c + IntervalLen c)) (circleSize c).
Definition DoesWrapAround (c : t) : res bool := e ← Stop c; Ok (e <? Start c).
Definition IsFullCircle (c : t) : bool := IntervalLen c =? circleSize c.

Definition DoesInclude (c : t) (p : Z) : res bool :=
  if (p <? 0) || (circleSize c <? p) then Panic
  else if IsFullCircle c then Ok true
  else w ← DoesWrapAround c;
       e ← Stop c;
       if (w : bool) then Ok ((p <? e) || (Start c <=? p)) else Ok ((Start c <=? p) && (p <? e)).

(** Go's [a && b] evaluates [b] only when [a] holds. *)
Definition andR (a b : res bool) : res bool := x ← a; if (x : bool) then b else Ok false.

Definition DoesFullyContain (c other : t) : res bool :=
  if IsFullCircle c then Ok true
  else if negb (IsFullCircle c) && IsFullCircle other then Ok false
  else
    w ← DoesWrapAround c;
    if negb w then
      andR (DoesInclude c (Start other))
        (andR (e ← Stop other; DoesInclude c (e - 1)) (o ← DoesWrapAround other; Ok (negb o)))
    else
      ow ← DoesWrapAround other; oe ← Stop other; ce ← Stop c;
      if negb ow && (oe <=? ce) then Ok true
      else if negb ow && (Start c <=? Start other) then Ok true
      else if ow && (Start c <=? Start other) && (oe <=? ce) then Ok true
      else Ok false.

(** [None] is the return [false, CircularInterval{}]. *)
Definition TryOverlapWith (c other : t) : res (option t) :=
  if negb (circleSize c =? circleSize other) then Panic else
  let n := circleSize c in
  if IsFullCircle c || IsFullCircle other then w ← IvalWithFullLen n; Ok (Some w) else
  ce ← Stop c; oe ← Stop other;
  c1 ← PositiveMod (ce - Start c) n;
  o0 ← PositiveMod (Start other - Start c) n;
  o1 ← PositiveMod (oe - Start c) n;
  if (0 <=? o0) && (o0 <? o1) && (o1 <=? c1) then Ok (Some c)
  else if (0 <=? o1) && (o1 <? o0) && (o0 <=? c1) then w ← IvalWithFullLen n; Ok (Some w)
  else if (0 <=? o0) && (o0 <=? c1) && (c1 <=? o1) then w ← IvalWithStartStop (Start c) oe n; Ok (Some w)
  else if (0 <=? o1) && (o1 <=? c1) && (c1 <? o0) then w ← IvalWithStartStop (Start other) ce n; Ok (Some w)
  else if (0 <=? c1) && (c1 <=? o1) && (o1 <? o0) then Ok (Some other)
  else Ok None.

(** [sort.Slice] by increasing start: a permutation of its argument, in order. The order
    of intervals with the same start is not specified. *)
Class SortByStart : Type := sort_by_start : list t → list t.
Class SortByStartLaws `{SortByStart} : Prop := {
  sort_perm l : sort_by_start l ≡ₚ l;
  sort_sorted l : StronglySorted (λ a b, istart a ≤ istart b) (sort_by_start l)
}.

(** One iteration of the first loop; [overlaps] keeps its last element in front, and
    [sameSize] is the test that the sizes of the circles agree. *)
Definition overlap_step (sameSize : bool) (overlaps : list t) (interval : t) : res (list t) :=
  match overlaps with
  | [] => Ok [interval]
  | last :: before =>
      if negb sameSize then Panic else
      r ← TryOverlapWith last interval;
      match r with
      | Some newW => Ok (newW :: before)
      | None => Ok (interval :: last :: before)
      end
  end.

(** The second loop: merges the last element into the first ones. *)
Fixpoint merge_around (last : t) (before : list t) : res (list t) :=
  match before with
  | [] => Ok [last]
  | first :: rest =>
      r ← TryOverlapWith last first;
      match r with
      | Some newW => merge_around newW rest
      | None => Ok (first :: rest ++ [last])
      end
  end.

(** The search of the largest gap; the state is (maxGap, posMaxGap). *)
Definition gap_step (overlaps : list t) (n : Z) (st : Z * Z) (i : Z) : res (Z * Z) :=
  w ← idx overlaps i;
  nextW ← idx overlaps ((i + 1) mod zlen overlaps);
  e ← Stop w;
  gap ← PositiveMod (Start nextW - e) n;
  Ok (if st.1 <? gap then (gap, i) else st).

Definition SmallestCoverInterval `{SortByStart} (intervals : list t) : res t :=
  first ← idx intervals 0;
  let n := circleSize first in
  let sorted := sort_by_start intervals in
  first' ← idx sorted 0;
  down ← foldM (overlap_step (circleSize first' =? n)) [] sorted;
  match down with
  | [] => Panic
  | last :: before =>
      overlaps ← merge_around last (reverse before);
      if zlen overlaps =? 1 then idx overlaps 0
      else
        st ← foldM (gap_step overlaps n) (0, 0) (seqZ 0 (zlen overlaps));
        let '(maxGap, posMaxGap) := st in
        if maxGap <? 1 then Panic else
        a ← idx overlaps ((posMaxGap + 1) mod zlen overlaps);
        b ← idx overlaps posMaxGap;
        e ← Stop b;
        IvalWithStartStop (Start a) e n
  end.

(** ** Points of an interval *)

Definition wf (c : t) : Prop :=
  0 < circleSize c < 2 ^ 62 ∧ 0 ≤ istart c < circleSize c ∧ 0 < IntervalLen c ≤ circleSize c.

(** Point [p] of the circle belongs to [c]. *)
Definition has (c : t) (p : Z) : Prop :=
  0 ≤ p < circleSize c ∧
  (istart c ≤ p < istart c + IntervalLen c ∨ istart c ≤ p + circleSize c < istart c + IntervalLen c).

Definition on_circle (n : Z) (p : Z) : Prop := 0 ≤ p < n.

Lemma PositiveMod_near x n : 0 < n < 2 ^ 63 → - n < x < n →
  PositiveMod x n = Ok (if decide (x < 0) then x + n else x).
Proof.
  intros Hn Hx. rewrite PositiveMod_spec by done. f_equal. case_decide.
  - symmetry. apply (Z.mod_unique_pos x n (-1)); lia.
  - apply Z.mod_small. lia.
Qed.

Definition stop (c : t) : Z :=
  if decide (istart c + IntervalLen c < circleSize c) then istart c + IntervalLen c
  else istart c + IntervalLen c - circleSize c.

Lemma Stop_spec c : wf c → Stop c = Ok (stop c).
Proof.
  intros (Hn & Hs & Hl). unfold Stop, stop. rewrite int64_id by (unfold in_int64; lia).
  rewrite PositiveMod_spec by lia. f_equal. case_decide.
  - apply Z.mod_small. lia.
  - symmetry. apply (Z.mod_unique_pos _ _ 1); lia.
Qed.

(** Decides the comparisons of the goal, one by one, keeping the possible cases. *)
Ltac ztests :=
  repeat (match goal with
  | |- context [decide ?P] => destruct (decide P); try lia
  | |- context [Z.ltb ?a ?b] => destruct (Z.ltb_spec a b); try lia
  | |- context [Z.leb ?a ?b] => destruct (Z.leb_spec a b); try lia
  | |- context [Z.eqb ?a ?b] => destruct (Z.eqb_spec a b); try lia
  end; simpl).

Lemma DoesInclude_spec c p : wf c → 0 ≤ p < circleSize c →
  ∃ b, DoesInclude c p = Ok b ∧ (b = true ↔ has c p).
Proof.
  intros W Hp. pose proof W as (Hn & Hs & Hl). unfold DoesInclude, has, DoesWrapAround, IsFullCircle, Start.
  rewrite (Stop_spec c W). simpl. unfold stop. ztests; eexists; (split; [done|]); split; intros; (done || lia || (exfalso; lia)).
Qed.

Lemma IvalWithFullLen_spec n : 0 < n → IvalWithFullLen n = Ok (mk n 0 n).
Proof. intros Hn. unfold IvalWithFullLen. ztests. done. Qed.

Lemma IvalWithStartStop_spec start e n : 0 < n < 2 ^ 62 → 0 ≤ start < n → 0 ≤ e < n → start ≠ e →
  IvalWithStartStop start e n = Ok (mk n start (if decide (start < e) then e - start else e - start + n)).
Proof.
  intros. unfold IvalWithStartStop. ztests; rewrite PositiveMod_near by lia; simpl; by rewrite ?decide_True, ?decide_False by lia.
Qed.

Definition end_ (c : t) : Z := istart c + IntervalLen c.

(** The point before the start. *)
Definition previous (c : t) : Z := if decide (istart c = 0) then circleSize c - 1 else istart c - 1.

(** Whether a union was found, and what it is: it starts with [c], or with [other] when
    [other] reaches [c] from the left. *)
Definition overlap_ok (c other : t) (r : option t) : Prop :=
  match r with
  | Some w => wf w ∧ circleSize w = circleSize c ∧ (∀ p, has w p ↔ has c p ∨ has other p) ∧
      (IntervalLen w = circleSize c ∨ istart w = istart c ∨ (istart w = istart other ∧ has other (previous c)))
  | None => (∀ p, has c p → ¬ has other p) ∧ stop c ≠ istart other ∧ stop other ≠ istart c
  end.

(** The coordinates relative to the start of [c]. *)
Lemma relative_coords c other : wf c → wf other → circleSize c = circleSize other →
  IntervalLen c ≠ circleSize c → IntervalLen other ≠ circleSize c →
  ∃ k k' o0 o1, (k = 0 ∨ k = 1) ∧ (k' = 0 ∨ k' = 1) ∧
    o0 = istart other - istart c + k * circleSize c ∧ 0 ≤ o0 < circleSize c ∧
    o1 = o0 + IntervalLen other - k' * circleSize c ∧ 0 ≤ o1 < circleSize c ∧
    PositiveMod (stop c - istart c) (circleSize c) = Ok (IntervalLen c) ∧
    PositiveMod (istart other - istart c) (circleSize c) = Ok o0 ∧
    PositiveMod (stop other - istart c) (circleSize c) = Ok o1.
Proof.
  intros (Hn & Hs & Hl) (Hn' & Hs' & Hl') E F F'. rewrite <-E in *.
  exists (if decide (istart other < istart c) then 1 else 0).
  set (o0 := if decide (istart other < istart c) then istart other - istart c + circleSize c else istart other - istart c).
  exists (if decide (o0 + IntervalLen other < circleSize c) then 0 else 1), o0,
    (if decide (o0 + IntervalLen other < circleSize c) then o0 + IntervalLen other else o0 + IntervalLen other - circleSize c).
  unfold o0, stop. rewrite <-E, !PositiveMod_near by (repeat case_decide; lia).
  repeat case_decide; split_and!; try lia; try (f_equal; lia).
Qed.

Lemma TryOverlapWith_spec c other : wf c → wf other → circleSize c = circleSize other →
  ∃ r, TryOverlapWith c other = Ok r ∧ overlap_ok c other r.
Proof.
  intros Wc Wo E. pose proof Wc as (Hn & Hs & Hl). pose proof Wo as (Hn' & Hs' & Hl').
  unfold TryOverlapWith, IsFullCircle, Start. rewrite (Stop_spec c Wc), (Stop_spec other Wo), <-E, Z.eqb_refl.
  simpl. destruct (_ || _) eqn:F.
  { rewrite IvalWithFullLen_spec by lia. eexists. split; [done|]. unfold overlap_ok, wf, has. simpl.
    apply orb_true_iff in F. rewrite !Z.eqb_eq in F. rewrite <-E in *. split_and!; lia. }
  apply orb_false_iff in F as [F F']. rewrite Z.eqb_neq in F, F'.
  destruct (relative_coords c other Wc Wo E F F') as (k & k' & o0 & o1 & Hk & Hk' & E0 & R0 & E1 & R1 & -> & -> & ->).
  assert (0 ≤ stop c < circleSize c ∧ 0 ≤ stop other < circleSize c) as [Sc So].
  { unfold stop. rewrite <-E. repeat case_decide; lia. }
  simpl. rewrite <-E in Hs', Hl'. unfold overlap_ok. ztests;
    rewrite ?IvalWithFullLen_spec, ?IvalWithStartStop_spec by (unfold stop in *; rewrite <-?E in *; repeat case_decide; lia);
    eexists; (split; [done|]); unfold wf, has, stop, previous in *; simpl; rewrite <-?E in *; clear E; repeat case_decide; split_and!; try lia.
Qed.

(** ** Inclusion of intervals *)

(** An interval inside another that is not the full circle lies in it in one piece. *)
Lemma inclusion c d : wf c → wf d → circleSize c = circleSize d → IntervalLen d < circleSize d →
  (∀ p, has c p → has d p) →
  ∃ o, 0 ≤ o ∧ o + IntervalLen c ≤ IntervalLen d ∧
    (istart c = istart d + o ∨ istart c + circleSize d = istart d + o).
Proof.
  intros (Hn & Hs & Hl) (Hn' & Hs' & Hl') E F I.
  set (o := if decide (istart d ≤ istart c) then istart c - istart d else istart c - istart d + circleSize d).
  assert (0 ≤ o < circleSize d ∧ (istart c = istart d + o ∨ istart c + circleSize d = istart d + o)) as [Ho Eo].
  { unfold o. case_decide; lia. }
  exists o. split_and!; [lia| |done].
  destruct (decide (o + IntervalLen c ≤ IntervalLen d)) as [|G]; [done|exfalso].
  assert (has d (istart c)) as H0. { apply I. unfold has. lia. }
  assert (has c (stop d)) as H1. { unfold has, stop in *. case_decide; lia. }
  apply I in H1. unfold has, stop in *. case_decide; lia.
Qed.

Lemma inclusion_len c d : wf c → wf d → circleSize c = circleSize d →
  (∀ p, has c p → has d p) → IntervalLen c ≤ IntervalLen d.
Proof.
  intros Wc Wd E I. destruct (decide (IntervalLen d < circleSize d)) as [F|F].
  - destruct (inclusion c d Wc Wd E F I) as (o & ? & ? & _). lia.
  - destruct Wc as (_ & _ & ?). lia.
Qed.
End CircularInterval.

(** * The smallest covering interval

    [SmallestCoverInterval] returns an interval that contains every given interval and
    no shorter one does. The proof follows the three phases of the code: the buckets
    built from the sorted intervals are separated, merging the last one around the
    origin keeps them so, and the result is the complement of the largest gap. *)


Import Utils CircularInterval.

Module IntervalCover.
Section cover.
Context (n : Z).

Definition ok (c : t) : Prop := wf c ∧ circleSize c = n.

Definition covered (l : list t) (p : Z) : Prop := ∃ c, c ∈ l ∧ has c p.

Lemma covered_cons c l p : covered (c :: l) p ↔ has c p ∨ covered l p.
Proof. unfold covered. set_solver. Qed.

Lemma covered_app l k p : covered (l ++ k) p ↔ covered l p ∨ covered k p.
Proof. unfold covered. set_solver. Qed.

Lemma covered_nil p : ¬ covered [] p.
Proof. unfold covered. set_solver. Qed.

Lemma covered_perm l k p : l ≡ₚ k → covered l p ↔ covered k p.
Proof. intros E. unfold covered. by setoid_rewrite E. Qed.

Lemma overlap c d : ok c → ok d → ∃ r, TryOverlapWith c d = Ok r ∧ overlap_ok c d r.
Proof. intros [Wc Ec] [Wd Ed]. apply TryOverlapWith_spec; [done..|congruence]. Qed.

(** ** First phase *)

Definition separated : list t → Prop := StronglySorted (λ a b, end_ a < istart b).

(** The buckets, last one in front, after a prefix of the intervals. *)
Definition buckets (down : list t) : Prop :=
  match down with
  | [] => True
  | last :: before =>
      Forall ok (last :: before) ∧ separated (reverse before) ∧
      (IntervalLen last = n ∨ Forall (λ b, end_ b < istart last) before)
  end.

Lemma separated_snoc l c : separated l → Forall (λ b, end_ b < istart c) l → separated (l ++ [c]).
Proof.
  intros Hl Hc. apply StronglySorted_app_2; [|done|repeat constructor].
  intros a b Ha Hb. apply list_elem_of_singleton in Hb as ->. by rewrite Forall_forall in Hc; apply Hc.
Qed.

Lemma full_has c p : ok c → IntervalLen c = n → 0 ≤ p < n → has c p.
Proof. intros [(? & ? & ?) ?] ? ?. unfold has. lia. Qed.

Lemma has_start c : ok c → has c (istart c).
Proof. intros [(? & ? & ?) ?]. unfold has. lia. Qed.

Lemma union_full c d w : ok c → ok w → IntervalLen c = n → (∀ p, has w p ↔ has c p ∨ has d p) → IntervalLen w = n.
Proof.
  intros [Wc Ec] [Ww Ew] F Hp.
  assert (IntervalLen c ≤ IntervalLen w) by (apply inclusion_len; [done..|congruence|intros p ?; apply Hp; by left]).
  destruct Ww as (_ & _ & ?). lia.
Qed.

(** What the search of an overlap finds when [d] starts after [c]. *)
Lemma overlap_after c d : ok c → ok d → IntervalLen c = n ∨ istart c ≤ istart d →
  (∃ w, TryOverlapWith c d = Ok (Some w) ∧ ok w ∧ (∀ p, has w p ↔ has c p ∨ has d p) ∧
        (IntervalLen w = n ∨ IntervalLen c < n ∧ istart c ≤ istart w ≤ istart d)) ∨
  (TryOverlapWith c d = Ok None ∧ IntervalLen c < n ∧ end_ c < istart d).
Proof.
  intros Hc Hd Hle. destruct (overlap c d Hc Hd) as (r & -> & R). pose proof Hc as [(? & ? & ?) ?].
  pose proof Hd as [(? & ? & ?) ?]. destruct r as [w|]; simpl in R.
  - left. destruct R as (Ww & Ew & Hp & Hs). exists w. assert (ok w) as Hw by (split; congruence).
    split_and!; [done..|]. destruct (decide (IntervalLen c = n)) as [F|F].
    + left. by apply (union_full c d).
    + destruct Hs as [Hs|Hs]; [left; congruence|right]. destruct Hle as [|]; [done|]. lia.
  - right. destruct R as (D & N1 & N2). pose proof (has_start d Hd) as Hds.
    assert (IntervalLen c ≠ n) as F.
    { intros F. apply (D (istart d)); [apply full_has; [done..|lia]|done]. }
    split_and!; [done|lia|]. destruct Hle as [|Hle]; [done|].
    assert (¬ has c (istart d)) as Nh by (intros ?; by apply (D (istart d))).
    unfold has, stop, end_ in *. clear D; repeat case_decide; lia.
Qed.

Lemma overlap_step_spec down interval :
  buckets down → ok interval →
  (∀ last before, down = last :: before → IntervalLen last = n ∨ istart last ≤ istart interval) →
  ∃ down', overlap_step true down interval = Ok down' ∧ buckets down' ∧
    (∃ last before, down' = last :: before ∧ (IntervalLen last = n ∨ istart last ≤ istart interval)) ∧
    ∀ p, covered down' p ↔ covered down p ∨ has interval p.
Proof.
  destruct down as [|last before]; intros B Hi Hlast; simpl.
  - exists [interval]. split; [done|]. split; [|split].
    + split_and!; [by constructor|constructor|by right].
    + exists interval, []. split; [done|right; lia].
    + intros p. rewrite covered_cons. pose proof (covered_nil p). tauto.
  - destruct B as (Hok & Hsep & Hfull). apply Forall_cons_1 in Hok as [Hl Hb].
    destruct (overlap_after last interval Hl Hi (Hlast _ _ eq_refl)) as [(w & -> & Hw & Hp & Hs)|(-> & F & He)]; simpl.
    + exists (w :: before). split; [done|]. split; [|split].
      * split_and!; [by constructor|done|]. destruct Hs as [|[? ?]]; [by left|right].
        destruct Hfull as [|Hfull]; [lia|]. eapply Forall_impl; [exact Hfull|]. simpl. intros. lia.
      * exists w, before. split; [done|]. destruct Hs; [by left|right; lia].
      * intros p. rewrite !covered_cons, Hp. tauto.
    + exists (interval :: last :: before). split; [done|]. destruct Hfull as [|Hfull]; [lia|]. split; [|split].
      * split_and!; [by rewrite !Forall_cons| |right; constructor; [done|]].
        -- rewrite reverse_cons. apply separated_snoc; [done|]. by rewrite Forall_reverse.
        -- pose proof Hl as [(? & ? & ?) ?]. eapply Forall_impl; [exact Hfull|].
           simpl. unfold end_ in *. intros. lia.
      * exists interval, (last :: before). split; [done|right; lia].
      * intros p. rewrite !covered_cons. tauto.
Qed.

Lemma first_phase sorted : sorted ≠ [] → Forall ok sorted → StronglySorted (λ a b, istart a ≤ istart b) sorted →
  ∃ last before, foldM (overlap_step true) [] sorted = Ok (last :: before) ∧ buckets (last :: before) ∧
    ∀ p, covered (last :: before) p ↔ covered sorted p.
Proof.
  intros Hne Hok Hs.
  cut (∀ k l down, l ++ k = sorted → buckets down → (∀ p, covered down p ↔ covered l p) → (down = [] → l = []) →
    (∀ last before x, down = last :: before → x ∈ k → IntervalLen last = n ∨ istart last ≤ istart x) →
    ∃ down', foldM (overlap_step true) down k = Ok down' ∧ buckets down' ∧
      (∀ p, covered down' p ↔ covered sorted p) ∧ (down' = [] → sorted = [])).
  { intros G. destruct (G sorted [] []) as (down & E & B & C & N); [done..| |].
    { intros p. done. }
    destruct down as [|last before]; [by destruct Hne; apply N|]. by exists last, before. }
  induction k as [|x k IH]; intros l down El B C N Hle; simpl.
  { exists down. rewrite app_nil_r in El. subst. done. }
  assert (ok x) as Hx. { rewrite Forall_forall in Hok. apply Hok. rewrite <-El. set_solver. }
  destruct (overlap_step_spec down x B Hx) as (down' & -> & B' & (la & be & -> & Hla) & C').
  { intros la be Ed. apply (Hle la be); [done|set_solver]. }
  simpl. apply (IH (l ++ [x])); [by rewrite <-El, <-(assoc_L (++))|done| |done|].
  - intros p. rewrite C', C, covered_app, covered_cons. pose proof (covered_nil p). tauto.
  - intros la' be' y [= <- <-] Hy. destruct Hla as [|Hla]; [by left|right].
    subst sorted. apply StronglySorted_app_1_r in Hs. apply StronglySorted_inv in Hs as [_ Hs].
    rewrite Forall_forall in Hs. specialize (Hs y Hy). simpl in Hs. lia.
Qed.

(** ** Second phase *)

(** The intervals are in order around the circle with a gap after each of them. *)
Definition around (l : list t) : Prop :=
  Forall ok l ∧ separated l ∧
  ∀ first last, head l = Some first → list.last l = Some last → end_ last < n + istart first.

Lemma merge_around_spec before last :
  Forall ok (last :: before) → separated before →
  IntervalLen last = n ∨ Forall (λ b, end_ b < istart last) before →
  ∃ l, merge_around last before = Ok l ∧ (∀ p, covered l p ↔ covered (last :: before) p) ∧
    ((∃ w, l = [w] ∧ ok w) ∨ ((2 ≤ length l)%nat ∧ around l)).
Proof.
  revert last. induction before as [|first rest IH]; intros last Hok Hsep Hl; simpl.
  { exists [last]. split; [done|]. split; [done|]. left. exists last. by apply Forall_cons_1 in Hok as [? _]. }
  rewrite !Forall_cons in Hok. destruct Hok as (Hla & Hfi & Hre).
  destruct (overlap last first Hla Hfi) as (r & -> & R). simpl.
  apply StronglySorted_inv in Hsep as [Hsep Hfirst].
  pose proof Hla as [(? & ? & ?) ?]. pose proof Hfi as [(? & ? & ?) ?].
  destruct r as [w|]; simpl in R.
  - destruct R as (Ww & Ew & Hp & Hs). assert (ok w) as Hw by (split; congruence).
    destruct (IH w) as (l & -> & C & D); [by constructor|done| |].
    + destruct (decide (IntervalLen last = n)) as [F|F]; [left; by apply (union_full last first)|].
      destruct Hl as [|Hl]; [done|]. apply Forall_cons_1 in Hl as [Hl1 Hl2].
      destruct Hs as [?|[->|[_ Hs]]]; [left; congruence|by right|].
      exfalso. unfold has, previous, end_ in *. case_decide; lia.
    + exists l. split; [done|]. split; [|done]. intros p. rewrite C, !covered_cons, Hp. tauto.
  - destruct R as (D & N1 & N2). pose proof (has_start first Hfi) as Hst.
    assert (IntervalLen last ≠ n) as F.
    { intros F. apply (D (istart first)); [apply full_has; [done..|lia]|done]. }
    destruct Hl as [|Hl]; [done|].
    exists (first :: rest ++ [last]). split; [done|]. split.
    { intros p. rewrite !covered_cons, covered_app, covered_cons. pose proof (covered_nil p). tauto. }
    right. split; [simpl; rewrite length_app; simpl; lia|]. split_and!.
    + rewrite Forall_cons, Forall_app. repeat (done || split || constructor).
    + apply (separated_snoc (first :: rest)); [by constructor|done].
    + intros f la [= <-] Ela. change (first :: rest ++ [last]) with ((first :: rest) ++ [last]) in Ela.
      rewrite last_snoc in Ela. injection Ela as <-.
      assert (¬ has last (istart first)) as Nh by (intros ?; by apply (D (istart first))).
      clear D. apply Forall_cons_1 in Hl as [Hl1 _].
      unfold has, stop, end_ in *. repeat case_decide; lia.
Qed.

(** ** Third phase *)

Section gaps.
Context (l : list t) (l_around : around l) (l_two : (2 ≤ length l)%nat).

Definition next (i : nat) : nat := if decide (S i = length l) then 0%nat else S i.

(** The distance from the end of [a] to the start of the following [b]. *)
Definition gap (i : nat) (a b : t) : Z :=
  if decide (S i = length l) then n + istart b - end_ a else istart b - end_ a.

Lemma next_lookup i a : l !! i = Some a → ∃ b, l !! next i = Some b ∧ 1 ≤ gap i a b.
Proof.
  intros Ha. pose proof (lookup_lt_Some _ _ _ Ha). destruct l_around as (_ & Hsep & Hwrap).
  unfold next, gap. case_decide as D.
  - destruct (lookup_lt_is_Some_2 l 0) as [b Hb]; [lia|]. exists b. split; [done|].
    assert (end_ a < n + istart b); [|lia]. apply Hwrap; [by destruct l|].
    rewrite last_lookup. by replace (Init.Nat.pred (length l)) with i by lia.
  - destruct (lookup_lt_is_Some_2 l (S i)) as [b Hb]; [lia|]. exists b. split; [done|].
    assert (end_ a < istart b); [|lia].
    apply (StronglySorted_lookup_lt _ l i (S i) a b Hsep); [done..|lia].
Qed.

Lemma ok_lookup i a : l !! i = Some a → ok a.
Proof. intros Ha. destruct l_around as (Hok & _ & _). rewrite Forall_forall in Hok. apply Hok. by eapply list_elem_of_lookup_2. Qed.

Lemma ordered i j a b : l !! i = Some a → l !! j = Some b → (i < j)%nat → end_ a < istart b.
Proof. destruct l_around as (_ & Hsep & _). intros. by apply (StronglySorted_lookup_lt _ l i j a b Hsep). Qed.

(** The last interval may pass the origin, the others stop before it. *)
Lemma ends_before i a first : l !! i = Some a → l !! 0%nat = Some first → end_ a < n + istart first.
Proof.
  intros Ha Hf. destruct l_around as (_ & _ & Hwrap).
  destruct (lookup_lt_is_Some_2 l (length l - 1)) as [z Hz]; [lia|].
  assert (end_ z < n + istart first) as Hzf.
  { apply Hwrap; [by destruct l|]. rewrite last_lookup. by replace (Init.Nat.pred (length l)) with (length l - 1)%nat by lia. }
  pose proof (lookup_lt_Some _ _ _ Ha). destruct (decide (i = length l - 1)%nat) as [->|]; [congruence|].
  pose proof (ordered i (length l - 1) a z Ha Hz ltac:(lia)).
  destruct (ok_lookup _ _ Hz) as [(? & ? & ?) ?]. unfold end_ in *. lia.
Qed.

Lemma first_exists : ∃ first, l !! 0%nat = Some first.
Proof. apply lookup_lt_is_Some_2. lia. Qed.

Lemma gap_bounds i a b : l !! i = Some a → l !! next i = Some b →
  1 ≤ gap i a b < n ∧ PositiveMod (istart b - stop a) n = Ok (gap i a b) ∧
  istart b ≠ stop a ∧ 0 ≤ stop a < n ∧ 0 ≤ istart b < n ∧ 0 < n < 2 ^ 62.
Proof.
  intros Ha Hb. destruct (next_lookup i a Ha) as (b' & Hb' & G). assert (b' = b) as -> by congruence.
  destruct first_exists as [f Hf]. pose proof (ends_before i a f Ha Hf) as Hend.
  pose proof (ok_lookup _ _ Ha) as [(? & ? & ?) ?]. pose proof (ok_lookup _ _ Hb) as [(? & ? & ?) ?].
  pose proof (ok_lookup _ _ Hf) as [(? & ? & ?) ?]. pose proof (lookup_lt_Some _ _ _ Ha).
  unfold next, gap, stop, end_ in *. destruct (decide (S i = length l)) as [D|D].
  - assert (f = b) as -> by congruence. assert (istart b ≤ istart a).
    { destruct i as [|i]; [assert (a = b) as -> by congruence; lia|].
      pose proof (ordered 0 (S i) b a Hf Ha ltac:(lia)). unfold end_ in *. lia. }
    case_decide; (split; [lia|]; split; [rewrite PositiveMod_near by lia; case_decide; f_equal; lia|lia]).
  - rewrite !decide_True by lia. split; [lia|]. split; [|lia]. rewrite PositiveMod_near by lia. case_decide; f_equal; lia.
Qed.

Lemma idx_next i b : (i < length l)%nat → l !! next i = Some b → idx l ((Z.of_nat i + 1) mod zlen l) = Ok b.
Proof.
  intros Hi Hb. assert ((Z.of_nat i + 1) mod zlen l = Z.of_nat (next i)) as ->.
  { unfold zlen, next. case_decide as D.
    - rewrite <-D, Nat2Z.inj_succ. apply Z.mod_same. lia.
    - rewrite Z.mod_small; lia. }
  apply idx_nat; [lia|by rewrite Nat2Z.id].
Qed.

Lemma gap_step_Ok i a b st : l !! i = Some a → l !! next i = Some b →
  gap_step l n st (Z.of_nat i) = Ok (if st.1 <? gap i a b then (gap i a b, Z.of_nat i) else st).
Proof.
  intros Ha Hb. pose proof (lookup_lt_Some _ _ _ Ha) as Hi. unfold gap_step.
  rewrite (idx_nat l (Z.of_nat i) a) by (rewrite ?Nat2Z.id; done || lia). simpl.
  rewrite (idx_next i b Hi Hb). simpl.
  rewrite Stop_spec by apply (ok_lookup i a Ha). simpl.
  destruct (gap_bounds i a b Ha Hb) as (_ & E & _). unfold Start. by rewrite E.
Qed.

(** The state of the search when the indices below [i] were visited. *)
Definition largest (i : Z) (st : Z * Z) : Prop :=
  (i = 0 ∧ st = (0, 0) ∨
   ∃ k a b, st = (gap k a b, Z.of_nat k) ∧ l !! k = Some a ∧ l !! next k = Some b) ∧
  ∀ j a b, Z.of_nat j < i → l !! j = Some a → l !! next j = Some b → gap j a b ≤ st.1.

Lemma gap_search : ∃ k a b, foldM (gap_step l n) (0, 0) (seqZ 0 (zlen l)) = Ok (gap k a b, Z.of_nat k) ∧
  l !! k = Some a ∧ l !! next k = Some b ∧
  ∀ j c d, l !! j = Some c → l !! next j = Some d → gap j c d ≤ gap k a b.
Proof.
  destruct (foldM_seqZ (gap_step l n) largest 0 (zlen l) (0, 0)) as (st & -> & [S|S] & M).
  - apply zlen_nonneg.
  - split; [by left|]. intros. lia.
  - intros i st Hi [S M]. unfold zlen in Hi.
    destruct (lookup_lt_is_Some_2 l (Z.to_nat i)) as [a Ha]; [lia|].
    destruct (next_lookup _ _ Ha) as (b & Hb & G).
    pose proof (gap_step_Ok _ a b st Ha Hb) as E. rewrite Z2Nat.id in E by lia.
    rewrite E. eexists. split; [done|]. destruct (Z.ltb_spec st.1 (gap (Z.to_nat i) a b)) as [L|L].
    + split; [right; exists (Z.to_nat i), a, b; by rewrite Z2Nat.id by lia|]. simpl. intros j c d Hj Hc Hd.
      destruct (decide (j = Z.to_nat i)) as [->|]; [|pose proof (M j c d ltac:(lia) Hc Hd); lia].
      assert (c = a) as -> by congruence. assert (d = b) as -> by congruence. lia.
    + split.
      * right. destruct S as [[-> ->]|S]; [simpl in L; lia|done].
      * intros j c d Hj Hc Hd. destruct (decide (j = Z.to_nat i)) as [->|]; [|by apply (M j c d ltac:(lia))].
        assert (c = a) as -> by congruence. assert (d = b) as -> by congruence. lia.
  - unfold zlen in S. lia.
  - destruct S as (k & a & b & -> & Ha & Hb). exists k, a, b. split_and!; [done..|].
    intros j c d Hc Hd. apply (M j c d); [|done..]. apply lookup_lt_Some in Hc. unfold zlen. lia.
Qed.

(** The complement of a gap covers every interval. *)
Lemma complement_covers k a b : l !! k = Some a → l !! next k = Some b →
  ∀ p, covered l p → has (mk n (istart b) (n - gap k a b)) p.
Proof.
  intros Ha Hb p (c & [j Hc]%list_elem_of_lookup & Hp).
  destruct first_exists as [f Hf]. pose proof (ends_before j c f Hc Hf) as Hend.
  pose proof (ends_before k a f Ha Hf) as Hend'. pose proof (gap_bounds k a b Ha Hb) as (G & _).
  pose proof (ok_lookup _ _ Ha) as [(? & ? & ?) ?]. pose proof (ok_lookup _ _ Hb) as [(? & ? & ?) ?].
  pose proof (ok_lookup _ _ Hc) as [(? & ? & ?) ?]. pose proof (ok_lookup _ _ Hf) as [(? & ? & ?) ?].
  pose proof (lookup_lt_Some _ _ _ Hc). pose proof (lookup_lt_Some _ _ _ Ha).
  assert (istart f ≤ istart a ∧ istart f ≤ istart c) as [].
  { split; [destruct k as [|k]|destruct j as [|j]]; try (by assert (f = a ∨ f = c) by (left + right; congruence));
      try (simplify_eq; lia).
    - pose proof (ordered 0 (S k) f a Hf Ha ltac:(lia)). unfold end_ in *. lia.
    - pose proof (ordered 0 (S j) f c Hf Hc ltac:(lia)). unfold end_ in *. lia. }
  assert (j = k ∧ c = a ∨ (j < k)%nat ∧ end_ c < istart a ∨ (k < j)%nat ∧ end_ a < istart c) as O.
  { destruct (Nat.lt_trichotomy j k) as [D|[->|D]].
    - right; left. split; [done|]. by apply (ordered j k).
    - left. split; congruence.
    - right; right. split; [done|]. by apply (ordered k j). }
  assert ((k < j)%nat → istart b ≤ istart c ∨ S k = length l) as O2.
  { intros D. unfold next in Hb. case_decide; [by right|left].
    destruct (decide (j = S k)) as [->|]; [assert (b = c) as -> by congruence; lia|].
    pose proof (ordered (S k) j b c Hb Hc ltac:(lia)). unfold end_ in *. lia. }
  unfold next, gap, has, end_ in *. simpl. destruct (decide (S k = length l)) as [D|D].
  - assert (b = f) as -> by congruence. destruct O as [[_ ->]|O]; lia.
  - destruct O as [[_ ->]|O]; lia.
Qed.

(** An interval that covers every interval leaves out at most the points of one gap. *)
Lemma start_below q first : l !! 0%nat = Some first → istart first ≤ q →
  ∃ i a, l !! i = Some a ∧ istart a ≤ q ∧ (∀ b, l !! S i = Some b → q < istart b).
Proof.
  intros Hf Hq. cut (∀ m, (m < length l)%nat → ∃ i a, l !! i = Some a ∧ istart a ≤ q ∧ (i ≤ m)%nat ∧
    ((i < m)%nat → ∀ b, l !! S i = Some b → q < istart b)).
  { intros G. destruct (G (length l - 1)%nat) as (i & a & Ha & Hle & Hi & Hn); [lia|].
    exists i, a. split_and!; [done..|]. intros b Hb. apply Hn; [|done]. apply lookup_lt_Some in Hb. lia. }
  induction m as [|m IH]; intros Hm.
  - exists 0%nat, first. split_and!; [done..|]. lia.
  - destruct IH as (i & a & Ha & Hle & Hi & Hn); [lia|].
    destruct (decide (i = m)) as [->|].
    + destruct (lookup_lt_is_Some_2 l (S m) Hm) as [b Hb]. destruct (decide (istart b ≤ q)).
      * exists (S m), b. split_and!; [done..|]. lia.
      * exists m, a. split_and!; [done|done|lia|]. intros _ b' Hb'. assert (b' = b) as -> by congruence. lia.
    + exists i, a. split_and!; [done|done|lia|]. intros _ b Hb. apply Hn; [lia|done].
Qed.

Lemma complement_smallest k a b d : l !! k = Some a → l !! next k = Some b →
  (∀ j c e, l !! j = Some c → l !! next j = Some e → gap j c e ≤ gap k a b) →
  ok d → (∀ p, covered l p → has d p) → n - gap k a b ≤ IntervalLen d.
Proof.
  intros Ha Hb M Hd C. pose proof Hd as [(? & ? & ?) ?]. pose proof (gap_bounds k a b Ha Hb) as (G & _).
  remember (gap k a b) as g eqn:Eg. clear Eg.
  destruct (decide (IntervalLen d = n)) as [|F]; [lia|].
  destruct first_exists as [f Hf]. pose proof (ok_lookup _ _ Hf) as [(? & ? & ?) ?].
  assert (∀ i c, l !! i = Some c → has d (istart c)) as Cs.
  { intros i c Hc. apply C. exists c. split; [by eapply list_elem_of_lookup_2|]. by apply has_start, (ok_lookup i). }
  assert (∀ i c, l !! i = Some c → ¬ has c (stop d)) as Ce.
  { intros i c Hc Hs. assert (has d (stop d)) as Hds; [|unfold has, stop in Hds; case_decide; lia].
    apply C. exists c. split; [by eapply list_elem_of_lookup_2|done]. }
  assert (0 ≤ stop d < n) as Hq by (unfold stop; case_decide; lia).
  pose proof (Cs _ _ Hf) as Hfd. destruct (decide (istart f ≤ stop d)) as [L|L].
  - destruct (start_below (stop d) f Hf L) as (i & c & Hc & Hle & Hnext).
    destruct (next_lookup i c Hc) as (e & He & _). pose proof (M i c e Hc He) as Mi.
    pose proof (Ce _ _ Hc) as Hce. pose proof (Cs _ _ He) as Hes. pose proof (ok_lookup _ _ Hc) as [(? & ? & ?) ?].
    assert (end_ c ≤ stop d) as Hend by (unfold has, end_ in *; lia).
    unfold next, gap in *. destruct (decide (S i = length l)) as [D|D].
    + assert (e = f) as -> by congruence. unfold has, stop, end_ in *. case_decide; lia.
    + specialize (Hnext e He). unfold has, stop, end_ in *. case_decide; lia.
  - destruct (lookup_lt_is_Some_2 l (length l - 1)) as [z Hz]; [lia|].
    assert (next (length l - 1) = 0%nat) as Nz by (unfold next; rewrite decide_True by lia; done).
    pose proof (M (length l - 1)%nat z f Hz ltac:(by rewrite Nz)) as Mz. unfold gap in Mz. rewrite decide_True in Mz by lia.
    pose proof (Ce _ _ Hz) as Hze. pose proof (ok_lookup _ _ Hz) as [(? & ? & ?) ?].
    unfold has, stop, end_ in *. case_decide; lia.
Qed.
End gaps.
End cover.

(** The result contains the given intervals, and an interval that does is not shorter. *)
Lemma SmallestCover_spec `{SortByStartLaws} n intervals : intervals ≠ [] → Forall (ok n) intervals →
  ∃ r, SmallestCoverInterval intervals = Ok r ∧ ok n r ∧
    (∀ p, covered intervals p → has r p) ∧
    (∀ d, ok n d → (∀ p, covered intervals p → has d p) → IntervalLen r ≤ IntervalLen d).
Proof.
  intros Hne Hok. unfold SmallestCoverInterval.
  assert (Forall (ok n) (sort_by_start intervals)) as Hok' by by rewrite sort_perm.
  destruct intervals as [|c0 cs] eqn:Ei; [done|]. rewrite <-Ei in *. clear Hne.
  assert (idx intervals 0 = Ok c0) as -> by by rewrite Ei.
  assert (circleSize c0 = n) as E0 by (rewrite Ei in Hok; by apply Forall_cons_1 in Hok as [[_ ?] _]).
  simpl. rewrite E0. destruct (sort_by_start intervals) as [|s0 ss] eqn:Es.
  { exfalso. pose proof (sort_perm intervals) as P. rewrite Es, Ei in P. by apply Permutation_nil_cons in P. }
  assert (circleSize s0 = n) as E1 by (by apply Forall_cons_1 in Hok' as [[_ ?] _]).
  change (idx (s0 :: ss) 0) with (Ok s0). simpl. rewrite E1, Z.eqb_refl.
  destruct (first_phase n (s0 :: ss)) as (la & be & E & B & C); [done|done|rewrite <-Es; apply sort_sorted|].
  simpl in E. rewrite E. simpl. destruct B as (Bok & Bsep & Bfull).
  destruct (merge_around_spec n (reverse be) la) as (l & -> & Cl & D).
  { apply Forall_cons_1 in Bok as [? ?]. constructor; [done|]. by rewrite Forall_reverse. }
  { done. }
  { destruct Bfull; [by left|right]. by rewrite Forall_reverse. }
  assert (∀ p, covered l p ↔ covered intervals p) as Cp.
  { intros p. rewrite Cl, covered_cons. unfold covered at 1. setoid_rewrite elem_of_reverse.
    change (∃ c, c ∈ be ∧ has c p) with (covered be p). rewrite <-covered_cons, C, <-Es. by apply covered_perm, sort_perm. }
  simpl. destruct D as [(w & -> & Hw)|[Hlen Har]].
  - simpl. exists w. split_and!; [done..| |].
    + intros p Hp%Cp. apply covered_cons in Hp as [|[]%covered_nil]. done.
    + intros d [Wd Ed] Hd. destruct Hw as [Ww Ew]. apply inclusion_len; [done..|congruence|].
      intros p Hp. apply Hd, Cp, covered_cons. by left.
  - rewrite (proj2 (Z.eqb_neq (zlen l) 1)) by (unfold zlen; lia).
    destruct (gap_search n l Har Hlen) as (k & a & b & -> & Ha & Hb & M). simpl.
    destruct (gap_bounds n l Har Hlen k a b Ha Hb) as (G & E2 & N & R1 & R2 & R3).
    destruct (Z.ltb_spec (gap n l k a b) 1); [lia|].
    rewrite (idx_next l Hlen k b (lookup_lt_Some _ _ _ Ha) Hb), (idx_nat l (Z.of_nat k) a) by (rewrite ?Nat2Z.id; done || lia).
    simpl. rewrite Stop_spec by apply (ok_lookup n l Har k a Ha). simpl. unfold Start.
    rewrite IvalWithStartStop_spec by done.
    assert ((if decide (istart b < stop a) then stop a - istart b else stop a - istart b + n) = n - gap n l k a b) as ->.
    { rewrite PositiveMod_near in E2 by lia. injection E2 as <-. repeat case_decide; lia. }
    exists (mk n (istart b) (n - gap n l k a b)). split; [done|]. split; [unfold ok, wf; simpl; lia|]. split.
    + intros p Hp%Cp. by apply (complement_covers n l Har Hlen k a b).
    + intros d Hd Hdc. apply (complement_smallest n l Har Hlen k a b d Ha Hb M Hd).
      intros p Hp. by apply Hdc, Cp.
Qed.
End IntervalCover.
