(* ===== verification/SmartVector.v ===== *)
(** * Smart vectors

    Model of src/prover/maths/common/smartvectors: vectors of field elements with a
    compact representation. [vec A] has the four representations of the code; a
    [SmartVector] is a [vec] of base elements or of extension elements (the types of
    the code whose name ends in Ext). The operations that read, cut, rotate and write
    vectors are here, the arithmetic is in SmartVectorOps. *)

From S2P Require Export Fext CircularInterval.
Import Utils Fext CircularInterval.

Module SmartVector.

(** ** Assertions *)

Definition assertCorrectBound (pos length : Z) : res unit := if length <=? pos then Panic else Ok ().
Definition assertHasLength (a b : Z) : res unit := if negb (a =? b) then Panic else Ok ().
Definition assertPowerOfTwoLen (l : Z) : res unit := if negb (IsPowerOfTwo l) then Panic else Ok ().
Definition assertStrictPositiveLen (l : Z) : res unit := if l =? 0 then Panic else if l <=? 0 then Panic else Ok ().

(** ** Representations *)

Inductive vec (A : Type) : Type :=
| Constant (Value : A) (Length : Z)
| Regular (v : list A)
| Rotated (v : list A) (offset : Z)
| PaddedCircularWindow (Window_ : list A) (PaddingVal_ : A) (TotLen_ Offset_ : Z).
Arguments Constant {A} _ _.
Arguments Regular {A} _.
Arguments Rotated {A} _ _.
Arguments PaddedCircularWindow {A} _ _ _ _.

#[global] Instance vec_eq_dec `{EqDecision A} : EqDecision (vec A).
Proof. solve_decision. Defined.

Section vec.
Context {A : Type}.
Implicit Types (l v w : list A) (a pad : A).

Definition NewConstant (val : A) (length : Z) : res (vec A) :=
  if length <=? 0 then Panic else Ok (Constant val length).

Definition NewRegular (v : list A) : res (vec A) :=
  _ ← assertStrictPositiveLen (zlen v); Ok (Regular v).

Definition NewRotated (reg : list A) (offset : Z) : res (vec A) :=
  if zlen reg =? 0 then Panic
  else if (offset <? 0) && (zlen reg <? - offset) then Panic
  else if zlen reg <? offset then Panic
  else Ok (Rotated reg offset).

Definition NewPaddedCircularWindow (window : list A) (paddingVal : A) (offset totLen : Z) : res (vec A) :=
  if totLen <? zlen window then Panic
  else if zlen window =? totLen then Panic
  else if zlen window =? 0 then Panic
  else offset ← PositiveMod offset totLen;
       Ok (PaddedCircularWindow window paddingVal totLen offset).

Definition Len (x : vec A) : Z :=
  match x with
  | Constant _ n => n
  | Regular v => zlen v
  | Rotated v _ => zlen v
  | PaddedCircularWindow _ _ n _ => n
  end.

(** [GetBase] of the base types and [GetExt] of the extension types. *)
Definition Get (x : vec A) (n : Z) : res A :=
  match x with
  | Constant a _ => Ok a
  | Regular v => idx v n
  | Rotated v o => pos ← PositiveMod (int64 (n + o)) (zlen v); idx v pos
  | PaddedCircularWindow w a tot o =>
      pos ← PositiveMod (n - o) tot;
      if pos <? zlen w then idx w pos else Ok a
  end.

(** [GetPtr] returns a pointer; the model returns the element it points to. *)
Definition GetPtr (x : vec A) (n : Z) : res A :=
  match x with
  | PaddedCircularWindow w a tot o =>
      let n := n - o in
      let n := if n <? 0 then n + tot else n in
      if n <? zlen w then idx w n else Ok a
  | _ => Get x n
  end.

Definition interval (x : vec A) : res CircularInterval.t :=
  match x with
  | PaddedCircularWindow w _ tot o => IvalWithStartLen o (zlen w) tot
  | _ => Panic
  end.

Definition normalize (x newRef md : Z) : res Z := PositiveMod (x - newRef) md.

(** [copySubVector]: the destination has [dstLen] elements and is overwritten. *)
Definition copySubVector (src : list A) (offset start stop dstLen : Z) : res (list A) :=
  let size := zlen src in
  let spanSize := stop - start in
  if (start <? 0) || (size <? stop) || (stop <=? start) || negb (dstLen =? spanSize) then Panic else
  s ← PositiveMod (int64 (start + offset)) size;
  if s + spanSize <=? size then slice src s (s + spanSize)
  else
    let n1 := size - s in
    part1 ← slice src s size;
    part2 ← slice src 0 (spanSize - n1);
    Ok (part1 ++ part2).

(** The case analysis of [PaddedCircularWindow.SubVector]; [b], [c] and [d] are the
    coordinates relative to the start of the subvector. *)
Definition window_cases (w : list A) (pad : A) (n b c d : Z) : res (vec A) :=
  if (b <=? c) && (c <? d) then NewConstant pad b
  else if (b <=? d) && (d <? c) then r ← slice w (n - c) (n - c + b); Ok (Regular r)
  else if (b <=? d) && (c =? 0) then r ← slice w 0 b; Ok (Regular r)
  else if (c <? d) && (d <=? b) then NewPaddedCircularWindow w pad c b
  else if (c <? b) && (c <=? d) then r ← slice w 0 (b - c); NewPaddedCircularWindow r pad c b
  else if (d <? c) && (c <? b) then
    left ← slice w 0 (b - c); right ← slice w (n - c) (zlen w);
    NewPaddedCircularWindow (left ++ right) pad c b
  else if (0 <? d) && (d <? b) && (b <=? c) then r ← slice w (n - c) (zlen w); NewPaddedCircularWindow r pad 0 b
  else if (d =? 0) && (b <=? c) then NewConstant pad b
  else Panic.

Definition window_SubVector (w : list A) (pad : A) (tot o start stop : Z) : res (vec A) :=
  if start <? 0 then Panic else
  _ ← assertCorrectBound start tot;
  _ ← assertCorrectBound stop (tot + 1);
  if stop <? start then Panic else
  if start =? stop then Panic else
  ival ← IvalWithStartLen o (zlen w) tot;
  e ← Stop ival;
  c ← normalize (Start ival) start tot;
  d ← normalize e start tot;
  window_cases w pad tot (stop - start) c d.

Definition SubVector (x : vec A) (start stop : Z) : res (vec A) :=
  match x with
  | Constant a n =>
      if stop <? start then Panic else
      if start =? stop then Panic else
      _ ← assertCorrectBound start n;
      _ ← assertCorrectBound stop (n + 1);
      NewConstant a (stop - start)
  | Regular v =>
      if stop <? start then Panic else
      if start =? stop then Panic else
      r ← slice v start stop; Ok (Regular r)
  | Rotated v o =>
      if stop <? start then Panic else
      r ← copySubVector v o start stop (stop - start); Ok (Regular r)
  | PaddedCircularWindow w pad tot o => window_SubVector w pad tot o start stop
  end.

(** [RotateRight]. A rotated vector has its offset increased, a regular one gets the
    opposite offset. *)
Definition RotateRight (x : vec A) (offset : Z) : res (vec A) :=
  match x with
  | Constant a n => NewConstant a n
  | Regular v => NewRotated v (int64 (- offset))
  | Rotated v o =>
      if 2 ^ 40 <? offset then Panic else
      r ← NewRotated v o;
      match r with Rotated v o => Ok (Rotated v (int64 (o + offset))) | _ => Panic end
  | PaddedCircularWindow w pad tot o => NewPaddedCircularWindow w pad (int64 (o + offset)) tot
  end.

(** [SoftRotate] and [SoftRotateExt]. *)
Definition SoftRotate (x : vec A) (offset : Z) : res (vec A) :=
  match x with
  | Regular v => NewRotated v offset
  | Rotated v o => o' ← PositiveMod (int64 (offset + o)) (Len x); NewRotated v o'
  | PaddedCircularWindow w pad tot o =>
      o' ← PositiveMod (int64 (o + offset)) tot; NewPaddedCircularWindow w pad o' tot
  | Constant _ _ => Ok x
  end.

Definition DeepCopy (x : vec A) : res (vec A) :=
  match x with
  | Constant a n => NewConstant a n
  | Regular v => NewRegular v
  | Rotated v o => NewRotated v o
  | PaddedCircularWindow w pad tot o => NewPaddedCircularWindow w pad o tot
  end.

(** The two loops of [PaddedCircularWindow.WriteInSlice]. *)
Definition window_write (w : list A) (pad : A) (tot o : Z) (buff : list A) : res (list A) :=
  buff ← foldM (λ buff i, pos ← PositiveMod (int64 (i + o)) tot; a ← idx w i; store buff pos a)
           buff (seqZ 0 (zlen w));
  foldM (λ buff i, pos ← PositiveMod (int64 (i + o)) tot; store buff pos pad)
    buff (seqZ (zlen w) (tot - zlen w)).

(** [WriteInSlice] of the base types; the contents of the slice is the result. *)
Definition WriteInSlice (x : vec A) (s : list A) : res (list A) :=
  match x with
  | Constant a n => _ ← assertHasLength (zlen s) n; Ok (replicate (length s) a)
  | Regular v => _ ← assertHasLength (zlen s) (zlen v); Ok v
  | Rotated v o => copySubVector v o 0 (zlen v) (zlen s)
  | PaddedCircularWindow w pad tot o => _ ← assertHasLength (zlen s) tot; window_write w pad tot o s
  end.

(** [WriteInSliceExt] of the extension types. A constant does not compare lengths. *)
Definition WriteInSliceSame (x : vec A) (s : list A) : res (list A) :=
  match x with
  | Constant a n => Ok (replicate (length s) a)
  | _ => WriteInSlice x s
  end.

Definition rotatedAsRegular (v : list A) (o : Z) : res (list A) :=
  r ← SubVector (Rotated v o) 0 (zlen v);
  match r with Regular l => Ok l | _ => Panic end.

(** ** Padding *)

Definition LeftPadded (v : list A) (padding : A) (targetLen : Z) : res (vec A) :=
  if targetLen <? zlen v then Panic
  else if zlen v =? targetLen then NewRegular v
  else if zlen v =? 0 then NewConstant padding targetLen
  else NewPaddedCircularWindow v padding (targetLen - zlen v) targetLen.

Definition RightPadded (v : list A) (padding : A) (targetLen : Z) : res (vec A) :=
  if targetLen <? zlen v then Panic
  else if zlen v =? targetLen then NewRegular v
  else if zlen v =? 0 then NewConstant padding targetLen
  else NewPaddedCircularWindow v padding 0 targetLen.

Definition Density (x : vec A) : Z :=
  match x with
  | Constant _ _ => 0
  | PaddedCircularWindow w _ _ _ => zlen w
  | Regular v => zlen v
  | Rotated v _ => zlen v
  end.

Definition PaddingOrientationOf (x : vec A) : Z * gerr :=
  match x with
  | PaddedCircularWindow w _ tot o =>
      if o =? 0 then (1, None) else if o + zlen w =? tot then (-1, None) else (0, None)
  | _ => (0, Some "vector is not a padded-circular window"%string)
  end.

Definition PaddingVal (zero : A) (x : vec A) : A * bool :=
  match x with
  | Constant a _ => (a, true)
  | PaddedCircularWindow _ pad _ _ => (pad, true)
  | _ => (zero, false)
  end.

Definition WindowBase (x : vec A) : res (list A) :=
  match x with
  | Constant _ _ => Ok []
  | PaddedCircularWindow w _ _ _ => Ok w
  | Regular v => Ok v
  | Rotated v o => rotatedAsRegular v o
  end.

(** [IterateSkipPadding]; an iterator is the list it yields. *)
Definition IterateSkipPadding (x : vec A) : res (list A) :=
  match x with
  | Constant _ _ => Ok []
  | PaddedCircularWindow w _ _ _ => Ok w
  | Regular v => Ok v
  | Rotated v o => rotatedAsRegular v o
  end.
End vec.
Arguments vec A : clear implicits.

(** ** Reduction of the representation *)

Section reduce.
Context {A : Type} `{EqDecision A}.

Definition neqb (a b : A) : bool := negb (bool_decide (a = b)).

(** [tryIntoConstant] and [tryIntoConstantExt]: three probes and a full scan. *)
Definition tryIntoConstant (w : list A) : res (option (vec A)) :=
  if zlen w <=? 1 then Ok None else
  w0 ← idx w 0; w1 ← idx w 1;
  if neqb w0 w1 then Ok None else
  wl ← idx w (zlen w - 1);
  if neqb w0 wl then Ok None else
  wm ← idx w (Z.quot (zlen w) 2);
  if neqb w0 wm then Ok None else
  if forallb (λ x, negb (neqb x w0)) w
  then r ← NewConstant w0 (zlen w); Ok (Some r) else Ok None.

(** The scan for the first position of the constant suffix: [i] goes down from
    [len - 2] and stops at the first element that is not [last]. *)
Fixpoint right_scan (fuel : nat) (v : list A) (last : A) (i best : Z) : res Z :=
  match fuel with
  | O => Ok best
  | S f =>
      if i <? 0 then Ok best else
      vi ← idx v i;
      if neqb vi last then Ok (i + 1) else right_scan f v last (i - 1) best
  end.

Definition tryIntoRightPadded (v : list A) : res (option (vec A)) :=
  last ← idx v (zlen v - 1);
  bestPos ← right_scan (length v) v last (zlen v - 2) (zlen v - 1);
  if zlen v - bestPos <? 1000 then Ok None else
  prefix ← slice v 0 bestPos;
  r ← RightPadded prefix last (zlen v);
  match r with PaddedCircularWindow _ _ _ _ => Ok (Some r) | _ => Panic end.

Fixpoint left_scan (fuel : nat) (v : list A) (first : A) (i best : Z) : res Z :=
  match fuel with
  | O => Ok best
  | S f =>
      if zlen v <=? i then Ok best else
      vi ← idx v i;
      if neqb vi first then Ok best else left_scan f v first (i + 1) i
  end.

Definition tryIntoLeftPadded (v : list A) : res (option (vec A)) :=
  first ← idx v 0;
  bestPos ← left_scan (length v) v first 1 0;
  if bestPos =? 0 then Ok None else
  if bestPos =? zlen v - 1 then Panic else
  suffix ← slice v (bestPos + 1) (zlen v);
  r ← LeftPadded suffix first (zlen v);
  match r with PaddedCircularWindow _ _ _ _ => Ok (Some r) | _ => Panic end.

Definition window_len (x : vec A) : Z := match x with PaddedCircularWindow w _ _ _ => zlen w | _ => 0 end.

Definition TryReduceSizeRight (x : vec A) : res (vec A * Z) :=
  match x with
  | Regular w =>
      c ← tryIntoConstant w;
      match c with
      | Some r => Ok (r, zlen w)
      | None =>
          p ← tryIntoRightPadded w;
          match p with Some r => Ok (r, zlen w - window_len r) | None => Ok (x, 0) end
      end
  | _ => Ok (x, 0)
  end.

Definition TryReduceSizeLeft (x : vec A) : res (vec A * Z) :=
  match x with
  | Regular w =>
      c ← tryIntoConstant w;
      match c with
      | Some r => Ok (r, zlen w)
      | None =>
          p ← tryIntoLeftPadded w;
          match p with Some r => Ok (r, zlen w - window_len r) | None => Ok (x, 0) end
      end
  | _ => Ok (x, 0)
  end.

(** ** Compact forms *)

(** [IterateCompact] of the base types. *)
Definition IterateCompact (zero : A) (x : vec A) : res (list A) :=
  match x with
  | Constant a _ => Ok [a]
  | Regular v => Ok v
  | Rotated v o => rotatedAsRegular v o
  | PaddedCircularWindow w pad tot o =>
      if (0 <? o) && negb (o + zlen w =? tot)
      then WriteInSlice x (replicate (Z.to_nat tot) zero)
      else Ok ((if 0 <? o then [pad] else []) ++ w ++ (if o + zlen w <? tot then [pad] else []))
  end.

Definition FromCompactWithShape (x : vec A) (compact : list A) : res (vec A) :=
  match x with
  | Constant _ n => c0 ← idx compact 0; NewConstant c0 n
  | PaddedCircularWindow w _ tot o =>
      if o =? 0 then
        if negb (zlen w =? zlen compact - 1) then Panic else
        last ← idx compact (zlen compact - 1);
        window ← slice compact 0 (zlen compact - 1);
        RightPadded window last tot
      else if o + zlen w =? tot then
        if negb (zlen w =? zlen compact - 1) then Panic else
        first ← idx compact 0;
        window ← slice compact 1 (zlen compact);
        LeftPadded window first tot
      else Panic
  | Regular v => if negb (zlen v =? zlen compact) then Panic else NewRegular compact
  | Rotated _ _ => Panic
  end.

(** [CoWindowRange]: the loop with its early returns; [None] is a nil vector. The code
    never sets [foundAny] before the [continue] of the first window. *)
Fixpoint co_window_loop (l : list (option (vec A))) (foundAny : bool) (start stop : Z) : Z * Z :=
  match l with
  | [] => (start, stop)
  | None :: l' => co_window_loop l' foundAny start stop
  | Some (Constant _ _) :: l' => co_window_loop l' foundAny start stop
  | Some (PaddedCircularWindow w _ tot o) :: l' =>
      if tot <? o + zlen w then (0, tot)
      else if negb foundAny then co_window_loop l' foundAny o (o + zlen w)
      else co_window_loop l' true (Z.min start o) (Z.max stop (o + zlen w))
  | Some x :: _ => (0, Len x)
  end.

Definition CoWindowRange (l : list (option (vec A))) : Z * Z := co_window_loop l false 0 0.

Definition CoCompactRange (l : list (option (vec A))) : res (Z * Z) :=
  let '(start, stop) := CoWindowRange l in
  let start := if 0 <? start then start - 1 else start in
  first ← idx l 0;
  match first with
  | None => Panic
  | Some x => Ok (start, if stop <? Len x then stop + 1 else stop)
  end.

Definition FromCompactWithRange (compact : list A) (start stop fullLen : Z) : res (vec A) :=
  if zlen compact + 2 <? stop - start then Panic
  else if fullLen <? stop - start then Panic
  else if stop - start =? 1 then c0 ← idx compact 0; NewConstant c0 fullLen
  else if (start =? 0) && (stop =? fullLen) then NewRegular compact
  else if start =? 0 then
    window ← slice compact 0 (zlen compact - 1);
    last ← idx compact (zlen compact - 1);
    RightPadded window last fullLen
  else if stop =? fullLen then
    window ← slice compact 1 (zlen compact);
    first ← idx compact 0;
    LeftPadded window first fullLen
  else
    first ← idx compact 0;
    last ← idx compact (zlen compact - 1);
    if neqb first last then Panic else
    window ← slice compact 1 (zlen compact - 1);
    NewPaddedCircularWindow window first (start + 1) fullLen.
End reduce.

(** ** The types of extension elements

    The functions on [ConstantExt], [RegularExt], [RotatedExt] and
    [PaddedCircularWindowExt] repeat those of the base types. *)

Section ext.
Context {F : Type}.

Definition NewConstantExt : E4 F → Z → res (vec (E4 F)) := NewConstant.
Definition NewRegularExt : list (E4 F) → res (vec (E4 F)) := NewRegular.
Definition NewRotatedExt : list (E4 F) → Z → res (vec (E4 F)) := NewRotated.
Definition NewPaddedCircularWindowExt : list (E4 F) → E4 F → Z → Z → res (vec (E4 F)) := NewPaddedCircularWindow.
Definition window_SubVectorExt : list (E4 F) → E4 F → Z → Z → Z → Z → res (vec (E4 F)) := window_SubVector.
Definition window_writeExt : list (E4 F) → E4 F → Z → Z → list (E4 F) → res (list (E4 F)) := window_write.
Definition rotatedAsRegularExt : list (E4 F) → Z → res (list (E4 F)) := rotatedAsRegular.
Definition SoftRotateExt : vec (E4 F) → Z → res (vec (E4 F)) := SoftRotate.
Definition LeftPaddedExt : list (E4 F) → E4 F → Z → res (vec (E4 F)) := LeftPadded.
Definition RightPaddedExt : list (E4 F) → E4 F → Z → res (vec (E4 F)) := RightPadded.
End ext.

(** ** Base and extension vectors *)

Section mixed.
Context `{ElementOps F, !ExtOps F}.

Inductive t : Type :=
| OfBase (x : vec F)
| OfExt (x : vec (E4 F)).

Definition errConversion : gerr :=
  Some "smartvector holds field extensions, but a base element was requested"%string.

Definition sv_Len (s : t) : Z := match s with OfBase x => Len x | OfExt x => Len x end.

Definition GetBase (s : t) (n : Z) : res (F * gerr) :=
  match s with
  | OfBase x => a ← Get x n; Ok (a, None)
  | OfExt _ => Ok (el_zero, errConversion)
  end.

(** [Get] panics on the error. *)
Definition sv_Get (s : t) (n : Z) : res F :=
  r ← GetBase s n; match r.2 with None => Ok r.1 | Some _ => Panic end.

Definition GetExt (s : t) (n : Z) : res (E4 F) :=
  match s with
  | OfBase x => a ← Get x n; Ok (Lift a)
  | OfExt x => Get x n
  end.

Definition IsBase (s : t) : res bool :=
  r ← GetBase s 0; Ok (match r.2 with None => true | Some _ => false end).

Fixpoint AreAllBase (inp : list t) : res bool :=
  match inp with
  | [] => Ok true
  | v :: inp' => b ← IsBase v; if negb b then Ok false else AreAllBase inp'
  end.

Definition sv_SubVector (s : t) (start stop : Z) : res t :=
  match s with
  | OfBase x => r ← SubVector x start stop; Ok (OfBase r)
  | OfExt x => r ← SubVector x start stop; Ok (OfExt r)
  end.

(** [RotateRight]; a rotated extension vector is not checked against its length. *)
Definition sv_RotateRight (s : t) (offset : Z) : res t :=
  match s with
  | OfBase x => r ← RotateRight x offset; Ok (OfBase r)
  | OfExt (Rotated v o) =>
      if 2 ^ 40 <? offset then Panic else Ok (OfExt (Rotated v (int64 (o + offset))))
  | OfExt x => r ← RotateRight x offset; Ok (OfExt r)
  end.

(** [WriteInSlice]: a regular extension vector writes the zero that comes with the
    conversion error, the other extension vectors panic. *)
Definition sv_WriteInSlice (s : t) (dst : list F) : res (list F) :=
  match s with
  | OfBase x => WriteInSlice x dst
  | OfExt (Regular v) => _ ← assertHasLength (zlen dst) (zlen v); Ok (replicate (length dst) el_zero)
  | OfExt _ => Panic
  end.

(** [WriteInSliceExt]. *)
Definition sv_WriteInSliceExt (s : t) (dst : list (E4 F)) : res (list (E4 F)) :=
  match s with
  | OfExt x => WriteInSliceSame x dst
  | OfBase (Constant a _) => Ok (replicate (length dst) (Lift a))
  | OfBase (Regular v) => _ ← assertHasLength (zlen dst) (zlen v); Ok (Lift <$> v)
  | OfBase (Rotated v o) =>
      temp ← rotatedAsRegular v o;
      foldM (λ dst i, a ← idx temp i; store dst i (Lift a)) dst (seqZ 0 (zlen temp))
  | OfBase (PaddedCircularWindow w pad tot o as x) =>
      temp ← WriteInSlice x (replicate (length dst) el_zero);
      Ok (Lift <$> (temp : list F))
  end.

(** [Rotated.WriteSubVectorInSliceExt]: a fast path and a copy in two parts. *)
Definition WriteSubVectorInSliceExt (v : list F) (offset start stop : Z) (dstLen : Z) : res (list (E4 F)) :=
  if (start <? 0) || (zlen v <? stop) || (stop <=? start) || negb (dstLen =? stop - start) then Panic
  else if (int64 (stop + offset) <? zlen v) && (0 <=? int64 (start + offset)) then
    mapR (λ i, a ← idx v (int64 (int64 (start + offset) + i)); Ok (Lift a)) (seqZ 0 (stop - start))
  else
    s ← PositiveMod (int64 (start + offset)) (zlen v);
    let n1 := Z.min (zlen v - s) (stop - start) in
    part1 ← mapR (λ i, a ← idx v (s + i); Ok (Lift a)) (seqZ 0 n1);
    part2 ← mapR (λ i, a ← idx v i; Ok (Lift a)) (seqZ 0 (stop - start - n1));
    Ok (part1 ++ part2).

Definition IntoRegVec (s : t) : res (list F) :=
  b ← IsBase s;
  if (b : bool) then sv_WriteInSlice s (replicate (Z.to_nat (sv_Len s)) el_zero)
  else
    ext ← sv_WriteInSliceExt s (replicate (Z.to_nat (sv_Len s)) Zero);
    mapR (λ e, if Fext.IsBase e then Ok (B0A0 e) else Panic) ext.

Definition IntoRegVecExt (s : t) : res (list (E4 F)) :=
  sv_WriteInSliceExt s (replicate (Z.to_nat (sv_Len s)) Zero).

Definition IntoRegVecSaveAllocBase (s : t) : res (list F * gerr) :=
  match s with
  | OfBase (Regular v) => Ok (v, None)
  | OfBase (Rotated v o) => r ← rotatedAsRegular v o; Ok (r, None)
  | OfBase _ => r ← IntoRegVec s; Ok (r, None)
  | OfExt _ => Ok ([], errConversion)
  end.

(** [IntoRegVecSaveAllocExt]. The rotated extension vector fills its temporary and
    returns the other slice. *)
Definition IntoRegVecSaveAllocExt (s : t) : res (list (E4 F)) :=
  match s with
  | OfBase (Regular v) => Ok (Lift <$> v)
  | OfBase (Rotated v o) => temp ← rotatedAsRegular v o; Ok (Lift <$> (temp : list F))
  | OfBase _ => temp ← IntoRegVec s; Ok (Lift <$> (temp : list F))
  | OfExt (Regular v) => Ok v
  | OfExt (Rotated v o as x) =>
      temp ← rotatedAsRegular v o;
      _ ← foldM (λ temp i, e ← Get x i; store temp i e) temp (seqZ 0 (zlen temp));
      Ok (replicate (length temp) Zero)
  | OfExt _ => IntoRegVecExt s
  end.

(** [IntoBase] *)
Fixpoint into_base_loop (fuel : nat) (s : t) (i : Z) (acc : list F) : res (list F * gerr) :=
  match fuel with
  | O => Ok (acc, None)
  | S f => r ← GetBase s i;
           match r.2 with
           | Some _ => Ok ([], Some "could not get base element at index"%string)
           | None => into_base_loop f s (i + 1) (acc ++ [r.1])
           end
  end.

Definition IntoBase (s : t) : res (option t * gerr) :=
  r ← into_base_loop (Z.to_nat (sv_Len s)) s 0 [];
  match r.2 with
  | Some e => Ok (None, Some e)
  | None => v ← NewRegular r.1; Ok (Some (OfBase v), None)
  end.

Definition ToConstantSmartvector (e : GenericFieldElem.t F) (length : Z) : res t :=
  if GenericFieldElem.IsBase e
  then r ← NewConstant (GenericFieldElem.GetBaseElem e).1 length; Ok (OfBase r)
  else r ← NewConstant (GenericFieldElem.GetExt e).1 length; Ok (OfExt r).

Definition GetGenericElemOfSmartvector (s : t) (index : Z) : res (GenericFieldElem.t F) :=
  b ← IsBase s;
  if (b : bool) then r ← GetBase s index; Ok (GenericFieldElem.NewGenFieldFromBase r.1)
  else e ← GetExt s index; Ok (GenericFieldElem.NewGenFieldFromExt e).

Definition areAllConstants (inp : list t) : bool :=
  forallb (λ s, match s with OfBase (Constant _ _) | OfExt (Constant _ _) => true | _ => false end) inp.
End mixed.
Arguments t F : clear implicits.
End SmartVector.
