(* ===== verification/SmartVectorFacts.v ===== *)
(** * Facts on smart vectors

    [elem_at] is the reference meaning of a representation: the element at a position.
    Reading, cutting, rotating, writing and reducing vectors are proved against it. *)

From S2P Require Export SmartVector.
Import Utils Fext CircularInterval SmartVector.

Module SmartVectorFacts.

Lemma mod_near x n : 0 < n → - n < x < n → x mod n = if decide (x < 0) then x + n else x.
Proof.
  intros Hn Hx. case_decide.
  - symmetry. apply (Z.mod_unique_pos x n (-1)); lia.
  - apply Z.mod_small. lia.
Qed.

Section vec.
Context {A : Type}.
Implicit Types (l v w : list A) (a pad : A) (x y : vec A).

Definition elem_at x (i : Z) : option A :=
  match x with
  | Constant a _ => Some a
  | Regular v => v !! Z.to_nat i
  | Rotated v o => v !! Z.to_nat ((i + o) mod zlen v)
  | PaddedCircularWindow w pad tot o => Some (default pad (w !! Z.to_nat ((i - o) mod tot)))
  end.

(** The elements of a vector, in order. *)
Definition elems x : list A := omap (elem_at x) (seqZ 0 (Len x)).

Definition wf x : Prop :=
  0 < Len x < 2 ^ 61 ∧
  match x with
  | Rotated _ o => - 2 ^ 62 ≤ o ≤ 2 ^ 62
  | PaddedCircularWindow w _ tot o => 0 < zlen w < tot ∧ 0 ≤ o < tot
  | _ => True
  end.

Lemma elem_at_Some x i : wf x → 0 ≤ i < Len x → is_Some (elem_at x i).
Proof.
  intros [Hl W] Hi. destruct x as [| |v o|w pad tot o]; simpl in *; try done.
  - apply lookup_lt_is_Some_2. unfold zlen in *. lia.
  - apply lookup_lt_is_Some_2. pose proof (Z.mod_pos_bound (i + o) (zlen v) ltac:(lia)). unfold zlen in *. lia.
Qed.

Lemma omap_seqZ (f : Z → option A) (a n : Z) k :
  (∀ i, a ≤ i < a + n → is_Some (f i)) → (k < Z.to_nat n)%nat →
  omap f (seqZ a n) !! k = f (a + Z.of_nat k).
Proof.
  revert a n. induction k as [|k IH]; intros a n Hf Hk; (rewrite seqZ_cons by lia); simpl.
  - destruct (Hf a ltac:(lia)) as [x Ex]. rewrite Ex. simpl. by rewrite Z.add_0_r.
  - destruct (Hf a ltac:(lia)) as [x Ex]. rewrite Ex. simpl. rewrite IH; [f_equal; lia| |lia].
    intros i Hi. apply Hf. lia.
Qed.

Lemma length_omap_seqZ (f : Z → option A) (a n : Z) :
  (∀ i, a ≤ i < a + n → is_Some (f i)) → length (omap f (seqZ a n)) = Z.to_nat n.
Proof.
  intros Hf. remember (Z.to_nat n) as m eqn:Em. revert a n Em Hf. induction m as [|m IH]; intros a n Em Hf.
  - by rewrite seqZ_nil by lia.
  - rewrite seqZ_cons by lia. simpl. destruct (Hf a ltac:(lia)) as [x Ex]. rewrite Ex. simpl. f_equal.
    apply IH; [lia|]. intros i Hi. apply Hf. lia.
Qed.

Lemma elems_lookup x i : wf x → 0 ≤ i < Len x → elems x !! Z.to_nat i = elem_at x i.
Proof.
  intros W Hi. unfold elems. rewrite omap_seqZ; [f_equal; lia| |lia].
  intros j Hj. apply elem_at_Some; [done|lia].
Qed.

Lemma length_elems x : wf x → length (elems x) = Z.to_nat (Len x).
Proof. intros W. apply length_omap_seqZ. intros j Hj. apply elem_at_Some; [done|lia]. Qed.

Lemma zlen_elems x : wf x → zlen (elems x) = Len x.
Proof. intros W. unfold zlen. rewrite length_elems by done. destruct W as [? _]. lia. Qed.

Lemma elems_ext x l : wf x → zlen l = Len x →
  (∀ i, 0 ≤ i < Len x → l !! Z.to_nat i = elem_at x i) → l = elems x.
Proof.
  intros W L E. assert (length l = length (elems x)) as L' by (rewrite length_elems by done; unfold zlen in L; lia).
  apply list_eq. intros i. destruct (decide (i < length l)%nat) as [D|D].
  - unfold zlen in L. specialize (E (Z.of_nat i) ltac:(lia)). rewrite Nat2Z.id in E. rewrite E.
    rewrite <-elems_lookup by (done || lia). by rewrite Nat2Z.id.
  - rewrite !lookup_ge_None_2 by lia. done.
Qed.

(** ** Reading *)

Lemma Get_spec x i : wf x → 0 ≤ i < Len x → ∃ a, Get x i = Ok a ∧ elem_at x i = Some a.
Proof.
  intros W Hi. destruct (elem_at_Some x i W Hi) as [a Ha]. exists a. split; [|done].
  destruct W as [Hl W]. destruct x as [| |v o|w pad tot o]; simpl in *.
  - by injection Ha as ->.
  - apply idx_nat; [lia|done].
  - rewrite int64_id by (unfold in_int64; lia). rewrite PositiveMod_spec by lia. simpl.
    apply idx_nat; [|done]. apply Z.mod_pos_bound. lia.
  - rewrite PositiveMod_spec by lia. simpl. injection Ha as <-.
    pose proof (Z.mod_pos_bound (i - o) tot ltac:(lia)) as B. destruct (Z.ltb_spec ((i - o) mod tot) (zlen w)) as [L|L].
    + destruct (lookup_lt_is_Some_2 w (Z.to_nat ((i - o) mod tot))) as [b Hb]; [unfold zlen in L; lia|].
      rewrite Hb. apply idx_nat; [lia|done].
    + rewrite lookup_ge_None_2 by (unfold zlen in L; lia). done.
Qed.

Lemma GetPtr_spec x i : wf x → 0 ≤ i < Len x → GetPtr x i = Get x i.
Proof.
  intros [Hl W] Hi. destruct x as [| | |w pad tot o]; simpl in *; try done.
  rewrite PositiveMod_near by lia. simpl. destruct (Z.ltb_spec (i - o) 0); by rewrite ?decide_True, ?decide_False by lia.
Qed.

(** ** Cutting *)

Lemma lookup_slice l (a b : Z) r i : slice l a b = Ok r → 0 ≤ i < b - a → r !! Z.to_nat i = l !! Z.to_nat (a + i).
Proof.
  unfold slice. case_decide as D; [|done]. intros [= <-] Hi. rewrite lookup_take_lt by lia.
  rewrite lookup_drop. f_equal. lia.
Qed.

Lemma zlen_slice l (a b : Z) r : slice l a b = Ok r → zlen r = b - a.
Proof.
  unfold slice. case_decide as D; [|done]. intros [= <-]. unfold zlen in *. rewrite length_take, length_drop. lia.
Qed.

Lemma slice_exists l (a b : Z) : 0 ≤ a ≤ b → b ≤ zlen l → ∃ r, slice l a b = Ok r.
Proof. intros. eexists. by apply slice_Ok. Qed.

Lemma copySubVector_spec v o start stop :
  0 < zlen v < 2 ^ 61 → - 2 ^ 62 ≤ o ≤ 2 ^ 62 → 0 ≤ start < stop → stop ≤ zlen v →
  ∃ r, copySubVector v o start stop (stop - start) = Ok r ∧ zlen r = stop - start ∧
    ∀ i, 0 ≤ i < stop - start → r !! Z.to_nat i = v !! Z.to_nat ((start + i + o) mod zlen v).
Proof.
  intros Hl Ho Hs He. unfold copySubVector. rewrite Z.eqb_refl.
  destruct (Z.ltb_spec start 0), (Z.ltb_spec (zlen v) stop), (Z.leb_spec stop start); try lia. simpl.
  rewrite int64_id by (unfold in_int64; lia). rewrite PositiveMod_spec by lia. simpl.
  pose proof (Z.mod_pos_bound (start + o) (zlen v) ltac:(lia)) as B.
  set (s := (start + o) mod zlen v) in *.
  assert (∀ i, 0 ≤ i < zlen v → (start + i + o) mod zlen v = if decide (s + i < zlen v) then s + i else s + i - zlen v) as M.
  { intros i Hi. replace (start + i + o) with (start + o + i) by lia.
    rewrite <-Z.add_mod_idemp_l by lia. fold s. case_decide.
    - apply Z.mod_small. lia.
    - symmetry. apply (Z.mod_unique_pos _ _ 1); lia. }
  destruct (Z.leb_spec (s + (stop - start)) (zlen v)) as [L|L].
  - destruct (slice_exists v s (s + (stop - start))) as [r Hr]; [lia..|]. exists r. split; [done|].
    split; [apply zlen_slice in Hr; lia|]. intros i Hi. rewrite (lookup_slice _ _ _ _ _ Hr) by lia.
    rewrite M by lia. by rewrite decide_True by lia.
  - destruct (slice_exists v s (zlen v)) as [r Hr]; [lia..|].
    destruct (slice_exists v 0 (stop - start - (zlen v - s))) as [r' Hr']; [lia..|].
    rewrite Hr, Hr'. simpl. exists (r ++ r'). split; [done|].
    pose proof (zlen_slice _ _ _ _ Hr). pose proof (zlen_slice _ _ _ _ Hr').
    split; [rewrite zlen_app; lia|]. intros i Hi. rewrite M by lia.
    destruct (decide (s + i < zlen v)).
    + rewrite lookup_app_l by (unfold zlen in *; lia). by rewrite (lookup_slice _ _ _ _ _ Hr) by lia.
    + rewrite lookup_app_r by (unfold zlen in *; lia).
      replace (Z.to_nat i - length r)%nat with (Z.to_nat (i - zlen r)) by (unfold zlen; lia).
      rewrite (lookup_slice _ _ _ _ _ Hr') by lia. do 2 f_equal. lia.
Qed.

(** A vector agrees with [x] from position [start] on. *)
Definition is_cut x (start len : Z) y : Prop :=
  wf y ∧ Len y = len ∧ ∀ i, 0 ≤ i < len → elem_at y i = elem_at x (start + i).

Lemma is_cut_Constant pad b f : 0 < b < 2 ^ 61 → (∀ i, 0 ≤ i < b → f i = Some pad) →
  ∃ y, NewConstant pad b = Ok y ∧ wf y ∧ Len y = b ∧ ∀ i, 0 ≤ i < b → elem_at y i = f i.
Proof.
  intros Hb Hf. unfold NewConstant. destruct (Z.leb_spec b 0); [lia|]. eexists. split; [done|].
  split; [by split|]. split; [done|]. intros i Hi. by rewrite Hf.
Qed.

Lemma NewPaddedCircularWindow_Ok w pad o tot : 0 < zlen w < tot → tot < 2 ^ 61 → 0 ≤ o < tot →
  NewPaddedCircularWindow w pad o tot = Ok (PaddedCircularWindow w pad tot o) ∧ wf (PaddedCircularWindow w pad tot o).
Proof.
  intros Hw Ht Ho. unfold NewPaddedCircularWindow.
  destruct (Z.ltb_spec tot (zlen w)), (Z.eqb_spec (zlen w) tot), (Z.eqb_spec (zlen w) 0); try lia.
  rewrite PositiveMod_spec, Z.mod_small by lia. split; [done|]. split; simpl; lia.
Qed.

(** The element [i] positions after the start of a cut whose window begins at [c]. *)
Definition cut_elem w pad (n c i : Z) : A := default pad (w !! Z.to_nat (if decide (i < c) then i - c + n else i - c)).

Lemma window_default w pad (i : Z) : zlen w ≤ i → default pad (w !! Z.to_nat i) = pad.
Proof. intros H. rewrite lookup_ge_None_2; [done|unfold zlen in H; lia]. Qed.

Lemma is_cut_window w w' pad n b c c' :
  0 < zlen w' < b → b < 2 ^ 61 → 0 ≤ c' < b →
  (∀ i, 0 ≤ i < b → cut_elem w' pad b c' i = cut_elem w pad n c i) →
  ∃ y, NewPaddedCircularWindow w' pad c' b = Ok y ∧ wf y ∧ Len y = b ∧
    ∀ i, 0 ≤ i < b → elem_at y i = Some (cut_elem w pad n c i).
Proof.
  intros Hw Hb Hc E. destruct (NewPaddedCircularWindow_Ok w' pad c' b Hw Hb Hc) as [-> W].
  eexists. split; [done|]. split; [done|]. split; [done|]. intros i Hi. simpl. rewrite <-E by done.
  unfold cut_elem. rewrite mod_near by lia. repeat case_decide; (done || lia).
Qed.

Lemma is_cut_regular w r pad (n b c a e : Z) :
  slice w a e = Ok r → e = a + b → 0 < b < 2 ^ 61 → 0 ≤ a → a + b ≤ zlen w →
  (∀ i, 0 ≤ i < b → (if decide (i < c) then i - c + n else i - c) = a + i) →
  ∃ y, Ok (Regular r) = Ok y ∧ wf y ∧ Len y = b ∧ ∀ i, 0 ≤ i < b → elem_at y i = Some (cut_elem w pad n c i).
Proof.
  intros Hr -> Hb Ha Hz E. pose proof (zlen_slice _ _ _ _ Hr) as L. exists (Regular r). simpl. split; [done|].
  split; [split; [simpl; lia|done]|]. split; [lia|]. intros i Hi. rewrite (lookup_slice _ _ _ _ _ Hr) by lia.
  unfold cut_elem. rewrite E by done. destruct (lookup_lt_is_Some_2 w (Z.to_nat (a + i))) as [e He]; [unfold zlen in *; lia|].
  by rewrite He.
Qed.

Lemma default_slice w (a b : Z) r pad (i : Z) : slice w a b = Ok r → 0 ≤ i → i < b - a ∨ b = zlen w →
  default pad (r !! Z.to_nat i) = default pad (w !! Z.to_nat (a + i)).
Proof.
  intros Hr Hi Hc. pose proof (zlen_slice _ _ _ _ Hr). assert (0 ≤ a).
  { unfold slice in Hr. case_decide; [lia|done]. }
  destruct (decide (i < b - a)).
  - by rewrite (lookup_slice _ _ _ _ _ Hr) by lia.
  - rewrite !window_default by lia. done.
Qed.

Lemma default_app l k pad (i : Z) : 0 ≤ i →
  default pad ((l ++ k) !! Z.to_nat i) =
  if decide (i < zlen l) then default pad (l !! Z.to_nat i) else default pad (k !! Z.to_nat (i - zlen l)).
Proof.
  intros Hi. unfold zlen. case_decide.
  - by rewrite lookup_app_l by lia.
  - rewrite lookup_app_r by lia. do 2 f_equal. lia.
Qed.

Lemma window_cases_spec w pad n b c d :
  0 < zlen w < n → n < 2 ^ 61 → 0 < b ≤ n → 0 ≤ c < n →
  d = (if decide (c + zlen w < n) then c + zlen w else c + zlen w - n) →
  ∃ y, window_cases w pad n b c d = Ok y ∧ wf y ∧ Len y = b ∧
    ∀ i, 0 ≤ i < b → elem_at y i = Some (cut_elem w pad n c i).
Proof.
  intros Hw Hn Hb Hc Hd. unfold window_cases.
  assert (∀ i, 0 ≤ i < b → zlen w ≤ (if decide (i < c) then i - c + n else i - c) → Some (cut_elem w pad n c i) = Some pad) as P.
  { intros i Hi G. unfold cut_elem. by rewrite window_default by lia. }
  ztests; subst d; repeat case_decide; try lia;
    repeat match goal with
    | |- context [slice w ?a ?e] =>
        let r := fresh "r" in let Hr := fresh "Hr" in
        destruct (slice_exists w a e) as [r Hr]; [lia|lia|]; pose proof (zlen_slice _ _ _ _ Hr); rewrite Hr; simpl
    end;
    lazymatch goal with
    | |- context [NewConstant _ _] =>
        apply is_cut_Constant; [lia|]; intros i Hi; apply P; [done|case_decide; lia]
    | H : slice w ?a ?e = Ok ?r |- context [Ok (Regular ?r)] =>
        apply (is_cut_regular w r pad n b c a e H); [lia..|]; intros i Hi; case_decide; lia
    | |- context [NewPaddedCircularWindow _ _ _ _] =>
        apply is_cut_window; [rewrite ?zlen_app; lia..|]; intros i Hi; unfold cut_elem; repeat case_decide; try lia;
        first [done | rewrite !window_default by lia; done
              |rewrite ?default_app by lia; repeat case_decide; try lia;
               match goal with H : slice w _ _ = Ok ?r |- context [?r !! _] => rewrite (default_slice _ _ _ _ _ _ H) by lia end;
               do 3 f_equal; lia]
    end.
Qed.

Lemma SubVector_spec x start stop : wf x → 0 ≤ start < stop → stop ≤ Len x →
  ∃ y, SubVector x start stop = Ok y ∧ is_cut x start (stop - start) y.
Proof.
  intros W Hs He. pose proof W as [Hl W']. destruct x as [a n|v|v o|w pad tot o]; simpl in *.
  - unfold assertCorrectBound. ztests.
    destruct (is_cut_Constant a (stop - start) (λ _, Some a)) as (y & -> & Wy & Ly & Ey); [lia|done|].
    exists y. split; [done|]. by split.
  - ztests. destruct (slice_exists v start stop) as [r Hr]; [lia..|]. rewrite Hr. simpl.
    exists (Regular r). split; [done|]. pose proof (zlen_slice _ _ _ _ Hr). split; [split; [simpl; lia|done]|].
    split; [done|]. intros i Hi. apply (lookup_slice _ _ _ _ _ Hr). lia.
  - ztests. destruct (copySubVector_spec v o start stop) as (r & -> & L & E); [done..|]. simpl.
    exists (Regular r). split; [done|]. split; [split; [simpl; lia|done]|]. by split.
  - unfold window_SubVector, assertCorrectBound, IvalWithStartLen. ztests.
    rewrite Stop_spec by (unfold CircularInterval.wf; simpl; lia). simpl. unfold normalize, Start, CircularInterval.stop. simpl.
    assert ((o - start) mod tot = if decide (o - start < 0) then o - start + tot else o - start) as Ec by (apply mod_near; lia).
    rewrite !PositiveMod_spec by lia. simpl.
    destruct (window_cases_spec w pad tot (stop - start) ((o - start) mod tot)
      (((if decide (o + zlen w < tot) then o + zlen w else o + zlen w - tot) - start) mod tot)) as (y & -> & Wy & Ly & Ey).
    { lia. } { lia. } { lia. } { apply Z.mod_pos_bound. lia. }
    { rewrite Ec. destruct (decide (o + zlen w < tot)); rewrite mod_near by lia; repeat case_decide; lia. }
    exists y. split; [done|]. split; [done|]. split; [done|]. intros i Hi. rewrite Ey by done. simpl. f_equal.
    unfold cut_elem. do 3 f_equal. rewrite Ec, mod_near by lia. repeat case_decide; lia.
Qed.

(** ** Writing *)

(** The positions of a window that the loops of [WriteInSlice] have filled up to [i]. *)
Definition filled w pad (tot o : Z) (i : Z) (buff : list A) : Prop :=
  zlen buff = tot ∧ ∀ p, 0 ≤ p < tot → (p - o) mod tot < i →
    buff !! Z.to_nat p = Some (default pad (w !! Z.to_nat ((p - o) mod tot))).

Lemma filled_step w pad tot o i buff : 0 ≤ o < tot → tot < 2 ^ 61 → 0 ≤ i < tot → filled w pad tot o i buff →
  ∃ pos, PositiveMod (int64 (i + o)) tot = Ok pos ∧ 0 ≤ pos < zlen buff ∧
    filled w pad tot o (i + 1) (<[Z.to_nat pos := default pad (w !! Z.to_nat i)]> buff).
Proof.
  intros Ho Ht Hi [L F]. exists ((i + o) mod tot).
  pose proof (Z.mod_pos_bound (i + o) tot ltac:(lia)) as B.
  rewrite int64_id by (unfold in_int64; lia). rewrite PositiveMod_spec by lia.
  split; [done|]. split; [lia|]. split; [by rewrite zlen_insert|]. intros p Hp Hpi.
  assert ((i + o) mod tot = if decide (i + o < tot) then i + o else i + o - tot) as E.
  { case_decide; [apply Z.mod_small; lia|]. symmetry. apply (Z.mod_unique_pos _ _ 1); lia. }
  pose proof (mod_near (p - o) tot ltac:(lia) ltac:(lia)) as E'.
  destruct (decide (p = (i + o) mod tot)) as [->|N].
  - rewrite list_lookup_insert_eq by (unfold zlen in L; lia). do 4 f_equal.
    rewrite E', E. repeat case_decide; lia.
  - rewrite list_lookup_insert_ne by lia. apply F; [done|]. rewrite E' in *. rewrite E in N.
    repeat case_decide; lia.
Qed.

Lemma window_write_spec w pad tot o buff : 0 < zlen w < tot → tot < 2 ^ 61 → 0 ≤ o < tot → zlen buff = tot →
  ∃ r, window_write w pad tot o buff = Ok r ∧ filled w pad tot o tot r.
Proof.
  intros Hw Ht Ho L. unfold window_write.
  destruct (foldM_seqZ (λ buff i, pos ← PositiveMod (int64 (i + o)) tot; a ← idx w i; store buff pos a)
    (filled w pad tot o) 0 (zlen w) buff) as (b1 & -> & F1).
  - lia.
  - split; [done|]. intros p Hp. pose proof (Z.mod_pos_bound (p - o) tot ltac:(lia)). lia.
  - intros i b Hi F. destruct (filled_step w pad tot o i b) as (pos & -> & Hp & F'); [lia..|done|]. simpl.
    destruct (lookup_lt_is_Some_2 w (Z.to_nat i)) as [a Ha]; [unfold zlen in *; lia|].
    rewrite (idx_nat w i a) by (done || lia). simpl. rewrite store_Ok by done.
    eexists. split; [done|]. by rewrite Ha in F'.
  - simpl. destruct (foldM_seqZ (λ buff i, pos ← PositiveMod (int64 (i + o)) tot; store buff pos pad)
      (filled w pad tot o) (zlen w) (tot - zlen w) b1) as (r & -> & F2); [lia|done| |].
    2: { exists r. split; [done|]. by replace (zlen w + (tot - zlen w)) with tot in F2 by lia. }
    intros i b Hi F. destruct (filled_step w pad tot o i b) as (pos & -> & Hp & F'); [lia..|done|]. simpl.
    rewrite store_Ok by done. eexists. split; [done|]. by rewrite window_default in F' by lia.
Qed.

Lemma WriteInSlice_spec x s : wf x → zlen s = Len x → WriteInSlice x s = Ok (elems x).
Proof.
  intros W L. pose proof W as [Hl W']. destruct x as [a n|v|v o|w pad tot o]; simpl in *; unfold assertHasLength.
  - rewrite L, Z.eqb_refl. simpl. f_equal. apply elems_ext; [done|simpl; unfold zlen; rewrite length_replicate; unfold zlen in L; lia|].
    intros i Hi. simpl in Hi. apply lookup_replicate_2. unfold zlen in L. lia.
  - rewrite L, Z.eqb_refl. simpl. f_equal. by apply elems_ext.
  - rewrite L. destruct (copySubVector_spec v o 0 (zlen v)) as (r & E & Lr & Er); [lia..|].
    rewrite Z.sub_0_r in *. rewrite E. f_equal. apply elems_ext; [done|done|]. intros i Hi. simpl. by rewrite Er.
  - rewrite L, Z.eqb_refl. simpl. destruct (window_write_spec w pad tot o s) as (r & -> & Lr & F); [lia..|].
    f_equal. apply elems_ext; [done|done|]. intros i Hi. simpl in *. apply F; [done|]. apply Z.mod_pos_bound. lia.
Qed.

Lemma WriteInSliceSame_spec x s : wf x → zlen s = Len x → WriteInSliceSame x s = Ok (elems x).
Proof.
  intros W L. pose proof (WriteInSlice_spec x s W L) as E. destruct x; simpl in *; try done.
  unfold assertHasLength in E. by rewrite L, Z.eqb_refl in E.
Qed.

Lemma rotatedAsRegular_spec v o : wf (Rotated v o) → rotatedAsRegular v o = Ok (elems (Rotated v o)).
Proof.
  intros W. pose proof W as [Hl W']. simpl in Hl, W'. unfold rotatedAsRegular. simpl. ztests.
  destruct (copySubVector_spec v o 0 (zlen v)) as (r & -> & L & E); [lia..|]. simpl. f_equal.
  apply elems_ext; [done|simpl; lia|]. intros i Hi. simpl in *. by rewrite E by lia.
Qed.

(** ** Rotating *)

(** [y] is [x] moved to the left by [k] positions, cyclically. *)
Definition is_shift x (k : Z) y : Prop :=
  wf y ∧ Len y = Len x ∧ ∀ i, 0 ≤ i < Len x → elem_at y i = elem_at x ((i + k) mod Len x).

Lemma mod_shift i k n : 0 < n → ((i + k) mod n) mod n = (i + k) mod n.
Proof. intros. apply Z.mod_mod. lia. Qed.

Lemma Constant_shift a n k y : NewConstant a n = Ok y → wf (Constant a n) → is_shift (Constant a n) k y.
Proof. unfold NewConstant. intros E W. destruct (n <=? 0); [done|]. injection E as <-. by split. Qed.

Lemma window_shift w pad tot o k : wf (PaddedCircularWindow w pad tot o) → - 2 ^ 61 ≤ k ≤ 2 ^ 61 →
  ∃ y, NewPaddedCircularWindow w pad (int64 (o + k)) tot = Ok y ∧ is_shift (PaddedCircularWindow w pad tot o) (- k) y.
Proof.
  intros [Hl W] Hk. simpl in *. rewrite int64_id by (unfold in_int64; lia).
  unfold NewPaddedCircularWindow. destruct (Z.ltb_spec tot (zlen w)), (Z.eqb_spec (zlen w) tot), (Z.eqb_spec (zlen w) 0); try lia.
  rewrite PositiveMod_spec by lia. simpl. pose proof (Z.mod_pos_bound (o + k) tot ltac:(lia)).
  eexists. split; [done|]. split; [split; simpl; lia|]. split; [done|]. intros i Hi. simpl. do 4 f_equal.
  rewrite Zminus_mod_idemp_l, Zminus_mod_idemp_r. f_equal. lia.
Qed.

Lemma Rotated_shift v o o' k : wf (Rotated v o) → - 2 ^ 62 ≤ o' ≤ 2 ^ 62 → o' mod zlen v = (o + k) mod zlen v →
  is_shift (Rotated v o) k (Rotated v o').
Proof.
  intros [Hl W] Ho E. simpl in *. split; [split; simpl; lia|]. split; [done|]. intros i Hi. simpl. do 2 f_equal.
  rewrite Z.add_mod_idemp_l by lia. rewrite <-(Z.add_mod_idemp_r i o') by lia. rewrite E, Z.add_mod_idemp_r by lia. f_equal. lia.
Qed.

Lemma Regular_shift v o k : wf (Regular v) → - 2 ^ 62 ≤ o ≤ 2 ^ 62 → o mod zlen v = k mod zlen v →
  is_shift (Regular v) k (Rotated v o).
Proof.
  intros [Hl W] Ho E. simpl in *. split; [split; simpl; lia|]. split; [done|]. intros i Hi. simpl. do 2 f_equal.
  rewrite <-(Z.add_mod_idemp_r i o), E, Z.add_mod_idemp_r by lia. done.
Qed.

Lemma NewRotated_Ok v o : 0 < zlen v → - zlen v ≤ o ≤ zlen v → NewRotated v o = Ok (Rotated v o).
Proof. intros Hl Ho. unfold NewRotated. ztests; done. Qed.

(** [SoftRotate] moves regular and rotated vectors to the left and windows to the right. *)
Definition soft_shift x (offset : Z) : Z :=
  match x with PaddedCircularWindow _ _ _ _ => - offset | Constant _ _ => 0 | _ => offset end.

Lemma SoftRotate_spec x offset : wf x → - Len x ≤ offset ≤ Len x →
  ∃ y, SoftRotate x offset = Ok y ∧ is_shift x (soft_shift x offset) y.
Proof.
  intros W Ho. pose proof W as [Hl W']. destruct x as [a n|v|v o|w pad tot o]; simpl in *.
  - eexists. split; [done|]. by split.
  - rewrite NewRotated_Ok by lia. eexists. split; [done|]. apply Regular_shift; [done|lia|done].
  - rewrite int64_id by (unfold in_int64; lia). rewrite PositiveMod_spec by lia. simpl.
    pose proof (Z.mod_pos_bound (offset + o) (zlen v) ltac:(lia)). rewrite NewRotated_Ok by lia.
    eexists. split; [done|]. apply Rotated_shift; [done|lia|]. rewrite Z.mod_mod by lia. f_equal. lia.
  - rewrite int64_id by (unfold in_int64; lia). rewrite PositiveMod_spec by lia. simpl.
    destruct (window_shift w pad tot o offset W) as (y & E & S); [lia|].
    rewrite int64_id in E by (unfold in_int64; lia).
    unfold NewPaddedCircularWindow in *. rewrite PositiveMod_spec in * by lia. rewrite Z.mod_mod by lia. eauto.
Qed.

(** [RotateRight] moves to the right, but a vector that is already rotated to the left. *)
Definition right_shift x (offset : Z) : Z :=
  match x with Rotated _ _ => offset | Constant _ _ => 0 | _ => - offset end.

Lemma RotateRight_spec x offset : wf x → - Len x ≤ offset ≤ Len x → offset ≤ 2 ^ 40 →
  (∀ v o, x = Rotated v o → - zlen v ≤ o ≤ zlen v) →
  ∃ y, RotateRight x offset = Ok y ∧ is_shift x (right_shift x offset) y.
Proof.
  intros W Ho Hmax Hr. pose proof W as [Hl W']. destruct x as [a n|v|v o|w pad tot o]; simpl in *.
  - unfold NewConstant. ztests. eexists. split; [done|]. by split.
  - rewrite int64_id by (unfold in_int64; lia). rewrite NewRotated_Ok by lia. eexists. split; [done|].
    apply Regular_shift; [done|lia|done].
  - specialize (Hr v o eq_refl). ztests. rewrite NewRotated_Ok by lia. simpl.
    rewrite int64_id by (unfold in_int64; lia). eexists. split; [done|]. apply Rotated_shift; [done|lia|done].
  - by apply window_shift; [|lia].
Qed.
End vec.

(** ** Reducing *)

Section reduce.
Context {A : Type} `{EqDecision A}.
Implicit Types (l v w : list A) (a pad : A) (x y : vec A).

Lemma neqb_spec (a b : A) : neqb a b = false ↔ a = b.
Proof. unfold neqb. by rewrite negb_false_iff, bool_decide_eq_true. Qed.

(** [y] represents the same vector as [x]. *)
Definition same_vec x y : Prop := wf y ∧ Len y = Len x ∧ ∀ i, 0 ≤ i < Len x → elem_at y i = elem_at x i.

Lemma same_vec_refl x : wf x → same_vec x x.
Proof. done. Qed.

Lemma same_vec_elems x y : wf x → same_vec x y → elems y = elems x.
Proof.
  intros W (Wy & L & E). apply elems_ext; [done|rewrite zlen_elems by done; lia|].
  intros i Hi. rewrite elems_lookup by (done || lia). apply E. done.
Qed.

Lemma tryIntoConstant_spec w : wf (Regular w) →
  ∃ r, tryIntoConstant w = Ok r ∧ match r with Some y => same_vec (Regular w) y | None => True end.
Proof.
  intros [Hl _]. simpl in Hl. unfold tryIntoConstant. destruct (Z.leb_spec (zlen w) 1); [by eexists|].
  destruct (idx_is_Ok w 0) as [w0 ->]; [lia|]. simpl. destruct (idx_is_Ok w 1) as [w1 ->]; [lia|]. simpl.
  destruct (neqb w0 w1); [by eexists|]. destruct (idx_is_Ok w (zlen w - 1)) as [wl ->]; [lia|]. simpl.
  destruct (neqb w0 wl); [by eexists|].
  destruct (idx_is_Ok w (Z.quot (zlen w) 2)) as [wm ->].
  { split; [apply Z.quot_pos; lia|apply Z.quot_lt; lia]. }
  simpl. destruct (neqb w0 wm); [by eexists|].
  destruct (forallb _ _) eqn:F; [|by eexists]. rewrite forallb_forall in F.
  unfold NewConstant. destruct (Z.leb_spec (zlen w) 0); [lia|]. simpl. eexists. split; [done|].
  split; [split; simpl; [lia|done]|]. split; [done|]. intros i Hi. simpl in *.
  destruct (lookup_lt_is_Some_2 w (Z.to_nat i)) as [b Hb]; [unfold zlen in *; lia|]. rewrite Hb. f_equal.
  specialize (F b). rewrite negb_true_iff, neqb_spec in F. symmetry. apply F.
  apply list_elem_of_In. by eapply list_elem_of_lookup_2.
Qed.

Definition not_constant v : Prop := 1 < zlen v → ∀ a, ∃ i, 0 ≤ i < zlen v ∧ v !! Z.to_nat i ≠ Some a.

Lemma differ_not_constant v (i j : Z) a b :
  idx v i = Ok a → idx v j = Ok b → neqb a b = true → not_constant v.
Proof.
  intros [Hi Ha]%idx_Ok [Hj Hb]%idx_Ok N _ c.
  pose proof (lookup_lt_Some _ _ _ Ha). pose proof (lookup_lt_Some _ _ _ Hb).
  unfold neqb in N. rewrite negb_true_iff, bool_decide_eq_false in N.
  destruct (decide (a = c)) as [->|].
  - exists j. unfold zlen. split; [lia|]. rewrite Hb. congruence.
  - exists i. unfold zlen. split; [lia|]. rewrite Ha. congruence.
Qed.

Lemma tryIntoConstant_None w : tryIntoConstant w = Ok None → not_constant w.
Proof.
  unfold tryIntoConstant. destruct (Z.leb_spec (zlen w) 1) as [|L]; [intros _ ?; lia|]. intros E.
  apply res_bind_Ok in E as (w0 & H0 & E). apply res_bind_Ok in E as (w1 & H1 & E).
  destruct (neqb w0 w1) eqn:N1; [exact (differ_not_constant _ _ _ _ _ H0 H1 N1)|].
  apply res_bind_Ok in E as (w2 & H2 & E). destruct (neqb w0 w2) eqn:N2; [exact (differ_not_constant _ _ _ _ _ H0 H2 N2)|].
  apply res_bind_Ok in E as (w3 & H3 & E). destruct (neqb w0 w3) eqn:N3; [exact (differ_not_constant _ _ _ _ _ H0 H3 N3)|].
  destruct (forallb _ _) eqn:F; [by destruct (NewConstant _ _)|]. intros _ a.
  apply not_true_iff_false in F. rewrite forallb_forall in F.
  destruct (decide (Exists (λ z, z ≠ a) w)) as [Ex|Nx].
  - apply Exists_exists in Ex as (z & [i Hi]%list_elem_of_lookup & Nz). exists (Z.of_nat i). rewrite Nat2Z.id, Hi.
    pose proof (lookup_lt_Some _ _ _ Hi). unfold zlen. split; [lia|congruence].
  - exfalso. apply F. intros y Hy%list_elem_of_In. rewrite negb_true_iff, neqb_spec.
    assert (∀ z, z ∈ w → z = a) as All.
    { intros z Hz. destruct (decide (z = a)); [done|]. destruct Nx. apply Exists_exists. eauto. }
    rewrite (All y Hy). symmetry. apply All.
    apply idx_Ok in H0 as [_ H0]. by eapply list_elem_of_lookup_2.
Qed.

(** The scan from the right finds where the constant suffix begins. *)
Lemma right_scan_spec fuel v last i best : -1 ≤ i < zlen v → i < Z.of_nat fuel → i < best ≤ zlen v - 1 →
  (∀ j, i < j < zlen v → v !! Z.to_nat j = Some last) →
  ∃ b, right_scan fuel v last i best = Ok b ∧ 0 ≤ b ≤ zlen v - 1 ∧
    ∀ j, b ≤ j < zlen v → v !! Z.to_nat j = Some last.
Proof.
  revert i. induction fuel as [|f IH]; intros i Hi Hf Hb Hv; simpl.
  { exists best. split; [done|]. split; [lia|]. intros j Hj. apply Hv. lia. }
  destruct (Z.ltb_spec i 0) as [L|L].
  { exists best. split; [done|]. split; [lia|]. intros j Hj. apply Hv. lia. }
  destruct (lookup_lt_is_Some_2 v (Z.to_nat i)) as [vi Hvi]; [unfold zlen in *; lia|].
  rewrite (idx_nat v i vi) by (done || lia). simpl. destruct (neqb vi last) eqn:E.
  - exists (i + 1). split; [done|]. split; [lia|]. intros j Hj. apply Hv. lia.
  - apply neqb_spec in E as ->. apply IH; [lia..|]. intros j Hj.
    destruct (decide (j = i)) as [->|]; [done|]. apply Hv. lia.
Qed.

Lemma tryIntoRightPadded_spec v : wf (Regular v) → not_constant v →
  ∃ r, tryIntoRightPadded v = Ok r ∧ match r with Some y => same_vec (Regular v) y | None => True end.
Proof.
  intros [Hl _] Hnc. simpl in Hl. unfold tryIntoRightPadded.
  destruct (lookup_lt_is_Some_2 v (Z.to_nat (zlen v - 1))) as [la Hla]; [unfold zlen in *; lia|].
  rewrite (idx_nat v (zlen v - 1) la) by (done || lia). simpl.
  destruct (right_scan_spec (length v) v la (zlen v - 2) (zlen v - 1)) as (b & -> & Hb & Hc).
  { lia. } { unfold zlen. lia. } { lia. } { intros j Hj. by replace j with (zlen v - 1) by lia. }
  simpl. destruct (Z.ltb_spec (zlen v - b) 1000) as [|G]; [by eexists|].
  destruct (slice_exists v 0 b) as [r Hr]; [lia..|]. rewrite Hr. simpl. pose proof (zlen_slice _ _ _ _ Hr).
  assert (b ≠ 0) as Nb.
  { intros ->. destruct (Hnc ltac:(lia) la) as (i & Hi & N). apply N, Hc. lia. }
  unfold RightPadded. ztests. destruct (NewPaddedCircularWindow_Ok r la 0 (zlen v)) as [-> W]; [lia..|]. simpl.
  eexists. split; [done|]. split; [done|]. split; [done|]. intros i Hi. simpl in *.
  rewrite Z.sub_0_r, Z.mod_small by lia. destruct (decide (i < b)).
  - rewrite (lookup_slice _ _ _ _ _ Hr), Z.add_0_l by lia.
    destruct (lookup_lt_is_Some_2 v (Z.to_nat i)) as [e He]; [unfold zlen in *; lia|]. by rewrite He.
  - rewrite window_default by lia. symmetry. apply Hc. lia.
Qed.

Lemma left_scan_spec fuel v first i : 1 ≤ i ≤ zlen v → zlen v - i ≤ Z.of_nat fuel →
  (∀ j, 0 ≤ j < i → v !! Z.to_nat j = Some first) →
  ∃ b, left_scan fuel v first i (i - 1) = Ok b ∧ 0 ≤ b < zlen v ∧
    ∀ j, 0 ≤ j ≤ b → v !! Z.to_nat j = Some first.
Proof.
  revert i. induction fuel as [|f IH]; intros i Hi Hf Hv; simpl.
  { exists (i - 1). split; [done|]. split; [lia|]. intros j Hj. apply Hv. lia. }
  destruct (Z.leb_spec (zlen v) i) as [L|L].
  { exists (i - 1). split; [done|]. split; [lia|]. intros j Hj. apply Hv. lia. }
  destruct (lookup_lt_is_Some_2 v (Z.to_nat i)) as [vi Hvi]; [unfold zlen in *; lia|].
  rewrite (idx_nat v i vi) by (done || lia). simpl. destruct (neqb vi first) eqn:E.
  - exists (i - 1). split; [done|]. split; [lia|]. intros j Hj. apply Hv. lia.
  - apply neqb_spec in E as ->. specialize (IH (i + 1)). replace (i + 1 - 1) with i in IH by lia.
    apply IH; [lia..|]. intros j Hj. destruct (decide (j = i)) as [->|]; [done|]. apply Hv. lia.
Qed.

Lemma tryIntoLeftPadded_spec v : wf (Regular v) → not_constant v →
  ∃ r, tryIntoLeftPadded v = Ok r ∧ match r with Some y => same_vec (Regular v) y | None => True end.
Proof.
  intros [Hl _] Hnc. simpl in Hl. unfold tryIntoLeftPadded.
  destruct (lookup_lt_is_Some_2 v (Z.to_nat 0)) as [fi Hfi]; [unfold zlen in *; lia|].
  rewrite (idx_nat v 0 fi) by (done || lia). simpl.
  destruct (left_scan_spec (length v) v fi 1) as (b & E & Hb & Hc).
  { lia. } { unfold zlen. lia. } { intros j Hj. by replace j with 0 by lia. }
  change (1 - 1) with 0 in E. rewrite E. simpl. destruct (Z.eqb_spec b 0) as [|Nb]; [by eexists|].
  assert (b ≠ zlen v - 1) as Nl.
  { intros ->. destruct (Hnc ltac:(lia) fi) as (i & Hi & N). apply N, Hc. lia. }
  rewrite (proj2 (Z.eqb_neq b (zlen v - 1))) by done.
  destruct (slice_exists v (b + 1) (zlen v)) as [r Hr]; [lia..|]. rewrite Hr. simpl. pose proof (zlen_slice _ _ _ _ Hr).
  unfold LeftPadded. ztests. destruct (NewPaddedCircularWindow_Ok r fi (zlen v - zlen r) (zlen v)) as [-> W]; [lia..|]. simpl.
  eexists. split; [done|]. split; [done|]. split; [done|]. intros i Hi. simpl in *.
  rewrite mod_near by lia. case_decide.
  - rewrite window_default by lia. symmetry. apply Hc. lia.
  - rewrite (lookup_slice _ _ _ _ _ Hr) by lia. replace (b + 1 + (i - (zlen v - zlen r))) with i by lia.
    destruct (lookup_lt_is_Some_2 v (Z.to_nat i)) as [e He]; [unfold zlen in *; lia|]. by rewrite He.
Qed.

Lemma TryReduceSizeRight_spec x : wf x → ∃ y saving, TryReduceSizeRight x = Ok (y, saving) ∧ same_vec x y.
Proof.
  intros W. destruct x as [a n|v|v o|w pad tot o]; simpl; try (eexists _, _; split; [done|by apply same_vec_refl]).
  destruct (tryIntoConstant_spec v W) as ([y|] & E & S); rewrite E; simpl; [eauto|].
  destruct (tryIntoRightPadded_spec v W (tryIntoConstant_None v E)) as ([y|] & -> & S'); simpl; eauto using same_vec_refl.
Qed.

Lemma TryReduceSizeLeft_spec x : wf x → ∃ y saving, TryReduceSizeLeft x = Ok (y, saving) ∧ same_vec x y.
Proof.
  intros W. destruct x as [a n|v|v o|w pad tot o]; simpl; try (eexists _, _; split; [done|by apply same_vec_refl]).
  destruct (tryIntoConstant_spec v W) as ([y|] & E & S); rewrite E; simpl; [eauto|].
  destruct (tryIntoLeftPadded_spec v W (tryIntoConstant_None v E)) as ([y|] & -> & S'); simpl; eauto using same_vec_refl.
Qed.

(** ** Compact forms *)

(** The shapes that [FromCompactWithShape] rebuilds. *)
Definition compactable x : bool :=
  match x with
  | PaddedCircularWindow w _ tot o => (o =? 0) || (o + zlen w =? tot)
  | Rotated _ _ => false
  | _ => true
  end.

Lemma compact_roundtrip x zero : wf x → compactable x = true →
  ∃ c, IterateCompact zero x = Ok c ∧ FromCompactWithShape x c = Ok x.
Proof.
  intros [Hl W] C. destruct x as [a n|v|v o|w pad tot o]; simpl in *; try done.
  - eexists. split; [done|]. change (idx [a] 0) with (Ok a). simpl. unfold NewConstant. ztests. done.
  - eexists. split; [done|]. rewrite Z.eqb_refl. unfold NewRegular, assertStrictPositiveLen. ztests. done.
  - apply orb_true_iff in C. rewrite !Z.eqb_eq in C. destruct (Z.eqb_spec o 0) as [->|No].
    + rewrite Z.ltb_irrefl, Z.add_0_l. simpl. destruct (Z.ltb_spec (zlen w) tot); [|lia]. exists (w ++ [pad]). split; [done|].
      rewrite zlen_app. change (zlen [pad]) with 1. replace (zlen w + 1 - 1) with (zlen w) by lia. rewrite Z.eqb_refl. simpl.
      rewrite (idx_nat _ (zlen w) pad) by (unfold zlen; rewrite ?Nat2Z.id; try lia; by rewrite list_lookup_middle by done).
      simpl. rewrite slice_Ok by (rewrite ?zlen_app; change (zlen [pad]) with 1; lia). simpl.
      rewrite Z.sub_0_r, drop_0. unfold zlen at 1. rewrite Nat2Z.id, take_app_length.
      unfold RightPadded. ztests. by apply NewPaddedCircularWindow_Ok; lia.
    + destruct C as [|C]; [lia|]. rewrite C, Z.eqb_refl. simpl. destruct (Z.ltb_spec 0 o); [|lia].
      rewrite Z.ltb_irrefl, app_nil_r. simpl. exists (pad :: w). split; [done|].
      replace (zlen (pad :: w)) with (zlen w + 1) by (unfold zlen; simpl; lia). replace (zlen w + 1 - 1) with (zlen w) by lia. rewrite Z.eqb_refl. simpl.
      change (idx (pad :: w) 0) with (Ok pad). simpl.
      rewrite slice_Ok by (unfold zlen; simpl; lia). simpl. rewrite take_ge by (unfold zlen; rewrite drop_0; lia). rewrite drop_0.
      unfold LeftPadded. ztests. replace o with (tot - zlen w) by lia. by apply NewPaddedCircularWindow_Ok; lia.
Qed.

(** [CoWindowRange] of windows that do not wrap is the range of the last one. *)
Lemma CoWindowRange_last (l : list (option (vec A))) w pad tot o :
  Forall (λ e : option (vec A), match e with Some (PaddedCircularWindow w _ tot o) => o + zlen w ≤ tot | _ => False end) l →
  o + zlen w ≤ tot →
  CoWindowRange (l ++ [Some (PaddedCircularWindow w pad tot o)]) = (o, o + zlen w).
Proof.
  unfold CoWindowRange. intros Hl Ho.
  cut (∀ a b : Z, co_window_loop (l ++ [Some (PaddedCircularWindow w pad tot o)]) false a b = (o, o + zlen w)); [done|].
  induction Hl as [|e l He Hl IH]; intros a b; simpl.
  - destruct (Z.ltb_spec tot (o + zlen w)); [lia|done].
  - destruct e as [[| | |w' pad' tot' o']|]; try done. destruct (Z.ltb_spec tot' (o' + zlen w')); [lia|]. apply IH.
Qed.
End reduce.
End SmartVectorFacts.
