(* ===== verification/Vectors.v ===== *)
(** * Vectors and polynomials of scalars

    Model of src/prover/maths/common/vector, vectorext, poly and polyext: slices of
    field elements and polynomials in coefficient form. [Scalar] is what the base field
    and its extension have in common, so that a function written twice in the code, once
    per field, is written once here. gnark-crypto's vector types are the parameter
    [VectorOps]. *)

From S2P Require Export Fext Parallel.
From Stdlib Require Import Ring_theory Ring.
Import Utils Fext.

(** ** Scalars *)

Class Scalar (A : Type) : Type := {
  sc_eq_dec :: EqDecision A;
  sc_zero : A;
  sc_one : A;
  sc_add : A → A → A;
  sc_sub : A → A → A;
  sc_mul : A → A → A;
  sc_neg : A → A;
  sc_square : A → A;
  sc_inv : A → A;
  (** [Exp] and [ExpInt64] *)
  sc_exp : A → Z → A;
  (** [SetInt64] and [fext.SetFromIntBase] on a fresh element *)
  sc_int : Z → A
}.

Declare Scope sc_scope.
Delimit Scope sc_scope with sc.
Infix "+" := sc_add : sc_scope.
Infix "-" := sc_sub : sc_scope.
Infix "*" := sc_mul : sc_scope.
Notation "- x" := (sc_neg x) : sc_scope.
Notation "0" := sc_zero : sc_scope.
Notation "1" := sc_one : sc_scope.

Class ScalarLaws (A : Type) `{Scalar A} : Prop := {
  sc_ring : ring_theory (R := A) sc_zero sc_one sc_add sc_mul sc_sub sc_neg eq;
  sc_square_spec (x : A) : sc_square x = sc_mul x x;
  sc_inv_r (x : A) : x ≠ sc_zero → sc_mul x (sc_inv x) = sc_one;
  sc_inv_0 : sc_inv sc_zero = sc_zero;
  sc_exp_0 (x : A) : sc_exp x 0 = sc_one;
  sc_exp_succ (x : A) n : (0 ≤ n)%Z → sc_exp x (Z.succ n) = sc_mul x (sc_exp x n);
  sc_int_1 : sc_int 1 = sc_one;
  sc_int_add a b : sc_int (a + b) = sc_add (sc_int a) (sc_int b)
}.

(** The two scalar types of the code. *)
#[export] Instance base_Scalar `{ElementOps F} : Scalar F := {|
  sc_zero := el_zero; sc_one := el_one; sc_add := el_add; sc_sub := el_sub; sc_mul := el_mul; sc_neg := el_neg;
  sc_square x := el_mul x x; sc_inv := el_inv; sc_exp := el_exp; sc_int := el_of_Z |}.

#[export] Instance ext_Scalar `{ElementOps F, !ExtOps F} : Scalar (E4 F) := {|
  sc_zero := Zero; sc_one := One; sc_add := e4_add; sc_sub := e4_sub; sc_mul := e4_mul; sc_neg := e4_neg;
  sc_square := e4_square; sc_inv := e4_inverse; sc_exp := e4_exp; sc_int := SetFromIntBase Zero |}.

#[export] Instance base_ScalarLaws `{ElementLaws F} : ScalarLaws F.
Proof.
  split; simpl; [apply el_ring|done|apply el_inv_r|apply el_inv_0|apply el_exp_0|apply el_exp_succ|done|apply el_of_Z_add].
Qed.

#[export] Instance ext_ScalarLaws `{ElementLaws F, !ExtOps F, !ExtLaws F} : ScalarLaws (E4 F).
Proof.
  split; simpl; [apply e4_ring|apply e4_square_spec|apply e4_inverse_r|apply e4_inverse_0|apply e4_exp_0|apply e4_exp_succ|done|].
  intros a b. unfold SetFromIntBase. rewrite el_of_Z_add. apply Lift_add.
Qed.

(** ** Element-wise operations of gnark-crypto

    The first argument is the receiver, whose contents the result replaces. *)
Class VectorOps (A : Type) : Type := {
  vec_Add : list A → list A → list A → res (list A);
  vec_Sub : list A → list A → list A → res (list A);
  vec_Mul : list A → list A → list A → res (list A);
  vec_ScalarMul : list A → list A → A → res (list A);
  vec_Exp : list A → list A → Z → res (list A);
  vec_InnerProduct : list A → list A → res A;
  (** [koalabear.BatchInvert] and [extensions.BatchInvertE4] *)
  vec_BatchInvert : list A → list A
}.

Class VectorLaws (A : Type) `{Scalar A, !VectorOps A} : Prop := {
  vec_Add_spec (r a b : list A) : length r = length a → length b = length a →
    vec_Add r a b = Ok (zip_with sc_add a b);
  vec_Sub_spec (r a b : list A) : length r = length a → length b = length a →
    vec_Sub r a b = Ok (zip_with sc_sub a b);
  vec_Mul_spec (r a b : list A) : length r = length a → length b = length a →
    vec_Mul r a b = Ok (zip_with sc_mul a b);
  vec_ScalarMul_spec (r a : list A) x : length r = length a →
    vec_ScalarMul r a x = Ok ((λ y, sc_mul y x) <$> a);
  vec_Exp_spec (r a : list A) k : length r = length a → (0 ≤ k)%Z →
    vec_Exp r a k = Ok ((λ y, sc_exp y k) <$> a);
  vec_InnerProduct_spec (a b : list A) : length b = length a →
    vec_InnerProduct a b = Ok (foldr sc_add sc_zero (zip_with sc_mul a b));
  vec_BatchInvert_spec (a : list A) : vec_BatchInvert a = sc_inv <$> a
}.

Module Vectors.

(** [ExpToInt] of the two fields: square and multiply from the bit below the leading one. *)
Section exp.
Context `{Scalar A}.

Definition sc_exp_step (x : A) (k : Z) (z : A) (i : Z) : A :=
  let z := sc_square z in
  if Z.land (Z.shiftr k i) 1 =? 1 then sc_mul z x else z.

Definition sc_ExpToInt (x : A) (k : Z) : A :=
  if k =? 0 then sc_one else
  let '(x, k) := if k <? 0 then (sc_inv x, int64 (- k)) else (x, k) in
  foldl (sc_exp_step x k) x (reverse (seqZ 0 (bits_Len (uint64 k) - 1))).
End exp.

Section vector.
Context `{Scalar A, !VectorOps A}.
Implicit Types (v w : list A) (x y : A).
Local Open Scope sc_scope.

(** [copy(dst, src)] *)
Definition copy (dst src : list A) : list A := take (length dst) src ++ drop (length src) dst.

Definition DeepCopy (pol : list A) : list A := [] ++ pol.

Definition ScalarMul (r v : list A) (scalar : A) : res (list A) :=
  if (zlen r + zlen v =? 0)%Z then Ok r else vec_ScalarMul r v scalar.

Definition ScalarProd (a b : list A) : res A := vec_InnerProduct a b.

Definition MulElementWise (r a b : list A) : res (list A) := vec_Mul r a b.

Definition Add (r a b : list A) (extras : list (list A)) : res (list A) :=
  if (zlen r + zlen a + zlen b =? 0)%Z then Ok r else
  r ← vec_Add r a b; foldM (λ r extra, vec_Add r r extra) r extras.

Definition Sub (r a b : list A) : res (list A) :=
  if (zlen r + zlen a + zlen b =? 0)%Z then Ok r else vec_Sub r a b.

(** [Reverse]: exchanges from both ends. *)
Definition reverse_step (n : Z) (v : list A) (i : Z) : res (list A) :=
  a ← idx v (n - i); b ← idx v i; v ← store v i a; store v (n - i) b.

Definition Reverse (v : list A) : res (list A) :=
  foldM (reverse_step (zlen v - 1)) v (seqZ 0 (Z.quot (zlen v) 2)).

Definition Repeat (x : A) (n : Z) : res (list A) :=
  if (n <? 0)%Z then Panic else Ok (replicate (Z.to_nat n) x).

Definition ForTest (xs : list Z) : list A := sc_int <$> xs.

Definition ZeroPad (v : list A) (newLen : Z) : res (list A) :=
  if (newLen <? zlen v)%Z then Panic else Ok (copy (replicate (Z.to_nat newLen) 0) v).

Definition Interleave (vecs : list (list A)) : res (list A) :=
  let numVecs := zlen vecs in
  v0 ← idx vecs 0;
  let vecSize := zlen v0 in
  if negb (forallb (λ v, zlen v =? vecSize)%Z vecs) then Panic else
  foldM (λ r i,
    foldM (λ r j, v ← idx vecs j; a ← idx v i; store r (i * numVecs + j) a) r (seqZ 0 numVecs))
    (replicate (Z.to_nat (numVecs * vecSize)) 0) (seqZ 0 vecSize).

Definition Fill (v : list A) (val : A) : list A := replicate (length v) val.

Definition power_step (x : A) (r : list A) (i : Z) : res (list A) :=
  p ← idx r (i - 1); store r i (p * x).

Definition PowerVec (x : A) (n : Z) : res (list A) :=
  if decide (x = 0) then Panic else
  if (n =? 0)%Z then Ok [] else
  if (n <? 0)%Z then Panic else
  r ← store (replicate (Z.to_nat n) 0) 0 1;
  foldM (power_step x) r (seqZ 1 (n - 1)).

(** [vectorext.PowerVec]: each task of [parallel.Execute] starts from its own power.
    Tasks write disjoint intervals; the model runs them one after the other. *)
Definition power_task (x : A) (r : list A) (range : Z * Z) : res (list A) :=
  let '(start, stop) := range in
  r ← store r start (sc_exp x start);
  foldM (power_step x) r (seqZ (start + 1) (stop - (start + 1))).

Definition PowerVecExt (gomaxprocs : Z) (x : A) (n : Z) : res (list A) :=
  if decide (x = 0) then Panic else
  if (n =? 0)%Z then Ok [] else
  if (n <? 0)%Z then Panic else
  foldM (power_task x) (replicate (Z.to_nat n) 0) (Parallel.Execute_ranges gomaxprocs [] n).

Definition Equal (a b : list A) : res bool :=
  if negb (zlen a =? zlen b)%Z then Panic else Ok (bool_decide (a = b)).

Definition VZero (size : Z) : res (list A) :=
  if (size <? 0)%Z then Panic else Ok (replicate (Z.to_nat size) 0).

Definition PeriodicOne (period size : Z) : res (list A) :=
  if (size <? 0)%Z then Panic else
  mapR (λ i, if (period =? 0)%Z then Panic else if (Z.rem i period =? 0)%Z then Ok 1 else Ok 0) (seqZ 0 size).
End vector.

(** ** poly and polyext *)

Section poly.
Context `{Scalar A}.
Local Open Scope sc_scope.

Definition eval_step (pol : list A) (x r : A) (i : Z) : res A := p ← idx pol i; Ok (r * x + p).

Definition Eval (pol : list A) (x : A) : res A :=
  foldM (eval_step pol x) 0 (reverse (seqZ 0 (zlen pol))).

(** The inner loops of [poly.Mul]. *)
Definition mul_step (a b : list A) (r : list A) (i : Z) : res (list A) :=
  foldM (λ r j, ai ← idx a i; bj ← idx b j; c ← idx r (i + j); store r (i + j) (c + ai * bj))
    r (seqZ 0 (zlen b)).

Definition Mul (a b : list A) : res (list A) :=
  if (zlen a =? 0)%Z || (zlen b =? 0)%Z then Ok [] else
  foldM (mul_step a b) (replicate (Z.to_nat (zlen a + zlen b - 1)) 0) (seqZ 0 (zlen a)).

Definition PolyAdd (a b : list A) : res (list A) :=
  n ← Max [zlen a; zlen b];
  foldM (λ r i, c ← idx r i; bi ← idx b i; store r i (c + bi))
    (copy (replicate (Z.to_nat n) 0) a) (seqZ 0 (zlen b)).
End poly.

Section polyext.
Context `{ElementOps F, !ExtOps F}.

(** [polyext.MulByElement]: the second polynomial has base coefficients. *)
Definition mul_by_element_step (a : list (E4 F)) (b : list F) (r : list (E4 F)) (i : Z) : res (list (E4 F)) :=
  foldM (λ r j, ai ← idx a i; bj ← idx b j; c ← idx r (i + j);
                store r (i + j) (e4_add c (e4_mul_by_element ai bj)))
    r (seqZ 0 (zlen b)).

Definition MulByElement (a : list (E4 F)) (b : list F) : res (list (E4 F)) :=
  if (zlen a =? 0)%Z || (zlen b =? 0)%Z then Ok [] else
  foldM (mul_by_element_step a b) (replicate (Z.to_nat (zlen a + zlen b - 1)) Zero) (seqZ 0 (zlen a)).

Definition EvalUnivariateMixed (pol : list (GenericFieldElem.t F)) (x : GenericFieldElem.t F)
    : res (GenericFieldElem.t F) :=
  foldM (λ r i, p ← idx pol i; Ok (GenericFieldElem.Add (GenericFieldElem.Mul r x) p))
    GenericFieldElem.GenericFieldZero (reverse (seqZ 0 (zlen pol))).
End polyext.
End Vectors.

(** * Facts on vectors and polynomials

    The loops of Vectors against the lists and sums they compute. *)

Import Utils Fext Vectors.

Module VectorsFacts.
Section scalars.
Context `{ScalarLaws A}.
Implicit Types (x y c d : A) (l a b : list A).
Local Open Scope sc_scope.

Add Ring sc_ring_vectors : (sc_ring (A := A)).

Lemma sc_exp_1 x : sc_exp x 1 = x.
Proof. change 1%Z with (Z.succ 0). rewrite sc_exp_succ, sc_exp_0 by lia. ring. Qed.

Lemma sc_exp_add x i j : (0 ≤ i)%Z → (0 ≤ j)%Z → sc_exp x (i + j)%Z = sc_exp x i * sc_exp x j.
Proof.
  intros Hi Hj. pattern i. apply natlike_ind; [| |done].
  - rewrite Z.add_0_l, sc_exp_0. ring.
  - intros n Hn IH. rewrite Z.add_succ_l, !sc_exp_succ, IH by lia. ring.
Qed.

Lemma sc_int_0 : sc_int 0 = (0 : A).
Proof.
  assert (sc_int 0 + sc_int 0 = sc_int 0) as E by by rewrite <-sc_int_add.
  transitivity (sc_int 0 + sc_int 0 - sc_int 0 : A); [ring|]. rewrite E. ring.
Qed.

Lemma sc_int_opp k : sc_int (- k) = - sc_int k.
Proof.
  assert (sc_int (- k) + sc_int k = 0) as E by (rewrite <-sc_int_add, <-sc_int_0; f_equal; lia).
  transitivity (sc_int (- k) + sc_int k - sc_int k); [ring|]. rewrite E. ring.
Qed.

Lemma sc_int_2 : sc_int 2 = 1 + 1.
Proof. change 2%Z with (1 + 1)%Z. by rewrite sc_int_add, sc_int_1. Qed.

(** ** Square and multiply *)

Lemma shiftr_split k i : (0 ≤ i)%Z →
  Z.shiftr k i = (2 * Z.shiftr k (i + 1) + (if Z.land (Z.shiftr k i) 1 =? 1 then 1 else 0))%Z.
Proof.
  intros Hi. assert (Z.land (Z.shiftr k i) 1 = Z.shiftr k i mod 2)%Z as -> by (by apply (Z.land_ones _ 1)).
  rewrite <-Z.shiftr_shiftr by lia. rewrite (Z.shiftr_div_pow2 (Z.shiftr k i) 1), Z.pow_1_r by lia.
  pose proof (Z.div_mod (Z.shiftr k i) 2 ltac:(lia)) as D.
  pose proof (Z.mod_pos_bound (Z.shiftr k i) 2 ltac:(lia)) as B.
  destruct (Z.eqb_spec (Z.shiftr k i mod 2) 1); lia.
Qed.

Lemma sc_exp_mul x i j : (0 ≤ i)%Z → (0 ≤ j)%Z → sc_exp x (i * j)%Z = sc_exp (sc_exp x i) j.
Proof.
  intros Hi Hj. pattern j. apply natlike_ind; [| |done].
  - by rewrite Z.mul_0_r, !sc_exp_0.
  - intros n Hn IH. rewrite Z.mul_succ_r, sc_exp_add, IH, sc_exp_succ by nia. ring.
Qed.

Lemma sc_exp_step_spec x k z i : (0 ≤ i)%Z → (0 ≤ k)%Z → z = sc_exp x (Z.shiftr k (i + 1)) →
  sc_exp_step x k z i = sc_exp x (Z.shiftr k i).
Proof.
  intros Hi Hk ->. rewrite (shiftr_split k i Hi) at 1. unfold sc_exp_step.
  assert (0 ≤ Z.shiftr k (i + 1))%Z as P by (apply Z.shiftr_nonneg; lia).
  rewrite sc_square_spec. case_match.
  - rewrite sc_exp_add, sc_exp_1, Z.mul_comm, sc_exp_mul by lia.
    change 2%Z with (Z.succ (Z.succ 0)). rewrite !sc_exp_succ, sc_exp_0 by lia. ring.
  - rewrite Z.add_0_r, Z.mul_comm, sc_exp_mul by lia.
    change 2%Z with (Z.succ (Z.succ 0)). rewrite !sc_exp_succ, sc_exp_0 by lia. ring.
Qed.

Lemma exp_loop x k n : (0 ≤ n)%Z → (0 ≤ k)%Z →
  foldl (sc_exp_step x k) (sc_exp x (Z.shiftr k n)) (reverse (seqZ 0 n)) = sc_exp x k.
Proof.
  intros Hn Hk. pattern n. apply natlike_ind; [by rewrite Z.shiftr_0_r| |done].
  intros i Hi IH. replace (Z.succ i) with (i + 1)%Z by lia.
  rewrite (seqZ_app 0 i 1), reverse_app by lia. simpl.
  rewrite (sc_exp_step_spec x k _ i) by done. exact IH.
Qed.

Lemma sc_ExpToInt_spec x k : (0 ≤ k < 2 ^ 63)%Z → sc_ExpToInt x k = sc_exp x k.
Proof.
  intros Hk. unfold sc_ExpToInt. destruct (Z.eqb_spec k 0) as [->|Nk]; [by rewrite sc_exp_0|].
  destruct (Z.ltb_spec k 0); [lia|]. unfold uint64. rewrite Z.mod_small by lia.
  unfold bits_Len. rewrite (proj2 (Z.eqb_neq k 0)) by lia.
  pose proof (Z.log2_nonneg k). rewrite <-(exp_loop x k (Z.log2 k)) by lia.
  replace (Z.log2 k + 1 - 1)%Z with (Z.log2 k) by lia. f_equal.
  assert (Z.shiftr k (Z.log2 k) = 1%Z) as ->; [|by rewrite sc_exp_1].
  rewrite Z.shiftr_div_pow2 by lia. pose proof (Z.log2_spec k ltac:(lia)).
  symmetry. apply Z.div_unique with (k - 2 ^ Z.log2 k)%Z; [|lia].
  left. rewrite Z.pow_succ_r in * by lia. lia.
Qed.

(** A negative exponent inverts first. *)
Lemma sc_ExpToInt_neg x k : (- 2 ^ 63 < k < 0)%Z → sc_ExpToInt x k = sc_exp (sc_inv x) (- k).
Proof.
  intros Hk. rewrite <-sc_ExpToInt_spec by lia. unfold sc_ExpToInt.
  rewrite (proj2 (Z.eqb_neq k 0)), (proj2 (Z.eqb_neq (- k) 0)) by lia.
  rewrite (proj2 (Z.ltb_lt k 0)), (proj2 (Z.ltb_ge (- k) 0)) by lia.
  rewrite int64_id by (unfold in_int64; lia). done.
Qed.

(** ** Polynomials *)

(** The value of a polynomial at a point. *)
Definition horner l x : A := foldr (λ p r, r * x + p) 0 l.

Lemma horner_app l a x : horner (l ++ a) x = horner l x + sc_exp x (zlen l) * horner a x.
Proof.
  induction l as [|c l IH].
  - simpl. change (zlen []) with 0%Z. rewrite sc_exp_0. ring.
  - simpl. rewrite IH. replace (zlen (c :: l)) with (Z.succ (zlen l)) by (unfold zlen; simpl; lia).
    rewrite sc_exp_succ by (unfold zlen; lia). ring.
Qed.

Lemma horner_snoc l c x : horner (l ++ [c]) x = horner l x + c * sc_exp x (zlen l).
Proof. rewrite horner_app. simpl. ring. Qed.

Lemma horner_zeros n x : horner (replicate n 0) x = 0.
Proof. induction n as [|n IH]; simpl; [done|]. rewrite IH. ring. Qed.

Lemma horner_add_at l (k : nat) c d x : l !! k = Some c →
  horner (<[k := c + d]> l) x = horner l x + d * sc_exp x (Z.of_nat k).
Proof.
  revert k. induction l as [|y l IH]; intros [|k] Hk; simplify_eq/=.
  - rewrite sc_exp_0. ring.
  - rewrite (IH _ Hk). replace (Z.of_nat (S k)) with (Z.succ (Z.of_nat k)) by lia.
    rewrite sc_exp_succ by lia. ring.
Qed.

Lemma Eval_spec l x : Eval l x = Ok (horner l x).
Proof.
  unfold Eval. destruct (foldM_seqZ_down (eval_step l x) (λ i r, r = horner (drop (Z.to_nat i) l) x) (zlen l) 0)
    as (r & -> & Hr).
  - apply zlen_nonneg.
  - rewrite drop_ge; [done|]. unfold zlen. lia.
  - intros i r Hi ->. unfold eval_step. destruct (idx_is_Ok l i Hi) as [p Hp]. rewrite Hp. simpl.
    eexists. split; [done|]. apply idx_Ok in Hp as [_ Hp].
    rewrite (drop_S l p (Z.to_nat i)) by done. simpl. do 4 f_equal. lia.
  - by rewrite Hr.
Qed.

(** The invariant of the loops: the value of the polynomial under construction. *)
Definition holds_value (len : Z) x (v : A) (r : list A) : Prop := zlen r = len ∧ horner r x = v.

Lemma store_add (len : Z) x v r i d : holds_value len x v r → (0 ≤ i < len)%Z →
  ∃ c, idx r i = Ok c ∧ ∃ r', store r i (c + d) = Ok r' ∧ holds_value len x (v + d * sc_exp x i) r'.
Proof.
  intros [L V] Hi. destruct (idx_is_Ok r i) as [c Hc]; [lia|]. exists c. split; [done|].
  rewrite store_Ok by lia. eexists. split; [done|]. split; [by rewrite zlen_insert|].
  apply idx_Ok in Hc as [? Hc]. rewrite (horner_add_at _ _ _ _ _ Hc), V, Z2Nat.id by lia. done.
Qed.

Lemma take_idx l i c : idx l i = Ok c → take (Z.to_nat (i + 1)) l = take (Z.to_nat i) l ++ [c].
Proof. intros [Hi Hc]%idx_Ok. replace (Z.to_nat (i + 1)) with (S (Z.to_nat i)) by lia. by apply take_S_r. Qed.

Lemma zlen_take l i : (0 ≤ i ≤ zlen l)%Z → zlen (take (Z.to_nat i) l) = i.
Proof. unfold zlen. rewrite length_take. lia. Qed.

Lemma mul_step_spec a b x v r i : (0 ≤ i < zlen a)%Z → holds_value (zlen a + zlen b - 1) x v r →
  ∃ r' ai, idx a i = Ok ai ∧ mul_step a b r i = Ok r' ∧
    holds_value (zlen a + zlen b - 1) x (v + ai * sc_exp x i * horner b x) r'.
Proof.
  intros Hi Hr. destruct (idx_is_Ok a i Hi) as [ai Ha]. unfold mul_step.
  destruct (foldM_seqZ (λ r j, ai ← idx a i; bj ← idx b j; c ← idx r (i + j)%Z; store r (i + j)%Z (c + ai * bj))
    (λ j, holds_value (zlen a + zlen b - 1) x (v + ai * sc_exp x i * horner (take (Z.to_nat j) b) x)) 0 (zlen b) r)
    as (r' & Er & Hr').
  - apply zlen_nonneg.
  - simpl. by replace (v + ai * sc_exp x i * 0) with v by ring.
  - intros j r1 Hj H1. destruct (idx_is_Ok b j) as [bj Hb]; [lia|]. rewrite Ha, Hb. simpl.
    destruct (store_add _ _ _ _ (i + j) (ai * bj) H1) as (c & -> & r2 & Er & H2); [lia|]. simpl.
    exists r2. split; [done|]. rewrite (take_idx _ _ _ Hb), horner_snoc, zlen_take by lia.
    destruct H2 as [L2 V2]. split; [done|]. rewrite V2, sc_exp_add by lia. ring.
  - exists r', ai. split; [done|]. split; [exact Er|].
    rewrite Z.add_0_l, take_ge in Hr' by (unfold zlen; lia). exact Hr'.
Qed.

Lemma Mul_spec a b x : ∃ r, Mul a b = Ok r ∧ horner r x = horner a x * horner b x ∧
  (a ≠ [] → b ≠ [] → zlen r = (zlen a + zlen b - 1)%Z).
Proof.
  unfold Mul. destruct (Z.eqb_spec (zlen a) 0) as [Ea|Ea].
  { destruct a; [|done]. exists []. simpl. split_and!; [done|ring|done]. }
  destruct (Z.eqb_spec (zlen b) 0) as [Eb|Eb].
  { destruct b; [|done]. exists []. simpl. split_and!; [done|ring|done]. }
  simpl. pose proof (zlen_nonneg a). pose proof (zlen_nonneg b).
  destruct (foldM_seqZ (mul_step a b)
    (λ i, holds_value (zlen a + zlen b - 1) x (horner (take (Z.to_nat i) a) x * horner b x)) 0 (zlen a)
    (replicate (Z.to_nat (zlen a + zlen b - 1)) 0)) as (r & -> & L & V).
  - lia.
  - split; [apply zlen_replicate; lia|]. rewrite horner_zeros. simpl. ring.
  - intros i r1 Hi Hr. destruct (mul_step_spec a b x _ r1 i ltac:(lia) Hr) as (r' & ai & Ha & -> & L & V).
    exists r'. split; [done|]. split; [done|]. rewrite V, (take_idx _ _ _ Ha), horner_snoc, zlen_take by lia. ring.
  - exists r. split; [done|]. rewrite Z.add_0_l, take_ge in V by (unfold zlen; lia). done.
Qed.

Lemma copy_zeros l (n : Z) : (zlen l ≤ n)%Z → copy (replicate (Z.to_nat n) 0) l = l ++ replicate (Z.to_nat (n - zlen l)) 0.
Proof.
  intros Hn. unfold copy, zlen in *. rewrite length_replicate, take_ge by lia. f_equal.
  rewrite drop_replicate. f_equal. lia.
Qed.

Lemma Max_2 i j : Max [i; j] = Ok (Z.max i j).
Proof. unfold Max. simpl. rewrite Z.ltb_irrefl. destruct (Z.ltb_spec i j); f_equal; lia. Qed.

Lemma PolyAdd_spec a b x : ∃ r, PolyAdd a b = Ok r ∧ horner r x = horner a x + horner b x ∧ zlen r = Z.max (zlen a) (zlen b).
Proof.
  unfold PolyAdd. rewrite Max_2. simpl. rewrite copy_zeros by lia.
  pose proof (zlen_nonneg a). pose proof (zlen_nonneg b).
  destruct (foldM_seqZ (λ r i, c ← idx r i; bi ← idx b i; store r i (c + bi))
    (λ i, holds_value (Z.max (zlen a) (zlen b)) x (horner a x + horner (take (Z.to_nat i) b) x)) 0 (zlen b)
    (a ++ replicate (Z.to_nat (Z.max (zlen a) (zlen b) - zlen a)) 0)) as (r & -> & L & V).
  - lia.
  - split; [rewrite zlen_app, zlen_replicate by lia; lia|]. rewrite horner_app, horner_zeros. simpl. ring.
  - intros i r1 Hi Hr. destruct (idx_is_Ok b i) as [bi Hb]; [lia|].
    destruct (store_add _ _ _ _ i bi Hr) as (c & -> & r2 & Er & L2 & V2); [lia|]. simpl. rewrite Hb. simpl.
    exists r2. split; [done|]. split; [done|]. rewrite V2, (take_idx _ _ _ Hb), horner_snoc, zlen_take by lia. ring.
  - exists r. split; [done|]. rewrite Z.add_0_l, take_ge in V by (unfold zlen; lia). done.
Qed.
(** ** Powers *)

Definition powers x (n : Z) (done_ : Z → Prop) (r : list A) : Prop :=
  zlen r = n ∧ ∀ k, (0 ≤ k < n)%Z → done_ k → r !! Z.to_nat k = Some (sc_exp x k).

Lemma powers_store x n D r i : powers x n D r → (0 ≤ i < n)%Z →
  ∃ r', store r i (sc_exp x i) = Ok r' ∧ powers x n (λ k, D k ∨ k = i) r'.
Proof.
  intros [L P] Hi. rewrite store_Ok by lia. eexists. split; [done|]. split; [by rewrite zlen_insert|].
  intros k Hk Dk. destruct (decide (k = i)) as [->|].
  - apply list_lookup_insert_eq. unfold zlen in L. lia.
  - rewrite list_lookup_insert_ne by lia. destruct Dk as [|]; [by apply P|done].
Qed.

Lemma power_loop x n D r (start stop : Z) : (0 ≤ start < stop)%Z → (stop ≤ n)%Z →
  powers x n (λ k, D k ∨ k = start) r →
  ∃ r', foldM (power_step x) r (seqZ (start + 1) (stop - (start + 1))) = Ok r' ∧
    powers x n (λ k, D k ∨ (start ≤ k < stop)%Z) r'.
Proof.
  intros Hs Hn Hr. destruct (foldM_seqZ (power_step x) (λ i, powers x n (λ k, D k ∨ (start ≤ k < i)%Z))
    (start + 1) (stop - (start + 1)) r) as (r' & E & H').
  - lia.
  - destruct Hr as [L P]. split; [done|]. intros k Hk Dk. apply P; [done|]. destruct Dk; [by left|right; lia].
  - intros i r1 Hi [L P]. unfold power_step.
    assert (idx r1 (i - 1) = Ok (sc_exp x (i - 1))) as ->. { apply idx_nat; [lia|]. apply P; [lia|right; lia]. }
    simpl. replace (sc_exp x (i - 1) * x) with (sc_exp x i).
    2:{ replace i with (Z.succ (i - 1)) at 1 by lia. rewrite sc_exp_succ by lia. ring. }
    destruct (powers_store x n _ r1 i (conj L P)) as (r2 & -> & L2 & P2); [lia|].
    exists r2. split; [done|]. split; [done|]. intros k Hk Dk. apply P2; [done|].
    destruct Dk; [left; by left|]. destruct (decide (k = i)); [by right|left; right; lia].
  - exists r'. split; [done|]. destruct H' as [L P]. split; [done|]. intros k Hk Dk. apply P; [done|].
    destruct Dk; [by left|right; lia].
Qed.

Lemma powers_zeros x (n : Z) : (0 ≤ n)%Z → powers x n (λ _, False) (replicate (Z.to_nat n) 0).
Proof. intros. split; [by apply zlen_replicate|done]. Qed.

Lemma powers_list x (n : Z) r (D : Z → Prop) : (∀ k, (0 ≤ k < n)%Z → D k) → powers x n D r → r = sc_exp x <$> seqZ 0 n.
Proof.
  intros HD [L P]. apply list_eq. intros i. rewrite list_lookup_fmap. unfold zlen in L.
  destruct (decide (i < length r)%nat) as [Hi|Hi].
  - rewrite lookup_seqZ_lt by lia. specialize (P (Z.of_nat i) ltac:(lia) (HD (Z.of_nat i) ltac:(lia))).
    rewrite Nat2Z.id in P. rewrite P. done.
  - rewrite lookup_ge_None_2, lookup_seqZ_ge by lia. done.
Qed.

Lemma PowerVec_spec x n : x ≠ 0 → (0 ≤ n)%Z → PowerVec x n = Ok (sc_exp x <$> seqZ 0 n).
Proof.
  intros Hx Hn. unfold PowerVec. rewrite decide_False by done. destruct (Z.eqb_spec n 0) as [->|]; [done|].
  destruct (Z.ltb_spec n 0); [lia|]. destruct (powers_store x n _ _ 0 (powers_zeros x n Hn)) as (r & E & P); [lia|].
  rewrite sc_exp_0 in E. rewrite E. simpl.
  destruct (power_loop x n _ r 0 n ltac:(lia) ltac:(lia) P) as (r' & E' & P'). change (0 + 1)%Z with 1%Z in E'. rewrite E'.
  f_equal. eapply powers_list; [|done]. intros k Hk. by right.
Qed.

Lemma ranges_loop_nonempty k i per extra offset r :
  (1 ≤ per)%Z → r ∈ Parallel.ranges_loop k i per extra offset → (r.1 < r.2)%Z.
Proof.
  intros Hp. revert i extra offset. induction k as [|k IH]; intros i extra offset Hr; simpl in Hr.
  - by apply elem_of_nil in Hr.
  - destruct (Z.ltb_spec 0 extra); apply elem_of_cons in Hr as [->|Hr]; simpl; try lia; by eapply IH.
Qed.

Lemma Execute_ranges_nonempty gomaxprocs maxCpus n r :
  (0 < n)%Z → r ∈ Parallel.Execute_ranges gomaxprocs maxCpus n → (0 ≤ r.1 < r.2 ∧ r.2 ≤ n)%Z.
Proof.
  intros Hn Hr. assert (r.1 < r.2)%Z as Hne.
  { unfold Parallel.Execute_ranges in Hr. set (m := Z.max 1 _) in Hr. clearbody m. destruct (Z.eqb_spec m 1).
    - apply list_elem_of_singleton in Hr as ->. done.
    - destruct (Z.ltb_spec (Z.quot n m) 1); eapply ranges_loop_nonempty; [|done|  |done]; lia. }
  assert (∀ k, (r.1 ≤ k < r.2)%Z → (0 ≤ k < n)%Z) as Hin.
  { intros k Hk. assert (k ∈ seqZ 0 n) as E%elem_of_seqZ; [|lia].
    rewrite <-(Parallel.Execute_ranges_cover gomaxprocs maxCpus) by lia. apply list_elem_of_In, in_concat. setoid_rewrite <-list_elem_of_In.
    exists (Parallel.iterations r). split; [apply list_elem_of_fmap; eauto|]. unfold Parallel.iterations. apply elem_of_seqZ. lia. }
  pose proof (Hin r.1 ltac:(lia)). pose proof (Hin (r.2 - 1)%Z ltac:(lia)). lia.
Qed.

Lemma PowerVecExt_spec gomaxprocs x n : x ≠ 0 → (0 ≤ n)%Z → PowerVecExt gomaxprocs x n = Ok (sc_exp x <$> seqZ 0 n).
Proof.
  intros Hx Hn. unfold PowerVecExt. rewrite decide_False by done. destruct (Z.eqb_spec n 0) as [->|]; [done|].
  destruct (Z.ltb_spec n 0); [lia|].
  destruct (foldM_rule (power_task x) (λ rs, powers x n (λ k, k ∈ concat (Parallel.iterations <$> rs)))
    (Parallel.Execute_ranges gomaxprocs [] n) (replicate (Z.to_nat n) 0)) as (r & -> & P).
  - destruct (powers_zeros x n Hn) as [L _]. split; [done|]. intros k _ Hk. by apply elem_of_nil in Hk.
  - intros rs [start stop] r Hr P. apply Execute_ranges_nonempty in Hr as Hb; [|lia]. simpl in Hb. simpl.
    destruct (powers_store x n _ r start P) as (r1 & -> & P1); [lia|]. simpl.
    destruct (power_loop x n _ r1 start stop ltac:(lia) ltac:(lia) P1) as (r2 & -> & L2 & P2).
    exists r2. split; [done|]. split; [done|]. intros k Hk Dk. apply P2; [done|].
    rewrite fmap_app, concat_app, elem_of_app in Dk. destruct Dk as [|Dk]; [by left|right].
    simpl in Dk. rewrite app_nil_r in Dk. unfold Parallel.iterations in Dk. apply elem_of_seqZ in Dk. simpl in Dk. lia.
  - f_equal. eapply powers_list; [|done]. intros k Hk. simpl. rewrite Parallel.Execute_ranges_cover by lia. apply elem_of_seqZ. lia.
Qed.
(** ** Rearrangements *)

(** After [i] exchanges the two ends of length [i] are reversed. *)
Definition reversed_ends l (i : Z) (r : list A) : Prop :=
  zlen r = zlen l ∧ ∀ k, (0 ≤ k < zlen l)%Z →
    r !! Z.to_nat k = l !! Z.to_nat (if decide (k < i ∨ zlen l - i ≤ k)%Z then zlen l - 1 - k else k).

Lemma reverse_step_spec l i r : (0 ≤ i < zlen l - 1 - i)%Z → reversed_ends l i r →
  ∃ r', reverse_step (zlen l - 1) r i = Ok r' ∧ reversed_ends l (i + 1) r'.
Proof.
  intros Hi [L R]. unfold reverse_step.
  destruct (idx_is_Ok r (zlen l - 1 - i)) as [y Hy]; [lia|]. destruct (idx_is_Ok r i) as [z Hz]; [lia|].
  rewrite Hy. simpl. rewrite Hz. simpl. rewrite store_Ok by lia. simpl. rewrite store_Ok by (rewrite zlen_insert; lia).
  eexists. split; [done|]. split; [by rewrite !zlen_insert|]. intros k Hk. unfold zlen in L, Hi, Hk.
  apply idx_Ok in Hy as [_ Hy], Hz as [_ Hz]. rewrite R in Hy, Hz by (unfold zlen; lia).
  unfold zlen in *. destruct (decide (k = Z.of_nat (length l) - 1 - i)%Z) as [->|].
  - rewrite list_lookup_insert_eq by (rewrite length_insert; lia). rewrite <-Hz. repeat case_decide; do 2 f_equal; lia.
  - rewrite list_lookup_insert_ne by lia. destruct (decide (k = i)) as [->|].
    + rewrite list_lookup_insert_eq by lia. rewrite <-Hy. repeat case_decide; do 2 f_equal; lia.
    + rewrite list_lookup_insert_ne, R by lia. repeat case_decide; do 2 f_equal; lia.
Qed.

Lemma Reverse_spec l : Reverse l = Ok (reverse l).
Proof.
  unfold Reverse. rewrite Z.quot_div_nonneg by (unfold zlen; lia). pose proof (Z.div_mod (zlen l) 2 ltac:(lia)) as D.
  pose proof (Z.mod_pos_bound (zlen l) 2 ltac:(lia)). pose proof (zlen_nonneg l).
  destruct (foldM_seqZ (reverse_step (zlen l - 1)) (reversed_ends l) 0 (zlen l / 2) l) as (r & -> & L & R).
  - lia.
  - split; [done|]. intros k Hk. rewrite decide_False by lia. done.
  - intros i r Hi. apply reverse_step_spec. lia.
  - f_equal. unfold zlen in L. apply list_eq. intros i. destruct (decide (i < length l)%nat) as [Hi|Hi].
    + rewrite reverse_lookup by lia. specialize (R (Z.of_nat i) ltac:(unfold zlen; lia)). rewrite Nat2Z.id in R.
      rewrite R. case_decide; f_equal; unfold zlen in *; lia.
    + rewrite !lookup_ge_None_2 by (rewrite ?length_reverse; lia). done.
Qed.

(** Element [j] of vector [i] is at position [i] of the [j]-th group. *)
Definition interleaved (vecs : list (list A)) (vecSize : Z) (done_ : Z → Prop) (r : list A) : Prop :=
  zlen r = (zlen vecs * vecSize)%Z ∧ ∀ i j v, (0 ≤ i < vecSize)%Z → vecs !! Z.to_nat j = Some v → (0 ≤ j)%Z →
    done_ (i * zlen vecs + j)%Z → r !! Z.to_nat (i * zlen vecs + j) = v !! Z.to_nat i.

Lemma position_inj m i j i' j' : (0 ≤ j < m)%Z → (0 ≤ j' < m)%Z → (i * m + j = i' * m + j')%Z → i = i' ∧ j = j'.
Proof. intros Hj Hj' E. assert (i = i') by nia. subst. lia. Qed.

Lemma interleave_store vecs (vecSize : Z) r i j v y : Forall (λ v, zlen v = vecSize) vecs →
  interleaved vecs vecSize (λ p, p < i * zlen vecs + j)%Z r → (0 ≤ i < vecSize)%Z →
  idx vecs j = Ok v → idx v i = Ok y →
  ∃ r', store r (i * zlen vecs + j) y = Ok r' ∧ interleaved vecs vecSize (λ p, p < i * zlen vecs + (j + 1))%Z r'.
Proof.
  intros HF [L R] Hi [Hj Hv]%idx_Ok [_ Hy]%idx_Ok. pose proof (lookup_lt_Some _ _ _ Hv) as B.
  rewrite store_Ok by (unfold zlen in *; nia). eexists. split; [done|]. split; [by rewrite zlen_insert|].
  intros i' j' v' Hi' Hv' Hj' D. pose proof (lookup_lt_Some _ _ _ Hv') as B'.
  destruct (decide (i' * zlen vecs + j' = i * zlen vecs + j)%Z) as [E|].
  - destruct (position_inj (zlen vecs) i' j' i j) as [-> ->]; [unfold zlen; lia..|done|].
    rewrite list_lookup_insert_eq; [congruence|]. unfold zlen in *. nia.
  - assert (0 ≤ i * zlen vecs + j ∧ 0 ≤ i' * zlen vecs + j')%Z as [? ?] by (unfold zlen; nia). rewrite list_lookup_insert_ne by lia. apply R; [done..|]. lia.
Qed.

Lemma Interleave_spec vecs (vecSize : Z) : vecs ≠ [] → Forall (λ v, zlen v = vecSize) vecs →
  ∃ r, Interleave vecs = Ok r ∧ interleaved vecs vecSize (λ _, True) r.
Proof.
  intros Hne HF. unfold Interleave. destruct vecs as [|v0 vs] eqn:Ev; [done|]. rewrite <-Ev in *. clear Hne.
  assert (idx vecs 0 = Ok v0) as -> by by rewrite Ev. simpl.
  assert (zlen v0 = vecSize) as -> by (rewrite Ev in HF; by apply Forall_cons_1 in HF as [-> _]).
  assert (forallb (λ v, zlen v =? vecSize)%Z vecs = true) as ->.
  { apply forallb_forall. intros v Hv%list_elem_of_In. rewrite Forall_forall in HF. by rewrite (HF v Hv), Z.eqb_refl. }
  simpl. assert (0 ≤ vecSize)%Z as Hs. { rewrite Ev in HF. apply Forall_cons_1 in HF as [<- _]. apply zlen_nonneg. }
  pose proof (zlen_nonneg vecs) as Hm.
  destruct (foldM_seqZ (λ r i, foldM (λ r j, v ← idx vecs j; a ← idx v i; store r (i * zlen vecs + j)%Z a) r (seqZ 0 (zlen vecs)))
    (λ i, interleaved vecs vecSize (λ p, p < i * zlen vecs + 0)%Z) 0 vecSize (replicate (Z.to_nat (zlen vecs * vecSize)) 0)) as (r & -> & L & R).
  - done.
  - split; [apply zlen_replicate; nia|]. intros i j v Hi Hv Hj D. nia.
  - intros i r Hi Hr.
    destruct (foldM_seqZ (λ r j, v ← idx vecs j; a ← idx v i; store r (i * zlen vecs + j)%Z a)
      (λ j, interleaved vecs vecSize (λ p, p < i * zlen vecs + j)%Z) 0 (zlen vecs) r) as (r' & E & L & R).
    + done.
    + done.
    + intros j r1 Hj Hr1. destruct (idx_is_Ok vecs j) as [v Hv]; [lia|]. destruct (idx_is_Ok v i) as [y Hy].
      { apply idx_Ok in Hv as [_ Hv]. rewrite (Forall_lookup_1 _ _ _ _ HF Hv). lia. }
      rewrite Hv. simpl. rewrite Hy. simpl. by apply (interleave_store _ _ _ _ _ v).
    + exists r'. split; [exact E|]. split; [done|]. intros i' j v Hi' Hv Hj D. apply R; [done..|]. lia.
  - exists r. split; [done|]. split; [done|]. intros i j v Hi Hv Hj _. apply R; [done..|].
    pose proof (lookup_lt_Some _ _ _ Hv). unfold zlen. nia.
Qed.
End scalars.

Lemma ExpToInt_spec `{ElementLaws F, !ExtOps F, !ExtLaws F} (x : E4 F) k :
  (0 ≤ k < 2 ^ 63)%Z → ExpToInt x k = e4_exp x k.
Proof. exact (sc_ExpToInt_spec (A := E4 F) x k). Qed.

Lemma ExpToInt_neg `{ElementLaws F, !ExtOps F, !ExtLaws F} (x : E4 F) k :
  (- 2 ^ 63 < k < 0)%Z → ExpToInt x k = e4_exp (e4_inverse x) (- k).
Proof. exact (sc_ExpToInt_neg (A := E4 F) x k). Qed.
End VectorsFacts.
