(* ===== verification/SmartVectorOps.v ===== *)
(** * Arithmetic of smart vectors

    Model of the n-ary operations of src/prover/maths/common/smartvectors: the operator
    interface (arithmetic_op.go, arithmetic_op_ext.go), its application to a list of
    vectors of any representation (arithmetic_gen.go, regular.go, windowed.go and their
    Ext versions), and the functions built on it (arithmetic_basic.go, polynomial.go).
    The base and the extension version of a function differ only in the types; they are
    one definition over [Kind], which says how a smart vector is seen from a field. *)

From S2P Require Export SmartVector Vectors.
Import Utils Fext CircularInterval SmartVector.

Module SmartVectorOps.

(** ** Operators *)

(** The methods of the interface [operator]; the receiver is the first argument and its
    new contents the result. *)
Class operator (A : Type) : Type := {
  constIntoConst : A → A → Z → A;
  vecIntoVec : list A → list A → Z → res (list A);
  constIntoVec : list A → A → Z → res (list A);
  constIntoTerm : A → Z → A;
  vecIntoTerm : list A → list A → Z → res (list A);
  constTermIntoConst : A → A → A;
  vecTermIntoVec : list A → list A → res (list A);
  constTermIntoVec : list A → A → res (list A);
  (** the type assertion [op.(productOp)] *)
  isProductOp : bool
}.

Section operators.
Context `{Scalar A, !VectorOps A}.
Implicit Types (r t x : list A).
Local Open Scope sc_scope.

(** [for i := range res { res[i] = f(res[i], x[i]) }] *)
Definition each (f : A → A → A) (r x : list A) : res (list A) :=
  if (zlen x <? zlen r)%Z then Panic else Ok (zip_with f r x).

Definition lin_constIntoConst (r x : A) (coeff : Z) : A :=
  match coeff with
  | 1%Z => r + x
  | (-1)%Z => r - x
  | 2%Z => r + x + x
  | (-2)%Z => r - x - x
  | _ => r + sc_int coeff * x
  end.

Definition lin_constIntoTerm (x : A) (coeff : Z) : A :=
  match coeff with
  | 1%Z => x
  | (-1)%Z => - x
  | 2%Z => x + x
  | (-2)%Z => - (x + x)
  | _ => sc_int coeff * x
  end.

Definition lin_constTermIntoConst (r term : A) : A := r + term.
Definition lin_constTermIntoVec r (term : A) : res (list A) := Ok ((λ y, y + term) <$> r).

Definition lin_constIntoVec r (val : A) (coeff : Z) : res (list A) :=
  lin_constTermIntoVec r (lin_constIntoTerm val coeff).

Definition lin_vecIntoVec r x (coeff : Z) : res (list A) :=
  _ ← assertHasLength (zlen r) (zlen x);
  match coeff with
  | 1%Z => Vectors.Add r r x []
  | (-1)%Z => Vectors.Sub r r x
  | 2%Z => each (λ a b, a + b + b) r x
  | (-2)%Z => each (λ a b, a - b - b) r x
  | _ => each (λ a b, a + sc_int coeff * b) r x
  end.

Definition lin_vecIntoTerm t x (coeff : Z) : res (list A) :=
  match coeff with
  | 1%Z => Ok (Vectors.copy t x)
  | (-1)%Z => each (λ _ b, - b) t x
  | 2%Z => Vectors.Add t x x []
  | (-2)%Z => each (λ _ b, - (b + b)) t x
  | _ => each (λ _ b, sc_int coeff * b) t x
  end.

Definition lin_vecTermIntoVec r t : res (list A) := Vectors.Add r r t [].

(** The extension versions call the vector type directly. *)
Definition lin_vecExtIntoVecExt r x (coeff : Z) : res (list A) :=
  _ ← assertHasLength (zlen r) (zlen x);
  match coeff with
  | 1%Z => vec_Add r r x
  | (-1)%Z => vec_Sub r r x
  | 2%Z => r ← vec_Add r r x; vec_Add r r x
  | (-2)%Z => r ← vec_Sub r r x; vec_Sub r r x
  | _ => each (λ a b, a + sc_int coeff * b) r x
  end.

Definition lin_vecExtIntoTermExt t x (coeff : Z) : res (list A) :=
  match coeff with
  | 1%Z => Ok (Vectors.copy t x)
  | (-1)%Z => each (λ _ b, - b) t x
  | 2%Z => vec_Add t x x
  | (-2)%Z => each (λ _ b, - (b + b)) t x
  | _ => each (λ _ b, sc_int coeff * b) t x
  end.

Definition lin_vecTermExtIntoVecExt r t : res (list A) := vec_Add r r t.

Definition prod_constIntoConst (r x : A) (coeff : Z) : A :=
  match coeff with
  | 0%Z => r
  | 1%Z => r * x
  | 2%Z => r * x * x
  | 3%Z => r * (sc_square x * x)
  | _ => r * sc_exp x coeff
  end.

Definition prod_constIntoTerm (x : A) (coeff : Z) : A :=
  match coeff with
  | 0%Z => 1
  | 1%Z => x
  | 2%Z => sc_square x
  | 3%Z => sc_square x * x
  | _ => sc_exp x coeff
  end.

Definition prod_constTermIntoConst (r term : A) : A := r * term.
Definition prod_constTermIntoVec r (term : A) : res (list A) := Vectors.ScalarMul r r term.
Definition prod_constTermExtIntoVecExt r (term : A) : res (list A) := vec_ScalarMul r r term.

Definition prod_constIntoVec r (x : A) (coeff : Z) : res (list A) :=
  prod_constTermIntoVec r (prod_constIntoTerm x coeff).
Definition prod_constExtIntoVecExt r (x : A) (coeff : Z) : res (list A) :=
  prod_constTermExtIntoVecExt r (prod_constIntoTerm x coeff).

Definition prod_vecIntoVec r x (coeff : Z) : res (list A) :=
  _ ← assertHasLength (zlen r) (zlen x);
  match coeff with
  | 0%Z => Ok r
  | 1%Z => Vectors.MulElementWise r r x
  | 2%Z => each (λ a b, a * b * b) r x
  | 3%Z => each (λ a b, a * (sc_square b * b)) r x
  | _ => each (λ a b, a * Vectors.sc_ExpToInt b coeff) r x
  end.

Definition prod_vecIntoTerm t x (coeff : Z) : res (list A) :=
  match coeff with
  | 0%Z => Ok (Vectors.Fill t 1)
  | 1%Z => Ok (Vectors.copy t x)
  | 2%Z => Vectors.MulElementWise t x x
  | 3%Z => each (λ _ b, sc_square b * b) t x
  | _ => each (λ _ b, sc_exp b coeff) t x
  end.

Definition prod_vecTermIntoVec r t : res (list A) := Vectors.MulElementWise r r t.

Definition prod_vecExtIntoVecExt r x (coeff : Z) : res (list A) :=
  _ ← assertHasLength (zlen r) (zlen x);
  match coeff with
  | 0%Z => Ok r
  | 1%Z => vec_Mul r r x
  | 2%Z => r ← vec_Mul r r x; vec_Mul r r x
  | 3%Z => r ← vec_Mul r r x; r ← vec_Mul r r x; vec_Mul r r x
  | _ => each (λ a b, a * Vectors.sc_ExpToInt b coeff) r x
  end.

Definition prod_vecExtIntoTermExt t x (coeff : Z) : res (list A) := vec_Exp t x coeff.
Definition prod_vecTermExtIntoVecExt r t : res (list A) := vec_Mul r r t.

Definition linCombOp : operator A := {|
  constIntoConst := lin_constIntoConst; vecIntoVec := lin_vecIntoVec; constIntoVec := lin_constIntoVec;
  constIntoTerm := lin_constIntoTerm; vecIntoTerm := lin_vecIntoTerm;
  constTermIntoConst := lin_constTermIntoConst; vecTermIntoVec := lin_vecTermIntoVec;
  constTermIntoVec := lin_constTermIntoVec; isProductOp := false |}.

Definition linCombOpExt : operator A := {|
  constIntoConst := lin_constIntoConst; vecIntoVec := lin_vecExtIntoVecExt; constIntoVec := lin_constIntoVec;
  constIntoTerm := lin_constIntoTerm; vecIntoTerm := lin_vecExtIntoTermExt;
  constTermIntoConst := lin_constTermIntoConst; vecTermIntoVec := lin_vecTermExtIntoVecExt;
  constTermIntoVec := lin_constTermIntoVec; isProductOp := false |}.

Definition productOp : operator A := {|
  constIntoConst := prod_constIntoConst; vecIntoVec := prod_vecIntoVec; constIntoVec := prod_constIntoVec;
  constIntoTerm := prod_constIntoTerm; vecIntoTerm := prod_vecIntoTerm;
  constTermIntoConst := prod_constTermIntoConst; vecTermIntoVec := prod_vecTermIntoVec;
  constTermIntoVec := prod_constTermIntoVec; isProductOp := true |}.

Definition productOpExt : operator A := {|
  constIntoConst := prod_constIntoConst; vecIntoVec := prod_vecExtIntoVecExt; constIntoVec := prod_constExtIntoVecExt;
  constIntoTerm := prod_constIntoTerm; vecIntoTerm := prod_vecExtIntoTermExt;
  constTermIntoConst := prod_constTermIntoConst; vecTermIntoVec := prod_vecTermExtIntoVecExt;
  constTermIntoVec := prod_constTermExtIntoVecExt; isProductOp := true |}.
End operators.

(** ** Smart vectors seen from a field *)

(** [as_vec] is the type assertions to the four types of a field; [of_vec] puts a vector
    of the field back in the interface. *)
Class Kind (F A : Type) `{ElementOps F, !ExtOps F} : Type := {
  as_vec : SmartVector.t F → option (vec A);
  of_vec : vec A → SmartVector.t F;
  (** [IntoRegVecSaveAllocBase] with its error dropped, [IntoRegVecSaveAllocExt] *)
  into_reg : SmartVector.t F → res (list A);
  (** [Get] and [GetExt] *)
  kind_Get : SmartVector.t F → Z → res A;
  (** [WriteInSlice] and [WriteInSliceExt] *)
  kind_WriteInSlice : SmartVector.t F → list A → res (list A)
}.

#[export] Instance base_Kind `{ElementOps F, !ExtOps F} : Kind F F := {|
  as_vec s := match s with OfBase x => Some x | OfExt _ => None end;
  of_vec := OfBase;
  into_reg s := r ← IntoRegVecSaveAllocBase s; Ok r.1;
  kind_Get := sv_Get;
  kind_WriteInSlice := sv_WriteInSlice |}.

#[export] Instance ext_Kind `{ElementOps F, !ExtOps F} : Kind F (E4 F) := {|
  as_vec s := match s with OfExt x => Some x | OfBase _ => None end;
  of_vec := OfExt;
  into_reg := IntoRegVecSaveAllocExt;
  kind_Get := GetExt;
  kind_WriteInSlice := sv_WriteInSliceExt |}.

(** ** Applying an operator *)

(** Applies [f] to the sub-slice [l[a:b]] in place. *)
Definition in_slice {A} (l : list A) (a b : Z) (f : list A → res (list A)) : res (list A) :=
  s ← slice l a b; s' ← f s; Ok (take (Z.to_nat a) l ++ s' ++ drop (Z.to_nat b) l).

(** [for i, x := range l] *)
Definition enumerate {B} (l : list B) : list (Z * B) := zip (seqZ 0 (zlen l)) l.

Section process.
Context `{ElementOps F, !ExtOps F, !Scalar A, !Kind F A, !SortByStart}.
Context (op : operator A).
Notation SmartVector := (SmartVector.t F).
Implicit Types (svecs : list SmartVector) (coeffs : list Z).

Definition const_step coeffs (st : A * Z) (ix : Z * SmartVector) : res (A * Z) :=
  let '(constVal, numMatches) := st in
  match as_vec ix.2 with
  | Some (Constant a _) =>
      c ← idx coeffs ix.1;
      if numMatches <? 1 then Ok (constIntoTerm a c, numMatches + 1)
      else Ok (constIntoConst constVal a c, numMatches + 1)
  | _ => Ok st
  end.

(** The value and the length of the constant, or nil, and the number of matches. *)
Definition processConstOnly svecs coeffs : res (option (A * Z) * Z) :=
  st ← foldM (const_step coeffs) (sc_zero, 0) (enumerate svecs);
  let '(constVal, numMatches) := st in
  if numMatches =? 0 then Ok (None, 0) else
  s0 ← idx svecs 0; Ok (Some (constVal, sv_Len s0), numMatches).

(** The windows of the list with their padding, their intervals and coefficients. *)
Definition gather_step (length : Z) (coeffs_ : list Z)
    (st : list (list A * A) * list CircularInterval.t * list Z) (ix : Z * SmartVector)
    : res (list (list A * A) * list CircularInterval.t * list Z) :=
  let '(windows, intervals, coeffs) := st in
  match as_vec ix.2 with
  | Some (PaddedCircularWindow w pad _ _ as pcw) =>
      ival ← interval pcw;
      c ← idx coeffs_ ix.1;
      _ ← assertHasLength (sv_Len ix.2) length;
      Ok (windows ++ [(w, pad)], intervals ++ [ival], coeffs ++ [c])
  | _ => Ok st
  end.

(** One window of the main loop; the state is [isFirst], [unionWindow] and [paddedTerm]. *)
Definition window_step (length offset : Z) (intervals : list CircularInterval.t) coeffs
    (st : bool * list A * A) (ix : Z * (list A * A)) : res (bool * list A * A) :=
  let '(isFirst, unionWindow, paddedTerm) := st in
  let '(i, (window, pad)) := ix in
  ival ← idx intervals i;
  start_ ← normalize (Start ival) offset length;
  stop ← Stop ival;
  stop_ ← normalize stop offset length;
  let stop_ := if stop_ =? 0 then length else stop_ in
  c ← idx coeffs i;
  if (isFirst : bool) then
    unionWindow ← in_slice unionWindow start_ stop_ (λ s, vecIntoTerm s window c);
    let paddedTerm := constIntoTerm pad c in
    unionWindow ← in_slice unionWindow 0 start_ (λ s, Ok (Vectors.Fill s paddedTerm));
    unionWindow ← in_slice unionWindow stop_ (zlen unionWindow) (λ s, Ok (Vectors.Fill s paddedTerm));
    Ok (false, unionWindow, paddedTerm)
  else
    if negb (stop_ - start_ =? zlen window) then Panic else
    unionWindow ← in_slice unionWindow start_ stop_ (λ s, vecIntoVec s window c);
    let paddedTerm := constIntoConst paddedTerm pad c in
    unionWindow ← in_slice unionWindow 0 start_ (λ s, constIntoVec s pad c);
    unionWindow ← in_slice unionWindow stop_ (zlen unionWindow) (λ s, constIntoVec s pad c);
    Ok (false, unionWindow, paddedTerm).

(** The windows of the slice are replaced by regular vectors, in the slice itself. *)
Definition windows_into_regular svecs : res (list SmartVector) :=
  mapR (λ svec,
    match as_vec svec with
    | Some (PaddedCircularWindow _ _ _ _) => temp ← into_reg svec; r ← NewRegular temp; Ok (of_vec r)
    | _ => Ok svec
    end) svecs.

(** [processWindowedOnly] returns a vector or nil, the number of matches and, as third
    component, the contents of the slice [svecs] when it returns. *)
Definition processWindowedOnly svecs (coeffs_ : list Z) : res (option (vec A) * Z * list SmartVector) :=
  s0 ← idx svecs 0;
  let length := sv_Len s0 in
  st ← foldM (gather_step length coeffs_) ([], [], []) (enumerate svecs);
  let '(windows, intervals, coeffs) := st in
  let numMatches := zlen windows in
  if numMatches =? 0 then Ok (None, numMatches, svecs) else
  smallestCover ← SmallestCoverInterval intervals;
  if IsFullCircle smallestCover then
    svecs' ← windows_into_regular svecs; Ok (None, 0, svecs')
  else
  if Start smallestCover <? 0 then Panic else
  let unionWindow := replicate (Z.to_nat (IntervalLen smallestCover)) sc_zero in
  let offset := Start smallestCover in
  st ← foldM (window_step length offset intervals coeffs) (true, unionWindow, sc_zero) (enumerate windows);
  let '(_, unionWindow, paddedTerm) := st in
  if IsFullCircle smallestCover then r ← NewRegular unionWindow; Ok (Some r, numMatches, svecs)
  else r ← NewPaddedCircularWindow unionWindow paddedTerm offset length; Ok (Some r, numMatches, svecs).

Definition regular_step (length : Z) coeffs (st : option (list A) * Z) (ix : Z * SmartVector)
    : res (option (list A) * Z) :=
  let '(resvec, numMatches) := st in
  reg ← match as_vec ix.2 with
        | Some (Rotated v o) => r ← rotatedAsRegular v o; Ok (Some r)
        | Some (Regular v) => Ok (Some v)
        | _ => Ok None
        end;
  match reg with
  | None => Ok st
  | Some reg =>
      match resvec with
      | None =>
          _ ← assertStrictPositiveLen length;
          c ← idx coeffs ix.1;
          r ← vecIntoTerm (replicate (Z.to_nat length) sc_zero) reg c;
          Ok (Some r, numMatches + 1)
      | Some r =>
          c ← idx coeffs ix.1;
          r ← vecIntoVec r reg c;
          Ok (Some r, numMatches + 1)
      end
  end.

Definition processRegularOnly svecs coeffs : res (option (list A) * Z) :=
  s0 ← idx svecs 0;
  st ← foldM (regular_step (sv_Len s0) coeffs) (None, 0) (enumerate svecs);
  if st.2 =? 0 then Ok (None, 0) else Ok st.

(** Merges the constant into the result of the windows. *)
Definition merge_const (windowRes : option (vec A)) (constVal : A) : res (option (vec A)) :=
  match windowRes with
  | Some (PaddedCircularWindow w pad tot o) =>
      w ← constTermIntoVec w constVal;
      Ok (Some (PaddedCircularWindow w (constTermIntoConst pad constVal) tot o))
  | Some (Regular w) => w ← constTermIntoVec w constVal; Ok (Some (Regular w))
  | r => Ok r
  end.

(** Merges the result of the windows into the regular one. *)
Definition merge_window (windowRes : option (vec A)) (regvec : list A) : res (list A) :=
  match windowRes with
  | Some (Regular w) => vecTermIntoVec regvec w
  | Some (PaddedCircularWindow w pad _ _ as pcw) =>
      ival ← interval pcw;
      let length := zlen regvec in
      wraps ← DoesWrapAround ival;
      stop ← Stop ival;
      if (wraps : bool) then
        part ← slice w (length - Start ival) (zlen w);
        regvec ← in_slice regvec 0 stop (λ s, vecTermIntoVec s part);
        part ← slice w 0 (length - Start ival);
        regvec ← in_slice regvec (Start ival) (zlen regvec) (λ s, vecTermIntoVec s part);
        in_slice regvec stop (Start ival) (λ s, constTermIntoVec s pad)
      else
        regvec ← in_slice regvec (Start ival) stop (λ s, vecTermIntoVec s w);
        regvec ← in_slice regvec 0 (Start ival) (λ s, constTermIntoVec s pad);
        in_slice regvec stop (zlen regvec) (λ s, constTermIntoVec s pad)
  | _ => Panic
  end.

Fixpoint assert_lengths (len0 : Z) svecs : res unit :=
  match svecs with
  | [] => Ok ()
  | s :: svecs' => _ ← assertHasLength len0 (sv_Len s); assert_lengths len0 svecs'
  end.

(** The part of [processOperator] after the windows. *)
Definition process_regular (constRes : option (A * Z)) (matchedConst : Z) (windowRes : option (vec A)) (matchedWindow : Z)
    svecs coeffs : res (option (vec A)) :=
  reg ← processRegularOnly svecs coeffs;
  let '(regularRes, matchedRegular) := reg in
  if negb (matchedConst + matchedWindow + matchedRegular =? zlen svecs) then Panic else
  if matchedRegular =? zlen svecs then Ok (Regular <$> regularRes)
  else match regularRes with
  | None => Panic
  | Some regvec =>
      if matchedRegular + matchedConst =? zlen svecs then
        match constRes with
        | Some (constVal, _) => r ← constTermIntoVec regvec constVal; Ok (Some (Regular r))
        | None => Panic
        end
      else r ← merge_window windowRes regvec; Ok (Some (Regular r))
  end.

(** The result, nil included, and the contents of [svecs] on return. *)
Definition processOperator coeffs svecs : res (option (vec A) * list SmartVector) :=
  if negb (zlen coeffs =? zlen svecs) then Panic else
  if zlen svecs =? 0 then Panic else
  let totalToMatch := zlen svecs in
  s0 ← idx svecs 0;
  _ ← assert_lengths (sv_Len s0) svecs;
  _ ← assertStrictPositiveLen (sv_Len s0);
  const ← processConstOnly svecs coeffs;
  let '(constRes, matchedConst) := const in
  let constVec := (λ c, Constant c.1 c.2) <$> constRes in
  if matchedConst =? totalToMatch then Ok (constVec, svecs) else
  if isProductOp && match constRes with Some c => bool_decide (c.1 = sc_zero) | None => false end
  then Ok (constVec, svecs) else
  window ← processWindowedOnly svecs coeffs;
  let '(windowRes, matchedWindow, svecs) := window in
  if matchedWindow =? totalToMatch then Ok (windowRes, svecs) else
  windowRes ← (if (0 <? matchedWindow) && (0 <? matchedConst)
               then match constRes with Some c => merge_const windowRes c.1 | None => Panic end
               else Ok windowRes);
  if matchedWindow + matchedConst =? totalToMatch then Ok (windowRes, svecs) else
  r ← process_regular constRes matchedConst windowRes matchedWindow svecs coeffs;
  Ok (r, svecs).
End process.

(** ** Linear combinations and products *)

Section gen.
Context `{ElementOps F, !ExtOps F, !Scalar A, !VectorOps A, !Kind F A, !SortByStart}.
Notation SmartVector := (SmartVector.t F).

Definition lin_comb (op : operator A) (coeffs : list Z) (svecs : list SmartVector)
    : res (option (vec A) * list SmartVector) :=
  s0 ← idx svecs 0;
  if negb (forallb (λ s, sv_Len s =? sv_Len s0) svecs) then Panic else
  processOperator op coeffs svecs.

Definition sum_of (op : operator A) (vecs : list SmartVector) : res (option (vec A) * list SmartVector) :=
  lin_comb op (replicate (length vecs) 1) vecs.

Definition product_of (op : operator A) (vecs : list SmartVector) : res (option (vec A) * list SmartVector) :=
  processOperator op (replicate (length vecs) 1) vecs.

Definition scalar_mul (op : operator A) (v : SmartVector) (x : A) : res (option (vec A) * list SmartVector) :=
  xVec ← NewConstant x (sv_Len v); product_of op [v; of_vec xVec].

(** [InnerProduct] and [InnerProductExt] *)
Definition InnerProduct (a b : SmartVector) : res A :=
  if negb (sv_Len a =? sv_Len b) then Panic else
  foldM (λ r i, a_ ← kind_Get a i; b_ ← kind_Get b i; Ok (r + a_ * b_)%sc) sc_zero (seqZ 0 (sv_Len a)).

(** [BatchInvert] and [BatchInvertExt] *)
Definition BatchInvert (x : SmartVector) : res (vec A) :=
  match as_vec x with
  | Some (Constant a n) => Ok (Constant (sc_inv a) n)
  | Some (PaddedCircularWindow w pad tot o) => Ok (PaddedCircularWindow (vec_BatchInvert w) (sc_inv pad) tot o)
  | Some (Rotated v o) => NewRotated (vec_BatchInvert v) o
  | Some (Regular v) => NewRegular (vec_BatchInvert v)
  | None => Panic
  end.

(** [IsZero] and [IsZeroExt] *)
Definition zero_flag (a : A) : A := if decide (a = sc_zero) then sc_one else sc_zero.

Definition IsZero (x : SmartVector) : res (vec A) :=
  match as_vec x with
  | Some (Constant a n) => Ok (Constant (zero_flag a) n)
  | Some (PaddedCircularWindow w pad tot o) => Ok (PaddedCircularWindow (zero_flag <$> w) (zero_flag pad) tot o)
  | Some (Rotated v o) => NewRotated (zero_flag <$> v) o
  | Some (Regular v) => NewRegular (zero_flag <$> v)
  | None => Panic
  end.

(** [Sum] and [SumExt] *)
Definition sum_elements (l : list A) : A := foldl sc_add sc_zero l.

Definition Sum (x : SmartVector) : res A :=
  match as_vec x with
  | Some (Regular v) => Ok (sum_elements v)
  | Some (PaddedCircularWindow w pad tot o) =>
      Ok (sum_elements w + sc_int (uint64 (tot - zlen w)) * pad)%sc
  | Some (Constant a n) => Ok (sc_int (uint64 n) * a)%sc
  | Some (Rotated v _) => Ok (sum_elements v)
  | None => Panic
  end.

(** ** Polynomials in coefficient form *)

Definition zeros (n : Z) : list A := replicate (Z.to_nat n) sc_zero.

(** [PolyAdd] and [PolyAddExt] *)
Definition PolyAdd (a b : SmartVector) : res (vec A) :=
  let '(small, large) := if sv_Len b <? sv_Len a then (b, a) else (a, b) in
  r ← kind_WriteInSlice large (zeros (sv_Len large));
  r ← foldM (λ r i, x ← kind_Get small i; ri ← idx r i; store r i (ri + x)%sc) r (seqZ 0 (sv_Len small));
  NewRegular r.

(** [PolySub] and [PolySubExt] *)
Definition PolySub (a b : SmartVector) : res (vec A) :=
  maxLen ← Max [sv_Len a; sv_Len b];
  r ← in_slice (zeros maxLen) 0 (sv_Len a) (λ s, kind_WriteInSlice a s);
  r ← foldM (λ r i, x ← kind_Get b i; ri ← idx r i; store r i (ri - x)%sc) r (seqZ 0 (sv_Len b));
  NewRegular r.

(** [RuffiniQuoRemExt]: division by X - q. *)
Definition ruffini_step (p : SmartVector) (q : A) (quo : list A) (i : Z) : res (list A) :=
  c ← idx quo (i + 1); pi ← kind_Get p i; store quo i (c * q + pi)%sc.

Definition RuffiniQuoRem (p : SmartVector) (q : A) : res (vec A * A) :=
  if sv_Len p =? 0 then Panic else
  if sv_Len p =? 1 then quo ← NewConstant sc_zero 1; rem ← kind_Get p 0; Ok (quo, rem) else
  last ← kind_Get p (sv_Len p - 1);
  quo_ ← store (zeros (sv_Len p)) (sv_Len p - 1) last;
  quo_ ← foldM (ruffini_step p q) quo_ (reverse (seqZ 0 (sv_Len p - 1)));
  rem ← idx quo_ 0;
  tail ← slice quo_ 1 (zlen quo_);
  quo ← NewRegular tail;
  Ok (quo, rem).
End gen.

Section fields.
Context `{ElementOps F, !ExtOps F, !VectorOps F, !VectorOps (E4 F), !SortByStart}.
Notation SmartVector := (SmartVector.t F).

(** The extension versions of the processing functions. *)
Definition processConstOnlyExt (op : operator (E4 F)) : list SmartVector → list Z → res (option (E4 F * Z) * Z) :=
  processConstOnly op.
Definition processWindowedOnlyExt (op : operator (E4 F))
    : list SmartVector → list Z → res (option (vec (E4 F)) * Z * list SmartVector) := processWindowedOnly op.
Definition processRegularOnlyExt (op : operator (E4 F)) : list SmartVector → list Z → res (option (list (E4 F)) * Z) :=
  processRegularOnly op.
Definition processOperatorExt (op : operator (E4 F)) : list Z → list SmartVector → res (option (vec (E4 F)) * list SmartVector) :=
  processOperator op.

Definition LinComb := lin_comb (A := F) linCombOp.
Definition Product := processOperator (A := F) productOp.
Definition LinCombExt := lin_comb (A := E4 F) linCombOpExt.
Definition ProductExt := processOperatorExt productOpExt.
Definition Add := sum_of (A := F) linCombOp.
Definition Mul := product_of (A := F) productOp.
Definition ScalarMul := scalar_mul (A := F) productOp.
Definition AddExt := sum_of (A := E4 F) linCombOpExt.
Definition MulExt := product_of (A := E4 F) productOpExt.
Definition ScalarMulExt := scalar_mul (A := E4 F) productOpExt.

Definition InnerProductExt : SmartVector → SmartVector → res (E4 F) := InnerProduct.
Definition BatchInvertExt : SmartVector → res (vec (E4 F)) := BatchInvert.
Definition IsZeroExt : SmartVector → res (vec (E4 F)) := IsZero.
Definition SumExt : SmartVector → res (E4 F) := Sum.
Definition PolyAddExt : SmartVector → SmartVector → res (vec (E4 F)) := PolyAdd.
Definition PolySubExt : SmartVector → SmartVector → res (vec (E4 F)) := PolySub.
Definition RuffiniQuoRemExt : SmartVector → E4 F → res (vec (E4 F) * E4 F) := RuffiniQuoRem.

Definition EvalCoeff (v : SmartVector) (x : F) : res F :=
  r ← sv_WriteInSlice v (zeros (sv_Len v)); Vectors.Eval r x.

Definition EvalCoeffBivariate (v : SmartVector) (x : F) (numCoeffX : Z) (y : F) : res F :=
  if numCoeffX <=? 0 then Panic else
  if negb (Z.rem (sv_Len v) numCoeffX =? 0) then Panic else
  s ← sv_WriteInSlice v (zeros (sv_Len v));
  foldOnX ← mapR (λ j, part ← slice s (j * numCoeffX) (j * numCoeffX + numCoeffX); Vectors.Eval part x)
              (seqZ 0 (Z.quot (zlen s) numCoeffX));
  Vectors.Eval foldOnX y.

(** [fext.ParBatchInvert]: the tasks of [parallel.Execute] work on disjoint sub-slices;
    the model runs them one after the other. *)
Definition ParBatchInvert (gomaxprocs : Z) (a : list (E4 F)) (numCPU : Z) : res (list (E4 F)) :=
  let numCPU := if numCPU =? 0 then gomaxprocs else numCPU in
  foldM (λ r range, part ← slice a range.1 range.2; in_slice r range.1 range.2 (BatchInvertInto part))
    (replicate (length a) Zero) (Parallel.Execute_ranges gomaxprocs [numCPU] (zlen a)).

(** ** Linear combinations by the powers of a scalar *)

(** [acc[i] += v[i] * x] for the positions below [length]. *)
Definition accumulate `{Scalar A} (length : Z) (acc v : list A) (x : A) : res (list A) :=
  foldM (λ acc i, vi ← idx v i; ai ← idx acc i; store acc i (ai + vi * x)%sc) acc (seqZ 0 length).

(** [Constant] of every vector, or nothing. *)
Fixpoint only_constants (vecs : list SmartVector) : option (list F) :=
  match vecs with
  | [] => Some []
  | OfBase (Constant a _) :: vecs' => cons a <$> only_constants vecs'
  | _ => None
  end.

(** The state of the loop: [resReg], [resCon], [anyReg], [anyCon] and [xPow]. *)
Definition comb_state (A : Type) : Type := list A * A * bool * bool * A.

Definition finish_combination {A} `{Scalar A} (length : Z) (st : comb_state A) : res (vec A) :=
  let '(resReg, resCon, anyReg, anyCon, _) := st in
  match anyCon, anyReg with
  | true, true => NewRegular ((λ a, a + resCon)%sc <$> resReg)
  | true, false => NewConstant resCon length
  | false, true => NewRegular resReg
  | false, false => Panic
  end.

Definition comb_step (length : Z) (x : F) (st : comb_state F) (v : SmartVector) : res (comb_state F) :=
  let '(resReg, resCon, anyReg, anyCon, xPow) := st in
  let next := (x * xPow)%el in
  match v with
  | OfBase (Constant a _) => Ok (resReg, (resCon + a * xPow)%el, anyReg, true, next)
  | OfBase (Regular w) => r ← accumulate length resReg w xPow; Ok (r, resCon, true, anyCon, next)
  | OfBase (Rotated w o) =>
      w ← rotatedAsRegular w o; r ← accumulate length resReg w xPow; Ok (r, resCon, true, anyCon, next)
  | OfBase (PaddedCircularWindow _ _ _ _ as pcw) =>
      w ← WriteInSlice pcw (zeros length); r ← accumulate length resReg w xPow; Ok (r, resCon, true, anyCon, next)
  | OfExt _ => Panic
  end.

Definition LinearCombination (vecs : list SmartVector) (x : F) : res (vec F) :=
  v0 ← idx vecs 0;
  let length := sv_Len v0 in
  match only_constants vecs with
  | Some v => y ← Vectors.Eval v x; NewConstant y length
  | None =>
      if length <? 0 then Panic else
      st ← foldM (comb_step length x) (zeros length, el_zero, false, false, el_one) vecs;
      finish_combination length st
  end.
End fields.

Section mixed.
Context `{ElementOps F, !ExtOps F}.
Notation SmartVector := (SmartVector.t F).

(** gnark-crypto's [MulAccByElement]: [acc[i] += v[i] * x] with base elements [v]. *)
Class MulAcc : Type := vec_MulAccByElement : list (E4 F) → list F → E4 F → res (list (E4 F)).
Class MulAccLaws `{MulAcc} : Prop := {
  vec_MulAccByElement_spec (acc : list (E4 F)) v x : length v = length acc →
    vec_MulAccByElement acc v x = Ok (zip_with (λ a b, e4_add a (e4_mul_by_element x b)) acc v)
}.
Context `{MulAcc}.

Definition comb_ext_step (length : Z) (x : E4 F) (st : comb_state (E4 F)) (v : SmartVector) : res (comb_state (E4 F)) :=
  let '(resReg, resCon, anyReg, anyCon, xPow) := st in
  let next := e4_mul x xPow in
  match v with
  | OfBase (Constant a _) => Ok (resReg, e4_add resCon (e4_mul_by_element xPow a), anyReg, true, next)
  | OfExt (Constant a _) => Ok (resReg, e4_add resCon (e4_mul a xPow), anyReg, true, next)
  | OfBase (Regular w) => r ← vec_MulAccByElement resReg w xPow; Ok (r, resCon, true, anyCon, next)
  | OfExt (Regular w) => r ← accumulate length resReg w xPow; Ok (r, resCon, true, anyCon, next)
  | OfExt (Rotated w o) =>
      w ← rotatedAsRegular w o; r ← accumulate length resReg w xPow; Ok (r, resCon, true, anyCon, next)
  | OfBase (PaddedCircularWindow _ _ _ _ as pcw) =>
      w ← WriteInSlice pcw (replicate (Z.to_nat length) el_zero);
      r ← vec_MulAccByElement resReg w xPow; Ok (r, resCon, true, anyCon, next)
  | OfExt (PaddedCircularWindow _ _ _ _ as pcw) =>
      w ← WriteInSliceSame pcw (zeros length); r ← accumulate length resReg w xPow; Ok (r, resCon, true, anyCon, next)
  | OfBase (Rotated _ _) => Panic
  end.

Definition LinearCombinationExt (vecs : list SmartVector) (x : E4 F) : res (vec (E4 F)) :=
  v0 ← idx vecs 0;
  let length := sv_Len v0 in
  if length <? 0 then Panic else
  st ← foldM (comb_ext_step length x) (zeros length, Zero, false, false, One) vecs;
  finish_combination length st.

Definition comb_mixed_step (length : Z) (x : E4 F) (st : comb_state (E4 F)) (v : SmartVector) : res (comb_state (E4 F)) :=
  let '(resReg, resCon, anyReg, anyCon, xPow) := st in
  let next := e4_mul x xPow in
  match v with
  | OfBase (Constant a _) => Ok (resReg, e4_add resCon (e4_mul_by_element xPow a), anyReg, true, next)
  | OfBase (Regular w) => r ← vec_MulAccByElement resReg w xPow; Ok (r, resCon, true, anyCon, next)
  | OfBase (Rotated w o) =>
      w ← rotatedAsRegular w o; r ← vec_MulAccByElement resReg w xPow; Ok (r, resCon, true, anyCon, next)
  | OfBase (PaddedCircularWindow _ _ _ _ as pcw) =>
      w ← WriteInSlice pcw (replicate (Z.to_nat length) el_zero);
      r ← vec_MulAccByElement resReg w xPow; Ok (r, resCon, true, anyCon, next)
  | OfExt _ => Panic
  end.

Definition LinearCombinationMixed (vecs : list SmartVector) (x : E4 F) : res (vec (E4 F)) :=
  v0 ← idx vecs 0;
  let length := sv_Len v0 in
  if length <? 0 then Panic else
  st ← foldM (comb_mixed_step length x) (zeros length, Zero, false, false, One) vecs;
  finish_combination length st.
End mixed.
Arguments MulAcc F : clear implicits.
Arguments MulAccLaws F {_ _ _}.
End SmartVectorOps.
