(* ===== verification/OperatorFacts.v ===== *)
(** * The laws of the operators

    [OperatorLaws] is what the processing of smart vectors relies on: an operator
    accumulates terms in a commutative monoid, position by position. The four
    implementations meet it; the exponents of a product are not negative. *)

From S2P Require Export SmartVectorOps Vectors.
From Stdlib Require Import Ring_theory Ring.
Import Utils Fext CircularInterval SmartVector SmartVectorOps VectorsFacts.

Module OperatorFacts.

Class OperatorLaws {A} `{Scalar A} (op : operator A) (unit : A) (plus : A → A → A) (term : A → Z → A) (ok : Z → Prop) : Prop := {
  op_assoc x y z : plus x (plus y z) = plus (plus x y) z;
  op_comm x y : plus x y = plus y x;
  op_unit x : plus unit x = x;
  op_constIntoConst r x c : ok c → constIntoConst r x c = plus r (term x c);
  op_constIntoTerm x c : ok c → constIntoTerm x c = term x c;
  op_constTermIntoConst r t : constTermIntoConst r t = plus r t;
  op_vecIntoVec r x c : ok c → length x = length r →
    vecIntoVec r x c = Ok (zip_with (λ a b, plus a (term b c)) r x);
  op_constIntoVec r x c : ok c → constIntoVec r x c = Ok ((λ a, plus a (term x c)) <$> r);
  op_vecIntoTerm t x c : ok c → length x = length t → vecIntoTerm t x c = Ok ((λ b, term b c) <$> x);
  op_vecTermIntoVec r t : length t = length r → vecTermIntoVec r t = Ok (zip_with plus r t);
  op_constTermIntoVec r t : constTermIntoVec r t = Ok ((λ a, plus a t) <$> r);
  op_absorb : isProductOp = true → ∀ x, plus sc_zero x = sc_zero
}.

Section lists.
Context {A : Type}.
Implicit Types (r x t : list A).

Lemma zip_with_eq (f g : A → A → A) r x : (∀ a b, f a b = g a b) → zip_with f r x = zip_with g r x.
Proof. intros E. revert x. induction r as [|a r IH]; intros [|b x]; simpl; [done..|]. by rewrite E, IH. Qed.

Lemma zip_with_const (g : A → A) t x : length x = length t → zip_with (λ _ b, g b) t x = g <$> x.
Proof. revert x. induction t as [|a t IH]; intros [|b x] L; simplify_eq/=; [done|]. by rewrite IH. Qed.

Lemma zip_with_twice (f g : A → A → A) r x : zip_with f (zip_with g r x) x = zip_with (λ a b, f (g a b) b) r x.
Proof. revert x. induction r as [|a r IH]; intros [|b x]; simpl; [done..|]. by rewrite IH. Qed.

Lemma zip_with_self (f : A → A → A) x : zip_with f x x = (λ b, f b b) <$> x.
Proof. induction x as [|a x IH]; simpl; [done|]. by rewrite IH. Qed.

Lemma zip_with_left r x : length x = length r → zip_with (λ a _ : A, a) r x = r.
Proof. revert x. induction r as [|a r IH]; intros [|b x] L; simplify_eq/=; [done|]. by rewrite IH. Qed.

Lemma each_spec f r x : length x = length r → each f r x = Ok (zip_with f r x).
Proof. intros L. unfold each, zlen. rewrite L, Z.ltb_irrefl. done. Qed.

Lemma copy_same t x : length x = length t → Vectors.copy t x = x.
Proof. intros L. unfold Vectors.copy. rewrite <-L, firstn_all, L, drop_all. apply app_nil_r. Qed.

Lemma assertHasLength_same (m : Z) : assertHasLength m m = Ok ().
Proof. unfold assertHasLength. by rewrite Z.eqb_refl. Qed.
End lists.

Section operators.
Context `{ScalarLaws A, !VectorOps A, !VectorLaws A}.
Implicit Types (r x t : list A).
Local Open Scope sc_scope.

Add Ring sc_ring_operators : (sc_ring (A := A)).

Lemma Add_same r x : length x = length r → Vectors.Add r r x [] = Ok (zip_with sc_add r x).
Proof.
  intros L. unfold Vectors.Add, zlen. rewrite L. destruct (Z.eqb_spec (Z.of_nat (length r) + Z.of_nat (length r) + Z.of_nat (length r)) 0).
  - destruct r; [|simpl in *; lia]. by destruct x.
  - by rewrite vec_Add_spec.
Qed.

Lemma Add_twice t x : length x = length t → Vectors.Add t x x [] = Ok ((λ b, b + b) <$> x).
Proof.
  intros L. unfold Vectors.Add, zlen. rewrite L. destruct (Z.eqb_spec (Z.of_nat (length t) + Z.of_nat (length t) + Z.of_nat (length t)) 0).
  - destruct t; [|simpl in *; lia]. by destruct x.
  - rewrite vec_Add_spec by done. simpl. by rewrite zip_with_self.
Qed.

Lemma Sub_same r x : length x = length r → Vectors.Sub r r x = Ok (zip_with sc_sub r x).
Proof.
  intros L. unfold Vectors.Sub, zlen. rewrite L. destruct (Z.eqb_spec (Z.of_nat (length r) + Z.of_nat (length r) + Z.of_nat (length r)) 0).
  - destruct r; [|simpl in *; lia]. by destruct x.
  - by rewrite vec_Sub_spec.
Qed.

Lemma ScalarMul_same r (x : A) : Vectors.ScalarMul r r x = Ok ((λ a, a * x) <$> r).
Proof.
  unfold Vectors.ScalarMul, zlen. destruct (Z.eqb_spec (Z.of_nat (length r) + Z.of_nat (length r)) 0).
  - destruct r; [done|simpl in *; lia].
  - by rewrite vec_ScalarMul_spec.
Qed.

(** ** Linear combinations *)

Lemma sc_int_m1 : sc_int (-1) = - (1 : A).
Proof. change (-1)%Z with (- (1))%Z. by rewrite sc_int_opp, sc_int_1. Qed.

Lemma sc_int_m2 : sc_int (-2) = - (1 + 1 : A).
Proof. change (-2)%Z with (- (2))%Z. by rewrite sc_int_opp, sc_int_2. Qed.

Definition lin_term (x : A) (c : Z) : A := sc_int c * x.

(** The coefficients that the code treats apart, and the others. *)
Ltac coeff_cases c :=
  destruct c as [|[?|[?|?|]|]|[?|[?|?|]|]].

Ltac ints := unfold lin_term; rewrite ?sc_int_m2, ?sc_int_m1, ?sc_int_2, ?sc_int_1; ring.

Lemma lin_term_const (x : A) c : lin_constIntoTerm x c = lin_term x c.
Proof. coeff_cases c; simpl; try done; ints. Qed.

Lemma lin_acc_const (r x : A) c : lin_constIntoConst r x c = r + lin_term x c.
Proof. coeff_cases c; simpl; try done; ints. Qed.

Lemma lin_acc_vec r x c : length x = length r →
  lin_vecIntoVec r x c = Ok (zip_with (λ a b, a + lin_term b c) r x).
Proof.
  intros L. unfold lin_vecIntoVec, zlen. rewrite L, assertHasLength_same. simpl.
  coeff_cases c; rewrite ?Add_same, ?Sub_same, ?each_spec by done; try done; f_equal; apply zip_with_eq; intros; ints.
Qed.

Lemma lin_acc_vec_ext r x c : length x = length r →
  lin_vecExtIntoVecExt r x c = Ok (zip_with (λ a b, a + lin_term b c) r x).
Proof.
  intros L. unfold lin_vecExtIntoVecExt, zlen. rewrite L, assertHasLength_same. simpl.
  coeff_cases c; rewrite ?vec_Add_spec, ?vec_Sub_spec, ?each_spec by done; simpl;
    rewrite ?vec_Add_spec, ?vec_Sub_spec, ?zip_with_twice by (rewrite ?length_zip_with; lia);
    try done; f_equal; apply zip_with_eq; intros; ints.
Qed.

Lemma lin_term_vec t x c : length x = length t → lin_vecIntoTerm t x c = Ok ((λ b, lin_term b c) <$> x).
Proof.
  intros L. unfold lin_vecIntoTerm.
  assert (Ok x = Ok ((λ b, lin_term b 1) <$> x)) as E.
  { f_equal. rewrite <-(list_fmap_id x) at 1. apply list_fmap_ext. intros. unfold id. ints. }
  coeff_cases c; rewrite ?Add_twice, ?each_spec, ?copy_same, ?zip_with_const by done; try done; f_equal;
    apply list_fmap_ext; intros; ints.
Qed.

Lemma lin_term_vec_ext t x c : length x = length t → lin_vecExtIntoTermExt t x c = Ok ((λ b, lin_term b c) <$> x).
Proof.
  intros L. rewrite <-(lin_term_vec t) by done. unfold lin_vecExtIntoTermExt, lin_vecIntoTerm.
  coeff_cases c; rewrite ?Add_twice, ?vec_Add_spec, ?zip_with_self by done; done.
Qed.

#[export] Instance linCombOp_laws : OperatorLaws linCombOp 0 sc_add lin_term (λ _, True).
Proof.
  split; simpl; intros; try (ring || done || apply lin_acc_const || apply lin_term_const).
  - by apply lin_acc_vec.
  - unfold lin_constIntoVec, lin_constTermIntoVec. by rewrite lin_term_const.
  - by apply lin_term_vec.
  - by apply Add_same.
Qed.

#[export] Instance linCombOpExt_laws : OperatorLaws linCombOpExt 0 sc_add lin_term (λ _, True).
Proof.
  split; simpl; intros; try (ring || done || apply lin_acc_const || apply lin_term_const).
  - by apply lin_acc_vec_ext.
  - unfold lin_constIntoVec, lin_constTermIntoVec. by rewrite lin_term_const.
  - by apply lin_term_vec_ext.
  - unfold lin_vecTermExtIntoVecExt. by rewrite vec_Add_spec.
Qed.

(** ** Products *)

Definition exponent (c : Z) : Prop := (0 ≤ c < 2 ^ 63)%Z.

Lemma sc_exp_2 (x : A) : sc_exp x 2 = x * x.
Proof. change 2%Z with (Z.succ 1). rewrite sc_exp_succ, sc_exp_1 by lia. done. Qed.

Lemma sc_exp_3 (x : A) : sc_exp x 3 = x * x * x.
Proof. change 3%Z with (Z.succ 2). rewrite sc_exp_succ, sc_exp_2 by lia. ring. Qed.

Ltac exps := rewrite ?sc_exp_0, ?sc_exp_1, ?sc_exp_2, ?sc_exp_3, ?sc_square_spec; ring.

(** The exponents that the code treats apart, and the others. *)
Ltac exponent_cases c :=
  destruct c as [|[[?|?|]|[?|?|]|]|?].

Lemma prod_term_const (x : A) c : prod_constIntoTerm x c = sc_exp x c.
Proof. exponent_cases c; simpl; try done; exps. Qed.

Lemma prod_acc_const (r x : A) c : prod_constIntoConst r x c = r * sc_exp x c.
Proof. exponent_cases c; simpl; try done; exps. Qed.

Lemma prod_acc_vec r x c : exponent c → length x = length r →
  prod_vecIntoVec r x c = Ok (zip_with (λ a b, a * sc_exp b c) r x).
Proof.
  intros Hc L. unfold prod_vecIntoVec, Vectors.MulElementWise, zlen. rewrite L, assertHasLength_same. simpl.
  assert (Ok r = Ok (zip_with (λ a b, a * sc_exp b 0) r x)) as E0.
  { f_equal. rewrite <-(zip_with_left r x) at 1 by done. apply zip_with_eq. intros. exps. }
  exponent_cases c; rewrite ?vec_Mul_spec, ?each_spec by done; try done; f_equal; apply zip_with_eq; intros;
    try exps; by rewrite sc_ExpToInt_spec.
Qed.

Lemma prod_acc_vec_ext r x c : exponent c → length x = length r →
  prod_vecExtIntoVecExt r x c = Ok (zip_with (λ a b, a * sc_exp b c) r x).
Proof.
  intros Hc L. rewrite <-(prod_acc_vec r x c) by done.
  unfold prod_vecExtIntoVecExt, prod_vecIntoVec, Vectors.MulElementWise, zlen. rewrite L, assertHasLength_same. simpl.
  exponent_cases c; try done.
  - rewrite each_spec, vec_Mul_spec by done. simpl. rewrite vec_Mul_spec by (rewrite ?length_zip_with; lia). simpl.
    rewrite vec_Mul_spec by (rewrite ?length_zip_with; lia). rewrite !zip_with_twice.
    f_equal. apply zip_with_eq. intros. exps.
  - rewrite each_spec, vec_Mul_spec by done. simpl. rewrite vec_Mul_spec by (rewrite ?length_zip_with; lia).
    by rewrite zip_with_twice.
Qed.

Lemma fmap_eq (f g : A → A) (l : list A) : (∀ b : A, f b = g b) → f <$> l = g <$> l.
Proof. intros E. apply list_fmap_ext. intros. apply E. Qed.

Lemma prod_term_vec t x c : length x = length t → prod_vecIntoTerm t x c = Ok ((λ b, sc_exp b c) <$> x).
Proof.
  intros L. unfold prod_vecIntoTerm, Vectors.MulElementWise.
  assert (Ok (Vectors.Fill t 1) = Ok ((λ b, sc_exp b 0) <$> x)) as E0.
  { f_equal. unfold Vectors.Fill. rewrite <-L. clear L. induction x as [|b x IH]; simpl; [done|].
    by rewrite IH, sc_exp_0. }
  assert (Ok x = Ok ((λ b, sc_exp b 1) <$> x)) as E1.
  { f_equal. rewrite <-(list_fmap_id x) at 1. apply fmap_eq. intros. unfold id. exps. }
  exponent_cases c; rewrite ?vec_Mul_spec, ?each_spec, ?copy_same, ?zip_with_const, ?zip_with_self by done;
    try done; f_equal; apply fmap_eq; intros; exps.
Qed.

#[export] Instance productOp_laws : OperatorLaws productOp 1 sc_mul sc_exp exponent.
Proof.
  split; simpl; intros; try (ring || done || apply prod_acc_const || apply prod_term_const).
  - by apply prod_acc_vec.
  - unfold prod_constIntoVec, prod_constTermIntoVec. by rewrite prod_term_const, ScalarMul_same.
  - by apply prod_term_vec.
  - unfold prod_vecTermIntoVec, Vectors.MulElementWise. by rewrite vec_Mul_spec.
  - unfold prod_constTermIntoVec. by rewrite ScalarMul_same.
Qed.

#[export] Instance productOpExt_laws : OperatorLaws productOpExt 1 sc_mul sc_exp exponent.
Proof.
  split; simpl; intros; try (ring || done || apply prod_acc_const || apply prod_term_const).
  - by apply prod_acc_vec_ext.
  - unfold prod_constExtIntoVecExt, prod_constTermExtIntoVecExt. by rewrite prod_term_const, vec_ScalarMul_spec.
  - unfold prod_vecExtIntoTermExt. rewrite vec_Exp_spec; [done|done|]. unfold exponent in *. lia.
  - unfold prod_vecTermExtIntoVecExt. by rewrite vec_Mul_spec.
  - unfold prod_constTermExtIntoVecExt. by rewrite vec_ScalarMul_spec.
Qed.
End operators.
End OperatorFacts.
