(* ===== verification/SmartVectorProcess.v ===== *)
(** * The n-ary operations compute position by position

    Whatever the representations of its operands, [processOperator] returns a smart
    vector whose element at a position is the operator applied to the elements of the
    operands at that position. The loops over the constants, the windows and the regular
    vectors are proved one after the other. *)

From S2P Require Export OperatorFacts SmartVectorFacts CircularInterval.
Import Utils Fext CircularInterval SmartVector SmartVectorOps SmartVectorFacts OperatorFacts.

Module SmartVectorProcess.

(** Loop rule for [for i, x := range l]. *)
Lemma foldM_enumerate {St B} (f : St → Z * B → res St) (P : nat → St → Prop) (l : list B) s :
  P 0%nat s →
  (∀ k x s, l !! k = Some x → P k s → ∃ s', f s (Z.of_nat k, x) = Ok s' ∧ P (S k) s') →
  ∃ s', foldM f s (enumerate l) = Ok s' ∧ P (length l) s'.
Proof.
  unfold enumerate. intros H0 Hs.
  cut (∀ m (k : list B) st, l = take m l ++ k → (m ≤ length l)%nat → P m st →
         ∃ s', foldM f st (zip (seqZ (Z.of_nat m) (zlen k)) k) = Ok s' ∧ P (length l) s').
  { intros G. by apply (G 0%nat l s); [|lia|]. }
  intros m k. revert m. induction k as [|x k IH]; intros m st El Hm Hst.
  - rewrite app_nil_r in El. exists st. split; [done|]. replace (length l) with m; [done|].
    apply (f_equal length) in El. rewrite length_take in El. lia.
  - unfold zlen. simpl length. rewrite seqZ_cons by lia. simpl.
    assert (l !! m = Some x) as Hx.
    { rewrite El, lookup_app_r, length_take by (rewrite length_take; lia). by replace (m - m `min` length l)%nat with 0%nat by lia. }
    destruct (Hs m x st Hx Hst) as (s1 & -> & H1). simpl.
    replace (Z.pred (Z.of_nat (S (length k)))) with (zlen k) by (unfold zlen; lia).
    replace (Z.succ (Z.of_nat m)) with (Z.of_nat (S m)) by lia.
    apply IH; [|by apply lookup_lt_Some in Hx|done]. rewrite (take_S_r _ _ _ Hx), <-(assoc_L (++)). done.
Qed.

Lemma idx_of_nat {B} (l : list B) (k : nat) b : l !! k = Some b → idx l (Z.of_nat k) = Ok b.
Proof. intros E. apply idx_nat; [lia|]. by rewrite Nat2Z.id. Qed.

(** ** Smart vectors of a field *)

Class KindLaws (F A : Type) `{Kind F A} : Prop := {
  as_of (x : vec A) : as_vec (of_vec x) = Some x;
  len_of (x : vec A) : sv_Len (of_vec x) = Len x;
  into_reg_spec (w : list A) pad tot o : wf (PaddedCircularWindow w pad tot o) →
    into_reg (of_vec (PaddedCircularWindow w pad tot o)) = Ok (elems (PaddedCircularWindow w pad tot o));
  kind_Get_spec (x : vec A) i : kind_Get (of_vec x) i = Get x i;
  kind_Write_spec (x : vec A) s : wf x → zlen s = Len x → kind_WriteInSlice (of_vec x) s = Ok (elems x)
}.

#[export] Instance base_KindLaws `{ElementOps F, !ExtOps F} : KindLaws F F.
Proof.
  split; simpl; try done.
  - intros w pad tot o W. unfold IntoRegVec, IsBase, GetBase.
    destruct (Get_spec (PaddedCircularWindow w pad tot o) 0 W) as (a & -> & _); [destruct W; simpl in *; lia|].
    simpl. assert (zlen (replicate (Z.to_nat tot) (el_zero : F)) = tot) as L by (apply zlen_replicate; destruct W; simpl in *; lia).
    pose proof (WriteInSlice_spec _ _ W L) as E. simpl in E. rewrite E. done.
  - intros x i. unfold sv_Get, GetBase. by destruct (Get x i).
  - apply WriteInSlice_spec.
Qed.

#[export] Instance ext_KindLaws `{ElementOps F, !ExtOps F} : KindLaws F (E4 F).
Proof.
  split; simpl; try done.
  - intros w pad tot o W. unfold IntoRegVecExt. simpl.
    assert (zlen (replicate (Z.to_nat tot) (Zero : E4 F)) = tot) as L by (apply zlen_replicate; destruct W; simpl in *; lia).
    exact (WriteInSliceSame_spec _ _ W L).
  - apply WriteInSliceSame_spec.
Qed.

(** ** Sub-slices *)

Lemma in_slice_spec {A} (l : list A) (a b : Z) f s' : (0 ≤ a ≤ b)%Z → (b ≤ zlen l)%Z →
  (∀ s, slice l a b = Ok s → f s = Ok s' ∧ zlen s' = (b - a)%Z) →
  ∃ r, in_slice l a b f = Ok r ∧ zlen r = zlen l ∧
    ∀ i, (0 ≤ i < zlen l)%Z → r !! Z.to_nat i = if decide (a ≤ i < b)%Z then s' !! Z.to_nat (i - a) else l !! Z.to_nat i.
Proof.
  intros Ha Hb Hf. unfold in_slice. destruct (slice_exists l a b Ha Hb) as [s Es]. rewrite Es. simpl.
  destruct (Hf s Es) as [-> L]. simpl. eexists. split; [done|]. unfold zlen in *. split.
  { rewrite !length_app, length_take, length_drop. lia. }
  intros i Hi. case_decide.
  - rewrite lookup_app_r, lookup_app_l by (rewrite ?length_take; lia). f_equal. rewrite length_take. lia.
  - destruct (decide (i < a)%Z).
    + rewrite lookup_app_l by (rewrite length_take; lia). apply lookup_take_lt. lia.
    + rewrite !lookup_app_r by (rewrite ?length_take; lia). rewrite lookup_drop, length_take. f_equal. lia.
Qed.

(** The three parts of a slice: a window in the middle and the two ends. *)
Lemma three_parts {A} (u w : list A) (o : Z) fm fp (h : A → A → A) (hp : A → A) :
  (∀ s, length w = length s → fm s = Ok (zip_with h s w)) → (∀ s, fp s = Ok (hp <$> s)) →
  (0 ≤ o)%Z → (o + zlen w ≤ zlen u)%Z →
  ∃ u', (u ← in_slice u o (o + zlen w) fm; u ← in_slice u 0 o fp; in_slice u (o + zlen w) (zlen u) fp) = Ok u' ∧
    zlen u' = zlen u ∧ ∀ j a, (0 ≤ j)%Z → u !! Z.to_nat j = Some a →
      u' !! Z.to_nat j = if decide (o ≤ j < o + zlen w)%Z then h a <$> w !! Z.to_nat (j - o) else Some (hp a).
Proof.
  intros Hm Hp Ho Hw. pose proof (zlen_nonneg w). destruct (slice_exists u o (o + zlen w)) as [s Es]; [lia..|].
  pose proof (zlen_slice _ _ _ _ Es) as Ls.
  destruct (in_slice_spec u o (o + zlen w) fm (zip_with h s w)) as (u1 & -> & L1 & U1); [lia..| |].
  { intros s1 E1. assert (s1 = s) as -> by congruence. unfold zlen in *. split; [apply Hm; lia|]. rewrite length_zip_with. lia. }
  simpl. destruct (slice_exists u1 0 o) as [s1 Es1]; [lia..|]. pose proof (zlen_slice _ _ _ _ Es1) as Ls1.
  destruct (in_slice_spec u1 0 o fp (hp <$> s1)) as (u2 & -> & L2 & U2); [lia..| |].
  { intros s' E'. assert (s' = s1) as -> by congruence. split; [apply Hp|]. unfold zlen in *. rewrite length_fmap. lia. }
  simpl. destruct (slice_exists u2 (o + zlen w) (zlen u2)) as [s2 Es2]; [lia..|]. pose proof (zlen_slice _ _ _ _ Es2) as Ls2.
  destruct (in_slice_spec u2 (o + zlen w) (zlen u2) fp (hp <$> s2)) as (u3 & -> & L3 & U3); [lia..| |].
  { intros s' E'. assert (s' = s2) as -> by congruence. split; [apply Hp|]. unfold zlen in *. rewrite length_fmap. lia. }
  exists u3. split; [done|]. split; [lia|]. intros j a Hj Ha. pose proof (lookup_lt_Some _ _ _ Ha) as B.
  assert (j < zlen u)%Z as Bj by (unfold zlen; lia). rewrite U3 by lia.
  destruct (decide (o ≤ j < o + zlen w)%Z) as [D|D].
  - rewrite decide_False, U2, decide_False, U1, decide_True by lia. rewrite lookup_zip_with.
    rewrite (lookup_slice _ _ _ _ _ Es) by lia. replace (o + (j - o))%Z with j by lia. rewrite Ha. simpl.
    by destruct (w !! Z.to_nat (j - o)).
  - destruct (decide (j < o)%Z).
    + rewrite decide_False, U2, decide_True by lia. rewrite list_lookup_fmap, (lookup_slice _ _ _ _ _ Es1) by lia.
      rewrite U1, decide_False by lia. replace (0 + (j - 0))%Z with j by lia. by rewrite Ha.
    + rewrite decide_True by lia. rewrite list_lookup_fmap, (lookup_slice _ _ _ _ _ Es2) by lia.
      replace (o + zlen w + (j - (o + zlen w)))%Z with j by lia. rewrite U2, decide_False, U1, decide_False by lia. by rewrite Ha.
Qed.

Section process.
Context `{ElementOps F, !ExtOps F, !Scalar A, !Kind F A, !KindLaws F A, !SortByStart, !SortByStartLaws}.
Context (op : operator A) (unit : A) (plus : A → A → A) (term : A → Z → A) (ok : Z → Prop).
Context `{!OperatorLaws op unit plus term ok}.
Implicit Types (v x y : vec A) (c i j : Z) (l : list (vec A * Z)).

(** ** The specification *)

Definition big (l : list A) : A := foldr plus unit l.

(** The terms of the operands at a position. *)
Definition term_at i (p : vec A * Z) : A := term (default sc_zero (elem_at p.1 i)) p.2.
Definition total l i : A := big (term_at i <$> l).

Lemma plus_unit_l (a : A) : plus unit a = a.
Proof. apply op_unit. Qed.

Lemma plus_comm (a b : A) : plus a b = plus b a.
Proof. apply op_comm. Qed.

Lemma plus_assoc (a b c' : A) : plus a (plus b c') = plus (plus a b) c'.
Proof. apply op_assoc. Qed.

Lemma plus_unit_r (a : A) : plus a unit = a.
Proof. by rewrite plus_comm, plus_unit_l. Qed.

Lemma big_app (k k' : list A) : big (k ++ k') = plus (big k) (big k').
Proof. induction k as [|a k IH]; simpl; [by rewrite plus_unit_l|]. by rewrite IH, plus_assoc. Qed.

Lemma total_nil i : total [] i = unit.
Proof. done. Qed.

Lemma total_snoc l p i : total (l ++ [p]) i = plus (total l i) (term_at i p).
Proof. unfold total. rewrite fmap_app, big_app. simpl. by rewrite plus_unit_r. Qed.

Lemma total_one p i : total [p] i = term_at i p.
Proof. unfold total. simpl. apply plus_unit_r. Qed.

Definition is_const (p : vec A * Z) : bool := match p.1 with Constant _ _ => true | _ => false end.
Definition is_window (p : vec A * Z) : bool := match p.1 with PaddedCircularWindow _ _ _ _ => true | _ => false end.
Definition is_reg (p : vec A * Z) : bool := match p.1 with Regular _ | Rotated _ _ => true | _ => false end.

Definition consts l := filter is_const l.
Definition wins l := filter is_window l.
Definition regs l := filter is_reg l.

Lemma total_perm l k i : l ≡ₚ k → total l i = total k i.
Proof.
  unfold total, big. induction 1 as [|p l k _ IH|p q l|l k m _ IH1 _ IH2]; rewrite ?fmap_cons; cbn [foldr]; [done|by rewrite IH| |congruence].
  by rewrite !plus_assoc, (plus_comm (term_at i q)).
Qed.

Lemma groups l : l ≡ₚ consts l ++ wins l ++ regs l.
Proof.
  induction l as [|[x c] l IH]; [done|]. unfold consts, wins, regs in *. rewrite !filter_cons.
  destruct x; simpl; [by constructor| | |].
  1,2: rewrite (assoc_L (++)), <-Permutation_middle, <-(assoc_L (++)); by constructor.
  rewrite <-Permutation_middle. by constructor.
Qed.

(** The three groups make up the operation. *)
Lemma total_split l i : total l i = plus (total (consts l) i) (plus (total (wins l) i) (total (regs l) i)).
Proof. rewrite (total_perm _ _ i (groups l)). unfold total. by rewrite !fmap_app, !big_app. Qed.

Lemma groups_length l : (length (consts l) + length (wins l) + length (regs l) = length l)%nat.
Proof. rewrite (groups l) at 4. rewrite !length_app. lia. Qed.

(** ** The operands *)

Definition svecs_of l : list (SmartVector.t F) := (λ p, of_vec p.1) <$> l.
Definition coeffs_of l : list Z := snd <$> l.

Definition operand (n : Z) (p : vec A * Z) : Prop := wf p.1 ∧ Len p.1 = n ∧ ok p.2.

Lemma svecs_lookup l k s : svecs_of l !! k = Some s → ∃ p, l !! k = Some p ∧ s = of_vec p.1.
Proof. unfold svecs_of. rewrite list_lookup_fmap. intros (p & Ep & ->)%fmap_Some. by exists p. Qed.

Lemma coeff_idx l k p : l !! k = Some p → idx (coeffs_of l) (Z.of_nat k) = Ok p.2.
Proof. intros E. apply idx_of_nat. unfold coeffs_of. by rewrite list_lookup_fmap, E. Qed.

Lemma length_svecs l : length (svecs_of l) = length l.
Proof. apply length_fmap. Qed.

Lemma first_len n l : Forall (operand n) l → l ≠ [] → ∃ s0, idx (svecs_of l) 0 = Ok s0 ∧ sv_Len s0 = n.
Proof.
  intros Hl Hne. destruct l as [|p l]; [done|]. exists (of_vec p.1). split; [done|].
  rewrite len_of. apply Forall_cons_1 in Hl as [(_ & ? & _) _]. done.
Qed.

(** A loop over the operands that treats one group. *)
Lemma take_filter (f : vec A * Z → bool) l k p : l !! k = Some p →
  filter f (take (S k) l) = filter f (take k l) ++ (if f p then [p] else []).
Proof. intros E. rewrite (take_S_r _ _ _ E), filter_app, filter_cons. by destruct (f p). Qed.

(** ** Constants *)

Lemma const_term p i j : is_const p = true → term_at i p = term_at j p.
Proof. destruct p as [[] c]; done. Qed.

Definition const_inv l (k : nat) (st : A * Z) : Prop :=
  st.2 = zlen (consts (take k l)) ∧ (consts (take k l) ≠ [] → ∀ i, st.1 = total (consts (take k l)) i).

Lemma const_step_spec n l k s st : Forall (operand n) l → svecs_of l !! k = Some s → const_inv l k st →
  ∃ st', const_step op (coeffs_of l) st (Z.of_nat k, s) = Ok st' ∧ const_inv l (S k) st'.
Proof.
  intros Hl (p & Ep & ->)%svecs_lookup [Hm Hv]. destruct st as [val m]. simpl in Hm, Hv.
  assert (operand n p) as (_ & _ & Hok) by (by eapply Forall_lookup_1). unfold const_inv, consts in *.
  rewrite (take_filter _ _ _ _ Ep). unfold const_step. simpl. rewrite as_of. destruct p as [[a len| | |] c]; simpl;
    try (rewrite app_nil_r; by exists (val, m)).
  rewrite (coeff_idx l k _ Ep). simpl in *. destruct (filter is_const (take k l)) as [|q qs] eqn:Eq.
  - simpl in Hm. subst m. simpl. eexists. split; [done|]. split; [done|]. intros _ i. simpl.
    rewrite total_one. unfold term_at. simpl. by rewrite op_constIntoTerm.
  - destruct (Z.ltb_spec m 1) as [L|_]; [unfold zlen in Hm; simpl in Hm; lia|]. eexists. split; [done|]. simpl. split.
    + rewrite Hm, app_comm_cons, zlen_app. done.
    + intros _ i. rewrite app_comm_cons, total_snoc, <-Hv by done. unfold term_at. simpl. by rewrite op_constIntoConst.
Qed.

Lemma processConstOnly_spec n l : Forall (operand n) l → l ≠ [] →
  ∃ val, processConstOnly op (svecs_of l) (coeffs_of l) =
      Ok (if decide (consts l = []) then None else Some (val, n), zlen (consts l)) ∧
    (consts l ≠ [] → ∀ i, val = total (consts l) i).
Proof.
  intros Hl Hne. unfold processConstOnly.
  destruct (foldM_enumerate (const_step op (coeffs_of l)) (const_inv l) (svecs_of l) (sc_zero, 0)) as ([val m] & -> & Hm & Hv).
  - by split.
  - intros k s st Hs Hst. by apply (const_step_spec n).
  - rewrite length_svecs, firstn_all in Hm, Hv. simpl in *. exists val. split; [|done].
    destruct (first_len n l Hl Hne) as (s0 & -> & L0). simpl. rewrite L0. subst m.
    by destruct (consts l).
Qed.

(** ** Windows *)

Definition win_of v : list A * A := match v with PaddedCircularWindow w pad _ _ => (w, pad) | _ => ([], sc_zero) end.
Definition ival_of v : CircularInterval.t :=
  match v with PaddedCircularWindow w _ tot o => mk tot o (zlen w) | _ => mk 0 0 0 end.

Lemma interval_spec (w : list A) pad tot o : wf (PaddedCircularWindow w pad tot o) →
  interval (PaddedCircularWindow w pad tot o) = Ok (mk tot o (zlen w)) ∧ IntervalCover.ok tot (mk tot o (zlen w)).
Proof.
  intros [Hl W]. simpl in *. unfold IvalWithStartLen. split.
  - destruct (Z.eqb_spec (zlen w) 0), (Z.ltb_spec o 0), (Z.leb_spec tot o), (Z.leb_spec tot (zlen w)); try lia. done.
  - split; [|done]. unfold CircularInterval.wf. simpl. lia.
Qed.

Definition gathered l : list (list A * A) * list CircularInterval.t * list Z :=
  ((λ p, win_of p.1) <$> wins l, (λ p, ival_of p.1) <$> wins l, snd <$> wins l).

Lemma gather_spec n l : Forall (operand n) l →
  foldM (gather_step n (coeffs_of l)) ([], [], []) (enumerate (svecs_of l)) = Ok (gathered l).
Proof.
  intros Hl. destruct (foldM_enumerate (gather_step n (coeffs_of l)) (λ k st, st = gathered (take k l)) (svecs_of l) ([], [], []))
    as (st & -> & ->).
  - done.
  - intros k s st (p & Ep & ->)%svecs_lookup ->. assert (operand n p) as (W & L & _) by (by eapply Forall_lookup_1).
    unfold gathered, wins. rewrite (take_filter _ _ _ _ Ep). unfold gather_step. cbn [fst snd]. rewrite as_of.
    destruct p as [[| | |w pad tot o] c]; simpl; try (rewrite app_nil_r; eauto; fail). simpl in W, L.
    destruct (interval_spec _ _ _ _ W) as [E _]. simpl in E. rewrite E. simpl. rewrite (coeff_idx l k _ Ep). simpl.
    rewrite len_of. simpl. rewrite L, assertHasLength_same. simpl. eexists. split; [done|]. by rewrite !fmap_app.
  - by rewrite length_svecs, firstn_all.
Qed.

(** The place of a window in an interval [d] that contains it. *)
Lemma window_placed n d (w : list A) pad o : wf (PaddedCircularWindow w pad n o) → IntervalCover.ok n d → IntervalLen d < n →
  (∀ q, has (mk n o (zlen w)) q → has d q) →
  ∃ b e, 0 ≤ b ∧ b + zlen w ≤ IntervalLen d ∧ normalize o (istart d) n = Ok b ∧
    Stop (mk n o (zlen w)) = Ok e ∧ normalize e (istart d) n = Ok (b + zlen w) ∧
    ∀ j, 0 ≤ j < IntervalLen d → elem_at (PaddedCircularWindow w pad n o) ((istart d + j) mod n) =
      Some (if decide (b ≤ j < b + zlen w) then default pad (w !! Z.to_nat (j - b)) else pad).
Proof.
  intros W [Wd Ed] Fd I. destruct (interval_spec _ _ _ _ W) as [_ [Wc _]]. destruct W as [Hl W]. simpl in *.
  destruct (inclusion _ d Wc Wd ltac:(done) ltac:(lia) I) as (b & B0 & B1 & Bo). simpl in B1, Bo. rewrite Ed in Bo.
  exists b, (CircularInterval.stop (mk n o (zlen w))). destruct Wd as (D1 & D2 & D3). rewrite Ed in *.
  split; [done|]. split; [done|]. rewrite Stop_spec by done. unfold normalize, CircularInterval.stop. simpl.
  split; [rewrite PositiveMod_near by lia; case_decide; f_equal; lia|]. split; [done|]. split.
  { rewrite PositiveMod_near by (repeat case_decide; lia). repeat case_decide; f_equal; lia. }
  intros j Hj. f_equal. replace (((istart d + j) mod n - o) mod n) with ((j - b) mod n).
  - rewrite mod_near by lia. destruct (decide (j - b < 0)).
    + rewrite decide_False by lia. apply window_default. lia.
    + case_decide; [done|]. apply window_default. lia.
  - rewrite Zminus_mod_idemp_l. destruct Bo as [->|Bo]; [f_equal; lia|].
    replace (istart d + j - o) with (j - b + 1 * n) by lia. by rewrite Z.mod_add by lia.
Qed.

Definition pads l : A := big ((λ p, term (win_of p.1).2 p.2) <$> l).

Lemma pads_snoc l p : pads (l ++ [p]) = plus (pads l) (term (win_of p.1).2 p.2).
Proof. unfold pads. rewrite fmap_app, big_app. simpl. by rewrite plus_unit_r. Qed.

Lemma pads_one p : pads [p] = term (win_of p.1).2 p.2.
Proof. apply plus_unit_r. Qed.

Lemma Fill_fmap (u : list A) (a : A) : Vectors.Fill u a = (λ _, a) <$> u.
Proof. unfold Vectors.Fill. induction u as [|b u IH]; simpl; [done|]. by rewrite IH. Qed.

(** The state of the main loop after [k] windows of [ws], all inside [d]. *)
Definition window_inv n d (ws : list (vec A * Z)) (k : nat) (st : bool * list A * A) : Prop :=
  let '(isFirst, u, padded) := st in
  isFirst = bool_decide (k = 0%nat) ∧ zlen u = IntervalLen d ∧
  (k ≠ 0%nat → padded = pads (take k ws) ∧
    ∀ j, 0 ≤ j < IntervalLen d → u !! Z.to_nat j = Some (total (take k ws) ((istart d + j) mod n))).

Definition inside n d (p : vec A * Z) : Prop :=
  operand n p ∧ is_window p = true ∧ ∀ q, has (ival_of p.1) q → has d q.

Lemma window_step_spec n d ws k wp st : IntervalCover.ok n d → IntervalLen d < n → Forall (inside n d) ws →
  ((λ p, win_of p.1) <$> ws) !! k = Some wp → window_inv n d ws k st →
  ∃ st', window_step op n (Start d) ((λ p, ival_of p.1) <$> ws) (snd <$> ws) st (Z.of_nat k, wp) = Ok st' ∧
    window_inv n d ws (S k) st'.
Proof.
  intros Hd Fd Hws Ek Hst. rewrite list_lookup_fmap in Ek. apply fmap_Some in Ek as (p & Ep & ->).
  assert (inside n d p) as ((W & Ln & Hok) & Hw & I) by (by eapply Forall_lookup_1).
  destruct st as [[first u] padded]. destruct Hst as (-> & Lu & Hu).
  unfold window_step. rewrite (idx_of_nat _ k (ival_of p.1)) by (by rewrite list_lookup_fmap, Ep).
  rewrite (idx_of_nat _ k p.2) by (by rewrite list_lookup_fmap, Ep).
  pose proof (take_S_r _ _ _ Ep) as ET. clear Ep.
  destruct p as [[| | |w pad tot o] c]; try done. simpl in Ln. subst tot. simpl in Hok. cbn [fst snd ival_of win_of] in *.
  destruct (window_placed n d w pad o W Hd Fd I) as (b & e & B0 & B1 & E1 & E2 & E3 & El). simpl.
  unfold Start in *. simpl. rewrite E1. simpl. rewrite E2. simpl. rewrite E3. simpl. assert (0 < zlen w) as Zw by (destruct W as [_ W]; simpl in W; lia).
  rewrite (proj2 (Z.eqb_neq (b + zlen w) 0)), (proj2 (Z.eqb_eq (b + zlen w - b) (zlen w))) by lia.
  assert (∀ j, 0 ≤ j < IntervalLen d → term_at ((istart d + j) mod n) (PaddedCircularWindow w pad n o, c) =
    term (if decide (b ≤ j < b + zlen w) then default pad (w !! Z.to_nat (j - b)) else pad) c) as Et.
  { intros j Hj. unfold term_at. simpl fst. by rewrite El. }
  assert (∀ j, b ≤ j < b + zlen w → ∃ z, w !! Z.to_nat (j - b) = Some z) as Hy.
  { intros j Hj. apply lookup_lt_is_Some_2. unfold zlen in Hj. lia. }
  destruct k as [|k]; simpl.
  - destruct (three_parts u w b (λ s, vecIntoTerm s w c) (λ s, Ok (Vectors.Fill s (constIntoTerm pad c)))
      (λ _ z, term z c) (λ _, term pad c)) as (u' & Eu & L' & U'); [| |lia|lia|].
    { intros s Ls. by rewrite op_vecIntoTerm, zip_with_const. }
    { intros s. by rewrite Fill_fmap, op_constIntoTerm. }
    apply res_bind_Ok in Eu as (u1 & -> & Eu). apply res_bind_Ok in Eu as (u2 & Eu2 & Eu3). simpl. rewrite Eu2. simpl. rewrite Eu3.
    eexists. split; [done|]. split; [done|]. split; [lia|]. intros _. rewrite ET. simpl. split; [by rewrite pads_one, op_constIntoTerm|].
    intros j Hj. rewrite total_one, Et by done. destruct (lookup_lt_is_Some_2 u (Z.to_nat j)) as [a Ha]; [unfold zlen in *; lia|].
    rewrite (U' j a) by (done || lia). case_decide; [|done]. destruct (Hy j) as [z ->]; done.
  - destruct (Hu ltac:(done)) as [-> Hj]. clear Hu.
    destruct (three_parts u w b (λ s, vecIntoVec s w c) (λ s, constIntoVec s pad c)
      (λ a z, plus a (term z c)) (λ a, plus a (term pad c))) as (u' & Eu & L' & U'); [| |lia|lia|].
    { intros s Ls. by rewrite op_vecIntoVec. }
    { intros s. by rewrite op_constIntoVec. }
    apply res_bind_Ok in Eu as (u1 & -> & Eu). apply res_bind_Ok in Eu as (u2 & Eu2 & Eu3). simpl. rewrite Eu2. simpl. rewrite Eu3.
    eexists. split; [done|]. split; [done|]. split; [lia|]. intros _. rewrite ET. split; [by rewrite pads_snoc, op_constIntoConst|].
    intros j Hj'. rewrite total_snoc, Et by done. rewrite (U' j _ ltac:(lia) (Hj j Hj')).
    case_decide; [|done]. destruct (Hy j) as [z ->]; done.
Qed.

(** The slice after its windows have become regular vectors. *)
Definition regularize (p : vec A * Z) : vec A * Z := if is_window p then (Regular (elems p.1), p.2) else p.

(** The vectors of two lists of operands have the same elements. *)
Definition same_operand (p q : vec A * Z) : Prop := same_vec p.1 q.1 ∧ q.2 = p.2.

Lemma regularize_same n p : operand n p → same_operand p (regularize p).
Proof.
  intros (W & L & _). unfold regularize. destruct (is_window p); [|by split]. split; [|done]. simpl.
  split; [split; [simpl; rewrite zlen_elems by done; apply W|done]|]. split; [simpl; by rewrite zlen_elems|].
  intros i Hi. simpl. by rewrite elems_lookup.
Qed.

Lemma same_operand_operand n p q : operand n p → same_operand p q → operand n q.
Proof. intros (W & L & Hok) [(W' & L' & _) E]. split; [done|]. rewrite E. split; [by rewrite L'|done]. Qed.

Lemma same_total n l l' i : Forall (operand n) l → Forall2 same_operand l l' → 0 ≤ i < n → total l' i = total l i.
Proof.
  intros Hl HF Hi. induction HF as [|p q l l' [(_ & L & E) Ec] _ IH]; [done|]. apply Forall_cons_1 in Hl as [(_ & Lp & _) Hl].
  unfold total, big in *. rewrite !fmap_cons. cbn [foldr]. rewrite IH by done. f_equal. unfold term_at.
  by rewrite E, Ec by lia.
Qed.

Lemma same_operands n l l' : Forall (operand n) l → Forall2 same_operand l l' → Forall (operand n) l'.
Proof.
  intros Hl HF. induction HF as [|p q l l' Hpq _ IH]; [done|]. apply Forall_cons_1 in Hl as [Hp Hl].
  constructor; [by eapply same_operand_operand|auto].
Qed.

Lemma same_coeffs l l' : Forall2 same_operand l l' → coeffs_of l' = coeffs_of l.
Proof. induction 1 as [|p q l l' [_ E] _ IH]; [done|]. unfold coeffs_of in *. rewrite !fmap_cons. congruence. Qed.

Lemma windows_into_regular_spec n l : Forall (operand n) l →
  windows_into_regular (svecs_of l) = Ok (svecs_of (regularize <$> l)).
Proof.
  induction l as [|p l IH]; [done|]. intros [Hp Hl]%Forall_cons_1. unfold svecs_of, windows_into_regular in *.
  rewrite !fmap_cons. cbn [mapR]. rewrite as_of. specialize (IH Hl). destruct p as [[| | |w pad tot o] c]; cbn [fst]; rewrite IH; try done.
  destruct Hp as (W & _ & _). simpl in W. rewrite into_reg_spec by done. simpl.
  unfold NewRegular, assertStrictPositiveLen. rewrite zlen_elems by done. destruct W as [Hlen W]. simpl in *.
  destruct (Z.eqb_spec tot 0), (Z.leb_spec tot 0); try lia. done.
Qed.

Lemma regularized l : wins (regularize <$> l) = [] ∧ consts (regularize <$> l) = consts l.
Proof.
  unfold wins, consts. induction l as [|[x c] l [IH1 IH2]]; [done|]. rewrite fmap_cons, !filter_cons, IH1, IH2. by destruct x.
Qed.

Lemma has_mod n (d : CircularInterval.t) i : IntervalCover.ok n d → 0 ≤ i < n → has d i ↔ (i - istart d) mod n < IntervalLen d.
Proof.
  intros [(D1 & D2 & D3) E] Hi. rewrite E in *. rewrite mod_near by lia. unfold has. rewrite E. case_decide; lia.
Qed.

Lemma outside_pads n d ws i : IntervalCover.ok n d → Forall (inside n d) ws → 0 ≤ i < n → ¬ has d i → total ws i = pads ws.
Proof.
  intros Hd Hws Hi Ho. induction ws as [|p ws IH]; [done|]. apply Forall_cons_1 in Hws as [((W & L & _) & Hw & I) Hws].
  unfold total, pads, big in *. rewrite !fmap_cons. cbn [foldr]. rewrite IH by done. f_equal. unfold term_at. f_equal.
  destruct p as [[| | |w pad tot o] c]; try done. simpl in *. subst tot. apply window_default.
  destruct (interval_spec _ _ _ _ W) as [_ Hc]. destruct (decide (zlen w ≤ (i - o) mod n)) as [|G]; [done|].
  destruct Ho. apply I. apply (has_mod n); [done..|]. simpl. lia.
Qed.

(** What the windows amount to: a window, or nothing when there is none left. *)
Definition window_result n l (r : option (vec A)) : Prop :=
  match r with
  | None => wins l = []
  | Some y => wins l ≠ [] ∧ (∃ w pad o, y = PaddedCircularWindow w pad n o) ∧ wf y ∧
              ∀ i, 0 ≤ i < n → elem_at y i = Some (total (wins l) i)
  end.

Lemma wins_inside n d l : Forall (operand n) l →
  (∀ q, IntervalCover.covered ((λ p, ival_of p.1) <$> wins l) q → has d q) → Forall (inside n d) (wins l).
Proof.
  intros Hl C. apply Forall_forall. intros p Hp. pose proof Hp as Hp'. unfold wins in Hp'.
  apply list_elem_of_filter in Hp' as [Hw Hin]. rewrite Forall_forall in Hl.
  split; [by apply Hl|]. split; [by destruct (is_window p)|]. intros q Hq. apply C. eexists. split; [|exact Hq].
  apply list_elem_of_fmap. eauto.
Qed.

Lemma wins_ok n l : Forall (operand n) l → Forall (IntervalCover.ok n) ((λ p, ival_of p.1) <$> wins l).
Proof.
  intros Hl. apply Forall_fmap, Forall_forall. intros p [Hw Hin]%list_elem_of_filter. rewrite Forall_forall in Hl.
  destruct (Hl p Hin) as (W & L & _). destruct p as [[| | |w pad tot o] c]; try done. simpl in *. subst tot.
  by apply (interval_spec w pad n o).
Qed.

Lemma union_window n d ws u padded : IntervalCover.ok n d → IntervalLen d < n → n < 2 ^ 61 → Forall (inside n d) ws → ws ≠ [] →
  window_inv n d ws (length ws) (false, u, padded) →
  ∃ y, NewPaddedCircularWindow u padded (istart d) n = Ok y ∧ (∃ w pad o, y = PaddedCircularWindow w pad n o) ∧
    wf y ∧ ∀ i, 0 ≤ i < n → elem_at y i = Some (total ws i).
Proof.
  intros Hd Fd Hn Hws Hne (_ & Lu & Hu). destruct Hu as [-> Hu]; [by destruct ws|]. rewrite firstn_all in *.
  pose proof Hd as [(D1 & D2 & D3) Ed]. rewrite Ed in D1, D2, D3.
  destruct (NewPaddedCircularWindow_Ok u (pads ws) (istart d) n) as [-> W]; [lia..|].
  eexists. split; [done|]. split; [eauto|]. split; [done|]. intros i Hi. simpl. f_equal.
  pose proof (Z.mod_pos_bound (i - istart d) n ltac:(lia)) as B.
  destruct (decide ((i - istart d) mod n < IntervalLen d)) as [G|G].
  - rewrite Hu by lia. simpl. f_equal. rewrite Z.add_mod_idemp_r by lia. replace (istart d + (i - istart d)) with i by lia.
    apply Z.mod_small. done.
  - rewrite window_default by lia. symmetry. apply (outside_pads n d); [done..|]. rewrite (has_mod n) by done. done.
Qed.

Lemma processWindowedOnly_spec n l : Forall (operand n) l → l ≠ [] → n < 2 ^ 61 →
  ∃ r l', processWindowedOnly op (svecs_of l) (coeffs_of l) = Ok (r, zlen (wins l'), svecs_of l') ∧
    Forall2 same_operand l l' ∧ consts l' = consts l ∧ window_result n l' r.
Proof.
  intros Hl Hne Hn. unfold processWindowedOnly. destruct (first_len n l Hl Hne) as (s0 & -> & L0). simpl. rewrite L0, gather_spec by done.
  simpl. assert (Forall2 same_operand l l) as Hrefl.
  { apply Forall_Forall2_diag. eapply Forall_impl; [exact Hl|]. intros p Hp. destruct Hp. by split. }
  unfold zlen at 1. rewrite length_fmap. fold (zlen (wins l)).
  destruct (Z.eqb_spec (zlen (wins l)) 0) as [E|E].
  { exists None, l. unfold zlen at 1. rewrite length_fmap. split_and!; [done..|]. unfold window_result. by destruct (wins l). }
  assert (wins l ≠ []) as Hw by (intros Ew; by rewrite Ew in E).
  destruct (IntervalCover.SmallestCover_spec n ((λ p, ival_of p.1) <$> wins l)) as (d & -> & Hd & C & _).
  { by destruct (wins l). }
  { by apply wins_ok. }
  pose proof (wins_inside n d l Hl C) as Hin. simpl. destruct (IsFullCircle d) eqn:Full; unfold IsFullCircle in Full.
  { exists None, (regularize <$> l). rewrite (windows_into_regular_spec n) by done. simpl.
    destruct (regularized l) as [-> ->]. split_and!; [done| |done|].
    - apply Forall2_fmap_r, Forall_Forall2_diag. eapply Forall_impl; [exact Hl|]. intros p Hp. by apply (regularize_same n).
    - done. }
  pose proof Hd as [(D1 & D2 & D3) Ed]. apply Z.eqb_neq in Full. rewrite Ed in Full, D1, D2, D3.
  destruct (Z.ltb_spec (Start d) 0) as [|_]; [unfold Start in *; lia|].
  destruct (foldM_enumerate (window_step op n (Start d) ((λ p, ival_of p.1) <$> wins l) (snd <$> wins l)) (window_inv n d (wins l))
    ((λ p, win_of p.1) <$> wins l) (true, replicate (Z.to_nat (IntervalLen d)) sc_zero, sc_zero)) as ([[f u] padded] & -> & Hu).
  - split; [done|]. split; [apply zlen_replicate; lia|done].
  - intros k wp st. apply window_step_spec; [done|lia|done].
  - rewrite length_fmap in Hu. simpl. destruct (union_window n d (wins l) u padded) as (y & Ey & R); [done|lia|done..| |].
    { destruct Hu as (-> & Hu). split; [|done]. by rewrite bool_decide_false by (by destruct (wins l)). }
    unfold Start. rewrite Ey. simpl. exists (Some y), l. unfold zlen at 1. rewrite length_fmap.
    split_and!; [done..|]. by split.
Qed.

(** ** Regular vectors *)

Lemma elems_Regular (v : list A) : wf (Regular v) → elems (Regular v) = v.
Proof. intros W. symmetry. by apply elems_ext. Qed.

(** A slice that holds the operation on the regular operands of [l]. *)
Definition regular_result n l (r : option (list A)) : Prop :=
  match r with
  | None => regs l = []
  | Some u => regs l ≠ [] ∧ zlen u = n ∧ ∀ i, 0 ≤ i < n → u !! Z.to_nat i = Some (total (regs l) i)
  end.

Lemma regular_accumulate n l p u : operand n p → is_reg p = true → regular_result n l (Some u) →
  ∃ u', vecIntoVec u (elems p.1) p.2 = Ok u' ∧ zlen u' = n ∧
    ∀ i, 0 ≤ i < n → u' !! Z.to_nat i = Some (plus (total (regs l) i) (term_at i p)).
Proof.
  intros (W & L & Hok) _ (_ & Lu & Hu). pose proof (zlen_elems _ W) as Le. rewrite L in Le.
  rewrite op_vecIntoVec by (done || unfold zlen in *; lia). eexists. split; [done|]. unfold zlen in *.
  split; [rewrite length_zip_with; lia|]. intros i Hi. rewrite lookup_zip_with, Hu by done. simpl.
  rewrite elems_lookup by (done || lia). destruct (elem_at_Some p.1 i W) as [a Ea]; [lia|]. unfold term_at. rewrite Ea. done.
Qed.

Lemma regular_first n p : operand n p → 
  ∃ u', vecIntoTerm (replicate (Z.to_nat n) sc_zero) (elems p.1) p.2 = Ok u' ∧ zlen u' = n ∧
    ∀ i, 0 ≤ i < n → u' !! Z.to_nat i = Some (term_at i p).
Proof.
  intros (W & L & Hok). pose proof (zlen_elems _ W) as Le. rewrite L in Le.
  rewrite op_vecIntoTerm by (done || rewrite ?length_replicate; unfold zlen in *; lia). eexists. split; [done|]. unfold zlen in *.
  split; [rewrite length_fmap; lia|]. intros i Hi. rewrite list_lookup_fmap.
  rewrite elems_lookup by (done || lia). destruct (elem_at_Some p.1 i W) as [a Ea]; [lia|]. unfold term_at. rewrite Ea. done.
Qed.

Lemma regular_operand p n : operand n p → is_reg p = true →
  match p.1 with
  | Rotated v o => r ← rotatedAsRegular v o; Ok (Some r)
  | Regular v => Ok (Some v)
  | _ => Ok None
  end = Ok (Some (elems p.1)).
Proof.
  intros (W & _ & _) Hr. destruct p as [[|v|v o|] c]; try done; simpl in *.
  - by rewrite elems_Regular.
  - by rewrite rotatedAsRegular_spec.
Qed.

Lemma regular_step_spec n l k s st : Forall (operand n) l → 0 < n → svecs_of l !! k = Some s →
  st.2 = zlen (regs (take k l)) ∧ regular_result n (take k l) st.1 →
  ∃ st', regular_step op n (coeffs_of l) st (Z.of_nat k, s) = Ok st' ∧
    st'.2 = zlen (regs (take (S k) l)) ∧ regular_result n (take (S k) l) st'.1.
Proof.
  intros Hl Hn (p & Ep & ->)%svecs_lookup [Hm Hr]. assert (operand n p) as Hp by (by eapply Forall_lookup_1).
  assert (regs (take (S k) l) = regs (take k l) ++ (if is_reg p then [p] else [])) as ER by (by apply take_filter).
  unfold regular_step, regular_result. cbn [fst snd]. rewrite as_of, ER. destruct st as [r m]. simpl in Hm, Hr. destruct (is_reg p) eqn:Er.
  - pose proof (regular_operand p n Hp Er) as ->. simpl. rewrite (coeff_idx l k p Ep). rewrite zlen_app.
    change (zlen [p]) with 1. destruct r as [u|]; simpl.
    + destruct (regular_accumulate n _ p u Hp Er Hr) as (u' & -> & L' & U'). simpl. eexists. split; [done|]. simpl.
      split; [lia|]. split; [by destruct (regs (take k l))|]. split; [done|]. intros i Hi. by rewrite total_snoc, U'.
    + destruct (regular_first n p Hp) as (u' & E' & L' & U'). unfold assertStrictPositiveLen.
      destruct (Z.eqb_spec n 0), (Z.leb_spec n 0); try lia. simpl. rewrite E'. simpl. eexists. split; [done|]. simpl in Hr |- *.
      rewrite Hr in *. simpl. split; [by rewrite Hm|]. split; [done|]. split; [done|]. intros i Hi. by rewrite total_one, U'.
  - rewrite app_nil_r. assert (match p.1 with Rotated v o => r ← rotatedAsRegular v o; Ok (Some r) | Regular v => Ok (Some v) | _ => Ok None end = Ok None) as ->
      by (by destruct p as [[] c]). simpl. eexists. split; [done|]. done.
Qed.

Lemma processRegularOnly_spec n l : Forall (operand n) l → l ≠ [] → 0 < n →
  ∃ r, processRegularOnly op (svecs_of l) (coeffs_of l) = Ok (r, zlen (regs l)) ∧ regular_result n l r.
Proof.
  intros Hl Hne Hn. unfold processRegularOnly. destruct (first_len n l Hl Hne) as (s0 & -> & L0). simpl. rewrite L0.
  destruct (foldM_enumerate (regular_step op n (coeffs_of l)) (λ k st, st.2 = zlen (regs (take k l)) ∧ regular_result n (take k l) st.1)
    (svecs_of l) (None, 0)) as ([r m] & -> & Hm & Hr).
  - done.
  - intros k s st. by apply regular_step_spec.
  - rewrite length_svecs, firstn_all in Hm, Hr. simpl in *. subst m. destruct (Z.eqb_spec (zlen (regs l)) 0) as [E|E].
    + assert (regs l = []) as E' by (by destruct (regs l)). exists None. by rewrite E'.
    + by exists r.
Qed.

(** ** Merging the partial results *)

Lemma merge_const_spec n (w : list A) pad o val : wf (PaddedCircularWindow w pad n o) →
  ∃ w' pad', merge_const op (Some (PaddedCircularWindow w pad n o)) val = Ok (Some (PaddedCircularWindow w' pad' n o)) ∧
    wf (PaddedCircularWindow w' pad' n o) ∧
    ∀ i a, elem_at (PaddedCircularWindow w pad n o) i = Some a → elem_at (PaddedCircularWindow w' pad' n o) i = Some (plus a val).
Proof.
  intros [Hl W]. simpl. rewrite op_constTermIntoVec, op_constTermIntoConst. simpl. eexists _, _. split; [done|]. split.
  - split; [done|]. unfold zlen in *. by rewrite length_fmap.
  - intros i a [= <-]. simpl. f_equal. rewrite list_lookup_fmap. by destruct (w !! Z.to_nat ((i - o) mod n)).
Qed.

(** The window wraps around the end of the slice. *)
Lemma merge_wrapping_spec n (w u : list A) (pad : A) (o : Z) : 0 < zlen w < n → 0 ≤ o < n → n ≤ o + zlen w → zlen u = n →
  ∃ u', (part ← slice w (n - o) (zlen w);
         regvec ← in_slice u 0 (o + zlen w - n) (λ s, vecTermIntoVec s part);
         part ← slice w 0 (n - o);
         regvec ← in_slice regvec o (zlen regvec) (λ s, vecTermIntoVec s part);
         in_slice regvec (o + zlen w - n) o (λ s, constTermIntoVec s pad)) = Ok u' ∧ zlen u' = n ∧
    ∀ i a, 0 ≤ i < n → u !! Z.to_nat i = Some a → u' !! Z.to_nat i = Some (plus a (default pad (w !! Z.to_nat ((i - o) mod n)))).
Proof.
  intros Hw Ho He Hu. destruct (slice_exists w (n - o) (zlen w)) as [p1 E1]; [lia..|]. pose proof (zlen_slice _ _ _ _ E1) as L1.
  destruct (slice_exists w 0 (n - o)) as [p2 E2]; [lia..|]. pose proof (zlen_slice _ _ _ _ E2) as L2. rewrite E1. simpl.
  destruct (slice_exists u 0 (o + zlen w - n)) as [s1 Es1]; [lia..|]. pose proof (zlen_slice _ _ _ _ Es1) as Ls1.
  destruct (in_slice_spec u 0 (o + zlen w - n) (λ s, vecTermIntoVec s p1) (zip_with plus s1 p1)) as (u1 & -> & Lu1 & U1); [lia..| |].
  { intros s Es. assert (s = s1) as -> by congruence. unfold zlen in *. rewrite op_vecTermIntoVec by lia. split; [done|]. rewrite length_zip_with. lia. }
  simpl. rewrite E2. simpl. destruct (slice_exists u1 o (zlen u1)) as [s2 Es2]; [lia..|]. pose proof (zlen_slice _ _ _ _ Es2) as Ls2.
  destruct (in_slice_spec u1 o (zlen u1) (λ s, vecTermIntoVec s p2) (zip_with plus s2 p2)) as (u2 & -> & Lu2 & U2); [lia..| |].
  { intros s Es. assert (s = s2) as -> by congruence. unfold zlen in *. rewrite op_vecTermIntoVec by lia. split; [done|]. rewrite length_zip_with. lia. }
  simpl. destruct (slice_exists u2 (o + zlen w - n) o) as [s3 Es3]; [lia..|]. pose proof (zlen_slice _ _ _ _ Es3) as Ls3.
  destruct (in_slice_spec u2 (o + zlen w - n) o (λ s, constTermIntoVec s pad) ((λ a, plus a pad) <$> s3)) as (u3 & -> & Lu3 & U3); [lia..| |].
  { intros s Es. assert (s = s3) as -> by congruence. rewrite op_constTermIntoVec. split; [done|]. unfold zlen in *. rewrite length_fmap. lia. }
  exists u3. split; [done|]. split; [lia|]. intros i a Hi Ha. rewrite U3 by lia. rewrite mod_near by lia.
  destruct (decide (o + zlen w - n ≤ i < o)) as [D|D].
  - rewrite list_lookup_fmap, (lookup_slice _ _ _ _ _ Es3) by lia. replace (o + zlen w - n + (i - (o + zlen w - n))) with i by lia.
    rewrite U2, decide_False, U1, decide_False by lia. rewrite Ha. simpl. rewrite decide_True by lia. by rewrite window_default by lia.
  - rewrite U2 by lia. destruct (decide (o ≤ i < zlen u1)) as [D2|D2].
    + rewrite lookup_zip_with, (lookup_slice _ _ _ _ _ Es2) by lia. replace (o + (i - o)) with i by lia.
      rewrite U1, decide_False by lia. rewrite Ha. simpl. rewrite decide_False by lia.
      rewrite (lookup_slice _ _ _ _ _ E2), Z.add_0_l by lia. destruct (lookup_lt_is_Some_2 w (Z.to_nat (i - o))) as [b ->]; [unfold zlen in *; lia|done].
    + rewrite U1, decide_True by lia. rewrite lookup_zip_with, (lookup_slice _ _ _ _ _ Es1) by lia. replace (0 + (i - 0)) with i by lia.
      rewrite Ha. simpl. rewrite decide_True by lia. rewrite (lookup_slice _ _ _ _ _ E1) by lia. replace (n - o + (i - 0)) with (i - o + n) by lia.
      destruct (lookup_lt_is_Some_2 w (Z.to_nat (i - o + n))) as [b ->]; [unfold zlen in *; lia|done].
Qed.

Lemma merge_window_spec n (w u : list A) pad o : wf (PaddedCircularWindow w pad n o) → zlen u = n →
  ∃ u', merge_window op (Some (PaddedCircularWindow w pad n o)) u = Ok u' ∧ zlen u' = n ∧
    ∀ i a b, 0 ≤ i < n → u !! Z.to_nat i = Some a → elem_at (PaddedCircularWindow w pad n o) i = Some b →
      u' !! Z.to_nat i = Some (plus a b).
Proof.
  intros W Hu. destruct (interval_spec _ _ _ _ W) as [E [Wc _]]. unfold merge_window. rewrite E. simpl.
  unfold DoesWrapAround. rewrite Stop_spec by done. simpl. unfold CircularInterval.stop, Start. simpl.
  destruct W as [Hl W]. simpl in Hl, W. rewrite Hu. destruct (decide (o + zlen w < n)) as [D|D].
  - destruct (Z.ltb_spec (o + zlen w) o) as [|_]; [lia|].
    destruct (three_parts u w o (λ s, vecTermIntoVec s w) (λ s, constTermIntoVec s pad) plus (λ a, plus a pad)) as (u' & -> & L' & U'); [| |lia..|].
    { intros s Ls. by rewrite op_vecTermIntoVec. }
    { intros s. apply op_constTermIntoVec. }
    exists u'. split; [done|]. split; [lia|]. intros i a b Hi Ha [= <-]. rewrite (U' i a) by (done || lia). rewrite mod_near by lia.
    destruct (decide (i - o < 0)); [rewrite decide_False, window_default by lia; done|].
    case_decide; [|by rewrite window_default by lia].
    destruct (lookup_lt_is_Some_2 w (Z.to_nat (i - o))) as [b ->]; [unfold zlen in *; lia|done].
  - destruct (Z.ltb_spec (o + zlen w - n) o) as [_|]; [|lia].
    destruct (merge_wrapping_spec n w u pad o) as (u' & -> & L' & U'); [lia..|].
    exists u'. split; [done|]. split; [done|]. intros i a b Hi Ha [= <-]. by apply U'.
Qed.

(** ** The whole operation *)

Definition result n l (y : vec A) : Prop := wf y ∧ Len y = n ∧ ∀ i, 0 ≤ i < n → elem_at y i = Some (total l i).

Lemma result_regular n l (u : list A) : 0 < n < 2 ^ 61 → zlen u = n →
  (∀ i, 0 ≤ i < n → u !! Z.to_nat i = Some (total l i)) → result n l (Regular u).
Proof. intros Hn L U. split; [split; [simpl; lia|done]|]. split; [done|]. exact U. Qed.

Lemma empty_group (k : list (vec A * Z)) : zlen k = 0 → k = [].
Proof. by destruct k. Qed.

Lemma zlen_groups l : zlen (consts l) + zlen (wins l) + zlen (regs l) = zlen l.
Proof. pose proof (groups_length l). unfold zlen. lia. Qed.

(** The windows with the constants merged into them. *)
Definition merged n l (r : option (vec A)) : Prop :=
  wins l ≠ [] → ∃ w pad o, r = Some (PaddedCircularWindow w pad n o) ∧ wf (PaddedCircularWindow w pad n o) ∧
    ∀ i, 0 ≤ i < n → elem_at (PaddedCircularWindow w pad n o) i = Some (plus (total (wins l) i) (total (consts l) i)).

Lemma process_regular_spec n l val r : Forall (operand n) l → 0 < n < 2 ^ 61 → regs l ≠ [] →
  (consts l ≠ [] → ∀ i, val = total (consts l) i) → merged n l r →
  ∃ u, process_regular op (if decide (consts l = []) then None else Some (val, n)) (zlen (consts l)) r (zlen (wins l))
         (svecs_of l) (coeffs_of l) = Ok (Some (Regular u)) ∧ result n l (Regular u).
Proof.
  intros Hl Hn Hr Hv Hm. assert (l ≠ []) as Hne by (by intros ->). unfold process_regular.
  destruct (processRegularOnly_spec n l Hl Hne ltac:(lia)) as (ru & -> & Hu). simpl. pose proof (zlen_groups l) as Zg.
  replace (zlen (svecs_of l)) with (zlen l) by (unfold zlen; by rewrite length_svecs). rewrite (proj2 (Z.eqb_eq _ _) Zg). simpl.
  destruct ru as [u|]; [|done]. destruct Hu as (_ & Lu & Hu).
  pose proof (zlen_nonneg (consts l)). pose proof (zlen_nonneg (wins l)). pose proof (zlen_nonneg (regs l)).
  destruct (Z.eqb_spec (zlen (regs l)) (zlen l)) as [E|E].
  { exists u. split; [done|]. apply result_regular; [done..|]. intros i Hi.
    rewrite (total_split l), (empty_group (consts l)), (empty_group (wins l)) by lia. rewrite !total_nil, !plus_unit_l. by apply Hu. }
  destruct (Z.eqb_spec (zlen (regs l) + zlen (consts l)) (zlen l)) as [E'|E'].
  { assert (consts l ≠ []) as Hc by (intros Ec; rewrite Ec in *; change (zlen []) with 0 in *; lia).
    rewrite decide_False by done. rewrite op_constTermIntoVec. simpl. eexists. split; [done|].
    apply result_regular; [done|unfold zlen in *; by rewrite length_fmap|]. intros i Hi. rewrite list_lookup_fmap, Hu by done. simpl. f_equal.
    rewrite (total_split l), (empty_group (wins l)) by lia. rewrite total_nil, plus_unit_l, (Hv Hc i). apply plus_comm. }
  destruct Hm as (w & pad & o & -> & W & Hm); [intros Ew; rewrite Ew in *; change (zlen []) with 0 in *; lia|].
  destruct (merge_window_spec n w u pad o W Lu) as (u' & -> & L' & U'). simpl. exists u'. split; [done|].
  apply result_regular; [done..|]. intros i Hi. rewrite (U' i _ _ Hi (Hu i Hi) (Hm i Hi)). f_equal. rewrite (total_split l).
  rewrite (plus_comm (total (regs l) i)), (plus_comm (total (wins l) i) (total (consts l) i)). symmetry. apply plus_assoc.
Qed.

Lemma assert_lengths_spec n l : Forall (operand n) l → assert_lengths n (svecs_of l) = Ok ().
Proof.
  induction l as [|p l IH]; [done|]. intros [(_ & L & _) Hl]%Forall_cons_1. unfold svecs_of in *. rewrite fmap_cons. cbn [assert_lengths].
  rewrite len_of, L, assertHasLength_same. simpl. by apply IH.
Qed.

(** The constants are merged into the window of the others. *)
Lemma merge_step n l val r : window_result n l r → (consts l ≠ [] → ∀ i, val = total (consts l) i) →
  ∃ r', (if (0 <? zlen (wins l)) && (0 <? zlen (consts l))
         then match (if decide (consts l = []) then None else Some (val, n)) with Some c => merge_const op r c.1 | None => Panic end
         else Ok r) = Ok r' ∧ merged n l r'.
Proof.
  intros Hr Hv. destruct r as [y|]; simpl in Hr.
  - destruct Hr as (Hw & (w & pad & o & ->) & W & Hy). destruct (consts l) as [|q qs] eqn:Ec.
    + rewrite andb_false_r. eexists. split; [done|]. intros _. exists w, pad, o. split_and!; [done..|]. intros i Hi. rewrite Hy by done.
      by rewrite Ec, total_nil, plus_unit_r.
    + rewrite decide_False, <-Ec by done. destruct (Z.ltb_spec 0 (zlen (wins l))) as [_|Z0]; [|exfalso; apply Hw, empty_group; pose proof (zlen_nonneg (wins l)); lia].
      destruct (Z.ltb_spec 0 (zlen (consts l))) as [_|Z0]; [|rewrite Ec in Z0; unfold zlen in Z0; simpl in Z0; lia]. simpl fst.
      destruct (merge_const_spec n w pad o val W) as (w' & pad' & E & W' & E'). simpl in E |- *. rewrite E. eexists. split; [done|].
      intros _. exists w', pad', o. split_and!; [done..|]. intros i Hi. rewrite (E' i _ (Hy i Hi)). rewrite (Hv ltac:(done) i). by rewrite Ec.
  - rewrite Hr. simpl. eexists. split; [done|]. intros E. by rewrite Hr in E.
Qed.

Lemma result_const n l (val : A) : 0 < n < 2 ^ 61 → (∀ i, 0 ≤ i < n → total l i = val) → result n l (Constant val n).
Proof. intros Hn E. split; [by split|]. split; [done|]. intros i Hi. simpl. by rewrite E. Qed.

(** The part of [processOperator] after the constants. *)
Lemma after_constants n l val : Forall (operand n) l → l ≠ [] → 0 < n < 2 ^ 61 →
  zlen (consts l) ≠ zlen l → (consts l ≠ [] → ∀ i, val = total (consts l) i) →
  ∃ y l', (window ← processWindowedOnly op (svecs_of l) (coeffs_of l);
    let '(windowRes, matchedWindow, svecs) := window in
    if matchedWindow =? zlen l then Ok (windowRes, svecs) else
    windowRes ← (if (0 <? matchedWindow) && (0 <? zlen (consts l))
                 then match (if decide (consts l = []) then None else Some (val, n)) with
                      | Some c => merge_const op windowRes c.1 | None => Panic end
                 else Ok windowRes);
    if matchedWindow + zlen (consts l) =? zlen l then Ok (windowRes, svecs) else
    r ← process_regular op (if decide (consts l = []) then None else Some (val, n)) (zlen (consts l)) windowRes matchedWindow svecs (coeffs_of l);
    Ok (r, svecs)) = Ok (Some y, svecs_of l') ∧ Forall2 same_operand l l' ∧ result n l y.
Proof.
  intros Hl Hne Hn Hc Hv. destruct (processWindowedOnly_spec n l Hl Hne ltac:(lia)) as (r & l' & -> & Hs & Ec & Hr). simpl.
  pose proof (same_operands n l l' Hl Hs) as Hl'. pose proof (zlen_groups l') as Zg. rewrite <-Ec in *.
  assert (zlen l' = zlen l) as Zl by (unfold zlen; by rewrite (Forall2_length _ _ _ Hs)). rewrite <-Zl in *.
  assert (∀ y, result n l' y → result n l y) as Hres.
  { intros y (? & ? & Hy). split; [done|]. split; [done|]. intros i Hi. by rewrite <-(same_total n l l' i Hl Hs Hi), Hy. }
  pose proof (zlen_nonneg (consts l')). pose proof (zlen_nonneg (wins l')). pose proof (zlen_nonneg (regs l')).
  destruct (Z.eqb_spec (zlen (wins l')) (zlen l')) as [E|E].
  { destruct r as [y|]; [|simpl in Hr; rewrite Hr in E; assert (l' = []) as -> by (apply empty_group; by rewrite <-E); by apply Forall2_nil_inv_r in Hs].
    destruct Hr as (_ & (w & pad & o & ->) & W & Hy). eexists _, l'. split; [done|]. split; [done|]. apply Hres.
    split; [done|]. split; [done|]. intros i Hi. rewrite Hy by done. f_equal.
    by rewrite (total_split l'), (empty_group (consts l')), (empty_group (regs l')), !total_nil, plus_unit_l, plus_unit_r by lia. }
  destruct (merge_step n l' val r Hr Hv) as (r' & -> & Hm). simpl.
  destruct (Z.eqb_spec (zlen (wins l') + zlen (consts l')) (zlen l')) as [E'|E'].
  { destruct Hm as (w & pad & o & -> & W & Hy); [intros Ew; rewrite Ew in *; change (zlen []) with 0 in *; lia|].
    eexists _, l'. split; [done|]. split; [done|]. apply Hres. split; [done|]. split; [done|]. intros i Hi. rewrite Hy by done. f_equal.
    rewrite (total_split l'), (empty_group (regs l')), total_nil, plus_unit_r by lia. apply plus_comm. }
  rewrite <-(same_coeffs l l' Hs). destruct (process_regular_spec n l' val r') as (u & -> & Hu); [done..| |done|done|].
  { intros Er. rewrite Er in *. change (zlen []) with 0 in *. lia. }
  simpl. eexists _, l'. split; [done|]. split; [done|]. by apply Hres.
Qed.

Lemma processOperator_spec n l : Forall (operand n) l → l ≠ [] → 0 < n < 2 ^ 61 →
  ∃ y l', processOperator op (coeffs_of l) (svecs_of l) = Ok (Some y, svecs_of l') ∧ Forall2 same_operand l l' ∧ result n l y.
Proof.
  intros Hl Hne Hn. unfold processOperator. replace (zlen (svecs_of l)) with (zlen l) by (unfold zlen; by rewrite length_svecs).
  replace (zlen (coeffs_of l)) with (zlen l) by (unfold zlen, coeffs_of; by rewrite length_fmap). rewrite Z.eqb_refl. simpl.
  destruct (Z.eqb_spec (zlen l) 0) as [E|_]; [by rewrite (empty_group _ E) in Hne|].
  destruct (first_len n l Hl Hne) as (s0 & -> & L0). simpl. rewrite L0, assert_lengths_spec by done. simpl.
  unfold assertStrictPositiveLen. destruct (Z.eqb_spec n 0), (Z.leb_spec n 0); try lia. simpl.
  destruct (processConstOnly_spec n l Hl Hne) as (val & -> & Hv). simpl.
  assert (Forall2 same_operand l l) as Hrefl.
  { apply Forall_Forall2_diag. eapply Forall_impl; [exact Hl|]. intros p Hp. destruct Hp. by split. }
  pose proof (zlen_groups l) as Zg. pose proof (zlen_nonneg (wins l)). pose proof (zlen_nonneg (regs l)).
  destruct (Z.eqb_spec (zlen (consts l)) (zlen l)) as [E|E].
  { assert (consts l ≠ []) as Hc by (intros Ec; rewrite Ec in E; symmetry in E; by apply empty_group in E).
    rewrite decide_False by done. eexists _, l. split; [done|]. split; [done|]. apply result_const; [done|]. intros i Hi.
    rewrite (total_split l), (empty_group (wins l)), (empty_group (regs l)), !total_nil, plus_unit_l, plus_unit_r by lia. by rewrite (Hv Hc i). }
  destruct (isProductOp && _) eqn:Ez; [|by apply after_constants].
  apply andb_prop in Ez as [Ep Ez]. destruct (decide (consts l = [])) as [Ec|Ec]; [done|]. simpl in Ez. apply bool_decide_eq_true in Ez.
  eexists _, l. split; [done|]. split; [done|]. apply result_const; [done|]. intros i Hi. simpl.
  rewrite (total_split l), <-(Hv Ec i), Ez. by apply op_absorb.
Qed.
End process.
End SmartVectorProcess.
