(* ===== verification/SmartVectorArith.v ===== *)
(** * Functions on one or two smart vectors

    The functions of arithmetic_basic.go and polynomial.go against the vectors and the
    polynomials that smart vectors represent. *)

From S2P Require Export SmartVectorProcess.
From Stdlib Require Import Ring_theory Ring.
Import Utils Fext CircularInterval SmartVector SmartVectorOps SmartVectorFacts VectorsFacts OperatorFacts SmartVectorProcess.

Module SmartVectorArith.

(** ** Rotations *)

Section rotations.
Context {A : Type}.
Implicit Types (x : vec A) (l : list A).

(** The elements in the order of storage. *)
Definition stored x : list A :=
  match x with
  | Constant a n => replicate (Z.to_nat n) a
  | Regular v => v
  | Rotated v _ => v
  | PaddedCircularWindow w pad tot _ => w ++ replicate (Z.to_nat (tot - zlen w)) pad
  end.

Lemma rotation l (r : list A) k : 0 ≤ k < zlen l → zlen r = zlen l →
  (∀ i, 0 ≤ i < zlen l → r !! Z.to_nat i = l !! Z.to_nat ((i + k) mod zlen l)) → r ≡ₚ l.
Proof.
  intros Hk L E. assert (r = drop (Z.to_nat k) l ++ take (Z.to_nat k) l) as ->.
  { apply list_eq. intros i. unfold zlen in *. destruct (decide (i < length l)%nat) as [Hi|Hi].
    - specialize (E (Z.of_nat i) ltac:(lia)). rewrite Nat2Z.id in E. rewrite E. clear E.
      destruct (decide (Z.of_nat i + k < Z.of_nat (length l))).
      + rewrite Z.mod_small by lia. rewrite lookup_app_l by (rewrite length_drop; lia). rewrite lookup_drop. f_equal. lia.
      + replace ((Z.of_nat i + k) mod Z.of_nat (length l)) with (Z.of_nat i + k - Z.of_nat (length l)).
        2:{ apply (Z.mod_unique_pos _ _ 1); lia. }
        rewrite lookup_app_r by (rewrite length_drop; lia). rewrite lookup_take_lt by (rewrite length_drop; lia). f_equal. rewrite length_drop. lia.
    - rewrite !lookup_ge_None_2; [done|rewrite length_app, length_drop, length_take; lia|lia]. }
  rewrite (Permutation_app_comm (drop _ _)). by rewrite take_drop.
Qed.

Lemma elems_stored x : wf x → elems x ≡ₚ stored x.
Proof.
  intros W. pose proof (zlen_elems x W) as L. pose proof W as [Hl W']. destruct x as [a n|v|v o|w pad tot o]; simpl in *.
  - rewrite (elems_ext (Constant a n) (replicate (Z.to_nat n) a)); [done|done|apply zlen_replicate; simpl; lia|].
    intros i Hi. apply lookup_replicate_2. simpl in Hi. lia.
  - rewrite <-(elems_ext (Regular v) v) by done. done.
  - pose proof (Z.mod_pos_bound o (zlen v) ltac:(lia)). apply (rotation _ _ (o mod zlen v)); [lia|done|].
    intros i Hi. rewrite elems_lookup by done. simpl. rewrite Z.add_mod_idemp_r by lia. done.
  - assert (zlen (w ++ replicate (Z.to_nat (tot - zlen w)) pad) = tot) as Ls by (rewrite zlen_app, zlen_replicate; lia).
    pose proof (Z.mod_pos_bound (- o) tot ltac:(lia)). apply (rotation _ _ ((- o) mod tot)); [lia|lia|].
    intros i Hi. rewrite Ls in Hi. rewrite elems_lookup by done. simpl. rewrite Ls, Z.add_mod_idemp_r by lia.
    replace (i + - o) with (i - o) by lia. pose proof (Z.mod_pos_bound (i - o) tot ltac:(lia)).
    set (j := (i - o) mod tot) in *. clearbody j. unfold zlen in *. destruct (decide (j < Z.of_nat (length w))).
    + rewrite lookup_app_l by lia. destruct (lookup_lt_is_Some_2 w (Z.to_nat j)) as [b ->]; [lia|done].
    + rewrite lookup_app_r, (lookup_ge_None_2 w) by lia. symmetry. apply lookup_replicate_2. lia.
Qed.

(** ** Maps *)

Definition map_vec {B} (f : A → B) x : vec B :=
  match x with
  | Constant a n => Constant (f a) n
  | Regular v => Regular (f <$> v)
  | Rotated v o => Rotated (f <$> v) o
  | PaddedCircularWindow w pad tot o => PaddedCircularWindow (f <$> w) (f pad) tot o
  end.

Lemma zlen_fmap {B} (f : A → B) l : zlen (f <$> l) = zlen l.
Proof. unfold zlen. by rewrite length_fmap. Qed.

Lemma map_vec_spec {B} (f : A → B) x : wf x →
  wf (map_vec f x) ∧ Len (map_vec f x) = Len x ∧ elems (map_vec f x) = f <$> elems x.
Proof.
  intros W. assert (wf (map_vec f x)) as W'. { destruct W as [Hl W]. destruct x; split; simpl in *; rewrite ?zlen_fmap; done. }
  assert (Len (map_vec f x) = Len x) as L by (destruct x; simpl; by rewrite ?zlen_fmap).
  split; [done|]. split; [done|]. symmetry. apply elems_ext; [done|by rewrite zlen_fmap, zlen_elems by done|].
  intros i Hi. rewrite L in Hi. rewrite list_lookup_fmap, elems_lookup by done. clear W W' L.
  destruct x as [a n|v|v o|w pad tot o]; simpl in *; rewrite ?list_lookup_fmap, ?zlen_fmap; try done. by destruct (w !! _).
Qed.
End rotations.

Section arith.
Context `{ElementOps F, !ExtOps F, !Scalar A, !ScalarLaws A, !VectorOps A, !VectorLaws A, !Kind F A, !KindLaws F A}.
Implicit Types (x y : vec A) (l : list A).
Local Open Scope sc_scope.

Add Ring sc_ring_arith : (sc_ring (A := A)).

(** A rotated vector can be rebuilt when its offset is within its length. *)
Definition rebuildable x : Prop := match x with Rotated v o => (- zlen v ≤ o ≤ zlen v)%Z | _ => True end.

Lemma NewRegular_Ok (v : list A) : (0 < zlen v)%Z → NewRegular v = Ok (Regular v).
Proof. intros Hv. unfold NewRegular, assertStrictPositiveLen. destruct (Z.eqb_spec (zlen v) 0), (Z.leb_spec (zlen v) 0); done || lia. Qed.

Lemma NewRotated_map (f : A → A) v o : wf (Rotated v o) → rebuildable (Rotated v o) →
  NewRotated (f <$> v) o = Ok (map_vec f (Rotated v o)).
Proof. intros [Hl _] R. simpl in *. rewrite NewRotated_Ok by (rewrite zlen_fmap; lia). done. Qed.

Lemma BatchInvert_map x : wf x → rebuildable x → BatchInvert (of_vec x) = Ok (map_vec sc_inv x).
Proof.
  intros W R. unfold BatchInvert. rewrite as_of. destruct x as [a n|v|v o|w pad tot o]; rewrite ?vec_BatchInvert_spec; try done.
  - apply NewRegular_Ok. rewrite zlen_fmap. apply W.
  - by apply NewRotated_map.
Qed.

Lemma IsZero_map x : wf x → rebuildable x → IsZero (of_vec x) = Ok (map_vec zero_flag x).
Proof.
  intros W R. unfold IsZero. rewrite as_of. destruct x as [a n|v|v o|w pad tot o]; try done.
  - apply NewRegular_Ok. rewrite zlen_fmap. apply W.
  - by apply NewRotated_map.
Qed.

(** ** Sums *)

Definition total_sum l : A := foldr sc_add 0 l.

Lemma sum_elements_spec l : sum_elements l = total_sum l.
Proof.
  unfold sum_elements. assert (∀ a, foldl sc_add a l = a + total_sum l) as E.
  { induction l as [|b l IH]; intros a; simpl; [ring|]. rewrite IH. ring. }
  rewrite E. ring.
Qed.

Lemma total_sum_app l (k : list A) : total_sum (l ++ k) = total_sum l + total_sum k.
Proof. induction l as [|a l IH]; simpl; [ring|]. rewrite IH. ring. Qed.

Lemma total_sum_perm l (k : list A) : l ≡ₚ k → total_sum l = total_sum k.
Proof. induction 1 as [|a l k _ IH|a b l|l k m _ IH1 _ IH2]; simpl; [done|by rewrite IH|ring|congruence]. Qed.

Lemma total_sum_replicate (a : A) (n : nat) : total_sum (replicate n a) = sc_int (Z.of_nat n) * a.
Proof.
  induction n as [|n IH]; simpl; [rewrite sc_int_0; ring|]. rewrite IH.
  change (Z.pos (Pos.of_succ_nat n)) with (Z.of_nat (S n)). rewrite Nat2Z.inj_succ, <-Z.add_1_r, sc_int_add, sc_int_1. ring.
Qed.

Lemma uint64_small (n : Z) : (0 ≤ n < 2 ^ 61)%Z → uint64 n = n.
Proof. intros Hn. unfold uint64. apply Z.mod_small. lia. Qed.

Lemma Sum_total x : wf x → Sum (of_vec x) = Ok (total_sum (elems x)).
Proof.
  intros W. rewrite (total_sum_perm _ _ (elems_stored x W)). unfold Sum. rewrite as_of. destruct W as [Hl W].
  destruct x as [a n|v|v o|w pad tot o]; simpl in *; rewrite ?sum_elements_spec; try done.
  - rewrite uint64_small, total_sum_replicate, Z2Nat.id by lia. done.
  - rewrite uint64_small, total_sum_app, total_sum_replicate, Z2Nat.id by lia. done.
Qed.

(** ** Inner products *)

Lemma Get_elems x i : wf x → (0 ≤ i < Len x)%Z → ∃ a, kind_Get (of_vec x) i = Ok a ∧ idx (elems x) i = Ok a.
Proof.
  intros W Hi. destruct (Get_spec x i W Hi) as (a & E & Ea). exists a. rewrite kind_Get_spec. split; [done|].
  apply idx_nat; [lia|]. by rewrite elems_lookup.
Qed.

Lemma InnerProduct_total x y : wf x → wf y → Len x = Len y →
  InnerProduct (of_vec x) (of_vec y) = Ok (total_sum (zip_with sc_mul (elems x) (elems y))).
Proof.
  intros Wx Wy L. unfold InnerProduct. rewrite !len_of, <-L, Z.eqb_refl. simpl. pose proof Wx as [Hl _].
  destruct (foldM_seqZ (λ r i, a_ ← kind_Get (of_vec x) i; b_ ← kind_Get (of_vec y) i; Ok (r + a_ * b_))
    (λ i r, r = total_sum (zip_with sc_mul (take (Z.to_nat i) (elems x)) (take (Z.to_nat i) (elems y)))) 0 (Len x) 0) as (r & -> & ->).
  - lia.
  - done.
  - intros i r Hi ->. destruct (Get_elems x i Wx) as (a & -> & Ea); [lia|]. destruct (Get_elems y i Wy) as (b & -> & Eb); [lia|].
    simpl. eexists. split; [done|]. rewrite (take_idx _ _ _ Ea), (take_idx _ _ _ Eb). rewrite zip_with_app, total_sum_app; [simpl; ring|].
    rewrite !length_take, !length_elems by done. lia.
  - rewrite Z.add_0_l, !take_ge by (rewrite length_elems by done; lia). done.
Qed.

(** ** Polynomials *)

(** Adds or subtracts the elements of a vector to a polynomial under construction. *)
Lemma add_loop (f : A → A) (g : A → A → A) (len : Z) (z v : A) y r : (∀ a b, g a b = a + f b) → (∀ a b, f (a * b) = f a * b) →
  (∀ a b, f (a + b) = f a + f b) → f 0 = 0 →
  wf y → (Len y ≤ len)%Z → holds_value len z v r →
  ∃ r', foldM (λ r i, x ← kind_Get (of_vec y) i; ri ← idx r i; store r i (g ri x)) r (seqZ 0 (Len y)) = Ok r' ∧
    holds_value len z (v + f (horner (elems y) z)) r'.
Proof.
  intros Hg Fm Fa F0 W L Hr. destruct (foldM_seqZ (λ r i, x ← kind_Get (of_vec y) i; ri ← idx r i; store r i (g ri x))
    (λ i, holds_value len z (v + f (horner (take (Z.to_nat i) (elems y)) z))) 0 (Len y) r) as (r' & E & H').
  - destruct W. lia.
  - simpl. rewrite F0. destruct Hr as [L0 V0]. split; [done|]. rewrite V0. ring.
  - intros i r1 Hi Hr1. destruct (Get_elems y i W) as (b & -> & Eb); [lia|]. simpl.
    destruct (store_add _ _ _ _ i (f b) Hr1) as (c & -> & r2 & Er & L2 & V2); [lia|]. simpl. rewrite Hg.
    exists r2. split; [done|]. split; [done|]. rewrite V2, (take_idx _ _ _ Eb), horner_snoc, zlen_take, Fa, Fm by (rewrite ?zlen_elems by done; lia). ring.
  - exists r'. split; [exact E|]. rewrite Z.add_0_l, take_ge in H' by (rewrite length_elems by done; lia). done.
Qed.

Lemma NewRegular_value len z v r : (0 < len < 2 ^ 61)%Z → holds_value len z v r →
  ∃ y, NewRegular r = Ok y ∧ wf y ∧ Len y = len ∧ horner (elems y) z = v.
Proof.
  intros Hlen [L V]. rewrite NewRegular_Ok by lia. exists (Regular r). assert (wf (Regular r)) as W by (split; [simpl; lia|done]).
  split; [done|]. split; [done|]. split; [done|]. by rewrite elems_Regular.
Qed.

Lemma PolyAdd_value x y z : wf x → wf y →
  ∃ r, PolyAdd (of_vec x) (of_vec y) = Ok r ∧ wf r ∧ Len r = Z.max (Len x) (Len y) ∧
    horner (elems r) z = horner (elems x) z + horner (elems y) z.
Proof.
  intros Wx Wy. unfold PolyAdd. rewrite !len_of.
  assert (∀ x y, wf x → wf y → (Len x ≤ Len y)%Z → ∃ r, (r ← kind_WriteInSlice (of_vec y) (zeros (sv_Len (of_vec y)));
    r ← foldM (λ r i, a ← kind_Get (of_vec x) i; ri ← idx r i; store r i (ri + a)) r (seqZ 0 (sv_Len (of_vec x))); NewRegular r) = Ok r ∧
    wf r ∧ Len r = Len y ∧ horner (elems r) z = horner (elems y) z + horner (elems x) z) as G.
  { clear x y Wx Wy. intros x y Wx Wy L. rewrite !len_of. pose proof Wy as [Hl _].
    rewrite kind_Write_spec by (done || unfold zeros; apply zlen_replicate; lia). simpl.
    destruct (add_loop id sc_add (Len y) z (horner (elems y) z) x (elems y)) as (r & -> & Hr); try done.
    { split; [by apply zlen_elems|done]. }
    simpl. by apply NewRegular_value. }
  destruct (Z.ltb_spec (Len y) (Len x)).
  - destruct (G y x) as (r & E & W & L & V); [done|done|lia|]. exists r. split; [exact E|]. split; [done|]. split; [lia|done].
  - destruct (G x y) as (r & E & W & L & V); [done|done|lia|]. exists r. split; [exact E|]. split; [done|]. split; [lia|]. rewrite V. ring.
Qed.

Lemma PolySub_value x y z : wf x → wf y →
  ∃ r, PolySub (of_vec x) (of_vec y) = Ok r ∧ wf r ∧ Len r = Z.max (Len x) (Len y) ∧
    horner (elems r) z = horner (elems x) z - horner (elems y) z.
Proof.
  intros Wx Wy. unfold PolySub. rewrite !len_of, Max_2. simpl. pose proof Wx as [Hx _]. pose proof Wy as [Hy _].
  set (m := Z.max (Len x) (Len y)). assert (zlen (zeros m : list A) = m) as Lz by (apply zlen_replicate; lia).
  unfold in_slice. rewrite slice_Ok by lia. simpl. rewrite kind_Write_spec; [|done|].
  2:{ unfold zlen in *. rewrite length_take, length_drop. lia. }
  simpl. unfold zeros at 1. rewrite drop_replicate.
  destruct (add_loop sc_neg sc_sub m z (horner (elems x) z) y (elems x ++ replicate (Z.to_nat m - Z.to_nat (Len x)) 0)) as (r & -> & Hr);
    try (intros; ring); [done|lia| |].
  { split; [rewrite zlen_app, zlen_elems by done; unfold zlen; rewrite length_replicate; lia|]. rewrite horner_app, horner_zeros. ring. }
  simpl. destruct (NewRegular_value m z _ r ltac:(lia) Hr) as (q & E & W & L & V). exists q. split_and!; [done..|]. rewrite V. ring.
Qed.

(** ** Division by X - q *)

(** The values at [q] of the suffixes of a polynomial. *)
Fixpoint suffix_values l (q : A) : list A :=
  match l with [] => [] | c :: l' => horner (c :: l') q :: suffix_values l' q end.

Lemma suffix_values_lookup l q (i : nat) : (i < length l)%nat → suffix_values l q !! i = Some (horner (drop i l) q).
Proof. revert i. induction l as [|c l IH]; intros [|i] Hi; simpl in *; [lia|lia|done|]. apply IH. lia. Qed.

Lemma suffix_values_length l q : length (suffix_values l q) = length l.
Proof. induction l; simpl; congruence. Qed.

Lemma synthetic_division c l (q z : A) :
  horner (c :: l) z = horner (suffix_values l q) z * (z - q) + horner (c :: l) q.
Proof.
  revert c. induction l as [|d l IH]; intros c; [simpl; ring|].
  change (horner (c :: d :: l) z) with (horner (d :: l) z * z + c). rewrite (IH d). simpl. ring.
Qed.

Definition ruffini_inv l (q : A) (i : Z) (r : list A) : Prop :=
  zlen r = zlen l ∧ ∀ j, (i ≤ j < zlen l)%Z → r !! Z.to_nat j = Some (horner (drop (Z.to_nat j) l) q).

Lemma ruffini_loop x q : wf x → (1 < Len x)%Z →
  ∃ last quo, kind_Get (of_vec x) (Len x - 1) = Ok last ∧ store (zeros (Len x)) (Len x - 1) last = Ok quo ∧
    foldM (ruffini_step (of_vec x) q) quo (reverse (seqZ 0 (Len x - 1))) = Ok (suffix_values (elems x) q).
Proof.
  intros W Hl. pose proof (zlen_elems x W) as L. assert (zlen (zeros (Len x) : list A) = Len x) as Lz by (apply zlen_replicate; lia).
  destruct (Get_elems x (Len x - 1) W) as (last & El & Hlast); [lia|]. exists last. rewrite store_Ok by lia. eexists. split; [done|]. split; [done|].
  destruct (foldM_seqZ_down (ruffini_step (of_vec x) q) (ruffini_inv (elems x) q) (Len x - 1)
    (<[Z.to_nat (Len x - 1) := last]> (zeros (Len x)))) as (r & -> & Lr & Hr).
  - lia.
  - split; [by rewrite zlen_insert, Lz|]. intros j Hj. replace j with (Len x - 1)%Z by lia.
    rewrite list_lookup_insert_eq by (unfold zlen in Lz; lia). apply idx_Ok in Hlast as [_ Hlast].
    rewrite (drop_S _ last) by done. rewrite drop_ge by (rewrite length_elems by done; lia). simpl. f_equal. ring.
  - intros i r Hi [Lr Hr]. unfold ruffini_step. rewrite (idx_nat r (i + 1) _ ltac:(lia) (Hr (i + 1)%Z ltac:(lia))). simpl.
    destruct (Get_elems x i W) as (c & -> & Hc); [lia|]. simpl. rewrite store_Ok by lia. eexists. split; [done|].
    split; [by rewrite zlen_insert|]. intros j Hj. destruct (decide (j = i)) as [->|].
    + rewrite list_lookup_insert_eq by (unfold zlen in *; lia). apply idx_Ok in Hc as [_ Hc]. rewrite (drop_S _ c (Z.to_nat i)) by done. simpl.
      replace (S (Z.to_nat i)) with (Z.to_nat (i + 1)) by lia. done.
    + rewrite list_lookup_insert_ne by lia. apply Hr. lia.
  - f_equal. apply list_eq. intros i. unfold zlen in *. destruct (decide (i < length (elems x))%nat) as [Hi|Hi].
    + specialize (Hr (Z.of_nat i) ltac:(lia)). rewrite Nat2Z.id in Hr. by rewrite Hr, suffix_values_lookup.
    + rewrite !lookup_ge_None_2 by (rewrite ?suffix_values_length; lia). done.
Qed.

Lemma RuffiniQuoRem_division x q : wf x →
  ∃ quo rem, RuffiniQuoRem (of_vec x) q = Ok (quo, rem) ∧ wf quo ∧ rem = horner (elems x) q ∧
    ∀ z, horner (elems x) z = horner (elems quo) z * (z - q) + rem.
Proof.
  intros W. unfold RuffiniQuoRem. rewrite len_of. pose proof W as [Hl _]. pose proof (zlen_elems x W) as L.
  destruct (Z.eqb_spec (Len x) 0); [lia|]. destruct (elems x) as [|c l] eqn:Ee; [unfold zlen in L; simpl in L; lia|].
  destruct (Z.eqb_spec (Len x) 1) as [E1|E1].
  - destruct (Get_elems x 0 W) as (c' & -> & Ec); [lia|]. rewrite Ee in Ec. injection Ec as <-. unfold NewConstant. simpl.
    assert (l = []) as -> by (destruct l; [done|unfold zlen in L; simpl in L; lia]).
    assert (wf (Constant (0 : A) 1)) as W1 by (by split). eexists _, _. split; [done|]. split; [done|]. split; [simpl; ring|].
    intros z. assert (elems (Constant (0 : A) 1) = [0]) as -> by done. simpl. ring.
  - destruct (ruffini_loop x q W) as (last & quo & -> & Eq & Ef); [lia|]. simpl. rewrite Eq. simpl. rewrite Ef, Ee. simpl.
    unfold zlen. simpl length. rewrite slice_Ok by (unfold zlen; simpl length; lia). simpl.
    assert (take (Z.to_nat (Z.of_nat (S (length (suffix_values l q))) - 1)) (drop (Z.to_nat 1) (horner (c :: l) q :: suffix_values l q)) = suffix_values l q) as E.
    { change (Z.to_nat 1) with 1%nat. cbn [drop]. rewrite drop_0, take_ge by lia. done. }
    simpl in E. rewrite E. assert (zlen (suffix_values l q) = (Len x - 1)%Z) as Ls.
    { unfold zlen in *. rewrite suffix_values_length. simpl in L. lia. }
    assert (wf (Regular (suffix_values l q))) as W1 by (split; [simpl; lia|done]).
    rewrite NewRegular_Ok by lia. simpl. eexists _, _. split; [done|]. split; [done|]. split; [done|].
    intros z. rewrite elems_Regular by done. apply synthetic_division.
Qed.

(** ** Linear combinations by powers *)

(** The state after the vectors whose elements are given by [ws]. *)
Definition comb_inv (n : Z) (x : A) (ws : list (Z → A)) (st : comb_state A) : Prop :=
  let '(resReg, resCon, anyReg, anyCon, xPow) := st in
  zlen resReg = n ∧ xPow = sc_exp x (zlen ws) ∧
  (∀ i, (0 ≤ i < n)%Z → ∃ a, resReg !! Z.to_nat i = Some a ∧ a + resCon = horner ((λ w, w i) <$> ws) x ∧ (anyReg = false → a = 0)) ∧
  (anyCon = false → resCon = 0) ∧ (ws ≠ [] → anyReg || anyCon = true).

Lemma comb_start n (x : A) : (0 ≤ n)%Z → comb_inv n x [] (zeros n, 0, false, false, 1).
Proof.
  intros Hn. split; [apply zlen_replicate; lia|]. split; [by rewrite sc_exp_0|]. split; [|done]. intros i Hi. exists 0.
  split; [apply lookup_replicate_2; lia|]. split; [simpl; ring|done].
Qed.

Lemma next_power (x : A) (ws : list (Z → A)) w : x * sc_exp x (zlen ws) = sc_exp x (zlen (ws ++ [w])).
Proof. rewrite zlen_app. change (zlen [w]) with 1%Z. rewrite Z.add_1_r, sc_exp_succ by apply zlen_nonneg. done. Qed.

Lemma comb_const n (x c t : A) ws resReg resCon anyReg anyCon xPow :
  comb_inv n x ws (resReg, resCon, anyReg, anyCon, xPow) → t = c * xPow →
  comb_inv n x (ws ++ [λ _, c]) (resReg, resCon + t, anyReg, true, x * xPow).
Proof.
  intros (L & -> & HR & HC & _) ->. split; [done|]. split; [apply next_power|]. split.
  - intros i Hi. destruct (HR i Hi) as (a & Ea & V & Z0). exists a. split; [done|]. split; [|done].
    rewrite fmap_app. simpl. rewrite horner_snoc. unfold zlen at 2. rewrite length_fmap. fold (zlen ws). rewrite <-V. ring.
  - split; [done|]. intros _. by rewrite orb_true_r.
Qed.

Lemma comb_reg n (x : A) w ws resReg resReg' resCon anyReg anyCon xPow :
  comb_inv n x ws (resReg, resCon, anyReg, anyCon, xPow) → zlen resReg' = n →
  (∀ i a, (0 ≤ i < n)%Z → resReg !! Z.to_nat i = Some a → resReg' !! Z.to_nat i = Some (a + w i * xPow)) →
  comb_inv n x (ws ++ [w]) (resReg', resCon, true, anyCon, x * xPow).
Proof.
  intros (L & -> & HR & HC & _) L' E. split; [done|]. split; [apply next_power|]. split; [|done].
  intros i Hi. destruct (HR i Hi) as (a & Ea & V & _). exists (a + w i * sc_exp x (zlen ws)). split; [by apply E|]. split; [|done].
  rewrite fmap_app. simpl. rewrite horner_snoc. unfold zlen at 2. rewrite length_fmap. fold (zlen ws). rewrite <-V. ring.
Qed.

Lemma comb_finish n (x : A) ws st : (0 < n < 2 ^ 61)%Z → ws ≠ [] → comb_inv n x ws st →
  ∃ y, finish_combination n st = Ok y ∧ wf y ∧ Len y = n ∧ ∀ i, (0 ≤ i < n)%Z → elem_at y i = Some (horner ((λ w, w i) <$> ws) x).
Proof.
  intros Hn Hne. destruct st as [[[[resReg resCon] anyReg] anyCon] xPow]. intros (L & _ & HR & HC & Hany). specialize (Hany Hne).
  unfold finish_combination. destruct anyCon, anyReg; simpl in *; [| | |done].
  - rewrite NewRegular_Ok by (rewrite zlen_fmap; lia). eexists. split; [done|]. split; [split; [simpl; rewrite zlen_fmap; lia|done]|].
    split; [by simpl; rewrite zlen_fmap|]. intros i Hi. simpl. destruct (HR i Hi) as (a & Ea & V & _). rewrite list_lookup_fmap, Ea. simpl. by rewrite V.
  - unfold NewConstant. destruct (Z.leb_spec n 0); [lia|]. eexists. split; [done|]. split; [by split|]. split; [done|]. intros i Hi.
    destruct (HR i Hi) as (a & _ & V & Z0). rewrite <-V, Z0 by done. simpl. f_equal. ring.
  - rewrite NewRegular_Ok by lia. eexists. split; [done|]. split; [split; [simpl; lia|done]|]. split; [done|]. intros i Hi. simpl.
    destruct (HR i Hi) as (a & -> & V & _). rewrite <-V, HC by done. f_equal. ring.
Qed.

Lemma accumulate_spec (n : Z) (acc v : list A) (x : A) : zlen acc = n → zlen v = n →
  ∃ r, accumulate n acc v x = Ok r ∧ zlen r = n ∧
    ∀ i a b, (0 ≤ i < n)%Z → acc !! Z.to_nat i = Some a → v !! Z.to_nat i = Some b → r !! Z.to_nat i = Some (a + b * x).
Proof.
  intros La Lv. unfold accumulate.
  destruct (foldM_seqZ (λ acc i, vi ← idx v i; ai ← idx acc i; store acc i (ai + vi * x))
    (λ k r, zlen r = n ∧ ∀ i a b, (0 ≤ i < n)%Z → acc !! Z.to_nat i = Some a → v !! Z.to_nat i = Some b →
       r !! Z.to_nat i = Some (if decide (i < k)%Z then a + b * x else a)) 0 n acc) as (r & E & L & R).
  - rewrite <-La. apply zlen_nonneg.
  - split; [done|]. intros i a b Hi Ha Hb. rewrite decide_False by lia. done.
  - intros k r Hk [L R]. destruct (idx_is_Ok v k) as [b Hb]; [lia|]. destruct (idx_is_Ok acc k) as [a Ha]; [lia|]. rewrite Hb. simpl.
    apply idx_Ok in Ha as [_ Ha], Hb as [_ Hb]. rewrite (idx_nat r k a) by (lia || rewrite (R k a b) by (done || lia); by rewrite decide_False by lia).
    simpl. rewrite store_Ok by lia. eexists. split; [done|]. split; [by rewrite zlen_insert|]. intros i a' b' Hi Ha' Hb'.
    destruct (decide (i = k)) as [->|].
    + rewrite list_lookup_insert_eq by (unfold zlen in L; lia). rewrite decide_True by lia. congruence.
    + rewrite list_lookup_insert_ne, (R i a' b') by (done || lia). repeat case_decide; done || lia.
  - exists r. split; [exact E|]. split; [done|]. intros i a b Hi Ha Hb. rewrite (R i a b) by done. by rewrite decide_True by lia.
Qed.

(** ** Bivariate evaluation *)

Lemma horner_rows (rows : list (list A)) k (x : A) : (0 ≤ k)%Z → Forall (λ r, zlen r = k) rows →
  horner ((λ r, horner r x) <$> rows) (sc_exp x k) = horner (concat rows) x.
Proof.
  intros Hk HF. induction HF as [|r rows Hr _ IH]; [done|]. rewrite fmap_cons. cbn [concat]. rewrite horner_app, <-IH, Hr. simpl. ring.
Qed.

Definition row (l : list A) (k j : Z) : list A := take (Z.to_nat k) (drop (Z.to_nat (j * k)) l).

Lemma take_plus l (i j : nat) : take (i + j) l = take i l ++ take j (drop i l).
Proof. revert l. induction i as [|i IH]; intros [|a l]; simpl; [done|done|by rewrite take_nil|]. by rewrite IH. Qed.

Lemma rows_concat l k m : (0 ≤ k)%Z → (0 ≤ m)%Z → concat (row l k <$> seqZ 0 m) = take (Z.to_nat (m * k)) l.
Proof.
  intros Hk Hm. pattern m. apply natlike_ind; [done| |done]. clear m Hm. intros m Hm IH.
  rewrite <-Z.add_1_r, (seqZ_app 0 m 1), fmap_app, concat_app, IH by lia. change (seqZ (0 + m) 1) with [Z.of_nat 0 + m]%Z.
  simpl. rewrite app_nil_r, Z.add_0_l. unfold row. rewrite <-take_plus. f_equal. nia.
Qed.

Lemma rows_eval l k m (x : A) : (0 < k)%Z → (zlen l = m * k)%Z →
  mapR (λ j, part ← slice l (j * k) (j * k + k); Vectors.Eval part x) (seqZ 0 m) = Ok ((λ r, horner r x) <$> (row l k <$> seqZ 0 m)) ∧
  Forall (λ r, zlen r = k) (row l k <$> seqZ 0 m).
Proof.
  intros Hk L. split.
  - rewrite <-list_fmap_compose. apply mapR_Ok. intros j Hj%elem_of_seqZ. rewrite slice_Ok by nia. simpl. rewrite Eval_spec. unfold row.
    simpl. do 3 f_equal. lia.
  - apply Forall_fmap, Forall_forall. intros j Hj%elem_of_seqZ. unfold row, zlen in *. simpl. rewrite length_take, length_drop. nia.
Qed.
End arith.

Section combinations.
Context `{ElementLaws F, !ExtOps F, !ExtLaws F}.
Implicit Types (s : SmartVector.t F).

Definition of_length (n : Z) s : Prop :=
  match s with OfBase v => wf v ∧ Len v = n | OfExt v => wf v ∧ Len v = n end.

Definition base_elem s (i : Z) : F := match s with OfBase v => default el_zero (elem_at v i) | OfExt _ => el_zero end.
Definition ext_elem s (i : Z) : E4 F :=
  match s with OfBase v => Lift (default el_zero (elem_at v i)) | OfExt v => default Zero (elem_at v i) end.
Definition is_base s : bool := match s with OfBase _ => true | OfExt _ => false end.

Lemma reg_elem {A} (v : vec A) (w : list A) d i : wf v → w = elems v → 0 ≤ i < Len v → w !! Z.to_nat i = Some (default d (elem_at v i)).
Proof. intros W -> Hi. rewrite elems_lookup by done. by destruct (elem_at_Some v i W Hi) as [a ->]. Qed.

(** What a step of the loop does with a vector that is not constant. *)
Lemma comb_accumulate `{ScalarLaws A} n x (v : vec A) ws (st : comb_state A) : wf v → Len v = n → comb_inv n x ws st →
  let '(resReg, resCon, _, anyCon, xPow) := st in
  ∃ r, accumulate n resReg (elems v) xPow = Ok r ∧
    comb_inv n x (ws ++ [λ i, default sc_zero (elem_at v i)]) (r, resCon, true, anyCon, sc_mul x xPow).
Proof.
  intros W L I. destruct st as [[[[resReg resCon] anyReg] anyCon] xPow]. pose proof I as (Lr & _).
  destruct (accumulate_spec n resReg (elems v) xPow) as (r & -> & L' & R); [done|by rewrite zlen_elems|].
  exists r. split; [done|]. eapply comb_reg; [exact I|done|]. intros i a Hi Ha. apply R; [done..|]. by apply (reg_elem v); [| |lia].
Qed.

Lemma comb_step_spec n x s ws st : of_length n s → is_base s = true → 0 < n → comb_inv n x ws st →
  ∃ st', comb_step n x st s = Ok st' ∧ comb_inv n x (ws ++ [base_elem s]) st'.
Proof.
  intros Hs Hb Hn I. destruct s as [v|]; [|done]. destruct Hs as [W L]. pose proof (comb_accumulate n x v ws st W L I) as Acc.
  destruct st as [[[[resReg resCon] anyReg] anyCon] xPow]. destruct Acc as (r & Er & Ir). unfold comb_step.
  destruct v as [c len|w|w o|w pad tot o].
  - eexists. split; [done|]. exact (comb_const n x c (c * xPow)%el ws resReg resCon anyReg anyCon xPow I eq_refl).
  - rewrite elems_Regular in Er by done. rewrite Er. simpl. eexists. split; [done|]. exact Ir.
  - rewrite rotatedAsRegular_spec by done. simpl. rewrite Er. simpl. eexists. split; [done|]. exact Ir.
  - rewrite WriteInSlice_spec by (done || unfold zeros; rewrite zlen_replicate by lia; done). cbn [res_bind mbind]. simpl. rewrite Er. simpl.
    eexists. split; [done|]. exact Ir.
Qed.

Lemma only_constants_spec (vs : list (vec F)) cs : only_constants (OfBase <$> vs) = Some cs →
  ∀ i, cs = (λ v, default el_zero (elem_at v i)) <$> vs.
Proof.
  revert cs. induction vs as [|v vs IH]; intros cs E i; [by injection E as <-|]. rewrite fmap_cons in E. destruct v; try done. simpl in E.
  destruct (only_constants (OfBase <$> vs)) as [cs'|] eqn:E'; [|done]. injection E as <-. rewrite fmap_cons. simpl. f_equal. by apply IH.
Qed.

Lemma comb_loop {A} `{ScalarLaws A} n (x : A) (step : comb_state A → SmartVector.t F → res (comb_state A)) (el : SmartVector.t F → Z → A)
    (good : SmartVector.t F → Prop) (l : list (SmartVector.t F)) : 0 ≤ n →
  (∀ s ws st, good s → comb_inv n x ws st → ∃ st', step st s = Ok st' ∧ comb_inv n x (ws ++ [el s]) st') →
  Forall good l → ∃ st, foldM step (zeros n, sc_zero, false, false, sc_one) l = Ok st ∧ comb_inv n x (el <$> l) st.
Proof.
  intros Hn Hstep Hl. destruct (foldM_rule step (λ k st, comb_inv n x (el <$> k) st) l (zeros n, sc_zero, false, false, sc_one)) as (st & E & I).
  - by apply comb_start.
  - intros k s st Hs I. rewrite Forall_forall in Hl. destruct (Hstep s _ st (Hl s Hs) I) as (st' & E & I'). exists st'. split; [done|].
    by rewrite fmap_app.
  - by exists st.
Qed.

Lemma LinearCombination_powers n x (vs : list (vec F)) : 0 < n < 2 ^ 61 → vs ≠ [] → Forall (λ v, wf v ∧ Len v = n) vs →
  ∃ y, LinearCombination (OfBase <$> vs) x = Ok y ∧ wf y ∧ Len y = n ∧
    ∀ i, 0 ≤ i < n → elem_at y i = Some (horner ((λ v, default el_zero (elem_at v i)) <$> vs) x).
Proof.
  intros Hn Hne Hvs. unfold LinearCombination. destruct vs as [|v0 vs0] eqn:Ev; [done|]. rewrite <-Ev in *.
  assert (idx (OfBase <$> vs : list (SmartVector.t F)) 0 = Ok (OfBase v0)) as -> by by rewrite Ev. simpl.
  assert (Len v0 = n) as -> by (rewrite Ev in Hvs; by apply Forall_cons_1 in Hvs as [[_ ?] _]).
  destruct (only_constants (OfBase <$> vs)) as [cs|] eqn:Ec.
  - rewrite Eval_spec. simpl. unfold NewConstant. destruct (Z.leb_spec n 0); [lia|]. eexists. split; [done|]. split; [by split|].
    split; [done|]. intros i Hi. simpl. by rewrite (only_constants_spec vs cs Ec i).
  - destruct (Z.ltb_spec n 0); [lia|]. destruct (comb_loop n x (comb_step n x) base_elem (λ s, of_length n s ∧ is_base s = true) (OfBase <$> vs)) as (st & E & I).
    + lia.
    + intros s ws st [Hs Hb]. apply comb_step_spec; [done|done|lia].
    + apply Forall_fmap. eapply Forall_impl; [exact Hvs|]. done.
    + simpl in E. rewrite E. simpl. destruct (comb_finish n x (base_elem <$> (OfBase <$> vs)) st Hn ltac:(by rewrite Ev) I) as (y & -> & W & L & Ey).
      exists y. split_and!; [done..|]. intros i Hi. rewrite Ey by done. by rewrite <-!list_fmap_compose.
Qed.

(** *** Over the extension *)

Context `{!MulAcc F, !MulAccLaws F}.

Lemma comb_accumulate_base n x (v : vec F) ws (st : comb_state (E4 F)) : wf v → Len v = n → comb_inv n x ws st →
  let '(resReg, resCon, _, anyCon, xPow) := st in
  ∃ r, vec_MulAccByElement resReg (elems v) xPow = Ok r ∧
    comb_inv n x (ws ++ [ext_elem (OfBase v)]) (r, resCon, true, anyCon, e4_mul x xPow).
Proof.
  intros W L I. destruct st as [[[[resReg resCon] anyReg] anyCon] xPow]. pose proof I as (Lr & _). pose proof (zlen_elems v W) as Le.
  rewrite vec_MulAccByElement_spec by (unfold zlen in *; lia). eexists. split; [done|]. refine (comb_reg n x (ext_elem (OfBase v)) ws resReg _ resCon anyReg anyCon xPow I _ _).
  - unfold zlen in *. rewrite length_zip_with. lia.
  - intros i a Hi Ha. rewrite lookup_zip_with, Ha. simpl. rewrite elems_lookup by (done || lia).
    destruct (elem_at_Some v i W) as [b Eb]; [lia|]. unfold ext_elem. rewrite Eb. simpl. f_equal. f_equal.
    rewrite mul_by_element_Lift. apply (Ring_theory.Rmul_comm e4_ring).
Qed.

Lemma const_term_base (xPow : E4 F) a : e4_mul_by_element xPow a = e4_mul (Lift a) xPow.
Proof. rewrite mul_by_element_Lift. apply (Ring_theory.Rmul_comm e4_ring). Qed.

Definition not_base_rotated s : Prop := match s with OfBase (Rotated _ _) => False | _ => True end.

Lemma comb_ext_step_spec n x s ws st : of_length n s → not_base_rotated s → 0 < n → comb_inv n x ws st →
  ∃ st', comb_ext_step n x st s = Ok st' ∧ comb_inv n x (ws ++ [ext_elem s]) st'.
Proof.
  intros Hs Hb Hn I. destruct s as [v|v]; destruct Hs as [W L].
  - pose proof (comb_accumulate_base n x v ws st W L I) as Acc. destruct st as [[[[resReg resCon] anyReg] anyCon] xPow].
    destruct Acc as (r & Er & Ir). unfold comb_ext_step. destruct v as [c len|w|w o|w pad tot o]; [| |done|].
    + eexists. split; [done|]. exact (comb_const n x (Lift c) _ ws resReg resCon anyReg anyCon xPow I (const_term_base xPow c)).
    + rewrite elems_Regular in Er by done. rewrite Er. simpl. eexists. split; [done|]. exact Ir.
    + rewrite WriteInSlice_spec by (done || rewrite zlen_replicate by lia; done). cbn [res_bind mbind]. simpl. rewrite Er. simpl.
      eexists. split; [done|]. exact Ir.
  - pose proof (comb_accumulate (A := E4 F) n x v ws st W L I) as Acc. destruct st as [[[[resReg resCon] anyReg] anyCon] xPow].
    destruct Acc as (r & Er & Ir). unfold comb_ext_step. destruct v as [c len|w|w o|w pad tot o].
    + eexists. split; [done|]. exact (comb_const n x c _ ws resReg resCon anyReg anyCon xPow I eq_refl).
    + rewrite elems_Regular in Er by done. rewrite Er. simpl. eexists. split; [done|]. exact Ir.
    + rewrite rotatedAsRegular_spec by done. simpl. rewrite Er. simpl. eexists. split; [done|]. exact Ir.
    + rewrite WriteInSliceSame_spec by (done || unfold zeros; rewrite zlen_replicate by lia; done). cbn [res_bind mbind]. simpl. rewrite Er. simpl.
      eexists. split; [done|]. exact Ir.
Qed.

Lemma comb_mixed_step_spec n x s ws st : of_length n s → is_base s = true → 0 < n → comb_inv n x ws st →
  ∃ st', comb_mixed_step n x st s = Ok st' ∧ comb_inv n x (ws ++ [ext_elem s]) st'.
Proof.
  intros Hs Hb Hn I. destruct s as [v|]; [|done]. destruct Hs as [W L].
  pose proof (comb_accumulate_base n x v ws st W L I) as Acc. destruct st as [[[[resReg resCon] anyReg] anyCon] xPow].
  destruct Acc as (r & Er & Ir). unfold comb_mixed_step. destruct v as [c len|w|w o|w pad tot o].
  - eexists. split; [done|]. exact (comb_const n x (Lift c) _ ws resReg resCon anyReg anyCon xPow I (const_term_base xPow c)).
  - rewrite elems_Regular in Er by done. rewrite Er. simpl. eexists. split; [done|]. exact Ir.
  - rewrite rotatedAsRegular_spec by done. simpl. rewrite Er. simpl. eexists. split; [done|]. exact Ir.
  - rewrite WriteInSlice_spec by (done || rewrite zlen_replicate by lia; done). cbn [res_bind mbind]. simpl. rewrite Er. simpl.
    eexists. split; [done|]. exact Ir.
Qed.

(** The element at [i] of the combination of [l]. *)
Definition combination (x : E4 F) (l : list (SmartVector.t F)) (i : Z) : E4 F := horner ((λ s, ext_elem s i) <$> l) x.

Lemma combination_from n x (step : comb_state (E4 F) → SmartVector.t F → res (comb_state (E4 F))) (good : SmartVector.t F → Prop) l :
  0 < n < 2 ^ 61 → l ≠ [] → Forall (λ s, of_length n s ∧ good s) l →
  (∀ s ws st, of_length n s ∧ good s → comb_inv n x ws st → ∃ st', step st s = Ok st' ∧ comb_inv n x (ws ++ [ext_elem s]) st') →
  ∃ y, (v0 ← idx l 0; let length := sv_Len v0 in if length <? 0 then Panic else
        st ← foldM step (zeros n, Zero, false, false, One) l; finish_combination length st) = Ok y ∧
    wf y ∧ Len y = n ∧ ∀ i, 0 ≤ i < n → elem_at y i = Some (combination x l i).
Proof.
  intros Hn Hne Hl Hstep. destruct l as [|s0 l0] eqn:El; [done|]. rewrite <-El in *.
  assert (idx l 0 = Ok s0) as -> by by rewrite El. simpl. assert (sv_Len s0 = n) as ->.
  { rewrite El in Hl. apply Forall_cons_1 in Hl as [[Hs _] _]. destruct s0; by destruct Hs. }
  destruct (Z.ltb_spec n 0); [lia|]. destruct (comb_loop (A := E4 F) n x step ext_elem (λ s, of_length n s ∧ good s) l) as (st & E & I); [lia|done|done|].
  simpl in E. rewrite E. simpl. destruct (comb_finish n x (ext_elem <$> l) st Hn ltac:(by rewrite El) I) as (y & -> & W & L & Ey).
  exists y. split_and!; [done..|]. intros i Hi. rewrite Ey by done. unfold combination. by rewrite <-list_fmap_compose.
Qed.

(** ** Parallel batch inversion *)

(** The positions that satisfy [done_] hold the inverses, the others zero. *)
Definition inverted (a : list (E4 F)) (done_ : Z → Prop) (r : list (E4 F)) : Prop :=
  zlen r = zlen a ∧ ∀ i x, 0 ≤ i < zlen a → a !! Z.to_nat i = Some x →
    (done_ i → r !! Z.to_nat i = Some (e4_inverse x)) ∧ (¬ done_ i → r !! Z.to_nat i = Some Zero).

Lemma invert_task a (D : Z → Prop) r (start stop : Z) : 0 ≤ start < stop → stop ≤ zlen a →
  inverted a D r → (∀ i, start ≤ i < stop → ¬ D i) →
  ∃ part r', slice a start stop = Ok part ∧ in_slice r start stop (BatchInvertInto part) = Ok r' ∧
    inverted a (λ i, D i ∨ start ≤ i < stop) r'.
Proof.
  intros Hs Hstop [L R] HD. destruct (slice_exists a start stop) as [part Ep]; [lia..|]. exists part.
  destruct (slice_exists r start stop) as [sub Es]; [lia..|]. pose proof (zlen_slice _ _ _ _ Ep) as Lp. pose proof (zlen_slice _ _ _ _ Es) as Ls.
  destruct (BatchInvertInto_spec part sub) as (q & Eq & Lq & Q); [unfold zlen in *; lia|].
  destruct (in_slice_spec r start stop (BatchInvertInto part) q) as (r' & -> & L' & R'); [lia..| |].
  { intros s E. assert (s = sub) as -> by congruence. split; [done|]. unfold zlen in *. lia. }
  exists r'. split; [done|]. split; [done|]. split; [lia|]. intros i x Hi Hx. rewrite R' by lia. destruct (R i x Hi Hx) as [R1 R2]. case_decide as D'.
  - split; [|intros N; destruct N; by right]. intros _. rewrite (Q (Z.to_nat (i - start)) x).
    + unfold Fext.IsZero. case_bool_decide as E0; [|done]. rewrite (lookup_slice _ _ _ _ _ Es) by lia.
      replace (start + (i - start)) with i by lia. rewrite R2 by (apply HD; lia). by rewrite E0, e4_inverse_0.
    + rewrite (lookup_slice _ _ _ _ _ Ep) by lia. by replace (start + (i - start)) with i by lia.
  - split.
    + intros [?|?]; [by apply R1|done].
    + intros N. apply R2. intros ?. apply N. by left.
Qed.

Lemma ranges_disjoint gomaxprocs maxCpus n l x k : 0 ≤ n → Parallel.Execute_ranges gomaxprocs maxCpus n = l ++ x :: k →
  ∀ i, x.1 ≤ i < x.2 → i ∉ concat (Parallel.iterations <$> l).
Proof.
  intros Hn E i Hi Hin. pose proof (Parallel.Execute_ranges_cover gomaxprocs maxCpus n Hn) as C. rewrite E, fmap_app, concat_app in C.
  pose proof (NoDup_seqZ 0 n) as N. rewrite <-C in N. apply NoDup_app in N as (_ & N & _). apply (N i Hin).
  rewrite fmap_cons. cbn [concat]. apply elem_of_app. left. unfold Parallel.iterations. apply elem_of_seqZ. lia.
Qed.

Lemma ParBatchInvert_spec gomaxprocs (a : list (E4 F)) numCPU :
  ParBatchInvert gomaxprocs a numCPU = Ok (e4_inverse <$> a).
Proof.
  unfold ParBatchInvert. set (m := if numCPU =? 0 then gomaxprocs else numCPU). clearbody m.
  destruct (decide (a = [])) as [->|Hne].
  { change (zlen []) with 0. unfold Parallel.Execute_ranges. set (t := Z.max 1 _). assert (1 ≤ t) by lia. clearbody t. destruct (t =? 1); [done|].
    by rewrite Z.quot_0_l by lia. }
  assert (0 < zlen a) as Ha by (destruct a; [done|unfold zlen; simpl; lia]).
  destruct (foldM_prefix (λ r range, part ← slice a range.1 range.2; in_slice r range.1 range.2 (BatchInvertInto part))
    (λ l, inverted a (λ i, i ∈ concat (Parallel.iterations <$> l))) (Parallel.Execute_ranges gomaxprocs [m] (zlen a)) (replicate (length a) Zero))
    as (r & -> & L & R).
  - split; [unfold zlen; by rewrite length_replicate|]. intros i x Hi Hx. split; [by intros ?%elem_of_nil|]. intros _.
    apply lookup_replicate_2. unfold zlen in Hi. lia.
  - intros l [start stop] k r E I. assert ((start, stop) ∈ Parallel.Execute_ranges gomaxprocs [m] (zlen a)) as Hin by (rewrite E; apply elem_of_app; right; by left).
    apply Execute_ranges_nonempty in Hin as Hb; [|lia]. simpl in Hb.
    destruct (invert_task a _ r start stop ltac:(lia) ltac:(lia) I) as (part & r' & Ep & Er & I').
    { intros i Hi. by apply (ranges_disjoint gomaxprocs [m] (zlen a) l (start, stop) k); [lia| |]. }
    simpl. rewrite Ep. simpl. rewrite Er. exists r'. split; [done|]. destruct I' as [L' R']. split; [done|]. intros i x Hi Hx.
    destruct (R' i x Hi Hx) as [R1 R2]. rewrite fmap_app, concat_app, elem_of_app. simpl. rewrite app_nil_r.
    assert (i ∈ Parallel.iterations (start, stop) ↔ start ≤ i < stop) as -> by (unfold Parallel.iterations; rewrite elem_of_seqZ; simpl; lia). done.
  - f_equal. apply list_eq. intros i. rewrite list_lookup_fmap. unfold zlen in *. destruct (a !! i) as [x|] eqn:Ex.
    + apply lookup_lt_Some in Ex as Hi. destruct (R (Z.of_nat i) x) as [R1 _]; [lia|by rewrite Nat2Z.id|]. rewrite Nat2Z.id in R1. apply R1.
      rewrite Parallel.Execute_ranges_cover by lia. apply elem_of_seqZ. lia.
    + simpl. apply lookup_ge_None_1 in Ex. apply lookup_ge_None_2. lia.
Qed.

(** ** Evaluation *)

Lemma EvalCoeff_value (v : vec F) x : wf v → EvalCoeff (OfBase v) x = Ok (horner (elems v) x).
Proof.
  intros W. unfold EvalCoeff. simpl. rewrite WriteInSlice_spec; [|done|]. { simpl. apply Eval_spec. }
  unfold zeros. apply zlen_replicate. destruct W. lia.
Qed.

Lemma EvalCoeffBivariate_value (v : vec F) x k m : wf v → 0 < k → Len v = m * k →
  EvalCoeffBivariate (OfBase v) x k (el_exp x k) = EvalCoeff (OfBase v) x.
Proof.
  intros W Hk L. rewrite EvalCoeff_value by done. unfold EvalCoeffBivariate. destruct (Z.leb_spec k 0); [lia|]. simpl.
  rewrite L, Z.rem_mul by lia. simpl. rewrite WriteInSlice_spec; [|done|].
  2:{ unfold zeros. rewrite L. apply zlen_replicate. destruct W. lia. }
  simpl. rewrite (zlen_elems v W), L, Z.quot_mul by lia.
  destruct (rows_eval (elems v) k m x Hk) as [E HF]; [by rewrite zlen_elems|]. simpl in E. rewrite E. simpl. rewrite Eval_spec.
  f_equal. change (el_exp x k) with (sc_exp x k). rewrite horner_rows by (done || lia). rewrite rows_concat by (destruct W; nia).
  rewrite take_ge; [done|]. rewrite length_elems by done. lia.
Qed.
End combinations.
End SmartVectorArith.
