(* ===== verification/SmartVectorMixed.v ===== *)
(** * Operations on base and extension vectors together

    Model of src/prover/maths/common/smartvectors_mixed: the operands are separated into
    base and extension vectors, each group is processed in its field, and the base result
    is lifted to the extension. *)

From S2P Require Export SmartVectorArith.
From Stdlib Require Import Ring_theory Ring.
Import Utils Fext CircularInterval SmartVector SmartVectorOps SmartVectorFacts VectorsFacts OperatorFacts SmartVectorProcess SmartVectorArith.

Module SmartVectorMixed.
Section mixed.
Context `{ElementOps F, !ExtOps F, !VectorOps F, !VectorOps (E4 F), !SortByStart}.
Notation SmartVector := (SmartVector.t F).

Definition LiftToExt (s : SmartVector) : res SmartVector :=
  b ← IsBase s;
  if negb b then Panic else
  match s with
  | OfBase (Constant a n) => r ← NewConstant (Lift a) n; Ok (OfExt r)
  | OfBase (PaddedCircularWindow w pad tot o) =>
      r ← NewPaddedCircularWindow (Lift <$> w) (Lift pad) o tot; Ok (OfExt r)
  | OfBase v =>
      l ← sv_WriteInSliceExt s (replicate (Z.to_nat (Len v)) Zero); r ← NewRegular l; Ok (OfExt r)
  | OfExt _ => Panic
  end.

(** [SeparateBaseAndExtVectors] *)
Fixpoint SeparateBaseAndExtVectors (vecs : list SmartVector) : res (list SmartVector * list SmartVector) :=
  match vecs with
  | [] => Ok ([], [])
  | v :: vecs' =>
      b ← IsBase v;
      r ← SeparateBaseAndExtVectors vecs';
      Ok (if (b : bool) then (v :: r.1, r.2) else (r.1, v :: r.2))
  end.

(** [SeparateBaseAndExtVectorsWithCoeffs]: the loop over [index], with [vecsBase],
    [vecsExt], [coeffsBase] and [coeffsExt] as state. *)
Definition separate_step (coeffs : list Z) (st : list SmartVector * list SmartVector * list Z * list Z) (ix : Z * SmartVector)
    : res (list SmartVector * list SmartVector * list Z * list Z) :=
  let '(vecsBase, vecsExt, coeffsBase, coeffsExt) := st in
  b ← IsBase ix.2;
  c ← idx coeffs ix.1;
  Ok (if (b : bool) then (vecsBase ++ [ix.2], vecsExt, coeffsBase ++ [c], coeffsExt)
      else (vecsBase, vecsExt ++ [ix.2], coeffsBase, coeffsExt ++ [c])).

Definition SeparateBaseAndExtVectorsWithCoeffs (coeffs : list Z) (vecs : list SmartVector)
    : res (list SmartVector * list SmartVector * list Z * list Z) :=
  foldM (separate_step coeffs) ([], [], [], []) (enumerate vecs).

(** The results of the operations of smartvectors as values of the interface; [None] is nil. *)
Definition as_base (r : res (option (vec F) * list SmartVector)) : res (option SmartVector) :=
  match r with Ok (x, _) => Ok (OfBase <$> x) | Panic => Panic end.
Definition as_ext (r : res (option (vec (E4 F)) * list SmartVector)) : res (option SmartVector) :=
  match r with Ok (x, _) => Ok (OfExt <$> x) | Panic => Panic end.

(** Calling a method on nil panics. *)
Definition deref {B} (r : option B) : res B := match r with Some x => Ok x | None => Panic end.

Definition executeFuncOnBaseExt (vecs : list SmartVector)
    (baseOperation extOperation finalOperation : list SmartVector → res (option SmartVector)) (neutralElement : F)
    : res (option SmartVector) :=
  sep ← SeparateBaseAndExtVectors vecs;
  let '(vecsBase, vecsExt) := sep in
  v0 ← idx vecs 0;
  neutral ← NewConstant neutralElement (sv_Len v0);
  r ← (if 0 <? zlen vecsBase then baseOperation vecsBase else Ok (Some (OfBase neutral)));
  if zlen vecsExt =? 0 then Ok r else
  addExt ← extOperation vecsExt;
  base ← deref r;
  liftedBase ← LiftToExt base;
  addExt ← deref addExt;
  finalOperation [liftedBase; addExt].

Definition AddMixed (vecs : list SmartVector) : res (option SmartVector) :=
  executeFuncOnBaseExt vecs (λ l, as_base (Add l)) (λ l, as_ext (AddExt l)) (λ l, as_ext (AddExt l)) el_zero.

Definition MulMixed (vecs : list SmartVector) : res (option SmartVector) :=
  executeFuncOnBaseExt vecs (λ l, as_base (Mul l)) (λ l, as_ext (MulExt l)) (λ l, as_ext (MulExt l)) el_one.

(** [LinCombMixed] and [ProductMixed] differ in the operations they call. *)
Definition combine_mixed (baseOp extOp : list Z → list SmartVector → res (option SmartVector))
    (merge : list SmartVector → res (option SmartVector)) (neutral : F) (coeffs : list Z) (svecs : list SmartVector)
    : res (option SmartVector) :=
  sep ← SeparateBaseAndExtVectorsWithCoeffs coeffs svecs;
  let '(vecsBase, vecsExt, coeffsBase, coeffsExt) := sep in
  s0 ← idx svecs 0;
  neutralVec ← NewConstant neutral (sv_Len s0);
  resBase ← (if 0 <? zlen vecsBase then baseOp coeffsBase vecsBase else Ok (Some (OfBase neutralVec)));
  if zlen vecsExt =? 0 then Ok resBase else
  e0 ← idx vecsExt 0;
  _ ← (if 0 <? zlen vecsBase
       then b0 ← idx vecsBase 0; (if negb (sv_Len b0 =? sv_Len e0) then Panic else Ok ())
       else Ok ());
  resExt ← extOp coeffsExt vecsExt;
  base ← deref resBase;
  liftedBase ← LiftToExt base;
  resExt ← deref resExt;
  merge [liftedBase; resExt].

Definition LinCombMixed : list Z → list SmartVector → res (option SmartVector) :=
  combine_mixed (λ c l, as_base (LinComb c l)) (λ c l, as_ext (LinCombExt c l)) AddMixed el_zero.

Definition ProductMixed : list Z → list SmartVector → res (option SmartVector) :=
  combine_mixed (λ c l, as_base (Product c l)) (λ c l, as_ext (ProductExt c l)) MulMixed el_one.

(** [Mul] and [ScalarMul] of the package. *)
Definition mixed_Mul (vecs : list SmartVector) : res (option SmartVector) :=
  ProductMixed (replicate (length vecs) 1) vecs.

Definition mixed_ScalarMul (v : SmartVector) (x : F) : res (option SmartVector) :=
  xVec ← NewConstant x (sv_Len v); mixed_Mul [v; OfBase xVec].
End mixed.

Section facts.
Context `{ElementLaws F, !ExtOps F, !ExtLaws F, !VectorOps F, !VectorLaws F, !VectorOps (E4 F), !VectorLaws (E4 F), !SortByStart, !SortByStartLaws}.
Implicit Types (s : SmartVector.t F) (n i : Z).
#[local] Arguments ext_elem : simpl never.

Lemma IsBase_of_length n s : 0 < n → of_length n s → IsBase s = Ok (is_base s).
Proof.
  intros Hn Hs. unfold IsBase, GetBase. destruct s as [v|v]; [|done]. destruct Hs as [W L].
  destruct (Get_spec v 0 W) as (a & -> & _); [lia|done].
Qed.

(** ** Lifting *)

Lemma write_rotated (v : list F) o dst : wf (Rotated v o) → zlen dst = zlen v →
  sv_WriteInSliceExt (OfBase (Rotated v o)) dst = Ok (Lift <$> elems (Rotated v o)).
Proof.
  intros W L. simpl. rewrite rotatedAsRegular_spec by done. simpl. pose proof (zlen_elems _ W) as Le. simpl in Le.
  set (temp := elems (Rotated v o)) in *. clearbody temp.
  destruct (foldM_seqZ (λ dst i, a ← idx temp i; store dst i (Lift a))
    (λ k r, zlen r = zlen temp ∧ ∀ i a, 0 ≤ i < k → temp !! Z.to_nat i = Some a → r !! Z.to_nat i = Some (Lift a)) 0 (zlen temp) dst) as (r & E & Lr & R).
  - apply zlen_nonneg.
  - split; [lia|]. intros i a Hi. lia.
  - intros k r Hk [Lr R]. destruct (idx_is_Ok temp k) as [a Ha]; [lia|]. rewrite Ha. simpl. rewrite store_Ok by lia. eexists. split; [done|].
    split; [by rewrite zlen_insert|]. intros i b Hi Hb. apply idx_Ok in Ha as [_ Ha]. destruct (decide (i = k)) as [->|].
    + rewrite list_lookup_insert_eq by (unfold zlen in *; lia). congruence.
    + rewrite list_lookup_insert_ne by lia. apply R; [lia|done].
  - rewrite E. f_equal. apply list_eq. intros i. rewrite list_lookup_fmap. unfold zlen in *. destruct (temp !! i) as [a|] eqn:Ea.
    + simpl. rewrite <-(R (Z.of_nat i) a); [by rewrite Nat2Z.id| |by rewrite Nat2Z.id]. apply lookup_lt_Some in Ea. lia.
    + simpl. apply lookup_ge_None_2. apply lookup_ge_None_1 in Ea. lia.
Qed.

Lemma regular_lift n (v : vec F) : wf v → Len v = n →
  ∃ y, NewRegular (Lift <$> elems v) = Ok y ∧ wf y ∧ Len y = n ∧ ∀ i, 0 ≤ i < n → ext_elem (OfExt y) i = ext_elem (OfBase v) i.
Proof.
  intros W L. pose proof (zlen_elems v W) as Le. pose proof W as [Hl _]. rewrite NewRegular_Ok by (rewrite zlen_fmap; lia). eexists. split; [done|].
  split; [split; [simpl; rewrite zlen_fmap; lia|done]|]. split; [by simpl; rewrite zlen_fmap, Le|]. intros i Hi. unfold ext_elem. simpl.
  rewrite list_lookup_fmap, elems_lookup by (done || lia). by destruct (elem_at_Some v i W ltac:(lia)) as [a ->].
Qed.

Lemma LiftToExt_spec n (v : vec F) : wf v → Len v = n →
  ∃ y, LiftToExt (OfBase v) = Ok (OfExt y) ∧ wf y ∧ Len y = n ∧ ∀ i, 0 ≤ i < n → ext_elem (OfExt y) i = ext_elem (OfBase v) i.
Proof.
  intros W L. pose proof W as [Hl W']. unfold LiftToExt. rewrite (IsBase_of_length n) by (done || lia). simpl.
  destruct v as [a m|v|v o|w pad tot o]; simpl in *.
  - unfold NewConstant. destruct (Z.leb_spec m 0); [lia|]. simpl. eexists. split; [done|]. done.
  - destruct (regular_lift n (Regular v) W L) as (y & E & Wy & Ly & Ey). rewrite elems_Regular in E by done. unfold zlen.
    rewrite length_replicate, Nat2Z.id, assertHasLength_same. simpl. rewrite E. simpl. eexists. split; [done|]. done.
  - destruct (regular_lift n (Rotated v o) W L) as (y & E & Wy & Ly & Ey). pose proof (write_rotated v o (replicate (Z.to_nat (zlen v)) Zero) W) as Ew.
    simpl in Ew. rewrite Ew by (apply zlen_replicate; lia). simpl. rewrite E. simpl. eexists. split; [done|]. done.
  - destruct (map_vec_spec Lift _ W) as (Wm & Lm & _). simpl in Wm, Lm.
    destruct (NewPaddedCircularWindow_Ok (Lift <$> w) (Lift pad) o tot) as [-> _]; [rewrite ?zlen_fmap; lia..|]. simpl. eexists. split; [done|].
    split; [done|]. split; [done|]. intros i Hi. unfold ext_elem. simpl. rewrite list_lookup_fmap. by destruct (w !! _).
Qed.

(** ** Separation *)

Definition bases (l : list (SmartVector.t F * Z)) : list (vec F * Z) :=
  omap (λ p, match p.1 with OfBase v => Some (v, p.2) | OfExt _ => None end) l.
Definition exts (l : list (SmartVector.t F * Z)) : list (vec (E4 F) * Z) :=
  omap (λ p, match p.1 with OfExt v => Some (v, p.2) | OfBase _ => None end) l.

Lemma bases_app l k : bases (l ++ k) = bases l ++ bases k.
Proof. apply omap_app. Qed.

Lemma exts_app l k : exts (l ++ k) = exts l ++ exts k.
Proof. apply omap_app. Qed.

Lemma separate_spec n l : 0 < n → Forall (λ p, of_length n p.1) l →
  SeparateBaseAndExtVectorsWithCoeffs l.*2 l.*1 = Ok (svecs_of (bases l), svecs_of (exts l), coeffs_of (bases l), coeffs_of (exts l)).
Proof.
  intros Hn Hl. unfold SeparateBaseAndExtVectorsWithCoeffs.
  destruct (foldM_enumerate (separate_step l.*2)
    (λ k st, st = (svecs_of (bases (take k l)), svecs_of (exts (take k l)), coeffs_of (bases (take k l)), coeffs_of (exts (take k l)))) l.*1
    ([], [], [], [])) as (st & -> & ->).
  - done.
  - intros k s st Hs ->. rewrite list_lookup_fmap in Hs. apply fmap_Some in Hs as (p & Ep & ->).
    pose proof (Forall_lookup_1 _ _ _ _ Hl Ep) as Hp. simpl in Hp. unfold separate_step. cbn [fst snd].
    rewrite (IsBase_of_length n) by done. simpl. rewrite (idx_of_nat _ k p.2) by (by rewrite list_lookup_fmap, Ep). simpl.
    eexists. split; [done|]. rewrite (take_S_r _ _ _ Ep), bases_app, exts_app. destruct p as [[v|v] c]; simpl;
      rewrite ?app_nil_r; unfold svecs_of, coeffs_of; by rewrite !fmap_app.
  - by rewrite length_fmap, firstn_all.
Qed.

Lemma separate_exts n (l : list (vec (E4 F))) : 0 < n → Forall (λ v, wf v ∧ Len v = n) l →
  SeparateBaseAndExtVectors (OfExt <$> l) = Ok ([], OfExt <$> l).
Proof. intros Hn. induction l as [|v l IH]; intros Hl; [done|]. apply Forall_cons_1 in Hl as [_ Hl]. rewrite fmap_cons. simpl. by rewrite IH. Qed.

(** ** An operation of the two fields *)

Section operation.
Context (ub : F) (plusb : F → F → F) (termb : F → Z → F).
Context (ope : operator (E4 F)) (ue : E4 F) (pluse : E4 F → E4 F → E4 F) (terme : E4 F → Z → E4 F) (ok : Z → Prop).
Context `{!OperatorLaws ope ue pluse terme ok}.
Context (Lift_unit : Lift ub = ue) (Lift_plus : ∀ a b, Lift (plusb a b) = pluse (Lift a) (Lift b)).
Context (Lift_term : ∀ a c, ok c → Lift (termb a c) = terme (Lift a) c) (term_1 : ∀ x, terme x 1 = x) (ok_1 : ok 1).

(** The functions of smartvectors that apply the operators. *)
Context (runb : list Z → list (SmartVector.t F) → res (option (vec F) * list (SmartVector.t F))).
Context (rune : list Z → list (SmartVector.t F) → res (option (vec (E4 F)) * list (SmartVector.t F))).
Context (runb_spec : ∀ n l, Forall (operand ok n) l → l ≠ [] → 0 < n < 2 ^ 61 →
  ∃ y l', runb (coeffs_of l) (svecs_of l) = Ok (Some y, l') ∧ result ub plusb termb n l y).
Context (rune_spec : ∀ n l, Forall (operand ok n) l → l ≠ [] → 0 < n < 2 ^ 61 →
  ∃ y l', rune (coeffs_of l) (svecs_of l) = Ok (Some y, l') ∧ result ue pluse terme n l y).

Notation sum_ext := (λ l : list (SmartVector.t F), as_ext (rune (replicate (length l) 1) l)).

Lemma pe_unit x : pluse ue x = x.
Proof. apply (op_unit (op := ope)). Qed.

Lemma pe_unit_r x : pluse x ue = x.
Proof. rewrite (op_comm (op := ope)). apply pe_unit. Qed.

Lemma pe_assoc x y z : pluse x (pluse y z) = pluse (pluse x y) z.
Proof. apply (op_assoc (op := ope)). Qed.

Lemma pe_comm x y : pluse x y = pluse y x.
Proof. apply (op_comm (op := ope)). Qed.

(** The operation on the elements at a position. *)
Definition mixed_total (l : list (SmartVector.t F * Z)) i : E4 F :=
  foldr pluse ue ((λ p, terme (ext_elem p.1 i) p.2) <$> l).

Lemma Lift_total n lb i : Forall (operand ok n) lb → 0 ≤ i < n →
  Lift (total ub plusb termb lb i) = foldr pluse ue ((λ p, terme (ext_elem (OfBase p.1) i) p.2) <$> lb).
Proof.
  intros Hlb Hi. induction lb as [|p lb IH]; [done|]. apply Forall_cons_1 in Hlb as [(_ & _ & Hok) Hlb].
  unfold total, big in *. rewrite !fmap_cons. cbn [foldr]. rewrite Lift_plus, IH by done. f_equal. unfold term_at. by rewrite Lift_term.
Qed.

Lemma mixed_split n l i : Forall (λ p, of_length n p.1 ∧ ok p.2) l → 0 ≤ i < n →
  mixed_total l i = pluse (Lift (total ub plusb termb (bases l) i)) (total ue pluse terme (exts l) i).
Proof.
  intros Hl Hi. unfold mixed_total. induction l as [|p l IH]; [simpl; rewrite total_nil, Lift_unit, pe_unit; done|].
  apply Forall_cons_1 in Hl as [[Hp Hok] Hl]. rewrite fmap_cons. cbn [foldr]. rewrite IH by done.
  destruct p as [[v|v] c]; simpl in *.
  - assert (total ub plusb termb ((v, c) :: bases l) i = plusb (termb (default sc_zero (elem_at v i)) c) (total ub plusb termb (bases l) i)) as -> by done.
    rewrite Lift_plus, Lift_term by done. apply pe_assoc.
  - assert (total ue pluse terme ((v, c) :: exts l) i = pluse (terme (default sc_zero (elem_at v i)) c) (total ue pluse terme (exts l) i)) as -> by done.
    rewrite !pe_assoc. f_equal. apply pe_comm.
Qed.

Lemma bases_operand n l : Forall (λ p, of_length n p.1 ∧ ok p.2) l → Forall (operand ok n) (bases l).
Proof.
  induction l as [|p l IH]; [done|]. intros [[Hp Hok] Hl]%Forall_cons_1. destruct p as [[v|v] c]; simpl in *; [|by apply IH].
  constructor; [|by apply IH]. by destruct Hp.
Qed.

Lemma exts_operand n l : Forall (λ p, of_length n p.1 ∧ ok p.2) l → Forall (operand ok n) (exts l).
Proof.
  induction l as [|p l IH]; [done|]. intros [[Hp Hok] Hl]%Forall_cons_1. destruct p as [[v|v] c]; simpl in *; [by apply IH|].
  constructor; [|by apply IH]. by destruct Hp.
Qed.

(** The sum of two extension vectors. *)
Lemma sum_two n (a b : vec (E4 F)) : 0 < n < 2 ^ 61 → wf a → Len a = n → wf b → Len b = n →
  ∃ y, sum_ext [OfExt a; OfExt b] = Ok (Some (OfExt y)) ∧ wf y ∧ Len y = n ∧
    ∀ i, 0 ≤ i < n → ext_elem (OfExt y) i = pluse (ext_elem (OfExt a) i) (ext_elem (OfExt b) i).
Proof.
  intros Hn Wa La Wb Lb. destruct (rune_spec n [(a, 1); (b, 1)]) as (y & l' & E & Wy & Ly & Ey); [|done|done|].
  { constructor; [done|]. constructor; [done|constructor]. }
  change (coeffs_of [(a, 1); (b, 1)]) with [1; 1] in E. change (svecs_of [(a, 1); (b, 1)]) with [OfExt a; OfExt b] in E.
  exists y. simpl. rewrite E. split; [done|]. split; [done|]. split; [done|]. intros i Hi. unfold ext_elem. rewrite Ey by done. simpl.
  unfold total, big. simpl. rewrite pe_unit_r. unfold term_at. simpl. by rewrite !term_1.
Qed.

Lemma merge_two n baseOp (a b : vec (E4 F)) : 0 < n < 2 ^ 61 → wf a → Len a = n → wf b → Len b = n →
  ∃ y, executeFuncOnBaseExt [OfExt a; OfExt b] baseOp sum_ext sum_ext ub = Ok (Some (OfExt y)) ∧ wf y ∧ Len y = n ∧
    ∀ i, 0 ≤ i < n → ext_elem (OfExt y) i = pluse (ext_elem (OfExt a) i) (ext_elem (OfExt b) i).
Proof.
  intros Hn Wa La Wb Lb. unfold executeFuncOnBaseExt.
  pose proof (separate_exts n [a; b] ltac:(lia) ltac:(constructor; [done|]; constructor; [done|constructor])) as Es. simpl in Es. simpl. rewrite La.
  unfold NewConstant. destruct (Z.leb_spec n 0); [lia|]. simpl.
  destruct (sum_two n a b) as (y & E & Wy & Ly & Ey); [done..|]. simpl in E. rewrite E. simpl.
  destruct (LiftToExt_spec n (Constant ub n)) as (z & -> & Wz & Lz & Ez); [by split|done|]. simpl.
  destruct (sum_two n z y) as (r & Er & Wr & Lr & Hr); [done..|]. simpl in Er. rewrite Er. exists r. split; [done|]. split; [done|]. split; [done|].
  intros i Hi. rewrite Hr, Ez, Ey by done. unfold ext_elem at 1. simpl. by rewrite Lift_unit, pe_unit.
Qed.

Lemma run_bases n (l : list (SmartVector.t F * Z)) : 0 < n < 2 ^ 61 → Forall (λ p, of_length n p.1 ∧ ok p.2) l →
  ∃ y, (if 0 <? zlen (svecs_of (bases l)) then as_base (runb (coeffs_of (bases l)) (svecs_of (bases l))) else Ok (Some (OfBase (Constant ub n)))) =
      Ok (Some (OfBase y)) ∧ wf y ∧ Len y = n ∧ ∀ i, 0 ≤ i < n → elem_at y i = Some (total ub plusb termb (bases l) i).
Proof.
  intros Hn Hl. unfold zlen. rewrite length_svecs. destruct (bases l) as [|p lb] eqn:Eb.
  - simpl. exists (Constant ub n). split; [done|]. split; [by split|]. done.
  - rewrite <-Eb. destruct (Z.ltb_spec 0 (Z.of_nat (length (bases l)))) as [_|L]; [|rewrite Eb in L; simpl in L; lia].
    destruct (runb_spec n (bases l)) as (y & l' & -> & W & Ly & Ey); [by apply bases_operand|by rewrite Eb|done|]. by exists y.
Qed.

Lemma same_len n (l : list (SmartVector.t F * Z)) : Forall (λ p, of_length n p.1) l → l ≠ [] → ∃ s0, idx l.*1 0 = Ok s0 ∧ sv_Len s0 = n.
Proof.
  intros Hl Hne. destruct l as [|[s c] l]; [done|]. apply Forall_cons_1 in Hl as [Hs _]. exists s. split; [done|]. destruct s; by destruct Hs.
Qed.

Lemma combine_mixed_spec n (l : list (SmartVector.t F * Z)) baseOp : 0 < n < 2 ^ 61 → l ≠ [] → Forall (λ p, of_length n p.1 ∧ ok p.2) l →
  ∃ r, combine_mixed (λ c l, as_base (runb c l)) (λ c l, as_ext (rune c l))
         (λ vecs, executeFuncOnBaseExt vecs baseOp sum_ext sum_ext ub) ub l.*2 l.*1 = Ok (Some r) ∧
    of_length n r ∧ ∀ i, 0 ≤ i < n → ext_elem r i = mixed_total l i.
Proof.
  intros Hn Hne Hl. assert (Forall (λ p, of_length n p.1) l) as Hl' by (eapply Forall_impl; [exact Hl|by intros p [? _]]).
  unfold combine_mixed. rewrite (separate_spec n) by (done || lia). simpl. destruct (same_len n l Hl' Hne) as (s0 & -> & L0). simpl. rewrite L0.
  unfold NewConstant. destruct (Z.leb_spec n 0); [lia|]. simpl.
  destruct (run_bases n l Hn Hl) as (y & -> & Wy & Ly & Ey). simpl. unfold zlen at 1. rewrite length_svecs.
  destruct (exts l) as [|[e c] le] eqn:Ee.
  - simpl. exists (OfBase y). split; [done|]. split; [done|]. intros i Hi. rewrite (mixed_split n) by done. rewrite Ee, total_nil, pe_unit_r.
    unfold ext_elem. by rewrite Ey.
  - rewrite <-Ee. rewrite (proj2 (Z.eqb_neq _ 0)) by (rewrite Ee; simpl; lia).
    pose proof (exts_operand n l Hl) as He. destruct (first_len ok n (exts l) He ltac:(by rewrite Ee)) as (e0 & -> & Le0). simpl.
    assert ((if 0 <? zlen (svecs_of (bases l)) then b0 ← idx (svecs_of (bases l)) 0; (if negb (sv_Len b0 =? sv_Len e0) then Panic else Ok ()) else Ok ()) = Ok ()) as ->.
    { destruct (Z.ltb_spec 0 (zlen (svecs_of (bases l)))) as [L|_]; [|done]. unfold zlen in L. rewrite length_svecs in L.
      destruct (first_len ok n (bases l)) as (b0 & -> & Lb0); [by apply bases_operand|by destruct (bases l)|]. simpl. by rewrite Lb0, Le0, Z.eqb_refl. }
    simpl. destruct (rune_spec n (exts l) He ltac:(by rewrite Ee) Hn) as (z & l' & -> & Wz & Lz & Ez). simpl.
    destruct (LiftToExt_spec n y Wy Ly) as (y' & -> & Wy' & Ly' & Ey'). simpl.
    destruct (merge_two n baseOp y' z Hn Wy' Ly' Wz Lz) as (r & -> & Wr & Lr & Er). exists (OfExt r). split; [done|]. split; [done|].
    intros i Hi. rewrite (mixed_split n), Er, Ey' by done. unfold ext_elem. by rewrite Ey, Ez.
Qed.
End operation.

(** ** Linear combinations and products *)

Lemma lin_comb_spec {A} `{!Scalar A, !ScalarLaws A, !VectorOps A, !VectorLaws A, !Kind F A, !KindLaws F A} (op : operator A) unit plus term ok
    `{!OperatorLaws op unit plus term ok} n (l : list (vec A * Z)) :
  Forall (operand ok n) l → l ≠ [] → 0 < n < 2 ^ 61 →
  ∃ y l', lin_comb op (coeffs_of l) (svecs_of l) = Ok (Some y, svecs_of l') ∧ Forall2 same_operand l l' ∧ result unit plus term n l y.
Proof.
  intros Hl Hne Hn. destruct (processOperator_spec op unit plus term ok n l Hl Hne Hn) as (y & l' & E & Hs & R). exists y, l'. split; [|done].
  unfold lin_comb. destruct (first_len ok n l Hl Hne) as (s0 & -> & L0). simpl. rewrite L0.
  assert (forallb (λ s, sv_Len s =? n) (svecs_of l) = true) as ->; [|done]. apply forallb_forall. intros s Hin%list_elem_of_In.
  apply list_elem_of_fmap in Hin as (p & -> & Hp). rewrite Forall_forall in Hl. destruct (Hl p Hp) as (_ & Lp & _). rewrite len_of, Lp. apply Z.eqb_refl.
Qed.

Lemma LinCombMixed_spec n (l : list (SmartVector.t F * Z)) : 0 < n < 2 ^ 61 → l ≠ [] → Forall (λ p, of_length n p.1) l →
  ∃ r, LinCombMixed l.*2 l.*1 = Ok (Some r) ∧ of_length n r ∧
    ∀ i, 0 ≤ i < n → ext_elem r i = foldr e4_add Zero ((λ p, e4_mul (Lift (el_of_Z p.2)) (ext_elem p.1 i)) <$> l).
Proof.
  intros Hn Hne Hl. refine (combine_mixed_spec el_zero el_add lin_term (linCombOpExt (A := E4 F)) Zero e4_add lin_term (λ _, True)
    _ _ _ _ _ LinComb LinCombExt _ _ n l (λ l, as_base (Add l)) Hn Hne _).
  - done.
  - apply Lift_add.
  - intros a c _. apply Lift_mul.
  - intros x. unfold lin_term. simpl. change (SetFromIntBase Zero 1) with (One : E4 F). apply (Ring_theory.Rmul_1_l e4_ring).
  - done.
  - intros m k Hk Hk0 Hm. destruct (lin_comb_spec (linCombOp (A := F)) el_zero el_add lin_term _ m k Hk Hk0 Hm) as (y & l' & E & _ & R). eauto.
  - intros m k Hk Hk0 Hm. destruct (lin_comb_spec (linCombOpExt (A := E4 F)) Zero e4_add lin_term _ m k Hk Hk0 Hm) as (y & l' & E & _ & R). eauto.
  - eapply Forall_impl; [exact Hl|]. done.
Qed.

Lemma ProductMixed_spec n (l : list (SmartVector.t F * Z)) : 0 < n < 2 ^ 61 → l ≠ [] → Forall (λ p, of_length n p.1 ∧ exponent p.2) l →
  ∃ r, ProductMixed l.*2 l.*1 = Ok (Some r) ∧ of_length n r ∧
    ∀ i, 0 ≤ i < n → ext_elem r i = foldr e4_mul One ((λ p, e4_exp (ext_elem p.1 i) p.2) <$> l).
Proof.
  intros Hn Hne Hl. refine (combine_mixed_spec el_one el_mul el_exp (productOpExt (A := E4 F)) One e4_mul e4_exp exponent
    _ _ _ _ _ Product ProductExt _ _ n l (λ l, as_base (Mul l)) Hn Hne Hl).
  - done.
  - apply Lift_mul.
  - intros a c [? _]. by apply Lift_exp.
  - apply e4_exp_1.
  - unfold exponent. lia.
  - intros m k Hk Hk0 Hm. destruct (processOperator_spec (productOp (A := F)) el_one el_mul el_exp exponent m k Hk Hk0 Hm) as (y & l' & E & _ & R). eauto.
  - intros m k Hk Hk0 Hm. destruct (processOperator_spec (productOpExt (A := E4 F)) One e4_mul e4_exp exponent m k Hk Hk0 Hm) as (y & l' & E & _ & R). eauto.
Qed.
End facts.
End SmartVectorMixed.
