(* ===== verification/SmartVectorTheorems.v ===== *)
(** * Concrete parameters for the smart vectors

    Instances of the parameters of the smart vectors: a sort of intervals, the vector
    operations of gnark-crypto on lists, over the concrete fields of Field and Fext. They
    show that the laws can be met and make the definitions executable. *)

From S2P Require Export SmartVectorMixed.
From stdpp Require Import sorting.
Import Utils Fext CircularInterval SmartVector SmartVectorOps KoalaExt.

Local Open Scope Z_scope.

Module SmartVectorDemo.

(** ** A sort by start *)

Definition start_le (a b : CircularInterval.t) : Prop := istart a ≤ istart b.

#[export] Instance start_le_dec : RelDecision start_le.
Proof. intros a b. unfold start_le. apply _. Defined.

#[export] Instance start_le_total : Total start_le.
Proof. intros a b. unfold start_le. lia. Qed.

#[export] Instance start_le_trans : Transitive start_le.
Proof. intros a b c. unfold start_le. lia. Qed.

#[export] Instance sort_by_merge : SortByStart := merge_sort start_le.

#[export] Instance sort_by_merge_laws : SortByStartLaws.
Proof.
  split; [apply (merge_sort_Permutation start_le)|]. intros l. apply (StronglySorted_merge_sort start_le).
Qed.

(** ** Vector operations on lists *)

Section vectors.
Context `{Scalar A}.

Definition same_length (l k : list A) (r : list A) : res (list A) := if decide (length l = length k) then Ok r else Panic.

#[export] Instance list_VectorOps : VectorOps A := {|
  vec_Add r a b := if decide (length r = length a ∧ length b = length a) then Ok (zip_with sc_add a b) else Panic;
  vec_Sub r a b := if decide (length r = length a ∧ length b = length a) then Ok (zip_with sc_sub a b) else Panic;
  vec_Mul r a b := if decide (length r = length a ∧ length b = length a) then Ok (zip_with sc_mul a b) else Panic;
  vec_ScalarMul r a x := same_length r a ((λ y, sc_mul y x) <$> a);
  vec_Exp r a k := same_length r a ((λ y, sc_exp y k) <$> a);
  vec_InnerProduct a b := if decide (length b = length a) then Ok (foldr sc_add sc_zero (zip_with sc_mul a b)) else Panic;
  vec_BatchInvert a := sc_inv <$> a |}.

#[export] Instance list_VectorLaws : VectorLaws A.
Proof. split; intros; simpl; unfold same_length; by rewrite ?decide_True. Qed.
End vectors.

#[export] Instance list_MulAcc `{ElementOps F, !ExtOps F} : MulAcc F :=
  λ acc v x, if decide (length v = length acc) then Ok (zip_with (λ a b, e4_add a (e4_mul_by_element x b)) acc v) else Panic.

#[export] Instance list_MulAccLaws `{ElementOps F, !ExtOps F} : MulAccLaws F.
Proof. split. intros acc v x L. unfold vec_MulAccByElement, list_MulAcc. by rewrite decide_True. Qed.

(** ** Example vectors over KoalaBear *)

Notation K := KoalaBear.t.
Definition k (z : Z) : K := el_of_Z z.

Definition ramp : vec K := Regular (k <$> [1; 2; 3; 4; 5; 6; 7; 8]).
Definition turned : vec K := Rotated (k <$> [1; 2; 3; 4; 5; 6; 7; 8]) 3.
Definition flat : vec K := Constant (k 5) 8.
(** a window that wraps around, and one that does not *)
Definition wrapping : vec K := PaddedCircularWindow (k <$> [10; 20; 30]) (k 7) 8 6.
Definition inner : vec K := PaddedCircularWindow (k <$> [40; 50]) (k 9) 8 2.
Definition wide : vec (E4 K) := PaddedCircularWindow [mkE4 (k 1) (k 2) (k 3) (k 4)] (Lift (k 2)) 8 1.
End SmartVectorDemo.

(** * Theorems on vectors and smart vectors

    The properties of src/prover/maths: extension field, circular intervals, smart
    vectors, polynomials. Each theorem is followed by its application to concrete
    vectors over KoalaBear. *)


Import Utils Fext CircularInterval SmartVector SmartVectorOps SmartVectorFacts VectorsFacts OperatorFacts
  SmartVectorProcess SmartVectorArith SmartVectorMixed KoalaExt SmartVectorDemo.

(** ** Operands given as two lists *)

Section zipped.
Context `{ElementOps F, !ExtOps F, !Scalar A, !Kind F A}.
Implicit Types (vs : list (vec A)) (coeffs : list Z).

Lemma svecs_zip vs coeffs : length coeffs = length vs → svecs_of (zip vs coeffs) = of_vec <$> vs.
Proof. intros L. unfold svecs_of. rewrite <-(fst_zip vs coeffs) at 2 by lia. by rewrite <-list_fmap_compose. Qed.

Lemma coeffs_zip vs coeffs : length coeffs = length vs → coeffs_of (zip vs coeffs) = coeffs.
Proof. intros L. apply snd_zip. lia. Qed.

Lemma operands_zip ok n vs coeffs : Forall (λ v, wf v ∧ Len v = n) vs → Forall ok coeffs → Forall (operand ok n) (zip vs coeffs).
Proof.
  intros Hv Hc. apply Forall_forall. intros [v c] Hp. rewrite Forall_forall in Hv. rewrite Forall_forall in Hc.
  pose proof (Hv v (elem_of_zip_l _ _ _ _ Hp)) as []. pose proof (Hc c (elem_of_zip_r _ _ _ _ Hp)). by split.
Qed.

Lemma zip_not_nil vs coeffs : length coeffs = length vs → vs ≠ [] → zip vs coeffs ≠ [].
Proof. intros L Hne. by destruct vs, coeffs. Qed.

Lemma total_zip unit plus term vs coeffs i :
  total unit plus term (zip vs coeffs) i = foldr plus unit (zip_with (λ v c, term (default sc_zero (elem_at v i)) c) vs coeffs).
Proof.
  unfold total, big. f_equal. revert coeffs. induction vs as [|v vs IH]; intros [|c coeffs]; simpl; [done..|]. by rewrite IH.
Qed.

Lemma same_zip vs coeffs l' : length coeffs = length vs → Forall2 same_operand (zip vs coeffs) l' → Forall2 same_vec vs l'.*1.
Proof.
  intros L HF. rewrite <-(fst_zip vs coeffs) by lia. apply Forall2_fmap. eapply Forall2_impl; [exact HF|]. by intros p q [? _].
Qed.

Lemma svecs_fst (l : list (vec A * Z)) : svecs_of l = of_vec <$> l.*1.
Proof. unfold svecs_of. by rewrite <-list_fmap_compose. Qed.

Lemma result_Get unit plus term n l y i : result unit plus term n l y → 0 ≤ i < n → Get y i = Ok (total unit plus term l i).
Proof. intros (W & L & E) Hi. destruct (Get_spec y i W) as (a & -> & Ea); [lia|]. rewrite E in Ea by done. by injection Ea as ->. Qed.
End zipped.

(** C33. [LinComb] is computed position by position, whatever mixture of constants,
    regular, rotated and windowed vectors it is given: it does not panic on vectors of
    one length, the result has that length and its element at each position is the sum of
    the coefficients times the elements of the operands there. The slice of operands may
    be rewritten by the call, but the vectors in it stay the same. *)
Theorem LinComb_positions `{ElementLaws F, !ExtOps F, !VectorOps F, !VectorLaws F, !SortByStart, !SortByStartLaws}
    n coeffs (vs : list (vec F)) :
  0 < n < 2 ^ 61 → vs ≠ [] → length coeffs = length vs → Forall (λ v, wf v ∧ Len v = n) vs →
  ∃ y vs', LinComb coeffs (OfBase <$> vs) = Ok (Some y, OfBase <$> vs') ∧ Len y = n ∧
    (∀ i, 0 ≤ i < n → Get y i = Ok (foldr el_add el_zero
       (zip_with (λ v c, el_mul (el_of_Z c) (base_elem (OfBase v) i)) vs coeffs))) ∧
    Forall2 same_vec vs vs'.
Proof.
  intros Hn Hne L Hvs. destruct (lin_comb_spec (linCombOp (A := F)) el_zero el_add lin_term _ n (zip vs coeffs)) as (y & l' & E & Hs & R);
    [apply operands_zip; [done|by apply Forall_true]|by apply zip_not_nil|done|].
  rewrite svecs_zip, coeffs_zip, svecs_fst in E by done. exists y, l'.*1. split; [exact E|]. split; [apply R|]. split; [|by apply (same_zip vs coeffs)].
  intros i Hi. rewrite (result_Get _ _ _ n _ y i R Hi), total_zip. done.
Qed.

Lemma LinComb_positions_witness :
  ∃ y vs', LinComb [2; -1; 3; 1; 7] (OfBase <$> [ramp; wrapping; flat; inner; turned]) = Ok (Some y, OfBase <$> vs') ∧ Len y = 8 ∧
    (∀ i, 0 ≤ i < 8 → Get y i = Ok (foldr el_add el_zero
       (zip_with (λ v c, el_mul (el_of_Z c) (base_elem (OfBase v) i)) [ramp; wrapping; flat; inner; turned] [2; -1; 3; 1; 7]))) ∧
    Forall2 same_vec [ramp; wrapping; flat; inner; turned] vs'.
Proof.
  apply (LinComb_positions 8 [2; -1; 3; 1; 7] [ramp; wrapping; flat; inner; turned]); [lia|done|reflexivity|].
  repeat constructor; simpl; try reflexivity; try discriminate.
Defined.

(** [Product] is computed position by position: for exponents that are not negative
    the element of the result at each position is the product of the elements of the
    operands there, raised to their exponents. *)
Theorem Product_positions `{ElementLaws F, !ExtOps F, !VectorOps F, !VectorLaws F, !SortByStart, !SortByStartLaws}
    n exponents (vs : list (vec F)) :
  0 < n < 2 ^ 61 → vs ≠ [] → length exponents = length vs → Forall (λ v, wf v ∧ Len v = n) vs →
  Forall (λ c, 0 ≤ c < 2 ^ 63) exponents →
  ∃ y vs', Product exponents (OfBase <$> vs) = Ok (Some y, OfBase <$> vs') ∧ Len y = n ∧
    (∀ i, 0 ≤ i < n → Get y i = Ok (foldr el_mul el_one
       (zip_with (λ v c, el_exp (base_elem (OfBase v) i) c) vs exponents))) ∧
    Forall2 same_vec vs vs'.
Proof.
  intros Hn Hne L Hvs Hexp. destruct (processOperator_spec (productOp (A := F)) el_one el_mul el_exp exponent n (zip vs exponents))
    as (y & l' & E & Hs & R); [by apply operands_zip|by apply zip_not_nil|done|].
  rewrite svecs_zip, coeffs_zip, svecs_fst in E by done. exists y, l'.*1. split; [exact E|]. split; [apply R|]. split; [|by apply (same_zip vs exponents)].
  intros i Hi. rewrite (result_Get _ _ _ n _ y i R Hi), total_zip. done.
Qed.

Lemma Product_positions_witness :
  ∃ y vs', Product [2; 0; 1; 5; 3] (OfBase <$> [ramp; wrapping; flat; inner; turned]) = Ok (Some y, OfBase <$> vs') ∧ Len y = 8 ∧
    (∀ i, 0 ≤ i < 8 → Get y i = Ok (foldr el_mul el_one
       (zip_with (λ v c, el_exp (base_elem (OfBase v) i) c) [ramp; wrapping; flat; inner; turned] [2; 0; 1; 5; 3]))) ∧
    Forall2 same_vec [ramp; wrapping; flat; inner; turned] vs'.
Proof.
  apply (Product_positions 8 [2; 0; 1; 5; 3] [ramp; wrapping; flat; inner; turned]); [lia|done|reflexivity| |].
  - repeat constructor; simpl; try reflexivity; try discriminate.
  - repeat constructor; lia.
Defined.

(** [LinCombMixed] takes base and extension vectors together: it separates them,
    combines each group in its field and lifts the base result, and the element of the
    result at each position is the linear combination of the operands there in the
    extension field. *)
Theorem LinCombMixed_positions `{ElementLaws F, !ExtOps F, !ExtLaws F, !VectorOps F, !VectorLaws F, !VectorOps (E4 F), !VectorLaws (E4 F),
      !SortByStart, !SortByStartLaws} n (l : list (SmartVector.t F * Z)) :
  0 < n < 2 ^ 61 → l ≠ [] → Forall (λ p, of_length n p.1) l →
  ∃ r, LinCombMixed l.*2 l.*1 = Ok (Some r) ∧ of_length n r ∧
    ∀ i, 0 ≤ i < n → GetExt r i = Ok (foldr e4_add Zero ((λ p, e4_mul (Lift (el_of_Z p.2)) (ext_elem p.1 i)) <$> l)).
Proof.
  intros Hn Hne Hl. destruct (LinCombMixed_spec n l Hn Hne Hl) as (r & E & Hr & V). exists r. split; [done|]. split; [done|].
  intros i Hi. rewrite <-V by done. destruct r as [v|v]; destruct Hr as [W L]; destruct (Get_spec v i W) as (a & Ea & Hv); try lia;
    unfold GetExt, ext_elem; rewrite Ea, Hv; done.
Qed.

Lemma LinCombMixed_positions_witness :
  ∃ r, LinCombMixed [3; -2; 4] [OfBase wrapping; OfExt wide; OfBase ramp] = Ok (Some r) ∧ of_length 8 r ∧
    ∀ i, 0 ≤ i < 8 → GetExt r i = Ok (foldr e4_add Zero
      ((λ p, e4_mul (Lift (el_of_Z p.2)) (ext_elem p.1 i)) <$> [(OfBase wrapping, 3); (OfExt wide, -2); (OfBase ramp, 4)])).
Proof.
  apply (LinCombMixed_positions 8 [(OfBase wrapping, 3); (OfExt wide, -2); (OfBase ramp, 4)]); [lia|discriminate|].
  repeat constructor; simpl; try reflexivity; try discriminate.
Defined.

(** C34. [SubVector] of any representation, windows that wrap around included, is the cut
    of the vector: it returns a vector of length stop - start whose element at a position
    is the element of the vector at start plus that position. *)
Theorem SubVector_positions {A} (x : vec A) start stop :
  wf x → 0 ≤ start < stop → stop ≤ Len x →
  ∃ y, SubVector x start stop = Ok y ∧ Len y = stop - start ∧ ∀ i, 0 ≤ i < stop - start → Get y i = Get x (start + i).
Proof.
  intros W Hs He. destruct (SubVector_spec x start stop W Hs He) as (y & E & Wy & Ly & Ey). exists y. split; [done|]. split; [done|].
  intros i Hi. destruct (Get_spec y i Wy) as (a & -> & Ea); [lia|]. destruct (Get_spec x (start + i) W) as (b & -> & Eb); [lia|].
  rewrite Ey in Ea by done. congruence.
Qed.

Lemma SubVector_positions_witness :
  ∃ y, SubVector wrapping 5 8 = Ok y ∧ Len y = 3 ∧ ∀ i, 0 ≤ i < 3 → Get y i = Get wrapping (5 + i).
Proof. apply (SubVector_positions wrapping 5 8); [|lia|discriminate]. repeat constructor; simpl; try reflexivity; discriminate. Defined.

(** C35. [SmallestCoverInterval] of intervals of one circle contains all of them, and no
    interval that contains them all is shorter. *)
Theorem SmallestCover_smallest `{SortByStartLaws} n intervals :
  intervals ≠ [] → Forall (IntervalCover.ok n) intervals →
  ∃ r, SmallestCoverInterval intervals = Ok r ∧ IntervalCover.ok n r ∧
    (∀ c p, c ∈ intervals → has c p → has r p) ∧
    (∀ d, IntervalCover.ok n d → (∀ c p, c ∈ intervals → has c p → has d p) → IntervalLen r ≤ IntervalLen d).
Proof.
  intros Hne Hok. destruct (IntervalCover.SmallestCover_spec n intervals Hne Hok) as (r & E & Hr & C & M).
  exists r. split; [done|]. split; [done|]. split; [intros c p Hc Hp; apply C; by exists c|].
  intros d Hd I. apply M; [done|]. intros p (c & Hc & Hp). by apply (I c).
Qed.

Lemma SmallestCover_smallest_witness :
  ∃ r, SmallestCoverInterval [mk 10 8 4; mk 10 4 1; mk 10 1 2] = Ok r ∧ IntervalCover.ok 10 r ∧
    (∀ c p, c ∈ [mk 10 8 4; mk 10 4 1; mk 10 1 2] → has c p → has r p) ∧
    (∀ d, IntervalCover.ok 10 d → (∀ c p, c ∈ [mk 10 8 4; mk 10 4 1; mk 10 1 2] → has c p → has d p) → IntervalLen r ≤ IntervalLen d).
Proof.
  apply (SmallestCover_smallest 10 [mk 10 8 4; mk 10 4 1; mk 10 1 2]); [discriminate|].
  repeat constructor; simpl; try reflexivity; discriminate.
Defined.

(** [TryReduceSizeRight] and [TryReduceSizeLeft] change the representation only:
    they do not panic on a well-formed vector and the vector they return has the same
    elements. *)
Theorem TryReduceSize_keeps `{EqDecision A} (x : vec A) : wf x →
  (∃ y saving, TryReduceSizeRight x = Ok (y, saving) ∧ wf y ∧ elems y = elems x) ∧
  (∃ y saving, TryReduceSizeLeft x = Ok (y, saving) ∧ wf y ∧ elems y = elems x).
Proof.
  intros W. split.
  - destruct (TryReduceSizeRight_spec x W) as (y & s & E & S). exists y, s. split; [done|]. split; [apply S|]. by apply same_vec_elems.
  - destruct (TryReduceSizeLeft_spec x W) as (y & s & E & S). exists y, s. split; [done|]. split; [apply S|]. by apply same_vec_elems.
Qed.

Lemma TryReduceSize_keeps_witness :
  (∃ y saving, TryReduceSizeRight ramp = Ok (y, saving) ∧ wf y ∧ elems y = elems ramp) ∧
  (∃ y saving, TryReduceSizeLeft ramp = Ok (y, saving) ∧ wf y ∧ elems y = elems ramp).
Proof. apply (TryReduceSize_keeps ramp). repeat constructor; simpl; try reflexivity; discriminate. Defined.

(** A constant, a regular vector and a window padded on one side are rebuilt by
    [FromCompactWithShape] from the elements that [IterateCompact] yields. *)
Theorem compact_roundtrips `{EqDecision A} (x : vec A) zero : wf x → compactable x = true →
  ∃ c, IterateCompact zero x = Ok c ∧ FromCompactWithShape x c = Ok x.
Proof. apply compact_roundtrip. Qed.

Definition right_padded : vec K := PaddedCircularWindow (k <$> [40; 50]) (k 9) 8 0.

Lemma compact_roundtrips_witness :
  ∃ c, IterateCompact (k 0) right_padded = Ok c ∧ FromCompactWithShape right_padded c = Ok right_padded.
Proof. apply (compact_roundtrips right_padded (k 0)); [|reflexivity]. repeat constructor; simpl; try reflexivity; discriminate. Defined.

(** [SoftRotate] by an offset turns regular and rotated vectors to the left and
    windows to the right, by the same amount: the direction depends on the
    representation. *)
Theorem SoftRotate_directions {A} (x : vec A) offset : wf x → - Len x ≤ offset ≤ Len x →
  ∃ y, SoftRotate x offset = Ok y ∧ Len y = Len x ∧ ∀ i, 0 ≤ i < Len x →
    Get y i = Get x ((i + match x with PaddedCircularWindow _ _ _ _ => - offset | _ => offset end) mod Len x).
Proof.
  intros W Ho. destruct (SoftRotate_spec x offset W Ho) as (y & E & Wy & Ly & Ey). exists y. split; [done|]. split; [done|].
  intros i Hi. destruct (Get_spec y i Wy) as (a & -> & Ea); [lia|]. rewrite Ey in Ea by done. unfold soft_shift in Ea. pose proof W as [Hl _].
  destruct (Get_spec x ((i + match x with PaddedCircularWindow _ _ _ _ => - offset | _ => offset end) mod Len x) W) as (b & -> & Eb);
    [apply Z.mod_pos_bound; lia|]. destruct x; simpl in *; congruence.
Qed.

Lemma SoftRotate_directions_witness :
  ∃ y, SoftRotate inner 3 = Ok y ∧ Len y = 8 ∧ ∀ i, 0 ≤ i < 8 → Get y i = Get inner ((i + - (3)) mod 8).
Proof. apply (SoftRotate_directions inner 3); [|simpl; lia]. repeat constructor; simpl; try reflexivity; discriminate. Defined.

(** Two windows that do not wrap: [CoWindowRange] returns the range of the last one
    and not one that covers both. *)
Theorem CoWindowRange_forgets {A} (w w' : list A) pad pad' tot tot' o o' :
  o + zlen w ≤ tot → o' + zlen w' ≤ tot' →
  CoWindowRange [Some (PaddedCircularWindow w pad tot o); Some (PaddedCircularWindow w' pad' tot' o')] = (o', o' + zlen w').
Proof. intros L L'. by apply (CoWindowRange_last [Some (PaddedCircularWindow w pad tot o)]); [constructor|]. Qed.

Lemma CoWindowRange_forgets_witness : CoWindowRange [Some right_padded; Some inner] = (2, 4).
Proof. refine (CoWindowRange_forgets (k <$> [40; 50]) (k <$> [40; 50]) (k 9) (k 9) 8 8 0 2 _ _); discriminate. Defined.

(** [RuffiniQuoRemExt] divides by X - q: on a vector read as the coefficients of a
    polynomial P, the remainder is P(q) and P(z) = Q(z) (z - q) + P(q) for the quotient Q
    and every z. *)
Theorem Ruffini_divides `{ElementLaws F, !ExtOps F, !ExtLaws F} (p : vec (E4 F)) q : wf p →
  ∃ quo rem, RuffiniQuoRemExt (OfExt p) q = Ok (quo, rem) ∧ wf quo ∧ rem = horner (elems p) q ∧
    ∀ z, horner (elems p) z = e4_add (e4_mul (horner (elems quo) z) (e4_sub z q)) rem.
Proof. intros W. exact (RuffiniQuoRem_division (A := E4 F) p q W). Qed.

Lemma Ruffini_divides_witness :
  ∃ quo rem, RuffiniQuoRemExt (OfExt wide) (Lift (k 11)) = Ok (quo, rem) ∧ wf quo ∧ rem = horner (elems wide) (Lift (k 11)) ∧
    ∀ z, horner (elems wide) z = e4_add (e4_mul (horner (elems quo) z) (e4_sub z (Lift (k 11)))) rem.
Proof. apply (Ruffini_divides wide (Lift (k 11))). repeat constructor; simpl; try reflexivity; discriminate. Defined.

(** C40. The parallel batch inversion returns the inverses of all the elements, zero for
    zero, whatever the number of processors and the way the slice is cut. *)
Theorem ParBatchInvert_inverts `{ElementLaws F, !ExtOps F, !ExtLaws F} gomaxprocs (a : list (E4 F)) numCPU :
  ParBatchInvert gomaxprocs a numCPU = Ok (e4_inverse <$> a).
Proof. apply ParBatchInvert_spec. Qed.

Lemma ParBatchInvert_inverts_witness :
  ParBatchInvert 3 [Lift (k 2); Zero; mkE4 (k 1) (k 2) (k 3) (k 4); Lift (k 5); One] 0 =
    Ok (e4_inverse <$> [Lift (k 2); Zero; mkE4 (k 1) (k 2) (k 3) (k 4); Lift (k 5); One]).
Proof. apply (ParBatchInvert_inverts 3 [Lift (k 2); Zero; mkE4 (k 1) (k 2) (k 3) (k 4); Lift (k 5); One] 0). Defined.

(** [fext.SetBytes] does not invert [fext.Bytes]: it reads the canonical encoding as
    Montgomery limbs, so that it returns the element divided by the Montgomery constant. *)
Theorem fext_SetBytes_Bytes `{ElementLaws F, !ExtOps F, !ExtLaws F} (z : E4 F) :
  SetBytes (Bytes z) = Ok (MulRInv z).
Proof.
  unfold SetBytes, Bytes, MulRInv. pose proof (el_bytes_length (B0A0 z)) as L0. pose proof (el_bytes_length (B0A1 z)) as L1.
  pose proof (el_bytes_length (B1A0 z)) as L2. pose proof (el_bytes_length (B1A1 z)) as L3.
  assert (∀ x : F, of_limb (be_val (el_bytes x)) = el_mul x MontConstantInv) as E.
  { intros x. pose proof (el_val_range x). unfold of_limb, MulRInvBase. rewrite el_bytes_spec, be_val_bytes, Z.mod_small by (unfold koalaModulus in *; lia).
    by rewrite el_of_val. }
  rewrite e4_mul_by_element_spec, <-!E.
  destruct (el_bytes (B0A0 z)) as [|? [|? [|? [|? []]]]]; try done. destruct (el_bytes (B0A1 z)) as [|? [|? [|? [|? []]]]]; try done.
  destruct (el_bytes (B1A0 z)) as [|? [|? [|? [|? []]]]]; try done. destruct (el_bytes (B1A1 z)) as [|? [|? [|? [|? []]]]]; done.
Qed.

Lemma fext_SetBytes_Bytes_witness : SetBytes (Bytes (One : E4 K)) = Ok (MulRInv (One : E4 K)).
Proof. apply (fext_SetBytes_Bytes (One : E4 K)). Defined.

(** The schoolbook product of two polynomials evaluates to the product of their values
    at every point, and has the sum of their lengths minus one coefficients. *)
Theorem poly_Mul_evaluates `{ScalarLaws A} (a b : list A) : a ≠ [] → b ≠ [] →
  ∃ r, Vectors.Mul a b = Ok r ∧ zlen r = zlen a + zlen b - 1 ∧
    ∀ x, ∃ va vb, Vectors.Eval a x = Ok va ∧ Vectors.Eval b x = Ok vb ∧ Vectors.Eval r x = Ok (sc_mul va vb).
Proof.
  intros Ha Hb. destruct (Mul_spec a b sc_zero) as (r & E & _ & L). exists r. split; [done|]. split; [by apply L|].
  intros x. exists (horner a x), (horner b x). rewrite !Eval_spec. split; [done|]. split; [done|].
  destruct (Mul_spec a b x) as (r' & E' & V & _). congruence.
Qed.

Lemma poly_Mul_evaluates_witness :
  ∃ r, Vectors.Mul (k <$> [1; 2; 3]) (k <$> [4; 5]) = Ok r ∧ zlen r = 4 ∧
    ∀ x, ∃ va vb, Vectors.Eval (k <$> [1; 2; 3]) x = Ok va ∧ Vectors.Eval (k <$> [4; 5]) x = Ok vb ∧ Vectors.Eval r x = Ok (sc_mul va vb).
Proof. refine (poly_Mul_evaluates (k <$> [1; 2; 3]) (k <$> [4; 5]) _ _); discriminate. Defined.
