(* ===== verification/Symbolic.v ===== *)
(** * Symbolic expressions

    Model of src/prover/symbolic: arithmetic expressions as trees, with the
    expression-sensitive hash that identifies what an expression computes, their
    constructors and the simplification of linear combinations and products. The
    metadata of variables is an interface ([Metadata]) and the hash of their names
    (blake2b) a parameter. Pointers to expressions are [option]s where the code lets
    [nil] through; the operators are always stored by value. *)

From S2P Require Export SmartVectorMixed.
Import Utils Fext SmartVector SmartVectorOps SmartVectorMixed.

Class Metadata (M : Type) : Type := { md_String : M → string; md_IsBase : M → bool }.

(** blake2b.New256 on a byte string *)
Class Blake2b : Type := blake2b_Sum256 : list Z → list Z.

Module Symbolic.
Section expressions.
Context {F M : Type} `{ElementOps F, !ExtOps F, !Metadata M, !Blake2b}.
Notation esHash := (E4 F).

Inductive Operator : Type :=
| Constant (Val : GenericFieldElem.t F)
| Variable_ (metadata : M)
| LinComb (Coeffs : list Z)
| Product (Exponents : list Z)
| PolyEval.

Inductive Expression : Type := mkExpression {
  ESHash : esHash;
  Children : list Expression;
  Op : Operator;
  IsBase : bool
}.

(** The values of type [any] that reach the constructors: the [nil] interface, a
    pointer to an expression, which may itself be nil, and the field-like values. *)
Inductive any : Type :=
| AnyNil
| AnyExpression (e : option Expression)
| AnyMetadata (m : M)
| AnyInt (v : Z)
| AnyUint (v : Z)
| AnyBase (b : F)
| AnyExt (x : E4 F)
| AnyGeneric (g : GenericFieldElem.t F)
| AnyBytes (data : list Z).

(** [fext.SetInterface]; the branch on bytes sets a variable of its own. *)
Definition SetInterface (z : E4 F) (i1 : any) : res (E4 F * gerr) :=
  match i1 with
  | AnyNil => Ok (z, Some "can't set fr.Element with <nil>"%string)
  | AnyExt x => Ok (x, None)
  | AnyGeneric g => Ok (GenericFieldElem.Ext g, None)
  | AnyBase b => Ok (SetFromBase b, None)
  | AnyUint v => Ok (SetFromUIntBase z v, None)
  | AnyInt v => Ok (SetFromIntBase z v, None)
  | AnyBytes data => _ ← SetBytes data; Ok (z, None)
  | AnyExpression _ | AnyMetadata _ => Ok (z, Some "can't set fext.Element from type"%string)
  end.

Definition NewConstant (val : any) : res Expression :=
  r ← SetInterface Zero val;
  let '(x, err) := r in
  match err with
  | Some _ => Panic
  | None => Ok (mkExpression x [] (Constant (GenericFieldElem.NewMinimalESHashFromExt x)) (Fext.IsBase x))
  end.

Definition string_bytes (s : string) : list Z := (λ c, Z.of_N (Ascii.N_of_ascii c)) <$> String.list_ascii_of_string s.

Definition metadataToESH (m : M) : esHash :=
  let h := blake2b_Sum256 (string_bytes (md_String m)) in
  mkE4 (el_set_bytes (take 4 h)) (el_set_bytes (take 4 (drop 4 h)))
       (el_set_bytes (take 4 (drop 8 h))) (el_set_bytes (take 4 (drop 12 h))).

Definition NewVariable (m : M) : Expression := mkExpression (metadataToESH m) [] (Variable_ m) (md_IsBase m).

Definition computeIsBaseFromChildren (children : list Expression) : bool := forallb IsBase children.

Definition newLinCombNoSimplify (items : list Expression) (coeffs : list Z) : res Expression :=
  esh ← foldM (λ esh p, c ← idx coeffs p.1; Ok (e4_add esh (e4_mul_by_element (ESHash p.2) (el_of_Z c)))) Zero (enumerate items);
  Ok (mkExpression esh items (LinComb coeffs) (computeIsBaseFromChildren items)).

Definition newProductNoSimplify (items : list Expression) (exponents : list Z) : res Expression :=
  esh ← foldM (λ esh p, n ← idx exponents p.1; Ok (e4_mul esh (e4_exp (ESHash p.2) n))) One (enumerate items);
  Ok (mkExpression esh items (Product exponents) (computeIsBaseFromChildren items)).

(** ** Simplification

    The terms found so far, with the index from hashes to positions that replaces the
    linear scan from the sixteenth term on. *)

Definition linearThreshold : Z := 16.

Record terms : Type := mkTerms {
  newItems : list Expression;
  newCoeffs : list Z;
  itemMap : option (list (esHash * Z))
}.

Fixpoint map_get (mp : list (esHash * Z)) (h : esHash) : option Z :=
  match mp with
  | [] => None
  | (h', i) :: mp => if decide (h' = h) then Some i else map_get mp h
  end.

Definition index_items (items : list Expression) : list (esHash * Z) :=
  foldl (λ mp p, (ESHash p.2, p.1) :: mp) [] (enumerate items).

(** The part of [addTerm] that both simplifications share: one term, not a constant. *)
Definition add_item (t : terms) (item : Expression) (coeff : Z) : res terms :=
  let '(mkTerms items coeffs mp) := t in
  let mp := match mp with
            | None => if linearThreshold <=? zlen items then Some (index_items items) else None
            | Some _ => mp
            end in
  let found := match mp with
               | Some m => map_get m (ESHash item)
               | None => (λ p, Z.of_nat p.1) <$> list_find (λ it, ESHash it = ESHash item) items
               end in
  match found with
  | Some i => c ← idx coeffs i; coeffs ← store coeffs i (int64 (c + coeff)); Ok (mkTerms items coeffs mp)
  | None => Ok (mkTerms (items ++ [item]) (coeffs ++ [coeff]) ((λ m, (ESHash item, zlen items) :: m) <$> mp))
  end.

(** The removal of zero coefficients that ends both. *)
Definition drop_zeros (items : list Expression) (coeffs : list Z) : list Expression * list Z :=
  let kept := filter (λ p, p.2 ≠ 0) (zip items coeffs) in (kept.*1, kept.*2).

Definition lin_addTerm (st : GenericFieldElem.t F * terms) (item : Expression) (coeff : Z) : res (GenericFieldElem.t F * terms) :=
  let '(constantAcc, t) := st in
  if coeff =? 0 then Ok st else
  match Op item with
  | Constant v =>
      Ok (GenericFieldElem.Add constantAcc (GenericFieldElem.Mul (GenericFieldElem.SetInt64 GenericFieldElem.zero_value coeff) v), t)
  | _ => t ← add_item t item coeff; Ok (constantAcc, t)
  end.

Definition lin_step (coeffs : list Z) (st : GenericFieldElem.t F * terms) (p : Z * option Expression) : res (GenericFieldElem.t F * terms) :=
  coeff ← idx coeffs p.1;
  if coeff =? 0 then Ok st else
  item ← deref p.2;
  match Op item with
  | LinComb cs => foldM (λ st q, c ← idx cs q.1; lin_addTerm st q.2 (int64 (coeff * c))) st (enumerate (Children item))
  | _ => lin_addTerm st item coeff
  end.

Definition simplifyLinComb (items : list (option Expression)) (coeffs : list Z) : res (list Expression * list Z) :=
  if negb (zlen items =? zlen coeffs) then Panic else
  st ← foldM (lin_step coeffs) (GenericFieldElem.GenericFieldZero, mkTerms [] [] None) (enumerate items);
  let '(constantAcc, mkTerms items coeffs _) := st in
  if GenericFieldElem.IsZero constantAcc then Ok (drop_zeros items coeffs) else
  cExpr ← NewConstant (AnyGeneric constantAcc);
  Ok (drop_zeros (items ++ [cExpr]) (coeffs ++ [1])).

Definition prod_addTerm (st : GenericFieldElem.t F * terms) (item : Expression) (exponent : Z) : res (GenericFieldElem.t F * terms) :=
  let '(constantAcc, t) := st in
  if exponent =? 0 then Ok st else
  match Op item with
  | Constant v =>
      Ok (GenericFieldElem.Mul constantAcc (GenericFieldElem.Exp GenericFieldElem.zero_value v exponent), t)
  | _ => t ← add_item t item exponent; Ok (constantAcc, t)
  end.

(** [None] is the early return on a factor with a zero hash. *)
Definition prod_step (exponents : list Z) (st : option (GenericFieldElem.t F * terms)) (p : Z * option Expression)
    : res (option (GenericFieldElem.t F * terms)) :=
  match st with
  | None => Ok None
  | Some st =>
      exponent ← idx exponents p.1;
      if exponent =? 0 then Ok (Some st) else
      if exponent <? 0 then Panic else
      item ← deref p.2;
      if Fext.IsZero (ESHash item) then Ok None else
      st ← match Op item with
           | Product es => foldM (λ st q, n ← idx es q.1; prod_addTerm st q.2 (int64 (exponent * n))) st (enumerate (Children item))
           | _ => prod_addTerm st item exponent
           end;
      Ok (Some st)
  end.

Definition simplifyProduct (items : list (option Expression)) (exponents : list Z) : res (list Expression * list Z) :=
  if negb (zlen items =? zlen exponents) then Panic else
  st ← foldM (prod_step exponents) (Some (GenericFieldElem.GenericFieldOne, mkTerms [] [] None)) (enumerate items);
  match st with
  | None => zero ← NewConstant (AnyInt 0); Ok ([zero], [1])
  | Some (constantAcc, mkTerms items exponents _) =>
      if GenericFieldElem.IsOne constantAcc then Ok (drop_zeros items exponents) else
      cExpr ← NewConstant (AnyGeneric constantAcc);
      Ok (drop_zeros (items ++ [cExpr]) (exponents ++ [1]))
  end.

(** ** Constructors *)

Definition NewLinComb (items : list (option Expression)) (coeffs : list Z) : res Expression :=
  if negb (zlen items =? zlen coeffs) then Panic else
  r ← simplifyLinComb items coeffs;
  match r with
  | ([], _) => NewConstant (AnyInt 0)
  | ([item], 1 :: _) => Ok item
  | (items, coeffs) => newLinCombNoSimplify items coeffs
  end.

Definition NewProduct (items : list (option Expression)) (exponents : list Z) : res Expression :=
  if negb (zlen items =? zlen exponents) then Panic else
  r ← simplifyProduct items exponents;
  match r with
  | ([], _) => NewConstant (AnyInt 1)
  | ([item], 1 :: _) => Ok item
  | (items, exponents) => newProductNoSimplify items exponents
  end.

Definition NewPolyEval (x : Expression) (coeffs : list Expression) : res Expression :=
  match coeffs with
  | [] => Panic
  | [c] => Ok c
  | _ =>
      let esh := foldr (λ c esh, e4_add (e4_mul esh (ESHash x)) (ESHash c)) Zero coeffs in
      Ok (mkExpression esh (x :: coeffs) PolyEval false)
  end.

(** The methods on expressions: a nil operand gives nil. *)
Definition e_Add (e other : option Expression) : res (option Expression) :=
  match e, other with
  | Some _, Some _ => r ← NewLinComb [e; other] [1; 1]; Ok (Some r)
  | _, _ => Ok None
  end.

Definition e_Mul (e other : option Expression) : res (option Expression) :=
  match e, other with
  | Some _, Some _ => r ← NewProduct [e; other] [1; 1]; Ok (Some r)
  | _, _ => Ok None
  end.

Definition e_Neg (e : option Expression) : res (option Expression) :=
  match e with Some _ => r ← NewLinComb [e] [-1]; Ok (Some r) | None => Ok None end.

Definition e_Sub (e other : option Expression) : res (option Expression) :=
  match e, other with
  | Some _, Some _ => r ← NewLinComb [e; other] [1; -1]; Ok (Some r)
  | _, _ => Ok None
  end.

Definition e_Square (e : option Expression) : res (option Expression) :=
  match e with Some _ => r ← NewProduct [e] [2]; Ok (Some r) | None => Ok None end.

(** The functions on values of type [any]. *)
Definition intoExpr (input : any) : res (option Expression) :=
  match input with
  | AnyExpression e => Ok e
  | AnyMetadata m => Ok (Some (NewVariable m))
  | AnyInt _ | AnyUint _ | AnyBase _ | AnyExt _ => e ← NewConstant input; Ok (Some e)
  | AnyNil | AnyGeneric _ | AnyBytes _ => Panic
  end.

Definition intoExprSlice (inputs : list any) : res (list (option Expression)) := mapR intoExpr inputs.

Definition isNil (input : any) : bool := match input with AnyNil => true | _ => false end.
Definition doesContainNil (inputs : list any) : bool := existsb isNil inputs.

Definition Add (inputs : list any) : res (option Expression) :=
  if zlen inputs =? 0 then Panic else
  if doesContainNil inputs then Ok None else
  exprs ← intoExprSlice inputs;
  e ← NewLinComb exprs (replicate (length exprs) 1); Ok (Some e).

Definition Mul (inputs : list any) : res (option Expression) :=
  if zlen inputs =? 0 then Panic else
  if doesContainNil inputs then Ok None else
  exprs ← intoExprSlice inputs;
  e ← NewProduct exprs (replicate (length exprs) 1); Ok (Some e).

Definition MulNoSimplify (inputs : list any) : res Expression :=
  exprs ← intoExprSlice inputs;
  items ← mapR deref exprs;
  newProductNoSimplify items (replicate (length items) 1).

(** The slice of subtrahends is passed to [doesContainNil] as one value, never nil. *)
Definition Sub (a : any) (bs : list any) : res (option Expression) :=
  if isNil a then Ok None else
  aExpr ← intoExpr a;
  bExpr ← intoExprSlice bs;
  e ← NewLinComb (aExpr :: bExpr) (1 :: replicate (length bExpr) (-1)); Ok (Some e).

Definition Neg (x : any) : res (option Expression) :=
  if isNil x then Ok None else e ← intoExpr x; e_Neg e.

Definition Square (x : any) : res (option Expression) :=
  if isNil x then Ok None else
  e ← intoExpr x; r ← NewProduct [e] [2]; Ok (Some r).

(** ** Rebuilding *)

Definition SameWithNewChildren (e : Expression) (newChildren : list Expression) : res Expression :=
  match Op e with
  | Constant _ | Variable_ _ => Ok e
  | LinComb cs => NewLinComb (Some <$> newChildren) cs
  | Product es => NewProduct (Some <$> newChildren) es
  | PolyEval => match newChildren with x :: coeffs => NewPolyEval x coeffs | [] => Panic end
  end.

Definition SameWithNewChildrenNoSimplify (e : Expression) (newChildren : list Expression) : res Expression :=
  match Op e with
  | Constant _ | Variable_ _ => Ok e
  | LinComb cs => newLinCombNoSimplify newChildren cs
  | Product es => newProductNoSimplify newChildren es
  | PolyEval => match newChildren with x :: coeffs => NewPolyEval x coeffs | [] => Panic end
  end.

Fixpoint ReconstructBottomUp (constructor : Expression → list Expression → res Expression) (e : Expression) : res Expression :=
  match Op e with
  | Constant _ | Variable_ _ => constructor e []
  | _ => match e with
         | mkExpression _ children _ _ =>
             cs ← (fix go l := match l with
                               | [] => Ok []
                               | c :: l => c' ← ReconstructBottomUp constructor c; l' ← go l; Ok (c' :: l')
                               end) children;
             constructor e cs
         end
  end.
End expressions.
Arguments Operator : clear implicits.
Arguments Expression : clear implicits.
Arguments any : clear implicits.
Arguments terms : clear implicits.
End Symbolic.
