(* ===== verification/SymbolicFacts.v ===== *)
(** * What symbolic expressions compute

    The value of an expression under an assignment of its variables, the well-formedness
    that the constructors maintain, and the proof that their simplifications keep the
    value. Terms are merged when their hashes agree, so this holds for the assignments
    under which equal hashes mean equal values on the terms at hand ([faithful]); the
    hash of a well-formed expression is itself its value under one assignment. *)

From S2P Require Export Symbolic SmartVectorProcess.
From Stdlib Require Import Ring_theory Ring.
Import Utils Fext VectorsFacts SmartVectorOps SmartVectorProcess SmartVectorMixed Symbolic.
Import GenericFieldElem (value, synced).

Module SymbolicFacts.

(** ** Repeated terms: coefficients and exponents

    Linear combinations and products have the same shape: a commutative monoid and the
    repetition of an element. *)

Class Action {A : Type} (unit : A) (plus : A → A → A) (act : A → Z → A) (ok : Z → Prop) : Prop := {
  act_assoc x y z : plus x (plus y z) = plus (plus x y) z;
  act_comm x y : plus x y = plus y x;
  act_unit_l x : plus unit x = x;
  act_0 x : act x 0 = unit;
  act_1 x : act x 1 = x;
  act_add x a b : ok a → ok b → act x (a + b) = plus (act x a) (act x b);
  act_mul x a b : ok a → ok b → act x (b * a) = act (act x a) b;
  act_plus x y c : ok c → act (plus x y) c = plus (act x c) (act y c);
  act_unit c : ok c → act unit c = unit;
  ok_1 : ok 1;
  ok_add a b : ok a → ok b → ok (a + b);
  ok_mul a b : ok a → ok b → ok (a * b)
}.

Definition mass (l : list Z) : Z := foldr (λ c a, Z.abs c + a) 0 l.

Lemma mass_nonneg l : 0 ≤ mass l.
Proof. induction l as [|c l IH]; simpl; lia. Qed.

Lemma mass_app l k : mass (l ++ k) = mass l + mass k.
Proof. induction l as [|c l IH]; simpl; [done|]. rewrite IH. lia. Qed.

Lemma mass_elem l c : c ∈ l → Z.abs c ≤ mass l.
Proof. induction 1 as [c l|c d l _ IH]; simpl; pose proof (mass_nonneg l); lia. Qed.

Lemma mass_insert l (i : nat) c d : l !! i = Some c → mass (<[i := c + d]> l) ≤ mass l + Z.abs d.
Proof. revert i. induction l as [|x l IH]; intros [|i] E; simplify_eq/=; [lia|]. specialize (IH i E). lia. Qed.

Section total.
Context {A : Type} {unit : A} {plus : A → A → A} {act : A → Z → A} {ok : Z → Prop} `{!Action unit plus act ok}.

Definition total (vs : list A) (cs : list Z) : A := foldr plus unit (zip_with act vs cs).

Lemma unit_r x : plus x unit = x.
Proof. by rewrite (act_comm x), act_unit_l. Qed.

Lemma plus_swap x y z : plus x (plus y z) = plus y (plus x z).
Proof. by rewrite !act_assoc, (act_comm x y). Qed.

Lemma total_app_one vs cs v c : length vs = length cs → total (vs ++ [v]) (cs ++ [c]) = plus (total vs cs) (act v c).
Proof.
  unfold total. revert cs. induction vs as [|x vs IH]; intros [|d cs] L; simplify_eq/=.
  - by rewrite unit_r, act_unit_l.
  - by rewrite IH, act_assoc.
Qed.

Lemma total_insert vs cs (i : nat) v c d : vs !! i = Some v → cs !! i = Some c → ok c → ok d →
  total vs (<[i := c + d]> cs) = plus (total vs cs) (act v d).
Proof.
  unfold total. revert cs i. induction vs as [|x vs IH]; intros [|e cs] [|i] Ev Ec Hc Hd; simplify_eq/=.
  - rewrite act_add by done. by rewrite <-!act_assoc, (act_comm (act v d)).
  - rewrite (IH cs i) by done. by rewrite act_assoc.
Qed.

Lemma total_scale vs cs c : Forall ok cs → ok c → act (total vs cs) c = total vs ((λ d, c * d) <$> cs).
Proof.
  unfold total. intros Hcs Hc. revert cs Hcs. induction vs as [|x vs IH]; intros [|d cs] Hcs; simpl; try by apply act_unit.
  inversion_clear Hcs. rewrite act_plus, act_mul, IH by done. done.
Qed.
End total.

Section actions.
Context `{ElementLaws F, !ExtOps F, !ExtLaws F}.
Local Open Scope e4_scope.

Add Ring el_ring_symbolic : (el_ring (F := F)).
Add Ring e4_ring_symbolic : (e4_ring (F := F)).

Definition scale (x : E4 F) (c : Z) : E4 F := e4_mul_by_element x (el_of_Z c).

Lemma scale_Lift x c : scale x c = x * Lift (el_of_Z c).
Proof. apply mul_by_element_Lift. Qed.

#[export] Instance lin_action : Action (Zero : E4 F) e4_add scale (λ _, True).
Proof.
  split; intros; rewrite ?scale_Lift; try done; try ring.
  - change (Lift (el_of_Z 0)) with (0 : E4 F). ring.
  - change (Lift (el_of_Z 1)) with (1 : E4 F). ring.
  - rewrite el_of_Z_add, Lift_add. ring.
  - rewrite el_of_Z_mul, Lift_mul. ring.
Qed.

#[export] Instance prod_action : Action (One : E4 F) e4_mul e4_exp (λ c, 0 ≤ c)%Z.
Proof.
  split; intros; try ring; try lia.
  - apply e4_exp_0.
  - apply e4_exp_1.
  - by apply e4_exp_add.
  - rewrite Z.mul_comm. by apply e4_exp_mul.
  - by apply e4_mul_exp.
  - by apply e4_one_exp.
Qed.
End actions.

(** ** Values *)

Section semantics.
Context {F M : Type} `{ElementLaws F, !ExtOps F, !ExtLaws F, !Metadata M, !Blake2b}.
Notation Expr := (Expression F M).
Implicit Types (e a b : Expr) (items : list Expr) (ρ : M → E4 F).

Lemma Expression_nested (P : Expr → Prop) :
  (∀ h children op (b : bool), Forall P children → P (mkExpression h children op b)) → ∀ e, P e.
Proof.
  intros Hstep. fix IH 1. intros [h children op b]. apply Hstep.
  induction children as [|c children IHc]; constructor; [apply IH|exact IHc].
Qed.

Definition op_value ρ (op : Operator F M) (vs : list (E4 F)) : E4 F :=
  match op with
  | Constant v => value v
  | Variable_ m => ρ m
  | LinComb cs => total (unit := Zero) (plus := e4_add) (act := scale) vs cs
  | Product es => total (unit := One) (plus := e4_mul) (act := e4_exp) vs es
  | PolyEval => match vs with x :: cs => horner cs x | [] => Zero end
  end.

Fixpoint eval ρ e : E4 F :=
  match e with mkExpression _ children op _ => op_value ρ op (eval ρ <$> children) end.

(** Whether an operator over children with the given flags stays in the base field. *)
Definition op_base (op : Operator F M) (flags : list bool) : bool :=
  match op with
  | Constant v => Fext.IsBase (value v)
  | Variable_ m => md_IsBase m
  | LinComb _ | Product _ => forallb id flags
  | PolyEval => false
  end.

(** The shape of a node: its hash and its flag follow from those of its children. *)
Definition node_ok e : Prop :=
  ESHash e = op_value metadataToESH (Op e) (ESHash <$> Children e) ∧
  IsBase e = op_base (Op e) (IsBase <$> Children e) ∧
  match Op e with
  | Constant v => Children e = [] ∧ synced v
  | Variable_ m => Children e = []
  | LinComb cs => length cs = length (Children e) ∧ Forall in_int64 cs ∧ Children e ≠ []
  | Product es => length es = length (Children e) ∧ Forall (λ c, 0 ≤ c < 2 ^ 63) es ∧ Children e ≠ []
  | PolyEval => (2 ≤ length (Children e))%nat
  end.

Fixpoint wf e : Prop :=
  node_ok e ∧ match e with mkExpression _ children _ _ => foldr (λ c P, wf c ∧ P) True children end.

Lemma foldr_and {A} (P : A → Prop) l : foldr (λ c Q, P c ∧ Q) True l ↔ Forall P l.
Proof. induction l as [|x l IH]; simpl; [by split; constructor|]. rewrite IH, Forall_cons. done. Qed.

Lemma wf_unfold e : wf e ↔ node_ok e ∧ Forall wf (Children e).
Proof. destruct e as [h children op b]. simpl. by rewrite (foldr_and wf). Qed.

Lemma eval_unfold ρ e : eval ρ e = op_value ρ (Op e) (eval ρ <$> Children e).
Proof. by destruct e. Qed.

(** The hash is the value under the assignment of hashes. *)
Lemma hash_eval e : wf e → ESHash e = eval metadataToESH e.
Proof.
  induction e as [h children op b IH] using Expression_nested. intros [[E _] Hc]%wf_unfold. rewrite eval_unfold.
  rewrite E. simpl in *. f_equal. apply list_fmap_ext. intros i c Hi.
  rewrite Forall_forall in IH. rewrite Forall_forall in Hc. apply IH; [|apply Hc]; by eapply list_elem_of_lookup_2.
Qed.

Definition faithful ρ (S : Expr → Prop) : Prop := ∀ a b, S a → S b → ESHash a = ESHash b → eval ρ a = eval ρ b.
Definition vanishing ρ (S : Expr → Prop) : Prop := ∀ a, S a → ESHash a = Zero → eval ρ a = Zero.

Lemma faithful_hashes (S : Expr → Prop) : (∀ a, S a → wf a) → faithful metadataToESH S.
Proof. intros HS a b Ha Hb E. by rewrite <-!hash_eval by auto. Qed.

Lemma vanishing_hashes (S : Expr → Prop) : (∀ a, S a → wf a) → vanishing metadataToESH S.
Proof. intros HS a Ha E. by rewrite <-hash_eval by auto. Qed.
End semantics.

(** ** Collecting terms *)

Section collect.
Context {F M : Type} `{ElementLaws F, !ExtOps F, !ExtLaws F, !Metadata M, !Blake2b}.
Context {unit : E4 F} {plus : E4 F → E4 F → E4 F} {act : E4 F → Z → E4 F} {ok : Z → Prop} `{!Action unit plus act ok}.
Context (ρ : M → E4 F) (S : Expression F M → Prop) (HS : faithful ρ S).
Notation Expr := (Expression F M).
Implicit Types (e item : Expr) (items : list Expr) (t : terms F M).

Definition position (h : E4 F) items : option Z := (λ p, Z.of_nat p.1) <$> list_find (λ it, ESHash it = h) items.

Lemma position_snoc h items e : NoDup (ESHash <$> items ++ [e]) →
  position h (items ++ [e]) = if decide (ESHash e = h) then Some (zlen items) else position h items.
Proof.
  rewrite fmap_app. intros (_ & Hn & _)%NoDup_app. unfold position. case_decide as E.
  - rewrite list_find_app_r; simpl.
    + rewrite decide_True by done. simpl. unfold zlen. by f_equal.
    + apply list_find_None. apply Forall_forall. intros x Hx Ex. apply (Hn (ESHash x)); [by apply list_elem_of_fmap_2|].
      rewrite Ex, <-E. apply list_elem_of_here.
  - destruct (list_find (λ it, ESHash it = h) items) as [[n x]|] eqn:Ep.
    + by rewrite (list_find_app_l _ _ _ _ _ Ep).
    + rewrite list_find_app_r by done. simpl. by rewrite decide_False.
Qed.

Lemma enumerate_snoc {B} (l : list B) x : enumerate (l ++ [x]) = enumerate l ++ [(zlen l, x)].
Proof.
  unfold enumerate. rewrite zlen_app, seqZ_app by (unfold zlen; simpl; lia).
  rewrite zip_with_app by (rewrite length_seqZ; unfold zlen; lia). done.
Qed.

Lemma index_items_spec items h : NoDup (ESHash <$> items) → map_get (index_items items) h = position h items.
Proof.
  unfold index_items. induction items as [|e items IH] using rev_ind; intros Hn; [done|].
  rewrite enumerate_snoc, foldl_app, position_snoc by done. simpl. case_decide; [done|]. apply IH.
  rewrite fmap_app in Hn. by apply NoDup_app in Hn as (? & _).
Qed.

(** The terms have distinct hashes and the index, if there is one, finds them. *)
Definition collected t : Prop :=
  length (newItems t) = length (newCoeffs t) ∧ NoDup (ESHash <$> newItems t) ∧
  match itemMap t with Some mp => ∀ h, map_get mp h = position h (newItems t) | None => True end.

(** Collected terms of the given value, with coefficients of the given total size. *)
Definition holds (v : E4 F) (m : Z) t : Prop :=
  collected t ∧ Forall S (newItems t) ∧ Forall ok (newCoeffs t) ∧ mass (newCoeffs t) ≤ m ∧
  total (unit := unit) (plus := plus) (act := act) (eval ρ <$> newItems t) (newCoeffs t) = v.

Lemma position_Some h items i : position h items = Some i → ∃ (n : nat) e, i = Z.of_nat n ∧ items !! n = Some e ∧ ESHash e = h.
Proof.
  unfold position. intros ([n e] & (E & Ee & _)%list_find_Some & ->)%fmap_Some. simpl in *. by exists n, e.
Qed.

Lemma position_None h items : position h items = None → h ∉ ESHash <$> items.
Proof.
  unfold position. rewrite fmap_None, list_find_None, Forall_forall. intros Hn (e & -> & He)%list_elem_of_fmap. by apply (Hn e).
Qed.

Lemma add_found v m t item coeff mp i : holds v m t →
  match mp with Some mp => ∀ h, map_get mp h = position h (newItems t) | None => True end →
  S item → ok coeff → m + Z.abs coeff < 2 ^ 63 → position (ESHash item) (newItems t) = Some i →
  ∃ cs, (c ← idx (newCoeffs t) i; store (newCoeffs t) i (int64 (c + coeff))) = Ok cs ∧
    holds (plus v (act (eval ρ item) coeff)) (m + Z.abs coeff) (mkTerms (newItems t) cs mp).
Proof.
  intros ((L & Hn & Hm) & HSi & Hok & Hmass & Hv) Hmp Hi Hc Hb (n & e & -> & En & Eh)%position_Some.
  destruct (lookup_lt_is_Some_2 (newCoeffs t) n) as [c Ec]; [rewrite <-L; by eapply lookup_lt_Some|].
  rewrite (idx_nat _ (Z.of_nat n) c) by (rewrite ?Nat2Z.id; (lia || done)). simpl.
  rewrite store_Ok by (pose proof (lookup_lt_Some _ _ _ Ec); unfold zlen; lia). rewrite Nat2Z.id.
  assert (Z.abs c ≤ mass (newCoeffs t)) by (apply mass_elem; by eapply list_elem_of_lookup_2).
  rewrite int64_id by (unfold in_int64; lia). eexists. split; [done|].
  assert (ok c) by (by eapply Forall_lookup_1). split_and!; simpl.
  - split_and!; simpl; [by rewrite length_insert|done|done].
  - done.
  - apply Forall_insert; [done|by apply (ok_add (unit := unit) (plus := plus) (act := act))].
  - pose proof (mass_insert _ _ _ coeff Ec). lia.
  - rewrite (total_insert (ok := ok) _ _ n (eval ρ e) c coeff), Hv; [|by rewrite list_lookup_fmap, En|done..].
    do 2 f_equal. apply HS; [by eapply Forall_lookup_1|done|done].
Qed.

Lemma add_missing v m t item coeff mp : holds v m t →
  match mp with Some mp => ∀ h, map_get mp h = position h (newItems t) | None => True end →
  S item → ok coeff → position (ESHash item) (newItems t) = None →
  holds (plus v (act (eval ρ item) coeff)) (m + Z.abs coeff)
    (mkTerms (newItems t ++ [item]) (newCoeffs t ++ [coeff]) ((λ m, (ESHash item, zlen (newItems t)) :: m) <$> mp)).
Proof.
  intros ((L & Hn & _) & HSi & Hok & Hmass & Hv) Hmp Hi Hc Hp%position_None.
  assert (NoDup (ESHash <$> newItems t ++ [item])) as Hn'.
  { rewrite fmap_app. apply NoDup_app. split_and!; [done| |apply NoDup_singleton]. intros h Hh ->%list_elem_of_singleton. done. }
  split_and!; simpl.
  - split_and!; simpl; [rewrite !length_app; simpl; lia|done|]. destruct mp as [mp|]; simpl; [|done].
    intros h. rewrite position_snoc by done. by rewrite <-Hmp.
  - apply Forall_app. by rewrite Forall_singleton.
  - apply Forall_app. by rewrite Forall_singleton.
  - rewrite mass_app. simpl. lia.
  - rewrite fmap_app. simpl. rewrite (total_app_one (ok := ok)) by (by rewrite length_fmap). by rewrite Hv.
Qed.

Lemma add_item_spec v m t item coeff : holds v m t → S item → ok coeff → m + Z.abs coeff < 2 ^ 63 →
  ∃ t', add_item t item coeff = Ok t' ∧ holds (plus v (act (eval ρ item) coeff)) (m + Z.abs coeff) t'.
Proof.
  intros Ht Hi Hc Hb. unfold add_item. pose proof Ht as ((L & Hn & Hm) & _). destruct t as [items coeffs mp]. simpl in *.
  set (mp' := match mp with None => if linearThreshold <=? zlen items then Some (index_items items) else None | Some _ => mp end).
  assert (match mp' with Some mp => ∀ h, map_get mp h = position h items | None => True end) as Hmp'.
  { subst mp'. destruct mp as [mp|]; [done|]. destruct (linearThreshold <=? zlen items); [|done]. intros h. by apply index_items_spec. }
  assert (match mp' with Some m => map_get m (ESHash item) | None => position (ESHash item) items end = position (ESHash item) items) as Ep.
  { destruct mp' as [mp1|]; [apply Hmp'|done]. }
  fold (position (ESHash item) items). rewrite Ep. destruct (position (ESHash item) items) as [i|] eqn:E.
  - destruct (add_found v m _ item coeff mp' i Ht) as (cs & Ecs & Hcs); [done..|].
    simpl in Ecs. apply res_bind_Ok in Ecs as (c & -> & Es). simpl. rewrite Es. simpl. by eexists.
  - eexists. split; [done|]. by apply (add_missing v m _ item coeff mp' Ht).
Qed.
End collect.
End SymbolicFacts.
