(* ===== verification/SymbolicSimplify.v ===== *)
(** * Simplification keeps the value

    The constructors of linear combinations, products and polynomial evaluations return,
    without a panic, a well-formed expression with the value they are named after, as long
    as the coefficients they add up stay within 64 bits. *)

From S2P Require Export SymbolicFacts.
From Stdlib Require Import Ring_theory Ring.
Import Utils Fext VectorsFacts SmartVectorOps SmartVectorProcess SmartVectorMixed Symbolic SymbolicFacts.
Import GenericFieldElem (value, synced).

Module SymbolicSimplify.

Section simplify.
Context {F M : Type} `{ElementLaws F, !ExtOps F, !ExtLaws F, !Metadata M, !Blake2b}.
Context {unit : E4 F} {plus : E4 F → E4 F → E4 F} {act : E4 F → Z → E4 F} {ok : Z → Prop} `{!Action unit plus act ok}.
Context (ρ : M → E4 F) (S : Expression F M → Prop) (HS : faithful ρ S).
Notation Expr := (Expression F M).
Notation total := (total (unit := unit) (plus := plus) (act := act)).
Notation holds := (holds (unit := unit) (plus := plus) (act := act) (ok := ok) ρ S).
Implicit Types (e item : Expr) (items : list Expr) (st : GenericFieldElem.t F * terms F M).

Definition held (v : E4 F) (m : Z) st : Prop :=
  synced st.1 ∧ ∃ v', holds v' m st.2 ∧ plus (value st.1) v' = v.

Definition adds (f : GenericFieldElem.t F * terms F M → Expr → Z → res (GenericFieldElem.t F * terms F M)) : Prop :=
  ∀ v m st item c, held v m st → S item → ok c → m + Z.abs c < 2 ^ 63 →
    ∃ st', f st item c = Ok st' ∧ held (plus v (act (eval ρ item) c)) (m + Z.abs c) st'.

Lemma held_mono v m m' st : held v m st → m ≤ m' → held v m' st.
Proof. intros (Hs & v' & (? & ? & ? & ? & ?) & E) L. split; [done|]. exists v'. split; [|done]. split_and!; try done. lia. Qed.

Lemma held_term v m acc t item c : held v m (acc, t) → S item → ok c → m + Z.abs c < 2 ^ 63 →
  ∃ t', add_item t item c = Ok t' ∧ held (plus v (act (eval ρ item) c)) (m + Z.abs c) (acc, t').
Proof.
  intros (Hs & v' & Ht & E) Hi Hc Hb. destruct (add_item_spec ρ S HS v' m t item c Ht Hi Hc Hb) as (t' & -> & Ht').
  exists t'. split; [done|]. split; [done|]. exists (plus v' (act (eval ρ item) c)). split; [done|].
  simpl in *. by rewrite (act_assoc (ok := ok) (act := act) (unit := unit)), E.
Qed.

Lemma held_constant v m acc acc' t x c : held v m (acc, t) → synced acc' → value acc' = plus (value acc) (act x c) →
  held (plus v (act x c)) (m + Z.abs c) (acc', t).
Proof.
  intros (Hs & v' & Ht & E) Hs' Ev. apply (held_mono _ m); [|lia]. split; [done|]. exists v'. split; [done|]. simpl in *.
  by rewrite Ev, <-E, <-!(act_assoc (ok := ok) (act := act) (unit := unit)), (act_comm (ok := ok) (act := act) (unit := unit) v').
Qed.

Lemma held_zero v m st x : held v m st → held (plus v (act x 0)) (m + Z.abs 0) st.
Proof. rewrite Z.abs_0, Z.add_0_r, (act_0 (ok := ok) (plus := plus)), (unit_r (ok := ok) (act := act)). done. Qed.

(** The loop over the children of an operand of the same kind. *)
Lemma flatten_spec f v m st children cs coeff : adds f → held v m st → Forall S children → length cs = length children →
  Forall ok cs → ok coeff → m + Z.abs coeff * mass cs < 2 ^ 63 →
  ∃ st', foldM (λ st q, c ← idx cs q.1; f st q.2 (int64 (coeff * c))) st (enumerate children) = Ok st' ∧
    held (plus v (act (total (eval ρ <$> children) cs) coeff)) (m + Z.abs coeff * mass cs) st'.
Proof.
  intros Hf Hst HSc L Hcs Hc Hb. rewrite (total_scale (ok := ok)) by done.
  destruct (foldM_enumerate (λ st q, c ← idx cs q.1; f st q.2 (int64 (coeff * c)))
    (λ k st, held (plus v (total (eval ρ <$> take k children) ((λ d, coeff * d) <$> take k cs))) (m + Z.abs coeff * mass (take k cs)) st)
    children st) as (st' & E & Hst').
  - simpl. rewrite (unit_r (ok := ok) (act := act)), Z.mul_0_r, Z.add_0_r. done.
  - intros k e st1 Ek Hst1. destruct (lookup_lt_is_Some_2 cs k) as [c Ec]; [rewrite L; by eapply lookup_lt_Some|].
    cbn [fst snd]. rewrite (idx_nat _ (Z.of_nat k) c) by (rewrite ?Nat2Z.id; (lia || done)). simpl.
    rewrite (take_S_r _ _ _ Ek), (take_S_r _ _ _ Ec), !fmap_app. simpl.
    rewrite (total_app_one (ok := ok)) by (rewrite !length_fmap, !length_take; lia).
    rewrite mass_app. cbn [mass foldr]. rewrite Z.add_0_r, Z.mul_add_distr_l, <-Z.abs_mul, Z.add_assoc.
    assert (mass (take k cs) + Z.abs c ≤ mass cs) as Hm.
    { rewrite <-(take_drop_middle _ _ _ Ec) at 2. rewrite mass_app. cbn [mass foldr]. pose proof (mass_nonneg (drop (Datatypes.S k) cs)). unfold mass in *. lia. }
    assert (Z.abs coeff * (mass (take k cs) + Z.abs c) ≤ Z.abs coeff * mass cs) by (apply Z.mul_le_mono_nonneg_l; lia).
    pose proof (mass_nonneg (take k cs)). pose proof (Z.abs_nonneg coeff).
    assert (m + Z.abs coeff * mass (take k cs) + Z.abs (coeff * c) < 2 ^ 63) by (rewrite Z.abs_mul; lia).
    assert (Z.abs (coeff * c) < 2 ^ 63) by (destruct Hst as (_ & ? & (_ & _ & _ & Hms & _) & _);
      pose proof (mass_nonneg (newCoeffs st.2)); nia).
    rewrite int64_id by (unfold in_int64; lia).
    rewrite (act_assoc (ok := ok) (act := act) (unit := unit)).
    apply (Hf _ _ st1 e (coeff * c)); [done|by eapply Forall_lookup_1| |done].
    apply (ok_mul (unit := unit) (plus := plus) (act := act)); [done|by eapply Forall_lookup_1].
  - exists st'. split; [done|]. by rewrite !firstn_all2 in Hst' by lia.
Qed.

Lemma forallb_flags items : forallb IsBase items = forallb id (IsBase <$> items).
Proof. induction items as [|e items IH]; simpl; [done|]. by rewrite IH. Qed.

(** A term list completed by the accumulated constant, without its zero coefficients. *)
Lemma drop_zeros_total items cs : length items = length cs → let r := drop_zeros items cs in
  total (eval ρ <$> r.1) r.2 = total (eval ρ <$> items) cs.
Proof.
  intros _. unfold drop_zeros, SymbolicFacts.total. simpl. revert cs.
  induction items as [|e items IH]; intros [|d cs]; simpl; [done..|]. rewrite filter_cons. simpl.
  case_decide as E; simpl; [by rewrite IH|]. by rewrite IH, E, (act_0 (ok := ok) (plus := plus)), (act_unit_l (ok := ok) (act := act)).
Qed.

Lemma drop_zeros_spec (P : Expr → Prop) (Q : Z → Prop) items cs : Forall P items → Forall Q cs →
  let r := drop_zeros items cs in
  length r.1 = length r.2 ∧ Forall P r.1 ∧ Forall Q r.2.
Proof.
  intros HP HQ. unfold drop_zeros. simpl. rewrite !length_fmap. split; [done|].
  split; apply Forall_fmap, Forall_forall; intros [e c] [_ Hp]%list_elem_of_filter; simpl.
  - rewrite Forall_forall in HP. by eapply HP, elem_of_zip_l.
  - rewrite Forall_forall in HQ. by eapply HQ, elem_of_zip_r.
Qed.

Definition constant (x : E4 F) : Expr := mkExpression x [] (Constant (GenericFieldElem.NewMinimalESHashFromExt x)) (Fext.IsBase x).

Lemma constant_wf x : wf (constant x).
Proof.
  destruct (GenericFieldElem.NewMinimalESHashFromExt_spec x) as [E Hs]. apply wf_unfold. split; [|constructor]. split; [done|]. split; [simpl; by rewrite E|done].
Qed.

Lemma constant_eval x : eval ρ (constant x) = x.
Proof. apply (GenericFieldElem.NewMinimalESHashFromExt_spec x). Qed.

Definition simplified (v : E4 F) (r : list Expr * list Z) : Prop :=
  length r.1 = length r.2 ∧ Forall wf r.1 ∧ Forall (λ c, ok c ∧ Z.abs c < 2 ^ 63) r.2 ∧ total (eval ρ <$> r.1) r.2 = v.

Lemma simplified_drop items cs v : length items = length cs → Forall wf items → Forall (λ c, ok c ∧ Z.abs c < 2 ^ 63) cs →
  total (eval ρ <$> items) cs = v → simplified v (drop_zeros items cs).
Proof.
  intros L Hw Hc E. destruct (drop_zeros_spec wf (λ c, ok c ∧ Z.abs c < 2 ^ 63) items cs Hw Hc) as (? & ? & ?).
  split_and!; [done..|]. by rewrite drop_zeros_total.
Qed.

Lemma finish_spec v m acc t : held v m (acc, t) → m < 2 ^ 63 → (∀ a, S a → wf a) →
  (value acc = unit → simplified v (drop_zeros (newItems t) (newCoeffs t))) ∧
  simplified v (drop_zeros (newItems t ++ [constant (GenericFieldElem.Ext acc)]) (newCoeffs t ++ [1])).
Proof.
  intros (Hs & v' & ((L & _) & HSi & Hok & Hm & Ht) & E) Hb HW. simpl in *.
  assert (Forall wf (newItems t)) by (eapply Forall_impl; [exact HSi|exact HW]).
  assert (Forall (λ c, ok c ∧ Z.abs c < 2 ^ 63) (newCoeffs t)) as Hc.
  { apply Forall_forall. intros c Hin. rewrite Forall_forall in Hok. split; [by apply Hok|]. pose proof (mass_elem _ _ Hin). lia. }
  split.
  - intros Ev. apply simplified_drop; [done..|]. by rewrite Ht, <-E, Ev, (act_unit_l (ok := ok) (act := act)).
  - apply simplified_drop.
    + rewrite !length_app, L. done.
    + apply Forall_app. split; [done|]. apply Forall_singleton, constant_wf.
    + apply Forall_app. split; [done|]. apply Forall_singleton. split; [apply (ok_1 (unit := unit) (plus := plus) (act := act))|lia].
    + rewrite fmap_app. cbn [fmap list_fmap]. rewrite (total_app_one (ok := ok)) by (by rewrite length_fmap).
      rewrite constant_eval, (act_1 (ok := ok) (unit := unit) (plus := plus)), Ht, <-E, Hs.
      apply (act_comm (ok := ok) (unit := unit) (act := act)).
Qed.
End simplify.

Section cost.
Context {F M : Type}.
Implicit Types (items : list (Expression F M)).

(** The size of the coefficients that flattening adds up. *)
Definition cost (norm : Expression F M → Z) items (coeffs : list Z) : Z :=
  foldr Z.add 0 (zip_with (λ e c, Z.abs c * norm e) items coeffs).

Lemma cost_nonneg norm items coeffs : (∀ e, 0 ≤ norm e) → 0 ≤ cost norm items coeffs.
Proof.
  intros Hn. unfold cost. revert coeffs. induction items as [|e items IH]; intros [|c coeffs]; simpl; try lia.
  specialize (IH coeffs). specialize (Hn e). nia.
Qed.

Lemma cost_take norm items coeffs (k : nat) e c : (∀ e, 0 ≤ norm e) → items !! k = Some e → coeffs !! k = Some c →
  cost norm (take (S k) items) (take (S k) coeffs) = cost norm (take k items) (take k coeffs) + Z.abs c * norm e ∧
  cost norm (take (S k) items) (take (S k) coeffs) ≤ cost norm items coeffs.
Proof.
  intros Hn. revert coeffs k. induction items as [|x items IH]; intros [|d coeffs] [|k] Ee Ec; simplify_eq/=.
  - unfold cost at 1 2 3 4. simpl. pose proof (cost_nonneg norm items coeffs Hn). unfold cost in *. lia.
  - destruct (IH coeffs k Ee Ec) as [E L]. unfold cost in *. simpl. lia.
Qed.

Definition lin_norm (e : Expression F M) : Z := match Op e with LinComb cs => mass cs | _ => 1 end.
Definition prod_norm (e : Expression F M) : Z := match Op e with Product es => mass es | _ => 1 end.

Lemma lin_norm_nonneg e : 0 ≤ lin_norm e.
Proof. unfold lin_norm. destruct (Op e); try lia. apply mass_nonneg. Qed.

Lemma prod_norm_nonneg e : 0 ≤ prod_norm e.
Proof. unfold prod_norm. destruct (Op e); try lia. apply mass_nonneg. Qed.
End cost.

(** ** Linear combinations *)

Section lincomb.
Context {F M : Type} `{ElementLaws F, !ExtOps F, !ExtLaws F, !Metadata M, !Blake2b}.
Notation Expr := (Expression F M).
Implicit Types (e item : Expr) (items : list Expr).

Definition lin_value (ρ : M → E4 F) items coeffs : E4 F :=
  total (unit := Zero) (plus := e4_add) (act := scale) (eval ρ <$> items) coeffs.

(** The operands and their children, among which the simplification merges terms. *)
Definition parts items (a : Expr) : Prop := a ∈ items ∨ ∃ e, e ∈ items ∧ a ∈ Children e.

Lemma parts_wf items a : Forall wf items → parts items a → wf a.
Proof.
  rewrite Forall_forall. intros Hw [Ha|(e & He & Ha)]; [by apply Hw|]. apply Hw, wf_unfold in He as [_ Hc].
  rewrite Forall_forall in Hc. by apply Hc.
Qed.

Section terms.
Context (ρ : M → E4 F) (S : Expr → Prop) (HS : faithful ρ S).
Notation held := (held (unit := Zero) (plus := e4_add) (act := scale) (ok := λ _, True) ρ S).

Lemma lin_addTerm_adds : adds (unit := Zero) (plus := e4_add) (act := scale) (ok := λ _, True) ρ S lin_addTerm.
Proof.
  intros v m [acc t] item c Hst Hi Hc Hb. unfold lin_addTerm. destruct (Z.eqb_spec c 0) as [->|Hc0].
  { eexists. split; [done|]. by apply held_zero. }
  assert (∃ t', add_item t item c = Ok t' ∧ held (e4_add v (scale (eval ρ item) c)) (m + Z.abs c) (acc, t')) as (t' & Et & Ht)
    by (by apply held_term).
  destruct (Op item) as [g|md|cs|es|] eqn:Eop; try (rewrite Et; simpl; by eexists).
  eexists. split; [done|]. rewrite eval_unfold, Eop. simpl.
  destruct (GenericFieldElem.generic_Mul_spec (GenericFieldElem.SetInt64 GenericFieldElem.zero_value c) g) as [Ev Hsy].
  destruct (GenericFieldElem.Add_spec acc (GenericFieldElem.Mul (GenericFieldElem.SetInt64 GenericFieldElem.zero_value c) g)) as [Ea Hsa];
    [apply Hst|done|]. apply (held_constant ρ S v m acc); [done|done|]. rewrite Ea, Ev. f_equal.
  rewrite (proj1 (GenericFieldElem.SetInt64_spec _ c)), scale_Lift. destruct (e4_ring (F := F)). done.
Qed.

Lemma lin_step_spec v m st (k : nat) item coeffs c : held v m st → S item → Forall S (Children item) → wf item →
  coeffs !! k = Some c → m + Z.abs c * lin_norm item < 2 ^ 63 →
  ∃ st', lin_step coeffs st (Z.of_nat k, Some item) = Ok st' ∧
    held (e4_add v (scale (eval ρ item) c)) (m + Z.abs c * lin_norm item) st'.
Proof.
  intros Hst Hi HSc [(_ & _ & Hn) _]%wf_unfold Ec Hb. unfold lin_step. cbn [fst snd].
  rewrite (idx_nat _ (Z.of_nat k) c) by (rewrite ?Nat2Z.id; (lia || done)). simpl. destruct (Z.eqb_spec c 0) as [->|Hc0].
  { exists st. split; [done|]. apply (held_zero ρ S v m st (eval ρ item)) in Hst. by rewrite Z.mul_0_l. }
  unfold lin_norm in *. destruct (Op item) as [g|md|cs|es|] eqn:Eop;
    try (rewrite Z.mul_1_r in *; by apply lin_addTerm_adds).
  destruct Hn as (L & _). rewrite eval_unfold, Eop. simpl.
  apply (flatten_spec ρ S lin_addTerm); try done; [apply lin_addTerm_adds|by apply Forall_true].
Qed.

Lemma lin_loop items coeffs : Forall wf items → length coeffs = length items → (∀ a, parts items a → S a) →
  cost lin_norm items coeffs < 2 ^ 63 →
  ∃ st, foldM (lin_step coeffs) (GenericFieldElem.GenericFieldZero, mkTerms [] [] None) (enumerate (Some <$> items)) = Ok st ∧
    held (lin_value ρ items coeffs) (cost lin_norm items coeffs) st.
Proof.
  intros Hw L HSi Hb. destruct (foldM_enumerate (lin_step coeffs)
    (λ k st, held (lin_value ρ (take k items) (take k coeffs)) (cost lin_norm (take k items) (take k coeffs)) st)
    (Some <$> items) (GenericFieldElem.GenericFieldZero, mkTerms [] [] None)) as (st & E & Hst).
  - split; [done|]. exists Zero. split; [|simpl; rewrite (act_unit_l (act := scale) (ok := λ _, True)); done].
    split_and!; simpl; try done. split_and!; simpl; try done. apply NoDup_nil_2.
  - intros k x st Ek Hst. rewrite list_lookup_fmap in Ek. apply fmap_Some in Ek as (e & Ee & ->).
    destruct (lookup_lt_is_Some_2 coeffs k) as [c Ec]; [rewrite L; by eapply lookup_lt_Some|].
    destruct (cost_take lin_norm items coeffs k e c lin_norm_nonneg Ee Ec) as [Ecost Hle].
    assert (e ∈ items) as He by (by eapply list_elem_of_lookup_2).
    destruct (lin_step_spec _ _ st k e coeffs c Hst) as (st' & -> & Hst'); try done.
    + apply HSi. by left.
    + apply Forall_forall. intros a Ha. apply HSi. right. by exists e.
    + by eapply Forall_lookup_1.
    + lia.
    + exists st'. split; [done|]. rewrite Ecost. unfold lin_value in *.
      rewrite (take_S_r _ _ _ Ee), (take_S_r _ _ _ Ec), fmap_app. simpl.
      by rewrite (total_app_one (ok := λ _, True)) by (rewrite length_fmap, !length_take; lia).
  - rewrite length_fmap in Hst. rewrite !firstn_all2 in Hst by lia. by exists st.
Qed.

Lemma simplifyLinComb_spec items coeffs : Forall wf items → length coeffs = length items → (∀ a, parts items a → S a) →
  (∀ a, S a → wf a) → cost lin_norm items coeffs < 2 ^ 63 →
  ∃ r, simplifyLinComb (Some <$> items) coeffs = Ok r ∧
    simplified (unit := Zero) (plus := e4_add) (act := scale) (ok := λ _, True) ρ (lin_value ρ items coeffs) r.
Proof.
  intros Hw L HSi HW Hb. unfold simplifyLinComb, zlen. rewrite length_fmap, L, Z.eqb_refl. simpl.
  destruct (lin_loop items coeffs Hw L HSi Hb) as ([acc t] & -> & Hst).
  destruct (finish_spec ρ S _ _ acc t Hst Hb HW) as [H0' H1']. destruct t as [its cs mp]. simpl in *.
  rewrite GenericFieldElem.gen_IsZero_spec. case_bool_decide as Ez; eexists; (split; [done|]); auto.
Qed.
End terms.

Lemma newLinCombNoSimplify_spec items coeffs : Forall wf items → length items = length coeffs → Forall in_int64 coeffs → items ≠ [] →
  ∃ e, newLinCombNoSimplify items coeffs = Ok e ∧ wf e ∧ ∀ ρ, eval ρ e = lin_value ρ items coeffs.
Proof.
  intros Hw L Hc Hne. unfold newLinCombNoSimplify.
  destruct (foldM_enumerate (λ esh p, c ← idx coeffs p.1; Ok (e4_add esh (e4_mul_by_element (ESHash p.2) (el_of_Z c))))
    (λ k esh, esh = total (unit := Zero) (plus := e4_add) (act := scale) (ESHash <$> take k items) (take k coeffs)) items Zero) as (esh & -> & ->).
  - done.
  - intros k e esh Ee ->. destruct (lookup_lt_is_Some_2 coeffs k) as [c Ec]; [rewrite <-L; by eapply lookup_lt_Some|].
    cbn [fst snd]. rewrite (idx_nat _ (Z.of_nat k) c) by (rewrite ?Nat2Z.id; (lia || done)). simpl. eexists. split; [done|].
    rewrite (take_S_r _ _ _ Ee), (take_S_r _ _ _ Ec), fmap_app. simpl.
    by rewrite (total_app_one (ok := λ _, True)) by (rewrite length_fmap, !length_take; lia).
  - simpl. eexists. split; [done|]. rewrite !firstn_all2 by lia. split; [|done].
    apply wf_unfold. split; [|done]. split; [done|]. split; [apply forallb_flags|]. by split_and!.
Qed.

Lemma NewConstant_int v : NewConstant (AnyInt v) = Ok (constant (Lift (el_of_Z v)) : Expr).
Proof. done. Qed.

Lemma NewLinComb_spec items coeffs : Forall wf items → length coeffs = length items → cost lin_norm items coeffs < 2 ^ 63 →
  ∃ e, NewLinComb (Some <$> items) coeffs = Ok e ∧ wf e ∧ ∀ ρ, faithful ρ (parts items) → eval ρ e = lin_value ρ items coeffs.
Proof.
  intros Hw L Hb. assert (∀ a, parts items a → wf a) as HW by (intros a; by apply parts_wf).
  destruct (simplifyLinComb_spec metadataToESH (parts items) (faithful_hashes _ HW) items coeffs) as ([its cs] & Er & Lr & Hwr & Hcr & _); [done..|].
  unfold NewLinComb, zlen. rewrite length_fmap, L, Z.eqb_refl. simpl. rewrite Er. simpl in *.
  assert (∀ ρ, faithful ρ (parts items) → lin_value ρ its cs = lin_value ρ items coeffs) as V.
  { intros ρ Hf. destruct (simplifyLinComb_spec ρ (parts items) Hf items coeffs) as (r & Er' & Hr); [done..|].
    rewrite Er in Er'. injection Er' as <-. apply Hr. }
  assert (its ≠ [] → ∃ e, newLinCombNoSimplify its cs = Ok e ∧ wf e ∧ ∀ ρ, faithful ρ (parts items) → eval ρ e = lin_value ρ items coeffs) as HN.
  { intros Hne. destruct (newLinCombNoSimplify_spec its cs) as (e & -> & We & Ve); [done..| |done|].
    - eapply Forall_impl; [exact Hcr|]. intros c [_ ?]. unfold in_int64. lia.
    - exists e. split; [done|]. split; [done|]. intros ρ Hf. by rewrite Ve, V. }
  destruct its as [|e1 its].
  - rewrite NewConstant_int. eexists. split; [done|]. split; [apply constant_wf|]. intros ρ Hf. rewrite constant_eval, <-V by done. done.
  - destruct its as [|e2 its]; [|by apply HN]. destruct cs as [|c cs]; [done|]. destruct cs; [|done].
    destruct (decide (c = 1)) as [->|Hc1]; [|destruct c as [|[]|]; try done; by apply HN].
    exists e1. split; [done|]. inversion_clear Hwr. split; [done|]. intros ρ Hf. rewrite <-V by done.
    unfold lin_value, total. simpl. by rewrite (act_1 (unit := Zero) (plus := e4_add) (ok := λ _, True)), (unit_r (unit := Zero) (ok := λ _, True) (act := scale)).
Qed.
End lincomb.

(** ** Products *)

Section product.
Context {F M : Type} `{ElementLaws F, !ExtOps F, !ExtLaws F, !Metadata M, !Blake2b}.
Notation Expr := (Expression F M).
Implicit Types (e item : Expr) (items : list Expr).

Add Ring e4_ring_product : (e4_ring (F := F)).

Definition prod_value (ρ : M → E4 F) items exponents : E4 F :=
  total (unit := One) (plus := e4_mul) (act := e4_exp) (eval ρ <$> items) exponents.

Lemma prod_value_zero ρ items exponents (k : nat) e n : items !! k = Some e → exponents !! k = Some n → 0 < n → eval ρ e = Zero →
  prod_value ρ items exponents = Zero.
Proof.
  unfold prod_value, total. revert exponents k. induction items as [|x items IH]; intros [|d exponents] [|k] Ee En Hn Hz; simplify_eq/=.
  - rewrite Hz, e4_zero_exp by done. ring.
  - rewrite (IH exponents k) by done. ring.
Qed.

Section terms.
Context (ρ : M → E4 F) (S : Expr → Prop) (HS : faithful ρ S) (HZ : vanishing ρ S).
Notation held := (held (unit := One) (plus := e4_mul) (act := e4_exp) (ok := Z.le 0) ρ S).

Lemma prod_addTerm_adds : adds (unit := One) (plus := e4_mul) (act := e4_exp) (ok := Z.le 0) ρ S prod_addTerm.
Proof.
  intros v m [acc t] item c Hst Hi Hc Hb. unfold prod_addTerm. destruct (Z.eqb_spec c 0) as [->|Hc0].
  { eexists. split; [done|]. by apply held_zero. }
  assert (∃ t', add_item t item c = Ok t' ∧ held (e4_mul v (e4_exp (eval ρ item) c)) (m + Z.abs c) (acc, t')) as (t' & Et & Ht)
    by (by apply held_term).
  destruct (Op item) as [g|md|cs|es|] eqn:Eop; try (rewrite Et; simpl; by eexists).
  eexists. split; [done|]. rewrite eval_unfold, Eop. simpl.
  destruct (GenericFieldElem.Exp_spec GenericFieldElem.zero_value g c Hc) as [Ev _].
  destruct (GenericFieldElem.generic_Mul_spec acc (GenericFieldElem.Exp GenericFieldElem.zero_value g c)) as [Em Hsy].
  apply (held_constant ρ S v m acc); [done|done|]. by rewrite Em, Ev.
Qed.

(** The state of the loop: the terms so far, or a product that is zero. *)
Definition prod_inv items exponents (k : nat) (st : option (GenericFieldElem.t F * terms F M)) : Prop :=
  match st with
  | Some st => held (prod_value ρ (take k items) (take k exponents)) (cost prod_norm (take k items) (take k exponents)) st
  | None => prod_value ρ items exponents = Zero
  end.

Lemma prod_step_spec items exponents st (k : nat) item : Forall wf items → length exponents = length items →
  (∀ a, parts items a → S a) → Forall (Z.le 0) exponents → cost prod_norm items exponents < 2 ^ 63 →
  items !! k = Some item → prod_inv items exponents k st →
  ∃ st', prod_step exponents st (Z.of_nat k, Some item) = Ok st' ∧ prod_inv items exponents (Datatypes.S k) st'.
Proof.
  intros Hw L HSi He Hb Ei Hst. destruct st as [st|]; [|by exists None]. unfold prod_step. cbn [fst snd].
  destruct (lookup_lt_is_Some_2 exponents k) as [n En]; [rewrite L; by eapply lookup_lt_Some|].
  rewrite (idx_nat _ (Z.of_nat k) n) by (rewrite ?Nat2Z.id; (lia || done)). simpl.
  destruct (cost_take prod_norm items exponents k item n prod_norm_nonneg Ei En) as [Ecost Hle].
  assert (0 ≤ n) as Hn by (by eapply Forall_lookup_1 in He). assert (item ∈ items) as Hin by (by eapply list_elem_of_lookup_2).
  assert (∀ st', held (e4_mul (prod_value ρ (take k items) (take k exponents)) (e4_exp (eval ρ item) n))
      (cost prod_norm (take k items) (take k exponents) + Z.abs n * prod_norm item) st' → prod_inv items exponents (Datatypes.S k) (Some st')) as Hnext.
  { intros st' Hs. unfold prod_inv. rewrite Ecost. unfold prod_value in *. rewrite (take_S_r _ _ _ Ei), (take_S_r _ _ _ En), fmap_app. simpl.
    by rewrite (total_app_one (ok := Z.le 0)) by (rewrite length_fmap, !length_take; lia). }
  destruct (Z.eqb_spec n 0) as [->|Hn0].
  { eexists. split; [done|]. apply Hnext. apply (held_zero ρ S _ _ st (eval ρ item)) in Hst. by rewrite Z.mul_0_l. }
  rewrite (proj2 (Z.ltb_ge n 0)) by lia. assert (S item) as HSitem by (apply HSi; by left).
  unfold Fext.IsZero. case_bool_decide as Ez.
  { eexists. split; [done|]. simpl. apply (prod_value_zero ρ items exponents k item n); [done|done|lia|by apply HZ]. }
  assert (wf item) as [(_ & _ & Hnode) _]%wf_unfold by (by eapply Forall_lookup_1).
  assert (∃ st', match Op item with
      | Product es => foldM (λ st q, n0 ← idx es q.1; prod_addTerm st q.2 (int64 (n * n0))) st (enumerate (Children item))
      | _ => prod_addTerm st item n end = Ok st' ∧ held (e4_mul (prod_value ρ (take k items) (take k exponents)) (e4_exp (eval ρ item) n))
      (cost prod_norm (take k items) (take k exponents) + Z.abs n * prod_norm item) st') as (st' & Est & Hst').
  { unfold prod_norm in *. destruct (Op item) as [g|md|cs|es|] eqn:Eop;
      try (rewrite Z.mul_1_r in *; apply prod_addTerm_adds; [done|done|done|lia]).
    destruct Hnode as (Les & Hes & _). rewrite eval_unfold, Eop. cbn [op_value].
    apply (flatten_spec ρ S prod_addTerm); try done; [apply prod_addTerm_adds| | |lia].
    - apply Forall_forall. intros a Ha. apply HSi. right. by exists item.
    - eapply Forall_impl; [exact Hes|]. simpl. lia. }
  exists (Some st'). split; [|by apply Hnext]. destruct (Op item); rewrite Est; done.
Qed.

Lemma simplifyProduct_spec items exponents : Forall wf items → length exponents = length items → (∀ a, parts items a → S a) →
  (∀ a, S a → wf a) → Forall (Z.le 0) exponents → cost prod_norm items exponents < 2 ^ 63 →
  ∃ r, simplifyProduct (Some <$> items) exponents = Ok r ∧
    simplified (unit := One) (plus := e4_mul) (act := e4_exp) (ok := Z.le 0) ρ (prod_value ρ items exponents) r.
Proof.
  intros Hw L HSi HW He Hb. unfold simplifyProduct, zlen. rewrite length_fmap, L, Z.eqb_refl. simpl.
  destruct (foldM_enumerate (prod_step exponents) (prod_inv items exponents) (Some <$> items)
    (Some (GenericFieldElem.GenericFieldOne, mkTerms [] [] None))) as (st & -> & Hst).
  - split; [done|]. exists One. split; [|simpl; rewrite (act_unit_l (act := e4_exp) (ok := Z.le 0)); done].
    split_and!; simpl; try done. split_and!; simpl; try done. apply NoDup_nil_2.
  - intros k x st Ek Hst. rewrite list_lookup_fmap in Ek. apply fmap_Some in Ek as (e & Ee & ->). by apply prod_step_spec.
  - rewrite length_fmap in Hst. unfold prod_inv in Hst. destruct st as [[acc t]|]; simpl.
    + rewrite !firstn_all2 in Hst by lia. destruct (finish_spec ρ S _ _ acc t Hst Hb HW) as [H0' H1']. destruct t as [its cs mp]. simpl in *.
      rewrite GenericFieldElem.gen_IsOne_spec. case_bool_decide as Ez; eexists; (split; [done|]); auto.
    + exists ([constant Zero], [1]). split; [done|]. split_and!; cbn [fst snd]; [done| | |].
      * apply Forall_singleton, constant_wf.
      * by apply Forall_singleton.
      * unfold total. cbn [fmap list_fmap zip_with foldr].
        by rewrite constant_eval, Hst, (act_1 (unit := One) (plus := e4_mul) (ok := Z.le 0)), (unit_r (unit := One) (ok := Z.le 0) (act := e4_exp)).
Qed.
End terms.

Lemma newProductNoSimplify_spec items exponents : Forall wf items → length items = length exponents →
  Forall (λ n, 0 ≤ n < 2 ^ 63) exponents → items ≠ [] →
  ∃ e, newProductNoSimplify items exponents = Ok e ∧ wf e ∧ ∀ ρ, eval ρ e = prod_value ρ items exponents.
Proof.
  intros Hw L Hc Hne. unfold newProductNoSimplify.
  destruct (foldM_enumerate (λ esh p, n ← idx exponents p.1; Ok (e4_mul esh (e4_exp (ESHash p.2) n)))
    (λ k esh, esh = total (unit := One) (plus := e4_mul) (act := e4_exp) (ESHash <$> take k items) (take k exponents)) items One) as (esh & -> & ->).
  - done.
  - intros k e esh Ee ->. destruct (lookup_lt_is_Some_2 exponents k) as [c Ec]; [rewrite <-L; by eapply lookup_lt_Some|].
    cbn [fst snd]. rewrite (idx_nat _ (Z.of_nat k) c) by (rewrite ?Nat2Z.id; (lia || done)). simpl. eexists. split; [done|].
    rewrite (take_S_r _ _ _ Ee), (take_S_r _ _ _ Ec), fmap_app. simpl.
    by rewrite (total_app_one (ok := Z.le 0)) by (rewrite length_fmap, !length_take; lia).
  - simpl. eexists. split; [done|]. rewrite !firstn_all2 by lia. split; [|done].
    apply wf_unfold. split; [|done]. split; [done|]. split; [apply forallb_flags|]. by split_and!.
Qed.

Lemma NewProduct_spec items exponents : Forall wf items → length exponents = length items → Forall (Z.le 0) exponents →
  cost prod_norm items exponents < 2 ^ 63 →
  ∃ e, NewProduct (Some <$> items) exponents = Ok e ∧ wf e ∧
    ∀ ρ, faithful ρ (parts items) → vanishing ρ (parts items) → eval ρ e = prod_value ρ items exponents.
Proof.
  intros Hw L He Hb. assert (∀ a, parts items a → wf a) as HW by (intros a; by apply parts_wf).
  destruct (simplifyProduct_spec metadataToESH (parts items) (faithful_hashes _ HW) (vanishing_hashes _ HW) items exponents)
    as ([its es] & Er & Lr & Hwr & Hcr & _); [done..|].
  unfold NewProduct, zlen. rewrite length_fmap, L, Z.eqb_refl. simpl. rewrite Er. simpl in *.
  assert (∀ ρ, faithful ρ (parts items) → vanishing ρ (parts items) → prod_value ρ its es = prod_value ρ items exponents) as V.
  { intros ρ Hf Hz. destruct (simplifyProduct_spec ρ (parts items) Hf Hz items exponents) as (r & Er' & Hr); [done..|].
    rewrite Er in Er'. injection Er' as <-. apply Hr. }
  assert (its ≠ [] → ∃ e, newProductNoSimplify its es = Ok e ∧ wf e ∧
    ∀ ρ, faithful ρ (parts items) → vanishing ρ (parts items) → eval ρ e = prod_value ρ items exponents) as HN.
  { intros Hne. destruct (newProductNoSimplify_spec its es) as (e & -> & We & Ve); [done..| |done|].
    - eapply Forall_impl; [exact Hcr|]. simpl. intros c. lia.
    - exists e. split; [done|]. split; [done|]. intros ρ Hf Hz. by rewrite Ve, V. }
  destruct its as [|e1 its].
  - rewrite NewConstant_int. eexists. split; [done|]. split; [apply constant_wf|]. intros ρ Hf Hz. rewrite constant_eval, <-V by done. done.
  - destruct its as [|e2 its]; [|by apply HN]. destruct es as [|c es]; [done|]. destruct es; [|done].
    destruct (decide (c = 1)) as [->|Hc1]; [|destruct c as [|[]|]; try done; by apply HN].
    exists e1. split; [done|]. inversion_clear Hwr. split; [done|]. intros ρ Hf Hz. rewrite <-V by done.
    unfold prod_value, total. simpl. by rewrite (act_1 (unit := One) (plus := e4_mul) (ok := Z.le 0)), (unit_r (unit := One) (ok := Z.le 0) (act := e4_exp)).
Qed.

(** ** Polynomial evaluation *)

Lemma NewPolyEval_spec x coeffs : wf x → Forall wf coeffs → coeffs ≠ [] →
  ∃ e, NewPolyEval x coeffs = Ok e ∧ wf e ∧ ∀ ρ, eval ρ e = horner (eval ρ <$> coeffs) (eval ρ x).
Proof.
  intros Hx Hc Hne. destruct coeffs as [|c [|d coeffs]]; [done| |].
  - exists c. split; [done|]. inversion_clear Hc. split; [done|]. intros ρ. simpl. ring.
  - eexists. split; [done|]. split; [|done]. apply wf_unfold. split; [|by constructor]. split; [|by split; [|simpl; lia]].
    cbn [ESHash Op Children op_value fmap list_fmap]. unfold horner. by rewrite <-!fmap_cons, foldr_fmap.
Qed.
End product.
End SymbolicSimplify.
