(* ===== verification/Validate.v ===== *)
(** * Validation of expressions

    [Expression.Validate] recomputes the hash of every node by evaluating its operator on
    the hashes of its children, as constant vectors of length one, and checks the shape of
    the node; [Pow] validates its operand. Well-formed expressions pass. *)

From S2P Require Export SymbolicSimplify SmartVectorArith.
Import Utils Fext CircularInterval VectorsFacts SmartVector SmartVectorFacts SmartVectorOps OperatorFacts SmartVectorProcess SmartVectorArith.
Import Symbolic SymbolicFacts SymbolicSimplify.

Module Validate.

Section validate.
Context {F M : Type} `{ElementOps F, !ExtOps F, !VectorOps F, !VectorOps (E4 F), !SortByStart, !MulAcc F}.
Notation Expression := (Expression F M).
Notation Operator := (Operator F M).
Notation SmartVector := (SmartVector.t F).

(** The methods [EvaluateExt] of the operators; nil is [None]. *)
Definition op_EvaluateExt (op : Operator) (inputs : list SmartVector) : res (option (vec (E4 F))) :=
  match op with
  | Symbolic.Constant _ | Variable_ _ => Panic
  | Symbolic.LinComb coeffs => r ← LinCombExt coeffs inputs; Ok r.1
  | Symbolic.Product exponents => r ← ProductExt exponents inputs; Ok r.1
  | PolyEval =>
      input0 ← idx inputs 0;
      match input0 with
      | OfExt (SmartVector.Constant x _) =>
          coeffs ← slice inputs 1 (zlen inputs);
          r ← LinearCombinationExt coeffs x; Ok (Some r)
      | _ => Panic
      end
  end.

(** The methods [Validate] of the operators. The operator is that of the expression, so
    the comparison of the two by [reflect.DeepEqual] holds. *)
Definition op_Validate (e : Expression) : res gerr :=
  match Op e with
  | Symbolic.Constant _ | Variable_ _ =>
      Ok (if zlen (Children e) =? 0 then None else Some "mismatch in the size of the children and coefficients"%string)
  | Symbolic.LinComb coeffs =>
      Ok (if zlen coeffs =? zlen (Children e) then None else Some "mismatch in the size of the children and coefficients"%string)
  | Symbolic.Product exponents =>
      if negb (zlen exponents =? zlen (Children e)) then Ok (Some "mismatch in the size of the children and coefficients"%string)
      else if existsb (λ n, n <? 0) exponents then Panic
      else Ok None
  | PolyEval => Ok (if zlen (Children e) <? 2 then Some "poly eval of degree 0"%string else None)
  end.

(** The comparison of the hash with the value of the operator on the hashes of the children. *)
Definition check_hash (e : Expression) : res gerr :=
  if zlen (Children e) =? 0 then Ok None else
  eshashes ← mapR (λ c, v ← SmartVector.NewConstant (ESHash c) 1; Ok (OfExt v)) (Children e);
  r ← op_EvaluateExt (Op e) eshashes;
  match r with
  | Some (SmartVector.Constant expectedESH _) =>
      Ok (if bool_decide (ESHash e = expectedESH) then None else Some "esh mismatch"%string)
  | _ => Panic
  end.

Fixpoint Validate (e : Expression) : res gerr :=
  err ← check_hash e;
  match err with
  | Some _ => Ok err
  | None =>
      err ← op_Validate e;
      match err with
      | Some _ => Ok err
      | None =>
          match e with
          | mkExpression _ children _ _ =>
              (fix go l := match l with
                           | [] => Ok None
                           | c :: l => err ← Validate c; match err with Some _ => Ok err | None => go l end
                           end) children
          end
      end
  end.

Definition AssertValid (e : Expression) : res unit :=
  err ← Validate e; match err with Some _ => Panic | None => Ok () end.

Definition e_Pow (e : option Expression) (n : Z) : res (option Expression) :=
  match e with
  | None => Ok None
  | Some e => _ ← AssertValid e; r ← NewProduct [Some e] [n]; Ok (Some r)
  end.

Definition Pow `{!Metadata M, !Blake2b} (x : any F M) (n : Z) : res (option Expression) :=
  if n <? 0 then Panic else
  if isNil x then Ok None else
  e ← intoExpr x; e_Pow e n.
End validate.

(** ** Well-formed expressions are valid *)

Section facts.
Context {F M : Type} `{ElementLaws F, !ExtOps F, !ExtLaws F, !VectorOps F, !VectorLaws F, !VectorOps (E4 F), !VectorLaws (E4 F)}.
Context `{!SortByStart, !SortByStartLaws, !MulAcc F, !MulAccLaws F, !Metadata M, !Blake2b}.
Notation Expr := (Expression F M).
Implicit Types (e : Expr).

(** Operands that are constants of length one. *)
Definition ones (vs : list (E4 F)) : list (SmartVector.t F) := (λ v, OfExt (SmartVector.Constant v 1)) <$> vs.

Lemma ones_hashes (l : list Expr) : mapR (λ c, v ← SmartVector.NewConstant (ESHash c) 1; Ok (OfExt v)) l = Ok (ones (ESHash <$> l)).
Proof. unfold ones. rewrite <-list_fmap_compose. by apply mapR_Ok. Qed.

Lemma constants_operator (op : operator (E4 F)) (unit : E4 F) (plus : E4 F → E4 F → E4 F) (term : E4 F → Z → E4 F) (ok : Z → Prop)
    `{!OperatorLaws op unit plus term ok} vs cs : vs ≠ [] → length cs = length vs → Forall ok cs →
  processOperator op cs (ones vs) = Ok (Some (SmartVector.Constant (foldr plus unit (zip_with term vs cs)) 1), ones vs).
Proof.
  intros Hne L Hok. set (l := zip_with (λ v c, (SmartVector.Constant v 1, c)) vs cs : list (vec (E4 F) * Z)).
  assert (svecs_of l = ones vs) as Es.
  { unfold svecs_of, l, ones. clear -L. revert cs L. induction vs as [|v vs IH]; intros [|c cs] L; simplify_eq/=; [done|].
    f_equal. by apply IH. }
  assert (coeffs_of l = cs) as Ec.
  { unfold coeffs_of, l. clear -L. revert cs L. induction vs as [|v vs IH]; intros [|c cs] L; simplify_eq/=; [done|].
    f_equal. by apply IH. }
  assert (length l = length vs) as Ll by (unfold l; rewrite length_zip_with; lia).
  assert (l ≠ []) as Hl by (by destruct l, vs).
  assert (Forall (operand ok 1) l) as Hop.
  { apply Forall_lookup. intros i [v c] (v0 & c0 & [= -> ->] & Ev & Ec0)%lookup_zip_with_Some. split; [by split|]. split; [done|]. by eapply Forall_lookup_1. }
  assert (consts l = l) as Ek.
  { unfold consts, l. clear. revert cs. induction vs as [|v vs IH]; intros [|c cs]; simpl; [done..|]. rewrite filter_cons_True by done. by rewrite IH. }
  destruct (processConstOnly_spec op unit plus term ok 1 l Hop Hl) as (val & E & Hv).
  rewrite <-Es, <-Ec at 1. rewrite Ec in E. unfold processOperator, zlen. rewrite Ec, (length_svecs l), Ll, L, Z.eqb_refl. cbn [negb].
  destruct (Z.eqb_spec (Z.of_nat (length vs)) 0) as [E0|_]; [by destruct vs|].
  destruct (first_len ok 1 l Hop Hl) as (s0 & -> & L0). cbn [mbind res_bind]. rewrite L0, (assert_lengths_spec ok 1 l Hop). cbn [mbind res_bind].
  change (assertStrictPositiveLen 1) with (Ok ()). cbn [mbind res_bind]. rewrite E, Ek. cbn [mbind res_bind].
  unfold zlen. rewrite Ll, Z.eqb_refl, decide_False by done. rewrite Es. cbn [fmap option_fmap option_map fst snd]. do 4 f_equal. rewrite (Hv ltac:(by rewrite Ek) 0), Ek.
  unfold SmartVectorProcess.total, big, l. clear. revert cs. induction vs as [|v vs IH]; intros [|c cs]; simpl; [done..|]. by rewrite IH.
Qed.

Add Ring e4_ring_validate : (e4_ring (F := F)).

Lemma constants_combination (x : E4 F) vs resReg resCon anyCon xPow :
  ∃ xPow', foldM (comb_ext_step 1 x) (resReg, resCon, false, anyCon, xPow) (ones vs) =
    Ok (resReg, e4_add resCon (e4_mul (horner vs x) xPow), false, match vs with [] => anyCon | _ => true end, xPow').
Proof.
  revert resCon anyCon xPow. induction vs as [|v vs IH]; intros resCon anyCon xPow; simpl.
  - exists xPow. by replace (e4_add resCon (e4_mul Zero xPow)) with resCon by ring.
  - destruct (IH (e4_add resCon (e4_mul v xPow)) true (e4_mul x xPow)) as (xPow' & E). simpl in E. rewrite E. exists xPow'.
    match goal with |- _ = Ok (_, ?t, _, _, _) =>
      replace t with (e4_add (e4_add resCon (e4_mul v xPow)) (e4_mul (horner vs x) (e4_mul x xPow))) by (unfold horner; ring) end.
    by destruct vs.
Qed.

Lemma EvaluateExt_hashes (op : Operator F M) vs : vs ≠ [] →
  match op with
  | Symbolic.Constant _ | Variable_ _ => False
  | Symbolic.LinComb cs => length cs = length vs
  | Symbolic.Product es => length es = length vs ∧ Forall (λ n, 0 ≤ n < 2 ^ 63) es
  | PolyEval => (2 ≤ length vs)%nat
  end →
  op_EvaluateExt op (ones vs) = Ok (Some (SmartVector.Constant (op_value metadataToESH op vs) 1)).
Proof.
  intros Hne. destruct op as [g|m|cs|es|]; simpl; [done|done|intros L|intros [L Hes]|intros L].
  - unfold LinCombExt, lin_comb. destruct vs as [|v vs]; [done|]. change (idx (ones (v :: vs)) 0) with (Ok (OfExt (SmartVector.Constant v 1) : SmartVector.t F)).
    cbn [mbind res_bind]. rewrite (proj2 (forallb_forall _ _)); [|intros s Hs; apply list_elem_of_In, list_elem_of_fmap in Hs as (a & -> & _); done].
    cbn [negb]. rewrite (constants_operator linCombOpExt Zero e4_add lin_term (λ _, True)); [|done|done|by apply Forall_true]. cbn [mbind res_bind fst op_value]. do 3 f_equal.
    unfold SymbolicFacts.total. f_equal. apply zip_with_ext; [|done|done]. intros a c. rewrite scale_Lift.
    change (lin_term a c) with (e4_mul (Lift (el_of_Z c)) a). ring.
  - unfold ProductExt, processOperatorExt. by rewrite (constants_operator productOpExt One e4_mul e4_exp exponent).
  - destruct vs as [|x [|v vs]]; simpl in L; [lia|lia|].
    change (idx (ones (x :: v :: vs)) 0) with (Ok (OfExt (SmartVector.Constant x 1) : SmartVector.t F)). cbn [mbind res_bind].
    assert (slice (ones (x :: v :: vs)) 1 (zlen (ones (x :: v :: vs))) = Ok (ones (v :: vs))) as ->.
    { rewrite slice_Ok by (unfold zlen; simpl; lia). f_equal. unfold zlen. rewrite firstn_all2; [done|]. simpl. lia. }
    cbn [mbind res_bind]. unfold LinearCombinationExt. change (idx (ones (v :: vs)) 0) with (Ok (OfExt (SmartVector.Constant v 1) : SmartVector.t F)).
    cbn [mbind res_bind sv_Len Len]. change (1 <? 0) with false. cbv iota.
    destruct (constants_combination x (v :: vs) (zeros 1) Zero false One) as (xPow & ->). simpl. do 3 f_equal. ring.
Qed.

Lemma Validate_unfold e : Validate e =
  (err ← check_hash e; match err with Some _ => Ok err | None =>
   err ← op_Validate e; match err with Some _ => Ok err | None =>
   foldr (λ c r, err ← Validate c; match err with Some _ => Ok err | None => r end) (Ok None) (Children e) end end).
Proof. by destruct e. Qed.

Lemma Validate_wf e : wf e → Validate e = Ok None.
Proof.
  induction e as [h children op fl IH] using Expression_nested. intros W. apply wf_unfold in W as [(Eh & _ & Hs) Hc]. rewrite Validate_unfold.
  simpl in Eh, Hs, Hc |- *.
  assert (check_hash (mkExpression h children op fl) = Ok None) as ->.
  { unfold check_hash. simpl. destruct (Z.eqb_spec (zlen children) 0) as [|Hn]; [done|]. rewrite ones_hashes. cbn [mbind res_bind].
    assert (children ≠ []) by (intros ->; by apply Hn).
    rewrite EvaluateExt_hashes; [|by destruct children|].
    - cbn [mbind res_bind]. by rewrite bool_decide_true by done.
    - rewrite length_fmap. destruct op as [g|m|cs|es|]; [by destruct Hs| done|apply Hs|split; apply Hs|done]. }
  cbn [mbind res_bind]. assert (op_Validate (mkExpression h children op fl) = Ok None) as ->.
  { unfold op_Validate, zlen. simpl. destruct op as [g|m|cs|es|].
    - by destruct Hs as [-> _].
    - by rewrite Hs.
    - destruct Hs as (-> & _). by rewrite Z.eqb_refl.
    - destruct Hs as (-> & Hes & _). rewrite Z.eqb_refl. cbn [negb]. destruct (existsb (λ n, n <? 0) es) eqn:E; [|done].
      apply existsb_exists in E as (n & Hn%list_elem_of_In & ?%Z.ltb_lt). rewrite Forall_forall in Hes. specialize (Hes n Hn). lia.
    - by rewrite (proj2 (Z.ltb_ge _ _)) by lia. }
  cbn [mbind res_bind]. clear Eh Hs. induction IH as [|c children Hv _ IHc]; simpl; [done|]. apply Forall_cons in Hc as [Wc Hc].
  rewrite (Hv Wc). cbn [mbind res_bind]. by apply IHc.
Qed.

Lemma e_Pow_spec e n : wf e → 0 ≤ n → n * prod_norm e < 2 ^ 63 →
  ∃ r, e_Pow (Some e) n = Ok (Some r) ∧ wf r ∧
    ∀ ρ, faithful ρ (parts [e]) → vanishing ρ (parts [e]) → eval ρ r = e4_exp (eval ρ e) n.
Proof.
  intros W Hn Hb. unfold e_Pow, AssertValid. rewrite Validate_wf by done. cbn [mbind res_bind].
  destruct (NewProduct_spec [e] [n]) as (r & E & Wr & Hv); [by constructor|done|by constructor|unfold cost; simpl; lia|].
  simpl in E. rewrite E. exists r. split; [done|]. split; [done|]. intros ρ Hf Hz. rewrite (Hv ρ Hf Hz). unfold prod_value, SymbolicFacts.total. simpl. ring.
Qed.
End facts.
End Validate.
