(* ===== verification/Board.v ===== *)
(** * Expression boards

    Model of src/prover/symbolic/expression_board.go and of the functions of expression.go
    and evaluation.go that make and read boards: the conversion of an expression into a
    topologically sorted list of nodes in which expressions with the same hash are shared.
    The map from hashes to positions is an association list, latest first. *)

From S2P Require Export SymbolicSimplify.
Import Utils Fext SmartVectorOps SmartVectorProcess Symbolic SymbolicFacts.

Module Board.
Section board.
Context {F M : Type} `{ElementOps F, !ExtOps F, !Metadata M, !Blake2b}.
Notation esHash := (E4 F).

(** [nodeID] is a [uint32]. *)
Definition nodeID (z : Z) : Z := z mod 2 ^ 32.

Record Node : Type := mkNode {
  n_ESHash : esHash;
  n_Children : list Z;
  n_Operator : Operator F M
}.

Record ExpressionBoard : Type := mkBoard {
  Nodes : list Node;
  ESHashesToPos : list (esHash * Z);
  Bytecode : list Z;
  Constants : list (E4 F);
  NumSlots : Z;
  ResultSlot : Z;
  ProgramNodesCount : Z
}.

Definition emptyBoard : ExpressionBoard := mkBoard [] [] [] [] 0 0 0.

Definition add_node (b : ExpressionBoard) (node : Node) (id : Z) : ExpressionBoard :=
  mkBoard (Nodes b ++ [node]) ((n_ESHash node, id) :: ESHashesToPos b) (Bytecode b) (Constants b) (NumSlots b) (ResultSlot b)
    (ProgramNodesCount b).

Fixpoint anchor (e : Expression F M) (b : ExpressionBoard) : ExpressionBoard * Z :=
  match map_get (ESHashesToPos b) (ESHash e) with
  | Some id => (b, id)
  | None =>
      match e with
      | mkExpression h children op _ =>
          let '(b, childrenIDs) :=
            (fix go l b := match l with
                           | [] => (b, [])
                           | child :: l => let '(b, childID) := anchor child b in let '(b, ids) := go l b in (b, childID :: ids)
                           end) children b in
          let id := nodeID (zlen (Nodes b)) in
          (add_node b (mkNode h childrenIDs op) id, id)
      end
  end.

(** [Expression.Board] *)
Definition Board_of (e : Expression F M) : ExpressionBoard := (anchor e emptyBoard).1.

Definition ListVariableMetadata (b : ExpressionBoard) : list M :=
  omap (λ node, match n_Operator node with Variable_ m => Some m | _ => None end) (Nodes b).

(** [collectVars]: the names seen and the metadata found, in order. *)
Fixpoint collectVars (expr : Expression F M) (st : list string * list M) : list string * list M :=
  match expr with
  | mkExpression _ children op _ =>
      match op with
      | Variable_ m =>
          if decide (md_String m ∈ st.1) then st else (md_String m :: st.1, st.2 ++ [m])
      | _ => (fix go l st := match l with [] => st | c :: l => go l (collectVars c st) end) children st
      end
  end.

(** [Expression.ListBoardVariableMetadata] *)
Definition ListBoardVariableMetadata (e : Expression F M) : list M := (collectVars e ([], [])).2.
End board.
Arguments Node : clear implicits.
Arguments ExpressionBoard : clear implicits.
End Board.

(** * Boards stand for their expressions

    [anchor] keeps a board sorted, children before parents, with each node standing for
    subexpressions of its hash; what is computed node by node on the board of an
    expression is what is computed on the expression, as long as subexpressions with the
    same hash give the same result. *)


Import Utils Fext SmartVectorOps SmartVectorProcess Symbolic SymbolicFacts Board.

Module BoardFacts.

Section folds.
Context {F M X : Type}.
Notation Expr := (Expression F M).

(** Bottom-up computations, on an expression and on the nodes of a board. *)
Fixpoint efold (alg : Operator F M → list X → X) (e : Expr) : X :=
  match e with mkExpression _ children op _ => alg op (efold alg <$> children) end.

(** On a board the algebra also gets the position of the node. *)
Definition node_value (alg : nat → Operator F M → list X → X) (vals : list X) (node : Node F M) : X :=
  alg (length vals) (n_Operator node) (omap (λ c, vals !! Z.to_nat c) (n_Children node)).

Definition board_fold (alg : nat → Operator F M → list X → X) (nodes : list (Node F M)) : list X :=
  foldl (λ vals node, vals ++ [node_value alg vals node]) [] nodes.

Lemma board_fold_snoc alg nodes node :
  board_fold alg (nodes ++ [node]) = board_fold alg nodes ++ [node_value alg (board_fold alg nodes) node].
Proof. unfold board_fold. by rewrite foldl_app. Qed.

Lemma board_fold_length alg nodes : length (board_fold alg nodes) = length nodes.
Proof. induction nodes as [|n nodes IH] using rev_ind; [done|]. rewrite board_fold_snoc, !length_app, IH. done. Qed.

Lemma board_fold_prefix alg nodes k : take k (board_fold alg nodes) = board_fold alg (take k nodes).
Proof.
  induction nodes as [|n nodes IH] using rev_ind; [by destruct k|]. rewrite board_fold_snoc.
  destruct (decide (k ≤ length nodes)%nat) as [Hk|Hk].
  - by rewrite !take_app_le by (by rewrite ?board_fold_length).
  - rewrite !firstn_all2 by (rewrite length_app, ?board_fold_length; simpl; lia). by rewrite board_fold_snoc.
Qed.

Lemma board_fold_lookup alg nodes (i : nat) node : nodes !! i = Some node →
  board_fold alg nodes !! i = Some (node_value alg (board_fold alg (take i nodes)) node).
Proof.
  intros E. rewrite <-(lookup_take_lt _ (S i) i) by lia. rewrite board_fold_prefix, (take_S_r _ _ _ E), board_fold_snoc.
  rewrite lookup_app_r by (rewrite board_fold_length, length_take; lia).
  rewrite board_fold_length, length_take. by replace (i - i `min` length nodes)%nat with 0%nat by (apply lookup_lt_Some in E; lia).
Qed.

(** Children before parents. *)
Definition sorted (nodes : list (Node F M)) : Prop :=
  ∀ (i : nat) node c, nodes !! i = Some node → c ∈ n_Children node → 0 ≤ c < Z.of_nat i.

Lemma sorted_children nodes (i : nat) node (vals : list X) : sorted nodes → nodes !! i = Some node → (i ≤ length vals)%nat →
  Forall2 (λ c x, vals !! Z.to_nat c = Some x) (n_Children node) (omap (λ c, vals !! Z.to_nat c) (n_Children node)).
Proof.
  intros Hs E Hv. assert (∀ c, c ∈ n_Children node → 0 ≤ c < Z.of_nat i) as Hc by (intros c; by apply Hs).
  clear E. induction (n_Children node) as [|c cs IH]; simpl; [done|].
  destruct (lookup_lt_is_Some_2 vals (Z.to_nat c)) as [x Ex]; [specialize (Hc c ltac:(left)); lia|].
  rewrite Ex. constructor; [done|]. apply IH. intros d Hd. apply Hc. by right.
Qed.
End folds.

Section board.
Context {F M : Type} `{ElementLaws F, !ExtOps F, !ExtLaws F, !Metadata M, !Blake2b}.
Notation Expr := (Expression F M).
Notation ExpressionBoard := (ExpressionBoard F M).
Implicit Types (e a : Expr) (b : ExpressionBoard) (S : Expr → Prop).

(** ** Subexpressions *)

Fixpoint subs e : list Expr := match e with mkExpression _ children _ _ => e :: concat (subs <$> children) end.

Lemma subs_unfold e : subs e = e :: concat (subs <$> Children e).
Proof. by destruct e. Qed.

Lemma subs_self e : e ∈ subs e.
Proof. rewrite subs_unfold. left. Qed.

Lemma subs_child e c a : c ∈ Children e → a ∈ subs c → a ∈ subs e.
Proof. intros Hc Ha. rewrite subs_unfold. right. apply elem_of_concat. exists (subs c). split; [by apply list_elem_of_fmap_2|done]. Qed.

Lemma subs_wf e a : wf e → a ∈ subs e → wf a.
Proof.
  induction e as [h children op fl IH] using Expression_nested. intros W Ha. rewrite subs_unfold in Ha. apply elem_of_cons in Ha as [->|Ha]; [done|].
  apply wf_unfold in W as [_ Hc]. simpl in *. apply elem_of_concat in Ha as (l & Hl & Ha).
  apply list_elem_of_fmap in Hl as (c & -> & Hin).
  rewrite Forall_forall in IH. rewrite Forall_forall in Hc. by apply (IH c Hin); [apply Hc|].
Qed.

Definition size e : Z := zlen (subs e).

(** ** The invariant of boards

    Every node stands for an expression of [S]: it has its hash and operator, and its
    children are earlier nodes with the hashes of its children. *)
Definition stands (nodes : list (Node F M)) (i : nat) (node : Node F M) e : Prop :=
  n_ESHash node = ESHash e ∧ n_Operator node = Op e ∧
  Forall2 (λ c (id : Z), 0 ≤ id < Z.of_nat i ∧ ∃ child, nodes !! Z.to_nat id = Some child ∧ n_ESHash child = ESHash c)
    (Children e) (n_Children node).

Definition board_inv S b : Prop :=
  (∀ (i : nat) node, Nodes b !! i = Some node → ∃ e, S e ∧ stands (Nodes b) i node e) ∧
  (∀ h id, map_get (ESHashesToPos b) h = Some id → 0 ≤ id ∧ ∃ node, Nodes b !! Z.to_nat id = Some node ∧ n_ESHash node = h).

Lemma stands_mono nodes more i node e : stands nodes i node e → stands (nodes ++ more) i node e.
Proof.
  intros (? & ? & HF). split_and!; [done..|]. eapply Forall2_impl; [exact HF|]. simpl. intros c id (? & child & E & ?).
  split; [done|]. exists child. split; [|done]. by apply lookup_app_l_Some.
Qed.

(** The anchoring of a list of children. *)
Fixpoint anchor_all (l : list Expr) b : ExpressionBoard * list Z :=
  match l with
  | [] => (b, [])
  | c :: l => let '(b, id) := anchor c b in let '(b, ids) := anchor_all l b in (b, id :: ids)
  end.

Lemma anchor_unfold e b : anchor e b =
  match map_get (ESHashesToPos b) (ESHash e) with
  | Some id => (b, id)
  | None => let '(b, ids) := anchor_all (Children e) b in
      let id := nodeID (zlen (Nodes b)) in (add_node b (mkNode (ESHash e) ids (Op e)) id, id)
  end.
Proof. destruct e as [h children op fl]. reflexivity. Qed.

Definition anchored b e (r : ExpressionBoard * Z) : Prop :=
  ∃ more, Nodes r.1 = Nodes b ++ more ∧ zlen more ≤ size e ∧
    (0 ≤ r.2 ∧ ∃ node, Nodes r.1 !! Z.to_nat r.2 = Some node ∧ n_ESHash node = ESHash e) ∧
    (map_get (ESHashesToPos b) (ESHash e) = None →
     ∃ nodes node, Nodes r.1 = nodes ++ [node] ∧ stands (Nodes r.1) (length nodes) node e).

Definition all_anchored b (l : list Expr) (r : ExpressionBoard * list Z) : Prop :=
  ∃ more, Nodes r.1 = Nodes b ++ more ∧ zlen more ≤ zlen (concat (subs <$> l)) ∧
    Forall2 (λ c (id : Z), 0 ≤ id ∧ ∃ node, Nodes r.1 !! Z.to_nat id = Some node ∧ n_ESHash node = ESHash c) l r.2.

Lemma add_node_stands b e ids :
  Forall2 (λ c (id : Z), 0 ≤ id ∧ ∃ node, Nodes b !! Z.to_nat id = Some node ∧ n_ESHash node = ESHash c) (Children e) ids →
  stands (Nodes b ++ [mkNode (ESHash e) ids (Op e)]) (length (Nodes b)) (mkNode (ESHash e) ids (Op e)) e.
Proof.
  intros HF. apply stands_mono. split_and!; [done..|]. eapply Forall2_impl; [exact HF|]. simpl.
  intros c id (? & child & Ec & ?). pose proof (lookup_lt_Some _ _ _ Ec). split; [lia|]. by exists child.
Qed.

Lemma add_node_inv S b e ids : board_inv S b → S e → zlen (Nodes b) < 2 ^ 32 →
  Forall2 (λ c (id : Z), 0 ≤ id ∧ ∃ node, Nodes b !! Z.to_nat id = Some node ∧ n_ESHash node = ESHash c) (Children e) ids →
  board_inv S (add_node b (mkNode (ESHash e) ids (Op e)) (nodeID (zlen (Nodes b)))).
Proof.
  intros [Hn Hp] HS Hb HF. unfold nodeID. rewrite Z.mod_small by (pose proof (zlen_nonneg (Nodes b)); lia).
  split; simpl.
  - intros i node [E|[Hi E]]%lookup_app_Some.
    + destruct (Hn i node E) as (e' & ? & ?). exists e'. split; [done|]. by apply stands_mono.
    + apply list_lookup_singleton_Some in E as [Hi0 <-]. exists e. split; [done|].
      replace i with (length (Nodes b)) by lia. by apply add_node_stands.
  - intros h id. case_decide as E.
    + intros [= <-]. split; [apply zlen_nonneg|]. unfold zlen. rewrite Nat2Z.id, lookup_app_r, Nat.sub_diag by lia. eexists. by split.
    + intros (? & node & En & ?)%Hp. split; [done|]. exists node. split; [|done]. by apply lookup_app_l_Some.
Qed.

Lemma anchor_spec S e : (∀ a, a ∈ subs e → S a) → ∀ b, board_inv S b → zlen (Nodes b) + size e < 2 ^ 32 →
  board_inv S (anchor e b).1 ∧ anchored b e (anchor e b).
Proof.
  induction e as [h children op fl IH] using Expression_nested. intros HS b Hb Hsz.
  assert (∀ l b, Forall (λ c, c ∈ children) l → board_inv S b → zlen (Nodes b) + zlen (concat (subs <$> l)) < 2 ^ 32 →
    board_inv S (anchor_all l b).1 ∧ all_anchored b l (anchor_all l b)) as Hall.
  { induction l as [|c l IHl]; intros b0 Hl Hb0 Hsz0; simpl.
    - split; [done|]. exists []. rewrite app_nil_r. by split_and!.
    - inversion_clear Hl as [|?? Hc Hl']. rewrite fmap_cons in Hsz0. cbn [concat] in Hsz0. rewrite zlen_app in Hsz0. rewrite Forall_forall in IH.
      destruct (IH c Hc) with (b := b0) as [Hb1 (m1 & E1 & L1 & (Hid & node & En & Eh) & _)]; [|done|unfold size; pose proof (zlen_nonneg (concat (subs <$> l))); lia|].
      { intros a Ha. apply HS. by apply (subs_child _ c). }
      destruct (anchor c b0) as [b1 id]. simpl in *. destruct (IHl b1 Hl' Hb1) as [Hb2 (m2 & E2 & L2 & HF)].
      { rewrite E1, zlen_app. unfold size in L1. lia. }
      destruct (anchor_all l b1) as [b2 ids]. simpl in *. split; [done|]. exists (m1 ++ m2). cbn [fst snd].
      rewrite fmap_cons. cbn [concat]. rewrite E2, E1, (assoc_L (++)), !zlen_app. unfold size in L1. split_and!; [done|lia|]. constructor; [|by rewrite E2, E1 in HF].
      split; [done|]. exists node. split; [|done]. rewrite <-E1. by apply lookup_app_l_Some. }
  rewrite anchor_unfold. simpl ESHash. simpl Children. simpl Op. destruct (map_get (ESHashesToPos b) h) as [id|] eqn:Em.
  - split; [done|]. exists []. rewrite app_nil_r. destruct (proj2 Hb h id Em) as (? & node & ? & ?). split; [done|]. split; [unfold size; apply zlen_nonneg|].
    split; [split; [done|]; by exists node|]. intros Hn. cbn [ESHash] in Hn. congruence.
  - assert (size (mkExpression h children op fl) = 1 + zlen (concat (subs <$> children))) as Esz by (unfold size, zlen; simpl; lia).
    destruct (Hall children b) as [Hb1 (more & E & L & HF)]; [by apply Forall_forall|done|lia|].
    destruct (anchor_all children b) as [b1 ids]. simpl in *. split.
    + apply (add_node_inv S b1 (mkExpression h children op fl)); [done|apply HS, subs_self| |done]. rewrite E, zlen_app. lia.
    + exists (more ++ [mkNode h ids op]). cbn [fst snd add_node Nodes]. rewrite E, (assoc_L (++)). split; [done|]. split; [rewrite zlen_app; change (zlen [_]) with 1; lia|]. split.
      * unfold nodeID. rewrite Z.mod_small by (rewrite zlen_app; pose proof (zlen_nonneg (Nodes b)); pose proof (zlen_nonneg more); lia).
        rewrite <-E. split; [apply zlen_nonneg|]. unfold zlen. rewrite Nat2Z.id, lookup_app_r, Nat.sub_diag by lia. eexists. by split.
      * intros _. exists (Nodes b1), (mkNode h ids op). rewrite <-E. split; [done|].
        by apply (add_node_stands b1 (mkExpression h children op fl)).
Qed.

(** The board of an expression ends with the node of the expression itself. *)
Lemma Board_spec e : size e < 2 ^ 32 →
  board_inv (λ a, a ∈ subs e) (Board_of e) ∧
  ∃ nodes node, Nodes (Board_of e) = nodes ++ [node] ∧ stands (Nodes (Board_of e)) (length nodes) node e.
Proof.
  intros Hsz. destruct (anchor_spec (λ a, a ∈ subs e) e (λ a Ha, Ha) emptyBoard) as [Hb (more & E & L & _ & Hlast)]; [by split|done|].
  split; [done|]. by apply Hlast.
Qed.

Lemma board_sorted S b : board_inv S b → sorted (Nodes b).
Proof.
  intros [Hn _] i node c E Hc. destruct (Hn i node E) as (e & _ & _ & _ & HF). apply list_elem_of_lookup in Hc as [k Ek].
  destruct (Forall2_lookup_r _ _ _ _ _ HF Ek) as (a & _ & ? & _). done.
Qed.

(** ** Folding a board *)

Section fold.
Context {X : Type} (alg : Operator F M → list X → X) (S : Expr → Prop) (b : ExpressionBoard).
Context (Hb : board_inv S b) (HC : ∀ e c, S e → c ∈ Children e → S c).
Context (HF : ∀ a a', S a → S a' → ESHash a = ESHash a' → efold alg a = efold alg a').

Lemma board_fold_stands (i : nat) : ∀ node e, Nodes b !! i = Some node → S e → stands (Nodes b) i node e →
  board_fold (λ _, alg) (Nodes b) !! i = Some (efold alg e).
Proof.
  induction (lt_wf i) as [i _ IH]. intros node e E HS (Eh & Eo & Hch). rewrite (board_fold_lookup _ _ _ _ E). f_equal.
  unfold node_value. rewrite Eo. destruct e as [h children op fl]. simpl in *. f_equal.
  assert (∀ c, c ∈ children → S c) as HSc by (intros c; by apply (HC (mkExpression h children op fl))). clear Eh Eo HS.
  induction Hch as [|c id cs ids (Hid & child & Ec & Ech) _ IHch]; simpl; [done|].
  rewrite <-board_fold_prefix, lookup_take_lt by lia.
  destruct (proj1 Hb _ _ Ec) as (a & HSa & Ha). rewrite (IH (Z.to_nat id) ltac:(lia) child a Ec HSa Ha). simpl.
  rewrite board_fold_prefix. f_equal.
  - apply HF; [done|apply HSc; left|]. by rewrite <-(proj1 Ha).
  - apply IHch. intros d Hd. apply HSc. by right.
Qed.
End fold.

Lemma subs_closed e a c : a ∈ subs e → c ∈ Children a → c ∈ subs e.
Proof.
  induction e as [h children op fl IH] using Expression_nested. intros Ha Hc. rewrite subs_unfold in Ha |- *.
  apply elem_of_cons in Ha as [->|Ha].
  - right. apply elem_of_concat. exists (subs c). split; [by apply list_elem_of_fmap_2|apply subs_self].
  - right. apply elem_of_concat in Ha as (l & Hl & Ha). apply elem_of_concat. exists l. split; [done|].
    apply list_elem_of_fmap in Hl as (d & -> & Hd). rewrite Forall_forall in IH. by apply (IH d).
Qed.

Lemma Board_fold {X} (alg : Operator F M → list X → X) e : size e < 2 ^ 32 →
  (∀ a a', a ∈ subs e → a' ∈ subs e → ESHash a = ESHash a' → efold alg a = efold alg a') →
  last (board_fold (λ _, alg) (Nodes (Board_of e))) = Some (efold alg e).
Proof.
  intros Hsz HF. destruct (Board_spec e Hsz) as [Hb (nodes & node & E & Hs)].
  assert (Nodes (Board_of e) !! length nodes = Some node) as El by (by rewrite E, lookup_app_r, Nat.sub_diag by lia).
  pose proof (board_fold_stands alg _ _ Hb (subs_closed e) HF _ _ _ El (subs_self e) Hs) as V.
  rewrite last_lookup, board_fold_length, E, length_app in *. simpl. by replace (pred (length nodes + 1)) with (length nodes) by lia.
Qed.

Lemma eval_efold ρ e : eval ρ e = efold (op_value ρ) e.
Proof.
  induction e as [h children op fl IH] using Expression_nested. simpl. f_equal. apply list_fmap_ext. intros i c Hi.
  rewrite Forall_forall in IH. apply IH. by eapply list_elem_of_lookup_2.
Qed.

(** Evaluating the nodes of the board one after the other evaluates the expression. *)
Lemma Board_eval ρ e : size e < 2 ^ 32 → faithful ρ (λ a, a ∈ subs e) →
  last (board_fold (λ _, op_value ρ) (Nodes (Board_of e))) = Some (eval ρ e).
Proof.
  intros Hsz HF. rewrite eval_efold. apply Board_fold; [done|]. intros a a' Ha Ha' E. rewrite <-!eval_efold. by apply HF.
Qed.
End board.
End BoardFacts.
