(* ===== verification/Compiler.v ===== *)
(** * Compilation and evaluation of boards

    Model of src/prover/symbolic/compiler.go: the translation of a board into bytecode
    with slots that are reused once their node is dead, the machines that run the bytecode
    on a chunk of positions (over the base field, and over the extension with slots that
    remember to be base), and [Evaluate]. A machine's memory is one flat slice, a slot the
    part of it at its number times the chunk size. The scratch slices are always written
    before they are read and are not part of the state. The element-wise operations of
    gnark-crypto that mix the two fields are the parameter [MixedVectorOps]. *)

From S2P Require Export Board.
Import Utils Fext CircularInterval SmartVector SmartVectorOps Symbolic Board.

(** extensions.Vector.MulByElement and ScalarMulByElement; the first argument is the
    receiver. *)
Class MixedVectorOps (F : Type) : Type := {
  vec_MulByElement : list (E4 F) → list (E4 F) → list F → res (list (E4 F));
  vec_ScalarMulByElement : list (E4 F) → list (E4 F) → F → res (list (E4 F))
}.

Class MixedVectorLaws (F : Type) `{ElementOps F, !ExtOps F, !MixedVectorOps F} : Prop := {
  vec_MulByElement_spec (r a : list (E4 F)) b : length r = length a → length b = length a →
    vec_MulByElement r a b = Ok (zip_with e4_mul_by_element a b);
  vec_ScalarMulByElement_spec (r a : list (E4 F)) x : length r = length a →
    vec_ScalarMulByElement r a x = Ok ((λ y, e4_mul_by_element y x) <$> a)
}.

Module Compiler.

(** ** Compile *)

Section compile.
Context {F M : Type} `{ElementOps F, !ExtOps F}.
Notation Node := (Node F M).
Notation ExpressionBoard := (ExpressionBoard F M).

Definition opLoadConst : Z := 0.
Definition opLoadInput : Z := 1.
Definition opMul : Z := 2.
Definition opLinComb : Z := 3.
Definition opPolyEval : Z := 4.

(** Liveness: the last node that uses each node, the end of the program for the last. *)
Definition last_uses (nodes : list Node) : res (list Z) :=
  let n := zlen nodes in
  lastUse ← store (replicate (length nodes) (-1)) (n - 1) n;
  foldM (λ lastUse p,
      foldM (λ lastUse childID, u ← idx lastUse childID; if u <? p.1 then store lastUse childID p.1 else Ok lastUse)
        lastUse (n_Children p.2)) lastUse (enumerate nodes).

Record cstate : Type := mkCstate {
  bytecode : list Z;
  constants : list (E4 F);
  slots : list Z;
  freeSlots : list Z;
  nextSlot : Z;
  inputCursor : Z
}.

(** [getSlot]: the slot and what is left of the free slots and the next fresh one. *)
Definition getSlot (freeSlots : list Z) (nextSlot : Z) : Z * list Z * Z :=
  match last freeSlots with
  | Some s => (s, take (length freeSlots - 1) freeSlots, nextSlot)
  | None => (nextSlot, freeSlots, nextSlot + 1)
  end.

(** The operands of an instruction, each with its coefficient or exponent. *)
Definition operands (slots : list Z) (children params : list Z) : res (list Z) :=
  l ← mapR (λ p, s ← idx slots p.2; c ← idx params p.1; Ok [s; c]) (enumerate children); Ok (concat l).

(** The instruction of a node, with the constants and the input cursor after it. *)
Definition emit (st : cstate) (node : Node) (dstSlot : Z) : res (list Z * list (E4 F) * Z) :=
  let n := zlen (n_Children node) in
  match n_Operator node with
  | Symbolic.Constant v =>
      Ok ([opLoadConst; dstSlot; zlen (constants st)], constants st ++ [(GenericFieldElem.GetExt v).1], inputCursor st)
  | Variable_ _ => Ok ([opLoadInput; dstSlot; inputCursor st], constants st, inputCursor st + 1)
  | Symbolic.Product es => code ← operands (slots st) (n_Children node) es; Ok ([opMul; dstSlot; n] ++ code, constants st, inputCursor st)
  | Symbolic.LinComb cs => code ← operands (slots st) (n_Children node) cs; Ok ([opLinComb; dstSlot; n] ++ code, constants st, inputCursor st)
  | PolyEval => code ← mapR (idx (slots st)) (n_Children node); Ok ([opPolyEval; dstSlot; n] ++ code, constants st, inputCursor st)
  end.

(** The slots of the children that die at node [i], each freed once. *)
Definition free_step (lastUse slots : list Z) (i : Z) (st : list Z * list Z) (cid : Z) : res (list Z * list Z) :=
  let '(freeSlots, freed) := st in
  u ← idx lastUse cid;
  if negb (u =? i) then Ok st else
  s ← idx slots cid;
  if decide (s ∈ freed) then Ok st else Ok (freeSlots ++ [s], s :: freed).

Definition compile_step (lastUse : list Z) (st : cstate) (p : Z * Node) : res cstate :=
  let '(i, node) := p in
  let '(dstSlot, freeSlots, nextSlot) := getSlot (freeSlots st) (nextSlot st) in
  slots ← store (slots st) i dstSlot;
  let st := mkCstate (bytecode st) (constants st) slots freeSlots nextSlot (inputCursor st) in
  r ← emit st node dstSlot;
  let '(code, consts, cursor) := r in
  f ← foldM (free_step lastUse slots i) (freeSlots, []) (n_Children node);
  Ok (mkCstate (bytecode st ++ code) consts slots f.1 nextSlot cursor).

Definition Compile (b : ExpressionBoard) : res ExpressionBoard :=
  if zlen (Nodes b) =? 0 then Ok (mkBoard (Nodes b) (ESHashesToPos b) [] [] 0 (ResultSlot b) 0) else
  lastUse ← last_uses (Nodes b);
  st ← foldM (compile_step lastUse) (mkCstate [] [] (replicate (length (Nodes b)) 0) [] 0 0) (enumerate (Nodes b));
  r ← idx (slots st) (zlen (Nodes b) - 1);
  Ok (mkBoard (Nodes b) (ESHashesToPos b) (bytecode st) (constants st) (nextSlot st) r (zlen (Nodes b))).
End compile.

(** ** The machines *)

(** The loop over the bytecode; every instruction takes at least one entry of it, so its
    length bounds the number of iterations. *)
Fixpoint exec_loop {V} (step : Z → V → res (Z * V)) (codeLen : Z) (fuel : nat) (pc : Z) (vm : V) : res V :=
  if codeLen <=? pc then Ok vm else
  match fuel with
  | O => Panic
  | S fuel => r ← step pc vm; exec_loop step codeLen fuel r.1 r.2
  end.

(** The powers of a point from 1 on. *)
Fixpoint e4_powers `{ElementOps F, !ExtOps F} (x : E4 F) (n : nat) : list (E4 F) :=
  match n with
  | O => []
  | S n => e4_powers x n ++ [match last (e4_powers x n) with Some p => e4_mul p x | None => One end]
  end.

Section machines.
Context {F : Type} `{ElementOps F, !ExtOps F, !VectorOps F, !VectorOps (E4 F), !MixedVectorOps F, !MulAcc F}.
Notation SmartVector := (SmartVector.t F).
Context (bytecode : list Z) (constants : list (E4 F)) (chunkSize : Z).
Context (inputs : list SmartVector) (chunkStart chunkStop : Z).
Notation chunkLen := (chunkStop - chunkStart).

Definition view {A} (mem : list A) (slot : Z) : res (list A) := slice mem (slot * chunkSize) (slot * chunkSize + chunkLen).
Definition write {A} (mem : list A) (slot : Z) (f : list A → res (list A)) : res (list A) :=
  in_slice mem (slot * chunkSize) (slot * chunkSize + chunkLen) f.
Definition fresh `{Scalar A} : list A := replicate (Z.to_nat chunkLen) sc_zero.

(** *** Base elements *)

Definition base_mul_step (dst : Z) (st : Z * list F) (k : Z) : res (Z * list F) :=
  let '(pc, mem) := st in
  srcSlot ← idx bytecode pc;
  exp ← idx bytecode (pc + 1);
  vInput ← view mem srcSlot;
  mem ← write mem dst (λ vRes,
    if k =? 0 then if exp =? 1 then Ok (Vectors.copy vRes vInput) else vec_Exp vRes vInput exp
    else if exp =? 1 then vec_Mul vRes vRes vInput
    else vTmp ← vec_Exp fresh vInput exp; vec_Mul vRes vRes vTmp);
  Ok (pc + 2, mem).

Definition base_lin_step (dst : Z) (st : Z * list F) (k : Z) : res (Z * list F) :=
  let '(pc, mem) := st in
  srcSlot ← idx bytecode pc;
  coeff ← idx bytecode (pc + 1);
  vInput ← view mem srcSlot;
  mem ← write mem dst (λ vRes,
    if k =? 0 then
      match coeff with
      | 0 => Ok (Vectors.Fill vRes el_zero)
      | 1 => Ok (Vectors.copy vRes vInput)
      | 2 => vec_Add vRes vInput vInput
      | -1 => let vRes := Vectors.Fill vRes el_zero in vec_Sub vRes vRes vInput
      | _ => vec_ScalarMul vRes vInput (el_of_Z coeff)
      end
    else
      match coeff with
      | 0 => Ok vRes
      | 1 => vec_Add vRes vRes vInput
      | 2 => vRes ← vec_Add vRes vRes vInput; vec_Add vRes vRes vInput
      | -1 => vec_Sub vRes vRes vInput
      | _ => vTmp ← vec_ScalarMul fresh vInput (el_of_Z coeff); vec_Add vRes vRes vTmp
      end);
  Ok (pc + 2, mem).

Definition base_polyeval (dst srcStart numSrc : Z) (mem : list F) : res (list F) :=
  xSlot ← idx bytecode srcStart;
  x ← idx mem (xSlot * chunkSize);
  lastSrcSlot ← idx bytecode (srcStart + numSrc - 1);
  last ← view mem lastSrcSlot;
  mem ← write mem dst (λ vRes, Ok (Vectors.copy vRes last));
  foldM (λ mem k,
      srcSlot ← idx bytecode (srcStart + k);
      vTmp ← view mem srcSlot;
      write mem dst (λ vRes, vRes ← vec_ScalarMul vRes vRes x; vec_Add vRes vRes vTmp))
    mem (reverse (seqZ 1 (numSrc - 2))).

Definition base_input (input : SmartVector) (dst : list F) : res (list F) :=
  match input with
  | OfBase (Regular rv) => part ← slice rv chunkStart chunkStop; Ok (Vectors.copy dst part)
  | _ => sb ← sv_SubVector input chunkStart chunkStop; sv_WriteInSlice sb dst
  end.

(** One instruction of [vmBase.execute]. *)
Definition vmBase_step (pc : Z) (mem : list F) : res (Z * list F) :=
  op ← idx bytecode pc;
  dstSlot ← idx bytecode (pc + 1);
  _ ← view mem dstSlot;
  match op with
  | 0 =>
      constIdx ← idx bytecode (pc + 2);
      val ← idx constants constIdx;
      mem ← write mem dstSlot (λ dst, Ok (Vectors.Fill dst (B0A0 val))); Ok (pc + 3, mem)
  | 1 =>
      inputID ← idx bytecode (pc + 2);
      input ← idx inputs inputID;
      mem ← write mem dstSlot (base_input input); Ok (pc + 3, mem)
  | 2 => numSrc ← idx bytecode (pc + 2); foldM (base_mul_step dstSlot) (pc + 3, mem) (seqZ 0 numSrc)
  | 3 => numSrc ← idx bytecode (pc + 2); foldM (base_lin_step dstSlot) (pc + 3, mem) (seqZ 0 numSrc)
  | 4 =>
      numSrc ← idx bytecode (pc + 2);
      mem ← base_polyeval dstSlot (pc + 3) numSrc mem; Ok (pc + 3 + numSrc, mem)
  | _ => Ok (pc + 2, mem)
  end.

Definition vmBase_execute (mem : list F) : res (list F) := exec_loop vmBase_step (zlen bytecode) (length bytecode) 0 mem.

(** *** Extension elements

    [slotIsBase] says which of the two memories holds a slot. *)

Record vmExt : Type := mkVmExt {
  memory : list (E4 F);
  baseMemory : list F;
  slotIsBase : list bool
}.

(** Updates of a slot, in the memory of base elements and in that of extension elements. *)
Definition write_base (vm : vmExt) (slot : Z) (f : list F → res (list F)) : res vmExt :=
  m ← write (baseMemory vm) slot f; Ok (mkVmExt (memory vm) m (slotIsBase vm)).
Definition write_ext (vm : vmExt) (slot : Z) (f : list (E4 F) → res (list (E4 F))) : res vmExt :=
  m ← write (memory vm) slot f; Ok (mkVmExt m (baseMemory vm) (slotIsBase vm)).
Definition set_flag (vm : vmExt) (slot : Z) (isBase : bool) : res vmExt :=
  l ← store (slotIsBase vm) slot isBase; Ok (mkVmExt (memory vm) (baseMemory vm) l).

Definition scatterBaseToExt (vm : vmExt) (slot : Z) : res vmExt :=
  bSrc ← view (baseMemory vm) slot;
  write_ext vm slot (λ eDst, Ok (zip_with (λ _ b, mkE4 b el_zero el_zero el_zero) eDst bSrc)).

(** [B0.A0] of each element is increased by the base elements given. *)
Definition add_to_base (vRes : list (E4 F)) (b : list F) : list (E4 F) :=
  zip_with (λ x y, mkE4 (el_add (B0A0 x) y) (B0A1 x) (B1A0 x) (B1A1 x)) vRes b.
Definition sub_from_base (vRes : list (E4 F)) (b : list F) : list (E4 F) :=
  zip_with (λ x y, mkE4 (el_sub (B0A0 x) y) (B0A1 x) (B1A0 x) (B1A1 x)) vRes b.

Definition ext_load_input (vm : vmExt) (dst : Z) (input : SmartVector) : res vmExt :=
  match input with
  | OfExt (Rotated v o) =>
      vm ← set_flag vm dst false; write_ext vm dst (λ d, copySubVector v o chunkStart chunkStop (zlen d))
  | OfBase (Rotated v o) =>
      vm ← set_flag vm dst true; write_base vm dst (λ d, copySubVector v o chunkStart chunkStop (zlen d))
  | OfBase (Regular rv) =>
      vm ← set_flag vm dst true; part ← slice rv chunkStart chunkStop; write_base vm dst (λ d, Ok (Vectors.copy d part))
  | OfExt (Regular rv) =>
      vm ← set_flag vm dst false; part ← slice rv chunkStart chunkStop; write_ext vm dst (λ d, Ok (Vectors.copy d part))
  | OfBase (SmartVector.Constant val _) => vm ← set_flag vm dst true; write_base vm dst (λ d, Ok (Vectors.Fill d val))
  | OfExt (SmartVector.Constant val _) =>
      vm ← set_flag vm dst (Fext.IsBase val);
      if Fext.IsBase val then write_base vm dst (λ d, Ok (Vectors.Fill d (B0A0 val)))
      else write_ext vm dst (λ d, Ok (Vectors.Fill d val))
  | _ =>
      isBase ← SmartVector.IsBase input;
      vm ← set_flag vm dst isBase;
      sb ← sv_SubVector input chunkStart chunkStop;
      if (isBase : bool) then write_base vm dst (sv_WriteInSlice sb) else write_ext vm dst (sv_WriteInSliceExt sb)
  end.

Definition ext_mul_step (dst : Z) (st : Z * vmExt * bool) (k : Z) : res (Z * vmExt * bool) :=
  let '(pc, vm, resIsBase) := st in
  srcSlot ← idx bytecode pc;
  exp ← idx bytecode (pc + 1);
  srcIsBase ← idx (slotIsBase vm) srcSlot;
  if k =? 0 then
    if (srcIsBase : bool) then
      bSrc ← view (baseMemory vm) srcSlot;
      vm ← write_base vm dst (λ r, if exp =? 1 then Ok (Vectors.copy r bSrc) else vec_Exp r bSrc exp);
      Ok (pc + 2, vm, true)
    else
      vInput ← view (memory vm) srcSlot;
      vm ← write_ext vm dst (λ r, if exp =? 1 then Ok (Vectors.copy r vInput) else vec_Exp r vInput exp);
      Ok (pc + 2, vm, false)
  else if (srcIsBase : bool) then
    bSrc ← view (baseMemory vm) srcSlot;
    operandBase ← (if exp =? 1 then Ok bSrc else vec_Exp fresh bSrc exp);
    vm ← (if (resIsBase : bool) then write_base vm dst (λ r, vec_Mul r r operandBase)
          else write_ext vm dst (λ r, vec_MulByElement r r operandBase));
    Ok (pc + 2, vm, resIsBase)
  else
    vInput ← view (memory vm) srcSlot;
    operand ← (if exp =? 1 then Ok vInput else vec_Exp fresh vInput exp);
    vm ← (if (resIsBase : bool) then baseDst ← view (baseMemory vm) dst; write_ext vm dst (λ r, vec_MulByElement r operand baseDst)
          else write_ext vm dst (λ r, vec_Mul r r operand));
    Ok (pc + 2, vm, false).

Definition ext_mul (dst pc numSrc : Z) (vm : vmExt) : res (Z * vmExt) :=
  let general :=
    r ← foldM (ext_mul_step dst) (pc, vm, false) (seqZ 0 numSrc);
    let '(pc, vm, resIsBase) := r in vm ← set_flag vm dst resIsBase; Ok (pc, vm) in
  if numSrc =? 2 then
    s0 ← idx bytecode pc; e0 ← idx bytecode (pc + 1); s1 ← idx bytecode (pc + 2); e1 ← idx bytecode (pc + 3);
    fast ← andR (idx (slotIsBase vm) s0) (andR (idx (slotIsBase vm) s1) (Ok ((e0 =? 1) && (e1 =? 1))));
    if (fast : bool) then
      b0 ← view (baseMemory vm) s0;
      b1 ← view (baseMemory vm) s1;
      vm ← write_base vm dst (λ r, vec_Mul r b0 b1);
      vm ← set_flag vm dst true; Ok (pc + 4, vm)
    else general
  else general.

(** The first operand of a linear combination. *)
Definition ext_lin_first (dst : Z) (vm : vmExt) (srcSlot coeff : Z) (srcIsBase : bool) : res (vmExt * bool) :=
  if srcIsBase then
    bSrc ← view (baseMemory vm) srcSlot;
    vm ← write_base vm dst (λ r, match coeff with
      | 0 => Ok (Vectors.Fill r el_zero)
      | 1 => Ok (Vectors.copy r bSrc)
      | 2 => vec_Add r bSrc bSrc
      | -1 => let r := Vectors.Fill r el_zero in vec_Sub r r bSrc
      | _ => vec_ScalarMul r bSrc (el_of_Z coeff)
      end);
    Ok (vm, true)
  else
    vInput ← view (memory vm) srcSlot;
    vm ← (if coeff =? 0 then write_base vm dst (λ r, Ok (Vectors.Fill r el_zero))
          else write_ext vm dst (λ r, match coeff with
            | 1 => Ok (Vectors.copy r vInput)
            | 2 => vec_Add r vInput vInput
            | -1 => let r := Vectors.Fill r Zero in vec_Sub r r vInput
            | _ => vec_ScalarMulByElement r vInput (el_of_Z coeff)
            end));
    Ok (vm, coeff =? 0).

(** A later base operand, added to a base or to an extension result. *)
Definition ext_lin_base (dst : Z) (vm : vmExt) (bSrc : list F) (coeff : Z) (resIsBase : bool) : res vmExt :=
  if resIsBase then
    write_base vm dst (λ r, match coeff with
      | 1 => vec_Add r r bSrc
      | 2 => r ← vec_Add r r bSrc; vec_Add r r bSrc
      | -1 => vec_Sub r r bSrc
      | _ => bTmp ← vec_ScalarMul fresh bSrc (el_of_Z coeff); vec_Add r r bTmp
      end)
  else
    write_ext vm dst (λ r, Ok (match coeff with
      | 1 => add_to_base r bSrc
      | 2 => add_to_base (add_to_base r bSrc) bSrc
      | -1 => sub_from_base r bSrc
      | _ => add_to_base r ((λ b, el_mul b (el_of_Z coeff)) <$> bSrc)
      end)).

Definition ext_lin_step (dst : Z) (st : Z * vmExt * bool) (k : Z) : res (Z * vmExt * bool) :=
  let '(pc, vm, resIsBase) := st in
  srcSlot ← idx bytecode pc;
  coeff ← idx bytecode (pc + 1);
  srcIsBase ← idx (slotIsBase vm) srcSlot;
  if k =? 0 then r ← ext_lin_first dst vm srcSlot coeff srcIsBase; Ok (pc + 2, r.1, r.2)
  else if coeff =? 0 then Ok (pc + 2, vm, resIsBase)
  else if (srcIsBase : bool) then
    bSrc ← view (baseMemory vm) srcSlot;
    vm ← ext_lin_base dst vm bSrc coeff resIsBase; Ok (pc + 2, vm, resIsBase)
  else
    vInput ← view (memory vm) srcSlot;
    vm ← (if (resIsBase : bool) then scatterBaseToExt vm dst else Ok vm);
    vm ← write_ext vm dst (λ r, match coeff with
      | 1 => vec_Add r r vInput
      | 2 => r ← vec_Add r r vInput; vec_Add r r vInput
      | -1 => vec_Sub r r vInput
      | _ => vTmp ← vec_ScalarMulByElement fresh vInput (el_of_Z coeff); vec_Add r r vTmp
      end);
    Ok (pc + 2, vm, false).

Definition ext_lin (dst pc numSrc : Z) (vm : vmExt) : res (Z * vmExt) :=
  let general :=
    r ← foldM (ext_lin_step dst) (pc, vm, false) (seqZ 0 numSrc);
    let '(pc, vm, resIsBase) := r in vm ← set_flag vm dst resIsBase; Ok (pc, vm) in
  if numSrc =? 2 then
    s0 ← idx bytecode pc; c0 ← idx bytecode (pc + 1); s1 ← idx bytecode (pc + 2); c1 ← idx bytecode (pc + 3);
    fast ← andR (idx (slotIsBase vm) s0) (andR (idx (slotIsBase vm) s1) (Ok (c0 =? 1)));
    if (fast : bool) then
      b0 ← view (baseMemory vm) s0;
      b1 ← view (baseMemory vm) s1;
      match c1 with
      | 1 => vm ← write_base vm dst (λ r, vec_Add r b0 b1); vm ← set_flag vm dst true; Ok (pc + 4, vm)
      | -1 => vm ← write_base vm dst (λ r, vec_Sub r b0 b1); vm ← set_flag vm dst true; Ok (pc + 4, vm)
      | _ => general
      end
    else general
  else general.

(** The evaluation by powers of an extension point, for base coefficients. *)
Definition ext_power_sum (dst srcStart numSrc : Z) (x : E4 F) (vm : vmExt) : res vmExt :=
  let powers := e4_powers x (Z.to_nat (numSrc - 1)) in
  firstSlot ← idx bytecode (srcStart + 1);
  bFirst ← view (baseMemory vm) firstSlot;
  vm ← write_ext vm dst (λ r, Ok (zip_with (λ _ b, mkE4 b el_zero el_zero el_zero) r bFirst));
  vm ← foldM (λ vm k,
      srcSlot ← idx bytecode (srcStart + k);
      bSrc ← view (baseMemory vm) srcSlot;
      p ← idx powers (k - 1);
      write_ext vm dst (λ r, vec_MulAccByElement r bSrc p)) vm (seqZ 2 (numSrc - 2));
  set_flag vm dst false.

(** One step of Horner's rule: multiply by the point, add a coefficient. *)
Definition ext_horner_step (dst srcStart xSlot : Z) (xIsBase : bool) (st : vmExt * bool) (k : Z) : res (vmExt * bool) :=
  let '(vm, resIsBase) := st in
  srcSlot ← idx bytecode (srcStart + k);
  st ← (if (resIsBase : bool) then
          if xIsBase then
            xBase ← idx (baseMemory vm) (xSlot * chunkSize);
            vm ← write_base vm dst (λ r, vec_ScalarMul r r xBase); Ok (vm, true)
          else
            x ← idx (memory vm) (xSlot * chunkSize);
            baseDst ← view (baseMemory vm) dst;
            vm ← write_ext vm dst (λ r, Ok (zip_with (λ _ b, e4_mul_by_element x b) r baseDst)); Ok (vm, false)
        else
          if xIsBase then
            xBase ← idx (baseMemory vm) (xSlot * chunkSize);
            vm ← write_ext vm dst (λ r, vec_ScalarMulByElement r r xBase); Ok (vm, false)
          else
            x ← idx (memory vm) (xSlot * chunkSize);
            vm ← write_ext vm dst (λ r, vec_ScalarMul r r x); Ok (vm, false));
  let '(vm, resIsBase) := st in
  srcIsBase ← idx (slotIsBase vm) srcSlot;
  if (srcIsBase : bool) then
    bSrc ← view (baseMemory vm) srcSlot;
    if (resIsBase : bool) then vm ← write_base vm dst (λ r, vec_Add r r bSrc); Ok (vm, true)
    else vm ← write_ext vm dst (λ r, Ok (add_to_base r bSrc)); Ok (vm, false)
  else
    vm ← (if (resIsBase : bool) then scatterBaseToExt vm dst else Ok vm);
    vTmp ← view (memory vm) srcSlot;
    vm ← write_ext vm dst (λ r, vec_Add r r vTmp); Ok (vm, false).

Definition ext_horner (dst srcStart numSrc xSlot : Z) (xIsBase : bool) (vm : vmExt) : res vmExt :=
  lastSrcSlot ← idx bytecode (srcStart + numSrc - 1);
  resIsBase ← idx (slotIsBase vm) lastSrcSlot;
  vm ← (if (resIsBase : bool) then last ← view (baseMemory vm) lastSrcSlot; write_base vm dst (λ r, Ok (Vectors.copy r last))
        else last ← view (memory vm) lastSrcSlot; write_ext vm dst (λ r, Ok (Vectors.copy r last)));
  st ← foldM (ext_horner_step dst srcStart xSlot xIsBase) (vm, resIsBase) (reverse (seqZ 1 (numSrc - 2)));
  set_flag st.1 dst st.2.

(** Whether the slots of the bytecode entries [srcStart+k], for the given [k], are base. *)
Fixpoint all_base (vm : vmExt) (srcStart : Z) (ks : list Z) : res bool :=
  match ks with
  | [] => Ok true
  | k :: ks =>
      s ← idx bytecode (srcStart + k);
      f ← idx (slotIsBase vm) s;
      if (f : bool) then all_base vm srcStart ks else Ok false
  end.

Definition ext_polyeval (dst srcStart numSrc : Z) (vm : vmExt) : res vmExt :=
  xSlot ← idx bytecode srcStart;
  xIsBase ← idx (slotIsBase vm) xSlot;
  allCoeffsBase ← (if (xIsBase : bool) then Ok false else all_base vm srcStart (seqZ 1 (numSrc - 1)));
  if (allCoeffsBase : bool) && (2 <? numSrc) then
    x ← idx (memory vm) (xSlot * chunkSize); ext_power_sum dst srcStart numSrc x vm
  else ext_horner dst srcStart numSrc xSlot xIsBase vm.

(** One instruction of [vmExt.execute]. *)
Definition vmExt_step (pc : Z) (vm : vmExt) : res (Z * vmExt) :=
  op ← idx bytecode pc;
  dstSlot ← idx bytecode (pc + 1);
  _ ← view (memory vm) dstSlot;
  _ ← view (baseMemory vm) dstSlot;
  match op with
  | 0 =>
      constIdx ← idx bytecode (pc + 2);
      val ← idx constants constIdx;
      vm ← set_flag vm dstSlot (Fext.IsBase val);
      vm ← (if Fext.IsBase val then write_base vm dstSlot (λ d, Ok (Vectors.Fill d (B0A0 val)))
            else write_ext vm dstSlot (λ d, Ok (Vectors.Fill d val)));
      Ok (pc + 3, vm)
  | 1 =>
      inputID ← idx bytecode (pc + 2);
      input ← idx inputs inputID;
      vm ← ext_load_input vm dstSlot input; Ok (pc + 3, vm)
  | 2 => numSrc ← idx bytecode (pc + 2); ext_mul dstSlot (pc + 3) numSrc vm
  | 3 => numSrc ← idx bytecode (pc + 2); ext_lin dstSlot (pc + 3) numSrc vm
  | 4 =>
      numSrc ← idx bytecode (pc + 2);
      vm ← ext_polyeval dstSlot (pc + 3) numSrc vm; Ok (pc + 3 + numSrc, vm)
  | _ => Ok (pc + 2, vm)
  end.

Definition vmExt_execute (vm : vmExt) : res vmExt := exec_loop vmExt_step (zlen bytecode) (length bytecode) 0 vm.
End machines.
Arguments vmExt : clear implicits.

(** ** Evaluate *)

(** [maxForBoard] without its lowest bits, down to a power of two. *)
Fixpoint round_down (fuel : nat) (x : Z) : Z :=
  match fuel with
  | O => x
  | S fuel => if (0 <? x) && negb (Z.land x (x - 1) =? 0) then round_down fuel (Z.land x (x - 1)) else x
  end.

(** Halves the chunk size until it divides the total. *)
Fixpoint halve (fuel : nat) (chunkSize totalSize : Z) : Z :=
  match fuel with
  | O => chunkSize
  | S fuel => if (1 <? chunkSize) && negb (totalSize mod chunkSize =? 0) then halve fuel (Z.shiftr chunkSize 1) totalSize else chunkSize
  end.

Definition MaxChunkSize : Z := 2 ^ 8.

(** The size of a chunk, from the number of slots and the length of the vectors. An
    extension element takes 16 bytes. *)
Definition chunk_size (numSlots totalSize : Z) : Z :=
  let maxForBoard := if 0 <? numSlots then round_down 64 (Z.quot (2 ^ 28) (numSlots * 16)) else 0 in
  let maxChunkSize := if (16 <=? maxForBoard) && (maxForBoard <? MaxChunkSize) then maxForBoard else MaxChunkSize in
  halve 64 (Z.min maxChunkSize totalSize) totalSize.

Section evaluate.
Context {F M : Type} `{ElementOps F, !ExtOps F, !VectorOps F, !VectorOps (E4 F), !MixedVectorOps F, !MulAcc F}.
Notation SmartVector := (SmartVector.t F).
Notation ExpressionBoard := (ExpressionBoard F M).
Context (gomaxprocs : Z).

(** A task of [parallel.Execute]: a machine of its own runs the chunks of the range, and
    the result of each, as read by [out], is copied to its place. *)
Definition run_chunks {V A} (execute : Z → Z → V → res V) (out : V → res (list A)) (newVM : V) (chunkSize numChunks : Z) (r : list A)
    : res (list A) :=
  foldM (λ r range,
      st ← foldM (λ st chunkID,
          let chunkStart := chunkID * chunkSize in
          let chunkStop := (chunkID + 1) * chunkSize in
          vm ← execute chunkStart chunkStop st.2;
          o ← out vm;
          r ← in_slice st.1 chunkStart chunkStop (λ dst, Ok (Vectors.copy dst o));
          Ok (r, vm)) (r, newVM) (Parallel.iterations range);
      Ok st.1)
    r (Parallel.Execute_ranges gomaxprocs [] numChunks).

Definition newVMBase (numSlots chunkSize : Z) : list F := replicate (Z.to_nat (numSlots * chunkSize)) el_zero.
Definition newVMExt (numSlots chunkSize : Z) : vmExt F :=
  mkVmExt (replicate (Z.to_nat (numSlots * chunkSize)) Zero) (replicate (Z.to_nat (numSlots * chunkSize)) el_zero)
    (replicate (Z.to_nat numSlots) false).

Fixpoint check_lengths (totalSize : Z) (inputs : list SmartVector) : res unit :=
  match inputs with
  | [] => Ok ()
  | v :: inputs => if negb (sv_Len v =? totalSize) then Panic else check_lengths totalSize inputs
  end.

Definition evaluate_base (b : ExpressionBoard) (inputs : list SmartVector) (totalSize chunkSize : Z) : res SmartVector :=
  let slot m := slice m (ResultSlot b * chunkSize) ((ResultSlot b + 1) * chunkSize) in
  r ← run_chunks (λ start stop, vmBase_execute (Bytecode b) (Constants b) chunkSize inputs start stop) slot
        (newVMBase (NumSlots b) chunkSize) chunkSize (Z.quot totalSize chunkSize) (replicate (Z.to_nat totalSize) el_zero);
  if areAllConstants inputs then r0 ← idx r 0; v ← SmartVector.NewConstant r0 totalSize; Ok (OfBase v)
  else v ← NewRegular r; Ok (OfBase v).

Definition evaluate_ext (b : ExpressionBoard) (inputs : list SmartVector) (totalSize chunkSize : Z) : res SmartVector :=
  let execute start stop := vmExt_execute (Bytecode b) (Constants b) chunkSize inputs start stop in
  let newVM := newVMExt (NumSlots b) chunkSize in
  let slot {A} (m : list A) := slice m (ResultSlot b * chunkSize) ((ResultSlot b + 1) * chunkSize) in
  probeVM ← execute 0 chunkSize newVM;
  resultIsBase ← idx (slotIsBase probeVM) (ResultSlot b);
  r ← (if (resultIsBase : bool) then
         resBase ← run_chunks execute (λ vm, slot (baseMemory vm)) newVM chunkSize (Z.quot totalSize chunkSize)
                     (replicate (Z.to_nat totalSize) el_zero);
         Ok (Lift <$> (resBase : list F))
       else
         run_chunks execute (λ vm, slot (memory vm)) newVM chunkSize (Z.quot totalSize chunkSize) (replicate (Z.to_nat totalSize) Zero));
  if areAllConstants inputs then r0 ← idx r 0; v ← SmartVector.NewConstant r0 totalSize; Ok (OfExt v)
  else v ← NewRegular r; Ok (OfExt v).

Definition Evaluate (b : ExpressionBoard) (inputs : list SmartVector) : res (ExpressionBoard * SmartVector) :=
  b ← (if negb (ProgramNodesCount b =? zlen (Nodes b)) then Compile b else Ok b);
  input0 ← idx inputs 0;
  let totalSize := sv_Len input0 in
  if totalSize =? 0 then Panic else
  _ ← check_lengths totalSize inputs;
  let chunkSize := chunk_size (NumSlots b) totalSize in
  isBase ← AreAllBase inputs;
  v ← (if (isBase : bool) then evaluate_base b inputs totalSize chunkSize else evaluate_ext b inputs totalSize chunkSize);
  Ok (b, v).
End evaluate.
End Compiler.
