(* ===== verification/CompilerFacts.v ===== *)
(** * The code of a compiled board

    [Compile] gives every node an instruction that reads the slots of its children and
    writes a slot of its own, which is not the slot of any node that is still to be read:
    neither of an operand of the instruction, nor of one of a later instruction. *)

From S2P Require Export Board Compiler.
Import Utils Fext SmartVectorOps SmartVectorProcess Symbolic SymbolicFacts Board BoardFacts Compiler.
Import GenericFieldElem (value).

Module CompilerFacts.

Section code.
Context {F M : Type} `{ElementLaws F, !ExtOps F, !ExtLaws F}.
Notation Node := (Node F M).
Implicit Types (nodes : list Node) (node : Node) (lastUse : list Z).

(** ** Liveness *)

Definition uses_inv (n : nat) (l0 : list Z) (i : Z) (cs : list Z) lastUse : Prop :=
  length lastUse = n ∧
  (∀ (j : nat) u, l0 !! j = Some u → ∃ u', lastUse !! j = Some u' ∧ u ≤ u' ∧ (u = Z.of_nat n → u' = u)) ∧
  (∀ c, c ∈ cs → ∃ u, lastUse !! Z.to_nat c = Some u ∧ i ≤ u).

Lemma use_children n l0 (i : nat) node : length l0 = n → (i < n)%nat → (∀ c, c ∈ n_Children node → 0 ≤ c < Z.of_nat i) →
  ∃ lastUse, foldM (λ lastUse childID, u ← idx lastUse childID; if u <? Z.of_nat i then store lastUse childID (Z.of_nat i) else Ok lastUse)
    l0 (n_Children node) = Ok lastUse ∧ uses_inv n l0 (Z.of_nat i) (n_Children node) lastUse.
Proof.
  intros L Hi Hc. apply (foldM_rule _ (uses_inv n l0 (Z.of_nat i))).
  { split_and!; [done| |by intros c ?%not_elem_of_nil]. intros j u E. exists u. split; [done|]. split; [lia|done]. }
  intros l c lu Hin (Ll & Hm & Hl). destruct (lookup_lt_is_Some_2 lu (Z.to_nat c)) as [u Eu]; [specialize (Hc c Hin); lia|].
  rewrite (idx_nat _ c u) by (try done; specialize (Hc c Hin); lia). simpl. destruct (Z.ltb_spec u (Z.of_nat i)) as [Hlt|Hge].
  - rewrite store_Ok by (specialize (Hc c Hin); unfold zlen; lia). eexists. split; [done|]. split_and!; [by rewrite length_insert| |].
    + intros j v Ej. destruct (Hm j v Ej) as (v' & Ev' & Hle & Heq). destruct (decide (j = Z.to_nat c)) as [->|Hne].
      * rewrite list_lookup_insert_eq by (apply lookup_lt_Some in Eu; lia). eexists. split; [done|]. rewrite Eu in Ev'. simplify_eq. lia.
      * rewrite list_lookup_insert_ne by done. by exists v'.
    + intros d [Hd| ->]%elem_of_snoc.
      * destruct (Hl d Hd) as (w & Ew & Hw). destruct (decide (Z.to_nat d = Z.to_nat c)) as [E|Hne].
        -- rewrite E, list_lookup_insert_eq by (apply lookup_lt_Some in Eu; lia). by eexists.
        -- rewrite list_lookup_insert_ne by done. by exists w.
      * rewrite list_lookup_insert_eq by (apply lookup_lt_Some in Eu; lia). by eexists.
  - eexists. split; [done|]. split_and!; [done..|]. intros d [Hd| ->]%elem_of_snoc; [by apply Hl|]. by exists u.
Qed.

Definition uses_ok nodes lastUse (k : nat) : Prop :=
  length lastUse = length nodes ∧
  lastUse !! pred (length nodes) = Some (zlen nodes) ∧
  ∀ (i : nat) node c, (i < k)%nat → nodes !! i = Some node → c ∈ n_Children node → ∃ u, lastUse !! Z.to_nat c = Some u ∧ Z.of_nat i ≤ u.

Lemma last_uses_spec nodes : nodes ≠ [] → sorted nodes → ∃ lastUse, last_uses nodes = Ok lastUse ∧ uses_ok nodes lastUse (length nodes).
Proof.
  intros Hne Hs. unfold last_uses. assert (0 < length nodes)%nat as Hl by (destruct nodes; simpl; [done|lia]).
  rewrite store_Ok by (unfold zlen; rewrite length_replicate; lia). simpl. apply (foldM_enumerate _ (λ k lu, uses_ok nodes lu k)).
  { split_and!; [by rewrite length_insert, length_replicate| |lia].
    replace (Z.to_nat (zlen nodes - 1)) with (pred (length nodes)) by (unfold zlen; lia).
    by rewrite list_lookup_insert_eq by (rewrite length_replicate; lia). }
  intros k node lu Ek (L & El & Hu). pose proof (lookup_lt_Some _ _ _ Ek).
  destruct (use_children (length nodes) lu k node L) as (lu' & E & L' & Hm & Hc); [done|intros c; by apply Hs|].
  exists lu'. split; [done|]. split_and!; [done| |].
  - destruct (Hm _ _ El) as (u' & -> & _ & Heq). by rewrite Heq.
  - intros i nd c Hi Ei Hin. destruct (decide (i = k)) as [->|Hne'].
    + rewrite Ek in Ei. injection Ei as <-. by apply Hc.
    + destruct (Hu i nd c ltac:(lia) Ei Hin) as (u & Eu & Hle). destruct (Hm _ _ Eu) as (u' & Eu' & ? & _). exists u'. split; [done|]. lia.
Qed.

(** ** Instructions *)

Definition node_shape node : Prop :=
  match n_Operator node with
  | LinComb cs => length cs = length (n_Children node) ∧ n_Children node ≠ []
  | Product es => length es = length (n_Children node) ∧ Forall (Z.le 0) es ∧ n_Children node ≠ []
  | PolyEval => (2 ≤ length (n_Children node))%nat
  | _ => True
  end.

Definition is_var node : bool := match n_Operator node with Variable_ _ => true | _ => false end.
Definition var_count nodes : Z := zlen (filter (λ node, is_var node = true) nodes).

Definition sources (S : list Z) (children : list Z) : list Z := omap (λ c, S !! Z.to_nat c) children.
Definition pairs (srcs params : list Z) : list Z := concat (zip_with (λ s c, [s; c]) srcs params).

(** The instruction of a node that writes slot [d], given the slots of the nodes. *)
Definition instr (S : list Z) (consts : list (E4 F)) (vars : Z) node (d : Z) (code : list Z) : Prop :=
  let srcs := sources S (n_Children node) in
  match n_Operator node with
  | Constant v => ∃ ci, code = [opLoadConst; d; ci] ∧ 0 ≤ ci ∧ consts !! Z.to_nat ci = Some (value v)
  | Variable_ _ => code = [opLoadInput; d; vars]
  | Product es => code = [opMul; d; zlen srcs] ++ pairs srcs es
  | LinComb cs => code = [opLinComb; d; zlen srcs] ++ pairs srcs cs
  | PolyEval => code = [opPolyEval; d; zlen srcs] ++ srcs
  end.

Lemma sources_ext (S S' : list Z) children (i : nat) : (∀ c, c ∈ children → 0 ≤ c < Z.of_nat i) →
  (∀ j : nat, (j < i)%nat → S !! j = S' !! j) → sources S children = sources S' children.
Proof.
  intros Hc HS. unfold sources. induction children as [|c cs IH]; simpl; [done|].
  rewrite (HS (Z.to_nat c)) by (specialize (Hc c ltac:(left)); lia).
  destruct (S' !! Z.to_nat c); [f_equal|]; apply IH; intros d Hd; apply Hc; by right.
Qed.

Lemma sources_length (S : list Z) children (i : nat) : (∀ c, c ∈ children → 0 ≤ c < Z.of_nat i) → (i ≤ length S)%nat →
  length (sources S children) = length children.
Proof.
  intros Hc HS. unfold sources. induction children as [|c cs IH]; simpl; [done|].
  destruct (lookup_lt_is_Some_2 S (Z.to_nat c)) as [s ->]; [specialize (Hc c ltac:(left)); lia|]. simpl. f_equal. apply IH.
  intros d Hd. apply Hc. by right.
Qed.

Lemma sources_lookup (S : list Z) children (k : nat) c (i : nat) : (∀ c, c ∈ children → 0 ≤ c < Z.of_nat i) → (i ≤ length S)%nat →
  children !! k = Some c → sources S children !! k = S !! Z.to_nat c.
Proof.
  intros Hc HS. revert k. unfold sources. induction children as [|d cs IH]; intros k E; [done|].
  destruct (lookup_lt_is_Some_2 S (Z.to_nat d)) as [s Es]; [specialize (Hc d ltac:(left)); lia|].
  simpl. rewrite Es. destruct k as [|k]; simplify_eq/=; [done|]. apply IH; [|done]. intros e He. apply Hc. by right.
Qed.

Lemma instr_mono S S' consts more vars node d code (i : nat) : (∀ c, c ∈ n_Children node → 0 ≤ c < Z.of_nat i) →
  (∀ j : nat, (j < i)%nat → S !! j = S' !! j) → instr S consts vars node d code → instr S' (consts ++ more) vars node d code.
Proof.
  intros Hc HS. unfold instr. rewrite (sources_ext S S' _ i) by done. destruct (n_Operator node); try done.
  intros (ci & ? & ? & ?). exists ci. split; [done|]. split; [done|]. by apply lookup_app_l_Some.
Qed.

Lemma operands_spec (S : list Z) children params (i : nat) : (∀ c, c ∈ children → 0 ≤ c < Z.of_nat i) → (i ≤ length S)%nat →
  length params = length children → operands S children params = Ok (pairs (sources S children) params).
Proof.
  intros Hc HS L. unfold operands, pairs.
  rewrite (mapR_Ok _ (λ p, [default 0 (S !! Z.to_nat p.2); default 0 (params !! Z.to_nat p.1)])).
  2:{ intros [k c] Hin. unfold enumerate in Hin. cbn [fst snd].
      apply list_elem_of_lookup in Hin as [m Em]. apply lookup_zip_with_Some in Em as (k' & c' & [= -> ->] & Ek & Ec).
      apply lookup_seqZ in Ek as [-> Hm]. rewrite Z.add_0_l. assert (c' ∈ children) as Hcc by (by eapply list_elem_of_lookup_2).
      destruct (lookup_lt_is_Some_2 S (Z.to_nat c')) as [s Es]; [specialize (Hc c' Hcc); lia|].
      destruct (lookup_lt_is_Some_2 params m) as [x Ex]; [rewrite L; by eapply lookup_lt_Some|].
      rewrite (idx_nat S c' s) by (try done; specialize (Hc c' Hcc); lia). simpl.
      rewrite (idx_nat params (Z.of_nat m) x) by (rewrite ?Nat2Z.id; (lia || done)). simpl. by rewrite Nat2Z.id, Es, Ex. }
  simpl. f_equal. f_equal. apply list_eq. intros k. rewrite list_lookup_fmap. unfold enumerate.
  destruct (children !! k) as [c|] eqn:Ek.
  - pose proof (lookup_lt_Some _ _ _ Ek) as Hk.
    assert (zip (seqZ 0 (zlen children)) children !! k = Some (Z.of_nat k, c)) as ->.
    { apply lookup_zip_with_Some. exists (Z.of_nat k), c. split; [done|]. split; [|done]. apply lookup_seqZ. unfold zlen. lia. }
    simpl. rewrite Nat2Z.id. destruct (lookup_lt_is_Some_2 params k) as [x Ex]; [lia|].
    assert (c ∈ children) as Hcc by (by eapply list_elem_of_lookup_2).
    destruct (lookup_lt_is_Some_2 S (Z.to_nat c)) as [s Es]; [specialize (Hc c Hcc); lia|].
    symmetry. apply lookup_zip_with_Some. exists s, x. rewrite Es, Ex. split; [done|]. split; [|done].
    by rewrite (sources_lookup S children k c i).
  - assert (length children ≤ k)%nat by (by apply lookup_ge_None).
    rewrite (lookup_ge_None_2 (zip _ _)) by (rewrite length_zip_with, length_seqZ; unfold zlen; lia). simpl.
    symmetry. apply lookup_ge_None_2. rewrite length_zip_with, (sources_length S children i) by done. lia.
Qed.

Lemma mapR_slots (S : list Z) children (i : nat) : (∀ c, c ∈ children → 0 ≤ c < Z.of_nat i) → (i ≤ length S)%nat →
  mapR (idx S) children = Ok (sources S children).
Proof.
  intros Hc HS. unfold sources. induction children as [|c cs IH]; simpl; [done|].
  destruct (lookup_lt_is_Some_2 S (Z.to_nat c)) as [s Es]; [specialize (Hc c ltac:(left)); lia|].
  rewrite (idx_nat S c s), Es by (try done; specialize (Hc c ltac:(left)); lia). simpl. rewrite IH; [done|]. intros d Hd. apply Hc. by right.
Qed.

Lemma GetExt_value (v : GenericFieldElem.t F) : (GenericFieldElem.GetExt v).1 = value v.
Proof. unfold GenericFieldElem.GetExt, value. by destruct (GenericFieldElem.IsBase v). Qed.

Lemma emit_spec st node d (i : nat) : (∀ c, c ∈ n_Children node → 0 ≤ c < Z.of_nat i) → (i ≤ length (slots st))%nat → node_shape node →
  ∃ code more, emit st node d = Ok (code, constants st ++ more, inputCursor st + (if is_var node then 1 else 0)) ∧
    instr (slots st) (constants st ++ more) (inputCursor st) node d code.
Proof.
  intros Hc HS Hsh. unfold emit, instr, node_shape, is_var in *. assert (zlen (sources (slots st) (n_Children node)) = zlen (n_Children node)) as L
    by (unfold zlen; by rewrite (sources_length (slots st) _ i Hc HS)).
  rewrite L. destruct (n_Operator node) as [v|m|cs|es|].
  - rewrite GetExt_value. eexists _, [value v]. rewrite Z.add_0_r. split; [done|]. eexists. split; [done|]. split; [apply zlen_nonneg|].
    unfold zlen. by rewrite Nat2Z.id, lookup_app_r, Nat.sub_diag by lia.
  - exists [opLoadInput; d; inputCursor st], []. rewrite app_nil_r. done.
  - rewrite (operands_spec _ _ _ i) by (done || apply Hsh). simpl. eexists _, []. rewrite app_nil_r, Z.add_0_r. done.
  - rewrite (operands_spec _ _ _ i) by (done || apply Hsh). simpl. eexists _, []. rewrite app_nil_r, Z.add_0_r. done.
  - rewrite (mapR_slots _ _ i) by done. simpl. eexists _, []. rewrite app_nil_r, Z.add_0_r. done.
Qed.

(** ** Slots *)

Lemma getSlot_spec free next d free' next' : getSlot free next = (d, free', next') → NoDup free → (∀ s, s ∈ free → 0 ≤ s < next) → 0 ≤ next →
  (d ∈ free ∨ d = next) ∧ 0 ≤ d < next' ∧ next ≤ next' ∧ NoDup free' ∧ ∀ s, s ∈ free' → s ∈ free ∧ s ≠ d.
Proof.
  unfold getSlot. destruct free as [|x l _] using rev_ind.
  { simpl. intros [= <- <- <-] _ _ Hn. split; [by right|]. split; [lia|]. split; [lia|]. split; [apply NoDup_nil_2|]. by intros s ?%not_elem_of_nil. }
  rewrite last_snoc, length_app, take_app_le, firstn_all2 by (simpl; lia). intros [= <- <- <-] (Hnd & Hx & _)%NoDup_app Hr Hn.
  assert (x ∈ l ++ [x]) as Hin by (apply elem_of_snoc; by right). specialize (Hr x Hin) as Hrx.
  split; [by left|]. split; [lia|]. split; [lia|]. split; [done|]. intros s Hs. split; [apply elem_of_snoc; by left|]. intros ->. apply (Hx x Hs). left.
Qed.

Section alloc.
Context (nodes : list Node) (lastUse : list Z).
Context (Hsorted : sorted nodes) (Huses : uses_ok nodes lastUse (length nodes)) (Hshape : Forall node_shape nodes).

(** Node [j] is read by node [i] or later. *)
Definition live (j i : nat) : Prop := (j < i)%nat ∧ ∃ u, lastUse !! j = Some u ∧ Z.of_nat i ≤ u.

Lemma live_pred j i : live j (S i) → j ≠ i → live j i.
Proof. intros [? (u & ? & ?)] Hne. split; [lia|]. exists u. split; [done|]. lia. Qed.

Lemma live_child (i : nat) node c : nodes !! i = Some node → c ∈ n_Children node → live (Z.to_nat c) i.
Proof.
  intros E Hc. pose proof (lookup_lt_Some _ _ _ E). specialize (Hsorted i node c E Hc). split; [lia|].
  by apply (proj2 (proj2 Huses) i node).
Qed.

(** Slots of live nodes are distinct and not free; free slots are listed once. *)
Definition slots_ok (i : nat) (S free : list Z) (next : Z) : Prop :=
  length S = length nodes ∧ 0 ≤ next ∧ NoDup free ∧ (∀ s, s ∈ free → 0 ≤ s < next) ∧
  (∀ (j : nat) s, (j < i)%nat → S !! j = Some s → 0 ≤ s < next) ∧
  (∀ j j' s, live j i → live j' i → S !! j = Some s → S !! j' = Some s → j = j') ∧
  (∀ j s, live j i → S !! j = Some s → s ∉ free).

(** The children that die at node [i]. *)
Definition freed_inv (S free : list Z) (i : Z) (l : list Z) (st : list Z * list Z) : Prop :=
  ∃ fs, st.1 = free ++ fs ∧ NoDup fs ∧ (∀ s, s ∈ st.2 ↔ s ∈ fs) ∧
    ∀ s, s ∈ fs → ∃ c, c ∈ l ∧ lastUse !! Z.to_nat c = Some i ∧ S !! Z.to_nat c = Some s.

Lemma free_loop S free (i : nat) node : nodes !! i = Some node → length S = length nodes →
  ∃ st, foldM (free_step lastUse S (Z.of_nat i)) (free, []) (n_Children node) = Ok st ∧
    freed_inv S free (Z.of_nat i) (n_Children node) st.
Proof.
  intros E LS. pose proof (lookup_lt_Some _ _ _ E) as Hi. apply (foldM_rule _ (freed_inv S free (Z.of_nat i))).
  { exists []. rewrite app_nil_r. split_and!; [done|apply NoDup_nil_2|done|]. by intros s ?%not_elem_of_nil. }
  intros l c [fr freed] Hc (fs & Efs & Hnd & Hfs & Hsrc). simpl in *. pose proof (Hsorted i node c E Hc) as Hr.
  destruct (proj2 (proj2 Huses) i node c Hi E Hc) as (u & Eu & _).
  assert (∃ s, S !! Z.to_nat c = Some s) as [s Es] by (apply lookup_lt_is_Some_2; lia).
  rewrite (idx_nat lastUse c u) by (lia || done). simpl.
  assert (freed_inv S free (Z.of_nat i) (l ++ [c]) (fr, freed)) as Hkeep.
  { exists fs. split_and!; [done..|]. intros t Ht. destruct (Hsrc t Ht) as (d & ? & ?). exists d. split; [apply elem_of_snoc; by left|done]. }
  destruct (Z.eqb_spec u (Z.of_nat i)) as [->|Hne]; simpl; [|by eexists].
  rewrite (idx_nat S c s) by (lia || done). simpl. case_decide as Hin; [by eexists|].
  eexists. split; [done|]. exists (fs ++ [s]). simpl. rewrite Efs, (assoc_L (++)). split_and!; [done| | |].
  - apply NoDup_app. split_and!; [done| |apply NoDup_singleton]. intros t Ht ->%list_elem_of_singleton. by apply Hin, Hfs.
  - intros t. rewrite elem_of_cons, elem_of_snoc, Hfs. naive_solver.
  - intros t [Ht| ->]%elem_of_snoc.
    + destruct (Hsrc t Ht) as (d & ? & ?). exists d. split; [apply elem_of_snoc; by left|done].
    + exists c. split; [apply elem_of_snoc; by right|done].
Qed.

(** The slot of a node, and the slots after it. *)
Lemma slots_step (i : nat) node S free next d free' next' st :
  nodes !! i = Some node → slots_ok i S free next → getSlot free next = (d, free', next') →
  freed_inv (<[i := d]> S) free' (Z.of_nat i) (n_Children node) st →
  slots_ok (Datatypes.S i) (<[i := d]> S) st.1 next' ∧ (∀ j s, live j i → S !! j = Some s → s ≠ d) ∧ 0 ≤ d < next' ∧ next ≤ next'.
Proof.
  intros E (LS & Hn & Hnd & Hfr & Hrange & Hdist & Hdead) Hg (fs & -> & Hnfs & _ & Hsrc).
  destruct (getSlot_spec _ _ _ _ _ Hg Hnd Hfr Hn) as (Hd & Hdr & Hnext & Hnd' & Hfree').
  pose proof (lookup_lt_Some _ _ _ E) as Hi.
  assert (∀ j s, live j i → S !! j = Some s → s ≠ d) as Hne.
  { intros j s Hl Es ->. destruct Hd as [Hd| ->]; [by apply (Hdead j d)|]. specialize (Hrange j next (proj1 Hl) Es). lia. }
  assert (∀ j : nat, (j < i)%nat → <[i := d]> S !! j = S !! j) as HS by (intros j Hj; apply list_lookup_insert_ne; lia).
  assert (<[i := d]> S !! i = Some d) as HSi by (apply list_lookup_insert_eq; lia).
  assert (∀ s, s ∈ fs → ∃ c, c ∈ n_Children node ∧ live (Z.to_nat c) i ∧ lastUse !! Z.to_nat c = Some (Z.of_nat i) ∧ S !! Z.to_nat c = Some s) as Hfs.
  { intros s Hs. destruct (Hsrc s Hs) as (c & Hc & Eu & Es). pose proof (live_child i node c E Hc) as Hl.
    rewrite HS in Es by apply Hl. by exists c. }
  split; [|done]. split_and!.
  - by rewrite length_insert.
  - lia.
  - apply NoDup_app. split_and!; [done| |done]. intros s Hs Hs'. destruct (Hfs s Hs') as (c & _ & Hl & _ & Es).
    apply (Hdead _ _ Hl Es). by apply Hfree'.
  - intros s [Hs|Hs]%elem_of_app.
    + destruct (Hfree' s Hs) as [Hs' _]. specialize (Hfr s Hs'). lia.
    + destruct (Hfs s Hs) as (c & _ & Hl & _ & Es). specialize (Hrange _ _ (proj1 Hl) Es). lia.
  - intros j s Hj Es. destruct (decide (j = i)) as [->|Hji]; [by rewrite HSi in Es; simplify_eq|].
    rewrite HS in Es by lia. specialize (Hrange j s ltac:(lia) Es). lia.
  - intros j j' s Hl Hl' Es Es'. destruct (decide (j = i)) as [->|Hj], (decide (j' = i)) as [->|Hj']; [done|..].
    + apply live_pred in Hl'; [|done]. rewrite HSi in Es. rewrite HS in Es' by apply Hl'. simplify_eq. by destruct (Hne j' s).
    + apply live_pred in Hl; [|done]. rewrite HSi in Es'. rewrite HS in Es by apply Hl. simplify_eq. by destruct (Hne j s).
    + apply live_pred in Hl; [|done]. apply live_pred in Hl'; [|done]. rewrite HS in Es by apply Hl. rewrite HS in Es' by apply Hl'. by apply (Hdist j j' s).
  - intros j s Hl Es. rewrite elem_of_app. intros [Hs|Hs].
    + destruct (Hfree' s Hs) as [Hs' Hsd]. destruct (decide (j = i)) as [->|Hj]; [rewrite HSi in Es; by simplify_eq|].
      apply live_pred in Hl; [|done]. rewrite HS in Es by apply Hl. by apply (Hdead j s).
    + destruct (Hfs s Hs) as (c & _ & Hlc & Eu & Ec). destruct (decide (j = i)) as [->|Hj].
      * rewrite HSi in Es. simplify_eq. by destruct (Hne _ _ Hlc Ec).
      * pose proof Hl as [_ (u & Eu' & Hu)]. apply live_pred in Hl; [|done]. rewrite HS in Es by apply Hl.
        pose proof (Hdist _ _ _ Hl Hlc Es Ec) as ->. rewrite Eu in Eu'. simplify_eq. lia.
Qed.

(** ** The program *)

(** The code of the first [i] nodes: an instruction each, whose slot is not that of a node
    read by it or later. *)
Definition program (S : list Z) (codes : list (list Z)) (consts : list (E4 F)) (i : nat) : Prop :=
  length codes = i ∧
  (∀ (j : nat) node code, nodes !! j = Some node → codes !! j = Some code →
     ∃ d, S !! j = Some d ∧ instr S consts (var_count (take j nodes)) node d code) ∧
  (∀ (j k : nat) s, (j < i)%nat → live k j → S !! k = Some s → S !! j ≠ Some s).

Definition cinv (i : nat) (st : cstate) : Prop :=
  slots_ok i (slots st) (freeSlots st) (nextSlot st) ∧ inputCursor st = var_count (take i nodes) ∧
  ∃ codes, bytecode st = concat codes ∧ program (slots st) codes (constants st) i.

Lemma var_count_snoc (l : list Node) node : var_count (l ++ [node]) = var_count l + (if is_var node then 1 else 0).
Proof.
  unfold var_count. rewrite filter_app, zlen_app. f_equal. rewrite filter_cons, filter_nil. by destruct (is_var node).
Qed.

Lemma program_step S codes consts more (i : nat) node d code :
  nodes !! i = Some node → length S = length nodes → program S codes consts i →
  instr (<[i := d]> S) (consts ++ more) (var_count (take i nodes)) node d code →
  (∀ j s, live j i → S !! j = Some s → s ≠ d) →
  program (<[i := d]> S) (codes ++ [code]) (consts ++ more) (Datatypes.S i).
Proof.
  intros E LS (Lc & Hc & Hsep) Hin Hne. pose proof (lookup_lt_Some _ _ _ E) as Hi.
  assert (∀ j : nat, (j < i)%nat → S !! j = <[i := d]> S !! j) as HS by (intros j Hj; symmetry; apply list_lookup_insert_ne; lia).
  assert (<[i := d]> S !! i = Some d) as HSi by (apply list_lookup_insert_eq; lia).
  split_and!.
  - rewrite length_app. simpl. lia.
  - intros j nd cd Ej [Ec|[Hj Ec]]%lookup_app_Some.
    + pose proof (lookup_lt_Some _ _ _ Ec) as Hj. destruct (Hc j nd cd Ej Ec) as (dj & Edj & Hinj). exists dj. rewrite <-HS by lia.
      split; [done|]. apply (instr_mono S _ consts more _ _ _ _ j); [intros c; by apply Hsorted|intros k Hk; apply HS; lia|done].
    + apply list_lookup_singleton_Some in Ec as [? <-]. replace j with i in * by lia. rewrite E in Ej. injection Ej as <-. by exists d.
  - intros j k s Hj Hl Ek. pose proof (proj1 Hl). rewrite <-HS in Ek by lia. destruct (decide (j = i)) as [->|Hji].
    + rewrite HSi. intros [= ->]. by apply (Hne k s).
    + rewrite <-HS by lia. by apply (Hsep j k s); [lia|..].
Qed.

Lemma compile_step_spec (i : nat) node st : nodes !! i = Some node → cinv i st →
  ∃ st', compile_step lastUse st (Z.of_nat i, node) = Ok st' ∧ cinv (Datatypes.S i) st'.
Proof.
  intros E (Hsl & Hcur & codes & Ebc & Hp). unfold compile_step. pose proof (lookup_lt_Some _ _ _ E) as Hi. pose proof Hsl as (LS & _).
  destruct (getSlot (freeSlots st) (nextSlot st)) as [[d free'] next'] eqn:Hg.
  rewrite store_Ok by (unfold zlen; lia). rewrite Nat2Z.id. cbn [mbind res_bind slots bytecode constants inputCursor].
  destruct (emit_spec (mkCstate (bytecode st) (constants st) (<[i := d]> (slots st)) free' next' (inputCursor st)) node d i)
    as (code & more & -> & Hin); [intros c; by apply Hsorted|simpl; rewrite length_insert; lia|by eapply Forall_lookup_1|].
  cbn [mbind res_bind slots bytecode constants inputCursor] in *.
  destruct (free_loop (<[i := d]> (slots st)) free' i node E) as (f & -> & Hf); [by rewrite length_insert|]. simpl. eexists. split; [done|].
  destruct (slots_step i node _ _ _ d free' next' f E Hsl Hg Hf) as (Hsl' & Hne & _).
  split; [done|]. split.
  { simpl. rewrite (take_S_r _ _ _ E), var_count_snoc, Hcur. done. }
  exists (codes ++ [code]). simpl. rewrite Ebc, concat_app. simpl. rewrite app_nil_r. split; [done|].
  rewrite Hcur in Hin. by apply (program_step (slots st) codes (constants st) more i node d code).
Qed.
End alloc.

Lemma Compile_spec (b : ExpressionBoard F M) : Nodes b ≠ [] → sorted (Nodes b) → Forall node_shape (Nodes b) →
  ∃ b' lastUse S codes, Compile b = Ok b' ∧ Nodes b' = Nodes b ∧ ProgramNodesCount b' = zlen (Nodes b) ∧
    uses_ok (Nodes b) lastUse (length (Nodes b)) ∧
    Bytecode b' = concat codes ∧ program (Nodes b) lastUse S codes (Constants b') (length (Nodes b)) ∧
    length S = length (Nodes b) ∧ (∀ (j : nat) s, S !! j = Some s → 0 ≤ s < NumSlots b') ∧
    S !! pred (length (Nodes b)) = Some (ResultSlot b').
Proof.
  intros Hne Hs Hsh. destruct (last_uses_spec _ Hne Hs) as (lastUse & El & Hu).
  assert (0 < length (Nodes b))%nat as Hlen by (destruct (Nodes b); simpl; [done|lia]).
  unfold Compile. rewrite (proj2 (Z.eqb_neq (zlen (Nodes b)) 0)) by (unfold zlen; lia). rewrite El. cbn [mbind res_bind].
  destruct (foldM_enumerate (compile_step lastUse) (cinv (Nodes b) lastUse) (Nodes b)
    (mkCstate [] [] (replicate (length (Nodes b)) 0) [] 0 0)) as (st & -> & Hst).
  - split; [|split; [done|]].
    + split_and!; simpl; [by rewrite length_replicate|lia|apply NoDup_nil_2|by intros s ?%not_elem_of_nil|lia| |].
      * intros j j' s [? _]. lia.
      * intros j s [? _]. lia.
    + exists []. split; [done|]. split_and!; [done|by intros ???? ?|lia].
  - intros k node st Ek Hst. by apply compile_step_spec.
  - destruct Hst as ((LS & _ & _ & _ & Hr & _) & _ & codes & Ebc & Hp).
    destruct (lookup_lt_is_Some_2 (slots st) (pred (length (Nodes b)))) as [r Er]; [lia|].
    cbn [mbind res_bind]. rewrite (idx_nat _ (zlen (Nodes b) - 1) r).
    2:{ unfold zlen. lia. } 2:{ replace (Z.to_nat (zlen (Nodes b) - 1)) with (pred (length (Nodes b))) by (unfold zlen; lia). done. }
    simpl. eexists _, lastUse, (slots st), codes. split; [done|]. split_and!; try done. intros j s Ej. apply (Hr j); [|done].
    rewrite <-LS. by eapply lookup_lt_Some.
Qed.
End code.
End CompilerFacts.
