(* ===== verification/Machine.v ===== *)
(** * Running compiled boards

    [MachineLaws] is what [Evaluate] relies on in a machine: an instruction leaves in its
    slot the value of its node, with a flag that says whether it is kept as base
    elements, and the other slots as they were. Against this interface, running a compiled
    board leaves the value of its last node in the result slot ([run_spec]). The values of
    a slot are functions of the position; a machine holds their part on a chunk. *)

From S2P Require Export CompilerFacts.
Import Utils Fext SmartVectorOps SmartVectorProcess Symbolic SymbolicFacts Board BoardFacts Compiler CompilerFacts.
Import GenericFieldElem (value).

Module Machine.

(** ** Positions in the bytecode *)

Definition at_pc (bc : list Z) (pc : Z) (code : list Z) : Prop := ∃ pre post, bc = pre ++ code ++ post ∧ zlen pre = pc.

Lemma at_idx bc pc code (k : nat) x (z : Z) : at_pc bc pc code → code !! k = Some x → z = pc + Z.of_nat k → idx bc z = Ok x.
Proof.
  intros (pre & post & -> & <-) E ->. pose proof (lookup_lt_Some _ _ _ E). apply idx_nat; [pose proof (zlen_nonneg pre); lia|].
  replace (Z.to_nat (zlen pre + Z.of_nat k)) with (length pre + k)%nat by (unfold zlen; lia).
  rewrite lookup_app_r by lia. replace (length pre + k - length pre)%nat with k by lia. by apply lookup_app_l_Some.
Qed.

Lemma at_concat codes (j : nat) code : codes !! j = Some code → at_pc (concat codes) (zlen (concat (take j codes))) code.
Proof.
  intros E. exists (concat (take j codes)), (concat (drop (S j) codes)). split; [|done].
  rewrite <-(take_drop_middle codes j code E) at 1. by rewrite concat_app.
Qed.

(** ** Slots in a flat memory *)

Section memory.
Context {A : Type} (numSlots chunkSize chunkStart chunkStop : Z).
Context (HL : 0 ≤ chunkStop - chunkStart ≤ chunkSize).
Notation chunkLen := (chunkStop - chunkStart).
Notation view := (view chunkSize chunkStart chunkStop).
Notation write := (write chunkSize chunkStart chunkStop).
Implicit Types (mem l r : list A).

Definition mem_ok mem : Prop := zlen mem = numSlots * chunkSize.

Lemma view_exists mem s : mem_ok mem → 0 ≤ s < numSlots → ∃ l, view mem s = Ok l ∧ zlen l = chunkLen.
Proof.
  unfold mem_ok. intros L Hs. unfold Compiler.view. rewrite slice_Ok by nia. eexists. split; [done|].
  unfold zlen in *. rewrite length_take, length_drop. nia.
Qed.

Lemma in_slice_view mem (a b : Z) f r r' : slice mem a b = Ok r → f r = Ok r' → length r' = length r →
  ∃ mem', in_slice mem a b f = Ok mem' ∧ length mem' = length mem ∧ slice mem' a b = Ok r' ∧
    ∀ k : nat, (Z.of_nat k < a ∨ b ≤ Z.of_nat k) → mem' !! k = mem !! k.
Proof.
  intros Es Ef L. unfold in_slice. rewrite Es. simpl. rewrite Ef. simpl. eexists. split; [done|].
  unfold slice in *. case_decide as D; [|done]. injection Es as Er. assert (length r = Z.to_nat (b - a)) as Lr.
  { rewrite <-Er, length_take, length_drop. unfold zlen in D. lia. }
  assert (length (take (Z.to_nat a) mem ++ r' ++ drop (Z.to_nat b) mem) = length mem) as Lm.
  { rewrite !length_app, length_take, length_drop, L, Lr. unfold zlen in D. lia. }
  split; [done|]. split.
  - rewrite decide_True by (unfold zlen in *; rewrite Lm; lia). f_equal.
    rewrite drop_app_length' by (rewrite length_take; unfold zlen in D; lia). rewrite take_app_length' by lia. done.
  - intros k Hk. destruct (decide (Z.of_nat k < a)).
    + rewrite lookup_app_l by (rewrite length_take; unfold zlen in D; lia). apply lookup_take_lt. lia.
    + rewrite lookup_app_r by (rewrite length_take; lia). rewrite length_take, lookup_app_r by (unfold zlen in D; lia).
      rewrite lookup_drop. f_equal. unfold zlen in D. lia.
Qed.

Lemma slice_same mem mem' (a b : Z) : length mem' = length mem → (∀ k : nat, a ≤ Z.of_nat k < b → mem' !! k = mem !! k) →
  slice mem' a b = slice mem a b.
Proof.
  intros L E. unfold slice, zlen. rewrite L. case_decide as D; [|done]. f_equal. apply list_eq. intros k.
  destruct (decide (k < Z.to_nat (b - a))%nat).
  - rewrite !lookup_take_lt, !lookup_drop by done. apply E. lia.
  - by rewrite !lookup_take_ge by lia.
Qed.

Lemma write_spec mem d f r r' : mem_ok mem → 0 ≤ d < numSlots → view mem d = Ok r → f r = Ok r' → length r' = length r →
  ∃ mem', write mem d f = Ok mem' ∧ mem_ok mem' ∧ view mem' d = Ok r' ∧
    ∀ s l, s ≠ d → view mem s = Ok l → view mem' s = Ok l.
Proof.
  intros Hm Hd Hv Hf Hl. unfold Compiler.view, Compiler.write in *.
  destruct (in_slice_view _ _ _ _ _ _ Hv Hf Hl) as (mem' & E & Lm & Ev & Hk). exists mem'. split; [done|].
  split; [unfold mem_ok, zlen in *; by rewrite Lm|]. split; [done|]. intros s l Hs Es. rewrite <-Es. apply slice_same; [done|].
  intros k Hin. apply Hk. assert (s < d ∨ d < s) as [?|?] by lia; nia.
Qed.
End memory.

(** ** The interface *)

Section machine.
Context {F M : Type} `{ElementLaws F, !ExtOps F, !ExtLaws F}.
Notation Node := (Node F M).
Notation typed := (bool * (Z → E4 F))%type.

Definition lin_flag (fs : list bool) (cs : list Z) : bool := forallb id (zip_with (λ f c, f || (c =? 0)) fs cs).
Definition poly_flag (fs : list bool) : bool :=
  match fs with fx :: fcs => forallb id fcs && (fx || (length fcs =? 1)%nat) | [] => false end.

(** Whether the result of an operator is kept as base elements; [fi] are the flags of the
    inputs, [vars] the number of the input that a variable reads. *)
Definition op_flag (fi : Z → bool) (vars : Z) (op : Operator F M) (fs : list bool) : bool :=
  match op with
  | Constant v => Fext.IsBase (value v)
  | Variable_ _ => fi vars
  | LinComb cs => lin_flag fs cs
  | Product _ => forallb id fs
  | PolyEval => poly_flag fs
  end.

(** The point of a polynomial evaluation is the same at all positions of the chunk. *)
Definition point_ok (start stop : Z) (op : Operator F M) (ts : list typed) : Prop :=
  match op with
  | PolyEval => match ts with x :: _ => ∀ p, start ≤ p < stop → x.2 p = x.2 start | [] => True end
  | _ => True
  end.

Definition op_result (ρ : Z → M → E4 F) (fi : Z → bool) (vars : Z) (op : Operator F M) (ts : list typed) : typed :=
  (op_flag fi vars op ts.*1, λ p, op_value (ρ p) op ((λ t, t.2 p) <$> ts)).

Record MachineLaws {V : Type} (step : Z → V → res (Z * V)) (ok : V → Prop) (holds : V → Z → typed → Prop)
    (bc : list Z) (consts : list (E4 F)) (numSlots start stop : Z) (ρ : Z → M → E4 F) (fi : Z → bool)
    (leaf_ok : Z → Operator F M → Prop) : Prop := {
  ml_ext vm s t t' : holds vm s t → t'.1 = t.1 → (∀ p, start ≤ p < stop → t'.2 p = t.2 p) → holds vm s t';
  ml_exec vm pc node S vars d code ts :
    ok vm → instr S consts vars node d code → at_pc bc pc code → node_shape node → 0 ≤ d < numSlots →
    leaf_ok vars (n_Operator node) → point_ok start stop (n_Operator node) ts →
    length (sources S (n_Children node)) = length (n_Children node) →
    Forall2 (λ s t, s ≠ d ∧ 0 ≤ s < numSlots ∧ holds vm s t) (sources S (n_Children node)) ts →
    ∃ vm', step pc vm = Ok (pc + zlen code, vm') ∧ ok vm' ∧ holds vm' d (op_result ρ fi vars (n_Operator node) ts) ∧
      ∀ s t, s ≠ d → 0 ≤ s < numSlots → holds vm s t → holds vm' s t
}.

(** ** Running a program *)

Section run.
Context {V : Type} (step : Z → V → res (Z * V)) (ok : V → Prop) (holds : V → Z → typed → Prop).
Context (numSlots start stop : Z) (ρ : Z → M → E4 F) (fi : Z → bool) (leaf_ok : Z → Operator F M → Prop).
Context (nodes : list Node) (lastUse : list Z) (S : list Z) (codes : list (list Z)) (consts : list (E4 F)).
Context (HM : MachineLaws step ok holds (concat codes) consts numSlots start stop ρ fi leaf_ok).
Context (Hsorted : sorted nodes) (Hshape : Forall node_shape nodes) (Huses : uses_ok nodes lastUse (length nodes)).
Context (Hprog : program nodes lastUse S codes consts (length nodes)).
Context (LS : length S = length nodes) (HS : ∀ (j : nat) s, S !! j = Some s → 0 ≤ s < numSlots).

(** The flag and the value of each node. *)
Definition node_flags : list bool := board_fold (λ j, op_flag fi (var_count (take j nodes))) nodes.
Definition node_vals (p : Z) : list (E4 F) := board_fold (λ _, op_value (ρ p)) nodes.
Definition node_typed (j : nat) : typed := (default false (node_flags !! j), λ p, default Zero (node_vals p !! j)).

Context (Hleaf : ∀ (j : nat) node, nodes !! j = Some node → leaf_ok (var_count (take j nodes)) (n_Operator node)).
Context (Hpoint : ∀ (j : nat) node, nodes !! j = Some node →
  point_ok start stop (n_Operator node) ((λ c, node_typed (Z.to_nat c)) <$> n_Children node)).

Lemma node_typed_step (j : nat) node : nodes !! j = Some node →
  (node_typed j).1 = (op_result ρ fi (var_count (take j nodes)) (n_Operator node) ((λ c, node_typed (Z.to_nat c)) <$> n_Children node)).1 ∧
  ∀ p, (node_typed j).2 p =
    (op_result ρ fi (var_count (take j nodes)) (n_Operator node) ((λ c, node_typed (Z.to_nat c)) <$> n_Children node)).2 p.
Proof.
  intros E. pose proof (lookup_lt_Some _ _ _ E) as Hj.
  assert (∀ {X} (alg : nat → Operator F M → list X → X) (def : X),
    omap (λ c, board_fold alg (take j nodes) !! Z.to_nat c) (n_Children node) =
      (λ c, default def (board_fold alg nodes !! Z.to_nat c)) <$> n_Children node) as Hch.
  { intros X alg def. assert (∀ c, c ∈ n_Children node → 0 ≤ c < Z.of_nat j) as Hc by (intros c; by apply Hsorted).
    induction (n_Children node) as [|c cs IH]; [done|]. simpl.
    destruct (lookup_lt_is_Some_2 (board_fold alg nodes) (Z.to_nat c)) as [x Ex].
    { rewrite board_fold_length. specialize (Hc c ltac:(left)). lia. }
    rewrite <-board_fold_prefix, lookup_take_lt, Ex by (specialize (Hc c ltac:(left)); lia). simpl. f_equal.
    rewrite board_fold_prefix. apply IH. intros d Hd. apply Hc. by right. }
  unfold node_typed, op_result. cbn [fst snd]. unfold node_flags, node_vals. split; [|intros p];
    rewrite (board_fold_lookup _ _ _ _ E); unfold node_value; simpl; rewrite ?board_fold_length, ?length_take.
  - rewrite Nat.min_l by lia. f_equal. rewrite (Hch _ _ false), <-list_fmap_compose. done.
  - f_equal. rewrite (Hch _ _ Zero), <-list_fmap_compose. done.
Qed.

(** Before node [j]: the nodes that are still to be read are in their slots. *)
Definition run_inv (j : nat) (vm : V) : Prop :=
  ok vm ∧ ∀ (k : nat) s, live lastUse k j → S !! k = Some s → holds vm s (node_typed k).

Lemma run_step (j : nat) vm : (j < length nodes)%nat → run_inv j vm →
  ∃ vm', step (zlen (concat (take j codes))) vm = Ok (zlen (concat (take (Datatypes.S j) codes)), vm') ∧ run_inv (Datatypes.S j) vm'.
Proof.
  intros Hj [Hok Hl]. destruct Hprog as (Lc & Hinstr & Hsep).
  destruct (lookup_lt_is_Some_2 nodes j Hj) as [node E]. destruct (lookup_lt_is_Some_2 codes j) as [code Ec]; [lia|].
  destruct (Hinstr j node code E Ec) as (d & Ed & Hin).
  assert (∀ c, c ∈ n_Children node → 0 ≤ c < Z.of_nat j) as Hc by (intros c; by apply Hsorted).
  assert (Forall2 (λ s t, s ≠ d ∧ 0 ≤ s < numSlots ∧ holds vm s t) (sources S (n_Children node))
    ((λ c, node_typed (Z.to_nat c)) <$> n_Children node)) as HF.
  { apply Forall2_fmap_r, Forall2_same_length_lookup. split; [apply (sources_length S _ j); [done|lia]|]. intros k s c Es Ek.
    rewrite (sources_lookup S _ k c j) in Es by (done || lia). assert (c ∈ n_Children node) as Hin' by (by eapply list_elem_of_lookup_2).
    pose proof (live_child nodes lastUse Hsorted Huses j node c E Hin') as Hlive. split_and!; [|by apply (HS (Z.to_nat c))..|by apply Hl].
    intros ->. by apply (Hsep j (Z.to_nat c) d Hj Hlive Es). }
  destruct (ml_exec _ _ _ _ _ _ _ _ _ _ _ HM vm (zlen (concat (take j codes))) node S (var_count (take j nodes)) d code
    ((λ c, node_typed (Z.to_nat c)) <$> n_Children node) Hok Hin)
    as (vm' & Estep & Hok' & Hd & Hother); [by apply at_concat|by eapply Forall_lookup_1|by apply (HS j)|by apply Hleaf|by apply (Hpoint j)
    |apply (sources_length S _ j); [done|lia]|exact HF|].
  exists vm'. split.
  - rewrite Estep. do 2 f_equal. rewrite (take_S_r _ _ _ Ec), concat_app. simpl. rewrite app_nil_r, zlen_app. done.
  - split; [done|]. intros k s Hlive Es. destruct (decide (k = j)) as [->|Hkj].
    + rewrite Ed in Es. injection Es as <-. destruct (node_typed_step j node E) as [E1 E2].
      by apply (ml_ext _ _ _ _ _ _ _ _ _ _ _ HM _ _ _ (node_typed j) Hd).
    + apply live_pred in Hlive; [|done]. apply Hother; [|by apply (HS k)|by apply Hl].
      intros ->. by apply (Hsep j k d Hj Hlive Es).
Qed.

Lemma run_from (j : nat) vm (fuel : nat) : (j ≤ length nodes)%nat → run_inv j vm → (length nodes - j ≤ fuel)%nat →
  (∀ code, code ∈ codes → code ≠ []) →
  ∃ vm', exec_loop step (zlen (concat codes)) fuel (zlen (concat (take j codes))) vm = Ok vm' ∧ run_inv (length nodes) vm'.
Proof.
  intros Hj Hinv Hf Hcode. revert j vm Hj Hinv Hf. induction fuel as [|fuel IH]; intros j vm Hj Hinv Hf.
  - replace j with (length nodes) in * by lia. simpl. rewrite <-(proj1 Hprog), firstn_all, Z.leb_refl, (proj1 Hprog). by exists vm.
  - destruct (decide (j = length nodes)) as [->|Hne].
    { simpl. rewrite <-(proj1 Hprog), firstn_all, Z.leb_refl, (proj1 Hprog). by exists vm. }
    destruct (run_step j vm ltac:(lia) Hinv) as (vm1 & E & Hinv1). cbn [exec_loop].
    destruct (lookup_lt_is_Some_2 codes j) as [code Ec]; [rewrite (proj1 Hprog); lia|].
    assert (zlen (concat (take j codes)) < zlen (concat codes)) as Hlt.
    { rewrite <-(take_drop_middle codes j code Ec) at 2. rewrite concat_app, zlen_app. simpl. rewrite zlen_app.
      pose proof (Hcode code ltac:(by eapply list_elem_of_lookup_2)). pose proof (zlen_nonneg (concat (drop (Datatypes.S j) codes))).
      destruct code; [done|]. unfold zlen in *. simpl. lia. }
    rewrite (proj2 (Z.leb_gt _ _) Hlt), E. simpl. apply IH; [lia|done|lia].
Qed.

Lemma codes_nonempty code : code ∈ codes → code ≠ [].
Proof.
  intros (j & Ec)%list_elem_of_lookup. destruct Hprog as (Lc & Hinstr & _).
  destruct (lookup_lt_is_Some_2 nodes j) as [node E]; [rewrite <-Lc; by eapply lookup_lt_Some|].
  destruct (Hinstr j node code E Ec) as (d & _ & Hin). unfold instr in Hin. destruct (n_Operator node); naive_solver.
Qed.

Lemma length_codes : (length codes ≤ length (concat codes))%nat.
Proof.
  pose proof codes_nonempty as Hne. revert Hne. clear. induction codes as [|c cs IH]; intros Hne; simpl; [lia|].
  rewrite length_app. specialize (IH ltac:(intros d Hd; apply Hne; by right)). specialize (Hne c ltac:(left)). destruct c; [done|]. simpl. lia.
Qed.

(** The result slot holds the value of the last node. *)
Lemma run_spec vm r : nodes ≠ [] → ok vm → S !! pred (length nodes) = Some r →
  ∃ vm', exec_loop step (zlen (concat codes)) (length (concat codes)) 0 vm = Ok vm' ∧ ok vm' ∧
    holds vm' r (node_typed (pred (length nodes))).
Proof.
  intros Hne Hok Er. pose proof length_codes as Lc. assert (0 < length nodes)%nat by (destruct nodes; simpl; [done|lia]).
  destruct (run_from 0 vm (length (concat codes))) as (vm' & E & Hok' & Hl).
  - lia.
  - split; [done|]. intros k s [? _]. lia.
  - rewrite <-(proj1 Hprog) in *. lia.
  - apply codes_nonempty.
  - exists vm'. split; [done|]. split; [done|]. apply Hl; [|done]. split; [lia|]. exists (zlen nodes). split; [apply Huses|]. unfold zlen. lia.
Qed.
End run.
End machine.
End Machine.
