(* ===== verification/BaseMachine.v ===== *)
(** * Chunks of slots

    What the machines do to the chunk of a slot, as functions of the position: the
    element-wise operations on tabulated functions, the update of a slot, and the loops
    over the operands of an instruction. A slot of either memory holds a function into the
    extension field, through an embedding of its elements. *)

From S2P Require Export Machine.
From Stdlib Require Import Ring.
Import Utils Fext Vectors SmartVector SmartVectorFacts SmartVectorOps SmartVectorProcess SmartVectorArith.
Import Symbolic SymbolicFacts Board BoardFacts Compiler CompilerFacts Machine.

Module Slots.

(** ** Tabulated functions *)

Section tab.
Context (start stop : Z).
Notation n := (Z.to_nat (stop - start)).

Definition tab {A} (h : Z → A) : list A := h <$> seqZ start (stop - start).

Lemma tab_length {A} (h : Z → A) : length (tab h) = n.
Proof. unfold tab. by rewrite length_fmap, length_seqZ. Qed.

Lemma tab_lookup {A} (h : Z → A) (k : nat) : Z.of_nat k < stop - start → tab h !! k = Some (h (start + Z.of_nat k)).
Proof. intros Hk. unfold tab. rewrite list_lookup_fmap, (proj2 (lookup_seqZ _ _ _ _)) by (split; [done|lia]). done. Qed.

Lemma tab_eq {A} (h : Z → A) l : length l = n → (∀ p, start ≤ p < stop → l !! Z.to_nat (p - start) = Some (h p)) → l = tab h.
Proof.
  intros L E. apply list_eq. intros k. destruct (decide (Z.of_nat k < stop - start)).
  - rewrite tab_lookup by done. rewrite <-(E (start + Z.of_nat k)) by lia. f_equal. lia.
  - rewrite !lookup_ge_None_2; [done|rewrite tab_length; lia|lia].
Qed.

Lemma tab_ext {A} (h h' : Z → A) : (∀ p, start ≤ p < stop → h p = h' p) → tab h = tab h'.
Proof. intros E. apply tab_eq; [apply tab_length|]. intros p Hp. rewrite tab_lookup by lia. rewrite <-E by lia. do 2 f_equal. lia. Qed.

Lemma tab_zip {A B C} (f : A → B → C) h h' : zip_with f (tab h) (tab h') = tab (λ p, f (h p) (h' p)).
Proof.
  unfold tab. induction (seqZ start (stop - start)) as [|p l IH]; [done|]. rewrite !fmap_cons. simpl. by f_equal.
Qed.

Lemma tab_map {A B} (f : A → B) h : f <$> tab h = tab (λ p, f (h p)).
Proof. unfold tab. by rewrite <-list_fmap_compose. Qed.

Lemma tab_fill {A} (r : list A) a : length r = n → Fill r a = tab (λ _, a).
Proof. intros L. unfold Fill. apply tab_eq; [by rewrite length_replicate|]. intros p Hp. apply lookup_replicate_2. lia. Qed.

Lemma tab_copy {A} (r : list A) h : length r = n → copy r (tab h) = tab h.
Proof. intros L. unfold copy. rewrite L, drop_ge, app_nil_r, take_ge by (rewrite ?tab_length; lia). done. Qed.

Lemma tab_all {A} (l : list A) : start < stop → length l = n → ∃ h, l = tab h.
Proof.
  intros Hs L. destruct l as [|a l]; [simpl in L; lia|]. exists (λ p, default a ((a :: l) !! Z.to_nat (p - start))).
  apply tab_eq; [done|]. intros p Hp. destruct (lookup_lt_is_Some_2 (a :: l) (Z.to_nat (p - start))) as [x ->]; [rewrite L; lia|done].
Qed.
End tab.

(** ** Element-wise operations *)

(** [inj] embeds the elements of a memory into the extension field. *)
Class Embedding {F} `{ElementOps F, !ExtOps F} {A} `{Scalar A} (inj : A → E4 F) : Prop := {
  inj_zero : inj sc_zero = Zero;
  inj_add x y : inj (sc_add x y) = e4_add (inj x) (inj y);
  inj_sub x y : inj (sc_sub x y) = e4_sub (inj x) (inj y);
  inj_mul x y : inj (sc_mul x y) = e4_mul (inj x) (inj y);
  inj_exp x k : 0 ≤ k → inj (sc_exp x k) = e4_exp (inj x) k
}.

Section embeddings.
Context `{ElementLaws F, !ExtOps F, !ExtLaws F}.

#[export] Instance Lift_embedding : Embedding (A := F) Lift.
Proof. split; intros; simpl; [done|apply Lift_add|apply Lift_sub|apply Lift_mul|by apply Lift_exp]. Qed.

#[export] Instance id_embedding : Embedding (A := E4 F) (λ x, x).
Proof. by split. Qed.
End embeddings.

Section ops.
Context `{ElementLaws F, !ExtOps F, !ExtLaws F}.
Context {A : Type} `{!Scalar A, !VectorOps A, !VectorLaws A} (inj : A → E4 F) `{!Embedding inj}.
Context (start stop : Z).
Notation n := (Z.to_nat (stop - start)).
Notation tab := (tab start stop).
Implicit Types (r : list A) (h g : Z → A).

Add Ring e4_ring_slots : (e4_ring (F := F)).
Add Ring el_ring_slots : (el_ring (F := F)).

Lemma vec_Add_tab r h g : length r = n → vec_Add r (tab h) (tab g) = Ok (tab (λ p, sc_add (h p) (g p))).
Proof. intros L. rewrite vec_Add_spec by (by rewrite ?tab_length). by rewrite tab_zip. Qed.
Lemma vec_Sub_tab r h g : length r = n → vec_Sub r (tab h) (tab g) = Ok (tab (λ p, sc_sub (h p) (g p))).
Proof. intros L. rewrite vec_Sub_spec by (by rewrite ?tab_length). by rewrite tab_zip. Qed.
Lemma vec_Mul_tab r h g : length r = n → vec_Mul r (tab h) (tab g) = Ok (tab (λ p, sc_mul (h p) (g p))).
Proof. intros L. rewrite vec_Mul_spec by (by rewrite ?tab_length). by rewrite tab_zip. Qed.
Lemma vec_ScalarMul_tab r h x : length r = n → vec_ScalarMul r (tab h) x = Ok (tab (λ p, sc_mul (h p) x)).
Proof. intros L. rewrite vec_ScalarMul_spec by (by rewrite ?tab_length). by rewrite tab_map. Qed.
Lemma vec_Exp_tab r h k : length r = n → 0 ≤ k → vec_Exp r (tab h) k = Ok (tab (λ p, sc_exp (h p) k)).
Proof. intros L Hk. rewrite vec_Exp_spec by (by rewrite ?tab_length). by rewrite tab_map. Qed.

(** *** Powers *)

(** The power of an operand, copied when the exponent is one. *)
Lemma power_tab r h k : length r = n → 0 ≤ k →
  ∃ h', (if k =? 1 then Ok (copy r (tab h)) else vec_Exp r (tab h) k) = Ok (tab h') ∧ ∀ p, inj (h' p) = e4_exp (inj (h p)) k.
Proof.
  intros L Hk. destruct (Z.eqb_spec k 1) as [->|_].
  - rewrite tab_copy by done. exists h. split; [done|]. intros p. by rewrite e4_exp_1.
  - rewrite vec_Exp_tab by done. eexists. split; [done|]. intros p. by apply inj_exp.
Qed.

(** The same for an operand that is used in place. *)
Lemma power_of r h k : length r = n → 0 ≤ k →
  ∃ h', (if k =? 1 then Ok (tab h) else vec_Exp r (tab h) k) = Ok (tab h') ∧ ∀ p, inj (h' p) = e4_exp (inj (h p)) k.
Proof.
  intros L Hk. destruct (Z.eqb_spec k 1) as [->|_].
  - exists h. split; [done|]. intros p. by rewrite e4_exp_1.
  - rewrite vec_Exp_tab by done. eexists. split; [done|]. intros p. by apply inj_exp.
Qed.

(** *** Coefficients *)

Lemma coeff_cases {X} (c : Z) (a0 a1 a2 am ad : X) :
  match c with 0 => a0 | 1 => a1 | 2 => a2 | -1 => am | _ => ad end =
  if c =? 0 then a0 else if c =? 1 then a1 else if c =? 2 then a2 else if c =? -1 then am else ad.
Proof. destruct c as [|[|[]|]|[]]; reflexivity. Qed.

Lemma coeff_cases_nonzero {X} (c : Z) (a1 a2 am ad : X) :
  match c with 1 => a1 | 2 => a2 | -1 => am | _ => ad end =
  if c =? 1 then a1 else if c =? 2 then a2 else if c =? -1 then am else ad.
Proof. destruct c as [|[|[]|]|[]]; reflexivity. Qed.

Lemma coeff_cases_sign {X} (c : Z) (a1 am ad : X) :
  match c with 1 => a1 | -1 => am | _ => ad end = if c =? 1 then a1 else if c =? -1 then am else ad.
Proof. destruct c as [|[]|[]]; reflexivity. Qed.

Lemma scale_0 (x : E4 F) : scale x 0 = Zero.
Proof. apply (act_0 (Action := lin_action)). Qed.
Lemma scale_1 (x : E4 F) : scale x 1 = x.
Proof. apply (act_1 (Action := lin_action)). Qed.
Lemma scale_2 (x : E4 F) : scale x 2 = e4_add x x.
Proof. change 2 with (1 + 1). by rewrite (act_add (Action := lin_action)), scale_1. Qed.
Lemma scale_opp (x : E4 F) : scale x (-1) = e4_sub Zero x.
Proof.
  assert (e4_add (scale x (-1)) x = Zero) as E.
  { rewrite <-(scale_1 x) at 2. rewrite <-(act_add (Action := lin_action)) by done. apply scale_0. }
  rewrite <-E. ring.
Qed.

(** The first operand of a linear combination; [mulc] is its product by the coefficient. *)
Lemma first_coeff r h c mulc hm : length r = n → mulc = Ok (tab hm) → (∀ p, inj (hm p) = scale (inj (h p)) c) →
  ∃ h', match c with
        | 0 => Ok (Fill r sc_zero)
        | 1 => Ok (copy r (tab h))
        | 2 => vec_Add r (tab h) (tab h)
        | -1 => let r := Fill r sc_zero in vec_Sub r r (tab h)
        | _ => mulc
        end = Ok (tab h') ∧ ∀ p, inj (h' p) = scale (inj (h p)) c.
Proof.
  intros L Em Hm. rewrite coeff_cases. cbv zeta. rewrite (tab_fill start stop r sc_zero L).
  destruct (Z.eqb_spec c 0) as [->|]; [|destruct (Z.eqb_spec c 1) as [->|]; [|destruct (Z.eqb_spec c 2) as [->|]; [|destruct (Z.eqb_spec c (-1)) as [->|]]]].
  - eexists. split; [done|]. intros p. cbv beta. by rewrite inj_zero, scale_0.
  - rewrite tab_copy by done. eexists. split; [done|]. intros p. by rewrite scale_1.
  - rewrite vec_Add_tab by done. eexists. split; [done|]. intros p. cbv beta. by rewrite inj_add, scale_2.
  - rewrite vec_Sub_tab by (by rewrite tab_length). eexists. split; [done|]. intros p. cbv beta. by rewrite inj_sub, inj_zero, scale_opp.
  - by exists hm.
Qed.

(** A later one, added to what is there. *)
Lemma later_coeff g h c mulc hm : c ≠ 0 → mulc = Ok (tab hm) → (∀ p, inj (hm p) = scale (inj (h p)) c) →
  ∃ h', match c with
        | 1 => vec_Add (tab g) (tab g) (tab h)
        | 2 => r ← vec_Add (tab g) (tab g) (tab h); vec_Add r r (tab h)
        | -1 => vec_Sub (tab g) (tab g) (tab h)
        | _ => t ← mulc; vec_Add (tab g) (tab g) t
        end = Ok (tab h') ∧ ∀ p, inj (h' p) = e4_add (inj (g p)) (scale (inj (h p)) c).
Proof.
  intros Hc Em Hm. rewrite coeff_cases_nonzero, Em.
  destruct (Z.eqb_spec c 1) as [->|]; [|destruct (Z.eqb_spec c 2) as [->|]; [|destruct (Z.eqb_spec c (-1)) as [->|]]].
  - rewrite vec_Add_tab by apply tab_length. eexists. split; [done|]. intros p. cbv beta. by rewrite inj_add, scale_1.
  - rewrite vec_Add_tab by apply tab_length. cbn [mbind res_bind]. rewrite vec_Add_tab by apply tab_length. eexists. split; [done|].
    intros p. cbv beta. rewrite !inj_add, scale_2. ring.
  - rewrite vec_Sub_tab by apply tab_length. eexists. split; [done|]. intros p. cbv beta. rewrite inj_sub, scale_opp. ring.
  - cbn [mbind res_bind]. rewrite vec_Add_tab by apply tab_length. eexists. split; [done|]. intros p. cbv beta. by rewrite inj_add, Hm.
Qed.
End ops.

(** ** Slots of a memory *)

Section slots.
Context `{ElementLaws F, !ExtOps F, !ExtLaws F}.
Context (numSlots chunkSize start stop : Z) (HL : start < stop ≤ start + chunkSize).
Notation n := (Z.to_nat (stop - start)).
Notation tab := (tab start stop).
Notation view := (view chunkSize start stop).
Notation write := (write chunkSize start stop).
Notation mem_ok := (mem_ok numSlots chunkSize).
Notation agree f g := (∀ p, start ≤ p < stop → f p = g p).

(** The slot holds [g] on the chunk. *)
Definition holds_at {A} (inj : A → E4 F) (mem : list A) (s : Z) (g : Z → E4 F) : Prop :=
  ∃ h, view mem s = Ok (tab h) ∧ agree (λ p, inj (h p)) g.

Definition keeps {A} (d : Z) (mem mem' : list A) : Prop := ∀ s l, s ≠ d → view mem s = Ok l → view mem' s = Ok l.

(** Slot [d] now holds [g], the other slots are as they were. *)
Definition updated {A} (inj : A → E4 F) (d : Z) (g : Z → E4 F) (mem mem' : list A) : Prop :=
  mem_ok mem' ∧ holds_at inj mem' d g ∧ keeps d mem mem'.

Section memory.
Context {A : Type} (inj : A → E4 F).
Implicit Types (mem : list A).

Lemma holds_ext mem s g g' : holds_at inj mem s g → agree g g' → holds_at inj mem s g'.
Proof. intros (h & Ev & Eg) E. exists h. split; [done|]. intros p Hp. rewrite <-E by done. by apply Eg. Qed.

Lemma holds_keeps mem mem' d s g : keeps d mem mem' → s ≠ d → holds_at inj mem s g → holds_at inj mem' s g.
Proof. intros K Hs (h & Ev & Eg). exists h. split; [by apply K|done]. Qed.

Lemma keeps_refl d mem : keeps d mem mem.
Proof. by intros s l. Qed.

Lemma keeps_trans d mem mem1 mem2 : keeps d mem mem1 → keeps d mem1 mem2 → keeps d mem mem2.
Proof. intros K1 K2 s l Hs E. by apply K2, K1. Qed.

Lemma updated_ext d g g' mem mem' : updated inj d g mem mem' → agree g g' → updated inj d g' mem mem'.
Proof. intros (? & ? & ?) E. split; [done|]. split; [|done]. by eapply holds_ext. Qed.

Lemma updated_keeps d g mem mem1 mem2 : keeps d mem mem1 → updated inj d g mem1 mem2 → updated inj d g mem mem2.
Proof. intros K (? & ? & ?). split; [done|]. split; [done|]. by eapply keeps_trans. Qed.

Lemma view_length mem s l : view mem s = Ok l → length l = n.
Proof.
  unfold Compiler.view, slice. case_decide as D; [|done]. intros [= <-]. rewrite length_take, length_drop. unfold zlen in D. lia.
Qed.

(** A slot is overwritten. *)
Lemma put mem d f g : mem_ok mem → 0 ≤ d < numSlots →
  (∀ r, length r = n → ∃ h, f r = Ok (tab h) ∧ agree (λ p, inj (h p)) g) →
  ∃ mem', write mem d f = Ok mem' ∧ updated inj d g mem mem'.
Proof.
  intros Hm Hd Hf. destruct (view_exists numSlots chunkSize start stop ltac:(lia) mem d Hm Hd) as (r & Er & _).
  destruct (Hf r (view_length _ _ _ Er)) as (h & Eh & Hg).
  destruct (write_spec numSlots chunkSize start stop ltac:(lia) mem d f r (tab h) Hm Hd Er Eh) as (mem' & -> & Hm' & Ev & K).
  { rewrite tab_length. symmetry. by eapply view_length. }
  exists mem'. split; [done|]. split; [done|]. split; [by exists h|]. exact K.
Qed.

(** A slot is updated from what it holds. *)
Lemma upd mem d f g0 g : mem_ok mem → 0 ≤ d < numSlots → holds_at inj mem d g0 →
  (∀ h0, agree (λ p, inj (h0 p)) g0 → ∃ h, f (tab h0) = Ok (tab h) ∧ agree (λ p, inj (h p)) g) →
  ∃ mem', write mem d f = Ok mem' ∧ updated inj d g mem mem'.
Proof.
  intros Hm Hd (h0 & Ev0 & Eg0) Hf. destruct (Hf h0 Eg0) as (h & Eh & Hg).
  destruct (write_spec numSlots chunkSize start stop ltac:(lia) mem d f _ (tab h) Hm Hd Ev0 Eh) as (mem' & -> & Hm' & Ev & K); [by rewrite !tab_length|].
  exists mem'. split; [done|]. split; [done|]. split; [by exists h|]. exact K.
Qed.

(** The first element of a slot. *)
Lemma first_elem mem s h : mem_ok mem → 0 ≤ s < numSlots → view mem s = Ok (tab h) → idx mem (s * chunkSize) = Ok (h start).
Proof.
  unfold Machine.mem_ok. intros Hm Hs Ev. unfold Compiler.view, slice in Ev. case_decide as D; [|done]. injection Ev as Ev.
  apply idx_nat; [nia|]. apply (f_equal (.!! 0%nat)) in Ev. rewrite tab_lookup, lookup_take_lt, lookup_drop in Ev by lia.
  by rewrite Nat.add_0_r, Z.add_0_r in Ev.
Qed.
End memory.

(** ** Operands *)

Lemma pairs_lookup (srcs params : list Z) (k : nat) s c : srcs !! k = Some s → params !! k = Some c →
  pairs srcs params !! (2 * k)%nat = Some s ∧ pairs srcs params !! (2 * k + 1)%nat = Some c.
Proof.
  unfold pairs. revert params k. induction srcs as [|s0 srcs IH]; intros [|c0 params] k Es Ec; try done.
  destruct k as [|k]; simplify_eq/=; [done|]. replace (k + S (k + 0))%nat with (S (2 * k)) by lia.
  destruct (IH params k Es Ec) as [E1 E2]. simpl. by rewrite <-E1, <-E2.
Qed.

Lemma pairs_length (srcs params : list Z) : length params = length srcs → zlen (pairs srcs params) = 2 * zlen srcs.
Proof.
  unfold pairs, zlen. revert params. induction srcs as [|s0 srcs IH]; intros [|c0 params] L; simplify_eq/=; [done|].
  specialize (IH params L). lia.
Qed.

(** The loop over the operands of an instruction, each with its parameter. *)
Lemma operand_loop {X} (step : X → Z → res X) (pcof : X → Z) (Q : nat → X → Prop) bc pc srcs params op d st :
  at_pc bc pc ([op; d; zlen srcs] ++ pairs srcs params) → length params = length srcs → pcof st = pc + 3 → Q 0%nat st →
  (∀ (k : nat) s c st, srcs !! k = Some s → params !! k = Some c → idx bc (pcof st) = Ok s → idx bc (pcof st + 1) = Ok c → Q k st →
     ∃ st', step st (Z.of_nat k) = Ok st' ∧ pcof st' = pcof st + 2 ∧ Q (S k) st') →
  ∃ st', foldM step st (seqZ 0 (zlen srcs)) = Ok st' ∧ pcof st' = pc + 3 + 2 * zlen srcs ∧ Q (length srcs) st'.
Proof.
  intros Hat L Hpc HQ0 Hstep.
  destruct (foldM_seqZ step (λ k st, pcof st = pc + 3 + 2 * k ∧ Q (Z.to_nat k) st) 0 (zlen srcs) st) as (st' & E & Hpc' & HQ).
  - apply zlen_nonneg.
  - rewrite Hpc. split; [lia|done].
  - intros i st1 Hi [Hpc1 HQ]. unfold zlen in Hi.
    destruct (lookup_lt_is_Some_2 srcs (Z.to_nat i)) as [s Es]; [lia|]. destruct (lookup_lt_is_Some_2 params (Z.to_nat i)) as [c Ec]; [lia|].
    destruct (pairs_lookup _ _ _ _ _ Es Ec) as [E1 E2].
    destruct (Hstep (Z.to_nat i) s c st1 Es Ec) as (st2 & E & Hpc2 & HQ2); [| |done|].
    + apply (at_idx _ _ _ (3 + 2 * Z.to_nat i) s _ Hat); [done|lia].
    + apply (at_idx _ _ _ (3 + (2 * Z.to_nat i + 1)) c _ Hat); [done|lia].
    + rewrite Z2Nat.id in E by lia. exists st2. split; [done|]. split; [lia|]. by replace (Z.to_nat (i + 1)) with (S (Z.to_nat i)) by lia.
  - exists st'. split; [done|]. rewrite Z.add_0_l in *. split; [done|]. by replace (length srcs) with (Z.to_nat (zlen srcs)) by (unfold zlen; lia).
Qed.

(** The fields of an instruction before its operands. *)
Lemma instr_head bc pc x y z rest : at_pc bc pc (x :: y :: z :: rest) → idx bc pc = Ok x ∧ idx bc (pc + 1) = Ok y ∧ idx bc (pc + 2) = Ok z.
Proof.
  intros Hat. split; [|split].
  - apply (at_idx _ _ _ 0 x _ Hat); [done|lia].
  - apply (at_idx _ _ _ 1 y _ Hat); [done|lia].
  - apply (at_idx _ _ _ 2 z _ Hat); [done|lia].
Qed.

(** The value of the first operands. *)
Section partial.
Context {unit : E4 F} {plus : E4 F → E4 F → E4 F} {act : E4 F → Z → E4 F} {ok : Z → Prop} `{!Action unit plus act ok}.

Definition partial (ts : list (bool * (Z → E4 F))) (cs : list Z) (k : nat) (p : Z) : E4 F :=
  total (unit := unit) (plus := plus) (act := act) ((λ t, t.2 p) <$> take k ts) (take k cs).

Lemma partial_0 ts cs p : partial ts cs 0 p = unit.
Proof. done. Qed.

Lemma partial_S ts cs (k : nat) t c p : ts !! k = Some t → cs !! k = Some c →
  partial ts cs (S k) p = plus (partial ts cs k p) (act (t.2 p) c).
Proof.
  intros Et Ec. unfold partial. rewrite (take_S_r _ _ _ Et), (take_S_r _ _ _ Ec), fmap_app. simpl.
  apply (total_app_one (ok := ok)). rewrite length_fmap, !length_take. apply lookup_lt_Some in Et, Ec. lia.
Qed.

Lemma partial_all ts cs p : length cs = length ts →
  partial ts cs (length ts) p = total (unit := unit) (plus := plus) (act := act) ((λ t, t.2 p) <$> ts) cs.
Proof. intros L. unfold partial. by rewrite firstn_all, <-L, firstn_all. Qed.
End partial.
End slots.

(** ** Inputs *)

Section inputs.
Context {A : Type} (start stop : Z) (Hs : 0 ≤ start < stop).
Notation tab := (tab start stop).
Notation wf := SmartVectorFacts.wf.
Implicit Types (v : vec A).

Lemma elems_tab v (h : Z → A) : wf v → Len v = stop - start → (∀ p, start ≤ p < stop → elem_at v (p - start) = Some (h p)) → elems v = tab h.
Proof.
  intros W L E. apply tab_eq; [by rewrite length_elems, L|]. intros p Hp. rewrite elems_lookup by (done || lia). by apply E.
Qed.

(** A part of an input, as a regular vector. *)
Lemma cut_tab v d : wf v → stop ≤ Len v →
  ∃ y, SubVector v start stop = Ok y ∧ wf y ∧ Len y = stop - start ∧ elems y = tab (λ p, default d (elem_at v p)).
Proof.
  intros W L. destruct (SubVector_spec v start stop W Hs L) as (y & -> & Wy & Ly & Ey). exists y. split; [done|]. split; [done|]. split; [done|].
  apply elems_tab; [done..|]. intros p Hp. rewrite Ey by lia. replace (start + (p - start)) with p by lia.
  by destruct (elem_at_Some v p W ltac:(lia)) as [a ->].
Qed.

Lemma slice_tab (l : list A) d : stop ≤ zlen l → slice l start stop = Ok (tab (λ p, default d (l !! Z.to_nat p))).
Proof.
  intros L. rewrite slice_Ok by lia. f_equal. apply tab_eq; [rewrite length_take, length_drop; unfold zlen in L; lia|].
  intros p Hp. rewrite lookup_take_lt, lookup_drop by lia. replace (Z.to_nat start + Z.to_nat (p - start))%nat with (Z.to_nat p) by lia.
  unfold zlen in L. destruct (lookup_lt_is_Some_2 l (Z.to_nat p)) as [a ->]; [lia|done].
Qed.

Lemma rotated_tab (l : list A) o d : wf (Rotated l o) → stop ≤ zlen l →
  copySubVector l o start stop (stop - start) = Ok (tab (λ p, default d (elem_at (Rotated l o) p))).
Proof.
  intros [Hl W] L. simpl in Hl, W. destruct (copySubVector_spec l o start stop) as (r & -> & Lr & Er); [done|lia|lia|lia|]. f_equal.
  apply tab_eq; [unfold zlen in Lr; lia|]. intros p Hp. rewrite Er by lia. simpl. replace (start + (p - start)) with p by lia.
  pose proof (Z.mod_pos_bound (p + o) (zlen l) ltac:(lia)). unfold zlen in *.
  destruct (lookup_lt_is_Some_2 l (Z.to_nat ((p + o) mod Z.of_nat (length l)))) as [a ->]; [lia|done].
Qed.
End inputs.
End Slots.

(** * The machine over the base field

    [vmBase] keeps the values of the nodes as base elements: it satisfies [MachineLaws] on
    inputs and constants that are base. *)

Import Utils Fext Vectors VectorsFacts SmartVector SmartVectorFacts SmartVectorOps SmartVectorProcess SmartVectorArith.
Import Symbolic SymbolicFacts Board BoardFacts Compiler CompilerFacts Machine Slots.
Import GenericFieldElem (value).

Module BaseMachine.

Section base.
Context {F M : Type} `{ElementLaws F, !ExtOps F, !ExtLaws F, !VectorOps F, !VectorLaws F}.
Context (bc : list Z) (consts : list (E4 F)) (numSlots chunkSize : Z) (inputs : list (SmartVector.t F)) (start stop : Z).
Context (HL : start < stop ≤ start + chunkSize) (Hs : 0 ≤ start) (ρ : Z → M → E4 F).
Notation n := (Z.to_nat (stop - start)).
Notation tab := (tab start stop).
Notation mem_ok := (mem_ok numSlots chunkSize).
Notation view := (view chunkSize start stop).
Notation write := (write chunkSize start stop).
Notation holds := (holds_at chunkSize start stop Lift).
Notation updated := (updated numSlots chunkSize start stop Lift).
Notation keeps := (keeps chunkSize start stop).
Notation fresh := (fresh (A := F) start stop).
Notation typed := (bool * (Z → E4 F))%type.
Implicit Types (mem : list F) (g v acc : Z → E4 F).

Add Ring e4_ring_base : (e4_ring (F := F)).

Lemma fresh_length : length fresh = n.
Proof. unfold Compiler.fresh. by rewrite length_replicate. Qed.

Lemma scalar_mul_coeff h c : ∃ hm, vec_ScalarMul fresh (tab h) (el_of_Z c) = Ok (tab hm) ∧ ∀ p, Lift (hm p) = scale (Lift (h p)) c.
Proof.
  rewrite vec_ScalarMul_tab by apply fresh_length. eexists. split; [done|]. intros p. by rewrite scale_Lift, <-Lift_mul.
Qed.

Lemma base_mul_step_spec d pc mem (k : nat) s e v acc : mem_ok mem → 0 ≤ d < numSlots → s ≠ d → 0 ≤ e →
  idx bc pc = Ok s → idx bc (pc + 1) = Ok e → holds mem s v →
  (if decide (k = 0%nat) then acc = λ _, One else holds mem d acc) →
  ∃ mem', base_mul_step bc chunkSize start stop d (pc, mem) (Z.of_nat k) = Ok (pc + 2, mem') ∧
    updated d (λ p, e4_mul (acc p) (e4_exp (v p) e)) mem mem'.
Proof.
  intros Hm Hd Hsd He E1 E2 (h & Ev & Ehv) Hacc. unfold base_mul_step. rewrite E1. cbn [mbind res_bind]. rewrite E2. cbn [mbind res_bind]. rewrite Ev. cbn [mbind res_bind].
  case_decide as Hk.
  - subst. simpl. edestruct (put numSlots chunkSize start stop HL Lift mem d) as (mem' & -> & Hu); [done..| |by eexists].
    intros r Lr. destruct (power_tab Lift start stop r h e Lr He) as (h' & E & Eh'). exists h'. split; [done|].
    intros p Hp. cbv beta. rewrite Eh', Ehv by done. ring.
  - replace (Z.of_nat k =? 0) with false by lia.
    edestruct (upd numSlots chunkSize start stop HL Lift mem d) as (mem' & -> & Hu); [done|done|exact Hacc| |by eexists].
    intros g Eg. cbv beta. destruct (power_of Lift start stop fresh h e fresh_length He) as (h' & E & Eh').
    exists (λ p, sc_mul (g p) (h' p)). split.
    + destruct (e =? 1); [injection E as E; rewrite E|rewrite E; cbn [mbind res_bind]]; apply vec_Mul_tab, tab_length.
    + intros p Hp. by rewrite (inj_mul (inj := Lift)), Eh', Eg, Ehv.
Qed.

Lemma base_lin_step_spec d pc mem (k : nat) s c v acc : mem_ok mem → 0 ≤ d < numSlots → s ≠ d →
  idx bc pc = Ok s → idx bc (pc + 1) = Ok c → holds mem s v →
  (if decide (k = 0%nat) then acc = λ _, Zero else holds mem d acc) →
  ∃ mem', base_lin_step bc chunkSize start stop d (pc, mem) (Z.of_nat k) = Ok (pc + 2, mem') ∧
    updated d (λ p, e4_add (acc p) (scale (v p) c)) mem mem'.
Proof.
  intros Hm Hd Hsd E1 E2 (h & Ev & Ehv) Hacc. unfold base_lin_step. rewrite E1. cbn [mbind res_bind]. rewrite E2. cbn [mbind res_bind]. rewrite Ev. cbn [mbind res_bind].
  case_decide as Hk.
  - subst. simpl. edestruct (put numSlots chunkSize start stop HL Lift mem d) as (mem' & -> & Hu); [done..| |by eexists].
    intros r Lr. destruct (first_coeff Lift start stop r h c (vec_ScalarMul r (tab h) (el_of_Z c)) (λ p, sc_mul (h p) (el_of_Z c))) as (h' & E & Eh');
      [done|by apply vec_ScalarMul_tab|intros p; by rewrite scale_Lift, <-Lift_mul|]. exists h'. split; [exact E|].
    intros p Hp. rewrite Eh', Ehv by done. ring.
  - replace (Z.of_nat k =? 0) with false by lia.
    edestruct (upd numSlots chunkSize start stop HL Lift mem d) as (mem' & -> & Hu); [done|done|exact Hacc| |by eexists].
    intros g Eg. cbv beta. destruct (decide (c = 0)) as [->|Hc].
    + exists g. split; [done|]. intros p Hp. rewrite Eg, scale_0 by done. ring.
    + destruct (scalar_mul_coeff h c) as (hm & Em & Hhm). destruct (later_coeff Lift start stop g h c _ hm Hc Em Hhm) as (h' & E & Eh').
      exists h'. split.
      * rewrite <-E, coeff_cases, coeff_cases_nonzero. by rewrite (proj2 (Z.eqb_neq c 0) Hc).
      * intros p Hp. by rewrite Eh', Eg, Ehv.
Qed.

(** The loop over the operands of a product or a linear combination. *)
Lemma base_loop {unit plus act ok} `{!Action (A := E4 F) unit plus act ok} step op d pc mem srcs cs (ts : list typed) :
  (∀ pc mem (k : nat) s c v acc, mem_ok mem → s ≠ d → ok c → idx bc pc = Ok s → idx bc (pc + 1) = Ok c → holds mem s v →
     (if decide (k = 0%nat) then acc = λ _, unit else holds mem d acc) →
     ∃ mem', step (pc, mem) (Z.of_nat k) = Ok (pc + 2, mem') ∧ updated d (λ p, plus (acc p) (act (v p) c)) mem mem') →
  mem_ok mem → at_pc bc pc ([op; d; zlen srcs] ++ pairs srcs cs) → length cs = length srcs → srcs ≠ [] → Forall ok cs →
  Forall2 (λ s t, s ≠ d ∧ 0 ≤ s < numSlots ∧ t.1 = true ∧ holds mem s t.2) srcs ts →
  ∃ mem', foldM step (pc + 3, mem) (seqZ 0 (zlen srcs)) = Ok (pc + zlen ([op; d; zlen srcs] ++ pairs srcs cs), mem') ∧
    updated d (λ p, total (unit := unit) (plus := plus) (act := act) ((λ t, t.2 p) <$> ts) cs) mem mem'.
Proof.
  intros Hstep Hm Hat L Hne Hok HF. pose proof (Forall2_length _ _ _ HF) as Lt.
  destruct (operand_loop step fst (λ k st, mem_ok st.2 ∧ keeps d mem st.2 ∧
    (k ≠ 0%nat → holds st.2 d (partial (unit := unit) (plus := plus) (act := act) ts cs k))) bc pc srcs cs op d (pc + 3, mem))
    as ([pc' mem'] & E & Hpc & Hm' & K & Hh); [done|done|done| | |].
  - split; [done|]. split; [apply keeps_refl|done].
  - intros k s c [pc1 mem1] Es Ec E1 E2 (Hm1 & K1 & Hh1). destruct (Forall2_lookup_l _ _ _ _ _ HF Es) as (t & Et & Hsd & _ & _ & Hst).
    destruct (Hstep pc1 mem1 k s c t.2 (partial (unit := unit) (plus := plus) (act := act) ts cs k)) as (mem2 & E & Hm2 & Hh2 & K2);
      [done|done|by eapply Forall_lookup_1|done|done|by eapply holds_keeps| |].
    + case_decide as Hk; [by subst|by apply Hh1].
    + exists (pc1 + 2, mem2). split; [done|]. split; [done|]. split; [done|]. split; [by eapply keeps_trans|]. intros _.
      eapply holds_ext; [exact Hh2|]. intros p _. symmetry. by apply (partial_S (ok := ok)).
  - cbn [fst snd] in *. exists mem'. split.
    + rewrite E. do 2 f_equal. rewrite zlen_app, pairs_length, Hpc by done. unfold zlen. simpl. lia.
    + split; [done|]. split; [|done]. eapply holds_ext; [apply Hh; by destruct srcs|]. intros p _. rewrite Lt. apply partial_all. lia.
Qed.

Lemma horner_cons c (l : list (E4 F)) x : horner (c :: l) x = e4_add (e4_mul (horner l x) x) c.
Proof. done. Qed.

(** Horner's rule, from the last coefficient down. *)
Lemma base_polyeval_spec d pc mem srcs (ts : list typed) : mem_ok mem → 0 ≤ d < numSlots → (2 ≤ length srcs)%nat →
  at_pc bc pc ([opPolyEval; d; zlen srcs] ++ srcs) → point_ok (F := F) (M := M) start stop PolyEval ts →
  Forall2 (λ s t, s ≠ d ∧ 0 ≤ s < numSlots ∧ t.1 = true ∧ holds mem s t.2) srcs ts →
  ∃ mem', base_polyeval bc chunkSize start stop d (pc + 3) (zlen srcs) mem = Ok mem' ∧
    updated d (λ p, op_value (ρ p) PolyEval ((λ t, t.2 p) <$> ts)) mem mem'.
Proof.
  intros Hm Hd L Hat Hpt HF. pose proof (Forall2_length _ _ _ HF) as Lt. unfold base_polyeval.
  destruct srcs as [|xs cs]; [simpl in L; lia|]. destruct ts as [|tx tcs]; [done|]. apply Forall2_cons in HF as [(Hxd & Hxr & _ & (hx & Evx & Ehx)) HF].
  simpl in Hpt, L. pose proof (Forall2_length _ _ _ HF) as Lc.
  assert (∀ (k : nat) s z, (xs :: cs) !! k = Some s → z = pc + 3 + Z.of_nat k → idx bc z = Ok s) as Hidx.
  { intros k s z Ek ->. apply (at_idx _ _ _ (3 + k) s _ Hat); [done|lia]. }
  rewrite (Hidx 0%nat xs (pc + 3)) by (done || lia). cbn [mbind res_bind].
  rewrite (first_elem numSlots chunkSize start stop HL mem xs hx) by done. cbn [mbind res_bind].
  set (vals := λ p : Z, (λ t : typed, t.2 p) <$> tcs). set (val := λ (i p : Z), horner (drop (Z.to_nat (i - 1)) (vals p)) (tx.2 p)).
  assert (∀ i s, 1 ≤ i < zlen (xs :: cs) → (xs :: cs) !! Z.to_nat i = Some s →
    ∃ t : typed, tcs !! Z.to_nat (i - 1) = Some t ∧ s ≠ d ∧ holds mem s t.2 ∧
      ∀ p, drop (Z.to_nat (i - 1)) (vals p) = t.2 p :: drop (Z.to_nat (i + 1 - 1)) (vals p)) as Hcoef.
  { intros i s Hi Es. replace (Z.to_nat i) with (S (Z.to_nat (i - 1))) in Es by lia. simpl in Es.
    destruct (Forall2_lookup_l _ _ _ _ _ HF Es) as (t & Et & ? & _ & _ & ?). exists t. split_and!; [done..|]. intros p.
    replace (Z.to_nat (i + 1 - 1)) with (S (Z.to_nat (i - 1))) by lia. apply drop_S. unfold vals. by rewrite list_lookup_fmap, Et. }
  assert (∃ s, (xs :: cs) !! Z.to_nat (zlen (xs :: cs) - 1) = Some s) as [sl El] by (apply lookup_lt_is_Some_2; unfold zlen; simpl; lia).
  rewrite (Hidx _ sl _ El) by (unfold zlen; simpl; lia). cbn [mbind res_bind].
  destruct (Hcoef (zlen (xs :: cs) - 1) sl) as (tl & Etl & Hsl & (hl & Evl & Ehl) & Hdl); [unfold zlen; simpl; lia|done|]. rewrite Evl. cbn [mbind res_bind].
  destruct (put numSlots chunkSize start stop HL Lift mem d (λ vRes, Ok (copy vRes (tab hl))) (val (zlen (xs :: cs) - 1))) as (mem1 & -> & Hm1 & Hh1 & K1);
    [done..| |].
  { intros r Lr. exists hl. rewrite tab_copy by done. split; [done|]. intros p Hp. rewrite Ehl by done. unfold val. rewrite Hdl, drop_ge.
    - unfold horner. simpl. ring.
    - unfold vals. rewrite length_fmap. unfold zlen. simpl. lia. }
  cbn [mbind res_bind].
  destruct (foldM_down (λ mem k, srcSlot ← idx bc (pc + 3 + k); vTmp ← view mem srcSlot;
      write mem d (λ vRes, vRes ← vec_ScalarMul vRes vRes (hx start); vec_Add vRes vRes vTmp))
    (λ i mem', updated d (val i) mem mem') 1 (zlen (xs :: cs) - 2) mem1) as (mem2 & E & Hu).
  - unfold zlen. simpl. lia.
  - by replace (1 + (zlen (xs :: cs) - 2)) with (zlen (xs :: cs) - 1) by lia.
  - intros i mem2 Hi (Hm2 & Hh2 & K2). destruct (lookup_lt_is_Some_2 (xs :: cs) (Z.to_nat i)) as [s Es]; [unfold zlen in Hi; lia|].
    rewrite (Hidx _ s _ Es) by lia. cbn [mbind res_bind]. destruct (Hcoef i s ltac:(lia) Es) as (t & _ & Hsd & (h & Ev & Eh) & Hdr).
    rewrite (K2 s _ Hsd Ev). cbn [mbind res_bind].
    destruct (upd numSlots chunkSize start stop HL Lift mem2 d (λ vRes, vRes ← vec_ScalarMul vRes vRes (hx start); vec_Add vRes vRes (tab h))
      (val (i + 1)) (val i)) as (mem3 & E3 & Hu3); [done..| |].
    + intros g Eg. cbv beta. rewrite vec_ScalarMul_tab by apply tab_length. cbn [mbind res_bind]. rewrite vec_Add_tab by apply tab_length.
      eexists. split; [done|]. intros p Hp. cbv beta. rewrite (inj_add (inj := Lift)), (inj_mul (inj := Lift)), Eg, Eh, Ehx by (done || lia).
      unfold val. by rewrite Hdr, horner_cons, (Hpt p).
    + exists mem3. split; [done|]. by eapply updated_keeps.
  - exists mem2. split; [done|]. exact Hu.
Qed.

(** ** The laws *)

Definition base_leaf (vars : Z) (op : Operator F M) : Prop :=
  match op with
  | Constant v => Fext.IsBase (value v) = true
  | Variable_ m => ∃ w, idx inputs vars = Ok (OfBase w) ∧ SmartVectorFacts.wf w ∧ stop ≤ Len w ∧
      ∀ p, start ≤ p < stop → ρ p m = ext_elem (OfBase w) p
  | _ => True
  end.

Lemma base_input_spec (w : vec F) r : SmartVectorFacts.wf w → stop ≤ Len w → length r = n →
  base_input start stop (OfBase w) r = Ok (tab (base_elem (OfBase w))).
Proof.
  intros W Lw Lr. destruct (cut_tab start stop ltac:(lia) w el_zero W Lw) as (y & Ey & Wy & Ly & Eel).
  destruct w as [a m|l|l o|l pad tot o]; simpl; try (simpl in Ey; rewrite Ey; simpl; rewrite WriteInSlice_spec by (try done; unfold zlen; lia); by rewrite Eel).
  rewrite (slice_tab start stop ltac:(lia) l el_zero Lw). simpl. by rewrite tab_copy.
Qed.

Definition base_holds mem (s : Z) (t : typed) : Prop := t.1 = true ∧ holds mem s t.2.

Lemma all_true (ts : list typed) srcs P : Forall2 (λ (s : Z) t, P s t ∧ t.1 = true) srcs ts → forallb id ts.*1 = true.
Proof. induction 1 as [|s t srcs ts [_ E] _ IH]; [done|]. simpl. by rewrite E. Qed.

Lemma base_flag vars op srcs (ts : list typed) P : base_leaf vars op → length srcs ≠ 0%nat →
  Forall2 (λ (s : Z) t, P s t ∧ t.1 = true) srcs ts → op_flag (λ _, true) vars op ts.*1 = true.
Proof.
  intros Hl Hne HF. destruct op as [v|m|cs|es|]; [done|done| |by eapply all_true|].
  - simpl. unfold lin_flag. clear Hne Hl. revert cs. induction HF as [|s t srcs ts [_ E] _ IH]; intros [|c cs]; try done. simpl. rewrite E. simpl. apply IH.
  - destruct HF as [|s t srcs ts [_ E] HF]; [done|]. simpl. rewrite E, andb_true_r. by eapply all_true.
Qed.

Lemma base_done vars op (ts : list typed) d mem mem' : updated d (λ p, op_value (ρ p) op ((λ t, t.2 p) <$> ts)) mem mem' →
  op_flag (λ _, true) vars op ts.*1 = true →
  mem_ok mem' ∧ base_holds mem' d (op_result ρ (λ _, true) vars op ts) ∧
  ∀ s t, s ≠ d → 0 ≤ s < numSlots → base_holds mem s t → base_holds mem' s t.
Proof.
  intros (Hm & Hh & K) Hf. split; [done|]. split; [by split|]. intros s t Hne _ [Ht Hst]. split; [done|]. by eapply holds_keeps.
Qed.

Lemma base_laws : MachineLaws (vmBase_step bc consts chunkSize inputs start stop) mem_ok base_holds bc consts numSlots start stop ρ (λ _, true) base_leaf.
Proof.
  split.
  { intros mem s t t' [Ht Hst] Ef Ev. split; [by rewrite Ef|]. eapply holds_ext; [exact Hst|]. intros p Hp. by rewrite Ev. }
  intros mem pc node S vars d code ts Hm Hin Hat Hsh Hd Hleaf Hpt Hlen HF.
  assert (Forall2 (λ s t, s ≠ d ∧ 0 ≤ s < numSlots ∧ t.1 = true ∧ holds mem s t.2) (sources S (n_Children node)) ts) as HF' by exact HF.
  destruct (view_exists numSlots chunkSize start stop ltac:(lia) mem d Hm Hd) as (r & Er & _).
  assert (∃ mem', vmBase_step bc consts chunkSize inputs start stop pc mem = Ok (pc + zlen code, mem') ∧
    updated d (λ p, op_value (ρ p) (n_Operator node) ((λ t, t.2 p) <$> ts)) mem mem') as (mem' & E & Hu).
  { unfold instr, node_shape in *. unfold vmBase_step. destruct (n_Operator node) as [v|m|cs|es|].
    - destruct Hin as (ci & -> & Hci & Ec). destruct (instr_head _ _ _ _ _ _ Hat) as (-> & -> & ->). cbn [mbind res_bind opLoadConst]. rewrite Er. simpl.
      rewrite (idx_nat consts ci (value v)) by done. simpl. simpl in Hleaf. apply IsBase_spec in Hleaf.
      edestruct (put numSlots chunkSize start stop HL Lift mem d) as (mem' & -> & Hu); [done..| |by eexists].
      intros r' Lr. eexists. split; [by rewrite (tab_fill start stop r' _ Lr)|]. intros p Hp. by rewrite Hleaf.
    - subst code. destruct (instr_head _ _ _ _ _ _ Hat) as (-> & -> & ->). cbn [mbind res_bind opLoadInput]. rewrite Er. simpl.
      destruct Hleaf as (w & -> & W & Lw & Eρ). simpl.
      edestruct (put numSlots chunkSize start stop HL Lift mem d) as (mem' & -> & Hu); [done..| |by eexists].
      intros r' Lr. eexists. split; [by rewrite (base_input_spec w r' W Lw Lr)|]. intros p Hp. by rewrite Eρ.
    - subst code. destruct (instr_head _ _ _ _ _ _ Hat) as (-> & -> & ->). cbn [mbind res_bind opLinComb]. rewrite Er. cbn [mbind res_bind].
      destruct Hsh as [L Hne]. apply (base_loop (ok := λ _, True)); [|done|done|lia|by destruct (n_Children node), (sources S _)|by apply Forall_true|done].
      intros. by eapply base_lin_step_spec.
    - subst code. destruct (instr_head _ _ _ _ _ _ Hat) as (-> & -> & ->). cbn [mbind res_bind opMul]. rewrite Er. cbn [mbind res_bind].
      destruct Hsh as (L & Hes & Hne). apply (base_loop (ok := Z.le 0)); [|done|done|lia|by destruct (n_Children node), (sources S _)|done|done].
      intros. by eapply base_mul_step_spec.
    - subst code. destruct (instr_head _ _ _ _ _ _ Hat) as (-> & -> & ->). cbn [mbind res_bind opPolyEval]. rewrite Er. cbn [mbind res_bind].
      destruct (base_polyeval_spec d pc mem (sources S (n_Children node)) ts) as (mem' & -> & Hu); [done|done|lia|done|done|done|].
      cbn [mbind res_bind]. exists mem'. split; [|done]. do 2 f_equal. rewrite zlen_app. unfold zlen. simpl. lia. }
  exists mem'. split; [done|]. apply base_done; [done|].
  destruct (n_Operator node) as [v|m|cs|es|] eqn:Eop; try done; eapply (base_flag _ _ (sources S (n_Children node)) _ (λ s t, True)); try done;
    try (unfold node_shape in Hsh; rewrite Eop in Hsh; rewrite Hlen; destruct (n_Children node); simpl in *; naive_solver lia);
    eapply Forall2_impl; try exact HF'; naive_solver.
Qed.
End base.
End BaseMachine.
