(* ===== verification/ExtMachine.v ===== *)
(** * The machine over the extension field

    [vmExt] keeps a slot in its memory of base elements as long as it can; its flags say
    where. It satisfies [MachineLaws] on all inputs, the flag of a node being that of
    [op_flag]. *)

From S2P Require Export BaseMachine.
From Stdlib Require Import Ring.
Import Utils Fext Vectors VectorsFacts SmartVector SmartVectorFacts SmartVectorOps SmartVectorProcess SmartVectorArith SmartVectorMixed.
Import Symbolic SymbolicFacts Board BoardFacts Compiler CompilerFacts Machine Slots BaseMachine.
Import GenericFieldElem (value).

Module ExtMachine.

Section ext.
Context {F M : Type} `{ElementLaws F, !ExtOps F, !ExtLaws F, !VectorOps F, !VectorLaws F, !VectorOps (E4 F), !VectorLaws (E4 F)}.
Context `{!MixedVectorOps F, !MixedVectorLaws F, !MulAcc F, !MulAccLaws F}.
Context (bc : list Z) (consts : list (E4 F)) (numSlots chunkSize : Z) (inputs : list (SmartVector.t F)) (start stop : Z).
Context (HL : start < stop ≤ start + chunkSize) (Hs : 0 ≤ start) (ρ : Z → M → E4 F).
Notation n := (Z.to_nat (stop - start)).
Notation tab := (tab start stop).
Notation mem_ok := (mem_ok numSlots chunkSize).
Notation view := (view chunkSize start stop).
Notation keeps := (keeps chunkSize start stop).
Notation in_base := (holds_at chunkSize start stop Lift).
Notation in_ext := (holds_at chunkSize start stop (λ x : E4 F, x)).
Notation agree f g := (∀ p, start ≤ p < stop → f p = g p).
Notation typed := (bool * (Z → E4 F))%type.
Implicit Types (vm : vmExt F) (g v acc : Z → E4 F).

Add Ring e4_ring_ext : (e4_ring (F := F)).
Add Ring el_ring_ext : (el_ring (F := F)).

(** ** Slots of the two memories *)

Definition ext_ok vm : Prop := mem_ok (memory vm) ∧ mem_ok (baseMemory vm) ∧ zlen (slotIsBase vm) = numSlots.

(** The memory that the flag selects holds [g]. *)
Definition slot_val vm (s : Z) (f : bool) g : Prop := if f then in_base (baseMemory vm) s g else in_ext (memory vm) s g.

Definition ext_holds vm (s : Z) (t : typed) : Prop := slotIsBase vm !! Z.to_nat s = Some t.1 ∧ slot_val vm s t.1 t.2.

Definition keeps_vm (d : Z) vm vm' : Prop :=
  keeps d (baseMemory vm) (baseMemory vm') ∧ keeps d (memory vm) (memory vm') ∧
  ∀ s, s ≠ d → 0 ≤ s → slotIsBase vm' !! Z.to_nat s = slotIsBase vm !! Z.to_nat s.

(** Slot [d] has the value [g] in the memory of flag [f]. *)
Definition assigned (d : Z) (f : bool) g vm vm' : Prop := ext_ok vm' ∧ slot_val vm' d f g ∧ keeps_vm d vm vm'.

Lemma keeps_vm_refl d vm : keeps_vm d vm vm.
Proof. split; [apply keeps_refl|]. split; [apply keeps_refl|done]. Qed.

Lemma keeps_vm_trans d vm vm1 vm2 : keeps_vm d vm vm1 → keeps_vm d vm1 vm2 → keeps_vm d vm vm2.
Proof.
  intros (B1 & E1 & F1) (B2 & E2 & F2). split; [by eapply keeps_trans|]. split; [by eapply keeps_trans|].
  intros s Hd Hr. by rewrite F2, F1.
Qed.

Lemma slot_val_ext vm s f g g' : slot_val vm s f g → agree g g' → slot_val vm s f g'.
Proof. unfold slot_val. destruct f; apply holds_ext. Qed.

Lemma slot_val_keeps vm vm' d s f g : keeps_vm d vm vm' → s ≠ d → slot_val vm s f g → slot_val vm' s f g.
Proof. intros (B & E & _) Hd. unfold slot_val. destruct f; by apply (holds_keeps _ _ _ _ _ _ d). Qed.

Lemma ext_holds_keeps vm vm' d s t : keeps_vm d vm vm' → s ≠ d → 0 ≤ s → ext_holds vm s t → ext_holds vm' s t.
Proof. intros K Hd Hr [Ef Hv]. split; [by rewrite (proj2 (proj2 K))|by eapply slot_val_keeps]. Qed.

Lemma assigned_keeps d f g vm vm1 vm2 : keeps_vm d vm vm1 → assigned d f g vm1 vm2 → assigned d f g vm vm2.
Proof. intros K (? & ? & ?). split; [done|]. split; [done|]. by eapply keeps_vm_trans. Qed.

Lemma assigned_ext d f g g' vm vm' : assigned d f g vm vm' → agree g g' → assigned d f g' vm vm'.
Proof. intros (? & ? & ?) E. split; [done|]. split; [|done]. by eapply slot_val_ext. Qed.

Lemma assigned_flag d f f' g vm vm' : assigned d f g vm vm' → f' = f → assigned d f' g vm vm'.
Proof. by intros ? ->. Qed.

(** ** Writes *)

Lemma base_put vm d f g : ext_ok vm → 0 ≤ d < numSlots →
  (∀ r, length r = n → ∃ h, f r = Ok (tab h) ∧ agree (λ p, Lift (h p)) g) →
  ∃ vm', write_base chunkSize start stop vm d f = Ok vm' ∧ assigned d true g vm vm' ∧ slotIsBase vm' = slotIsBase vm.
Proof.
  intros (Me & Mb & Lf) Hd Hf. unfold write_base.
  destruct (put numSlots chunkSize start stop HL Lift (baseMemory vm) d f g Mb Hd Hf) as (m & -> & Mm & Hh & K). simpl.
  eexists. split; [done|]. split; [|done]. split; [done|]. split; [done|]. split; [done|]. split; [apply keeps_refl|done].
Qed.

Lemma base_upd vm d f g0 g : ext_ok vm → 0 ≤ d < numSlots → slot_val vm d true g0 →
  (∀ h0, agree (λ p, Lift (h0 p)) g0 → ∃ h, f (tab h0) = Ok (tab h) ∧ agree (λ p, Lift (h p)) g) →
  ∃ vm', write_base chunkSize start stop vm d f = Ok vm' ∧ assigned d true g vm vm'.
Proof.
  intros (Me & Mb & Lf) Hd Hv Hf. unfold write_base.
  destruct (upd numSlots chunkSize start stop HL Lift (baseMemory vm) d f g0 g Mb Hd Hv Hf) as (m & -> & Mm & Hh & K). simpl.
  eexists. split; [done|]. split; [done|]. split; [done|]. split; [done|]. split; [apply keeps_refl|done].
Qed.

Lemma ext_put vm d f g : ext_ok vm → 0 ≤ d < numSlots →
  (∀ r, length r = n → ∃ h, f r = Ok (tab h) ∧ agree h g) →
  ∃ vm', write_ext chunkSize start stop vm d f = Ok vm' ∧ assigned d false g vm vm' ∧ slotIsBase vm' = slotIsBase vm.
Proof.
  intros (Me & Mb & Lf) Hd Hf. unfold write_ext.
  destruct (put numSlots chunkSize start stop HL (λ x : E4 F, x) (memory vm) d f g Me Hd Hf) as (m & -> & Mm & Hh & K). simpl.
  eexists. split; [done|]. split; [|done]. split; [done|]. split; [done|]. split; [apply keeps_refl|]. done.
Qed.

Lemma ext_upd vm d f g0 g : ext_ok vm → 0 ≤ d < numSlots → slot_val vm d false g0 →
  (∀ h0, agree h0 g0 → ∃ h, f (tab h0) = Ok (tab h) ∧ agree h g) →
  ∃ vm', write_ext chunkSize start stop vm d f = Ok vm' ∧ assigned d false g vm vm'.
Proof.
  intros (Me & Mb & Lf) Hd Hv Hf. unfold write_ext.
  destruct (upd numSlots chunkSize start stop HL (λ x : E4 F, x) (memory vm) d f g0 g Me Hd Hv Hf) as (m & -> & Mm & Hh & K). simpl.
  eexists. split; [done|]. split; [done|]. split; [done|]. split; [apply keeps_refl|]. done.
Qed.

(** The outcome of an instruction. *)
Definition done_with (d : Z) (t : typed) vm vm' : Prop :=
  ext_ok vm' ∧ ext_holds vm' d t ∧ ∀ s t', s ≠ d → 0 ≤ s < numSlots → ext_holds vm s t' → ext_holds vm' s t'.

Lemma set_flag_spec vm d f : ext_ok vm → 0 ≤ d < numSlots →
  ∃ vm', set_flag vm d f = Ok vm' ∧ ext_ok vm' ∧ slotIsBase vm' !! Z.to_nat d = Some f ∧ keeps_vm d vm vm' ∧
    memory vm' = memory vm ∧ baseMemory vm' = baseMemory vm.
Proof.
  intros (Me & Mb & Lf) Hd. unfold set_flag. rewrite store_Ok by lia. simpl. eexists. split; [done|]. simpl. unfold zlen in Lf.
  split; [split; [done|]; split; [done|]; simpl; unfold zlen; by rewrite length_insert|].
  split; [apply list_lookup_insert_eq; lia|]. split; [|done]. split; [apply keeps_refl|]. split; [apply keeps_refl|].
  intros s Hsd Hr. simpl. apply list_lookup_insert_ne. lia.
Qed.

(** The flag is set after the value ... *)
Lemma flag_after d f g vm vm1 : 0 ≤ d < numSlots → assigned d f g vm vm1 →
  ∃ vm', set_flag vm1 d f = Ok vm' ∧ done_with d (f, g) vm vm'.
Proof.
  intros Hd (Hok & Hv & K). destruct (set_flag_spec vm1 d f Hok Hd) as (vm' & -> & Hok' & Ef & K' & Em & Eb).
  exists vm'. split; [done|]. split; [done|]. split.
  - split; [done|]. unfold slot_val in *. simpl. by rewrite Em, Eb.
  - intros s t' Hsd Hr Hst. apply (ext_holds_keeps vm _ d); [exact (keeps_vm_trans _ _ _ _ K K')|done|lia|done].
Qed.

(** ... or before it. *)
Lemma flag_before d f g vm vm1 vm2 : keeps_vm d vm vm1 → slotIsBase vm1 !! Z.to_nat d = Some f →
  assigned d f g vm1 vm2 → slotIsBase vm2 = slotIsBase vm1 → done_with d (f, g) vm vm2.
Proof.
  intros K Ef (Hok & Hv & K') E. split; [done|]. split; [split; [by rewrite E|done]|].
  intros s t' Hsd Hr Hst. apply (ext_holds_keeps vm _ d); [exact (keeps_vm_trans _ _ _ _ K K')|done|lia|done].
Qed.

(** ** Products *)

Notation fresh_ext := (Compiler.fresh (A := E4 F) start stop).
Notation fresh_base := (Compiler.fresh (A := F) start stop).

Lemma fresh_ext_length : length fresh_ext = n.
Proof. unfold Compiler.fresh. by rewrite length_replicate. Qed.
Lemma fresh_base_length : length fresh_base = n.
Proof. unfold Compiler.fresh. by rewrite length_replicate. Qed.

Lemma vec_MulByElement_tab r h (b : Z → F) : length r = n → vec_MulByElement r (tab h) (tab b) = Ok (tab (λ p, e4_mul (h p) (Lift (b p)))).
Proof.
  intros L. rewrite vec_MulByElement_spec by (by rewrite ?tab_length). rewrite tab_zip. f_equal. apply tab_ext. intros p _. apply mul_by_element_Lift.
Qed.

Lemma vec_ScalarMulByElement_tab r h (x : F) : length r = n → vec_ScalarMulByElement r (tab h) x = Ok (tab (λ p, e4_mul (h p) (Lift x))).
Proof.
  intros L. rewrite vec_ScalarMulByElement_spec by (by rewrite ?tab_length). rewrite tab_map. f_equal. apply tab_ext. intros p _. apply mul_by_element_Lift.
Qed.

(** The flag of an operand, and its chunk in the memory that the flag selects. *)
Lemma source_flag vm s t : 0 ≤ s → ext_holds vm s t → idx (slotIsBase vm) s = Ok t.1.
Proof. intros Hr [Ef _]. by apply idx_nat. Qed.

Lemma ext_mul_step_spec d pc vm (k : nat) rb s e f v acc : ext_ok vm → 0 ≤ d < numSlots → s ≠ d → 0 ≤ s → 0 ≤ e →
  idx bc pc = Ok s → idx bc (pc + 1) = Ok e → ext_holds vm s (f, v) →
  (if decide (k = 0%nat) then acc = λ _, One else slot_val vm d rb acc) →
  let rb' := if decide (k = 0%nat) then f else rb && f in
  ∃ vm', ext_mul_step bc chunkSize start stop d (pc, vm, rb) (Z.of_nat k) = Ok (pc + 2, vm', rb') ∧
    assigned d rb' (λ p, e4_mul (acc p) (e4_exp (v p) e)) vm vm'.
Proof.
  intros Hok Hd Hsd Hr He E1 E2 Hst Hacc rb'. unfold ext_mul_step. rewrite E1. cbn [mbind res_bind]. rewrite E2. cbn [mbind res_bind].
  rewrite (source_flag _ _ _ Hr Hst). cbn [mbind res_bind fst]. destruct Hst as [_ Hv]. simpl in Hv. subst rb'. case_decide as Hk.
  - subst. simpl. destruct f; simpl in Hv; destruct Hv as (h & Ev & Ehv); rewrite Ev; cbn [mbind res_bind].
    + edestruct (base_put vm d) as (vm' & -> & Hu & _); [done..| |by eexists].
      intros r Lr. destruct (power_tab Lift start stop r h e Lr He) as (h' & E & Eh'). exists h'. split; [done|]. intros p Hp. rewrite Eh', Ehv by done. ring.
    + edestruct (ext_put vm d) as (vm' & -> & Hu & _); [done..| |by eexists].
      intros r Lr. destruct (power_tab (λ x : E4 F, x) start stop r h e Lr He) as (h' & E & Eh'). exists h'. split; [done|].
      intros p Hp. rewrite Eh', Ehv by done. ring.
  - replace (Z.of_nat k =? 0) with false by lia. destruct f; simpl in Hv; destruct Hv as (h & Ev & Ehv); rewrite Ev; cbn [mbind res_bind].
    + destruct (power_of Lift start stop fresh_base h e fresh_base_length He) as (h' & -> & Eh'). cbn [mbind res_bind]. rewrite andb_true_r. destruct rb.
      * edestruct (base_upd vm d (λ r, vec_Mul r r (tab h'))) as (vm' & -> & Hu); [done|done|exact Hacc| |by eexists].
        intros g Eg. cbv beta. rewrite vec_Mul_tab by apply tab_length. eexists. split; [done|]. intros p Hp. cbv beta.
        by rewrite (inj_mul (inj := Lift)), Eh', Eg, Ehv.
      * edestruct (ext_upd vm d (λ r, vec_MulByElement r r (tab h'))) as (vm' & -> & Hu); [done|done|exact Hacc| |by eexists].
        intros g Eg. cbv beta. rewrite vec_MulByElement_tab by apply tab_length. eexists. split; [done|]. intros p Hp. cbv beta. by rewrite Eh', Eg, Ehv.
    + destruct (power_of (λ x : E4 F, x) start stop fresh_ext h e fresh_ext_length He) as (h' & -> & Eh'). cbn [mbind res_bind]. rewrite andb_false_r. destruct rb.
      * simpl in Hacc. destruct Hacc as (g & Eg & Hg). rewrite Eg. cbn [mbind res_bind].
        edestruct (ext_put vm d (λ r, vec_MulByElement r (tab h') (tab g))) as (vm' & -> & Hu & _); [done..| |by eexists].
        intros r Lr. rewrite vec_MulByElement_tab by done. eexists. split; [done|]. intros p Hp. cbv beta. rewrite Eh', Hg, Ehv by done. ring.
      * edestruct (ext_upd vm d (λ r, vec_Mul r r (tab h'))) as (vm' & -> & Hu); [done|done|exact Hacc| |by eexists].
        intros g Eg. cbv beta. rewrite vec_Mul_tab by apply tab_length. eexists. split; [done|]. intros p Hp. cbv beta. simpl. by rewrite Eh', Eg, Ehv.
Qed.

(** ** Linear combinations *)

Lemma base_coeff r h c : length r = n → ∃ hm, vec_ScalarMul r (tab h) (el_of_Z c) = Ok (tab hm) ∧ ∀ p, Lift (hm p) = scale (Lift (h p)) c.
Proof.
  intros L. rewrite vec_ScalarMul_tab by done. eexists. split; [done|]. intros p. by rewrite scale_Lift, <-Lift_mul.
Qed.

Lemma ext_coeff r h c : length r = n → ∃ hm, vec_ScalarMulByElement r (tab h) (el_of_Z c) = Ok (tab hm) ∧ ∀ p, hm p = scale (h p) c.
Proof.
  intros L. rewrite vec_ScalarMulByElement_tab by done. eexists. split; [done|]. intros p. by rewrite scale_Lift.
Qed.

Lemma ext_lin_first_spec d vm s c f v : ext_ok vm → 0 ≤ d < numSlots → ext_holds vm s (f, v) →
  ∃ vm', ext_lin_first chunkSize start stop d vm s c f = Ok (vm', f || (c =? 0)) ∧ assigned d (f || (c =? 0)) (λ p, scale (v p) c) vm vm'.
Proof.
  intros Hok Hd [_ Hv]. simpl in Hv. unfold ext_lin_first. destruct f; simpl in Hv; destruct Hv as (h & Ev & Ehv); rewrite Ev; cbn [mbind res_bind orb].
  - edestruct (base_put vm d) as (vm' & -> & Hu & _); [done..| |by eexists].
    intros r Lr. destruct (base_coeff r h c Lr) as (hm & Em & Hhm). destruct (first_coeff Lift start stop r h c _ hm Lr Em Hhm) as (h' & E & Eh').
    exists h'. split; [exact E|]. intros p Hp. cbv beta. by rewrite Eh', Ehv.
  - destruct (Z.eqb_spec c 0) as [->|Hc].
    + edestruct (base_put vm d) as (vm' & -> & Hu & _); [done..| |by eexists].
      intros r Lr. eexists. split; [by rewrite (tab_fill start stop r _ Lr)|]. intros p Hp. cbv beta. by rewrite scale_0.
    + match goal with |- context [write_ext _ _ _ _ _ ?w] => destruct (ext_put vm d w (λ p, scale (v p) c)) as (vm' & -> & Hu & _) end; [done..| |by eexists].
      intros r Lr. destruct (ext_coeff r h c Lr) as (hm & Em & Hhm). destruct (first_coeff (λ x : E4 F, x) start stop r h c _ hm Lr Em Hhm) as (h' & E & Eh').
      exists h'. split.
      * cbv beta. rewrite <-E, !coeff_cases. by rewrite (proj2 (Z.eqb_neq c 0) Hc).
      * intros p Hp. by rewrite Eh', Ehv.
Qed.

Lemma add_to_base_tab (g : Z → E4 F) b : add_to_base (tab g) (tab b) = tab (λ p, e4_add (g p) (Lift (b p))).
Proof. unfold add_to_base. rewrite tab_zip. apply tab_ext. intros p _. apply AddByBase_Lift. Qed.

Lemma sub_from_base_tab (g : Z → E4 F) b : sub_from_base (tab g) (tab b) = tab (λ p, e4_sub (g p) (Lift (b p))).
Proof.
  unfold sub_from_base. rewrite tab_zip. apply tab_ext. intros p _. rewrite e4_sub_spec. unfold Lift. simpl. f_equal; ring.
Qed.

(** A base operand added to an extension result. *)
Lemma ext_add_base (g : Z → E4 F) h c : ∃ h', match c with
    | 1 => add_to_base (tab g) (tab h)
    | 2 => add_to_base (add_to_base (tab g) (tab h)) (tab h)
    | -1 => sub_from_base (tab g) (tab h)
    | _ => add_to_base (tab g) ((λ b, el_mul b (el_of_Z c)) <$> tab h)
    end = tab h' ∧ ∀ p, h' p = e4_add (g p) (scale (Lift (h p)) c).
Proof.
  rewrite coeff_cases_nonzero, tab_map, !add_to_base_tab, sub_from_base_tab.
  destruct (Z.eqb_spec c 1) as [->|]; [|destruct (Z.eqb_spec c 2) as [->|]; [|destruct (Z.eqb_spec c (-1)) as [->|]]];
    (eexists; split; [done|]; intros p; cbv beta).
  - by rewrite scale_1.
  - rewrite scale_2. ring.
  - rewrite scale_opp. ring.
  - by rewrite scale_Lift, Lift_mul.
Qed.

Lemma ext_lin_base_spec d vm h c rb acc : ext_ok vm → 0 ≤ d < numSlots → c ≠ 0 → slot_val vm d rb acc →
  ∃ vm', ext_lin_base chunkSize start stop d vm (tab h) c rb = Ok vm' ∧ assigned d rb (λ p, e4_add (acc p) (scale (Lift (h p)) c)) vm vm'.
Proof.
  intros Hok Hd Hc Hacc. unfold ext_lin_base. destruct rb; simpl in Hacc.
  - edestruct (base_upd vm d) as (vm' & -> & Hu); [done|done|exact Hacc| |by eexists].
    intros g Eg. cbv beta. destruct (base_coeff fresh_base h c fresh_base_length) as (hm & Em & Hhm).
    destruct (later_coeff Lift start stop g h c _ hm Hc Em Hhm) as (h' & E & Eh'). exists h'. split; [exact E|].
    intros p Hp. cbv beta. by rewrite Eh', Eg.
  - edestruct (ext_upd vm d) as (vm' & -> & Hu); [done|done|exact Hacc| |by eexists].
    intros g Eg. cbv beta. destruct (ext_add_base g h c) as (h' & E & Eh'). exists h'. split; [by rewrite E|].
    intros p Hp. by rewrite Eh', Eg.
Qed.

(** A base result becomes an extension result. *)
Lemma scatter_spec vm d acc : ext_ok vm → 0 ≤ d < numSlots → slot_val vm d true acc →
  ∃ vm', scatterBaseToExt chunkSize start stop vm d = Ok vm' ∧ assigned d false acc vm vm'.
Proof.
  intros Hok Hd (h & Ev & Eh). unfold scatterBaseToExt. rewrite Ev. cbn [mbind res_bind].
  edestruct (ext_put vm d) as (vm' & -> & Hu & _); [done..| |by eexists].
  intros r Lr. destruct (tab_all start stop r ltac:(lia) Lr) as [g ->]. rewrite tab_zip. eexists. split; [done|]. exact Eh.
Qed.

(** The result in the extension memory, wherever it was. *)
Lemma to_ext vm d rb acc : ext_ok vm → 0 ≤ d < numSlots → slot_val vm d rb acc →
  ∃ vm', (if rb then scatterBaseToExt chunkSize start stop vm d else Ok vm) = Ok vm' ∧ assigned d false acc vm vm'.
Proof.
  intros Hok Hd Hacc. destruct rb; [by apply scatter_spec|]. exists vm. split; [done|]. split; [done|]. split; [done|]. apply keeps_vm_refl.
Qed.

Lemma ext_lin_step_spec d pc vm (k : nat) rb s c f v acc : ext_ok vm → 0 ≤ d < numSlots → s ≠ d → 0 ≤ s →
  idx bc pc = Ok s → idx bc (pc + 1) = Ok c → ext_holds vm s (f, v) →
  (if decide (k = 0%nat) then acc = λ _, Zero else slot_val vm d rb acc) →
  let rb' := if decide (k = 0%nat) then f || (c =? 0) else rb && (f || (c =? 0)) in
  ∃ vm', ext_lin_step bc chunkSize start stop d (pc, vm, rb) (Z.of_nat k) = Ok (pc + 2, vm', rb') ∧
    assigned d rb' (λ p, e4_add (acc p) (scale (v p) c)) vm vm'.
Proof.
  intros Hok Hd Hsd Hr E1 E2 Hst Hacc rb'. unfold ext_lin_step. rewrite E1. cbn [mbind res_bind]. rewrite E2. cbn [mbind res_bind].
  rewrite (source_flag _ _ _ Hr Hst). cbn [mbind res_bind fst]. subst rb'. case_decide as Hk.
  { subst. simpl. destruct (ext_lin_first_spec d vm s c f v Hok Hd Hst) as (vm' & -> & Hu). simpl. exists vm'. split; [done|].
    eapply assigned_ext; [exact Hu|]. intros p _. cbv beta. ring. }
  replace (Z.of_nat k =? 0) with false by lia. destruct (Z.eqb_spec c 0) as [->|Hc].
  { rewrite orb_true_r, andb_true_r. exists vm. split; [done|]. split; [done|]. split; [|apply keeps_vm_refl].
    eapply slot_val_ext; [exact Hacc|]. intros p _. rewrite scale_0. ring. }
  rewrite orb_false_r. destruct Hst as [_ Hv]. simpl in Hv. destruct f; simpl in Hv; destruct Hv as (h & Ev & Ehv); rewrite Ev; cbn [mbind res_bind].
  - rewrite andb_true_r. destruct (ext_lin_base_spec d vm h c rb acc Hok Hd Hc Hacc) as (vm' & -> & Hu). cbn [mbind res_bind]. exists vm'. split; [done|].
    eapply assigned_ext; [exact Hu|]. intros p Hp. cbv beta. by rewrite Ehv.
  - rewrite andb_false_r. destruct (to_ext vm d rb acc Hok Hd Hacc) as (vm1 & -> & Hok1 & Hv1 & K1). cbn [mbind res_bind].
    edestruct (ext_upd vm1 d) as (vm' & -> & Hu); [done|done|exact Hv1| |eexists; split; [done|]; by eapply assigned_keeps].
    intros g Eg. cbv beta. destruct (ext_coeff fresh_ext h c fresh_ext_length) as (hm & Em & Hhm).
    destruct (later_coeff (λ x : E4 F, x) start stop g h c _ hm Hc Em Hhm) as (h' & E & Eh'). exists h'. split; [exact E|].
    intros p Hp. by rewrite Eh', Eg, Ehv.
Qed.

(** ** The loops over the operands *)

(** The flag of the first operands: [fl] is what one of them allows. *)
Definition partial_flag (fl : bool → Z → bool) (ts : list typed) (cs : list Z) (k : nat) : bool :=
  forallb id (zip_with fl (take k ts.*1) (take k cs)).

Lemma partial_flag_S fl ts cs (k : nat) t c : ts !! k = Some t → cs !! k = Some c →
  partial_flag fl ts cs (S k) = partial_flag fl ts cs k && fl t.1 c.
Proof.
  intros Et Ec. assert (ts.*1 !! k = Some t.1) as Ef by (by rewrite list_lookup_fmap, Et). unfold partial_flag.
  rewrite (take_S_r _ _ _ Ef), (take_S_r _ _ _ Ec), zip_with_app, forallb_app.
  - simpl. by rewrite andb_true_r.
  - rewrite !length_take. apply lookup_lt_Some in Ef, Ec. lia.
Qed.

Lemma ext_loop {unit plus act ok} `{!Action (A := E4 F) unit plus act ok} fl step op d pc vm srcs cs (ts : list typed) :
  (∀ pc vm (k : nat) rb s c f v acc, ext_ok vm → s ≠ d → 0 ≤ s → ok c → idx bc pc = Ok s → idx bc (pc + 1) = Ok c → ext_holds vm s (f, v) →
     (if decide (k = 0%nat) then acc = λ _, unit else slot_val vm d rb acc) →
     let rb' := if decide (k = 0%nat) then fl f c else rb && fl f c in
     ∃ vm', step (pc, vm, rb) (Z.of_nat k) = Ok (pc + 2, vm', rb') ∧ assigned d rb' (λ p, plus (acc p) (act (v p) c)) vm vm') →
  ext_ok vm → at_pc bc pc ([op; d; zlen srcs] ++ pairs srcs cs) → length cs = length srcs → srcs ≠ [] → Forall ok cs →
  Forall2 (λ s t, s ≠ d ∧ 0 ≤ s < numSlots ∧ ext_holds vm s t) srcs ts →
  let flag := forallb id (zip_with fl ts.*1 cs) in
  ∃ vm', foldM step (pc + 3, vm, false) (seqZ 0 (zlen srcs)) = Ok (pc + zlen ([op; d; zlen srcs] ++ pairs srcs cs), vm', flag) ∧
    assigned d flag (λ p, total (unit := unit) (plus := plus) (act := act) ((λ t, t.2 p) <$> ts) cs) vm vm'.
Proof.
  intros Hstep Hok Hat L Hne Hc HF flag. pose proof (Forall2_length _ _ _ HF) as Lt.
  destruct (operand_loop step (λ st, st.1.1) (λ k st, ext_ok st.1.2 ∧ keeps_vm d vm st.1.2 ∧ (k ≠ 0%nat → st.2 = partial_flag fl ts cs k ∧
    slot_val st.1.2 d st.2 (partial (unit := unit) (plus := plus) (act := act) ts cs k))) bc pc srcs cs op d (pc + 3, vm, false))
    as ([[pc' vm'] rb'] & E & Hpc & Hok' & K & Hh); [done|done|done| | |].
  - split; [done|]. split; [apply keeps_vm_refl|done].
  - intros k s c [[pc1 vm1] rb1] Es Ec E1 E2 (Hok1 & K1 & Hh1). cbn [fst snd] in *.
    destruct (Forall2_lookup_l _ _ _ _ _ HF Es) as ([f v] & Et & Hsd & Hr & Hst).
    destruct (Hstep pc1 vm1 k rb1 s c f v (partial (unit := unit) (plus := plus) (act := act) ts cs k)) as (vm2 & E & Hok2 & Hv2 & K2);
      [done|done|lia|by eapply Forall_lookup_1|done|done|apply (ext_holds_keeps vm _ d); (done || lia)| |].
    + case_decide as Hk; [by subst|by apply Hh1].
    + eexists. split; [exact E|]. split; [done|]. cbn [fst snd]. split; [done|]. split; [by eapply keeps_vm_trans|]. intros _. split.
      * rewrite (partial_flag_S _ _ _ _ _ _ Et Ec). simpl. case_decide as Hk; [by subst|]. by rewrite (proj1 (Hh1 Hk)).
      * eapply slot_val_ext; [exact Hv2|]. intros p _. symmetry. by apply (partial_S (ok := ok) ts cs k (f, v)).
  - cbn [fst snd] in *. destruct (Hh ltac:(by destruct srcs)) as [Hf Hv].
    assert (rb' = flag) as Ef. { rewrite Hf. unfold partial_flag, flag. by rewrite <-L, !firstn_all2 by (rewrite ?length_fmap; lia). }
    exists vm'. split.
    + rewrite E. do 2 f_equal; [|done]. f_equal. rewrite zlen_app, pairs_length, Hpc by done. unfold zlen. simpl. lia.
    + rewrite <-Ef. split; [done|]. split; [|done]. eapply slot_val_ext; [exact Hv|]. intros p _. rewrite Lt. apply partial_all. lia.
Qed.

(** ** Products and linear combinations of two base operands *)

(** What the fast paths read: the operands, their parameters and whether both are base. *)
Lemma two_operands op d pc vm srcs cs (ts : list typed) : zlen srcs = 2 → length cs = length srcs →
  at_pc bc pc ([op; d; zlen srcs] ++ pairs srcs cs) → Forall2 (λ s t, s ≠ d ∧ 0 ≤ s < numSlots ∧ ext_holds vm s t) srcs ts →
  ∃ s0 c0 s1 c1 t0 t1, cs = [c0; c1] ∧ ts = [t0; t1] ∧
    idx bc (pc + 3) = Ok s0 ∧ idx bc (pc + 3 + 1) = Ok c0 ∧ idx bc (pc + 3 + 2) = Ok s1 ∧ idx bc (pc + 3 + 3) = Ok c1 ∧
    ext_holds vm s0 t0 ∧ ext_holds vm s1 t1 ∧ idx (slotIsBase vm) s0 = Ok t0.1 ∧ idx (slotIsBase vm) s1 = Ok t1.1.
Proof.
  intros L2 L Hat HF. destruct srcs as [|s0 [|s1 [|]]]; unfold zlen in L2; try (simpl in L2; lia).
  destruct cs as [|c0 [|c1 [|]]]; try done. apply Forall2_cons_inv_l in HF as (t0 & ts' & (_ & R0 & H0') & HF & ->).
  apply Forall2_cons_inv_l in HF as (t1 & ts'' & (_ & R1 & H1') & HF & ->). apply Forall2_nil_inv_l in HF as ->.
  exists s0, c0, s1, c1, t0, t1. split; [done|]. split; [done|].
  split; [apply (at_idx _ _ _ 3 s0 _ Hat); [done|lia]|]. split; [apply (at_idx _ _ _ 4 c0 _ Hat); [done|lia]|].
  split; [apply (at_idx _ _ _ 5 s1 _ Hat); [done|lia]|]. split; [apply (at_idx _ _ _ 6 c1 _ Hat); [done|lia]|].
  split; [done|]. split; [done|]. split; apply source_flag; (done || lia).
Qed.

Lemma base_view vm s v : ext_holds vm s (true, v) → ∃ h, view (baseMemory vm) s = Ok (tab h) ∧ agree (λ p, Lift (h p)) v.
Proof. by intros [_ Hv]. Qed.

(** An element-wise operation on two base operands. *)
Lemma two_base vm d h0 h1 v0 v1 (vop : list F → list F → list F → res (list F)) (fop : F → F → F) eop : ext_ok vm → 0 ≤ d < numSlots →
  (∀ r h0 h1, length r = n → vop r (tab h0) (tab h1) = Ok (tab (λ p, fop (h0 p) (h1 p)))) → (∀ a b, Lift (fop a b) = eop (Lift a) (Lift b)) →
  agree (λ p, Lift (h0 p)) v0 → agree (λ p, Lift (h1 p)) v1 →
  ∃ vm' vm'', write_base chunkSize start stop vm d (λ r, vop r (tab h0) (tab h1)) = Ok vm' ∧ set_flag vm' d true = Ok vm'' ∧
    done_with d (true, λ p, eop (v0 p) (v1 p)) vm vm''.
Proof.
  intros Hok Hd Hop Hlift Eh0 Eh1.
  destruct (base_put vm d (λ r, vop r (tab h0) (tab h1)) (λ p, eop (v0 p) (v1 p)) Hok Hd) as (vm' & E & Hu & _).
  { intros r Lr. rewrite Hop by done. eexists. split; [done|]. intros p Hp. cbv beta. by rewrite Hlift, Eh0, Eh1. }
  destruct (flag_after d true _ vm vm' Hd Hu) as (vm'' & Ef & Hdone). by exists vm', vm''.
Qed.

(** The end of the general path. *)
Lemma loop_done {X} (loop : res (X * vmExt F * bool)) d pc vm vm' f g : 0 ≤ d < numSlots → loop = Ok (pc, vm', f) → assigned d f g vm vm' →
  ∃ vm'', (r ← loop; let '(pc, vm, resIsBase) := r in vm ← set_flag vm d resIsBase; Ok (pc, vm)) = Ok (pc, vm'') ∧ done_with d (f, g) vm vm''.
Proof.
  intros Hd -> Hu. cbn [mbind res_bind]. destruct (flag_after d f g vm vm' Hd Hu) as (vm'' & -> & Hdone). by exists vm''.
Qed.

Lemma done_ext d f f' g g' vm vm' : done_with d (f, g) vm vm' → f = f' → agree g g' → done_with d (f', g') vm vm'.
Proof.
  intros (Hok & [Ef Hv] & K) <- Eg. split; [done|]. split; [|done]. split; [done|]. by eapply slot_val_ext.
Qed.

Section two.
Context (d pc : Z) (vm : vmExt F) (srcs cs : list Z) (ts : list typed).
Context (Hok : ext_ok vm) (Hd : 0 ≤ d < numSlots) (Lc : length cs = length srcs) (Hne : srcs ≠ []).
Context (HF : Forall2 (λ s t, s ≠ d ∧ 0 ≤ s < numSlots ∧ ext_holds vm s t) srcs ts).

Lemma ext_mul_spec : at_pc bc pc ([opMul; d; zlen srcs] ++ pairs srcs cs) → Forall (Z.le 0) cs →
  ∃ vm', ext_mul bc chunkSize start stop d (pc + 3) (zlen srcs) vm = Ok (pc + zlen ([opMul; d; zlen srcs] ++ pairs srcs cs), vm') ∧
    done_with d (forallb id ts.*1, λ p, total (unit := One) (plus := e4_mul) (act := e4_exp) ((λ t, t.2 p) <$> ts) cs) vm vm'.
Proof.
  intros Hat Hcs. destruct (ext_loop (ok := Z.le 0) (λ f _, f) (ext_mul_step bc chunkSize start stop d) opMul d pc vm srcs cs ts) as (vm1 & E1 & Hu1); try done.
  { intros. by eapply ext_mul_step_spec. }
  assert (forallb id (zip_with (λ f _, f) ts.*1 cs) = forallb id ts.*1) as Hflag.
  { pose proof (Forall2_length _ _ _ HF) as Lt. rewrite Lt in Lc. clear -Lc. revert cs Lc. induction ts as [|t l IH]; intros [|c cs] Lc; simplify_eq/=; [done|].
    by rewrite IH. }
  rewrite Hflag in *. destruct (loop_done _ d _ vm vm1 _ _ Hd E1 Hu1) as (vm2 & E2 & Hdone). unfold ext_mul.
  destruct (Z.eqb_spec (zlen srcs) 2) as [E|]; [|by exists vm2].
  destruct (two_operands _ d pc vm srcs cs ts E Lc Hat HF) as (s0 & c0 & s1 & c1 & [f0 v0] & [f1 v1] & Ecs & Ets & -> & -> & -> & -> & H0' & H1' & Ef0 & Ef1).
  cbn [mbind res_bind]. unfold CircularInterval.andR. rewrite Ef0. cbn [mbind res_bind fst]. destruct f0; cbn [mbind res_bind]; [|by exists vm2].
  rewrite Ef1. cbn [mbind res_bind fst]. destruct f1; cbn [mbind res_bind]; [|by exists vm2].
  destruct (Z.eqb_spec c0 1) as [->|], (Z.eqb_spec c1 1) as [->|]; cbn [andb]; try by exists vm2.
  destruct (base_view _ _ _ H0') as (h0 & -> & Eh0), (base_view _ _ _ H1') as (h1 & -> & Eh1). cbn [mbind res_bind].
  destruct (two_base vm d h0 h1 v0 v1 vec_Mul sc_mul e4_mul Hok Hd) as (vm3 & vm4 & -> & E4' & Hdone'); [intros; by apply vec_Mul_tab|apply Lift_mul|done|done|].
  cbn [mbind res_bind]. rewrite E4'. cbn [mbind res_bind]. exists vm4. split.
  - do 2 f_equal. rewrite zlen_app, pairs_length, E by done. unfold zlen. simpl. lia.
  - eapply done_ext; [exact Hdone'|by rewrite Ets|]. intros p _. rewrite Ets, Ecs. unfold total. simpl. rewrite !e4_exp_1. ring.
Qed.

Lemma ext_lin_spec : at_pc bc pc ([opLinComb; d; zlen srcs] ++ pairs srcs cs) →
  ∃ vm', ext_lin bc chunkSize start stop d (pc + 3) (zlen srcs) vm = Ok (pc + zlen ([opLinComb; d; zlen srcs] ++ pairs srcs cs), vm') ∧
    done_with d (lin_flag ts.*1 cs, λ p, total (unit := Zero) (plus := e4_add) (act := scale) ((λ t, t.2 p) <$> ts) cs) vm vm'.
Proof.
  intros Hat. destruct (ext_loop (ok := λ _, True) (λ f c, f || (c =? 0)) (ext_lin_step bc chunkSize start stop d) opLinComb d pc vm srcs cs ts)
    as (vm1 & E1 & Hu1); [|done|done|done|done|by apply Forall_true|done|].
  { intros. by eapply ext_lin_step_spec. }
  fold (lin_flag ts.*1 cs) in *. destruct (loop_done _ d _ vm vm1 _ _ Hd E1 Hu1) as (vm2 & E2 & Hdone). unfold ext_lin.
  destruct (Z.eqb_spec (zlen srcs) 2) as [E|]; [|by exists vm2].
  destruct (two_operands _ d pc vm srcs cs ts E Lc Hat HF) as (s0 & c0 & s1 & c1 & [f0 v0] & [f1 v1] & Ecs & Ets & -> & -> & -> & -> & H0' & H1' & Ef0 & Ef1).
  cbn [mbind res_bind]. unfold CircularInterval.andR. rewrite Ef0. cbn [mbind res_bind fst]. destruct f0; cbn [mbind res_bind]; [|by exists vm2].
  rewrite Ef1. cbn [mbind res_bind fst]. destruct f1; cbn [mbind res_bind]; [|by exists vm2].
  destruct (Z.eqb_spec c0 1) as [->|]; [|by exists vm2].
  destruct (base_view _ _ _ H0') as (h0 & -> & Eh0), (base_view _ _ _ H1') as (h1 & -> & Eh1). cbn [mbind res_bind].
  assert (pc + 3 + 4 = pc + zlen ([opLinComb; d; zlen srcs] ++ pairs srcs cs)) as Hpc.
  { rewrite zlen_app, pairs_length, E by done. unfold zlen. simpl. lia. }
  rewrite coeff_cases_sign. destruct (Z.eqb_spec c1 1) as [->|]; [|destruct (Z.eqb_spec c1 (-1)) as [->|]; [|by exists vm2]].
  - destruct (two_base vm d h0 h1 v0 v1 vec_Add sc_add e4_add Hok Hd) as (vm3 & vm4 & -> & E4' & Hdone'); [intros; by apply vec_Add_tab|apply Lift_add|done|done|].
    cbn [mbind res_bind]. rewrite E4', Hpc. cbn [mbind res_bind]. exists vm4. split; [done|].
    eapply done_ext; [exact Hdone'|by rewrite Ets, Ecs|]. intros p _. rewrite Ets, Ecs. unfold total. simpl. rewrite !scale_1. ring.
  - destruct (two_base vm d h0 h1 v0 v1 vec_Sub sc_sub e4_sub Hok Hd) as (vm3 & vm4 & -> & E4' & Hdone'); [intros; by apply vec_Sub_tab|apply Lift_sub|done|done|].
    cbn [mbind res_bind]. rewrite E4', Hpc. cbn [mbind res_bind]. exists vm4. split; [done|].
    eapply done_ext; [exact Hdone'|by rewrite Ets, Ecs|]. intros p _. rewrite Ets, Ecs. unfold total. simpl. rewrite scale_1, scale_opp. ring.
Qed.
End two.

(** ** Polynomial evaluation *)

Lemma e4_powers_spec (x : E4 F) (k : nat) : length (e4_powers x k) = k ∧ ∀ i : nat, (i < k)%nat → e4_powers x k !! i = Some (e4_exp x (Z.of_nat i)).
Proof.
  induction k as [|k [L IH]]; [split; [done|lia]|]. cbn [e4_powers]. rewrite length_app, L. split; [simpl; lia|]. intros i Hi.
  destruct (decide (i < k)%nat) as [Hik|Hik]; [rewrite lookup_app_l by lia; by apply IH|]. replace i with k by lia.
  rewrite lookup_app_r, L, Nat.sub_diag by lia. rewrite last_lookup, L. cbn [lookup list_lookup]. f_equal. destruct k as [|k].
  - symmetry. apply e4_exp_0.
  - cbn [pred]. rewrite (IH k) by lia. replace (Z.of_nat (S k)) with (Z.succ (Z.of_nat k)) by lia. rewrite e4_exp_succ by lia. simpl. ring.
Qed.

Section poly.
Context (d pc : Z) (vm : vmExt F) (xs : Z) (cs : list Z) (tx : typed) (tcs : list typed).
Context (Hok : ext_ok vm) (Hd : 0 ≤ d < numSlots) (Hxd : xs ≠ d) (Hxr : 0 ≤ xs < numSlots) (Hx : ext_holds vm xs tx).
Context (Hpt : ∀ p, start ≤ p < stop → tx.2 p = tx.2 start) (Hne : cs ≠ []).
Context (Hat : at_pc bc pc ([opPolyEval; d; zlen (xs :: cs)] ++ xs :: cs)).
Context (HF : Forall2 (λ s t, s ≠ d ∧ 0 ≤ s < numSlots ∧ ext_holds vm s t) cs tcs).
Notation m := (zlen cs).
Notation vals p := ((λ t : typed, t.2 p) <$> tcs).

Lemma coeff_slot i : 1 ≤ i ≤ m → ∃ s t, idx bc (pc + 3 + i) = Ok s ∧ tcs !! Z.to_nat (i - 1) = Some t ∧ s ≠ d ∧ 0 ≤ s < numSlots ∧ ext_holds vm s t.
Proof.
  intros Hi. unfold zlen in Hi. destruct (lookup_lt_is_Some_2 cs (Z.to_nat (i - 1))) as [s Es]; [lia|].
  destruct (Forall2_lookup_l _ _ _ _ _ HF Es) as (t & Et & ? & ? & ?). exists s, t. split; [|split; [done|split; [done|split; done]]].
  apply (at_idx _ _ _ (3 + S (Z.to_nat (i - 1))) s _ Hat); [done|lia].
Qed.

Lemma point_slot : idx bc (pc + 3) = Ok xs.
Proof. apply (at_idx _ _ _ 3 xs _ Hat); [done|lia]. Qed.

(** The point, in the memory of its flag. *)
Lemma point_value vm1 : ext_ok vm1 → keeps_vm d vm vm1 →
  if tx.1 then ∃ x, idx (baseMemory vm1) (xs * chunkSize) = Ok x ∧ ∀ p, start ≤ p < stop → Lift x = tx.2 p
  else idx (memory vm1) (xs * chunkSize) = Ok (tx.2 start).
Proof.
  intros (Me & Mb & _) K. destruct Hx as [_ Hv]. apply (slot_val_keeps vm vm1 d) in Hv; [|done|done]. unfold slot_val in Hv.
  destruct tx as [[] v]; simpl in *; destruct Hv as (h & Ev & Eh).
  - exists (h start). split; [by apply (first_elem numSlots chunkSize start stop HL)|]. intros p Hp. rewrite (Hpt p), Eh by lia. done.
  - rewrite (first_elem numSlots chunkSize start stop HL _ _ h) by done. f_equal. apply Eh. lia.
Qed.

(** *** Horner's rule *)

Lemma horner_mul vm1 rb acc : ext_ok vm1 → slot_val vm1 d rb acc → keeps_vm d vm vm1 →
  ∃ vm2, (if rb then
            if tx.1 then
              xBase ← idx (baseMemory vm1) (xs * chunkSize);
              vm2 ← write_base chunkSize start stop vm1 d (λ r, vec_ScalarMul r r xBase); Ok (vm2, true)
            else
              x ← idx (memory vm1) (xs * chunkSize);
              baseDst ← view (baseMemory vm1) d;
              vm2 ← write_ext chunkSize start stop vm1 d (λ r, Ok (zip_with (λ _ b, e4_mul_by_element x b) r baseDst)); Ok (vm2, false)
          else
            if tx.1 then
              xBase ← idx (baseMemory vm1) (xs * chunkSize);
              vm2 ← write_ext chunkSize start stop vm1 d (λ r, vec_ScalarMulByElement r r xBase); Ok (vm2, false)
            else
              x ← idx (memory vm1) (xs * chunkSize);
              vm2 ← write_ext chunkSize start stop vm1 d (λ r, vec_ScalarMul r r x); Ok (vm2, false)) = Ok (vm2, rb && tx.1) ∧
    assigned d (rb && tx.1) (λ p, e4_mul (acc p) (tx.2 p)) vm1 vm2.
Proof.
  intros Hok1 Hacc K. pose proof (point_value vm1 Hok1 K) as Hp. destruct (tx.1), rb; simpl in Hacc.
  - destruct Hp as (x & -> & Ex). cbn [mbind res_bind]. edestruct (base_upd vm1 d) as (vm2 & -> & Hu); [done|done|exact Hacc| |by eexists].
    intros g Eg. cbv beta. eexists. split; [by apply vec_ScalarMul_tab, tab_length|]. intros p Hp. cbv beta. by rewrite (inj_mul (inj := Lift)), Eg, (Ex p).
  - destruct Hp as (x & -> & Ex). cbn [mbind res_bind]. edestruct (ext_upd vm1 d) as (vm2 & -> & Hu); [done|done|exact Hacc| |by eexists].
    intros g Eg. cbv beta. eexists. split; [by apply vec_ScalarMulByElement_tab, tab_length|]. intros p Hp. cbv beta. by rewrite Eg, (Ex p).
  - rewrite Hp. cbn [mbind res_bind]. destruct Hacc as (g & Ev & Eg). rewrite Ev. cbn [mbind res_bind].
    edestruct (ext_put vm1 d) as (vm2 & -> & Hu & _); [done..| |by eexists]. intros r Lr. destruct (tab_all start stop r ltac:(lia) Lr) as [g' ->].
    cbv beta. rewrite tab_zip. eexists. split; [done|]. intros p Hp'. cbv beta. rewrite mul_by_element_Lift, Eg, (Hpt p) by done. ring.
  - rewrite Hp. cbn [mbind res_bind]. edestruct (ext_upd vm1 d) as (vm2 & -> & Hu); [done|done|exact Hacc| |by eexists].
    intros g Eg. cbv beta. eexists. split; [by apply vec_ScalarMul_tab, tab_length|]. intros p Hp'. cbv beta. simpl. by rewrite Eg, (Hpt p).
Qed.

Lemma horner_add vm1 rb acc s t : ext_ok vm1 → slot_val vm1 d rb acc → s ≠ d → ext_holds vm1 s t →
  ∃ vm2, (if t.1 : bool then
            bSrc ← view (baseMemory vm1) s;
            if rb then vm2 ← write_base chunkSize start stop vm1 d (λ r, vec_Add r r bSrc); Ok (vm2, true)
            else vm2 ← write_ext chunkSize start stop vm1 d (λ r, Ok (add_to_base r bSrc)); Ok (vm2, false)
          else
            vm2 ← (if rb then scatterBaseToExt chunkSize start stop vm1 d else Ok vm1);
            vTmp ← view (memory vm2) s;
            vm2 ← write_ext chunkSize start stop vm2 d (λ r, vec_Add r r vTmp); Ok (vm2, false)) = Ok (vm2, rb && t.1) ∧
    assigned d (rb && t.1) (λ p, e4_add (acc p) (t.2 p)) vm1 vm2.
Proof.
  intros Hok1 Hacc Hsd [_ Hv]. destruct t as [f v]; simpl in *. destruct f; simpl in Hv; destruct Hv as (h & Ev & Eh).
  - rewrite Ev. cbn [mbind res_bind]. destruct rb; simpl in Hacc.
    + edestruct (base_upd vm1 d) as (vm2 & -> & Hu); [done|done|exact Hacc| |by eexists].
      intros g Eg. cbv beta. eexists. split; [by apply vec_Add_tab, tab_length|]. intros p Hp. cbv beta. by rewrite (inj_add (inj := Lift)), Eg, Eh.
    + edestruct (ext_upd vm1 d) as (vm2 & -> & Hu); [done|done|exact Hacc| |by eexists].
      intros g Eg. cbv beta. eexists. split; [by rewrite add_to_base_tab|]. intros p Hp. cbv beta. by rewrite Eg, Eh.
  - rewrite andb_false_r. destruct (to_ext vm1 d rb acc Hok1 Hd Hacc) as (vm2 & -> & Hok2 & Hv2 & K2). cbn [mbind res_bind].
    rewrite (proj1 (proj2 K2) s _ Hsd Ev). cbn [mbind res_bind].
    edestruct (ext_upd vm2 d) as (vm3 & -> & Hu); [done|done|exact Hv2| |eexists; split; [done|]; by eapply assigned_keeps].
    intros g Eg. cbv beta. eexists. split; [by apply vec_Add_tab, tab_length|]. intros p Hp. cbv beta. simpl. by rewrite Eg, Eh.
Qed.

(** The value and the flag when the coefficients from the [i]-th on are done. *)
Definition poly_val (i p : Z) : E4 F := horner (drop (Z.to_nat (i - 1)) (vals p)) (tx.2 p).
Definition poly_base (i : Z) : bool := forallb id (drop (Z.to_nat (i - 1)) tcs.*1) && (tx.1 || (i =? m)).

Lemma drop_coeff {X} (f : typed → X) i t : 1 ≤ i → tcs !! Z.to_nat (i - 1) = Some t →
  drop (Z.to_nat (i - 1)) (f <$> tcs) = f t :: drop (Z.to_nat (i + 1 - 1)) (f <$> tcs).
Proof.
  intros Hi Et. replace (Z.to_nat (i + 1 - 1)) with (S (Z.to_nat (i - 1))) by lia. apply drop_S. by rewrite list_lookup_fmap, Et.
Qed.

Lemma drop_last {X} (f : typed → X) i : i = m → drop (Z.to_nat (i + 1 - 1)) (f <$> tcs) = [].
Proof. intros ->. apply drop_ge. rewrite length_fmap, <-(Forall2_length _ _ _ HF). unfold zlen. lia. Qed.

Lemma ext_horner_spec : ∃ vm', ext_horner bc chunkSize start stop d (pc + 3) (zlen (xs :: cs)) xs tx.1 vm = Ok vm' ∧
  done_with d (poly_base 1, poly_val 1) vm vm'.
Proof.
  unfold ext_horner. assert (1 ≤ m) as Hm by (destruct cs; [done|unfold zlen; simpl; lia]).
  replace (pc + 3 + zlen (xs :: cs) - 1) with (pc + 3 + m) by (unfold zlen; simpl; lia). replace (zlen (xs :: cs) - 2) with (m - 1) by (unfold zlen; simpl; lia).
  destruct (coeff_slot m ltac:(lia)) as (sl & tl & -> & Etl & Hsl & Hslr & Htl). cbn [mbind res_bind].
  rewrite (source_flag _ _ _ (proj1 Hslr) Htl). cbn [mbind res_bind].
  assert (∃ vm1, (if tl.1 : bool then last ← view (baseMemory vm) sl; write_base chunkSize start stop vm d (λ r, Ok (copy r last))
    else last ← view (memory vm) sl; write_ext chunkSize start stop vm d (λ r, Ok (copy r last))) = Ok vm1 ∧
    assigned d (poly_base m) (poly_val m) vm vm1 ∧ tl.1 = poly_base m) as (vm1 & -> & Hu1 & Ef).
  { assert (tl.1 = poly_base m) as Ef.
    { unfold poly_base. rewrite (drop_coeff fst m tl), drop_last by (done || lia). rewrite Z.eqb_refl, orb_true_r. simpl. by rewrite !andb_true_r. }
    rewrite <-Ef. assert (∀ p, poly_val m p = tl.2 p) as Ev.
    { intros p. unfold poly_val. rewrite (drop_coeff _ m tl), drop_last by (done || lia). rewrite horner_cons. unfold horner. simpl. ring. }
    destruct Htl as [_ Hv]. destruct tl as [f v]; simpl in *. destruct f; simpl in Hv; destruct Hv as (h & Evh & Eh); rewrite Evh; cbn [mbind res_bind].
    - edestruct (base_put vm d) as (vm1 & -> & Hu & _); [done..| |by eexists]. intros r Lr. eexists. split; [by rewrite tab_copy|].
      intros p Hp. by rewrite Ev, Eh.
    - edestruct (ext_put vm d) as (vm1 & -> & Hu & _); [done..| |by eexists]. intros r Lr. eexists. split; [by rewrite tab_copy|].
      intros p Hp. by rewrite Ev, Eh. }
  cbn [mbind res_bind]. rewrite Ef. clear Ef.
  destruct (foldM_down (ext_horner_step bc chunkSize start stop d (pc + 3) xs tx.1)
    (λ i st, st.2 = poly_base i ∧ assigned d (poly_base i) (poly_val i) vm st.1) 1 (m - 1) (vm1, poly_base m)) as ([vm' rb'] & E & Hrb & Hu).
  - lia.
  - by replace (1 + (m - 1)) with m by lia.
  - intros i [vm2 rb] Hi [Hrb (Hok2 & Hv2 & K2)]. cbn [fst snd] in *. subst rb. unfold ext_horner_step.
    destruct (coeff_slot i ltac:(lia)) as (s & t & -> & Et & Hsd & Hsr & Ht). cbn [mbind res_bind].
    destruct (horner_mul vm2 _ _ Hok2 Hv2 K2) as (vm3 & -> & Hok3 & Hv3 & K3). cbn [mbind res_bind].
    assert (keeps_vm d vm vm3) as K by (by eapply keeps_vm_trans).
    pose proof (ext_holds_keeps _ _ _ _ _ K Hsd (proj1 Hsr) Ht) as Ht3. rewrite (source_flag _ _ _ (proj1 Hsr) Ht3). cbn [mbind res_bind].
    destruct (horner_add vm3 _ _ s t Hok3 Hv3 Hsd Ht3) as (vm4 & -> & Hu4).
    assert (poly_base (i + 1) && tx.1 && t.1 = poly_base i) as Ef.
    { unfold poly_base. rewrite (drop_coeff fst i t) by (done || lia). replace (i =? m) with false by lia. simpl.
      destruct (forallb id _), (tx.1), (t.1), (i + 1 =? m); done. }
    eexists. split; [done|]. cbn [fst snd]. split; [done|]. rewrite Ef in Hu4. eapply assigned_keeps; [exact K|].
    eapply assigned_ext; [exact Hu4|]. intros p _. unfold poly_val. rewrite (drop_coeff _ i t) by (done || lia). by rewrite horner_cons.
  - rewrite E. cbn [mbind res_bind fst snd] in *. rewrite Hrb. by apply flag_after.
Qed.

(** *** The sum of powers *)

Lemma power_sum_spec : tx.1 = false → (∀ t, t ∈ tcs → t.1 = true) →
  ∃ vm', ext_power_sum bc chunkSize start stop d (pc + 3) (zlen (xs :: cs)) (tx.2 start) vm = Ok vm' ∧ done_with d (false, poly_val 1) vm vm'.
Proof.
  intros Hxf Hcf. unfold ext_power_sum. assert (1 ≤ m) as Hm by (destruct cs; [done|unfold zlen; simpl; lia]).
  replace (zlen (xs :: cs) - 1) with m by (unfold zlen; simpl; lia). replace (zlen (xs :: cs) - 2) with (m - 1) by (unfold zlen; simpl; lia).
  assert (∀ i, 1 ≤ i ≤ m → ∃ s h, idx bc (pc + 3 + i) = Ok s ∧ s ≠ d ∧ view (baseMemory vm) s = Ok (tab h) ∧
    ∀ p, start ≤ p < stop → vals p !! Z.to_nat (i - 1) = Some (Lift (h p))) as Hc.
  { intros i Hi. destruct (coeff_slot i Hi) as (s & [f v] & Ei & Et & Hsd & _ & [_ Hv]).
    assert (f = true) as -> by (apply (Hcf (f, v)); by eapply list_elem_of_lookup_2). simpl in Hv. destruct Hv as (h & Ev & Eh).
    exists s, h. split; [done|]. split; [done|]. split; [done|]. intros p Hp. rewrite list_lookup_fmap, Et. simpl. f_equal. symmetry. by apply Eh. }
  destruct (Hc 1 ltac:(lia)) as (s1 & h1 & -> & _ & Ev1 & Eh1). cbn [mbind res_bind]. rewrite Ev1. cbn [mbind res_bind].
  set (val := λ i p : Z, horner (take (Z.to_nat (i - 1)) (vals p)) (tx.2 p)).
  destruct (ext_put vm d (λ r, Ok (zip_with (λ _ b, mkE4 b el_zero el_zero el_zero) r (tab h1))) (val 2) Hok Hd) as (vm1 & -> & Hu1 & _).
  { intros r Lr. destruct (tab_all start stop r ltac:(lia) Lr) as [g ->]. rewrite tab_zip. eexists. split; [done|]. intros p Hp. cbv beta. unfold val.
    change (Z.to_nat (2 - 1)) with (S (Z.to_nat (1 - 1))). rewrite (take_S_r _ _ _ (Eh1 p Hp)). unfold horner. simpl. change (mkE4 (h1 p) el_zero el_zero el_zero) with (Lift (h1 p)). ring. }
  cbn [mbind res_bind].
  match goal with |- context [foldM ?f vm1 _] => destruct (foldM_seqZ f (λ i vm', assigned d false (val i) vm vm') 2 (m - 1) vm1) as (vm' & -> & Hu) end;
    [lia|done| |].
  - intros i vm2 Hi (Hok2 & Hv2 & K2). destruct (Hc i ltac:(lia)) as (s & h & -> & Hsd & Ev & Eh). cbn [mbind res_bind].
    rewrite (proj1 K2 s _ Hsd Ev). cbn [mbind res_bind].
    rewrite (idx_nat _ (i - 1) (e4_exp (tx.2 start) (i - 1))).
    2: lia.
    2: { destruct (e4_powers_spec (tx.2 start) (Z.to_nat m)) as [_ Hp]. rewrite Hp by lia. by rewrite Z2Nat.id by lia. }
    cbn [mbind res_bind]. edestruct (ext_upd vm2 d) with (g := val (i + 1)) as (vm3 & -> & Hu3);
      [done|done|exact Hv2| |eexists; split; [done|]; by eapply assigned_keeps].
    intros g Eg. cbv beta. rewrite vec_MulAccByElement_spec by (by rewrite !tab_length). rewrite tab_zip. eexists. split; [done|].
    intros p Hp. cbv beta. unfold val. replace (Z.to_nat (i + 1 - 1)) with (S (Z.to_nat (i - 1))) by lia. rewrite (take_S_r _ _ _ (Eh p Hp)), horner_snoc.
    unfold zlen. rewrite length_take, length_fmap, <-(Forall2_length _ _ _ HF).
    replace (Z.of_nat (Z.to_nat (i - 1) `min` length cs)) with (i - 1) by (unfold zlen in Hi; lia).
    rewrite Eg, mul_by_element_Lift, <-(Hpt p) by done. unfold val. simpl. ring.
  - cbn [mbind res_bind]. apply flag_after; [done|]. eapply assigned_ext; [exact Hu|]. intros p _. unfold val, poly_val.
    rewrite take_ge by (rewrite length_fmap, <-(Forall2_length _ _ _ HF); unfold zlen; lia). done.
Qed.

Lemma all_base_spec ks fs : Forall2 (λ k f, ∃ s, idx bc (pc + 3 + k) = Ok s ∧ idx (slotIsBase vm) s = Ok f) ks fs →
  all_base bc vm (pc + 3) ks = Ok (forallb id fs).
Proof.
  induction 1 as [|k f ks fs (s & E1 & E2) _ IH]; [done|]. simpl. rewrite E1. simpl. rewrite E2. simpl. destruct f; [done|done].
Qed.

Lemma ext_polyeval_spec : ∃ vm', ext_polyeval bc chunkSize start stop d (pc + 3) (zlen (xs :: cs)) vm = Ok vm' ∧
  done_with d (poly_flag (tx.1 :: tcs.*1), poly_val 1) vm vm'.
Proof.
  unfold ext_polyeval. rewrite point_slot. cbn [mbind res_bind]. rewrite (source_flag _ _ _ (proj1 Hxr) Hx). cbn [mbind res_bind].
  pose proof (Forall2_length _ _ _ HF) as Lt.
  assert (all_base bc vm (pc + 3) (seqZ 1 (zlen (xs :: cs) - 1)) = Ok (forallb id tcs.*1)) as Ha.
  { apply all_base_spec. replace (zlen (xs :: cs) - 1) with m by (unfold zlen; simpl; lia). apply Forall2_same_length_lookup.
    split; [rewrite length_seqZ, length_fmap; unfold zlen; lia|]. intros k i f Ei Ef. apply lookup_seqZ in Ei as [-> Hk].
    destruct (coeff_slot (1 + Z.of_nat k) ltac:(lia)) as (s & t & Es & Et & _ & Hsr & Hst). exists s. split; [done|].
    replace (Z.to_nat (1 + Z.of_nat k - 1)) with k in Et by lia. rewrite list_lookup_fmap, Et in Ef. injection Ef as <-. by apply source_flag; [lia|]. }
  assert (poly_base 1 = poly_flag (tx.1 :: tcs.*1)) as Hf.
  { unfold poly_base, poly_flag. f_equal. f_equal. unfold zlen. rewrite length_fmap, <-Lt. apply Bool.eq_iff_eq_true. rewrite Z.eqb_eq, Nat.eqb_eq. lia. }
  rewrite Ha. destruct ((if tx.1 then Ok false else Ok (forallb id tcs.*1))) as [all|] eqn:Eall; [|by destruct (tx.1)]. cbn [mbind res_bind].
  destruct (all && (2 <? zlen (xs :: cs))) eqn:Eb; [|rewrite <-Hf; apply ext_horner_spec].
  apply andb_true_iff in Eb as [-> Hlen]. destruct (tx.1) eqn:Etx; [done|]. injection Eall as Eall.
  pose proof (point_value vm Hok (keeps_vm_refl d vm)) as Hp. rewrite Etx in Hp. rewrite Hp. cbn [mbind res_bind].
  destruct (power_sum_spec Etx) as (vm' & -> & Hdone).
  { intros t Ht. rewrite forallb_forall in Eall. apply (Eall t.1), list_elem_of_In, list_elem_of_fmap_2, Ht. }
  exists vm'. split; [done|]. eapply done_ext; [exact Hdone| |done]. unfold poly_flag. simpl. rewrite length_fmap, <-Lt.
  apply Z.ltb_lt in Hlen. unfold zlen in Hlen. simpl in Hlen. rewrite (proj2 (Nat.eqb_neq (length cs) 1)) by lia. by rewrite andb_false_r.
Qed.
End poly.

(** ** Constants and inputs *)

Lemma load_base vm d f g : ext_ok vm → 0 ≤ d < numSlots → (∀ r, length r = n → ∃ h, f r = Ok (tab h) ∧ agree (λ p, Lift (h p)) g) →
  ∃ vm1 vm', set_flag vm d true = Ok vm1 ∧ write_base chunkSize start stop vm1 d f = Ok vm' ∧ done_with d (true, g) vm vm'.
Proof.
  intros Hok Hd Hf. destruct (set_flag_spec vm d true Hok Hd) as (vm1 & E1 & Hok1 & Ef & K & _).
  destruct (base_put vm1 d f g Hok1 Hd Hf) as (vm' & E2 & Hu & Efl). exists vm1, vm'. split; [done|]. split; [done|]. by eapply flag_before.
Qed.

Lemma load_ext vm d f g : ext_ok vm → 0 ≤ d < numSlots → (∀ r, length r = n → ∃ h, f r = Ok (tab h) ∧ agree h g) →
  ∃ vm1 vm', set_flag vm d false = Ok vm1 ∧ write_ext chunkSize start stop vm1 d f = Ok vm' ∧ done_with d (false, g) vm vm'.
Proof.
  intros Hok Hd Hf. destruct (set_flag_spec vm d false Hok Hd) as (vm1 & E1 & Hok1 & Ef & K & _).
  destruct (ext_put vm1 d f g Hok1 Hd Hf) as (vm' & E2 & Hu & Efl). exists vm1, vm'. split; [done|]. split; [done|]. by eapply flag_before.
Qed.

Lemma load_const_spec vm d (val : E4 F) : ext_ok vm → 0 ≤ d < numSlots →
  ∃ vm1 vm', set_flag vm d (Fext.IsBase val) = Ok vm1 ∧
    (if Fext.IsBase val then write_base chunkSize start stop vm1 d (λ r, Ok (Fill r (B0A0 val)))
     else write_ext chunkSize start stop vm1 d (λ r, Ok (Fill r val))) = Ok vm' ∧
    done_with d (Fext.IsBase val, λ _, val) vm vm'.
Proof.
  intros Hok Hd. destruct (Fext.IsBase val) eqn:Eb; [apply IsBase_spec in Eb; apply load_base|apply load_ext]; try done;
    (intros r Lr; eexists; split; [by rewrite (tab_fill start stop r _ Lr)|]; intros p Hp; done).
Qed.

Definition input_flag (w : SmartVector.t F) : bool :=
  match w with OfBase _ => true | OfExt (SmartVector.Constant val _) => Fext.IsBase val | OfExt _ => false end.
Definition input_flags (vars : Z) : bool := match idx inputs vars with Ok w => input_flag w | Panic => false end.

(** How an input is written, for base inputs and for the extension inputs that are not constant. *)
Lemma base_source (w : vec F) : SmartVectorFacts.wf w → stop ≤ Len w →
  ∃ f, (∀ r, length r = n → f r = Ok (tab (base_elem (OfBase w)))) ∧
    ∀ vm d, ext_load_input chunkSize start stop vm d (OfBase w) = (vm1 ← set_flag vm d true; write_base chunkSize start stop vm1 d f).
Proof.
  intros W Lw. pose proof (IsBase_of_length (Len w) (OfBase w) ltac:(lia) ltac:(done)) as Eb.
  destruct w as [a k|l|l o|l pad k o]; cbn [ext_load_input].
  - exists (λ r, Ok (Fill r a)). split; [|done]. intros r Lr. by rewrite (tab_fill start stop r _ Lr).
  - exists (λ r, Ok (copy r (tab (base_elem (OfBase (Regular l)))))). split; [intros r Lr; by rewrite tab_copy|]. intros vm d.
    rewrite (slice_tab start stop ltac:(lia) l el_zero Lw). done.
  - exists (λ r, copySubVector l o start stop (zlen r)). split; [|done]. intros r Lr.
    replace (zlen r) with (stop - start) by (unfold zlen; lia). by apply rotated_tab; [lia|..].
  - destruct (cut_tab start stop ltac:(lia) _ el_zero W Lw) as (y & Ec & Wy & Ly & Ey). exists (WriteInSlice y). split.
    + intros r Lr. rewrite WriteInSlice_spec by (try done; unfold zlen; lia). by rewrite Ey.
    + intros vm d. rewrite Eb. cbn [mbind res_bind is_base sv_SubVector]. by rewrite Ec.
Qed.

Lemma ext_source (w : vec (E4 F)) : SmartVectorFacts.wf w → stop ≤ Len w → (∀ a k, w ≠ SmartVector.Constant a k) →
  ∃ f, (∀ r, length r = n → f r = Ok (tab (ext_elem (OfExt w)))) ∧
    ∀ vm d, ext_load_input chunkSize start stop vm d (OfExt w) = (vm1 ← set_flag vm d false; write_ext chunkSize start stop vm1 d f).
Proof.
  intros W Lw Hc. pose proof (IsBase_of_length (Len w) (OfExt w) ltac:(lia) ltac:(done)) as Eb.
  destruct w as [a k|l|l o|l pad k o]; cbn [ext_load_input]; [by destruct (Hc a k)|..].
  - exists (λ r, Ok (copy r (tab (ext_elem (OfExt (Regular l)))))). split; [intros r Lr; by rewrite tab_copy|]. intros vm d.
    rewrite (slice_tab start stop ltac:(lia) l Zero Lw). done.
  - exists (λ r, copySubVector l o start stop (zlen r)). split; [|done]. intros r Lr.
    replace (zlen r) with (stop - start) by (unfold zlen; lia). by apply rotated_tab; [lia|..].
  - destruct (cut_tab start stop ltac:(lia) _ Zero W Lw) as (y & Ec & Wy & Ly & Ey). exists (WriteInSliceSame y). split.
    + intros r Lr. rewrite WriteInSliceSame_spec by (try done; unfold zlen; lia). by rewrite Ey.
    + intros vm d. rewrite Eb. cbn [mbind res_bind is_base sv_SubVector]. by rewrite Ec.
Qed.

Lemma ext_load_input_spec vm d w tot : ext_ok vm → 0 ≤ d < numSlots → of_length tot w → stop ≤ tot →
  ∃ vm', ext_load_input chunkSize start stop vm d w = Ok vm' ∧ done_with d (input_flag w, ext_elem w) vm vm'.
Proof.
  intros Hok Hd Hw Ht. destruct w as [w|w]; destruct Hw as [W <-].
  - destruct (base_source w W Ht) as (f & Hf & ->). destruct (load_base vm d f (ext_elem (OfBase w)) Hok Hd) as (vm1 & vm' & -> & E & Hdone); [|by exists vm'].
    intros r Lr. eexists. split; [by apply Hf|done].
  - assert ((∃ a k, w = SmartVector.Constant a k) ∨ ∀ a k, w ≠ SmartVector.Constant a k) as [(a & k & ->)|Hc]
      by (destruct w; [left; by eexists _, _|by right..]).
    + destruct (load_const_spec vm d a Hok Hd) as (vm1 & vm' & E1 & E2 & Hdone). exists vm'. cbn [ext_load_input]. rewrite E1. done.
    + destruct (ext_source w W Ht Hc) as (f & Hf & ->).
      replace (input_flag (OfExt w)) with false by (destruct w; [by edestruct Hc|done..]).
      destruct (load_ext vm d f (ext_elem (OfExt w)) Hok Hd) as (vm1 & vm' & -> & E & Hdone); [|by exists vm'].
      intros r Lr. eexists. split; [by apply Hf|done].
Qed.

(** ** The laws *)

Definition ext_leaf (vars : Z) (op : Operator F M) : Prop :=
  match op with
  | Variable_ m => ∃ w tot, idx inputs vars = Ok w ∧ of_length tot w ∧ stop ≤ tot ∧ ∀ p, start ≤ p < stop → ρ p m = ext_elem w p
  | _ => True
  end.

Lemma ext_laws : MachineLaws (vmExt_step bc consts chunkSize inputs start stop) ext_ok ext_holds bc consts numSlots start stop ρ input_flags ext_leaf.
Proof.
  split.
  { intros vm s t t' [Ht Hst] Ef Ev. split; [by rewrite Ef|]. rewrite Ef. eapply slot_val_ext; [exact Hst|]. intros p Hp. by rewrite Ev. }
  intros vm pc node S vars d code ts Hok Hin Hat Hsh Hd Hleaf Hpt Hlen HF.
  cut (∃ vm', vmExt_step bc consts chunkSize inputs start stop pc vm = Ok (pc + zlen code, vm') ∧
    done_with d (op_result ρ input_flags vars (n_Operator node) ts) vm vm').
  { intros (vm' & E & Hok' & Hh & K). by exists vm'. }
  pose proof Hok as (Me & Mb & _). destruct (view_exists numSlots chunkSize start stop ltac:(lia) (memory vm) d Me Hd) as (r1 & Er1 & _).
  destruct (view_exists numSlots chunkSize start stop ltac:(lia) (baseMemory vm) d Mb Hd) as (r2 & Er2 & _).
  unfold instr, node_shape, op_result in *. unfold vmExt_step. destruct (n_Operator node) as [v|m|cs|es|].
  - destruct Hin as (ci & -> & Hci & Ec). destruct (instr_head _ _ _ _ _ _ Hat) as (-> & -> & ->). cbn [mbind res_bind opLoadConst]. rewrite Er1, Er2. cbn [mbind res_bind].
    rewrite (idx_nat consts ci (value v)) by done. cbn [mbind res_bind].
    destruct (load_const_spec vm d (value v) Hok Hd) as (vm1 & vm' & -> & E & Hdone). cbn [mbind res_bind]. rewrite E. cbn [mbind res_bind]. by exists vm'.
  - subst code. destruct (instr_head _ _ _ _ _ _ Hat) as (-> & -> & ->). cbn [mbind res_bind opLoadInput]. rewrite Er1, Er2. cbn [mbind res_bind].
    destruct Hleaf as (w & tot & Ei & Hw & Ht & Eρ). rewrite Ei. cbn [mbind res_bind].
    destruct (ext_load_input_spec vm d w tot Hok Hd Hw Ht) as (vm' & -> & Hdone). cbn [mbind res_bind]. exists vm'. split; [done|].
    eapply done_ext; [exact Hdone|simpl; unfold input_flags; by rewrite Ei|]. intros p Hp. symmetry. by apply Eρ.
  - subst code. destruct (instr_head _ _ _ _ _ _ Hat) as (-> & -> & ->). cbn [mbind res_bind opLinComb]. rewrite Er1, Er2. cbn [mbind res_bind].
    destruct Hsh as [L Hne]. apply ext_lin_spec; try done; [lia|by destruct (n_Children node), (sources S _)].
  - subst code. destruct (instr_head _ _ _ _ _ _ Hat) as (-> & -> & ->). cbn [mbind res_bind opMul]. rewrite Er1, Er2. cbn [mbind res_bind].
    destruct Hsh as (L & Hes & Hne). apply ext_mul_spec; try done; [lia|by destruct (n_Children node), (sources S _)].
  - subst code. destruct (instr_head _ _ _ _ _ _ Hat) as (-> & -> & ->). cbn [mbind res_bind opPolyEval]. rewrite Er1, Er2. cbn [mbind res_bind].
    destruct (sources S (n_Children node)) as [|xs cs]; [simpl in Hlen; lia|]. destruct ts as [|tx tcs]; [by inversion HF|].
    apply Forall2_cons in HF as [(Hxd & Hxr & Hx) HF].
    destruct (ext_polyeval_spec d pc vm xs cs tx tcs) as (vm' & -> & Hdone); try done; [destruct cs; [simpl in Hlen; lia|done]|].
    cbn [mbind res_bind]. exists vm'. split; [|exact Hdone]. do 2 f_equal. rewrite zlen_app. unfold zlen. simpl. lia.
Qed.
End ext.
End ExtMachine.
