(* ===== verification/EvaluateFacts.v ===== *)
(** * Evaluation of expressions

    [Evaluate] on the board of an expression gives, at every position, the value of the
    expression where each variable has the element of its input: the chunks cover the
    positions, the machines satisfy [MachineLaws], and the last node of the board is the
    expression. *)

From S2P Require Export ExtMachine.
From Stdlib Require Import Ring.
Import Utils Fext Vectors VectorsFacts SmartVector SmartVectorFacts SmartVectorOps SmartVectorProcess SmartVectorArith SmartVectorMixed.
Import Symbolic SymbolicFacts Board BoardFacts Compiler CompilerFacts Machine Slots BaseMachine ExtMachine.
Import GenericFieldElem (value).

Module EvaluateFacts.

(** ** Chunks *)

Lemma halve_spec (fuel : nat) cs tot : 1 ≤ cs < 2 ^ Z.of_nat fuel → 1 ≤ halve fuel cs tot ≤ cs ∧ tot mod halve fuel cs tot = 0.
Proof.
  revert cs. induction fuel as [|fuel IH]; intros cs Hcs; [simpl in Hcs; lia|]. simpl. destruct (Z.ltb_spec 1 cs); simpl.
  - destruct (Z.eqb_spec (tot mod cs) 0); simpl; [split; [lia|done]|]. rewrite Z.shiftr_div_pow2 by lia. change (2 ^ 1) with 2.
    assert (1 ≤ cs / 2) by (apply Z.div_le_lower_bound; lia). assert (cs / 2 ≤ cs) by (apply Z.div_le_upper_bound; lia).
    destruct (IH (cs / 2)) as [? ?]; [|split; [lia|done]]. split; [lia|]. apply Z.div_lt_upper_bound; [lia|].
    rewrite <-Z.pow_succ_r by lia. rewrite <-Nat2Z.inj_succ. apply Hcs.
  - replace cs with 1 by lia. split; [lia|]. apply Z.mod_1_r.
Qed.

Lemma chunk_size_spec numSlots tot : 0 < tot → 1 ≤ chunk_size numSlots tot ∧ chunk_size numSlots tot * Z.quot tot (chunk_size numSlots tot) = tot.
Proof.
  intros Ht. unfold chunk_size. set (mx := if _ && _ then _ else _).
  assert (16 ≤ mx ≤ 256) as Hmx.
  { subst mx. set (w := if 0 <? numSlots then _ else _). unfold MaxChunkSize. change (2 ^ 8) with 256.
    destruct (Z.leb_spec 16 w), (Z.ltb_spec w 256); simpl; lia. }
  clearbody mx. destruct (halve_spec 64 (Z.min mx tot) tot) as [H1 H2]; [change (2 ^ Z.of_nat 64) with 18446744073709551616; lia|].
  split; [lia|]. rewrite Z.quot_div_nonneg by lia. symmetry. apply Z.div_exact; [lia|done].
Qed.

(** The chunks of [done] hold the target. *)
Definition written {A} (cs k : Z) (target : Z → A) (done : list Z) (r : list A) : Prop :=
  zlen r = cs * k ∧ ∀ c p, c ∈ done → 0 ≤ c → c * cs ≤ p < (c + 1) * cs → r !! Z.to_nat p = Some (target p).

Lemma write_chunk {A} cs k (target : Z → A) c done r : 1 ≤ cs → 0 ≤ c < k → written cs k target done r →
  ∃ r', in_slice r (c * cs) ((c + 1) * cs) (λ dst, Ok (copy dst (tab (c * cs) ((c + 1) * cs) target))) = Ok r' ∧ written cs k target (done ++ [c]) r'.
Proof.
  intros Hcs Hc [L0 W0]. assert (0 ≤ c * cs ∧ (c + 1) * cs ≤ cs * k) as [Hlo Hhi] by nia.
  destruct (in_slice_view r (c * cs) ((c + 1) * cs) (λ dst, Ok (copy dst (tab (c * cs) ((c + 1) * cs) target)))
    (take (Z.to_nat ((c + 1) * cs - c * cs)) (drop (Z.to_nat (c * cs)) r)) (tab (c * cs) ((c + 1) * cs) target)) as (r' & -> & L' & Es & Hkeep).
  - apply slice_Ok; lia.
  - rewrite tab_copy; [done|]. rewrite length_take, length_drop. unfold zlen in L0. lia.
  - rewrite tab_length, length_take, length_drop. unfold zlen in L0. lia.
  - exists r'. split; [done|]. unfold written, zlen in *. split; [lia|]. intros c' p Hin Hc' Hp. destruct (decide (c' = c)) as [->|Hne].
    + rewrite slice_Ok in Es by (unfold zlen; lia). injection Es as Es. apply (f_equal (.!! Z.to_nat (p - c * cs))) in Es.
      rewrite tab_lookup, lookup_take_lt, lookup_drop in Es by lia. replace (Z.to_nat (c * cs) + Z.to_nat (p - c * cs))%nat with (Z.to_nat p) in Es by lia.
      rewrite Es. do 2 f_equal. lia.
    + rewrite Hkeep by (assert (c' < c ∨ c < c') as [?|?] by lia; nia). apply (W0 c'); [|done..]. by apply elem_of_snoc in Hin as [Hin| ->].
Qed.

(** A task writes its chunks, the tasks together all of them. *)
Lemma run_chunks_spec {V A} gomaxprocs (execute : Z → Z → V → res V) (out : V → res (list A)) newVM cs k r (ok : V → Prop) (target : Z → A) :
  1 ≤ cs → 0 ≤ k → zlen r = cs * k → ok newVM →
  (∀ c vm, 0 ≤ c < k → ok vm → ∃ vm', execute (c * cs) ((c + 1) * cs) vm = Ok vm' ∧ ok vm' ∧ out vm' = Ok (tab (c * cs) ((c + 1) * cs) target)) →
  run_chunks gomaxprocs execute out newVM cs k r = Ok (tab 0 (cs * k) target).
Proof.
  intros Hcs Hk Lr Hnew Hexec.
  unfold run_chunks.
  match goal with |- foldM ?f r _ = _ => destruct (foldM_rule f (λ rs r, written cs k target (concat (Parallel.iterations <$> rs)) r)
    (Parallel.Execute_ranges gomaxprocs [] k) r) as (r' & -> & L' & W') end.
  - split; [done|]. intros c p Hc. by apply not_elem_of_nil in Hc.
  - intros rs range r0 Hrange Hw. cbn [mbind res_bind].
    match goal with |- ∃ s', (foldM ?f _ _ ≫= _) = _ ∧ _ => destruct (foldM_rule f (λ cs' st, ok st.2 ∧ written cs k target (concat (Parallel.iterations <$> rs) ++ cs') st.1)
      (Parallel.iterations range) (r0, newVM)) as ([r1 vm1] & -> & _ & Hw1) end.
    + split; [done|]. by rewrite app_nil_r.
    + intros l c [r1 vm1] Hc [Hok1 Hw1]. cbn [fst snd] in *.
      assert (0 ≤ c < k) as Hck by (apply (Parallel.ranges_elem gomaxprocs); [done|by exists range]).
      destruct (Hexec c vm1 Hck Hok1) as (vm2 & -> & Hok2 & Eo). cbn [mbind res_bind]. rewrite Eo. cbn [mbind res_bind].
      destruct (write_chunk cs k target c _ r1 Hcs Hck Hw1) as (r2 & -> & Hw2). cbn [mbind res_bind]. eexists. split; [done|]. split; [done|].
      by rewrite (assoc_L (++)).
    + cbn [mbind res_bind fst]. eexists. split; [done|]. rewrite fmap_app, concat_app. simpl. by rewrite app_nil_r.
  - f_equal. rewrite Parallel.Execute_ranges_cover in W' by done. apply tab_eq; [unfold zlen in L'; lia|]. intros p Hp. rewrite Z.sub_0_r.
    apply (W' (p / cs)); [|apply Z.div_pos; lia|].
    + apply elem_of_seqZ. split; [apply Z.div_pos; lia|]. apply Z.div_lt_upper_bound; lia.
    + pose proof (Z.div_mod p cs ltac:(lia)). pose proof (Z.mod_pos_bound p cs ltac:(lia)). lia.
Qed.

(** ** The nodes of the board *)

Section nodes.
Context {F M : Type} `{ElementLaws F, !ExtOps F, !ExtLaws F, !Metadata M, !Blake2b}.
Notation Expr := (Expression F M).
Implicit Types (e a : Expr).

(** The number of the input of a variable node. *)
Lemma variable_input (b : ExpressionBoard F M) (j : nat) node m : Nodes b !! j = Some node → n_Operator node = Variable_ m →
  ListVariableMetadata b !! Z.to_nat (var_count (take j (Nodes b))) = Some m.
Proof.
  intros E Eop. unfold ListVariableMetadata, var_count. set (f := λ node : Node F M, match n_Operator node with Variable_ m => Some m | _ => None end).
  assert (∀ l : list (Node F M), length (omap f l) = length (filter (λ node, is_var node = true) l)) as Hl.
  { intros l. induction l as [|nd l IH]; [done|].
    assert (f nd = None ∧ is_var nd = false ∨ ∃ m, f nd = Some m ∧ is_var nd = true) as [[E1 E2]|(m' & E1 & E2)].
    { unfold f, is_var. destruct (n_Operator nd); [by left|right; by eexists|by left..]. }
    - rewrite filter_cons_False by (by rewrite E2). cbn [omap list_omap]. by rewrite E1.
    - rewrite filter_cons_True by done. cbn [omap list_omap]. rewrite E1. simpl. by f_equal. }
  assert (omap f (Nodes b) = omap f (take j (Nodes b)) ++ omap f (node :: drop (S j) (Nodes b))) as -> by (by rewrite <-omap_app, take_drop_middle).
  unfold zlen. rewrite Nat2Z.id, lookup_app_r, Hl by (rewrite Hl; lia).
  rewrite Nat.sub_diag. cbn [omap list_omap]. unfold f at 1. by rewrite Eop.
Qed.

Lemma board_fold_ext {X} (alg alg' : nat → Operator F M → list X → X) nodes :
  (∀ (j : nat) node vs, nodes !! j = Some node → alg j (n_Operator node) vs = alg' j (n_Operator node) vs) → board_fold alg nodes = board_fold alg' nodes.
Proof.
  induction nodes as [|nd nodes IH] using rev_ind; intros E; [done|]. rewrite !board_fold_snoc, IH.
  - f_equal. f_equal. unfold node_value. apply E. rewrite board_fold_length. by rewrite lookup_app_r, Nat.sub_diag by lia.
  - intros j node vs Ej. apply E. by apply lookup_app_l_Some.
Qed.

Lemma board_nonempty e : size e < 2 ^ 32 → Nodes (Board_of e) ≠ [].
Proof. intros Hsz. destruct (Board_spec e Hsz) as (_ & nodes & node & -> & _). by destruct nodes. Qed.

Lemma board_shapes e : wf e → size e < 2 ^ 32 → Forall node_shape (Nodes (Board_of e)).
Proof.
  intros W Hsz. apply Forall_lookup. intros i node E. destruct (Board_spec e Hsz) as [[Hn _] _].
  destruct (Hn i node E) as (a & Ha & _ & Eop & HF). apply (subs_wf e a W), wf_unfold in Ha as [(_ & _ & Hshape) _].
  unfold node_shape. rewrite Eop. pose proof (Forall2_length _ _ _ HF) as L. destruct (Op a) as [v|m|cs|es|]; [done|done|..].
  - destruct Hshape as (? & _ & Hne). split; [lia|]. destruct (Children a); [done|]. by destruct (n_Children node).
  - destruct Hshape as (? & Hes & Hne). split; [lia|]. split; [|destruct (Children a); [done|]; by destruct (n_Children node)].
    eapply Forall_impl; [exact Hes|]. simpl. lia.
  - lia.
Qed.

Lemma board_constants e (P : GenericFieldElem.t F → Prop) : size e < 2 ^ 32 → (∀ a v, a ∈ subs e → Op a = Constant v → P v) →
  ∀ (j : nat) node v, Nodes (Board_of e) !! j = Some node → n_Operator node = Constant v → P v.
Proof.
  intros Hsz HP j node v E Eop. destruct (Board_spec e Hsz) as [[Hn _] _]. destruct (Hn j node E) as (a & Ha & _ & Eo & _).
  apply (HP a v Ha). by rewrite <-Eo.
Qed.

(** The value of a node that is the first child of another. *)
Lemma first_child_value e (j : nat) node c cs : size e < 2 ^ 32 → Nodes (Board_of e) !! j = Some node → n_Children node = c :: cs →
  ∃ a x, a ∈ subs e ∧ Op a = n_Operator node ∧ head (Children a) = Some x ∧
    ∀ ρ, faithful ρ (λ a, a ∈ subs e) → board_fold (λ _, op_value ρ) (Nodes (Board_of e)) !! Z.to_nat c = Some (eval ρ x).
Proof.
  intros Hsz E Ec. destruct (Board_spec e Hsz) as [Hb _]. destruct (proj1 Hb j node E) as (a & Ha & Eh & Eo & HC).
  rewrite Ec in HC. apply Forall2_cons_inv_r in HC as (x & xs & (Hc & child & Ech & Exh) & _ & Exs). exists a, x.
  split; [done|]. split; [done|]. split; [by rewrite Exs|]. intros ρ HF. destruct (proj1 Hb _ _ Ech) as (x' & Hx' & Hst).
  assert (x ∈ subs e) as Hx by (apply (subs_closed e a); [done|rewrite Exs; left]).
  rewrite (board_fold_stands (op_value ρ) (λ a, a ∈ subs e) _ Hb (subs_closed e)) with (node := child) (e := x'); try done.
  - f_equal. rewrite <-eval_efold. apply HF; [done..|]. by rewrite <-Exh, <-(proj1 Hst).
  - intros a1 a2 Ha1 Ha2 Eh'. rewrite <-!eval_efold. by apply HF.
Qed.

(** A board is not compiled by anchoring. *)
Lemma anchor_uncompiled e (b : ExpressionBoard F M) : ProgramNodesCount (anchor e b).1 = ProgramNodesCount b.
Proof.
  revert b. induction e as [h children op fl IH] using Expression_nested. intros b. rewrite anchor_unfold. destruct (map_get _ _); [done|]. cbn [Children].
  transitivity (ProgramNodesCount (anchor_all children b).1); [by destruct (anchor_all children b)|].
  revert b. induction IH as [|c l Hc _ IHl]; intros b; [done|]. simpl. specialize (Hc b). destruct (anchor c b) as [b1 id]. simpl in Hc.
  specialize (IHl b1). destruct (anchor_all l b1). simpl in *. congruence.
Qed.
End nodes.

(** ** Evaluate *)

Section evaluate.
Context {F M : Type} `{ElementLaws F, !ExtOps F, !ExtLaws F, !VectorOps F, !VectorLaws F, !VectorOps (E4 F), !VectorLaws (E4 F)}.
Context `{!MixedVectorOps F, !MixedVectorLaws F, !MulAcc F, !MulAccLaws F, !Metadata M, !Blake2b}.
Notation Expr := (Expression F M).
Context (gomaxprocs : Z) (e : Expr) (inputs : list (SmartVector.t F)) (tot : Z) (ρ : Z → M → E4 F).

(** The inputs have the same length and give the variables of the board their values. *)
Definition inputs_for : Prop :=
  inputs ≠ [] ∧ Forall (of_length tot) inputs ∧
  ∀ (i : nat) m, ListVariableMetadata (Board_of e) !! i = Some m →
    ∃ w, inputs !! i = Some w ∧ ∀ p, 0 ≤ p < tot → ρ p m = ext_elem w p.

(** The point of a polynomial evaluation does not depend on the position. *)
Definition points_uniform : Prop :=
  ∀ a x p, a ∈ subs e → Op a = PolyEval → head (Children a) = Some x → 0 ≤ p < tot → eval (ρ p) x = eval (ρ 0) x.

Context (W : wf e) (Hsz : size e < 2 ^ 32) (Hin : inputs_for) (Hpts : points_uniform).
Context (Hfaith : ∀ p, 0 ≤ p < tot → faithful (ρ p) (λ a, a ∈ subs e)).
Notation nodes := (Nodes (Board_of e)).
Notation target p := (eval (ρ p) e).

Lemma tot_bounds : 0 < tot < 2 ^ 61.
Proof.
  destruct Hin as (Hne & HF & _). destruct inputs as [|w l]; [done|]. apply Forall_cons in HF as [Hw _].
  destruct w as [w|w]; destruct Hw as [[? _] <-]; done.
Qed.

Lemma board_is_sorted : sorted nodes.
Proof. destruct (Board_spec e Hsz) as [Hb _]. by eapply board_sorted. Qed.

(** The last node has the value of the expression. *)
Lemma last_value fi p : 0 ≤ p < tot → (node_typed ρ fi nodes (pred (length nodes))).2 p = target p.
Proof.
  intros Hp. pose proof (Board_eval (ρ p) e Hsz (Hfaith p Hp)) as E. rewrite last_lookup, board_fold_length in E. unfold node_typed, node_vals. simpl. by rewrite E.
Qed.

Lemma points_ok fi start stop : 0 ≤ start → stop ≤ tot → ∀ (j : nat) node, nodes !! j = Some node →
  point_ok start stop (n_Operator node) ((λ c, node_typed ρ fi nodes (Z.to_nat c)) <$> n_Children node).
Proof.
  intros Hs0 Hs1 j node E. unfold point_ok. destruct (n_Operator node) eqn:Eop; try done.
  destruct (n_Children node) as [|c cs] eqn:Ec; [done|]. simpl. intros p Hp. unfold node_vals.
  destruct (first_child_value e j node c cs Hsz E Ec) as (a & x & Ha & Eo & Ex & Hv). rewrite !Hv by (apply Hfaith; lia). simpl.
  rewrite (Hpts a x p), (Hpts a x start); (done || lia || by rewrite Eo).
Qed.

(** *** A chunk *)

Section chunk.
Context (b : ExpressionBoard F M) (lastUse S : list Z) (codes : list (list Z)).
Context (Eb : Bytecode b = concat codes) (Huses : uses_ok nodes lastUse (length nodes)).
Context (Hprog : program nodes lastUse S codes (Constants b) (length nodes)) (LS : length S = length nodes).
Context (HS : ∀ (j : nat) s, S !! j = Some s → 0 ≤ s < NumSlots b) (HR : S !! pred (length nodes) = Some (ResultSlot b)).
Context (cs start : Z) (Hcs : 1 ≤ cs) (Hstart : 0 ≤ start) (Hstop : start + cs ≤ tot).

Lemma result_slot : 0 ≤ ResultSlot b < NumSlots b.
Proof. by apply (HS (pred (length nodes))). Qed.

Lemma base_chunk mem : forallb is_base inputs = true → (∀ a v, a ∈ subs e → Op a = Constant v → Fext.IsBase (value v) = true) →
  mem_ok (NumSlots b) cs mem →
  ∃ mem', vmBase_execute (Bytecode b) (Constants b) cs inputs start (start + cs) mem = Ok mem' ∧ mem_ok (NumSlots b) cs mem' ∧
    slice mem' (ResultSlot b * cs) ((ResultSlot b + 1) * cs) = Ok (tab start (start + cs) (λ p, B0A0 (target p))) ∧
    ∀ p, start ≤ p < start + cs → Lift (B0A0 (target p)) = target p.
Proof.
  intros Hbase Hconst Hm. destruct Hin as (_ & Hlen & Hvar). unfold vmBase_execute. rewrite Eb.
  destruct (run_spec _ _ _ _ _ _ _ _ _ nodes lastUse S codes (Constants b)
    (base_laws (concat codes) (Constants b) (NumSlots b) cs inputs start (start + cs) ltac:(lia) ltac:(lia) ρ)
    board_is_sorted (board_shapes e W Hsz) Huses Hprog LS HS) with (vm := mem) (r := ResultSlot b) as (mem' & E & Hm' & _ & h & Ev & Eh).
  - intros j node Ej. unfold base_leaf. destruct (n_Operator node) as [v|m|l|l|] eqn:Eop; try done.
    + by apply (board_constants e (λ v, Fext.IsBase (value v) = true) Hsz Hconst j node).
    + destruct (Hvar _ m (variable_input _ j node m Ej Eop)) as (w & Ew & Eρ). pose proof (Forall_lookup_1 _ _ _ _ Hlen Ew) as Lw.
      rewrite forallb_forall in Hbase. assert (is_base w = true) as Hw by (apply Hbase, list_elem_of_In; by eapply list_elem_of_lookup_2).
      destruct w as [w|w]; [|done]. destruct Lw as [Ww Lw]. exists w. split; [apply idx_nat; [unfold var_count; apply zlen_nonneg|done]|]. split; [done|]. split; [lia|].
      intros p Hp. apply Eρ. lia.
  - apply points_ok; lia.
  - by apply board_nonempty.
  - done.
  - done.
  - exists mem'. split; [done|]. split; [done|]. assert (∀ p, start ≤ p < start + cs → Lift (h p) = target p) as Et.
    { intros p Hp. rewrite Eh by done. apply last_value. lia. }
    split; [|intros p Hp; by rewrite <-Et].
    unfold view in Ev. replace ((ResultSlot b + 1) * cs) with (ResultSlot b * cs + (start + cs - start)) by lia. rewrite Ev. f_equal.
    apply tab_ext. intros p Hp. by rewrite <-Et.
Qed.

Lemma ext_chunk vm : ext_ok (NumSlots b) cs vm →
  ∃ vm', vmExt_execute (Bytecode b) (Constants b) cs inputs start (start + cs) vm = Ok vm' ∧ ext_ok (NumSlots b) cs vm' ∧
    ext_holds cs start (start + cs) vm' (ResultSlot b) ((node_typed ρ (input_flags inputs) nodes (pred (length nodes))).1, λ p, target p).
Proof.
  intros Hm. destruct Hin as (_ & Hlen & Hvar). unfold vmExt_execute. rewrite Eb.
  destruct (run_spec _ _ _ _ _ _ _ _ _ nodes lastUse S codes (Constants b)
    (ext_laws (concat codes) (Constants b) (NumSlots b) cs inputs start (start + cs) ltac:(lia) ltac:(lia) ρ)
    board_is_sorted (board_shapes e W Hsz) Huses Hprog LS HS) with (vm := vm) (r := ResultSlot b) as (vm' & E & Hm' & Hh).
  - intros j node Ej. unfold ext_leaf. destruct (n_Operator node) as [v|m|l|l|] eqn:Eop; try done.
    destruct (Hvar _ m (variable_input _ j node m Ej Eop)) as (w & Ew & Eρ). exists w, tot.
    split; [apply idx_nat; [unfold var_count; apply zlen_nonneg|done]|]. split; [by eapply Forall_lookup_1|]. split; [lia|].
    intros p Hp. apply Eρ. lia.
  - apply points_ok; lia.
  - by apply board_nonempty.
  - done.
  - done.
  - exists vm'. split; [done|]. split; [done|]. destruct Hh as [Hf Hv]. split; [done|]. eapply slot_val_ext; [exact Hv|].
    intros p Hp. apply last_value. lia.
Qed.
End chunk.

(** *** The whole vector *)

Lemma all_constant p : areAllConstants inputs = true → 0 ≤ p < tot → target p = target 0.
Proof.
  intros Hc Hp. pose proof tot_bounds. pose proof (Board_eval (ρ p) e Hsz (Hfaith p Hp)) as Ep. pose proof (Board_eval (ρ 0) e Hsz (Hfaith 0 ltac:(lia))) as E0.
  rewrite (board_fold_ext _ (λ _, op_value (ρ 0))) in Ep; [congruence|]. intros j node vs Ej.
  destruct (n_Operator node) as [v|m|l|l|] eqn:Eop; try done. simpl. destruct Hin as (_ & _ & Hvar).
  destruct (Hvar _ m (variable_input _ j node m Ej Eop)) as (w & Ew & Eρ). rewrite !Eρ by lia. unfold areAllConstants in Hc. rewrite forallb_forall in Hc.
  specialize (Hc w ltac:(apply list_elem_of_In; by eapply list_elem_of_lookup_2)). by destruct w as [[]|[]].
Qed.

(** The vector that the code returns for the values of all positions. *)
Lemma result_vector {A} (inj : A → E4 F) (mk : vec A → SmartVector.t F) (h : Z → A) :
  (∀ v p, ext_elem (mk v) p = match elem_at v p with Some a => inj a | None => Zero end) → (∀ v, of_length tot (mk v) ↔ SmartVectorFacts.wf v ∧ Len v = tot) →
  (∀ p, 0 ≤ p < tot → inj (h p) = target p) →
  ∃ v, (if areAllConstants inputs then r0 ← idx (tab 0 tot h) 0; v ← SmartVector.NewConstant r0 tot; Ok (mk v)
        else v ← NewRegular (tab 0 tot h); Ok (mk v)) = Ok (mk v) ∧ of_length tot (mk v) ∧
    ∀ p, 0 ≤ p < tot → ext_elem (mk v) p = target p.
Proof.
  intros Hmk Hlen Hh. pose proof tot_bounds as Ht. destruct (areAllConstants inputs) eqn:Hc.
  - rewrite (idx_nat _ 0 (h 0)) by (try done; by rewrite tab_lookup by lia). cbn [mbind res_bind]. unfold SmartVector.NewConstant.
    destruct (Z.leb_spec tot 0); [lia|]. eexists. split; [done|]. rewrite Hlen. split; [split; [split; [done|done]|done]|].
    intros p Hp. rewrite Hmk. simpl. rewrite Hh by lia. symmetry. by apply all_constant.
  - assert (zlen (tab 0 tot h) = tot) as Lz by (unfold zlen; rewrite tab_length; lia).
    rewrite NewRegular_Ok by lia. eexists. split; [done|]. rewrite Hlen. split; [split; [split; [simpl; lia|done]|done]|].
    intros p Hp. rewrite Hmk. cbn [elem_at]. rewrite tab_lookup by lia. rewrite <-(Hh p Hp). f_equal. f_equal. lia.
Qed.

Section compiled.
Context (b : ExpressionBoard F M) (lastUse S : list Z) (codes : list (list Z)).
Context (Eb : Bytecode b = concat codes) (Huses : uses_ok nodes lastUse (length nodes)).
Context (Hprog : program nodes lastUse S codes (Constants b) (length nodes)) (LS : length S = length nodes).
Context (HS : ∀ (j : nat) s, S !! j = Some s → 0 ≤ s < NumSlots b) (HR : S !! pred (length nodes) = Some (ResultSlot b)).
Notation cs := (chunk_size (NumSlots b) tot).

Lemma new_mem_ok {A} (a : A) : mem_ok (NumSlots b) cs (replicate (Z.to_nat (NumSlots b * cs)) a).
Proof.
  pose proof tot_bounds. pose proof (result_slot b S HS HR). destruct (chunk_size_spec (NumSlots b) tot) as [? _]; [lia|].
  unfold mem_ok, zlen. rewrite length_replicate. nia.
Qed.

Lemma evaluate_base_spec : forallb is_base inputs = true → (∀ a v, a ∈ subs e → Op a = Constant v → Fext.IsBase (value v) = true) →
  ∃ v, evaluate_base gomaxprocs b inputs tot cs = Ok (OfBase v) ∧ of_length tot (OfBase v) ∧ ∀ p, 0 ≤ p < tot → ext_elem (OfBase v) p = target p.
Proof.
  intros Hbase Hconst. pose proof tot_bounds as Ht. destruct (chunk_size_spec (NumSlots b) tot) as [Hcs Hq]; [lia|].
  assert (0 ≤ Z.quot tot cs) as Hk by (apply Z.quot_pos; lia). unfold evaluate_base.
  assert (∀ c mem, 0 ≤ c < Z.quot tot cs → mem_ok (NumSlots b) cs mem → ∃ mem', vmBase_execute (Bytecode b) (Constants b) cs inputs (c * cs) ((c + 1) * cs) mem = Ok mem' ∧
    mem_ok (NumSlots b) cs mem' ∧ slice mem' (ResultSlot b * cs) ((ResultSlot b + 1) * cs) = Ok (tab (c * cs) ((c + 1) * cs) (λ p, B0A0 (target p))) ∧
    ∀ p, c * cs ≤ p < (c + 1) * cs → Lift (B0A0 (target p)) = target p) as Hchunk.
  { intros c mem Hc Hm. replace ((c + 1) * cs) with (c * cs + cs) by lia. apply (base_chunk b lastUse S codes); try done; nia. }
  rewrite (run_chunks_spec gomaxprocs _ _ _ cs (Z.quot tot cs) _ (mem_ok (NumSlots b) cs) (λ p, B0A0 (target p))); [|done|done| |apply new_mem_ok|].
  - cbn [mbind res_bind]. rewrite Hq. apply (result_vector Lift OfBase).
    + intros v p. unfold ext_elem. by destruct (elem_at v p).
    + done.
    + intros p Hp. destruct (Hchunk (p / cs) (newVMBase (NumSlots b) cs)) as (_ & _ & _ & _ & Hl).
      * split; [apply Z.div_pos; lia|]. apply Z.div_lt_upper_bound; lia.
      * apply new_mem_ok.
      * apply Hl. pose proof (Z.div_mod p cs ltac:(lia)). pose proof (Z.mod_pos_bound p cs ltac:(lia)). lia.
  - rewrite zlen_replicate; lia.
  - intros c mem Hc Hm. destruct (Hchunk c mem Hc Hm) as (mem' & ? & ? & ? & _). by exists mem'.
Qed.

Lemma new_ext_ok : ext_ok (NumSlots b) cs (newVMExt (NumSlots b) cs).
Proof.
  pose proof (result_slot b S HS HR). split; [apply new_mem_ok|]. split; [apply new_mem_ok|]. simpl. rewrite zlen_replicate; lia.
Qed.

Lemma evaluate_ext_spec :
  ∃ v, evaluate_ext gomaxprocs b inputs tot cs = Ok (OfExt v) ∧ of_length tot (OfExt v) ∧ ∀ p, 0 ≤ p < tot → ext_elem (OfExt v) p = target p.
Proof.
  pose proof tot_bounds as Ht. destruct (chunk_size_spec (NumSlots b) tot) as [Hcs Hq]; [lia|].
  assert (0 ≤ Z.quot tot cs) as Hk by (apply Z.quot_pos; lia). unfold evaluate_ext. pose proof (result_slot b S HS HR) as HRr.
  set (flag := (node_typed ρ (input_flags inputs) nodes (pred (length nodes))).1).
  assert (∀ c vm, 0 ≤ c < Z.quot tot cs → ext_ok (NumSlots b) cs vm → ∃ vm', vmExt_execute (Bytecode b) (Constants b) cs inputs (c * cs) ((c + 1) * cs) vm = Ok vm' ∧
    ext_ok (NumSlots b) cs vm' ∧ ext_holds cs (c * cs) ((c + 1) * cs) vm' (ResultSlot b) (flag, λ p, target p)) as Hchunk.
  { intros c vm Hc Hm. replace ((c + 1) * cs) with (c * cs + cs) by lia. apply (ext_chunk b lastUse S codes); try done; nia. }
  assert (∀ c (A : Type) (m : list A), slice m (ResultSlot b * cs) ((ResultSlot b + 1) * cs) = view cs (c * cs) ((c + 1) * cs) m (ResultSlot b)) as Hslot.
  { intros c A m. unfold view. f_equal. lia. }
  destruct (Hchunk 0 (newVMExt (NumSlots b) cs)) as (probe & Ep & Hokp & [Ef _]); [split; [lia|]; nia|apply new_ext_ok|].
  replace ((0 + 1) * cs) with cs in Ep by lia. rewrite Z.mul_0_l in Ep. rewrite Ep. cbn [mbind res_bind]. rewrite (idx_nat _ (ResultSlot b) flag) by (done || lia). cbn [mbind res_bind].
  assert (∃ h, (if flag then resBase ← run_chunks gomaxprocs (λ start stop, vmExt_execute (Bytecode b) (Constants b) cs inputs start stop)
      (λ vm, slice (baseMemory vm) (ResultSlot b * cs) ((ResultSlot b + 1) * cs)) (newVMExt (NumSlots b) cs) cs (Z.quot tot cs) (replicate (Z.to_nat tot) el_zero);
      Ok (Lift <$> (resBase : list F))
    else run_chunks gomaxprocs (λ start stop, vmExt_execute (Bytecode b) (Constants b) cs inputs start stop)
      (λ vm, slice (memory vm) (ResultSlot b * cs) ((ResultSlot b + 1) * cs)) (newVMExt (NumSlots b) cs) cs (Z.quot tot cs) (replicate (Z.to_nat tot) Zero))
    = Ok (tab 0 tot h) ∧ ∀ p, 0 ≤ p < tot → h p = target p) as (h & -> & Hh).
  2:{ cbn [mbind res_bind]. apply (result_vector (λ x, x) OfExt); [|done|done]. intros v p. unfold ext_elem. by destruct (elem_at v p). }
  clearbody flag. destruct flag.
  - exists (λ p, Lift (B0A0 (target p))). rewrite (run_chunks_spec gomaxprocs _ _ _ cs (Z.quot tot cs) _ (ext_ok (NumSlots b) cs) (λ p, B0A0 (target p)));
      [|done|done|rewrite zlen_replicate; lia|apply new_ext_ok|].
    + cbn [mbind res_bind]. rewrite tab_map, Hq. split; [done|]. intros p Hp.
      destruct (Hchunk (p / cs) (newVMExt (NumSlots b) cs)) as (_ & _ & _ & [_ (h & _ & Eh)]).
      * split; [apply Z.div_pos; lia|]. apply Z.div_lt_upper_bound; lia.
      * apply new_ext_ok.
      * cbn [snd] in Eh. rewrite <-Eh; [done|]. pose proof (Z.div_mod p cs ltac:(lia)). pose proof (Z.mod_pos_bound p cs ltac:(lia)). lia.
    + intros c vm Hc Hm. destruct (Hchunk c vm Hc Hm) as (vm' & -> & Hok' & [_ (h & Ev & Eh)]). exists vm'. split; [done|]. split; [done|].
      cbn [fst snd] in *. rewrite (Hslot c), Ev. f_equal. apply tab_ext. intros p Hp. by rewrite <-Eh.
  - exists (λ p, target p). rewrite (run_chunks_spec gomaxprocs _ _ _ cs (Z.quot tot cs) _ (ext_ok (NumSlots b) cs) (λ p, target p));
      [by rewrite Hq|done|done|rewrite zlen_replicate; lia|apply new_ext_ok|].
    intros c vm Hc Hm. destruct (Hchunk c vm Hc Hm) as (vm' & -> & Hok' & [_ (h & Ev & Eh)]). exists vm'. split; [done|]. split; [done|].
    cbn [fst snd] in *. rewrite (Hslot c), Ev. f_equal. apply tab_ext. intros p Hp. by rewrite <-Eh.
Qed.
End compiled.

Lemma AreAllBase_spec : AreAllBase inputs = Ok (forallb is_base inputs).
Proof.
  pose proof tot_bounds as Ht. destruct Hin as (_ & HF & _). clear - HF Ht H0 ExtLaws0. induction HF as [|w l Hw _ IH]; [done|]. simpl.
  rewrite (IsBase_of_length tot) by (done || lia). simpl. by destruct (is_base w).
Qed.

Lemma check_lengths_spec : check_lengths tot inputs = Ok ().
Proof.
  destruct Hin as (_ & HF & _). clear - HF. induction HF as [|w l Hw _ IH]; [done|]. simpl.
  assert (sv_Len w = tot) as -> by (destruct w; apply Hw). by rewrite Z.eqb_refl.
Qed.

(** The constants of the expression are base elements if the inputs are. *)
Definition constants_fit : Prop :=
  forallb is_base inputs = true → ∀ a v, a ∈ subs e → Op a = Constant v → Fext.IsBase (value v) = true.

Lemma Evaluate_spec : constants_fit →
  ∃ b v, Evaluate gomaxprocs (Board_of e) inputs = Ok (b, v) ∧ Nodes b = nodes ∧ of_length tot v ∧ is_base v = forallb is_base inputs ∧
    ∀ p, 0 ≤ p < tot → ext_elem v p = target p.
Proof.
  intros Hfit. pose proof tot_bounds as Ht. unfold Evaluate.
  destruct (Compile_spec (Board_of e) (board_nonempty e Hsz) board_is_sorted (board_shapes e W Hsz))
    as (b & lastUse & S & codes & Ec & En & _ & Hu & Eb & Hp & LS & HS & HR).
  unfold Board_of at 1. rewrite anchor_uncompiled. cbn [ProgramNodesCount emptyBoard]. pose proof (board_nonempty e Hsz). destruct (Z.eqb_spec 0 (zlen nodes)) as [E|_]; [by destruct nodes|]. cbn [negb]. rewrite Ec. cbn [mbind res_bind].
  destruct inputs as [|w l] eqn:Ei; [by destruct Hin|]. rewrite <-Ei in *. assert (idx inputs 0 = Ok w) as -> by (by rewrite Ei). cbn [mbind res_bind].
  assert (sv_Len w = tot) as ->. { destruct Hin as (_ & HF & _). rewrite Ei in HF. apply Forall_cons in HF as [Hw _]. destruct w; apply Hw. }
  destruct (Z.eqb_spec tot 0); [lia|]. rewrite check_lengths_spec, AreAllBase_spec. cbn [mbind res_bind].
  destruct (forallb is_base inputs) eqn:Eall.
  - destruct (evaluate_base_spec b lastUse S codes Eb Hu Hp LS HS HR Eall (Hfit Eall)) as (v & -> & Hv & Ev). cbn [mbind res_bind].
    exists b, (OfBase v). done.
  - destruct (evaluate_ext_spec b lastUse S codes Eb Hu Hp LS HS HR) as (v & -> & Hv & Ev). cbn [mbind res_bind]. exists b, (OfExt v). done.
Qed.
End evaluate.
End EvaluateFacts.
