(* ===== verification/Degree.v ===== *)
(** * Degrees of expressions

    The degree of an expression ([Expression.Degree], with its cache) and of a board
    ([ExpressionBoard.Degree]). Products add the degrees of their factors, linear
    combinations and polynomial evaluations take the largest degree of their operands. *)

From S2P Require Export SymbolicFacts Board.
From Stdlib Require Import Ring_theory Ring.
Import Utils Fext VectorsFacts SmartVectorOps SmartVectorProcess Symbolic SymbolicFacts Board BoardFacts.

Module Degree.

Section degree.
Context {F M : Type}.
Notation Expression := (Expression F M).
Notation Operator := (Operator F M).
Notation ExpressionBoard := (ExpressionBoard F M).

(** The methods [Degree] of the operators. *)
Definition op_Degree (op : Operator) (inputDegrees : list Z) : res Z :=
  match op with
  | Constant _ | Variable_ _ => Panic
  | LinComb _ | PolyEval => Max inputDegrees
  | Product exponents => foldM (λ acc p, d ← idx inputDegrees p.1; Ok (int64 (acc + p.2 * d))) 0 (enumerate exponents)
  end.

Context (getDegree : M → Z).

(** The degree, without the cache. *)
Fixpoint degree (e : Expression) : res Z :=
  match e with
  | mkExpression _ children op _ =>
      match op with
      | Constant _ => Ok 0
      | Variable_ m => Ok (getDegree m)
      | _ => childrenDeg ← mapR degree children; op_Degree op childrenDeg
      end
  end.

(** ** The cache

    The fields of an expression that the computation of its degree reads and writes. *)
Inductive dexpr : Type := mkDexpr {
  d_Op : Operator;
  d_Children : list dexpr;
  cachedDegree : option Z
}.

Fixpoint fresh_cache (e : Expression) : dexpr :=
  match e with mkExpression _ children op _ => mkDexpr op (fresh_cache <$> children) None end.

Fixpoint degreeKeepCache (e : dexpr) : res (Z * dexpr) :=
  match e with
  | mkDexpr op children (Some d) => Ok (d, e)
  | mkDexpr op children None =>
      match op with
      | Constant _ => Ok (0, e)
      | Variable_ m => let d := getDegree m in Ok (d, mkDexpr op children (Some d))
      | _ =>
          l ← mapR degreeKeepCache children;
          d ← op_Degree op l.*1;
          Ok (d, mkDexpr op l.*2 (Some d))
      end
  end.

Fixpoint uncacheDegree (e : dexpr) : dexpr :=
  match e with mkDexpr op children _ => mkDexpr op (uncacheDegree <$> children) None end.

(** [Expression.Degree] *)
Definition Degree (e : dexpr) : res (Z * dexpr) :=
  r ← degreeKeepCache e; Ok (r.1, uncacheDegree r.2).

(** ** Boards *)

Definition degree_step (degrees : list Z) (p : Z * Node F M) : res (list Z) :=
  let '(i, node) := p in
  d ← match n_Operator node with
      | Constant _ => Ok 0
      | Variable_ m => Ok (getDegree m)
      | _ => childrenDeg ← mapR (idx degrees) (n_Children node); op_Degree (n_Operator node) childrenDeg
      end;
  store degrees i d.

(** [ExpressionBoard.Degree] *)
Definition board_Degree (b : ExpressionBoard) : res Z :=
  if zlen (Nodes b) =? 0 then Ok 0 else
  degrees ← foldM degree_step (replicate (length (Nodes b)) 0) (enumerate (Nodes b));
  idx degrees (zlen (Nodes b) - 1).
End degree.
Arguments dexpr : clear implicits.

(** ** The cache does not matter for one assignment of degrees *)

Section cache.
Context {F M : Type} (getDegree : M → Z).
Notation Expr := (Expression F M).
Notation dexpr := (dexpr F M).
Implicit Types (e : Expr) (t : dexpr).

(** The expression with some of its degrees cached, all of them right. *)
Inductive caches : Expr → dexpr → Prop :=
| caches_intro h children op fl ts k : Forall2 caches children ts →
    (∀ d, k = Some d → degree getDegree (mkExpression h children op fl) = Ok d) →
    caches (mkExpression h children op fl) (mkDexpr op ts k).

Lemma dexpr_nested (P : dexpr → Prop) : (∀ op ts k, Forall P ts → P (mkDexpr op ts k)) → ∀ t, P t.
Proof.
  intros Hstep. fix IH 1. intros [op ts k]. apply Hstep. induction ts as [|t ts IHts]; constructor; [apply IH|exact IHts].
Qed.

Lemma caches_fresh e : caches e (fresh_cache e).
Proof.
  induction e as [h children op fl IH] using Expression_nested. simpl. constructor; [|done].
  apply Forall2_fmap_r, Forall_Forall2_diag. done.
Qed.

Lemma caches_uncache e t : caches e t → uncacheDegree t = fresh_cache e.
Proof.
  revert t. induction e as [h children op fl IH] using Expression_nested. intros t Hc. inversion_clear Hc as [????? k HF _]. simpl. f_equal.
  revert ts HF. induction IH as [|c children Hc _ IHc]; intros ts HF; inversion_clear HF as [|?? ts' ? Ht HF']; simpl; [done|].
  by rewrite (Hc _ Ht), IHc.
Qed.

Lemma keep_children children ts :
  Forall (λ e, ∀ t d, caches e t → degree getDegree e = Ok d → ∃ t', degreeKeepCache getDegree t = Ok (d, t') ∧ caches e t') children →
  Forall2 caches children ts → ∀ ds, mapR (degree getDegree) children = Ok ds →
  ∃ l, mapR (degreeKeepCache getDegree) ts = Ok l ∧ l.*1 = ds ∧ Forall2 caches children l.*2.
Proof.
  intros IH. revert ts. induction IH as [|e children Hc _ IHc]; intros ts HF ds E; inversion_clear HF as [|?? ts' ? Ht HF']; simpl in *.
  - injection E as <-. by exists [].
  - apply res_bind_Ok in E as (d & Ed & E). apply res_bind_Ok in E as (ds' & Eds & [= <-]).
    destruct (Hc _ d Ht Ed) as (t' & -> & Ht'). destruct (IHc _ HF' ds' Eds) as (l & -> & <- & Hl). simpl.
    eexists. split; [done|]. simpl. split; [done|]. by constructor.
Qed.

Lemma keep_spec e : ∀ t d, caches e t → degree getDegree e = Ok d → ∃ t', degreeKeepCache getDegree t = Ok (d, t') ∧ caches e t'.
Proof.
  induction e as [h children op fl IH] using Expression_nested. intros t d Hc E. inversion Hc as [????? k HF Hk]; subst. destruct k as [d'|].
  { rewrite (Hk d' eq_refl) in E. injection E as ->. by exists (mkDexpr op ts (Some d)). }
  assert (∀ ts', Forall2 caches children ts' → caches (mkExpression h children op fl) (mkDexpr op ts' (Some d))) as Hnew.
  { intros ts' HF'. constructor; [done|]. by intros ? [= <-]. }
  destruct op as [v|m|cs|es|]; simpl in E |- *.
  1: injection E as <-; by eexists.
  1: injection E as <-; eexists; split; [done|by apply Hnew].
  all: apply res_bind_Ok in E as (ds & Eds & Ed);
    destruct (keep_children children ts IH HF ds Eds) as (l & -> & El & Hl); simpl; rewrite El; simpl in *; rewrite Ed; simpl;
    (eexists; split; [done|by apply Hnew]).
Qed.

Lemma keep_uncache t : ∀ d t', degreeKeepCache getDegree t = Ok (d, t') → uncacheDegree t' = uncacheDegree t.
Proof.
  induction t as [op ts k IH] using dexpr_nested. intros d t' E. destruct k as [d'|]; [simpl in E; by injection E as _ <-|].
  assert (∀ l, mapR (degreeKeepCache getDegree) ts = Ok l → uncacheDegree <$> l.*2 = uncacheDegree <$> ts) as Hl.
  { clear E. induction IH as [|c ts Hc _ IHts]; intros l E; simpl in E; [by injection E as <-|].
    apply res_bind_Ok in E as ([d1 t1] & E1 & E). apply res_bind_Ok in E as (l' & El & [= <-]). simpl. f_equal; [by eapply Hc|by apply IHts]. }
  destruct op as [v|m|cs|es|]; simpl in E; [by injection E as _ <-|by injection E as _ <-|..];
    apply res_bind_Ok in E as (l & El & E); apply res_bind_Ok in E as (d1 & _ & [= <- <-]); simpl; f_equal; by apply Hl.
Qed.

(** [Degree] gives the degree whatever is cached for the same assignment, and clears the cache. *)
Lemma Degree_cache e t d : caches e t → degree getDegree e = Ok d → Degree getDegree t = Ok (d, fresh_cache e).
Proof.
  intros Hc E. destruct (keep_spec e t d Hc E) as (t' & Ek & Ht'). unfold Degree. rewrite Ek. simpl. by rewrite (caches_uncache e t').
Qed.
End cache.
(** ** The degree on unbounded integers *)

Section ideal.
Context {F M : Type} `{ElementLaws F, !ExtOps F, !ExtLaws F, !Metadata M, !Blake2b} (getDegree : M → Z).
Context (getDegree_nonneg : ∀ m, 0 ≤ getDegree m).
Notation Expr := (Expression F M).
Implicit Types (e : Expr).

Definition op_ideal (op : Operator F M) (ds : list Z) : Z :=
  match op with
  | Constant _ => 0
  | Variable_ m => getDegree m
  | LinComb _ | PolyEval => foldr Z.max 0 ds
  | Product es => foldr Z.add 0 (zip_with Z.mul es ds)
  end.

Fixpoint ideal e : Z := match e with mkExpression _ children op _ => op_ideal op (ideal <$> children) end.

Lemma ideal_max_ge ds d : d ∈ ds → d ≤ foldr Z.max 0 ds.
Proof. induction 1; simpl; lia. Qed.

Lemma sum_nonneg es ds : Forall (Z.le 0) es → Forall (Z.le 0) ds → 0 ≤ foldr Z.add 0 (zip_with Z.mul es ds).
Proof. intros He. revert ds. induction He as [|e es ? _ IH]; intros ds Hd; simpl; [done|]. destruct Hd as [|d ds ? Hd]; simpl; [done|]. specialize (IH ds Hd). nia. Qed.

Lemma ideal_nonneg e : wf e → 0 ≤ ideal e.
Proof.
  induction e as [h children op fl IH] using Expression_nested. intros [(_ & _ & Hs) Hc]%wf_unfold. simpl in *. destruct op as [v|m|cs|es|]; simpl.
  1: done. 1: done. 1, 3: (induction (ideal <$> children); simpl; lia).
  apply sum_nonneg; [eapply Forall_impl; [apply Hs|simpl; lia]|]. apply Forall_fmap. rewrite Forall_forall in IH, Hc |- *. auto.
Qed.

Lemma Max_ideal ds : ds ≠ [] → Forall (Z.le 0) ds → Max ds = Ok (foldr Z.max 0 ds).
Proof.
  intros Hne Hd. destruct (Max ds) as [m|] eqn:E; [|by destruct ds]. apply Max_spec in E as [Hle Hin]. f_equal.
  assert (foldr Z.max 0 ds ≤ m); [|pose proof (ideal_max_ge ds m Hin); lia]. assert (0 ≤ m) by (rewrite Forall_forall in Hd; auto).
  clear Hin Hne Hd. induction ds as [|d ds IH]; simpl; [done|]. assert (d ≤ m) by (apply Hle; left). specialize (IH ltac:(intros; apply Hle; by right)). lia.
Qed.

Lemma sum_take es ds (k : nat) (e d : Z) : Forall (Z.le 0) es → Forall (Z.le 0) ds → es !! k = Some e → ds !! k = Some d →
  let sum es ds := foldr Z.add 0 (zip_with Z.mul es ds) in
  sum (take (S k) es) (take (S k) ds) = sum (take k es) (take k ds) + e * d ∧ 0 ≤ sum (take k es) (take k ds) ∧
  sum (take (S k) es) (take (S k) ds) ≤ sum es ds.
Proof.
  intros He Hd. revert ds k Hd. induction He as [|e' es He' Hes IH]; intros ds k Hd Ee Ed; [done|]. destruct Hd as [|d' ds Hd' Hds]; [done|].
  destruct k as [|k]; simplify_eq/=.
  - pose proof (sum_nonneg es ds Hes Hds). lia.
  - destruct (IH ds k Hds Ee Ed) as (E1 & E2 & E3). simpl in *. nia.
Qed.

Lemma product_degree es ids ds : length es = length ids → length ds = length ids → Forall (Z.le 0) es → Forall (Z.le 0) ids →
  (∀ (k : nat) d i, ds !! k = Some d → ids !! k = Some i → i < 2 ^ 63 → d = i) →
  ∃ d, op_Degree (Product es : Operator F M) ds = Ok d ∧
    (foldr Z.add 0 (zip_with Z.mul es ids) < 2 ^ 63 → d = foldr Z.add 0 (zip_with Z.mul es ids)).
Proof.
  intros Le Ld He Hi Hd. unfold op_Degree.
  destruct (foldM_enumerate (λ acc p, d ← idx ds p.1; Ok (int64 (acc + p.2 * d)))
    (λ k acc, foldr Z.add 0 (zip_with Z.mul es ids) < 2 ^ 63 → acc = foldr Z.add 0 (zip_with Z.mul (take k es) (take k ids))) es 0) as (acc & E & Hacc).
  - by intros _.
  - intros k e acc Ee Hacc. pose proof (lookup_lt_Some _ _ _ Ee).
    destruct (lookup_lt_is_Some_2 ds k) as [d Ed]; [lia|]. destruct (lookup_lt_is_Some_2 ids k) as [i Ei]; [lia|].
    cbn [fst snd]. rewrite (idx_nat _ (Z.of_nat k) d) by (rewrite ?Nat2Z.id; (lia || done)). simpl. eexists. split; [done|]. intros Hb.
    destruct (sum_take es ids k e i He Hi Ee Ei) as (E1 & E2 & E3). cbv zeta in *. rewrite E1, (Hacc Hb).
    assert (0 ≤ e) by (by eapply Forall_lookup_1 in He). assert (0 ≤ i) by (by eapply Forall_lookup_1 in Hi).
    assert (0 ≤ e * i) by (by apply Z.mul_nonneg_nonneg).
    assert (e * d = e * i) as ->; [|apply int64_id; unfold in_int64; lia].
    destruct (decide (e = 0)) as [->|]; [lia|]. rewrite (Hd k d i); [done..|]. assert (1 * i ≤ e * i) by (apply Z.mul_le_mono_nonneg_r; lia). lia.
  - exists acc. split; [done|]. intros Hb. specialize (Hacc Hb). by rewrite !firstn_all2 in Hacc by lia.
Qed.

Lemma degree_ideal e : wf e → ∃ d, degree getDegree e = Ok d ∧ (ideal e < 2 ^ 63 → d = ideal e).
Proof.
  induction e as [h children op fl IH] using Expression_nested. intros [(_ & _ & Hs) Hc]%wf_unfold. simpl in Hs, Hc.
  assert (∃ ds, mapR (degree getDegree) children = Ok ds ∧ length ds = length children ∧
    ∀ (k : nat) d i, ds !! k = Some d → (ideal <$> children) !! k = Some i → i < 2 ^ 63 → d = i) as (ds & Eds & Lds & Hds).
  { clear Hs. induction IH as [|e children He _ IHc]; [by exists []|]. apply Forall_cons in Hc as [Wc Hc].
    destruct (He Wc) as (d & Ed & Hd). destruct (IHc Hc) as (ds & Eds & Lds & Hds). exists (d :: ds). simpl. rewrite Ed, Eds. simpl.
    split; [done|]. split; [lia|]. intros [|k] d' i; simpl; [naive_solver|]. apply Hds. }
  assert (Forall (Z.le 0) (ideal <$> children)) as Hpos.
  { apply Forall_fmap. eapply Forall_impl; [exact Hc|]. intros c. apply ideal_nonneg. }
  assert (foldr Z.max 0 (ideal <$> children) < 2 ^ 63 → ds = ideal <$> children) as Hmax.
  { intros Hb. apply list_eq_same_length with (length children); [by rewrite length_fmap|done|]. intros k d i _ Ei Ed.
    apply (Hds k); [done..|]. assert (i ≤ foldr Z.max 0 (ideal <$> children)); [|lia]. by eapply ideal_max_ge, list_elem_of_lookup_2. }
  assert (children ≠ [] → ∃ d, Max ds = Ok d ∧ (foldr Z.max 0 (ideal <$> children) < 2 ^ 63 → d = foldr Z.max 0 (ideal <$> children))) as HM.
  { intros Hne. destruct (Max ds) as [d|] eqn:EM; [|by destruct ds, children]. exists d. split; [done|]. intros Hb.
    rewrite (Hmax Hb), Max_ideal in EM; [by injection EM|by destruct children|done]. }
  destruct op as [v|m|cs|es|]; simpl.
  1, 2: by eexists.
  - rewrite Eds. apply HM, Hs.
  - rewrite Eds. simpl. destruct Hs as (Les & Hes & _).
    apply product_degree; rewrite ?length_fmap; [done|done|eapply Forall_impl; [exact Hes|simpl; lia]|done|done].
  - rewrite Eds. apply HM. by destruct children; simpl in *; [lia|].
Qed.
End ideal.

(** ** The degree bounds the degree of the polynomial *)

Section bound.
Context {F M : Type} `{ElementLaws F, !ExtOps F, !ExtLaws F, !Metadata M, !Blake2b} (getDegree : M → Z).
Context (getDegree_nonneg : ∀ m, 0 ≤ getDegree m).
Notation Expr := (Expression F M).
Implicit Types (f g : E4 F → E4 F).
Local Open Scope e4_scope.

Add Ring e4_ring_degree : (e4_ring (F := F)).

(** A function given by a polynomial of at most the given degree. *)
Definition deg_le (n : Z) f : Prop := ∃ cs, zlen cs ≤ n + 1 ∧ ∀ x, f x = horner cs x.

Lemma horner_step (c : E4 F) cs x : horner (c :: cs) x = horner cs x * x + c.
Proof. done. Qed.

Lemma deg_le_ext n f g : (∀ x, f x = g x) → deg_le n f → deg_le n g.
Proof. intros E (cs & L & Ef). exists cs. split; [done|]. intros x. by rewrite <-E. Qed.

Lemma deg_le_mono n m f : (n ≤ m)%Z → deg_le n f → deg_le m f.
Proof. intros L (cs & Lc & E). exists cs. split; [lia|done]. Qed.

Lemma deg_le_const c n : (0 ≤ n)%Z → deg_le n (λ _, c).
Proof. intros Hn. exists [c]. split; [unfold zlen; simpl; lia|]. intros x. simpl. ring. Qed.

Lemma deg_le_mul_const n c f : deg_le n f → deg_le n (λ x, c * f x).
Proof.
  intros (cs & L & E). exists (e4_mul c <$> cs). split; [by unfold zlen in *; rewrite length_fmap|]. intros x. rewrite E. clear L E.
  induction cs as [|d cs IH]; [simpl; ring|]. rewrite fmap_cons, !horner_step, <-IH. ring.
Qed.

Lemma deg_le_add n f g : deg_le n f → deg_le n g → deg_le n (λ x, f x + g x).
Proof.
  intros (cs & Lc & Ec) (ds & Ld & Ed).
  assert (∃ es : list (E4 F), zlen es ≤ Z.add n 1 ∧ ∀ x, horner cs x + horner ds x = horner es x) as (es & Le & Ee).
  { clear Ec Ed f g. revert n ds Lc Ld. induction cs as [|c cs IH]; intros n ds Lc Ld; [exists ds; split; [done|]; intros x; simpl; ring|].
    destruct ds as [|d ds]; [exists (c :: cs); split; [done|]; intros x; simpl; ring|].
    destruct (IH (n - 1)%Z ds) as (es & Le & Ee); [unfold zlen in *; simpl in *; lia..|]. exists (c + d :: es).
    split; [unfold zlen in *; simpl; lia|]. intros x. rewrite !horner_step, <-Ee. ring. }
  exists es. split; [done|]. intros x. by rewrite Ec, Ed.
Qed.

Lemma deg_le_shift n f : deg_le n f → deg_le (n + 1) (λ x, f x * x).
Proof. intros (cs & L & E). exists (Zero :: cs). split; [unfold zlen in *; simpl; lia|]. intros x. rewrite horner_step, E. ring. Qed.

Lemma deg_le_mul n m f g : (0 ≤ n)%Z → (0 ≤ m)%Z → deg_le n f → deg_le m g → deg_le (n + m) (λ x, f x * g x).
Proof.
  intros Hn Hm (cs & L & E) Hg. apply (deg_le_ext _ (λ x, horner cs x * g x)); [intros x; by rewrite E|]. clear E f.
  revert n Hn L. induction cs as [|c cs IH]; intros n Hn L.
  - apply (deg_le_ext _ (λ _, Zero)); [intros x; simpl; ring|]. apply deg_le_const. lia.
  - apply (deg_le_ext _ (λ x, c * g x + (horner cs x * g x) * x)); [intros x; rewrite horner_step; ring|]. apply deg_le_add.
    + apply (deg_le_mono m); [lia|]. by apply deg_le_mul_const.
    + destruct cs as [|d cs].
      * apply (deg_le_ext _ (λ _, Zero)); [intros x; simpl; ring|]. apply deg_le_const. lia.
      * replace (n + m)%Z with (n - 1 + m + 1)%Z by lia. apply deg_le_shift, IH; unfold zlen in *; simpl in *; lia.
Qed.

Lemma deg_le_exp n k f : (0 ≤ n)%Z → (0 ≤ k)%Z → deg_le n f → deg_le (k * n) (λ x, e4_exp (f x) k).
Proof.
  intros Hn Hk Hf. revert k Hk. apply natlike_ind.
  - apply (deg_le_ext _ (λ _, One)); [intros x; by rewrite e4_exp_0|]. by apply deg_le_const.
  - intros k Hk IH. apply (deg_le_ext _ (λ x, f x * e4_exp (f x) k)); [intros x; by rewrite e4_exp_succ|].
    replace (Z.succ k * n)%Z with (n + k * n)%Z by lia. apply deg_le_mul; [done|nia|done|done].
Qed.

Lemma deg_le_sum (fs : list (E4 F → E4 F)) cs n : (0 ≤ n)%Z → Forall (deg_le n) fs →
  deg_le n (λ x, total (unit := Zero) (plus := e4_add) (act := scale) ((λ f, f x) <$> fs) cs).
Proof.
  intros Hn Hf. revert cs. unfold total. induction Hf as [|f fs Hf _ IH]; intros [|c cs]; simpl; try by apply deg_le_const.
  apply deg_le_add; [|apply IH]. apply (deg_le_ext _ (λ x, Lift (el_of_Z c) * f x)); [intros x; rewrite scale_Lift; ring|]. by apply deg_le_mul_const.
Qed.

Lemma deg_le_product (fs : list (E4 F → E4 F)) es ds : Forall (Z.le 0) es → Forall (Z.le 0) ds → Forall2 deg_le ds fs →
  deg_le (foldr Z.add 0%Z (zip_with Z.mul es ds)) (λ x, total (unit := One) (plus := e4_mul) (act := e4_exp) ((λ f, f x) <$> fs) es).
Proof.
  intros He Hd Hf. revert es He. unfold total. induction Hf as [|d f ds fs Hdf Hf IH]; intros es He; simpl.
  { destruct es; simpl; by apply deg_le_const. }
  inversion_clear Hd as [|?? Hd0 Hds]. destruct He as [|e es He0 Hes]; simpl; [by apply deg_le_const|].
  apply deg_le_mul; [nia|by apply sum_nonneg|by apply deg_le_exp|by apply IH].
Qed.

Lemma deg_le_id : deg_le 1 (λ x, x).
Proof. exists [Zero; One]. split; [done|]. intros x. rewrite !horner_step. change (horner [] x) with (@Zero F _). ring. Qed.

Lemma deg_le_horner (fs : list (E4 F → E4 F)) g n : (0 ≤ n)%Z → Forall (deg_le n) fs → deg_le 0 g →
  deg_le n (λ x, horner ((λ f, f x) <$> fs) (g x)).
Proof.
  intros Hn Hf Hg. induction Hf as [|f fs Hf _ IH]; [by apply (deg_le_const Zero)|].
  eapply deg_le_ext; [intros x; rewrite fmap_cons; symmetry; apply horner_step|]. apply deg_le_add; [|done]. replace n with (n + 0)%Z by lia. by apply deg_le_mul.
Qed.

(** The points of polynomial evaluations are of degree zero. *)
Definition flat_points (e : Expr) : Prop :=
  ∀ a c, a ∈ subs e → Op a = PolyEval → head (Children a) = Some c → ideal getDegree c = 0%Z.

Lemma flat_child e c : flat_points e → c ∈ Children e → flat_points c.
Proof. intros Hp Hc a d Ha. apply Hp. by eapply subs_child. Qed.

Lemma ideal_bounds (e : Expr) (ρ : E4 F → M → E4 F) : wf e → flat_points e → (∀ m, deg_le (getDegree m) (λ x, ρ x m)) →
  deg_le (ideal getDegree e) (λ x, eval (ρ x) e).
Proof.
  intros W Hp Hρ. induction e as [h children op fl IH] using Expression_nested. apply wf_unfold in W as [(_ & _ & Hs) Hc].
  assert (Forall2 deg_le (ideal getDegree <$> children) ((λ c x, eval (ρ x) c) <$> children)) as Hch.
  { apply Forall2_fmap, Forall_Forall2_diag, Forall_forall. intros c Hin. simpl. rewrite Forall_forall in IH, Hc.
    apply IH; [done|by apply Hc|]. by eapply flat_child. }
  assert (Forall (Z.le 0) (ideal getDegree <$> children)) as Hpos.
  { apply Forall_fmap. eapply Forall_impl; [exact Hc|]. intros c Wc. by apply ideal_nonneg. }
  assert (0 ≤ foldr Z.max 0 (ideal getDegree <$> children))%Z as Hmax by (clear; induction (ideal getDegree <$> children); simpl; lia).
  assert (Forall (deg_le (foldr Z.max 0%Z (ideal getDegree <$> children))) ((λ c x, eval (ρ x) c) <$> children)) as Hle.
  { apply Forall_lookup. intros i f Ei. destruct (Forall2_lookup_r _ _ _ _ _ Hch Ei) as (d & Ed & Hd).
    eapply deg_le_mono; [|exact Hd]. by eapply ideal_max_ge, list_elem_of_lookup_2. }
  assert (∀ x, eval (ρ x) <$> children = (λ f, f x) <$> ((λ c x, eval (ρ x) c) <$> children)) as Ech by (intros x; by rewrite <-list_fmap_compose).
  destruct op as [v|m|cs|es|]; simpl in Hs |- *.
  - by apply deg_le_const.
  - apply Hρ.
  - eapply deg_le_ext; [intros x; by rewrite Ech|]. by apply deg_le_sum.
  - eapply deg_le_ext; [intros x; by rewrite Ech|]. apply deg_le_product; [|done|done]. eapply Forall_impl; [apply Hs|simpl; lia].
  - destruct children as [|c children]; [simpl in Hs; lia|]. inversion_clear Hle as [|?? _ Hle'].
    eapply deg_le_ext; [intros x; rewrite Ech; simpl; done|]. simpl. apply deg_le_horner; [done|done|].
    inversion_clear Hch as [|???? Hx _]. rewrite (Hp (mkExpression h (c :: children) PolyEval fl) c) in Hx; [done|apply subs_self|done|done].
Qed.
End bound.

(** ** The board has the degree of its expression *)

Section boards.
Context {F M : Type} `{ElementLaws F, !ExtOps F, !ExtLaws F, !Metadata M, !Blake2b} (getDegree : M → Z).
Context (getDegree_nonneg : ∀ m, 0 ≤ getDegree m).
Notation Expr := (Expression F M).

Definition degree_alg (op : Operator F M) (rs : list (res Z)) : res Z :=
  match op with
  | Constant _ => Ok 0
  | Variable_ m => Ok (getDegree m)
  | _ => ds ← mapR id rs; op_Degree op ds
  end.

Lemma mapR_id_fmap {A B} (f : A → res B) l : mapR id (f <$> l) = mapR f l.
Proof. induction l as [|x l IH]; [done|]. rewrite fmap_cons. cbn [mapR]. by rewrite IH. Qed.

Lemma degree_efold (e : Expr) : efold degree_alg e = degree getDegree e.
Proof.
  induction e as [h children op fl IH] using Expression_nested. simpl.
  assert (efold degree_alg <$> children = degree getDegree <$> children) as ->.
  { apply list_fmap_ext. intros i c Hi. rewrite Forall_forall in IH. apply IH. by eapply list_elem_of_lookup_2. }
  destruct op; simpl; rewrite ?mapR_id_fmap; done.
Qed.

Lemma read_degrees (degrees : list Z) (vals : list (res Z)) ids rs :
  Forall2 (λ (c : Z) x, vals !! Z.to_nat c = Some x) ids rs → (∀ c, c ∈ ids → 0 ≤ c) →
  (∀ (j : nat) x, vals !! j = Some x → ∃ d, x = Ok d ∧ degrees !! j = Some d) →
  ∃ ds, mapR (idx degrees) ids = Ok ds ∧ mapR id rs = Ok ds.
Proof.
  intros HF Hpos Hd. induction HF as [|c x ids rs Ex _ IH]; simpl; [by exists []|].
  destruct (Hd _ _ Ex) as (d & -> & Ed). destruct IH as (ds & -> & ->); [intros c' Hc'; apply Hpos; by right|].
  rewrite (idx_nat _ c d) by (try done; apply Hpos; left). by exists (d :: ds).
Qed.

Lemma board_Degree_spec (e : Expr) : wf e → size e < 2 ^ 32 →
  (∀ a b, a ∈ subs e → b ∈ subs e → ESHash a = ESHash b → degree getDegree a = degree getDegree b) →
  board_Degree getDegree (Board_of e) = degree getDegree e.
Proof.
  intros W Hsz HF. destruct (Board_spec e Hsz) as [Hb (init & final & En & _)]. pose proof (board_sorted _ _ Hb) as Hso.
  set (nodes := Nodes (Board_of e)) in *. set (vals := board_fold (λ _, degree_alg) nodes).
  assert (∀ (j : nat) x, vals !! j = Some x → ∃ d, x = Ok d) as Hok.
  { intros j x Ej. assert (j < length nodes)%nat as Hj by (rewrite <-(board_fold_length (λ _, degree_alg)); by eapply lookup_lt_Some).
    destruct (lookup_lt_is_Some_2 _ _ Hj) as [node Enode]. destruct (proj1 Hb j node Enode) as (a & Ha & Hst).
    unfold vals in Ej. rewrite (board_fold_stands degree_alg _ _ Hb (subs_closed e)) with (e := a) (node := node) in Ej; [|by (intros; rewrite !degree_efold; apply HF)|done..].
    injection Ej as <-. rewrite degree_efold. destruct (degree_ideal getDegree getDegree_nonneg a) as (d & -> & _); [by eapply subs_wf|]. by exists d. }
  unfold board_Degree. fold nodes. assert (zlen nodes ≠ 0) as Hn by (rewrite En, zlen_app; unfold zlen; simpl; lia).
  rewrite (proj2 (Z.eqb_neq _ _) Hn).
  destruct (foldM_enumerate (degree_step getDegree)
    (λ k degrees, length degrees = length nodes ∧ ∀ (j : nat) x, (j < k)%nat → vals !! j = Some x → ∃ d, x = Ok d ∧ degrees !! j = Some d)
    nodes (replicate (length nodes) 0)) as (degrees & -> & Ld & Hd).
  - split; [apply length_replicate|lia].
  - intros k node degrees Ek [Ld Hd]. pose proof (lookup_lt_Some _ _ _ Ek).
    assert (vals !! k = Some (node_value (λ _, degree_alg) (take k vals) node)) as Ev by (unfold vals; rewrite board_fold_prefix; by apply board_fold_lookup).
    destruct (Hok k _ Ev) as (d & Edk). unfold node_value in Edk.
    assert ((k ≤ length (take k vals))%nat) by (rewrite length_take; unfold vals; rewrite board_fold_length; lia).
    destruct (read_degrees degrees (take k vals) (n_Children node) (omap (λ c, take k vals !! Z.to_nat c) (n_Children node))) as (ds & E1 & E2).
    { by apply (sorted_children nodes k). }
    { intros c Hc. by apply (Hso k node c). }
    { intros j x [Ej Hj]%lookup_take_Some. by apply Hd. }
    assert (∀ j x, (j < S k)%nat → vals !! j = Some x → ∃ d', x = Ok d' ∧ <[k := d]> degrees !! j = Some d') as Hnew.
    { intros j x Hj Ex. destruct (decide (j = k)) as [->|Hne].
      - rewrite Ev in Ex. injection Ex as <-. exists d. split; [done|]. apply list_lookup_insert_eq. lia.
      - rewrite list_lookup_insert_ne by done. apply Hd; [lia|done]. }
    exists (<[k := d]> degrees). split; [|by rewrite length_insert]. cbn [degree_step].
    assert (store degrees (Z.of_nat k) d = Ok (<[k := d]> degrees)) as Est by (rewrite store_Ok by (unfold zlen; lia); by rewrite Nat2Z.id).
    unfold degree_alg in Edk. destruct (n_Operator node) as [v|m|cs|es|] eqn:Eop; simpl; try (injection Edk as ->; done);
      rewrite E1; rewrite E2 in Edk; simpl in *; rewrite Edk; done.
  - assert (last vals = Some (degree getDegree e)) as El.
    { unfold vals. rewrite <-degree_efold. apply Board_fold; [done|]. intros. rewrite !degree_efold. by apply HF. }
    assert (length vals = length nodes) as Lv by apply board_fold_length.
    rewrite last_lookup, Lv in El. destruct (Hd (pred (length nodes)) (degree getDegree e)) as (d & Ed & Ei); [unfold zlen in *; lia|done|].
    rewrite Ed. cbn [mbind res_bind]. apply idx_nat; [unfold zlen in *; lia|]. by replace (Z.to_nat (zlen nodes - 1)) with (pred (length nodes)) by (unfold zlen; lia).
Qed.
End boards.
End Degree.
