(* ===== verification/DegreeReduction.v ===== *)
(** * Degree reduction

    Models src/prover/symbolic/degree_reduction.go: subexpressions and sub-products that
    occur in expressions of too high a degree are replaced, one after the other, by new
    variables. *)

From S2P Require Export Degree SymbolicSimplify Collections.
From stdpp Require Import pretty.
Import Utils Fext SmartVectorOps Symbolic SymbolicFacts Board Degree.

#[local] Open Scope Z_scope.

Module DegreeReduction.

(** ** Metadata of the new variables *)

Inductive Meta (F M : Type) : Type :=
| ExternalMetadata (m : M)
| EliminatedVarMetadata (id : Z) (expr : Expression F (Meta F M)).
Arguments ExternalMetadata {F M} m.
Arguments EliminatedVarMetadata {F M} id expr.

#[export] Instance Meta_Metadata `{Metadata M} {F} : Metadata (Meta F M) := {|
  md_String m := match m with
    | ExternalMetadata m => md_String m
    | EliminatedVarMetadata id _ => ("_elim_" +:+ pretty id)%string
    end;
  md_IsBase m := match m with ExternalMetadata m => md_IsBase m | EliminatedVarMetadata _ e => IsBase e end |}.

Record DegreeReductionConfig : Type := mkConfig {
  MinWeightForTerm : Z;
  NLast : Z;
  MinDegreeForCandidate : Z;
  MaxCandidatePerRound : Z;
  MaxNumElimination : Z
}.

(** ** The iterator over sub-multisets *)

Record weightedSubMultisetIterator : Type := mkIterator {
  curr : list Z;
  maxWeight : Z;
  maxExponents : list Z;
  weights : list Z;
  exhausted : bool;
  config : DegreeReductionConfig
}.

Definition newWeightedSubMultisetIterator (exponents : list Z) (weights : option (list Z)) (maxWeight : Z) (cfg : DegreeReductionConfig)
    : weightedSubMultisetIterator :=
  let weights := match weights with Some w => w | None => replicate (length exponents) 1 end in
  mkIterator (replicate (length exponents) 0) maxWeight exponents weights false cfg.

Definition isEmpty (c : list Z) : bool := forallb (λ e, e =? 0) c.

Fixpoint isFull (c maxs : list Z) : res bool :=
  match c, maxs with
  | [], _ => Ok true
  | _, [] => Panic
  | e :: c, m :: maxs => if negb (e =? m) then Ok false else isFull c maxs
  end.

Definition currentTotalWeight (c weights : list Z) : res Z :=
  foldM (λ sum p, w ← idx weights p.1; Ok (int64 (sum + p.2 * w))) 0 (enumerate c).

Definition hasOnlyASingleOne (c : list Z) : bool :=
  let nonZero := filter (λ e, e ≠ 0) c in
  (zlen nonZero =? 1) && (foldr (λ e s, int64 (s + e)) 0 nonZero =? 1).

(** How the loop of [next] ends: with the next multiset, with one of too small a degree,
    from which [next] starts again, or at the end. *)
Inductive signal : Type := Found | Again | End_.

(** The loop over the positions below [k], from the right. *)
Fixpoint next_loop (it : weightedSubMultisetIterator) (k : nat) (c : list Z) (totalWeight cnt : Z) : res (signal * list Z) :=
  match k with
  | O => Ok (End_, c)
  | S i =>
      w ← idx (weights it) (Z.of_nat i);
      if w <? MinWeightForTerm (config it) then next_loop it i c totalWeight cnt else
      let cnt := cnt + 1 in
      if (0 <? NLast (config it)) && (NLast (config it) <? cnt) then Ok (End_, c) else
      ci ← idx c (Z.of_nat i);
      m ← idx (maxExponents it) (Z.of_nat i);
      if (ci <? m) && (int64 (totalWeight + w) <=? maxWeight it) then
        c ← store c (Z.of_nat i) (ci + 1);
        if int64 (totalWeight + w) <? MinDegreeForCandidate (config it) then Ok (Again, c) else
        full ← isFull c (maxExponents it);
        if (full : bool) || isEmpty c then next_loop it i c totalWeight cnt else Ok (Found, c)
      else
        c ← store c (Z.of_nat i) 0;
        next_loop it i c (int64 (totalWeight - ci * w)) cnt
  end.

Definition set_curr (it : weightedSubMultisetIterator) (c : list Z) (ex : bool) : weightedSubMultisetIterator :=
  mkIterator c (maxWeight it) (maxExponents it) (weights it) ex (config it).

(** [next]; the fuel bounds the calls that only find multisets of too small a degree. *)
Fixpoint next (fuel : nat) (it : weightedSubMultisetIterator) : res (bool * weightedSubMultisetIterator) :=
  match fuel with
  | O => Panic
  | S fuel =>
      if exhausted it then Ok (false, it) else
      total ← currentTotalWeight (curr it) (weights it);
      r ← next_loop it (length (curr it)) (curr it) total 0;
      match r with
      | (Found, c) => Ok (true, set_curr it c false)
      | (Again, c) => next fuel (set_curr it c false)
      | (End_, c) => Ok (false, set_curr it c true)
      end
  end.

(** More than the number of multisets. *)
Definition iterator_fuel (exponents : list Z) : nat := S (Z.to_nat (foldr (λ m a, (m + 1) * a) 1 exponents)).

(** ** Candidates *)

Record candidateInfo (F M : Type) : Type := mkCandidate { c_expr : Expression F M; c_count : Z }.
Arguments mkCandidate {F M} c_expr c_count.
Arguments c_expr {F M} _.
Arguments c_count {F M} _.

(** The order given to [sort.Slice], which sorts but not stably. *)
Definition before {F M} (a b : candidateInfo F M) : bool :=
  if negb (c_count a =? c_count b) then c_count b <? c_count a
  else zlen (Children (c_expr b)) <? zlen (Children (c_expr a)).

Class SortCandidates (F M : Type) : Type := sort_candidates : list (candidateInfo F M) → list (candidateInfo F M).
Class SortCandidatesLaws (F M : Type) `{SortCandidates F M} : Prop := {
  sort_candidates_perm l : sort_candidates l ≡ₚ l;
  sort_candidates_sorted l : StronglySorted (λ a b, before b a = false) (sort_candidates l)
}.

Definition isTrivialExpr {F M} (e : Expression F M) : bool :=
  match Op e with Constant _ | Variable_ _ => true | _ => false end.

Section collect.
Context {F M : Type} `{ElementOps F, !ExtOps F, !Countable (E4 F), !SortCandidates F M}.
Notation Expression := (Expression F M).
Notation candidateInfo := (candidateInfo F M).
Notation candidateMapType := (@DetMap.t (E4 F) _ _ candidateInfo).
Context (getDegree : M → Z).

(** [findOverDegreeIndices] *)
Definition findOverDegreeIndices (exprs : list Expression) (bound : Z) : res (list Z) :=
  foldM (λ indices p, deg ← degree getDegree p.2; Ok (if bound <? deg then indices ++ [p.1] else indices)) [] (enumerate exprs).

Definition addCandidate (candidates : candidateMapType) (e : Expression) : res candidateMapType :=
  existing ← DetMap.GetPtr candidates (ESHash e);
  match existing with
  | Some i =>
      c ← idx (DetMap.Values candidates) i;
      vs ← store (DetMap.Values candidates) i (mkCandidate (c_expr c) (c_count c + 1));
      Ok (DetMap.mk (DetMap.InnerMap candidates) vs (DetMap.Keys candidates))
  | None => DetMap.InsertNew candidates (ESHash e) (mkCandidate e 1)
  end.

(** [buildSubProductFromExponents]; nil is [None]. *)
Definition buildSubProductFromExponents (children : list Expression) (exponents : list Z) : res (option Expression) :=
  sub ← foldM (λ st p, if 0 <? p.2 then c ← idx children p.1; Ok (st.1 ++ [Some c], st.2 ++ [p.2]) else Ok st) ([], []) (enumerate exponents);
  if zlen sub.1 =? 0 then Ok None else r ← NewProduct sub.1 sub.2; Ok (Some r).

(** [computeSubsetExponentSum] and [buildSubProduct] take a subset of the factors as a
    mask of 64 bits. *)
Definition computeSubsetExponentSum (mask : Z) (exponents : list Z) : Z :=
  foldl (λ sum p, if Z.testbit mask p.1 then int64 (sum + p.2) else sum) 0 (enumerate exponents).

Definition buildSubProduct (children : list Expression) (exponents : list Z) (mask : Z) : res (option Expression) :=
  sub ← foldM (λ st p, if Z.testbit mask p.1 then n ← idx exponents p.1; Ok (st.1 ++ [Some p.2], st.2 ++ [n]) else Ok st) ([], []) (enumerate children);
  if zlen sub.1 =? 0 then Ok None else r ← NewProduct sub.1 sub.2; Ok (Some r).

(** The body of the loop over the sub-multisets. *)
Definition sub_product_step (children : list Expression) (degreeBound : Z) (it : weightedSubMultisetIterator)
    (st : candidateMapType * Z) : res (candidateMapType * Z) :=
  if hasOnlyASingleOne (curr it) then Ok st else
  degree ← currentTotalWeight (curr it) (weights it);
  if (degree <? 0) || (degreeBound <? degree) then Ok st else
  subExpr ← buildSubProductFromExponents children (curr it);
  match subExpr with
  | None => Ok st
  | Some e => candidates ← addCandidate st.1 e; Ok (candidates, st.2 + 1)
  end.

Fixpoint sub_product_loop (fuel : nat) (children : list Expression) (degreeBound : Z) (it : weightedSubMultisetIterator)
    (st : candidateMapType * Z) : res (candidateMapType * Z) :=
  match fuel with
  | O => Panic
  | S fuel' =>
      r ← next fuel it;
      if negb (r.1 : bool) then Ok st else
      st ← sub_product_step children degreeBound r.2 st;
      sub_product_loop fuel' children degreeBound r.2 st
  end.

Definition collectSubProducts (children : list Expression) (exponents : list Z) (degreeBound : Z) (cfg : DegreeReductionConfig)
    (candidates : candidateMapType) : res (candidateMapType * Z) :=
  if zlen children =? 0 then Ok (candidates, 0) else
  weights ← mapR (λ i, c ← idx children i; degree getDegree c) (seqZ 0 (zlen exponents));
  sub_product_loop (iterator_fuel exponents) children degreeBound
    (newWeightedSubMultisetIterator exponents (Some weights) degreeBound cfg) (candidates, 0).

Fixpoint collectFromExpr (degreeBound : Z) (cfg : DegreeReductionConfig) (e : Expression) (candidates : candidateMapType)
    : res (candidateMapType * Z) :=
  d ← degree getDegree e;
  if d <? MinDegreeForCandidate cfg then Ok (candidates, 0) else
  st ← (if (0 <? d) && (d <=? degreeBound) && negb (isTrivialExpr e)
        then candidates ← addCandidate candidates e; Ok (candidates, 1) else Ok (candidates, 0));
  match e with
  | mkExpression _ children op _ =>
      st ← (fix go l (st : candidateMapType * Z) := match l with
              | [] => Ok st
              | c :: l => r ← collectFromExpr degreeBound cfg c st.1; go l (r.1, st.2 + r.2)
              end) children st;
      match op with
      | Product exponents => r ← collectSubProducts children exponents degreeBound cfg st.1; Ok (r.1, st.2 + r.2)
      | _ => Ok st
      end
  end.

(** The loop of [collectCandidateSubexprs], which stops once there are enough candidates. *)
Fixpoint collect_loop (exprs : list Expression) (degreeBound : Z) (cfg : DegreeReductionConfig) (indices : list Z)
    (candidateMap : candidateMapType) : res candidateMapType :=
  match indices with
  | [] => Ok candidateMap
  | i :: indices =>
      e ← idx exprs i;
      r ← collectFromExpr degreeBound cfg e candidateMap;
      if MaxCandidatePerRound cfg <=? DetMap.Len r.1 then Ok r.1 else collect_loop exprs degreeBound cfg indices r.1
  end.

Definition collectCandidateSubexprs (exprs : list Expression) (overDegreeIndices : list Z) (degreeBound : Z) (cfg : DegreeReductionConfig)
    : res (list candidateInfo) :=
  if MaxCandidatePerRound cfg + 2 ^ 10 <? 0 then Panic else
  candidateMap ← collect_loop exprs degreeBound cfg overDegreeIndices DetMap.MakeDeterministicMap;
  Ok (DetMap.ValueSlice candidateMap).

Definition selectMostFrequentCandidate (candidates : list candidateInfo) : res Expression :=
  match sort_candidates candidates with c :: _ => Ok (c_expr c) | [] => Panic end.
End collect.

(** ** Substitution *)

Section substitute.
Context {F M : Type} `{ElementOps F, !ExtOps F, !Countable (E4 F)}.
Notation Expression := (Expression F M).

(** The remaining exponent of each hash, with the position of its last occurrence. *)
Definition exponent_map (children : list Expression) (exponents : list Z) : res (gmap (E4 F) (Z * Z)) :=
  foldM (λ mp p, n ← idx exponents p.1; Ok (<[ESHash p.2 := (p.1, n)]> mp)) ∅ (enumerate children).

(** Subtracts the exponents of the target; [None] when one of them is missing. *)
Definition subtract_step (targetExponents : list Z) (st : option (gmap (E4 F) (Z * Z))) (p : Z * Expression)
    : res (option (gmap (E4 F) (Z * Z))) :=
  match st with
  | None => Ok None
  | Some mp =>
      match mp !! ESHash p.2 with
      | None => Ok None
      | Some (index, exponent) =>
          n ← idx targetExponents p.1;
          Ok (if exponent <? n then None else Some (<[ESHash p.2 := (index, exponent - n)]> mp))
      end
  end.

(** What is left, each hash once. *)
Definition remaining_step (st : list (Expression * Z) * gmap (E4 F) (Z * Z)) (child : Expression)
    : list (Expression * Z) * gmap (E4 F) (Z * Z) :=
  let '(remaining, mp) := st in
  match mp !! ESHash child with
  | Some (index, exponent) =>
      if 0 <? exponent then (remaining ++ [(child, exponent)], <[ESHash child := (index, 0)]> mp) else st
  | None => st
  end.

Definition factorOutSubProduct (exprChildren : list Expression) (exprExponents : list Z) (targetChildren : list Expression)
    (targetExponents : list Z) : res (option (list (Expression * Z))) :=
  exprMap ← exponent_map exprChildren exprExponents;
  r ← foldM (subtract_step targetExponents) (Some exprMap) (enumerate targetChildren);
  match r with
  | None => Ok None
  | Some mp => Ok (Some (foldl remaining_step ([], mp) exprChildren).1)
  end.

Definition buildFactoredProduct (replacement : Expression) (remaining : list (Expression * Z)) : res Expression :=
  if zlen remaining =? 0 then Ok replacement
  else NewProduct (Some <$> replacement :: remaining.*1) (1 :: remaining.*2).

Definition substituteSubProduct (children : list Expression) (exponents : list Z) (target replacement : Expression)
    : res (option Expression) :=
  match Op target with
  | Product targetExponents =>
      r ← factorOutSubProduct children exponents (Children target) targetExponents;
      match r with
      | None => Ok None
      | Some remaining => e ← buildFactoredProduct replacement remaining; Ok (Some e)
      end
  | _ => Ok None
  end.

(** The flag says whether the result is another object than the original. *)
Definition rebuildExpression (original : Expression) (newChildren : list Expression) : res (Expression * bool) :=
  match Op original with
  | LinComb coeffs => e ← NewLinComb (Some <$> newChildren) coeffs; Ok (e, true)
  | Product exponents => e ← NewProduct (Some <$> newChildren) exponents; Ok (e, true)
  | PolyEval => match newChildren with x :: coeffs => e ← NewPolyEval x coeffs; Ok (e, true) | [] => Panic end
  | _ => Ok (original, false)
  end.

(** [substituteExpr]. [childrenUnchanged] compares pointers; the flag of the result says
    whether it is another object than [e]. The result is a new object, the replacement or
    a part of [e], so that no other comparison can succeed. *)
Fixpoint substituteExpr (target replacement e : Expression) : res (Expression * bool) :=
  if bool_decide (ESHash e = ESHash target) then Ok (replacement, true) else
  match e with
  | mkExpression _ children op _ =>
      substituted ← match op with
                    | Product exponents => substituteSubProduct children exponents target replacement
                    | _ => Ok None
                    end;
      match substituted with
      | Some r => Ok (r, true)
      | None =>
          if zlen children =? 0 then Ok (e, false) else
          newChildren ← mapR (substituteExpr target replacement) children;
          if forallb (λ p, negb p.2) newChildren then Ok (e, false) else rebuildExpression e newChildren.*1
      end
  end.

(** The iterations of the parallel loop write different positions. *)
Definition substituteInAll (exprs : list Expression) (target replacement : Expression) : res (list Expression) :=
  r ← mapR (substituteExpr target replacement) exprs; Ok r.*1.
End substitute.

(** ** The main loop *)

Section reduce.
Context {F M : Type} `{ElementOps F, !ExtOps F, !Countable (E4 F), !Metadata M, !Blake2b, !SortCandidates F (Meta F M)}.
Notation Expression := (Expression F (Meta F M)).
Context (degreeBound : Z) (degreeGetter : Meta F M → Z) (iteratorConfig : DegreeReductionConfig).

Definition AssertHasNoElimVarMetadata (exprs : list Expression) : res unit :=
  if existsb (λ e, existsb (λ m, match m with EliminatedVarMetadata _ _ => true | _ => false end) (ListVariableMetadata (Board_of e))) exprs
  then Panic else Ok ().

Record state : Type := mkState {
  current : list Expression;
  eliminatedSubExpressions : list Expression;
  newVars : list (Meta F M)
}.

(** One iteration: [None] when the loop breaks, otherwise the new state. *)
Definition reduce_step (st : state) : res (option state) :=
  if (0 <? MaxNumElimination iteratorConfig) && (MaxNumElimination iteratorConfig <=? zlen (newVars st)) then Ok None else
  overDegreeIndices ← findOverDegreeIndices degreeGetter (current st) degreeBound;
  if zlen overDegreeIndices =? 0 then Ok None else
  candidates ← collectCandidateSubexprs degreeGetter (current st) overDegreeIndices degreeBound iteratorConfig;
  if zlen candidates =? 0 then Ok None else
  best ← selectMostFrequentCandidate candidates;
  let meta := EliminatedVarMetadata (zlen (newVars st)) best in
  current ← substituteInAll (current st) best (NewVariable meta);
  Ok (Some (mkState current (eliminatedSubExpressions st ++ [best]) (newVars st ++ [meta]))).

(** [None] when the fuel does not suffice. *)
Fixpoint reduce_loop (fuel : nat) (st : state) : res (option state) :=
  match fuel with
  | O => Ok None
  | S fuel =>
      r ← reduce_step st;
      match r with None => Ok (Some st) | Some st => reduce_loop fuel st end
  end.

Definition ReduceDegreeOfExpressions (fuel : nat) (exprs : list Expression) : res (option state) :=
  _ ← AssertHasNoElimVarMetadata exprs;
  if degreeBound <=? 1 then Panic else
  reduce_loop fuel (mkState exprs [] []).
End reduce.
Arguments state : clear implicits.
End DegreeReduction.
