(* ===== verification/DegreeReductionFacts.v ===== *)
(** * The iterator over sub-multisets

    [next] goes through the multisets below the given exponents in lexicographic order,
    over the positions that the configuration keeps, and skips those of too large or too
    small a weight, the empty one and the full one: it returns each of the others once,
    and stops. *)

From S2P Require Export DegreeReduction.
From Stdlib Require Import Ring_theory Ring.
Import Utils Fext SmartVectorOps SmartVectorProcess Symbolic SymbolicFacts Degree DegreeReduction.

#[local] Open Scope Z_scope.

Module SubMultiset.

(** ** Lexicographic order *)

Fixpoint lex (a b : list Z) : Prop :=
  match a, b with
  | x :: a, y :: b => x < y ∨ (x = y ∧ lex a b)
  | _, _ => False
  end.

Lemma lex_trans a b c : lex a b → lex b c → lex a c.
Proof. revert b c. induction a as [|x a IH]; intros [|y b] [|z c]; simpl; try done. intros [?|[-> ?]] [?|[-> ?]]; [left; lia|by left|by left|right; eauto]. Qed.

Lemma lex_irrefl a : ¬ lex a a.
Proof. induction a as [|x a IH]; simpl; [by intros []|]. intros [?|[_ ?]]; [lia|done]. Qed.

Lemma lex_app p a b : lex a b → lex (p ++ a) (p ++ b).
Proof. intros Hl. induction p as [|x p IH]; [done|]. by right. Qed.

(** Where two vectors first differ. *)
Lemma lex_split a b : lex a b → ∃ (i : nat) x y, a !! i = Some x ∧ b !! i = Some y ∧ x < y ∧ take i a = take i b.
Proof.
  revert b. induction a as [|x a IH]; intros [|y b]; simpl; try done. intros [L|[-> Hl]]; [by exists 0%nat, x, y|].
  destruct (IH b Hl) as (i & u & v & ? & ? & ? & E). exists (S i), u, v. simpl. by rewrite E.
Qed.

Lemma zeros_least l : Forall (Z.le 0) l → l = replicate (length l) 0 ∨ lex (replicate (length l) 0) l.
Proof.
  induction 1 as [|x l Hx _ IH]; simpl; [by left|]. destruct (decide (x = 0)) as [->|]; [|right; left; lia].
  destruct IH as [<-|?]; [by left|right; by right].
Qed.

(** The value of a vector in mixed radix. *)
Fixpoint value (maxs c : list Z) : Z :=
  match maxs, c with
  | m :: maxs, x :: c => x * foldr (λ m a, (m + 1) * a) 1 maxs + value maxs c
  | _, _ => 0
  end.

Definition boxed (maxs c : list Z) : Prop := Forall2 (λ m x, 0 ≤ x ≤ m) maxs c.

Lemma value_bound maxs c : boxed maxs c → 0 ≤ value maxs c < foldr (λ m a, (m + 1) * a) 1 maxs.
Proof. induction 1 as [|m x maxs c Hx _ IH]; simpl; [lia|]. nia. Qed.

Lemma value_lex maxs a b : boxed maxs a → boxed maxs b → lex a b → value maxs a < value maxs b.
Proof.
  intros Ha. revert b. induction Ha as [|m x maxs a Hx Ha IH]; intros b Hb Hl; inversion Hb as [|? y ? b' Hy Hb']; subst; simpl in *; [done|].
  pose proof (value_bound maxs a Ha). pose proof (value_bound maxs b' Hb'). destruct Hl as [L|[-> Hl]]; [nia|]. specialize (IH b' Hb' Hl). lia.
Qed.

(** ** The positions and multisets that are visited *)

Section iterator.
Context (maxs ws : list Z) (W : Z) (cfg : DegreeReductionConfig).
Context (Hlen : length ws = length maxs) (Hmaxs : Forall (Z.le 0) maxs) (Hws : Forall (Z.le 0) ws).
Notation n := (length maxs).
Implicit Types (c v : list Z) (i j k : nat).

Definition weight c : Z := foldr Z.add 0 (zip_with Z.mul c ws).
Context (Hbound : weight maxs < 2 ^ 63).

(** The positions from [k] on whose weight is not ignored. *)
Definition heavy k : Z := zlen (filter (λ w, MinWeightForTerm cfg ≤ w) (drop k ws)).

Definition active i : Prop :=
  ∃ w, ws !! i = Some w ∧ MinWeightForTerm cfg ≤ w ∧ (NLast cfg ≤ 0 ∨ heavy i ≤ NLast cfg).

(** What the iterator looks at. *)
Definition fits c : Prop := boxed maxs c ∧ (∀ i x, c !! i = Some x → ¬ active i → x = 0) ∧ weight c ≤ W.

Lemma boxed_length c : boxed maxs c → length c = n.
Proof. intros Hb. symmetry. by eapply Forall2_length. Qed.

Lemma boxed_nonneg c : boxed maxs c → Forall (Z.le 0) c.
Proof. intros Hb. apply Forall_lookup. intros i x Ex. destruct (Forall2_lookup_r _ _ _ _ _ Hb Ex) as (m & _ & ?). lia. Qed.

Lemma weight_take_S c i x w : c !! i = Some x → ws !! i = Some w → weight (take (S i) c) = weight (take i c) + x * w.
Proof.
  unfold weight. clear. revert i ws. induction c as [|y c IH]; intros [|i] [|w' ws'] Ex Ew; simplify_eq/=; [lia|].
  rewrite (IH i ws' Ex Ew). lia.
Qed.

Lemma weight_nonneg c : Forall (Z.le 0) c → 0 ≤ weight c.
Proof. intros Hc. by apply sum_nonneg. Qed.

Lemma weight_take_le c i : Forall (Z.le 0) c → weight (take i c) ≤ weight c.
Proof.
  unfold weight. clear Hlen Hbound. intros Hc. revert i ws Hws. induction Hc as [|x c Hx Hc IH]; intros [|i] l Hl; simpl; try done.
  - destruct l as [|w l]; simpl; [done|]. apply Forall_cons in Hl as [Hw Hl]. pose proof (sum_nonneg c l Hc Hl). nia.
  - destruct l as [|w l]; simpl; [done|]. apply Forall_cons in Hl as [Hw Hl]. specialize (IH i l Hl). lia.
Qed.

Lemma weight_boxed c : boxed maxs c → weight c ≤ weight maxs.
Proof.
  unfold weight. clear Hbound Hmaxs. intros Hb. revert ws Hlen Hws. induction Hb as [|m x ms c Hx _ IH]; intros [|w l] L Hl; simplify_eq/=; [done|].
  apply Forall_cons in Hl as [Hw Hl]. specialize (IH l L Hl). nia.
Qed.

Lemma weight_zeros c m : weight (c ++ replicate m 0) = weight c.
Proof.
  unfold weight. clear. revert ws. induction c as [|x c IH]; intros [|w l]; simpl; try done; [by destruct m| |by rewrite IH].
  clear. revert l w. induction m as [|m IHm]; intros l w; simpl; [done|]. destruct l as [|w' l]; simpl; [by destruct m|]. by rewrite IHm.
Qed.

Lemma zeros_boxed : boxed maxs (replicate n 0).
Proof. clear Hlen Hws Hbound. unfold boxed. induction Hmaxs as [|m l Hm Hl IH]; simpl; [constructor|]. constructor; [lia|by apply IH]. Qed.

Lemma zeros_fit : 0 ≤ W → fits (replicate n 0).
Proof.
  intros HW. split; [apply zeros_boxed|]. split; [by intros i x [-> _]%lookup_replicate_1|]. pose proof (weight_zeros [] n) as E. simpl in E. rewrite E. done.
Qed.

Lemma heavy_S i w : ws !! i = Some w → heavy i = (if decide (MinWeightForTerm cfg ≤ w) then 1 else 0) + heavy (S i).
Proof.
  intros E. unfold heavy. rewrite (drop_S _ _ _ E), filter_cons. case_decide; [|done]. unfold zlen. simpl. lia.
Qed.

Lemma heavy_mono i j : (i ≤ j)%nat → heavy j ≤ heavy i.
Proof.
  intros L. unfold heavy. assert (drop i ws = take (j - i) (drop i ws) ++ drop j ws) as ->.
  { rewrite <-(take_drop (j - i) (drop i ws)) at 1. rewrite drop_drop. by replace (i + (j - i))%nat with j by lia. }
  rewrite filter_app. unfold zlen. rewrite length_app. lia.
Qed.

Lemma isFull_spec c ms : length c = length ms → isFull c ms = Ok (bool_decide (c = ms)).
Proof.
  clear. revert ms. induction c as [|x c IH]; intros [|m ms] L; simplify_eq/=; [done|].
  destruct (Z.eqb_spec x m) as [->|Hne]; simpl.
  - rewrite IH by done. f_equal. apply bool_decide_ext. naive_solver.
  - by rewrite bool_decide_false by naive_solver.
Qed.

Lemma store_mid (l r : list Z) (x y : Z) : store (l ++ x :: r) (zlen l) y = Ok (l ++ y :: r).
Proof.
  rewrite store_Ok by (rewrite zlen_app; unfold zlen; simpl; lia). unfold zlen. rewrite Nat2Z.id, insert_app_r_alt, Nat.sub_diag by lia. done.
Qed.

Section step.
Context (c0 : list Z) (Hc0 : fits c0) (it : weightedSubMultisetIterator).
Context (Hit : maxWeight it = W ∧ maxExponents it = maxs ∧ weights it = ws ∧ config it = cfg).

(** No larger value at [j] fits, with the values to the left of it. *)
Definition blocked j : Prop := ∀ x m w, c0 !! j = Some x → maxs !! j = Some m → ws !! j = Some w → m ≤ x ∨ W < weight (take j c0) + (x + 1) * w.

Definition following i (x : Z) : list Z := take i c0 ++ (x + 1) :: replicate (n - S i) 0.

Definition advances i (x : Z) : Prop :=
  c0 !! i = Some x ∧ active i ∧ (∃ m w, maxs !! i = Some m ∧ ws !! i = Some w ∧ x < m ∧ weight (take i c0) + (x + 1) * w ≤ W) ∧
  ∀ j, (i < j)%nat → active j → blocked j.

Definition outcome (r : signal * list Z) : Prop :=
  match r.1 with
  | Found => ∃ i x, advances i x ∧ r.2 = following i x ∧ MinDegreeForCandidate cfg ≤ weight r.2 ∧ r.2 ≠ maxs
  | Again => ∃ i x, advances i x ∧ r.2 = following i x ∧ weight r.2 < MinDegreeForCandidate cfg
  | End_ => (∀ j, active j → blocked j) ∨ ∃ i x, advances i x ∧ following i x = maxs
  end.

Lemma c0_length : length c0 = n.
Proof. apply boxed_length, Hc0. Qed.

Lemma following_weight i x w : (i < n)%nat → ws !! i = Some w → weight (following i x) = weight (take i c0) + (x + 1) * w.
Proof.
  intros Hi Ew. unfold following. rewrite cons_middle, (assoc_L (++)), weight_zeros. pose proof c0_length as L.
  assert (length (take i c0) = i) as Li by (rewrite length_take; lia).
  pose proof (weight_take_S (take i c0 ++ [x + 1]) i (x + 1) w) as E. rewrite (take_ge (take i c0 ++ [x + 1]) (S i)) in E by (rewrite length_app, Li; simpl; lia). rewrite take_app_length' in E by done.
  apply E; [|done]. by rewrite lookup_app_r, Li, Nat.sub_diag by lia.
Qed.

Lemma following_boxed i x m : c0 !! i = Some x → maxs !! i = Some m → x < m → boxed maxs (following i x).
Proof.
  intros Ex Em Hx. pose proof c0_length as L. pose proof (lookup_lt_Some _ _ _ Ex). destruct Hc0 as [Hb _].
  assert (0 ≤ x) by (destruct (Forall2_lookup_lr _ _ _ _ _ _ Hb Em Ex); lia).
  unfold boxed, following. rewrite <-(take_drop_middle _ _ _ Em) at 1. apply Forall2_app; [by apply Forall2_take|]. constructor; [lia|].
  apply Forall2_same_length_lookup. split; [rewrite length_drop, length_replicate; lia|]. intros k m' y Em' [-> _]%lookup_replicate.
  rewrite lookup_drop in Em'. eapply Forall_lookup_1 in Em'; [|exact Hmaxs]. simpl in Em'. lia.
Qed.

(** At the end of the box nothing more is found. *)
Lemma full_loop k : (k ≤ n)%nat → ∀ c t cnt, length c = n → (∀ i, (i < k)%nat → c !! i = maxs !! i) →
  ∃ c', next_loop it k c t cnt = Ok (End_, c').
Proof.
  destruct Hit as (EW & EM & Ews & Ec). induction k as [|i IH]; intros Hk c t cnt L Hfull; simpl; [by eexists|].
  destruct (lookup_lt_is_Some_2 ws i) as [w Ew]; [lia|]. destruct (lookup_lt_is_Some_2 maxs i) as [m Em]; [lia|].
  rewrite Ews, (idx_of_nat _ _ _ Ew), Ec, EM, (idx_of_nat _ _ _ Em). cbn [mbind res_bind].
  destruct (w <? _); [by apply IH; [lia|done|auto with lia]|]. destruct ((0 <? _) && _); [by eexists|].
  rewrite (idx_of_nat _ _ m) by (by rewrite Hfull by lia). cbn [mbind res_bind]. rewrite Z.ltb_irrefl. cbn [andb].
  rewrite store_Ok by (unfold zlen; lia). cbn [mbind res_bind]. rewrite Nat2Z.id. apply IH; [lia|by rewrite length_insert|].
  intros j Hj. rewrite list_lookup_insert_ne by lia. apply Hfull. lia.
Qed.

Lemma next_loop_spec k : (k ≤ n)%nat → (∀ j, (k ≤ j)%nat → active j → blocked j) →
  ∃ r, next_loop it k (take k c0 ++ replicate (n - k) 0) (weight (take k c0)) (heavy k) = Ok r ∧ outcome r.
Proof.
  pose proof Hit as (EW & EM & Ews & Ec). pose proof c0_length as L. pose proof Hc0 as (Hb & Hz & _).
  induction k as [|i IH]; intros Hk Hbl; [simpl; eexists; split; [done|]; left; intros j; apply Hbl; lia|].
  destruct (lookup_lt_is_Some_2 ws i) as [w Ew]; [lia|]. destruct (lookup_lt_is_Some_2 maxs i) as [m Em]; [lia|].
  destruct (lookup_lt_is_Some_2 c0 i) as [x Ex]; [lia|].
  assert (0 ≤ x ≤ m) as Hx by (destruct (Forall2_lookup_lr _ _ _ _ _ _ Hb Em Ex); lia).
  assert (0 ≤ w) as Hw by (by eapply Forall_lookup_1 in Hws).
  pose proof (weight_take_S c0 i x w Ex Ew) as Ewt. pose proof (weight_nonneg (take i c0) ltac:(by apply Forall_take, boxed_nonneg)) as Hwt.
  cbn [next_loop]. rewrite Ews, (idx_of_nat _ _ _ Ew), Ec. cbn [mbind res_bind].
  assert (take (S i) c0 ++ replicate (n - S i) 0 = take i c0 ++ x :: replicate (n - S i) 0) as Et by (by rewrite (take_S_r _ _ _ Ex), <-(assoc_L (++))).
  assert (replicate (n - i) 0 = 0 :: replicate (n - S i) 0) as Er by (by replace (n - i)%nat with (S (n - S i)) by lia).
  pose proof (heavy_S i w Ew) as Eh.
  destruct (Z.ltb_spec w (MinWeightForTerm cfg)) as [Hlt|Hge].
  { rewrite decide_False in Eh by lia. assert (¬ active i) as Hna by (intros (w' & Ew' & ? & _); simplify_eq; lia).
    rewrite (Hz i x Ex Hna), Z.mul_0_l, Z.add_0_r in *. rewrite Et, <-Er, Ewt. replace (heavy (S i)) with (heavy i) by lia. apply IH; [lia|]. intros j Hj Ha.
    destruct (decide (j = i)) as [->|]; [done|]. apply Hbl; [lia|done]. }
  rewrite decide_True in Eh by lia. rewrite (Z.add_comm _ 1), <-Eh.
  destruct ((0 <? NLast cfg) && (NLast cfg <? heavy i)) eqn:En.
  { eexists. split; [done|]. left. intros j Ha. apply andb_prop in En as [?%Z.ltb_lt ?%Z.ltb_lt].
    destruct (decide (S i ≤ j)%nat) as [|Hj]; [by apply Hbl|]. destruct Ha as (w' & _ & _ & Hn). pose proof (heavy_mono j i ltac:(lia)). lia. }
  assert (active i) as Hact.
  { exists w. split; [done|]. split; [done|]. apply andb_false_iff in En as [?%Z.ltb_ge|?%Z.ltb_ge]; [by left|by right]. }
  assert (zlen (take i c0) = Z.of_nat i) as Ezl by (unfold zlen; rewrite length_take; lia).
  assert (idx (take i c0 ++ x :: replicate (n - S i) 0) (Z.of_nat i) = Ok x) as Ei.
  { apply idx_of_nat. rewrite lookup_app_r, length_take by (rewrite length_take; lia). by replace (i - i `min` length c0)%nat with 0%nat by lia. }
  rewrite Et, Ei, EM, EW, (idx_of_nat _ _ _ Em), Ewt. cbn [mbind res_bind].
  assert (∀ v : Z, store (take i c0 ++ x :: replicate (n - S i) 0) (Z.of_nat i) v = Ok (take i c0 ++ v :: replicate (n - S i) 0)) as Est
    by (intros v; rewrite <-Ezl; apply store_mid).
  assert (x < m → int64 (weight (take i c0) + x * w + w) = weight (following i x)) as Enew.
  { intros Hlt. rewrite (following_weight i x w), int64_id by (done || lia || (pose proof (weight_boxed _ (following_boxed i x m Ex Em Hlt)) as Hle;
      rewrite (following_weight i x w) in Hle by (done || lia); unfold in_int64; nia)). lia. }
  destruct ((x <? m) && (int64 (weight (take i c0) + x * w + w) <=? W)) eqn:Eadv.
  - apply andb_prop in Eadv as [Hlt%Z.ltb_lt Hle%Z.leb_le]. rewrite Est, (Enew Hlt) in *. cbn [mbind res_bind]. fold (following i x).
    assert (advances i x) as Hadv.
    { split; [done|]. split; [done|]. split; [|intros j Hj; apply Hbl; lia]. exists m, w. rewrite <-(following_weight i x w) by (done || lia). done. }
    destruct (Z.ltb_spec (weight (following i x)) (MinDegreeForCandidate cfg)); [eexists; split; [done|]; by exists i, x|].
    assert (length (following i x) = n) as Lf by (by apply boxed_length, (following_boxed i x m)).
    rewrite isFull_spec by done. cbn [mbind res_bind]. case_bool_decide as Efull.
    + destruct (full_loop i ltac:(lia) (following i x) (weight (take i c0) + x * w) (heavy i) Lf) as (c' & ->).
      { intros k _. by rewrite Efull. }
      eexists. split; [done|]. right. by exists i, x.
    + assert (isEmpty (following i x) = false) as ->.
      { apply not_true_iff_false. unfold isEmpty. rewrite forallb_forall. intros Hall.
        assert ((x + 1 =? 0) = true) as ?%Z.eqb_eq; [|lia]. apply Hall, list_elem_of_In. unfold following. apply elem_of_app. right. left. }
      cbn [orb]. eexists. split; [done|]. by exists i, x.
  - rewrite Est. cbn [mbind res_bind]. rewrite <-Er.
    rewrite int64_id by (pose proof (weight_boxed c0 Hb); pose proof (weight_take_le c0 (S i) ltac:(by apply boxed_nonneg)); unfold in_int64; nia).
    replace (weight (take i c0) + x * w - x * w) with (weight (take i c0)) by lia. apply IH; [lia|]. intros j Hj Ha.
    destruct (decide (j = i)) as [->|]; [|apply Hbl; [lia|done]]. intros x' m' w'. rewrite Ex, Em, Ew. intros [= <-] [= <-] [= <-].
    apply andb_false_iff in Eadv as [?%Z.ltb_ge|Hgt%Z.leb_gt]; [by left|]. destruct (decide (m ≤ x)) as [|Hlt]; [by left|right].
    rewrite Enew, (following_weight i x w) in Hgt by (done || lia). done.
Qed.

Lemma following_lookup_right i x j : (i < j < n)%nat → following i x !! j = Some 0.
Proof.
  intros Hj. pose proof c0_length as L. unfold following. rewrite lookup_app_r, length_take by (rewrite length_take; lia).
  replace (j - i `min` length c0)%nat with (S (j - S i)) by lia. simpl. apply lookup_replicate_2. lia.
Qed.

Lemma following_lookup_left i x j : (j < i)%nat → (i < n)%nat → following i x !! j = c0 !! j.
Proof. intros Hj Hi. pose proof c0_length. unfold following. rewrite lookup_app_l by (rewrite length_take; lia). by apply lookup_take_lt. Qed.

Lemma following_fits i x : advances i x → fits (following i x).
Proof.
  intros (Ex & Ha & (m & w & Em & Ew & Hx & Hle) & _). pose proof (lookup_lt_Some _ _ _ Em) as Hi.
  assert (boxed maxs (following i x)) as Hb by (by eapply following_boxed). split; [done|]. split; [|by rewrite (following_weight i x w)].
  intros j y Ey Hna. pose proof (lookup_lt_Some _ _ _ Ey) as Hj. rewrite (boxed_length _ Hb) in Hj.
  destruct (decide (j < i)%nat); [|destruct (decide (j = i)) as [->|]; [done|rewrite following_lookup_right in Ey by lia; by injection Ey]].
  rewrite following_lookup_left in Ey by done. by apply (proj1 (proj2 Hc0) j y).
Qed.

Lemma following_lex i x : c0 !! i = Some x → lex c0 (following i x).
Proof. intros Ex. unfold following. rewrite <-(take_drop_middle _ _ _ Ex) at 1. apply lex_app. left. lia. Qed.

(** Where a vector that fits exceeds [c0] nothing is blocked. *)
Lemma unblocked v : fits v → lex c0 v → ∃ i x y, c0 !! i = Some x ∧ v !! i = Some y ∧ x < y ∧ take i c0 = take i v ∧ active i ∧ ¬ blocked i.
Proof.
  intros (Hb & Hz & Hle) (i & x & y & Ex & Ey & Hxy & Et)%lex_split. pose proof (lookup_lt_Some _ _ _ Ey) as Hi. rewrite (boxed_length _ Hb) in Hi.
  destruct (lookup_lt_is_Some_2 ws i) as [w Ew]; [lia|]. destruct (lookup_lt_is_Some_2 maxs i) as [m Em]; [lia|].
  assert (0 ≤ x) by (destruct (Forall2_lookup_lr _ _ _ _ _ _ (proj1 Hc0) Em Ex); lia).
  assert (y ≤ m) by (destruct (Forall2_lookup_lr _ _ _ _ _ _ Hb Em Ey); lia).
  assert (active i) as Ha.
  { destruct (decide (MinWeightForTerm cfg ≤ w ∧ (NLast cfg ≤ 0 ∨ heavy i ≤ NLast cfg))) as [[? ?]|Hn]; [by exists w|].
    assert (y = 0); [|lia]. apply (Hz i y Ey). intros (w' & Ew' & ? & ?). simplify_eq. by apply Hn. }
  exists i, x, y. split_and!; [done..|]. intros Hbl. assert (0 ≤ w) by (by eapply Forall_lookup_1 in Hws).
  pose proof (weight_take_le v (S i) (boxed_nonneg v Hb)) as Hw. rewrite (weight_take_S v i y w Ey Ew), <-Et in Hw.
  destruct (Hbl x m w Ex Em Ew) as [?|Hgt]; [lia|]. assert ((x + 1) * w ≤ y * w) by (apply Z.mul_le_mono_nonneg_r; lia). lia.
Qed.

Lemma following_least i x v : advances i x → fits v → lex c0 v → v = following i x ∨ lex (following i x) v.
Proof.
  intros (Ex & Ha & (m & w & Em & Ew & Hx & Hle) & Hbl) Hv Hl. pose proof (lookup_lt_Some _ _ _ Em) as Hi. pose proof c0_length as L.
  destruct (unblocked v Hv Hl) as (p & x' & y & Ex' & Ey & Hxy & Et & Hap & Hnb). destruct Hv as (Hb & _).
  assert (p ≤ i)%nat as Hpi by (destruct (decide (i < p)%nat); [exfalso; by apply Hnb, Hbl|lia]).
  destruct (decide (p = i)) as [->|Hne].
  - rewrite Ex in Ex'. injection Ex' as <-. unfold following. rewrite Et, <-(take_drop_middle v i y Ey).
    rewrite take_app_length' by (apply lookup_lt_Some in Ey; rewrite length_take; lia).
    destruct (decide (y = x + 1)) as [->|]; [|right; apply lex_app; left; lia].
    assert (length (drop (S i) v) = (n - S i)%nat) as <- by (rewrite length_drop, (boxed_length v Hb); done).
    destruct (zeros_least (drop (S i) v)) as [<-|Hz]; [by apply Forall_drop, boxed_nonneg|by left|]. right. apply lex_app. by right.
  - right. assert (p < i)%nat as Hp by lia. assert (following i x !! p = Some x') as Ep by (by rewrite following_lookup_left).
    rewrite <-(take_drop_middle _ _ _ Ep), <-(take_drop_middle _ _ _ Ey), <-Et.
    assert (take p (following i x) = take p c0) as ->; [|apply lex_app; by left].
    unfold following. rewrite take_app_le, take_take by (rewrite length_take; lia). by replace (p `min` i)%nat with p by lia.
Qed.
End step.

(** ** The calls of [next] *)

Notation bound := (foldr (λ m a, (m + 1) * a) 1 maxs).
Notation at_ c ex := (mkIterator c W maxs ws ex cfg).

Definition good v : Prop := MinDegreeForCandidate cfg ≤ weight v ∧ v ≠ maxs.

Lemma total_weight c : boxed maxs c → currentTotalWeight c ws = Ok (weight c).
Proof.
  intros Hb. pose proof (boxed_length c Hb) as L. unfold currentTotalWeight.
  destruct (foldM_enumerate (λ sum p, w ← idx ws p.1; Ok (int64 (sum + p.2 * w))) (λ k sum, sum = weight (take k c)) c 0) as (t & -> & ->).
  - done.
  - intros k x t Ex ->. destruct (lookup_lt_is_Some_2 ws k) as [w Ew]; [apply lookup_lt_Some in Ex; lia|]. cbn [fst snd].
    rewrite (idx_of_nat _ _ _ Ew). cbn [mbind res_bind]. eexists. split; [done|]. rewrite (weight_take_S c k x w) by done.
    pose proof (weight_take_le c (S k) (boxed_nonneg c Hb)) as Hle. rewrite (weight_take_S c k x w) in Hle by done.
    pose proof (weight_boxed c Hb). pose proof (weight_nonneg (take (S k) c) ltac:(by apply Forall_take, boxed_nonneg)) as H0.
    rewrite (weight_take_S c k x w) in H0 by done. apply int64_id. unfold in_int64. lia.
  - by rewrite firstn_all.
Qed.

Lemma beyond_maxs v : boxed maxs v → ¬ lex maxs v.
Proof. clear. intros Hb. induction Hb as [|m x ms v Hx _ IH]; simpl; [by intros []|]. intros [?|[_ ?]]; [lia|done]. Qed.

(** One run of the loop. *)
Lemma loop_spec c : fits c → ∃ sig c', next_loop (at_ c false) (length c) c (weight c) 0 = Ok (sig, c') ∧
  match sig with
  | End_ => ∀ v, fits v → lex c v → v = maxs
  | _ => fits c' ∧ lex c c' ∧ (∀ v, fits v → lex c v → v = c' ∨ lex c' v) ∧
      (sig = Found → good c') ∧ (sig = Again → weight c' < MinDegreeForCandidate cfg)
  end.
Proof.
  intros Hc. pose proof (boxed_length c (proj1 Hc)) as L.
  destruct (next_loop_spec c Hc (at_ c false) ltac:(done) n) as ([sig c'] & E & Ho); [done| |].
  { intros j Hj (w & Ew & _). apply lookup_lt_Some in Ew. lia. }
  assert (heavy n = 0) as Eh by (unfold heavy; by rewrite drop_ge by lia).
  rewrite Nat.sub_diag, app_nil_r, firstn_all2, Eh in E by lia. rewrite L. exists sig, c'. split; [done|].
  unfold outcome in Ho. simpl in Ho. destruct sig.
  - destruct Ho as (i & x & Ha & -> & Hd & Hf). split; [by apply following_fits|]. split; [by apply following_lex, Ha|].
    split; [intros; by apply following_least|done].
  - destruct Ho as (i & x & Ha & -> & Hd). split; [by apply following_fits|]. split; [by apply following_lex, Ha|].
    split; [intros; by apply following_least|done].
  - intros v Hv Hl. destruct Ho as [Hbl|(i & x & Ha & Ef)].
    + destruct (unblocked c Hc v Hv Hl) as (i & x & y & _ & _ & _ & _ & Ha & Hnb). by destruct Hnb; apply Hbl.
    + destruct (following_least c Hc i x v Ha Hv Hl) as [->|Hlt]; [done|]. rewrite Ef in Hlt. by apply beyond_maxs in Hlt; [|apply Hv].
Qed.

Lemma next_spec fuel c : fits c → bound - value maxs c ≤ Z.of_nat fuel → ∃ b it, next fuel (at_ c false) = Ok (b, it) ∧
  if (b : bool) then ∃ c', it = at_ c' false ∧ fits c' ∧ good c' ∧ lex c c' ∧ ∀ v, fits v → good v → lex c v → v = c' ∨ lex c' v
  else exhausted it = true ∧ ∀ v, fits v → good v → ¬ lex c v.
Proof.
  revert c. induction fuel as [|fuel IH]; intros c Hc Hf; [pose proof (value_bound maxs c (proj1 Hc)); lia|].
  cbn [next exhausted curr weights]. rewrite total_weight by apply Hc. cbn [mbind res_bind].
  destruct (loop_spec c Hc) as (sig & c' & -> & Ho). cbn [mbind res_bind]. destruct sig.
  - destruct Ho as (Hc' & Hl & Hleast & Hg & _). eexists _, _. split; [done|]. exists c'. split_and!; [done..|by apply Hg|done|].
    intros v Hv _. by apply Hleast.
  - destruct Ho as (Hc' & Hl & Hleast & _ & Hw). specialize (Hw eq_refl).
    assert (value maxs c < value maxs c') by (apply value_lex; [apply Hc|apply Hc'|done]).
    destruct (IH c' Hc' ltac:(lia)) as (b & it & E & Hres). exists b, it. split; [done|].
    assert (∀ v, fits v → good v → lex c v → lex c' v) as Hskip.
    { intros v Hv [Hgv _] Hlv. destruct (Hleast v Hv Hlv) as [->|]; [lia|done]. }
    destruct b; [|split; [apply Hres|]; intros v Hv Hgv Hlv; by apply (proj2 Hres v Hv Hgv), Hskip].
    destruct Hres as (c'' & -> & ? & ? & Hl' & Hleast'). exists c''. split_and!; [done..|by eapply lex_trans|]. intros v Hv Hgv Hlv. apply Hleast'; auto.
  - eexists _, _. split; [done|]. split; [done|]. intros v Hv [_ Hnf] Hlv. by apply Hnf, Ho.
Qed.

(** All the multisets that the loop [for iter.next()] sees. *)
Fixpoint snapshots (fuel : nat) (it : weightedSubMultisetIterator) : res (list (list Z)) :=
  match fuel with
  | O => Panic
  | S fuel' =>
      r ← next fuel it;
      if negb (r.1 : bool) then Ok [] else l ← snapshots fuel' r.2; Ok (curr r.2 :: l)
  end.

Lemma snapshots_spec fuel c : fits c → bound - value maxs c ≤ Z.of_nat fuel → ∃ l, snapshots fuel (at_ c false) = Ok l ∧
  StronglySorted lex l ∧ ∀ v, v ∈ l ↔ fits v ∧ good v ∧ lex c v.
Proof.
  revert c. induction fuel as [|fuel IH]; intros c Hc Hf; [pose proof (value_bound maxs c (proj1 Hc)); lia|].
  cbn [snapshots]. destruct (next_spec (S fuel) c Hc Hf) as (b & it & -> & Hres). cbn [mbind res_bind fst snd]. destruct b; cbn [negb].
  - destruct Hres as (c' & -> & Hc' & Hg & Hl & Hleast). assert (value maxs c < value maxs c') by (apply value_lex; [apply Hc|apply Hc'|done]).
    destruct (IH c' Hc' ltac:(lia)) as (l & -> & Hs & Hin). cbn [mbind res_bind curr]. eexists. split; [done|]. split.
    + constructor; [done|]. apply Forall_forall. intros v (_ & _ & ?)%Hin. done.
    + intros v. rewrite elem_of_cons, Hin. split.
      * intros [->|(Hv & Hgv & Hlv)]; [done|]. split_and!; [done..|by eapply lex_trans].
      * intros (Hv & Hgv & Hlv). destruct (Hleast v Hv Hgv Hlv) as [->|]; [by left|by right].
  - destruct Hres as [_ Hnone]. exists []. split; [done|]. split; [constructor|]. intros v. split; [by intros ?%elem_of_nil|].
    intros (Hv & Hgv & Hlv). by destruct (Hnone v Hv Hgv).
Qed.
End iterator.
End SubMultiset.

(** * Substitution keeps values

    Replacing a subexpression or a sub-product by a variable of the same value keeps the
    value of an expression, as long as products hold each factor once, coefficients do not
    overflow and hashes do not identify expressions of different values. *)

Import Utils Fext VectorsFacts SmartVectorOps SmartVectorProcess Symbolic SymbolicFacts SymbolicSimplify Board BoardFacts Degree DegreeReduction.

Module DegreeReductionFacts.

#[export] Instance E4_countable `{ElementLaws F} : Countable (E4 F).
Proof.
  refine (inj_countable' (λ e : E4 F, (el_val (B0A0 e), el_val (B0A1 e), el_val (B1A0 e), el_val (B1A1 e)))
    (λ p, let '(a, b, c, d) := p in mkE4 (el_of_Z a) (el_of_Z b) (el_of_Z c) (el_of_Z d)) _).
  intros [a b c d]. simpl. by rewrite !el_of_val.
Defined.

(** ** Factoring out a product *)

Section factor.
Context {F M : Type} `{ElementLaws F, !ExtOps F, !ExtLaws F, !Metadata M, !Blake2b}.
Notation Expr := (Expression F M).
Notation expmap := (gmap (E4 F) (Z * Z)).
Implicit Types (c e : Expr) (ch tc : list Expr) (es te : list Z) (mp : expmap).

Definition exp_of mp c : Z := match mp !! ESHash c with Some (_, n) => n | None => 0 end.

Lemma unique_hash ch (i j : nat) c d : NoDup (ESHash <$> ch) → ch !! i = Some c → ch !! j = Some d → ESHash c = ESHash d → i = j.
Proof. intros Hn Ei Ej E. eapply NoDup_lookup; [exact Hn| |]; rewrite list_lookup_fmap, ?Ei, ?Ej; simpl; by rewrite ?E. Qed.

Lemma exponent_map_spec ch es : NoDup (ESHash <$> ch) → length es = length ch →
  ∃ mp, exponent_map ch es = Ok mp ∧ exp_of mp <$> ch = es ∧ ∀ h, is_Some (mp !! h) ↔ h ∈ ESHash <$> ch.
Proof.
  intros Hn L. unfold exponent_map.
  destruct (foldM_enumerate (λ (mp : expmap) p, n ← idx es p.1; Ok (<[ESHash p.2 := (p.1, n)]> mp))
    (λ k mp, exp_of mp <$> take k ch = take k es ∧ ∀ h, is_Some (mp !! h) ↔ h ∈ ESHash <$> take k ch) ch ∅) as (mp & -> & E & Hd).
  - split; [done|]. intros h. rewrite lookup_empty. simpl. split; [by intros []|by intros ?%elem_of_nil].
  - intros k c mp Ec [E Hd]. destruct (lookup_lt_is_Some_2 es k) as [n En]; [apply lookup_lt_Some in Ec; lia|]. cbn [fst snd].
    rewrite (idx_of_nat _ _ _ En). cbn [mbind res_bind]. eexists. split; [done|].
    rewrite (take_S_r _ _ _ Ec), (take_S_r _ _ _ En), !fmap_app. split.
    + f_equal; [|simpl; unfold exp_of; by rewrite lookup_insert_eq]. rewrite <-E. apply list_fmap_ext. intros i d [Ei Hi]%lookup_take_Some.
      unfold exp_of. rewrite lookup_insert_ne; [done|]. intros Eh. pose proof (unique_hash ch k i c d Hn Ec Ei Eh). lia.
    + intros h. cbn [fmap list_fmap]. rewrite elem_of_app, list_elem_of_singleton, <-Hd. destruct (decide (h = ESHash c)) as [->|Hne].
      * rewrite lookup_insert_eq. split; [by right|by eexists].
      * rewrite lookup_insert_ne by done. naive_solver.
  - exists mp. split; [done|]. rewrite !firstn_all2 in E by lia. split; [done|]. intros h. rewrite Hd. by rewrite firstn_all.
Qed.

(** The exponents left in the map and those of the target make up the product. *)
Definition splits ch es tc te mp : Prop :=
  (∀ h, is_Some (mp !! h) ↔ h ∈ ESHash <$> ch) ∧ Forall2 (λ n m, 0 ≤ n ≤ m) (exp_of mp <$> ch) es ∧
  ∀ ρ, faithful ρ (λ a, a ∈ ch ∨ a ∈ tc) →
    e4_mul (prod_value ρ ch (exp_of mp <$> ch)) (prod_value ρ tc te) = prod_value ρ ch es.

Add Ring e4_ring_factor : (e4_ring (F := F)).

Lemma splits_step ch es tc te mp t n i m : NoDup (ESHash <$> ch) → length tc = length te → splits ch es tc te mp →
  mp !! ESHash t = Some (i, m) → 0 ≤ n ≤ m → splits ch es (tc ++ [t]) (te ++ [n]) (<[ESHash t := (i, m - n)]> mp).
Proof.
  intros Hn L (Hd & Hle & Hv) Et Hnm. pose proof (proj1 (Hd (ESHash t)) ltac:(by eexists)) as (c & Eh & [k Ek]%list_elem_of_lookup)%list_elem_of_fmap.
  set (mp' := <[ESHash t := (i, m - n)]> mp).
  assert (exp_of mp' <$> ch = <[k := m - n]> (exp_of mp <$> ch)) as Eexp.
  { apply list_eq. intros j. destruct (decide (j = k)) as [->|Hne].
    - rewrite list_lookup_insert_eq by (rewrite length_fmap; by eapply lookup_lt_Some). rewrite list_lookup_fmap, Ek. simpl. unfold exp_of, mp'.
      by rewrite <-Eh, lookup_insert_eq.
    - rewrite list_lookup_insert_ne, !list_lookup_fmap by done. destruct (ch !! j) as [d|] eqn:Ed; simpl; [|done]. unfold exp_of, mp'.
      rewrite lookup_insert_ne; [done|]. rewrite Eh. intros E. pose proof (unique_hash ch k j c d Hn Ek Ed E). lia. }
  assert ((exp_of mp <$> ch) !! k = Some m) as Em by (rewrite list_lookup_fmap, Ek; simpl; unfold exp_of; by rewrite <-Eh, Et).
  split; [|split].
  - intros h. rewrite <-Hd. unfold mp'. destruct (decide (h = ESHash t)) as [->|Hne]; [|by rewrite lookup_insert_ne].
    rewrite lookup_insert_eq, Et. split; intros _; by eexists.
  - rewrite Eexp. destruct (Forall2_lookup_l _ _ _ _ _ Hle Em) as (y & Ey & Hy). rewrite <-(list_insert_id _ _ _ Ey). apply Forall2_insert; [done|lia].
  - intros ρ Hf. rewrite Eexp. unfold prod_value in *. rewrite fmap_app. cbn [fmap list_fmap].
    rewrite (total_app_one (ok := Z.le 0)) by (by rewrite length_fmap).
    assert (eval ρ t = eval ρ c) as -> by (apply Hf; [right; apply elem_of_app; right; left|left; by eapply list_elem_of_lookup_2|done]).
    rewrite <-Hv by (intros a b Ha Hb; apply Hf; set_solver).
    replace (exp_of mp <$> ch) with (<[k := m - n + n]> (<[k := m - n]> (exp_of mp <$> ch))) at 2
      by (rewrite list_insert_insert_eq; replace (m - n + n) with m by lia; by apply list_insert_id).
    rewrite (total_insert (ok := Z.le 0) _ _ k (eval ρ c) (m - n) n); [ring|by rewrite list_lookup_fmap, Ek| |lia|lia].
    apply list_lookup_insert_eq. rewrite length_fmap. by eapply lookup_lt_Some.
Qed.

Lemma remaining_spec ch mp acc : NoDup (ESHash <$> ch) →
  (foldl remaining_step (acc, mp) ch).1 = acc ++ filter (λ p, 0 < p.2) (zip ch (exp_of mp <$> ch)).
Proof.
  revert mp acc. induction ch as [|c ch IH]; intros mp acc Hn; simpl; [by rewrite app_nil_r|]. apply NoDup_cons in Hn as [Hc Hn].
  assert (∀ mp' : expmap, (∀ d, d ∈ ch → mp' !! ESHash d = mp !! ESHash d) → exp_of mp' <$> ch = exp_of mp <$> ch) as Hext.
  { intros mp' E. apply list_fmap_ext. intros i d Ed. unfold exp_of. by rewrite E by (by eapply list_elem_of_lookup_2). }
  rewrite filter_cons. cbn [fst snd]. destruct (mp !! ESHash c) as [[i m]|] eqn:E.
  2: assert (exp_of mp c = 0) as -> by (unfold exp_of; by rewrite E); by rewrite decide_False, IH by (done || lia).
  assert (exp_of mp c = m) as -> by (unfold exp_of; by rewrite E).
  destruct (Z.ltb_spec 0 m); [|by rewrite decide_False, IH by (done || lia)]. rewrite decide_True, IH by done. rewrite Hext.
  - by rewrite <-(assoc_L (++)).
  - intros d Hd. apply lookup_insert_ne. intros Eh. apply Hc. rewrite Eh. by apply list_elem_of_fmap_2.
Qed.

Lemma cost_filter (norm : Expr → Z) ch es : (∀ e, 0 ≤ norm e) →
  cost norm (filter (λ p : Expr * Z, 0 < p.2) (zip ch es)).*1 (filter (λ p : Expr * Z, 0 < p.2) (zip ch es)).*2 ≤ cost norm ch es.
Proof.
  intros Hn. unfold cost. revert es. induction ch as [|c ch IH]; intros [|n es]; simpl; try done. rewrite filter_cons. simpl.
  specialize (IH es). assert (0 ≤ Z.abs n * norm c) by (specialize (Hn c); nia). case_decide; [exact (Zplus_le_compat_l _ _ _ IH)|lia].
Qed.

Lemma cost_mono (norm : Expr → Z) ch es es' : (∀ e, 0 ≤ norm e) → Forall2 (λ n m, 0 ≤ n ≤ m) es es' → cost norm ch es ≤ cost norm ch es'.
Proof.
  intros Hn HF. unfold cost. revert ch. induction HF as [|n m es es' Hnm _ IH]; intros [|c ch]; simpl; try done. specialize (IH ch). specialize (Hn c). nia.
Qed.

Lemma total_filter ρ ch es : Forall (Z.le 0) es →
  prod_value ρ (filter (λ p : Expr * Z, 0 < p.2) (zip ch es)).*1 (filter (λ p : Expr * Z, 0 < p.2) (zip ch es)).*2 = prod_value ρ ch es.
Proof.
  unfold prod_value, total. intros He. revert ch. induction He as [|n es Hn _ IH]; intros [|c ch]; simpl; try done. rewrite filter_cons. simpl.
  case_decide; simpl; [by rewrite IH|]. assert (n = 0) as -> by lia. by rewrite IH, e4_exp_0, (act_unit_l (act := e4_exp) (ok := Z.le 0)).
Qed.

(** What [factorOutSubProduct] returns: no factor, or factors that make up the product
    together with the target. *)
Lemma factorOut_spec ch es tc te : NoDup (ESHash <$> ch) → length es = length ch → Forall (Z.le 0) es → length te = length tc → Forall (Z.le 0) te →
  ∃ r, factorOutSubProduct ch es tc te = Ok r ∧ ∀ rem, r = Some rem →
    Forall (λ c, c ∈ ch) rem.*1 ∧ Forall (Z.le 0) rem.*2 ∧ cost prod_norm rem.*1 rem.*2 ≤ cost prod_norm ch es ∧
    ∀ ρ, faithful ρ (λ a, a ∈ ch ∨ a ∈ tc) → e4_mul (prod_value ρ rem.*1 rem.*2) (prod_value ρ tc te) = prod_value ρ ch es.
Proof.
  intros Hn L He Lt Ht. unfold factorOutSubProduct. destruct (exponent_map_spec ch es Hn L) as (mp & -> & Eexp & Hd). cbn [mbind res_bind].
  destruct (foldM_enumerate (subtract_step te) (λ k st, ∀ mp', st = Some mp' → splits ch es (take k tc) (take k te) mp') tc (Some mp)) as (st & -> & Hst).
  - intros ? [= <-]. split; [done|]. split.
    + rewrite Eexp. apply Forall_Forall2_diag. eapply Forall_impl; [exact He|]. simpl. lia.
    + intros ρ _. rewrite Eexp. unfold prod_value at 2, total. simpl. ring.
  - intros k t [mp'|] Et Hst; [|by exists None]. unfold subtract_step. cbn [fst snd].
    destruct (mp' !! ESHash t) as [[i m]|] eqn:Em; [|by exists None].
    destruct (lookup_lt_is_Some_2 te k) as [n En]; [apply lookup_lt_Some in Et; lia|]. rewrite (idx_of_nat _ _ _ En). cbn [mbind res_bind].
    destruct (Z.ltb_spec m n); [by exists None|]. eexists. split; [done|]. intros ? [= <-].
    rewrite (take_S_r _ _ _ Et), (take_S_r _ _ _ En). apply splits_step; [done|rewrite !length_take; lia|by apply Hst|done|].
    split; [by eapply Forall_lookup_1 in Ht|done].
  - destruct st as [mp'|]; cbn [mbind res_bind]; [|by exists None]. eexists. split; [done|]. intros rem [= <-].
    specialize (Hst mp' eq_refl). rewrite !firstn_all2 in Hst by lia. destruct Hst as (_ & Hle & Hv). rewrite remaining_spec by done. cbn [app].
    assert (Forall (Z.le 0) (exp_of mp' <$> ch)) as Hpos.
    { apply Forall_lookup. intros i n Ei. destruct (Forall2_lookup_l _ _ _ _ _ Hle Ei) as (m & _ & ?). lia. }
    split_and!.
    + apply Forall_fmap, Forall_forall. intros [c n] [_ Hp]%list_elem_of_filter. simpl. by eapply elem_of_zip_l.
    + apply Forall_fmap, Forall_forall. intros [c n] [Hp _]%list_elem_of_filter. simpl in *. lia.
    + etransitivity; [apply cost_filter, prod_norm_nonneg|]. apply cost_mono; [apply prod_norm_nonneg|done].
    + intros ρ Hf. rewrite total_filter by done. by apply Hv.
Qed.
End factor.

(** ** Substitution *)

Section substitute.
Context {F M : Type} `{ElementLaws F, !ExtOps F, !ExtLaws F, !Metadata M, !Blake2b}.
Notation Expr := (Expression F M).
Implicit Types (e a t r : Expr).

(** Products hold each factor once and flatten without overflow. *)
Definition product_ok a : bool :=
  match Op a with
  | Product es => bool_decide (NoDup (ESHash <$> Children a)) && (cost prod_norm (Children a) es + 1 <? 2 ^ 63)
  | _ => true
  end.

(** The expressions rebuilt by the substitution do not overflow. *)
Fixpoint rebuild_ok t r e : bool :=
  match e with
  | mkExpression _ children op _ =>
      forallb (rebuild_ok t r) children &&
      match mapR (substituteExpr t r) children, op with
      | Ok l, LinComb cs => cost lin_norm l.*1 cs <? 2 ^ 63
      | Ok l, Product es => cost prod_norm l.*1 es <? 2 ^ 63
      | _, _ => true
      end
  end.

(** The expressions whose hashes the substitution compares. *)
Fixpoint compared t r e : list Expr :=
  match e with
  | mkExpression _ children op _ =>
      e :: concat (compared t r <$> children) ++
      match mapR (substituteExpr t r) children with Ok l => l.*1 ++ concat (Children <$> l.*1) | Panic => [] end
  end.

Lemma compared_self t r e : e ∈ compared t r e.
Proof. destruct e. left. Qed.

Lemma compared_child t r e c a : c ∈ Children e → a ∈ compared t r c → a ∈ compared t r e.
Proof.
  destruct e as [h children op fl]. simpl. intros Hc Ha. right. apply elem_of_app. left. apply elem_of_concat. exists (compared t r c).
  split; [by apply list_elem_of_fmap_2|done].
Qed.

Lemma compared_parts t r e l a : mapR (substituteExpr t r) (Children e) = Ok l → parts l.*1 a → a ∈ compared t r e.
Proof.
  destruct e as [h children op fl]. simpl. intros -> Hp. right. apply elem_of_app. right. apply elem_of_app.
  destruct Hp as [?|(b & Hb & Ha)]; [by left|right]. apply elem_of_concat. exists (Children b). split; [by apply list_elem_of_fmap_2|done].
Qed.

Definition agrees ρ t r e : Prop :=
  faithful ρ (λ a, a ∈ r :: subs t ++ compared t r e) ∧ vanishing ρ (λ a, a ∈ r :: subs t ++ compared t r e) ∧ eval ρ r = eval ρ t.

Lemma agrees_child ρ t r e c : agrees ρ t r e → c ∈ Children e → agrees ρ t r c.
Proof.
  intros (Hf & Hz & E) Hc. assert (∀ a, a ∈ r :: subs t ++ compared t r c → a ∈ r :: subs t ++ compared t r e) as Hin.
  { intros a. rewrite !elem_of_cons, !elem_of_app. pose proof (compared_child t r e c a Hc). naive_solver. }
  split; [intros a b Ha Hb; apply Hf; auto|]. split; [|done]. intros a Ha. apply Hz; auto.
Qed.

Lemma agrees_sub ρ t r e (P : Expr → Prop) : agrees ρ t r e → (∀ a, P a → a = r ∨ a ∈ subs t ∨ a ∈ compared t r e) → faithful ρ P ∧ vanishing ρ P.
Proof.
  intros (Hf & Hz & _) HP. assert (∀ a, P a → a ∈ r :: subs t ++ compared t r e) as Hin.
  { intros a Ha. rewrite elem_of_cons, elem_of_app. by apply HP. }
  split; [intros a b Ha Hb; apply Hf; auto|intros a Ha; apply Hz; auto].
Qed.

Lemma compared_grandchild t r e c a : c ∈ Children e → a ∈ Children c → a ∈ compared t r e.
Proof. intros Hc Ha. eapply compared_child; [done|]. eapply compared_child; [done|]. apply compared_self. Qed.

Lemma value_product ρ e es : Op e = Product es → eval ρ e = prod_value ρ (Children e) es.
Proof. intros E. by rewrite eval_unfold, E. Qed.

Add Ring e4_ring_substitute : (e4_ring (F := F)).

(** A product is replaced by the variable times the remaining factors. *)
Lemma substituteSubProduct_spec t r e es : wf e → wf t → wf r → Children r = [] → prod_norm r = 1 → Op e = Product es → product_ok e = true →
  ∃ s, substituteSubProduct (Children e) es t r = Ok s ∧ ∀ e', s = Some e' → wf e' ∧ ∀ ρ, agrees ρ t r e → eval ρ e' = eval ρ e.
Proof.
  intros We Wt Wr Cr Nr Eop Hok. unfold product_ok in Hok. rewrite Eop in Hok. apply andb_prop in Hok as [Hn%bool_decide_eq_true Hb%Z.ltb_lt].
  pose proof We as [(_ & _ & Hs) Hc]%wf_unfold. rewrite Eop in Hs. destruct Hs as (L & Hes & _).
  unfold substituteSubProduct. destruct (Op t) as [?|?|?|te|] eqn:Et; try (eexists; split; [done|]; by intros ? [=]).
  pose proof Wt as [(_ & _ & Hst) _]%wf_unfold. rewrite Et in Hst. destruct Hst as (Lt & Hte & _).
  destruct (factorOut_spec (Children e) es (Children t) te) as (fo & -> & Hfo); [done|done|eapply Forall_impl; [exact Hes|simpl; lia]|done|
    eapply Forall_impl; [exact Hte|simpl; lia]|].
  cbn [mbind res_bind]. destruct fo as [rem|]; [|eexists; split; [done|]; by intros ? [=]]. destruct (Hfo rem eq_refl) as (Hin & Hpos & Hcost & Hv).
  assert (∀ ρ, agrees ρ t r e → e4_mul (eval ρ r) (prod_value ρ rem.*1 rem.*2) = eval ρ e) as Hval.
  { intros ρ Ha. pose proof Ha as (_ & _ & Er). rewrite Er, (value_product ρ t te Et), (value_product ρ e es Eop), <-Hv; [ring|].
    apply (agrees_sub ρ t r e); [done|]. intros a [Hch|Htc]; right; [right; by eapply compared_child, compared_self|left].
    eapply subs_child; [done|apply subs_self]. }
  unfold buildFactoredProduct. destruct (Z.eqb_spec (zlen rem) 0) as [E0|E0].
  { cbn [mbind res_bind]. eexists. split; [done|]. intros e' [= <-]. split; [done|]. intros ρ Ha. rewrite <-Hval by done. destruct rem; [|by unfold zlen in E0].
    unfold prod_value, total. simpl. ring. }
  destruct (NewProduct_spec (r :: rem.*1) (1 :: rem.*2)) as (e' & E & We' & Hv').
  - constructor; [done|]. eapply Forall_impl; [exact Hin|]. simpl. intros c Hcin. rewrite Forall_forall in Hc. by apply Hc.
  - simpl. by rewrite !length_fmap.
  - by constructor.
  - unfold cost in *. cbn [zip_with foldr]. rewrite Nr. lia.
  - rewrite E. cbn [mbind res_bind]. eexists. split; [done|]. intros ? [= <-]. split; [done|]. intros ρ Ha.
    assert (faithful ρ (parts (r :: rem.*1)) ∧ vanishing ρ (parts (r :: rem.*1))) as [Hf Hz].
    { apply (agrees_sub ρ t r e); [done|]. rewrite Forall_forall in Hin.
      intros a [[->|Har]%elem_of_cons|(b & [->|Hb']%elem_of_cons & Hab)]; [by left|right; right; eapply compared_child, compared_self; by apply Hin|
        by rewrite Cr in Hab; apply elem_of_nil in Hab|right; right; eapply compared_grandchild; [by apply Hin|done]]. }
    rewrite (Hv' ρ Hf Hz), <-Hval by done. unfold prod_value, total. simpl. by rewrite e4_exp_1.
Qed.

(** What substitution does to an expression. *)
Definition substituted t r e : Prop :=
  ∃ p, substituteExpr t r e = Ok p ∧ wf p.1 ∧ ∀ ρ, agrees ρ t r e → eval ρ p.1 = eval ρ e.

Lemma substituted_children t r (l : list Expr) : Forall (substituted t r) l →
  ∃ ps, mapR (substituteExpr t r) l = Ok ps ∧ length ps = length l ∧ Forall wf ps.*1 ∧
    ∀ ρ, Forall (agrees ρ t r) l → eval ρ <$> ps.*1 = eval ρ <$> l.
Proof.
  induction 1 as [|e l (p & Ep & Wp & Hp) _ IH]; [by exists []|]. destruct IH as (ps & Eps & L & Wps & Hps). exists (p :: ps).
  simpl. rewrite Ep, Eps. simpl. split; [done|]. split; [lia|]. split; [by constructor|]. intros ρ Ha. apply Forall_cons in Ha as [? ?].
  rewrite Hp by done. f_equal. by apply Hps.
Qed.

(** The rebuilt node has the value of the operator on the new children. *)
Lemma rebuild_spec e ps : wf e → Children e ≠ [] → length ps = length (Children e) → Forall wf ps →
  match Op e with LinComb cs => cost lin_norm ps cs < 2 ^ 63 | Product es => cost prod_norm ps es < 2 ^ 63 | _ => True end →
  ∃ p, rebuildExpression e ps = Ok p ∧ wf p.1 ∧
    ∀ ρ, faithful ρ (parts ps) → vanishing ρ (parts ps) → eval ρ <$> ps = eval ρ <$> Children e → eval ρ p.1 = eval ρ e.
Proof.
  intros [(_ & _ & Hs) _]%wf_unfold Hne L Wps Hb. unfold rebuildExpression.
  destruct (Op e) as [g|m|cs|es|] eqn:Eop; [by destruct Hs|done| | |].
  - destruct Hs as (Lc & _). destruct (NewLinComb_spec ps cs Wps ltac:(lia) Hb) as (e' & -> & We & Hv). simpl. eexists. split; [done|]. split; [done|].
    intros ρ Hf _ E. simpl. rewrite (Hv ρ Hf), (eval_unfold ρ e), Eop. simpl. unfold lin_value. by rewrite E.
  - destruct Hs as (Lc & Hes & _). destruct (NewProduct_spec ps es Wps ltac:(lia)) as (e' & -> & We & Hv); [eapply Forall_impl; [exact Hes|simpl; lia]|done|].
    simpl. eexists. split; [done|]. split; [done|]. intros ρ Hf Hz E. simpl. rewrite (Hv ρ Hf Hz), (value_product ρ e es Eop). unfold prod_value. by rewrite E.
  - destruct ps as [|x coeffs]; [simpl in L; lia|]. inversion_clear Wps as [|?? Wx Wc].
    destruct (NewPolyEval_spec x coeffs Wx Wc) as (e' & -> & We & Hv); [by destruct coeffs; simpl in *; [lia|]|]. simpl. eexists. split; [done|]. split; [done|].
    intros ρ _ _ E. simpl. rewrite Hv, (eval_unfold ρ e), Eop, <-E. done.
Qed.

Lemma substituteExpr_unfold t r e : substituteExpr t r e =
  if bool_decide (ESHash e = ESHash t) then Ok (r, true) else
  s ← match Op e with Product es => substituteSubProduct (Children e) es t r | _ => Ok None end;
  match s with
  | Some r => Ok (r, true)
  | None =>
      if zlen (Children e) =? 0 then Ok (e, false) else
      ps ← mapR (substituteExpr t r) (Children e);
      if forallb (λ p, negb p.2) ps then Ok (e, false) else rebuildExpression e ps.*1
  end.
Proof. by destruct e. Qed.

Lemma substituteExpr_spec t r e : wf t → wf r → Children r = [] → prod_norm r = 1 → wf e →
  Forall (λ a, product_ok a = true) (subs e) → rebuild_ok t r e = true → substituted t r e.
Proof.
  intros Wt Wr Cr Nr. induction e as [h children op fl IH] using Expression_nested. intros We Hpo Hre. set (e := mkExpression h children op fl) in *.
  assert (∀ ρ, agrees ρ t r e → ESHash e = ESHash t → eval ρ r = eval ρ e) as Hself.
  { intros ρ (Hf & _ & ->) E. symmetry. apply Hf; [right; apply elem_of_app; right; apply compared_self|right; apply elem_of_app; left; apply subs_self|done]. }
  unfold substituted. rewrite substituteExpr_unfold. cbn [Op Children e]. case_bool_decide as Eh.
  { eexists. split; [done|]. split; [done|]. intros ρ Ha. by apply Hself. }
  assert (∃ s, match op with Product es => substituteSubProduct children es t r | _ => Ok None end = Ok s ∧
    ∀ e', s = Some e' → wf e' ∧ ∀ ρ, agrees ρ t r e → eval ρ e' = eval ρ e) as (s & -> & Hs).
  { destruct op as [?|?|?|es|]; try (exists None; split; [done|]; by intros ? [=]).
    apply (substituteSubProduct_spec t r e es); try done. rewrite Forall_forall in Hpo. apply Hpo, subs_self. }
  cbn [mbind res_bind]. destruct s as [e'|]; [destruct (Hs e' eq_refl); eexists; split; [done|]; by split|].
  destruct (Z.eqb_spec (zlen children) 0) as [E0|E0]; [by exists (e, false)|].
  apply andb_prop in Hre as [Hrc Hrb]. rewrite forallb_forall in Hrc. pose proof We as [_ Hc]%wf_unfold. simpl in Hc.
  destruct (substituted_children t r children) as (ps & Eps & L & Wps & Hps).
  { rewrite Forall_forall in IH, Hc |- *. intros c Hin. apply IH; [done|by apply Hc| |apply Hrc, list_elem_of_In; done].
    rewrite Forall_forall in Hpo |- *. intros a Ha. apply Hpo. by eapply (subs_child e c). }
  rewrite Eps in Hrb |- *. cbn [mbind res_bind].
  assert (∀ ρ, agrees ρ t r e → eval ρ <$> ps.*1 = eval ρ <$> children) as Hch.
  { intros ρ Ha. apply Hps, Forall_forall. intros c Hin. by apply (agrees_child ρ t r e). }
  destruct (forallb _ ps); [by exists (e, false)|].
  destruct (rebuild_spec e ps.*1) as (p & Ep & Wp & Hv); [done|by destruct children|by rewrite length_fmap|done| |].
  { cbn [Op e]. destruct op; [done..|by apply Z.ltb_lt|by apply Z.ltb_lt|done]. }
  exists p. split; [done|]. split; [done|]. intros ρ Ha. apply Hv; [| |by apply Hch];
    apply (agrees_sub ρ t r e); try done; intros a Hp; right; right; by eapply (compared_parts t r e ps).
Qed.
End substitute.
End DegreeReductionFacts.
