(* ===== verification/Reduction.v ===== *)
(** * Collecting candidates

    On expressions whose products do not overflow, the collection of candidates ends, does
    not panic and finds well-formed expressions. *)

From S2P Require Export DegreeReductionFacts.
Import Utils Fext SmartVectorOps SmartVectorProcess Symbolic SymbolicFacts SymbolicSimplify Board BoardFacts Degree DegreeReduction SubMultiset DegreeReductionFacts.

#[local] Open Scope Z_scope.

Module Candidates.

Lemma mapR_positions {A B} (f : A → res B) (g : A → B) l : (∀ x, x ∈ l → f x = Ok (g x)) →
  mapR (λ i, x ← idx l i; f x) (seqZ 0 (zlen l)) = Ok (g <$> l).
Proof.
  intros Hf. assert (∀ k : nat, (k ≤ length l)%nat → mapR (λ i, x ← idx l i; f x) (seqZ 0 (Z.of_nat k)) = Ok (g <$> take k l)) as Hk.
  { induction k as [|k IH]; intros L; [done|]. destruct (lookup_lt_is_Some_2 l k) as [x Ex]; [lia|].
    rewrite seqZ_S, mapR_app, IH by lia. cbn [mbind res_bind mapR]. rewrite Z.add_0_l, (idx_of_nat _ _ _ Ex). cbn [mbind res_bind].
    rewrite Hf by (by eapply list_elem_of_lookup_2). cbn [mbind res_bind]. by rewrite (take_S_r _ _ _ Ex), fmap_app. }
  unfold zlen. rewrite Hk by done. by rewrite firstn_all.
Qed.

Section candidates.
Context {F M : Type} `{ElementLaws F, !ExtOps F, !ExtLaws F, !Metadata M, !Blake2b, !SortCandidates F M, !SortCandidatesLaws F M}.
Context (getDegree : M → Z) (getDegree_nonneg : ∀ m, 0 ≤ getDegree m).
Notation Expr := (Expression F M).
Notation cmap := (@DetMap.t (E4 F) _ _ (candidateInfo F M)).
Implicit Types (e a : Expr) (mp : cmap).

Definition cmap_ok mp : Prop := DetMap.wf mp ∧ Forall (λ c, wf (c_expr c)) (DetMap.Values mp).

Lemma addCandidate_spec mp e : cmap_ok mp → wf e → ∃ mp', addCandidate mp e = Ok mp' ∧ cmap_ok mp'.
Proof.
  intros [W Hv] We. unfold addCandidate, DetMap.GetPtr. destruct (DetMap.InnerMap mp !! ESHash e) as [i|] eqn:Ei.
  - pose proof (DetMap.wf_bound _ _ _ W Ei) as Hi. rewrite (proj2 (Z.leb_gt _ _)) by lia. cbn [mbind res_bind].
    destruct (idx_is_Ok (DetMap.Values mp) i Hi) as [c Ec]. rewrite Ec. cbn [mbind res_bind]. rewrite store_Ok by done. cbn [mbind res_bind].
    eexists. split; [done|]. apply idx_Ok in Ec as [_ Ec]. split; [|simpl; apply Forall_insert; [done|]; exact (Forall_lookup_1 _ _ _ _ Hv Ec)].
    destruct W as [HL HI]. split; simpl; [by rewrite length_insert|done].
  - cbn [mbind res_bind]. destruct (DetMap.InsertNew_spec mp (ESHash e) (mkCandidate e 1) W) as (mp' & E & W' & _).
    { by apply DetMap.lookup_None. }
    exists mp'. split; [done|]. split; [done|]. unfold DetMap.InsertNew in E. rewrite Ei in E. injection E as <-. simpl.
    apply Forall_app. by split; [|apply Forall_singleton].
Qed.

Lemma buildSub_spec (children : list Expr) (es c : list Z) : Forall wf children → length es = length children → boxed es c →
  cost prod_norm children es < 2 ^ 63 → ∃ r, buildSubProductFromExponents children c = Ok r ∧ ∀ e, r = Some e → wf e.
Proof.
  intros Hw L Hb Hcost. assert (length c = length children) as Lc by (rewrite <-L; symmetry; by eapply Forall2_length).
  set (pick := λ k : nat, filter (λ p : Expr * Z, 0 < p.2) (zip (take k children) (take k c))).
  unfold buildSubProductFromExponents.
  destruct (foldM_enumerate (λ st p, if 0 <? p.2 then c ← idx children p.1; Ok (st.1 ++ [Some c], st.2 ++ [p.2]) else Ok st)
    (λ k st, st = (Some <$> (pick k).*1, (pick k).*2)) c ([], [])) as (st & -> & ->).
  - done.
  - intros k n st En ->. destruct (lookup_lt_is_Some_2 children k) as [d Ed]; [apply lookup_lt_Some in En; lia|].
    assert (pick (S k) = pick k ++ (if decide (0 < n) then [(d, n)] else [])) as Ep.
    { unfold pick. rewrite (take_S_r _ _ _ Ed), (take_S_r _ _ _ En), zip_with_app by (rewrite !length_take; lia). rewrite filter_app. f_equal. }
    cbn [fst snd]. rewrite Ep. destruct (Z.ltb_spec 0 n).
    + rewrite decide_True by done. rewrite (idx_of_nat _ _ _ Ed). cbn [mbind res_bind]. eexists. split; [done|]. by rewrite !fmap_app.
    + rewrite decide_False by lia. rewrite app_nil_r. by eexists.
  - cbn [mbind res_bind fst snd]. destruct (zlen _ =? 0); [eexists; split; [done|]; by intros ? [=]|]. unfold pick. rewrite !firstn_all2 by lia.
    destruct (NewProduct_spec (filter (λ p : Expr * Z, 0 < p.2) (zip children c)).*1 (filter (λ p : Expr * Z, 0 < p.2) (zip children c)).*2) as (e & -> & We & _).
    + apply Forall_fmap, Forall_forall. intros [d n] [_ Hp]%list_elem_of_filter. simpl. rewrite Forall_forall in Hw. by eapply Hw, elem_of_zip_l.
    + by rewrite !length_fmap.
    + apply Forall_fmap, Forall_forall. intros [d n] [Hp _]%list_elem_of_filter. simpl in *. lia.
    + eapply Z.le_lt_trans; [apply cost_filter, prod_norm_nonneg|]. eapply Z.le_lt_trans; [|exact Hcost]. apply cost_mono; [apply prod_norm_nonneg|].
      apply Forall2_flip. eapply Forall2_impl; [exact Hb|]. done.
    + cbn [mbind res_bind]. eexists. split; [done|]. by intros ? [= <-].
Qed.
(** *** Sub-products *)

Section sub_products.
Context (children : list Expr) (es ws : list Z) (W : Z) (cfg : DegreeReductionConfig).
Context (Hwf : Forall wf children) (Hlen : length es = length children) (Hws : length ws = length es).
Context (Hes : Forall (Z.le 0) es) (Hws0 : Forall (Z.le 0) ws) (Hbound : weight ws es < 2 ^ 63) (Hcost : cost prod_norm children es < 2 ^ 63).

Lemma sub_product_step_spec c mp k : boxed es c → cmap_ok mp →
  ∃ mp' k', sub_product_step children W (mkIterator c W es ws false cfg) (mp, k) = Ok (mp', k') ∧ cmap_ok mp'.
Proof.
  intros Hb Hm. unfold sub_product_step. cbn [curr weights]. destruct (hasOnlyASingleOne c); [by eexists _, _|].
  rewrite (total_weight es ws) by done. cbn [mbind res_bind]. destruct (_ || _); [by eexists _, _|].
  destruct (buildSub_spec children es c) as (r & -> & Hr); [done..|]. cbn [mbind res_bind]. destruct r as [e|]; [|by eexists _, _].
  destruct (addCandidate_spec mp e Hm (Hr e eq_refl)) as (mp' & E & Hm'). cbn [fst snd]. rewrite E. cbn [mbind res_bind]. by eexists _, _.
Qed.

Lemma sub_product_loop_spec fuel c mp k : fits es ws W cfg c → foldr (λ m r : Z, (m + 1) * r) 1 es - value es c ≤ Z.of_nat fuel → cmap_ok mp →
  ∃ mp' k', sub_product_loop fuel children W (mkIterator c W es ws false cfg) (mp, k) = Ok (mp', k') ∧ cmap_ok mp'.
Proof.
  revert c mp k. induction fuel as [|fuel IH]; intros c mp k Hc Hf Hm; [pose proof (value_bound es c (proj1 Hc)); lia|].
  cbn [sub_product_loop]. destruct (next_spec es ws W cfg Hws Hes Hws0 Hbound (S fuel) c Hc Hf) as (b & it & -> & Hres). cbn [mbind res_bind fst snd].
  destruct b; cbn [negb]; [|by eexists _, _]. destruct Hres as (c' & -> & Hc' & _ & Hl & _).
  assert (value es c < value es c') by (apply value_lex; [apply Hc|apply Hc'|done]).
  destruct (sub_product_step_spec c' mp k (proj1 Hc') Hm) as (mp1 & k1 & -> & Hm1). cbn [mbind res_bind]. apply IH; [done|lia|done].
Qed.
End sub_products.
(** The products flatten and the degrees are below the range of [int]. *)
Definition tame a : bool := product_ok a && (ideal getDegree a <? 2 ^ 63).

Lemma tame_degree e : wf e → tame e = true → degree getDegree e = Ok (ideal getDegree e).
Proof.
  intros We [_ Hd%Z.ltb_lt]%andb_prop. destruct (degree_ideal getDegree getDegree_nonneg e We) as (d & -> & ->); done.
Qed.

Lemma collectSubProducts_spec e es W cfg mp : wf e → tame e = true → Forall (λ c, tame c = true) (Children e) → Op e = Product es →
  0 ≤ W → cmap_ok mp → ∃ r, collectSubProducts getDegree (Children e) es W cfg mp = Ok r ∧ cmap_ok r.1.
Proof.
  intros We Hok Hch Eop HW Hm. pose proof We as [(_ & _ & Hs) Hc]%wf_unfold. rewrite Eop in Hs. destruct Hs as (L & Hes & _).
  assert (Forall (Z.le 0) es) as Hes0 by (eapply Forall_impl; [exact Hes|simpl; lia]).
  assert (Forall (Z.le 0) (ideal getDegree <$> Children e)) as Hws0.
  { apply Forall_fmap. eapply Forall_impl; [exact Hc|]. intros c. by apply ideal_nonneg. }
  unfold collectSubProducts. destruct (zlen (Children e) =? 0); [by eexists|].
  assert (mapR (λ i, c ← idx (Children e) i; degree getDegree c) (seqZ 0 (zlen es)) = Ok (ideal getDegree <$> Children e)) as ->.
  { replace (zlen es) with (zlen (Children e)) by (unfold zlen; lia). apply mapR_positions.
    intros c Hin. rewrite Forall_forall in Hc, Hch. by apply tame_degree; [apply Hc|apply Hch]. }
  cbn [mbind res_bind]. unfold newWeightedSubMultisetIterator.
  apply andb_prop in Hok as [Hp Hd%Z.ltb_lt]. unfold product_ok in Hp. rewrite Eop in Hp. apply andb_prop in Hp as [_ Hp%Z.ltb_lt].
  destruct (sub_product_loop_spec (Children e) es (ideal getDegree <$> Children e) W cfg Hc L) with (fuel := iterator_fuel es)
    (c := replicate (length es) 0) (mp := mp) (k := 0) as (mp' & k' & -> & Hm'); [by rewrite length_fmap|done|done| |lia| | |done|by eexists].
  - destruct e as [h ch op fl]. simpl in Eop. subst op. exact Hd.
  - by apply zeros_fit.
  - unfold iterator_fuel. pose proof (value_bound es _ (zeros_boxed es Hes0)). lia.
Qed.

Lemma collectFromExpr_spec W cfg e mp : wf e → Forall (λ a, tame a = true) (subs e) → 0 ≤ W → cmap_ok mp →
  ∃ r, collectFromExpr getDegree W cfg e mp = Ok r ∧ cmap_ok r.1.
Proof.
  revert mp. induction e as [h children op fl IH] using Expression_nested. intros mp We Hok HW Hm.
  pose proof We as [_ Hc]%wf_unfold. cbn [Children] in Hc. set (e := mkExpression h children op fl) in *.
  assert (tame e = true) as Hoe by (rewrite Forall_forall in Hok; apply Hok, subs_self).
  assert (Forall (λ c, Forall (λ a, tame a = true) (subs c)) children) as Hch.
  { apply Forall_forall. intros c Hin. rewrite Forall_forall in Hok |- *. intros a Ha. by eapply Hok, subs_child. }
  cbn [collectFromExpr e]. rewrite tame_degree by done. cbn [mbind res_bind]. destruct (_ <? _); [by eexists|].
  match goal with |- ∃ r, (st ← ?m; _) = _ ∧ _ => assert (∃ r, m = Ok r ∧ cmap_ok r.1) as ([mp1 n1] & -> & Hm1) end.
  { destruct (_ && _); [|by eexists]. destruct (addCandidate_spec mp e Hm We) as (mp1 & E & Hm1). unfold e in E. rewrite E. by eexists. }
  cbn [mbind res_bind fst] in *.
  match goal with |- ∃ r, (st ← ?m; _) = _ ∧ _ => assert (∃ r, m = Ok r ∧ cmap_ok r.1) as ([mp2 n2] & -> & Hm2) end.
  { clear We Hok Hm Hoe. clear e. revert mp1 n1 Hm1. induction IH as [|c l IHc _ IHl]; intros mp1 n1 Hm1; [by eexists|].
    apply Forall_cons in Hc as [Wc Hc], Hch as [Hoc Hch]. destruct (IHc mp1 Wc Hoc HW Hm1) as (r & E & Hr). cbn [fst snd]. rewrite E.
    cbn [mbind res_bind]. by apply IHl. }
  cbn [mbind res_bind fst snd] in *. destruct op as [?|?|?|es|]; try by eexists.
  destruct (collectSubProducts_spec e es W cfg mp2) as (r & E & Hr); [done|done| |done..|].
  - eapply Forall_impl; [exact Hch|]. intros c Hf. rewrite Forall_forall in Hf. apply Hf, subs_self.
  - cbn [Children e] in E. rewrite E. by eexists.
Qed.

Definition expr_ok e : Prop := wf e ∧ Forall (λ a, tame a = true) (subs e).

Lemma collectCandidates_spec exprs indices W cfg : Forall expr_ok exprs → Forall (λ i, 0 ≤ i < zlen exprs) indices → 0 ≤ W →
  0 ≤ MaxCandidatePerRound cfg + 2 ^ 10 →
  ∃ cs, collectCandidateSubexprs getDegree exprs indices W cfg = Ok cs ∧ Forall (λ c, wf (c_expr c)) cs.
Proof.
  intros He Hi HW Hmax. unfold collectCandidateSubexprs. rewrite (proj2 (Z.ltb_ge _ _)) by lia.
  assert (∀ mp, cmap_ok mp → ∃ mp', collect_loop getDegree exprs W cfg indices mp = Ok mp' ∧ cmap_ok mp') as Hloop.
  { clear Hmax. induction Hi as [|i l Hi _ IH]; intros mp Hm; [by eexists|]. cbn [collect_loop].
    destruct (idx_is_Ok exprs i Hi) as [e Ee]. rewrite Ee. cbn [mbind res_bind]. apply idx_Ok in Ee as [_ Ee].
    destruct (Forall_lookup_1 _ _ _ _ He Ee) as [We Hok]. destruct (collectFromExpr_spec W cfg e mp We Hok HW Hm) as (r & -> & Hr).
    cbn [mbind res_bind]. destruct (_ <=? _); [by eexists|]. by apply IH. }
  destruct (Hloop DetMap.MakeDeterministicMap) as (mp' & -> & [_ Hm']); [split; [apply DetMap.wf_empty|by constructor]|]. by eexists.
Qed.

Lemma findOver_spec exprs W : Forall expr_ok exprs → ∃ ix, findOverDegreeIndices getDegree exprs W = Ok ix ∧
  Forall (λ i, 0 ≤ i < zlen exprs) ix ∧ (ix = [] → Forall (λ e, ideal getDegree e ≤ W) exprs).
Proof.
  intros He. unfold findOverDegreeIndices.
  destruct (foldM_enumerate (λ indices p, deg ← degree getDegree p.2; Ok (if W <? deg then indices ++ [p.1] else indices))
    (λ k ix, Forall (λ i, 0 ≤ i < zlen exprs) ix ∧ (ix = [] → Forall (λ e, ideal getDegree e ≤ W) (take k exprs))) exprs []) as (ix & -> & Hr & Hn).
  - by split.
  - intros k e ix Ee [Hr Hn]. destruct (Forall_lookup_1 _ _ _ _ He Ee) as [We Hok]. rewrite Forall_forall in Hok.
    cbn [fst snd]. rewrite tame_degree by (done || apply Hok, subs_self). cbn [mbind res_bind]. eexists. split; [done|].
    rewrite (take_S_r _ _ _ Ee). destruct (Z.ltb_spec W (ideal getDegree e)).
    + split; [|by intros [_ [=]]%app_eq_nil]. apply Forall_app. split; [done|]. apply Forall_singleton. apply lookup_lt_Some in Ee. unfold zlen. lia.
    + split; [done|]. intros E. apply Forall_app. split; [by apply Hn|by apply Forall_singleton].
  - rewrite firstn_all in Hn. by exists ix.
Qed.

Lemma selectMost_spec (cs : list (candidateInfo F M)) : cs ≠ [] → Forall (λ c, wf (c_expr c)) cs → ∃ e, selectMostFrequentCandidate cs = Ok e ∧ wf e.
Proof.
  intros Hne Hc. unfold selectMostFrequentCandidate. pose proof (sort_candidates_perm cs) as Hp. destruct (sort_candidates cs) as [|c l].
  - by apply Permutation_nil_l in Hp.
  - eexists. split; [done|]. rewrite Forall_forall in Hc. apply Hc. rewrite <-Hp. left.
Qed.
End candidates.
End Candidates.

(** * Runs of the degree reduction

    The states that [ReduceDegreeOfExpressions] goes through: every round replaces one
    well-formed candidate by a variable that stands for it, so that the values of the
    expressions stay the same. *)


Import Utils Fext SmartVectorOps SmartVectorProcess Symbolic SymbolicFacts SymbolicSimplify Board BoardFacts Degree DegreeReduction SubMultiset DegreeReductionFacts Candidates.

#[local] Open Scope Z_scope.

Module Reduction.

(** The value of the new variables is that of the expression they stand for. *)
Fixpoint extend {F M} `{ElementOps F, !ExtOps F} (ρ : M → E4 F) (m : Meta F M) : E4 F :=
  match m with
  | ExternalMetadata x => ρ x
  | EliminatedVarMetadata _ e => eval (extend ρ) e
  end.

Section runs.
Context {F M : Type} `{ElementLaws F, !ExtOps F, !ExtLaws F, !Metadata M, !Blake2b, !SortCandidates F (Meta F M), !SortCandidatesLaws F (Meta F M)}.
Context (bound : Z) (getter : Meta F M → Z) (cfg : DegreeReductionConfig).
Notation Expr := (Expression F (Meta F M)).
Notation state := (state F M).
Notation step := (reduce_step bound getter cfg).
Implicit Types (e t : Expr) (st : state).

(** What the next round replaces, if there is one. *)
Definition choice st : res (option Expr) :=
  if (0 <? MaxNumElimination cfg) && (MaxNumElimination cfg <=? zlen (newVars st)) then Ok None else
  over ← findOverDegreeIndices getter (current st) bound;
  if zlen over =? 0 then Ok None else
  candidates ← collectCandidateSubexprs getter (current st) over bound cfg;
  if zlen candidates =? 0 then Ok None else
  best ← selectMostFrequentCandidate candidates; Ok (Some best).

Definition new_var st t : Meta F M := EliminatedVarMetadata (zlen (newVars st)) t.

Lemma step_choice st : step st =
  b ← choice st;
  match b with
  | None => Ok None
  | Some t =>
      es ← substituteInAll (current st) t (NewVariable (new_var st t));
      Ok (Some (mkState es (eliminatedSubExpressions st ++ [t]) (newVars st ++ [new_var st t])))
  end.
Proof.
  unfold reduce_step, choice. destruct (_ && _); [done|]. destruct (findOverDegreeIndices _ _ _) as [over|]; [|done]. cbn [mbind res_bind].
  destruct (_ =? _); [done|]. destruct (collectCandidateSubexprs _ _ _ _ _) as [cs|]; [|done]. cbn [mbind res_bind]. destruct (_ =? _); [done|].
  by destruct (selectMostFrequentCandidate cs).
Qed.

Definition round_ok st : bool :=
  match choice st with Ok (Some t) => forallb (rebuild_ok t (NewVariable (new_var st t))) (current st) | _ => true end.

(** Nothing overflows and no product has a factor twice, in any state of the run. *)
Fixpoint run_ok (fuel : nat) st : bool :=
  forallb (λ e, forallb (tame getter) (subs e)) (current st) && round_ok st &&
  match fuel with
  | O => true
  | S fuel => match step st with Ok (Some st') => run_ok fuel st' | _ => true end
  end.

(** The expressions whose hashes are compared in the run. *)
Definition round_seen st : list Expr :=
  match choice st with
  | Ok (Some t) => NewVariable (new_var st t) :: subs t ++ concat (compared t (NewVariable (new_var st t)) <$> current st)
  | _ => []
  end.

Fixpoint seen (fuel : nat) st : list Expr :=
  match fuel with
  | O => []
  | S fuel => round_seen st ++ match step st with Ok (Some st') => seen fuel st' | _ => [] end
  end.

Context (Hbound : 1 < bound) (Hgetter : ∀ m, 0 ≤ getter m) (Hround : 0 ≤ MaxCandidatePerRound cfg + 2 ^ 10).

Lemma NewVariable_wf (m : Meta F M) : wf (NewVariable m).
Proof. apply wf_unfold. split; [done|constructor]. Qed.

Lemma substituteInAll_spec exprs t r : wf t → wf r → Children r = [] → prod_norm r = 1 → Forall (expr_ok getter) exprs →
  forallb (rebuild_ok t r) exprs = true →
  ∃ es, substituteInAll exprs t r = Ok es ∧ Forall wf es ∧
    ∀ ρ (S : Expr → Prop), faithful ρ S → vanishing ρ S → (∀ a, a ∈ r :: subs t ++ concat (compared t r <$> exprs) → S a) → eval ρ r = eval ρ t →
      eval ρ <$> es = eval ρ <$> exprs.
Proof.
  intros Wt Wr Cr Nr He Hre. unfold substituteInAll.
  assert (Forall (substituted t r) exprs) as Hs.
  { apply Forall_forall. intros e Hin. rewrite Forall_forall in He. destruct (He e Hin) as [We Ht].
    rewrite forallb_forall in Hre. apply substituteExpr_spec; [done..| |by apply Hre, list_elem_of_In].
    eapply Forall_impl; [exact Ht|]. intros a [? _]%andb_prop. done. }
  destruct (substituted_children t r exprs Hs) as (ps & -> & L & Wps & Hv). cbn [mbind res_bind]. eexists. split; [done|]. split; [done|].
  intros ρ S Hf Hz HS E. apply Hv, Forall_forall. intros e Hin. assert (∀ a, a ∈ r :: subs t ++ compared t r e → S a) as Hsub.
  { intros a. rewrite elem_of_cons, elem_of_app. intros Ha. apply HS. rewrite elem_of_cons, elem_of_app, elem_of_concat.
    destruct Ha as [?|[?|?]]; [by left|by right; left|]. right. right. exists (compared t r e). split; [by apply list_elem_of_fmap_2|done]. }
  split; [intros a b Ha Hb; apply Hf; auto|]. split; [|done]. intros a Ha. apply Hz; auto.
Qed.
Lemma choice_spec st : Forall (expr_ok getter) (current st) → ∃ b, choice st = Ok b ∧ (∀ t, b = Some t → wf t).
Proof.
  intros He. unfold choice. destruct (_ && _); [by exists None|]. destruct (findOver_spec getter Hgetter (current st) bound He) as (ix & -> & Hix & _).
  cbn [mbind res_bind]. destruct (_ =? _); [by exists None|].
  destruct (collectCandidates_spec getter Hgetter (current st) ix bound cfg He Hix) as (cs & -> & Hcs); [lia|done|].
  cbn [mbind res_bind]. destruct (Z.eqb_spec (zlen cs) 0) as [|Hne]; [by exists None|].
  destruct (selectMost_spec cs) as (t & -> & Wt); [by intros ->|done|]. cbn [mbind res_bind]. exists (Some t). split; [done|]. by intros ? [= <-].
Qed.

(** A round keeps the values. *)
Lemma reduce_step_spec st : Forall (expr_ok getter) (current st) → round_ok st = true → ∃ r, step st = Ok r ∧ ∀ st', r = Some st' →
  ∃ t, choice st = Ok (Some t) ∧ newVars st' = newVars st ++ [new_var st t] ∧ eliminatedSubExpressions st' = eliminatedSubExpressions st ++ [t] ∧
    Forall wf (current st') ∧
    ∀ ρ (S : Expr → Prop), faithful (extend ρ) S → vanishing (extend ρ) S → (∀ a, a ∈ round_seen st → S a) →
      eval (extend ρ) <$> current st' = eval (extend ρ) <$> current st.
Proof.
  intros He Hr. rewrite step_choice. unfold round_ok in Hr. unfold round_seen. destruct (choice_spec st He) as ([t|] & E & Wt); rewrite E in *; [|by exists None].
  destruct (substituteInAll_spec (current st) t (NewVariable (new_var st t))) as (es & Es & Wes & Hv); [by apply Wt|apply NewVariable_wf|done..|].
  cbn [mbind res_bind]. rewrite Es. cbn [mbind res_bind]. eexists. split; [done|]. intros st' [= <-]. exists t. split_and!; [done..|].
  intros ρ S Hf Hz HS. by eapply Hv.
Qed.

(** Why the loop stops. *)
Definition finished st : Prop :=
  MaxNumElimination cfg ≤ zlen (newVars st) ∨
  Forall (λ e, ∃ d, degree getter e = Ok d ∧ d ≤ bound) (current st) ∨
  ∃ over, findOverDegreeIndices getter (current st) bound = Ok over ∧ collectCandidateSubexprs getter (current st) over bound cfg = Ok [].

Lemma choice_None st : Forall (expr_ok getter) (current st) → choice st = Ok None → finished st.
Proof.
  intros He. unfold choice, finished. destruct (_ && _) eqn:E; [apply andb_prop in E as [_ E%Z.leb_le]; by left|]. clear E.
  destruct (findOver_spec getter Hgetter (current st) bound He) as (ix & -> & Hix & Hall).
  cbn [mbind res_bind]. destruct (Z.eqb_spec (zlen ix) 0) as [E|_].
  { intros _. right. left. assert (ix = []) as Enil by (by destruct ix; [|unfold zlen in E; simpl in E; lia]). specialize (Hall Enil).
    rewrite Forall_forall in He, Hall |- *. intros e Hin. exists (ideal getter e). split; [|by apply Hall]. destruct (He e Hin) as [We Ht].
    rewrite Forall_forall in Ht. apply tame_degree; [done..|]. apply Ht, subs_self. }
  destruct (collectCandidates_spec getter Hgetter (current st) ix bound cfg He Hix) as (cs & Ecs & Hcs); [lia|done|]. rewrite Ecs.
  cbn [mbind res_bind]. destruct (Z.eqb_spec (zlen cs) 0) as [E|Hne].
  - intros _. right. right. exists ix. split; [done|]. rewrite Ecs. by destruct cs; [|unfold zlen in E; simpl in E; lia].
  - destruct (selectMost_spec cs) as (t & -> & Wt); [by intros ->|done|]. done.
Qed.

Lemma choice_room st t : choice st = Ok (Some t) → 0 < MaxNumElimination cfg → zlen (newVars st) < MaxNumElimination cfg.
Proof. unfold choice. intros E Hm. rewrite (proj2 (Z.ltb_lt _ _) Hm) in E. cbn [andb] in E. by destruct (Z.leb_spec (MaxNumElimination cfg) (zlen (newVars st))). Qed.

Lemma run_ok_now fuel st : Forall wf (current st) → run_ok fuel st = true → Forall (expr_ok getter) (current st) ∧ round_ok st = true.
Proof.
  intros Hw Hok. assert (forallb (λ e, forallb (tame getter) (subs e)) (current st) && round_ok st = true) as [Ht Hr]%andb_prop.
  { destruct fuel; simpl in Hok; by apply andb_prop in Hok as [? _]. }
  split; [|done]. rewrite forallb_forall in Ht. rewrite Forall_forall in Hw |- *. intros e Hin. split; [by apply Hw|].
  apply Forall_forall. intros a Ha. specialize (Ht e (proj1 (list_elem_of_In _ _) Hin)). rewrite forallb_forall in Ht. by apply Ht, list_elem_of_In.
Qed.

Definition numbered st : Prop := newVars st = imap (λ i t, EliminatedVarMetadata (Z.of_nat i) t) (eliminatedSubExpressions st).

Lemma reduce_loop_spec fuel st : Forall wf (current st) → run_ok fuel st = true → 0 < MaxNumElimination cfg →
  zlen (newVars st) ≤ MaxNumElimination cfg < Z.of_nat fuel + zlen (newVars st) → numbered st →
  ∃ st', reduce_loop bound getter cfg fuel st = Ok (Some st') ∧ numbered st' ∧ finished st' ∧ Forall wf (current st') ∧
    ∀ ρ (S : Expr → Prop), faithful (extend ρ) S → vanishing (extend ρ) S → (∀ a, a ∈ seen fuel st → S a) →
      eval (extend ρ) <$> current st' = eval (extend ρ) <$> current st.
Proof.
  revert st. induction fuel as [|fuel IH]; intros st Hw Hok Hmax Hf Hn; [lia|]. destruct (run_ok_now _ st Hw Hok) as [He Hr].
  cbn [reduce_loop seen]. simpl in Hok. apply andb_prop in Hok as [_ Hok]. destruct (reduce_step_spec st He Hr) as (r & E & Hst). rewrite E in *.
  cbn [mbind res_bind]. destruct r as [st'|].
  - destruct (Hst st' eq_refl) as (t & Et & En & El & Hw' & Hv). pose proof (choice_room st t Et Hmax).
    destruct (IH st' Hw' Hok Hmax) as (st2 & -> & Hn2 & Hf2 & Hw2 & Hv2).
    + rewrite En, zlen_app. change (zlen [new_var st t]) with 1. lia.
    + unfold numbered. rewrite En, El, imap_app, Hn. simpl. unfold new_var. rewrite Hn. unfold zlen. by rewrite length_imap, Nat.add_0_r.
    + exists st2. split_and!; [done..|]. intros ρ S HF HZ HS. rewrite (Hv2 ρ S HF HZ), (Hv ρ S HF HZ); [done|..]; intros a Ha; apply HS, elem_of_app; auto.
  - exists st. split_and!; [done|done| |done|done]. apply choice_None; [done|]. rewrite step_choice in E.
    destruct (choice_spec st He) as ([t|] & Ec & _); [|done]. rewrite Ec in E. cbn [mbind res_bind] in E. by destruct (substituteInAll _ _ _).
Qed.

Lemma ReduceDegree_spec fuel exprs : Forall wf exprs → AssertHasNoElimVarMetadata exprs = Ok () →
  0 < MaxNumElimination cfg < Z.of_nat fuel → run_ok fuel (mkState exprs [] []) = true →
  ∃ st, ReduceDegreeOfExpressions bound getter cfg fuel exprs = Ok (Some st) ∧ numbered st ∧ finished st ∧ Forall wf (current st) ∧
    ∀ ρ, faithful (extend ρ) (λ a, a ∈ seen fuel (mkState exprs [] [])) → vanishing (extend ρ) (λ a, a ∈ seen fuel (mkState exprs [] [])) →
      eval (extend ρ) <$> current st = eval (extend ρ) <$> exprs.
Proof.
  intros Hw Ha Hm Hok. unfold ReduceDegreeOfExpressions. rewrite Ha. cbn [mbind res_bind]. rewrite (proj2 (Z.leb_gt _ _)) by lia.
  destruct (reduce_loop_spec fuel (mkState exprs [] [])) as (st & -> & ? & ? & ? & Hv); [done|done|lia|unfold zlen; simpl; lia|done|].
  exists st. split_and!; [done..|]. intros ρ HF HZ. by eapply Hv.
Qed.
End runs.
End Reduction.
