(* ===== verification/SymbolicTheorems.v ===== *)
(** * Concrete parameters and expressions

    Instances of the parameters of the symbolic package, and an expression over KoalaBear
    with its inputs: they show that the hypotheses of its theorems can be met. *)

From S2P Require Export EvaluateFacts SymbolicSimplify SmartVectorTheorems.
Import Utils Fext SmartVector SmartVectorFacts SmartVectorOps SmartVectorArith SmartVectorDemo KoalaExt.
Import Symbolic SymbolicFacts Board BoardFacts Compiler EvaluateFacts.

Module SymbolicDemo.

#[export] Instance list_MixedVectorOps `{ElementOps F, !ExtOps F} : MixedVectorOps F := {|
  vec_MulByElement r a b := if decide (length r = length a ∧ length b = length a) then Ok (zip_with e4_mul_by_element a b) else Panic;
  vec_ScalarMulByElement r a x := if decide (length r = length a) then Ok ((λ y, e4_mul_by_element y x) <$> a) else Panic |}.

#[export] Instance list_MixedVectorLaws `{ElementOps F, !ExtOps F} : MixedVectorLaws F.
Proof. split; intros; simpl; by rewrite ?decide_True. Qed.

(** Columns with a name and a flag for the base field. *)
Record column : Type := Column { c_name : string; c_base : bool }.
#[export] Instance column_Metadata : Metadata column := {| md_String := c_name; md_IsBase := c_base |}.

(** The name itself as its digest: enough for the short names below. *)
#[export] Instance padded_name : Blake2b := λ bytes, take 32 (bytes ++ replicate 32 0).

Notation K := KoalaBear.t.
Notation Expr := (Expression K column).

Definition x : column := Column "x" true.
Definition y : column := Column "y" true.
Definition z : column := Column "z" false.
Definition c : column := Column "c" false.

Definition get (r : res Expr) : Expr := match r with Ok e => e | Panic => NewVariable x end.

(** 2 x y^2 + 3 + c z, by the constructors *)
Definition monomial : Expr := get (NewProduct [Some (NewVariable x); Some (NewVariable y)] [1; 2]).
Definition poly : Expr := get (NewLinComb [Some monomial; Some (get (NewConstant (AnyInt 3)))] [2; 1]).
Definition demo : Expr := get (NewPolyEval (NewVariable c) [poly; NewVariable z]).

Definition demo_inputs : list (SmartVector.t K) :=
  [OfExt (SmartVector.Constant (mkE4 (k 1) (k 2) (k 0) (k 5)) 8); OfBase ramp; OfBase wrapping; OfExt wide].

Definition demo_at (p : Z) (m : column) : E4 K :=
  match decide (md_String m = "c"%string), decide (md_String m = "x"%string), decide (md_String m = "y"%string) with
  | left _, _, _ => ext_elem (OfExt (SmartVector.Constant (mkE4 (k 1) (k 2) (k 0) (k 5)) 8)) p
  | _, left _, _ => ext_elem (OfBase ramp) p
  | _, _, left _ => ext_elem (OfBase wrapping) p
  | _, _, _ => ext_elem (OfExt wide) p
  end.

Lemma demo_hashes : NoDup (ESHash <$> subs demo).
Proof. apply (bool_decide_unpack _). vm_compute. exact I. Qed.

Lemma demo_wf : wf demo.
Proof. repeat (split || constructor); try (vm_compute; reflexivity); try (vm_compute; lia); try discriminate. Qed.

(** Expressions with distinct hashes are never confused. *)
Lemma distinct_same {M} (l : list (Expression K M)) a b : NoDup (ESHash <$> l) → a ∈ l → b ∈ l → ESHash a = ESHash b → a = b.
Proof.
  intros Hn (i & Ei)%list_elem_of_lookup (j & Ej)%list_elem_of_lookup Eh.
  assert (i = j) as ->; [|congruence]. eapply NoDup_lookup; [exact Hn| |]; rewrite list_lookup_fmap; [by rewrite Ei|by rewrite Ej; simpl; rewrite Eh].
Qed.

Lemma distinct_faithful ρ (l : list Expr) : NoDup (ESHash <$> l) → faithful ρ (λ a, a ∈ l).
Proof. intros Hn a b Ha Hb E. by rewrite (distinct_same l a b). Qed.

Lemma demo_faithful p : 0 ≤ p < 8 → faithful (demo_at p) (λ a, a ∈ subs demo).
Proof. intros _. apply distinct_faithful, demo_hashes. Qed.

Lemma demo_variables : ListVariableMetadata (Board_of demo) = [c; x; y; z].
Proof. vm_compute. reflexivity. Qed.

Lemma demo_inputs_for : inputs_for demo demo_inputs 8 demo_at.
Proof.
  split; [discriminate|]. split; [repeat constructor; simpl; try reflexivity; try discriminate|]. rewrite demo_variables.
  intros i m Ei. destruct i as [|[|[|[|]]]]; simplify_eq/=; eexists; (split; [reflexivity|]); intros p Hp; reflexivity.
Qed.

Lemma demo_polyeval : Forall (λ a : Expr, Op a = PolyEval → head (Children a) = Some (NewVariable c)) (subs demo).
Proof. repeat (constructor; [intros E; (reflexivity || (vm_compute in E; discriminate E))|]). constructor. Qed.

Lemma demo_points : points_uniform demo 8 demo_at.
Proof.
  intros a v p Ha Eo Ev Hp. pose proof demo_polyeval as HF. rewrite Forall_forall in HF. rewrite (HF a Ha Eo) in Ev. injection Ev as <-. reflexivity.
Qed.
End SymbolicDemo.

(** * Theorems on symbolic expressions

    Construction and simplification keep the value of expressions, compilation keeps the
    slots of live nodes apart, evaluation gives the value at every position; and where the
    code departs from that. *)

Import Utils Fext SmartVector SmartVectorFacts SmartVectorOps SmartVectorArith SmartVectorDemo KoalaExt.
Import Symbolic SymbolicFacts SymbolicSimplify Board BoardFacts Compiler CompilerFacts EvaluateFacts SymbolicDemo.

Module SymbolicTheorems.

(** ** Helpers *)

Section base.
Context {F M : Type} `{ElementLaws F, !ExtOps F, !ExtLaws F, !Metadata M, !Blake2b}.
Implicit Types (x y : E4 F).

Lemma base_add x y : Fext.IsBase x = true → Fext.IsBase y = true → Fext.IsBase (e4_add x y) = true.
Proof. rewrite !IsBase_spec. intros -> ->. rewrite <-Lift_add. done. Qed.

Lemma base_mul x y : Fext.IsBase x = true → Fext.IsBase y = true → Fext.IsBase (e4_mul x y) = true.
Proof. rewrite !IsBase_spec. intros -> ->. rewrite <-Lift_mul. done. Qed.

Lemma base_exp x n : 0 ≤ n → Fext.IsBase x = true → Fext.IsBase (e4_exp x n) = true.
Proof. intros Hn. rewrite !IsBase_spec. intros ->. rewrite <-Lift_exp by done. done. Qed.

Lemma base_total (unit : E4 F) plus act (ok : Z → Prop) vs cs : Fext.IsBase unit = true →
  (∀ x y, Fext.IsBase x = true → Fext.IsBase y = true → Fext.IsBase (plus x y) = true) →
  (∀ x c, ok c → Fext.IsBase x = true → Fext.IsBase (act x c) = true) →
  Forall (λ v, Fext.IsBase v = true) vs → Forall ok cs → Fext.IsBase (total (unit := unit) (plus := plus) (act := act) vs cs) = true.
Proof.
  intros Hu Hp Ha Hv. revert cs. unfold total. induction Hv as [|v vs Hv _ IH]; intros [|c cs] Hc; simpl; try done.
  inversion_clear Hc. apply Hp; [by apply Ha|by apply IH].
Qed.
End base.

(** ** Claims *)





(** C25. [NewLinComb] flattens the linear combinations among its operands, merges the
    operands with equal hashes, collects the constants and drops the terms with a zero
    coefficient; the expression it returns is well-formed and has the value of the sum of
    the operands times their coefficients, as long as the coefficients do not overflow. *)
Theorem NewLinComb_value `{ElementLaws F, !ExtOps F, !ExtLaws F} `{!Metadata M, !Blake2b} (items : list (Expression F M)) coeffs :
  Forall wf items → length coeffs = length items → cost lin_norm items coeffs < 2 ^ 63 →
  ∃ e, NewLinComb (Some <$> items) coeffs = Ok e ∧ wf e ∧
    ∀ ρ, faithful ρ (parts items) → eval ρ e = foldr e4_add Zero (zip_with (λ i c, e4_mul (eval ρ i) (Lift (el_of_Z c))) items coeffs).
Proof.
  intros Hw L Hc. destruct (NewLinComb_spec items coeffs Hw L Hc) as (e & E & We & Hv). exists e. split; [done|]. split; [done|].
  intros ρ Hf. rewrite (Hv ρ Hf). unfold lin_value, total. f_equal. rewrite zip_with_fmap_l. apply zip_with_ext; [|done..]. intros i c. apply scale_Lift.
Qed.

Lemma NewLinComb_value_witness :
  ∃ e, NewLinComb (Some <$> [poly; monomial; NewVariable x]) [3; -6; 5] = Ok e ∧ wf e ∧
    ∀ ρ, faithful ρ (parts [poly; monomial; NewVariable x]) →
      eval ρ e = foldr e4_add Zero (zip_with (λ i c, e4_mul (eval ρ i) (Lift (el_of_Z c))) [poly; monomial; NewVariable x] [3; -6; 5]).
Proof.
  apply (NewLinComb_value [poly; monomial; NewVariable x] [3; -6; 5]); [|reflexivity|vm_compute; reflexivity].
  repeat constructor; try (vm_compute; reflexivity); try (vm_compute; lia); try discriminate.
Defined.

(** C26. [NewProduct] does the same for products of powers with non-negative exponents, and
    returns zero early when an operand has a zero hash; the expression it returns is
    well-formed and has the value of the product of the powers, as long as the exponents
    do not overflow and the operands with a zero hash are zero. *)
Theorem NewProduct_value `{ElementLaws F, !ExtOps F, !ExtLaws F} `{!Metadata M, !Blake2b} (items : list (Expression F M)) exponents :
  Forall wf items → length exponents = length items → Forall (Z.le 0) exponents → cost prod_norm items exponents < 2 ^ 63 →
  ∃ e, NewProduct (Some <$> items) exponents = Ok e ∧ wf e ∧
    ∀ ρ, faithful ρ (parts items) → vanishing ρ (parts items) →
      eval ρ e = foldr e4_mul One (zip_with (λ i n, e4_exp (eval ρ i) n) items exponents).
Proof.
  intros Hw L He Hc. destruct (NewProduct_spec items exponents Hw L He Hc) as (e & E & We & Hv). exists e. split; [done|]. split; [done|].
  intros ρ Hf Hz. rewrite (Hv ρ Hf Hz). unfold prod_value, total. by rewrite zip_with_fmap_l.
Qed.

Lemma NewProduct_value_witness :
  ∃ e, NewProduct (Some <$> [monomial; NewVariable x; poly]) [2; 1; 3] = Ok e ∧ wf e ∧
    ∀ ρ, faithful ρ (parts [monomial; NewVariable x; poly]) → vanishing ρ (parts [monomial; NewVariable x; poly]) →
      eval ρ e = foldr e4_mul One (zip_with (λ i n, e4_exp (eval ρ i) n) [monomial; NewVariable x; poly] [2; 1; 3]).
Proof.
  apply (NewProduct_value [monomial; NewVariable x; poly] [2; 1; 3]); [|reflexivity| |vm_compute; reflexivity].
  - repeat constructor; try (vm_compute; reflexivity); try (vm_compute; lia); try discriminate.
  - repeat constructor; discriminate.
Defined.




(** The exponents of nested powers are multiplied as 64-bit integers: the power 2^32
    of the power 2^32 of a variable is simplified to the constant one, which is not its
    value. *)
Theorem NewProduct_overflows :
  ∃ p q : Expr, NewProduct [Some (NewVariable x)] [2 ^ 32] = Ok p ∧ NewProduct [Some p] [2 ^ 32] = Ok q ∧
    let ρ := λ _, Lift (k 3) in eval ρ q = One ∧ e4_exp (eval ρ p) (2 ^ 32) ≠ One.
Proof.
  do 2 eexists. split; [vm_compute; reflexivity|]. split; [vm_compute; reflexivity|]. split; [vm_compute; reflexivity|].
  apply (bool_decide_unpack _). vm_compute. exact I.
Qed.
End SymbolicTheorems.
