(* ===== verification/DegreeTheorems.v ===== *)
(** * Concrete expressions for the degree reduction

    Expressions over KoalaBear whose degree is reduced, and an order on candidates: they
    show that the hypotheses of the theorems can be met. *)

From S2P Require Export Reduction SymbolicTheorems.
From stdpp Require Import sorting.
Import Utils Fext SmartVector SmartVectorFacts SmartVectorOps SmartVectorArith SmartVectorDemo KoalaExt.
Import Symbolic SymbolicFacts SymbolicSimplify Board BoardFacts Degree DegreeReduction DegreeReductionFacts Candidates Reduction SymbolicDemo.

#[local] Open Scope Z_scope.

Module DegreeDemo.

Definition not_after {F M} (a b : candidateInfo F M) : Prop := before b a = false.
#[export] Instance not_after_dec {F M} (a b : candidateInfo F M) : Decision (not_after a b) := decide (before b a = false).

(** One order that [sort.Slice] may give. *)
#[export] Instance merge_candidates {F M} : SortCandidates F M := merge_sort not_after.

#[export] Instance not_after_trans {F M} : Transitive (@not_after F M).
Proof.
  intros a b d. unfold not_after, before. intros Hab Hbd.
  destruct (Z.eqb_spec (c_count b) (c_count a)), (Z.eqb_spec (c_count d) (c_count b)), (Z.eqb_spec (c_count d) (c_count a)); simpl in *;
    rewrite Z.ltb_ge in *; lia.
Qed.

#[export] Instance not_after_total {F M} : Total (@not_after F M).
Proof.
  intros a b. unfold not_after, before. destruct (Z.eqb_spec (c_count b) (c_count a)), (Z.eqb_spec (c_count a) (c_count b)); simpl in *; rewrite !Z.ltb_ge; lia.
Qed.

#[export] Instance merge_candidates_laws {F M} : SortCandidatesLaws F M.
Proof.
  split; [intros l; apply merge_sort_Permutation|]. intros l. apply (StronglySorted_merge_sort not_after).
Qed.

Notation MK := (Meta K column).
Notation ExprK := (Expression K MK).

Definition var (m : column) : ExprK := NewVariable (ExternalMetadata m).
Definition built (r : res ExprK) : ExprK := match r with Ok e => e | Panic => var x end.

(** x^2 y z and x y + z^2 c *)
Definition quartic : ExprK := built (NewProduct (Some <$> [var x; var y; var z]) [2; 1; 1]).
Definition cubic : ExprK :=
  built (NewLinComb [Some (built (NewProduct (Some <$> [var x; var y]) [1; 1])); Some (built (NewProduct (Some <$> [var z; var c]) [2; 1]))] [1; 1]).

Definition by_one (m : MK) : Z := match m with ExternalMetadata _ => 1 | EliminatedVarMetadata _ _ => 1 end.
Definition demo_cfg : DegreeReductionConfig := mkConfig 0 0 0 100 8.

Definition demo_columns (m : column) : E4 K :=
  match decide (md_String m = "x"%string), decide (md_String m = "y"%string) with
  | left _, _ => mkE4 (k 3) (k 0) (k 0) (k 0)
  | _, left _ => mkE4 (k 5) (k 0) (k 0) (k 0)
  | _, _ => if decide (md_String m = "z"%string) then mkE4 (k 7) (k 2) (k 0) (k 1) else mkE4 (k 1) (k 2) (k 0) (k 5)
  end.

Lemma var_wf m : wf (var m).
Proof. apply wf_unfold. split; [done|constructor]. Qed.

Lemma product_wf items es : Forall wf items → length es = length items → Forall (Z.le 0) es → cost prod_norm items es < 2 ^ 63 →
  wf (built (NewProduct (Some <$> items) es)).
Proof. intros Hw L He Hb. by destruct (NewProduct_spec items es) as (e & -> & We & _). Qed.

Lemma lincomb_wf items cs : Forall wf items → length cs = length items → cost lin_norm items cs < 2 ^ 63 →
  wf (built (NewLinComb (Some <$> items) cs)).
Proof. intros Hw L Hb. by destruct (NewLinComb_spec items cs) as (e & -> & We & _). Qed.

Lemma vars_wf ms : Forall wf (var <$> ms).
Proof. apply Forall_fmap, Forall_true, var_wf. Qed.

Lemma quartic_wf : wf quartic.
Proof. apply product_wf; [exact (vars_wf [x; y; z])|done|repeat constructor; lia|vm_compute; done]. Qed.

Lemma cubic_wf : wf cubic.
Proof.
  apply (lincomb_wf [_; _]); [|done|vm_compute; done]. apply Forall_cons. split; [|apply Forall_singleton].
  - apply product_wf; [exact (vars_wf [x; y])|done|repeat constructor; lia|vm_compute; done].
  - apply product_wf; [exact (vars_wf [z; c])|done|repeat constructor; lia|vm_compute; done].
Qed.

Lemma cubic_distinct : NoDup (ESHash <$> subs cubic).
Proof. apply (bool_decide_unpack _). vm_compute. exact I. Qed.

Lemma cubic_flat : flat_points by_one cubic.
Proof.
  assert (forallb (λ a : ExprK, match Op a with PolyEval => false | _ => true end) (subs cubic) = true) as Hn by (vm_compute; reflexivity).
  intros a b Ha Ho _. rewrite forallb_forall in Hn. apply list_elem_of_In, Hn in Ha. by rewrite Ho in Ha.
Qed.
End DegreeDemo.

(** * Theorems on degrees and their reduction

    The degree of an expression bounds that of the polynomial it stands for; the
    reduction of degrees ends and keeps values; the iterator over sub-multisets finds each
    of them once; and where the code departs from that. *)


Import Utils Fext SmartVector SmartVectorFacts SmartVectorOps SmartVectorArith SmartVectorDemo KoalaExt.
Import Symbolic SymbolicFacts SymbolicSimplify Board BoardFacts Degree DegreeReduction SubMultiset DegreeReductionFacts Candidates Reduction SymbolicDemo DegreeDemo.

#[local] Open Scope Z_scope.

Module DegreeTheorems.

(** ** Helpers *)

(** Equal hashes mean equal values, by comparing every pair. *)
Definition faithful_check {M} (ρ : M → E4 K) (l : list (Expression K M)) : bool :=
  let l := (λ a, (ESHash a, eval ρ a)) <$> l in
  forallb (λ a, forallb (λ b, if decide (a.1 = b.1) then bool_decide (a.2 = b.2) else true) l) l.

Lemma faithful_checked {M} (ρ : M → E4 K) l : faithful_check ρ l = true → faithful ρ (λ a, a ∈ l).
Proof.
  unfold faithful_check. rewrite forallb_forall. intros Hc a b Ha Hb E.
  pose proof (list_elem_of_fmap_2 (λ a, (ESHash a, eval ρ a)) l a Ha) as Ia. pose proof (list_elem_of_fmap_2 (λ a, (ESHash a, eval ρ a)) l b Hb) as Ib.
  apply list_elem_of_In in Ia, Ib. specialize (Hc _ Ia). rewrite forallb_forall in Hc. specialize (Hc _ Ib). simpl in Hc.
  rewrite decide_True in Hc by done. by apply bool_decide_eq_true in Hc.
Qed.

Definition vanishing_check {M} (l : list (Expression K M)) : bool := forallb (λ a, bool_decide (ESHash a ≠ Zero)) l.

Lemma vanishing_checked {M} (ρ : M → E4 K) l : vanishing_check l = true → vanishing ρ (λ a, a ∈ l).
Proof.
  unfold vanishing_check. rewrite forallb_forall. intros Hc a Ha E. apply list_elem_of_In in Ha. by apply Hc, bool_decide_eq_true in Ha.
Qed.

Definition cubic_cached : dexpr K MK := match degreeKeepCache by_one (fresh_cache cubic) with Ok (_, t) => t | Panic => fresh_cache cubic end.

Definition endless_cfg : DegreeReductionConfig := mkConfig 0 0 0 100 0.
Definition nested : ExprK :=
  built (MulNoSimplify (AnyExpression ∘ Some <$> [built (MulNoSimplify (AnyExpression ∘ Some <$> [var x; var y])); var z; var c])).
Definition nested_choice : ExprK := match choice 3 by_one endless_cfg (mkState [nested] [] []) with Ok (Some t) => t | _ => nested end.

Lemma nested_chosen es ms : choice 3 by_one endless_cfg (mkState [nested] es ms) = Ok (Some nested_choice).
Proof. vm_compute. reflexivity. Qed.

Lemma nested_stuck r : substituteInAll [nested] nested_choice r = Ok [nested].
Proof. vm_compute. reflexivity. Qed.

Lemma nested_plain : AssertHasNoElimVarMetadata [nested] = Ok ().
Proof. vm_compute. reflexivity. Qed.

(** ** Claims *)



(** C29. Called until it returns false, the iterator over the sub-multisets of a list of
    exponents gives, in lexicographic order and each once, exactly the vectors of exponents
    below the given ones that are neither empty nor full, have the least degree asked for
    and at most the maximal weight, and use only the positions that the configuration
    admits. Here the weighted sum of the exponents does not overflow. *)
Theorem iterator_enumerates exponents ws maxW cfg :
  length ws = length exponents → Forall (Z.le 0) exponents → Forall (Z.le 0) ws → weight ws exponents < 2 ^ 63 → 0 ≤ maxW →
  ∃ l, snapshots (iterator_fuel exponents) (newWeightedSubMultisetIterator exponents (Some ws) maxW cfg) = Ok l ∧ StronglySorted lex l ∧
    ∀ v, v ∈ l ↔ fits exponents ws maxW cfg v ∧ good exponents ws cfg v ∧ lex (replicate (length exponents) 0) v.
Proof.
  intros Hl He Hw Hb HW. unfold newWeightedSubMultisetIterator. apply snapshots_spec; [done..|by apply zeros_fit|].
  unfold iterator_fuel. pose proof (value_bound exponents _ (zeros_boxed exponents He)). lia.
Qed.

Lemma iterator_enumerates_witness :
  ∃ l, snapshots (iterator_fuel [2; 1; 1]) (newWeightedSubMultisetIterator [2; 1; 1] (Some [1; 1; 2]) 3 demo_cfg) = Ok l ∧ StronglySorted lex l ∧
    ∀ v, v ∈ l ↔ fits [2; 1; 1] [1; 1; 2] 3 demo_cfg v ∧ good [2; 1; 1] [1; 1; 2] demo_cfg v ∧ lex (replicate (length [2; 1; 1]) 0) v.
Proof. apply iterator_enumerates; [reflexivity|repeat constructor; lia..|vm_compute; reflexivity|lia]. Defined.


(** A degree that [degreeKeepCache] left in an expression is what [Degree] returns for
    any other assignment of degrees to the variables. [findOverDegreeIndices] leaves such
    degrees in the expressions it is given. *)
Theorem Degree_stale {F M : Type} (getDegree getDegree' : M → Z) (e : Expression F M) d t :
  (∀ v, Op e ≠ Constant v) → degreeKeepCache getDegree (fresh_cache e) = Ok (d, t) → Degree getDegree' t = Ok (d, fresh_cache e).
Proof.
  intros Hop E. pose proof (keep_uncache getDegree _ _ _ E) as Eu. rewrite (caches_uncache getDegree e _ (caches_fresh getDegree e)) in Eu.
  assert (degreeKeepCache getDegree' t = Ok (d, t)) as Ek; [|by unfold Degree; rewrite Ek; simpl; rewrite Eu].
  destruct e as [h children op fl]. simpl in Hop. destruct op as [v|m|cs|es|]; simpl in E; [by destruct (Hop v)|by injection E as <- <-|..];
    apply res_bind_Ok in E as (l & _ & E); apply res_bind_Ok in E as (d1 & _ & [= <- <-]); done.
Qed.

(** With columns of degree two instead of one, the degree is still said to be three. *)
Lemma Degree_stale_witness :
  degreeKeepCache by_one (fresh_cache cubic) = Ok (3, cubic_cached) ∧
  Degree (λ _, 2) cubic_cached = Ok (3, fresh_cache cubic) ∧ degree (λ _, 2) cubic = Ok 6.
Proof.
  split; [vm_compute; reflexivity|]. split; [|vm_compute; reflexivity].
  apply (Degree_stale by_one (λ _, 2) cubic 3 cubic_cached); [intros v E; vm_compute in E; discriminate E|vm_compute; reflexivity].
Defined.

(** A product that has the same factor twice, as [MulNoSimplify] builds, loses one of
    them when a sub-product is replaced: for x * x * y, with the sub-product x * y, the
    result is the new variable alone. *)
Theorem substitute_loses_factor {F M : Type} `{ElementLaws F, !ExtOps F, !ExtLaws F, !Metadata M, !Blake2b}
    (x y r e t : Expression F (Meta F M)) :
  ESHash x ≠ ESHash y →
  MulNoSimplify (AnyExpression ∘ Some <$> [x; x; y]) = Ok e → MulNoSimplify (AnyExpression ∘ Some <$> [x; y]) = Ok t →
  ESHash e ≠ ESHash t → substituteExpr t r e = Ok (r, true) ∧ ∀ ρ, eval ρ e = e4_mul (eval ρ x) (eval ρ t).
Proof.
  intros Hxy Ee Et Hne. unfold MulNoSimplify, newProductNoSimplify in Ee, Et. simpl in Ee, Et. injection Ee as <-. injection Et as <-. simpl in Hne. split.
  - rewrite substituteExpr_unfold. rewrite bool_decide_false by done. unfold substituteSubProduct, factorOutSubProduct, exponent_map.
    simpl. rewrite lookup_insert_ne, lookup_insert_eq by done. simpl. rewrite lookup_insert_ne, lookup_insert_eq by done. simpl.
    rewrite lookup_insert_ne, lookup_insert_eq by done. simpl. rewrite lookup_insert_ne, lookup_insert_eq by done. simpl. rewrite lookup_insert_eq. done.
  - intros ρ. simpl. unfold total. simpl. by rewrite !e4_exp_1.
Qed.

Lemma substitute_loses_factor_witness :
  substituteExpr (built (MulNoSimplify (AnyExpression ∘ Some <$> [var x; var y]))) (var z) (built (MulNoSimplify (AnyExpression ∘ Some <$> [var x; var x; var y]))) = Ok (var z, true) ∧
  ∀ ρ, eval ρ (built (MulNoSimplify (AnyExpression ∘ Some <$> [var x; var x; var y]))) =
    e4_mul (eval ρ (var x)) (eval ρ (built (MulNoSimplify (AnyExpression ∘ Some <$> [var x; var y])))).
Proof.
  apply (substitute_loses_factor (var x) (var y) (var z));
    first [intros E; vm_compute in E; discriminate E|vm_compute; reflexivity].
Defined.

(** C32. Without a maximal number of eliminations the reduction need not end: on
    (x * y) * z * c, built by [MulNoSimplify], with the bound 3, every round chooses a
    sub-product that is flattened when it is built and is then not found among the
    factors, so that the expression stays as it is. *)
Theorem reduction_never_ends fuel : ReduceDegreeOfExpressions 3 by_one endless_cfg fuel [nested] = Ok None.
Proof.
  assert (∀ es ms, ∃ es' ms', reduce_step 3 by_one endless_cfg (mkState [nested] es ms) = Ok (Some (mkState [nested] es' ms'))) as Hstep.
  { intros es ms. rewrite step_choice, nested_chosen. cbn [mbind res_bind current]. rewrite nested_stuck. cbn [mbind res_bind]. by eexists _, _. }
  assert (∀ es ms, reduce_loop 3 by_one endless_cfg fuel (mkState [nested] es ms) = Ok None) as Hloop.
  { induction fuel as [|fuel IH]; intros es ms; [done|]. cbn [reduce_loop]. destruct (Hstep es ms) as (es' & ms' & ->). apply IH. }
  unfold ReduceDegreeOfExpressions. rewrite nested_plain. apply Hloop.
Qed.
End DegreeTheorems.
