(* ===== verification/Types.v ===== *)
(** * Shared data types and their wire formats

    Models src/prover/utils/types: the octuplets of field elements
    ([field_koalaoctuplet.go]) and the integer encodings of [common.go].
    Writers are modelled by the sequence of buffers they pass to [Write], readers
    by a [bytes.Buffer]: the list of the bytes that are left. *)

From S2P Require Export Field.

(** ** Writers and readers *)

(** [io.WriterTo]: the buffers handed to [w.Write], in order. A writer may panic
    (the integer encodings check their widths). *)
Class WriterTo (T : Type) := write_calls : T → res (list (list Z)).

(** [bytes.Buffer.Read] into a buffer of [n] bytes: the bytes read (fewer than
    [n] when the buffer runs short), [io.EOF] on an empty buffer. *)
Definition Read (n : nat) (r : list Z) : (list Z * gerr) * list Z :=
  match r, n with
  | [], S _ => (([], Some "EOF"%string), [])
  | _, _ => ((take n r, None), drop n r)
  end.

(** The array the bytes were read into, zero filled. *)
Definition read_array (n : nat) (b : list Z) : list Z := b ++ replicate (n - length b) 0.

Lemma Read_app (n : nat) (b r : list Z) :
  length b = n → (0 < n)%nat → Read n (b ++ r) = ((b, None), r).
Proof.
  intros <- Hb. destruct b as [|x b]; [simpl in Hb; lia|]. unfold Read.
  rewrite <-app_comm_cons at 1. by rewrite take_app_length, drop_app_length.
Qed.

Lemma read_array_full (n : nat) b : length b = n → read_array n b = b.
Proof. intros <-. unfold read_array. rewrite Nat.sub_diag. apply app_nil_r. Qed.

(** ** Octuplets of field elements *)

Module KoalaOctuplet.
Section octuplet.
Context `{ElementOps F}.

Definition t : Type := vec F 8.

(** [KoalaOctuplet{}] *)
Definition zero : t := vreplicate 8 el_zero.

(** [field.NewFromString("-1")] *)
Definition negativeOne : F := el_of_Z (-1).

Definition MaxKoalaOctuplet : t := vreplicate 8 negativeOne.

Definition IsMaxOctuplet (e : t) : bool :=
  forallb (λ x, bool_decide (x = negativeOne)) (vec_to_list e).

Fixpoint cmp_loop (a b : list F) : Z :=
  match a, b with
  | x :: a', y :: b' => let r := el_cmp x y in if r =? 0 then cmp_loop a' b' else r
  | _, _ => 0
  end.

Definition Cmp (e other : t) : Z := cmp_loop (vec_to_list e) (vec_to_list other).

Definition ToBytes (e : t) : list Z := concat (el_bytes <$> vec_to_list e).

(** [segment := b[4*i : 4*i+4]] *)
Definition segment (b : list Z) (i : nat) : list Z := take 4 (drop (4 * i) b).

(** The loop of [SetBytes]: the elements set before the first bad segment. *)
Fixpoint set_segments (segs : list (list Z)) : list F * gerr :=
  match segs with
  | [] => ([], None)
  | s :: segs' =>
    match el_set_bytes_canonical s with
    | None => ([], Some "could not unmarshal koalabear octuplet"%string)
    | Some x => let '(xs, err) := set_segments segs' in (x :: xs, err)
    end
  end.

(** An array whose first entries were overwritten. *)
Definition overwrite (e : t) (xs : list F) : t :=
  fun_to_vec (λ i, default (e !!! i) (xs !! fin_to_nat i)).

(** [SetBytes] mutates the receiver, up to the first segment it rejects. *)
Definition SetBytes (e : t) (b : list Z) : t * gerr :=
  if decide (length b = 32%nat) then
    let '(xs, err) := set_segments (segment b <$> seq 0 8) in (overwrite e xs, err)
  else (e, Some "should have 32 bytes"%string).

Definition BytesToKoalaOctuplet (b : list Z) : t * gerr :=
  match SetBytes zero b with
  | (_, Some err) => (zero, Some err)
  | (e, None) => (e, None)
  end.

Definition MustBytesToKoalaOctuplet (b : list Z) : res t :=
  match BytesToKoalaOctuplet b with
  | (_, Some _) => Panic
  | (e, None) => Ok e
  end.

(** Pads or cuts the input to 32 bytes and reduces every word. *)
Definition BytesToKoalaOctupletLoose (b : list Z) : t :=
  let b := b ++ replicate (32 - length b) 0 in
  let b := take 32 b in
  overwrite zero ((λ i, el_set_bytes (segment b i)) <$> seq 0 8).

#[global] Instance WriteTo : WriterTo t := λ e, Ok [ToBytes e].

(** [ReadFrom] does not look at how many bytes were read. *)
Definition ReadFrom (e : t) (r : list Z) : (t * Z * gerr) * list Z :=
  let '((b, err), r') := Read 32 r in
  match err with
  | Some x => ((e, 0, Some x), r')
  | None => let '(e', err) := SetBytes e (read_array 32 b) in ((e', zlen b, err), r')
  end.

(** Strict order of the octuplets read as numbers, most significant first. *)
Definition lt (a b : t) : Prop := Cmp a b = -1.

Definition DummyKoalaOctuplet (i : Z) : t := overwrite zero [el_of_Z (uint64 i)].
End octuplet.
Arguments t : clear implicits.

(** *** Facts about octuplets *)
Section facts.
Context `{ElementLaws F}.
Implicit Types e a b c : t F.

#[global] Instance t_eq_dec : EqDecision (t F).
Proof. unfold t. apply _. Defined.

Lemma cmp_loop_refl (l : list F) : cmp_loop l l = 0.
Proof. induction l as [|x l IH]; simpl; [done|]. by rewrite (proj2 (el_cmp_0 x x)). Qed.

Lemma cmp_loop_0 (l k : list F) : length l = length k → cmp_loop l k = 0 → l = k.
Proof.
  revert k. induction l as [|x l IH]; intros [|y k]; simpl; try done.
  intros [=E]. destruct (Z.eqb_spec (el_cmp x y) 0) as [E0|E0]; [|done].
  apply el_cmp_0 in E0 as ->. intros. f_equal. by apply IH.
Qed.

Lemma cmp_loop_range (l k : list F) :
  cmp_loop l k = -1 ∨ cmp_loop l k = 0 ∨ cmp_loop l k = 1.
Proof.
  revert k. induction l as [|x l IH]; intros [|y k]; simpl; auto.
  destruct (Z.eqb_spec (el_cmp x y) 0) as [E0|E0]; [apply IH|].
  revert E0. rewrite el_cmp_spec. destruct (_ ?= _); auto.
Qed.

Lemma cmp_loop_opp (l k : list F) : cmp_loop k l = - cmp_loop l k.
Proof.
  revert k. induction l as [|x l IH]; intros [|y k]; simpl; try done.
  rewrite !el_cmp_spec, (Z.compare_antisym (el_val x) (el_val y)).
  destruct (el_val x ?= el_val y); simpl; [apply IH|done|done].
Qed.

Lemma cmp_loop_trans (l k m : list F) :
  length l = length k → length k = length m →
  cmp_loop l k = -1 → cmp_loop k m = -1 → cmp_loop l m = -1.
Proof.
  revert k m. induction l as [|x l IH]; intros [|y k] [|z m]; simpl; try done.
  intros [=E1] [=E2]. rewrite !el_cmp_spec.
  destruct (Z.compare_spec (el_val x) (el_val y)) as [Exy|Exy|Exy]; simpl; try done;
    destruct (Z.compare_spec (el_val y) (el_val z)) as [Eyz|Eyz|Eyz]; simpl; try done; intros.
  - rewrite Exy, Eyz, Z.compare_refl. simpl. by eapply IH.
  - rewrite Exy. apply Z.compare_lt_iff in Eyz as ->. done.
  - rewrite <-Eyz. apply Z.compare_lt_iff in Exy as ->. done.
  - assert (el_val x < el_val z) as E by lia. apply Z.compare_lt_iff in E as ->. done.
Qed.

Lemma Cmp_range a b : Cmp a b = -1 ∨ Cmp a b = 0 ∨ Cmp a b = 1.
Proof. apply cmp_loop_range. Qed.

Lemma Cmp_refl a : Cmp a a = 0.
Proof. apply cmp_loop_refl. Qed.

Lemma Cmp_0 a b : Cmp a b = 0 ↔ a = b.
Proof.
  split; [|intros ->; apply Cmp_refl]. intros E. apply vec_to_list_inj2.
  apply cmp_loop_0; [by rewrite !length_vec_to_list|done].
Qed.

Lemma Cmp_opp a b : Cmp b a = - Cmp a b.
Proof. apply cmp_loop_opp. Qed.

Lemma Cmp_1 a b : Cmp a b = 1 ↔ lt b a.
Proof. unfold lt. rewrite (Cmp_opp a b). lia. Qed.

Lemma lt_irrefl a : ¬ lt a a.
Proof. unfold lt. by rewrite Cmp_refl. Qed.

Lemma lt_trans a b c : lt a b → lt b c → lt a c.
Proof. apply cmp_loop_trans; by rewrite !length_vec_to_list. Qed.

Lemma lt_total a b : lt a b ∨ a = b ∨ lt b a.
Proof.
  destruct (Cmp_range a b) as [E|[E|E]]; [by left|right; left|right; right].
  - by apply Cmp_0.
  - by apply Cmp_1.
Qed.

Lemma lt_asym a b : lt a b → lt b a → False.
Proof. intros H1 H2. eapply lt_irrefl, lt_trans; eassumption. Qed.

(** The zero octuplet is least, [MaxKoalaOctuplet] greatest. *)
Lemma zero_least_loop (l : list F) n :
  length l = n → cmp_loop (replicate n el_zero) l ≠ 1.
Proof.
  intros <-. induction l as [|x l IH]; simpl; [done|]. rewrite el_cmp_spec.
  unfold el_zero. rewrite el_val_of, Z.mod_0_l by done. pose proof (el_val_range x).
  destruct (Z.compare_spec 0 (el_val x)); simpl; [apply IH|done|lia].
Qed.

Lemma max_greatest_loop (l : list F) n :
  length l = n → cmp_loop l (replicate n negativeOne) ≠ 1.
Proof.
  intros <-. induction l as [|x l IH]; simpl; [done|]. rewrite el_cmp_spec.
  unfold negativeOne. rewrite el_val_of. pose proof (el_val_range x).
  change (-1 mod koalaModulus) with (koalaModulus - 1).
  destruct (Z.compare_spec (el_val x) (koalaModulus - 1)); simpl; [apply IH|done|lia].
Qed.

Lemma zero_least e : e ≠ zero → lt zero e.
Proof.
  intros Hne. destruct (lt_total zero e) as [?|[E|G]]; [done|by subst|]. exfalso.
  apply Cmp_1 in G. unfold Cmp, zero in G. rewrite vec_to_list_replicate in G.
  revert G. apply zero_least_loop, length_vec_to_list.
Qed.

Lemma max_greatest e : e ≠ MaxKoalaOctuplet → lt e MaxKoalaOctuplet.
Proof.
  intros Hne. destruct (lt_total e MaxKoalaOctuplet) as [?|[E|G]]; [done|by subst|]. exfalso.
  apply Cmp_1 in G. unfold Cmp, MaxKoalaOctuplet in G. rewrite vec_to_list_replicate in G.
  revert G. apply max_greatest_loop, length_vec_to_list.
Qed.

Lemma zero_ne_max : zero (F := F) ≠ MaxKoalaOctuplet.
Proof.
  intros E. apply (f_equal (λ v, el_val (v !!! 0%fin))) in E.
  simpl in E. unfold el_zero, negativeOne in E. by rewrite !el_val_of in E.
Qed.

Lemma IsMaxOctuplet_spec e : IsMaxOctuplet e = true ↔ e = MaxKoalaOctuplet.
Proof.
  unfold IsMaxOctuplet. rewrite List.forallb_forall. split.
  - intros Hall. apply vec_to_list_inj2. unfold MaxKoalaOctuplet.
    rewrite vec_to_list_replicate. symmetry. apply replicate_as_elem_of.
    split; [apply length_vec_to_list|]. intros x Hx%list_elem_of_In.
    by apply Hall, bool_decide_eq_true in Hx.
  - intros -> x. unfold MaxKoalaOctuplet. rewrite vec_to_list_replicate.
    intros Hx%list_elem_of_In%elem_of_replicate. apply bool_decide_eq_true. naive_solver.
Qed.

(** *** Bytes round trip *)

Lemma segment_concat (ls : list (list Z)) :
  Forall (λ l, length l = 4%nat) ls → segment (concat ls) <$> seq 0 (length ls) = ls.
Proof.
  induction 1 as [|l ls Hl Hls IH]; [done|].
  cbn [length seq fmap list_fmap concat]. f_equal.
  - unfold segment. rewrite drop_0, take_app_le, take_ge by lia. done.
  - etransitivity; [|exact IH].
    rewrite <-fmap_S_seq, <-list_fmap_compose. apply list_fmap_ext.
    intros i j _. unfold segment, compose. f_equal.
    replace (4 * S j)%nat with (length l + 4 * j)%nat by lia.
    rewrite drop_app_add. done.
Qed.

Lemma set_segments_bytes (l : list F) : set_segments (el_bytes <$> l) = (l, None).
Proof.
  induction l as [|x l IH]; [done|]. rewrite fmap_cons. cbn [set_segments].
  by rewrite el_set_bytes_canonical_bytes, IH.
Qed.

Lemma overwrite_full e o : overwrite e (vec_to_list o) = o.
Proof.
  apply vec_eq. intros i. unfold overwrite. rewrite lookup_fun_to_vec.
  assert (vec_to_list o !! fin_to_nat i = Some (o !!! i)) as ->; [|done].
  by apply vlookup_lookup.
Qed.

Lemma ToBytes_length o : length (ToBytes o) = 32%nat.
Proof.
  unfold ToBytes. assert (∀ l : list F, length (concat (el_bytes <$> l)) = (4 * length l)%nat) as E.
  { induction l as [|x l IH]; [done|]. rewrite fmap_cons. cbn [concat length].
    rewrite length_app, el_bytes_length, IH. lia. }
  by rewrite E, length_vec_to_list.
Qed.

Lemma SetBytes_ToBytes e o : SetBytes e (ToBytes o) = (o, None).
Proof.
  unfold SetBytes. rewrite decide_True by apply ToBytes_length.
  assert (segment (ToBytes o) <$> seq 0 8 = el_bytes <$> vec_to_list o) as ->.
  { unfold ToBytes. rewrite <-(segment_concat (el_bytes <$> vec_to_list o)) at 2.
    - by rewrite length_fmap, length_vec_to_list.
    - apply Forall_fmap, Forall_true. intros x. apply el_bytes_length. }
  rewrite set_segments_bytes. by rewrite overwrite_full.
Qed.

Lemma set_segments_Ok segs (xs : list F) :
  Forall (Forall is_byte) segs → set_segments segs = (xs, None) → segs = el_bytes <$> xs.
Proof.
  revert xs. induction segs as [|s segs IH]; intros xs HF E; simpl in E; [by injection E as <-|].
  apply Forall_cons in HF as [Hs HF]. destruct (el_set_bytes_canonical s) as [x|] eqn:Ex; [|done].
  destruct (set_segments segs) as [ys err] eqn:Ey. injection E as <- ->. rewrite fmap_cons.
  f_equal; [by apply el_set_bytes_canonical_Some|by apply IH].
Qed.

Lemma concat_segments (n : nat) (b : list Z) : length b = (4 * n)%nat → concat (segment b <$> seq 0 n) = b.
Proof.
  revert b. induction n as [|n IH]; intros b L; [by apply length_zero_iff_nil in L|].
  cbn [seq fmap list_fmap concat]. rewrite <-fmap_S_seq, <-list_fmap_compose.
  rewrite <-(take_drop 4 b) at 3. f_equal. rewrite <-(IH (drop 4 b)) by (rewrite length_drop; lia). f_equal.
  apply list_fmap_ext. intros i j _. unfold segment, compose. rewrite drop_drop. do 2 f_equal. lia.
Qed.

(** The bytes of an octuplet are the only ones that are accepted for it. *)
Lemma SetBytes_canonical e (b : list Z) (o : t F) : Forall is_byte b → SetBytes e b = (o, None) → b = ToBytes o.
Proof.
  intros Hb. unfold SetBytes. case_decide as D; [|done].
  destruct (set_segments (segment b <$> seq 0 8)) as [xs err] eqn:E. intros [= <- ->].
  apply set_segments_Ok in E.
  2:{ apply Forall_fmap, Forall_true. intros i. unfold segment. simpl. by apply Forall_take, Forall_drop. }
  assert (length xs = 8%nat) as L by (apply (f_equal length) in E; by rewrite !length_fmap in E).
  rewrite <-(concat_segments 8 b D), E. unfold ToBytes. do 2 f_equal.
  assert (∃ o : vec F 8, vec_to_list o = xs) as [o' <-].
  { clear E. revert L. generalize 8%nat as n. intros n <-. exists (list_to_vec xs). apply vec_to_list_to_vec. }
  by rewrite overwrite_full.
Qed.

Lemma MustBytesToKoalaOctuplet_ToBytes o : MustBytesToKoalaOctuplet (ToBytes o) = Ok o.
Proof. unfold MustBytesToKoalaOctuplet, BytesToKoalaOctuplet. by rewrite SetBytes_ToBytes. Qed.

Lemma ToBytes_inj o1 o2 : ToBytes o1 = ToBytes o2 → o1 = o2.
Proof.
  intros E. pose proof (SetBytes_ToBytes zero o1) as E1. rewrite E, SetBytes_ToBytes in E1. congruence.
Qed.

Lemma ToBytes_is_byte o : Forall is_byte (ToBytes o).
Proof.
  unfold ToBytes. generalize (vec_to_list o) as l. intros l.
  induction l as [|x l IH]; [done|]. rewrite fmap_cons. cbn [concat].
  apply Forall_app. split; [apply el_bytes_is_byte|done].
Qed.

Lemma ReadFrom_ToBytes e o r : ReadFrom e (ToBytes o ++ r) = ((o, 32, None), r).
Proof.
  unfold ReadFrom. rewrite Read_app by (rewrite ?ToBytes_length; lia).
  rewrite read_array_full by apply ToBytes_length. rewrite SetBytes_ToBytes.
  unfold zlen. by rewrite ToBytes_length.
Qed.
End facts.
End KoalaOctuplet.

#[export] Hint Resolve KoalaOctuplet.ToBytes_length KoalaOctuplet.ToBytes_is_byte : go.

(** ** Integer encodings of [common.go] *)

Module Common.

(** Every two bytes are copied after two zero bytes. *)
Fixpoint pad_pairs (b : list Z) : list Z :=
  match b with
  | x :: y :: b' => 0 :: 0 :: x :: y :: pad_pairs b'
  | _ => []
  end.

Definition LeftPadded (b : list Z) : res (list Z) :=
  if Nat.even (length b) then Ok (pad_pairs b) else Panic.

Definition LeftPadded48Zeros (b : list Z) : res (list Z) :=
  if decide (length b = 16%nat) then Ok (replicate 48 0 ++ b) else Panic.

(** Keeps the last two bytes of every four. *)
Fixpoint unpad_quads (b : list Z) : list Z :=
  match b with
  | _ :: _ :: x :: y :: b' => x :: y :: unpad_quads b'
  | _ => []
  end.

Definition RemovePadding (b : list Z) : res (list Z) :=
  if decide (length b `mod` 4 = 0)%nat then Ok (unpad_quads b) else Panic.

Definition Remove48Padding (b : list Z) : res (list Z) :=
  if decide (length b = 64%nat) then Ok (drop 48 b) else Panic.

(** The buffer written for [x], an [int64]. *)
Definition WriteInt64On64Bytes (x : Z) : res (list (list Z)) :=
  let xBytes := be_bytes 8 (uint64 x) in
  p ← LeftPadded xBytes; b ← LeftPadded48Zeros p; Ok [b].

(** Two writes; the count returned is that of the second one, 8. *)
Definition WriteInt64On32Bytes (x : Z) : list (list Z) * Z :=
  let xBytes := be_bytes 8 (uint64 x) in
  ([replicate (32 - length xBytes) 0; xBytes], zlen xBytes).

Definition ReadInt64On64Bytes (r : list Z) : res ((Z * Z * gerr) * list Z) :=
  let '((b, err), r') := Read 64 r in
  match err with
  | Some _ => Ok ((0, zlen b, Some "could not read 64 bytes"%string), r')
  | None =>
    if negb (zlen b =? 64) then Ok ((0, zlen b, Some "could not read 64 bytes: read"%string), r')
    else
      d ← Remove48Padding (read_array 64 b);
      data ← RemovePadding d;
      Ok ((Z.land (be_val data) 0x7fffffffffffffff, 64, None), r')
  end.

Definition ReadInt64On32Bytes (r : list Z) : (Z * Z * gerr) * list Z :=
  let '((b, err), r') := Read 32 r in
  match err with
  | Some _ => ((0, zlen b, Some "could not read 32 bytes"%string), r')
  | None =>
    let bi := be_val (read_array 32 b) in
    if bool_decide (in_int64 bi) then ((bi, 32, None), r')
    else ((0, zlen b, Some "could not read 32 bytes, had"%string), r')
  end.

(** [big.Int.FillBytes] on a buffer of [n] bytes: panics on overflow. *)
Definition FillBytes (n : nat) (b : Z) : res (list Z) :=
  if decide (Z.abs b < 256 ^ Z.of_nat n) then Ok (be_bytes n (Z.abs b)) else Panic.

Definition WriteBigIntOn64Bytes (b : Z) : res (list (list Z)) :=
  balanceBig ← FillBytes 32 b; p ← LeftPadded balanceBig; Ok [p].

Definition WriteBigIntOn32Bytes (b : Z) : res (list (list Z)) :=
  balanceBig ← FillBytes 32 b; Ok [balanceBig].

Definition ReadBigIntOn32Bytes (r : list Z) : (Z * gerr) * list Z :=
  let '((b, err), r') := Read 32 r in
  match err with
  | Some _ => ((0, Some "reading big int, could not 32 bytes from reader"%string), r')
  | None => ((be_val (read_array 32 b), None), r')
  end.

Definition ReadBigIntOn64Bytes (r : list Z) : res ((Z * gerr) * list Z) :=
  let '((b, err), r') := Read 64 r in
  match err with
  | Some _ => Ok ((0, Some "reading big int, could not 64 bytes from reader"%string), r')
  | None => data ← RemovePadding (read_array 64 b); Ok ((be_val data, None), r')
  end.

(** *** Facts about the encodings *)

Lemma pad_pairs_length b : Nat.even (length b) = true → length (pad_pairs b) = (2 * length b)%nat.
Proof.
  revert b. fix IH 1. intros [|x [|y b]]; simpl; [done|done|].
  intros E. rewrite IH by done. lia.
Qed.

Lemma unpad_pad b : Nat.even (length b) = true → unpad_quads (pad_pairs b) = b.
Proof. revert b. fix IH 1. intros [|x [|y b]]; simpl; [done|done|]. intros E. by rewrite IH. Qed.

Lemma LeftPadded_Ok b : Nat.even (length b) = true → LeftPadded b = Ok (pad_pairs b).
Proof. intros E. unfold LeftPadded. by rewrite E. Qed.

Lemma RemovePadding_pad b : Nat.even (length b) = true → RemovePadding (pad_pairs b) = Ok b.
Proof.
  intros E. unfold RemovePadding. rewrite pad_pairs_length, unpad_pad by done.
  rewrite decide_True; [done|]. apply Nat.even_spec in E as [k ->].
  replace (2 * (2 * k))%nat with (k * 4)%nat by lia. by apply Nat.Div0.mod_mul.
Qed.

(** The 64-byte word of an [int64]. *)
Definition int64_word (x : Z) : list Z := replicate 48 0 ++ pad_pairs (be_bytes 8 (uint64 x)).

Lemma int64_word_length x : length (int64_word x) = 64%nat.
Proof.
  unfold int64_word. rewrite length_app, length_replicate, pad_pairs_length; by rewrite be_bytes_length.
Qed.

Lemma WriteInt64On64Bytes_spec x : WriteInt64On64Bytes x = Ok [int64_word x].
Proof.
  unfold WriteInt64On64Bytes. rewrite LeftPadded_Ok by by rewrite be_bytes_length.
  rewrite res_bind_ret.
  unfold LeftPadded48Zeros. rewrite decide_True; [done|].
  rewrite pad_pairs_length; by rewrite be_bytes_length.
Qed.

Lemma be_val_bytes8 x : be_val (be_bytes 8 (uint64 x)) = uint64 x.
Proof. rewrite be_val_bytes. unfold uint64. change (256 ^ Z.of_nat 8) with (2 ^ 64). by rewrite Z.mod_mod. Qed.

(** [ReadInt64On64Bytes] gives back the value, less its sign bit. *)
Lemma ReadInt64On64Bytes_word x r :
  ReadInt64On64Bytes (int64_word x ++ r) = Ok ((x mod 2 ^ 63, 64, None), r).
Proof.
  unfold ReadInt64On64Bytes. rewrite Read_app by (rewrite ?int64_word_length; lia).
  unfold zlen. rewrite int64_word_length. cbn [negb Z.eqb Z.of_nat].
  rewrite read_array_full by apply int64_word_length.
  unfold Remove48Padding. rewrite decide_True by apply int64_word_length.
  rewrite res_bind_ret. unfold int64_word. rewrite drop_app_length' by done.
  rewrite RemovePadding_pad by by rewrite be_bytes_length.
  rewrite res_bind_ret, be_val_bytes8. do 4 f_equal.
  change 0x7fffffffffffffff with (Z.ones 63). rewrite Z.land_ones by done.
  unfold uint64. rewrite Z.mod_mod_divide; [done|]. by exists 2.
Qed.

Lemma be_val_zeros n l : be_val (replicate n 0 ++ l) = be_val l.
Proof.
  rewrite be_val_app. replace (be_val (replicate n 0)) with 0; [lia|].
  induction n as [|n IH]; [done|]. rewrite replicate_S_end, be_val_app, <-IH. done.
Qed.

Lemma ReadInt64On32Bytes_written x r :
  in_int64 x →
  ReadInt64On32Bytes (concat (WriteInt64On32Bytes x).1 ++ r) =
    if decide (0 ≤ x) then ((x, 32, None), r)
    else ((0, 32, Some "could not read 32 bytes, had"%string), r).
Proof.
  unfold in_int64. intros Hx. unfold ReadInt64On32Bytes, WriteInt64On32Bytes.
  rewrite be_bytes_length. cbn [fst concat]. rewrite app_nil_r, Read_app.
  2: by rewrite length_app, length_replicate, be_bytes_length. 2: lia.
  rewrite read_array_full by by rewrite length_app, length_replicate, be_bytes_length.
  rewrite be_val_zeros, be_val_bytes8, zlen_app. unfold zlen. rewrite length_replicate, be_bytes_length.
  case_decide.
  - unfold uint64. rewrite Z.mod_small by lia. by rewrite bool_decide_true by (unfold in_int64; lia).
  - rewrite bool_decide_false; [done|]. unfold in_int64, uint64.
    rewrite <-(Z.mod_add x 1), Z.mod_small by lia. lia.
Qed.

(** The 64-byte word of a non-negative big integer. *)
Definition bigint_word (b : Z) : list Z := pad_pairs (be_bytes 32 b).

Lemma bigint_word_length b : length (bigint_word b) = 64%nat.
Proof. unfold bigint_word. rewrite pad_pairs_length; by rewrite be_bytes_length. Qed.

Lemma WriteBigIntOn64Bytes_spec b :
  0 ≤ b < 2 ^ 256 → WriteBigIntOn64Bytes b = Ok [bigint_word b].
Proof.
  intros Hb. unfold WriteBigIntOn64Bytes, FillBytes.
  rewrite decide_True by (change (256 ^ Z.of_nat 32) with (2 ^ 256); lia).
  rewrite res_bind_ret.
  rewrite LeftPadded_Ok by by rewrite be_bytes_length. rewrite Z.abs_eq by lia. done.
Qed.

Lemma ReadBigIntOn64Bytes_word b r :
  0 ≤ b < 2 ^ 256 → ReadBigIntOn64Bytes (bigint_word b ++ r) = Ok ((b, None), r).
Proof.
  intros Hb. unfold ReadBigIntOn64Bytes. rewrite Read_app by (rewrite ?bigint_word_length; lia).
  rewrite read_array_full by apply bigint_word_length. unfold bigint_word.
  rewrite RemovePadding_pad by by rewrite be_bytes_length. rewrite res_bind_ret, be_val_bytes.
  rewrite Z.mod_small; [done|]. by change (256 ^ Z.of_nat 32) with (2 ^ 256).
Qed.

Lemma ReadBigIntOn32Bytes_written b r :
  0 ≤ b < 2 ^ 256 →
  ∃ w, WriteBigIntOn32Bytes b = Ok w ∧ ReadBigIntOn32Bytes (concat w ++ r) = ((b, None), r).
Proof.
  intros Hb. unfold WriteBigIntOn32Bytes, FillBytes.
  rewrite decide_True by (change (256 ^ Z.of_nat 32) with (2 ^ 256); lia).
  rewrite res_bind_ret.
  eexists. split; [done|]. cbn [concat]. rewrite app_nil_r. unfold ReadBigIntOn32Bytes.
  rewrite Read_app by (rewrite ?be_bytes_length; lia).
  rewrite read_array_full by apply be_bytes_length.
  rewrite be_val_bytes, Z.abs_eq, Z.mod_small; [done| |lia]. by change (256 ^ Z.of_nat 32) with (2 ^ 256).
Qed.

End Common.
