(* ===== verification/Poseidon.v ===== *)
(** * The Merkle-Damgard hasher over Poseidon2

    Models src/prover/crypto/poseidon2_koalabear/poseidon2.go. The compression
    function itself ([vortex.CompressPoseidon2]) is gnark-crypto code: the class
    [Poseidon2] is the parameter that stands for it, without any assumption. *)

From S2P Require Export Types.
Import KoalaOctuplet.

(** [vortex.CompressPoseidon2] *)
Class Poseidon2 (F : Type) := CompressPoseidon2 : KoalaOctuplet.t F → KoalaOctuplet.t F → KoalaOctuplet.t F.

Module MDHasher.
Section hasher.
Context `{ElementOps F, Poseidon2 F}.

Definition BlockSize : nat := 8.

(** The fields the methods use: the chaining state and the pending elements. *)
Record t : Type := mk { state : KoalaOctuplet.t F; buffer : list F }.

Definition NewMDHasher : t := {| state := zero; buffer := [] |}.

(** [Reset] clears the state; the buffer is left as it is. *)
Definition Reset (d : t) : t := {| state := zero; buffer := buffer d |}.

Definition SetStateOctuplet (d : t) (st : KoalaOctuplet.t F) : t := {| state := st; buffer := [] |}.

Definition WriteElements (d : t) (elmts : list F) : t :=
  {| state := state d; buffer := buffer d ++ elmts |}.

(** The next block: a full one, or the rest of the buffer padded on the left. *)
Definition next_block (buf : list F) : KoalaOctuplet.t F * list F :=
  if (length buf <? BlockSize)%nat
  then (overwrite zero (replicate (BlockSize - length buf) el_zero ++ buf), [])
  else (overwrite zero (take BlockSize buf), drop BlockSize buf).

(** The loop of [SumElement]; every turn shortens the buffer, so its length is
    enough fuel. *)
Fixpoint sum_loop (fuel : nat) (st : KoalaOctuplet.t F) (buf : list F) : KoalaOctuplet.t F :=
  match fuel, buf with
  | S f, _ :: _ => let '(blk, rest) := next_block buf in sum_loop f (CompressPoseidon2 st blk) rest
  | _, _ => st
  end.

(** Flushes the buffer and returns the state. *)
Definition SumElement (d : t) : KoalaOctuplet.t F * t :=
  let st := sum_loop (length (buffer d)) (state d) (buffer d) in
  (st, {| state := st; buffer := [] |}).

(** [GetStateOctuplet] flushes and restores. *)
Definition GetStateOctuplet (d : t) : KoalaOctuplet.t F * t := (fst (SumElement d), d).

(** The parsing loop of [Write]. *)
Fixpoint parse_elems (p : list Z) : option (list F) :=
  match p with
  | a :: b :: c :: d :: p' =>
    match el_set_bytes_canonical [a; b; c; d] with
    | Some x => xs ← parse_elems p'; Some (x :: xs)
    | None => None
    end
  | _ => Some []
  end.

Definition Write (d : t) (p : list Z) : (Z * gerr) * t :=
  if negb (length p mod 4 =? 0)%nat
  then ((0, Some "input length is not a multiple of 4 byte size"%string), d)
  else match parse_elems p with
       | None => ((0, Some "invalid koalabear element"%string), d)
       | Some elems => ((zlen p, None), WriteElements d elems)
       end.

Definition Sum (d : t) (msg : list Z) : res (list Z * t) :=
  match Write d msg with
  | ((_, Some _), _) => Panic
  | ((_, None), d') => let '(h, d'') := SumElement d' in Ok (ToBytes h, d'')
  end.

(** [HashVec]: hash of a vector of field elements. *)
Definition HashVec (v : list F) : KoalaOctuplet.t F :=
  fst (SumElement (WriteElements NewMDHasher v)).

(** [m.WriteTo(hasher)] when the caller ignores the errors, as [hash] of the
    accumulator does: a buffer the hasher rejects is skipped. *)
Definition write_all (d : t) (calls : list (list Z)) : t :=
  foldl (λ d p, snd (Write d p)) d calls.

Definition HashBytes (x : list Z) : res (list Z) :=
  match Write NewMDHasher x with
  | ((_, Some _), _) => Panic
  | ((_, None), d) => r ← Sum d []; Ok (fst r)
  end.
End hasher.
Arguments t : clear implicits.

Section facts.
Context `{ElementLaws F, !Poseidon2 F}.
Implicit Types o : KoalaOctuplet.t F.

(** Chaining over whole blocks. *)
Definition md_blocks (bs : list (KoalaOctuplet.t F)) : KoalaOctuplet.t F :=
  foldl CompressPoseidon2 zero bs.

Lemma sum_loop_blocks fuel st (bs : list (KoalaOctuplet.t F)) :
  (length bs ≤ fuel)%nat →
  sum_loop fuel st (concat (vec_to_list <$> bs)) = foldl CompressPoseidon2 st bs.
Proof.
  revert st bs. induction fuel as [|f IH]; intros st [|o bs] Hf; simpl in Hf; try done; [lia|].
  rewrite fmap_cons. cbn [concat foldl].
  destruct (vec_to_list o ++ concat (vec_to_list <$> bs)) as [|x l] eqn:E.
  { apply (f_equal length) in E. rewrite length_app, length_vec_to_list in E. simpl in E. lia. }
  cbn [sum_loop]. rewrite <-E. unfold next_block.
  rewrite length_app, length_vec_to_list. cbn [Nat.ltb Nat.leb BlockSize Nat.add].
  rewrite take_app_length', drop_app_length' by by rewrite length_vec_to_list.
  rewrite overwrite_full. apply IH. lia.
Qed.

Lemma HashVec_blocks (bs : list (KoalaOctuplet.t F)) :
  HashVec (concat (vec_to_list <$> bs)) = md_blocks bs.
Proof.
  unfold HashVec, SumElement. cbn [fst WriteElements buffer NewMDHasher state app].
  apply sum_loop_blocks. induction bs as [|o bs IH]; [done|]. rewrite fmap_cons. cbn [concat length].
  rewrite length_app, length_vec_to_list. lia.
Qed.

Lemma parse_elems_bytes (l : list F) : parse_elems (concat (el_bytes <$> l)) = Some l.
Proof.
  induction l as [|x l IH]; [done|]. rewrite fmap_cons. cbn [concat].
  pose proof (el_set_bytes_canonical_bytes x) as E. pose proof (el_bytes_length x) as L.
  destruct (el_bytes x) as [|a [|b [|c [|d [|? ?]]]]]; try done.
  cbn [app parse_elems]. by rewrite E, IH.
Qed.

Lemma bytes_of_elems_length (l : list F) : length (concat (el_bytes <$> l)) = (length l * 4)%nat.
Proof.
  induction l as [|x l IH]; [done|]. rewrite fmap_cons. cbn [concat].
  rewrite length_app, el_bytes_length, IH. simpl. lia.
Qed.

(** Writing canonical bytes is writing the elements. *)
Lemma Write_bytes d (l : list F) :
  Write d (concat (el_bytes <$> l)) = ((zlen l * 4, None), WriteElements d l).
Proof.
  unfold Write. rewrite bytes_of_elems_length, Nat.Div0.mod_mul. cbn [negb Nat.eqb].
  rewrite parse_elems_bytes. unfold zlen. rewrite bytes_of_elems_length. repeat f_equal. lia.
Qed.

Lemma Write_octuplet d o : Write d (ToBytes o) = ((32, None), WriteElements d (vec_to_list o)).
Proof. unfold ToBytes. rewrite Write_bytes. unfold zlen. by rewrite length_vec_to_list. Qed.

Lemma Sum_nil d : Sum d [] = Ok (ToBytes (SumElement d).1, (SumElement d).2).
Proof.
  unfold Sum, Write. simpl. unfold WriteElements. rewrite app_nil_r. by destruct d.
Qed.

Lemma WriteElements_app d (l k : list F) : WriteElements (WriteElements d l) k = WriteElements d (l ++ k).
Proof. unfold WriteElements. simpl. by rewrite app_assoc. Qed.
End facts.
End MDHasher.
