(* ===== verification/Smt.v ===== *)
(** * Sparse Merkle trees

    Models src/prover/crypto/state-management/smt_koalabear: [tree.go],
    [update.go] and [proof.go]. The specification side describes a tree by its
    leaf assignment [lv : Z → octuplet] and the values [node lv l i] of the nodes
    above it; [wf t lv] says that a stored tree holds exactly these values. *)

From S2P Require Export Poseidon.

Module Smt.
Section tree.
Context `{ElementOps F, Poseidon2 F}.
Notation oct := (KoalaOctuplet.t F).

(** [1 << d] on a 64-bit [int] *)
Definition shl1 (d : Z) : Z := int64 (Z.shiftl 1 d).

(** ** tree.go *)

Record Tree : Type := mkTree {
  Depth : Z;
  Root : oct;
  OccupiedLeaves : list oct;
  OccupiedNodes : list (list oct);
  EmptyNodes : list oct
}.

Definition EmptyLeaf : oct := KoalaOctuplet.zero.

(** [hashLR] resets the hasher it is given, feeds it the children and drains it. *)
Definition hashLR (hasher : MDHasher.t F) (nodeL nodeR : oct) : oct * MDHasher.t F :=
  let h := MDHasher.Reset hasher in
  let h := MDHasher.WriteElements h (vec_to_list nodeL) in
  let h := MDHasher.WriteElements h (vec_to_list nodeR) in
  MDHasher.SumElement h.

(** The parent of two nodes. Hashers are created empty and every [hashLR] leaves
    them empty ([hashLR_drained]), so the result does not depend on which hasher
    the loops reuse. *)
Definition parent (nodeL nodeR : oct) : oct := fst (hashLR MDHasher.NewMDHasher nodeL nodeR).

(** The loop that fills [emptyNodes], with the last node computed. *)
Fixpoint empty_nodes_loop (n : nat) (prevNode : oct) : list oct * oct :=
  match n with
  | O => ([], prevNode)
  | S n' =>
    let newNode := parent prevNode prevNode in
    let '(rest, last) := empty_nodes_loop n' newNode in (newNode :: rest, last)
  end.

Definition NewEmptyTree (depths : list Z) : Tree :=
  let depth := match depths with d :: _ => if 0 <? d then d else 40 | [] => 40 end in
  let '(emptyNodes, prevNode) := empty_nodes_loop (Z.to_nat (depth - 1)) EmptyLeaf in
  {| Depth := depth;
     Root := parent prevNode prevNode;
     OccupiedLeaves := [];
     OccupiedNodes := replicate (Z.to_nat (depth - 1)) [];
     EmptyNodes := emptyNodes |}.

Definition GetLeaf (t : Tree) (pos : Z) : res (oct * gerr) :=
  let maxPos := shl1 (Depth t) in
  if maxPos <=? pos then Ok (KoalaOctuplet.zero, Some "out of bound"%string)
  else if pos <? 0 then Ok (KoalaOctuplet.zero, Some "negative position"%string)
  else if zlen (OccupiedLeaves t) <=? pos then Ok (EmptyLeaf, None)
  else l ← idx (OccupiedLeaves t) pos; Ok (l, None).

Definition MustGetLeaf (t : Tree) (pos : Z) : res oct :=
  r ← GetLeaf t pos;
  match r with (l, None) => Ok l | (_, Some _) => Panic end.

Definition is_zero (o : oct) : bool := bool_decide (o = KoalaOctuplet.zero).

Definition getNode (t : Tree) (level posInLevel : Z) : res oct :=
  if level =? Depth t then
    if 0 <? posInLevel then Panic
    else if is_zero (Root t) then Panic
    else Ok (Root t)
  else if (1 <=? level) && (level <=? Depth t - 1) then
    let maxPos := shl1 (Depth t - level) in
    if maxPos <=? posInLevel then Panic
    else
      row ← idx (OccupiedNodes t) (level - 1);
      if zlen row <=? posInLevel then idx (EmptyNodes t) (level - 1)
      else
        r ← idx row posInLevel;
        if is_zero r then Panic else Ok r
  else if level =? 0 then MustGetLeaf t posInLevel
  else Panic.

Definition reserveLevel (t : Tree) (level newSize : Z) : res Tree :=
  if Depth t <? level then Panic
  else if level =? Depth t then Panic
  else if shl1 (Depth t - level) <? newSize then Panic
  else if level =? 0 then
    if newSize <=? zlen (OccupiedLeaves t) then Ok t
    else
      let padding := replicate (Z.to_nat (newSize - zlen (OccupiedLeaves t))) EmptyLeaf in
      Ok {| Depth := Depth t; Root := Root t;
            OccupiedLeaves := OccupiedLeaves t ++ padding;
            OccupiedNodes := OccupiedNodes t; EmptyNodes := EmptyNodes t |}
  else
    row ← idx (OccupiedNodes t) (level - 1);
    if newSize <=? zlen row then Ok t
    else
      e ← idx (EmptyNodes t) (level - 1);
      let padding := replicate (Z.to_nat (newSize - zlen row)) e in
      nodes ← store (OccupiedNodes t) (level - 1) (row ++ padding);
      Ok {| Depth := Depth t; Root := Root t; OccupiedLeaves := OccupiedLeaves t;
            OccupiedNodes := nodes; EmptyNodes := EmptyNodes t |}.

Definition updateNode (t : Tree) (level posInLevel : Z) (newVal : oct) : res Tree :=
  if level =? Depth t then
    if 0 <? posInLevel then Panic
    else if is_zero (Root t) then Panic
    else Ok {| Depth := Depth t; Root := newVal; OccupiedLeaves := OccupiedLeaves t;
               OccupiedNodes := OccupiedNodes t; EmptyNodes := EmptyNodes t |}
  else if (1 <=? level) && (level <? Depth t) then
    let maxPos := shl1 (Depth t - level) in
    if maxPos <=? posInLevel then Panic
    else
      row ← idx (OccupiedNodes t) (level - 1);
      t ← (if zlen row <=? posInLevel then reserveLevel t level (posInLevel + 1) else Ok t);
      row ← idx (OccupiedNodes t) (level - 1);
      row ← store row posInLevel newVal;
      nodes ← store (OccupiedNodes t) (level - 1) row;
      Ok {| Depth := Depth t; Root := Root t; OccupiedLeaves := OccupiedLeaves t;
            OccupiedNodes := nodes; EmptyNodes := EmptyNodes t |}
  else if level =? 0 then
    let maxPos := shl1 (Depth t) in
    if maxPos <=? posInLevel then Panic
    else
      t ← (if zlen (OccupiedLeaves t) <=? posInLevel then reserveLevel t 0 (posInLevel + 1) else Ok t);
      leaves ← store (OccupiedLeaves t) posInLevel newVal;
      Ok {| Depth := Depth t; Root := Root t; OccupiedLeaves := leaves;
            OccupiedNodes := OccupiedNodes t; EmptyNodes := EmptyNodes t |}
  else Panic.

(** ** update.go *)

(** One level of [Update]: store the node, fetch its sibling, hash them. *)
Definition update_step (s : Tree * oct * Z) (level : Z) : res (Tree * oct * Z) :=
  let '(t, current, ix) := s in
  t ← updateNode t level ix current;
  sibling ← getNode t level (Z.lxor ix 1);
  let '(nodeL, nodeR) := if Z.land ix 1 =? 1 then (sibling, current) else (current, sibling) in
  Ok (t, parent nodeL nodeR, Z.shiftr ix 1).

Definition Update (t : Tree) (pos : Z) (newVal : oct) : res Tree :=
  if shl1 (Depth t) <=? pos then Panic
  else
    s ← foldM update_step (t, newVal, pos) (seqZ 0 (Depth t));
    let '(t, current, ix) := s in
    if negb (ix =? 0) then Panic
    else Ok {| Depth := Depth t; Root := current; OccupiedLeaves := OccupiedLeaves t;
               OccupiedNodes := OccupiedNodes t; EmptyNodes := EmptyNodes t |}.

(** ** proof.go *)

Record Proof : Type := mkProof { Path : Z; Siblings : list oct }.

Record ProvedClaim : Type := mkClaim { claim_Proof : Proof; claim_Root : oct; claim_Leaf : oct }.

Definition prove_step (t : Tree) (s : list oct * Z) (level : Z) : res (list oct * Z) :=
  let '(siblings, ix) := s in
  sibling ← getNode t level (Z.lxor ix 1);
  Ok (siblings ++ [sibling], Z.shiftr ix 1).

Definition Prove (t : Tree) (pos : Z) : res (Proof * gerr) :=
  let depth := Depth t in
  if shl1 depth <=? pos then Ok ({| Path := 0; Siblings := [] |}, Some "pos is too high"%string)
  else if pos <? 0 then Ok ({| Path := 0; Siblings := [] |}, Some "pos is negative"%string)
  else
    s ← foldM (prove_step t) ([], pos) (seqZ 0 depth);
    let '(siblings, ix) := s in
    if negb (ix =? 0) then Panic else Ok ({| Path := pos; Siblings := siblings |}, None).

Definition MustProve (t : Tree) (pos : Z) : res Proof :=
  r ← Prove t pos;
  match r with (p, None) => Ok p | (_, Some _) => Panic end.

Definition recover_step (s : oct * Z) (sibling : oct) : oct * Z :=
  let '(current, ix) := s in
  let '(nodeL, nodeR) := if Z.land ix 1 =? 1 then (sibling, current) else (current, sibling) in
  (parent nodeL nodeR, Z.shiftr ix 1).

(** The error result of [RecoverRoot] is always [nil]. *)
Definition RecoverRoot (p : Proof) (leaf : oct) : res (oct * gerr) :=
  let '(current, ix) := foldl recover_step (leaf, Path p) (Siblings p) in
  if negb (ix =? 0) then Panic else Ok (current, None).

Definition Verify (p : Proof) (leaf root : oct) : res gerr :=
  r ← RecoverRoot p leaf;
  match r with
  | (_, Some err) => Ok (Some err)
  | (actual, None) => if bool_decide (actual = root) then Ok None
                      else Ok (Some "can't verify Merkle proof"%string)
  end.
End tree.
Arguments Tree : clear implicits.
Arguments Proof : clear implicits.
Arguments ProvedClaim : clear implicits.
End Smt.
