(* ===== verification/SmtFacts.v ===== *)
(** * Correctness of the sparse Merkle tree

    Specification of the trees of [Smt] by leaf assignments, and the lemmas that
    the accumulator builds on: what [getNode], [updateNode], [Update], [Prove] and
    [RecoverRoot] compute on a well-formed tree. *)

From S2P Require Export Smt.
Import Smt.

Module SmtFacts.
Section spec.
Context `{ElementOps F, Poseidon2 F}.
Notation oct := (KoalaOctuplet.t F).

(** Node [i] of level [l] over the leaves [lv]. *)
Fixpoint node (lv : Z → oct) (l : nat) (i : Z) : oct :=
  match l with
  | O => lv i
  | S l' => parent (node lv l' (2 * i)) (node lv l' (2 * i + 1))
  end.

(** The value of a node above empty leaves only. *)
Fixpoint emp (l : nat) : oct :=
  match l with O => EmptyLeaf | S l' => parent (emp l') (emp l') end.

Definition upd (lv : Z → oct) (pos : Z) (v : oct) : Z → oct :=
  λ i, if i =? pos then v else lv i.

(** The siblings on the path of [pos], from the leaf up. *)
Definition siblings (lv : Z → oct) (pos : Z) (d : nat) : list oct :=
  (λ l, node lv l (Z.lxor (Z.shiftr pos (Z.of_nat l)) 1)) <$> seq 0 d.

(** The stored row of a level: leaves at level 0. *)
Definition row (t : Tree F) (l : Z) : option (list oct) :=
  if l =? 0 then Some (OccupiedLeaves t) else OccupiedNodes t !! Z.to_nat (l - 1).

(** The value a tree stands for at a level and position: stored, or empty. *)
Definition val (t : Tree F) (l i : Z) : oct :=
  default (emp (Z.to_nat l)) (row t l ≫= λ r, r !! Z.to_nat i).

Record shape (t : Tree F) : Prop := {
  shape_depth : 1 ≤ Depth t ≤ 62;
  shape_empty : EmptyNodes t = emp <$> seq 1 (Z.to_nat (Depth t - 1));
  shape_rows : length (OccupiedNodes t) = Z.to_nat (Depth t - 1);
  shape_fit l r : 0 ≤ l < Depth t → row t l = Some r → zlen r ≤ 2 ^ (Depth t - l)
}.

(** [t] stores the Merkle tree of the leaves [lv]. *)
Record wf (t : Tree F) (lv : Z → oct) : Prop := {
  wf_shape : shape t;
  wf_val l i : 0 ≤ l < Depth t → 0 ≤ i → val t l i = node lv (Z.to_nat l) i;
  wf_root : Root t = node lv (Z.to_nat (Depth t)) 0
}.
End spec.

(** The sanity checks of [getNode] panic on a zero node; the code relies on the
    hash never being zero. *)
Class HashNonZero (F : Type) `{ElementOps F, Poseidon2 F} : Prop :=
  parent_nonzero (l r : KoalaOctuplet.t F) : parent l r ≠ KoalaOctuplet.zero.

(** ** Index arithmetic *)

Lemma land_1 i : Z.land i 1 = i mod 2.
Proof. change 1 with (Z.ones 1). by rewrite Z.land_ones. Qed.

Lemma shiftr_1 i : Z.shiftr i 1 = i / 2.
Proof. by rewrite Z.shiftr_div_pow2. Qed.

Lemma lxor_1 i : 0 ≤ i → Z.lxor i 1 = if i mod 2 =? 1 then i - 1 else i + 1.
Proof. intros Hi. rewrite Zmod_odd. by destruct i as [|[p|p|]|]. Qed.

(** The two children of node [i / 2] are [i] and its sibling. *)
Lemma lxor_1_bound i k : 0 ≤ i < 2 ^ k → 1 ≤ k → 0 ≤ Z.lxor i 1 < 2 ^ k.
Proof.
  intros Hi Hk. rewrite lxor_1 by lia. pose proof (Z.div_mod i 2 ltac:(lia)).
  replace (2 ^ k) with (2 * 2 ^ (k - 1)) in *; [destruct (Z.eqb_spec (i mod 2) 1);
    pose proof (Z.mod_pos_bound i 2 ltac:(lia)); lia|].
  rewrite <-Z.pow_succ_r by lia. f_equal. lia.
Qed.

Lemma lxor_1_ne i : 0 ≤ i → Z.lxor i 1 ≠ i.
Proof. intros Hi. rewrite lxor_1 by done. destruct (_ =? _); lia. Qed.

Lemma shiftr_succ pos l : 0 ≤ l → Z.shiftr (Z.shiftr pos l) 1 = Z.shiftr pos (l + 1).
Proof. intros. by rewrite Z.shiftr_shiftr. Qed.

Lemma shiftr_bound pos d l : 0 ≤ l ≤ d → 0 ≤ pos < 2 ^ d → 0 ≤ Z.shiftr pos l < 2 ^ (d - l).
Proof.
  intros Hl Hp. rewrite Z.shiftr_div_pow2 by lia.
  pose proof (Z.pow_pos_nonneg 2 l ltac:(lia) ltac:(lia)).
  split; [apply Z.div_pos; lia|]. apply Z.div_lt_upper_bound; [lia|].
  rewrite <-Z.pow_add_r by lia. replace (l + (d - l)) with d by lia. lia.
Qed.

Lemma shl1_small d : 0 ≤ d ≤ 62 → shl1 d = 2 ^ d.
Proof.
  intros Hd. unfold shl1. rewrite Z.shiftl_1_l, int64_id; [done|]. unfold in_int64.
  pose proof (Z.pow_pos_nonneg 2 d ltac:(lia) ltac:(lia)).
  pose proof (Z.pow_le_mono_r 2 d 62 ltac:(lia) ltac:(lia)). lia.
Qed.

Section facts.
Context `{ElementLaws F, !Poseidon2 F}.
Notation oct := (KoalaOctuplet.t F).
Implicit Types (lv : Z → oct) (t : Tree F) (v : oct).

Lemma hashLR_drained h (l r : oct) :
  MDHasher.buffer h = [] →
  hashLR h l r = (parent l r, {| MDHasher.state := parent l r; MDHasher.buffer := [] |}).
Proof. intros E. unfold parent, hashLR, MDHasher.Reset. by rewrite E. Qed.

Lemma parent_compress (l r : oct) :
  parent l r = CompressPoseidon2 (CompressPoseidon2 KoalaOctuplet.zero l) r.
Proof.
  pose proof (MDHasher.HashVec_blocks [l; r]) as E.
  rewrite !fmap_cons in E. cbn [concat fmap list_fmap] in E. rewrite app_nil_r in E.
  exact E.
Qed.

(** ** Nodes and leaf updates *)

Lemma node_ext lv lv' l i :
  (∀ j, i * 2 ^ Z.of_nat l ≤ j < (i + 1) * 2 ^ Z.of_nat l → lv j = lv' j) →
  node lv l i = node lv' l i.
Proof.
  revert i. induction l as [|l IH]; intros i E; simpl; [apply E; simpl; lia|].
  rewrite Nat2Z.inj_succ, Z.pow_succ_r in E by lia.
  f_equal; apply IH; intros j Hj; apply E; lia.
Qed.

Lemma node_upd_ne lv pos v l i :
  i ≠ Z.shiftr pos (Z.of_nat l) → node (upd lv pos v) l i = node lv l i.
Proof.
  intros Hne. apply node_ext. intros j Hj. unfold upd.
  destruct (Z.eqb_spec j pos) as [->|]; [|done]. exfalso. apply Hne.
  rewrite Z.shiftr_div_pow2 by lia. apply Z.div_unique with (pos - i * 2 ^ Z.of_nat l); lia.
Qed.

Lemma node_empty l i : node (λ _, EmptyLeaf) l i = emp l.
Proof. revert i. induction l as [|l IH]; intros i; simpl; [done|]. by rewrite !IH. Qed.

(** A parent from a child and its sibling. *)
Definition join (i : Z) (current sibling : oct) : oct :=
  if Z.land i 1 =? 1 then parent sibling current else parent current sibling.

Lemma node_succ lv l i :
  0 ≤ i → node lv (S l) (Z.shiftr i 1) = join i (node lv l i) (node lv l (Z.lxor i 1)).
Proof.
  intros Hi. unfold join. rewrite land_1, shiftr_1, lxor_1 by done.
  pose proof (Z.div_mod i 2 ltac:(lia)). pose proof (Z.mod_pos_bound i 2 ltac:(lia)).
  destruct (Z.eqb_spec (i mod 2) 1); simpl.
  - repeat f_equal; lia.
  - repeat f_equal; lia.
Qed.

Lemma siblings_upd lv pos v d : 0 ≤ pos → siblings (upd lv pos v) pos d = siblings lv pos d.
Proof.
  intros Hp. unfold siblings. apply list_fmap_ext. intros i l _. apply node_upd_ne, lxor_1_ne.
  by apply Z.shiftr_nonneg.
Qed.


(** ** Proofs and roots *)

Lemma recover_step_join cur i sib : recover_step (cur, i) sib = (join i cur sib, Z.shiftr i 1).
Proof. unfold recover_step, join. by destruct (_ =? _). Qed.

Lemma recover_siblings lv pos v d :
  0 ≤ pos →
  foldl recover_step (v, pos) (siblings lv pos d) =
    (node (upd lv pos v) d (Z.shiftr pos (Z.of_nat d)), Z.shiftr pos (Z.of_nat d)).
Proof.
  intros Hp. induction d as [|d IH].
  - simpl. unfold upd. by rewrite Z.shiftr_0_r, Z.eqb_refl.
  - unfold siblings in *. rewrite seq_S, fmap_app, foldl_app, IH. cbn [foldl fmap list_fmap Nat.add].
    rewrite recover_step_join, Nat2Z.inj_succ, <-Z.add_1_r, <-shiftr_succ, node_succ by (rewrite ?Z.shiftr_nonneg; lia).
    do 2 f_equal. symmetry. apply node_upd_ne, lxor_1_ne. by apply Z.shiftr_nonneg.
Qed.

Lemma shiftr_out pos d : 0 ≤ d → 0 ≤ pos < 2 ^ d → Z.shiftr pos d = 0.
Proof. intros Hd Hp. rewrite Z.shiftr_div_pow2 by lia. by apply Z.div_small. Qed.

Lemma RecoverRoot_siblings lv pos v d :
  0 ≤ pos < 2 ^ Z.of_nat d →
  RecoverRoot {| Path := pos; Siblings := siblings lv pos d |} v = Ok (node (upd lv pos v) d 0, None).
Proof.
  intros Hp. unfold RecoverRoot. simpl. rewrite recover_siblings, shiftr_out by lia. done.
Qed.

Lemma node_upd_id lv pos l i : node (upd lv pos (lv pos)) l i = node lv l i.
Proof. apply node_ext. intros j _. unfold upd. by destruct (Z.eqb_spec j pos) as [->|]. Qed.

Lemma RecoverRoot_own lv pos d :
  0 ≤ pos < 2 ^ Z.of_nat d →
  RecoverRoot {| Path := pos; Siblings := siblings lv pos d |} (lv pos) = Ok (node lv d 0, None).
Proof. intros Hp. rewrite RecoverRoot_siblings by done. by rewrite node_upd_id. Qed.

(** ** Access to the stored rows *)

Lemma emp_lookup (n k : nat) : (k < n)%nat → (emp <$> seq 1 n) !! k = Some (emp (F := F) (S k)).
Proof. intros Hk. rewrite list_lookup_fmap, lookup_seq_lt by done. done. Qed.

Lemma shape_row t l : shape t → 0 ≤ l < Depth t → ∃ r, row t l = Some r ∧ zlen r ≤ 2 ^ (Depth t - l).
Proof.
  intros S Hl. assert (is_Some (row t l)) as [r Hr].
  { unfold row. destruct (Z.eqb_spec l 0); [done|]. apply lookup_lt_is_Some_2.
    rewrite (shape_rows t S). lia. }
  exists r. split; [done|]. by apply (shape_fit t S).
Qed.

Lemma val_row t l r i : row t l = Some r → val t l i = default (emp (Z.to_nat l)) (r !! Z.to_nat i).
Proof. unfold val. by intros ->. Qed.

Lemma idx_row t l r : 1 ≤ l → row t l = Some r → idx (OccupiedNodes t) (l - 1) = Ok r.
Proof.
  intros Hl. unfold row. destruct (Z.eqb_spec l 0); [lia|]. intros E. apply idx_Ok. split; [lia|done].
Qed.

Lemma idx_empty t l : shape t → 1 ≤ l < Depth t → idx (EmptyNodes t) (l - 1) = Ok (emp (Z.to_nat l)).
Proof.
  intros S Hl. apply idx_Ok. split; [lia|]. rewrite (shape_empty t S), emp_lookup by lia.
  do 2 f_equal. lia.
Qed.

Lemma default_ge {A} (d : A) (r : list A) i : zlen r ≤ i → default d (r !! Z.to_nat i) = d.
Proof. unfold zlen. intros Hi. rewrite lookup_ge_None_2 by lia. done. Qed.

Lemma idx_default {A} (d : A) (r : list A) i : 0 ≤ i < zlen r → idx r i = Ok (default d (r !! Z.to_nat i)).
Proof. intros Hi. destruct (idx_is_Ok r i Hi) as [a Ha]. rewrite Ha. apply idx_Ok in Ha as [_ ->]. done. Qed.

(** [getNode] returns the value the tree stands for. *)
Lemma getNode_spec t l i :
  shape t → 0 ≤ l < Depth t → 0 ≤ i < 2 ^ (Depth t - l) →
  (1 ≤ l → val t l i ≠ KoalaOctuplet.zero) →
  getNode t l i = Ok (val t l i).
Proof.
  intros S Hl Hi Hnz. pose proof (shape_depth t S). destruct (shape_row t l S Hl) as (r & Hr & Hfit).
  rewrite (val_row t l r i Hr) in *. unfold getNode.
  rewrite (proj2 (Z.eqb_neq l (Depth t))) by lia.
  destruct (decide (l = 0)) as [->|Hl0].
  - simpl. unfold MustGetLeaf, GetLeaf. injection Hr as <-.
    rewrite shl1_small by lia. rewrite Z.sub_0_r in Hi.
    rewrite (proj2 (Z.leb_gt _ _)), (proj2 (Z.ltb_ge _ _)) by lia.
    destruct (Z.leb_spec (zlen (OccupiedLeaves t)) i).
    + rewrite default_ge by done. done.
    + rewrite (idx_default EmptyLeaf) by lia. done.
  - rewrite (proj2 (Z.leb_le 1 l)), (proj2 (Z.leb_le l _)) by lia. cbn [andb].
    rewrite shl1_small by lia. rewrite (proj2 (Z.leb_gt _ _)) by lia.
    rewrite (idx_row t l r) by (done || lia). rewrite res_bind_ret.
    destruct (Z.leb_spec (zlen r) i).
    + rewrite default_ge by done. apply idx_empty; [done|lia].
    + rewrite (idx_default (emp (Z.to_nat l))) by lia. rewrite res_bind_ret.
      unfold is_zero. rewrite bool_decide_false; [done|]. apply Hnz. lia.
Qed.

(** ** Writing one node *)

(** The tree with the row of a level replaced. *)
Definition set_row t (l : Z) (r : list oct) : Tree F :=
  if l =? 0 then
    {| Depth := Depth t; Root := Root t; OccupiedLeaves := r;
       OccupiedNodes := OccupiedNodes t; EmptyNodes := EmptyNodes t |}
  else
    {| Depth := Depth t; Root := Root t; OccupiedLeaves := OccupiedLeaves t;
       OccupiedNodes := <[Z.to_nat (l - 1) := r]> (OccupiedNodes t); EmptyNodes := EmptyNodes t |}.

Lemma row_set_row t l r l' :
  shape t → 0 ≤ l < Depth t → 0 ≤ l' →
  row (set_row t l r) l' = if l' =? l then Some r else row t l'.
Proof.
  intros S Hl Hl'. pose proof (shape_rows t S). unfold row, set_row.
  destruct (Z.eqb_spec l' l) as [->|Hne], (Z.eqb_spec l 0) as [->|]; simpl.
  - done.
  - apply list_lookup_insert_eq. lia.
  - destruct (Z.eqb_spec l' 0); [lia|done].
  - destruct (Z.eqb_spec l' 0); [done|]. apply list_lookup_insert_ne. lia.
Qed.

Lemma set_row_fields t l r :
  Depth (set_row t l r) = Depth t ∧ Root (set_row t l r) = Root t ∧
  EmptyNodes (set_row t l r) = EmptyNodes t ∧
  length (OccupiedNodes (set_row t l r)) = length (OccupiedNodes t).
Proof. unfold set_row. destruct (_ =? _); simpl; rewrite ?length_insert; done. Qed.

Lemma shape_set_row t l r :
  shape t → 0 ≤ l < Depth t → zlen r ≤ 2 ^ (Depth t - l) → shape (set_row t l r).
Proof.
  intros S Hl Hr. destruct (set_row_fields t l r) as (ED & _ & EE & EN). split.
  - rewrite ED. apply S.
  - rewrite EE, ED. apply S.
  - rewrite EN, ED. apply S.
  - intros l' r'. rewrite ED. intros Hl'. rewrite row_set_row by (done || lia).
    destruct (Z.eqb_spec l' l) as [->|]; [by intros [= <-]|]. by apply S.
Qed.

(** A row extended with empty nodes up to index [i], then written at [i]. *)
Definition put (r : list oct) (e : oct) (i : Z) (v : oct) : list oct :=
  <[Z.to_nat i := v]> (r ++ replicate (Z.to_nat (i + 1 - zlen r)) e).

Lemma zlen_put r e i v : 0 ≤ i → zlen (put r e i v) = Z.max (zlen r) (i + 1).
Proof. intros Hi. unfold put, zlen. rewrite length_insert, length_app, length_replicate. lia. Qed.

Lemma put_lookup r e i v j :
  0 ≤ i → 0 ≤ j →
  default e (put r e i v !! Z.to_nat j) = if j =? i then v else default e (r !! Z.to_nat j).
Proof.
  intros Hi Hj. unfold put. destruct (Z.eqb_spec j i) as [->|Hne].
  - rewrite list_lookup_insert_eq; [done|]. rewrite length_app, length_replicate. unfold zlen. lia.
  - rewrite list_lookup_insert_ne by lia. destruct (decide (Z.to_nat j < length r)%nat).
    + by rewrite lookup_app_l by done.
    + rewrite lookup_app_r, (lookup_ge_None_2 r) by lia.
      destruct (replicate _ _ !! _) eqn:E; [|done]. by apply lookup_replicate in E as [-> _].
Qed.

(** [put] on a row that is long enough, and on one that is padded first. *)
Lemma store_in r e i v : 0 ≤ i < zlen r → store r i v = Ok (put r e i v).
Proof.
  intros Hi. unfold put. replace (Z.to_nat (i + 1 - zlen r)) with 0%nat by lia.
  simpl. rewrite app_nil_r. by apply store_Ok.
Qed.

Lemma store_padded r e i v :
  0 ≤ i → zlen r ≤ i → store (r ++ replicate (Z.to_nat (i + 1 - zlen r)) e) i v = Ok (put r e i v).
Proof. intros Hi Hr. apply store_Ok. rewrite zlen_app, zlen_replicate; lia. Qed.

Lemma updateNode_leaf t i v :
  shape t → 0 ≤ i < 2 ^ Depth t →
  updateNode t 0 i v = Ok (set_row t 0 (put (OccupiedLeaves t) EmptyLeaf i v)).
Proof.
  intros S Hi. pose proof (shape_depth t S). unfold updateNode, reserveLevel.
  rewrite (proj2 (Z.eqb_neq 0 (Depth t))), (proj2 (Z.ltb_ge (Depth t) 0)) by lia.
  rewrite Z.sub_0_r, shl1_small by lia. cbn [andb Z.leb Z.compare Z.eqb].
  rewrite (proj2 (Z.leb_gt _ i)), (proj2 (Z.ltb_ge _ (i + 1))) by lia.
  destruct (Z.leb_spec (zlen (OccupiedLeaves t)) i).
  - rewrite (proj2 (Z.leb_gt (i + 1) _)) by lia. rewrite res_bind_ret; cbn [OccupiedLeaves].
    by rewrite store_padded by lia.
  - rewrite res_bind_ret, (store_in _ EmptyLeaf) by lia. done.
Qed.

Lemma updateNode_inner t l i v r :
  shape t → 1 ≤ l < Depth t → 0 ≤ i < 2 ^ (Depth t - l) → row t l = Some r →
  updateNode t l i v = Ok (set_row t l (put r (emp (Z.to_nat l)) i v)).
Proof.
  intros S Hl Hi Hr. pose proof (shape_depth t S). pose proof (shape_rows t S) as HN.
  assert (Hs : 0 ≤ l - 1 < zlen (OccupiedNodes t)) by (unfold zlen; lia).
  unfold updateNode, reserveLevel, set_row. rewrite (idx_row t l r), res_bind_ret by (done || lia).
  rewrite (proj2 (Z.eqb_neq l (Depth t))), (proj2 (Z.eqb_neq l 0)), (proj2 (Z.ltb_ge (Depth t) l)) by lia.
  rewrite (proj2 (Z.leb_le 1 l)), (proj2 (Z.ltb_lt l (Depth t))) by lia. cbn [andb].
  rewrite shl1_small by lia. rewrite (proj2 (Z.leb_gt _ i)), (proj2 (Z.ltb_ge _ (i + 1))) by lia.
  destruct (Z.leb_spec (zlen r) i).
  - rewrite res_bind_ret, (proj2 (Z.leb_gt (i + 1) _)), (idx_empty t l), res_bind_ret by (done || lia).
    rewrite store_Ok, !res_bind_ret by done. cbn [OccupiedNodes].
    rewrite (proj2 (idx_Ok _ _ (r ++ replicate (Z.to_nat (i + 1 - zlen r)) (emp (Z.to_nat l))))), res_bind_ret.
    2:{ split; [lia|]. apply list_lookup_insert_eq. unfold zlen in Hs. lia. }
    rewrite store_padded, res_bind_ret, store_Ok, res_bind_ret by (rewrite ?zlen_insert; lia).
    cbn. by rewrite list_insert_insert_eq.
  - rewrite res_bind_ret, (idx_row t l r), res_bind_ret by (done || lia).
    rewrite (store_in r (emp (Z.to_nat l))), res_bind_ret, store_Ok, res_bind_ret by lia. done.
Qed.

(** Writing a node changes that node and nothing else. *)
Lemma updateNode_spec t l i v :
  shape t → 0 ≤ l < Depth t → 0 ≤ i < 2 ^ (Depth t - l) →
  ∃ t', updateNode t l i v = Ok t' ∧ shape t' ∧ Depth t' = Depth t ∧ Root t' = Root t ∧
    ∀ l' j, 0 ≤ l' → 0 ≤ j → val t' l' j = if (l' =? l) && (j =? i) then v else val t l' j.
Proof.
  intros S Hl Hi. destruct (shape_row t l S Hl) as (r & Hr & Hfit).
  exists (set_row t l (put r (emp (Z.to_nat l)) i v)).
  destruct (set_row_fields t l (put r (emp (Z.to_nat l)) i v)) as (ED & ER & _ & _).
  split; [|split; [|split; [done|split; [done|]]]].
  - destruct (decide (l = 0)) as [->|]; [|by apply updateNode_inner; (done || lia)].
    injection Hr as <-. apply updateNode_leaf; [done|]. by rewrite Z.sub_0_r in Hi.
  - apply shape_set_row; [done..|]. rewrite zlen_put by lia. lia.
  - intros l' j Hl' Hj. unfold val. rewrite row_set_row by done.
    destruct (Z.eqb_spec l' l) as [->|]; simpl; [|done]. rewrite Hr. simpl. by rewrite put_lookup by lia.
Qed.

(** ** Update and Prove *)

Context {HNZ : HashNonZero F}.

Lemma node_pos_nonzero lv l i : (1 ≤ l)%nat → node lv l i ≠ KoalaOctuplet.zero.
Proof. destruct l; [lia|]. intros _. apply parent_nonzero. Qed.

Lemma emp_nonzero l : (1 ≤ l)%nat → emp (F := F) l ≠ KoalaOctuplet.zero.
Proof. destruct l; [lia|]. intros _. apply parent_nonzero. Qed.

Lemma getNode_wf t lv l i :
  wf t lv → 0 ≤ l < Depth t → 0 ≤ i < 2 ^ (Depth t - l) → getNode t l i = Ok (node lv (Z.to_nat l) i).
Proof.
  intros W Hl Hi. rewrite <-(wf_val t lv W) by lia. apply getNode_spec; [apply W|done..|].
  intros. rewrite (wf_val t lv W) by lia. apply node_pos_nonzero. lia.
Qed.

(** The state of the [Update] loop when it reaches level [k]. *)
Record upd_inv t0 lv pos v (k : Z) (s : Tree F * oct * Z) : Prop := {
  ui_shape : shape (s.1.1);
  ui_depth : Depth s.1.1 = Depth t0;
  ui_cur : s.1.2 = node (upd lv pos v) (Z.to_nat k) (Z.shiftr pos k);
  ui_ix : s.2 = Z.shiftr pos k;
  ui_val l i : 0 ≤ l < Depth t0 → 0 ≤ i →
    val s.1.1 l i = node (if l <? k then upd lv pos v else lv) (Z.to_nat l) i
}.

Lemma update_step_inv t0 lv pos v k s :
  0 ≤ pos < 2 ^ Depth t0 → 0 ≤ k < Depth t0 → upd_inv t0 lv pos v k s →
  ∃ s', update_step s k = Ok s' ∧ upd_inv t0 lv pos v (k + 1) s'.
Proof.
  intros Hp Hk [S ED Ec Ei Ev]. destruct s as [[t cur] ix]; cbn [fst snd] in *. subst cur ix.
  assert (Hb : 0 ≤ Z.shiftr pos k < 2 ^ (Depth t - k)) by (rewrite ED; apply shiftr_bound; lia).
  pose proof (lxor_1_bound _ _ Hb ltac:(lia)) as Hx.
  destruct (updateNode_spec t k (Z.shiftr pos k) (node (upd lv pos v) (Z.to_nat k) (Z.shiftr pos k)) S)
    as (t' & Hu & S' & ED' & ER' & Ev'); [lia|done|].
  assert (Hv : ∀ l i, 0 ≤ l < Depth t0 → 0 ≤ i →
    val t' l i = node (if l <? k + 1 then upd lv pos v else lv) (Z.to_nat l) i).
  { intros l i Hl Hi. rewrite Ev', Ev by lia. destruct (Z.eqb_spec l k) as [->|Hne]; cbn [andb].
    - rewrite Z.ltb_irrefl, (proj2 (Z.ltb_lt k (k + 1))) by lia.
      destruct (Z.eqb_spec i (Z.shiftr pos k)) as [->|]; [done|]. symmetry. apply node_upd_ne.
      by rewrite Z2Nat.id by lia.
    - by replace (l <? k + 1) with (l <? k) by (apply eq_bool_prop_intro; rewrite !Is_true_true, !Z.ltb_lt; lia). }
  assert (Hs : val t' k (Z.lxor (Z.shiftr pos k) 1) = node (upd lv pos v) (Z.to_nat k) (Z.lxor (Z.shiftr pos k) 1)).
  { rewrite Hv, (proj2 (Z.ltb_lt k (k + 1))) by lia. done. }
  exists (t', join (Z.shiftr pos k) (node (upd lv pos v) (Z.to_nat k) (Z.shiftr pos k))
    (node (upd lv pos v) (Z.to_nat k) (Z.lxor (Z.shiftr pos k) 1)), Z.shiftr (Z.shiftr pos k) 1). split.
  - unfold update_step, join. rewrite Hu, res_bind_ret, getNode_spec, res_bind_ret by
      (rewrite ?ED'; first [done | lia | intros ?; rewrite Hs; apply node_pos_nonzero; lia]).
    rewrite Hs. by destruct (Z.land _ _ =? 1).
  - split; cbn [fst snd]; [done|congruence| |by rewrite shiftr_succ by lia|done].
    by rewrite <-shiftr_succ, Z2Nat.inj_add, Nat.add_1_r, node_succ by lia.
Qed.

Theorem Update_spec t lv pos v :
  wf t lv → 0 ≤ pos < 2 ^ Depth t →
  ∃ t', Update t pos v = Ok t' ∧ wf t' (upd lv pos v) ∧ Depth t' = Depth t.
Proof.
  intros W Hp. pose proof (shape_depth t (wf_shape t lv W)) as Hd. unfold Update.
  rewrite shl1_small, (proj2 (Z.leb_gt _ _)) by lia.
  destruct (foldM_seqZ update_step (upd_inv t lv pos v) 0 (Depth t) (t, v, pos)) as (s & Hs & I); [lia| | |].
  - split; cbn [fst snd]; [apply W|done| |by rewrite Z.shiftr_0_r|].
    + rewrite Z.shiftr_0_r. simpl. unfold upd. by rewrite Z.eqb_refl.
    + intros l i Hl Hi. rewrite (proj2 (Z.ltb_ge l 0)) by lia. by apply W.
  - intros k s' Hk I. apply update_step_inv; [done|lia|done].
  - rewrite Hs, res_bind_ret. destruct s as [[t' cur] ix], I as [S ED Ec Ei Ev]; cbn [fst snd] in *.
    rewrite Z.add_0_l in *. rewrite shiftr_out in Ec by lia. rewrite shiftr_out in Ei by lia. subst ix. simpl. eexists. split; [done|]. split; [|done].
    split; [|simpl; rewrite ED..].
    + destruct S. by split.
    + intros l i Hl Hi. specialize (Ev l i Hl Hi). by rewrite (proj2 (Z.ltb_lt l _)) in Ev by lia.
    + rewrite Ec. done.
Qed.

Lemma MustProve_spec t lv pos :
  wf t lv → 0 ≤ pos < 2 ^ Depth t →
  MustProve t pos = Ok {| Path := pos; Siblings := siblings lv pos (Z.to_nat (Depth t)) |}.
Proof.
  intros W Hp. pose proof (shape_depth t (wf_shape t lv W)) as Hd. unfold MustProve, Prove.
  rewrite shl1_small, (proj2 (Z.leb_gt _ _)), (proj2 (Z.ltb_ge _ _)) by lia.
  destruct (foldM_seqZ (prove_step t) (λ k s, s = (siblings lv pos (Z.to_nat k), Z.shiftr pos k)) 0
    (Depth t) ([], pos)) as (s & Hs & ->); [lia| | |].
  - by rewrite Z.shiftr_0_r.
  - intros k ? Hk ->. eexists. split; [|done]. unfold prove_step.
    pose proof (lxor_1_bound _ _ (shiftr_bound pos (Depth t) k ltac:(lia) Hp) ltac:(lia)).
    rewrite (getNode_wf t lv) by (done || lia). rewrite res_bind_ret, shiftr_succ by lia. do 2 f_equal. unfold siblings.
    rewrite Z2Nat.inj_add, Nat.add_1_r, seq_S, fmap_app by lia. simpl. by rewrite Z2Nat.id by lia.
  - rewrite Hs, res_bind_ret. rewrite Z.add_0_l, shiftr_out by lia. done.
Qed.

Lemma GetLeaf_spec t lv pos :
  wf t lv → 0 ≤ pos < 2 ^ Depth t → GetLeaf t pos = Ok (lv pos, None).
Proof.
  intros W Hp. pose proof (shape_depth t (wf_shape t lv W)) as Hd.
  assert (E : MustGetLeaf t pos = Ok (lv pos)).
  { change (lv pos) with (node lv (Z.to_nat 0) pos).
    rewrite <-(getNode_wf t lv 0 pos W) by (rewrite ?Z.sub_0_r; lia).
    unfold getNode. rewrite (proj2 (Z.eqb_neq 0 _)) by lia. done. }
  unfold MustGetLeaf in E. destruct (GetLeaf t pos) as [[l [e|]]|]; [discriminate E|by injection E as ->|discriminate E].
Qed.

Lemma Verify_own lv pos d :
  0 ≤ pos < 2 ^ Z.of_nat d →
  Verify {| Path := pos; Siblings := siblings lv pos d |} (lv pos) (node lv d 0) = Ok None.
Proof.
  intros Hp. unfold Verify. rewrite RecoverRoot_own, res_bind_ret by done. by rewrite bool_decide_true.
Qed.

(** ** The empty tree *)

Lemma empty_nodes_loop_spec n k :
  empty_nodes_loop n (emp (F := F) k) = (emp <$> seq (S k) n, emp (k + n)).
Proof.
  revert k. induction n as [|n IH]; intros k; simpl; [by rewrite Nat.add_0_r|].
  change (parent (emp k) (emp k)) with (emp (F := F) (S k)). rewrite IH.
  by rewrite <-plus_n_Sm.
Qed.

Lemma NewEmptyTree_wf d : 1 ≤ d ≤ 62 → wf (NewEmptyTree [d]) (λ _, EmptyLeaf) ∧ Depth (NewEmptyTree (F := F) [d]) = d.
Proof.
  intros Hd. unfold NewEmptyTree. rewrite (proj2 (Z.ltb_lt 0 d)) by lia.
  change (@EmptyLeaf F _) with (emp (F := F) 0). rewrite empty_nodes_loop_spec. split; [|done].
  split; [split|..]; cbn [Depth EmptyNodes OccupiedNodes Root].
  - lia.
  - done.
  - by rewrite length_replicate.
  - intros l r Hl. pose proof (Z.pow_pos_nonneg 2 (d - l) ltac:(lia) ltac:(lia)).
    unfold row; simpl. destruct (_ =? _); [intros [= <-]|intros [-> _]%lookup_replicate]; unfold zlen; simpl length; lia.
  - intros l i Hl Hi. rewrite node_empty. unfold val, row; simpl. destruct (_ =? _); [done|].
    by destruct (replicate _ _ !! _) as [r|] eqn:E; [apply lookup_replicate in E as [-> _]|].
  - change (parent (emp ?n) (emp ?n)) with (emp (F := F) (S n)). rewrite node_empty. f_equal. lia.
Qed.
End facts.
End SmtFacts.
