(* ===== verification/SmtBuild.v ===== *)
(** * Building a complete Merkle tree

    [NewTree] of src/prover/crypto/state-management/smt_koalabear/tree.go fills the
    rows of a tree with goroutines: subtrees of height at most 10 first, then the
    levels above one by one. A goroutine is the sequence of its node computations;
    a run is an arbitrary interleaving of these sequences, chosen by a scheduler. *)

From S2P Require Export Utils Parallel SmtFacts.
Import Smt SmtFacts.

Module SmtBuild.

(** One node computation: [OccupiedNodes[lvl][out] = hashLR(in[inp], in[inp+1])]. *)
Record node_step : Type := mkStep { lvl : Z; out : Z; inp : Z }.

Section build.
Context `{ElementOps F, Poseidon2 F}.
Notation oct := (KoalaOctuplet.t F).

Definition run_step (leaves : list oct) (rows : list (list oct)) (s : node_step) : res (list (list oct)) :=
  inLevel ← (if lvl s =? 0 then Ok leaves else idx rows (lvl s - 1));
  nodeL ← idx inLevel (inp s);
  nodeR ← idx inLevel (inp s + 1);
  outLevel ← idx rows (lvl s);
  outLevel ← store outLevel (out s) (parent nodeL nodeR);
  store rows (lvl s) outLevel.

(** The computations of task [t] of the first phase. *)
Definition task_steps (subtreeHeight chunkSize t : Z) : list node_step :=
  (if 0 <? subtreeHeight then
     (λ k, mkStep 0 (t * (chunkSize / 2) + k) (t * chunkSize + 2 * k)) <$> seqZ 0 (chunkSize / 2)
   else [])
  ++ concat ((λ l,
       (λ k, mkStep l (t * (chunkSize / 2 ^ (l + 1)) + k) (t * (chunkSize / 2 ^ l) + 2 * k))
         <$> seqZ 0 (chunkSize / 2 ^ (l + 1))) <$> seqZ 1 (subtreeHeight - 1)).

(** The computations of one level of the second phase. *)
Definition level_step (i k : Z) : node_step := mkStep i k (2 * k).

(** A scheduler picks an interleaving for each [parallel.Execute]. *)
Definition scheduler : Type := Z → list (list node_step) → list node_step.

(** The goroutines of the first phase and of level [i] of the second. *)
Definition subtree_workers (gomaxprocs subtreeHeight chunkSize numTasks : Z) : list (list node_step) :=
  (λ r, concat (task_steps subtreeHeight chunkSize <$> Parallel.iterations r))
    <$> Parallel.Execute_ranges gomaxprocs [] numTasks.

Definition level_workers (gomaxprocs i n : Z) : list (list node_step) :=
  if (32 <=? n) && (1 <? gomaxprocs) then
    (λ r, level_step i <$> Parallel.iterations r) <$> Parallel.Execute_ranges gomaxprocs [] n
  else [level_step i <$> seqZ 0 n].

(** The rows as slices of one allocation: the rows made, the offset and the size of
    the next one. *)
Definition slice_level (allNodes : list oct) (s : list (list oct) * Z * Z) (i : Z) : res (list (list oct) * Z * Z) :=
  let '(rows, offset, currentLevelSize) := s in
  r ← slice allNodes offset (offset + currentLevelSize);
  Ok (rows ++ [r], offset + currentLevelSize, currentLevelSize / 2).

Definition init_rows (depth numLeaves : Z) : res (list (list oct)) :=
  if 1 <? depth then
    let allNodes := replicate (Z.to_nat (numLeaves - 2)) KoalaOctuplet.zero in
    s ← foldM (slice_level allNodes) ([], 0, numLeaves / 2) (seqZ 0 (depth - 1));
    Ok s.1.1
  else Ok [].

Definition NewTree (gomaxprocs : Z) (sched : scheduler) (leaves : list oct) : res (Tree F) :=
  let numLeaves := zlen leaves in
  if negb (Utils.IsPowerOfTwo numLeaves) || (numLeaves =? 0) then Panic
  else
    let depth := Utils.Log2Ceil numLeaves in
    (* make([][]field.Octuplet, depth-1) *)
    if depth - 1 <? 0 then Panic
    else
      let emptyNodes := fst (empty_nodes_loop (Z.to_nat (depth - 1)) EmptyLeaf) in
      rows ← init_rows depth numLeaves;
      let subtreeHeight := Z.max 0 (Z.min 10 (depth - 1)) in
      let chunkSize := Z.shiftl 1 subtreeHeight in
      let numTasks := numLeaves / chunkSize in
      rows ← foldM (run_step leaves) rows
               (sched 0 (subtree_workers gomaxprocs subtreeHeight chunkSize numTasks));
      rows ← foldM (λ rows i,
                currLevel ← idx rows i;
                foldM (run_step leaves) rows (sched (i + 1) (level_workers gomaxprocs i (zlen currLevel))))
             rows (seqZ subtreeHeight (depth - 1 - subtreeHeight));
      root ← (if depth =? 1 then
                nodeL ← idx leaves 0; nodeR ← idx leaves 1; Ok (parent nodeL nodeR)
              else
                lastLevel ← idx rows (depth - 2);
                if negb (zlen lastLevel =? 2) then Panic
                else nodeL ← idx lastLevel 0; nodeR ← idx lastLevel 1; Ok (parent nodeL nodeR));
      Ok {| Depth := depth; Root := root; OccupiedLeaves := leaves; OccupiedNodes := rows;
            EmptyNodes := emptyNodes |}.
End build.

(** ** Steps and their inputs *)

Definition step_at (l j : Z) : node_step := mkStep l j (2 * j).

Definition deps (s : node_step) : list node_step :=
  if lvl s =? 0 then [] else [step_at (lvl s - 1) (inp s); step_at (lvl s - 1) (inp s + 1)].

(** The nodes of level [l] that task [t] computes. *)
Definition block (h l t : Z) : list node_step :=
  (λ k, step_at l (t * 2 ^ (h - l - 1) + k)) <$> seqZ 0 (2 ^ (h - l - 1)).

Lemma pow_div a b : 0 ≤ b ≤ a → 2 ^ a / 2 ^ b = 2 ^ (a - b).
Proof. intros Hab. symmetry. apply Z.pow_sub_r; lia. Qed.

Lemma pow2_succ a : 0 ≤ a → 2 ^ (a + 1) = 2 * 2 ^ a.
Proof. intros Ha. by rewrite Z.add_1_r, Z.pow_succ_r. Qed.

Lemma block_of_code h l t :
  0 ≤ l < h →
  (λ k, mkStep l (t * (2 ^ h / 2 ^ (l + 1)) + k) (t * (2 ^ h / 2 ^ l) + 2 * k)) <$> seqZ 0 (2 ^ h / 2 ^ (l + 1))
  = block h l t.
Proof.
  intros Hl. rewrite !pow_div by lia. unfold block. replace (h - (l + 1)) with (h - l - 1) by lia.
  apply list_fmap_ext. intros _ k _. unfold step_at. f_equal.
  pose proof (pow2_succ (h - l - 1) ltac:(lia)) as Hp. replace (h - l - 1 + 1) with (h - l) in Hp by lia. rewrite Hp. lia.
Qed.

(** The code of a task computes the blocks from the leaves up. *)
Lemma task_steps_blocks h t : 0 ≤ h → task_steps h (2 ^ h) t = concat ((λ l, block h l t) <$> seqZ 0 h).
Proof.
  intros Hh. unfold task_steps. destruct (Z.ltb_spec 0 h) as [Hpos|Hz].
  - rewrite (seqZ_cons 0 h) by lia. rewrite fmap_cons. cbn [concat]. f_equal.
    + rewrite <-(block_of_code h 0 t) by lia. change (2 ^ (0 + 1)) with 2. change (2 ^ 0) with 1. by rewrite Z.div_1_r.
    + f_equal. change (Z.succ 0) with 1. replace (Z.pred h) with (h - 1) by lia. apply list_fmap_ext.
      intros i l Hl. apply lookup_seqZ in Hl as [-> Hl]. apply block_of_code. lia.
  - replace h with 0 by lia. done.
Qed.

Lemma elem_of_block h l t s :
  s ∈ block h l t ↔ ∃ k, 0 ≤ k < 2 ^ (h - l - 1) ∧ s = step_at l (t * 2 ^ (h - l - 1) + k).
Proof.
  unfold block. rewrite list_elem_of_fmap. setoid_rewrite elem_of_seqZ. split; intros (k & H1 & H2); exists k; split; (done || lia).
Qed.

Lemma contained_all {A} (dp : A → list A) D l : (∀ x, x ∈ l → dp x ⊆ D) → Parallel.contained dp D l.
Proof.
  revert D. induction l as [|x l IH]; intros D Hl; simpl; [done|]. split; [apply Hl; set_solver|].
  apply IH. intros y Hy. pose proof (Hl y). set_solver.
Qed.

(** The inputs of a block are in the block below. *)
Lemma block_deps h l t s d : 1 ≤ l < h → s ∈ block h l t → d ∈ deps s → d ∈ block h (l - 1) t.
Proof.
  intros Hl (k & Hk & ->)%elem_of_block. unfold deps, step_at; cbn [lvl inp]. rewrite (proj2 (Z.eqb_neq l 0)) by lia.
  intros Hd. apply elem_of_block. replace (h - (l - 1) - 1) with (h - l - 1 + 1) by lia. rewrite pow2_succ by lia.
  apply elem_of_cons in Hd as [->|[->|Hd%elem_of_nil]%elem_of_cons]; [exists (2 * k)|exists (2 * k + 1)|done];
    (split; [lia|]); unfold step_at; f_equal; lia.
Qed.

Lemma task_contained h t D : 0 ≤ h → Parallel.contained deps D (task_steps h (2 ^ h) t).
Proof.
  intros Hh. rewrite task_steps_blocks by done.
  assert (∀ n : nat, Z.of_nat n ≤ h → Parallel.contained deps D (concat ((λ l, block h l t) <$> seqZ 0 (Z.of_nat n)))) as Hgen;
    [|by specialize (Hgen (Z.to_nat h) ltac:(lia)); rewrite Z2Nat.id in Hgen by lia].
  induction n as [|n IH]; intros Hn; [done|]. rewrite seqZ_S, fmap_app, concat_app. simpl. rewrite app_nil_r.
  apply Parallel.contained_app. split; [apply IH; lia|]. apply contained_all. intros s Hs d Hd.
  apply elem_of_app. left. apply elem_of_reverse. rewrite Z.add_0_l in Hs.
  destruct (decide (n = 0%nat)) as [->|Hn0].
  - apply elem_of_block in Hs as (k & Hk & ->). simpl in Hd. by apply elem_of_nil in Hd.
  - apply elem_of_concat. eexists. split; [|exact (block_deps h (Z.of_nat n) t s d ltac:(lia) Hs Hd)].
    apply list_elem_of_fmap. exists (Z.of_nat n - 1). split; [done|]. apply elem_of_seqZ. lia.
Qed.

Lemma tasks_contained h ts D : 0 ≤ h → Parallel.contained deps D (concat (task_steps h (2 ^ h) <$> ts)).
Proof.
  intros Hh. revert D. induction ts as [|t ts IH]; intros D; simpl; [done|].
  apply Parallel.contained_app. split; [by apply task_contained|apply IH].
Qed.

(** Each node of a level below [h] belongs to the block of one task. *)
Lemma elem_of_task h l j : 0 ≤ l < h → step_at l j ∈ task_steps h (2 ^ h) (j / 2 ^ (h - l - 1)).
Proof.
  intros Hl. rewrite task_steps_blocks by lia. apply elem_of_concat. exists (block h l (j / 2 ^ (h - l - 1))). split.
  - apply list_elem_of_fmap. exists l. split; [done|]. apply elem_of_seqZ. lia.
  - pose proof (Z.pow_pos_nonneg 2 (h - l - 1) ltac:(lia) ltac:(lia)).
    apply elem_of_block. exists (j mod 2 ^ (h - l - 1)). split; [apply Z.mod_pos_bound; lia|].
    f_equal. rewrite (Z.div_mod j (2 ^ (h - l - 1))) at 1 by lia. lia.
Qed.

Lemma task_elem h t s : 0 ≤ h → s ∈ task_steps h (2 ^ h) t →
  ∃ l j, s = step_at l j ∧ 0 ≤ l < h ∧ t * 2 ^ (h - l - 1) ≤ j < (t + 1) * 2 ^ (h - l - 1).
Proof.
  intros Hh. rewrite task_steps_blocks by done. intros (b & (l & -> & Hl%elem_of_seqZ)%list_elem_of_fmap & Hs)%elem_of_concat.
  apply elem_of_block in Hs as (k & Hk & ->). eexists l, _. split; [done|]. lia.
Qed.
(** ** Running the steps *)

Section correct.
Context `{ElementLaws F, !Poseidon2 F}.
Notation oct := (KoalaOctuplet.t F).
Variables (d : Z) (leaves : list oct).
Hypothesis (Hd : 1 ≤ d ≤ 62) (Hleaves : zlen leaves = 2 ^ d).

Definition lv (i : Z) : oct := default EmptyLeaf (leaves !! Z.to_nat i).

(** The steps of a tree of depth [d]. *)
Definition good (s : node_step) : Prop :=
  ∃ l j, s = step_at l j ∧ 0 ≤ l < d - 1 ∧ 0 ≤ j < 2 ^ (d - 1 - l).

(** The rows hold the nodes of the steps [D] that were executed. *)
Record built (D : list node_step) (rows : list (list oct)) : Prop := {
  built_len : length rows = Z.to_nat (d - 1);
  built_row l r : 0 ≤ l < d - 1 → rows !! Z.to_nat l = Some r → zlen r = 2 ^ (d - 1 - l);
  built_good : Forall good D;
  built_val l j r : step_at l j ∈ D → rows !! Z.to_nat l = Some r →
    r !! Z.to_nat j = Some (node lv (S (Z.to_nat l)) j)
}.

Lemma built_get D rows l : built D rows → 0 ≤ l < d - 1 →
  ∃ r, rows !! Z.to_nat l = Some r ∧ zlen r = 2 ^ (d - 1 - l).
Proof.
  intros B Hl. destruct (lookup_lt_is_Some_2 rows (Z.to_nat l)) as [r Hr]; [rewrite (built_len _ _ B); lia|].
  exists r. split; [done|]. by apply (built_row _ _ B).
Qed.

(** The inputs of a step hold the nodes below. *)
Lemma inputs_ready D rows l j :
  built D rows → 0 ≤ l < d - 1 → 0 ≤ j < 2 ^ (d - 1 - l) → deps (step_at l j) ⊆ D →
  ∃ inLevel, (if l =? 0 then Ok leaves else idx rows (l - 1)) = Ok inLevel ∧
    idx inLevel (2 * j) = Ok (node lv (Z.to_nat l) (2 * j)) ∧
    idx inLevel (2 * j + 1) = Ok (node lv (Z.to_nat l) (2 * j + 1)).
Proof.
  intros B Hl Hj HD. unfold deps, step_at in HD; cbn [lvl inp] in HD. destruct (Z.eqb_spec l 0) as [->|Hne].
  - exists leaves. split; [done|]. simpl. unfold lv.
    assert (2 ^ d = 2 * 2 ^ (d - 1 - 0)) by (rewrite <-pow2_succ by lia; f_equal; lia).
    split; apply idx_default; lia.
  - destruct (built_get D rows (l - 1) B) as (r & Hr & _); [lia|]. exists r.
    split; [apply idx_Ok; split; [lia|done]|].
    replace (Z.to_nat l) with (S (Z.to_nat (l - 1))) by lia.
    split; apply idx_Ok; (split; [lia|]); apply (built_val _ _ B (l - 1)); try done; set_solver.
Qed.

Lemma run_step_built D rows s :
  built D rows → good s → deps s ⊆ D → ∃ rows', run_step leaves rows s = Ok rows' ∧ built (s :: D) rows'.
Proof.
  intros B (l & j & -> & Hl & Hj) HD. unfold run_step. cbn [lvl out inp step_at].
  destruct (inputs_ready _ _ _ _ B Hl Hj HD) as (inL & -> & E1 & E2). rewrite res_bind_ret, E1, res_bind_ret, E2, res_bind_ret.
  destruct (built_get _ _ _ B Hl) as (r & Hr & Hlen).
  rewrite (proj2 (idx_Ok _ _ _) (conj (proj1 Hl) Hr)), res_bind_ret.
  rewrite (store_Ok r) by lia. rewrite res_bind_ret, store_Ok by (unfold zlen; rewrite (built_len _ _ B); lia).
  eexists. split; [done|].
  change (parent _ _) with (node lv (S (Z.to_nat l)) j).
  assert (Z.to_nat l < length rows)%nat as Hin by (rewrite (built_len _ _ B); lia).
  split.
  - by rewrite length_insert, (built_len _ _ B).
  - intros l' r' Hl' Hr'. apply list_lookup_insert_Some in Hr' as [(E & <- & _)|[_ Hr']]; [|by apply (built_row _ _ B)].
    rewrite zlen_insert. by replace l' with l by lia.
  - constructor; [by exists l, j|]. apply (built_good _ _ B).
  - intros l' j' r' Hin' Hr'.
    assert (good (step_at l' j')) as (? & ? & [= <- <-] & Hl' & Hj').
    { apply elem_of_cons in Hin' as [->|Hin']; [by exists l, j|]. pose proof (built_good _ _ B) as HG. rewrite Forall_forall in HG. by apply HG. }
    apply list_lookup_insert_Some in Hr' as [(E & <- & _)|[Hne Hr']].
    + replace l' with l in * by lia. destruct (decide (j' = j)) as [->|Hjj].
      * apply list_lookup_insert_eq. unfold zlen in Hlen. lia.
      * rewrite list_lookup_insert_ne by lia. eapply (built_val _ _ B); [|done].
        apply elem_of_cons in Hin' as [[= ->]|Hin']; done.
    + eapply (built_val _ _ B); [|done]. apply elem_of_cons in Hin' as [[= -> ->]|Hin']; done.
Qed.

Lemma run_steps_built l D rows :
  built D rows → Forall good l → Parallel.contained deps D l →
  ∃ rows', foldM (run_step leaves) rows l = Ok rows' ∧ built (reverse l ++ D) rows'.
Proof.
  revert D rows. induction l as [|s l IH]; intros D rows B HG HC; [by exists rows|].
  apply Forall_cons in HG as [Hs HG]. destruct HC as [HD HC].
  destruct (run_step_built D rows s B Hs HD) as (rows1 & E1 & B1).
  destruct (IH _ _ B1 HG HC) as (rows2 & E2 & B2). exists rows2. cbn [foldM]. rewrite E1, res_bind_ret. split; [done|].
  by rewrite reverse_cons, <-(assoc_L (++)).
Qed.

(** An interleaving of workers whose steps only need what is done, or their own. *)
Lemma run_workers_built ws s D rows :
  built D rows → Parallel.Interleave ws s → Forall (Forall good) ws → Forall (Parallel.contained deps D) ws →
  ∃ rows', foldM (run_step leaves) rows s = Ok rows' ∧ built (reverse s ++ D) rows' ∧ s ≡ₚ concat ws.
Proof.
  intros B HI HG HC. pose proof (Parallel.Interleave_elem _ _ HI) as HP.
  destruct (run_steps_built s D rows B) as (rows' & E & B').
  - rewrite HP. by apply Forall_concat.
  - by apply (Parallel.contained_Interleave deps ws).
  - by exists rows'.
Qed.

(** ** The phases of [NewTree] *)

Definition done_below (h : Z) (D : list node_step) : Prop :=
  ∀ l j, 0 ≤ l < h → 0 ≤ j < 2 ^ (d - 1 - l) → step_at l j ∈ D.

(** The rows cut so far, where the next one starts and its size. *)
Definition sliced (i : Z) (s : list (list oct) * Z * Z) : Prop :=
  zlen s.1.1 = i ∧ (∀ (l : nat) r, s.1.1 !! l = Some r → zlen r = 2 ^ (d - 1 - Z.of_nat l)) ∧
  s.1.2 = 2 ^ d - 2 ^ (d - i) ∧ s.2 = 2 ^ (d - 1 - i).

Lemma slice_level_sliced i s :
  0 ≤ i < d - 1 → sliced i s →
  ∃ s', slice_level (replicate (Z.to_nat (2 ^ d - 2)) KoalaOctuplet.zero) s i = Ok s' ∧ sliced (i + 1) s'.
Proof.
  destruct s as [[rows off] size]. intros Hi (Hlen & Hrow & Hoff & Hsize). cbn [fst snd] in *.
  set (w := 2 ^ (d - 1 - (i + 1))). assert (size = 2 * w) as Hw.
  { subst w. rewrite Hsize, <-pow2_succ by lia. f_equal. lia. }
  assert (2 ^ (d - i) = 2 * size) as Hi' by (rewrite Hsize, <-pow2_succ by lia; f_equal; lia).
  assert (2 ^ (d - i) ≤ 2 ^ d) by (apply Z.pow_le_mono_r; lia).
  assert (0 < w) by (apply Z.pow_pos_nonneg; lia).
  assert (zlen (replicate (Z.to_nat (2 ^ d - 2)) (KoalaOctuplet.zero (F := F))) = 2 ^ d - 2) as HL by (apply zlen_replicate; lia).
  unfold slice_level. rewrite slice_Ok by lia. rewrite res_bind_ret. eexists. split; [done|].
  split; [|split; [|split]]; cbn [fst snd].
  - rewrite zlen_app. unfold zlen at 2. simpl. lia.
  - intros l r [Hl|[Hl Hr]]%lookup_app_Some; [by apply Hrow|].
    apply list_lookup_singleton_Some in Hr as [Hz <-]. replace (Z.of_nat l) with i by (unfold zlen in Hlen; lia).
    unfold zlen in *. rewrite length_take, length_drop. lia.
  - replace (d - (i + 1)) with (d - 1 - i) by lia. lia.
  - rewrite Hw, Z.mul_comm, Z.div_mul by lia. done.
Qed.

Lemma init_rows_built : ∃ rows : list (list oct), init_rows d (2 ^ d) = Ok rows ∧ built [] rows.
Proof.
  unfold init_rows. destruct (Z.ltb_spec 1 d) as [H1|H1]; cycle 1.
  { exists []. split; [done|]. split; [simpl; lia|intros; lia|done|]. intros l j r Hin. by apply elem_of_nil in Hin. }
  destruct (foldM_seqZ (slice_level (replicate (Z.to_nat (2 ^ d - 2)) (KoalaOctuplet.zero (F := F)))) sliced 0 (d - 1)
    ([], 0, 2 ^ d / 2)) as (s & E & Hlen & Hrow & _); [lia| | |].
  - split; [done|]. split; [done|]. simpl. replace (d - 0) with d by lia. split; [lia|].
    change 2 with (2 ^ 1) at 2. rewrite pow_div by lia. f_equal. lia.
  - intros i s Hi. apply slice_level_sliced. lia.
  - exists s.1.1. rewrite E. split; [done|]. unfold zlen in Hlen. split.
    + lia.
    + intros l r Hl Hr. rewrite (Hrow _ _ Hr). f_equal. lia.
    + done.
    + intros l j r Hin. by apply elem_of_nil in Hin.
Qed.

(** The first phase: all levels below the height of the subtrees. *)
Lemma subtrees_built cpus sched h rows :
  0 ≤ h ≤ d - 1 → (∀ n ws, Parallel.Interleave ws (sched n ws)) → built [] rows →
  ∃ rows' D, foldM (run_step leaves) rows (sched 0 (subtree_workers cpus h (2 ^ h) (2 ^ d / 2 ^ h))) = Ok rows' ∧
    built D rows' ∧ done_below h D.
Proof.
  intros Hh Hs B. rewrite pow_div by lia. set (ws := subtree_workers _ _ _ _).
  pose proof (Z.pow_pos_nonneg 2 (d - h) ltac:(lia) ltac:(lia)).
  assert (∀ l, 0 ≤ l < h → 2 ^ (d - 1 - l) = 2 ^ (d - h) * 2 ^ (h - l - 1)) as Hpow.
  { intros l Hl. rewrite <-Z.pow_add_r by lia. f_equal. lia. }
  destruct (run_workers_built ws (sched 0 ws) [] rows B (Hs 0 ws)) as (rows' & E & B' & HP).
  - apply Forall_fmap, Forall_forall. intros r Hr. apply Forall_forall. intros s (ts & (t & -> & Ht)%list_elem_of_fmap & Hin)%elem_of_concat.
    apply task_elem in Hin as (l & j & -> & Hl & Hj); [|lia]. exists l, j. split; [done|]. split; [lia|].
    assert (0 ≤ t < 2 ^ (d - h)) as Ht' by (apply (Parallel.ranges_elem cpus); [lia|by exists r]).
    pose proof (Z.pow_pos_nonneg 2 (h - l - 1) ltac:(lia) ltac:(lia)). rewrite Hpow by done. nia.
  - apply Forall_fmap, Forall_forall. intros r Hr. apply tasks_contained. lia.
  - exists rows', (reverse (sched 0 ws) ++ []). split; [done|]. split; [done|].
    intros l j Hl Hj. rewrite app_nil_r, elem_of_reverse, HP. pose proof (Z.pow_pos_nonneg 2 (h - l - 1) ltac:(lia) ltac:(lia)).
    rewrite Hpow in Hj by done.
    destruct (proj1 (Parallel.ranges_elem cpus (2 ^ (d - h)) (j / 2 ^ (h - l - 1)) ltac:(lia))) as (r & Hr & Hk).
    { split; [apply Z.div_pos; lia|]. apply Z.div_lt_upper_bound; lia. }
    apply elem_of_concat. eexists. split; [apply list_elem_of_fmap; by exists r|]. apply elem_of_concat.
    eexists. split; [apply list_elem_of_fmap; by eexists|]. apply elem_of_task. lia.
Qed.

Lemma level_workers_elem cpus i n s : 0 ≤ n →
  s ∈ concat (level_workers cpus i n) ↔ ∃ k, 0 ≤ k < n ∧ s = step_at i k.
Proof.
  intros Hn. unfold level_workers. destruct (_ && _).
  - rewrite elem_of_concat. setoid_rewrite (Parallel.ranges_elem cpus n) at 1; [|done]. split.
    + intros (? & (r & -> & Hr)%list_elem_of_fmap & (k & -> & Hk)%list_elem_of_fmap). exists k. split; [by exists r|done].
    + intros (k & (r & Hr & Hk) & ->). exists (level_step i <$> Parallel.iterations r).
      split; apply list_elem_of_fmap; [by exists r|by exists k].
  - simpl. rewrite app_nil_r, list_elem_of_fmap. setoid_rewrite elem_of_seqZ.
    split; intros (k & H1 & H2); exists k; (split; [done || lia|done || lia]).
Qed.

(** One level of the second phase. *)
Lemma level_built cpus sched i D rows :
  0 ≤ i < d - 1 → (∀ n ws, Parallel.Interleave ws (sched n ws)) → built D rows → done_below i D →
  ∃ rows' D', foldM (run_step leaves) rows (sched (i + 1) (level_workers cpus i (2 ^ (d - 1 - i)))) = Ok rows' ∧
    built D' rows' ∧ done_below (i + 1) D'.
Proof.
  intros Hi Hs B HD. set (n := 2 ^ (d - 1 - i)). assert (0 ≤ n) as Hn by (apply Z.pow_nonneg; lia).
  set (ws := level_workers cpus i n).
  assert (∀ w s, w ∈ ws → s ∈ w → ∃ k, 0 ≤ k < n ∧ s = step_at i k) as Hel.
  { intros w s Hw Hsw. apply (level_workers_elem cpus); [done|]. apply elem_of_concat. by exists w. }
  destruct (run_workers_built ws (sched (i + 1) ws) D rows B (Hs _ _)) as (rows' & E & B' & HP).
  - apply Forall_forall. intros w Hw. apply Forall_forall. intros s Hsw.
    destruct (Hel w s Hw Hsw) as (k & Hk & ->). by exists i, k.
  - apply Forall_forall. intros w Hw. apply contained_all. intros s Hsw x Hx.
    destruct (Hel w s Hw Hsw) as (k & Hk & ->). unfold deps, step_at in Hx. cbn [lvl inp] in Hx.
    destruct (Z.eqb_spec i 0); [by apply elem_of_nil in Hx|].
    assert (2 ^ (d - 1 - (i - 1)) = 2 * n) by (subst n; rewrite <-pow2_succ by lia; f_equal; lia).
    apply elem_of_cons in Hx as [->|[->|Hx%elem_of_nil]%elem_of_cons]; [| |done]; apply HD; lia.
  - eexists _, _. split; [done|]. split; [done|]. intros l j Hl Hj. apply elem_of_app.
    destruct (decide (l = i)) as [->|]; [left|right; apply HD; lia].
    rewrite elem_of_reverse, HP. apply level_workers_elem; [done|]. by exists j.
Qed.

Lemma levels_built cpus sched h D rows :
  0 ≤ h ≤ d - 1 → (∀ n ws, Parallel.Interleave ws (sched n ws)) → built D rows → done_below h D →
  ∃ rows' D', foldM (λ rows i, currLevel ← idx rows i;
      foldM (run_step leaves) rows (sched (i + 1) (level_workers cpus i (zlen currLevel)))) rows (seqZ h (d - 1 - h)) = Ok rows' ∧
    built D' rows' ∧ done_below (d - 1) D'.
Proof.
  intros Hh Hs B HD.
  destruct (foldM_seqZ (λ rows i, currLevel ← idx rows i;
      foldM (run_step leaves) rows (sched (i + 1) (level_workers cpus i (zlen currLevel))))
    (λ i rows, ∃ D, built D rows ∧ done_below i D) h (d - 1 - h) rows) as (rows' & E & D' & B' & HD'); [lia|by exists D| |].
  - intros i r Hi (Di & Bi & HDi). destruct (built_get Di r i Bi) as (row & Hr & Hlen); [lia|].
    assert (idx r i = Ok row) as -> by (apply idx_Ok; split; [lia|done]).
    rewrite res_bind_ret, Hlen. destruct (level_built cpus sched i Di r) as (r' & D1 & E1 & B1 & H1); [lia|done..|].
    exists r'. split; [done|]. by exists D1.
  - exists rows', D'. replace (h + (d - 1 - h)) with (d - 1) in HD' by lia. done.
Qed.

(** ** The tree *)

Lemma built_node D rows l j r :
  built D rows → done_below (d - 1) D → 0 ≤ l < d - 1 → rows !! Z.to_nat l = Some r → 0 ≤ j < 2 ^ (d - 1 - l) →
  idx r j = Ok (node lv (S (Z.to_nat l)) j).
Proof.
  intros B HD Hl Hr Hj. apply idx_Ok. split; [lia|]. apply (built_val _ _ B l j r); [by apply HD|done].
Qed.

Lemma root_built D rows :
  built D rows → done_below (d - 1) D →
  (if d =? 1 then nodeL ← idx leaves 0; nodeR ← idx leaves 1; Ok (parent nodeL nodeR)
   else lastLevel ← idx rows (d - 2);
     if negb (zlen lastLevel =? 2) then Panic
     else nodeL ← idx lastLevel 0; nodeR ← idx lastLevel 1; Ok (parent nodeL nodeR)) = Ok (node lv (Z.to_nat d) 0).
Proof.
  intros B HD. destruct (Z.eqb_spec d 1) as [E|Hne].
  - rewrite E in Hleaves |- *. change (2 ^ 1) with 2 in Hleaves.
    rewrite !(idx_default EmptyLeaf leaves) by lia. done.
  - destruct (built_get _ _ (d - 2) B) as (r & Hr & Hlen); [lia|]. replace (d - 1 - (d - 2)) with 1 in Hlen by lia.
    assert (idx rows (d - 2) = Ok r) as -> by (apply idx_Ok; split; [lia|done]). rewrite res_bind_ret, Hlen. cbn [Z.eqb negb Z.pow].
    rewrite !(built_node D rows (d - 2)) by (done || lia || (replace (d - 1 - (d - 2)) with 1 by lia; lia)).
    rewrite !res_bind_ret. replace (Z.to_nat d) with (S (S (Z.to_nat (d - 2)))) by lia. done.
Qed.

(** Above the leaves there are empty nodes only. *)
Lemma node_out l i : (Z.of_nat l ≤ d) → 2 ^ (d - Z.of_nat l) ≤ i → node lv l i = emp l.
Proof.
  intros Hl Hi. rewrite <-(node_empty l i). apply node_ext. intros j Hj. unfold lv. apply default_ge. rewrite Hleaves.
  replace d with ((d - Z.of_nat l) + Z.of_nat l) by lia. rewrite Z.pow_add_r by lia.
  pose proof (Z.pow_pos_nonneg 2 (Z.of_nat l) ltac:(lia) ltac:(lia)). nia.
Qed.

Lemma built_wf D rows :
  built D rows → done_below (d - 1) D →
  wf {| Depth := d; Root := node lv (Z.to_nat d) 0; OccupiedLeaves := leaves; OccupiedNodes := rows;
        EmptyNodes := emp <$> seq 1 (Z.to_nat (d - 1)) |} lv.
Proof.
  intros B HD. split; [split|..]; cbn [Depth EmptyNodes OccupiedNodes Root]; [lia|done|apply (built_len _ _ B)| | |done].
  - intros l r Hl. unfold row; cbn [OccupiedLeaves OccupiedNodes]. destruct (Z.eqb_spec l 0) as [->|Hne].
    + intros [= <-]. rewrite Hleaves. by replace (d - 0) with d by lia.
    + intros Hr. rewrite (built_row _ _ B (l - 1) r) by (done || lia). apply Z.eq_le_incl. f_equal. lia.
  - intros l i Hl Hi. unfold val, row; cbn [OccupiedLeaves OccupiedNodes]. destruct (Z.eqb_spec l 0) as [->|Hne]; [done|].
    destruct (built_get _ _ (l - 1) B) as (r & Hr & Hlen); [lia|]. rewrite Hr. simpl.
    replace (d - 1 - (l - 1)) with (d - l) in Hlen by lia.
    destruct (Z.lt_ge_cases i (2 ^ (d - l))) as [Hin|Hout].
    + pose proof (built_node D rows (l - 1) i r B HD ltac:(lia) Hr) as E.
      replace (d - 1 - (l - 1)) with (d - l) in E by lia. specialize (E ltac:(lia)). apply idx_Ok in E as [_ ->]. simpl.
      change (parent _ _) with (node lv (S (Z.to_nat (l - 1))) i). f_equal. lia.
    + rewrite default_ge by lia. symmetry. apply node_out; rewrite Z2Nat.id by lia; lia.
Qed.

(** Two complete sets of rows are the same. *)
Lemma built_unique D D' rows rows' :
  built D rows → done_below (d - 1) D → built D' rows' → done_below (d - 1) D' → rows = rows'.
Proof.
  intros B HD B' HD'. apply list_eq. intros i. destruct (rows !! i) as [r|] eqn:Er; cycle 1.
  { apply lookup_ge_None in Er. symmetry. apply lookup_ge_None. by rewrite (built_len _ _ B'), <-(built_len _ _ B). }
  assert (0 ≤ Z.of_nat i < d - 1) as Hi by (apply lookup_lt_Some in Er; rewrite (built_len _ _ B) in Er; lia).
  destruct (built_get _ _ _ B' Hi) as (r' & Er' & Hl'). rewrite Nat2Z.id in Er'. rewrite Er'. f_equal.
  rewrite <-(Nat2Z.id i) in Er, Er'. pose proof (built_row _ _ B _ _ Hi Er) as Hl.
  apply list_eq. intros j. destruct (Z.lt_ge_cases (Z.of_nat j) (2 ^ (d - 1 - Z.of_nat i))) as [Hj|Hj].
  - rewrite <-(Nat2Z.id j).
    rewrite (built_val _ _ B (Z.of_nat i) (Z.of_nat j) r), (built_val _ _ B' (Z.of_nat i) (Z.of_nat j) r');
      [done|apply HD'; lia|done|apply HD; lia|done].
  - unfold zlen in *. rewrite !lookup_ge_None_2 by lia. done.
Qed.

Lemma NewTree_built cpus sched :
  (∀ n ws, Parallel.Interleave ws (sched n ws)) →
  ∃ rows D, NewTree cpus sched leaves =
    Ok {| Depth := d; Root := node lv (Z.to_nat d) 0; OccupiedLeaves := leaves; OccupiedNodes := rows;
          EmptyNodes := emp <$> seq 1 (Z.to_nat (d - 1)) |} ∧ built D rows ∧ done_below (d - 1) D.
Proof.
  intros Hs. unfold NewTree. rewrite Hleaves, Utils.Log2Ceil_pow2 by lia.
  assert (Utils.IsPowerOfTwo (2 ^ d) = true) as ->.
  { apply Utils.IsPowerOfTwo_spec; [|exists d; split; [lia|done]]. unfold in_int64.
    pose proof (Z.pow_pos_nonneg 2 d ltac:(lia) ltac:(lia)). pose proof (Z.pow_le_mono_r 2 d 62 ltac:(lia) ltac:(lia)). lia. }
  rewrite (proj2 (Z.eqb_neq (2 ^ d) 0)), (proj2 (Z.ltb_ge (d - 1) 0)) by (try apply Z.pow_nonzero; lia). cbn [negb orb].
  change (@EmptyLeaf F _) with (emp (F := F) 0). rewrite empty_nodes_loop_spec. cbn [fst].
  destruct init_rows_built as (rows0 & -> & B0). rewrite res_bind_ret, Z.shiftl_1_l.
  set (h := Z.max 0 _). assert (0 ≤ h ≤ d - 1) as Hh by lia. clearbody h.
  destruct (subtrees_built cpus sched h rows0 Hh Hs B0) as (rows1 & D1 & -> & B1 & HD1). rewrite res_bind_ret.
  destruct (levels_built cpus sched h D1 rows1 Hh Hs B1 HD1) as (rows2 & D2 & -> & B2 & HD2). rewrite res_bind_ret.
  rewrite (root_built D2 rows2 B2 HD2), res_bind_ret. by exists rows2, D2.
Qed.

Lemma NewTree_wf cpus sched :
  (∀ n ws, Parallel.Interleave ws (sched n ws)) →
  ∃ t, NewTree cpus sched leaves = Ok t ∧ wf t lv ∧ Depth t = d.
Proof.
  intros Hs. destruct (NewTree_built cpus sched Hs) as (rows & D & E & B & HD).
  eexists. split; [exact E|]. split; [|done]. by apply (built_wf D).
Qed.
End correct.
End SmtBuild.
