(* ===== verification/Binding.v ===== *)
(** * Binding of Merkle proofs

    The compression function is a parameter, so no statement here says that it has
    no collisions. Instead the functions below compute, from two openings that
    cannot both be honest, two inputs of [CompressPoseidon2] with the same image:
    breaking the tree is breaking the hash, by an explicit reduction. *)

From S2P Require Export SmtFacts.
Import Smt SmtFacts.

Module Binding.
Section binding.
Context `{ElementLaws F, !Poseidon2 F}.
Notation oct := (KoalaOctuplet.t F).
Implicit Types (lv : Z → oct) (t : Tree F) (v : oct).

(** Two inputs of the compression function. *)
Definition inputs : Type := (oct * oct) * (oct * oct).

Definition collision (c : inputs) : Prop :=
  c.1 ≠ c.2 ∧ CompressPoseidon2 c.1.1 c.1.2 = CompressPoseidon2 c.2.1 c.2.2.

#[global] Instance collision_dec c : Decision (collision c).
Proof. unfold collision. apply _. Defined.

(** The first of two candidates that is there. *)
Definition or_else {A} (o p : option A) : option A := match o with Some _ => o | None => p end.

Definition check (c : inputs) : option inputs := if decide (collision c) then Some c else None.

(** A collision in the chains of two block sequences. *)
Fixpoint md_collision (s s' : oct) (bs bs' : list oct) : option inputs :=
  match bs, bs' with
  | b :: bs, b' :: bs' =>
    or_else (check ((s, b), (s', b')))
      (md_collision (CompressPoseidon2 s b) (CompressPoseidon2 s' b') bs bs')
  | _, _ => None
  end.

(** A collision along two paths that start at the same position. *)
Fixpoint path_collision (ix : Z) (a b : oct) (sa sb : list oct) : option inputs :=
  match sa, sb with
  | x :: sa, y :: sb =>
    let '(l, r) := if Z.land ix 1 =? 1 then (x, a) else (a, x) in
    let '(l', r') := if Z.land ix 1 =? 1 then (y, b) else (b, y) in
    or_else (md_collision KoalaOctuplet.zero KoalaOctuplet.zero [l; r] [l'; r'])
      (path_collision (Z.shiftr ix 1) (parent l r) (parent l' r') sa sb)
  | _, _ => None
  end.

Lemma check_sound c c' : check c = Some c' → collision c'.
Proof. unfold check. case_decide; [by intros [= <-]|done]. Qed.

Lemma or_else_sound {A} (P : A → Prop) o p x :
  (o = Some x → P x) → (p = Some x → P x) → or_else o p = Some x → P x.
Proof. destruct o; simpl; naive_solver. Qed.

Lemma or_else_is_Some {A} (o p : option A) : is_Some o ∨ is_Some p → is_Some (or_else o p).
Proof. destruct o; naive_solver. Qed.

Lemma md_collision_sound s s' bs bs' c : md_collision s s' bs bs' = Some c → collision c.
Proof.
  revert s s' bs'. induction bs as [|b bs IH]; intros s s' [|b' bs']; [done..|].
  apply or_else_sound; [apply check_sound|apply IH].
Qed.

Lemma path_collision_sound ix a b sa sb c : path_collision ix a b sa sb = Some c → collision c.
Proof.
  revert ix a b sb. induction sa as [|x sa IH]; intros ix a b [|y sb]; [done..|]. cbn [path_collision].
  destruct (_ =? _); (apply or_else_sound; [apply md_collision_sound|apply IH]).
Qed.

(** Different blocks with the same chain value give a collision. *)
Lemma md_collision_complete s s' bs bs' :
  length bs = length bs' → (s, bs) ≠ (s', bs') →
  foldl CompressPoseidon2 s bs = foldl CompressPoseidon2 s' bs' →
  is_Some (md_collision s s' bs bs').
Proof.
  revert s s' bs'. induction bs as [|b bs IH]; intros s s' [|b' bs']; [simpl; congruence|done..|].
  intros [= L] Hne E. apply or_else_is_Some. unfold check, collision. cbn [fst snd].
  destruct (decide ((s, b) = (s', b'))) as [[= -> ->]|Hd]; [right; apply IH; [done|congruence|done]|].
  destruct (decide (CompressPoseidon2 s b = CompressPoseidon2 s' b')) as [Ec|Ec].
  - left. rewrite decide_True by done. done.
  - right. apply IH; [done|congruence|done].
Qed.

(** Different leaves or siblings with the same root give a collision. *)
Lemma path_collision_complete ix a b sa sb :
  length sa = length sb → (a, sa) ≠ (b, sb) →
  fst (foldl recover_step (a, ix) sa) = fst (foldl recover_step (b, ix) sb) →
  is_Some (path_collision ix a b sa sb).
Proof.
  revert ix a b sb. induction sa as [|x sa IH]; intros ix a b [|y sb]; [simpl; congruence|done..|].
  intros [= L] Hne. cbn [foldl path_collision recover_step].
  destruct (Z.land ix 1 =? 1); intros E; apply or_else_is_Some.
  - destruct (decide (parent x a = parent y b)) as [Ep|Ep].
    + destruct (decide ((x, a) = (y, b))) as [[= -> ->]|Hd]; [right; apply IH; [done|congruence|done]|].
      left. apply md_collision_complete; [done|congruence|]. by rewrite !parent_compress in Ep.
    + right. apply IH; [done|congruence|done].
  - destruct (decide (parent a x = parent b y)) as [Ep|Ep].
    + destruct (decide ((a, x) = (b, y))) as [[= -> ->]|Hd]; [right; apply IH; [done|congruence|done]|].
      left. apply md_collision_complete; [done|congruence|]. by rewrite !parent_compress in Ep.
    + right. apply IH; [done|congruence|done].
Qed.

Lemma Verify_Ok p leaf root :
  Verify p leaf root = Ok None ↔ foldl recover_step (leaf, Path p) (Siblings p) = (root, 0).
Proof.
  unfold Verify, RecoverRoot. destruct (foldl _ _ _) as [cur ix].
  destruct (Z.eqb_spec ix 0) as [->|Hne]; simpl; [|naive_solver].
  case_bool_decide; naive_solver.
Qed.

(** A proof of full length accepted against the root of a stored tree is the proof
    of the leaf the tree stores, unless it yields a collision. *)
Lemma Verify_binding t lv p leaf :
  wf t lv → 0 ≤ Path p < 2 ^ Depth t → zlen (Siblings p) = Depth t →
  Verify p leaf (Root t) = Ok None →
  leaf = lv (Path p) ∨
  ∃ c, path_collision (Path p) leaf (lv (Path p)) (Siblings p)
         (siblings lv (Path p) (Z.to_nat (Depth t))) = Some c ∧ collision c.
Proof.
  intros W Hp Hlen E%Verify_Ok. pose proof (shape_depth t (wf_shape t lv W)).
  destruct (decide (leaf = lv (Path p))) as [|Hne]; [by left|right].
  destruct (path_collision_complete (Path p) leaf (lv (Path p)) (Siblings p)
    (siblings lv (Path p) (Z.to_nat (Depth t)))) as [c Hc].
  - unfold zlen, siblings in *. rewrite length_fmap, length_seq. lia.
  - congruence.
  - rewrite E, recover_siblings by lia. cbn [fst]. rewrite Z2Nat.id, shiftr_out by lia.
    rewrite node_upd_id. apply W.
  - exists c. split; [done|]. by eapply path_collision_sound.
Qed.
End binding.
End Binding.

(** * A concrete instance

    The KoalaBear field of [Field.KoalaBear] with a small compression function in the
    place of Poseidon2. It shows that the assumptions of the development hold
    together and lets its theorems be applied to concrete trees. *)

Module Toy.
#[global] Existing Instances KoalaBear.ops KoalaBear.laws.
Notation F := KoalaBear.t.
Notation oct := (KoalaOctuplet.t F).

(** The first element is 1, the others mix the inputs. *)
#[global] Instance compress : Poseidon2 F := λ a b,
  fun_to_vec (λ i : fin 8, if decide (i = 0%fin) then el_one
                           else el_add (el_mul (el_of_Z 3) (a !!! i)) (el_add (b !!! i) (b !!! 0%fin))).

Lemma compress_first (a b : oct) : CompressPoseidon2 a b !!! 0%fin = el_one.
Proof. reflexivity. Qed.

#[global] Instance nonzero : HashNonZero F.
Proof.
  intros l r. rewrite parent_compress. intros E. apply (f_equal (λ v : oct, el_val (v !!! 0%fin))) in E.
  rewrite compress_first in E. vm_compute in E. done.
Qed.

(** The octuplet of small integers. *)
Definition word (l : list Z) : oct := KoalaOctuplet.overwrite KoalaOctuplet.zero (el_of_Z <$> l).
End Toy.
