(* ===== verification/Accumulator.v ===== *)
(** * The accumulator of the state manager

    Models src/prover/crypto/state-management/accumulator: a key-value map stored
    as a doubly linked list, sorted by the hashes of the keys, in the leaves of a
    sparse Merkle tree ([leafopening.go], [proverstate.go]), the verifier's view of
    it ([verifierstate.go]) and the five audited operations ([insertion.go],
    [deletion.go], [update.go], [readzero.go], [readnonzero.go]). Methods on
    [*ProverState] and [*VerifierState] take the state and return the new one. *)

From S2P Require Export Smt Collections.
Import Smt.

Module Accumulator.

(** ** leafopening.go *)

Record LeafOpening {F : Type} : Type := mkOpening {
  Prev : Z;
  Next : Z;
  HKey : KoalaOctuplet.t F;
  HVal : KoalaOctuplet.t F
}.
Arguments LeafOpening : clear implicits.
Arguments mkOpening {F}.

Record KVOpeningTuple {F K V : Type} : Type := mkTuple {
  Opening : LeafOpening F;
  Key : K;
  Value : V
}.
Arguments KVOpeningTuple : clear implicits.
Arguments mkTuple {F K V}.

(** ** The traces *)

Module InsertionTrace.
Record t {F K V : Type} : Type := mk {
  Type_ : Z; Location : string;
  NewNextFreeNode : Z; OldSubRoot : KoalaOctuplet.t F; NewSubRoot : KoalaOctuplet.t F;
  ProofMinus : Proof F; ProofNew : Proof F; ProofPlus : Proof F;
  Key : K; Val : V;
  OldOpenMinus : LeafOpening F; OldOpenPlus : LeafOpening F
}.
Arguments t : clear implicits.
End InsertionTrace.

Module DeletionTrace.
Record t {F K V : Type} : Type := mk {
  Type_ : Z; Location : string;
  NewNextFreeNode : Z; OldSubRoot : KoalaOctuplet.t F; NewSubRoot : KoalaOctuplet.t F;
  ProofMinus : Proof F; ProofDeleted : Proof F; ProofPlus : Proof F;
  Key : K;
  OldOpenMinus : LeafOpening F; DeletedOpen : LeafOpening F; OldOpenPlus : LeafOpening F;
  DeletedValue : V
}.
Arguments t : clear implicits.
End DeletionTrace.

Module UpdateTrace.
Record t {F K V : Type} : Type := mk {
  Type_ : Z; Location : string;
  Key : K; OldValue : V; NewValue : V;
  NewNextFreeNode : Z; OldSubRoot : KoalaOctuplet.t F; NewSubRoot : KoalaOctuplet.t F;
  OldOpening : LeafOpening F; Proof_ : Proof F
}.
Arguments t : clear implicits.
End UpdateTrace.

Module ReadZeroTrace.
Record t {F K V : Type} : Type := mk {
  Type_ : Z; Location : string; Key : K; SubRoot : KoalaOctuplet.t F; NextFreeNode : Z;
  OpeningMinus : LeafOpening F; OpeningPlus : LeafOpening F;
  ProofMinus : Proof F; ProofPlus : Proof F
}.
Arguments t : clear implicits.
End ReadZeroTrace.

Module ReadNonZeroTrace.
Record t {F K V : Type} : Type := mk {
  Type_ : Z; Location : string; NextFreeNode : Z; Key : K; Value : V;
  SubRoot : KoalaOctuplet.t F; LeafOpening_ : LeafOpening F; Proof_ : Proof F
}.
Arguments t : clear implicits.
End ReadNonZeroTrace.

Section accumulator.
Context `{ElementOps F, Poseidon2 F}.
Notation oct := (KoalaOctuplet.t F).
Notation opening := (LeafOpening F).

Definition oct_eqb (a b : oct) : bool := bool_decide (a = b).

(** ** common.go *)

Definition hash `{WriterTo T} (m : T) : res oct :=
  calls ← write_calls m;
  digest ← MDHasher.Sum (MDHasher.write_all MDHasher.NewMDHasher calls) [];
  match KoalaOctuplet.SetBytes KoalaOctuplet.zero (fst digest) with
  | (_, Some _) => Panic
  | (d, None) => Ok d
  end.

(** ** Leaf openings *)

(** The counts that [Write] returns are the lengths of the buffers. *)
#[global] Instance WriteTo : WriterTo opening := λ leaf,
  w0 ← Common.WriteInt64On64Bytes (Prev leaf);
  w1 ← Common.WriteInt64On64Bytes (Next leaf);
  w2 ← write_calls (HKey leaf);
  w3 ← write_calls (HVal leaf);
  let calls := w0 ++ w1 ++ w2 ++ w3 in
  if negb (zlen (concat calls) =? 192) then Panic else Ok calls.

Definition Hash (leaf : opening) : res oct := hash leaf.

Definition Head : opening := mkOpening 0 1 KoalaOctuplet.zero KoalaOctuplet.zero.

Definition Tail : opening := mkOpening 0 1 KoalaOctuplet.MaxKoalaOctuplet KoalaOctuplet.zero.

Definition HeadOrTail (leaf : opening) : bool :=
  KoalaOctuplet.IsMaxOctuplet (HKey leaf) || oct_eqb (HKey leaf) KoalaOctuplet.zero.

(** [LeafOpening.CopyWithPrev] and [CopyWithNext] *)
Definition opening_CopyWithPrev (leaf : opening) (prev : Z) : opening :=
  mkOpening prev (Next leaf) (HKey leaf) (HVal leaf).
Definition opening_CopyWithNext (leaf : opening) (next : Z) : opening :=
  mkOpening (Prev leaf) next (HKey leaf) (HVal leaf).

Definition MatchValue `{WriterTo T} (l : opening) (v : T) : res bool :=
  hval ← hash v; Ok (oct_eqb (HVal l) hval).

Definition MatchKey `{WriterTo T} (l : opening) (k : T) : res bool :=
  hkey ← hash k; Ok (oct_eqb (HKey l) hkey).

Context `{WriterTo K, WriterTo V}.
Notation tuple := (KVOpeningTuple F K V).

Definition CheckAndLeaf (t : tuple) : res (oct * gerr) :=
  if HeadOrTail (Opening t) then h ← Hash (Opening t); Ok (h, None)
  else
    hk ← hash (Key t);
    if negb (oct_eqb (HKey (Opening t)) hk)
    then Ok (KoalaOctuplet.zero, Some "inconsistent key and leaf openings"%string)
    else
      hv ← hash (Value t);
      if negb (oct_eqb (HVal (Opening t)) hv)
      then Ok (KoalaOctuplet.zero, Some "inconsistent val and leaf opening"%string)
      else h ← Hash (Opening t); Ok (h, None).

Definition CopyWithPrev (t : tuple) (prev : Z) : tuple :=
  mkTuple (opening_CopyWithPrev (Opening t) prev) (Key t) (Value t).

Definition CopyWithNext (t : tuple) (next : Z) : tuple :=
  mkTuple (opening_CopyWithNext (Opening t) next) (Key t) (Value t).

Definition CopyWithVal (t : tuple) (val : V) : res tuple :=
  hv ← hash val;
  Ok (mkTuple (mkOpening (Prev (Opening t)) (Next (Opening t)) (HKey (Opening t)) hv) (Key t) val).

(** ** proverstate.go *)

Record ProverState : Type := mkProver {
  Location : string;
  NextFreeNode : Z;
  PTree : Tree F;
  Data : Mapping.t Z tuple
}.

Definition set_Tree (s : ProverState) (t : Tree F) : ProverState :=
  mkProver (Location s) (NextFreeNode s) t (Data s).
Definition set_Data (s : ProverState) (d : Mapping.t Z tuple) : ProverState :=
  mkProver (Location s) (NextFreeNode s) (PTree s) d.

(** The tuples of the head and of the tail carry the zero values of the key and
    value types, [zeroK] and [zeroV]. *)
Definition InitializeProverState (zeroK : K) (zeroV : V) (location : string) : res ProverState :=
  let tree := NewEmptyTree [] in
  h ← Hash Head;
  tree ← Smt.Update tree 0 h;
  h ← Hash Tail;
  tree ← Smt.Update tree 1 h;
  data ← Mapping.InsertNew Mapping.NewMapping 0 (mkTuple Head zeroK zeroV);
  data ← Mapping.InsertNew data 1 (mkTuple Tail zeroK zeroV);
  Ok (mkProver location 2 tree data).

Definition SubTreeRoot (s : ProverState) : oct := Root (PTree s).

(** The scan of [FindKey] over the listed positions. *)
Fixpoint find_key_loop (s : ProverState) (hkey : oct) (keys : list Z) : res (Z * bool) :=
  match keys with
  | [] => Ok (0, false)
  | i :: keys' =>
    t ← Mapping.MustGet (Data s) i;
    if oct_eqb hkey (HKey (Opening t)) then Ok (i, true) else find_key_loop s hkey keys'
  end.

Definition FindKey (range : list (Z * tuple)) (s : ProverState) (k : K) : res (Z * bool) :=
  hkey ← hash k;
  find_key_loop s hkey (Mapping.ListAllKeys range).

Definition ListAllKeys (range : list (Z * tuple)) (s : ProverState) : res (list K) :=
  let lowerBound := KoalaOctuplet.zero in
  let upperBound := KoalaOctuplet.MaxKoalaOctuplet in
  foldM (λ containedKeys i,
    t ← Mapping.MustGet (Data s) i;
    if negb ((KoalaOctuplet.Cmp (HKey (Opening t)) lowerBound =? 0)
             || (KoalaOctuplet.Cmp (HKey (Opening t)) upperBound =? 0))
    then Ok (containedKeys ++ [Key t]) else Ok containedKeys)
  [] (Mapping.ListAllKeys range).

(** One turn of the scan of [findSandwich]: the best bounds so far and where they
    were found. *)
Definition sandwich_step (s : ProverState) (hkey : oct)
    (acc : (oct * Z) * (oct * Z)) (i : Z) : res ((oct * Z) * (oct * Z)) :=
  let '((hminus, iminus), (hplus, iplus)) := acc in
  t ← Mapping.MustGet (Data s) i;
  let curHkey := HKey (Opening t) in
  let c := KoalaOctuplet.Cmp curHkey hkey in
  if c =? 0 then Panic
  else if c =? 1 then
    if KoalaOctuplet.Cmp curHkey hplus =? -1
    then Ok ((hminus, iminus), (curHkey, i)) else Ok acc
  else if c =? -1 then
    if KoalaOctuplet.Cmp curHkey hminus =? 1
    then Ok ((curHkey, i), (hplus, iplus)) else Ok acc
  else Ok acc.

Definition findSandwich (range : list (Z * tuple)) (s : ProverState) (k : K) : res (Z * Z) :=
  hkey ← hash k;
  acc ← foldM (sandwich_step s hkey)
          ((KoalaOctuplet.zero, 0), (KoalaOctuplet.MaxKoalaOctuplet, 1)) (Mapping.ListAllKeys range);
  let '((_, iminus), (_, iplus)) := acc in
  if iminus =? iplus then Panic else Ok (iminus, iplus).

(** The checks of [upsertTuple] on the tuple it replaces. *)
Definition check_change (old new : tuple) : res unit :=
  r ← CheckAndLeaf old;
  match r with
  | (_, Some _) => Panic
  | (_, None) =>
    _ ← Require (oct_eqb (HKey (Opening old)) (HKey (Opening new)));
    let numChanges :=
      (if negb (oct_eqb (HVal (Opening old)) (HVal (Opening new))) then 1 else 0)
      + (if negb (Prev (Opening old) =? Prev (Opening new)) then 1 else 0)
      + (if negb (Next (Opening old) =? Next (Opening new)) then 1 else 0) in
    if negb (numChanges =? 1) then Panic else Ok ()
  end.

Definition upsertTuple (s : ProverState) (i : Z) (t : tuple) : res (Proof F * ProverState) :=
  r ← CheckAndLeaf t;
  match r with
  | (_, Some _) => Panic
  | (leaf, None) =>
    _ ← match Mapping.TryGet (Data s) i with Some old => check_change old t | None => Ok () end;
    let s := set_Data s (Mapping.Update (Data s) i t) in
    tree ← Smt.Update (PTree s) i leaf;
    let s := set_Tree s tree in
    proof ← MustProve (PTree s) i;
    Ok (proof, s)
  end.

Definition rmTuple (s : ProverState) (i : Z) : res (Proof F * ProverState) :=
  _ ← Mapping.MustExists (Data s) [i];
  data ← Mapping.Del (Data s) i;
  let s := set_Data s data in
  tree ← Smt.Update (PTree s) i EmptyLeaf;
  let s := set_Tree s tree in
  proof ← MustProve (PTree s) i;
  Ok (proof, s).

(** The body of both [TopRoot] methods. *)
Definition top_root (nextFreeNode : Z) (subTreeRoot : oct) : res oct :=
  w0 ← Common.WriteInt64On64Bytes nextFreeNode;
  w1 ← write_calls subTreeRoot;
  digest ← MDHasher.Sum (MDHasher.write_all MDHasher.NewMDHasher (w0 ++ w1)) [];
  KoalaOctuplet.MustBytesToKoalaOctuplet (fst digest).

Definition prover_TopRoot (s : ProverState) : res oct := top_root (NextFreeNode s) (SubTreeRoot s).

(** ** verifierstate.go *)

Record VerifierState : Type := mkVerifier {
  v_Location : string;
  v_NextFreeNode : Z;
  v_SubTreeRoot : oct
}.

Definition VerifierState_of (p : ProverState) : VerifierState :=
  mkVerifier (Location p) (NextFreeNode p) (Root (PTree p)).

Definition updateCheckRoot (proof : Proof F) (root old new : oct) : res (oct * gerr) :=
  ok ← Verify proof old root;
  match ok with
  | Some _ => Ok (KoalaOctuplet.zero,
                  Some "root update audit failed : could not authenticate the old"%string)
  | None => r ← RecoverRoot proof new; Ok (fst r, None)
  end.

Definition verifier_TopRoot (v : VerifierState) : res oct := top_root (v_NextFreeNode v) (v_SubTreeRoot v).

Definition deferCheckUpdateRoot (proof : Proof F) (root old new : oct) (appendTo : list (ProvedClaim F))
    : res (list (ProvedClaim F) * oct) :=
  r ← RecoverRoot proof new;
  match r with
  | (_, Some _) => Panic
  | (newRoot, None) =>
    Ok (appendTo ++ [mkClaim proof root old; mkClaim proof newRoot new], newRoot)
  end.

(** ** insertion.go *)

(** [range1] and [range2] are the orders in which [FindKey] and [findSandwich]
    visit the data. *)
Definition InsertAndProve (range1 range2 : list (Z * tuple)) (p : ProverState) (key : K) (val : V)
    : res (InsertionTrace.t F K V * ProverState) :=
  r ← FindKey range1 p key;
  if snd r : bool then Panic
  else
    ix ← findSandwich range2 p key;
    let '(iMinus, iPlus) := ix in
    tupleMinus ← Mapping.MustGet (Data p) iMinus;
    tuplePlus ← Mapping.MustGet (Data p) iPlus;
    let oldSubRoot := SubTreeRoot p in
    let newNextFreeNode := int64 (NextFreeNode p + 1) in
    let iInserted := NextFreeNode p in
    r ← upsertTuple p iMinus (CopyWithNext tupleMinus iInserted);
    let '(proofMinus, p) := r in
    hk ← hash key;
    hv ← hash val;
    let insertedTuple := mkTuple (mkOpening iMinus iPlus hk hv) key val in
    r ← upsertTuple p iInserted insertedTuple;
    let '(proofNew, p) := r in
    r ← upsertTuple p iPlus (CopyWithPrev tuplePlus iInserted);
    let '(proofPlus, p) := r in
    let p := mkProver (Location p) (int64 (NextFreeNode p + 1)) (PTree p) (Data p) in
    Ok (InsertionTrace.mk F K V 0 (Location p) newNextFreeNode oldSubRoot (SubTreeRoot p)
          proofMinus proofNew proofPlus key val (Opening tupleMinus) (Opening tuplePlus), p).

Definition VerifyInsertion (v : VerifierState) (trace : InsertionTrace.t F K V) : res (gerr * VerifierState) :=
  let fail msg := Ok (Some msg, v) in
  if negb (String.eqb (v_Location v) (InsertionTrace.Location trace))
  then fail "inconsistent location"%string
  else if negb (oct_eqb (v_SubTreeRoot v) (InsertionTrace.OldSubRoot trace))
  then fail "inconsistent root"%string
  else
    let iMinus := Path (InsertionTrace.ProofMinus trace) in
    let iInserted := Path (InsertionTrace.ProofNew trace) in
    let iPlus := Path (InsertionTrace.ProofPlus trace) in
    let openMinus := InsertionTrace.OldOpenMinus trace in
    let openPlus := InsertionTrace.OldOpenPlus trace in
    if negb (iInserted =? v_NextFreeNode v) then fail "writing in the wrong place"%string
    else if negb (Next openMinus =? iPlus) || negb (Prev openPlus =? iMinus)
    then fail "bad sandwich prev and next do not point to each other"%string
    else
      hkey ← hash (InsertionTrace.Key trace);
      if (KoalaOctuplet.Cmp hkey (HKey openMinus) <? 1) || (-1 <? KoalaOctuplet.Cmp hkey (HKey openPlus))
      then fail "sandwich is incorrect"%string
      else
        oldLeafMinus ← Hash openMinus;
        newLeafMinus ← Hash (opening_CopyWithNext openMinus (v_NextFreeNode v));
        r ← updateCheckRoot (InsertionTrace.ProofMinus trace) (InsertionTrace.OldSubRoot trace)
              oldLeafMinus newLeafMinus;
        match r with
        | (_, Some _) => fail "audit of the update of oldLeafMinus failed"%string
        | (currentRoot, None) =>
          hval ← hash (InsertionTrace.Val trace);
          newLeaf ← Hash (mkOpening iMinus iPlus hkey hval);
          r ← updateCheckRoot (InsertionTrace.ProofNew trace) currentRoot EmptyLeaf newLeaf;
          match r with
          | (_, Some _) => fail "audit of the update of the middle leaf failed"%string
          | (currentRoot, None) =>
            oldLeafPlus ← Hash openPlus;
            newLeafPlus ← Hash (opening_CopyWithPrev openPlus iInserted);
            r ← updateCheckRoot (InsertionTrace.ProofPlus trace) currentRoot oldLeafPlus newLeafPlus;
            match r with
            | (_, Some _) => fail "audit of the update of oldLeafPlus failed"%string
            | (currentRoot, None) =>
              if negb (oct_eqb currentRoot (InsertionTrace.NewSubRoot trace))
              then fail "inconsistent root"%string
              else
                let v := mkVerifier (v_Location v) (int64 (v_NextFreeNode v + 1)) currentRoot in
                if negb (v_NextFreeNode v =? InsertionTrace.NewNextFreeNode trace)
                then Ok (Some "inconsistent next free node"%string, v)
                else Ok (None, v)
            end
          end
        end.

Definition insertion_DeferMerkleChecks (trace : InsertionTrace.t F K V) (appendTo : list (ProvedClaim F))
    : res (list (ProvedClaim F)) :=
  let iInserted := Path (InsertionTrace.ProofNew trace) in
  hkey ← hash (InsertionTrace.Key trace);
  let currentRoot := InsertionTrace.OldSubRoot trace in
  oldLeafMinus ← Hash (InsertionTrace.OldOpenMinus trace);
  newLeafMinus ← Hash (opening_CopyWithNext (InsertionTrace.OldOpenMinus trace)
                         (Path (InsertionTrace.ProofNew trace)));
  r ← deferCheckUpdateRoot (InsertionTrace.ProofMinus trace) currentRoot oldLeafMinus newLeafMinus appendTo;
  let '(appendTo, currentRoot) := r in
  hval ← hash (InsertionTrace.Val trace);
  newLeaf ← Hash (mkOpening (Path (InsertionTrace.ProofMinus trace)) (Path (InsertionTrace.ProofPlus trace))
                    hkey hval);
  r ← deferCheckUpdateRoot (InsertionTrace.ProofNew trace) currentRoot EmptyLeaf newLeaf appendTo;
  let '(appendTo, currentRoot) := r in
  oldLeafPlus ← Hash (InsertionTrace.OldOpenPlus trace);
  newLeafPlus ← Hash (opening_CopyWithPrev (InsertionTrace.OldOpenPlus trace) iInserted);
  r ← deferCheckUpdateRoot (InsertionTrace.ProofPlus trace) currentRoot oldLeafPlus newLeafPlus appendTo;
  Ok (fst r).

(** ** deletion.go *)

Definition DeleteAndProve (range : list (Z * tuple)) (p : ProverState) (key : K)
    : res (DeletionTrace.t F K V * ProverState) :=
  r ← FindKey range p key;
  let '(i, found) := r in
  if negb found then Panic
  else
    tuple ← Mapping.MustGet (Data p) i;
    let iMinus := Prev (Opening tuple) in
    let iPlus := Next (Opening tuple) in
    tupleMinus ← Mapping.MustGet (Data p) iMinus;
    tuplePlus ← Mapping.MustGet (Data p) iPlus;
    let oldSubRoot := SubTreeRoot p in
    let newNextFreeNode := NextFreeNode p in
    r ← upsertTuple p iMinus (CopyWithNext tupleMinus iPlus);
    let '(proofMinus, p) := r in
    r ← rmTuple p i;
    let '(proofDeleted, p) := r in
    r ← upsertTuple p iPlus (CopyWithPrev tuplePlus iMinus);
    let '(proofPlus, p) := r in
    Ok (DeletionTrace.mk F K V 0 (Location p) newNextFreeNode oldSubRoot (SubTreeRoot p)
          proofMinus proofDeleted proofPlus key (Opening tupleMinus) (Opening tuple) (Opening tuplePlus)
          (Value tuple), p).

Definition VerifyDeletion (v : VerifierState) (trace : DeletionTrace.t F K V) : res (gerr * VerifierState) :=
  let fail msg := Ok (Some msg, v) in
  if negb (String.eqb (v_Location v) (DeletionTrace.Location trace))
  then fail "inconsistent location"%string
  else if negb (oct_eqb (v_SubTreeRoot v) (DeletionTrace.OldSubRoot trace))
  then fail "inconsistent root"%string
  else
    hVal ← hash (DeletionTrace.DeletedValue trace);
    let openMinus := DeletionTrace.OldOpenMinus trace in
    let deletedOpen := DeletionTrace.DeletedOpen trace in
    let openPlus := DeletionTrace.OldOpenPlus trace in
    if negb (oct_eqb hVal (HVal deletedOpen))
    then fail "the deleted value does not match the hVal of the opening"%string
    else
      let iMinus := Path (DeletionTrace.ProofMinus trace) in
      let iDeleted := Path (DeletionTrace.ProofDeleted trace) in
      let iPlus := Path (DeletionTrace.ProofPlus trace) in
      if negb (Next openMinus =? iDeleted) || negb (Prev deletedOpen =? iMinus)
      then fail "bad sandwich prev and next do not point to each other"%string
      else if negb (Next deletedOpen =? iPlus) || negb (Prev openPlus =? iDeleted)
      then fail "bad sandwich prev and next do not point to each other"%string
      else
        m ← MatchKey deletedOpen (DeletionTrace.Key trace);
        if negb m then fail "deleting the wrong leaf : does not match our key"%string
        else
          oldLeafMinus ← Hash openMinus;
          newLeafMinus ← Hash (opening_CopyWithNext openMinus iPlus);
          r ← updateCheckRoot (DeletionTrace.ProofMinus trace) (DeletionTrace.OldSubRoot trace)
                oldLeafMinus newLeafMinus;
          match r with
          | (_, Some _) => fail "audit of the update of old leaf minus failed"%string
          | (currentRoot, None) =>
            deletedLeaf ← hash deletedOpen;
            r ← updateCheckRoot (DeletionTrace.ProofDeleted trace) currentRoot deletedLeaf EmptyLeaf;
            match r with
            | (_, Some _) => fail "audit of the update of the middle leaf failed"%string
            | (currentRoot, None) =>
              oldLeafPlus ← Hash openPlus;
              newLeafPlus ← Hash (opening_CopyWithPrev openPlus iMinus);
              r ← updateCheckRoot (DeletionTrace.ProofPlus trace) currentRoot oldLeafPlus newLeafPlus;
              match r with
              | (_, Some _) => fail "audit of the update of old leaf plus failed"%string
              | (currentRoot, None) =>
                if negb (oct_eqb currentRoot (DeletionTrace.NewSubRoot trace))
                then fail "inconsistent root"%string
                else if negb (v_NextFreeNode v =? DeletionTrace.NewNextFreeNode trace)
                then fail "inconsistent NextFreeNode"%string
                else Ok (None, mkVerifier (v_Location v) (v_NextFreeNode v) currentRoot)
              end
            end
          end.

Definition deletion_DeferMerkleChecks (trace : DeletionTrace.t F K V) (appendTo : list (ProvedClaim F))
    : res (list (ProvedClaim F)) :=
  let currentRoot := DeletionTrace.OldSubRoot trace in
  let iMinus := Path (DeletionTrace.ProofMinus trace) in
  let iPlus := Path (DeletionTrace.ProofPlus trace) in
  oldLeafMinus ← Hash (DeletionTrace.OldOpenMinus trace);
  newLeafMinus ← Hash (opening_CopyWithNext (DeletionTrace.OldOpenMinus trace) iPlus);
  r ← deferCheckUpdateRoot (DeletionTrace.ProofMinus trace) currentRoot oldLeafMinus newLeafMinus appendTo;
  let '(appendTo, currentRoot) := r in
  deletedLeaf ← hash (DeletionTrace.DeletedOpen trace);
  r ← deferCheckUpdateRoot (DeletionTrace.ProofDeleted trace) currentRoot deletedLeaf EmptyLeaf appendTo;
  let '(appendTo, currentRoot) := r in
  oldLeafPlus ← Hash (DeletionTrace.OldOpenPlus trace);
  newLeafPlus ← Hash (opening_CopyWithPrev (DeletionTrace.OldOpenPlus trace) iMinus);
  r ← deferCheckUpdateRoot (DeletionTrace.ProofPlus trace) currentRoot oldLeafPlus newLeafPlus appendTo;
  Ok (fst r).

(** ** update.go *)

Definition UpdateAndProve (range : list (Z * tuple)) (p : ProverState) (key : K) (newVal : V)
    : res (UpdateTrace.t F K V * ProverState) :=
  r ← FindKey range p key;
  let '(i, found) := r in
  if negb found then Panic
  else
    tuple ← Mapping.MustGet (Data p) i;
    hk ← hash key;
    hk' ← hash (Key tuple);
    if negb (oct_eqb hk hk') then Panic
    else
      let oldRoot := SubTreeRoot p in
      let oldOpening := Opening tuple in
      let oldValue := Value tuple in
      tuple ← CopyWithVal tuple newVal;
      let p := set_Data p (Mapping.Update (Data p) i tuple) in
      newLeaf ← Hash (Opening tuple);
      tree ← Smt.Update (PTree p) i newLeaf;
      let p := set_Tree p tree in
      proof ← MustProve (PTree p) i;
      Ok (UpdateTrace.mk F K V 0 (Location p) (Key tuple) oldValue newVal (NextFreeNode p) oldRoot
            (SubTreeRoot p) oldOpening proof, p).

(** [tuple.LeafOpening.HVal = hval] *)
Definition with_HVal (l : opening) (hval : oct) : opening := mkOpening (Prev l) (Next l) (HKey l) hval.

Definition UpdateVerify (v : VerifierState) (trace : UpdateTrace.t F K V) : res (gerr * VerifierState) :=
  let fail msg := Ok (Some msg, v) in
  if negb (String.eqb (v_Location v) (UpdateTrace.Location trace))
  then fail "inconsistent location"%string
  else if negb (oct_eqb (v_SubTreeRoot v) (UpdateTrace.OldSubRoot trace))
  then fail "inconsistent root"%string
  else
    let tuple := mkTuple (UpdateTrace.OldOpening trace) (UpdateTrace.Key trace) (UpdateTrace.OldValue trace) in
    r ← CheckAndLeaf tuple;
    match r with
    | (_, Some _) => fail "read update verifier failed"%string
    | (leaf, None) =>
      ok ← Verify (UpdateTrace.Proof_ trace) leaf (UpdateTrace.OldSubRoot trace);
      match ok with
      | Some _ => fail "merkle proof verification failed"%string
      | None =>
        hval ← hash (UpdateTrace.NewValue trace);
        newLeaf ← hash (with_HVal (Opening tuple) hval);
        r ← updateCheckRoot (UpdateTrace.Proof_ trace) (UpdateTrace.OldSubRoot trace) leaf newLeaf;
        match r with
        | (_, Some _) => fail "update check failed : invalid proof"%string
        | (newRoot, None) =>
          if negb (oct_eqb newRoot (UpdateTrace.NewSubRoot trace)) then fail "new root does not match"%string
          else if negb (v_NextFreeNode v =? UpdateTrace.NewNextFreeNode trace)
          then fail "inconsistent NextFreeNode"%string
          else Ok (None, mkVerifier (v_Location v) (v_NextFreeNode v) (UpdateTrace.NewSubRoot trace))
        end
      end
    end.

Definition update_DeferMerkleChecks (trace : UpdateTrace.t F K V) (appendTo : list (ProvedClaim F))
    : res (list (ProvedClaim F)) :=
  let tuple := mkTuple (UpdateTrace.OldOpening trace) (UpdateTrace.Key trace) (UpdateTrace.OldValue trace) in
  r ← CheckAndLeaf tuple;
  let leaf := fst r in
  hval ← hash (UpdateTrace.NewValue trace);
  newLeaf ← hash (with_HVal (Opening tuple) hval);
  r ← deferCheckUpdateRoot (UpdateTrace.Proof_ trace) (UpdateTrace.OldSubRoot trace) leaf newLeaf appendTo;
  Ok (fst r).

(** ** readzero.go *)

Definition ReadZeroAndProve (range1 range2 : list (Z * tuple)) (p : ProverState) (key : K)
    : res (ReadZeroTrace.t F K V) :=
  r ← FindKey range1 p key;
  if snd r : bool then Panic
  else
    ix ← findSandwich range2 p key;
    let '(iMinus, iPlus) := ix in
    dataMinus ← Mapping.MustGet (Data p) iMinus;
    dataPlus ← Mapping.MustGet (Data p) iPlus;
    proofMinus ← MustProve (PTree p) iMinus;
    proofPlus ← MustProve (PTree p) iPlus;
    Ok (ReadZeroTrace.mk F K V 0 (Location p) key (SubTreeRoot p) (NextFreeNode p)
          (Opening dataMinus) (Opening dataPlus) proofMinus proofPlus).

Definition ReadZeroVerify (v : VerifierState) (trace : ReadZeroTrace.t F K V) : res gerr :=
  let fail (msg : string) := Ok (Some msg) in
  if negb (String.eqb (v_Location v) (ReadZeroTrace.Location trace))
  then fail "inconsistent location"%string
  else if negb (oct_eqb (v_SubTreeRoot v) (ReadZeroTrace.SubRoot trace))
  then fail "inconsistent root"%string
  else
    let iMinus := Path (ReadZeroTrace.ProofMinus trace) in
    let iPlus := Path (ReadZeroTrace.ProofPlus trace) in
    let openMinus := ReadZeroTrace.OpeningMinus trace in
    let openPlus := ReadZeroTrace.OpeningPlus trace in
    if negb (Next openMinus =? iPlus) || negb (Prev openPlus =? iMinus)
    then fail "bad sandwich prev and next do not point to each other"%string
    else
      hkey ← hash (ReadZeroTrace.Key trace);
      if (KoalaOctuplet.Cmp hkey (HKey openMinus) <? 1) || (-1 <? KoalaOctuplet.Cmp hkey (HKey openPlus))
      then fail "sandwich is incorrect"%string
      else
        leafMinus ← hash openMinus;
        ok ← Verify (ReadZeroTrace.ProofMinus trace) leafMinus (ReadZeroTrace.SubRoot trace);
        match ok with
        | Some _ => fail "merkle proof verification failed : minus"%string
        | None =>
          leafPlus ← hash openPlus;
          ok ← Verify (ReadZeroTrace.ProofPlus trace) leafPlus (ReadZeroTrace.SubRoot trace);
          match ok with
          | Some _ => fail "merkle proof verification failed : plus"%string
          | None =>
            if negb (v_NextFreeNode v =? ReadZeroTrace.NextFreeNode trace)
            then fail "inconsistent NextFreeNode"%string
            else Ok None
          end
        end.

Definition readzero_DeferMerkleChecks (trace : ReadZeroTrace.t F K V) (appendTo : list (ProvedClaim F))
    : res (list (ProvedClaim F)) :=
  leafMinus ← hash (ReadZeroTrace.OpeningMinus trace);
  leafPlus ← hash (ReadZeroTrace.OpeningPlus trace);
  Ok ((appendTo ++ [mkClaim (ReadZeroTrace.ProofMinus trace) (ReadZeroTrace.SubRoot trace) leafMinus])
      ++ [mkClaim (ReadZeroTrace.ProofPlus trace) (ReadZeroTrace.SubRoot trace) leafPlus]).

(** ** readnonzero.go *)

Definition ReadNonZeroAndProve (range : list (Z * tuple)) (p : ProverState) (key : K)
    : res (ReadNonZeroTrace.t F K V) :=
  r ← FindKey range p key;
  let '(i, found) := r in
  if negb found then Panic
  else
    tuple ← Mapping.MustGet (Data p) i;
    hk ← hash key;
    hk' ← hash (Key tuple);
    if negb (oct_eqb hk hk') then Panic
    else
      proof ← MustProve (PTree p) i;
      Ok (ReadNonZeroTrace.mk F K V 0 (Location p) (NextFreeNode p) (Key tuple) (Value tuple)
            (SubTreeRoot p) (Opening tuple) proof).

Definition ReadNonZeroVerify (v : VerifierState) (trace : ReadNonZeroTrace.t F K V) : res gerr :=
  let fail (msg : string) := Ok (Some msg) in
  if negb (String.eqb (v_Location v) (ReadNonZeroTrace.Location trace))
  then fail "inconsistent location"%string
  else if negb (oct_eqb (v_SubTreeRoot v) (ReadNonZeroTrace.SubRoot trace))
  then fail "inconsistent root"%string
  else
    let tuple := mkTuple (ReadNonZeroTrace.LeafOpening_ trace) (ReadNonZeroTrace.Key trace)
                         (ReadNonZeroTrace.Value trace) in
    r ← CheckAndLeaf tuple;
    match r with
    | (_, Some _) => fail "read non zero verifier failed"%string
    | (leaf, None) =>
      ok ← Verify (ReadNonZeroTrace.Proof_ trace) leaf (ReadNonZeroTrace.SubRoot trace);
      match ok with
      | Some _ => fail "merkle proof verification failed"%string
      | None =>
        if negb (v_NextFreeNode v =? ReadNonZeroTrace.NextFreeNode trace)
        then fail "inconsistent NextFreeNode"%string
        else Ok None
      end
    end.

Definition readnonzero_DeferMerkleChecks (trace : ReadNonZeroTrace.t F K V) (appendTo : list (ProvedClaim F))
    : res (list (ProvedClaim F)) :=
  let tuple := mkTuple (ReadNonZeroTrace.LeafOpening_ trace) (ReadNonZeroTrace.Key trace)
                       (ReadNonZeroTrace.Value trace) in
  r ← CheckAndLeaf tuple;
  Ok (appendTo ++ [mkClaim (ReadNonZeroTrace.Proof_ trace) (ReadNonZeroTrace.SubRoot trace) (fst r)]).
End accumulator.
Arguments ProverState F K V : clear implicits.
Arguments VerifierState F : clear implicits.

(** ** The [Trace] interface *)

Class Trace (F : Type) (T : Type) := {
  DeferMerkleChecks : T → list (ProvedClaim F) → res (list (ProvedClaim F));
  trace_HKey : T → res (KoalaOctuplet.t F);
  RWInt : T → Z
}.

Section traces.
Context `{ElementOps F, Poseidon2 F, WriterTo K, WriterTo V}.

#[global] Instance insertion_Trace : Trace F (InsertionTrace.t F K V) := {
  DeferMerkleChecks := insertion_DeferMerkleChecks;
  trace_HKey trace := hash (InsertionTrace.Key trace);
  RWInt _ := 1
}.

#[global] Instance deletion_Trace : Trace F (DeletionTrace.t F K V) := {
  DeferMerkleChecks := deletion_DeferMerkleChecks;
  trace_HKey trace := Ok (HKey (DeletionTrace.DeletedOpen trace));
  RWInt _ := 1
}.

#[global] Instance update_Trace : Trace F (UpdateTrace.t F K V) := {
  DeferMerkleChecks := update_DeferMerkleChecks;
  trace_HKey trace := hash (UpdateTrace.Key trace);
  RWInt _ := 1
}.

#[global] Instance readzero_Trace : Trace F (ReadZeroTrace.t F K V) := {
  DeferMerkleChecks := readzero_DeferMerkleChecks;
  trace_HKey trace := hash (ReadZeroTrace.Key trace);
  RWInt _ := 0
}.

#[global] Instance readnonzero_Trace : Trace F (ReadNonZeroTrace.t F K V) := {
  DeferMerkleChecks := readnonzero_DeferMerkleChecks;
  trace_HKey trace := hash (ReadNonZeroTrace.Key trace);
  RWInt _ := 0
}.
End traces.
End Accumulator.
