(* ===== verification/Account.v ===== *)
(** * What the accumulator hashes

    The digest of a leaf opening as a Merkle-Damgard chain over six blocks, and
    the fact that these blocks determine the opening. *)

From S2P Require Export Accumulator Binding.
Import Smt Accumulator Binding.

Module LeafHash.
Section words.
Context `{ElementLaws F, !Poseidon2 F}.
Notation oct := (KoalaOctuplet.t F).

(** Elements of two bytes each. *)
Fixpoint pad_elems (b : list Z) : list F :=
  match b with
  | x :: y :: b' => el_of_Z (x * 256 + y) :: pad_elems b'
  | _ => []
  end.

Lemma el_bytes_small x y : is_byte x → is_byte y → el_bytes (F := F) (el_of_Z (x * 256 + y)) = [0; 0; x; y].
Proof.
  unfold is_byte. intros Hx Hy. rewrite el_bytes_spec, el_val_of, Z.mod_small by (unfold koalaModulus; lia).
  rewrite <-(be_bytes_val [0; 0; x; y] 4) by (repeat constructor; (done || lia)). done.
Qed.

Lemma pad_elems_bytes b :
  Forall is_byte b → Nat.even (length b) = true → concat (el_bytes <$> pad_elems b) = Common.pad_pairs b.
Proof.
  revert b. fix IH 1. intros [|x [|y b]] Hb He; [done|done|].
  inversion_clear Hb as [|? ? Hx Hb']. inversion_clear Hb' as [|? ? Hy Hb].
  cbn [pad_elems]. rewrite fmap_cons. cbn [concat Common.pad_pairs]. rewrite el_bytes_small by done.
  cbn [app]. by rewrite IH.
Qed.

Lemma pad_elems_length b : Nat.even (length b) = true → length b = (2 * length (pad_elems b))%nat.
Proof. revert b. fix IH 1. intros [|x [|y b]] He; [done|done|]. simpl in *. rewrite (IH b He). lia. Qed.

(** The elements of an [int64] written on 64 bytes. *)
Definition int64_elems (x : Z) : list F := replicate 12 el_zero ++ pad_elems (be_bytes 8 (uint64 x)).

Lemma int64_elems_length x : length (int64_elems x) = 16%nat.
Proof.
  unfold int64_elems. rewrite length_app, length_replicate.
  pose proof (pad_elems_length (be_bytes 8 (uint64 x))) as E. rewrite be_bytes_length in E. specialize (E eq_refl). lia.
Qed.

Lemma el_bytes_zero : el_bytes (F := F) el_zero = [0; 0; 0; 0].
Proof. apply (el_bytes_small 0 0); by split. Qed.

Lemma int64_elems_bytes x : concat (el_bytes <$> int64_elems x) = Common.int64_word x.
Proof.
  unfold int64_elems, Common.int64_word. rewrite fmap_app, concat_app, fmap_replicate, el_bytes_zero.
  rewrite pad_elems_bytes; [done|apply be_bytes_is_byte|by rewrite be_bytes_length].
Qed.

Lemma uint64_inj x y : in_int64 x → in_int64 y → uint64 x = uint64 y → x = y.
Proof.
  unfold in_int64, uint64. intros Hx Hy E.
  pose proof (Z.div_mod x (2 ^ 64) ltac:(lia)). pose proof (Z.div_mod y (2 ^ 64) ltac:(lia)).
  pose proof (Z.mod_pos_bound x (2 ^ 64) ltac:(lia)). nia.
Qed.

Lemma int64_elems_inj x y : in_int64 x → in_int64 y → int64_elems x = int64_elems y → x = y.
Proof.
  intros Hx Hy E. apply uint64_inj; [done..|].
  apply (f_equal (λ es, Common.unpad_quads (drop 48 (concat (el_bytes <$> es))))) in E.
  rewrite !int64_elems_bytes in E. unfold Common.int64_word in E.
  rewrite !drop_app_length', !Common.unpad_pad in E by by rewrite ?be_bytes_length.
  apply (f_equal be_val) in E. by rewrite !Common.be_val_bytes8 in E.
Qed.

(** ** Blocks *)

Fixpoint to_blocks (n : nat) (es : list F) : list oct :=
  match n with
  | O => []
  | S n' => KoalaOctuplet.overwrite KoalaOctuplet.zero (take 8 es) :: to_blocks n' (drop 8 es)
  end.

Lemma to_blocks_length n es : length (to_blocks n es) = n.
Proof. revert es. induction n as [|n IH]; intros es; simpl; [done|]. by rewrite IH. Qed.

Lemma vec_of_list n (es : list F) : length es = n → ∃ o : vec F n, vec_to_list o = es.
Proof. intros <-. exists (list_to_vec es). apply vec_to_list_to_vec. Qed.

Lemma to_blocks_concat n es : length es = (n * 8)%nat → concat (vec_to_list <$> to_blocks n es) = es.
Proof.
  revert es. induction n as [|n IH]; intros es L; cbn [to_blocks]; [by apply length_zero_iff_nil in L|].
  destruct (vec_of_list 8 (take 8 es)) as [o Eo]; [rewrite length_take; lia|].
  rewrite fmap_cons. cbn [concat]. rewrite <-Eo, KoalaOctuplet.overwrite_full, Eo.
  rewrite IH by (rewrite length_drop; lia). apply take_drop.
Qed.

(** Writers whose buffers hold canonical elements. *)
Lemma write_all_elems d (ess : list (list F)) :
  MDHasher.write_all d ((λ es, concat (el_bytes <$> es)) <$> ess) = MDHasher.WriteElements d (concat ess).
Proof.
  revert d. induction ess as [|es ess IH]; intros d; [unfold MDHasher.WriteElements; simpl; by rewrite app_nil_r; destruct d|].
  rewrite fmap_cons. unfold MDHasher.write_all in *. cbn [foldl concat].
  rewrite MDHasher.Write_bytes. cbn [snd]. rewrite IH. apply MDHasher.WriteElements_app.
Qed.

(** [hash] never fails on a writer that does not panic. *)
Lemma hash_Ok `{WriterTo T} (m : T) calls :
  write_calls m = Ok calls →
  hash m = Ok (MDHasher.SumElement (MDHasher.write_all MDHasher.NewMDHasher calls)).1.
Proof.
  intros E. unfold hash. rewrite E, res_bind_ret, MDHasher.Sum_nil, res_bind_ret. cbn [fst].
  by rewrite KoalaOctuplet.SetBytes_ToBytes.
Qed.

Lemma hash_elems `{WriterTo T} (m : T) (ess : list (list F)) n :
  write_calls m = Ok ((λ es, concat (el_bytes <$> es)) <$> ess) → length (concat ess) = (n * 8)%nat →
  hash m = Ok (MDHasher.md_blocks (to_blocks n (concat ess))).
Proof.
  intros Hw L. rewrite (hash_Ok _ _ Hw), write_all_elems, <-MDHasher.HashVec_blocks.
  by rewrite to_blocks_concat.
Qed.

(** ** Leaf openings *)

Definition leaf_elems (l : LeafOpening F) : list F :=
  concat [int64_elems (Prev l); int64_elems (Next l); vec_to_list (HKey l); vec_to_list (HVal l)].

Definition leaf_blocks (l : LeafOpening F) : list oct := to_blocks 6 (leaf_elems l).

Definition leaf_hash (l : LeafOpening F) : oct := MDHasher.md_blocks (leaf_blocks l).

Lemma leaf_elems_length l : length (leaf_elems l) = 48%nat.
Proof.
  unfold leaf_elems. cbn [concat]. rewrite !length_app, !int64_elems_length, !length_vec_to_list. done.
Qed.

Lemma Hash_leaf l : Hash l = Ok (leaf_hash l).
Proof.
  apply hash_elems; [|apply leaf_elems_length].
  unfold write_calls, WriteTo. rewrite !Common.WriteInt64On64Bytes_spec, !res_bind_ret.
  unfold write_calls, KoalaOctuplet.WriteTo. rewrite !res_bind_ret. cbn [app].
  unfold zlen. cbn [concat]. rewrite !length_app, !Common.int64_word_length, !KoalaOctuplet.ToBytes_length.
  cbn [negb Z.eqb length]. rewrite !fmap_cons, !int64_elems_bytes. done.
Qed.

Lemma hash_leaf (l : LeafOpening F) : hash l = Ok (leaf_hash l).
Proof. exact (Hash_leaf l). Qed.

Definition opening_ok (l : LeafOpening F) : Prop := in_int64 (Prev l) ∧ in_int64 (Next l).

Lemma leaf_blocks_inj l l' : opening_ok l → opening_ok l' → leaf_blocks l = leaf_blocks l' → l = l'.
Proof.
  intros [H1 H2] [H1' H2'] E.
  apply (f_equal (λ bs, concat (vec_to_list <$> bs))) in E. unfold leaf_blocks in E.
  rewrite !to_blocks_concat in E by apply leaf_elems_length. unfold leaf_elems in E. cbn [concat] in E.
  apply app_inj_1 in E as [E1 E]; [|by rewrite !int64_elems_length].
  apply app_inj_1 in E as [E2 E]; [|by rewrite !int64_elems_length].
  apply app_inj_1 in E as [E3 E]; [|by rewrite !length_vec_to_list].
  rewrite !app_nil_r in E. destruct l, l'; simpl in *. f_equal.
  - by apply int64_elems_inj.
  - by apply int64_elems_inj.
  - by apply vec_to_list_inj2.
  - by apply vec_to_list_inj2.
Qed.
End words.
End LeafHash.

(** * Ethereum addresses, 32-byte words and accounts

    Models src/prover/utils/types/ethaddress.go, full_bytes_32.go, field_bls12377Fr.go
    and account.go: the two encodings of an account (hashing and serialization) and
    the one of the Shomei traces. Byte arrays are lists of bytes. *)


Import Accumulator LeafHash.

(** ** ethaddress.go *)

Module EthAddress.
Record t : Type := mk { bytes : list Z }.

Definition wf (e : t) : Prop := length (bytes e) = 20%nat ∧ Forall is_byte (bytes e).

(** [copy(dst[at:], src)] on an array. *)
Definition copy_at (dst : list Z) (at_ : nat) (src : list Z) : list Z :=
  take at_ dst ++ take (length dst - at_) src ++ drop (at_ + length src) dst.

(** The bytes decoded from the hex string of [UnmarshalJSON]. *)
Definition set_decoded (e : t) (decoded : list Z) : t :=
  if (length decoded <? 20)%nat then mk (copy_at (bytes e) (20 - length decoded) decoded)
  else mk (copy_at (bytes e) 0 (drop (length decoded - 20) decoded)).

#[global] Instance WriteTo : WriterTo t := λ e, padded ← Common.LeftPadded (bytes e); Ok [padded].

Definition ReadFrom (e : t) (r : list Z) : res ((t * Z * gerr) * list Z) :=
  let '((b, err), r') := Read 40 r in
  match err with
  | Some x => Ok ((e, 0, Some x), r')
  | None => unpadded ← Common.RemovePadding (read_array 40 b); Ok ((mk (copy_at (bytes e) 0 unpadded), zlen b, None), r')
  end.

(** [AddressFromHex] after the hex string is decoded. *)
Definition of_decoded (byt : list Z) : t * gerr :=
  if negb (zlen byt =? 20) then (mk (replicate 20 0), Some "reading hex address : has bytes"%string)
  else (mk byt, None).

Definition DummyAddress (i : Z) : t := mk (i mod 256 :: replicate 19 0).
End EthAddress.

(** ** full_bytes_32.go *)

Module FullBytes32.
Record t : Type := mk { bytes : list Z }.

Definition wf (f : t) : Prop := length (bytes f) = 32%nat ∧ Forall is_byte (bytes f).

#[global] Instance WriteTo : WriterTo t := λ f, padded ← Common.LeftPadded (bytes f); Ok [padded].

Definition Write1Word (f : t) : list (list Z) := [bytes f].

(** The error of [r.Read] is ignored. *)
Definition ReadFrom (f : t) (r : list Z) : res ((t * Z) * list Z) :=
  let '((b, _), r') := Read 64 r in
  d ← Common.RemovePadding (read_array 64 b);
  Ok ((mk (EthAddress.copy_at (bytes f) 0 d), 64), r').

(** Reads into the array itself: bytes that are missing keep their old value. *)
Definition ReadPacked (f : t) (r : list Z) : (t * Z) * list Z :=
  let '((b, _), r') := Read 32 r in
  ((mk (EthAddress.copy_at (bytes f) 0 b), 32), r').

(** [AsFullBytes32]: the conversion to an array panics on a slice that is too short. *)
Definition AsFullBytes32 (b : list Z) : res t := if (length b <? 32)%nat then Panic else Ok (mk (take 32 b)).

(** [UnmarshalJSON] after the hex string is decoded. *)
Definition set_decoded (f : t) (decoded : list Z) : t * gerr :=
  if negb (zlen decoded =? 32) then (f, Some "could not unmarshal bytes32 : should have 32 bytes"%string)
  else (mk decoded, None).

(** [FullBytes32FromHex] after the hex string is decoded. *)
Definition of_decoded (b : list Z) : t := mk (EthAddress.copy_at (replicate 32 0) 0 b).

Definition LeftPadToFullBytes32 (b : list Z) : res t :=
  if (32 <? length b)%nat then Panic else Ok (mk (replicate (32 - length b) 0 ++ b)).

Definition IsZero (f : t) : bool := forallb (λ x, x =? 0) (bytes f).

Definition DummyFullByte (i : Z) : t := mk (i mod 256 :: replicate 31 0).
End FullBytes32.

(** ** account.go *)

Module Account.
Section account.
Context `{ElementOps F}.
Notation oct := (KoalaOctuplet.t F).

(** [Balance] is a pointer. *)
Record t : Type := mk {
  Nonce : Z; Balance : option Z; StorageRoot : oct; LineaCodeHash : oct;
  KeccakCodeHash : FullBytes32.t; CodeSize : Z
}.

(** The buffers written and the number returned. *)
Definition writeTo (a : t) (packed : bool) : res (list (list Z) * Z) :=
  w0 ← Common.WriteInt64On64Bytes (Nonce a);
  let balance := default 0 (Balance a) in
  w1 ← Common.WriteBigIntOn64Bytes balance;
  w2 ← write_calls (StorageRoot a);
  w3 ← write_calls (LineaCodeHash a);
  w4 ← (if packed then Ok (FullBytes32.Write1Word (KeccakCodeHash a)) else write_calls (KeccakCodeHash a));
  w5 ← Common.WriteInt64On64Bytes (CodeSize a);
  let calls := w0 ++ w1 ++ w2 ++ w3 ++ w4 ++ w5 in
  Ok (calls, zlen (concat calls)).

#[global] Instance WriteTo : WriterTo t := λ a, r ← writeTo a false; Ok (fst r).

Definition set_Nonce (a : t) (x : Z) : t := mk x (Balance a) (StorageRoot a) (LineaCodeHash a) (KeccakCodeHash a) (CodeSize a).
Definition set_Balance (a : t) (x : option Z) : t := mk (Nonce a) x (StorageRoot a) (LineaCodeHash a) (KeccakCodeHash a) (CodeSize a).
Definition set_StorageRoot (a : t) (x : oct) : t := mk (Nonce a) (Balance a) x (LineaCodeHash a) (KeccakCodeHash a) (CodeSize a).
Definition set_LineaCodeHash (a : t) (x : oct) : t := mk (Nonce a) (Balance a) (StorageRoot a) x (KeccakCodeHash a) (CodeSize a).
Definition set_KeccakCodeHash (a : t) (x : FullBytes32.t) : t := mk (Nonce a) (Balance a) (StorageRoot a) (LineaCodeHash a) x (CodeSize a).
Definition set_CodeSize (a : t) (x : Z) : t := mk (Nonce a) (Balance a) (StorageRoot a) (LineaCodeHash a) (KeccakCodeHash a) x.

(** What a read returns: the receiver, the count, the error and the rest of the reader. *)
Definition outcome : Type := (t * Z * gerr) * list Z.

(** The receiver is assigned before the error is looked at. *)
Definition readFrom (a : t) (packed : bool) (r : list Z) : res outcome :=
  '((nonce, _, err), r) ← Common.ReadInt64On64Bytes r;
  let a := set_Nonce a nonce in
  match err with Some _ => Ok ((a, 0, Some "reading account : reading nonce"%string), r) | None =>
  '((balance, err), r) ← Common.ReadBigIntOn64Bytes r;
  match err with Some _ => Ok ((set_Balance a None, 0, Some "reading account : reading balance"%string), r) | None =>
  let a := set_Balance a (Some balance) in
  let '((root, _, err), r) := KoalaOctuplet.ReadFrom (StorageRoot a) r in
  let a := set_StorageRoot a root in
  match err with Some _ => Ok ((a, 0, Some "reading account : reading storage root"%string), r) | None =>
  let '((codeHash, _, err), r) := KoalaOctuplet.ReadFrom (LineaCodeHash a) r in
  let a := set_LineaCodeHash a codeHash in
  match err with Some _ => Ok ((a, 0, Some "reading account : reading code-hash"%string), r) | None =>
  '((keccak, nK), r) ← (if packed then Ok (FullBytes32.ReadPacked (KeccakCodeHash a) r)
                        else FullBytes32.ReadFrom (KeccakCodeHash a) r);
  let a := set_KeccakCodeHash a keccak in
  '((codeSize, _, err), r) ← Common.ReadInt64On64Bytes r;
  let a := set_CodeSize a codeSize in
  match err with Some _ => Ok ((a, 0, Some "reading account : reading codesize"%string), r) | None =>
  Ok ((a, 256 + nK, None), r)
  end end end end end.

Definition ReadFrom (a : t) (r : list Z) : res outcome := readFrom a false r.

(** The Shomei form. The writers do not fail on a buffer. *)
Definition writeToShomeiTraces (a : t) : res (list (list Z) * Z) :=
  let balance := default 0 (Balance a) in
  let '(w0, n0) := Common.WriteInt64On32Bytes (Nonce a) in
  w1 ← Common.WriteBigIntOn32Bytes balance;
  w2 ← write_calls (StorageRoot a);
  w3 ← write_calls (LineaCodeHash a);
  let w4 := FullBytes32.Write1Word (KeccakCodeHash a) in
  w5 ← Common.WriteInt64On64Bytes (CodeSize a);
  Ok (w0 ++ w1 ++ w2 ++ w3 ++ w4 ++ w5, n0 + zlen (concat (w1 ++ w2 ++ w3 ++ w4 ++ w5))).

Definition readFromShomeiTraces (a : t) (r : list Z) : outcome :=
  let '((nonce, _, err), r) := Common.ReadInt64On32Bytes r in
  let a := set_Nonce a nonce in
  match err with Some _ => ((a, 0, Some "reading account : reading nonce"%string), r) | None =>
  let '((balance, err), r) := Common.ReadBigIntOn32Bytes r in
  match err with Some _ => ((set_Balance a None, 0, Some "reading account : reading balance"%string), r) | None =>
  let a := set_Balance a (Some balance) in
  let '((root, _, err), r) := KoalaOctuplet.ReadFrom (StorageRoot a) r in
  let a := set_StorageRoot a root in
  match err with Some _ => ((a, 0, Some "reading account : reading storage root"%string), r) | None =>
  let '((codeHash, _, err), r) := KoalaOctuplet.ReadFrom (LineaCodeHash a) r in
  let a := set_LineaCodeHash a codeHash in
  match err with Some _ => ((a, 0, Some "reading account : reading code-hash"%string), r) | None =>
  let '((keccak, _), r) := FullBytes32.ReadPacked (KeccakCodeHash a) r in
  let a := set_KeccakCodeHash a keccak in
  let '((codeSize, _, err), r) := Common.ReadInt64On32Bytes r in
  let a := set_CodeSize a codeSize in
  match err with Some _ => ((a, 0, Some "reading account : reading codesize"%string), r) | None =>
  ((a, 192, None), r)
  end end end end end.

(** Accounts whose fields have their Go types, with values the encodings keep. *)
Record wf (a : t) : Prop := {
  wf_Nonce : 0 ≤ Nonce a < 2 ^ 63;
  wf_Balance : 0 ≤ default 0 (Balance a) < 2 ^ 256;
  wf_Keccak : FullBytes32.wf (KeccakCodeHash a);
  wf_CodeSize : 0 ≤ CodeSize a < 2 ^ 63
}.

(** A nil balance is written as zero. *)
Definition norm (a : t) : t := set_Balance a (Some (default 0 (Balance a))).
End account.
Arguments t : clear implicits.

Section facts.
Context `{ElementLaws F}.
Implicit Types a : t F.

Lemma copy_at_full (dst src : list Z) : length dst = length src → EthAddress.copy_at dst 0 src = src.
Proof.
  intros E. unfold EthAddress.copy_at. rewrite Nat.sub_0_r, take_0, E, take_ge, Nat.add_0_l, drop_ge by lia. by rewrite app_nil_r.
Qed.

(** The packed or padded bytes of the Keccak code hash. *)
Definition keccak_bytes (packed : bool) (f : FullBytes32.t) : list Z :=
  if packed then FullBytes32.bytes f else Common.pad_pairs (FullBytes32.bytes f).

Definition encoding (packed : bool) a : list (list Z) :=
  [Common.int64_word (Nonce a); Common.bigint_word (default 0 (Balance a)); KoalaOctuplet.ToBytes (StorageRoot a);
   KoalaOctuplet.ToBytes (LineaCodeHash a); keccak_bytes packed (KeccakCodeHash a); Common.int64_word (CodeSize a)].

Lemma even_32 (f : FullBytes32.t) : FullBytes32.wf f → Nat.even (length (FullBytes32.bytes f)) = true.
Proof. by intros [-> _]. Qed.

Lemma keccak_length (packed : bool) f : FullBytes32.wf f → zlen (keccak_bytes packed f) = if packed then 32 else 64.
Proof.
  intros W. destruct packed; unfold keccak_bytes, zlen; [by rewrite (proj1 W)|].
  by rewrite Common.pad_pairs_length, (proj1 W) by by apply even_32.
Qed.

Lemma writeTo_spec a (packed : bool) : wf a → writeTo a packed = Ok (encoding packed a, if packed then 288 else 320).
Proof.
  intros W. unfold writeTo. rewrite !Common.WriteInt64On64Bytes_spec, !res_bind_ret.
  rewrite Common.WriteBigIntOn64Bytes_spec, res_bind_ret by apply W. unfold write_calls, KoalaOctuplet.WriteTo. rewrite !res_bind_ret.
  assert ((if packed then Ok (FullBytes32.Write1Word (KeccakCodeHash a)) else FullBytes32.WriteTo (KeccakCodeHash a))
    = Ok [keccak_bytes packed (KeccakCodeHash a)]) as ->.
  { destruct packed; [done|]. unfold FullBytes32.WriteTo. rewrite Common.LeftPadded_Ok; [done|]. apply even_32, W. }
  rewrite !res_bind_ret. cbn [app]. do 2 f_equal. cbn [concat].
  rewrite app_nil_r, !zlen_app, (keccak_length packed) by apply W.
  unfold zlen. rewrite !Common.int64_word_length, Common.bigint_word_length, !KoalaOctuplet.ToBytes_length. by destruct packed.
Qed.

Lemma ReadPacked_bytes f0 f r :
  FullBytes32.wf f0 → FullBytes32.wf f → FullBytes32.ReadPacked f0 (FullBytes32.bytes f ++ r) = ((f, 32), r).
Proof.
  intros [L0 _] W. unfold FullBytes32.ReadPacked. rewrite Read_app by (apply W || lia).
  rewrite copy_at_full by by rewrite L0, (proj1 W). by destruct f.
Qed.

Lemma ReadKeccak f0 f (packed : bool) r :
  FullBytes32.wf f0 → FullBytes32.wf f →
  (if packed then Ok (FullBytes32.ReadPacked f0 (keccak_bytes packed f ++ r))
   else FullBytes32.ReadFrom f0 (keccak_bytes packed f ++ r)) = Ok ((f, if packed then 32 else 64), r).
Proof.
  intros W0 W. pose proof (proj1 W0) as L0. destruct packed; unfold keccak_bytes.
  - by rewrite ReadPacked_bytes.
  - unfold FullBytes32.ReadFrom. pose proof (Common.pad_pairs_length _ (even_32 _ W)) as L. rewrite (proj1 W) in L.
    rewrite Read_app by (exact L || lia). rewrite read_array_full by exact L.
    rewrite Common.RemovePadding_pad by by apply even_32. rewrite res_bind_ret.
    rewrite copy_at_full by by rewrite L0, (proj1 W). by destruct f.
Qed.

Lemma readFrom_encoding a0 a (packed : bool) r :
  wf a → FullBytes32.wf (KeccakCodeHash a0) →
  readFrom a0 packed (concat (encoding packed a) ++ r) = Ok ((norm a, 256 + (if packed then 32 else 64), None), r).
Proof.
  intros W W0. unfold readFrom, encoding. cbn [concat]. rewrite app_nil_r, <-!(assoc_L (++)).
  rewrite Common.ReadInt64On64Bytes_word, res_bind_ret. rewrite Common.ReadBigIntOn64Bytes_word by apply W. rewrite res_bind_ret.
  rewrite !KoalaOctuplet.ReadFrom_ToBytes. cbn [KeccakCodeHash set_Nonce set_Balance set_StorageRoot set_LineaCodeHash].
  rewrite ReadKeccak by (done || apply W). rewrite res_bind_ret. rewrite Common.ReadInt64On64Bytes_word, res_bind_ret.
  destruct W as [W1 W2 W3 W4]. rewrite !Z.mod_small by lia. by destruct a.
Qed.

(** The Shomei form. *)
Definition shomei_encoding a : list (list Z) :=
  (Common.WriteInt64On32Bytes (Nonce a)).1 ++
  [be_bytes 32 (default 0 (Balance a)); KoalaOctuplet.ToBytes (StorageRoot a);
   KoalaOctuplet.ToBytes (LineaCodeHash a); FullBytes32.bytes (KeccakCodeHash a); Common.int64_word (CodeSize a)].

Lemma FillBytes_Ok b : 0 ≤ b < 2 ^ 256 → Common.FillBytes 32 b = Ok (be_bytes 32 b).
Proof. intros Hb. unfold Common.FillBytes. rewrite decide_True by (rewrite Z.abs_eq by lia; simpl; lia). by rewrite Z.abs_eq by lia. Qed.

Lemma writeToShomeiTraces_spec a : wf a → ∃ n, writeToShomeiTraces a = Ok (shomei_encoding a, n).
Proof.
  intros W. unfold writeToShomeiTraces, Common.WriteBigIntOn32Bytes. rewrite FillBytes_Ok by apply W.
  rewrite !Common.WriteInt64On64Bytes_spec. unfold Common.WriteInt64On32Bytes. eexists. reflexivity.
Qed.

Lemma ReadBigInt32 b r : 0 ≤ b < 2 ^ 256 → Common.ReadBigIntOn32Bytes (be_bytes 32 b ++ r) = ((b, None), r).
Proof.
  intros Hb. destruct (Common.ReadBigIntOn32Bytes_written b r Hb) as (w & E & ER).
  unfold Common.WriteBigIntOn32Bytes in E. rewrite FillBytes_Ok, res_bind_ret in E by done. injection E as <-.
  cbn [concat] in ER. by rewrite app_nil_r in ER.
Qed.

(** The code size is read from the padding of the word it was written on. *)
Lemma ReadCodeSize x r :
  Common.ReadInt64On32Bytes (Common.int64_word x ++ r) = ((0, 32, None), drop 32 (Common.int64_word x) ++ r).
Proof.
  unfold Common.int64_word. set (l := Common.pad_pairs _). change (replicate 48 0) with (replicate 32 0 ++ replicate 16 0).
  rewrite <-!(assoc_L (++)). unfold Common.ReadInt64On32Bytes. rewrite Read_app by (done || lia).
  rewrite read_array_full by done. reflexivity.
Qed.

Lemma readFromShomeiTraces_encoding a0 a r :
  wf a → FullBytes32.wf (KeccakCodeHash a0) →
  readFromShomeiTraces a0 (concat (shomei_encoding a) ++ r) =
    ((set_CodeSize (norm a) 0, 192, None), drop 32 (Common.int64_word (CodeSize a)) ++ r).
Proof.
  intros W W0. unfold readFromShomeiTraces, shomei_encoding. rewrite concat_app. cbn [concat]. rewrite app_nil_r, <-!(assoc_L (++)).
  rewrite Common.ReadInt64On32Bytes_written by (unfold in_int64; pose proof (wf_Nonce _ W); lia).
  rewrite decide_True by apply W. rewrite ReadBigInt32 by apply W. rewrite !KoalaOctuplet.ReadFrom_ToBytes.
  cbn [KeccakCodeHash set_Nonce set_Balance set_StorageRoot set_LineaCodeHash].
  rewrite ReadPacked_bytes by (done || apply W). rewrite ReadCodeSize. by destruct a.
Qed.

(** ** What is hashed of an account *)

Definition account_elems a : list (list F) :=
  [int64_elems (Nonce a); pad_elems (be_bytes 32 (default 0 (Balance a))); vec_to_list (StorageRoot a);
   vec_to_list (LineaCodeHash a); pad_elems (FullBytes32.bytes (KeccakCodeHash a)); int64_elems (CodeSize a)].

Lemma pad_elems_16 b : length b = 32%nat → length (pad_elems (F := F) b) = 16%nat.
Proof. intros L. pose proof (pad_elems_length (F := F) b) as E. rewrite L in E. specialize (E eq_refl). lia. Qed.

Lemma account_elems_length a : wf a → length (concat (account_elems a)) = (10 * 8)%nat.
Proof.
  intros W. unfold account_elems. cbn [concat]. rewrite !length_app, !int64_elems_length, !length_vec_to_list.
  rewrite !pad_elems_16; [done|apply W|apply be_bytes_length].
Qed.

Context `{!Poseidon2 F}.

Definition account_blocks a : list (KoalaOctuplet.t F) := to_blocks 10 (concat (account_elems a)).

Lemma hash_account a : wf a → hash a = Ok (MDHasher.md_blocks (account_blocks a)).
Proof.
  intros W. apply hash_elems; [|by apply account_elems_length].
  unfold write_calls, WriteTo. rewrite writeTo_spec, res_bind_ret by done. cbn [fst]. f_equal.
  unfold encoding, account_elems, keccak_bytes, Common.bigint_word. rewrite !fmap_cons, !int64_elems_bytes.
  rewrite !pad_elems_bytes; [done|apply W|apply even_32, W|apply be_bytes_is_byte|by rewrite be_bytes_length].
Qed.

Lemma account_blocks_inj a a' : wf a → wf a' → account_blocks a = account_blocks a' → norm a = norm a'.
Proof.
  intros W W' E. apply (f_equal (λ bs, concat (el_bytes <$> concat (vec_to_list <$> bs)))) in E. unfold account_blocks in E.
  rewrite !to_blocks_concat in E by by apply account_elems_length.
  assert (∀ b, wf b → concat (el_bytes <$> concat (account_elems b)) = concat (encoding false b)) as Hb.
  { intros b Wb. unfold account_elems, encoding, keccak_bytes, Common.bigint_word. cbn [concat]. rewrite !fmap_app, !concat_app, !int64_elems_bytes.
    rewrite !pad_elems_bytes; [done|apply Wb|apply even_32, Wb|apply be_bytes_is_byte|by rewrite be_bytes_length]. }
  rewrite !Hb in E by done.
  pose proof (readFrom_encoding a a false [] W (wf_Keccak _ W)) as R. rewrite E in R.
  rewrite (readFrom_encoding a a' false [] W' (wf_Keccak _ W)) in R. congruence.
Qed.
End facts.
End Account.
