(* ===== verification/AccountTheorems.v ===== *)
(** * Accounts: theorems

    What the encodings of src/prover/utils/types/account.go guarantee. *)

From S2P Require Export Account Binding.
Import Accumulator LeafHash Binding.

Module AccountTheorems.
Section theorems.
Context `{ElementLaws F, !Poseidon2 F}.
Implicit Types a : Account.t F.

(** Accounts round trip: an account is written without a panic, on 320 bytes for
    hashing and on 288 in the packed form, and is read back from them, whatever the
    receiver held, with a nil balance turned into zero and nothing else consumed. *)
Theorem account_roundtrip a0 a (packed : bool) rest :
  Account.wf a → FullBytes32.wf (Account.KeccakCodeHash a0) →
  ∃ calls n, Account.writeTo a packed = Ok (calls, n) ∧ n = (if packed then 288 else 320) ∧ zlen (concat calls) = n ∧
    Account.readFrom a0 packed (concat calls ++ rest) = Ok ((Account.norm a, n, None), rest).
Proof.
  intros W W0. rewrite Account.writeTo_spec by done. eexists _, _. split; [done|]. split; [done|]. split.
  - unfold Account.encoding. cbn [concat]. rewrite app_nil_r, !zlen_app, Account.keccak_length by apply W. unfold zlen.
    rewrite !Common.int64_word_length, Common.bigint_word_length, !KoalaOctuplet.ToBytes_length. by destruct packed.
  - rewrite Account.readFrom_encoding by done. by destruct packed.
Qed.

(** The Shomei form loses the code size: what [writeToShomeiTraces] writes is read
    back by [readFromShomeiTraces] without an error, but with a code size of zero and
    32 bytes of the account left in the reader. *)
Theorem shomei_loses_code_size a0 a rest :
  Account.wf a → FullBytes32.wf (Account.KeccakCodeHash a0) →
  ∃ calls n left, Account.writeToShomeiTraces a = Ok (calls, n) ∧ zlen left = 32 ∧
    Account.readFromShomeiTraces a0 (concat calls ++ rest) =
      ((Account.set_CodeSize (Account.norm a) 0, 192, None), left ++ rest).
Proof.
  intros W W0. destruct (Account.writeToShomeiTraces_spec a W) as [n E]. eexists _, n, _. split; [exact E|].
  split; [|by apply Account.readFromShomeiTraces_encoding].
  unfold zlen. by rewrite length_drop, Common.int64_word_length.
Qed.

(** The digest of an account binds its fields: two accounts with the same digest
    are equal up to a nil balance, or the chains of their blocks hold a collision of
    the compression function. *)
Theorem account_binds a a' :
  Account.wf a → Account.wf a' → hash a = hash a' →
  Account.norm a = Account.norm a' ∨
  ∃ c, md_collision KoalaOctuplet.zero KoalaOctuplet.zero (Account.account_blocks a) (Account.account_blocks a') = Some c ∧ collision c.
Proof.
  intros W W'. rewrite !Account.hash_account by done. intros [= E].
  destruct (decide (Account.account_blocks a = Account.account_blocks a')) as [Eb|Hne].
  - left. by apply Account.account_blocks_inj.
  - right. destruct (md_collision_complete KoalaOctuplet.zero KoalaOctuplet.zero (Account.account_blocks a) (Account.account_blocks a')) as [c Hc].
    + unfold Account.account_blocks. by rewrite !to_blocks_length.
    + congruence.
    + exact E.
    + exists c. split; [done|]. by eapply md_collision_sound.
Qed.
End theorems.

(** ** Applications *)

Definition alice : Account.t Toy.F :=
  Account.mk 65 (Some 5690) (Toy.word [1; 2; 3]) (Toy.word [4; 5]) (FullBytes32.mk (replicate 32 7)) 1234.

Definition nobody : Account.t Toy.F :=
  Account.mk 0 None KoalaOctuplet.zero KoalaOctuplet.zero (FullBytes32.mk (replicate 32 0)) 0.

Lemma replicate_wf b : is_byte b → FullBytes32.wf (FullBytes32.mk (replicate 32 b)).
Proof. intros Hb. split; [done|]. by apply Forall_replicate. Qed.

Lemma alice_wf : Account.wf alice.
Proof. split; simpl; [lia|lia|apply replicate_wf; unfold is_byte; lia|lia]. Qed.

Lemma nobody_wf : FullBytes32.wf (Account.KeccakCodeHash nobody).
Proof. apply replicate_wf. unfold is_byte. lia. Qed.

Lemma account_roundtrip_witness :
  ∃ calls n, Account.writeTo alice true = Ok (calls, n) ∧ n = 288 ∧ zlen (concat calls) = n ∧
    Account.readFrom nobody true (concat calls ++ [1; 2]) = Ok ((Account.norm alice, n, None), [1; 2]).
Proof. exact (account_roundtrip nobody alice true [1; 2] alice_wf nobody_wf). Defined.

Lemma shomei_loses_code_size_witness :
  ∃ calls n left, Account.writeToShomeiTraces alice = Ok (calls, n) ∧ zlen left = 32 ∧
    Account.readFromShomeiTraces nobody (concat calls ++ []) = ((Account.set_CodeSize (Account.norm alice) 0, 192, None), left ++ []).
Proof. exact (shomei_loses_code_size nobody alice [] alice_wf nobody_wf). Defined.

Lemma account_binds_witness :
  Account.norm alice = Account.norm alice ∨
  ∃ c, md_collision KoalaOctuplet.zero KoalaOctuplet.zero (Account.account_blocks alice) (Account.account_blocks alice) = Some c ∧ collision c.
Proof. exact (account_binds alice alice alice_wf alice_wf eq_refl). Defined.
End AccountTheorems.
