(* ===== verification/SmtTheorems.v ===== *)
(** * Merkle trees, hashing and encodings: theorems

    What src/prover/crypto/state-management/smt_koalabear,
    src/prover/crypto/poseidon2_koalabear and src/prover/utils/types guarantee. *)

From S2P Require Export Binding SmtBuild Account.
Import Smt SmtFacts SmtBuild Binding Accumulator LeafHash.

Module SmtTheorems.

(** A scheduler that runs every worker to its end. *)
Definition fair_sched (sched : scheduler) : Prop := ∀ n ws, Parallel.Interleave ws (sched n ws).

(** The scheduler that runs the workers one after the other. *)
Definition one_by_one : scheduler := λ _ ws, concat ws.

Lemma Interleave_nil_cons {A} (ls : list (list A)) s : Parallel.Interleave ls s → Parallel.Interleave ([] :: ls) s.
Proof.
  induction 1 as [ls Hls|ls1 x l ls2 s _ IH]; [by apply Parallel.Interleave_done; constructor|].
  apply (Parallel.Interleave_step ([] :: ls1)). exact IH.
Qed.

Lemma Interleave_concat {A} (ls : list (list A)) : Parallel.Interleave ls (concat ls).
Proof.
  induction ls as [|l ls IH]; [by apply Parallel.Interleave_done|]. simpl.
  induction l as [|x l IHl]; simpl; [by apply Interleave_nil_cons|]. by apply (Parallel.Interleave_step []).
Qed.

Lemma one_by_one_fair : fair_sched one_by_one.
Proof. intros n ws. apply Interleave_concat. Qed.

Section theorems.
Context `{ElementLaws F, !Poseidon2 F} {HNZ : HashNonZero F}.
Notation oct := (KoalaOctuplet.t F).
Implicit Types (t : Tree F) (lv : Z → oct).

(** ** Trees *)

(** Updates one after the other, and the leaves they leave. *)
Definition updates t (us : list (Z * oct)) : res (Tree F) := foldM (λ t u, Update t u.1 u.2) t us.
Definition leaves_after lv (us : list (Z * oct)) : Z → oct := foldl (λ lv u, upd lv u.1 u.2) lv us.

Lemma updates_wf t lv us :
  wf t lv → Forall (λ u, 0 ≤ u.1 < 2 ^ Depth t) us →
  ∃ t', updates t us = Ok t' ∧ wf t' (leaves_after lv us) ∧ Depth t' = Depth t.
Proof.
  revert t lv. induction us as [|u us IH]; intros t lv W HF; [by exists t|].
  apply Forall_cons in HF as [Hu HF]. destruct (Update_spec t lv u.1 u.2 W Hu) as (t1 & E1 & W1 & D1).
  destruct (IH t1 (upd lv u.1 u.2) W1) as (t2 & E2 & W2 & D2); [by rewrite D1|].
  exists t2. unfold updates in *. cbn [foldM]. rewrite E1, res_bind_ret. split; [done|]. split; [done|]. by rewrite D2.
Qed.



(** C7. Building a tree in parallel: for [2^d] leaves there is one tree, the one that
    stores their Merkle nodes, which [NewTree] returns on any number of processors
    and under any interleaving of its goroutines. *)
Theorem NewTree_any_schedule d (leaves : list oct) :
  1 ≤ d ≤ 62 → zlen leaves = 2 ^ d →
  ∃ t, wf t (lv leaves) ∧ Depth t = d ∧ OccupiedLeaves t = leaves ∧
    ∀ cpus sched, fair_sched sched → NewTree cpus sched leaves = Ok t.
Proof.
  intros Hd Hl. destruct (NewTree_built d leaves Hd Hl 1 one_by_one one_by_one_fair) as (rows & D & E & B & HD).
  eexists. split; [by apply (built_wf d leaves Hd Hl D)|]. split; [done|]. split; [done|].
  intros cpus sched Hs. destruct (NewTree_built d leaves Hd Hl cpus sched Hs) as (rows' & D' & -> & B' & HD').
  by rewrite (built_unique d leaves Hd D D' rows rows' B HD B' HD').
Qed.

(** The leaves as updates from position [i] on. *)
Definition as_updates (i : Z) (leaves : list oct) : list (Z * oct) := zip (seqZ i (zlen leaves)) leaves.

Lemma as_updates_cons i x (leaves : list oct) : as_updates i (x :: leaves) = (i, x) :: as_updates (i + 1) leaves.
Proof.
  unfold as_updates. rewrite seqZ_cons by (unfold zlen; simpl; lia). simpl. do 3 f_equal; unfold zlen; simpl; lia.
Qed.

Lemma leaves_after_list leaves : ∀ i lv0 j, 0 ≤ i →
  leaves_after lv0 (as_updates i leaves) j =
    if decide (i ≤ j < i + zlen leaves) then default EmptyLeaf (leaves !! Z.to_nat (j - i)) else lv0 j.
Proof.
  induction leaves as [|x leaves IH]; intros i lv0 j Hi.
  - rewrite decide_False by (unfold zlen; simpl; lia). done.
  - rewrite as_updates_cons. unfold leaves_after in *. cbn [foldl fst snd]. rewrite IH by lia.
    assert (zlen (x :: leaves) = zlen leaves + 1) as E by (unfold zlen; simpl; lia). rewrite E.
    pose proof (zlen_nonneg leaves). unfold upd. destruct (Z.eqb_spec j i) as [->|Hne].
    + rewrite decide_False, decide_True by lia. by rewrite Z.sub_diag.
    + repeat case_decide; try lia; [|done]. replace (Z.to_nat (j - i)) with (S (Z.to_nat (j - (i + 1)))) by lia. done.
Qed.

(** [NewTree] agrees with updating an empty tree leaf by leaf: both give the same
    root, for any schedule. *)
Theorem NewTree_as_updates d (leaves : list oct) cpus sched :
  1 ≤ d ≤ 62 → zlen leaves = 2 ^ d → fair_sched sched →
  ∃ t t', NewTree cpus sched leaves = Ok t ∧ updates (NewEmptyTree [d]) (as_updates 0 leaves) = Ok t' ∧ Root t = Root t'.
Proof.
  intros Hd Hl Hs. destruct (NewTree_wf d leaves Hd Hl cpus sched Hs) as (t & E & W & D).
  destruct (NewEmptyTree_wf (F := F) d Hd) as [W0 D0].
  destruct (updates_wf _ _ (as_updates 0 leaves) W0) as (t' & E' & W' & D').
  { rewrite D0. apply Forall_forall. intros [i x] Hi. unfold as_updates in Hi. apply elem_of_zip_l in Hi.
    apply elem_of_seqZ in Hi. simpl. lia. }
  exists t, t'. split; [done|]. split; [done|]. rewrite (wf_root _ _ W), (wf_root _ _ W'), D', D0, D. apply node_ext.
  intros j Hj. rewrite Z2Nat.id in Hj by lia. rewrite leaves_after_list by lia. rewrite decide_True by lia.
  unfold lv. by rewrite Z.sub_0_r.
Qed.

(** [NewTree] of a single leaf panics, although one is a power of two: it
    allocates [depth - 1] levels with a depth of zero. *)
Theorem NewTree_single cpus sched (leaf : oct) : NewTree cpus sched [leaf] = Panic.
Proof. reflexivity. Qed.

(** ** Hashing *)

(** The digest of a stream does not depend on how it was cut: writing the bytes of
    the pieces of a vector of elements one [Write] after the other and summing gives
    [HashVec] of the whole vector, and for whole blocks this is the Merkle-Damgard
    chain of the compression function. *)
Theorem hash_stream (pieces : list (list F)) (blocks : list oct) :
  concat pieces = concat (vec_to_list <$> blocks) →
  (MDHasher.SumElement (MDHasher.write_all MDHasher.NewMDHasher ((λ es, concat (el_bytes <$> es)) <$> pieces))).1
    = MDHasher.HashVec (concat pieces) ∧
  MDHasher.HashVec (concat pieces) = foldl CompressPoseidon2 KoalaOctuplet.zero blocks.
Proof.
  intros E. rewrite write_all_elems. split; [done|]. rewrite E. apply MDHasher.HashVec_blocks.
Qed.

(** [Reset] keeps what was written: the digest after a reset of a new hasher is the
    one of the elements written before the reset, although its comment says that it
    clears the buffer. *)
Theorem Reset_keeps_buffer (l : list F) :
  (MDHasher.SumElement (MDHasher.Reset (MDHasher.WriteElements MDHasher.NewMDHasher l))).1 = MDHasher.HashVec l.
Proof. reflexivity. Qed.

(** The digest of a leaf opening binds its four fields: two openings with the same
    digest are equal, or the chains of their blocks hold a collision of the
    compression function. *)
Theorem leaf_binds (l l' : LeafOpening F) :
  opening_ok l → opening_ok l' → Hash l = Hash l' →
  l = l' ∨ ∃ c, md_collision KoalaOctuplet.zero KoalaOctuplet.zero (leaf_blocks l) (leaf_blocks l') = Some c ∧ collision c.
Proof.
  intros Hl Hl'. rewrite !Hash_leaf. intros [= E]. destruct (decide (leaf_blocks l = leaf_blocks l')) as [Eb|Hne].
  - left. by apply leaf_blocks_inj.
  - right. destruct (md_collision_complete KoalaOctuplet.zero KoalaOctuplet.zero (leaf_blocks l) (leaf_blocks l')) as [c Hc].
    + unfold leaf_blocks. by rewrite !to_blocks_length.
    + congruence.
    + exact E.
    + exists c. split; [done|]. by eapply md_collision_sound.
Qed.

(** ** Encodings *)

(** Octuplets and their bytes: 32 bytes are accepted as an octuplet exactly when
    they are its canonical encoding, and [ReadFrom] gives back what [WriteTo] wrote
    and consumes nothing else. *)
Theorem octuplet_roundtrip (e o : oct) (b rest : list Z) :
  Forall is_byte b →
  (KoalaOctuplet.MustBytesToKoalaOctuplet b = Ok o ↔ b = KoalaOctuplet.ToBytes o) ∧
  write_calls o = Ok [KoalaOctuplet.ToBytes o] ∧
  KoalaOctuplet.ReadFrom e (KoalaOctuplet.ToBytes o ++ rest) = ((o, 32, None), rest).
Proof.
  intros Hb. split; [|split; [done|apply KoalaOctuplet.ReadFrom_ToBytes]].
  split; [|intros ->; apply KoalaOctuplet.MustBytesToKoalaOctuplet_ToBytes].
  unfold KoalaOctuplet.MustBytesToKoalaOctuplet, KoalaOctuplet.BytesToKoalaOctuplet.
  destruct (KoalaOctuplet.SetBytes KoalaOctuplet.zero b) as [o' [err|]] eqn:E; [done|]. intros [= ->].
  by apply KoalaOctuplet.SetBytes_canonical in E.
Qed.
End theorems.

(** The 64-byte words: a non-negative [int64] and a non-negative integer of 256 bits
    read back as they were written, and a negative [int64] loses its sign bit. *)
Theorem words_roundtrip x b rest :
  in_int64 x → 0 ≤ b < 2 ^ 256 →
  (∃ w, Common.WriteInt64On64Bytes x = Ok w ∧
     Common.ReadInt64On64Bytes (concat w ++ rest) = Ok ((if decide (0 ≤ x) then x else x + 2 ^ 63, 64, None), rest)) ∧
  (∃ w, Common.WriteBigIntOn64Bytes b = Ok w ∧ Common.ReadBigIntOn64Bytes (concat w ++ rest) = Ok ((b, None), rest)) ∧
  (∃ w, Common.WriteBigIntOn32Bytes b = Ok w ∧ Common.ReadBigIntOn32Bytes (concat w ++ rest) = ((b, None), rest)).
Proof.
  intros Hx Hb. split; [|split].
  - eexists. split; [apply Common.WriteInt64On64Bytes_spec|]. cbn [concat]. rewrite app_nil_r, Common.ReadInt64On64Bytes_word.
    unfold in_int64 in Hx. do 4 f_equal. case_decide; [apply Z.mod_small; lia|].
    symmetry. apply (Z.mod_unique x (2 ^ 63) (-1)); lia.
  - eexists. split; [by apply Common.WriteBigIntOn64Bytes_spec|]. cbn [concat]. rewrite app_nil_r. by apply Common.ReadBigIntOn64Bytes_word.
  - by apply Common.ReadBigIntOn32Bytes_written.
Qed.

(** ** Applications *)

Section witnesses.
Import Toy.

Definition four : list oct := [word [1]; word [2]; word [3]; word [4]].


(** Two proofs of leaf 1 of the tree of [four]. *)
Definition proof_one : Proof F := {| Path := 1; Siblings := [word [1]; parent (word [3]) (word [4])] |}.

Definition root_four : oct := parent (parent (word [1]) (word [2])) (parent (word [3]) (word [4])).


Lemma NewTree_any_schedule_witness :
  ∃ t, wf t (lv four) ∧ NewTree 8 one_by_one four = Ok t ∧ NewTree 1 one_by_one four = Ok t.
Proof.
  destruct (NewTree_any_schedule 2 four ltac:(lia) eq_refl) as (t & W & _ & _ & HE). exists t. split; [exact W|].
  split; apply HE, one_by_one_fair.
Defined.

Lemma NewTree_as_updates_witness :
  ∃ t t', NewTree 8 one_by_one four = Ok t ∧ updates (NewEmptyTree [2]) (as_updates 0 four) = Ok t' ∧ Root t = Root t'.
Proof. exact (NewTree_as_updates 2 four 8 one_by_one ltac:(lia) eq_refl one_by_one_fair). Defined.

(** A block in two pieces. *)
Definition piece_a : list F := [el_of_Z 1; el_of_Z 2; el_of_Z 3].
Definition piece_b : list F := [el_of_Z 4; el_of_Z 5; el_of_Z 6; el_of_Z 7; el_of_Z 8].

Lemma hash_stream_witness :
  (MDHasher.SumElement (MDHasher.write_all MDHasher.NewMDHasher ((λ es, concat (el_bytes <$> es)) <$> [piece_a; piece_b]))).1
    = CompressPoseidon2 KoalaOctuplet.zero (word [1; 2; 3; 4; 5; 6; 7; 8]).
Proof.
  destruct (hash_stream [piece_a; piece_b] [word [1; 2; 3; 4; 5; 6; 7; 8]]) as [E1 E2]; [vm_compute; reflexivity|].
  rewrite E1. exact E2.
Defined.

Definition opening_one : LeafOpening F := mkOpening 0 1 (word [1]) (word [2]).

Lemma leaf_binds_witness :
  opening_ok opening_one ∧
  (opening_one = opening_one ∨
   ∃ c, md_collision KoalaOctuplet.zero KoalaOctuplet.zero (leaf_blocks opening_one) (leaf_blocks opening_one) = Some c ∧ collision c).
Proof.
  assert (opening_ok opening_one) as Ho by (split; unfold in_int64; simpl; lia). split; [exact Ho|].
  exact (leaf_binds opening_one opening_one Ho Ho eq_refl).
Defined.

Lemma octuplet_roundtrip_witness :
  KoalaOctuplet.MustBytesToKoalaOctuplet (KoalaOctuplet.ToBytes (word [1; 2])) = Ok (word [1; 2]).
Proof.
  destruct (octuplet_roundtrip (word []) (word [1; 2]) (KoalaOctuplet.ToBytes (word [1; 2])) []
    (KoalaOctuplet.ToBytes_is_byte _)) as [E _].
  by apply E.
Defined.

Lemma words_roundtrip_witness :
  ∃ w, Common.WriteInt64On64Bytes (-3) = Ok w ∧ Common.ReadInt64On64Bytes (concat w ++ []) = Ok ((2 ^ 63 - 3, 64, None), []).
Proof.
  destruct (words_roundtrip (-3) 0 [] ltac:(unfold in_int64; lia) ltac:(lia)) as [(w & E1 & E2) _].
  exists w. split; [exact E1|]. exact E2.
Defined.
End witnesses.
End SmtTheorems.
