(* ===== verification/AccumulatorFacts.v ===== *)
(** * The sorted linked list of the accumulator

    The leaf openings of an accumulator form a doubly linked list sorted by the
    hashes of the keys, from the head (leaf 0) to the tail (leaf 1). [linked] is
    that invariant on the assignment of openings to leaves; inserting between two
    neighbours, unlinking a leaf and changing a value preserve it. *)

From S2P Require Export Account.
Import Smt Accumulator.

Module SortedList.
Section sorted.
Context `{ElementLaws F, !Poseidon2 F}.
Notation oct := (KoalaOctuplet.t F).
Notation opening := (LeafOpening F).
Notation lt := KoalaOctuplet.lt.
Implicit Types (o : Z → option opening) (l : opening).

Record linked o : Prop := {
  lk_head : ∃ l, o 0 = Some l ∧ HKey l = KoalaOctuplet.zero ∧ Prev l = 0;
  lk_tail : ∃ l, o 1 = Some l ∧ HKey l = KoalaOctuplet.MaxKoalaOctuplet ∧ Next l = 1;
  lk_next i l : o i = Some l → i ≠ 1 →
    ∃ l', o (Next l) = Some l' ∧ Prev l' = i ∧ lt (HKey l) (HKey l');
  lk_prev i l : o i = Some l → i ≠ 0 → Prev l ≠ 1 ∧ ∃ l', o (Prev l) = Some l' ∧ Next l' = i;
  lk_gap i l l' j m : o i = Some l → i ≠ 1 → o (Next l) = Some l' → o j = Some m →
    lt (HKey l) (HKey m) → lt (HKey m) (HKey l') → False;
  lk_inj i j l m : o i = Some l → o j = Some m → HKey l = HKey m → i = j
}.

Definition set o (i : Z) (x : option opening) : Z → option opening := λ j, if decide (j = i) then x else o j.

Lemma linked_ext o o' : (∀ i, o i = o' i) → linked o → linked o'.
Proof.
  intros E [L1 L2 L3 L4 L5 L6]. split.
  - by rewrite <-E.
  - by rewrite <-E.
  - intros i l. rewrite <-!E. apply L3.
  - intros i l. rewrite <-!E. apply L4.
  - intros i l l' j m. rewrite <-!E. apply L5.
  - intros i j l m. rewrite <-!E. apply L6.
Qed.

(** Keys between the bounds of the head and the tail. *)
Definition inner (hk : oct) : Prop := hk ≠ KoalaOctuplet.zero ∧ hk ≠ KoalaOctuplet.MaxKoalaOctuplet.

(** The two leaves a new key goes between. *)
Definition sandwich o (hk : oct) (iM iP : Z) (lM lP : opening) : Prop :=
  o iM = Some lM ∧ o iP = Some lP ∧ Next lM = iP ∧ Prev lP = iM ∧ iM ≠ 1 ∧ iP ≠ 0 ∧
  lt (HKey lM) hk ∧ lt hk (HKey lP).

Definition insert_at o (n iM iP : Z) (hk hv : oct) (lM lP : opening) : Z → option opening :=
  set (set (set o iM (Some (opening_CopyWithNext lM n))) n (Some (mkOpening iM iP hk hv)))
    iP (Some (opening_CopyWithPrev lP n)).

Definition remove_at o (i : Z) (l lM lP : opening) : Z → option opening :=
  set (set (set o (Prev l) (Some (opening_CopyWithNext lM (Next l)))) i None)
    (Next l) (Some (opening_CopyWithPrev lP (Prev l))).

Lemma lt_ne (a b : oct) : lt a b → a ≠ b.
Proof. intros L ->. by apply (KoalaOctuplet.lt_irrefl b). Qed.

(** No leaf of a list in order holds a key strictly inside a sandwich. *)
Lemma sandwich_absent o hk iM iP lM lP :
  linked o → sandwich o hk iM iP lM lP → ∀ j m, o j = Some m → HKey m ≠ hk.
Proof.
  intros L (HM & HP & HN & _ & HiM & _ & H1 & H2) j m Hj E. subst iP hk.
  by apply (lk_gap _ L iM lM lP j m).
Qed.

Lemma sandwich_ne o hk iM iP lM lP : sandwich o hk iM iP lM lP → iM ≠ iP.
Proof.
  intros (HM & HP & _ & _ & _ & _ & H1 & H2) ->. simplify_eq.
  by eapply KoalaOctuplet.lt_asym.
Qed.

(** The opening at a leaf after an insertion: one of three new ones or an old one. *)
Lemma insert_at_Some o n iM iP hk hv lM lP i l :
  insert_at o n iM iP hk hv lM lP i = Some l →
  (i = iP ∧ l = opening_CopyWithPrev lP n) ∨
  (i ≠ iP ∧ i = n ∧ l = mkOpening iM iP hk hv) ∨
  (i ≠ iP ∧ i ≠ n ∧ i = iM ∧ l = opening_CopyWithNext lM n) ∨
  (i ≠ iP ∧ i ≠ n ∧ i ≠ iM ∧ o i = Some l).
Proof. unfold insert_at, set. repeat case_decide; naive_solver. Qed.

(** The keys after an insertion. *)
Lemma insert_at_key o n iM iP hk hv lM lP i l :
  sandwich o hk iM iP lM lP → o n = None →
  insert_at o n iM iP hk hv lM lP i = Some l →
  (i = n ∧ HKey l = hk) ∨ (i ≠ n ∧ ∃ l0, o i = Some l0 ∧ HKey l0 = HKey l).
Proof.
  intros (HM & HP & _) Hn E. apply insert_at_Some in E.
  destruct E as [[-> ->]|[(_ & -> & ->)|[(_ & Hne & -> & ->)|(_ & Hne & _ & E)]]].
  - right. split; [intros ->; congruence|by exists lP].
  - by left.
  - right. split; [done|]. by exists lM.
  - right. split; [done|]. by exists l.
Qed.

Lemma insert_at_P o n iM iP hk hv lM lP :
  insert_at o n iM iP hk hv lM lP iP = Some (opening_CopyWithPrev lP n).
Proof. unfold insert_at, set. repeat case_decide; congruence. Qed.

Lemma insert_at_new o n iM iP hk hv lM lP :
  n ≠ iP → insert_at o n iM iP hk hv lM lP n = Some (mkOpening iM iP hk hv).
Proof. intros. unfold insert_at, set. repeat case_decide; congruence. Qed.

Lemma insert_at_M o n iM iP hk hv lM lP :
  iM ≠ iP → iM ≠ n → insert_at o n iM iP hk hv lM lP iM = Some (opening_CopyWithNext lM n).
Proof. intros. unfold insert_at, set. repeat case_decide; congruence. Qed.

Lemma insert_at_ne o n iM iP hk hv lM lP i :
  i ≠ iP → i ≠ n → i ≠ iM → insert_at o n iM iP hk hv lM lP i = o i.
Proof. intros. unfold insert_at, set. repeat case_decide; congruence. Qed.

(** Reading a list one of whose pointers was changed: the key is the old one. *)
Lemma insert_at_old o n iM iP hk hv lM lP i l :
  o n = None → sandwich o hk iM iP lM lP → o i = Some l →
  ∃ l', insert_at o n iM iP hk hv lM lP i = Some l' ∧ HKey l' = HKey l ∧
    (i ≠ iM → Next l' = Next l) ∧ (i ≠ iP → Prev l' = Prev l).
Proof.
  intros Hn S Hi. pose proof (sandwich_ne _ _ _ _ _ _ S). destruct S as (HM & HP & _).
  assert (i ≠ n) by congruence.
  destruct (decide (i = iP)) as [->|]; [|destruct (decide (i = iM)) as [->|]].
  - rewrite insert_at_P. simplify_eq. eexists. done.
  - rewrite insert_at_M by done. simplify_eq. eexists. done.
  - rewrite insert_at_ne by done. eauto.
Qed.

Section insert.
Context o (n iM iP : Z) (hk hv : oct) (lM lP : opening).
Hypothesis (L : linked o) (S : sandwich o hk iM iP lM lP) (Hn : o n = None).
Let o' := insert_at o n iM iP hk hv lM lP.

Lemma insert_next i l : o' i = Some l → i ≠ 1 →
  ∃ l', o' (Next l) = Some l' ∧ Prev l' = i ∧ lt (HKey l) (HKey l').
Proof.
  pose proof (sandwich_ne _ _ _ _ _ _ S) as HMP. pose proof S as (HM & HP & HNx & HPv & Hi1 & Hi0 & K1 & K2).
  intros E Hi. apply insert_at_Some in E as [[-> ->]|[(_ & -> & ->)|[(_ & _ & -> & ->)|(Ha & Hb & Hc & E)]]].
  - destruct (lk_next _ L iP lP HP Hi) as (l' & E' & EP & Hlt).
    destruct (insert_at_old o n iM iP hk hv lM lP _ _ Hn S E') as (l1 & E1 & EK & _ & EPv).
    exists l1. simpl. rewrite EK, EPv; [done|]. intros Hx. rewrite Hx in E'. simplify_eq.
  - simpl. exists (opening_CopyWithPrev lP n). split; [apply insert_at_P|done].
  - simpl. exists (mkOpening iM iP hk hv). split; [apply insert_at_new; congruence|done].
  - destruct (lk_next _ L i l E Hi) as (l' & E' & EP & Hlt).
    destruct (insert_at_old o n iM iP hk hv lM lP _ _ Hn S E') as (l1 & E1 & EK & _ & EPv).
    exists l1. rewrite EK, EPv; [done|]. intros Hx. rewrite Hx in E'. simplify_eq.
Qed.

Lemma insert_prev i l : o' i = Some l → i ≠ 0 → Prev l ≠ 1 ∧ ∃ l', o' (Prev l) = Some l' ∧ Next l' = i.
Proof.
  pose proof (sandwich_ne _ _ _ _ _ _ S) as HMP. pose proof S as (HM & HP & HNx & HPv & Hi1 & Hi0 & K1 & K2).
  destruct (lk_tail _ L) as (lt & Et & _).
  intros E Hi. apply insert_at_Some in E as [[-> ->]|[(_ & -> & ->)|[(_ & Hb & -> & ->)|(Ha & Hb & Hc & E)]]]; simpl.
  - split; [congruence|]. exists (mkOpening iM iP hk hv). split; [apply insert_at_new; congruence|done].
  - split; [done|]. exists (opening_CopyWithNext lM n). split; [apply insert_at_M; congruence|done].
  - destruct (lk_prev _ L iM lM HM Hi) as (Hp & l' & E' & EN). split; [done|].
    destruct (insert_at_old o n iM iP hk hv lM lP _ _ Hn S E') as (l1 & E1 & _ & ENx & _).
    exists l1. rewrite ENx; [done|]. intros Hx. rewrite Hx in E'. simplify_eq.
  - destruct (lk_prev _ L i l E Hi) as (Hp & l' & E' & EN). split; [done|].
    destruct (insert_at_old o n iM iP hk hv lM lP _ _ Hn S E') as (l1 & E1 & _ & ENx & _).
    exists l1. rewrite ENx; [done|]. intros Hx. rewrite Hx in E'. simplify_eq.
Qed.

(** A key that is not in the list lies in the gap after [iM] only. *)
Lemma gap_unique i l l' :
  o i = Some l → i ≠ 1 → o (Next l) = Some l' → lt (HKey l) hk → lt hk (HKey l') → i = iM.
Proof.
  pose proof S as (HM & HP & HNx & _ & Hi1 & _ & K1 & K2). intros E Hi E' H1 H2.
  destruct (KoalaOctuplet.lt_total (HKey l) (HKey lM)) as [C|[C|C]].
  - exfalso. apply (lk_gap _ L i l l' iM lM); try done. by eapply KoalaOctuplet.lt_trans.
  - by apply (lk_inj _ L i iM l lM).
  - exfalso. rewrite <-HNx in HP. apply (lk_gap _ L iM lM lP i l); try done. by eapply KoalaOctuplet.lt_trans.
Qed.

(** An opening that is neither new nor the left neighbour keeps its key and successor. *)
Lemma insert_back i l :
  o' i = Some l → i ≠ n → i ≠ iM → ∃ l0, o i = Some l0 ∧ HKey l = HKey l0 ∧ Next l = Next l0.
Proof.
  pose proof S as (HM & HP & _). intros E Hin HiM.
  apply insert_at_Some in E as [[-> ->]|[(_ & -> & ->)|[(_ & Hb & -> & ->)|(Ha & Hb & Hc & E)]]];
    [by exists lP|done|done|by exists l].
Qed.

Lemma insert_gap i l l' j m :
  o' i = Some l → i ≠ 1 → o' (Next l) = Some l' → o' j = Some m →
  lt (HKey l) (HKey m) → lt (HKey m) (HKey l') → False.
Proof.
  pose proof (sandwich_ne _ _ _ _ _ _ S) as HMP. pose proof S as (HM & HP & HNx & HPv & Hi1 & Hi0 & K1 & K2).
  assert (HnP : n ≠ iP) by congruence. assert (HP' : o (Next lM) = Some lP) by congruence.
  intros Ei Hi El Ej H1 H2.
  destruct (insert_at_key _ _ _ _ _ _ _ _ _ _ S Hn Ej) as [(-> & Em)|(_ & m0 & Em0 & Em)].
  all: destruct (decide (i = n)) as [->|Hin]; [|destruct (decide (i = iM)) as [->|HiM]].
  1,4: unfold o' in *; rewrite insert_at_new in Ei by done; injection Ei as <-; simpl in *;
    rewrite insert_at_P in El; injection El as <-; simpl in *.
  3,5: unfold o' in *; rewrite insert_at_M in Ei by congruence; injection Ei as <-; simpl in *;
    rewrite insert_at_new in El by done; injection El as <-; simpl in *.
  - rewrite Em in H1. by eapply KoalaOctuplet.lt_irrefl.
  - apply (lk_gap _ L iM lM lP j m0); rewrite ?Em; try done. by eapply KoalaOctuplet.lt_trans.
  - rewrite Em in H2. by eapply KoalaOctuplet.lt_irrefl.
  - apply (lk_gap _ L iM lM lP j m0); rewrite ?Em; try done. by eapply KoalaOctuplet.lt_trans.
  - destruct (insert_back _ _ Ei Hin HiM) as (l0 & E0 & EK & EN). rewrite EN in El.
    destruct (lk_next _ L i l0 E0 Hi) as (l1 & E1 & _ & _).
    destruct (insert_at_old o n iM iP hk hv lM lP _ _ Hn S E1) as (l2 & E2 & EK2 & _).
    assert (l' = l2) as -> by (unfold o' in El; congruence). apply HiM. apply (gap_unique i l0 l1); congruence.
  - destruct (insert_back _ _ Ei Hin HiM) as (l0 & E0 & EK & EN). rewrite EN in El.
    destruct (lk_next _ L i l0 E0 Hi) as (l1 & E1 & _ & _).
    destruct (insert_at_old o n iM iP hk hv lM lP _ _ Hn S E1) as (l2 & E2 & EK2 & _).
    assert (l' = l2) as -> by (unfold o' in El; congruence). apply (lk_gap _ L i l0 l1 j m0); congruence.
Qed.

Lemma linked_insert : linked o'.
Proof.
  pose proof S as (HM & HP & HNx & HPv & Hi1 & Hi0 & K1 & K2). split.
  - destruct (lk_head _ L) as (l & E & Ek & Ep).
    destruct (insert_at_old o n iM iP hk hv lM lP _ _ Hn S E) as (l1 & E1 & EK & _ & EPv).
    exists l1. rewrite EK, EPv by done. done.
  - destruct (lk_tail _ L) as (l & E & Ek & Ep).
    destruct (insert_at_old o n iM iP hk hv lM lP _ _ Hn S E) as (l1 & E1 & EK & ENx & _).
    exists l1. rewrite EK, ENx by done. done.
  - apply insert_next.
  - apply insert_prev.
  - apply insert_gap.
  - intros i j l m Ei Ej E.
    destruct (insert_at_key _ _ _ _ _ _ _ _ _ _ S Hn Ei) as [(-> & El)|(Hi & l0 & El0 & El)],
      (insert_at_key _ _ _ _ _ _ _ _ _ _ S Hn Ej) as [(-> & Em)|(Hj & m0 & Em0 & Em)].
    + done.
    + exfalso. apply (sandwich_absent _ _ _ _ _ _ L S j m0 Em0). congruence.
    + exfalso. apply (sandwich_absent _ _ _ _ _ _ L S i l0 El0). congruence.
    + apply (lk_inj _ L i j l0 m0); congruence.
Qed.
End insert.

(** ** Unlinking a leaf *)

Section remove.
Context o (i : Z) (l lM lP : opening).
Hypothesis (L : linked o) (Ei : o i = Some l) (Hi0 : i ≠ 0) (Hi1 : i ≠ 1).
Hypothesis (EM : o (Prev l) = Some lM) (EP : o (Next l) = Some lP).
Let o' := remove_at o i l lM lP.

(** The leaf sits between its two neighbours. *)
Lemma neighbours :
  Next lM = i ∧ Prev lP = i ∧ Prev l ≠ 1 ∧ Next l ≠ 0 ∧ lt (HKey lM) (HKey l) ∧ lt (HKey l) (HKey lP).
Proof.
  destruct (lk_prev _ L i l Ei Hi0) as (Hp & l1 & E1 & N1). assert (l1 = lM) as -> by congruence.
  destruct (lk_next _ L i l Ei Hi1) as (l2 & E2 & P2 & K2). assert (l2 = lP) as -> by congruence.
  destruct (lk_next _ L _ lM EM Hp) as (l3 & E3 & P3 & K3). assert (l3 = l) as -> by congruence.
  repeat split; try done. destruct (lk_head _ L) as (h & Eh & _ & Hh). intros E0. congruence.
Qed.

Lemma neighbours_ne : Prev l ≠ i ∧ Next l ≠ i ∧ Prev l ≠ Next l.
Proof.
  destruct neighbours as (_ & _ & _ & _ & K1 & K2). repeat split; intros E.
  - assert (lM = l) as E' by congruence. rewrite E' in K1. by eapply KoalaOctuplet.lt_irrefl.
  - assert (lP = l) as E' by congruence. rewrite E' in K2. by eapply KoalaOctuplet.lt_irrefl.
  - assert (lM = lP) as E' by congruence. rewrite E' in K1. by eapply KoalaOctuplet.lt_asym.
Qed.

Lemma remove_old j m :
  o j = Some m → j ≠ i →
  ∃ m', o' j = Some m' ∧ HKey m' = HKey m ∧
    (j ≠ Prev l → Next m' = Next m) ∧ (j ≠ Next l → Prev m' = Prev m).
Proof.
  intros Ej Hj. destruct neighbours_ne as (N1 & N2 & N3). unfold o', remove_at, set.
  destruct (decide (j = Next l)) as [->|]; [|destruct (decide (j = i)) as [->|]; [done|];
    destruct (decide (j = Prev l)) as [->|]].
  - exists (opening_CopyWithPrev lP (Prev l)). by replace m with lP by congruence.
  - exists (opening_CopyWithNext lM (Next l)). by replace m with lM by congruence.
  - by exists m.
Qed.

Lemma remove_back j m :
  o' j = Some m → j ≠ i ∧ ∃ m0, o j = Some m0 ∧ HKey m = HKey m0 ∧
    (j ≠ Prev l → Next m = Next m0) ∧ (j ≠ Next l → Prev m = Prev m0).
Proof.
  destruct neighbours_ne as (N1 & N2 & N3). unfold o', remove_at, set.
  destruct (decide (j = Next l)) as [->|]; [|destruct (decide (j = i)) as [->|]; [done|];
    destruct (decide (j = Prev l)) as [->|]].
  - intros [= <-]. split; [done|]. by exists lP.
  - intros [= <-]. split; [done|]. by exists lM.
  - intros Ej. split; [done|]. by exists m.
Qed.

Lemma remove_at_M : o' (Prev l) = Some (opening_CopyWithNext lM (Next l)).
Proof. destruct neighbours_ne as (? & ? & ?). unfold o', remove_at, set. repeat case_decide; congruence. Qed.

Lemma remove_at_P : o' (Next l) = Some (opening_CopyWithPrev lP (Prev l)).
Proof. destruct neighbours_ne as (? & ? & ?). unfold o', remove_at, set. repeat case_decide; congruence. Qed.

Lemma remove_next j m : o' j = Some m → j ≠ 1 →
  ∃ m', o' (Next m) = Some m' ∧ Prev m' = j ∧ lt (HKey m) (HKey m').
Proof.
  intros Ej Hj. destruct neighbours as (NM & PP & _ & _ & K1 & K2).
  destruct (decide (j = Prev l)) as [->|Hne].
  - rewrite remove_at_M in Ej. injection Ej as <-. simpl. rewrite remove_at_P.
    eexists. split; [done|]. split; [done|]. by eapply KoalaOctuplet.lt_trans.
  - destruct (remove_back _ _ Ej) as (Hji & m0 & E0 & EK & EN & _). rewrite EK, (EN Hne).
    destruct (lk_next _ L j m0 E0 Hj) as (m1 & E1 & P1 & Hlt).
    destruct (remove_old (Next m0) m1 E1) as (m2 & E2 & EK2 & _ & EP2); [congruence|].
    exists m2. rewrite EK2, EP2; [done|]. intros Hx. congruence.
Qed.

Lemma remove_prev j m : o' j = Some m → j ≠ 0 → Prev m ≠ 1 ∧ ∃ m', o' (Prev m) = Some m' ∧ Next m' = j.
Proof.
  intros Ej Hj. destruct neighbours as (NM & PP & Hp & _).
  destruct (decide (j = Next l)) as [->|Hne].
  - rewrite remove_at_P in Ej. injection Ej as <-. simpl. rewrite remove_at_M. eauto.
  - destruct (remove_back _ _ Ej) as (Hji & m0 & E0 & EK & _ & EP0). rewrite (EP0 Hne).
    destruct (lk_prev _ L j m0 E0 Hj) as (Hp0 & m1 & E1 & N1). split; [done|].
    destruct (remove_old (Prev m0) m1 E1) as (m2 & E2 & _ & EN2 & _); [congruence|].
    exists m2. rewrite EN2; [done|]. intros Hx. congruence.
Qed.

Lemma remove_gap j m m' k x :
  o' j = Some m → j ≠ 1 → o' (Next m) = Some m' → o' k = Some x →
  lt (HKey m) (HKey x) → lt (HKey x) (HKey m') → False.
Proof.
  intros Ej Hj Em' Ek H1 H2. destruct neighbours as (NM & PP & Hp & _ & K1 & K2).
  destruct (remove_back _ _ Ek) as (Hk & x0 & E0 & EK & _). rewrite EK in *.
  destruct (decide (j = Prev l)) as [->|Hne].
  - rewrite remove_at_M in Ej. injection Ej as <-. simpl in *. rewrite remove_at_P in Em'. injection Em' as <-.
    simpl in *. destruct (KoalaOctuplet.lt_total (HKey x0) (HKey l)) as [C|[C|C]].
    + apply (lk_gap _ L (Prev l) lM l k x0); congruence.
    + apply Hk. by apply (lk_inj _ L k i x0 l).
    + by apply (lk_gap _ L i l lP k x0).
  - destruct (remove_back _ _ Ej) as (Hji & m0 & Em0 & EK0 & EN & _). rewrite (EN Hne) in Em'.
    destruct (remove_back _ _ Em') as (Hm & m1 & E1 & EK1 & _).
    apply (lk_gap _ L j m0 m1 k x0); congruence.
Qed.

Lemma linked_remove : linked o'.
Proof.
  destruct neighbours as (NM & PP & Hp & Hn & K1 & K2). split.
  - destruct (lk_head _ L) as (h & E & Ek & Ep).
    destruct (remove_old 0 h E ltac:(congruence)) as (h1 & E1 & EK & _ & EPv).
    exists h1. rewrite EK, EPv by congruence. done.
  - destruct (lk_tail _ L) as (h & E & Ek & Ep).
    destruct (remove_old 1 h E ltac:(congruence)) as (h1 & E1 & EK & ENx & _).
    exists h1. rewrite EK, ENx by congruence. done.
  - apply remove_next.
  - apply remove_prev.
  - apply remove_gap.
  - intros j k m x Ej Ek E. destruct (remove_back _ _ Ej) as (_ & m0 & Em0 & EKm & _).
    destruct (remove_back _ _ Ek) as (_ & x0 & Ex0 & EKx & _). apply (lk_inj _ L j k m0 x0); congruence.
Qed.
End remove.

(** ** Changing a value *)

Lemma linked_set_val o i l hv : linked o → o i = Some l → linked (set o i (Some (with_HVal l hv))).
Proof.
  intros L Ei.
  assert (Hold : ∀ j m, o j = Some m → ∃ m', set o i (Some (with_HVal l hv)) j = Some m' ∧
    HKey m' = HKey m ∧ Next m' = Next m ∧ Prev m' = Prev m).
  { intros j m Ej. unfold set. case_decide; [|by exists m]. exists (with_HVal l hv). simplify_eq. done. }
  assert (Hback : ∀ j m, set o i (Some (with_HVal l hv)) j = Some m → ∃ m0, o j = Some m0 ∧
    HKey m = HKey m0 ∧ Next m = Next m0 ∧ Prev m = Prev m0).
  { intros j m. unfold set. case_decide; [|by exists m]. intros [= <-]. exists l. by subst. }
  split.
  - destruct (lk_head _ L) as (h & E & Ek & Ep). destruct (Hold _ _ E) as (h' & E' & EK & EN & EPv).
    exists h'. by rewrite EK, EPv.
  - destruct (lk_tail _ L) as (h & E & Ek & Ep). destruct (Hold _ _ E) as (h' & E' & EK & EN & EPv).
    exists h'. by rewrite EK, EN.
  - intros j m Ej Hj. destruct (Hback _ _ Ej) as (m0 & E0 & EK & EN & EPv). rewrite EK, EN.
    destruct (lk_next _ L j m0 E0 Hj) as (m1 & E1 & P1 & K1). destruct (Hold _ _ E1) as (m2 & E2 & EK2 & _ & EP2).
    exists m2. by rewrite EK2, EP2.
  - intros j m Ej Hj. destruct (Hback _ _ Ej) as (m0 & E0 & EK & EN & EPv). rewrite EPv.
    destruct (lk_prev _ L j m0 E0 Hj) as (P0 & m1 & E1 & N1). destruct (Hold _ _ E1) as (m2 & E2 & _ & EN2 & _).
    split; [done|]. exists m2. by rewrite EN2.
  - intros j m m' k x Ej Hj Em Ek. destruct (Hback _ _ Ej) as (m0 & E0 & EK & EN & _). rewrite EN in Em.
    destruct (Hback _ _ Em) as (m1 & E1 & EK1 & _). destruct (Hback _ _ Ek) as (x0 & Ex0 & EKx & _).
    rewrite EK, EK1, EKx. by apply (lk_gap _ L j m0 m1 k x0).
  - intros j k m x Ej Ek E. destruct (Hback _ _ Ej) as (m0 & Em0 & EKm & _).
    destruct (Hback _ _ Ek) as (x0 & Ex0 & EKx & _). apply (lk_inj _ L j k m0 x0); congruence.
Qed.
End sorted.
End SortedList.

(** * The invariant of the prover state

    [Inv p] ties the tree, the tuples and the counter of a [ProverState]: the tree
    stores the hashes of the openings, the openings form a sorted linked list, the
    tuples carry the values their openings commit to. This file proves what the
    private methods ([FindKey], [findSandwich], [upsertTuple], [rmTuple]) compute
    on such a state. *)


Import Smt SmtFacts Accumulator LeafHash SortedList.

Module AccumulatorFacts.

(** The depth of the trees of the accumulator, the default of [NewEmptyTree]. It is
    kept folded: nothing should unfold a tree with 2^40 leaves. *)
Definition depth : nat := Z.to_nat 40.

Lemma depth_eq : Z.to_nat 40 = depth.
Proof. done. Qed.

Lemma depth_Z : Z.of_nat depth = 40.
Proof. done. Qed.

#[global] Opaque depth.

Section facts.
Context `{ElementLaws F, !Poseidon2 F} `{WriterTo K, WriterTo V}.
Notation oct := (KoalaOctuplet.t F).
Notation opening := (LeafOpening F).
Notation tuple := (KVOpeningTuple F K V).
Notation lt := KoalaOctuplet.lt.
Implicit Types (p : ProverState F K V) (m : gmap Z tuple) (t : tuple) (hk : oct).

Definition tuples p : gmap Z tuple := Mapping.InnerMap (Data p).

Definition openings m : Z → option opening := λ i, Opening <$> m !! i.

(** The leaves of the tree. *)
Definition leaves m : Z → oct := λ i,
  match m !! i with Some t => leaf_hash (Opening t) | None => EmptyLeaf end.

Definition tuple_ok t : Prop :=
  inner (HKey (Opening t)) ∧ hash (Key t) = Ok (HKey (Opening t)) ∧ hash (Value t) = Ok (HVal (Opening t)).

Record Inv p : Prop := {
  inv_tree : wf (PTree p) (leaves (tuples p));
  inv_depth : Depth (PTree p) = 40;
  inv_next : 2 ≤ NextFreeNode p ≤ 2 ^ 40;
  inv_dom i t : tuples p !! i = Some t → 0 ≤ i < NextFreeNode p;
  inv_linked : linked (openings (tuples p));
  inv_tuple i t : tuples p !! i = Some t → 2 ≤ i → tuple_ok t
}.

(** ** Tuples *)

Lemma oct_eqb_true (a b : oct) : oct_eqb a b = true ↔ a = b.
Proof. apply bool_decide_eq_true. Qed.

Lemma oct_eqb_refl (a : oct) : oct_eqb a a = true.
Proof. by apply oct_eqb_true. Qed.

Lemma oct_eqb_false (a b : oct) : oct_eqb a b = false ↔ a ≠ b.
Proof. apply bool_decide_eq_false. Qed.

Lemma HeadOrTail_false (l : opening) : HeadOrTail l = false ↔ inner (HKey l).
Proof.
  unfold HeadOrTail, inner. rewrite orb_false_iff, oct_eqb_false, <-not_true_iff_false.
  rewrite KoalaOctuplet.IsMaxOctuplet_spec. naive_solver.
Qed.

(** A tuple [CheckAndLeaf] accepts. *)
Definition valid t : Prop := HeadOrTail (Opening t) = true ∨ tuple_ok t.

Lemma CheckAndLeaf_valid t : valid t → CheckAndLeaf t = Ok (leaf_hash (Opening t), None).
Proof.
  unfold CheckAndLeaf. rewrite Hash_leaf, res_bind_ret. intros [->|(Hi & Hk & Hv)]; [done|].
  apply HeadOrTail_false in Hi as ->. rewrite Hk, Hv, !res_bind_ret. cbn [negb].
  rewrite !oct_eqb_refl. done.
Qed.

(** The converse: what an accepted tuple is. *)
Lemma CheckAndLeaf_inv t leaf :
  CheckAndLeaf t = Ok (leaf, None) → leaf = leaf_hash (Opening t) ∧ valid t.
Proof.
  unfold CheckAndLeaf, valid, tuple_ok. rewrite Hash_leaf, res_bind_ret.
  destruct (HeadOrTail (Opening t)) eqn:E; [intros [= <-]; by auto|].
  apply HeadOrTail_false in E. destruct (hash (Key t)) as [hk|]; [|done]. rewrite res_bind_ret.
  destruct (oct_eqb (HKey _) hk) eqn:Ek; [|done]. apply oct_eqb_true in Ek as <-. cbn [negb].
  destruct (hash (Value t)) as [hv|]; [|done]. rewrite res_bind_ret.
  destruct (oct_eqb (HVal _) hv) eqn:Ev; [|done]. apply oct_eqb_true in Ev as <-.
  intros [= <-]. auto.
Qed.

Lemma inv_valid p i t : Inv p → tuples p !! i = Some t → valid t.
Proof.
  intros I Hi. pose proof (inv_dom p I i t Hi). unfold valid.
  destruct (decide (2 ≤ i)) as [|Hlt]; [right; by eapply inv_tuple|left]. apply not_false_iff_true.
  rewrite HeadOrTail_false. unfold inner.
  assert (i = 0 ∨ i = 1) as [->| ->] by lia.
  - destruct (lk_head _ (inv_linked p I)) as (l & E & Ek & _). unfold openings in E. rewrite Hi in E.
    injection E as <-. naive_solver.
  - destruct (lk_tail _ (inv_linked p I)) as (l & E & Ek & _). unfold openings in E. rewrite Hi in E.
    injection E as <-. naive_solver.
Qed.

Lemma check_change_next t n :
  valid t → Next (Opening t) ≠ n → check_change t (CopyWithNext t n) = Ok ().
Proof.
  intros Hv Hn. unfold check_change. rewrite CheckAndLeaf_valid, res_bind_ret by done. simpl.
  rewrite !oct_eqb_refl, Z.eqb_refl, (proj2 (Z.eqb_neq _ _) Hn). done.
Qed.

Lemma check_change_prev t n :
  valid t → Prev (Opening t) ≠ n → check_change t (CopyWithPrev t n) = Ok ().
Proof.
  intros Hv Hn. unfold check_change. rewrite CheckAndLeaf_valid, res_bind_ret by done. simpl.
  rewrite !oct_eqb_refl, Z.eqb_refl, (proj2 (Z.eqb_neq _ _) Hn). done.
Qed.

Lemma valid_CopyWithNext t n : valid t → valid (CopyWithNext t n).
Proof. done. Qed.

Lemma valid_CopyWithPrev t n : valid t → valid (CopyWithPrev t n).
Proof. done. Qed.

(** ** Leaves and openings of updated maps *)

Lemma openings_insert m i t j : openings (<[i := t]> m) j = set (openings m) i (Some (Opening t)) j.
Proof.
  unfold openings, set. case_decide as D; [subst; by rewrite lookup_insert_eq|by rewrite lookup_insert_ne].
Qed.

Lemma openings_delete m i j : openings (delete i m) j = set (openings m) i None j.
Proof.
  unfold openings, set. case_decide as D; [subst; by rewrite lookup_delete_eq|by rewrite lookup_delete_ne].
Qed.

Lemma leaves_insert m i t j : leaves (<[i := t]> m) j = upd (leaves m) i (leaf_hash (Opening t)) j.
Proof.
  unfold leaves, upd. destruct (Z.eqb_spec j i) as [->|]; [by rewrite lookup_insert_eq|by rewrite lookup_insert_ne].
Qed.

Lemma leaves_delete m i j : leaves (delete i m) j = upd (leaves m) i EmptyLeaf j.
Proof.
  unfold leaves, upd. destruct (Z.eqb_spec j i) as [->|]; [by rewrite lookup_delete_eq|by rewrite lookup_delete_ne].
Qed.

Lemma leaves_lookup m i t : m !! i = Some t → leaves m i = leaf_hash (Opening t).
Proof. unfold leaves. by intros ->. Qed.

Lemma wf_ext (t : Tree F) (lv lv' : Z → oct) : (∀ j, lv j = lv' j) → wf t lv → wf t lv'.
Proof.
  intros E [W1 W2 W3]. split; [done|..].
  - intros l i Hl Hi. rewrite W2 by done. by apply node_ext.
  - rewrite W3. by apply node_ext.
Qed.

Lemma siblings_ext (lv lv' : Z → oct) i d : (∀ j, lv j = lv' j) → siblings lv i d = siblings lv' i d.
Proof. intros E. apply list_fmap_ext. intros k x _. by apply node_ext. Qed.

(** The proof of a leaf, as the prover makes it. *)
Definition proof_of m (i : Z) : Proof F := {| Path := i; Siblings := siblings (leaves m) i depth |}.

Definition root_of m : oct := node (leaves m) depth 0.

Lemma inv_root p : Inv p → Root (PTree p) = root_of (tuples p).
Proof. intros I. by rewrite (wf_root _ _ (inv_tree p I)), (inv_depth p I), depth_eq. Qed.

(** ** upsertTuple and rmTuple *)

Context {HNZ : HashNonZero F}.

(** A prover state whose tree stores its tuples. *)
Definition stored p : Prop := wf (PTree p) (leaves (tuples p)) ∧ Depth (PTree p) = 40.

Definition set_tuples p (tree : Tree F) m : ProverState F K V :=
  mkProver (Location p) (NextFreeNode p) tree {| Mapping.InnerMap := m |}.

(** Writing a leaf and proving it. *)
Lemma write_leaf (tree : Tree F) m m' i leaf :
  wf tree (leaves m) → Depth tree = 40 → 0 ≤ i < 2 ^ 40 →
  (∀ j, leaves m' j = upd (leaves m) i leaf j) →
  ∃ tree', Smt.Update tree i leaf = Ok tree' ∧ wf tree' (leaves m') ∧ Depth tree' = 40 ∧
    MustProve tree' i = Ok (proof_of m i).
Proof.
  intros W D Hi Em. destruct (Update_spec tree (leaves m) i leaf W) as (tree' & EU & W' & D'); [by rewrite D|].
  exists tree'. split; [done|]. assert (wf tree' (leaves m')) as W2 by (by eapply wf_ext; [|exact W']).
  split; [done|]. split; [congruence|]. rewrite (MustProve_spec tree' _ i W') by (rewrite D', D; lia).
  unfold proof_of. by rewrite D', D, siblings_upd, depth_eq by lia.
Qed.

Lemma upsertTuple_spec p i t :
  stored p → 0 ≤ i < 2 ^ 40 → valid t →
  (∀ old, tuples p !! i = Some old → check_change old t = Ok ()) →
  ∃ tree', upsertTuple p i t = Ok (proof_of (tuples p) i, set_tuples p tree' (<[i := t]> (tuples p))) ∧
    stored (set_tuples p tree' (<[i := t]> (tuples p))).
Proof.
  intros [W D] Hi Hv Hold.
  destruct (write_leaf (PTree p) (tuples p) (<[i := t]> (tuples p)) i (leaf_hash (Opening t)) W D Hi)
    as (tree' & EU & W' & D' & EP); [apply leaves_insert|].
  exists tree'. split; [|done]. unfold upsertTuple. rewrite CheckAndLeaf_valid, res_bind_ret by done.
  unfold Mapping.TryGet. fold (tuples p). destruct (tuples p !! i) as [old|]; [rewrite (Hold old) by done|];
    rewrite res_bind_ret; cbn [PTree set_Data]; rewrite EU, res_bind_ret; cbn [PTree set_Tree];
    rewrite EP; done.
Qed.

Lemma rmTuple_spec p i t :
  stored p → 0 ≤ i < 2 ^ 40 → tuples p !! i = Some t →
  ∃ tree', rmTuple p i = Ok (proof_of (tuples p) i, set_tuples p tree' (delete i (tuples p))) ∧
    stored (set_tuples p tree' (delete i (tuples p))).
Proof.
  intros [W D] Hi Ht.
  destruct (write_leaf (PTree p) (tuples p) (delete i (tuples p)) i EmptyLeaf W D Hi)
    as (tree' & EU & W' & D' & EP); [apply leaves_delete|].
  exists tree'. split; [|done]. unfold rmTuple.
  rewrite (proj2 (Mapping.MustExists_spec (Data p) [i])), res_bind_ret.
  2:{ apply Mapping.Exists_spec. intros k ->%list_elem_of_singleton. by exists t. }
  unfold Mapping.Del. rewrite (proj2 (Mapping.MustGet_Ok (Data p) i t) Ht), !res_bind_ret.
  cbn [PTree set_Data]. rewrite EU, res_bind_ret. cbn [PTree set_Tree]. rewrite EP. done.
Qed.

(** ** FindKey *)

Definition absent m hk : Prop := ∀ i t, m !! i = Some t → HKey (Opening t) ≠ hk.

Lemma find_key_loop_absent p hk keys :
  (∀ i, i ∈ keys → is_Some (tuples p !! i)) → absent (tuples p) hk → find_key_loop p hk keys = Ok (0, false).
Proof.
  intros Hk Ha. induction keys as [|i keys IH]; simpl; [done|].
  destruct (Hk i) as [t Ht]; [set_solver|].
  rewrite (proj2 (Mapping.MustGet_Ok (Data p) i t) Ht), res_bind_ret.
  rewrite (proj2 (oct_eqb_false hk _)) by (intros E; by apply (Ha i t)). apply IH. set_solver.
Qed.

Lemma find_key_loop_found p hk keys i t :
  (∀ i, i ∈ keys → is_Some (tuples p !! i)) → linked (openings (tuples p)) →
  i ∈ keys → tuples p !! i = Some t → HKey (Opening t) = hk → find_key_loop p hk keys = Ok (i, true).
Proof.
  intros Hk L Hin Ht Ek. induction keys as [|j keys IH]; [by apply elem_of_nil in Hin|]. simpl.
  destruct (Hk j) as [u Hu]; [set_solver|].
  rewrite (proj2 (Mapping.MustGet_Ok (Data p) j u) Hu), res_bind_ret.
  destruct (oct_eqb hk (HKey (Opening u))) eqn:E.
  - apply oct_eqb_true in E. do 2 f_equal. symmetry. apply (lk_inj _ L i j (Opening t) (Opening u)).
    + unfold openings. by rewrite Ht.
    + unfold openings. by rewrite Hu.
    + congruence.
  - apply elem_of_cons in Hin as [->|Hin]; [|apply IH; set_solver].
    simplify_eq. by rewrite oct_eqb_refl in E.
Qed.

Lemma FindKey_absent range p k hk :
  Mapping.enumerates range (tuples p) → hash k = Ok hk → absent (tuples p) hk →
  FindKey range p k = Ok (0, false).
Proof.
  intros R Hk Ha. unfold FindKey. rewrite Hk, res_bind_ret. apply find_key_loop_absent; [|done].
  intros i. by apply Mapping.ListAllKeys_elem.
Qed.

Lemma FindKey_found range p k hk i t :
  Mapping.enumerates range (tuples p) → hash k = Ok hk → linked (openings (tuples p)) →
  tuples p !! i = Some t → HKey (Opening t) = hk → FindKey range p k = Ok (i, true).
Proof.
  intros R Hk L Ht Ek. unfold FindKey. rewrite Hk, res_bind_ret.
  apply (find_key_loop_found p hk _ i t); try done.
  - intros j. by apply Mapping.ListAllKeys_elem.
  - apply (Mapping.ListAllKeys_elem _ _ _ R). by exists t.
Qed.

(** ** findSandwich *)

(** The bounds after a part [seen] of the leaves was visited. *)
Definition bounds_inv m hk (seen : list Z) (acc : (oct * Z) * (oct * Z)) : Prop :=
  let '((hminus, iminus), (hplus, iplus)) := acc in
  (∃ t, m !! iminus = Some t ∧ HKey (Opening t) = hminus) ∧ lt hminus hk ∧
  (∃ t, m !! iplus = Some t ∧ HKey (Opening t) = hplus) ∧ lt hk hplus ∧
  ∀ j t, j ∈ seen → m !! j = Some t →
    (lt (HKey (Opening t)) hk → ¬ lt hminus (HKey (Opening t))) ∧
    (lt hk (HKey (Opening t)) → ¬ lt (HKey (Opening t)) hplus).

Lemma sandwich_step_inv p hk seen j acc :
  is_Some (tuples p !! j) → absent (tuples p) hk → bounds_inv (tuples p) hk seen acc →
  ∃ acc', sandwich_step p hk acc j = Ok acc' ∧ bounds_inv (tuples p) hk (seen ++ [j]) acc'.
Proof.
  intros [u Hu] Ha. destruct acc as [[hm im] [hp ip]]. intros (Hm & Km & Hp & Kp & Hall).
  unfold sandwich_step. rewrite (proj2 (Mapping.MustGet_Ok (Data p) j u) Hu), res_bind_ret.
  pose proof (Ha j u Hu) as Hne. set (c := HKey (Opening u)) in *.
  destruct (KoalaOctuplet.lt_total c hk) as [C|[C|C]]; [|done|].
  - rewrite C. cbn [Z.eqb].
    destruct (Z.eqb_spec (KoalaOctuplet.Cmp c hm) 1) as [E|E]; rewrite KoalaOctuplet.Cmp_1 in E;
      (eexists; split; [reflexivity|]); (split; [by eauto|]); (split; [done|]); (split; [done|]); (split; [done|]);
      intros i t [Hi| ->]%elem_of_snoc Ht; simplify_eq; fold c.
    + destruct (Hall i t Hi Ht) as [A B]. split; [|done]. intros Hlt HX. apply (A Hlt). by eapply KoalaOctuplet.lt_trans.
    + split; [intros _; apply KoalaOctuplet.lt_irrefl|]. intros HX. by exfalso; eapply KoalaOctuplet.lt_asym.
    + exact (Hall i t Hi Ht).
    + split; [done|]. intros HX. by exfalso; eapply KoalaOctuplet.lt_asym.
  - rewrite (proj2 (KoalaOctuplet.Cmp_1 c hk) C). cbn [Z.eqb].
    destruct (Z.eqb_spec (KoalaOctuplet.Cmp c hp) (-1)) as [E|E];
      (eexists; split; [reflexivity|]); (split; [by eauto|]); (split; [done|]); (split; [by eauto|]); (split; [done|]);
      intros i t [Hi| ->]%elem_of_snoc Ht; simplify_eq; fold c.
    + destruct (Hall i t Hi Ht) as [A B]. split; [done|]. intros Hlt HX. apply (B Hlt). by eapply KoalaOctuplet.lt_trans.
    + split; [|intros _; apply KoalaOctuplet.lt_irrefl]. intros HX. by exfalso; eapply KoalaOctuplet.lt_asym.
    + exact (Hall i t Hi Ht).
    + split; [|done]. intros HX. by exfalso; eapply KoalaOctuplet.lt_asym.
Qed.

(** Best bounds over all leaves are neighbours in the list. *)
Lemma bounds_sandwich m hk keys hm im hp ip :
  linked (openings m) → absent m hk → (∀ j, is_Some (m !! j) → j ∈ keys) →
  bounds_inv m hk keys ((hm, im), (hp, ip)) →
  ∃ tm tp, m !! im = Some tm ∧ m !! ip = Some tp ∧
    sandwich (openings m) hk im ip (Opening tm) (Opening tp).
Proof.
  intros L Ha Hk ((tm & Em & <-) & Km & (tp & Ep & <-) & Kp & Hall).
  assert (Om : openings m im = Some (Opening tm)) by (unfold openings; by rewrite Em).
  assert (Op : openings m ip = Some (Opening tp)) by (unfold openings; by rewrite Ep).
  assert (Him : im ≠ 1).
  { intros ->. destruct (lk_tail _ L) as (l & El & Kl & _). simplify_eq. rewrite Kl in Km.
    destruct (decide (hk = KoalaOctuplet.MaxKoalaOctuplet)) as [->|Hne%KoalaOctuplet.max_greatest];
      [by eapply KoalaOctuplet.lt_irrefl|by eapply KoalaOctuplet.lt_asym]. }
  assert (Hip : ip ≠ 0).
  { intros ->. destruct (lk_head _ L) as (l & El & Kl & _). simplify_eq. rewrite Kl in Kp.
    destruct (decide (hk = KoalaOctuplet.zero)) as [->|Hne%KoalaOctuplet.zero_least];
      [by eapply KoalaOctuplet.lt_irrefl|by eapply KoalaOctuplet.lt_asym]. }
  destruct (lk_next _ L im (Opening tm) Om Him) as (l' & E' & P' & K').
  unfold openings in E'. destruct (m !! Next (Opening tm)) as [t'|] eqn:Et'; [|done]. injection E' as <-.
  assert (lt hk (HKey (Opening t'))) as K''.
  { destruct (KoalaOctuplet.lt_total (HKey (Opening t')) hk) as [C|[C|C]]; [|by apply Ha in Et'|done].
    exfalso. by apply (proj1 (Hall _ t' (Hk _ (mk_is_Some _ _ Et')) Et')). }
  assert (Next (Opening tm) = ip) as EN.
  { apply (lk_inj _ L _ _ (Opening t') (Opening tp)); [unfold openings; by rewrite Et'|done|].
    destruct (KoalaOctuplet.lt_total (HKey (Opening t')) (HKey (Opening tp))) as [C|[C|C]]; [|done|].
    - exfalso. by apply (proj2 (Hall _ t' (Hk _ (mk_is_Some _ _ Et')) Et')).
    - exfalso. apply (lk_gap _ L im (Opening tm) (Opening t') ip (Opening tp)); try done.
      + unfold openings. by rewrite Et'.
      + exact (KoalaOctuplet.lt_trans _ hk _ Km Kp). }
  rewrite EN in Et'. assert (t' = tp) as -> by congruence.
  exists tm, tp. split; [done|]. split; [done|]. unfold sandwich. auto 10.
Qed.

Lemma findSandwich_spec range p k hk :
  Mapping.enumerates range (tuples p) → hash k = Ok hk → linked (openings (tuples p)) →
  inner hk → absent (tuples p) hk →
  ∃ im ip tm tp, findSandwich range p k = Ok (im, ip) ∧ tuples p !! im = Some tm ∧ tuples p !! ip = Some tp ∧
    sandwich (openings (tuples p)) hk im ip (Opening tm) (Opening tp).
Proof.
  intros R Hk L [I0 I1] Ha. unfold findSandwich. rewrite Hk, res_bind_ret.
  destruct (foldM_rule (sandwich_step p hk) (bounds_inv (tuples p) hk) (Mapping.ListAllKeys range)
    ((KoalaOctuplet.zero, 0), (KoalaOctuplet.MaxKoalaOctuplet, 1))) as ([[hm im] [hp ip]] & E & B).
  - destruct (lk_head _ L) as (h & Eh & Kh & _), (lk_tail _ L) as (l & El & Kl & _). unfold openings in Eh, El.
    destruct (tuples p !! 0) as [t0|] eqn:E0; [|done]. destruct (tuples p !! 1) as [t1|] eqn:E1; [|done].
    injection Eh as <-. injection El as <-. split; [by exists t0|].
    split; [by apply KoalaOctuplet.zero_least|]. split; [by exists t1|].
    split; [by apply KoalaOctuplet.max_greatest|]. intros j t Hj. by apply elem_of_nil in Hj.
  - intros seen j acc Hj B. apply sandwich_step_inv; [|done|done]. by apply (Mapping.ListAllKeys_elem range).
  - rewrite E, res_bind_ret.
    destruct (bounds_sandwich _ _ _ _ _ _ _ L Ha
      (λ j, proj2 (Mapping.ListAllKeys_elem _ _ j R)) B) as (tm & tp & Em & Ep & S).
    exists im, ip, tm, tp. rewrite (proj2 (Z.eqb_neq im ip)) by (by eapply sandwich_ne). done.
Qed.

(** ** The map an accumulator stands for *)

(** The entry under a key hash, the head and the tail left out. *)
Definition entry m hk : option tuple :=
  snd <$> head (filter (λ it : Z * tuple, 2 ≤ it.1 ∧ HKey (Opening it.2) = hk) (map_to_list m)).

Definition abs p hk : option (K * V) := (λ t, (Key t, Value t)) <$> entry (tuples p) hk.

Lemma entry_Some m hk t :
  linked (openings m) →
  entry m hk = Some t ↔ ∃ i, 2 ≤ i ∧ m !! i = Some t ∧ HKey (Opening t) = hk.
Proof.
  intros L. unfold entry. destruct (filter _ _) as [|[i u] l] eqn:E; simpl.
  - split; [done|]. intros (i & Hi & Ht & Ek).
    assert ((i, t) ∈ filter (λ it : Z * tuple, 2 ≤ it.1 ∧ HKey (Opening it.2) = hk) (map_to_list m)) as Hin.
    { apply list_elem_of_filter. split; [done|]. by apply elem_of_map_to_list. }
    rewrite E in Hin. by apply elem_of_nil in Hin.
  - assert ((i, u) ∈ filter (λ it : Z * tuple, 2 ≤ it.1 ∧ HKey (Opening it.2) = hk) (map_to_list m)) as Hin.
    { rewrite E. set_solver. }
    apply list_elem_of_filter in Hin as [[Hi Ek] Hu%elem_of_map_to_list]. simpl in *. split.
    + intros [= <-]. eauto.
    + intros (j & Hj & Ht & Ek'). assert (j = i) as ->; [|congruence].
      apply (lk_inj _ L j i (Opening t) (Opening u)); [unfold openings; by rewrite Ht|unfold openings; by rewrite Hu|congruence].
Qed.

Lemma abs_Some p hk kv :
  linked (openings (tuples p)) →
  abs p hk = Some kv ↔ ∃ i t, 2 ≤ i ∧ tuples p !! i = Some t ∧ HKey (Opening t) = hk ∧ (Key t, Value t) = kv.
Proof.
  intros L. unfold abs. rewrite fmap_Some. setoid_rewrite (entry_Some _ _ _ L). naive_solver.
Qed.

(** A key that is not in the map is not in the leaves. *)
Lemma abs_absent p hk : Inv p → inner hk → abs p hk = None → absent (tuples p) hk.
Proof.
  intros I Hin E i t Ht Ek. pose proof (inv_dom p I i t Ht).
  destruct (decide (2 ≤ i)) as [Hi|Hi].
  - assert (abs p hk = Some (Key t, Value t)) as E'; [|congruence].
    apply abs_Some; [apply I|]. by exists i, t.
  - destruct (inv_valid p i t I Ht) as [Hv|(Hv & _)].
    + rewrite <-Ek in Hin. apply HeadOrTail_false in Hin. congruence.
    + assert (i = 0 ∨ i = 1) as [->| ->] by lia.
      * destruct (lk_head _ (inv_linked p I)) as (l & E' & Ek' & _). unfold openings in E'. rewrite Ht in E'.
        injection E' as <-. by destruct Hin as [[] _]; congruence.
      * destruct (lk_tail _ (inv_linked p I)) as (l & E' & Ek' & _). unfold openings in E'. rewrite Ht in E'.
        injection E' as <-. by destruct Hin as [_ []]; congruence.
Qed.

Lemma absent_abs p hk : Inv p → absent (tuples p) hk → abs p hk = None.
Proof.
  intros I Ha. destruct (abs p hk) as [kv|] eqn:E; [|done].
  apply abs_Some in E as (i & t & _ & Ht & Ek & _); [|apply I]. by apply Ha in Ht.
Qed.
End facts.
End AccumulatorFacts.
