(* ===== verification/AccumulatorOps.v ===== *)
(** * Correctness of the audited operations

    For every operation of the accumulator: it does not panic on a state that
    satisfies the invariant, it preserves the invariant, it acts on the map the
    accumulator stands for as its name says, and the verifier that holds a snapshot
    of the state accepts its trace and moves to a snapshot of the new state. *)

From S2P Require Export AccumulatorFacts.
Import Smt SmtFacts Accumulator LeafHash SortedList AccumulatorFacts.

Module AccumulatorOps.
Section ops.
Context `{ElementLaws F, !Poseidon2 F} {HNZ : HashNonZero F} `{WriterTo K, WriterTo V}.
Notation oct := (KoalaOctuplet.t F).
Notation opening := (LeafOpening F).
Notation tuple := (KVOpeningTuple F K V).
Notation lt := KoalaOctuplet.lt.
Implicit Types (p : ProverState F K V) (m : gmap Z tuple) (t : tuple) (hk hv : oct).

(** ** Shared by the operations *)

Lemma Verify_proof_of m i : 0 ≤ i < 2 ^ 40 → Verify (proof_of m i) (leaves m i) (root_of m) = Ok None.
Proof. intros Hi. apply Verify_own. by rewrite depth_Z. Qed.

Lemma RecoverRoot_proof_of m m' i new :
  0 ≤ i < 2 ^ 40 → (∀ j, leaves m' j = upd (leaves m) i new j) →
  RecoverRoot (proof_of m i) new = Ok (root_of m', None).
Proof.
  intros Hi E. unfold proof_of. rewrite RecoverRoot_siblings by (by rewrite depth_Z).
  unfold root_of. do 2 f_equal. apply node_ext. intros j _. symmetry. apply E.
Qed.

(** The verifier follows one write of the prover. *)
Lemma updateCheckRoot_spec m m' i old new :
  0 ≤ i < 2 ^ 40 → leaves m i = old → (∀ j, leaves m' j = upd (leaves m) i new j) →
  updateCheckRoot (proof_of m i) (root_of m) old new = Ok (root_of m', None).
Proof.
  intros Hi <- E. unfold updateCheckRoot. rewrite Verify_proof_of, res_bind_ret by done.
  by rewrite (RecoverRoot_proof_of m m') by done.
Qed.

Lemma updateCheckRoot_insert m i old t :
  0 ≤ i < 2 ^ 40 → leaves m i = old →
  updateCheckRoot (proof_of m i) (root_of m) old (leaf_hash (Opening t)) = Ok (root_of (<[i := t]> m), None).
Proof. intros Hi E. apply updateCheckRoot_spec; [done|done|]. apply leaves_insert. Qed.

Lemma updateCheckRoot_delete m i old :
  0 ≤ i < 2 ^ 40 → leaves m i = old →
  updateCheckRoot (proof_of m i) (root_of m) old EmptyLeaf = Ok (root_of (delete i m), None).
Proof. intros Hi E. apply updateCheckRoot_spec; [done|done|]. apply leaves_delete. Qed.

Lemma inv_stored p : Inv p → stored p.
Proof. intros I. split; apply I. Qed.

Lemma inv_pos p i t : Inv p → tuples p !! i = Some t → 0 ≤ i < 2 ^ 40.
Proof. intros I Hi. pose proof (inv_dom p I i t Hi). pose proof (inv_next p I). lia. Qed.

Lemma stored_root p : stored p → Root (PTree p) = root_of (tuples p).
Proof. intros [W D]. by rewrite (wf_root _ _ W), D, depth_eq. Qed.

Lemma tuples_set p tree m : tuples (set_tuples p tree m) = m.
Proof. done. Qed.

Lemma MustGet_tuples p i t : tuples p !! i = Some t → Mapping.MustGet (Data p) i = Ok t.
Proof. apply Mapping.MustGet_Ok. Qed.

Lemma openings_Some m i t : m !! i = Some t → openings m i = Some (Opening t).
Proof. unfold openings. by intros ->. Qed.

(** ** Insertion *)

Definition inserted (key : K) (val : V) (iM iP : Z) hk hv : tuple := mkTuple (mkOpening iM iP hk hv) key val.

Definition insert1 m (n iM : Z) (tM : tuple) : gmap Z tuple := <[iM := CopyWithNext tM n]> m.
Definition insert2 m (n iM : Z) (tM new : tuple) : gmap Z tuple := <[n := new]> (insert1 m n iM tM).
Definition insert3 m (n iM iP : Z) (tM new tP : tuple) : gmap Z tuple :=
  <[iP := CopyWithPrev tP n]> (insert2 m n iM tM new).

Lemma openings_insert3 m n iM iP tM tP key val hk hv j :
  openings (insert3 m n iM iP tM (inserted key val iM iP hk hv) tP) j =
  insert_at (openings m) n iM iP hk hv (Opening tM) (Opening tP) j.
Proof.
  unfold insert3, insert2, insert1, insert_at. rewrite openings_insert. unfold set at 1 2.
  case_decide; [done|]. rewrite openings_insert. unfold set at 1 2. case_decide; [done|].
  rewrite openings_insert. unfold set. by case_decide.
Qed.

(** What a run of [InsertAndProve] does, in detail. *)
Definition insert_run p (key : K) (val : V) hk hv (tr : InsertionTrace.t F K V) p' : Prop :=
  let n := NextFreeNode p in let m := tuples p in
  ∃ iM iP tM tP,
    m !! iM = Some tM ∧ m !! iP = Some tP ∧
    sandwich (openings m) hk iM iP (Opening tM) (Opening tP) ∧
    let new := inserted key val iM iP hk hv in
    let m3 := insert3 m n iM iP tM new tP in
    tuples p' = m3 ∧ stored p' ∧ Location p' = Location p ∧ NextFreeNode p' = n + 1 ∧
    tr = InsertionTrace.mk F K V 0 (Location p) (n + 1) (root_of m) (root_of m3)
           (proof_of m iM) (proof_of (insert1 m n iM tM) n) (proof_of (insert2 m n iM tM new) iP)
           key val (Opening tM) (Opening tP).

Lemma fresh p : Inv p → tuples p !! NextFreeNode p = None.
Proof.
  intros I. destruct (tuples p !! NextFreeNode p) as [t|] eqn:E; [|done].
  pose proof (inv_dom p I _ _ E). lia.
Qed.

Lemma InsertAndProve_run r1 r2 p key val hk hv :
  Inv p → Mapping.enumerates r1 (tuples p) → Mapping.enumerates r2 (tuples p) →
  hash key = Ok hk → hash val = Ok hv → inner hk → absent (tuples p) hk → NextFreeNode p < 2 ^ 40 →
  ∃ tr p', InsertAndProve r1 r2 p key val = Ok (tr, p') ∧ insert_run p key val hk hv tr p'.
Proof.
  intros I R1 R2 Hk Hv Hin Ha Hfull. pose proof (inv_next p I) as Hn. pose proof (fresh p I) as Hfr.
  destruct (findSandwich_spec r2 p key hk R2 Hk (inv_linked p I) Hin Ha) as (iM & iP & tM & tP & ES & EM & EP & S).
  pose proof (sandwich_ne _ _ _ _ _ _ S) as HMP. pose proof S as (_ & _ & HN & HP & _).
  pose proof (inv_pos p _ _ I EM) as BM. pose proof (inv_pos p _ _ I EP) as BP.
  pose proof (inv_dom p I _ _ EM) as DM. pose proof (inv_dom p I _ _ EP) as DP.
  unfold InsertAndProve. rewrite (FindKey_absent r1 p key hk), res_bind_ret by done. cbn [snd].
  rewrite ES, res_bind_ret, (MustGet_tuples p iM tM), (MustGet_tuples p iP tP), !res_bind_ret by done.
  destruct (upsertTuple_spec p iM (CopyWithNext tM (NextFreeNode p))) as (T1 & E1 & S1);
    [by apply inv_stored|done|by apply valid_CopyWithNext; eapply inv_valid| |].
  { intros old Ho. assert (old = tM) as -> by congruence. apply check_change_next; [by eapply inv_valid|lia]. }
  rewrite E1, res_bind_ret, Hk, Hv, !res_bind_ret. cbv beta iota.
  destruct (upsertTuple_spec _ (NextFreeNode p) (inserted key val iM iP hk hv) S1) as (T2 & E2 & S2);
    [lia|by right| |].
  { intros old Ho. rewrite !tuples_set in Ho. rewrite lookup_insert_ne in Ho by lia. congruence. }
  unfold inserted in E2 at 1. rewrite E2, res_bind_ret. cbv beta iota.
  destruct (upsertTuple_spec _ iP (CopyWithPrev tP (NextFreeNode p)) S2) as (T3 & E3 & S3);
    [done|by apply valid_CopyWithPrev; eapply inv_valid| |].
  { intros old Ho. rewrite !tuples_set in Ho. rewrite !lookup_insert_ne in Ho by lia.
    assert (old = tP) as -> by congruence.
    apply check_change_prev; [by eapply inv_valid|lia]. }
  rewrite E3, res_bind_ret. cbv beta iota. eexists _, _. split; [reflexivity|].
  exists iM, iP, tM, tP. cbn [NextFreeNode set_tuples]. rewrite !int64_id by (unfold in_int64; lia).
  split; [done|]. split; [done|]. split; [done|]. split; [done|]. split; [done|]. split; [done|].
  split; [done|]. unfold SubTreeRoot. cbn [PTree set_tuples Location NextFreeNode].
  rewrite (inv_root p I). f_equal. exact (stored_root _ S3).
Qed.

(** The tuples after an insertion. *)
Lemma insert3_Some m n iM iP tM new tP i t :
  insert3 m n iM iP tM new tP !! i = Some t →
  (i = iP ∧ t = CopyWithPrev tP n) ∨ (i = n ∧ t = new) ∨ (i = iM ∧ t = CopyWithNext tM n) ∨
  (i ≠ iP ∧ i ≠ n ∧ i ≠ iM ∧ m !! i = Some t).
Proof. unfold insert3, insert2, insert1. rewrite !lookup_insert_Some. naive_solver. Qed.

Lemma insert_run_Inv p key val hk hv tr p' :
  Inv p → hash key = Ok hk → hash val = Ok hv → inner hk → NextFreeNode p < 2 ^ 40 →
  insert_run p key val hk hv tr p' → Inv p'.
Proof.
  intros I Hk Hv Hin Hfull (iM & iP & tM & tP & EM & EP & S & Et & St & _ & EN & _).
  pose proof (inv_next p I). pose proof (inv_dom p I _ _ EM). pose proof (inv_dom p I _ _ EP).
  destruct St as [W D]. split; [done|done|lia|..].
  - rewrite Et, EN. intros i t [[-> _]|[[-> _]|[[-> _]|(_ & _ & _ & Hi)]]]%insert3_Some; [lia..|].
    apply (inv_dom p I) in Hi. lia.
  - rewrite Et. eapply linked_ext; [intros j; symmetry; apply openings_insert3|].
    apply linked_insert; [apply I|done|]. unfold openings. by rewrite fresh.
  - rewrite Et. intros i t [[-> ->]|[[-> ->]|[[-> ->]|(_ & _ & _ & Hi)]]]%insert3_Some Hi2.
    + exact (inv_tuple p I iP tP EP Hi2).
    + done.
    + exact (inv_tuple p I iM tM EM Hi2).
    + by eapply inv_tuple.
Qed.

(** The verifier accepts the trace and follows. *)
Lemma insert_run_verified p key val hk hv tr p' :
  Inv p → hash key = Ok hk → hash val = Ok hv → NextFreeNode p < 2 ^ 40 →
  insert_run p key val hk hv tr p' →
  VerifyInsertion (VerifierState_of p) tr = Ok (None, VerifierState_of p').
Proof.
  intros I Hk Hv Hfull (iM & iP & tM & tP & EM & EP & S & Et & St & EL & EN & ->).
  pose proof (sandwich_ne _ _ _ _ _ _ S) as HMP. pose proof S as (_ & _ & HN & HP & _ & _ & K1 & K2).
  pose proof (inv_pos p _ _ I EM) as BM. pose proof (inv_pos p _ _ I EP) as BP. pose proof (inv_next p I).
  pose proof (inv_dom p I _ _ EM) as DM. pose proof (inv_dom p I _ _ EP) as DP.
  unfold VerifyInsertion, VerifierState_of. cbn. rewrite String.eqb_refl, (inv_root p I), oct_eqb_refl.
  cbn [negb]. rewrite Z.eqb_refl, HN, HP, !Z.eqb_refl. cbn [negb orb]. rewrite Hk, res_bind_ret.
  rewrite (proj2 (KoalaOctuplet.Cmp_1 hk _) K1), K2. cbn [Z.ltb Z.compare orb].
  rewrite !Hash_leaf, !res_bind_ret.
  rewrite (updateCheckRoot_insert _ iM _ (CopyWithNext tM (NextFreeNode p))), res_bind_ret by
    (done || by apply leaves_lookup).
  rewrite Hv, res_bind_ret, Hash_leaf, res_bind_ret.
  rewrite (updateCheckRoot_insert _ (NextFreeNode p) _ (inserted key val iM iP hk hv)), res_bind_ret.
  2: lia.
  2:{ unfold leaves, insert1. rewrite lookup_insert_ne, fresh by (done || lia). done. }
  rewrite ?Hash_leaf, !res_bind_ret.
  rewrite (updateCheckRoot_insert _ iP _ (CopyWithPrev tP (NextFreeNode p))), res_bind_ret.
  2: done.
  2:{ apply leaves_lookup. unfold insert2, insert1. rewrite !lookup_insert_ne by lia. done. }
  fold (insert2 (tuples p) (NextFreeNode p) iM tM (inserted key val iM iP hk hv)).
  fold (insert3 (tuples p) (NextFreeNode p) iM iP tM (inserted key val iM iP hk hv) tP).
  rewrite oct_eqb_refl, int64_id by (unfold in_int64; lia). cbn [negb]. rewrite Z.eqb_refl. cbn [negb].
  rewrite (stored_root p' St), Et, EL, EN. done.
Qed.

(** The map gains the new entry. *)
Lemma insert_run_abs p key val hk hv tr p' h :
  Inv p → Inv p' → absent (tuples p) hk → insert_run p key val hk hv tr p' →
  abs p' h = if decide (h = hk) then Some (key, val) else abs p h.
Proof.
  intros I I' Ha (iM & iP & tM & tP & EM & EP & S & Et & _).
  pose proof (inv_next p I). pose proof (inv_dom p I _ _ EM) as DM. pose proof (inv_dom p I _ _ EP) as DP.
  pose proof (sandwich_ne _ _ _ _ _ _ S) as HMP.
  case_decide as D.
  - subst h. apply abs_Some; [apply I'|]. exists (NextFreeNode p), (inserted key val iM iP hk hv).
    rewrite Et. unfold insert3, insert2. rewrite lookup_insert_ne, lookup_insert_eq by lia.
    split; [lia|]. done.
  - apply option_eq. intros kv. rewrite !abs_Some by apply I || apply I'. rewrite Et. split.
    + intros (i & t & Hi & [[-> ->]|[[-> ->]|[[-> ->]|(_ & _ & _ & Hm)]]]%insert3_Some & Ek & Ekv).
      * by exists iP, tP.
      * by destruct D.
      * by exists iM, tM.
      * by exists i, t.
    + intros (i & t & Hi & Hm & Ek & Ekv). pose proof (inv_dom p I i t Hm).
      unfold insert3, insert2, insert1.
      destruct (decide (i = iP)) as [->|]; [|destruct (decide (i = iM)) as [->|]].
      * exists iP, (CopyWithPrev tP (NextFreeNode p)). rewrite lookup_insert_eq. by simplify_eq.
      * exists iM, (CopyWithNext tM (NextFreeNode p)). rewrite !lookup_insert_ne, lookup_insert_eq by lia. by simplify_eq.
      * exists i, t. by rewrite !lookup_insert_ne by lia.
Qed.

(** ** Deletion *)

Definition delete1 m (t tM : tuple) : gmap Z tuple :=
  <[Prev (Opening t) := CopyWithNext tM (Next (Opening t))]> m.
Definition delete2 m (i : Z) (t tM : tuple) : gmap Z tuple := delete i (delete1 m t tM).
Definition delete3 m (i : Z) (t tM tP : tuple) : gmap Z tuple :=
  <[Next (Opening t) := CopyWithPrev tP (Prev (Opening t))]> (delete2 m i t tM).

Lemma openings_delete3 m i t tM tP j :
  openings (delete3 m i t tM tP) j = remove_at (openings m) i (Opening t) (Opening tM) (Opening tP) j.
Proof.
  unfold delete3, delete2, delete1, remove_at. rewrite openings_insert. unfold set at 1 2.
  case_decide; [done|]. rewrite openings_delete. unfold set at 1 2. case_decide; [done|].
  rewrite openings_insert. unfold set. by case_decide.
Qed.

(** A leaf of the map and its neighbours. *)
Definition located m (i : Z) (t tM tP : tuple) : Prop :=
  2 ≤ i ∧ m !! i = Some t ∧ m !! Prev (Opening t) = Some tM ∧ m !! Next (Opening t) = Some tP.

Lemma locate p hk kv :
  Inv p → abs p hk = Some kv →
  ∃ i t tM tP, located (tuples p) i t tM tP ∧ HKey (Opening t) = hk ∧ (Key t, Value t) = kv.
Proof.
  intros I (i & t & Hi & Ht & Ek & Ekv)%abs_Some; [|apply I]. pose proof (openings_Some _ _ _ Ht) as Ot.
  destruct (lk_prev _ (inv_linked p I) i _ Ot) as (_ & lM & EM & _); [lia|].
  destruct (lk_next _ (inv_linked p I) i _ Ot) as (lP & EP & _); [lia|]. unfold openings in EM, EP.
  destruct (tuples p !! Prev (Opening t)) as [tM|] eqn:HM; [|done].
  destruct (tuples p !! Next (Opening t)) as [tP|] eqn:HP; [|done].
  exists i, t, tM, tP. done.
Qed.

Lemma located_facts p i t tM tP :
  Inv p → located (tuples p) i t tM tP →
  Next (Opening tM) = i ∧ Prev (Opening tP) = i ∧
  Prev (Opening t) ≠ i ∧ Next (Opening t) ≠ i ∧ Prev (Opening t) ≠ Next (Opening t) ∧ tuple_ok t.
Proof.
  intros I (Hi & Ht & HM & HP). apply openings_Some in HM, HP. pose proof (openings_Some _ _ _ Ht) as Ot.
  destruct (neighbours _ i _ _ _ (inv_linked p I) Ot ltac:(lia) ltac:(lia) HM HP) as (E1 & E2 & _).
  destruct (neighbours_ne _ i _ _ _ (inv_linked p I) Ot ltac:(lia) ltac:(lia) HM HP) as (E3 & E4 & E5).
  repeat split; try done; by eapply inv_tuple.
Qed.

Definition delete_run p (key : K) hk (tr : DeletionTrace.t F K V) p' : Prop :=
  let m := tuples p in
  ∃ i t tM tP,
    located m i t tM tP ∧ HKey (Opening t) = hk ∧
    let m3 := delete3 m i t tM tP in
    tuples p' = m3 ∧ stored p' ∧ Location p' = Location p ∧ NextFreeNode p' = NextFreeNode p ∧
    tr = DeletionTrace.mk F K V 0 (Location p) (NextFreeNode p) (root_of m) (root_of m3)
           (proof_of m (Prev (Opening t))) (proof_of (delete1 m t tM) i)
           (proof_of (delete2 m i t tM) (Next (Opening t)))
           key (Opening tM) (Opening t) (Opening tP) (Value t).

Lemma DeleteAndProve_run range p key hk kv :
  Inv p → Mapping.enumerates range (tuples p) → hash key = Ok hk → abs p hk = Some kv →
  ∃ tr p', DeleteAndProve range p key = Ok (tr, p') ∧ delete_run p key hk tr p'.
Proof.
  intros I R Hk (i & t & tM & tP & Lc & Ek & _)%locate; [|done].
  destruct (located_facts p i t tM tP I Lc) as (ENM & EPP & N1 & N2 & N3 & Ok).
  pose proof Lc as (Hi & Ht & HM & HP).
  unfold DeleteAndProve. rewrite (FindKey_found range p key hk i t), res_bind_ret by (done || apply I). cbn [negb].
  rewrite (MustGet_tuples p i t), res_bind_ret by done.
  rewrite (MustGet_tuples p _ tM HM), (MustGet_tuples p _ tP HP), !res_bind_ret.
  destruct (upsertTuple_spec p (Prev (Opening t)) (CopyWithNext tM (Next (Opening t)))) as (T1 & E1 & S1);
    [by apply inv_stored|by eapply inv_pos|by apply valid_CopyWithNext; eapply inv_valid| |].
  { intros old Ho. assert (old = tM) as -> by congruence. apply check_change_next; [by eapply inv_valid|congruence]. }
  rewrite E1, res_bind_ret. cbv beta iota.
  destruct (rmTuple_spec _ i t S1) as (T2 & E2 & S2);
    [by eapply inv_pos|rewrite tuples_set, lookup_insert_ne by done; done|].
  rewrite E2, res_bind_ret. cbv beta iota.
  destruct (upsertTuple_spec _ (Next (Opening t)) (CopyWithPrev tP (Prev (Opening t))) S2) as (T3 & E3 & S3);
    [by eapply inv_pos|by apply valid_CopyWithPrev; eapply inv_valid| |].
  { intros old Ho. rewrite !tuples_set, lookup_delete_ne, lookup_insert_ne in Ho by done.
    assert (old = tP) as -> by congruence. apply check_change_prev; [by eapply inv_valid|congruence]. }
  rewrite E3, res_bind_ret. cbv beta iota. eexists _, _. split; [reflexivity|].
  exists i, t, tM, tP. cbn [NextFreeNode set_tuples].
  split; [done|]. split; [done|]. split; [done|]. split; [done|]. split; [done|].
  split; [done|]. unfold SubTreeRoot. cbn [PTree set_tuples Location NextFreeNode].
  rewrite (inv_root p I). f_equal. exact (stored_root _ S3).
Qed.

Lemma delete3_Some m i t tM tP j u :
  delete3 m i t tM tP !! j = Some u →
  (j = Next (Opening t) ∧ u = CopyWithPrev tP (Prev (Opening t))) ∨
  (j = Prev (Opening t) ∧ j ≠ i ∧ u = CopyWithNext tM (Next (Opening t))) ∨
  (j ≠ Next (Opening t) ∧ j ≠ i ∧ j ≠ Prev (Opening t) ∧ m !! j = Some u).
Proof.
  unfold delete3, delete2, delete1. rewrite lookup_insert_Some, lookup_delete_Some, lookup_insert_Some.
  naive_solver.
Qed.

Lemma delete_run_Inv p key hk tr p' : Inv p → delete_run p key hk tr p' → Inv p'.
Proof.
  intros I (i & t & tM & tP & Lc & _ & Et & [W D] & _ & EN & _). pose proof Lc as (Hi & Ht & HM & HP).
  split; [done|done|rewrite EN; apply I|..].
  - rewrite Et, EN. intros j u [[-> _]|[[-> _]|(_ & _ & _ & Hj)]]%delete3_Some; by eapply inv_dom.
  - rewrite Et. eapply linked_ext; [intros j; symmetry; apply openings_delete3|].
    apply linked_remove; [apply I|by apply openings_Some|lia|lia|by apply openings_Some..].
  - rewrite Et. intros j u [[-> ->]|[(-> & _ & ->)|(_ & _ & _ & Hj)]]%delete3_Some Hj2.
    + exact (inv_tuple p I _ tP HP Hj2).
    + exact (inv_tuple p I _ tM HM Hj2).
    + by eapply inv_tuple.
Qed.

Lemma delete_run_verified p key hk tr p' :
  Inv p → hash key = Ok hk → delete_run p key hk tr p' →
  VerifyDeletion (VerifierState_of p) tr = Ok (None, VerifierState_of p').
Proof.
  intros I Hk (i & t & tM & tP & Lc & Ek & Et & St & EL & EN & ->).
  destruct (located_facts p i t tM tP I Lc) as (ENM & EPP & N1 & N2 & N3 & _ & _ & Hv).
  pose proof Lc as (Hi & Ht & HM & HP).
  unfold VerifyDeletion, VerifierState_of, MatchKey. cbn. rewrite String.eqb_refl, (inv_root p I), oct_eqb_refl.
  cbn [negb]. rewrite Hv, res_bind_ret, oct_eqb_refl, ENM, EPP, !Z.eqb_refl. cbn [negb orb].
  rewrite Hk, res_bind_ret, Ek, oct_eqb_refl, res_bind_ret. cbn [negb]. rewrite !Hash_leaf, !res_bind_ret.
  rewrite (updateCheckRoot_insert _ _ _ (CopyWithNext tM (Next (Opening t)))), res_bind_ret by
    (first [by eapply inv_pos | by apply leaves_lookup]).
  rewrite hash_leaf, res_bind_ret, (updateCheckRoot_delete _ i), res_bind_ret.
  2: by eapply inv_pos.
  2:{ apply leaves_lookup. unfold delete1. by rewrite lookup_insert_ne. }
  rewrite ?Hash_leaf, ?res_bind_ret. fold (delete2 (tuples p) i t tM).
  rewrite (updateCheckRoot_insert _ _ _ (CopyWithPrev tP (Prev (Opening t)))), res_bind_ret.
  2: by eapply inv_pos.
  2:{ apply leaves_lookup. unfold delete2, delete1. by rewrite lookup_delete_ne, lookup_insert_ne. }
  fold (delete1 (tuples p) t tM). fold (delete2 (tuples p) i t tM). fold (delete3 (tuples p) i t tM tP).
  rewrite oct_eqb_refl. cbn [negb]. rewrite ?Z.eqb_refl, (stored_root p' St), Et, EL, EN. done.
Qed.

(** The map loses the entry. *)
Lemma delete_run_abs p key hk tr p' h :
  Inv p → Inv p' → delete_run p key hk tr p' → abs p' h = if decide (h = hk) then None else abs p h.
Proof.
  intros I I' (i & t & tM & tP & Lc & Ek & Et & _).
  destruct (located_facts p i t tM tP I Lc) as (_ & _ & N1 & N2 & N3 & _). pose proof Lc as (Hi & Ht & HM & HP).
  assert (Hback : ∀ j u, tuples p' !! j = Some u → j ≠ i ∧ ∃ u0, tuples p !! j = Some u0 ∧
    HKey (Opening u) = HKey (Opening u0) ∧ Key u = Key u0 ∧ Value u = Value u0).
  { rewrite Et. intros j u [[-> ->]|[(-> & ? & ->)|(_ & ? & _ & Hj)]]%delete3_Some.
    - split; [done|]. by exists tP.
    - split; [done|]. by exists tM.
    - split; [done|]. by exists u. }
  case_decide as D.
  - subst h. apply absent_abs; [done|]. intros j u (Hj & u0 & Hu & Eku & _)%Hback E. apply Hj.
    apply (lk_inj _ (inv_linked p I) j i (Opening u0) (Opening t)); [by apply openings_Some..|congruence].
  - apply option_eq. intros kv. rewrite !abs_Some by apply I || apply I'. split.
    + intros (j & u & Hj & (_ & u0 & Hu & Eku & Ek1 & Ek2)%Hback & E & Ekv). exists j, u0.
      rewrite <-Eku, <-Ek1, <-Ek2. done.
    + intros (j & u & Hj & Hu & E & Ekv). assert (j ≠ i) by (intros ->; simplify_eq).
      rewrite Et. unfold delete3, delete2, delete1. destruct (decide (j = Next (Opening t))) as [->|];
        [|destruct (decide (j = Prev (Opening t))) as [->|]].
      * exists (Next (Opening t)), (CopyWithPrev tP (Prev (Opening t))). rewrite lookup_insert_eq. by simplify_eq.
      * exists (Prev (Opening t)), (CopyWithNext tM (Next (Opening t))).
        rewrite lookup_insert_ne, lookup_delete_ne, lookup_insert_eq by done. by simplify_eq.
      * exists j, u. by rewrite lookup_insert_ne, lookup_delete_ne, lookup_insert_ne by done.
Qed.

(** ** Update *)

Definition updated (t : tuple) (val : V) hv : tuple := mkTuple (with_HVal (Opening t) hv) (Key t) val.

Definition update_run p (val : V) hk hv (tr : UpdateTrace.t F K V) p' : Prop :=
  let m := tuples p in
  ∃ i t, 2 ≤ i ∧ m !! i = Some t ∧ HKey (Opening t) = hk ∧
    let m' := <[i := updated t val hv]> m in
    tuples p' = m' ∧ stored p' ∧ Location p' = Location p ∧ NextFreeNode p' = NextFreeNode p ∧
    tr = UpdateTrace.mk F K V 0 (Location p) (Key t) (Value t) val (NextFreeNode p) (root_of m) (root_of m')
           (Opening t) (proof_of m i).

Lemma UpdateAndProve_run range p key val hk hv kv :
  Inv p → Mapping.enumerates range (tuples p) → hash key = Ok hk → hash val = Ok hv → abs p hk = Some kv →
  ∃ tr p', UpdateAndProve range p key val = Ok (tr, p') ∧ update_run p val hk hv tr p'.
Proof.
  intros I R Hk Hv (i & t & Hi & Ht & Ek & _)%abs_Some; [|apply I].
  destruct (inv_tuple p I i t Ht Hi) as (_ & Hkt & _).
  destruct (write_leaf (PTree p) (tuples p) (<[i := updated t val hv]> (tuples p)) i
    (leaf_hash (with_HVal (Opening t) hv))) as (T & EU & W' & D' & EP);
    [apply I|apply I|by eapply inv_pos|apply leaves_insert|].
  unfold UpdateAndProve. rewrite (FindKey_found range p key hk i t), res_bind_ret by (done || apply I). cbn [negb].
  rewrite (MustGet_tuples p i t), res_bind_ret, Hk, Hkt, !res_bind_ret, Ek, oct_eqb_refl by done. cbn [negb].
  unfold CopyWithVal. rewrite Hv, !res_bind_ret, Hash_leaf, res_bind_ret. cbn [PTree set_Data].
  fold (with_HVal (Opening t) hv). cbn [Opening].
  rewrite EU, res_bind_ret. cbn [PTree set_Tree]. rewrite EP, res_bind_ret.
  eexists _, _. split; [reflexivity|]. exists i, t. split; [done|]. split; [done|]. split; [done|].
  split; [done|]. split; [done|]. split; [done|]. split; [done|].
  unfold SubTreeRoot. cbn [PTree set_Tree set_Data Location NextFreeNode Key].
  rewrite (inv_root p I). f_equal. by rewrite (wf_root _ _ W'), D', depth_eq.
Qed.

Lemma update_run_Inv p val hk hv tr p' : Inv p → hash val = Ok hv → update_run p val hk hv tr p' → Inv p'.
Proof.
  intros I Hv (i & t & Hi & Ht & _ & Et & [W D] & _ & EN & _).
  split; [done|done|rewrite EN; apply I|..].
  - rewrite Et, EN. intros j u [[<- _]|[_ Hj]]%lookup_insert_Some; by eapply inv_dom.
  - rewrite Et. eapply linked_ext; [intros j; symmetry; apply openings_insert|].
    apply linked_set_val; [apply I|by apply openings_Some].
  - rewrite Et. intros j u [[<- <-]|[_ Hj]]%lookup_insert_Some Hj2; [|by eapply inv_tuple].
    destruct (inv_tuple p I i t Ht Hi) as (Hin & Hk & _). done.
Qed.

Lemma update_run_verified p val hk hv tr p' :
  Inv p → hash val = Ok hv → update_run p val hk hv tr p' →
  UpdateVerify (VerifierState_of p) tr = Ok (None, VerifierState_of p').
Proof.
  intros I Hv (i & t & Hi & Ht & _ & Et & St & EL & EN & ->). pose proof (inv_pos p i t I Ht) as B.
  unfold UpdateVerify, VerifierState_of. cbn. rewrite String.eqb_refl, (inv_root p I), oct_eqb_refl. cbn [negb].
  assert (valid t) as Hvt by by eapply inv_valid.
  replace (mkTuple (Opening t) (Key t) (Value t)) with t by by destruct t.
  rewrite CheckAndLeaf_valid, res_bind_ret, <-(leaves_lookup _ i t Ht) by done.
  rewrite Verify_proof_of, res_bind_ret, Hv, res_bind_ret, hash_leaf, res_bind_ret by done. cbn [Opening].
  rewrite (updateCheckRoot_insert _ i _ (updated t val hv)), res_bind_ret by done.
  rewrite oct_eqb_refl. cbn [negb]. rewrite Z.eqb_refl, (stored_root p' St), Et, EL, EN. done.
Qed.

(** The map changes the value of one key. *)
Lemma update_run_abs p val hk hv tr p' h :
  Inv p → Inv p' → update_run p val hk hv tr p' →
  abs p' h = if decide (h = hk) then (λ kv, (kv.1, val)) <$> abs p h else abs p h.
Proof.
  intros I I' (i & t & Hi & Ht & Ek & Et & _). case_decide as D.
  - subst h. assert (abs p hk = Some (Key t, Value t)) as ->; [apply abs_Some; [apply I|by exists i, t]|].
    simpl. apply abs_Some; [apply I'|]. exists i, (updated t val hv). by rewrite Et, lookup_insert_eq.
  - apply option_eq. intros kv. rewrite !abs_Some by apply I || apply I'. rewrite Et. split.
    + intros (j & u & Hj & [[<- <-]|[_ Hu]]%lookup_insert_Some & E & Ekv); [|by exists j, u].
      by destruct D; rewrite <-E.
    + intros (j & u & Hj & Hu & E & Ekv). exists j, u. rewrite lookup_insert_ne; [done|].
      intros ->. simplify_eq.
Qed.

(** ** Reads *)

Lemma MustProve_inv p i : Inv p → 0 ≤ i < 2 ^ 40 → MustProve (PTree p) i = Ok (proof_of (tuples p) i).
Proof.
  intros I Hi. rewrite (MustProve_spec _ _ _ (inv_tree p I)) by (by rewrite (inv_depth p I)).
  by rewrite (inv_depth p I), depth_eq.
Qed.

Lemma ReadZeroAndProve_complete r1 r2 p key hk :
  Inv p → Mapping.enumerates r1 (tuples p) → Mapping.enumerates r2 (tuples p) →
  hash key = Ok hk → inner hk → abs p hk = None →
  ∃ tr, ReadZeroAndProve r1 r2 p key = Ok tr ∧ ReadZeroTrace.Key tr = key ∧
    ReadZeroVerify (VerifierState_of p) tr = Ok None.
Proof.
  intros I R1 R2 Hk Hin Ha%abs_absent; [|done..].
  destruct (findSandwich_spec r2 p key hk R2 Hk (inv_linked p I) Hin Ha) as (iM & iP & tM & tP & ES & EM & EP & S).
  pose proof S as (_ & _ & HN & HP & _ & _ & K1 & K2).
  pose proof (inv_pos p _ _ I EM) as BM. pose proof (inv_pos p _ _ I EP) as BP.
  unfold ReadZeroAndProve. rewrite (FindKey_absent r1 p key hk), res_bind_ret by done. cbn [snd].
  rewrite ES, res_bind_ret, (MustGet_tuples p iM tM), (MustGet_tuples p iP tP), !res_bind_ret by done.
  rewrite !MustProve_inv, !res_bind_ret by done. eexists. split; [reflexivity|]. split; [done|].
  unfold ReadZeroVerify, VerifierState_of, SubTreeRoot. cbn.
  rewrite String.eqb_refl, (inv_root p I), oct_eqb_refl, HN, HP, !Z.eqb_refl. cbn [negb orb].
  rewrite Hk, res_bind_ret, (proj2 (KoalaOctuplet.Cmp_1 hk _) K1), K2. cbn [Z.ltb Z.compare orb].
  rewrite !hash_leaf, res_bind_ret, <-(leaves_lookup _ _ _ EM), Verify_proof_of, !res_bind_ret by done.
  rewrite <-(leaves_lookup _ _ _ EP), Verify_proof_of, res_bind_ret by done. done.
Qed.

Lemma ReadNonZeroAndProve_complete range p key hk kv :
  Inv p → Mapping.enumerates range (tuples p) → hash key = Ok hk → abs p hk = Some kv →
  ∃ tr, ReadNonZeroAndProve range p key = Ok tr ∧ (ReadNonZeroTrace.Key tr, ReadNonZeroTrace.Value tr) = kv ∧
    ReadNonZeroVerify (VerifierState_of p) tr = Ok None.
Proof.
  intros I R Hk (i & t & Hi & Ht & Ek & Ekv)%abs_Some; [|apply I]. pose proof (inv_pos p i t I Ht) as B.
  destruct (inv_tuple p I i t Ht Hi) as (_ & Hkt & _). assert (valid t) as Hvt by by eapply inv_valid.
  unfold ReadNonZeroAndProve. rewrite (FindKey_found range p key hk i t), res_bind_ret by (done || apply I). cbn [negb].
  rewrite (MustGet_tuples p i t), res_bind_ret, Hk, Hkt, !res_bind_ret, Ek, oct_eqb_refl by done. cbn [negb].
  rewrite MustProve_inv, res_bind_ret by done. eexists. split; [reflexivity|]. split; [done|].
  unfold ReadNonZeroVerify, VerifierState_of, SubTreeRoot. cbn.
  rewrite String.eqb_refl, (inv_root p I), oct_eqb_refl. cbn [negb].
  replace (mkTuple (Opening t) (Key t) (Value t)) with t by by destruct t.
  rewrite CheckAndLeaf_valid, res_bind_ret, <-(leaves_lookup _ i t Ht) by done.
  rewrite Verify_proof_of, res_bind_ret by done. by rewrite Z.eqb_refl.
Qed.
End ops.
End AccumulatorOps.

(** * Runs of the accumulator

    [InitializeProverState] establishes the invariant, and a sequence of operations
    on it behaves as the same sequence on an abstract map: the prover never panics,
    the verifier accepts every trace in turn. *)


Import Smt SmtFacts Accumulator LeafHash SortedList AccumulatorFacts AccumulatorOps.

Module AccumulatorRun.
Section run.
Context `{ElementLaws F, !Poseidon2 F} {HNZ : HashNonZero F} `{WriterTo K, WriterTo V}.
Notation oct := (KoalaOctuplet.t F).
Notation tuple := (KVOpeningTuple F K V).
Implicit Types (p : ProverState F K V) (v : VerifierState F).

(** ** The initial state *)

Lemma NewEmptyTree_default : NewEmptyTree (F := F) [] = NewEmptyTree [40].
Proof. unfold NewEmptyTree. reflexivity. Qed.

Definition initial_tuples (zeroK : K) (zeroV : V) : gmap Z tuple :=
  <[1 := mkTuple Tail zeroK zeroV]> (<[0 := mkTuple Head zeroK zeroV]> ∅).

Lemma initial_Some (zeroK : K) (zeroV : V) i t :
  initial_tuples zeroK zeroV !! i = Some t →
  (i = 0 ∧ t = mkTuple Head zeroK zeroV) ∨ (i = 1 ∧ t = mkTuple Tail zeroK zeroV).
Proof.
  unfold initial_tuples. rewrite !lookup_insert_Some, lookup_empty. naive_solver.
Qed.

Lemma initial_openings (zeroK : K) (zeroV : V) i l :
  openings (initial_tuples zeroK zeroV) i = Some l → (i = 0 ∧ l = Head) ∨ (i = 1 ∧ l = Tail).
Proof.
  unfold openings. intros (t & E & ->)%fmap_Some. apply initial_Some in E as [[-> ->]|[-> ->]]; auto.
Qed.

Lemma initial_linked (zeroK : K) (zeroV : V) : linked (openings (initial_tuples zeroK zeroV)).
Proof.
  pose proof (KoalaOctuplet.zero_ne_max (F := F)) as Hne.
  assert (KoalaOctuplet.lt KoalaOctuplet.zero (KoalaOctuplet.MaxKoalaOctuplet (F := F))) as Hlt
    by by apply KoalaOctuplet.zero_least.
  split.
  - by exists Head.
  - by exists Tail.
  - intros i l [[-> ->]|[-> ->]]%initial_openings Hi; [|done]. by exists Tail.
  - intros i l [[-> ->]|[-> ->]]%initial_openings Hi; [done|]. split; [done|]. by exists Head.
  - intros i l l' j m [[-> ->]|[-> ->]]%initial_openings Hi; [|done].
    intros [[E _]|[_ ->]]%initial_openings; [done|].
    intros [[-> ->]|[-> ->]]%initial_openings; simpl; intros L1 L2; by eapply KoalaOctuplet.lt_irrefl.
  - intros i j l m [[-> ->]|[-> ->]]%initial_openings [[-> ->]|[-> ->]]%initial_openings; simpl; congruence.
Qed.

Lemma InitializeProverState_spec (zeroK : K) (zeroV : V) loc :
  ∃ p, InitializeProverState zeroK zeroV loc = Ok p ∧ Inv p ∧ Location p = loc ∧ NextFreeNode p = 2 ∧
    tuples p = initial_tuples zeroK zeroV.
Proof.
  unfold InitializeProverState. rewrite NewEmptyTree_default, !Hash_leaf, res_bind_ret.
  destruct (NewEmptyTree_wf (F := F) 40 ltac:(lia)) as [W0 D0].
  destruct (write_leaf (K := K) (V := V) (NewEmptyTree [40]) ∅ (<[0 := mkTuple Head zeroK zeroV]> ∅) 0 (leaf_hash Head))
    as (T1 & E1 & W1 & D1 & _); [by eapply wf_ext; [|exact W0]|done|lia|apply leaves_insert|].
  destruct (write_leaf T1 _ (initial_tuples zeroK zeroV) 1 (leaf_hash Tail) W1 D1)
    as (T2 & E2 & W2 & D2 & _); [lia|apply leaves_insert|].
  rewrite E1, !res_bind_ret, E2, res_bind_ret.
  rewrite (Mapping.InsertNew_fresh Mapping.NewMapping), res_bind_ret by apply lookup_empty.
  rewrite Mapping.InsertNew_fresh, res_bind_ret by (simpl; by rewrite lookup_insert_ne).
  clear E1 E2 W0 W1 D0 D1. eexists. split; [reflexivity|]. split; [|done]. split; [exact W2|exact D2|simpl; lia|..].
  - intros i t Hi. destruct (initial_Some _ _ _ _ Hi) as [[-> _]|[-> _]]; simpl; lia.
  - apply initial_linked.
  - intros i t Hi Hge. destruct (initial_Some _ _ _ _ Hi) as [[-> _]|[-> _]]; lia.
Qed.

(** ** Sequences of operations *)

Inductive op : Type :=
| Insert (k : K) (v : V)
| Delete (k : K)
| Update (k : K) (v : V)
| ReadZero (k : K)
| ReadNonZero (k : K).

Inductive trace : Type :=
| TInsert (tr : InsertionTrace.t F K V)
| TDelete (tr : DeletionTrace.t F K V)
| TUpdate (tr : UpdateTrace.t F K V)
| TReadZero (tr : ReadZeroTrace.t F K V)
| TReadNonZero (tr : ReadNonZeroTrace.t F K V).

(** The prover serves one operation; [r1] and [r2] are the orders of its scans. *)
Definition prove_op (r1 r2 : list (Z * tuple)) p (o : op) : res (trace * ProverState F K V) :=
  match o with
  | Insert k v => r ← InsertAndProve r1 r2 p k v; Ok (TInsert r.1, r.2)
  | Delete k => r ← DeleteAndProve r1 p k; Ok (TDelete r.1, r.2)
  | Update k v => r ← UpdateAndProve r1 p k v; Ok (TUpdate r.1, r.2)
  | ReadZero k => r ← ReadZeroAndProve r1 r2 p k; Ok (TReadZero r, p)
  | ReadNonZero k => r ← ReadNonZeroAndProve r1 p k; Ok (TReadNonZero r, p)
  end.

Definition verify_trace v (tr : trace) : res (gerr * VerifierState F) :=
  match tr with
  | TInsert tr => VerifyInsertion v tr
  | TDelete tr => VerifyDeletion v tr
  | TUpdate tr => UpdateVerify v tr
  | TReadZero tr => e ← ReadZeroVerify v tr; Ok (e, v)
  | TReadNonZero tr => e ← ReadNonZeroVerify v tr; Ok (e, v)
  end.

(** The orders of the scans, one for each step and scan. *)
Definition oracle : Type := nat → gmap Z tuple → list (Z * tuple).
Definition fair (order : oracle) : Prop := ∀ n m, Mapping.enumerates (order n m) m.

Fixpoint prove_ops (order : oracle) (n : nat) p (os : list op) : res (list trace * ProverState F K V) :=
  match os with
  | [] => Ok ([], p)
  | o :: os =>
    r ← prove_op (order (2 * n)%nat (tuples p)) (order (2 * n + 1)%nat (tuples p)) p o;
    rs ← prove_ops order (S n) r.2 os;
    Ok (r.1 :: rs.1, rs.2)
  end.

Fixpoint verify_traces v (trs : list trace) : res (gerr * VerifierState F) :=
  match trs with
  | [] => Ok (None, v)
  | tr :: trs => r ← verify_trace v tr;
    match r with (None, v) => verify_traces v trs | (Some e, v) => Ok (Some e, v) end
  end.

(** ** The abstract map *)

Definition amap : Type := oct → option (K * V).

Definition aset (M : amap) (hk : oct) (x : option (K * V)) : amap := λ h, if decide (h = hk) then x else M h.

Definition ok_of {A} (r : res A) : option A := match r with Ok a => Some a | Panic => None end.

Global Instance inner_dec (hk : oct) : Decision (inner hk).
Proof. unfold inner. apply _. Defined.

(** One operation on the map, with the number of leaves used; [None] when it is not
    allowed: a key that hashes to the head or the tail, an insertion of a key that
    is there, an operation on a key that is not, or a full tree. *)
Definition spec_op (s : amap * Z) (o : op) : option (amap * Z) :=
  let '(M, n) := s in
  match o with
  | Insert k v =>
    hk ← ok_of (hash k); _ ← ok_of (hash (F := F) v);
    match M hk with
    | None => if decide (inner hk ∧ n < 2 ^ 40) then Some (aset M hk (Some (k, v)), n + 1) else None
    | Some _ => None
    end
  | Delete k =>
    hk ← ok_of (hash k); _ ← M hk; Some (aset M hk None, n)
  | Update k v =>
    hk ← ok_of (hash k); _ ← ok_of (hash (F := F) v); kv ← M hk; Some (aset M hk (Some (kv.1, v)), n)
  | ReadZero k =>
    hk ← ok_of (hash k);
    match M hk with None => if decide (inner hk) then Some (M, n) else None | Some _ => None end
  | ReadNonZero k => hk ← ok_of (hash k); _ ← M hk; Some (M, n)
  end.

Fixpoint spec_ops (s : amap * Z) (os : list op) : option (amap * Z) :=
  match os with [] => Some s | o :: os => s' ← spec_op s o; spec_ops s' os end.

(** The prover state [p] implements the abstract state [s]. *)
Definition implements p (s : amap * Z) : Prop :=
  Inv p ∧ (∀ h, abs p h = s.1 h) ∧ NextFreeNode p = s.2.

Lemma ok_of_Some {A} (r : res A) a : ok_of r = Some a ↔ r = Ok a.
Proof. destruct r; naive_solver. Qed.

(** Every allowed operation is served, verified and implemented. *)
Lemma prove_op_implements r1 r2 p s o s' :
  implements p s → Mapping.enumerates r1 (tuples p) → Mapping.enumerates r2 (tuples p) →
  spec_op s o = Some s' →
  ∃ tr p', prove_op r1 r2 p o = Ok (tr, p') ∧ implements p' s' ∧
    verify_trace (VerifierState_of p) tr = Ok (None, VerifierState_of p').
Proof.
  destruct s as [M n]. intros (I & EA & EN) R1 R2. cbn [fst snd] in EA, EN. unfold spec_op, prove_op.
  destruct o as [k v|k|k v|k|k].
  - intros (hk & Hk%ok_of_Some & (hv & Hv%ok_of_Some & E)%bind_Some)%bind_Some.
    destruct (M hk) eqn:EM; [done|]. case_decide as D; [|done]. destruct D as [Hin Hn]. injection E as <-.
    rewrite <-EA in EM. apply abs_absent in EM; [|done..].
    destruct (InsertAndProve_run r1 r2 p k v hk hv) as (tr & p' & -> & Hrun); [done..|lia|].
    assert (Inv p') as I' by (by eapply insert_run_Inv; try done; lia).
    exists (TInsert tr), p'. split; [done|]. split; [|by eapply insert_run_verified; try done; lia].
    split; [done|]. split.
    + intros h. rewrite (insert_run_abs p k v hk hv tr p' h) by done. unfold aset. simpl. by rewrite EA.
    + simpl. destruct Hrun as (? & ? & ? & ? & _ & _ & _ & _ & _ & _ & -> & _). lia.
  - intros (hk & Hk%ok_of_Some & (kv & EM & E)%bind_Some)%bind_Some. injection E as <-.
    rewrite <-EA in EM. destruct (DeleteAndProve_run r1 p k hk kv) as (tr & p' & -> & Hrun); [done..|].
    assert (Inv p') as I' by (by eapply delete_run_Inv).
    exists (TDelete tr), p'. split; [done|]. split; [|by eapply delete_run_verified].
    split; [done|]. split.
    + intros h. rewrite (delete_run_abs p k hk tr p' h) by done. unfold aset. simpl. by rewrite EA.
    + simpl. destruct Hrun as (? & ? & ? & ? & _ & _ & _ & _ & _ & -> & _). lia.
  - intros (hk & Hk%ok_of_Some & (hv & Hv%ok_of_Some & (kv & EM & E)%bind_Some)%bind_Some)%bind_Some.
    injection E as <-. rewrite <-EA in EM.
    destruct (UpdateAndProve_run r1 p k v hk hv kv) as (tr & p' & -> & Hrun); [done..|].
    assert (Inv p') as I' by (by eapply update_run_Inv).
    exists (TUpdate tr), p'. split; [done|]. split; [|by eapply update_run_verified].
    split; [done|]. split.
    + intros h. rewrite (update_run_abs p v hk hv tr p' h) by done. unfold aset. simpl.
      case_decide; [subst; by rewrite EM|by rewrite EA].
    + simpl. destruct Hrun as (? & ? & _ & _ & _ & _ & _ & _ & -> & _). lia.
  - intros (hk & Hk%ok_of_Some & E)%bind_Some. destruct (M hk) eqn:EM; [done|]. case_decide; [|done].
    injection E as <-. rewrite <-EA in EM.
    destruct (ReadZeroAndProve_complete r1 r2 p k hk) as (tr & -> & _ & Ev); [done..|].
    exists (TReadZero tr), p. split; [done|]. split; [done|]. unfold verify_trace. by rewrite Ev.
  - intros (hk & Hk%ok_of_Some & (kv & EM & E)%bind_Some)%bind_Some. injection E as <-. rewrite <-EA in EM.
    destruct (ReadNonZeroAndProve_complete r1 p k hk kv) as (tr & -> & _ & Ev); [done..|].
    exists (TReadNonZero tr), p. split; [done|]. split; [done|]. unfold verify_trace. by rewrite Ev.
Qed.

Lemma prove_ops_implements order n p s os s' :
  fair order → implements p s → spec_ops s os = Some s' →
  ∃ trs p', prove_ops order n p os = Ok (trs, p') ∧ implements p' s' ∧
    verify_traces (VerifierState_of p) trs = Ok (None, VerifierState_of p').
Proof.
  intros Fo. revert n p s. induction os as [|o os IH]; intros n p s Im E; simpl in *.
  - injection E as <-. by exists [], p.
  - apply bind_Some in E as (s1 & E1 & E).
    destruct (prove_op_implements (order (2 * n)%nat (tuples p)) (order (2 * n + 1)%nat (tuples p)) p s o s1)
      as (tr & p1 & EP & Im1 & EV); [done|apply Fo|apply Fo|done|].
    destruct (IH (S n) p1 s1 Im1 E) as (trs & p' & EPs & Im' & EVs).
    exists (tr :: trs), p'. replace (n + (n + 0))%nat with (2 * n)%nat by lia.
    rewrite EP, res_bind_ret. cbn [fst snd]. rewrite EPs, res_bind_ret. cbn [fst snd].
    split; [done|]. split; [done|]. cbn [verify_traces]. by rewrite EV.
Qed.

Lemma initial_implements (zeroK : K) (zeroV : V) loc p :
  InitializeProverState zeroK zeroV loc = Ok p → implements p (λ _, None, 2).
Proof.
  destruct (InitializeProverState_spec zeroK zeroV loc) as (p0 & -> & I & _ & EN & Et). intros [= <-].
  split; [done|]. split; [|done]. intros h. destruct (abs p0 h) as [kv|] eqn:E; [|done].
  apply abs_Some in E as (i & t & Hi & Ht & _); [|apply I]. rewrite Et in Ht.
  apply initial_Some in Ht as [[-> _]|[-> _]]; lia.
Qed.
End run.
Arguments op : clear implicits.
Arguments trace : clear implicits.
End AccumulatorRun.
