(* ===== verification/AccumulatorSound.v ===== *)
(** * Soundness of the verifier

    A verifier that holds a snapshot of a state accepts a trace only if the trace
    is what the prover would have produced on that state, or else the trace and
    the state yield a break of the hash: two inputs of the compression function
    with the same image, or an input that it sends to the empty leaf. The break is
    computed by the functions below, not merely said to exist. *)

From S2P Require Export AccumulatorOps.
Import Smt SmtFacts Binding Accumulator LeafHash SortedList AccumulatorFacts AccumulatorOps.

Module AccumulatorSound.
Section sound.
Context `{ElementLaws F, !Poseidon2 F} {HNZ : HashNonZero F} `{WriterTo K, WriterTo V}.
Notation oct := (KoalaOctuplet.t F).
Notation opening := (LeafOpening F).
Notation tuple := (KVOpeningTuple F K V).
Implicit Types (p : ProverState F K V) (m : gmap Z tuple) (t : tuple) (hk hv : oct) (l : opening).

#[global] Instance opening_eq_dec : EqDecision opening.
Proof. solve_decision. Defined.

Inductive break : Type :=
| Collision (c : inputs (F := F))
| ZeroPreimage (s b : oct).

Definition breaks (a : break) : Prop :=
  match a with Collision c => collision c | ZeroPreimage s b => CompressPoseidon2 s b = EmptyLeaf end.

(** The last compression of the hash of an opening. *)
Definition last_step l : break :=
  ZeroPreimage (foldl CompressPoseidon2 KoalaOctuplet.zero (take 5 (leaf_blocks l)))
    (default KoalaOctuplet.zero (leaf_blocks l !! 5%nat)).

(** The break in an opening [l], with its proof, of a leaf of [m]. *)
Definition leaf_break m (pr : Proof F) (leaf : oct) : option break :=
  Collision <$> path_collision (Path pr) leaf (leaves m (Path pr)) (Siblings pr)
                  (siblings (leaves m) (Path pr) depth).

Definition opening_break m (pr : Proof F) l : option break :=
  or_else (leaf_break m pr (leaf_hash l))
    (match m !! Path pr with
     | Some t => Collision <$> md_collision KoalaOctuplet.zero KoalaOctuplet.zero (leaf_blocks l) (leaf_blocks (Opening t))
     | None => if decide (leaf_hash l = EmptyLeaf) then Some (last_step l) else None
     end).

(** ** Proofs *)

(** The shape of a proof: one sibling for each level. *)
Definition full (pr : Proof F) : Prop := length (Siblings pr) = depth.

Lemma foldl_recover_ix cur ix (sibs : list oct) :
  snd (foldl recover_step (cur, ix) sibs) = Z.shiftr ix (zlen sibs).
Proof.
  revert cur ix. induction sibs as [|x sibs IH]; intros cur ix; [done|].
  cbn [foldl]. rewrite recover_step_join, IH, Z.shiftr_shiftr by apply zlen_nonneg.
  f_equal. unfold zlen. simpl length. lia.
Qed.

(** An accepted proof of full length has its position in the tree. *)
Lemma Verify_path pr leaf root : full pr → Verify pr leaf root = Ok None → 0 ≤ Path pr < 2 ^ 40.
Proof.
  intros Hf E%Verify_Ok. pose proof (foldl_recover_ix leaf (Path pr) (Siblings pr)) as Hix.
  rewrite E in Hix. cbn [snd] in Hix. unfold full, zlen in *. rewrite Hf, depth_Z in Hix.
  rewrite Z.shiftr_div_pow2 in Hix by lia. pose proof (Z.div_mod (Path pr) (2 ^ 40) ltac:(lia)).
  pose proof (Z.mod_pos_bound (Path pr) (2 ^ 40) ltac:(lia)). lia.
Qed.

Lemma proof_eta (pr : Proof F) : pr = {| Path := Path pr; Siblings := Siblings pr |}.
Proof. by destruct pr. Qed.

(** An accepted proof is the honest one, for the leaf that is stored. *)
Lemma Verify_leaf m pr leaf :
  full pr → Verify pr leaf (root_of m) = Ok None →
  (leaf = leaves m (Path pr) ∧ pr = proof_of m (Path pr) ∧ 0 ≤ Path pr < 2 ^ 40) ∨
  ∃ a, leaf_break m pr leaf = Some a ∧ breaks a.
Proof.
  intros Hf Hv. pose proof (Verify_path pr leaf _ Hf Hv) as Hp. apply Verify_Ok in Hv.
  destruct (decide ((leaf, Siblings pr) = (leaves m (Path pr), siblings (leaves m) (Path pr) depth))) as [[= E1 E2]|Hne].
  - left. split; [done|]. split; [|done]. rewrite (proof_eta pr) at 1. by rewrite E2.
  - right. destruct (path_collision_complete (Path pr) leaf (leaves m (Path pr)) (Siblings pr)
      (siblings (leaves m) (Path pr) depth)) as [c Hc].
    + unfold siblings. by rewrite length_fmap, length_seq.
    + done.
    + rewrite Hv, recover_siblings by lia. cbn [fst]. rewrite depth_Z, shiftr_out by lia.
      by rewrite node_upd_id.
    + exists (Collision c). unfold leaf_break. rewrite Hc. split; [done|]. by eapply path_collision_sound.
Qed.

Lemma last_step_breaks l : leaf_hash l = EmptyLeaf → breaks (last_step l).
Proof.
  unfold leaf_hash, last_step, MDHasher.md_blocks. pose proof (to_blocks_length 6 (leaf_elems l)) as L.
  fold (leaf_blocks l) in L. destruct (leaf_blocks l) as [|b0 [|b1 [|b2 [|b3 [|b4 [|b5 [|? ?]]]]]]]; try done.
Qed.

Lemma leaf_break_sound m pr leaf a : leaf_break m pr leaf = Some a → breaks a.
Proof. intros (c & Hc & ->)%fmap_Some. by eapply path_collision_sound. Qed.

Lemma opening_break_sound m pr l a : opening_break m pr l = Some a → breaks a.
Proof.
  apply or_else_sound; [apply leaf_break_sound|]. destruct (m !! Path pr).
  - intros (c & Hc & ->)%fmap_Some. by eapply md_collision_sound.
  - case_decide; [|done]. intros [= <-]. by apply last_step_breaks.
Qed.

(** An accepted opening is the one that is stored. *)
Lemma Verify_opening m pr l :
  full pr → opening_ok l → (∀ i t, m !! i = Some t → opening_ok (Opening t)) →
  Verify pr (leaf_hash l) (root_of m) = Ok None →
  (∃ t, m !! Path pr = Some t ∧ Opening t = l ∧ pr = proof_of m (Path pr) ∧ 0 ≤ Path pr < 2 ^ 40) ∨
  ∃ a, opening_break m pr l = Some a ∧ breaks a.
Proof.
  intros Hf Hl Hm Hv. unfold opening_break.
  destruct (Verify_leaf m pr _ Hf Hv) as [(El & Ep & Hp)|Hb].
  2:{ right. destruct Hb as (a & Ea & Ba). exists a. by rewrite Ea. }
  destruct (leaf_break m pr (leaf_hash l)) as [a|] eqn:Elb.
  { right. exists a. split; [done|]. by eapply leaf_break_sound. }
  cbn [or_else]. unfold leaves in El. destruct (m !! Path pr) as [t|] eqn:Et.
  - destruct (decide (Opening t = l)) as [E|Hne]; [left; by exists t|right].
    destruct (md_collision_complete KoalaOctuplet.zero KoalaOctuplet.zero (leaf_blocks l) (leaf_blocks (Opening t)))
      as [c Hc]; [unfold leaf_blocks; by rewrite !to_blocks_length| |done|].
    + intros E%(f_equal snd). apply Hne. symmetry. apply leaf_blocks_inj; [done|by eapply Hm|exact E].
    + exists (Collision c). rewrite Hc. split; [done|]. by eapply md_collision_sound.
  - right. exists (last_step l). rewrite decide_True by done. split; [done|]. by apply last_step_breaks.
Qed.

(** The first break of two. *)
Lemma or_else_l (o q : option break) a : o = Some a → breaks a → ∃ a, or_else o q = Some a ∧ breaks a.
Proof. intros -> Ha. by exists a. Qed.

Lemma or_else_r (o q : option break) a :
  (∀ a, o = Some a → breaks a) → q = Some a → breaks a → ∃ a, or_else o q = Some a ∧ breaks a.
Proof. intros Ho -> Ha. destruct o as [b|]; [exists b|exists a]; split; eauto. Qed.

(** Keys between two linked leaves are absent. *)
Lemma absent_between p iM tM tP hk :
  Inv p → tuples p !! iM = Some tM → tuples p !! Next (Opening tM) = Some tP →
  KoalaOctuplet.lt (HKey (Opening tM)) hk → KoalaOctuplet.lt hk (HKey (Opening tP)) → absent (tuples p) hk.
Proof.
  intros I EM EP K1 K2 j u Hu <-. pose proof (inv_linked p I) as L. apply openings_Some in EM, EP, Hu.
  apply (lk_gap _ L iM (Opening tM) (Opening tP) j (Opening u)); try done. intros ->.
  destruct (lk_tail _ L) as (l & E & Ek & _). rewrite EM in E. injection E as <-. rewrite Ek in K1.
  destruct (decide (HKey (Opening u) = KoalaOctuplet.MaxKoalaOctuplet)) as [Eu|Hne%KoalaOctuplet.max_greatest];
    [rewrite Eu in K1; by eapply KoalaOctuplet.lt_irrefl|by eapply KoalaOctuplet.lt_asym].
Qed.

(** The pointers of stored openings are positions. *)
Lemma inv_opening_ok p i t : Inv p → tuples p !! i = Some t → opening_ok (Opening t).
Proof.
  intros I Ht. pose proof (openings_Some _ _ _ Ht) as Ot. pose proof (inv_linked p I) as L.
  assert (Hpos : ∀ j, is_Some (openings (tuples p) j) → in_int64 j).
  { intros j [l Hl]. unfold openings in Hl. destruct (tuples p !! j) as [u|] eqn:Eu; [|done].
    pose proof (inv_pos p j u I Eu). unfold in_int64. lia. }
  split.
  - destruct (decide (i = 0)) as [->|Hi].
    + destruct (lk_head _ L) as (l & E & _ & EP). rewrite Ot in E. injection E as <-. by rewrite EP.
    + destruct (lk_prev _ L i _ Ot Hi) as (_ & l & E & _). apply Hpos. by exists l.
  - destruct (decide (i = 1)) as [->|Hi].
    + destruct (lk_tail _ L) as (l & E & _ & EN). rewrite Ot in E. injection E as <-. by rewrite EN.
    + destruct (lk_next _ L i _ Ot Hi) as (l & E & _). apply Hpos. by exists l.
Qed.

Lemma Verify_opening_inv p pr l :
  Inv p → full pr → opening_ok l → Verify pr (leaf_hash l) (root_of (tuples p)) = Ok None →
  (∃ t, tuples p !! Path pr = Some t ∧ Opening t = l ∧ pr = proof_of (tuples p) (Path pr) ∧ 0 ≤ Path pr < 2 ^ 40) ∨
  ∃ a, opening_break (tuples p) pr l = Some a ∧ breaks a.
Proof. intros I Hf Hl. apply Verify_opening; [done|done|]. intros i t. by apply inv_opening_ok. Qed.

Lemma absent_inner p hk : Inv p → absent (tuples p) hk → inner hk.
Proof.
  intros I Ha. destruct (lk_head _ (inv_linked p I)) as (l & E & Ek & _), (lk_tail _ (inv_linked p I)) as (l' & E' & Ek' & _).
  unfold openings in E, E'. destruct (tuples p !! 0) as [t0|] eqn:E0; [|done]. destruct (tuples p !! 1) as [t1|] eqn:E1; [|done].
  injection E as <-. injection E' as <-. apply Ha in E0, E1. split; congruence.
Qed.

(** A key has one place in the list. *)
Lemma sandwich_unique p hk iM iP iM' iP' tM tP tM' tP' :
  Inv p → tuples p !! iM = Some tM → tuples p !! iP = Some tP →
  tuples p !! iM' = Some tM' → tuples p !! iP' = Some tP' →
  Next (Opening tM) = iP → KoalaOctuplet.lt (HKey (Opening tM)) hk → KoalaOctuplet.lt hk (HKey (Opening tP)) →
  sandwich (openings (tuples p)) hk iM' iP' (Opening tM') (Opening tP') →
  iM = iM' ∧ iP = iP' ∧ tM' = tM ∧ tP' = tP.
Proof.
  intros I EM EP EM' EP' LN K1 K2 S. pose proof S as (_ & _ & LN' & _).
  assert (iM = iM') as <-; [|assert (tM' = tM) as -> by congruence; assert (iP = iP') as <- by congruence;
    repeat split; congruence].
  apply (gap_unique _ iM' iP' hk (Opening tM') (Opening tP') (inv_linked p I) S iM (Opening tM) (Opening tP));
    [by apply openings_Some| |rewrite LN; by apply openings_Some|done|done].
  intros ->. destruct (lk_tail _ (inv_linked p I)) as (l & E & Ek & _). unfold openings in E. rewrite EM in E.
  injection E as <-. rewrite Ek in K1.
  destruct (decide (hk = KoalaOctuplet.MaxKoalaOctuplet)) as [->|Hne%KoalaOctuplet.max_greatest];
    [by eapply KoalaOctuplet.lt_irrefl|by eapply KoalaOctuplet.lt_asym].
Qed.

(** ** Read zero *)

Definition readzero_break p (tr : ReadZeroTrace.t F K V) : option break :=
  or_else (opening_break (tuples p) (ReadZeroTrace.ProofMinus tr) (ReadZeroTrace.OpeningMinus tr))
    (opening_break (tuples p) (ReadZeroTrace.ProofPlus tr) (ReadZeroTrace.OpeningPlus tr)).

(** The Go types of the fields and the length of the proofs. *)
Definition readzero_typed (tr : ReadZeroTrace.t F K V) : Prop :=
  full (ReadZeroTrace.ProofMinus tr) ∧ full (ReadZeroTrace.ProofPlus tr) ∧
  opening_ok (ReadZeroTrace.OpeningMinus tr) ∧ opening_ok (ReadZeroTrace.OpeningPlus tr).

Lemma sandwich_check (hk a b : oct) :
  (KoalaOctuplet.Cmp hk a <? 1) || (-1 <? KoalaOctuplet.Cmp hk b) = false ↔
  KoalaOctuplet.lt a hk ∧ KoalaOctuplet.lt hk b.
Proof.
  rewrite orb_false_iff, !Z.ltb_ge, <-KoalaOctuplet.Cmp_1. unfold KoalaOctuplet.lt.
  pose proof (KoalaOctuplet.Cmp_range hk a). pose proof (KoalaOctuplet.Cmp_range hk b). lia.
Qed.

Lemma links_check (a b c d : Z) : negb (a =? b) || negb (c =? d) = false ↔ a = b ∧ c = d.
Proof. rewrite orb_false_iff, !negb_false_iff, !Z.eqb_eq. done. Qed.

(** What [ReadZeroVerify] checks. *)
Lemma ReadZeroVerify_accepts v (tr : ReadZeroTrace.t F K V) :
  ReadZeroVerify v tr = Ok None ↔
  ∃ hk, v_Location v = ReadZeroTrace.Location tr ∧ v_SubTreeRoot v = ReadZeroTrace.SubRoot tr ∧
    (Next (ReadZeroTrace.OpeningMinus tr) = Path (ReadZeroTrace.ProofPlus tr) ∧
     Prev (ReadZeroTrace.OpeningPlus tr) = Path (ReadZeroTrace.ProofMinus tr)) ∧
    hash (ReadZeroTrace.Key tr) = Ok hk ∧
    (KoalaOctuplet.lt (HKey (ReadZeroTrace.OpeningMinus tr)) hk ∧
     KoalaOctuplet.lt hk (HKey (ReadZeroTrace.OpeningPlus tr))) ∧
    Verify (ReadZeroTrace.ProofMinus tr) (leaf_hash (ReadZeroTrace.OpeningMinus tr)) (ReadZeroTrace.SubRoot tr) = Ok None ∧
    Verify (ReadZeroTrace.ProofPlus tr) (leaf_hash (ReadZeroTrace.OpeningPlus tr)) (ReadZeroTrace.SubRoot tr) = Ok None ∧
    v_NextFreeNode v = ReadZeroTrace.NextFreeNode tr.
Proof.
  unfold ReadZeroVerify. split.
  - destruct (String.eqb_spec (v_Location v) (ReadZeroTrace.Location tr)) as [EL|]; [cbn [negb]|done].
    destruct (oct_eqb (v_SubTreeRoot v) _) eqn:ER; [apply oct_eqb_true in ER; cbn [negb]|done].
    destruct (negb _ || negb _) eqn:EK; [done|]. apply links_check in EK.
    destruct (hash (ReadZeroTrace.Key tr)) as [hk|]; [rewrite res_bind_ret|done].
    destruct ((_ <? _) || _) eqn:ES; [done|]. apply sandwich_check in ES.
    rewrite !hash_leaf, res_bind_ret. destruct (Verify (ReadZeroTrace.ProofMinus tr) _ _) as [[|]|]; [done| |done].
    rewrite !res_bind_ret. destruct (Verify (ReadZeroTrace.ProofPlus tr) _ _) as [[|]|]; [done| |done].
    rewrite res_bind_ret. destruct (Z.eqb_spec (v_NextFreeNode v) (ReadZeroTrace.NextFreeNode tr)); [|done].
    intros _. by exists hk.
  - intros (hk & -> & -> & ->%links_check & -> & ES & E1 & E2 & ->). rewrite String.eqb_refl, oct_eqb_refl.
    cbn [negb]. rewrite res_bind_ret, (proj2 (sandwich_check _ _ _) ES), !hash_leaf, !res_bind_ret.
    rewrite E1, !res_bind_ret, E2, res_bind_ret. by rewrite Z.eqb_refl.
Qed.

Lemma readzero_sound p tr :
  Inv p → readzero_typed tr → ReadZeroVerify (VerifierState_of p) tr = Ok None →
  (∃ hk, hash (ReadZeroTrace.Key tr) = Ok hk ∧ abs p hk = None) ∨
  ∃ a, readzero_break p tr = Some a ∧ breaks a.
Proof.
  intros I (F1 & F2 & O1 & O2) (hk & _ & ER & [LN LP] & Hk & [K1 K2] & V1 & V2 & _)%ReadZeroVerify_accepts.
  cbn in ER. rewrite (inv_root p I) in ER. rewrite <-ER in V1, V2. unfold readzero_break.
  destruct (Verify_opening_inv p _ _ I F1 O1 V1) as [(tM & EM & OM & _)|(a & Ea & Ba)];
    [|right; by eapply or_else_l].
  destruct (Verify_opening_inv p _ _ I F2 O2 V2) as [(tP & EP & OP & _)|(a & Ea & Ba)];
    [|right; by eapply or_else_r; [apply opening_break_sound|..]].
  left. exists hk. split; [done|]. apply absent_abs; [done|].
  apply (absent_between p (Path (ReadZeroTrace.ProofMinus tr)) tM tP); congruence.
Qed.

(** ** Read non zero *)

Definition readnonzero_break p (tr : ReadNonZeroTrace.t F K V) : option break :=
  opening_break (tuples p) (ReadNonZeroTrace.Proof_ tr) (ReadNonZeroTrace.LeafOpening_ tr).

Definition readnonzero_typed (tr : ReadNonZeroTrace.t F K V) : Prop :=
  full (ReadNonZeroTrace.Proof_ tr) ∧ opening_ok (ReadNonZeroTrace.LeafOpening_ tr).

Lemma ReadNonZeroVerify_accepts v (tr : ReadNonZeroTrace.t F K V) :
  ReadNonZeroVerify v tr = Ok None ↔
  v_Location v = ReadNonZeroTrace.Location tr ∧ v_SubTreeRoot v = ReadNonZeroTrace.SubRoot tr ∧
  valid (mkTuple (ReadNonZeroTrace.LeafOpening_ tr) (ReadNonZeroTrace.Key tr) (ReadNonZeroTrace.Value tr)) ∧
  Verify (ReadNonZeroTrace.Proof_ tr) (leaf_hash (ReadNonZeroTrace.LeafOpening_ tr)) (ReadNonZeroTrace.SubRoot tr)
    = Ok None ∧
  v_NextFreeNode v = ReadNonZeroTrace.NextFreeNode tr.
Proof.
  unfold ReadNonZeroVerify. split.
  - destruct (String.eqb_spec (v_Location v) (ReadNonZeroTrace.Location tr)) as [EL|]; [cbn [negb]|done].
    destruct (oct_eqb (v_SubTreeRoot v) _) eqn:ER; [apply oct_eqb_true in ER; cbn [negb]|done].
    destruct (CheckAndLeaf _) as [[leaf [|]]|] eqn:EC; [done| |done]. rewrite res_bind_ret.
    apply CheckAndLeaf_inv in EC as [-> Hv]. cbn [Opening].
    destruct (Verify _ _ _) as [[|]|]; [done| |done]. rewrite res_bind_ret.
    by destruct (Z.eqb_spec (v_NextFreeNode v) (ReadNonZeroTrace.NextFreeNode tr)).
  - intros (-> & -> & Hv & E & ->). rewrite String.eqb_refl, oct_eqb_refl. cbn [negb].
    rewrite CheckAndLeaf_valid, res_bind_ret by done. cbn [Opening]. rewrite E, res_bind_ret. by rewrite Z.eqb_refl.
Qed.

Lemma inner_leaf p i t : Inv p → tuples p !! i = Some t → inner (HKey (Opening t)) → 2 ≤ i.
Proof.
  intros I Ht [N0 N1]. pose proof (inv_dom p I i t Ht). pose proof (openings_Some _ _ _ Ht) as Ot.
  destruct (decide (2 ≤ i)) as [|]; [done|]. exfalso. assert (i = 0 ∨ i = 1) as [->| ->] by lia.
  - destruct (lk_head _ (inv_linked p I)) as (l & E & Ek & _). rewrite Ot in E. injection E as <-. done.
  - destruct (lk_tail _ (inv_linked p I)) as (l & E & Ek & _). rewrite Ot in E. injection E as <-. done.
Qed.

Lemma readnonzero_sound p tr :
  Inv p → readnonzero_typed tr → HeadOrTail (ReadNonZeroTrace.LeafOpening_ tr) = false →
  ReadNonZeroVerify (VerifierState_of p) tr = Ok None →
  (∃ hk hv kv, hash (ReadNonZeroTrace.Key tr) = Ok hk ∧ hash (ReadNonZeroTrace.Value tr) = Ok hv ∧
     abs p hk = Some kv ∧ hash kv.2 = Ok hv) ∨
  ∃ a, readnonzero_break p tr = Some a ∧ breaks a.
Proof.
  intros I (F1 & O1) Hin (_ & ER & Hv & V1 & _)%ReadNonZeroVerify_accepts.
  cbn in ER. rewrite (inv_root p I) in ER. rewrite <-ER in V1.
  destruct (Verify_opening_inv p _ _ I F1 O1 V1) as [(t & Et & Ot & _)|Hb]; [left|by right].
  destruct Hv as [Hv|(Hi & Hk & Hval)]; cbn [Opening Key Value] in *; [congruence|].
  rewrite <-Ot in Hi. pose proof (inner_leaf p _ t I Et Hi) as H2'.
  destruct (inv_tuple p I _ t Et H2') as (_ & Hkt & Hvt). rewrite <-Ot in Hk, Hval.
  eexists _, _, (Key t, Value t). split; [exact Hk|]. split; [exact Hval|]. split; [|exact Hvt].
  apply abs_Some; [apply I|]. eexists _, t. done.
Qed.

(** ** Chains of updates *)

Lemma RecoverRoot_None pr (leaf : oct) r : RecoverRoot pr leaf = Ok r → r.2 = None.
Proof.
  unfold RecoverRoot. destruct (foldl _ _ _) as [cur ix]. destruct (negb _); [done|]. by intros [= <-].
Qed.

Lemma updateCheckRoot_accepts pr (root old new r : oct) :
  updateCheckRoot pr root old new = Ok (r, None) ↔
  Verify pr old root = Ok None ∧ RecoverRoot pr new = Ok (r, None).
Proof.
  unfold updateCheckRoot. split.
  - destruct (Verify pr old root) as [[|]|]; [done| |done]. rewrite res_bind_ret.
    destruct (RecoverRoot pr new) as [[r' e]|] eqn:E; [|done]. rewrite res_bind_ret. cbn [fst].
    apply RecoverRoot_None in E as E'. cbn in E'. subst e. intros [= <-]. done.
  - intros [-> ->]. done.
Qed.

(** One audited write of an opening: the honest one, or a break. *)
Lemma audit_opening m pr l new r :
  full pr → opening_ok l → (∀ i t, m !! i = Some t → opening_ok (Opening t)) →
  updateCheckRoot pr (root_of m) (leaf_hash l) new = Ok (r, None) →
  (∃ t, m !! Path pr = Some t ∧ Opening t = l ∧
     ∀ m', (∀ j, leaves m' j = upd (leaves m) (Path pr) new j) → r = root_of m') ∨
  ∃ a, opening_break m pr l = Some a ∧ breaks a.
Proof.
  intros Hf Hl Hm [V1 RR]%updateCheckRoot_accepts.
  destruct (Verify_opening m pr l Hf Hl Hm V1) as [(t & Et & Ot & Ep & Hp)|]; [left|by right].
  exists t. split; [done|]. split; [done|]. intros m' E. rewrite Ep in RR.
  rewrite (RecoverRoot_proof_of m m') in RR by done. congruence.
Qed.

Lemma audit_empty m pr new r :
  full pr → updateCheckRoot pr (root_of m) EmptyLeaf new = Ok (r, None) →
  (0 ≤ Path pr < 2 ^ 40 ∧ ∀ m', (∀ j, leaves m' j = upd (leaves m) (Path pr) new j) → r = root_of m') ∨
  ∃ a, leaf_break m pr EmptyLeaf = Some a ∧ breaks a.
Proof.
  intros Hf [V1 RR]%updateCheckRoot_accepts.
  destruct (Verify_leaf m pr _ Hf V1) as [(_ & Ep & Hp)|]; [left|by right].
  split; [done|]. intros m' E. rewrite Ep in RR. rewrite (RecoverRoot_proof_of m m') in RR by done. congruence.
Qed.

(** ** Insertion *)

Definition insertion_break p (tr : InsertionTrace.t F K V) : option break :=
  let m := tuples p in let n := NextFreeNode p in
  let prM := InsertionTrace.ProofMinus tr in let prP := InsertionTrace.ProofPlus tr in
  or_else (opening_break m prM (InsertionTrace.OldOpenMinus tr))
    (match m !! Path prM, hash (InsertionTrace.Key tr), hash (InsertionTrace.Val tr) with
     | Some tM, Ok hk, Ok hv =>
       let new := inserted (InsertionTrace.Key tr) (InsertionTrace.Val tr) (Path prM) (Path prP) hk hv in
       or_else (leaf_break (insert1 m n (Path prM) tM) (InsertionTrace.ProofNew tr) EmptyLeaf)
         (opening_break (insert2 m n (Path prM) tM new) prP (InsertionTrace.OldOpenPlus tr))
     | _, _, _ => None
     end).

Definition insertion_typed (tr : InsertionTrace.t F K V) : Prop :=
  full (InsertionTrace.ProofMinus tr) ∧ full (InsertionTrace.ProofNew tr) ∧ full (InsertionTrace.ProofPlus tr) ∧
  opening_ok (InsertionTrace.OldOpenMinus tr) ∧ opening_ok (InsertionTrace.OldOpenPlus tr).

(** What [VerifyInsertion] checks. *)
Lemma VerifyInsertion_accepts v (tr : InsertionTrace.t F K V) v' :
  VerifyInsertion v tr = Ok (None, v') →
  ∃ hk hv r1 r2,
    v_SubTreeRoot v = InsertionTrace.OldSubRoot tr ∧ Path (InsertionTrace.ProofNew tr) = v_NextFreeNode v ∧
    (Next (InsertionTrace.OldOpenMinus tr) = Path (InsertionTrace.ProofPlus tr) ∧
     Prev (InsertionTrace.OldOpenPlus tr) = Path (InsertionTrace.ProofMinus tr)) ∧
    hash (InsertionTrace.Key tr) = Ok hk ∧ hash (InsertionTrace.Val tr) = Ok hv ∧
    (KoalaOctuplet.lt (HKey (InsertionTrace.OldOpenMinus tr)) hk ∧
     KoalaOctuplet.lt hk (HKey (InsertionTrace.OldOpenPlus tr))) ∧
    updateCheckRoot (InsertionTrace.ProofMinus tr) (InsertionTrace.OldSubRoot tr)
      (leaf_hash (InsertionTrace.OldOpenMinus tr))
      (leaf_hash (opening_CopyWithNext (InsertionTrace.OldOpenMinus tr) (v_NextFreeNode v))) = Ok (r1, None) ∧
    updateCheckRoot (InsertionTrace.ProofNew tr) r1 EmptyLeaf
      (leaf_hash (mkOpening (Path (InsertionTrace.ProofMinus tr)) (Path (InsertionTrace.ProofPlus tr)) hk hv))
      = Ok (r2, None) ∧
    updateCheckRoot (InsertionTrace.ProofPlus tr) r2 (leaf_hash (InsertionTrace.OldOpenPlus tr))
      (leaf_hash (opening_CopyWithPrev (InsertionTrace.OldOpenPlus tr) (v_NextFreeNode v)))
      = Ok (InsertionTrace.NewSubRoot tr, None) ∧
    v' = mkVerifier (v_Location v) (int64 (v_NextFreeNode v + 1)) (InsertionTrace.NewSubRoot tr).
Proof.
  unfold VerifyInsertion. destruct (String.eqb _ _); [cbn [negb]|done].
  destruct (oct_eqb (v_SubTreeRoot v) _) eqn:ER; [apply oct_eqb_true in ER; cbn [negb]|done].
  destruct (Z.eqb_spec (Path (InsertionTrace.ProofNew tr)) (v_NextFreeNode v)) as [EN|]; [cbn [negb]|done].
  destruct (negb _ || negb _) eqn:EK; [done|]. apply links_check in EK.
  destruct (hash (InsertionTrace.Key tr)) as [hk|]; [rewrite res_bind_ret|done].
  destruct ((_ <? _) || _) eqn:ES; [done|]. apply sandwich_check in ES.
  rewrite !Hash_leaf, !res_bind_ret.
  destruct (updateCheckRoot (InsertionTrace.ProofMinus tr) _ _ _) as [[r1 [|]]|] eqn:E1; [done|rewrite res_bind_ret|done].
  destruct (hash (InsertionTrace.Val tr)) as [hv|]; [rewrite res_bind_ret|done].
  rewrite Hash_leaf, res_bind_ret.
  destruct (updateCheckRoot (InsertionTrace.ProofNew tr) _ _ _) as [[r2 [|]]|] eqn:E2; [done|rewrite res_bind_ret|done].
  rewrite ?Hash_leaf, !res_bind_ret.
  destruct (updateCheckRoot (InsertionTrace.ProofPlus tr) _ _ _) as [[r3 [|]]|] eqn:E3; [done|rewrite res_bind_ret|done].
  destruct (oct_eqb r3 _) eqn:ER3; [apply oct_eqb_true in ER3; cbn [negb]|done]. subst r3.
  destruct (negb _); [done|]. intros [= <-]. exists hk, hv, r1, r2. rewrite EN in E3. auto 20.
Qed.

Lemma inv_in_int64 p j t : Inv p → tuples p !! j = Some t → in_int64 j.
Proof. intros I Hj. pose proof (inv_pos p j t I Hj). unfold in_int64. lia. Qed.

Lemma insert2_opening_ok p iM tM (new : tuple) j t :
  Inv p → NextFreeNode p < 2 ^ 40 → tuples p !! iM = Some tM → opening_ok (Opening new) →
  insert2 (tuples p) (NextFreeNode p) iM tM new !! j = Some t → opening_ok (Opening t).
Proof.
  intros I Hn EM On. unfold insert2, insert1. rewrite !lookup_insert_Some.
  intros [[<- <-]|[_ [[<- <-]|[_ Hj]]]]; [done| |by eapply inv_opening_ok].
  pose proof (inv_next p I). split; cbn; [by eapply (inv_opening_ok p iM tM)|unfold in_int64; lia].
Qed.

(** The three audited writes of an insertion are the honest ones, or a break. *)
Lemma insertion_chain p (tr : InsertionTrace.t F K V) v' :
  Inv p → insertion_typed tr → VerifyInsertion (VerifierState_of p) tr = Ok (None, v') →
  (∃ hk hv tM tP,
     let iM := Path (InsertionTrace.ProofMinus tr) in let iP := Path (InsertionTrace.ProofPlus tr) in
     hash (InsertionTrace.Key tr) = Ok hk ∧ hash (InsertionTrace.Val tr) = Ok hv ∧
     NextFreeNode p < 2 ^ 40 ∧ tuples p !! iM = Some tM ∧ tuples p !! iP = Some tP ∧
     Next (Opening tM) = iP ∧ Prev (Opening tP) = iM ∧
     KoalaOctuplet.lt (HKey (Opening tM)) hk ∧ KoalaOctuplet.lt hk (HKey (Opening tP)) ∧
     v' = mkVerifier (Location p) (NextFreeNode p + 1)
            (root_of (insert3 (tuples p) (NextFreeNode p) iM iP tM
               (inserted (InsertionTrace.Key tr) (InsertionTrace.Val tr) iM iP hk hv) tP))) ∨
  ∃ a, insertion_break p tr = Some a ∧ breaks a.
Proof.
  intros I (FM & FN & FP & OM & OP)
    (hk & hv & r1 & r2 & ER & EN & [LN LP] & Hk & Hv & [K1 K2] & U1 & U2 & U3 & ->)%VerifyInsertion_accepts.
  cbn [VerifierState_of v_NextFreeNode v_SubTreeRoot v_Location] in *.
  rewrite (inv_root p I) in ER. rewrite <-ER in U1. unfold insertion_break.
  pose proof (inv_next p I) as Hnx.
  destruct (audit_opening (tuples p) _ _ _ _ FM OM (λ i t, inv_opening_ok p i t I) U1)
    as [(tM & EM & OtM & R1)|(a & Ea & Ba)]; [|right; by eapply or_else_l].
  set (iM := Path (InsertionTrace.ProofMinus tr)) in *. set (iP := Path (InsertionTrace.ProofPlus tr)) in *.
  set (n := NextFreeNode p) in *. set (new := inserted (InsertionTrace.Key tr) (InsertionTrace.Val tr) iM iP hk hv).
  rewrite EM, Hk, Hv. fold new.
  specialize (R1 (insert1 (tuples p) n iM tM)). rewrite R1 in U2 by (rewrite <-OtM; apply leaves_insert).
  destruct (audit_empty _ _ _ _ FN U2) as [(Hn & R2)|(a & Ea & Ba)].
  2:{ right. eapply or_else_r; [apply opening_break_sound| |exact Ba]. by rewrite Ea. }
  rewrite EN in Hn, R2.
  specialize (R2 (insert2 (tuples p) n iM tM new) (leaves_insert _ _ new)). rewrite R2 in U3.
  assert (opening_ok (Opening new)) as Onew.
  { split; cbn; [by eapply inv_in_int64|]. rewrite <-LN. apply OM. }
  destruct (audit_opening _ _ _ _ _ FP OP (λ j t, insert2_opening_ok p iM tM new j t I (proj2 Hn) EM Onew) U3)
    as [(tP & EP & OtP & R3)|(a & Ea & Ba)].
  2:{ right. destruct (or_else_r (leaf_break (insert1 (tuples p) n iM tM) (InsertionTrace.ProofNew tr) EmptyLeaf)
        _ a (leaf_break_sound _ _ _) Ea Ba) as (b & Eb & Bb).
      by eapply or_else_r; [apply opening_break_sound|..]. }
  left. fold iP in EP. unfold insert2, insert1 in EP.
  assert (n ≠ iM) as HnM by (pose proof (inv_dom p I _ _ EM) as DM; fold n in DM; lia).
  assert (iP ≠ n) as HPn.
  { intros E. rewrite E, lookup_insert_eq in EP. injection EP as <-. rewrite <-OtP in K2.
    by eapply KoalaOctuplet.lt_irrefl. }
  assert (iP ≠ iM) as HPM.
  { intros E. rewrite E, (lookup_insert_ne _ n iM), lookup_insert_eq in EP by done. injection EP as <-.
    rewrite <-OtP in K2. rewrite <-OtM in K1. by eapply KoalaOctuplet.lt_asym. }
  rewrite !lookup_insert_ne in EP by done.
  exists hk, hv, tM, tP. cbn zeta. repeat (split; [congruence || lia|]).
  rewrite (R3 (insert3 (tuples p) n iM iP tM new tP)) by (rewrite <-OtP; apply leaves_insert).
  by rewrite int64_id by (unfold in_int64; lia).
Qed.

(** An accepted insertion is the one the prover makes. *)
Lemma insertion_sound p tr v' :
  Inv p → insertion_typed tr → VerifyInsertion (VerifierState_of p) tr = Ok (None, v') →
  (∀ r1 r2, Mapping.enumerates r1 (tuples p) → Mapping.enumerates r2 (tuples p) →
     ∃ tr' p', InsertAndProve r1 r2 p (InsertionTrace.Key tr) (InsertionTrace.Val tr) = Ok (tr', p') ∧
       v' = VerifierState_of p') ∨
  ∃ a, insertion_break p tr = Some a ∧ breaks a.
Proof.
  intros I Ht Hv. destruct (insertion_chain p tr v' I Ht Hv)
    as [(hk & hv & tM & tP & Hk & Hhv & Hn & EM & EP & LN & LP & K1 & K2 & ->)|]; [left|by right].
  intros r1 r2 R1 R2. rewrite <-LN in EP.
  pose proof (absent_between p _ tM tP hk I EM EP K1 K2) as Ha. rewrite LN in EP.
  destruct (InsertAndProve_run r1 r2 p _ _ hk hv I R1 R2 Hk Hhv (absent_inner p hk I Ha) Ha Hn)
    as (tr' & p' & E & iM' & iP' & tM' & tP' & EM' & EP' & S & Et & St & EL & EN & _).
  exists tr', p'. split; [done|]. unfold VerifierState_of. rewrite (stored_root p' St), Et, EL, EN.
  destruct (sandwich_unique p hk _ _ _ _ _ _ _ _ I EM EP EM' EP' LN K1 K2 S) as (<- & <- & -> & ->). done.
Qed.

(** ** Deletion *)

Definition deletion_break p (tr : DeletionTrace.t F K V) : option break :=
  let m := tuples p in
  let prM := DeletionTrace.ProofMinus tr in let prD := DeletionTrace.ProofDeleted tr in
  let prP := DeletionTrace.ProofPlus tr in
  or_else (opening_break m prM (DeletionTrace.OldOpenMinus tr))
    (match m !! Path prM with
     | Some tM =>
       let m1 := <[Path prM := CopyWithNext tM (Path prP)]> m in
       or_else (opening_break m1 prD (DeletionTrace.DeletedOpen tr))
         (opening_break (delete (Path prD) m1) prP (DeletionTrace.OldOpenPlus tr))
     | None => None
     end).

Definition deletion_typed (tr : DeletionTrace.t F K V) : Prop :=
  full (DeletionTrace.ProofMinus tr) ∧ full (DeletionTrace.ProofDeleted tr) ∧ full (DeletionTrace.ProofPlus tr) ∧
  opening_ok (DeletionTrace.OldOpenMinus tr) ∧ opening_ok (DeletionTrace.DeletedOpen tr) ∧
  opening_ok (DeletionTrace.OldOpenPlus tr).

(** What [VerifyDeletion] checks. *)
Lemma VerifyDeletion_accepts v (tr : DeletionTrace.t F K V) v' :
  VerifyDeletion v tr = Ok (None, v') →
  ∃ r1 r2,
    v_SubTreeRoot v = DeletionTrace.OldSubRoot tr ∧
    hash (DeletionTrace.DeletedValue tr) = Ok (HVal (DeletionTrace.DeletedOpen tr)) ∧
    hash (DeletionTrace.Key tr) = Ok (HKey (DeletionTrace.DeletedOpen tr)) ∧
    (Next (DeletionTrace.OldOpenMinus tr) = Path (DeletionTrace.ProofDeleted tr) ∧
     Prev (DeletionTrace.DeletedOpen tr) = Path (DeletionTrace.ProofMinus tr)) ∧
    (Next (DeletionTrace.DeletedOpen tr) = Path (DeletionTrace.ProofPlus tr) ∧
     Prev (DeletionTrace.OldOpenPlus tr) = Path (DeletionTrace.ProofDeleted tr)) ∧
    updateCheckRoot (DeletionTrace.ProofMinus tr) (DeletionTrace.OldSubRoot tr)
      (leaf_hash (DeletionTrace.OldOpenMinus tr))
      (leaf_hash (opening_CopyWithNext (DeletionTrace.OldOpenMinus tr) (Path (DeletionTrace.ProofPlus tr)))) = Ok (r1, None) ∧
    updateCheckRoot (DeletionTrace.ProofDeleted tr) r1 (leaf_hash (DeletionTrace.DeletedOpen tr)) EmptyLeaf = Ok (r2, None) ∧
    updateCheckRoot (DeletionTrace.ProofPlus tr) r2 (leaf_hash (DeletionTrace.OldOpenPlus tr))
      (leaf_hash (opening_CopyWithPrev (DeletionTrace.OldOpenPlus tr) (Path (DeletionTrace.ProofMinus tr))))
      = Ok (DeletionTrace.NewSubRoot tr, None) ∧
    v' = mkVerifier (v_Location v) (v_NextFreeNode v) (DeletionTrace.NewSubRoot tr).
Proof.
  unfold VerifyDeletion, MatchKey. destruct (String.eqb _ _); [cbn [negb]|done].
  destruct (oct_eqb (v_SubTreeRoot v) _) eqn:ER; [apply oct_eqb_true in ER; cbn [negb]|done].
  destruct (hash (DeletionTrace.DeletedValue tr)) as [hv|]; [rewrite res_bind_ret|done].
  destruct (oct_eqb hv _) eqn:Ev; [apply oct_eqb_true in Ev as ->; cbn [negb]|done].
  destruct (negb _ || negb _) eqn:EK1; [done|]. apply links_check in EK1.
  destruct (negb (Next (DeletionTrace.DeletedOpen tr) =? _) || negb _) eqn:EK2; [done|]. apply links_check in EK2.
  destruct (hash (DeletionTrace.Key tr)) as [hk|]; [rewrite res_bind_ret|done].
  rewrite res_bind_ret. destruct (oct_eqb _ hk) eqn:Ek; [apply oct_eqb_true in Ek as <-; cbn [negb]|done].
  rewrite ?hash_leaf, !Hash_leaf, !res_bind_ret.
  destruct (updateCheckRoot (DeletionTrace.ProofMinus tr) _ _ _) as [[r1 [|]]|] eqn:E1; [done|rewrite ?res_bind_ret|done].
  rewrite ?hash_leaf, ?Hash_leaf, ?res_bind_ret.
  destruct (updateCheckRoot (DeletionTrace.ProofDeleted tr) _ _ _) as [[r2 [|]]|] eqn:E2; [done|rewrite ?res_bind_ret|done].
  rewrite ?hash_leaf, ?Hash_leaf, ?res_bind_ret.
  destruct (updateCheckRoot (DeletionTrace.ProofPlus tr) _ _ _) as [[r3 [|]]|] eqn:E3; [done|rewrite ?res_bind_ret|done].
  destruct (oct_eqb r3 _) eqn:ER3; [apply oct_eqb_true in ER3; cbn [negb]|done]. subst r3.
  destruct (negb _); [done|]. intros [= <-]. exists r1, r2. auto 20.
Qed.

(** In a list that is in order, a leaf between two others is neither the head nor
    the tail; [m1] and [m2] are the maps after the first two writes. *)
Lemma deletion_located p iM iD iP tM t tP :
  Inv p →
  let m1 := <[iM := CopyWithNext tM iP]> (tuples p) in
  tuples p !! iM = Some tM → m1 !! iD = Some t → delete iD m1 !! iP = Some tP →
  Next (Opening tM) = iD → Prev (Opening t) = iM → Next (Opening t) = iP →
  located (tuples p) iD t tM tP.
Proof.
  intros I m1 EM ED EP LN LP LN'. pose proof (inv_linked p I) as L. pose proof (openings_Some _ _ _ EM) as OM.
  apply lookup_delete_Some in EP as [HDP EP].
  assert (iD ≠ iM) as HDM.
  { intros ->. unfold m1 in ED. rewrite lookup_insert_eq in ED. injection ED as <-. cbn in LP.
    destruct (decide (iM = 1)) as [->|Hne].
    - by destruct (lk_prev _ L 1 _ OM) as [Hp _].
    - destruct (lk_next _ L iM _ OM Hne) as (l & E & _ & K1). rewrite LN, OM in E. injection E as <-.
      by eapply KoalaOctuplet.lt_irrefl. }
  unfold m1 in ED. rewrite lookup_insert_ne in ED by done. pose proof (openings_Some _ _ _ ED) as OD.
  assert (iD ≠ 1) as HD1.
  { intros ->. destruct (lk_tail _ L) as (l & E & _ & EN). rewrite OD in E. injection E as <-. congruence. }
  assert (iD ≠ 0) as HD0.
  { intros ->. destruct (lk_head _ L) as (l & E & _ & EPv). rewrite OD in E. injection E as <-. congruence. }
  destruct (lk_next _ L iD _ OD HD1) as (lP & ELP & _ & K2). rewrite LN' in ELP.
  assert (iP ≠ iM) as HPM.
  { intros ->. rewrite OM in ELP. injection ELP as <-.
    destruct (lk_prev _ L iD _ OD HD0) as (HM1 & l & E & _). rewrite LP in *. rewrite OM in E. injection E as <-.
    destruct (lk_next _ L iM _ OM HM1) as (l & E & _ & K1). rewrite LN, OD in E. injection E as <-.
    by eapply KoalaOctuplet.lt_asym. }
  unfold m1 in EP. rewrite lookup_insert_ne in EP by done. pose proof (inv_dom p I _ _ ED).
  split; [lia|]. split; [done|]. rewrite LP, LN'. done.
Qed.

Lemma deletion_opening_ok p iM tM iP j t :
  Inv p → tuples p !! iM = Some tM → in_int64 iP →
  <[iM := CopyWithNext tM iP]> (tuples p) !! j = Some t → opening_ok (Opening t).
Proof.
  intros I EM Hi [[<- <-]|[_ Hj]]%lookup_insert_Some; [|by eapply inv_opening_ok].
  split; cbn; [by eapply (inv_opening_ok p iM tM)|done].
Qed.

Lemma deletion_opening_ok' p iM tM iP iD j t :
  Inv p → tuples p !! iM = Some tM → in_int64 iP →
  delete iD (<[iM := CopyWithNext tM iP]> (tuples p)) !! j = Some t → opening_ok (Opening t).
Proof. intros I EM Hi [_ Hj]%lookup_delete_Some. by eapply deletion_opening_ok. Qed.

(** An accepted deletion is the one the prover makes. *)
Lemma deletion_sound p tr v' :
  Inv p → deletion_typed tr → VerifyDeletion (VerifierState_of p) tr = Ok (None, v') →
  (∀ range, Mapping.enumerates range (tuples p) →
     ∃ tr' p', DeleteAndProve range p (DeletionTrace.Key tr) = Ok (tr', p') ∧ v' = VerifierState_of p') ∨
  ∃ a, deletion_break p tr = Some a ∧ breaks a.
Proof.
  intros I (FM & FD & FP & OM & OD & OP)
    (r1 & r2 & ER & Hv & Hk & [LN LP] & [LN' LP'] & U1 & U2 & U3 & ->)%VerifyDeletion_accepts.
  cbn [VerifierState_of v_NextFreeNode v_SubTreeRoot v_Location] in *.
  rewrite (inv_root p I) in ER. rewrite <-ER in U1. unfold deletion_break.
  set (iM := Path (DeletionTrace.ProofMinus tr)) in *. set (iP := Path (DeletionTrace.ProofPlus tr)) in *.
  set (iD := Path (DeletionTrace.ProofDeleted tr)) in *.
  destruct (audit_opening (tuples p) _ _ _ _ FM OM (λ i t, inv_opening_ok p i t I) U1)
    as [(tM & EM & OtM & R1)|(a & Ea & Ba)]; [|right; by eapply or_else_l].
  fold iM in EM, R1. rewrite EM. set (m1 := <[iM := CopyWithNext tM iP]> (tuples p)) in *.
  rewrite (R1 m1) in U2 by (rewrite <-OtM; apply leaves_insert).
  assert (in_int64 iP) as HiP by (rewrite <-LN'; apply OD).
  destruct (audit_opening m1 _ _ _ _ FD OD (λ j t, deletion_opening_ok p iM tM iP j t I EM HiP) U2)
    as [(t & Et & Ot & R2)|(a & Ea & Ba)].
  2:{ right. eapply or_else_r; [apply opening_break_sound| |exact Ba]. by rewrite Ea. }
  fold iD in Et, R2. rewrite (R2 (delete iD m1)) in U3 by apply leaves_delete.
  destruct (audit_opening (delete iD m1) _ _ _ _ FP OP (λ j t, deletion_opening_ok' p iM tM iP iD j t I EM HiP) U3)
    as [(tP & EP & OtP & R3)|(a & Ea & Ba)].
  2:{ right. destruct (or_else_r (opening_break m1 (DeletionTrace.ProofDeleted tr) (DeletionTrace.DeletedOpen tr))
        _ a (opening_break_sound _ _ _) Ea Ba) as (b & Eb & Bb).
      by eapply or_else_r; [apply opening_break_sound|..]. }
  fold iP in EP, R3. left. intros range R.
  assert (located (tuples p) iD t tM tP) as Lc by (apply (deletion_located p iM iD iP tM t tP I EM Et EP); congruence).
  pose proof Lc as (Hi & Ht & HM & HP). rewrite <-Ot in Hk.
  destruct (DeleteAndProve_run range p (DeletionTrace.Key tr) _ (Key t, Value t) I R Hk)
    as (tr' & p' & E & i' & t' & tM' & tP' & (Hi' & Ht' & HM' & HP') & Ek & Et' & St & EL & EN & _).
  { apply abs_Some; [apply I|]. by exists iD, t. }
  exists tr', p'. split; [done|]. unfold VerifierState_of. rewrite (stored_root p' St), Et', EL, EN.
  assert (i' = iD) as -> by (eapply (lk_inj _ (inv_linked p I)); [by apply openings_Some..|done]).
  assert (t' = t) as -> by congruence. assert (tM' = tM) as -> by congruence. assert (tP' = tP) as -> by congruence.
  f_equal. rewrite <-OtP in R3. apply R3. intros j. unfold delete3, delete2, delete1.
  assert (Prev (Opening t) = iM) as -> by congruence. assert (Next (Opening t) = iP) as -> by congruence.
  apply leaves_insert.
Qed.

(** ** Update *)

Definition update_break p (tr : UpdateTrace.t F K V) : option break :=
  opening_break (tuples p) (UpdateTrace.Proof_ tr) (UpdateTrace.OldOpening tr).

Definition update_typed (tr : UpdateTrace.t F K V) : Prop :=
  full (UpdateTrace.Proof_ tr) ∧ opening_ok (UpdateTrace.OldOpening tr).

(** What [UpdateVerify] checks. *)
Lemma UpdateVerify_accepts v (tr : UpdateTrace.t F K V) v' :
  UpdateVerify v tr = Ok (None, v') →
  ∃ hv,
    v_SubTreeRoot v = UpdateTrace.OldSubRoot tr ∧
    valid (mkTuple (UpdateTrace.OldOpening tr) (UpdateTrace.Key tr) (UpdateTrace.OldValue tr)) ∧
    hash (UpdateTrace.NewValue tr) = Ok hv ∧
    updateCheckRoot (UpdateTrace.Proof_ tr) (UpdateTrace.OldSubRoot tr) (leaf_hash (UpdateTrace.OldOpening tr))
      (leaf_hash (with_HVal (UpdateTrace.OldOpening tr) hv)) = Ok (UpdateTrace.NewSubRoot tr, None) ∧
    v' = mkVerifier (v_Location v) (v_NextFreeNode v) (UpdateTrace.NewSubRoot tr).
Proof.
  unfold UpdateVerify. destruct (String.eqb _ _); [cbn [negb]|done].
  destruct (oct_eqb (v_SubTreeRoot v) _) eqn:ER; [apply oct_eqb_true in ER; cbn [negb]|done].
  destruct (CheckAndLeaf _) as [[leaf [|]]|] eqn:EC; [done| |done]. rewrite res_bind_ret.
  apply CheckAndLeaf_inv in EC as [-> Hv]. cbn [Opening].
  destruct (Verify _ _ _) as [[|]|]; [done| |done]. rewrite res_bind_ret.
  destruct (hash (UpdateTrace.NewValue tr)) as [hv|]; [rewrite res_bind_ret|done].
  rewrite hash_leaf, res_bind_ret.
  destruct (updateCheckRoot _ _ _ _) as [[r [|]]|] eqn:EU; [done|rewrite res_bind_ret|done].
  destruct (oct_eqb r _) eqn:Er; [apply oct_eqb_true in Er; cbn [negb]|done]. subst r.
  destruct (negb _); [done|]. intros [= <-]. exists hv. auto 20.
Qed.

(** An accepted update of a leaf other than the head and the tail is the one the
    prover makes. *)
Lemma update_sound p tr v' :
  Inv p → update_typed tr → HeadOrTail (UpdateTrace.OldOpening tr) = false →
  UpdateVerify (VerifierState_of p) tr = Ok (None, v') →
  (∀ range, Mapping.enumerates range (tuples p) →
     ∃ tr' p', UpdateAndProve range p (UpdateTrace.Key tr) (UpdateTrace.NewValue tr) = Ok (tr', p') ∧
       v' = VerifierState_of p') ∨
  ∃ a, update_break p tr = Some a ∧ breaks a.
Proof.
  intros I (F1 & O1) Hin (hv & ER & Hv & Hn & U1 & ->)%UpdateVerify_accepts.
  cbn [VerifierState_of v_NextFreeNode v_SubTreeRoot v_Location] in *. rewrite (inv_root p I) in ER. rewrite <-ER in U1.
  destruct (audit_opening (tuples p) _ _ _ _ F1 O1 (λ i t, inv_opening_ok p i t I) U1)
    as [(t & Et & Ot & R1)|Hb]; [left|by right].
  destruct Hv as [Hv|(Hi & Hk & Hval)]; cbn [Opening Key Value] in *; [congruence|].
  rewrite <-Ot in Hi. pose proof (inner_leaf p _ t I Et Hi) as Hge. intros range R. rewrite <-Ot in Hk.
  destruct (UpdateAndProve_run range p (UpdateTrace.Key tr) (UpdateTrace.NewValue tr) _ hv (Key t, Value t) I R Hk Hn)
    as (tr' & p' & E & i' & t' & Hi' & Ht' & Ek & Et' & St & EL & EN & _).
  { apply abs_Some; [apply I|]. by exists (Path (UpdateTrace.Proof_ tr)), t. }
  exists tr', p'. split; [done|]. unfold VerifierState_of. rewrite (stored_root p' St), Et', EL, EN.
  assert (i' = Path (UpdateTrace.Proof_ tr)) as -> by (eapply (lk_inj _ (inv_linked p I)); [by apply openings_Some..|done]).
  assert (t' = t) as -> by congruence. f_equal. apply R1. rewrite <-Ot. apply leaves_insert.
Qed.

(** ** The head and the tail *)

(** [CheckAndLeaf] does not compare the key and the value of a tuple with an opening
    of the head: the verifier takes the head for any key and any value. *)
Definition head_trace p (key : K) (val : V) (t0 : tuple) : ReadNonZeroTrace.t F K V :=
  ReadNonZeroTrace.mk F K V 0 (Location p) (NextFreeNode p) key val (root_of (tuples p)) (Opening t0)
    (proof_of (tuples p) 0).

Lemma head_trace_accepted p key val t0 :
  Inv p → tuples p !! 0 = Some t0 → ReadNonZeroVerify (VerifierState_of p) (head_trace p key val t0) = Ok None.
Proof.
  intros I E0. apply ReadNonZeroVerify_accepts. unfold head_trace, VerifierState_of.
  cbn [v_Location v_SubTreeRoot v_NextFreeNode ReadNonZeroTrace.Location ReadNonZeroTrace.SubRoot
    ReadNonZeroTrace.LeafOpening_ ReadNonZeroTrace.Key ReadNonZeroTrace.Value ReadNonZeroTrace.Proof_]. split; [done|]. split; [by rewrite (inv_root p I)|].
  split; [|split; [|done]].
  - destruct (inv_valid p 0 t0 I E0) as [Hv|(Hi & _)]; [by left|].
    pose proof (inner_leaf p 0 t0 I E0 Hi). lia.
  - rewrite <-(leaves_lookup _ _ _ E0). apply Verify_proof_of. lia.
Qed.
End sound.
End AccumulatorSound.

(** * Deferred Merkle checks

    The traces implement [DeferMerkleChecks], which collects the Merkle claims of a
    verification instead of checking them. The claims of an accepted trace hold,
    and for a trace whose other checks pass, claims that hold are enough. *)


Import Smt SmtFacts Binding Accumulator LeafHash SortedList AccumulatorFacts AccumulatorOps AccumulatorRun AccumulatorSound.

Module AccumulatorDefer.
Section defer.
Context `{ElementLaws F, !Poseidon2 F} `{WriterTo K, WriterTo V}.
Notation oct := (KoalaOctuplet.t F).
Implicit Types (acc : list (ProvedClaim F)).

Definition holds (c : ProvedClaim F) : Prop := Verify (claim_Proof c) (claim_Leaf c) (claim_Root c) = Ok None.

(** [DeferMerkleChecks] of any of the traces, through the interface. *)
Definition defer (tr : trace F K V) acc : res (list (ProvedClaim F)) :=
  match tr with
  | TInsert tr => DeferMerkleChecks tr acc
  | TDelete tr => DeferMerkleChecks tr acc
  | TUpdate tr => DeferMerkleChecks tr acc
  | TReadZero tr => DeferMerkleChecks tr acc
  | TReadNonZero tr => DeferMerkleChecks tr acc
  end.

Lemma RecoverRoot_Verify pr (leaf r : oct) : RecoverRoot pr leaf = Ok (r, None) → Verify pr leaf r = Ok None.
Proof. intros E. unfold Verify. rewrite E, res_bind_ret. by rewrite bool_decide_true. Qed.

Definition update_claims pr (root old new r : oct) : list (ProvedClaim F) := [mkClaim pr root old; mkClaim pr r new].

Lemma defer_step pr (root old new r : oct) acc :
  updateCheckRoot pr root old new = Ok (r, None) →
  deferCheckUpdateRoot pr root old new acc = Ok (acc ++ update_claims pr root old new r, r) ∧
  Forall holds (update_claims pr root old new r).
Proof.
  intros [EV ER]%updateCheckRoot_accepts. unfold deferCheckUpdateRoot. rewrite ER, res_bind_ret.
  split; [done|]. apply RecoverRoot_Verify in ER. repeat constructor; done.
Qed.

(** The claims hold iff the update is accepted. *)
Lemma defer_step_inv pr (root old new r : oct) acc claims :
  deferCheckUpdateRoot pr root old new acc = Ok (claims, r) →
  claims = acc ++ update_claims pr root old new r ∧
  (Forall holds (update_claims pr root old new r) → updateCheckRoot pr root old new = Ok (r, None)).
Proof.
  unfold deferCheckUpdateRoot. destruct (RecoverRoot pr new) as [[r' [|]]|] eqn:ER; [done| |done].
  rewrite res_bind_ret. intros [= <- <-]. split; [done|]. intros [Hc _]%Forall_cons.
  by apply updateCheckRoot_accepts.
Qed.

Lemma insertion_defer v v' (tr : InsertionTrace.t F K V) acc :
  VerifyInsertion v tr = Ok (None, v') →
  ∃ claims, insertion_DeferMerkleChecks tr acc = Ok (acc ++ claims) ∧ Forall holds claims.
Proof.
  intros (hk & hv & r1 & r2 & ER & EN & _ & Hk & Hv & _ & U1 & U2 & U3 & _)%VerifyInsertion_accepts.
  unfold insertion_DeferMerkleChecks. rewrite Hk, Hv, !Hash_leaf, !res_bind_ret. rewrite <-EN in U1, U3.
  destruct (defer_step _ _ _ _ _ acc U1) as [-> F1]. rewrite !res_bind_ret, ?Hash_leaf, !res_bind_ret.
  destruct (defer_step _ _ _ _ _ (acc ++ update_claims (InsertionTrace.ProofMinus tr) (InsertionTrace.OldSubRoot tr)
    (leaf_hash (InsertionTrace.OldOpenMinus tr)) (leaf_hash (opening_CopyWithNext (InsertionTrace.OldOpenMinus tr)
      (Path (InsertionTrace.ProofNew tr)))) r1) U2) as [-> F2]. rewrite res_bind_ret, ?Hash_leaf, ?res_bind_ret.
  match goal with |- context [deferCheckUpdateRoot _ _ _ _ ?a] => destruct (defer_step _ _ _ _ _ a U3) as [-> F3] end.
  rewrite res_bind_ret. cbn [fst]. rewrite <-!(assoc_L (++)). eexists. split; [reflexivity|].
  rewrite !Forall_app. done.
Qed.

Lemma deletion_defer v v' (tr : DeletionTrace.t F K V) acc :
  VerifyDeletion v tr = Ok (None, v') →
  ∃ claims, deletion_DeferMerkleChecks tr acc = Ok (acc ++ claims) ∧ Forall holds claims.
Proof.
  intros (r1 & r2 & ER & _ & _ & _ & _ & U1 & U2 & U3 & _)%VerifyDeletion_accepts.
  unfold deletion_DeferMerkleChecks. rewrite !Hash_leaf, !res_bind_ret.
  destruct (defer_step _ _ _ _ _ acc U1) as [-> F1]. rewrite res_bind_ret, hash_leaf, res_bind_ret.
  match goal with |- context [deferCheckUpdateRoot _ _ _ _ ?a] => destruct (defer_step _ _ _ _ _ a U2) as [-> F2] end.
  rewrite res_bind_ret, ?Hash_leaf, ?res_bind_ret.
  match goal with |- context [deferCheckUpdateRoot _ _ _ _ ?a] => destruct (defer_step _ _ _ _ _ a U3) as [-> F3] end.
  rewrite res_bind_ret. cbn [fst]. rewrite <-!(assoc_L (++)). eexists. split; [reflexivity|].
  rewrite !Forall_app. done.
Qed.

Lemma update_defer v v' (tr : UpdateTrace.t F K V) acc :
  UpdateVerify v tr = Ok (None, v') →
  ∃ claims, update_DeferMerkleChecks tr acc = Ok (acc ++ claims) ∧ Forall holds claims.
Proof.
  intros (hv & ER & Hv & Hn & U1 & _)%UpdateVerify_accepts. unfold update_DeferMerkleChecks.
  rewrite CheckAndLeaf_valid, res_bind_ret, Hn, res_bind_ret, hash_leaf, res_bind_ret by done. cbn [fst Opening].
  destruct (defer_step _ _ _ _ _ acc U1) as [-> F1]. by eexists.
Qed.

Lemma readzero_defer v (tr : ReadZeroTrace.t F K V) acc :
  ReadZeroVerify v tr = Ok None →
  ∃ claims, readzero_DeferMerkleChecks tr acc = Ok (acc ++ claims) ∧ Forall holds claims.
Proof.
  intros (hk & _ & _ & _ & _ & _ & V1 & V2 & _)%ReadZeroVerify_accepts. unfold readzero_DeferMerkleChecks.
  rewrite !hash_leaf, !res_bind_ret, <-(assoc_L (++)). eexists. split; [reflexivity|]. repeat constructor; done.
Qed.

Lemma readnonzero_defer v (tr : ReadNonZeroTrace.t F K V) acc :
  ReadNonZeroVerify v tr = Ok None →
  ∃ claims, readnonzero_DeferMerkleChecks tr acc = Ok (acc ++ claims) ∧ Forall holds claims.
Proof.
  intros (_ & _ & Hv & V1 & _)%ReadNonZeroVerify_accepts. unfold readnonzero_DeferMerkleChecks.
  rewrite CheckAndLeaf_valid, res_bind_ret by done. eexists. split; [reflexivity|]. repeat constructor; done.
Qed.
End defer.
End AccumulatorDefer.
