(* ===== verification/AccumulatorTheorems.v ===== *)
(** * A concrete run of the accumulator

    The accumulator over the instance [Toy], with octuplets as keys and values: a
    state with two entries, and the traces of the next operations on it. *)

From S2P Require Export Binding AccumulatorSound.
Import Smt SmtFacts Accumulator LeafHash AccumulatorFacts AccumulatorRun AccumulatorSound.

(** The typing of the traces is decidable. *)
Section typed.
Context `{ElementOps F}.
#[global] Instance in_int64_dec z : Decision (in_int64 z).
Proof. unfold in_int64. apply _. Defined.
#[global] Instance full_dec (pr : Proof F) : Decision (full pr).
Proof. unfold full. apply _. Defined.
#[global] Instance opening_ok_dec (l : LeafOpening F) : Decision (opening_ok l).
Proof. unfold opening_ok. apply _. Defined.
Context {K V : Type}.
#[global] Instance insertion_typed_dec (tr : InsertionTrace.t F K V) : Decision (insertion_typed tr).
Proof. unfold insertion_typed. apply _. Defined.
#[global] Instance deletion_typed_dec (tr : DeletionTrace.t F K V) : Decision (deletion_typed tr).
Proof. unfold deletion_typed. apply _. Defined.
#[global] Instance update_typed_dec (tr : UpdateTrace.t F K V) : Decision (update_typed tr).
Proof. unfold update_typed. apply _. Defined.
#[global] Instance readzero_typed_dec (tr : ReadZeroTrace.t F K V) : Decision (readzero_typed tr).
Proof. unfold readzero_typed. apply _. Defined.
#[global] Instance readnonzero_typed_dec (tr : ReadNonZeroTrace.t F K V) : Decision (readnonzero_typed tr).
Proof. unfold readnonzero_typed. apply _. Defined.
End typed.

Module Demo.
Notation oct := Toy.oct.

Definition order : oracle (F := Toy.F) (K := oct) (V := oct) := λ _ m, map_to_list m.

Definition keyA : oct := Toy.word [1; 2; 3; 4; 5; 6; 7; 8].
Definition keyB : oct := Toy.word [9; 9; 9; 9; 9; 9; 9; 9].
Definition keyC : oct := Toy.word [5; 1; 5; 1; 5; 1; 5; 1].
Definition value (n : Z) : oct := Toy.word [n; 0; 0; 0; 0; 0; 0; n].

Definition ops : list (op oct oct) := [Insert keyA (value 1); Insert keyB (value 2)].

Definition blank : ProverState Toy.F oct oct :=
  mkProver EmptyString 0 (NewEmptyTree [1]) (Mapping.mk ∅).

Definition ok_or {A} (d : A) (r : res A) : A := match r with Ok a => a | Panic => d end.

Definition initial : ProverState Toy.F oct oct :=
  ok_or blank (InitializeProverState KoalaOctuplet.zero KoalaOctuplet.zero "0x01"%string).

(** The state after the two insertions. *)
Definition state : ProverState Toy.F oct oct := (ok_or ([], blank) (prove_ops order 0 initial ops)).2.

(** The order of the scans of [state]. *)
Definition scan : list (Z * KVOpeningTuple Toy.F oct oct) := map_to_list (tuples state).

Lemma order_fair : fair order.
Proof. intros n m. unfold order, Mapping.enumerates. done. Qed.

Lemma initial_implements_empty : implements initial (λ _, None, 2).
Proof.
  unfold initial. destruct (InitializeProverState_spec (K := oct) (V := oct) KoalaOctuplet.zero KoalaOctuplet.zero "0x01"%string)
    as (p & E & _). rewrite E. by apply (initial_implements _ _ _ _ E).
Qed.

Definition allowed (os : list (op oct oct)) : bool :=
  match spec_ops (F := Toy.F) (λ _, None, 2) os with Some _ => true | None => false end.

Lemma ops_allowed : allowed ops = true.
Proof. vm_compute. reflexivity. Qed.

Lemma state_Inv : Inv state.
Proof.
  pose proof ops_allowed as Ha. unfold allowed in Ha. destruct (spec_ops _ ops) as [s'|] eqn:E; [|done].
  destruct (prove_ops_implements order 0 initial _ ops s' order_fair initial_implements_empty E) as (trs & p & EP & Im & _).
  unfold state. rewrite EP. apply Im.
Qed.

(** The result of a verification is an acceptance. *)
Definition accepts {A} (r : res (gerr * A)) : bool := match r with Ok (None, _) => true | _ => false end.

Lemma accepts_Ok {A} (r : res (gerr * A)) : accepts r = true → ∃ v, r = Ok (None, v).
Proof. destruct r as [[[e|] v]|]; try done. by exists v. Qed.

(** The traces of the five operations on a state are typed and accepted, and are not
    about the head or the tail. *)
Definition check_insertion (p : ProverState Toy.F oct oct) (k v : oct) : bool :=
  match InsertAndProve (map_to_list (tuples p)) (map_to_list (tuples p)) p k v with
  | Ok (tr, _) => bool_decide (insertion_typed tr) && accepts (VerifyInsertion (VerifierState_of p) tr)
  | Panic => false
  end.
Definition check_deletion (p : ProverState Toy.F oct oct) (k : oct) : bool :=
  match DeleteAndProve (map_to_list (tuples p)) p k with
  | Ok (tr, _) => bool_decide (deletion_typed tr) && accepts (VerifyDeletion (VerifierState_of p) tr)
  | Panic => false
  end.
Definition check_update (p : ProverState Toy.F oct oct) (k v : oct) : bool :=
  match UpdateAndProve (map_to_list (tuples p)) p k v with
  | Ok (tr, _) => bool_decide (update_typed tr) && negb (HeadOrTail (UpdateTrace.OldOpening tr)) &&
                  accepts (UpdateVerify (VerifierState_of p) tr)
  | Panic => false
  end.
Definition check_readzero (p : ProverState Toy.F oct oct) (k : oct) : bool :=
  match ReadZeroAndProve (map_to_list (tuples p)) (map_to_list (tuples p)) p k with
  | Ok tr => bool_decide (readzero_typed tr) &&
             match ReadZeroVerify (VerifierState_of p) tr with Ok None => true | _ => false end
  | Panic => false
  end.
Definition check_readnonzero (p : ProverState Toy.F oct oct) (k : oct) : bool :=
  match ReadNonZeroAndProve (map_to_list (tuples p)) p k with
  | Ok tr => bool_decide (readnonzero_typed tr) && negb (HeadOrTail (ReadNonZeroTrace.LeafOpening_ tr)) &&
             match ReadNonZeroVerify (VerifierState_of p) tr with Ok None => true | _ => false end
  | Panic => false
  end.

Definition checks (p : ProverState Toy.F oct oct) : bool :=
  check_insertion p keyC (value 3) && check_deletion p keyA && check_update p keyA (value 4) &&
  check_readzero p keyC && check_readnonzero p keyB.

Lemma checks_state : checks state = true.
Proof. vm_compute. reflexivity. Qed.

Lemma checks_split p : checks p = true →
  check_insertion p keyC (value 3) = true ∧ check_deletion p keyA = true ∧ check_update p keyA (value 4) = true ∧
  check_readzero p keyC = true ∧ check_readnonzero p keyB = true.
Proof. unfold checks. rewrite !andb_true_iff. tauto. Qed.

Lemma check_insertion_Ok p k v : check_insertion p k v = true →
  ∃ tr v', insertion_typed (K := oct) (V := oct) tr ∧ VerifyInsertion (VerifierState_of p) tr = Ok (None, v').
Proof.
  unfold check_insertion. destruct (InsertAndProve _ _ _ _ _) as [[tr p']|]; [|done].
  intros [HT%bool_decide_eq_true [v' HV]%accepts_Ok]%andb_prop. by exists tr, v'.
Qed.

Lemma check_deletion_Ok p k : check_deletion p k = true →
  ∃ tr v', deletion_typed (K := oct) (V := oct) tr ∧ VerifyDeletion (VerifierState_of p) tr = Ok (None, v').
Proof.
  unfold check_deletion. destruct (DeleteAndProve _ _ _) as [[tr p']|]; [|done].
  intros [HT%bool_decide_eq_true [v' HV]%accepts_Ok]%andb_prop. by exists tr, v'.
Qed.

Lemma check_update_Ok p k v : check_update p k v = true →
  ∃ tr v', update_typed (K := oct) (V := oct) tr ∧ HeadOrTail (UpdateTrace.OldOpening tr) = false ∧
    UpdateVerify (VerifierState_of p) tr = Ok (None, v').
Proof.
  unfold check_update. destruct (UpdateAndProve _ _ _ _) as [[tr p']|]; [|done].
  intros [[HT%bool_decide_eq_true HH%negb_true_iff]%andb_prop [v' HV]%accepts_Ok]%andb_prop. by exists tr, v'.
Qed.

Lemma check_readzero_Ok p k : check_readzero p k = true →
  ∃ tr, readzero_typed (K := oct) (V := oct) tr ∧ ReadZeroVerify (VerifierState_of p) tr = Ok None.
Proof.
  unfold check_readzero. destruct (ReadZeroAndProve _ _ _ _) as [tr|]; [|done].
  intros [HT%bool_decide_eq_true HV]%andb_prop. exists tr. split; [done|]. by destruct (ReadZeroVerify _ tr) as [[e|]|].
Qed.

Lemma check_readnonzero_Ok p k : check_readnonzero p k = true →
  ∃ tr, readnonzero_typed (K := oct) (V := oct) tr ∧ HeadOrTail (ReadNonZeroTrace.LeafOpening_ tr) = false ∧
    ReadNonZeroVerify (VerifierState_of p) tr = Ok None.
Proof.
  unfold check_readnonzero. destruct (ReadNonZeroAndProve _ _ _) as [tr|]; [|done].
  intros [[HT%bool_decide_eq_true HH%negb_true_iff]%andb_prop HV]%andb_prop.
  exists tr. split; [done|]. split; [done|]. by destruct (ReadNonZeroVerify _ tr) as [[e|]|].
Qed.

Lemma insertion_of_state : ∃ tr v, insertion_typed (K := oct) (V := oct) tr ∧
  VerifyInsertion (VerifierState_of state) tr = Ok (None, v).
Proof. destruct (checks_split _ checks_state) as (E & _). exact (check_insertion_Ok _ _ _ E). Qed.

Lemma deletion_of_state : ∃ tr v, deletion_typed (K := oct) (V := oct) tr ∧
  VerifyDeletion (VerifierState_of state) tr = Ok (None, v).
Proof. destruct (checks_split _ checks_state) as (_ & E & _). exact (check_deletion_Ok _ _ E). Qed.

Lemma update_of_state : ∃ tr v, update_typed (K := oct) (V := oct) tr ∧
  HeadOrTail (UpdateTrace.OldOpening tr) = false ∧ UpdateVerify (VerifierState_of state) tr = Ok (None, v).
Proof. destruct (checks_split _ checks_state) as (_ & _ & E & _). exact (check_update_Ok _ _ _ E). Qed.

Lemma readzero_of_state : ∃ tr, readzero_typed (K := oct) (V := oct) tr ∧
  ReadZeroVerify (VerifierState_of state) tr = Ok None.
Proof. destruct (checks_split _ checks_state) as (_ & _ & _ & E & _). exact (check_readzero_Ok _ _ E). Qed.

Lemma readnonzero_of_state : ∃ tr, readnonzero_typed (K := oct) (V := oct) tr ∧
  HeadOrTail (ReadNonZeroTrace.LeafOpening_ tr) = false ∧ ReadNonZeroVerify (VerifierState_of state) tr = Ok None.
Proof. destruct (checks_split _ checks_state) as (_ & _ & _ & _ & E). exact (check_readnonzero_Ok _ _ E). Qed.
End Demo.

(** * The accumulator: theorems

    What the prover and the verifier of
    src/prover/crypto/state-management/accumulator guarantee, with applications to
    the concrete run of [Demo]. *)

Import Smt SmtFacts Binding Accumulator LeafHash SortedList AccumulatorFacts AccumulatorOps AccumulatorRun
  AccumulatorSound AccumulatorDefer.

Module AccumulatorTheorems.
Section theorems.
Context `{ElementLaws F, !Poseidon2 F} {HNZ : HashNonZero F} `{WriterTo K, WriterTo V}.
Notation oct := (KoalaOctuplet.t F).
Notation tuple := (KVOpeningTuple F K V).
Implicit Types (p : ProverState F K V) (v : VerifierState F).







(** C36. The head opens for any key: on every state, [ReadNonZeroVerify] accepts a
    trace that opens the head of the list for an arbitrary key and an arbitrary
    value, because [CheckAndLeaf] does not compare the hashes of a head or a tail. *)
Theorem ReadNonZeroVerify_head p (key : K) (val : V) :
  Inv p → ∃ t0, tuples p !! 0 = Some t0 ∧ ReadNonZeroVerify (VerifierState_of p) (head_trace p key val t0) = Ok None.
Proof.
  intros I. destruct (lk_head _ (inv_linked p I)) as (l & Hl & _). unfold openings in Hl.
  apply fmap_Some in Hl as (t0 & Ht & _). exists t0. split; [done|]. by apply head_trace_accepted.
Qed.

(** The Merkle claims that [DeferMerkleChecks] collects from an accepted trace, of
    any of the five kinds, are appended to the ones given and all hold. *)
Theorem DeferMerkleChecks_hold v v' (tr : trace F K V) acc :
  verify_trace v tr = Ok (None, v') → ∃ claims, defer tr acc = Ok (acc ++ claims) ∧ Forall holds claims.
Proof.
  destruct tr as [tr|tr|tr|tr|tr]; cbn [verify_trace defer].
  - apply insertion_defer.
  - apply deletion_defer.
  - apply update_defer.
  - intros (e & E & [= -> _])%res_bind_Ok. by eapply readzero_defer.
  - intros (e & E & [= -> _])%res_bind_Ok. by eapply readnonzero_defer.
Qed.

(** The trace with another [NewNextFreeNode]. *)
Definition with_next (tr : InsertionTrace.t F K V) (n : Z) : InsertionTrace.t F K V :=
  InsertionTrace.mk F K V (InsertionTrace.Type_ tr) (InsertionTrace.Location tr) n (InsertionTrace.OldSubRoot tr)
    (InsertionTrace.NewSubRoot tr) (InsertionTrace.ProofMinus tr) (InsertionTrace.ProofNew tr)
    (InsertionTrace.ProofPlus tr) (InsertionTrace.Key tr) (InsertionTrace.Val tr)
    (InsertionTrace.OldOpenMinus tr) (InsertionTrace.OldOpenPlus tr).

(** A rejected insertion can move the verifier: an accepted trace whose
    [NewNextFreeNode] is changed is refused, but the verifier state is already the one
    after the insertion. *)
Theorem VerifyInsertion_error_moves v v' (tr : InsertionTrace.t F K V) n :
  VerifyInsertion v tr = Ok (None, v') → n ≠ v_NextFreeNode v' →
  ∃ e, VerifyInsertion v (with_next tr n) = Ok (Some e, v').
Proof.
  intros E Hn. unfold VerifyInsertion in *. cbn [with_next InsertionTrace.Location InsertionTrace.OldSubRoot
    InsertionTrace.NewSubRoot InsertionTrace.ProofMinus InsertionTrace.ProofNew InsertionTrace.ProofPlus
    InsertionTrace.Key InsertionTrace.Val InsertionTrace.OldOpenMinus InsertionTrace.OldOpenPlus
    InsertionTrace.NewNextFreeNode].
  repeat (case_match; try done); repeat (let x := fresh in apply res_bind_Ok in E as (x & -> & E); rewrite res_bind_ret; repeat (case_match; try done)).
  all: simplify_eq; try (by eexists).
  exfalso. apply Hn. symmetry. by apply Z.eqb_eq, negb_false_iff.
Qed.
End theorems.

(** ** Applications to the concrete run *)

Section witnesses.
Import Demo.







(** [keyC] was never inserted. *)
Lemma ReadNonZeroVerify_head_witness :
  ∃ t0, tuples state !! 0 = Some t0 ∧
    ReadNonZeroVerify (VerifierState_of state) (head_trace state keyC (value 7) t0) = Ok None.
Proof. exact (ReadNonZeroVerify_head state keyC (value 7) state_Inv). Defined.

Lemma DeferMerkleChecks_hold_witness :
  ∃ tr claims, defer (TInsert (K := oct) (V := oct) tr) [] = Ok ([] ++ claims) ∧ Forall holds claims.
Proof.
  destruct insertion_of_state as (tr & v & HT & HV). exists tr.
  exact (DeferMerkleChecks_hold (VerifierState_of state) v (TInsert tr) [] HV).
Defined.

Lemma VerifyInsertion_error_moves_witness :
  ∃ (tr : InsertionTrace.t Toy.F oct oct) v e, VerifyInsertion (VerifierState_of state) tr = Ok (None, v) ∧
    VerifyInsertion (VerifierState_of state) (with_next tr (v_NextFreeNode v + 1)) = Ok (Some e, v).
Proof.
  destruct insertion_of_state as (tr & v & HT & HV). exists tr, v.
  destruct (VerifyInsertion_error_moves (VerifierState_of state) v tr (v_NextFreeNode v + 1) HV ltac:(lia)) as [e He].
  exists e. exact (conj HV He).
Defined.
End witnesses.
End AccumulatorTheorems.
