(* ===== verification/Bits.v ===== *)
(** * Bits and bit streams

    The bit streams of the v0 compressor. [github.com/icza/bitio] reads and writes
    integers of any width, most significant bit first, on top of a byte stream. It
    is third-party code, so it is a parameter: [BitWriter] and [BitReader] are the
    operations src/prover/lib/compressor/blob calls, [BitWriterSpec] and
    [BitReaderSpec] their documented behaviour, stated on lists of bits. [ListWriter]
    and [ListReader] are an executable pair that has that behaviour. *)

From S2P Require Export Types.

#[global] Instance is_byte_dec b : Decision (is_byte b).
Proof. unfold is_byte. apply _. Defined.

(** ** Integers and bytes as bits, most significant first *)

Fixpoint to_bits (n : nat) (v : Z) : list bool :=
  match n with
  | O => []
  | S n' => Z.testbit v (Z.of_nat n') :: to_bits n' v
  end.

Definition of_bits (l : list bool) : Z := foldl (λ a b, 2 * a + Z.b2z b) 0 l.

Definition bytes_bits (l : list Z) : list bool := concat (to_bits 8 <$> l).

Lemma to_bits_length n v : length (to_bits n v) = n.
Proof. induction n; simpl; auto. Qed.

Lemma to_bits_split n m v :
  to_bits (n + m) v = to_bits n (Z.shiftr v (Z.of_nat m)) ++ to_bits m v.
Proof.
  induction n as [|n IH]; simpl; [done|]. rewrite IH, Z.shiftr_spec by lia. f_equal. f_equal. lia.
Qed.

Lemma to_bits_ext n v w :
  (∀ i, 0 ≤ i < Z.of_nat n → Z.testbit v i = Z.testbit w i) → to_bits n v = to_bits n w.
Proof. induction n as [|n IH]; intros H; simpl; [done|]. rewrite H by lia. f_equal. apply IH. intros. apply H. lia. Qed.

Lemma to_bits_mod n v : to_bits n (v mod 2 ^ Z.of_nat n) = to_bits n v.
Proof. apply to_bits_ext. intros i Hi. rewrite Z.mod_pow2_bits_low; [done|lia]. Qed.

Lemma of_bits_app l k : of_bits (l ++ k) = of_bits l * 2 ^ Z.of_nat (length k) + of_bits k.
Proof.
  unfold of_bits. rewrite foldl_app.
  generalize (foldl (λ a b, 2 * a + Z.b2z b) 0 l) as a. clear l. intros a. revert a.
  induction k as [|b k IH] using rev_ind; intros a; simpl; [lia|].
  rewrite !foldl_app, length_app. simpl. rewrite IH.
  rewrite Nat2Z.inj_add, Z.pow_add_r by lia. lia.
Qed.

Lemma of_bits_cons b l : of_bits (b :: l) = Z.b2z b * 2 ^ Z.of_nat (length l) + of_bits l.
Proof. change (b :: l) with ([b] ++ l). rewrite of_bits_app. by destruct b. Qed.

Lemma of_bits_bound l : 0 ≤ of_bits l < 2 ^ Z.of_nat (length l).
Proof.
  induction l as [|b l IH]; [done|]. rewrite of_bits_cons. cbn [length].
  rewrite Nat2Z.inj_succ, Z.pow_succ_r by lia. destruct b; simpl Z.b2z; lia.
Qed.

Lemma of_bits_to_bits n v : of_bits (to_bits n v) = v mod 2 ^ Z.of_nat n.
Proof.
  induction n as [|n IH]; [by rewrite Z.mod_1_r|]. cbn [to_bits].
  rewrite of_bits_cons, to_bits_length, IH, Z.testbit_spec' by lia.
  rewrite Nat2Z.inj_succ, Z.pow_succ_r, (Z.mul_comm 2), Z.rem_mul_r by lia. lia.
Qed.

Lemma of_bits_small n v : 0 ≤ v < 2 ^ Z.of_nat n → of_bits (to_bits n v) = v.
Proof. intros H. by rewrite of_bits_to_bits, Z.mod_small. Qed.

Lemma to_bits_of_bits l : to_bits (length l) (of_bits l) = l.
Proof.
  induction l as [|b l IH]; [done|]. cbn [length to_bits]. rewrite of_bits_cons.
  pose proof (of_bits_bound l) as Hl. f_equal.
  - apply Z.b2z_inj. rewrite Z.testbit_spec' by lia.
    rewrite Z.div_add_l, (Z.div_small (of_bits l)) by lia. by destruct b.
  - etransitivity; [|exact IH]. rewrite <-to_bits_mod, <-(to_bits_mod _ (of_bits l)). f_equal.
    rewrite Z.add_comm, Z.mod_add by lia. done.
Qed.

Lemma to_bits_inj n v w : 0 ≤ v < 2 ^ Z.of_nat n → 0 ≤ w < 2 ^ Z.of_nat n → to_bits n v = to_bits n w → v = w.
Proof. intros Hv Hw E. by rewrite <-(of_bits_small n v), E, of_bits_small. Qed.

Lemma to_bits_0 n : to_bits n 0 = replicate n false.
Proof. induction n as [|n IH]; [done|]. cbn [to_bits replicate]. by rewrite Z.bits_0, IH. Qed.

Lemma bytes_bits_app l k : bytes_bits (l ++ k) = bytes_bits l ++ bytes_bits k.
Proof. unfold bytes_bits. by rewrite fmap_app, concat_app. Qed.

Lemma bytes_bits_cons b l : bytes_bits (b :: l) = to_bits 8 b ++ bytes_bits l.
Proof. done. Qed.

Lemma bytes_bits_length l : length (bytes_bits l) = (8 * length l)%nat.
Proof. induction l as [|b l IH]; [done|]. rewrite bytes_bits_cons, length_app, IH, to_bits_length. simpl. lia. Qed.

Lemma bytes_bits_inj l k : Forall is_byte l → Forall is_byte k → bytes_bits l = bytes_bits k → l = k.
Proof.
  intros Hl. revert k. induction Hl as [|b l Hb Hl IH]; intros k Hk E.
  - apply (f_equal length) in E. rewrite !bytes_bits_length in E. destruct k; [done|simpl in E; lia].
  - destruct Hk as [|c k Hc Hk]; [apply (f_equal length) in E; rewrite !bytes_bits_length in E; simpl in E; lia|].
    rewrite !bytes_bits_cons in E. apply app_inj_1 in E as [E1 E2]; [|by rewrite !to_bits_length].
    f_equal; [by apply (to_bits_inj 8)|by apply IH].
Qed.

(** Cutting a list of bits into bytes; a last incomplete byte is left. *)
Fixpoint cut_bytes (n : nat) (l : list bool) : list Z * list bool :=
  match n with
  | O => ([], l)
  | S n' =>
      if decide (8 ≤ length l)%nat then
        let '(bs, r) := cut_bytes n' (drop 8 l) in (of_bits (take 8 l) :: bs, r)
      else ([], l)
  end.

Lemma cut_bytes_spec n l bs r :
  (length l < 8 * S n)%nat → cut_bytes n l = (bs, r) →
  bytes_bits bs ++ r = l ∧ Forall is_byte bs ∧ (length r < 8)%nat.
Proof.
  revert l bs r. induction n as [|n IH]; intros l bs r Hl; cbn [cut_bytes].
  - intros [= <- <-]. split_and!; [done|done|lia].
  - case_decide as H8; [|intros [= <- <-]; split_and!; [done|done|lia]].
    destruct (cut_bytes n (drop 8 l)) as [bs' r'] eqn:E. intros [= <- <-].
    apply IH in E as (E & Hbs & Hr); [|rewrite length_drop; lia]. split_and!; [| |done].
    + rewrite bytes_bits_cons, <-(assoc_L (++)), E.
      replace 8%nat with (length (take 8 l)) at 1 by (rewrite length_take; lia).
      by rewrite to_bits_of_bits, take_drop.
    + constructor; [|done]. pose proof (of_bits_bound (take 8 l)) as Hb.
      rewrite length_take, Nat.min_l in Hb by lia. exact Hb.
Qed.

(** ** [bitio.Writer] *)

(** The writer sits on a [bytes.Buffer]: every operation gives the bytes it hands
    to the buffer. [TryError] is the error field the [Try] operations set. *)
Class BitWriter (W : Type) := {
  NewWriter : W;
  WriteBits : Z → Z → W → W * list Z * gerr;
  TryWriteBits : Z → Z → W → W * list Z;
  TryWriteByte : Z → W → W * list Z;
  TryError : W → gerr;
  Align : W → W * list Z * Z * gerr;
  Close : W → W * list Z * gerr }.

(** [wrote w n v w' bs]: from [w], the [n] low bits of [v] were written; whole
    bytes went to the buffer, fewer than eight bits stay in the cache. *)
Class BitWriterSpec (W : Type) `{!BitWriter W} := {
  pending : W → list bool;
  pending_lt w : (length (pending w) < 8)%nat;
  pending_new : pending NewWriter = [] ∧ TryError NewWriter = None;
  WriteBits_spec v n w : 0 ≤ n ≤ 64 → ∃ w' bs, WriteBits v n w = (w', bs, None) ∧
    bytes_bits bs ++ pending w' = pending w ++ to_bits (Z.to_nat n) v ∧ Forall is_byte bs ∧
    TryError w' = TryError w;
  TryWriteBits_spec v n w : TryError w = None → 0 ≤ n ≤ 64 → ∃ w' bs, TryWriteBits v n w = (w', bs) ∧
    bytes_bits bs ++ pending w' = pending w ++ to_bits (Z.to_nat n) v ∧ Forall is_byte bs ∧
    TryError w' = None;
  TryWriteByte_spec b w : TryError w = None → is_byte b → ∃ w' bs, TryWriteByte b w = (w', bs) ∧
    bytes_bits bs ++ pending w' = pending w ++ to_bits 8 b ∧ Forall is_byte bs ∧
    TryError w' = None;
  Align_spec w : ∃ w' bs k, Align w = (w', bs, Z.of_nat k, None) ∧
    bytes_bits bs = pending w ++ replicate k false ∧ (k < 8)%nat ∧ Forall is_byte bs ∧
    pending w' = [] ∧ TryError w' = TryError w;
  Close_spec w : ∃ w' bs k, Close w = (w', bs, None) ∧
    bytes_bits bs = pending w ++ replicate k false ∧ (k < 8)%nat ∧ Forall is_byte bs ∧
    pending w' = [] ∧ TryError w' = TryError w }.

(** ** [bitio.Reader] *)

(** [io.ReadFull(r, buf)] with a buffer of [n] bytes. *)
Class IoReader (R : Type) := ReadFull : nat → R → (list Z * gerr) * R.

(** [bytes.Reader]: the bytes that are left. *)
#[global] Instance BytesReader : IoReader (list Z) := λ n r,
  if decide (n ≤ length r)%nat then ((take n r, None), drop n r)
  else ((r, Some (if decide (r = []) then "EOF" else "unexpected EOF")%string), []).

Class BitReader (R : Type) := {
  NewReader : list Z → R;
  #[global] bit_read_full :: IoReader R;
  ReadBits : Z → R → (Z * gerr) * R;
  TryReadBits : Z → R → Z * R;
  TryReadByte : R → Z * R;
  RTryError : R → gerr }.

Class BitReaderSpec (R : Type) `{!BitReader R} := {
  rest : R → list bool;
  rest_new b : Forall is_byte b → rest (NewReader b) = bytes_bits b ∧ RTryError (NewReader b) = None;
  ReadFull_spec n r : (8 * n ≤ length (rest r))%nat → ∃ bs r',
    ReadFull n r = ((bs, None), r') ∧ length bs = n ∧ Forall is_byte bs ∧
    rest r = bytes_bits bs ++ rest r' ∧ RTryError r' = RTryError r;
  ReadFull_short n r : (length (rest r) < 8 * n)%nat → ∃ bs e r', ReadFull n r = ((bs, Some e), r');
  ReadBits_spec n r : 0 ≤ n ≤ 64 → n ≤ zlen (rest r) → ∃ r',
    ReadBits n r = ((of_bits (take (Z.to_nat n) (rest r)), None), r') ∧
    rest r' = drop (Z.to_nat n) (rest r) ∧ RTryError r' = RTryError r;
  ReadBits_short n r : zlen (rest r) < n ≤ 64 → ∃ v e r', ReadBits n r = ((v, Some e), r');
  TryReadBits_spec n r : RTryError r = None → 0 ≤ n ≤ 64 → n ≤ zlen (rest r) → ∃ r',
    TryReadBits n r = (of_bits (take (Z.to_nat n) (rest r)), r') ∧
    rest r' = drop (Z.to_nat n) (rest r) ∧ RTryError r' = None;
  TryReadBits_short n r : zlen (rest r) < n ≤ 64 → ∃ v e r', TryReadBits n r = (v, r') ∧ RTryError r' = Some e;
  TryReadBits_failed n r e : RTryError r = Some e → ∃ v r', TryReadBits n r = (v, r') ∧ RTryError r' = Some e;
  TryReadByte_spec r : RTryError r = None → (8 ≤ length (rest r))%nat → ∃ r',
    TryReadByte r = (of_bits (take 8 (rest r)), r') ∧
    rest r' = drop 8 (rest r) ∧ RTryError r' = None;
  TryReadByte_short r : (length (rest r) < 8)%nat → ∃ v e r', TryReadByte r = (v, r') ∧ RTryError r' = Some e }.

(** ** An executable bit writer and reader *)

Module ListBits.

(** The cached bits; nothing fails on a [bytes.Buffer]. *)
Definition put (l w : list bool) : list bool * list Z :=
  let '(bs, w') := cut_bytes 8 (w ++ l) in (w', bs).

(** A cache of eight bits or more is not a state the writer reaches. *)
Definition cache : Type := { w : list bool | bool_decide (length w < 8)%nat }.

Program Definition put_cache (l : list bool) (w : cache) : cache * list Z :=
  let '(w', bs) := put (take 64 l) (`w) in
  (exist _ (take 7 w') _, bs).
Next Obligation. intros l w ? w' bs ?. apply bool_decide_pack. rewrite length_take. lia. Qed.

Definition empty_cache : cache := exist _ [] I.

Definition flush (w : cache) : cache * list Z * Z :=
  match `w with
  | [] => (w, [], 0)
  | l => (empty_cache, [of_bits (l ++ replicate (8 - length l) false)], Z.of_nat (8 - length l))
  end.

#[global] Instance ListWriter : BitWriter cache := {
  NewWriter := empty_cache;
  WriteBits v n w := (put_cache (to_bits (Z.to_nat n) v) w, None);
  TryWriteBits v n w := put_cache (to_bits (Z.to_nat n) v) w;
  TryWriteByte b w := put_cache (to_bits 8 b) w;
  TryError _ := None;
  Align w := (flush w, None);
  Close w := (fst (flush w), None) }.

Lemma cache_lt (w : cache) : (length (`w) < 8)%nat.
Proof. destruct w as [w Hw]. simpl. by apply bool_decide_unpack in Hw. Qed.

Lemma put_cache_spec l w w' bs : (length l ≤ 64)%nat → put_cache l w = (w', bs) →
  bytes_bits bs ++ `w' = `w ++ l ∧ Forall is_byte bs.
Proof.
  intros Hl. unfold put_cache, put. rewrite take_ge by done.
  destruct (cut_bytes 8 (`w ++ l)) as [bs0 r] eqn:E. intros [= <- <-]. simpl.
  pose proof (cache_lt w). apply cut_bytes_spec in E as (E & Hbs & Hr); [|rewrite length_app; lia].
  by rewrite take_ge by lia.
Qed.

Lemma put_cache_ok l w : (length l ≤ 64)%nat → ∃ w' bs, put_cache l w = (w', bs) ∧
  bytes_bits bs ++ `w' = `w ++ l ∧ Forall is_byte bs.
Proof. intros Hl. destruct (put_cache l w) as [w' bs] eqn:E. exists w', bs. by pose proof (put_cache_spec _ _ _ _ Hl E). Qed.

Lemma flush_spec w : ∃ w' bs k, flush w = (w', bs, Z.of_nat k) ∧
  bytes_bits bs = `w ++ replicate k false ∧ (k < 8)%nat ∧ Forall is_byte bs ∧ `w' = [].
Proof.
  pose proof (cache_lt w) as Hw. unfold flush. destruct (`w) as [|b l] eqn:E.
  - exists w, [], 0%nat. split_and!; [done|done|lia|constructor|done].
  - set (bs := (b :: l) ++ replicate (8 - length (b :: l)) false).
    assert (length bs = 8%nat) as Hbs by (unfold bs; rewrite length_app, length_replicate; lia).
    exists empty_cache, [of_bits bs], (8 - length (b :: l))%nat. split_and!; [done| |simpl in *; lia| |done].
    + rewrite bytes_bits_cons. change (bytes_bits []) with (@nil bool). rewrite app_nil_r.
      replace 8%nat with (length bs) at 1 by done. apply to_bits_of_bits.
    + constructor; [|done]. pose proof (of_bits_bound bs) as Hb. by rewrite Hbs in Hb.
Qed.

#[global] Program Instance ListWriterSpec : BitWriterSpec cache := { pending w := `w }.
Next Obligation. apply cache_lt. Qed.
Next Obligation. done. Qed.
Next Obligation.
  intros v n w Hn. destruct (put_cache_ok (to_bits (Z.to_nat n) v) w) as (w' & bs & E & H1 & H2); [rewrite to_bits_length; lia|].
  exists w', bs. simpl. by rewrite E.
Qed.
Next Obligation.
  intros v n w _ Hn. destruct (put_cache_ok (to_bits (Z.to_nat n) v) w) as (w' & bs & E & H1 & H2); [rewrite to_bits_length; lia|].
  by exists w', bs.
Qed.
Next Obligation. intros b w _ Hb. destruct (put_cache_ok (to_bits 8 b) w) as (w' & bs & E & H1 & H2); [simpl; lia|]. by exists w', bs. Qed.
Next Obligation. intros w. destruct (flush_spec w) as (w' & bs & k & E & H). exists w', bs, k. simpl. rewrite E. naive_solver. Qed.
Next Obligation. intros w. destruct (flush_spec w) as (w' & bs & k & E & H). exists w', bs, k. simpl. rewrite E. naive_solver. Qed.

(** The bits that are left and the error of the [Try] operations. *)
Definition take_bits (n : Z) (r : list bool * gerr) : (Z * gerr) * (list bool * gerr) :=
  if decide (n ≤ zlen r.1)
  then ((of_bits (take (Z.to_nat n) r.1), None), (drop (Z.to_nat n) r.1, r.2))
  else ((0, Some "EOF"%string), ([], r.2)).

Definition try_bits (n : Z) (r : list bool * gerr) : Z * (list bool * gerr) :=
  match r.2 with
  | Some _ => (0, r)
  | None => let '((v, e), r') := take_bits n r in (v, (r'.1, e))
  end.

#[global] Instance ListReader : BitReader (list bool * gerr) := {
  NewReader b := (bytes_bits b, None);
  bit_read_full n r :=
    if decide (8 * n ≤ length r.1)%nat
    then (((cut_bytes n (take (8 * n) r.1)).1, None), (drop (8 * n) r.1, r.2))
    else (([], Some "unexpected EOF"%string), ([], r.2));
  ReadBits := take_bits;
  TryReadBits := try_bits;
  TryReadByte := try_bits 8;
  RTryError r := r.2 }.

#[global] Program Instance ListReaderSpec : BitReaderSpec (list bool * gerr) := { rest r := r.1 }.
Next Obligation. done. Qed.
Next Obligation.
  intros n [l e] Hn. cbn [fst] in Hn. unfold ReadFull. cbn [bit_read_full ListReader fst snd]. rewrite decide_True by done.
  destruct (cut_bytes n (take (8 * n) l)) as [bs r] eqn:E.
  pose proof (length_take l (8 * n)) as Ht. rewrite Nat.min_l in Ht by lia.
  apply cut_bytes_spec in E as (E & Hb & Hr); [|lia].
  apply (f_equal length) in E as E'. rewrite length_app, bytes_bits_length, Ht in E'.
  assert (length r = 0%nat) as Hr0 by lia. destruct r; [|done]. rewrite app_nil_r in E.
  exists bs, (drop (8 * n) l, e). split_and!; [done|simpl in E'; lia|done| |done].
  cbn [fst]. by rewrite E, take_drop.
Qed.
Next Obligation. intros n [l e] Hn. cbn [fst] in Hn. unfold ReadFull. cbn [bit_read_full ListReader fst snd]. rewrite decide_False by lia. eauto. Qed.
Next Obligation. intros n [l e] H0 Hn. simpl in *. unfold take_bits. simpl. rewrite decide_True by done. eauto. Qed.
Next Obligation. intros n [l e] Hn. simpl in *. unfold take_bits. simpl. rewrite decide_False by lia. eauto. Qed.
Next Obligation. intros n [l e] He H0 Hn. simpl in *. subst. unfold try_bits, take_bits. simpl. rewrite decide_True by done. eauto. Qed.
Next Obligation.
  intros n [l [e|]] Hn; simpl in *; unfold try_bits, take_bits; simpl; [eauto 10|].
  rewrite decide_False by lia. eauto 10.
Qed.
Next Obligation. intros n [l e0] e He. simpl in *. subst. unfold try_bits. simpl. eauto. Qed.
Next Obligation. intros [l e] He Hn. simpl in *. subst. unfold try_bits, take_bits, zlen. simpl. rewrite decide_True by lia. eauto. Qed.
Next Obligation.
  intros [l [e|]] Hn; simpl in *; unfold try_bits, take_bits, zlen; simpl; [eauto 10|].
  rewrite decide_False by lia. eauto 10.
Qed.

End ListBits.

#[global] Arguments to_bits : simpl never.
