(* ===== verification/SuffixArray.v ===== *)
(** * The suffix array of the v0 compressor

    Models src/prover/lib/compressor/blob/v0/compress/lzss/internal/suffixarray:
    the index over a byte string and [LookupLongest], the query that finds the
    longest earlier occurrence of a prefix of a phrase. The sorting of the suffixes
    ([text_32], the SA-IS code of Go's index/suffixarray copied into sais.go and
    sais2.go) is the interface [SuffixSort], its contract [SuffixSortLaws]. The
    theorem [LookupLongest_spec] says that the query returns the longest match that
    starts in the window, or that there is none. *)

From S2P Require Export Bits.

(** ** [bytes] and [sort] *)

(** [bytes.Compare] *)
Fixpoint Compare (a b : list Z) : Z :=
  match a, b with
  | [], [] => 0
  | [], _ => -1
  | _, [] => 1
  | x :: a', y :: b' => if x <? y then -1 else if y <? x then 1 else Compare a' b'
  end.

(** [bytes.HasPrefix] *)
Definition HasPrefix (s p : list Z) : bool := bool_decide (p `prefix_of` s).

(** [sort.Search]: the smallest index in [0, n) at which [f] is true, by binary
    search. The interval shrinks in every round, so [n] rounds are enough. *)
Fixpoint Search_loop (fuel : nat) (f : Z → res bool) (i j : Z) : res Z :=
  if i <? j then
    match fuel with
    | O => Panic
    | S fuel' =>
        let h := (i + j) / 2 in
        b ← f h;
        if b : bool then Search_loop fuel' f i h else Search_loop fuel' f (h + 1) j
    end
  else Ok i.

Definition Search (n : Z) (f : Z → res bool) : res Z := Search_loop (Z.to_nat n) f 0 n.

Lemma Search_loop_spec fuel f i j n :
  0 ≤ i ≤ j → j ≤ n → j - i ≤ Z.of_nat fuel →
  (∀ k, 0 ≤ k < n → ∃ b, f k = Ok b) →
  (∀ k l, 0 ≤ k ≤ l → l < n → f k = Ok true → f l = Ok true) →
  (∀ k, 0 ≤ k < i → f k = Ok false) →
  (∀ k, j ≤ k < n → f k = Ok true) →
  ∃ m, Search_loop fuel f i j = Ok m ∧ i ≤ m ≤ j ∧
    (∀ k, 0 ≤ k < m → f k = Ok false) ∧ (∀ k, m ≤ k < n → f k = Ok true).
Proof.
  intros Hij Hn Hf Htot Hmono. revert i j Hij Hn Hf. induction fuel as [|fuel IH]; intros i j Hij Hn Hf Hlo Hhi; cbn [Search_loop].
  - rewrite (proj2 (Z.ltb_ge i j)) by lia. exists i. split_and!; [done|lia|lia|done|]. intros k Hk. apply Hhi. lia.
  - destruct (Z.ltb_spec i j) as [Hlt|Hge].
    2:{ exists i. split_and!; [done|lia|lia|done|]. intros k Hk. apply Hhi. lia. }
    set (h := (i + j) / 2). assert (i ≤ h < j) as Hh by (subst h; split; [apply Z.div_le_lower_bound|apply Z.div_lt_upper_bound]; lia).
    destruct (Htot h) as [b Eb]; [lia|]. rewrite Eb. simpl. destruct b.
    + destruct (IH i h) as (m & E & Hm & H1 & H2); [lia|lia|lia|done| |by exists m; split_and!; [|lia|lia|..]].
      intros k Hk. apply (Hmono h k); [lia|lia|done].
    + destruct (IH (h + 1) j) as (m & E & Hm & H1 & H2); [lia|lia|lia| |done|by exists m; split_and!; [|lia|lia|..]].
      intros k Hk. destruct (Htot k) as [[] Ek]; [lia| |done].
      rewrite (Hmono k h) in Eb by (done || lia). done.
Qed.

Lemma Search_spec f n :
  0 ≤ n →
  (∀ k, 0 ≤ k < n → ∃ b, f k = Ok b) →
  (∀ k l, 0 ≤ k ≤ l → l < n → f k = Ok true → f l = Ok true) →
  ∃ m, Search n f = Ok m ∧ 0 ≤ m ≤ n ∧
    (∀ k, 0 ≤ k < m → f k = Ok false) ∧ (∀ k, m ≤ k < n → f k = Ok true).
Proof. intros Hn Ht Hm. apply Search_loop_spec; [lia|lia|lia|done|done|lia|lia]. Qed.

Lemma Search_ext f g n : (∀ i, f i = g i) → Search n f = Search n g.
Proof.
  intros Hfg. unfold Search. generalize 0 as i, n at 2 4 as j. induction (Z.to_nat n) as [|k IH]; intros i j; cbn [Search_loop]; [done|].
  rewrite Hfg. destruct (i <? j); [|done]. destruct (g _) as [[]|]; simpl; [apply IH..|done].
Qed.

(** ** The order on byte strings *)

Lemma Compare_refl a : Compare a a = 0.
Proof. induction a as [|x a IH]; simpl; [done|]. by rewrite Z.ltb_irrefl. Qed.

Lemma Compare_opp a b : Compare b a = - Compare a b.
Proof.
  revert b. induction a as [|x a IH]; intros [|y b]; simpl; try done.
  destruct (Z.ltb_spec x y), (Z.ltb_spec y x); try lia. apply IH.
Qed.

Lemma Compare_trans a b c : Compare a b ≤ 0 → Compare b c ≤ 0 → Compare a c ≤ 0.
Proof.
  revert b c. induction a as [|x a IH]; intros [|y b] [|z c]; simpl; try lia.
  destruct (Z.ltb_spec x y), (Z.ltb_spec y x), (Z.ltb_spec y z), (Z.ltb_spec z y),
    (Z.ltb_spec x z), (Z.ltb_spec z x); try lia. apply IH.
Qed.

Lemma Compare_0 a b : Compare a b = 0 → a = b.
Proof.
  revert b. induction a as [|x a IH]; intros [|y b]; simpl; try done.
  destruct (Z.ltb_spec x y), (Z.ltb_spec y x); try lia. intros E%IH. f_equal; [lia|done].
Qed.

Lemma Compare_prefix a s : s `prefix_of` a → 0 ≤ Compare a s.
Proof.
  intros [k ->]. induction s as [|x s IH]; simpl; [destruct k; simpl; lia|]. by rewrite Z.ltb_irrefl.
Qed.

(** The strings with a given prefix are an interval of the order. *)
Lemma Compare_between s a b :
  0 ≤ Compare a s → Compare a b ≤ 0 → s `prefix_of` b → s `prefix_of` a.
Proof.
  intros Ha Hab [k ->]. revert a Ha Hab. induction s as [|x s IH]; intros a Ha Hab; [apply prefix_nil|].
  destruct a as [|y a]; simpl in *; [lia|].
  destruct (Z.ltb_spec x y), (Z.ltb_spec y x); try lia.
  replace y with x by lia. apply prefix_cons. by apply IH.
Qed.

(** ** The index *)

Definition maxData32 : Z := 2 ^ 31 - 1.

Record Index := { data : list Z; sa : list Z }.

(** The suffix of [d] that starts at [o]. *)
Definition suffix (d : list Z) (o : Z) : list Z := drop (Z.to_nat o) d.

(** [text_32(text, sa)]: the suffix array of the text. *)
Class SuffixSort := text_32 : list Z → list Z.

Class SuffixSortLaws `{SuffixSort} : Prop := {
  text_32_perm d : zlen d ≤ maxData32 → text_32 d ≡ₚ seqZ 0 (zlen d);
  text_32_sorted d : zlen d ≤ maxData32 →
    StronglySorted (λ a b, Compare (suffix d a) (suffix d b) ≤ 0) (text_32 d) }.

Section index.
Context `{SuffixSort}.

(** [New(data, sa)]; the scratch space for the suffix array is given by its
    length, since [New] clears and overwrites it. *)
Definition New (d : list Z) (space : Z) : res Index :=
  if decide (maxData32 < zlen d) then Panic
  else if decide (space < zlen d) then Panic
  else Ok {| data := d; sa := text_32 d |}.

Definition at_ (x : Index) (i : Z) : res (list Z) :=
  o ← idx (sa x) i; slice (data x) o (zlen (data x)).

(** [bytes.HasPrefix(x.at(i), s)] *)
Definition at_HasPrefix (x : Index) (i : Z) (s : list Z) : res bool :=
  a ← at_ x i; Ok (HasPrefix a s).

(** [bytes.Compare(x.at(i), s) >= 0] *)
Definition at_ge (x : Index) (i : Z) (s : list Z) : res bool :=
  a ← at_ x i; Ok (bool_decide (0 ≤ Compare a s)).

Definition lookupLongestInitial (x : Index) (s : list Z) : res (Z * Z) :=
  let n := zlen (sa x) in
  i ← Search n (λ i, at_ge x i s);
  if decide (i = n) then Ok (-1, -1)
  else
    p ← at_HasPrefix x i s;
    if negb p then Ok (-1, -1)
    else
      k ← Search (n - i) (λ k, b ← at_HasPrefix x (k + i) s; Ok (negb b));
      Ok (i, i + k).

Definition in_range (rangeStart rangeEnd offset : Z) : bool :=
  (rangeStart <=? offset) && (offset <? rangeEnd).

(** The loop of [lookupLongest]: the positions [i, sEnd) from the first match. *)
Fixpoint scan_matches (x : Index) (s : list Z) (rangeStart rangeEnd : Z) (ps : list Z) : res Z :=
  match ps with
  | [] => Ok (-1)
  | i :: ps' =>
      p ← at_HasPrefix x i s;
      if negb p then Ok (-1)
      else
        offset ← idx (sa x) i;
        if in_range rangeStart rangeEnd offset then Ok offset
        else scan_matches x s rangeStart rangeEnd ps'
  end.

Definition lookupLongest (x : Index) (s : list Z) (rangeStart rangeEnd sStart sEnd : Z) : res (Z * Z) :=
  k ← Search (sEnd - sStart) (λ i, at_ge x (i + sStart) s);
  let i := k + sStart in
  if decide (i = sEnd) then Ok (sStart, -1)
  else
    p ← at_HasPrefix x i s;
    if negb p then Ok (sStart, -1)
    else
      offset ← scan_matches x s rangeStart rangeEnd (seqZ i (sEnd - i));
      Ok (i, offset).

(** The loop of [LookupLongest] that keeps the matches in the range: the first
    offset found, if any. *)
Fixpoint first_in_range (x : Index) (rangeStart rangeEnd : Z) (ps : list Z) : res (option Z) :=
  match ps with
  | [] => Ok None
  | i :: ps' =>
      offset ← idx (sa x) i;
      if in_range rangeStart rangeEnd offset then Ok (Some offset)
      else first_in_range x rangeStart rangeEnd ps'
  end.

(** The binary search of [LookupLongest] on the length of the match. *)
Fixpoint longest_loop (fuel : nat) (x : Index) (s : list Z)
    (rangeStart rangeEnd sEnd sStart low high index length : Z) : res (Z * Z) :=
  if low <=? high then
    match fuel with
    | O => Panic
    | S fuel' =>
        let mid := low + (high - low) / 2 in
        sm ← slice s 0 mid;
        '(newStart, offset) ← lookupLongest x sm rangeStart rangeEnd sStart sEnd;
        if decide (offset ≠ -1)
        then longest_loop fuel' x s rangeStart rangeEnd sEnd newStart (mid + 1) high offset mid
        else longest_loop fuel' x s rangeStart rangeEnd sEnd sStart low (mid - 1) index length
    end
  else Ok (index, length).

Definition LookupLongest (x : Index) (s : list Z) (minEnd maxEnd rangeStart rangeEnd : Z) : res (Z * Z) :=
  s0 ← slice s 0 minEnd;
  '(sStart, sEnd) ← lookupLongestInitial x s0;
  if decide (sStart = -1) then Ok (-1, -1)
  else if decide (sStart = sEnd) then
    offset ← idx (sa x) sStart;
    if in_range rangeStart rangeEnd offset then Ok (offset, minEnd) else Ok (-1, -1)
  else
    o ← first_in_range x rangeStart rangeEnd (seqZ sStart (sEnd - sStart));
    match o with
    | None => Ok (-1, -1)
    | Some index =>
        longest_loop (Z.to_nat (maxEnd - minEnd + 1)) x s rangeStart rangeEnd sEnd
          sStart minEnd maxEnd index minEnd
    end.

End index.

(** ** The query is exact *)

(** [p] occurs in the window: at an offset of [rangeStart, rangeEnd). *)
Definition occurs (d p : list Z) (o : Z) : Prop := 0 ≤ o < zlen d ∧ p `prefix_of` suffix d o.

Definition occurs_in (d p : list Z) (rangeStart rangeEnd o : Z) : Prop :=
  occurs d p o ∧ rangeStart ≤ o < rangeEnd.

Lemma in_range_spec a b o : in_range a b o = true ↔ a ≤ o < b.
Proof. unfold in_range. rewrite andb_true_iff, Z.leb_le, Z.ltb_lt. done. Qed.

Lemma occurs_shorter d s l m o rs re :
  (l ≤ m)%nat → occurs_in d (take m s) rs re o → occurs_in d (take l s) rs re o.
Proof.
  intros Hlm ((Ho & Hp) & Hr). split; [split; [done|]|done]. etransitivity; [|exact Hp].
  rewrite <-(take_drop l (take m s)), take_take, Nat.min_l by done. by apply prefix_app_r.
Qed.

Section exact.
Context `{SuffixSort, !SuffixSortLaws} (d : list Z) (Hd : zlen d ≤ maxData32).

Notation ix := {| data := d; sa := text_32 d |}.

(** The suffix at a position of the array. *)
Definition suf (i : Z) : list Z := suffix d (default 0 (text_32 d !! Z.to_nat i)).

Lemma sa_length : zlen (text_32 d) = zlen d.
Proof. unfold zlen. rewrite (text_32_perm d Hd), length_seqZ. unfold zlen. lia. Qed.

Lemma sa_idx i : 0 ≤ i < zlen d → ∃ o, idx (text_32 d) i = Ok o ∧ 0 ≤ o < zlen d ∧ suf i = suffix d o.
Proof.
  intros Hi. rewrite <-sa_length in Hi. destruct (idx_is_Ok _ _ Hi) as [o Eo]. exists o. split; [done|].
  apply idx_Ok in Eo as [_ Eo]. unfold suf. rewrite Eo. split; [|done].
  apply list_elem_of_lookup_2 in Eo. rewrite (text_32_perm d Hd), elem_of_seqZ in Eo. lia.
Qed.

Lemma sa_rank o : 0 ≤ o < zlen d → ∃ i, 0 ≤ i < zlen d ∧ idx (text_32 d) i = Ok o ∧ suf i = suffix d o.
Proof.
  intros Ho. assert (o ∈ text_32 d) as Hin by (rewrite (text_32_perm d Hd), elem_of_seqZ; lia).
  apply list_elem_of_lookup in Hin as [i Hi]. pose proof (lookup_lt_Some _ _ _ Hi) as Hl.
  pose proof sa_length as Hlen. unfold zlen at 1 in Hlen.
  exists (Z.of_nat i). split_and!; [lia|lia| |].
  - apply idx_nat; [lia|]. by rewrite Nat2Z.id.
  - unfold suf. by rewrite Nat2Z.id, Hi.
Qed.

Lemma suf_sorted i j : 0 ≤ i ≤ j → j < zlen d → Compare (suf i) (suf j) ≤ 0.
Proof.
  intros Hij Hj. destruct (decide (i = j)) as [->|Hne]; [by rewrite Compare_refl|].
  destruct (sa_idx i) as (a & Ea & _ & ->); [lia|]. destruct (sa_idx j) as (b & Eb & _ & ->); [lia|].
  apply idx_Ok in Ea as [_ Ea]. apply idx_Ok in Eb as [_ Eb].
  apply (StronglySorted_lookup_lt (λ a b, Compare (suffix d a) (suffix d b) ≤ 0) (text_32 d) (Z.to_nat i) (Z.to_nat j)); [by apply text_32_sorted|done|done|lia].
Qed.

Lemma at_Ok i : 0 ≤ i < zlen d → at_ ix i = Ok (suf i).
Proof.
  intros Hi. destruct (sa_idx i Hi) as (o & Eo & Ho & ->). unfold at_. simpl. rewrite Eo. simpl.
  rewrite slice_Ok by lia. f_equal. apply take_ge. unfold suffix, zlen. rewrite length_drop. lia.
Qed.

Lemma at_HasPrefix_Ok i s : 0 ≤ i < zlen d → at_HasPrefix ix i s = Ok (bool_decide (s `prefix_of` suf i)).
Proof. intros Hi. unfold at_HasPrefix. by rewrite at_Ok. Qed.

Lemma at_ge_Ok i s : 0 ≤ i < zlen d → at_ge ix i s = Ok (bool_decide (0 ≤ Compare (suf i) s)).
Proof. intros Hi. unfold at_ge. by rewrite at_Ok. Qed.

Lemma suf_ge_mono s i j : 0 ≤ i ≤ j → j < zlen d → 0 ≤ Compare (suf i) s → 0 ≤ Compare (suf j) s.
Proof.
  intros Hij Hj Hs. rewrite Compare_opp in Hs |- *.
  pose proof (Compare_trans s (suf i) (suf j)). pose proof (suf_sorted i j Hij Hj). lia.
Qed.

(** [sort.Search] for the first suffix that is not below [s], from [a]. *)
Lemma Search_ge s a e : 0 ≤ a ≤ e → e ≤ zlen d →
  ∃ k, Search (e - a) (λ i, at_ge ix (i + a) s) = Ok k ∧ a ≤ k + a ≤ e ∧
    (∀ i, a ≤ i < k + a → Compare (suf i) s < 0) ∧ (∀ i, k + a ≤ i < e → 0 ≤ Compare (suf i) s).
Proof.
  intros Ha He. destruct (Search_spec (λ i, at_ge ix (i + a) s) (e - a)) as (k & E & Hk & H1 & H2).
  - lia.
  - intros k Hk. rewrite at_ge_Ok by lia. eauto.
  - intros k l Hkl Hl. rewrite !at_ge_Ok by lia. intros [= Hs%bool_decide_eq_true].
    f_equal. apply bool_decide_eq_true. apply (suf_ge_mono s (k + a)); [lia|lia|done].
  - exists k. split_and!; [done|lia|lia| |]; intros i Hi.
    + specialize (H1 (i - a)). rewrite at_ge_Ok in H1 by lia. replace (i - a + a) with i in H1 by lia.
      injection H1 as Hs%bool_decide_eq_false; lia.
    + specialize (H2 (i - a)). rewrite at_ge_Ok in H2 by lia. replace (i - a + a) with i in H2 by lia.
      injection H2 as Hs%bool_decide_eq_true; [done|lia].
Qed.

Lemma prefix_after s i j : 0 ≤ i ≤ j → j < zlen d →
  0 ≤ Compare (suf i) s → s `prefix_of` suf j → s `prefix_of` suf i.
Proof. intros Hij Hj Hi Hp. apply (Compare_between s _ (suf j)); [done|by apply suf_sorted|done]. Qed.

(** The positions of the suffixes with prefix [s] are the interval the first
    search returns. *)
Lemma lookupLongestInitial_spec s :
  (lookupLongestInitial ix s = Ok (-1, -1) ∧ ∀ i, 0 ≤ i < zlen d → ¬ s `prefix_of` suf i) ∨
  ∃ a e, lookupLongestInitial ix s = Ok (a, e) ∧ 0 ≤ a < e ∧ e ≤ zlen d ∧
    ∀ i, 0 ≤ i < zlen d → s `prefix_of` suf i ↔ a ≤ i < e.
Proof.
  unfold lookupLongestInitial. cbn [sa]. rewrite sa_length.
  pose proof (zlen_nonneg d) as Hn.
  destruct (Search_ge s 0 (zlen d)) as (k & E & Hk & Hlo & Hhi); [lia|lia|].
  rewrite Z.sub_0_r, Z.add_0_r in *.
  rewrite (Search_ext _ (λ i, at_ge ix (i + 0) s)), E by (intros i; by rewrite Z.add_0_r).
  assert (∀ i, 0 ≤ i < k → ¬ s `prefix_of` suf i) as Hbelow.
  { intros i Hi Hp%Compare_prefix. specialize (Hlo i Hi). lia. }
  simpl. case_decide as Hkn; [left; split; [done|]; intros i Hi; apply Hbelow; lia|].
  assert (∀ i j, k ≤ i ≤ j → j < zlen d → s `prefix_of` suf j → s `prefix_of` suf i) as Hdown.
  { intros i j Hij Hj. apply prefix_after; [lia|done|]. apply Hhi. lia. }
  rewrite at_HasPrefix_Ok by lia. simpl. case_bool_decide as Hp; simpl.
  2:{ left. split; [done|]. intros i Hi Hpi. destruct (decide (i < k)); [by apply (Hbelow i); [lia|]|].
      apply Hp, (Hdown k i); [lia|lia|done]. }
  right. destruct (Search_spec (λ k0, b ← at_HasPrefix ix (k0 + k) s; Ok (negb b)) (zlen d - k)) as (m & -> & Hm & H1 & H2).
  - lia.
  - intros i Hi. rewrite at_HasPrefix_Ok by lia. simpl. eauto.
  - intros i j Hij Hj. rewrite !at_HasPrefix_Ok by lia. simpl. intros [= Hi%negb_true_iff%bool_decide_eq_false].
    rewrite bool_decide_eq_false_2; [done|]. intros Hpj. apply Hi, (Hdown _ (j + k)); [lia|lia|done].
  - simpl. exists k, (k + m).
    assert (0 < m) as Hm0.
    { destruct (decide (m = 0)) as [->|]; [|lia]. specialize (H2 0). rewrite at_HasPrefix_Ok in H2 by lia. simpl in H2.
      rewrite Z.add_0_l, bool_decide_eq_true_2 in H2 by done. discriminate H2; lia. }
    split_and!; [done|lia|lia|lia|]. intros i Hi. split; intros Hpi.
    + split; [by destruct (decide (k ≤ i)); [|exfalso; apply (Hbelow i); [lia|]]|].
      destruct (decide (i < k + m)); [done|]. specialize (H2 (i - k)). rewrite at_HasPrefix_Ok in H2 by lia. simpl in H2.
      replace (i - k + k) with i in H2 by lia. rewrite bool_decide_eq_true_2 in H2 by done. discriminate H2; lia.
    + specialize (H1 (i - k)). rewrite at_HasPrefix_Ok in H1 by lia. simpl in H1.
      replace (i - k + k) with i in H1 by lia. case_bool_decide; [done|]. discriminate H1; lia.
Qed.

(** Both scans stop at the first offset in the range. *)
Lemma first_in_range_spec rs re a n : 0 ≤ a → a + Z.of_nat n ≤ zlen d →
  ∃ r, first_in_range ix rs re (seqZ a (Z.of_nat n)) = Ok r ∧
  match r with
  | Some o => ∃ i, a ≤ i < a + Z.of_nat n ∧ idx (text_32 d) i = Ok o ∧ rs ≤ o < re
  | None => ∀ i o, a ≤ i < a + Z.of_nat n → idx (text_32 d) i = Ok o → ¬ (rs ≤ o < re)
  end.
Proof.
  revert a. induction n as [|n IH]; intros a Ha Hn.
  - exists None. split; [done|]. lia.
  - rewrite seqZ_cons by lia. replace (Z.pred (Z.of_nat (S n))) with (Z.of_nat n) by lia. cbn [first_in_range sa].
    destruct (sa_idx a) as (o & Eo & Ho & _); [lia|]. rewrite Eo. simpl.
    destruct (in_range rs re o) eqn:Er.
    + exists (Some o). split; [done|]. exists a. rewrite in_range_spec in Er. split_and!; [lia|lia|done|lia|lia].
    + destruct (IH (Z.succ a)) as (r & E & Hr); [lia|lia|]. exists r. split; [done|].
      destruct r as [o'|].
      * destruct Hr as (i & Hi & ?). exists i. split; [lia|done].
      * intros i o' Hi Eo'. destruct (decide (i = a)) as [->|]; [|apply (Hr i); [lia|done]].
        rewrite Eo in Eo'. injection Eo' as <-. rewrite <-in_range_spec, Er. done.
Qed.

(** [scan_matches] on a run of matches that ends where the matches end. *)
Lemma scan_matches_spec s rs re a n : 0 ≤ a → a + Z.of_nat n ≤ zlen d →
  (∀ i j, a ≤ i ≤ j → j < a + Z.of_nat n → s `prefix_of` suf j → s `prefix_of` suf i) →
  ∃ o, scan_matches ix s rs re (seqZ a (Z.of_nat n)) = Ok o ∧
  ((o = -1 ∧ ∀ i o', a ≤ i < a + Z.of_nat n → idx (text_32 d) i = Ok o' → s `prefix_of` suf i → ¬ (rs ≤ o' < re)) ∨
   occurs_in d s rs re o).
Proof.
  revert a. induction n as [|n IH]; intros a Ha Hn Hd'.
  - exists (-1). split; [done|]. left. split; [done|]. lia.
  - rewrite seqZ_cons by lia. replace (Z.pred (Z.of_nat (S n))) with (Z.of_nat n) by lia. cbn [scan_matches sa].
    rewrite at_HasPrefix_Ok by lia. simpl. case_bool_decide as Hp; simpl.
    2:{ exists (-1). split; [done|]. left. split; [done|]. intros i o Hi _ Hpi. destruct Hp. apply (Hd' a i); [lia|lia|done]. }
    destruct (sa_idx a) as (o & Eo & Ho & Es); [lia|]. rewrite Eo. simpl.
    destruct (in_range rs re o) eqn:Er.
    + exists o. split; [done|]. right. rewrite Es in Hp. apply in_range_spec in Er. done.
    + destruct (IH (Z.succ a)) as (o' & E & Hr); [lia|lia|intros i j Hij Hj; apply Hd'; lia|].
      exists o'. split; [done|]. destruct Hr as [[-> Hr]|Hr]; [left|by right].
      split; [done|]. intros i o' Hi Eo'. destruct (decide (i = a)) as [->|]; [|apply (Hr i); [lia|done]].
      rewrite Eo in Eo'. injection Eo' as <-. by rewrite <-in_range_spec, Er.
Qed.

(** [lookupLongest] decides whether [s] occurs in the range, when its matches lie
    in the interval searched; the interval returned still holds them all. *)
Lemma lookupLongest_spec s rs re a e : 0 ≤ a ≤ e → e ≤ zlen d →
  (∀ i, 0 ≤ i < zlen d → s `prefix_of` suf i → a ≤ i < e) →
  ∃ r o, lookupLongest ix s rs re a e = Ok (r, o) ∧
  ((o = -1 ∧ ∀ o', ¬ occurs_in d s rs re o') ∨
   (occurs_in d s rs re o ∧ a ≤ r ≤ e ∧ ∀ i, 0 ≤ i < zlen d → s `prefix_of` suf i → r ≤ i < e)).
Proof.
  intros Hae He Hin. unfold lookupLongest.
  destruct (Search_ge s a e) as (k & E & Hk & Hlo & Hhi); [lia|lia|]. rewrite E. simpl.
  assert (∀ i, 0 ≤ i < zlen d → s `prefix_of` suf i → k + a ≤ i < e) as Hin'.
  { intros i Hi Hp. pose proof (Hin i Hi Hp). destruct (decide (i < k + a)); [|lia].
    specialize (Hlo i). apply Compare_prefix in Hp. lia. }
  assert ((∀ i o, k + a ≤ i < e → idx (text_32 d) i = Ok o → s `prefix_of` suf i → ¬ (rs ≤ o < re)) →
    ∀ o', ¬ occurs_in d s rs re o') as Hnone.
  { intros Hn o' [[Ho Hp] Hr]. destruct (sa_rank o') as (i & Hi & Ei & Es); [lia|]. rewrite <-Es in Hp.
    apply (Hn i o'); auto. }
  case_decide as Hke.
  { exists a, (-1). split; [done|]. left. split; [done|]. apply Hnone. lia. }
  assert (∀ i j, k + a ≤ i ≤ j → j < e → s `prefix_of` suf j → s `prefix_of` suf i) as Hdown.
  { intros i j Hij Hj. apply prefix_after; [lia|lia|]. apply Hhi. lia. }
  rewrite at_HasPrefix_Ok by lia. simpl. case_bool_decide as Hp; simpl.
  2:{ exists a, (-1). split; [done|]. left. split; [done|]. apply Hnone.
      intros i o Hi _ Hpi. destruct Hp. apply (Hdown _ i); [lia|lia|done]. }
  replace (e - (k + a)) with (Z.of_nat (Z.to_nat (e - (k + a)))) by lia.
  destruct (scan_matches_spec s rs re (k + a) (Z.to_nat (e - (k + a)))) as (o & -> & Ho); [lia|lia|intros i j Hij Hj; apply Hdown; lia|].
  exists (k + a), o. split; [done|]. destruct Ho as [[-> Ho]|Ho]; [left|right; split_and!; [done|lia|lia|done]].
  split; [done|]. apply Hnone. intros i o Hi. apply Ho. lia.
Qed.

(** The binary search: [length] always matches in the range, no length above
    [high] does. *)
Lemma longest_loop_spec s rs re e minEnd maxEnd fuel a low high o len :
  0 ≤ minEnd → maxEnd ≤ zlen s → high ≤ maxEnd →
  0 ≤ a ≤ e → e ≤ zlen d → high - low < Z.of_nat fuel →
  minEnd ≤ len ≤ high → (low = len + 1 ∨ (low = minEnd ∧ len = minEnd)) →
  occurs_in d (take (Z.to_nat len) s) rs re o →
  (∀ i, 0 ≤ i < zlen d → take (Z.to_nat len) s `prefix_of` suf i → a ≤ i < e) →
  (∀ l o', high < l ≤ maxEnd → ¬ occurs_in d (take (Z.to_nat l) s) rs re o') →
  ∃ o' len', longest_loop fuel ix s rs re e a low high o len = Ok (o', len') ∧
    occurs_in d (take (Z.to_nat len') s) rs re o' ∧ minEnd ≤ len' ≤ maxEnd ∧
    ∀ l o'', len' < l ≤ maxEnd → ¬ occurs_in d (take (Z.to_nat l) s) rs re o''.
Proof.
  intros Hmin Hmax. revert a low high o len. induction fuel as [|fuel IH];
    intros a low high o len Hh Ha He Hf Hlen Hlow Hocc Hin Hhi; cbn [longest_loop];
    destruct (Z.leb_spec low high) as [Hle|Hgt];
    try (exists o, len; split_and!; [done|done|lia|lia|]; intros l o'' Hl; apply Hhi; lia); [lia|].
  set (mid := low + (high - low) / 2).
  assert (low ≤ mid ≤ high) as Hmid.
  { subst mid. split; [pose proof (Z.div_pos (high - low) 2)|pose proof (Z.div_le_upper_bound (high - low) 2 (high - low))]; lia. }
  rewrite slice_Ok by lia. simpl. rewrite drop_0, Z.sub_0_r.
  assert (∀ i, 0 ≤ i < zlen d → take (Z.to_nat mid) s `prefix_of` suf i → a ≤ i < e) as Hin'.
  { intros i Hi Hp. apply Hin; [done|]. etransitivity; [|exact Hp].
    rewrite <-(take_drop (Z.to_nat len) (take (Z.to_nat mid) s)), take_take, Nat.min_l by lia. by apply prefix_app_r. }
  destruct (lookupLongest_spec (take (Z.to_nat mid) s) rs re a e Ha He Hin') as (r & o1 & -> & Ho1). simpl.
  destruct Ho1 as [[-> Hno]|(Ho1 & Hr & Hin1)].
  - rewrite decide_False by lia. assert (len < mid) as Hlm.
    { destruct (decide (len < mid)); [done|]. destruct (Hno o). apply (occurs_shorter _ _ _ (Z.to_nat len)); [lia|done]. }
    apply IH; try done; try lia. intros l o' Hl Hoc. destruct (decide (high < l)); [by apply (Hhi l o'); [lia|]|].
    apply (Hno o'). apply (occurs_shorter _ _ _ (Z.to_nat l)); [lia|done].
  - rewrite decide_True by (destruct Ho1 as [[? _] _]; lia). apply IH; try done; lia.
Qed.

(** [LookupLongest] returns the longest prefix of [s], of a length between
    [minEnd] and [maxEnd], that occurs at an offset of the range, or -1 when none
    does. *)
Lemma LookupLongest_spec space s minEnd maxEnd rs re :
  zlen d ≤ space → 0 ≤ minEnd ≤ maxEnd → maxEnd ≤ zlen s →
  New d space = Ok ix ∧ ∃ index length, LookupLongest ix s minEnd maxEnd rs re = Ok (index, length) ∧
  ((index = -1 ∧ length = -1 ∧ ∀ o, ¬ occurs_in d (take (Z.to_nat minEnd) s) rs re o) ∨
   (occurs_in d (take (Z.to_nat length) s) rs re index ∧ minEnd ≤ length ≤ maxEnd ∧
    ∀ l o, length < l ≤ maxEnd → ¬ occurs_in d (take (Z.to_nat l) s) rs re o)).
Proof.
  intros Hsp Hm Hs. split; [unfold New; by rewrite !decide_False by lia|].
  unfold LookupLongest. rewrite slice_Ok by lia. simpl. rewrite drop_0, Z.sub_0_r.
  set (p := take (Z.to_nat minEnd) s).
  destruct (lookupLongestInitial_spec p) as [[-> Hno]|(a & e & -> & Ha & He & Hin)]; simpl.
  { exists (-1), (-1). split; [done|]. left. split_and!; [done..|]. intros o [[Ho Hp] _].
    destruct (sa_rank o Ho) as (i & Hi & _ & Es). rewrite <-Es in Hp. by apply (Hno i). }
  rewrite !decide_False by lia.
  destruct (first_in_range_spec rs re a (Z.to_nat (e - a))) as (r & Er & Hr); [lia|lia|].
  rewrite Z2Nat.id in Er by lia. rewrite Er. simpl. destruct r as [o|].
  - destruct Hr as (i & Hi & Ei & Hr). destruct (sa_idx i) as (o' & Eo & Ho & Es); [lia|].
    rewrite Ei in Eo. injection Eo as <-.
    destruct (longest_loop_spec s rs re e minEnd maxEnd (Z.to_nat (maxEnd - minEnd + 1)) a minEnd maxEnd o minEnd)
      as (o' & len & E & H1 & H2 & H3); try done; try lia; eauto.
    + split; [|done]. split; [done|]. rewrite <-Es. apply Hin; lia.
    + intros j Hj. by apply Hin.
    + exists o', len. split; [done|]. right. done.
  - exists (-1), (-1). split; [done|]. left. split_and!; [done..|]. intros o [[Ho Hp] Hro].
    destruct (sa_rank o Ho) as (i & Hi & Ei & Es). rewrite <-Es in Hp.
    apply (Hr i o); [|done|done]. apply Hin in Hp; [lia|done].
Qed.

End exact.

(** ** Sorting the suffixes by merging: an instance of the interface *)

Module MergeSuffixes.

Definition suffix_le (d : list Z) (a b : Z) : Prop := Compare (suffix d a) (suffix d b) ≤ 0.

#[global] Instance suffix_le_dec d : RelDecision (suffix_le d).
Proof. intros a b. apply Z.le_dec. Defined.

#[global] Instance suffix_le_total d : Total (suffix_le d).
Proof. intros a b. unfold suffix_le. rewrite (Compare_opp (suffix d a)). lia. Qed.

#[global] Instance suffix_le_trans d : Transitive (suffix_le d).
Proof. intros a b c. apply Compare_trans. Qed.

#[global] Instance MergeSort : SuffixSort := λ d, merge_sort (suffix_le d) (seqZ 0 (zlen d)).

#[global] Instance MergeSortLaws : SuffixSortLaws.
Proof.
  split; intros d _.
  - apply merge_sort_Permutation.
  - apply (StronglySorted_merge_sort (suffix_le d)).
Qed.

End MergeSuffixes.
