(* ===== verification/Lzss.v ===== *)
(** * The LZSS compressor of blob version 0

    Models src/prover/lib/compressor/blob/v0/compress/lzss: the back references
    ([backref.go]), the stream header ([header.go]), the compressor ([compress.go])
    and the decompressor ([decompress.go]). The bit stream is
    [github.com/icza/bitio], the parameter of [Bits]; the match finder is
    [SuffixArray]. The compressor works in place on two [bytes.Buffer]s, the input
    and the output, and keeps enough of its previous state to undo the last
    [Write]; all of that state is in the record [Compressor]. *)

From S2P Require Export SuffixArray.

(** Go's [uint8]. *)
Definition uint8 (z : Z) : Z := z mod 256.

(** [bits.Len], of a [uint]. *)
Definition Len64 (n : Z) : Z := if decide (n = 0) then 0 else Z.log2 n + 1.

(** [bytes.Buffer.Truncate] *)
Definition Truncate (b : list Z) (n : Z) : res (list Z) :=
  if decide (0 ≤ n ≤ zlen b) then Ok (take (Z.to_nat n) b) else Panic.

(** ** Back references *)

Definition MaxInputSize : Z := 2 ^ 21.
Definition MaxDictSize : Z := 2 ^ 22.

Definition SymbolDict : Z := 0xFF.
Definition SymbolShort : Z := 0xFE.
Definition SymbolLong : Z := 0xFD.

Record BackrefType := {
  Delimiter : Z;
  NbBitsAddress : Z;
  NbBitsLength : Z;
  NbBitsBackRef : Z;
  nbBytesBackRef : Z;
  maxAddress : Z;
  maxLength : Z;
  dictOnly : bool }.

Definition newBackRefType (symbol nbBitsAddress nbBitsLength : Z) (dictOnly : bool) : BackrefType :=
  {| Delimiter := symbol;
     NbBitsAddress := nbBitsAddress;
     NbBitsLength := nbBitsLength;
     NbBitsBackRef := uint8 (8 + nbBitsAddress + nbBitsLength);
     nbBytesBackRef := uint8 (8 + nbBitsAddress + nbBitsLength + 7) / 8;
     maxAddress := int64 (Z.shiftl 1 nbBitsAddress);
     maxLength := int64 (Z.shiftl 1 nbBitsLength);
     dictOnly := dictOnly |}.

Record backref := { address : Z; length_ : Z; bType : BackrefType }.

(** The interface [writer] of compress.go. *)
Class writer (T : Type) := {
  w_TryWriteBits : Z → Z → T → T;
  w_TryWriteByte : Z → T → T }.

Definition writeTo `{writer T} (b : backref) (i : Z) (w : T) : T :=
  let w := w_TryWriteByte (Delimiter (bType b)) w in
  let w := w_TryWriteBits (uint64 (length_ b - 1)) (NbBitsLength (bType b)) w in
  let addrToWrite := if dictOnly (bType b) then address b else i - address b - 1 in
  w_TryWriteBits (uint64 addrToWrite) (NbBitsAddress (bType b)) w.

Definition readFrom `{BitReader R} (b : backref) (r : R) : (backref * gerr) * R :=
  let '(n, r) := TryReadBits (NbBitsLength (bType b)) r in
  let length := int64 (int64 n + 1) in
  let '(n, r) := TryReadBits (NbBitsAddress (bType b)) r in
  let address := if dictOnly (bType b) then int64 n else int64 (int64 n + 1) in
  let b := {| address := address; length_ := length; bType := bType b |} in
  match RTryError r with
  | Some e => ((b, Some e), r)
  | None =>
      if decide (length ≤ 0 ∨ address < 0)
      then ((b, Some "invalid back reference"%string), r)
      else ((b, None), r)
  end.

Definition MinInt : Z := - 2 ^ 63.

Definition savings (b : backref) : Z :=
  if decide (length_ b = -1) then MinInt
  else 8 * length_ b - NbBitsBackRef (bType b).

(** ** The stream header *)

Definition Version : Z := 0.
Definition HeaderSize : Z := 3.

Record Header := { hVersion : Z; hLevel : Z }.

(** [binary.Write(w, binary.LittleEndian, uint16(..))], then the level. *)
Definition header_WriteTo (s : Header) : list Z :=
  [hVersion s mod 256; hVersion s / 256 mod 256] ++ [hLevel s].

Definition header_ReadFrom `{IoReader R} (r : R) : (Header * Z * gerr) * R :=
  let '((b, err), r) := ReadFull (Z.to_nat HeaderSize) r in
  match b, err with
  | [b0; b1; b2], None => (({| hVersion := b0 + 256 * b1; hLevel := b2 |}, zlen b, None), r)
  | _, _ => (({| hVersion := 0; hLevel := 0 |}, zlen b, err), r)
  end.

(** ** The compressor *)

Definition NoCompression : Z := 0.
Definition BestCompression : Z := 1.
Definition GoodCompression : Z := 2.
Definition GoodSnarkDecompression : Z := 4.
Definition BestSnarkDecompression : Z := 8.

Definition headerBitLen : Z := 24.
Definition longBrAddressNbBits : Z := 19.

Record Compressor {W : Type} := {
  outBuf : list Z;
  bw : W;
  nbSkippedBits : Z;
  inBuf : list Z;
  lastOutLen : Z;
  lastNbSkippedBits : Z;
  lastInLen : Z;
  justBypassed : bool;
  inputIndex : option Index;
  dictData : list Z;
  dictIndex : option Index;
  dictReservedIdx : gmap Z Z;
  level : Z;
  intendedLevel : Z }.
Arguments Compressor : clear implicits.

(** [AugmentDict] looks for the three reserved symbols and appends them unless it
    finds them all; the bits of [found] are the symbols seen. *)
Fixpoint has_reserved (found : Z) (dict : list Z) : bool :=
  match dict with
  | [] => false
  | b :: dict' =>
      let found' :=
        if b =? SymbolDict then Some (Z.lor found 1)
        else if b =? SymbolShort then Some (Z.lor found 2)
        else if b =? SymbolLong then Some (Z.lor found 4)
        else None in
      match found' with
      | None => has_reserved found dict'
      | Some f => if f =? 7 then true else has_reserved f dict'
      end
  end.

Definition AugmentDict (dict : list Z) : list Z :=
  if has_reserved 0 dict then dict else dict ++ [SymbolDict; SymbolShort; SymbolLong].

Definition wordAlign (level a : Z) : Z :=
  if decide (level = NoCompression) then uint8 a
  else uint8 (uint8 (uint8 (uint8 a + level) - 1) / level * level).

Definition InitBackRefTypes (dictLen level : Z) : BackrefType * BackrefType * BackrefType :=
  (newBackRefType SymbolShort (wordAlign level 14) 8 false,
   newBackRefType SymbolLong (wordAlign level longBrAddressNbBits) 8 false,
   newBackRefType SymbolDict (wordAlign level (Len64 dictLen)) 8 true).

Definition canEncodeSymbol (b : Z) : bool :=
  negb (b =? SymbolDict) && negb (b =? SymbolShort) && negb (b =? SymbolLong).

(** The loop of [NewCompressor] that records where the reserved symbols are. *)
Fixpoint reserved_loop (i : Z) (dict : list Z) (m : gmap Z Z) : gmap Z Z :=
  match dict with
  | [] => m
  | b :: dict' =>
      if canEncodeSymbol b then reserved_loop (i + 1) dict' m
      else
        let m := <[b := i]> m in
        if decide (size m = 3%nat) then m else reserved_loop (i + 1) dict' m
  end.

(** [index.LookupLongest] on a pointer that may be nil. *)
Definition lookup_index (index : option Index) (s : list Z) (minEnd maxEnd rangeStart rangeEnd : Z) : res (Z * Z) :=
  match index with
  | None => Panic
  | Some x => LookupLongest x s minEnd maxEnd rangeStart rangeEnd
  end.

Definition findBackRef (data : list Z) (i : Z) (bt : BackrefType) (minLength : Z)
    (index : option Index) (dictLen : Z) : res (Z * Z) :=
  let minLength := if decide (minLength = -1) then nbBytesBackRef bt else minLength in
  if decide (zlen data < i + minLength) then Ok (-1, -1)
  else
    let windowStart := Z.max 0 (i - maxAddress bt) in
    let maxRefLen := if decide (zlen data < i + maxLength bt) then zlen data - i else maxLength bt in
    if decide (maxRefLen < minLength) then Ok (-1, -1)
    else
      s ← slice data i (i + maxRefLen);
      if dictOnly bt
      then lookup_index index s minLength maxRefLen 0 dictLen
      else lookup_index index s minLength maxRefLen windowStart i.

(** ** [write] *)

(** The three candidates at a position. The closures of [write] assign all the
    fields before they read them, so they are results here. *)
Record candidates := { bDict : backref; bShort : backref; bLong : backref }.

Definition bestBackref (b : candidates) : backref * Z :=
  if decide (length_ (bDict b) ≠ -1 ∧ savings (bShort b) < savings (bDict b) ∧ savings (bLong b) < savings (bDict b))
  then (bDict b, savings (bDict b))
  else if decide (length_ (bShort b) ≠ -1 ∧ savings (bLong b) < savings (bShort b))
  then (bShort b, savings (bShort b))
  else (bLong b, savings (bLong b)).

(** The number of bytes equal to [x] at the front of [l], at most [k]. *)
Fixpoint run_length (k : nat) (x : Z) (l : list Z) : Z :=
  match k, l with
  | S k', y :: l' => if x =? y then 1 + run_length k' x l' else 0
  | _, _ => 0
  end.

Definition minConstantingBytes : Z := 160.

Section write.
Context {W : Type} (c : Compressor W) (d : list Z) (inputIndex : option Index).

Definition dictLen : Z := zlen (dictData c).
Definition shortBackRefType : BackrefType := (InitBackRefTypes dictLen (level c)).1.1.
Definition longBackRefType : BackrefType := (InitBackRefTypes dictLen (level c)).1.2.
Definition dictBackRefType : BackrefType := (InitBackRefTypes dictLen (level c)).2.

Definition fillBackrefs (i minLen : Z) : res (candidates * bool) :=
  '(da, dl) ← findBackRef d i dictBackRefType minLen (dictIndex c) dictLen;
  '(sa, sl) ← findBackRef d i shortBackRefType minLen inputIndex dictLen;
  '(la, ll) ← findBackRef d i longBackRefType minLen inputIndex dictLen;
  Ok ({| bDict := {| address := da; length_ := dl; bType := dictBackRefType |};
         bShort := {| address := sa; length_ := sl; bType := shortBackRefType |};
         bLong := {| address := la; length_ := ll; bType := longBackRefType |} |},
      negb (bool_decide (dl = -1 ∧ sl = -1 ∧ ll = -1))).

Context `{writer T}.

(** The constant runs: the first byte if it does not repeat the previous one,
    then a short reference to the byte before. *)
Definition write_run (w : T) (i count x : Z) : res (T * Z) :=
  prev ← (if decide (0 < i) then y ← idx d (i - 1); Ok (y =? x) else Ok false);
  let '(w, i, count) :=
    if negb prev then
      let w :=
        if negb (canEncodeSymbol x)
        then writeTo {| address := default 0 (dictReservedIdx c !! x); length_ := 1; bType := dictBackRefType |} i w
        else w_TryWriteByte x w in
      (w, i + 1, count - 1)
    else (w, i, count) in
  Ok (writeTo {| address := i - 1; length_ := count; bType := shortBackRefType |} i w, i + count).

(** The lazy matching: is there a better reference one or two bytes further on?
    The bytes skipped are written as they are. *)
Definition write_lazy (w : T) (i : Z) (bestAtI : backref) (bestSavings : Z) : res (T * Z * backref) :=
  if decide (zlen d ≤ i + 1) then Ok (w, i, bestAtI)
  else
    '(b1, found1) ← fillBackrefs (i + 1) (length_ bestAtI + 1);
    if found1 : bool then
      let '(newBest, newSavings) := bestBackref b1 in
      if decide (newSavings ≤ bestSavings) then Ok (w, i, bestAtI)
      else
        di ← idx d i;
        let w := w_TryWriteByte di w in
        let i := i + 1 in
        let bestSavings := newSavings in
        let bestAtI := newBest in
        di ← idx d i;
        if negb (canEncodeSymbol di && (i + 1 <? zlen d)) then Ok (w, i, bestAtI)
        else
          '(b2, found2) ← fillBackrefs (i + 1) (length_ bestAtI + 1);
          if negb found2 then Ok (w, i, bestAtI)
          else
            let '(newBest, newSavings) := bestBackref b2 in
            if decide (newSavings ≤ bestSavings) then Ok (w, i, bestAtI)
            else Ok (w_TryWriteByte di w, i + 1, newBest)
    else if decide (zlen d ≤ i + 2) then Ok (w, i, bestAtI)
    else
      d1 ← idx d (i + 1);
      if negb (canEncodeSymbol d1) then Ok (w, i, bestAtI)
      else
        '(b2, found2) ← fillBackrefs (i + 2) (length_ bestAtI + 2);
        if negb found2 then Ok (w, i, bestAtI)
        else
          let '(newBest, newSavings) := bestBackref b2 in
          if decide (newSavings ≤ bestSavings) then Ok (w, i, bestAtI)
          else
            d0 ← idx d i;
            let w := w_TryWriteByte d0 w in
            let w := w_TryWriteByte d1 w in
            Ok (w, i + 2, newBest).

(** One round of the loop of [write] at [i]: the writer and the next position, or
    the error. *)
Definition write_step (w : T) (i : Z) : res (T * Z * gerr) :=
  x ← idx d i;
  let count := run_length (Z.to_nat (maxLength shortBackRefType)) x (drop (Z.to_nat i) d) in
  if decide (minConstantingBytes ≤ count) then
    '(w, i) ← write_run w i count x; Ok (w, i, None)
  else if negb (canEncodeSymbol x) then
    '(b, found) ← fillBackrefs i 1;
    if negb found then Ok (w, i, Some "could not find a backref"%string)
    else
      let '(best, _) := bestBackref b in
      Ok (writeTo best i w, i + length_ best, None)
  else
    '(b, found) ← fillBackrefs i (-1);
    if negb found then Ok (w_TryWriteByte x w, i + 1, None)
    else
      let '(bestAtI, bestSavings) := bestBackref b in
      '(w, i, bestAtI) ← write_lazy w i bestAtI bestSavings;
      Ok (writeTo bestAtI i w, i + length_ bestAtI, None).

(** Every round moves on by a byte at least, so [len(d) - startIndex] rounds are
    enough. *)
Fixpoint write_loop (fuel : nat) (startIndex : Z) (w : T) (i : Z) : res (T * Z * gerr) :=
  if i <? zlen d then
    match fuel with
    | O => Panic
    | S fuel' =>
        '(w, i, err) ← write_step w i;
        match err with
        | Some e => Ok (w, i - startIndex, Some e)
        | None => write_loop fuel' startIndex w i
        end
    end
  else Ok (w, zlen d - startIndex, None).

Definition write (w : T) (startIndex : Z) : res (T * Z * gerr) :=
  write_loop (Z.to_nat (zlen d - startIndex)) startIndex w startIndex.

End write.

(** The two writers: [bitio.Writer] on the output buffer, and the bit counter. *)
#[global] Instance bit_writer `{BitWriter W} : writer (W * list Z) := {
  w_TryWriteBits v n s := let '(w, bs) := TryWriteBits v n s.1 in (w, s.2 ++ bs);
  w_TryWriteByte b s := let '(w, bs) := TryWriteByte b s.1 in (w, s.2 ++ bs) }.

Record bitCounterWriter := { nbBits : Z }.

#[global] Instance bit_counter : writer bitCounterWriter := {
  w_TryWriteBits _ n b := {| nbBits := nbBits b + n |};
  w_TryWriteByte _ b := {| nbBits := nbBits b + 8 |} }.

(** [bitCounterWriter.Len] *)
Definition counter_Len (b : bitCounterWriter) : Z := (nbBits b + 7) / 8.

(** ** The operations of the compressor *)

Section compressor.
Context `{SuffixSort, BitWriter W}.
Notation Compressor := (Compressor W).

(** Assignments to groups of fields. *)
Definition set_out (c : Compressor) (out : list Z) (b : W) (skipped : Z) : Compressor :=
  {| outBuf := out; bw := b; nbSkippedBits := skipped; inBuf := inBuf c; lastOutLen := lastOutLen c;
     lastNbSkippedBits := lastNbSkippedBits c; lastInLen := lastInLen c; justBypassed := justBypassed c;
     inputIndex := inputIndex c; dictData := dictData c; dictIndex := dictIndex c;
     dictReservedIdx := dictReservedIdx c; level := level c; intendedLevel := intendedLevel c |}.

Definition set_in (c : Compressor) (inb : list Z) (last : Z) : Compressor :=
  {| outBuf := outBuf c; bw := bw c; nbSkippedBits := nbSkippedBits c; inBuf := inb; lastOutLen := lastOutLen c;
     lastNbSkippedBits := lastNbSkippedBits c; lastInLen := last; justBypassed := justBypassed c;
     inputIndex := inputIndex c; dictData := dictData c; dictIndex := dictIndex c;
     dictReservedIdx := dictReservedIdx c; level := level c; intendedLevel := intendedLevel c |}.

Definition set_last (c : Compressor) (outLen skipped : Z) (bypassed : bool) : Compressor :=
  {| outBuf := outBuf c; bw := bw c; nbSkippedBits := nbSkippedBits c; inBuf := inBuf c; lastOutLen := outLen;
     lastNbSkippedBits := skipped; lastInLen := lastInLen c; justBypassed := bypassed;
     inputIndex := inputIndex c; dictData := dictData c; dictIndex := dictIndex c;
     dictReservedIdx := dictReservedIdx c; level := level c; intendedLevel := intendedLevel c |}.

Definition set_level (c : Compressor) (l : Z) : Compressor :=
  {| outBuf := outBuf c; bw := bw c; nbSkippedBits := nbSkippedBits c; inBuf := inBuf c; lastOutLen := lastOutLen c;
     lastNbSkippedBits := lastNbSkippedBits c; lastInLen := lastInLen c; justBypassed := justBypassed c;
     inputIndex := inputIndex c; dictData := dictData c; dictIndex := dictIndex c;
     dictReservedIdx := dictReservedIdx c; level := l; intendedLevel := intendedLevel c |}.

Definition set_index (c : Compressor) (x : option Index) : Compressor :=
  {| outBuf := outBuf c; bw := bw c; nbSkippedBits := nbSkippedBits c; inBuf := inBuf c; lastOutLen := lastOutLen c;
     lastNbSkippedBits := lastNbSkippedBits c; lastInLen := lastInLen c; justBypassed := justBypassed c;
     inputIndex := x; dictData := dictData c; dictIndex := dictIndex c;
     dictReservedIdx := dictReservedIdx c; level := level c; intendedLevel := intendedLevel c |}.

(** [Reset]; the bit writer [bw] is left as it is. *)
Definition Reset (c : Compressor) : Compressor :=
  let c := set_level c (intendedLevel c) in
  let c := set_out c (header_WriteTo {| hVersion := Version; hLevel := level c |}) (bw c) (nbSkippedBits c) in
  let c := set_in c [] (lastInLen c) in
  let c := set_last c (zlen (outBuf c)) 0 false in
  let c := set_out c (outBuf c) (bw c) 0 in
  set_in c (inBuf c) 0.

Definition NewCompressor (dict : list Z) (l : Z) : res (option Compressor * gerr) :=
  let dict := AugmentDict dict in
  if decide (MaxDictSize < zlen dict) then Ok (None, Some "dict size must be <= MaxDictSize"%string)
  else
    ix ← (if decide (l = NoCompression) then Ok None else x ← New dict (zlen dict); Ok (Some x));
    let c := {| outBuf := []; bw := NewWriter; nbSkippedBits := 0; inBuf := []; lastOutLen := 0;
                lastNbSkippedBits := 0; lastInLen := 0; justBypassed := false; inputIndex := None;
                dictData := dict; dictIndex := ix; dictReservedIdx := reserved_loop 0 dict ∅;
                level := 0; intendedLevel := l |} in
    Ok (Some (Reset c), None).

Definition appendInput (c : Compressor) (d : list Z) : Compressor * gerr :=
  if decide (MaxInputSize < zlen (inBuf c) + zlen d) then (c, Some "input size must be <= MaxInputSize"%string)
  else (set_in c (inBuf c ++ d) (zlen (inBuf c)), None).

(** The start of [Write]: the last byte of the output goes back to the bit
    writer without its padding ("reconstruct bit writer cache"). *)
Definition reopen_output (c : Compressor) : res (Compressor * gerr) :=
  let outLen := zlen (outBuf c) in
  let c := set_last c outLen (lastNbSkippedBits c) (justBypassed c) in
  lastByte ← idx (outBuf c) (outLen - 1);
  out ← Truncate (outBuf c) (outLen - 1);
  let lastByte := Z.shiftr lastByte (nbSkippedBits c) in
  let '(b, bs, err) := WriteBits lastByte (uint8 (8 - nbSkippedBits c)) (bw c) in
  Ok (set_out c (out ++ bs) b (nbSkippedBits c), err).

(** [Write]; the new state comes with the error, as a failed [Write] changes it. *)
Definition Write (c : Compressor) (d : list Z) : res (Compressor * Z * gerr) :=
  '(c, err) ← reopen_output c;
  match err with Some e => Ok (c, 0, Some e) | None =>
  let c := set_last c (lastOutLen c) (nbSkippedBits c) false in
  let '(c, err) := appendInput c d in
  match err with Some e => Ok (c, 0, Some e) | None =>
  if decide (level c = NoCompression) then
    Ok (set_out c (outBuf c ++ d) (bw c) (nbSkippedBits c), zlen d, None)
  else
    let d := inBuf c in
    if decide (MaxInputSize < zlen d) then Panic
    else
      x ← New d (zlen d);
      let c := set_index c (Some x) in
      '((b, out), n, err) ← write c d (Some x) (bw c, outBuf c) (lastInLen c);
      let c := set_out c out b (nbSkippedBits c) in
      match err with Some e => Ok (c, n, Some e) | None =>
      match TryError (bw c) with Some e => Ok (c, n, Some e) | None =>
        let '(b, bs, skipped, err) := Align (bw c) in
        Ok (set_out c (outBuf c ++ bs) b skipped, n, err)
      end end
  end end.

Definition Len (c : Compressor) : Z := zlen (outBuf c).
Definition Written (c : Compressor) : Z := zlen (inBuf c).
Definition WrittenBytes (c : Compressor) : list Z := inBuf c.
Definition Bytes (c : Compressor) : list Z := outBuf c.

Definition Revert (c : Compressor) : res (Compressor * gerr) :=
  if decide (lastInLen c = -1) then Ok (c, Some "cannot revert twice in a row"%string)
  else
    inb ← Truncate (inBuf c) (lastInLen c);
    let c := set_in c inb (-1) in
    if justBypassed c then
      let d := inBuf c in
      '(c, _, err) ← Write (Reset c) d;
      Ok (c, err)
    else
      out ← Truncate (outBuf c) (lastOutLen c);
      Ok (set_out c out (bw c) (lastNbSkippedBits c), None).

Definition ConsiderBypassing (c : Compressor) : Compressor * bool :=
  if decide (zlen (inBuf c) + headerBitLen / 8 < zlen (outBuf c)) then
    let c := set_level c NoCompression in
    let c := set_out c (outBuf c) (bw c) 0 in
    let c := set_last c (lastInLen c + headerBitLen / 8) 0 true in
    let c := set_out c (header_WriteTo {| hVersion := Version; hLevel := NoCompression |} ++ inBuf c) (bw c) (nbSkippedBits c) in
    (c, true)
  else (c, false).

(** [Compress]; the bytes are returned with the error. *)
Definition Compress (c : Compressor) (d : list Z) : res (Compressor * list Z * gerr) :=
  '(c, _, err) ← Write (Reset c) d;
  Ok (c, Bytes c, err).

Definition CompressedSize256k (c : Compressor) (d : list Z) : res (Z * gerr) :=
  let size := HeaderSize in
  if decide (level c = NoCompression) then Ok (size + zlen d, None)
  else if decide (2 ^ 18 < zlen d) then Ok (0, Some "input size must be <= 262144"%string)
  else
    x ← New d (zlen d);
    '(b, _, err) ← write c d (Some x) {| nbBits := 0 |} 0;
    match err with
    | Some e => Ok (size, Some e)
    | None => Ok (size + counter_Len b, None)
    end.

End compressor.

(** ** The decompressor *)

(** [for i := 0; i < length; i++ { ... out.WriteByte(out.Bytes()[out.Len()-address]) }]:
    the bytes are copied one by one, so a reference may overlap its own output. *)
Fixpoint copy_back (n : nat) (address : Z) (out : list Z) : res (option (list Z)) :=
  match n with
  | O => Ok (Some out)
  | S n' =>
      if decide (zlen out < address) then Ok None
      else
        b ← idx out (zlen out - address);
        copy_back n' address (out ++ [b])
  end.

Section decompress.
Context `{BitReader R}.

(** One symbol: the output, or the error. *)
Definition decompress_symbol (dict : list Z) (short long dictT : BackrefType) (s : Z) (r : R) (out : list Z)
    : res (list Z * gerr * R) :=
  let back bt :=
    let '((b, err), r) := readFrom {| address := 0; length_ := 0; bType := bt |} r in
    match err with
    | Some e => Ok (out, Some e, r)
    | None =>
        o ← copy_back (Z.to_nat (length_ b)) (address b) out;
        match o with
        | None => Ok (out, Some "invalid backref"%string, r)
        | Some out => Ok (out, None, r)
        end
    end in
  if s =? SymbolShort then back short
  else if s =? SymbolLong then back long
  else if s =? SymbolDict then
    let '((b, err), r) := readFrom {| address := 0; length_ := 0; bType := dictT |} r in
    match err with
    | Some e => Ok (out, Some e, r)
    | None =>
        if decide (zlen dict < address b ∨ zlen dict < address b + length_ b)
        then Ok (out, Some "invalid dict backref"%string, r)
        else
          p ← slice dict (address b) (address b + length_ b);
          Ok (out ++ p, None, r)
    end
  else Ok (out ++ [s], None, r).

(** The loop: [s] is the symbol read last. Every round reads a byte at least. *)
Fixpoint decompress_loop (fuel : nat) (dict : list Z) (short long dictT : BackrefType) (s : Z) (r : R) (out : list Z)
    : res (list Z * gerr) :=
  match RTryError r with
  | Some _ => Ok (out, None)
  | None =>
      match fuel with
      | O => Panic
      | S fuel' =>
          '(out, err, r) ← decompress_symbol dict short long dictT s r out;
          match err with
          | Some e => Ok ([], Some e)
          | None =>
              let '(s, r) := TryReadByte r in
              decompress_loop fuel' dict short long dictT s r out
          end
      end
  end.

Definition Decompress (data dict : list Z) : res (list Z * gerr) :=
  let '((header, sizeHeader, err), r) := header_ReadFrom (NewReader data) in
  match err with
  | Some e => Ok ([], Some "failed to read header"%string)
  | None =>
      if decide (hVersion header ≠ Version) then Ok ([], Some "unsupported compressor version"%string)
      else if decide (hLevel header = NoCompression) then
        d ← slice data sizeHeader (zlen data); Ok (d, None)
      else
        let dict := AugmentDict dict in
        let '(short, long, dictT) := InitBackRefTypes (zlen dict) (hLevel header) in
        let '(s, r) := TryReadByte r in
        decompress_loop (length data) dict short long dictT s r []
  end.

End decompress.
