(* ===== verification/LzssFacts.v ===== *)
(** * What the compressor writes

    The output of [write] as a list of phrases: literals, references into the
    dictionary and copies of earlier output. [write] emits, on any writer, the same
    phrases, and they expand to the input ([write_phrases]); in bits they are what
    the decompressor reads back ([decompress_phrases]). *)

From S2P Require Export Lzss.

(** ** Phrases *)

Inductive phrase :=
| Lit (b : Z)
| FromDict (addr len : Z)
| Copy (long : bool) (dist len : Z).

(** The back reference types for a dictionary length and a level. *)
Definition typ (dl lvl : Z) (long : bool) : BackrefType :=
  let '(s, l, _) := InitBackRefTypes dl lvl in if long then l else s.

Definition dict_typ (dl lvl : Z) : BackrefType := (InitBackRefTypes dl lvl).2.

Section phrases.
Context (dict : list Z) (lvl : Z).

Notation dl := (zlen dict).

(** [expands out p out']: reading [p] with [out] produced so far gives [out']. *)
Inductive expands : list Z → phrase → list Z → Prop :=
| expands_lit out b : is_byte b → canEncodeSymbol b = true → expands out (Lit b) (out ++ [b])
| expands_dict out a l : 0 ≤ a → 1 ≤ l ≤ 256 → a + l ≤ dl →
    expands out (FromDict a l) (out ++ take (Z.to_nat l) (drop (Z.to_nat a) dict))
| expands_copy out k a l out' : 1 ≤ a ≤ maxAddress (typ dl lvl k) → 1 ≤ l ≤ 256 →
    copy_back (Z.to_nat l) a out = Ok (Some out') →
    expands out (Copy k a l) out'.

Inductive expands_all : list Z → list phrase → list Z → Prop :=
| expands_nil out : expands_all out [] out
| expands_cons out p out' ps out'' :
    expands out p out' → expands_all out' ps out'' → expands_all out (p :: ps) out''.

(** Emitting phrases on a writer. *)
Definition emit {T} `{writer T} (w : T) (p : phrase) : T :=
  match p with
  | Lit b => w_TryWriteByte b w
  | FromDict a l =>
      w_TryWriteBits a (NbBitsAddress (dict_typ dl lvl)) (w_TryWriteBits (l - 1) 8 (w_TryWriteByte SymbolDict w))
  | Copy k a l =>
      w_TryWriteBits (a - 1) (NbBitsAddress (typ dl lvl k))
        (w_TryWriteBits (l - 1) 8 (w_TryWriteByte (Delimiter (typ dl lvl k)) w))
  end.

Definition emits {T} `{writer T} (w : T) (ps : list phrase) : T := foldl emit w ps.

(** The bits of a phrase. *)
Definition encode (p : phrase) : list bool :=
  match p with
  | Lit b => to_bits 8 b
  | FromDict a l =>
      to_bits 8 SymbolDict ++ to_bits 8 (l - 1) ++ to_bits (Z.to_nat (NbBitsAddress (dict_typ dl lvl))) a
  | Copy k a l =>
      to_bits 8 (Delimiter (typ dl lvl k)) ++ to_bits 8 (l - 1) ++
      to_bits (Z.to_nat (NbBitsAddress (typ dl lvl k))) (a - 1)
  end.

Definition encodes (ps : list phrase) : list bool := concat (encode <$> ps).

Lemma expands_all_app out ps out' qs out'' :
  expands_all out ps out' → expands_all out' qs out'' → expands_all out (ps ++ qs) out''.
Proof. induction 1; intros Hq; simpl; [done|]. econstructor; eauto. Qed.

Lemma expands_all_one out p out' : expands out p out' → expands_all out [p] out'.
Proof. intros Hp. econstructor; [done|constructor]. Qed.

Lemma encodes_app ps qs : encodes (ps ++ qs) = encodes ps ++ encodes qs.
Proof. unfold encodes. by rewrite fmap_app, concat_app. Qed.

Lemma emits_app {T} `{writer T} (w : T) ps qs : emits w (ps ++ qs) = emits (emits w ps) qs.
Proof. apply foldl_app. Qed.

(** ** The reference types *)

Lemma Len64_spec n : 0 ≤ n → n < 2 ^ Len64 n ∧ 0 ≤ Len64 n.
Proof.
  intros Hn. unfold Len64. case_decide as E; [subst; split; [done|lia]|].
  pose proof (Z.log2_spec n). pose proof (Z.log2_nonneg n). rewrite <-Z.add_1_r in *. lia.
Qed.

Lemma Len64_max n : 0 ≤ n ≤ MaxDictSize → Len64 n ≤ 23.
Proof.
  intros Hn. unfold Len64. case_decide; [lia|].
  pose proof (Z.log2_le_mono n MaxDictSize). change (Z.log2 MaxDictSize) with 22 in *. lia.
Qed.

Lemma wordAlign_spec l a : 1 ≤ l ≤ 8 → 0 ≤ a ≤ 32 → a ≤ wordAlign l a < a + l.
Proof.
  intros Hl Ha. unfold wordAlign. rewrite decide_False by (unfold NoCompression; lia). unfold uint8.
  rewrite (Z.mod_small a), (Z.mod_small (a + l)), (Z.mod_small (a + l - 1)) by lia.
  pose proof (Z.div_mod (a + l - 1) l). pose proof (Z.mod_pos_bound (a + l - 1) l).
  rewrite Z.mod_small; lia.
Qed.

(** What the code relies on of a reference type. *)
Record type_ok (t : BackrefType) : Prop := {
  ok_address : 0 ≤ NbBitsAddress t ≤ 32;
  ok_length : NbBitsLength t = 8 ∧ maxLength t = 256;
  ok_max : maxAddress t = 2 ^ NbBitsAddress t;
  ok_bytes : 1 ≤ nbBytesBackRef t }.

Lemma newBackRefType_ok s a b : 0 ≤ a ≤ 32 → type_ok (newBackRefType s a 8 b).
Proof.
  intros Ha. split; simpl.
  - done.
  - done.
  - rewrite Z.shiftl_1_l. apply int64_id.
    pose proof (Z.pow_le_mono_r 2 a 32). pose proof (Z.pow_pos_nonneg 2 a). unfold in_int64. lia.
  - unfold uint8. rewrite Z.mod_small by lia. apply Z.div_le_lower_bound; lia.
Qed.

Context (Hlvl : 1 ≤ lvl ≤ 8) (Hdict : dl ≤ MaxDictSize).

Lemma typ_ok k : type_ok (typ dl lvl k).
Proof.
  pose proof (wordAlign_spec lvl 14 Hlvl). pose proof (wordAlign_spec lvl 19 Hlvl).
  destruct k; apply newBackRefType_ok; unfold longBrAddressNbBits; lia.
Qed.

Lemma dict_typ_ok : type_ok (dict_typ dl lvl) ∧ dl < 2 ^ NbBitsAddress (dict_typ dl lvl).
Proof.
  pose proof (zlen_nonneg dict) as Hd. pose proof (Len64_spec dl Hd) as [Hl Hl0].
  pose proof (Len64_max dl ltac:(lia)). pose proof (wordAlign_spec lvl (Len64 dl) Hlvl).
  split; [apply newBackRefType_ok; lia|]. simpl.
  pose proof (Z.pow_le_mono_r 2 (Len64 dl) (wordAlign lvl (Len64 dl))). lia.
Qed.

Lemma typ_symbols k : dictOnly (typ dl lvl k) = false ∧ Delimiter (typ dl lvl k) = if k then SymbolLong else SymbolShort.
Proof. by destruct k. Qed.

Lemma encode_length_ge p : (8 ≤ length (encode p))%nat.
Proof. destruct p; cbn [encode]; rewrite ?length_app, !to_bits_length; lia. Qed.
End phrases.

(** ** The reserved symbols are in the dictionary *)

Definition reserved (x : Z) : Prop := canEncodeSymbol x = false.

Lemma reserved_cases x : reserved x ↔ x = SymbolDict ∨ x = SymbolShort ∨ x = SymbolLong.
Proof.
  unfold reserved, canEncodeSymbol.
  destruct (Z.eqb_spec x SymbolDict), (Z.eqb_spec x SymbolShort), (Z.eqb_spec x SymbolLong); simpl; naive_solver.
Qed.

Lemma reserved_is_byte x : reserved x → is_byte x.
Proof. rewrite reserved_cases. by intros [-> | [-> | ->]]. Qed.

Lemma has_reserved_spec f dict : has_reserved f dict = true →
  (Z.testbit f 0 = true ∨ SymbolDict ∈ dict) ∧ (Z.testbit f 1 = true ∨ SymbolShort ∈ dict) ∧
  (Z.testbit f 2 = true ∨ SymbolLong ∈ dict).
Proof.
  revert f. induction dict as [|b dict IH]; intros f; cbn [has_reserved]; [done|].
  assert (∀ m, 0 ≤ m → Z.lor f m = 7 → ∀ i, Z.testbit 7 i = Z.testbit f i || Z.testbit m i) as H7.
  { intros m Hm <- i. apply Z.lor_spec. }
  assert (∀ m, (if Z.lor f m =? 7 then true else has_reserved (Z.lor f m) dict) = true → 0 ≤ m →
    (Z.testbit f 0 || Z.testbit m 0 = true ∨ SymbolDict ∈ dict) ∧ (Z.testbit f 1 || Z.testbit m 1 = true ∨ SymbolShort ∈ dict) ∧
    (Z.testbit f 2 || Z.testbit m 2 = true ∨ SymbolLong ∈ dict)) as Hstep.
  { intros m E Hm. destruct (Z.eqb_spec (Z.lor f m) 7) as [E7|_].
    - rewrite <-!(H7 m Hm E7). auto.
    - rewrite <-!Z.lor_spec. by apply IH. }
  destruct (Z.eqb_spec b SymbolDict) as [->|]; [|destruct (Z.eqb_spec b SymbolShort) as [->|];
    [|destruct (Z.eqb_spec b SymbolLong) as [->|]]].
  4:{ intros E%IH. set_solver. }
  all: intros E%Hstep; [|lia]; cbn in E; rewrite ?orb_false_r in E; set_solver.
Qed.

Lemma AugmentDict_reserved dict x : reserved x → x ∈ AugmentDict dict.
Proof.
  rewrite reserved_cases. unfold AugmentDict. destruct (has_reserved 0 dict) eqn:E; [|set_solver].
  apply has_reserved_spec in E. rewrite !Z.bits_0 in E. naive_solver.
Qed.

(** [m] holds, for some of the reserved symbols, a position in [dict]. *)
Definition reserved_at (dict : list Z) (m : gmap Z Z) : Prop :=
  ∀ x a, m !! x = Some a → reserved x ∧ 0 ≤ a ∧ dict !! Z.to_nat a = Some x.

Lemma reserved_full dict m x : reserved_at dict m → size m = 3%nat → reserved x → is_Some (m !! x).
Proof.
  intros Hm Hs Hx. apply elem_of_dom.
  cut (dom m = {[SymbolDict; SymbolShort; SymbolLong]}).
  { intros ->. apply reserved_cases in Hx. set_solver. }
  apply set_subseteq_size_eq.
  - intros y [a Ha]%elem_of_dom. destruct (Hm y a Ha) as [Hy _]. apply reserved_cases in Hy. set_solver.
  - rewrite size_dom, Hs. done.
Qed.

Lemma reserved_loop_spec l r m :
  reserved_at (l ++ r) m → (∀ x, reserved x → x ∈ l → is_Some (m !! x)) →
  let m' := reserved_loop (zlen l) r m in
  reserved_at (l ++ r) m' ∧ ∀ x, reserved x → x ∈ l ++ r → is_Some (m' !! x).
Proof.
  revert l m. induction r as [|b r IH]; intros l m Hm Hin; cbn [reserved_loop].
  - split; [done|]. by rewrite app_nil_r.
  - rewrite cons_middle, (assoc_L (++)) in *.
    assert (zlen l + 1 = zlen (l ++ [b])) as -> by (by rewrite zlen_app).
    destruct (canEncodeSymbol b) eqn:Eb.
    + apply IH; [done|]. intros x Hx [Hl|Hl]%elem_of_app; [by apply Hin|].
      apply list_elem_of_singleton in Hl as ->. unfold reserved in Hx. congruence.
    + assert (reserved_at ((l ++ [b]) ++ r) (<[b:=zlen l]> m)) as Hm'.
      { intros x a [[<- <-]|[_ Ha]]%lookup_insert_Some; [|by apply Hm].
        split_and!; [done|apply zlen_nonneg|]. unfold zlen. rewrite Nat2Z.id, <-(assoc_L (++)).
        by rewrite lookup_app_r, Nat.sub_diag by lia. }
      case_decide as Hs.
      * split; [done|]. intros x Hx _. by eapply reserved_full.
      * apply IH; [done|]. intros x Hx [Hl|Hl]%elem_of_app.
        -- destruct (decide (x = b)) as [->|]; [by rewrite lookup_insert_eq; eauto|].
           rewrite lookup_insert_ne by done. by apply Hin.
        -- apply list_elem_of_singleton in Hl as ->. rewrite lookup_insert_eq. eauto.
Qed.

(** The map of [NewCompressor] gives a position of every reserved symbol. *)
Lemma dictReserved_spec dict x : reserved x →
  ∃ a, reserved_loop 0 (AugmentDict dict) ∅ !! x = Some a ∧ 0 ≤ a ∧ AugmentDict dict !! Z.to_nat a = Some x.
Proof.
  intros Hx. destruct (reserved_loop_spec [] (AugmentDict dict) ∅) as [Hat Hin].
  - intros ? ? ?. by rewrite lookup_empty in *.
  - set_solver.
  - destruct (Hin x Hx) as [a Ha]; [by apply AugmentDict_reserved|]. exists a. split; [done|].
    by destruct (Hat x a Ha) as (_ & ? & ?).
Qed.

(** ** Copies of earlier output *)

Lemma take_S_snoc {A} (l : list A) i x : l !! i = Some x → take i l ++ [x] = take (S i) l.
Proof. intros. by rewrite (take_S_r l i x). Qed.

Lemma copy_back_take d n : ∀ i o, (o < i)%nat → (i + n ≤ length d)%nat →
  take n (drop i d) `prefix_of` drop o d →
  copy_back n (Z.of_nat i - Z.of_nat o) (take i d) = Ok (Some (take (i + n) d)).
Proof.
  induction n as [|n IH]; intros i o Ho Hn Hp; cbn [copy_back]; [by rewrite Nat.add_0_r|].
  assert (zlen (take i d) = Z.of_nat i) as Hl by (unfold zlen; rewrite length_take; lia).
  rewrite Hl, decide_False by lia.
  destruct (lookup_lt_is_Some_2 d o) as [x Hx]; [lia|]. destruct (lookup_lt_is_Some_2 d i) as [y Hy]; [lia|].
  rewrite (idx_nat _ _ x); [|lia|by rewrite lookup_take_lt by lia; rewrite <-Hx; f_equal; lia].
  simpl. rewrite (drop_S _ _ _ Hy), (drop_S _ _ _ Hx) in Hp. simpl in Hp.
  pose proof (prefix_cons_inv_1 _ _ _ _ Hp) as ->. apply prefix_cons_inv_2 in Hp.
  rewrite (take_S_snoc _ _ _ Hy).
  replace (Z.of_nat i - Z.of_nat o) with (Z.of_nat (S i) - Z.of_nat (S o)) by lia.
  rewrite IH by (done || lia). do 3 f_equal. lia.
Qed.

Lemma drop_take_app (d : list Z) i l : take i d ++ take l (drop i d) = take (i + l) d.
Proof. by rewrite take_take_drop. Qed.

(** ** The phrases of [write] *)

Section write.
Context `{SuffixSort, !SuffixSortLaws} {W : Type} (c : Compressor W) (d : list Z).

Notation dict := (dictData c).
Notation lvl := (level c).
Notation index_of l := (Some {| data := l; sa := text_32 l |}).
Notation pre i := (take (Z.to_nat i) d).
Notation expands := (expands dict lvl).
Notation expands_all := (expands_all dict lvl).

(** The compressor is set up for compression. *)
Record set_up : Prop := {
  up_level : 1 ≤ lvl ≤ 8;
  up_dict : zlen dict ≤ MaxDictSize;
  up_index : dictIndex c = index_of dict;
  up_reserved : ∀ x, reserved x → ∃ a, dictReservedIdx c !! x = Some a ∧ 0 ≤ a ∧ dict !! Z.to_nat a = Some x }.

Context (Hup : set_up) (Hbytes : Forall is_byte d) (Hd : zlen d ≤ MaxInputSize).

(** A back reference that can be written at [i]. *)
Definition good (i : Z) (b : backref) : Prop :=
  1 ≤ length_ b ∧ i + length_ b ≤ zlen d ∧
  ∃ p, expands (pre i) p (pre (i + length_ b)) ∧
    ∀ T (Tw : writer T) (w : T), writeTo b i w = emit dict lvl w p.

Lemma findBackRef_spec t m src i :
  type_ok t → zlen src ≤ maxData32 → (dictOnly t = false → src = d) →
  0 ≤ i ≤ zlen d → m = -1 ∨ 1 ≤ m →
  ∃ a l, findBackRef d i t m (index_of src) (zlen src) = Ok (a, l) ∧
  ((l = -1 ∧ (m = 1 → i < zlen d → dictOnly t = true → ∀ o, ¬ occurs src (take 1 (drop (Z.to_nat i) d)) o)) ∨
   (1 ≤ l ≤ 256 ∧ i + l ≤ zlen d ∧
    let rs := if dictOnly t then 0 else Z.max 0 (i - maxAddress t) in
    let re := if dictOnly t then zlen src else i in
    occurs_in src (take (Z.to_nat l) (drop (Z.to_nat i) d)) rs re a)).
Proof.
  intros Ht Hsrc Hio Hi Hm. unfold findBackRef. destruct (ok_length _ Ht) as [_ ->].
  set (m' := if decide (m = -1) then _ else _).
  assert (1 ≤ m') as Hm' by (subst m'; pose proof (ok_bytes _ Ht); case_decide; lia).
  case_decide as H1; [exists (-1), (-1); split; [done|]; left; split; [done|]; intros -> ?; subst m'; simpl in *; lia|].
  set (mx := if decide (zlen d < i + 256) then _ else _).
  assert (mx ≤ 256 ∧ i + mx ≤ zlen d ∧ (mx = 256 ∨ i + mx = zlen d)) as (Hx1 & Hx2 & Hx3) by (subst mx; case_decide; lia).
  case_decide as H2; [exists (-1), (-1); split; [done|]; left; split; [done|]; intros -> ?; subst m'; simpl in *; lia|].
  rewrite slice_Ok by lia. simpl. replace (i + mx - i) with mx by lia.
  set (s := take (Z.to_nat mx) (drop (Z.to_nat i) d)).
  assert (zlen s = mx) as Hs by (unfold zlen, s; rewrite length_take, length_drop; unfold zlen in *; lia).
  set (rs := if dictOnly t then 0 else Z.max 0 (i - maxAddress t)).
  set (re := if dictOnly t then zlen src else i).
  destruct (LookupLongest_spec src Hsrc (zlen src) s m' mx rs re) as (_ & a & l & E & Hr); [lia|lia|lia|].
  exists a, l. split; [rewrite <-E; unfold rs, re; by destruct (dictOnly t)|].
  destruct Hr as [(_ & -> & Hno)|(Ho & Hl & _)].
  - left. split; [done|]. intros -> Hlt Hdo o Hoc. apply (Hno o). unfold rs, re. rewrite Hdo.
    split; [|destruct Hoc; lia]. revert Hoc. subst m'. simpl. unfold s.
    change (Z.to_nat 1) with 1%nat. by rewrite take_take, Nat.min_l by lia.
  - right. split_and!; [lia|lia|lia|]. unfold s in Ho. by rewrite take_take, Nat.min_l in Ho by lia.
Qed.

Lemma uint64_small40 x : 0 ≤ x < 2 ^ 40 → uint64 x = x.
Proof. intros. unfold uint64. apply Z.mod_small. lia. Qed.

(** A match in the dictionary can be written. *)
Lemma good_dict i a l : 0 ≤ i → 1 ≤ l ≤ 256 → i + l ≤ zlen d → 0 ≤ a →
  take (Z.to_nat l) (drop (Z.to_nat i) d) `prefix_of` suffix dict a → a < zlen dict →
  good i {| address := a; length_ := l; bType := dict_typ (zlen dict) lvl |}.
Proof.
  intros Hi Hl Hil Ha Hp Had. destruct (dict_typ_ok dict lvl (up_level Hup) (up_dict Hup)) as [Ht Hdl].
  split; [simpl; lia|]. split; [simpl; lia|]. exists (FromDict a l). split.
  - simpl. rewrite Z2Nat.inj_add, <-drop_take_app by lia. destruct Hp as [k Hk]. unfold suffix in Hk.
    assert (length (take (Z.to_nat l) (drop (Z.to_nat i) d)) = Z.to_nat l) as Hlen
      by (rewrite length_take, length_drop; unfold zlen in *; lia).
    assert (take (Z.to_nat l) (drop (Z.to_nat i) d) = take (Z.to_nat l) (drop (Z.to_nat a) dict)) as ->.
    { rewrite Hk. symmetry. by apply take_app_length'. }
    constructor; [lia|lia|]. apply (f_equal length) in Hk. rewrite length_app, length_drop, Hlen in Hk. unfold zlen in *. lia.
  - intros T Tw w. unfold writeTo. cbn [bType address length_ emit]. destruct (ok_length _ Ht) as [-> _].
    change (dictOnly (dict_typ (zlen dict) lvl)) with true. cbv iota.
    rewrite !uint64_small40 by (unfold MaxDictSize in *; pose proof (up_dict Hup); unfold MaxDictSize in *; lia). done.
Qed.

(** A match earlier in the input can be written. *)
Lemma good_copy k i a l : 0 ≤ i → 1 ≤ l ≤ 256 → i + l ≤ zlen d →
  0 ≤ a < i → i - maxAddress (typ (zlen dict) lvl k) ≤ a →
  take (Z.to_nat l) (drop (Z.to_nat i) d) `prefix_of` suffix d a →
  good i {| address := a; length_ := l; bType := typ (zlen dict) lvl k |}.
Proof.
  intros Hi Hl Hil Ha Hw Hp. pose proof (typ_ok dict lvl (up_level Hup) k) as Ht.
  split; [simpl; lia|]. split; [simpl; lia|]. exists (Copy k (i - a) l). split.
  - simpl. constructor; [lia|lia|].
    pose proof (copy_back_take d (Z.to_nat l) (Z.to_nat i) (Z.to_nat a)) as E.
    rewrite !Z2Nat.id in E by lia. rewrite E; [|lia|unfold zlen in *; lia|done]. by rewrite Z2Nat.inj_add by lia.
  - intros T Tw w. unfold writeTo. cbn [bType address length_ emit]. destruct (ok_length _ Ht) as [-> _].
    destruct (typ_symbols dict lvl k) as [-> _].
    rewrite !uint64_small40 by (unfold MaxInputSize in *; lia). done.
Qed.

(** A candidate: none, or a reference that can be written. *)
Definition candidate (i : Z) (b : backref) : Prop :=
  NbBitsBackRef (bType b) < 256 ∧ (length_ b = -1 ∨ good i b).

Lemma savings_cases i b : candidate i b →
  (length_ b = -1 ∧ savings b = MinInt) ∨ (length_ b ≠ -1 ∧ MinInt < savings b ∧ good i b).
Proof.
  intros [Hn [Hl|Hg]]; unfold savings; [left; by rewrite decide_True|].
  right. pose proof (proj1 Hg). rewrite decide_False by lia. unfold MinInt. split_and!; [lia|lia|done].
Qed.

Lemma bestBackref_good i b :
  candidate i (bDict b) → candidate i (bShort b) → candidate i (bLong b) →
  ¬ (length_ (bDict b) = -1 ∧ length_ (bShort b) = -1 ∧ length_ (bLong b) = -1) →
  good i (bestBackref b).1.
Proof.
  intros H1%savings_cases H2%savings_cases H3%savings_cases Hne. unfold bestBackref.
  case_decide; [naive_solver|]. case_decide; [naive_solver|]. simpl. naive_solver lia.
Qed.

Lemma fillBackrefs_spec i m :
  0 ≤ i ≤ zlen d → m = -1 ∨ 1 ≤ m →
  ∃ cs f, fillBackrefs c d (index_of d) i m = Ok (cs, f) ∧
    (f = true → good i (bestBackref cs).1) ∧
    (m = 1 → (∃ x, d !! Z.to_nat i = Some x ∧ reserved x) → f = true).
Proof.
  intros Hi Hm. pose proof (zlen_nonneg dict) as Hd0. pose proof (up_dict Hup) as Hdd. unfold MaxDictSize, MaxInputSize in *.
  destruct (dict_typ_ok dict lvl (up_level Hup) (up_dict Hup)) as [Ht _].
  pose proof (typ_ok dict lvl (up_level Hup)) as Htk.
  destruct (findBackRef_spec (dict_typ (zlen dict) lvl) m dict i) as (da & dlen & Ed & Hrd); [done|unfold maxData32; lia|done|done|done|].
  destruct (findBackRef_spec (typ (zlen dict) lvl false) m d i) as (sa & slen & Es & Hrs); [done|unfold maxData32; lia|done|done|done|].
  destruct (findBackRef_spec (typ (zlen dict) lvl true) m d i) as (la & llen & El & Hrl); [done|unfold maxData32; lia|done|done|done|].
  unfold fillBackrefs, dictLen. rewrite (up_index Hup).
  change (dictBackRefType c) with (dict_typ (zlen dict) lvl). change (shortBackRefType c) with (typ (zlen dict) lvl false).
  change (longBackRefType c) with (typ (zlen dict) lvl true).
  assert (∀ t dl' dl'', type_ok t → dictOnly t = false → findBackRef d i t m (index_of d) dl' = findBackRef d i t m (index_of d) dl'') as Hirr.
  { intros t dl1 dl2 _ Hdo. unfold findBackRef. by rewrite Hdo. }
  rewrite Ed. simpl. rewrite (Hirr (typ _ _ false) (zlen dict) (zlen d)), Es by done. simpl.
  rewrite (Hirr (typ _ _ true) (zlen dict) (zlen d)), El by done. simpl.
  eexists _, _. split; [done|]. split.
  - intros Hne%negb_true_iff%bool_decide_eq_false. apply bestBackref_good; simpl; [| | |done].
    + split; [apply Z.mod_pos_bound; lia|]. destruct Hrd as [[-> _]|(Hl & Hil & [[Ho Hp] _])]; [by left|right]. apply good_dict; [lia|done|done|lia|done|lia].
    + split; [apply Z.mod_pos_bound; lia|]. destruct Hrs as [[-> _]|(Hl & Hil & [[Ho Hp] Hr])]; [by left|right].
      simpl in Hr. apply (good_copy false); [lia|done|done|lia|simpl; lia|done].
    + split; [apply Z.mod_pos_bound; lia|]. destruct Hrl as [[-> _]|(Hl & Hil & [[Ho Hp] Hr])]; [by left|right].
      simpl in Hr. apply (good_copy true); [lia|done|done|lia|simpl; lia|done].
  - intros -> (x & Hx & Hrx). apply negb_true_iff, bool_decide_eq_false. intros [-> _].
    destruct Hrd as [[_ Hno]|?]; [|lia]. destruct (up_reserved Hup x Hrx) as (a & _ & Ha & Hax).
    pose proof (lookup_lt_Some _ _ _ Hx). pose proof (lookup_lt_Some _ _ _ Hax).
    apply (Hno eq_refl ltac:(unfold zlen; lia) eq_refl a).
    split; [unfold zlen; lia|]. rewrite (drop_S _ _ _ Hx). unfold suffix. rewrite (drop_S _ _ _ Hax).
    apply prefix_cons, prefix_nil.
Qed.

(** A literal. *)
Lemma expands_literal i x : 0 ≤ i → d !! Z.to_nat i = Some x → canEncodeSymbol x = true →
  expands (pre i) (Lit x) (pre (i + 1)).
Proof.
  intros Hi Hx Hc. replace (Z.to_nat (i + 1)) with (S (Z.to_nat i)) by lia.
  rewrite <-(take_S_snoc _ _ _ Hx). constructor; [|done]. by apply (Forall_lookup_1 _ _ _ _ Hbytes Hx).
Qed.

Lemma pre_lookup i : 0 ≤ i < zlen d → ∃ x, idx d i = Ok x ∧ d !! Z.to_nat i = Some x.
Proof. intros Hi. destruct (idx_is_Ok d i Hi) as [x Hx]. exists x. split; [done|]. by apply idx_Ok in Hx as []. Qed.

(** Phrases that take the output from [i] to [j], as written by [f]. *)
Definition writes (i j : Z) (ps : list phrase) : Prop :=
  0 ≤ i ≤ j ∧ j ≤ zlen d ∧ expands_all (pre i) ps (pre j).

Lemma writes_nil i : 0 ≤ i ≤ zlen d → writes i i [].
Proof. intros Hi. split_and!; [lia|lia|lia|constructor]. Qed.

Lemma writes_app i j k ps qs : writes i j ps → writes j k qs → writes i k (ps ++ qs).
Proof. intros (? & ? & ?) (? & ? & ?). split_and!; [lia|lia|lia|]. by eapply expands_all_app. Qed.

Lemma writes_lit i x : 0 ≤ i → d !! Z.to_nat i = Some x → canEncodeSymbol x = true → writes i (i + 1) [Lit x].
Proof.
  intros Hi Hx Hc. pose proof (lookup_lt_Some _ _ _ Hx). split_and!; [lia|lia|unfold zlen; lia|].
  by apply expands_all_one, expands_literal.
Qed.

Lemma good_writes i b : 0 ≤ i → good i b → ∃ ps, writes i (i + length_ b) ps ∧
  ∀ T (Tw : writer T) (w : T), writeTo b i w = emits dict lvl w ps.
Proof.
  intros Hi (Hl & Hil & p & Hp & Hw). exists [p]. split; [|done]. split_and!; [lia|lia|lia|by apply expands_all_one].
Qed.

(** The lazy matching ends with literals and a reference that can be written. *)
Lemma write_lazy_spec i b sv x :
  0 ≤ i → d !! Z.to_nat i = Some x → canEncodeSymbol x = true → good i b →
  ∃ ps j b', writes i j ps ∧ good j b' ∧
    ∀ T (Tw : writer T) (w : T),
      write_lazy c d (index_of d) w i b sv = Ok (emits dict lvl w ps, j, b').
Proof.
  intros Hi Hx Hc Hg. pose proof (lookup_lt_Some _ _ _ Hx) as Hlt.
  assert (idx d i = Ok x) as Ex by by apply idx_nat.
  assert (∃ ps j b', writes i j ps ∧ good j b' ∧ ∀ T (Tw : writer T) (w : T), Ok (w, i, b) = Ok (emits dict lvl w ps, j, b')) as Hstay.
  { exists [], i, b. split_and!; [apply writes_nil; unfold zlen; lia|done|done]. }
  pose proof (writes_lit i x Hi Hx Hc) as Hw1. pose proof (proj1 Hg) as Hl.
  unfold write_lazy. case_decide as H1; [done|]. assert (i + 1 < zlen d) as Hi1 by lia.
  destruct (fillBackrefs_spec (i + 1) (length_ b + 1)) as (c1 & f1 & E1 & Hb1 & _); [lia|lia|].
  rewrite E1. simpl. destruct (pre_lookup (i + 1)) as (x1 & Ex1 & Hx1); [lia|]. destruct f1.
  - destruct (bestBackref c1) as [nb ns] eqn:Eb1. case_decide; [done|]. rewrite Ex. simpl. rewrite Ex1. simpl.
    specialize (Hb1 eq_refl). simpl in Hb1.
    assert (∃ ps j b', writes i j ps ∧ good j b' ∧ ∀ T (Tw : writer T) (w : T),
      Ok (w_TryWriteByte x w, i + 1, nb) = Ok (emits dict lvl w ps, j, b')) as Hstay1 by by exists [Lit x], (i + 1), nb.
    destruct (canEncodeSymbol x1) eqn:Ec1; [|done]. destruct (Z.ltb_spec (i + 1 + 1) (zlen d)) as [Hlt2|]; [|done]. simpl.
    destruct (fillBackrefs_spec (i + 1 + 1) (length_ nb + 1)) as (c2 & f2 & E2 & Hb2 & _); [lia|pose proof (proj1 Hb1); lia|].
    rewrite E2. simpl. destruct f2; [|done]. simpl. destruct (bestBackref c2) as [nb2 ns2] eqn:Eb2. case_decide; [done|].
    exists [Lit x; Lit x1], (i + 1 + 1), nb2. split_and!; [|by apply Hb2|done].
    apply (writes_app i (i + 1) _ [Lit x] [Lit x1]); [done|]. apply writes_lit; [lia|done|done].
  - case_decide as H2; [done|]. rewrite Ex1. simpl. destruct (canEncodeSymbol x1) eqn:Ec1; [|done]. simpl.
    destruct (fillBackrefs_spec (i + 2) (length_ b + 2)) as (c2 & f2 & E2 & Hb2 & _); [lia|lia|].
    rewrite E2. simpl. destruct f2; [|done]. simpl. destruct (bestBackref c2) as [nb2 ns2] eqn:Eb2. case_decide; [done|].
    rewrite Ex. simpl. exists [Lit x; Lit x1], (i + 2), nb2. split_and!; [|by apply Hb2|done].
    replace (i + 2) with (i + 1 + 1) by lia.
    apply (writes_app i (i + 1) _ [Lit x] [Lit x1]); [done|]. apply writes_lit; [lia|done|done].
Qed.

(** ** Constant runs *)

Lemma run_length_spec k x l : 0 ≤ run_length k x l ≤ Z.of_nat k ∧
  take (Z.to_nat (run_length k x l)) l = replicate (Z.to_nat (run_length k x l)) x.
Proof.
  revert l. induction k as [|k IH]; intros [|y l]; cbn [run_length]; try (split; [lia|done]).
  destruct (Z.eqb_spec x y) as [->|]; [|split; [lia|done]].
  destruct (IH l) as [H1 H2]. split; [lia|].
  replace (Z.to_nat (1 + run_length k y l)) with (S (Z.to_nat (run_length k y l))) by lia. simpl. by rewrite H2.
Qed.

(** A run after a byte of the same value is a copy from one byte back. *)
Lemma good_run i n x :
  1 ≤ i → d !! Z.to_nat (i - 1) = Some x → 1 ≤ n ≤ 256 → i + n ≤ zlen d →
  take (Z.to_nat n) (drop (Z.to_nat i) d) = replicate (Z.to_nat n) x →
  good i {| address := i - 1; length_ := n; bType := shortBackRefType c |}.
Proof.
  intros Hi Hx Hn Hil Hr. change (shortBackRefType c) with (typ (zlen dict) lvl false).
  pose proof (ok_max _ (typ_ok dict lvl (up_level Hup) false)) as Hmax.
  pose proof (ok_address _ (typ_ok dict lvl (up_level Hup) false)).
  apply good_copy; [lia|done|done|lia| |].
  - rewrite Hmax. pose proof (Z.pow_pos_nonneg 2 (NbBitsAddress (typ (zlen dict) lvl false))). lia.
  - unfold suffix. rewrite (drop_S _ _ _ Hx). replace (S (Z.to_nat (i - 1))) with (Z.to_nat i) by lia.
    rewrite <-(take_drop (Z.to_nat n) (drop (Z.to_nat i) d)) at 2. rewrite Hr.
    exists (x :: drop (Z.to_nat n) (drop (Z.to_nat i) d)).
    by rewrite app_comm_cons, replicate_cons_app, <-(assoc_L (++)).
Qed.

Lemma good_reserved i x :
  0 ≤ i → d !! Z.to_nat i = Some x → reserved x →
  good i {| address := default 0 (dictReservedIdx c !! x); length_ := 1; bType := dictBackRefType c |}.
Proof.
  intros Hi Hx Hr. pose proof (lookup_lt_Some _ _ _ Hx). destruct (up_reserved Hup x Hr) as (a & -> & Ha & Hax). simpl.
  pose proof (lookup_lt_Some _ _ _ Hax). change (dictBackRefType c) with (dict_typ (zlen dict) lvl).
  apply good_dict; [lia|lia|unfold zlen; lia|lia| |unfold zlen; lia].
  rewrite (drop_S _ _ _ Hx). unfold suffix. rewrite (drop_S _ _ _ Hax). apply prefix_cons, prefix_nil.
Qed.

Lemma write_run_spec i n x :
  0 ≤ i → d !! Z.to_nat i = Some x → minConstantingBytes ≤ n ≤ 256 → i + n ≤ zlen d →
  take (Z.to_nat n) (drop (Z.to_nat i) d) = replicate (Z.to_nat n) x →
  ∃ ps, writes i (i + n) ps ∧
    ∀ T (Tw : writer T) (w : T), write_run c d w i n x = Ok (emits dict lvl w ps, i + n).
Proof.
  unfold minConstantingBytes. intros Hi Hx Hn Hil Hr. pose proof (lookup_lt_Some _ _ _ Hx) as Hlt.
  assert (∃ ps, writes i (i + n) ps ∧ ∀ T (Tw : writer T) (w : T),
    Ok (writeTo {| address := i + 1 - 1; length_ := n - 1; bType := shortBackRefType c |} (i + 1)
      (if negb (canEncodeSymbol x)
        then writeTo {| address := default 0 (dictReservedIdx c !! x); length_ := 1; bType := dictBackRefType c |} i w
        else w_TryWriteByte x w), i + 1 + (n - 1)) = Ok (emits dict lvl w ps, i + n)) as Hfirst.
  { assert (good (i + 1) {| address := i + 1 - 1; length_ := n - 1; bType := shortBackRefType c |}) as Hg.
    { apply (good_run _ _ x); [lia| |lia|lia|].
      - by replace (i + 1 - 1) with i by lia.
      - rewrite (drop_S _ _ _ Hx) in Hr. replace (Z.to_nat n) with (S (Z.to_nat (n - 1))) in Hr by lia.
        simpl in Hr. injection Hr as Hr. by replace (Z.to_nat (i + 1)) with (S (Z.to_nat i)) by lia. }
    destruct (good_writes (i + 1) _ ltac:(lia) Hg) as (ps & Hps & Hw). simpl in Hps.
    replace (i + 1 + (n - 1)) with (i + n) in * by lia.
    destruct (canEncodeSymbol x) eqn:Ec; simpl.
    - exists ([Lit x] ++ ps). split; [apply (writes_app _ (i + 1)); [by apply writes_lit|done]|].
      intros T Tw w. by rewrite emits_app, Hw.
    - destruct (good_writes _ _ Hi (good_reserved i x Hi Hx Ec)) as (qs & Hqs & Hw'). simpl in Hqs.
      exists (qs ++ ps). split; [by apply (writes_app _ (i + 1))|]. intros T Tw w. by rewrite emits_app, <-Hw', Hw. }
  unfold write_run. case_decide as Hi0; simpl; [|done].
  destruct (pre_lookup (i - 1)) as (y & -> & Hy); [unfold zlen in *; lia|]. simpl.
  destruct (Z.eqb_spec y x) as [->|]; simpl; [|done].
  destruct (good_writes i {| address := i - 1; length_ := n; bType := shortBackRefType c |}) as (ps & Hps & Hw);
    [lia|apply (good_run _ _ x); [lia|done|lia|done|done]|].
  exists ps. split; [done|]. intros T Tw w. by rewrite Hw.
Qed.

(** ** One round, and the whole loop *)

Lemma write_step_spec i : 0 ≤ i < zlen d →
  ∃ ps j, i < j ∧ writes i j ps ∧
    ∀ T (Tw : writer T) (w : T), write_step c d (index_of d) w i = Ok (emits dict lvl w ps, j, None).
Proof.
  intros Hi. destruct (pre_lookup i Hi) as (x & Ex & Hx). unfold write_step. rewrite Ex.
  change (maxLength (shortBackRefType c)) with (maxLength (typ (zlen dict) lvl false)).
  destruct (ok_length _ (typ_ok dict lvl (up_level Hup) false)) as [_ ->].
  pose proof (run_length_spec (Z.to_nat 256) x (drop (Z.to_nat i) d)) as [Hrl Hrep].
  change (mbind (M := res) ?f (Ok x)) with (f x). cbv beta zeta.
  set (n := run_length (Z.to_nat 256) x (drop (Z.to_nat i) d)) in *.
  case_decide as Hn.
  { assert (i + n ≤ zlen d) as Hin.
    { apply (f_equal length) in Hrep. rewrite length_take, length_drop, length_replicate in Hrep. unfold zlen in *. lia. }
    destruct (write_run_spec i n x) as (ps & Hps & Hw); [lia|done|unfold minConstantingBytes in *; lia|done|done|].
    exists ps, (i + n). unfold minConstantingBytes in *. split_and!; [lia|done|]. intros T Tw w. by rewrite Hw. }
  destruct (canEncodeSymbol x) eqn:Ec; simpl.
  - destruct (fillBackrefs_spec i (-1)) as (cs & f & Ef & Hb & _); [lia|lia|]. rewrite Ef. simpl. destruct f; simpl.
    2:{ exists [Lit x], (i + 1). split_and!; [lia|apply writes_lit; [lia|done|done]|done]. }
    destruct (bestBackref cs) as [b sv]. specialize (Hb eq_refl). simpl in Hb.
    destruct (write_lazy_spec i b sv x) as (ps & j & b' & Hps & Hg & Hw); [lia|done|done|done|].
    destruct (good_writes j b') as (qs & Hqs & Hw'); [destruct Hps; lia|done|].
    exists (ps ++ qs), (j + length_ b'). split_and!; [destruct Hps, Hg; lia|by apply (writes_app _ j)|].
    intros T Tw w. rewrite Hw. simpl. by rewrite Hw', emits_app.
  - destruct (fillBackrefs_spec i 1) as (cs & f & Ef & Hb & Hf); [lia|lia|]. rewrite Ef. simpl.
    rewrite Hf in * by eauto. simpl. destruct (bestBackref cs) as [b sv]. specialize (Hb eq_refl). simpl in Hb.
    destruct (good_writes i b) as (ps & Hps & Hw); [lia|done|].
    exists ps, (i + length_ b). split_and!; [destruct Hb; lia|done|]. intros T Tw w. by rewrite Hw.
Qed.

Lemma write_loop_spec fuel start i :
  0 ≤ i ≤ zlen d → zlen d - i ≤ Z.of_nat fuel →
  ∃ ps, writes i (zlen d) ps ∧ ∀ T (Tw : writer T) (w : T),
    write_loop c d (index_of d) fuel start w i = Ok (emits dict lvl w ps, zlen d - start, None).
Proof.
  revert i. induction fuel as [|fuel IH]; intros i Hi Hf; cbn [write_loop]; destruct (Z.ltb_spec i (zlen d)) as [Hlt|Hge];
    [lia|exists []; split; [replace i with (zlen d) by lia; apply writes_nil; lia|done]| |
     exists []; split; [replace i with (zlen d) by lia; apply writes_nil; lia|done]].
  destruct (write_step_spec i) as (ps & j & Hj & Hps & Hw); [lia|].
  destruct (IH j) as (qs & Hqs & Hw'); [destruct Hps as (? & ? & ?); lia|lia|].
  exists (ps ++ qs). split; [by apply (writes_app _ j)|]. intros T Tw w. rewrite Hw. simpl. by rewrite Hw', emits_app.
Qed.

(** [write] succeeds, and on every writer it emits the same phrases, which expand
    to the input. *)
Lemma write_phrases start : 0 ≤ start ≤ zlen d →
  ∃ ps, writes start (zlen d) ps ∧ ∀ T (Tw : writer T) (w : T),
    write c d (index_of d) w start = Ok (emits dict lvl w ps, zlen d - start, None).
Proof. intros Hs. apply write_loop_spec; [done|lia]. Qed.

End write.

(** ** The phrases in bits *)

Section bits.
Context (dict : list Z) (lvl : Z) (Hlvl : 1 ≤ lvl ≤ 8) (Hdict : zlen dict ≤ MaxDictSize).

Notation expands := (expands dict lvl).
Notation expands_all := (expands_all dict lvl).
Notation encode := (encode dict lvl).
Notation encodes := (encodes dict lvl).

(** [put w out w' out' l]: the bits [l] went to the writer. *)
Definition put `{BitWriterSpec W} (s s' : W * list Z) (l : list bool) : Prop :=
  TryError s'.1 = None ∧ ∃ bs, s'.2 = s.2 ++ bs ∧ Forall is_byte bs ∧
  bytes_bits bs ++ pending s'.1 = pending s.1 ++ l.

Lemma put_trans `{BitWriterSpec W} (s s' s'' : W * list Z) l k :
  put s s' l → put s' s'' k → put s s'' (l ++ k).
Proof.
  intros (H1 & bs & E1 & Hb1 & P1) (H2 & bs' & E2 & Hb2 & P2). split; [done|].
  exists (bs ++ bs'). rewrite E2, E1, (assoc_L (++)), bytes_bits_app, <-(assoc_L (++) (bytes_bits bs)), P2.
  rewrite (assoc_L (++)), P1, (assoc_L (++)). split_and!; [done|by apply Forall_app|done].
Qed.

Lemma put_bits `{BitWriterSpec W} (s : W * list Z) v n : TryError s.1 = None → 0 ≤ n ≤ 64 →
  put s (w_TryWriteBits v n s) (to_bits (Z.to_nat n) v).
Proof.
  intros Hs Hn. destruct (TryWriteBits_spec v n s.1 Hs Hn) as (w' & bs & E & P & Hb & Hw'). simpl. rewrite E.
  split; [done|]. by exists bs.
Qed.

Lemma put_byte `{BitWriterSpec W} (s : W * list Z) b : TryError s.1 = None → is_byte b →
  put s (w_TryWriteByte b s) (to_bits 8 b).
Proof.
  intros Hs Hb. destruct (TryWriteByte_spec b s.1 Hs Hb) as (w' & bs & E & P & Hbs & Hw'). simpl. rewrite E.
  split; [done|]. by exists bs.
Qed.

Lemma put_ref `{BitWriterSpec W} (s : W * list Z) x n v a : TryError s.1 = None → is_byte x → 0 ≤ n ≤ 64 →
  put s (w_TryWriteBits a n (w_TryWriteBits v 8 (w_TryWriteByte x s)))
    (to_bits 8 x ++ to_bits 8 v ++ to_bits (Z.to_nat n) a).
Proof.
  intros Hs Hx Hn. pose proof (put_byte s x Hs Hx) as H1.
  pose proof (put_bits (w_TryWriteByte x s) v 8 (proj1 H1) ltac:(lia)) as H2. simpl Z.to_nat in H2.
  eapply put_trans; [exact H1|]. eapply put_trans; [exact H2|]. by apply put_bits; [apply H2|].
Qed.

Lemma emit_bits `{BitWriterSpec W} (s : W * list Z) out p out' :
  TryError s.1 = None → expands out p out' → put s (emit dict lvl s p) (encode p).
Proof.
  intros Hs Hp. pose proof (typ_ok dict lvl Hlvl) as Hk. destruct (dict_typ_ok dict lvl Hlvl Hdict) as [Hdt _].
  destruct Hp as [out b Hb _|out a l Ha Hl Hal|out k a l out' Ha Hl _]; cbn [emit LzssFacts.encode].
  - by apply put_byte.
  - apply put_ref; [done|done|]. pose proof (ok_address _ Hdt). lia.
  - apply put_ref; [done|by destruct k|]. pose proof (ok_address _ (Hk k)). lia.
Qed.

Lemma emits_bits `{BitWriterSpec W} (s : W * list Z) out ps out' :
  TryError s.1 = None → expands_all out ps out' → put s (emits dict lvl s ps) (encodes ps).
Proof.
  intros Hs Hps. revert s Hs. induction Hps as [out|out p out' ps out'' Hp _ IH]; intros s Hs; simpl.
  - split; [done|]. exists []. by rewrite !app_nil_r.
  - pose proof (emit_bits s out p out' Hs Hp) as H1. eapply put_trans; [exact H1|]. apply IH, H1.
Qed.

(** The counter counts the bits. *)
Lemma emits_count (b : bitCounterWriter) out ps out' : expands_all out ps out' →
  nbBits (emits dict lvl b ps) = nbBits b + zlen (encodes ps).
Proof.
  intros Hps. revert b. induction Hps as [out|out p out' ps out'' Hp _ IH]; intros b; simpl; [unfold zlen; simpl; lia|].
  rewrite IH. change (encodes (p :: ps)) with (encode p ++ encodes ps). rewrite zlen_app.
  cut (nbBits (emit dict lvl b p) = nbBits b + zlen (encode p)); [lia|].
  pose proof (typ_ok dict lvl Hlvl) as Hk. destruct (dict_typ_ok dict lvl Hlvl Hdict) as [Hdt _].
  unfold zlen. destruct Hp as [|out a l Ha Hl Hal|out k a l out' Ha Hl _]; cbn [emit LzssFacts.encode].
  - done.
  - rewrite !length_app, !to_bits_length. cbn [nbBits w_TryWriteBits w_TryWriteByte bit_counter]. pose proof (ok_address _ Hdt). lia.
  - rewrite !length_app, !to_bits_length. cbn [nbBits w_TryWriteBits w_TryWriteByte bit_counter].
    pose proof (ok_address _ (Hk k)). lia.
Qed.

(** ** Reading the phrases back *)

(** The byte a phrase starts with, and the rest of its bits. *)
Definition symbol (p : phrase) : Z :=
  match p with
  | Lit b => b
  | FromDict _ _ => SymbolDict
  | Copy k _ _ => Delimiter (typ (zlen dict) lvl k)
  end.

Lemma readFrom_bits `{BitReaderSpec R} (r : R) t l a tail :
  type_ok t → RTryError r = None → 1 ≤ l ≤ 256 → 0 ≤ a < 2 ^ NbBitsAddress t →
  rest r = to_bits 8 (l - 1) ++ to_bits (Z.to_nat (NbBitsAddress t)) a ++ tail →
  ∃ r', readFrom {| address := 0; length_ := 0; bType := t |} r =
    (({| address := if dictOnly t then a else a + 1; length_ := l; bType := t |}, None), r') ∧
    rest r' = tail ∧ RTryError r' = None.
Proof.
  intros Ht Hr Hl Ha Hrest. unfold readFrom. cbn [bType]. destruct (ok_length _ Ht) as [-> _]. pose proof (ok_address _ Ht).
  destruct (TryReadBits_spec 8 r Hr) as (r1 & -> & E1 & Hr1);
    [lia|rewrite Hrest, !zlen_app; unfold zlen; rewrite !to_bits_length; lia|].
  rewrite Hrest in E1 |- *. change (Z.to_nat 8) with 8%nat in *.
  rewrite drop_app_length' in E1 by done. rewrite take_app_length' by done. rewrite of_bits_small by (simpl; lia).
  destruct (TryReadBits_spec (NbBitsAddress t) r1 Hr1) as (r2 & -> & E2 & Hr2);
    [lia|rewrite E1, zlen_app; unfold zlen; rewrite to_bits_length; lia|].
  rewrite E1 in E2 |- *. rewrite drop_app_length' in E2 by (by rewrite to_bits_length).
  rewrite take_app_length' by (by rewrite to_bits_length). rewrite of_bits_small by (rewrite Z2Nat.id by lia; done).
  pose proof (Z.pow_le_mono_r 2 (NbBitsAddress t) 32).
  rewrite Hr2, (int64_id (l - 1)), (int64_id (l - 1 + 1)), (int64_id a), (int64_id (a + 1)) by (unfold in_int64; lia).
  replace (l - 1 + 1) with l by lia. exists r2.
  rewrite decide_False by (destruct (dictOnly t); lia). done.
Qed.

Notation decompress_symbol := (decompress_symbol dict (typ (zlen dict) lvl false) (typ (zlen dict) lvl true) (dict_typ (zlen dict) lvl)).
Notation decompress_loop fuel := (decompress_loop fuel dict (typ (zlen dict) lvl false) (typ (zlen dict) lvl true) (dict_typ (zlen dict) lvl)).

Lemma symbol_byte out p out' : expands out p out' → is_byte (symbol p).
Proof. by destruct 1 as [| |? []]. Qed.

Lemma encode_symbol p : ∃ q, encode p = to_bits 8 (symbol p) ++ q.
Proof. destruct p; [exists []; by rewrite app_nil_r|eexists; reflexivity..]. Qed.

Lemma decompress_symbol_spec `{BitReaderSpec R} (r : R) out p out' q tail :
  expands out p out' → encode p = to_bits 8 (symbol p) ++ q → RTryError r = None → rest r = q ++ tail →
  ∃ r', decompress_symbol (symbol p) r out = Ok (out', None, r') ∧ rest r' = tail ∧ RTryError r' = None.
Proof.
  intros Hp Hq Hr Hrest. pose proof (typ_ok dict lvl Hlvl) as Hk. destruct (dict_typ_ok dict lvl Hlvl Hdict) as [Hdt Hdl].
  destruct Hp as [out b Hb Hc|out a l Ha Hl Hal|out k a l out' Ha Hl Hcopy]; cbn [LzssFacts.encode symbol] in Hq |- *.
  - rewrite <-(app_nil_r (to_bits 8 b)) in Hq at 1. apply app_inv_head in Hq as <-. rewrite app_nil_l in Hrest.
    unfold Lzss.decompress_symbol, canEncodeSymbol in *.
    destruct (b =? SymbolShort), (b =? SymbolLong), (b =? SymbolDict); try done. by exists r.
  - apply app_inv_head in Hq as <-. rewrite <-(assoc_L (++)) in Hrest.
    destruct (readFrom_bits r _ l a tail Hdt Hr Hl) as (r' & E & Hr' & He'); [lia|done|].
    exists r'. split; [|done]. unfold Lzss.decompress_symbol. simpl. rewrite E. simpl.
    rewrite decide_False by lia. rewrite slice_Ok by lia. simpl. by replace (a + l - a) with l by lia.
  - apply app_inv_head in Hq as <-. rewrite <-(assoc_L (++)) in Hrest.
    destruct (readFrom_bits r _ l (a - 1) tail (Hk k) Hr Hl) as (r' & E & Hr' & He');
      [rewrite <-(ok_max _ (Hk k)); lia|done|].
    exists r'. split; [|done]. unfold Lzss.decompress_symbol. destruct (typ_symbols dict lvl k) as [Ek1 Ek2].
    rewrite Ek1 in E. replace (a - 1 + 1) with a in E by lia.
    destruct k; cbn -[typ readFrom]; rewrite E; simpl; by rewrite Hcopy.
Qed.

Lemma decompress_loop_spec `{BitReaderSpec R} ps : ∀ (r : R) out out' pad fuel,
  expands_all out ps out' → RTryError r = None → rest r = encodes ps ++ pad → (length pad < 8)%nat →
  (length ps ≤ fuel)%nat →
  decompress_loop fuel (TryReadByte r).1 (TryReadByte r).2 out = Ok (out', None).
Proof.
  induction ps as [|p ps IH]; intros r out out' pad fuel Hps Hr Hrest Hpad Hf.
  - inversion Hps; subst. destruct (TryReadByte_short r) as (v & e & r' & -> & He); [by rewrite Hrest|].
    destruct fuel; simpl; by rewrite He.
  - inversion Hps as [|? ? out1 ? ? Hp Hps']; subst. destruct fuel as [|fuel]; [simpl in Hf; lia|].
    destruct (encode_symbol p) as [q Hq].
    change (encodes (p :: ps)) with (encode p ++ encodes ps) in Hrest. rewrite Hq, <-!(assoc_L (++)) in Hrest.
    destruct (TryReadByte_spec r Hr) as (r1 & -> & E1 & Hr1); [rewrite Hrest, length_app, to_bits_length; lia|].
    rewrite Hrest, drop_app_length' in E1 by done. rewrite Hrest, take_app_length' by done.
    rewrite of_bits_small by (apply (symbol_byte _ _ _ Hp)).
    destruct (decompress_symbol_spec r1 out p out1 q (encodes ps ++ pad)) as (r2 & E2 & Hr2 & He2); [done..|].
    cbn [Lzss.decompress_loop fst snd]. rewrite Hr1, E2. simpl.
    specialize (IH r2 out1 out' pad fuel Hps' He2 Hr2 Hpad). destruct (TryReadByte r2) as [s' r3]. apply IH. simpl in Hf. lia.
Qed.

Lemma encodes_length_ge ps : (8 * length ps ≤ length (encodes ps))%nat.
Proof.
  induction ps as [|p ps IH]; [simpl; lia|]. change (encodes (p :: ps)) with (encode p ++ encodes ps).
  rewrite length_app. pose proof (encode_length_ge dict lvl p). simpl. lia.
Qed.

End bits.

Lemma header_bytes_length h : length (header_WriteTo h) = 3%nat.
Proof. done. Qed.

Lemma header_is_byte h : is_byte (hLevel h) → Forall is_byte (header_WriteTo h).
Proof. intros Hl. unfold header_WriteTo. simpl. rewrite !Forall_cons. split_and!; [apply Z.mod_pos_bound; lia..|done|done]. Qed.

(** A well-formed stream decompresses to what its phrases expand to. *)
Lemma header_ReadFrom_bits `{BitReaderSpec R} (h : Header) tail :
  0 ≤ hVersion h < 2 ^ 16 → is_byte (hLevel h) → Forall is_byte tail →
  ∃ r : R, header_ReadFrom (NewReader (header_WriteTo h ++ tail)) = ((h, 3, None), r) ∧
    rest r = bytes_bits tail ∧ RTryError r = None.
Proof.
  intros Hv Hl Ht. pose proof (header_is_byte h Hl) as Hh.
  destruct (rest_new (header_WriteTo h ++ tail)) as [E0 Hr0]; [by apply Forall_app|].
  rewrite bytes_bits_app in E0. unfold header_ReadFrom. change (Z.to_nat HeaderSize) with 3%nat.
  destruct (ReadFull_spec 3 (NewReader (header_WriteTo h ++ tail))) as (bs & r & -> & Hlen & Hbs & E1 & Hr);
    [rewrite E0, length_app, !bytes_bits_length, header_bytes_length; lia|].
  rewrite E0 in E1. apply app_inj_1 in E1 as [E1 E2]; [|by rewrite !bytes_bits_length, Hlen].
  apply bytes_bits_inj in E1 as <-; [|done|done]. exists r. rewrite Hr, Hr0. split; [|by split].
  unfold header_WriteTo. simpl. destruct h as [v l]. simpl in *. do 4 f_equal.
  rewrite (Z.mod_small (v / 256)); [|split; [apply Z.div_pos; lia|apply Z.div_lt_upper_bound; lia]].
  pose proof (Z.div_mod v 256). lia.
Qed.
