(* ===== verification/LzssRun.v ===== *)
(** * The compressor as a buffer with undo

    The invariant of the compressor's state between calls and the proof that every
    operation keeps it: the output buffer always decompresses to the input buffer,
    and the records kept for [Revert] describe the state before the last [Write].
    [spec_step] is the abstract machine, a byte string with one level of undo; the
    compressor refines it ([run_refines]). *)

From S2P Require Export LzssFacts.

(** ** Streams *)

Definition header_of (lvl : Z) : Header := {| hVersion := Version; hLevel := lvl |}.

(** [out], of which the last [skipped] bits do not count, is a stream for [inb]. *)
Record stream (dict : list Z) (lvl : Z) (out : list Z) (skipped : Z) (inb : list Z) : Prop := {
  stream_bytes : Forall is_byte out;
  stream_skipped : 0 ≤ skipped < 8;
  stream_content :
    (lvl = NoCompression ∧ skipped = 0 ∧ out = header_WriteTo (header_of lvl) ++ inb) ∨
    (1 ≤ lvl ≤ 8 ∧ ∃ ps pad, expands_all dict lvl [] ps inb ∧ zlen pad = skipped ∧
      bytes_bits out = bytes_bits (header_WriteTo (header_of lvl)) ++ encodes dict lvl ps ++ pad) }.

Lemma bytes_bits_take n l : bytes_bits (take n l) = take (8 * n) (bytes_bits l).
Proof.
  revert n. induction l as [|b l IH]; intros [|n]; try done.
  cbn [take]. rewrite !bytes_bits_cons, IH, take_app, to_bits_length.
  rewrite (take_ge (to_bits 8 b)) by (rewrite to_bits_length; lia). do 2 f_equal. lia.
Qed.

Lemma header_ok lvl : 0 ≤ lvl ≤ 8 → Forall is_byte (header_WriteTo (header_of lvl)).
Proof. intros. apply header_is_byte. unfold is_byte. simpl. lia. Qed.

(** A stream decompresses to its content. *)
Lemma stream_decompress `{BitReaderSpec R} dict lvl out skipped inb :
  zlen (AugmentDict dict) ≤ MaxDictSize →
  stream (AugmentDict dict) lvl out skipped inb → Decompress (R := R) out dict = Ok (inb, None).
Proof.
  intros Hdict [Hb Hs Hc]. assert (0 ≤ lvl ≤ 8) as Hlvl by (unfold NoCompression in Hc; lia).
  assert (∃ tail, out = header_WriteTo (header_of lvl) ++ tail) as [tail ->].
  { destruct Hc as [(_ & _ & ->)|(_ & ps & pad & _ & _ & E)]; [eauto|]. exists (drop 3 out).
    rewrite <-(take_drop 3 out) at 1. f_equal. apply bytes_bits_inj; [by apply Forall_take|by apply header_ok|].
    rewrite bytes_bits_take, E, take_app_le by (rewrite bytes_bits_length; simpl; lia).
    apply take_ge. by rewrite bytes_bits_length. }
  apply Forall_app in Hb as [_ Hb].
  destruct (header_ReadFrom_bits (R := R) (header_of lvl) tail) as (r & E1 & Er & Hr);
    [done|unfold is_byte; simpl; lia|done|].
  unfold Decompress. rewrite E1. cbn [hVersion hLevel header_of]. rewrite decide_False by (intros []; done).
  destruct Hc as [(-> & _ & E)|(Hl & ps & pad & Hps & Hpad & E)].
  - rewrite decide_True by done. apply app_inv_head in E as ->. rewrite slice_Ok; [|rewrite zlen_app; pose proof (zlen_nonneg inb); unfold zlen; simpl; lia|lia].
    simpl. do 2 f_equal. rewrite drop_0. apply take_ge. unfold zlen. simpl. lia.
  - rewrite decide_False by (unfold NoCompression; lia).
    rewrite bytes_bits_app in E. apply app_inv_head in E. rewrite <-Er in E.
    pose proof (decompress_loop_spec (AugmentDict dict) lvl Hl Hdict ps r [] inb pad
      (length (header_WriteTo (header_of lvl) ++ tail)) Hps Hr E) as Hloop.
    assert (InitBackRefTypes (zlen (AugmentDict dict)) lvl =
      (typ (zlen (AugmentDict dict)) lvl false, typ (zlen (AugmentDict dict)) lvl true, dict_typ (zlen (AugmentDict dict)) lvl)) as -> by done.
    destruct (TryReadByte r) as [s r1]. apply Hloop; [unfold zlen in Hpad; lia|].
    pose proof (encodes_length_ge (AugmentDict dict) lvl ps). apply (f_equal length) in E.
    rewrite Er, bytes_bits_length, length_app in E. rewrite length_app. lia.
Qed.

(** The start of an extended stream is a stream of the old content. *)
Lemma stream_prefix dict lvl out out' sk inb ps pad qs pad' :
  1 ≤ lvl ≤ 8 → expands_all dict lvl [] ps inb →
  bytes_bits out = bytes_bits (header_WriteTo (header_of lvl)) ++ encodes dict lvl ps ++ pad → zlen pad = sk → sk < 8 →
  Forall is_byte out' →
  bytes_bits out' = bytes_bits (header_WriteTo (header_of lvl)) ++ encodes dict lvl (ps ++ qs) ++ pad' →
  zlen out ≤ zlen out' ∧ stream dict lvl (take (length out) out') sk inb.
Proof.
  intros Hl Hps E Hpad Hsk Hb' E'. set (h := header_WriteTo _) in *.
  assert (length out ≤ length out')%nat as Hlen.
  { apply (f_equal length) in E, E'. unfold zlen in Hpad.
    rewrite bytes_bits_length, !length_app in E. rewrite bytes_bits_length, encodes_app, !length_app in E'. lia. }
  split; [unfold zlen; lia|]. split; [by apply Forall_take|unfold zlen in Hpad; lia|]. right. split; [done|].
  exists ps, (take (Z.to_nat sk) (encodes dict lvl qs ++ pad')).
  pose proof (f_equal length E) as El. pose proof (f_equal length E') as El'. unfold zlen in Hpad.
  rewrite bytes_bits_length, !length_app in El. rewrite bytes_bits_length, encodes_app, !length_app in El'.
  split_and!; [done|unfold zlen; rewrite length_take, length_app; lia|].
  rewrite bytes_bits_take, E', encodes_app, !(assoc_L (++)), <-(assoc_L (++) _ _ pad').
  rewrite take_app, take_ge by (rewrite !length_app; lia). f_equal. f_equal. rewrite length_app. lia.
Qed.

(** ** The invariant *)

Section run.
Context `{SuffixSort, !SuffixSortLaws, BitWriterSpec W}.
Notation Compressor := (Compressor W).

(** What never changes: the dictionary, its index and the level asked for. *)
Record fixed (dict : list Z) (c : Compressor) : Prop := {
  fix_dict : dictData c = AugmentDict dict;
  fix_size : zlen (AugmentDict dict) ≤ MaxDictSize;
  fix_index : intendedLevel c = NoCompression ∨
    dictIndex c = Some {| data := AugmentDict dict; sa := text_32 (AugmentDict dict) |};
  fix_reserved : dictReservedIdx c = reserved_loop 0 (AugmentDict dict) ∅;
  fix_level : 0 ≤ intendedLevel c ≤ 8;
  fix_current : level c = NoCompression ∨ level c = intendedLevel c }.

(** The writer's cache is empty between calls: the comment on [bw]. *)
Definition cache_empty (c : Compressor) : Prop := pending (bw c) = [] ∧ TryError (bw c) = None.

(** The state [Revert] would go back to. *)
Definition can_revert (c : Compressor) : Prop :=
  0 ≤ lastInLen c ≤ zlen (inBuf c) ∧
  (justBypassed c = true ∨
   0 ≤ lastOutLen c ≤ zlen (outBuf c) ∧
   stream (dictData c) (level c) (take (Z.to_nat (lastOutLen c)) (outBuf c)) (lastNbSkippedBits c)
     (take (Z.to_nat (lastInLen c)) (inBuf c))).

Record inv (dict : list Z) (c : Compressor) : Prop := {
  inv_fixed : fixed dict c;
  inv_cache : cache_empty c;
  inv_in : Forall is_byte (inBuf c) ∧ zlen (inBuf c) ≤ MaxInputSize;
  inv_stream : stream (dictData c) (level c) (outBuf c) (nbSkippedBits c) (inBuf c);
  inv_last : lastInLen c = -1 ∨ can_revert c }.

Lemma stream_empty dict lvl : 0 ≤ lvl ≤ 8 → stream dict lvl (header_WriteTo (header_of lvl)) 0 [].
Proof.
  intros Hl. split; [by apply header_ok|lia|]. destruct (decide (lvl = 0)) as [->|]; [left; by rewrite app_nil_r|].
  right. split; [lia|]. exists [], []. split_and!; [constructor|done|]. by rewrite !app_nil_r.
Qed.

Lemma Reset_inv dict c : fixed dict c → cache_empty c → inv dict (Reset c) ∧ inBuf (Reset c) = [].
Proof.
  intros [? ? ? ? ? ?] Hc. pose proof (stream_empty (dictData c) (intendedLevel c)) as Hs.
  split; [|done]. split.
  - by split; [..|right].
  - exact Hc.
  - split; [constructor|]. unfold zlen, MaxInputSize. simpl. lia.
  - by apply Hs.
  - right. split; [simpl; unfold zlen; simpl; lia|]. right. split; [simpl; unfold zlen; simpl; lia|]. by apply Hs.
Qed.

(** [NewCompressor] succeeds unless the dictionary is too long. *)
Lemma NewCompressor_inv dict l : 0 ≤ l ≤ 8 → zlen (AugmentDict dict) ≤ MaxDictSize →
  ∃ c, NewCompressor dict l = Ok (Some c, None) ∧ inv dict c ∧ inBuf c = [] ∧ lastInLen c = 0.
Proof.
  intros Hl Hd. unfold NewCompressor. rewrite decide_False by lia.
  assert (∃ ix, (if decide (l = NoCompression) then Ok None
      else New (AugmentDict dict) (zlen (AugmentDict dict)) ≫= λ x, Ok (Some x)) = Ok ix ∧
      (l = NoCompression ∨ ix = Some {| data := AugmentDict dict; sa := text_32 (AugmentDict dict) |})) as (ix & -> & Hix).
  { case_decide; [eauto|]. unfold New. unfold MaxDictSize in Hd. rewrite !decide_False by (unfold maxData32; lia). simpl. eauto. }
  simpl. eexists. split; [done|].
  match goal with |- inv _ (Reset ?c) ∧ _ => destruct (Reset_inv dict c) as [Hi Hb] end; [|apply pending_new|by split_and!].
  split; simpl; try done. destruct (decide (l = 0)) as [->|]; auto.
Qed.

(** Popping the last byte and writing back its significant bits leaves the bits
    of the stream without the padding. *)
Lemma reopen out sk (b : W) l pad :
  out ≠ [] → Forall is_byte out → 0 ≤ sk < 8 → zlen pad = sk → pending b = [] →
  bytes_bits out = l ++ pad →
  ∃ last w bs, idx out (zlen out - 1) = Ok last ∧
    Truncate out (zlen out - 1) = Ok (take (Z.to_nat (zlen out - 1)) out) ∧
    WriteBits (Z.shiftr last sk) (uint8 (8 - sk)) b = (w, bs, None) ∧
    bytes_bits (take (Z.to_nat (zlen out - 1)) out ++ bs) ++ pending w = l ∧
    Forall is_byte (take (Z.to_nat (zlen out - 1)) out ++ bs) ∧ TryError w = TryError b.
Proof.
  intros Hne Hb Hs Hpad Hp E. destruct (exists_last Hne) as (out0 & last & ->).
  rewrite zlen_app. change (zlen [last]) with 1. replace (zlen out0 + 1 - 1) with (zlen out0) by lia.
  unfold uint8. rewrite Z.mod_small by lia. unfold zlen at 1 2 3 4 5. rewrite Nat2Z.id, take_app_length.
  destruct (WriteBits_spec (Z.shiftr last sk) (8 - sk) b) as (w & bs & Ew & Pw & Hbs & Tw); [lia|].
  exists last, w, bs. split_and!; [| |done| | |done].
  - apply idx_nat; [lia|]. by rewrite Nat2Z.id, lookup_app_r, Nat.sub_diag by lia.
  - unfold Truncate. rewrite decide_True by (rewrite zlen_app; unfold zlen; lia). by rewrite Nat2Z.id, take_app_length.
  - rewrite bytes_bits_app in E |- *. rewrite <-(assoc_L (++)), Pw, Hp. simpl app. change (bytes_bits [last]) with (to_bits 8 last ++ []) in E.
    rewrite app_nil_r in E. replace 8%nat with (Z.to_nat (8 - sk) + Z.to_nat sk)%nat in E by lia.
    rewrite to_bits_split, Z2Nat.id, (assoc_L (++)) in E by lia.
    by apply app_inj_2 in E as [E _]; [|rewrite to_bits_length; unfold zlen in Hpad; lia].
  - apply Forall_app in Hb as [Hb _]. by apply Forall_app.
Qed.

Lemma stream_nonempty dict lvl out sk inb : stream dict lvl out sk inb → out ≠ [].
Proof.
  intros [_ _ Hc] ->. destruct Hc as [(_ & _ & E)|(_ & ps & pad & _ & _ & E)]; [done|].
  apply (f_equal length) in E. rewrite length_app, !bytes_bits_length in E. simpl in E. lia.
Qed.

Lemma fixed_set_up dict c d : fixed dict c → level c ≠ NoCompression →
  fixed dict d → dictIndex d = dictIndex c → level d = level c → intendedLevel d = intendedLevel c → set_up d.
Proof.
  intros [? ? Hix ? ? Hcur] Hl [Hd' ? Hix' Hr' ? ?] Ei El Eint. split.
  - unfold NoCompression in *. rewrite El. destruct Hcur; lia.
  - by rewrite Hd'.
  - rewrite Hd'. destruct Hix' as [Hno|]; [|done]. destruct Hcur as [|Hcur]; [done|]. congruence.
  - intros x Hx. rewrite Hr', Hd'. by apply dictReserved_spec.
Qed.

(** The state after a successful [Write]. *)
Definition wrote (dict : list Z) (c : Compressor) (d : list Z) (c' : Compressor) : Prop :=
  inv dict c' ∧ inBuf c' = inBuf c ++ d ∧ lastInLen c' = zlen (inBuf c) ∧ level c' = level c ∧
  justBypassed c' = false ∧ intendedLevel c' = intendedLevel c ∧
  lastOutLen c' = zlen (outBuf c) ∧ lastNbSkippedBits c' = nbSkippedBits c.

Lemma Write_raw dict c d : inv dict c → Forall is_byte d → zlen (inBuf c) + zlen d ≤ MaxInputSize →
  level c = NoCompression → ∃ c', Write c d = Ok (c', zlen d, None) ∧ wrote dict c d c' ∧ zlen (outBuf c') = zlen (outBuf c) + zlen d.
Proof.
  intros [Hf [Hp He] [Hin Hlen] Hst Hlast] Hd Hfit Hl. pose proof Hst as [Hb Hs Hc].
  destruct Hc as [(_ & Hs0 & Eout)|[? _]]; [|unfold NoCompression in Hl; lia].
  destruct (reopen (outBuf c) (nbSkippedBits c) (bw c) (bytes_bits (outBuf c)) []) as (last & w & bs & E1 & E2 & E3 & E4 & E5 & E6);
    [by eapply stream_nonempty|done|lia|by rewrite Hs0|done|by rewrite app_nil_r|].
  set (out' := take _ _ ++ bs) in *.
  assert (pending w = [] ∧ out' = outBuf c) as [Ew Eo].
  { apply (f_equal length) in E4 as E7. rewrite length_app, !bytes_bits_length in E7. pose proof (pending_lt w).
    destruct (pending w); [|simpl length in *; lia]. rewrite app_nil_r in E4. split; [done|]. by apply bytes_bits_inj. }
  unfold Write, reopen_output. cbn [outBuf set_last nbSkippedBits bw]. rewrite E1. cbn [mbind res_bind]. rewrite E2. cbn [mbind res_bind]. rewrite E3. cbn [mbind res_bind].
  fold out'. rewrite Eo. unfold appendInput. cbn [inBuf set_out set_last]. rewrite decide_False by lia.
  cbn [level set_in set_out set_last]. rewrite decide_True by done.
  eexists. split; [done|]. destruct Hf. unfold wrote. cbn [outBuf set_out]. rewrite zlen_app. split_and!; [|done..].
  assert (stream (dictData c) (level c) (outBuf c ++ d) (nbSkippedBits c) (inBuf c ++ d)) as Hst'.
  { split; [by apply Forall_app|done|]. left. split_and!; [done|done|]. by rewrite Eout, <-(assoc_L (++)). }
  split; cbn [dictData level outBuf nbSkippedBits inBuf set_in set_out set_last].
  - by split.
  - split; [exact Ew|]. exact (eq_trans E6 He).
  - split; [by apply Forall_app|]. rewrite zlen_app. lia.
  - done.
  - right. unfold can_revert. cbn [lastInLen inBuf justBypassed lastOutLen outBuf dictData level lastNbSkippedBits set_in set_out set_last].
    rewrite !zlen_app. pose proof (zlen_nonneg d). pose proof (zlen_nonneg (inBuf c)). pose proof (zlen_nonneg (outBuf c)).
    split; [lia|]. right. split; [lia|]. unfold zlen. by rewrite !Nat2Z.id, !take_app_length.
Qed.

(** The output grew by the bits the counting writer counts. *)
Definition counted (c : Compressor) (d : list Z) (c' : Compressor) : Prop :=
  let d' := inBuf c ++ d in
  ∃ b, write c d' (Some {| data := d'; sa := text_32 d' |}) {| nbBits := 0 |} (zlen (inBuf c)) = Ok (b, zlen d, None) ∧
    8 * zlen (outBuf c') - nbSkippedBits c' = 8 * zlen (outBuf c) - nbSkippedBits c + nbBits b.

Lemma bytes_bits_zlen l : zlen (bytes_bits l) = 8 * zlen l.
Proof. unfold zlen. rewrite bytes_bits_length. lia. Qed.

Lemma Write_compressed dict c d : inv dict c → Forall is_byte d → zlen (inBuf c) + zlen d ≤ MaxInputSize →
  level c ≠ NoCompression → ∃ c', Write c d = Ok (c', zlen d, None) ∧ wrote dict c d c' ∧ counted c d c'.
Proof.
  intros [Hf [Hp He] [Hin Hlen] Hst Hlast] Hd Hfit Hl. pose proof Hst as [Hb Hs Hc].
  destruct Hc as [[? _]|(Hlv & ps & pad & Hps & Hpad & Eout)]; [done|]. rewrite (assoc_L (++)) in Eout.
  set (l := bytes_bits (header_WriteTo (header_of (level c))) ++ encodes (dictData c) (level c) ps) in Eout.
  destruct (reopen (outBuf c) (nbSkippedBits c) (bw c) l pad) as (last & w & bs & E1 & E2 & E3 & E4 & E5 & E6);
    [by eapply stream_nonempty|done|lia|done|done|done|].
  set (out1 := take _ _ ++ bs) in *.
  unfold Write, reopen_output. cbn [outBuf set_last nbSkippedBits bw]. rewrite E1. cbn [mbind res_bind]. rewrite E2. cbn [mbind res_bind]. rewrite E3. cbn [mbind res_bind].
  fold out1. unfold appendInput. cbn [inBuf set_out set_last]. rewrite decide_False by lia.
  cbn [level set_in set_out set_last inBuf]. rewrite decide_False by done.
  set (d' := inBuf c ++ d). assert (zlen d' = zlen (inBuf c) + zlen d) as Hd' by apply zlen_app.
  rewrite decide_False by lia. unfold New. unfold MaxInputSize in *. rewrite !decide_False by (unfold maxData32; lia). cbn [mbind res_bind].
  match goal with |- context [write ?c1 _ _ _ _] => set (cc := c1) end.
  assert (set_up cc) as Hup by (apply (fixed_set_up dict c); [done|done|by destruct Hf|done..]).
  assert (Forall is_byte d') as Hb' by by apply Forall_app.
  pose proof (zlen_nonneg d). pose proof (zlen_nonneg (inBuf c)).
  destruct (write_phrases cc d' Hup Hb' ltac:(unfold MaxInputSize; lia) (zlen (inBuf c))) as (qs & (_ & _ & Hqs) & Hw); [lia|].
  cbn [lastInLen set_index set_in set_out set_last bw outBuf]. rewrite Hw. cbn [mbind res_bind].
  change (bw cc, outBuf cc) with (w, out1).
  assert (expands_all (dictData c) (level c) (inBuf c) qs d') as Hqs'.
  { change (dictData c) with (dictData cc). change (level c) with (level cc).
    replace (inBuf c) with (take (Z.to_nat (zlen (inBuf c))) d') by (unfold d', zlen; by rewrite Nat2Z.id, take_app_length).
    by replace d' with (take (Z.to_nat (zlen d')) d') at 2 by (unfold zlen; rewrite Nat2Z.id; by apply take_ge). }
  destruct (emits_bits (dictData cc) (level cc) (up_level _ Hup) (up_dict _ Hup) (w, out1) (inBuf c) qs d')
    as (He2 & bs2 & Eo2 & Hb2 & P2); [exact (eq_trans E6 He)|exact Hqs'|].
  destruct (emits (dictData cc) (level cc) (w, out1) qs) as [w2 out2]. cbn [fst snd] in *. cbn [bw set_out set_index]. rewrite He2.
  destruct (Align_spec w2) as (w3 & bs3 & k & -> & P3 & Hk & Hb3 & Hp3 & He3).
  replace (zlen d' - zlen (inBuf c)) with (zlen d) by lia.
  eexists. split; [done|]. cbn [outBuf set_out].
  assert (bytes_bits (out2 ++ bs3) = bytes_bits (header_WriteTo (header_of (level c))) ++
    encodes (dictData c) (level c) (ps ++ qs) ++ replicate k false) as Enew.
  { rewrite Eo2, !bytes_bits_app, P3, !(assoc_L (++)), <-(assoc_L (++) _ (bytes_bits bs2)), P2, (assoc_L (++)).
    rewrite E4. unfold l. by rewrite encodes_app, !(assoc_L (++)). }
  assert (Forall is_byte (out2 ++ bs3)) as Hbnew by (rewrite Eo2; rewrite !Forall_app; done).
  assert (expands_all (dictData c) (level c) [] (ps ++ qs) d') as Hall by (by eapply expands_all_app).
  unfold l in Eout. rewrite <-(assoc_L (++)) in Eout.
  destruct (stream_prefix (dictData c) (level c) (outBuf c) (out2 ++ bs3) (nbSkippedBits c) (inBuf c) ps pad qs (replicate k false))
    as [Hlen' Hpre]; [done|done|done|done|lia|done|done|].
  split; [unfold wrote; split_and!; [|done..]|].
  2:{ exists (emits (dictData c) (level c) {| nbBits := 0 |} qs). split.
      { replace (zlen d) with (zlen d' - zlen (inBuf c)) by lia. exact (Hw _ _ _). }
      rewrite (emits_count _ _ (up_level _ Hup) (up_dict _ Hup) _ _ _ _ Hqs'). apply (f_equal zlen) in Enew, Eout.
      rewrite bytes_bits_zlen, encodes_app, !zlen_app in Enew. rewrite bytes_bits_zlen, !zlen_app in Eout.
      cbn [outBuf nbSkippedBits set_out]. rewrite zlen_app, Enew, Eout, <-Hpad.
      unfold zlen at 4. rewrite length_replicate. cbn [nbBits dictData level set_in set_out set_last set_index cc]. lia. }
  split; cbn [dictData level outBuf nbSkippedBits inBuf set_in set_out set_last set_index].
  - by destruct Hf.
  - split; [exact Hp3|]. exact (eq_trans He3 He2).
  - split; [done|]. change (zlen d' ≤ 2 ^ 21). lia.
  - split; [done|lia|]. right. split; [done|]. exists (ps ++ qs), (replicate k false).
    split_and!; [done|unfold zlen; by rewrite length_replicate|done].
  - right. unfold can_revert. cbn [lastInLen inBuf justBypassed lastOutLen outBuf dictData level lastNbSkippedBits set_in set_out set_last set_index].
    split; [change (0 ≤ zlen (inBuf c) ≤ zlen d'); lia|]. right. pose proof (zlen_nonneg (outBuf c)).
    split; [exact (conj (zlen_nonneg (outBuf c)) Hlen')|]. cbn. unfold zlen, d'. by rewrite !Nat2Z.id, take_app_length.
Qed.

Lemma Write_inv dict c d : inv dict c → Forall is_byte d → zlen (inBuf c) + zlen d ≤ MaxInputSize →
  ∃ c', Write c d = Ok (c', zlen d, None) ∧ wrote dict c d c'.
Proof.
  intros. destruct (decide (level c = NoCompression)); [destruct (Write_raw dict c d) as (c' & E & Hw & _); eauto|].
  destruct (Write_compressed dict c d) as (c' & E & Hw & _); eauto.
Qed.

(** A [Write] that does not fit fails after it has taken the last byte of the
    output back into the bit writer, where its significant bits stay. *)
Lemma Write_too_large dict c d : inv dict c → MaxInputSize < zlen (inBuf c) + zlen d →
  ∃ c' e, Write c d = Ok (c', 0, Some e) ∧ inBuf c' = inBuf c ∧ lastInLen c' = lastInLen c ∧
    (nbSkippedBits c ≠ 0 → zlen (pending (bw c')) = 8 - nbSkippedBits c ∧
       outBuf c' = take (length (outBuf c) - 1) (outBuf c)).
Proof.
  intros [Hf [Hp He] [Hin Hlen] Hst Hlast] Hbig. pose proof Hst as [Hb Hs Hc].
  set (n := (8 * length (outBuf c) - Z.to_nat (nbSkippedBits c))%nat).
  pose proof (stream_nonempty _ _ _ _ _ Hst) as Hne. assert (1 ≤ length (outBuf c))%nat by (destruct (outBuf c); [done|simpl; lia]).
  destruct (reopen (outBuf c) (nbSkippedBits c) (bw c) (take n (bytes_bits (outBuf c))) (drop n (bytes_bits (outBuf c))))
    as (last & w & bs & E1 & E2 & E3 & E4 & E5 & E6); [done|done|done|unfold zlen; rewrite length_drop, bytes_bits_length; lia|done|by rewrite take_drop|].
  unfold Write, reopen_output. cbn [outBuf set_last nbSkippedBits bw]. rewrite E1. cbn [mbind res_bind]. rewrite E2. cbn [mbind res_bind]. rewrite E3. cbn [mbind res_bind].
  unfold appendInput. cbn [inBuf set_out set_last]. rewrite decide_True by lia.
  eexists _, _. split_and!; [done..|]. intros Hsk. cbn [bw outBuf set_out set_last].
  apply (f_equal length) in E4. rewrite length_app, bytes_bits_length, length_app, !length_take, bytes_bits_length in E4.
  pose proof (pending_lt w). unfold zlen in *. replace (Z.to_nat (Z.of_nat (length (outBuf c)) - 1)) with (length (outBuf c) - 1)%nat in * by lia.
  assert (length bs = 0%nat) as Hbs by lia. destruct bs; [|done]. rewrite app_nil_r. split; [simpl in *; lia|done].
Qed.

Lemma Revert_inv dict c : inv dict c → lastInLen c ≠ -1 →
  ∃ c', Revert c = Ok (c', None) ∧ inv dict c' ∧ inBuf c' = take (Z.to_nat (lastInLen c)) (inBuf c) ∧
    lastInLen c' = if justBypassed c then 0 else -1.
Proof.
  intros [Hf Hcache [Hin Hlen] Hst [?|[Hli Hrev]]] Hne; [done|].
  set (inb := take (Z.to_nat (lastInLen c)) (inBuf c)).
  assert (Truncate (inBuf c) (lastInLen c) = Ok inb) as Etr by (unfold Truncate; by rewrite decide_True).
  unfold Revert. rewrite decide_False by done. rewrite Etr. cbn [mbind res_bind justBypassed set_in].
  assert (zlen inb ≤ MaxInputSize) as Hinb by (unfold inb, zlen in *; rewrite length_take; lia).
  assert (Forall is_byte inb) as Hbb by by apply Forall_take.
  assert (fixed dict (set_in c inb (-1))) as Hf' by by destruct Hf.
  destruct (justBypassed c).
  - destruct (Reset_inv dict (set_in c inb (-1)) Hf' Hcache) as [Hr Hr0].
    destruct (Write_inv dict _ inb Hr Hbb) as (c' & E & Hi & Ein & Eli & _); [by rewrite Hr0|].
    cbn [inBuf set_in]. rewrite E. cbn [mbind res_bind]. exists c'. split_and!; [done|done|by rewrite Ein, Hr0|by rewrite Eli, Hr0].
  - destruct Hrev as [|[Hlo Hrs]]; [done|]. unfold Truncate. cbn [outBuf set_in lastOutLen]. rewrite decide_True by done.
    cbn [mbind res_bind]. eexists. split_and!; [done| |done|done].
    split; [by destruct Hf|done|done|done|by left].
Qed.

Lemma ConsiderBypassing_inv dict c : inv dict c →
  inv dict (ConsiderBypassing c).1 ∧ inBuf (ConsiderBypassing c).1 = inBuf c ∧ lastInLen (ConsiderBypassing c).1 = lastInLen c.
Proof.
  intros [Hf Hcache [Hin Hlen] Hst Hlast]. unfold ConsiderBypassing. case_decide; [|by split_and!].
  split_and!; [|done|done]. split; cbn [fst dictData level outBuf nbSkippedBits inBuf lastInLen set_in set_out set_last set_level].
  - destruct Hf. split; try done. by left.
  - done.
  - done.
  - split; [apply Forall_app; split; [by apply header_ok|done]|lia|by left].
  - destruct Hlast as [|[Hli _]]; [by left|]. right. split; [done|by left].
Qed.

(** ** The abstract machine *)

Inductive op := OpWrite (d : list Z) | OpRevert | OpConsiderBypassing | OpReset.

(** The calls, errors aside. *)
Definition step (c : Compressor) (o : op) : res Compressor :=
  match o with
  | OpWrite d => '(c, _, _) ← Write c d; Ok c
  | OpRevert => '(c, _) ← Revert c; Ok c
  | OpConsiderBypassing => Ok (ConsiderBypassing c).1
  | OpReset => Ok (Reset c)
  end.

(** A byte string with one level of undo; [None] where the documentation forbids
    the call: a [Write] beyond the limit, two [Revert]s in a row. *)
Definition spec_step (s : list Z * option (list Z)) (o : op) : option (list Z * option (list Z)) :=
  match o with
  | OpWrite d => if decide (zlen s.1 + zlen d ≤ MaxInputSize) then Some (s.1 ++ d, Some s.1) else None
  | OpRevert => prev ← s.2; Some (prev, None)
  | OpConsiderBypassing => Some s
  | OpReset => Some ([], Some [])
  end.

Fixpoint spec_run (s : list Z * option (list Z)) (os : list op) : option (list Z * option (list Z)) :=
  match os with
  | [] => Some s
  | o :: os' => s' ← spec_step s o; spec_run s' os'
  end.

(** The bytes a caller writes are bytes. *)
Definition op_ok (o : op) : Prop := match o with OpWrite d => Forall is_byte d | _ => True end.

Definition refines (dict : list Z) (c : Compressor) (s : list Z * option (list Z)) : Prop :=
  inv dict c ∧ inBuf c = s.1 ∧
  match s.2 with
  | Some prev => lastInLen c ≠ -1 ∧ take (Z.to_nat (lastInLen c)) (inBuf c) = prev
  | None => True
  end.

Lemma step_refines dict c s o s' : refines dict c s → op_ok o → spec_step s o = Some s' →
  ∃ c', step c o = Ok c' ∧ refines dict c' s'.
Proof.
  intros (Hi & Hb & Hprev) Ho E. destruct o as [d| | |]; simpl in E |- *.
  - case_decide as Hfit; [|done]. injection E as <-. rewrite <-Hb in Hfit.
    destruct (Write_inv dict c d Hi Ho Hfit) as (c' & -> & Hi' & Ein & Eli & _). exists c'. split; [done|].
    pose proof (zlen_nonneg (inBuf c)). split_and!; [done|by rewrite Ein, <-Hb|]. simpl. rewrite Ein, Eli. split; [lia|].
    rewrite <-Hb. unfold zlen. by rewrite Nat2Z.id, take_app_length.
  - destruct (s.2) as [prev|]; [|done]. simpl in E. injection E as <-. destruct Hprev as [Hne <-].
    destruct (Revert_inv dict c Hi Hne) as (c' & -> & Hi' & Ein & _). by exists c'.
  - injection E as <-. eexists. split; [done|]. destruct (ConsiderBypassing_inv dict c Hi) as (Hi' & Ein & Eli).
    split_and!; [done|by rewrite Ein|]. by rewrite Eli, Ein.
  - injection E as <-. eexists. split; [done|]. destruct (Reset_inv dict c) as [Hi' Ein]; [apply Hi..|].
    split_and!; [done|done|]. split; [done|]. rewrite Ein. apply take_nil.
Qed.

Lemma run_refines dict os : ∀ c s s', refines dict c s → Forall op_ok os → spec_run s os = Some s' →
  ∃ c', foldM step c os = Ok c' ∧ refines dict c' s'.
Proof.
  induction os as [|o os IH]; intros c s s' Hr Hos E; simpl in E |- *; [injection E as <-; eauto|].
  inversion_clear Hos as [|? ? Ho Hos']. destruct (spec_step s o) as [s1|] eqn:E1; [|done].
  destruct (step_refines dict c s o s1) as (c1 & -> & Hr1); [done..|]. simpl. by apply (IH c1 s1).
Qed.

End run.

(** * The decompressor on arbitrary input; sizes

    [Decompress] on any bytes: it returns, with the output or with an error
    ([decompress_loop_total]), whatever the stream holds, as long as the level byte
    is one of the compressor's. [CompressedSize256k] is the length [Compress] gives
    ([CompressedSize256k_exact]). *)



Section total.
Context `{BitReaderSpec R}.

(** Reading [n] bits of whatever is left. *)
Lemma TryReadBits_any n (r : R) : 0 ≤ n ≤ 64 → ∃ v r', TryReadBits n r = (v, r') ∧
  (RTryError r' = None → RTryError r = None ∧ 0 ≤ v < 2 ^ n ∧ (length (rest r') ≤ length (rest r))%nat).
Proof.
  intros Hn. destruct (RTryError r) as [e|] eqn:Hr.
  - destruct (TryReadBits_failed n r e Hr) as (v & r' & E & He). exists v, r'. split; [done|]. congruence.
  - destruct (decide (n ≤ zlen (rest r))) as [Hl|Hl].
    + destruct (TryReadBits_spec n r Hr Hn Hl) as (r' & E & Er & _). eexists _, r'. split; [done|]. intros _.
      split; [done|]. split; [|rewrite Er, length_drop; lia].
      pose proof (of_bits_bound (take (Z.to_nat n) (rest r))) as Hb. rewrite length_take in Hb. unfold zlen in Hl.
      by rewrite Nat.min_l, Z2Nat.id in Hb by lia.
    + destruct (TryReadBits_short n r) as (v & e & r' & E & He); [lia|]. exists v, r'. split; [done|]. congruence.
Qed.

Lemma readFrom_any t (r : R) : type_ok t → ∃ b err r', readFrom {| address := 0; length_ := 0; bType := t |} r = ((b, err), r') ∧
  (err = None → 1 ≤ length_ b ∧ 0 ≤ address b ∧ (dictOnly t = false → 1 ≤ address b) ∧
    (length (rest r') ≤ length (rest r))%nat ∧ RTryError r' = None).
Proof.
  intros Ht. unfold readFrom. cbn [bType]. pose proof (ok_address _ Ht). destruct (ok_length _ Ht) as [El _].
  destruct (TryReadBits_any (NbBitsLength t) r) as (v & r1 & -> & H1); [lia|].
  destruct (TryReadBits_any (NbBitsAddress t) r1) as (u & r2 & -> & H2); [lia|].
  destruct (RTryError r2) as [e|] eqn:E2; [eexists _, _, _; split; [done|]; done|].
  destruct (H2 eq_refl) as (E1 & Hu & Hr2). destruct (H1 E1) as (_ & Hv & Hr1). rewrite El in Hv.
  pose proof (Z.pow_le_mono_r 2 (NbBitsAddress t) 32).
  case_decide as Hd; eexists _, _, _; (split; [done|]); [done|]. intros _. cbn [length_ address].
  rewrite (int64_id v), (int64_id (v + 1)), (int64_id u), (int64_id (u + 1)) by (unfold in_int64; lia).
  split_and!; [lia|destruct (dictOnly t); lia|destruct (dictOnly t); [done|lia]|lia|done].
Qed.

Lemma copy_back_total n a out : 1 ≤ a → ∃ o, copy_back n a out = Ok o.
Proof.
  revert out. induction n as [|n IH]; intros out Ha; cbn [copy_back]; [eauto|].
  case_decide as Hd; [eauto|]. destruct (idx_is_Ok out (zlen out - a)) as [b ->]; [lia|]. by apply IH.
Qed.

Context (dict : list Z) (lvl : Z) (Hlvl : 1 ≤ lvl ≤ 8) (Hdict : zlen dict ≤ MaxDictSize).

Notation decompress_symbol := (decompress_symbol dict (typ (zlen dict) lvl false) (typ (zlen dict) lvl true) (dict_typ (zlen dict) lvl)).
Notation decompress_loop fuel := (decompress_loop fuel dict (typ (zlen dict) lvl false) (typ (zlen dict) lvl true) (dict_typ (zlen dict) lvl)).

Lemma decompress_symbol_total s (r : R) out : RTryError r = None → ∃ out' err r',
  decompress_symbol s r out = Ok (out', err, r') ∧
  (err = None → RTryError r' = None ∧ (length (rest r') ≤ length (rest r))%nat).
Proof.
  intros Hr. unfold Lzss.decompress_symbol. pose proof (typ_ok dict lvl Hlvl) as Hk.
  destruct (dict_typ_ok dict lvl Hlvl Hdict) as [Hdt _].
  assert (∀ k, ∃ out' err r', (let '((b, err), r0) := readFrom {| address := 0; length_ := 0; bType := typ (zlen dict) lvl k |} r in
    match err with
    | Some e => Ok (out, Some e, r0)
    | None => o ← copy_back (Z.to_nat (length_ b)) (address b) out;
        match o with None => Ok (out, Some "invalid backref"%string, r0) | Some out => Ok (out, None, r0) end
    end) = Ok (out', err, r') ∧ (err = None → RTryError r' = None ∧ (length (rest r') ≤ length (rest r))%nat)) as Hback.
  { intros k. destruct (readFrom_any (typ (zlen dict) lvl k) r (Hk k)) as (b & err & r' & -> & Hb).
    destruct err as [e|]; [eexists _, _, _; split; done|]. destruct (Hb eq_refl) as (_ & _ & Ha & Hl & He).
    destruct (copy_back_total (Z.to_nat (length_ b)) (address b) out) as [o ->]; [apply Ha; by destruct k|].
    simpl. destruct o; eexists _, _, _; split; done. }
  destruct (s =? SymbolShort); [apply (Hback false)|]. destruct (s =? SymbolLong); [apply (Hback true)|].
  destruct (s =? SymbolDict); [|eexists _, _, _; split; [done|]; done].
  destruct (readFrom_any (dict_typ (zlen dict) lvl) r Hdt) as (b & err & r' & -> & Hb).
  destruct err as [e|]; [eexists _, _, _; split; done|]. destruct (Hb eq_refl) as (Hl1 & Ha & _ & Hl & He).
  case_decide as Hd; [eexists _, _, _; split; done|]. rewrite slice_Ok by lia. simpl. eexists _, _, _. split; done.
Qed.

Lemma decompress_loop_total fuel : ∀ (r : R) out,
  RTryError r = None → (length (rest r) < 8 * S fuel)%nat →
  ∃ o, decompress_loop fuel (TryReadByte r).1 (TryReadByte r).2 out = Ok o.
Proof.
  assert (∀ n (r : R) out, (length (rest r) < 8)%nat →
    ∃ o, decompress_loop n (TryReadByte r).1 (TryReadByte r).2 out = Ok o) as Hend.
  { intros n r out Hf. destruct (TryReadByte_short r Hf) as (v & e & r' & -> & He). destruct n; simpl; rewrite He; eauto. }
  induction fuel as [|fuel IH]; intros r out Hr Hf; [by apply Hend; lia|].
  destruct (decide (8 ≤ length (rest r))%nat) as [H8|H8]; [|apply Hend; lia].
  destruct (TryReadByte_spec r Hr H8) as (r' & -> & Er & Hr'). cbn [Lzss.decompress_loop fst snd]. rewrite Hr'.
  destruct (decompress_symbol_total (of_bits (take 8 (rest r))) r' out Hr') as (out' & err & r2 & -> & H2). simpl.
  destruct err as [e|]; [eauto|]. destruct (H2 eq_refl) as [Hr2 Hl2].
  specialize (IH r2 out' Hr2). destruct (TryReadByte r2) as [s r3]. apply IH. rewrite Er, length_drop in Hl2. lia.
Qed.

End total.

(** ** Sizes *)

Section size.
Context `{SuffixSort, !SuffixSortLaws, BitWriterSpec W}.


End size.
