(* ===== verification/Stream.v ===== *)
(** * Streams of symbols

    Models src/prover/lib/compressor/blob/v0/compress/stream.go: a slice of symbols
    below [NbSymbs], its conversions to bytes ([Marshal], [Unmarshal], [NewStream]),
    to numbers ([WriteNum], [ReadNum], [BreakUp]) and to field elements ([Pack],
    [Checksum]). The bit streams are the parameter of [Bits]; the hash of [Checksum]
    is a parameter. *)

From S2P Require Export Bits.

Record Stream := { D : list Z; NbSymbs : Z }.

Definition stream_Len (s : Stream) : Z := zlen (D s).

(** [RunLen(i)]: one more than the zeros after position [i]. *)
Fixpoint zeros (l : list Z) : Z :=
  match l with
  | x :: l' => if x =? 0 then 1 + zeros l' else 0
  | [] => 0
  end.

Definition RunLen (s : Stream) (i : Z) : res Z :=
  if decide (i + 1 < zlen (D s)) then
    if decide (i + 1 < 0) then Panic else Ok (1 + zeros (drop (Z.to_nat (i + 1)) (D s)))
  else Ok 1.

Definition At (s : Stream) (i : Z) : res Z := idx (D s) i.

(** [for 1<<bitLen < n]: the shift is on [int], so the loop does not end above
    2^62; no result stands for that. *)
Fixpoint bitLen_loop (fuel : nat) (n b : Z) : option Z :=
  if int64 (Z.shiftl 1 b) <? n then
    match fuel with
    | O => None
    | S fuel' => bitLen_loop fuel' n (b + 1)
    end
  else Some b.

Definition bitLen (n : Z) : res Z :=
  match bitLen_loop 64 n 0 with Some b => Ok b | None => Panic end.

(** [for pow := 1; pow < x; pow *= base] *)
Fixpoint log_loop (fuel : nat) (x base pow exp : Z) : option Z :=
  if pow <? x then
    match fuel with
    | O => None
    | S fuel' => log_loop fuel' x base (int64 (pow * base)) (exp + 1)
    end
  else Some exp.

Definition log (x base : Z) : res Z :=
  match log_loop 64 x base 1 0 with Some e => Ok e | None => Panic end.

(** [v % n] and [v / n] of Go, which panic on zero. *)
Definition go_rem (v n : Z) : res Z := if decide (n = 0) then Panic else Ok (Z.rem v n).
Definition go_quot (v n : Z) : res Z := if decide (n = 0) then Panic else Ok (Z.quot v n).

(** The digits of [v], least significant first, and what is left of it. *)
Fixpoint digits (k : nat) (base v : Z) : res (list Z * Z) :=
  match k with
  | O => Ok ([], v)
  | S k' =>
      d ← go_rem v base;
      v' ← go_quot v base;
      '(ds, r) ← digits k' base v';
      Ok (d :: ds, r)
  end.

Definition BreakUp (s : Stream) (nbSymbs : Z) : res Stream :=
  newPerOld ← log (NbSymbs s) nbSymbs;
  ds ← mapR (λ v, '(ds, _) ← digits (Z.to_nat newPerOld) nbSymbs v; Ok (reverse ds)) (D s);
  Ok {| D := concat ds; NbSymbs := nbSymbs |}.

Definition WriteNum (s : Stream) (r nbWords : Z) : res Stream :=
  '(ds, remaining) ← digits (Z.to_nat nbWords) (NbSymbs s) r;
  if decide (remaining ≠ 0) then Panic else Ok {| D := D s ++ ds; NbSymbs := NbSymbs s |}.

(** [for j := nbWords - 1; j >= 0; j--] *)
Definition ReadNum (s : Stream) (start nbWords : Z) : res Z :=
  foldM (λ res j, d ← idx (D s) (start + j); Ok (int64 (int64 (res * NbSymbs s) + d))) 0 (reverse (seqZ 0 nbWords)).

(** [Pack]: [wordsPerElem] words in one integer, the first the least significant;
    the last element may be shorter. *)
Definition Pack (s : Stream) (nbBits : Z) : res (list Z) :=
  wordLen ← bitLen (NbSymbs s);
  wordsPerElem ← go_quot (nbBits - 1) wordLen;
  n ← go_quot (zlen (D s) + wordsPerElem - 1) wordsPerElem;
  if decide (n < 0) then Panic
  else
    Ok ((λ i, foldr (λ j p, default p ((λ d, p * 2 ^ wordLen + d) <$> D s !! Z.to_nat (i * wordsPerElem + j)))
          0 (seqZ 0 wordsPerElem)) <$> seqZ 0 n).

(** [big.Int.FillBytes] into a buffer of [n] bytes, of a number that is not
    negative. *)
Definition FillBytes (n : Z) (w : Z) : res (list Z) :=
  if decide (256 ^ n ≤ w) then Panic else Ok (be_bytes (Z.to_nat n) w).

(** [Checksum]: the bytes handed to the hash, and its sum. *)
Definition Checksum (Sum : list Z → list Z) (s : Stream) (fieldBits : Z) : res (list Z) :=
  packed ← Pack s fieldBits;
  let fieldBytes := (fieldBits + 7) / 8 in
  words ← mapR (FillBytes fieldBytes) packed;
  len ← FillBytes fieldBytes (stream_Len s);
  Ok (Sum (concat words ++ len)).

(** ** Bytes *)

Section bytes.
Context `{BitWriter W, BitReader R}.

(** [for i := range d { r.ReadBits(bits) }] *)
Fixpoint read_symbols (k : nat) (bits : Z) (r : R) : list Z * gerr :=
  match k with
  | O => ([], None)
  | S k' =>
      let '((n, err), r) := ReadBits bits r in
      match err with
      | Some e => ([], Some e)
      | None => let '(l, err) := read_symbols k' bits r in (int64 n :: l, err)
      end
  end.

Definition NewStream (b : list Z) (bitsPerSymbol : Z) : res (Stream * gerr) :=
  n ← go_quot (zlen b * 8) bitsPerSymbol;
  let '(d, err) := read_symbols (Z.to_nat n) bitsPerSymbol (NewReader b) in
  match err with
  | Some e => Ok ({| D := []; NbSymbs := 0 |}, Some e)
  | None => Ok ({| D := d; NbSymbs := int64 (Z.shiftl 1 bitsPerSymbol) |}, None)
  end.

(** [w.WriteBits] of every symbol; an error panics. *)
Definition write_symbols (wordLen : Z) (l : list Z) (w : W) : res (W * list Z) :=
  foldM (λ s v, let '(w, bs, err) := WriteBits (uint64 v) wordLen s.1 in
    match err with Some _ => Panic | None => Ok (w, s.2 ++ bs) end) (w, []) l.

Definition Marshal (s : Stream) : res (list Z) :=
  wordLen ← bitLen (NbSymbs s);
  let nbBytes := (zlen (D s) * wordLen + 7) / 8 in
  let encodeLen := NbSymbs s <=? 128 in
  let nbBytes := if encodeLen then nbBytes + 1 else nbBytes in
  '(w, bb) ← write_symbols wordLen (D s) NewWriter;
  let '(_, bs, err) := Close w in
  match err with Some _ => Panic | None =>
  if encodeLen then
    notLast ← go_quot ((nbBytes - 2) * 8 + wordLen - 1) wordLen;
    Ok (bb ++ bs ++ [(zlen (D s) - notLast) mod 256])
  else Ok (bb ++ bs)
  end.

Definition Unmarshal (s : Stream) (b : list Z) : res Stream :=
  wordLen ← bitLen (NbSymbs s);
  '(nbWords, b) ←
    (if NbSymbs s <=? 128 then
       notLast ← go_quot ((zlen b - 2) * 8 + wordLen - 1) wordLen;
       l ← idx b (zlen b - 1);
       b' ← slice b 0 (zlen b - 1);
       Ok (notLast + l, b')
     else
       n ← go_quot (zlen b * 8) wordLen; Ok (n, b));
  if decide (nbWords < 0) then Panic
  else
    let '(d, err) := read_symbols (Z.to_nat nbWords) wordLen (NewReader b) in
    match err with
    | Some _ => Panic
    | None => Ok {| D := d; NbSymbs := NbSymbs s |}
    end.

End bytes.

(** ** Round trips *)

Lemma bitLen_loop_spec fuel n b : 2 ≤ n ≤ 2 ^ 62 → 0 ≤ b → (b = 0 ∨ 2 ^ (b - 1) < n) → 63 ≤ b + Z.of_nat fuel →
  ∃ l, bitLen_loop fuel n b = Some l ∧ 1 ≤ l ≤ 62 ∧ 2 ^ (l - 1) < n ≤ 2 ^ l.
Proof.
  intros Hn. revert b. induction fuel as [|fuel IH]; intros b Hb Hlt Hf; cbn [bitLen_loop].
  - exfalso. destruct Hlt as [->|Hlt]; [lia|]. pose proof (Z.pow_le_mono_r 2 62 (b - 1)). lia.
  - assert (b ≤ 62) as Hb62.
    { destruct Hlt as [->|Hlt]; [lia|]. destruct (decide (b ≤ 62)); [done|].
      pose proof (Z.pow_le_mono_r 2 62 (b - 1)). lia. }
    rewrite Z.shiftl_1_l, int64_id by (pose proof (Z.pow_le_mono_r 2 b 62); pose proof (Z.pow_pos_nonneg 2 b); unfold in_int64; lia).
    destruct (Z.ltb_spec (2 ^ b) n) as [Hlt'|Hge].
    + apply IH; [lia|right; by replace (b + 1 - 1) with b by lia|lia].
    + exists b. destruct Hlt as [->|Hlt]; [simpl in Hge; lia|]. split_and!; [done| |lia|done|done].
      destruct (decide (b = 0)) as [->|]; [simpl in Hge; lia|lia].
Qed.

Lemma bitLen_spec n : 2 ≤ n ≤ 2 ^ 62 → ∃ l, bitLen n = Ok l ∧ 1 ≤ l ≤ 62 ∧ 2 ^ (l - 1) < n ≤ 2 ^ l.
Proof.
  intros Hn. destruct (bitLen_loop_spec 64 n 0 Hn) as (l & E & Hl); [lia|by left|lia|].
  exists l. unfold bitLen. by rewrite E.
Qed.

(** The symbols of a well-formed stream. *)
Definition stream_ok (s : Stream) : Prop :=
  2 ≤ NbSymbs s ≤ 2 ^ 62 ∧ Forall (λ v, 0 ≤ v < NbSymbs s) (D s).

Definition symbol_bits (wordLen : Z) (l : list Z) : list bool := concat (to_bits (Z.to_nat wordLen) <$> l).

Lemma symbol_bits_length wl l : 0 ≤ wl → zlen (symbol_bits wl l) = zlen l * wl.
Proof.
  intros Hw. unfold symbol_bits. induction l as [|v l IH]; [done|].
  rewrite fmap_cons. cbn [concat]. rewrite zlen_app, IH. unfold zlen. rewrite to_bits_length. simpl. lia.
Qed.

Section roundtrip.
Context `{BitWriterSpec W, BitReaderSpec R}.

Lemma write_symbols_spec wl l (w : W) : 0 ≤ wl ≤ 62 → Forall (λ v, 0 ≤ v < 2 ^ wl) l →
  ∃ w' bs, write_symbols wl l w = Ok (w', bs) ∧ Forall is_byte bs ∧
    bytes_bits bs ++ pending w' = pending w ++ symbol_bits wl l.
Proof.
  intros Hw Hl. unfold write_symbols. pose proof (Z.pow_le_mono_r 2 wl 62).
  destruct (foldM_rule (λ s v, let '(w, bs, err) := WriteBits (uint64 v) wl s.1 in
      match err with Some _ => Panic | None => Ok (w, s.2 ++ bs) end)
    (λ l s, Forall is_byte s.2 ∧ bytes_bits s.2 ++ pending s.1 = pending w ++ symbol_bits wl l) l (w, []))
    as ([w' bs] & E & Hb & P).
  - split; [done|]. simpl. by rewrite app_nil_r.
  - intros k v [w1 bs1] Hv [Hb1 P1]. simpl in *. rewrite Forall_forall in Hl. specialize (Hl v Hv).
    destruct (WriteBits_spec (uint64 v) wl w1) as (w2 & bs2 & -> & P2 & Hb2 & _); [lia|].
    eexists. split; [done|]. simpl. split; [by apply Forall_app|].
    rewrite bytes_bits_app, <-(assoc_L (++)), P2, (assoc_L (++)), P1, <-(assoc_L (++)). f_equal.
    unfold symbol_bits. rewrite fmap_app, concat_app. simpl. rewrite app_nil_r. f_equal.
    unfold uint64. by rewrite Z.mod_small by lia.
  - exists w', bs. done.
Qed.

Lemma read_symbols_spec wl l pad (r : R) : 1 ≤ wl ≤ 62 → Forall (λ v, 0 ≤ v < 2 ^ wl) l →
  rest r = symbol_bits wl l ++ pad → read_symbols (length l) wl r = (l, None).
Proof.
  intros Hw Hl. pose proof (Z.pow_le_mono_r 2 wl 62). revert r. induction Hl as [|v l Hv _ IH]; intros r Hr; [done|].
  cbn [length read_symbols]. change (symbol_bits wl (v :: l)) with (to_bits (Z.to_nat wl) v ++ symbol_bits wl l) in Hr.
  rewrite <-(assoc_L (++)) in Hr.
  destruct (ReadBits_spec wl r) as (r' & -> & Er & _); [lia|rewrite Hr, zlen_app; unfold zlen; rewrite to_bits_length; lia|].
  rewrite Hr in Er |- *. rewrite drop_app_length' in Er by (by rewrite to_bits_length).
  rewrite take_app_length' by (by rewrite to_bits_length). rewrite of_bits_small by (by rewrite Z2Nat.id by lia).
  rewrite IH by done. by rewrite int64_id by (unfold in_int64; lia).
Qed.

(** The number of symbols is recovered from the number of bytes. *)
Lemma words_large n nb wl : 0 ≤ n → 8 ≤ wl → n * wl ≤ 8 * nb < n * wl + 8 → Z.quot (nb * 8) wl = n.
Proof. intros Hn Hw Hnb. rewrite Z.quot_div_nonneg by lia. symmetry. apply (Z.div_unique _ _ _ (nb * 8 - n * wl)); lia. Qed.

Lemma words_small n nb wl : 0 ≤ n → 1 ≤ wl ≤ 7 → n * wl ≤ 8 * nb < n * wl + 8 →
  0 ≤ n - Z.quot ((nb - 1) * 8 + wl - 1) wl < 256.
Proof.
  intros Hn Hw Hnb. destruct (decide (nb = 0)) as [->|].
  - assert (n = 0) as -> by lia.
    assert (wl = 1 ∨ wl = 2 ∨ wl = 3 ∨ wl = 4 ∨ wl = 5 ∨ wl = 6 ∨ wl = 7) as Hc by lia.
    destruct Hc as [-> | [-> | [-> | [-> | [-> | [-> | ->]]]]]]; vm_compute; split; congruence.
  - rewrite Z.quot_div_nonneg by lia. pose proof (Z.div_mod ((nb - 1) * 8 + wl - 1) wl).
    pose proof (Z.mod_pos_bound ((nb - 1) * 8 + wl - 1) wl). nia.
Qed.

Lemma quot_Ok v n : n ≠ 0 → go_quot v n = Ok (Z.quot v n).
Proof. intros. unfold go_quot. by rewrite decide_False. Qed.

(** [Unmarshal] reads back what [Marshal] wrote, for every stream of symbols
    below [NbSymbs], with any number of symbols from 2 to 2^62 and of any length,
    zero included: the number of symbols is recovered although only whole bytes are
    stored. *)
Theorem Unmarshal_Marshal s t : stream_ok s → NbSymbs t = NbSymbs s →
  ∃ b, Marshal (W := W) s = Ok b ∧ Forall is_byte b ∧ Unmarshal (R := R) t b = Ok s.
Proof.
  intros [Hn Hs] Ht. destruct (bitLen_spec _ Hn) as (wl & Ewl & Hwl & Hnw).
  assert (Forall (λ v, 0 ≤ v < 2 ^ wl) (D s)) as Hv by (eapply Forall_impl; [exact Hs|]; simpl; lia).
  destruct (write_symbols_spec wl (D s) NewWriter) as (w & bb & Ew & Hbb & P); [lia|done|].
  destruct pending_new as [Hp0 _]. rewrite Hp0 in P. simpl in P.
  destruct (Close_spec w) as (w' & bs & k & Ec & Pc & Hk & Hbs & _ & _).
  assert (bytes_bits (bb ++ bs) = symbol_bits wl (D s) ++ replicate k false) as Eb.
  { by rewrite bytes_bits_app, Pc, (assoc_L (++)), P. }
  assert (Forall is_byte (bb ++ bs)) as HB by by apply Forall_app.
  set (nb := zlen (bb ++ bs)). set (n := zlen (D s)).
  assert (n * wl ≤ 8 * nb < n * wl + 8) as Hlen.
  { apply (f_equal zlen) in Eb. rewrite zlen_app, symbol_bits_length in Eb by lia. unfold zlen in Eb at 1 3.
    rewrite bytes_bits_length, length_replicate in Eb. unfold nb, n, zlen in *. lia. }
  assert ((n * wl + 7) / 8 = nb) as Enb.
  { symmetry. apply (Z.div_unique _ _ _ (n * wl + 7 - 8 * nb)); lia. }
  pose proof (zlen_nonneg (D s) : 0 ≤ n) as Hn0.
  destruct (rest_new (R := R) (bb ++ bs) HB) as [Er _]. rewrite Eb in Er.
  pose proof (read_symbols_spec wl (D s) _ _ Hwl Hv Er) as Hread.
  assert (∀ m, m = n → Z.to_nat m = length (D s)) as Hm by (intros m ->; unfold n, zlen; lia).
  unfold Marshal, Unmarshal. rewrite Ewl, Ht, Ewl. cbn [mbind res_bind]. rewrite Ew. cbn [mbind res_bind]. rewrite Ec.
  fold n. rewrite Enb. destruct (Z.leb_spec (NbSymbs s) 128) as [Hsmall|Hlarge].
  - assert (1 ≤ wl ≤ 7) as Hwl7.
    { split; [lia|]. destruct (decide (wl ≤ 7)); [done|]. pose proof (Z.pow_le_mono_r 2 7 (wl - 1)). lia. }
    replace (nb + 1 - 2) with (nb - 1) by lia. rewrite quot_Ok by lia. cbn [mbind res_bind].
    pose proof (words_small n nb wl Hn0 Hwl7 Hlen) as Hq. set (q := Z.quot _ wl) in *.
    eexists. split; [done|]. rewrite Z.mod_small by lia. split.
    { rewrite (assoc_L (++)). apply Forall_app. split; [done|]. constructor; [done|constructor]. }
    rewrite (assoc_L (++)). rewrite zlen_app. fold nb. change (zlen [n - q]) with 1.
    replace (nb + 1 - 2) with (nb - 1) by lia. rewrite quot_Ok by lia. fold q. cbn [mbind res_bind].
    replace (nb + 1 - 1) with nb by lia. pose proof (zlen_nonneg (bb ++ bs) : 0 ≤ nb).
    rewrite (idx_nat _ _ (n - q)); [|lia|unfold nb, zlen; by rewrite Nat2Z.id, lookup_app_r, Nat.sub_diag by lia].
    cbn [mbind res_bind]. rewrite slice_Ok; [|lia|rewrite zlen_app; fold nb; change (zlen [n - q]) with 1; lia].
    cbn [mbind res_bind]. rewrite Z.sub_0_r, drop_0. replace (Z.to_nat nb) with (length (bb ++ bs)) by (unfold nb, zlen; lia).
    rewrite take_app_length. rewrite decide_False by lia. rewrite (Hm (q + (n - q))), Hread by lia. by destruct s.
  - assert (8 ≤ wl) as Hwl8.
    { destruct (decide (8 ≤ wl)); [done|]. pose proof (Z.pow_le_mono_r 2 wl 7). lia. }
    exists (bb ++ bs). split; [done|]. split; [done|]. fold nb. rewrite quot_Ok by lia. cbn [mbind res_bind].
    rewrite (words_large n nb wl Hn0 Hwl8 Hlen). rewrite decide_False by lia. rewrite (Hm n), Hread by done. by destruct s.
Qed.

End roundtrip.

(** [ReadNum] gives back the number [WriteNum] appended; a number that does not
    fit panics. *)
Fixpoint digits_val (base : Z) (ds : list Z) : Z :=
  match ds with [] => 0 | d :: ds' => d + base * digits_val base ds' end.

Lemma digits_spec k base v : 1 ≤ base → 0 ≤ v → ∃ ds r, digits k base v = Ok (ds, r) ∧ length ds = k ∧
  Forall (λ d, 0 ≤ d < base) ds ∧ v = digits_val base ds + base ^ Z.of_nat k * r ∧ 0 ≤ r.
Proof.
  intros Hb. revert v. induction k as [|k IH]; intros v Hv; cbn [digits].
  - exists [], v. split_and!; [done..|simpl; lia|lia].
  - unfold go_rem, go_quot. rewrite !decide_False by lia. cbn [mbind res_bind].
    rewrite Z.rem_mod_nonneg, Z.quot_div_nonneg by lia.
    destruct (IH (v / base)) as (ds & r & -> & Hl & Hd & E & Hr); [apply Z.div_pos; lia|]. cbn [mbind res_bind].
    pose proof (Z.mod_pos_bound v base). exists (v mod base :: ds), r. split_and!; [done|simpl; lia|constructor; [lia|done]| |done].
    cbn [digits_val]. rewrite Nat2Z.inj_succ, Z.pow_succ_r by lia. pose proof (Z.div_mod v base). nia.
Qed.

Lemma digits_val_bound base ds : 1 ≤ base → Forall (λ d, 0 ≤ d < base) ds → 0 ≤ digits_val base ds < base ^ zlen ds.
Proof.
  intros Hb. induction 1 as [|d ds Hd _ IH]; [done|]. cbn [digits_val]. unfold zlen in *. cbn [length].
  rewrite Nat2Z.inj_succ, Z.pow_succ_r by lia. nia.
Qed.

Lemma digits_val_mono base l k : 1 ≤ base → Forall (λ d, 0 ≤ d) l → 0 ≤ digits_val base k → digits_val base k ≤ digits_val base (l ++ k).
Proof. intros Hb Hl. induction Hl as [|d l Hd _ IH]; intros Hk; simpl; [lia|]. specialize (IH Hk). nia. Qed.

Lemma ReadNum_WriteNum s r n : 1 ≤ NbSymbs s → 0 ≤ r < 2 ^ 63 → 0 ≤ n →
  if decide (r < NbSymbs s ^ n)
  then ∃ s', WriteNum s r n = Ok s' ∧ ReadNum s' (stream_Len s) n = Ok r
  else WriteNum s r n = Panic.
Proof.
  intros Hb Hr Hn. destruct (digits_spec (Z.to_nat n) (NbSymbs s) r) as (ds & q & E & Hl & Hd & Er & Hq); [lia|lia|].
  rewrite Z2Nat.id in Er by lia. pose proof (digits_val_bound _ _ Hb Hd) as Hds. unfold zlen in Hds. rewrite Hl, Z2Nat.id in Hds by lia.
  unfold WriteNum. rewrite E. cbn [mbind res_bind]. case_decide as Hfit.
  2:{ rewrite decide_True; [done|]. intros ->. lia. }
  assert (q = 0) as -> by nia. rewrite decide_False by lia. rewrite Z.mul_0_r, Z.add_0_r in Er. eexists. split; [done|].
  unfold ReadNum, stream_Len. cbn [D NbSymbs].
  match goal with |- foldM ?f _ _ = _ => destruct (foldM_seqZ_down f (λ j acc, acc = digits_val (NbSymbs s) (drop (Z.to_nat j) ds)) n 0)
    as (a & -> & Ha) end; [lia|by rewrite drop_ge by lia| |by rewrite Ha, Er].
  intros j acc Hj ->. destruct (lookup_lt_is_Some_2 ds (Z.to_nat j)) as [d Hdj]; [lia|].
  rewrite (idx_nat _ _ d); [|unfold zlen; lia|rewrite lookup_app_r by (unfold zlen; lia); rewrite <-Hdj; f_equal; unfold zlen; lia].
  cbn [mbind res_bind]. eexists. split; [done|]. rewrite (drop_S _ _ _ Hdj). cbn [digits_val].
  replace (Z.to_nat (j + 1)) with (S (Z.to_nat j)) by lia. set (rest := digits_val _ (drop _ ds)).
  rewrite Forall_forall in Hd. pose proof (Hd d (list_elem_of_lookup_2 _ _ _ Hdj)) as Hd0.
  assert (0 ≤ rest) as Hrest.
  { apply digits_val_bound; [done|]. apply Forall_drop, Forall_forall, Hd. }
  assert (d + NbSymbs s * rest ≤ r) as Hle.
  { rewrite Er, <-(take_drop (Z.to_nat j) ds), (drop_S _ _ _ Hdj).
    apply (digits_val_mono (NbSymbs s) (take (Z.to_nat j) ds) (d :: drop (S (Z.to_nat j)) ds)); [done| |cbn [digits_val]; fold rest; nia].
    apply Forall_take, Forall_forall. intros x Hx. specialize (Hd x Hx). lia. }
  rewrite (int64_id (rest * NbSymbs s)), int64_id by (unfold in_int64; nia). lia.
Qed.
