(* ===== verification/LzssTheorems.v ===== *)
(** * Inspecting a compressed stream

    Models [CompressedStreamInfo] and [ToCSV] of
    src/prover/lib/compressor/blob/v0/compress/lzss/decompress.go and
    [Compressor.Stream] of compress.go. *)

From S2P Require Export LzssRun Stream.
From stdpp Require Import pretty.

#[local] Open Scope Z_scope.

Record CompressionPhrase := {
  Type_ : Z;
  Length : Z;
  ReferenceAddress : Z;
  StartDecompressed : Z;
  StartCompressed : Z;
  Content : list Z }.

#[global] Instance BackrefType_eq_dec : EqDecision BackrefType.
Proof. solve_decision. Defined.

(** The variables of [CompressedStreamInfo]: the phrases so far, the output, the
    start of the literals being copied (-1 if none), the position in bits. *)
Record info := { phrases : list CompressionPhrase; out_ : list Z; literalCopyStart : Z; inI : Z }.

Definition emitLiteralIfNecessary (s : info) : res info :=
  if decide (literalCopyStart s = -1) then Ok s
  else
    let n := zlen (out_ s) - literalCopyStart s in
    content ← slice (out_ s) (literalCopyStart s) (zlen (out_ s));
    Ok {| phrases := phrases s ++ [{| Type_ := 0; Length := n; ReferenceAddress := literalCopyStart s;
                                      StartDecompressed := literalCopyStart s; StartCompressed := inI s; Content := content |}];
          out_ := out_ s; literalCopyStart := -1; inI := inI s + n * 8 |}.

(** The output has the bytes of the reference already. *)
Definition emitRef (dictT : BackrefType) (b : backref) (s : info) : res info :=
  let addr := if decide (bType b = dictT) then address b else zlen (out_ s) - length_ b - address b in
  content ← slice (out_ s) (zlen (out_ s) - length_ b) (zlen (out_ s));
  Ok {| phrases := phrases s ++ [{| Type_ := Delimiter (bType b); Length := length_ b; ReferenceAddress := addr;
                                    StartDecompressed := zlen (out_ s) - length_ b; StartCompressed := inI s; Content := content |}];
        out_ := out_ s; literalCopyStart := literalCopyStart s; inI := inI s + NbBitsBackRef (bType b) |}.

(** The copying loop, without the check [Decompress] makes. *)
Fixpoint copy_unchecked (n : nat) (address : Z) (out : list Z) : res (list Z) :=
  match n with
  | O => Ok out
  | S n' => b ← idx out (zlen out - address); copy_unchecked n' address (out ++ [b])
  end.

Definition set_output (s : info) (o : list Z) : info :=
  {| phrases := phrases s; out_ := o; literalCopyStart := literalCopyStart s; inI := inI s |}.

Section info.
Context `{BitReader R}.

Definition info_symbol (dict : list Z) (short long dictT : BackrefType) (x : Z) (r : R) (s : info) : res (info * gerr * R) :=
  let back bt :=
    s ← emitLiteralIfNecessary s;
    let '((b, err), r) := readFrom {| address := 0; length_ := 0; bType := bt |} r in
    match err with
    | Some e => Ok (s, Some e, r)
    | None =>
        o ← copy_unchecked (Z.to_nat (length_ b)) (address b) (out_ s);
        s ← emitRef dictT b (set_output s o);
        Ok (s, None, r)
    end in
  if x =? SymbolShort then back short
  else if x =? SymbolLong then back long
  else if x =? SymbolDict then
    s ← emitLiteralIfNecessary s;
    let '((b, err), r) := readFrom {| address := 0; length_ := 0; bType := dictT |} r in
    match err with
    | Some e => Ok (s, Some e, r)
    | None =>
        p ← slice dict (address b) (address b + length_ b);
        s ← emitRef dictT b (set_output s (out_ s ++ p));
        Ok (s, None, r)
    end
  else
    let start := if decide (literalCopyStart s = -1) then zlen (out_ s) else literalCopyStart s in
    Ok ({| phrases := phrases s; out_ := out_ s ++ [x]; literalCopyStart := start; inI := inI s |}, None, r).

Fixpoint info_loop (fuel : nat) (dict : list Z) (short long dictT : BackrefType) (x : Z) (r : R) (s : info)
    : res (list CompressionPhrase * gerr) :=
  match RTryError r with
  | Some _ => Ok (phrases s, None)
  | None =>
      match fuel with
      | O => Panic
      | S fuel' =>
          '(s, err, r) ← info_symbol dict short long dictT x r s;
          match err with
          | Some e => Ok ([], Some e)
          | None =>
              let '(x, r) := TryReadByte r in
              info_loop fuel' dict short long dictT x r s
          end
      end
  end.

Definition CompressedStreamInfo (c dict : list Z) : res (list CompressionPhrase * gerr) :=
  let '((header, sizeHeader, err), r) := header_ReadFrom (NewReader c) in
  match err with
  | Some e => Ok ([], Some e)
  | None =>
      if decide (hVersion header ≠ Version) then Panic
      else if decide (hLevel header = NoCompression) then
        d ← slice c sizeHeader (zlen c);
        Ok ([{| Type_ := 0; Length := zlen c - sizeHeader; ReferenceAddress := 0;
                StartDecompressed := 0; StartCompressed := 0; Content := d |}], None)
      else
        let dict := AugmentDict dict in
        let '(short, long, dictT) := InitBackRefTypes (zlen dict) (hLevel header) in
        let '(x, r) := TryReadByte r in
        info_loop (length c) dict short long dictT x r {| phrases := []; out_ := []; literalCopyStart := -1; inI := 0 |}
  end.

(** [Compressor.Stream] *)
Definition compressor_Stream {W} (c : Compressor W) : res Stream :=
  let wordNbBits := if decide (level c = 0) then 8 else level c in
  '(r, err) ← NewStream (R := R) (outBuf c) wordNbBits;
  match err with Some _ => Panic | None =>
    let n := Z.quot (stream_Len r - lastNbSkippedBits c) wordNbBits in
    d ← slice (D r) 0 n;
    Ok {| D := d; NbSymbs := NbSymbs r |}
  end.

End info.

(** ** [ToCSV] *)

Definition hex_digit (n : Z) : string :=
  default EmptyString (["0"; "1"; "2"; "3"; "4"; "5"; "6"; "7"; "8"; "9"; "a"; "b"; "c"; "d"; "e"; "f"]%string !! Z.to_nat n).

(** [hex.EncodeToString] *)
Definition hex (l : list Z) : string := String.concat EmptyString ((λ b, hex_digit (b / 16) +:+ hex_digit (b mod 16)) <$> l).

Definition csv_line (p : CompressionPhrase) : res string :=
  name ← (if decide (Type_ p = SymbolShort) then Ok "short,"%string
          else if decide (Type_ p = SymbolLong) then Ok "long,"%string
          else if decide (Type_ p = SymbolDict) then Ok "dict,"%string
          else if decide (Type_ p = 0) then Ok "literal,"%string
          else Panic);
  Ok (name +:+ pretty (Length p) +:+ "," +:+ pretty (StartDecompressed p) +:+ "," +:+ pretty (StartCompressed p) +:+ ","
      +:+ pretty (ReferenceAddress p) +:+ "," +:+ hex (Content p) +:+ String (Ascii.ascii_of_nat 10) EmptyString)%string.

Definition ToCSV (c : list CompressionPhrase) : res string :=
  lines ← mapR csv_line c;
  Ok ("type,length,start_decompressed (bytes),start_compressed (bits),reference_address,content (hex)"
      +:+ String (Ascii.ascii_of_nat 10) EmptyString +:+ String.concat EmptyString lines)%string.

(** ** The phrases cover the output, up to the literals at its end *)

Definition is_lit (p : phrase) : bool := match p with Lit _ => true | _ => false end.

(** The literals at the end of [ps] are the bytes [tail]. *)
Definition ends_with (ps qs : list phrase) (tail : list Z) : Prop :=
  ps = qs ++ (Lit <$> tail) ∧ (qs = [] ∨ ∃ q p, qs = q ++ [p] ∧ is_lit p = false).

Lemma copy_back_extends n a out out' : copy_back n a out = Ok (Some out') →
  copy_unchecked n a out = Ok out' ∧ ∃ k, out' = out ++ k ∧ length k = n.
Proof.
  revert out. induction n as [|n IH]; intros out; cbn [copy_back copy_unchecked].
  - intros [= ->]. split; [done|]. exists []. by rewrite app_nil_r.
  - case_decide; [done|]. destruct (idx out (zlen out - a)) as [b|]; [|done]. simpl. intros (E & k & -> & Hk)%IH.
    split; [done|]. exists (b :: k). rewrite <-(assoc_L (++)). split; [done|]. simpl. lia.
Qed.

(** The state after the phrases [ps], whose output is [out]. *)
Definition info_inv (dict : list Z) (lvl : Z) (ps : list phrase) (out : list Z) (s : info) : Prop :=
  out_ s = out ∧ ∃ qs tail o, ends_with ps qs tail ∧ expands_all dict lvl [] qs o ∧ out = o ++ tail ∧
  concat (Content <$> phrases s) = o ∧
  literalCopyStart s = (if decide (tail = []) then -1 else zlen o).

Section covers.
Context `{BitReaderSpec R} (dict : list Z) (lvl : Z) (Hlvl : 1 ≤ lvl ≤ 8) (Hdict : zlen dict ≤ MaxDictSize).

Notation info_symbol := (info_symbol dict (typ (zlen dict) lvl false) (typ (zlen dict) lvl true) (dict_typ (zlen dict) lvl)).
Notation info_loop fuel := (info_loop fuel dict (typ (zlen dict) lvl false) (typ (zlen dict) lvl true) (dict_typ (zlen dict) lvl)).
Notation info_inv := (info_inv dict lvl).

Lemma slice_suffix (l k : list Z) : slice (l ++ k) (zlen l) (zlen (l ++ k)) = Ok k.
Proof.
  rewrite zlen_app. pose proof (zlen_nonneg k). rewrite slice_Ok; [|pose proof (zlen_nonneg l); lia|rewrite zlen_app; lia].
  f_equal. unfold zlen. rewrite Nat2Z.id, drop_app_length. apply take_ge. lia.
Qed.

(** Closing the pending literals. *)
Lemma emitLiteral_spec ps out s : info_inv ps out s → expands_all dict lvl [] ps out →
  ∃ s', emitLiteralIfNecessary s = Ok s' ∧ out_ s' = out ∧ literalCopyStart s' = -1 ∧ concat (Content <$> phrases s') = out.
Proof.
  intros (Eo & qs & tail & o & _ & _ & Eout & Ec & El) _. unfold emitLiteralIfNecessary. rewrite El, Eo, Eout.
  case_decide as Ht.
  - exists s. rewrite decide_True by done. rewrite Ht, app_nil_r in *. split_and!; [done|by rewrite Eo|done|done].
  - rewrite decide_False by (pose proof (zlen_nonneg o); lia). rewrite slice_suffix. cbn [mbind res_bind].
    eexists. split; [done|]. cbn [out_ literalCopyStart phrases]. split_and!; [done|done|].
    rewrite fmap_app, concat_app, Ec. simpl. by rewrite app_nil_r.
Qed.

(** Emitting a reference whose bytes [k] have been appended. *)
Lemma emitRef_spec dt b s out k : out_ s = out ++ k → length_ b = zlen k → concat (Content <$> phrases s) = out →
  ∃ s', emitRef dt b s = Ok s' ∧ out_ s' = out ++ k ∧ literalCopyStart s' = literalCopyStart s ∧
    concat (Content <$> phrases s') = out ++ k.
Proof.
  intros Eo El Ec. unfold emitRef. rewrite Eo, El, !zlen_app. replace (zlen out + zlen k - zlen k) with (zlen out) by lia.
  rewrite <-zlen_app, slice_suffix. cbn [mbind res_bind]. eexists. split; [done|]. cbn [out_ literalCopyStart phrases].
  split_and!; [done|done|]. rewrite fmap_app, concat_app, Ec. simpl. by rewrite app_nil_r.
Qed.

Lemma info_inv_ref ps p out s : is_lit p = false → expands_all dict lvl [] (ps ++ [p]) out →
  out_ s = out → literalCopyStart s = -1 → concat (Content <$> phrases s) = out → info_inv (ps ++ [p]) out s.
Proof.
  intros Hp He Eo El Ec. split; [done|]. exists (ps ++ [p]), [], out. split_and!; [|done|by rewrite app_nil_r|done|done].
  split; [by rewrite app_nil_r|]. right. eauto.
Qed.

Lemma info_symbol_spec (r : R) ps out p out' q tail s :
  info_inv ps out s → expands_all dict lvl [] ps out → expands dict lvl out p out' →
  LzssFacts.encode dict lvl p = to_bits 8 (symbol dict lvl p) ++ q → RTryError r = None → rest r = q ++ tail →
  ∃ s' r', info_symbol (symbol dict lvl p) r s = Ok (s', None, r') ∧ rest r' = tail ∧ RTryError r' = None ∧
    info_inv (ps ++ [p]) out' s'.
Proof.
  intros Hi Hall Hp Hq Hr Hrest. pose proof (typ_ok dict lvl Hlvl) as Hk. destruct (dict_typ_ok dict lvl Hlvl Hdict) as [Hdt Hdl].
  assert (expands_all dict lvl [] (ps ++ [p]) out') as Hall' by (eapply expands_all_app; [done|by apply expands_all_one]).
  destruct (emitLiteral_spec ps out s Hi Hall) as (s1 & E1 & Eo1 & El1 & Ec1).
  destruct Hp as [out b Hb Hc|out a l Ha Hl Hal|out k a l out' Ha Hl Hcopy]; cbn [LzssFacts.encode symbol] in Hq |- *.
  - rewrite <-(app_nil_r (to_bits 8 b)) in Hq at 1. apply app_inv_head in Hq as <-. rewrite app_nil_l in Hrest.
    unfold info_symbol, canEncodeSymbol in *.
    destruct (b =? SymbolShort), (b =? SymbolLong), (b =? SymbolDict); try done. eexists _, r. split_and!; [done..|].
    destruct Hi as (Eo & qs & tl & o & [-> Hqs] & Hex & Eout & Ec & El). split; [cbn [out_]; by rewrite Eo|].
    exists qs, (tl ++ [b]), o. split_and!; [|done|by rewrite Eout, (assoc_L (++))|done|].
    + split; [|done]. by rewrite fmap_app, (assoc_L (++)).
    + cbn [literalCopyStart]. rewrite El, Eo, Eout, (decide_False (P := tl ++ [b] = [])) by (by destruct tl).
      destruct (decide (tl = [])) as [->|]; [rewrite decide_True by done; by rewrite app_nil_r|].
      rewrite decide_False by (pose proof (zlen_nonneg o); lia). done.
  - apply app_inv_head in Hq as <-. rewrite <-(assoc_L (++)) in Hrest.
    destruct (readFrom_bits r _ l a tail Hdt Hr Hl) as (r' & E & Hr' & He'); [lia|done|].
    change (dictOnly (dict_typ (zlen dict) lvl)) with true in E. cbv iota in E.
    unfold info_symbol. cbn -[readFrom dict_typ]. rewrite E1. cbn [mbind res_bind]. rewrite E. cbn -[slice dict_typ].
    rewrite slice_Ok by lia. cbn [mbind res_bind]. replace (a + l - a) with l by lia.
    set (p := take _ _) in *. assert (zlen p = l) as Hpl by (unfold p, zlen in *; rewrite length_take, length_drop; lia).
    edestruct (emitRef_spec (dict_typ (zlen dict) lvl)) as (s2 & -> & Eo2 & El2 & Ec2);
      [by cbn [out_ set_output]; rewrite Eo1|symmetry; exact Hpl|exact Ec1|].
    cbn [mbind res_bind]. exists s2, r'. split_and!; [done..|]. apply info_inv_ref; [done|done|done|by rewrite El2|done].
  - apply app_inv_head in Hq as <-. rewrite <-(assoc_L (++)) in Hrest.
    destruct (readFrom_bits r _ l (a - 1) tail (Hk k) Hr Hl) as (r' & E & Hr' & He');
      [rewrite <-(ok_max _ (Hk k)); lia|done|].
    destruct (typ_symbols dict lvl k) as [Ek1 Ek2]. rewrite Ek1 in E. replace (a - 1 + 1) with a in E by lia.
    destruct (copy_back_extends _ _ _ _ Hcopy) as (Ecu & kk & -> & Hkk).
    edestruct (emitRef_spec (dict_typ (zlen dict) lvl) {| address := a; length_ := l; bType := typ (zlen dict) lvl k |} (set_output s1 (out ++ kk)))
      as (s2 & E2 & Eo2 & El2 & Ec2); [done|unfold zlen; simpl; lia|exact Ec1|].
    exists s2, r'. split_and!; [|done|done|by apply info_inv_ref; [..|rewrite El2|]].
    unfold info_symbol. destruct k; cbn -[typ readFrom dict_typ emitLiteralIfNecessary copy_unchecked emitRef];
      rewrite E1; cbn [mbind res_bind]; rewrite E; cbn [mbind res_bind length_ address]; rewrite Eo1, Ecu; cbn [mbind res_bind]; by rewrite E2.
Qed.

Lemma info_loop_spec qs : ∀ (r : R) ps out out' pad fuel s,
  info_inv ps out s → expands_all dict lvl [] ps out → expands_all dict lvl out qs out' →
  RTryError r = None → rest r = encodes dict lvl qs ++ pad → (length pad < 8)%nat → (length qs ≤ fuel)%nat →
  ∃ s', info_loop fuel (TryReadByte r).1 (TryReadByte r).2 s = Ok (phrases s', None) ∧ info_inv (ps ++ qs) out' s'.
Proof.
  induction qs as [|p qs IH]; intros r ps out out' pad fuel s Hi Hall Hqs Hr Hrest Hpad Hf.
  - inversion Hqs; subst. destruct (TryReadByte_short r) as (v & e & r' & -> & He); [by rewrite Hrest|].
    exists s. rewrite app_nil_r. split; [|done]. destruct fuel; simpl; by rewrite He.
  - inversion Hqs as [|? ? out1 ? ? Hp Hqs']; subst. destruct fuel as [|fuel]; [simpl in Hf; lia|].
    destruct (encode_symbol dict lvl p) as [q Hq].
    change (encodes dict lvl (p :: qs)) with (LzssFacts.encode dict lvl p ++ encodes dict lvl qs) in Hrest. rewrite Hq, <-!(assoc_L (++)) in Hrest.
    destruct (TryReadByte_spec r Hr) as (r1 & -> & Er1 & Hr1); [rewrite Hrest, length_app, to_bits_length; lia|].
    rewrite Hrest, drop_app_length' in Er1 by done. rewrite Hrest, take_app_length' by done.
    rewrite of_bits_small by (apply (symbol_byte _ _ _ _ _ Hp)).
    destruct (info_symbol_spec r1 ps out p out1 q (encodes dict lvl qs ++ pad) s) as (s2 & r2 & E2 & Hr2 & He2 & Hi2); [done..|].
    cbn [info_loop fst snd]. rewrite Hr1, E2. cbn [mbind res_bind].
    destruct (IH r2 (ps ++ [p]) out1 out' pad fuel s2) as (s' & E' & Hi'); [done|by eapply expands_all_app, expands_all_one|done..|simpl in Hf; lia|].
    exists s'. rewrite <-(assoc_L (++)) in Hi'. split; [|done]. by destruct (TryReadByte r2).
Qed.

End covers.

(** * Theorems on the v0 compressor

    The claims about the suffix array query, the compressor, the decompressor and
    the symbol streams, with their witnesses on a small dictionary. The witnesses
    run the code on the list implementation of the bit streams and on suffixes
    sorted by merging. *)



Section theorems.
Context `{SuffixSort, !SuffixSortLaws, BitWriterSpec W, BitReaderSpec R}.

(** C12. The compressor is a byte buffer with one level of undo. After any
    sequence of [Write], [Revert], [ConsiderBypassing] and [Reset] that stays within
    the input limit and does not revert twice in a row, starting from
    [NewCompressor] at a level up to 8, no call has panicked, the bytes written are
    those of the abstract buffer, and [Decompress] gives them back from the
    compressor's output. *)
Theorem compressor_refines_buffer dict l os s :
  0 ≤ l ≤ 8 → zlen (AugmentDict dict) ≤ MaxDictSize → Forall op_ok os →
  spec_run ([], Some []) os = Some s →
  ∃ c c' : Compressor W, NewCompressor dict l = Ok (Some c, None) ∧ foldM step c os = Ok c' ∧
    WrittenBytes c' = s.1 ∧ Decompress (R := R) (Bytes c') dict = Ok (s.1, None).
Proof.
  intros Hl Hd Hos E. destruct (NewCompressor_inv dict l Hl Hd) as (c & Ec & Hi & Hin & Hli).
  destruct (run_refines dict os c ([], Some []) s) as (c' & Er & Hi' & Hb & _); [|done|done|].
  { split_and!; [done|done|]. split; [rewrite Hli; lia|]. by rewrite Hli. }
  exists c, c'. split_and!; [done|done|done|].
  pose proof (inv_stream _ _ Hi') as Hs. rewrite (fix_dict _ _ (inv_fixed _ _ Hi')), Hb in Hs.
  by eapply stream_decompress.
Qed.


(** C21. [Revert] twice in a row is not refused after a bypass: the first [Revert]
    recompresses and forgets that it was a revert, so the second one succeeds and
    discards everything that had been written. *)
Theorem Revert_twice_after_bypass dict (c : Compressor W) :
  inv dict c → justBypassed c = true → lastInLen c ≠ -1 →
  ∃ c1 c2, Revert c = Ok (c1, None) ∧ WrittenBytes c1 = take (Z.to_nat (lastInLen c)) (WrittenBytes c) ∧
    Revert c1 = Ok (c2, None) ∧ WrittenBytes c2 = [].
Proof.
  intros Hi Hj Hne. destruct (Revert_inv dict c Hi Hne) as (c1 & E1 & Hi1 & Ein1 & El1). rewrite Hj in El1.
  destruct (Revert_inv dict c1 Hi1) as (c2 & E2 & _ & Ein2 & _); [lia|].
  exists c1, c2. unfold WrittenBytes. rewrite Ein2, El1. by split_and!.
Qed.

(** C20. [CompressedStreamInfo] reports the stream without its end: for the output
    of a compressing compressor it returns phrases whose contents, in order, are
    the bytes written up to the literals at the end of the stream, which it never
    reports. *)
Theorem CompressedStreamInfo_covers dict (c : Compressor W) :
  inv dict c → level c ≠ NoCompression →
  ∃ ps qs tail phrases, expands_all (AugmentDict dict) (level c) [] ps (WrittenBytes c) ∧ ends_with ps qs tail ∧
    CompressedStreamInfo (R := R) (Bytes c) dict = Ok (phrases, None) ∧
    WrittenBytes c = concat (Content <$> phrases) ++ tail.
Proof.
  intros [Hf _ _ [Hb Hs Hc] _] Hl. rewrite (fix_dict _ _ Hf) in Hc. pose proof (fix_size _ _ Hf) as Hd.
  destruct Hc as [[? _]|(Hlv & ps & pad & Hps & Hpad & E)]; [done|]. unfold Bytes, WrittenBytes in *.
  assert (∃ tail, outBuf c = header_WriteTo (header_of (level c)) ++ tail) as [tail Eo].
  { exists (drop 3 (outBuf c)). rewrite <-(take_drop 3 (outBuf c)) at 1. f_equal. apply bytes_bits_inj; [by apply Forall_take|apply header_ok; lia|].
    rewrite bytes_bits_take, E, take_app_le by (rewrite bytes_bits_length; simpl; lia). apply take_ge. by rewrite bytes_bits_length. }
  rewrite Eo in E, Hb |- *. apply Forall_app in Hb as [_ Hb]. rewrite bytes_bits_app in E. apply app_inv_head in E.
  destruct (header_ReadFrom_bits (R := R) (header_of (level c)) tail) as (r & E1 & Er & Hr); [done|unfold is_byte; simpl; lia|done|].
  rewrite <-Er in E. exists ps.
  destruct (info_loop_spec (R := R) (AugmentDict dict) (level c) Hlv Hd ps r [] [] (inBuf c) pad
    (length (header_WriteTo (header_of (level c)) ++ tail)) {| phrases := []; out_ := []; literalCopyStart := -1; inI := 0 |})
    as (s' & El & _ & qs & tl & o & Hend & _ & Eout & Ec & _).
  - split; [done|]. exists [], [], []. split_and!; [|constructor|done..]. split; [done|by left].
  - constructor.
  - done.
  - done.
  - done.
  - unfold zlen in Hpad. lia.
  - pose proof (encodes_length_ge (AugmentDict dict) (level c) ps). apply (f_equal length) in E.
    rewrite Er, bytes_bits_length, length_app in E. rewrite length_app. lia.
  - exists qs, tl, (phrases s'). split_and!; [done|done| |by rewrite Ec].
    unfold CompressedStreamInfo. rewrite E1. cbn [hVersion hLevel header_of]. rewrite decide_False by (intros []; done).
    rewrite decide_False by done. destruct (TryReadByte r). exact El.
Qed.

End theorems.


(** ** The query *)

(** C14. [LookupLongest] is exact: on the index that [New] builds, for any phrase
    and any bounds on the length, it returns the offset and length of a match that
    starts in the range and that no other such match exceeds, or -1 when the
    shortest admissible prefix does not occur there. It never panics. *)
Theorem LookupLongest_longest `{SuffixSort, !SuffixSortLaws} d space s minEnd maxEnd rangeStart rangeEnd :
  zlen d ≤ maxData32 → zlen d ≤ space → 0 ≤ minEnd ≤ maxEnd → maxEnd ≤ zlen s →
  ∃ x index length, New d space = Ok x ∧ LookupLongest x s minEnd maxEnd rangeStart rangeEnd = Ok (index, length) ∧
  ((index = -1 ∧ length = -1 ∧ ∀ o, ¬ occurs_in d (take (Z.to_nat minEnd) s) rangeStart rangeEnd o) ∨
   (occurs_in d (take (Z.to_nat length) s) rangeStart rangeEnd index ∧ minEnd ≤ length ≤ maxEnd ∧
    ∀ l o, length < l ≤ maxEnd → ¬ occurs_in d (take (Z.to_nat l) s) rangeStart rangeEnd o)).
Proof.
  intros Hd Hsp Hm Hs. destruct (LookupLongest_spec d Hd space s minEnd maxEnd rangeStart rangeEnd) as (E & i & l & H1 & H2); [done..|].
  eauto 10.
Qed.

(** ** A compressor to run *)

Module LzssDemo.
Import ListBits MergeSuffixes.

Definition dict : list Z := [1; 2; 3; 4; 5; 6; 7; 8; 9; 10; 11; 12].
Definition text : list Z := [5; 6; 7; 8; 9; 10; 11; 12; 255; 254; 1; 2; 3; 4; 5; 6; 7; 8; 9] ++ replicate 170 7 ++ [1; 2; 3].
Definition noise : list Z := [200; 17; 93; 254; 31; 77; 140; 2].

Definition new (l : Z) : Compressor cache :=
  match NewCompressor dict l with
  | Ok (Some c, _) => c
  | _ => Build_Compressor cache [] NewWriter 0 [] 0 0 0 false None [] None ∅ 0 0
  end.

(** The states after one [Write], and after a bypass. *)
Definition after (c : Compressor cache) (os : list op) : Compressor cache :=
  match foldM step c os with Ok c' => c' | Panic => c end.

Definition written : Compressor cache := after (new 1) [OpWrite text].
Definition bypassed : Compressor cache := after (new 1) [OpWrite [1; 2; 3]; OpWrite noise; OpConsiderBypassing].

Definition script : list op :=
  [OpWrite text; OpWrite noise; OpRevert; OpWrite [1; 2; 3; 4; 5]; OpConsiderBypassing; OpRevert; OpReset; OpWrite noise; OpConsiderBypassing; OpWrite text].

#[global] Instance op_ok_dec o : Decision (op_ok o).
Proof. destruct o; simpl; apply _. Defined.

(** The states the demonstration reaches satisfy the invariant. *)
Lemma after_inv l os s : 0 ≤ l ≤ 8 → Forall op_ok os → spec_run ([], Some []) os = Some s → inv dict (after (new l) os).
Proof.
  intros Hl Hos E. destruct (NewCompressor_inv (W := cache) dict l Hl) as (c & Ec & Hi & Hin & Hli); [by vm_compute|].
  unfold after, new. rewrite Ec. destruct (run_refines dict os c ([], Some []) s) as (c' & -> & Hi' & _); [|done|done|done].
  split_and!; [done|done|]. split; [rewrite Hli; lia|]. by rewrite Hli.
Qed.

Lemma written_inv : inv dict written.
Proof. eapply after_inv; [lia|apply (bool_decide_unpack _); vm_compute; exact I|vm_compute; reflexivity]. Qed.

Lemma bypassed_inv : inv dict bypassed.
Proof. eapply after_inv; [lia|apply (bool_decide_unpack _); vm_compute; exact I|vm_compute; reflexivity]. Qed.

End LzssDemo.

Section witnesses.
Import ListBits MergeSuffixes LzssDemo.

Lemma compressor_refines_buffer_witness :
  ∃ c c' : Compressor cache, NewCompressor dict 1 = Ok (Some c, None) ∧ foldM step c script = Ok c' ∧
    WrittenBytes c' = noise ++ text ∧ Decompress (R := list bool * gerr) (Bytes c') dict = Ok (noise ++ text, None).
Proof.
  apply (compressor_refines_buffer (W := cache) (R := list bool * gerr) dict 1 script (noise ++ text, Some noise));
    [lia|by vm_compute|apply (bool_decide_unpack _); vm_compute; exact I|vm_compute; reflexivity].
Defined.



Lemma Revert_twice_after_bypass_witness :
  ∃ c1 c2, Revert bypassed = Ok (c1, None) ∧ WrittenBytes c1 = take (Z.to_nat (lastInLen bypassed)) (WrittenBytes bypassed) ∧
    Revert c1 = Ok (c2, None) ∧ WrittenBytes c2 = [].
Proof. apply (Revert_twice_after_bypass (W := cache) dict bypassed); [exact bypassed_inv|reflexivity|by vm_compute]. Defined.

Lemma CompressedStreamInfo_covers_witness :
  ∃ ps qs tail phrases, expands_all (AugmentDict dict) (level written) [] ps (WrittenBytes written) ∧ ends_with ps qs tail ∧
    CompressedStreamInfo (R := list bool * gerr) (Bytes written) dict = Ok (phrases, None) ∧
    WrittenBytes written = concat (Content <$> phrases) ++ tail.
Proof. apply (CompressedStreamInfo_covers (W := cache) (R := list bool * gerr) dict written); [exact written_inv|by vm_compute]. Defined.

Lemma Unmarshal_Marshal_witness :
  ∃ b, Marshal (W := cache) {| D := [5; 0; 3; 6]; NbSymbs := 7 |} = Ok b ∧ Forall is_byte b ∧
    Unmarshal (R := list bool * gerr) {| D := []; NbSymbs := 7 |} b = Ok {| D := [5; 0; 3; 6]; NbSymbs := 7 |}.
Proof.
  apply (Unmarshal_Marshal (W := cache) (R := list bool * gerr)); [|reflexivity].
  split; [by vm_compute|apply (bool_decide_unpack _); vm_compute; exact I].
Defined.

Lemma LookupLongest_longest_witness :
  ∃ x index length, New text (zlen text) = Ok x ∧ LookupLongest x [7; 8; 9; 10; 1] 2 5 3 15 = Ok (index, length) ∧
  ((index = -1 ∧ length = -1 ∧ ∀ o, ¬ occurs_in text (take (Z.to_nat 2) [7; 8; 9; 10; 1]) 3 15 o) ∨
   (occurs_in text (take (Z.to_nat length) [7; 8; 9; 10; 1]) 3 15 index ∧ 2 ≤ length ≤ 5 ∧
    ∀ l o, length < l ≤ 5 → ¬ occurs_in text (take (Z.to_nat l) [7; 8; 9; 10; 1]) 3 15 o)).
Proof. apply (LookupLongest_longest text (zlen text) [7; 8; 9; 10; 1] 2 5 3 15); by vm_compute. Defined.

(** ** What goes wrong *)


(** After such a failure and a [Reset], [Write] succeeds and its output does not
    decompress to what was written. *)
Definition corrupts (c : Compressor cache) : bool :=
  match Write (Reset c) text with
  | Ok (c2, _, None) =>
      bool_decide (WrittenBytes c2 = text) && negb (bool_decide (Decompress (R := list bool * gerr) (Bytes c2) dict = Ok (text, None)))
  | _ => false
  end.

Lemma failed_Write_corrupts d : MaxInputSize < zlen (WrittenBytes written) + zlen d →
  ∃ c e, Write written d = Ok (c, 0, Some e) ∧ corrupts c = true.
Proof.
  intros Hbig. set (c := match reopen_output written with Ok (c, _) => c | Panic => written end).
  assert (reopen_output written = Ok (c, None)) as E by (vm_compute; reflexivity).
  assert (WrittenBytes c = WrittenBytes written) as Ein by (vm_compute; reflexivity).
  unfold Write. rewrite E. unfold appendInput. cbn [mbind res_bind inBuf set_last]. unfold WrittenBytes in Ein. rewrite Ein, decide_True by done.
  eexists _, _. split; [done|]. vm_compute. reflexivity.
Qed.

(** The literals at the end of the stream are not reported: none of the three
    bytes written is. *)
Lemma CompressedStreamInfo_loses_literals :
  CompressedStreamInfo (R := list bool * gerr) (Bytes (after (new 8) [OpWrite [21; 22; 23]])) dict = Ok ([], None).
Proof. vm_compute. reflexivity. Qed.

(** [Stream] on byte-aligned output returns an eighth of it. *)
Lemma Stream_truncates :
  let c := after (new 8) [OpWrite (seqZ 20 21)] in
  Bytes c = [0; 0; 8] ++ seqZ 20 21 ∧
  compressor_Stream (R := list bool * gerr) c = Ok {| D := [0; 0; 8]; NbSymbs := 256 |}.
Proof. vm_compute. done. Qed.

End witnesses.
