(* ===== verification/Pack.v ===== *)
(** * Packing bytes into field elements

    Models the packing half of src/prover/lib/compressor/blob/encode/encode.go:
    [PackAlign] cuts a byte string into elements of [packingSize] bits, each stored
    big-endian in whole 64-bit words, after a terminal symbol 0xff and zeros to fill
    the last element; [UnpackAlign] undoes it; [PackData] re-packs for hashing. The
    writer is a [bytes.Buffer], the reader a [bitio.Reader] over the concatenation
    of the inputs ([io.MultiReader]). *)

From S2P Require Export LzssFacts Stream.

(** ** Settings *)

Record packAlignSettings := {
  dataNbBits : Z;
  lastByteNbUnusedBits : Z;
  noTerminalSymbol : bool;
  additionalInput : list (list Z) }.

Inductive packAlignOption :=
| NoTerminalSymbol
| WithAdditionalInput (data : list (list Z))
| WithLastByteNbUnusedBits (n : Z).

(** [WithLastByteNbUnusedBits(n)] panics when it is called with more than 7. *)
Definition newLastByteNbUnusedBits (n : Z) : res packAlignOption :=
  if decide (7 < n) then Panic else Ok (WithLastByteNbUnusedBits n).

Definition apply_option (s : packAlignSettings) (o : packAlignOption) : packAlignSettings :=
  match o with
  | NoTerminalSymbol =>
      {| dataNbBits := dataNbBits s; lastByteNbUnusedBits := lastByteNbUnusedBits s;
         noTerminalSymbol := true; additionalInput := additionalInput s |}
  | WithAdditionalInput data =>
      {| dataNbBits := dataNbBits s; lastByteNbUnusedBits := lastByteNbUnusedBits s;
         noTerminalSymbol := noTerminalSymbol s; additionalInput := additionalInput s ++ data |}
  | WithLastByteNbUnusedBits n =>
      {| dataNbBits := dataNbBits s; lastByteNbUnusedBits := n;
         noTerminalSymbol := noTerminalSymbol s; additionalInput := additionalInput s |}
  end.

Definition initialize (length : Z) (options : list packAlignOption) : packAlignSettings :=
  let s := foldl apply_option {| dataNbBits := 0; lastByteNbUnusedBits := 0; noTerminalSymbol := false; additionalInput := [] |} options in
  let nbBytes := foldl (λ n data, n + zlen data) length (additionalInput s) in
  let nbBytes := if noTerminalSymbol s then nbBytes else nbBytes + 1 in
  {| dataNbBits := nbBytes * 8 - lastByteNbUnusedBits s; lastByteNbUnusedBits := lastByteNbUnusedBits s;
     noTerminalSymbol := noTerminalSymbol s; additionalInput := additionalInput s |}.

Definition PackAlignSize (length0 packingSize : Z) (options : list packAlignOption) : res Z :=
  let s := initialize length0 options in
  m ← go_rem (dataNbBits s) packingSize;
  extraBits ← go_rem (packingSize - m) packingSize;
  n ← go_quot (dataNbBits s + extraBits) packingSize;
  Ok (n * Z.quot (packingSize + 7) 8).

(** The width of the first word of an element, and the number of full words. *)
Definition packingSizeLastU64 (packingSize : Z) : Z :=
  let l := Z.rem packingSize 64 mod 256 in if decide (l = 0) then 64 else l.

Definition word_widths (packingSize : Z) : list Z :=
  let l := packingSizeLastU64 packingSize in
  l :: replicate (Z.to_nat ((packingSize - l + 63) / 64)) 64.

Section pack.
Context `{BitWriter W, BitReader R}.

(** [tryWrite(r.TryReadBits(width))] for the words of an element. *)
Definition pack_words (widths : list Z) (s : list Z * R) : list Z * R :=
  foldl (λ s n, let '(v, r) := TryReadBits n s.2 in (s.1 ++ be_bytes 8 v, r)) s widths.

(** [PackAlign(w, a, packingSize, options...)]: what is written to [w], and the
    result. *)
Definition PackAlign (a : list Z) (packingSize : Z) (options : list packAlignOption) : res (list Z * Z * gerr) :=
  let s := initialize (zlen a) options in
  if negb (noTerminalSymbol s) && negb (lastByteNbUnusedBits s =? 0)
  then Ok ([], 0, Some "terminal symbols with byte aligned input not yet supported"%string)
  else
    nbElems ← go_quot (dataNbBits s + (packingSize - 1)) packingSize;
    let nbBits := nbElems * packingSize in
    let extraBits := nbBits - dataNbBits s in
    let bytesPerElem := Z.quot (packingSize + 7) 8 in
    let bytePadding := Z.quot (extraBits + 7) 8 in
    (* buf has bytesPerElem+1 bytes of capacity *)
    let buf := (if noTerminalSymbol s then [0] else [255]) ++ replicate (Z.to_nat bytesPerElem) 0 in
    padding ← slice buf 0 (bytePadding + 1);
    let r := NewReader (a ++ concat (additionalInput s) ++ padding) in
    n ← go_quot nbBits packingSize;
    let '(out, r) := Nat.iter (Z.to_nat n) (pack_words (word_widths packingSize)) ([], r) in
    match RTryError r with
    | Some e => Ok (out, 0, Some "when reading from multi-reader"%string)
    | None =>
        let n1 := n * bytesPerElem in
        size ← PackAlignSize (zlen a) packingSize options;
        if decide (n1 ≠ size) then Ok (out, 0, Some "inconsistent PackAlignSize"%string)
        else Ok (out, n1, None)
    end.

(** The search for the terminal symbol, from position [k - 1] down. *)
Fixpoint terminal (k : nat) (out : list Z) : res Z :=
  match k with
  | O => Panic
  | S k' => b ← idx out (Z.of_nat k'); if b =? 0 then terminal k' out else Ok (Z.of_nat k')
  end.

(** [w.TryWriteBits] of the words of the element at [start]. The slices
    [element[j:j+8]] are taken from the input itself. *)
Definition unpack_words (r : list Z) (start : Z) (widths : list Z) (s : W * list Z) : res (W * list Z) :=
  '(_, s) ← foldM (λ '(j, s) n,
      e ← slice r (start + j) (start + j + 8);
      let '(w, bs) := TryWriteBits (be_val e) n s.1 in
      Ok (j + 8, (w, s.2 ++ bs))) (0, s) widths;
  Ok s.

Definition UnpackAlign (r : list Z) (packingSize : Z) (noTerminal : bool) : res (list Z * gerr) :=
  let bytesPerElem := Z.quot (packingSize + 7) 8 in
  n ← go_quot (zlen r) bytesPerElem;
  if decide (n * bytesPerElem ≠ zlen r) then Ok ([], Some "invalid data length"%string)
  else
    let widths := packingSizeLastU64 packingSize :: replicate (Z.to_nat (Z.quot (bytesPerElem - 8 + 7) 8)) 64 in
    '(w, out) ← foldM (λ s i, unpack_words r (bytesPerElem * i) widths s) (NewWriter, []) (seqZ 0 n);
    match TryError w with Some e => Ok ([], Some "when writing to bitio.Writer"%string) | None =>
    let '(w, bs, err) := Close w in
    let out := out ++ bs in
    match err with Some e => Ok ([], Some "when closing bitio.Writer"%string) | None =>
    if noTerminal then Ok (out, None)
    else
      outLen ← terminal (length out) out;
      b ← idx out outLen;
      if decide (b ≠ 255) then Ok ([], Some "invalid terminal symbol"%string)
      else Ok (take (Z.to_nat outLen) out, None)
    end end.

(** [fr.Bits - 1] of bls12-377. *)
Definition frBits : Z := 253.

Definition PackData (data : list Z) (inputPackingSize : Z) (hashPackingOptions : list packAlignOption) : res (list Z * gerr) :=
  '(data, dataNbBits, err) ←
    (if decide (Z.rem inputPackingSize 8 ≠ 0) then
       let inputBytesPerElem := Z.quot (inputPackingSize + 7) 8 in
       q ← go_quot (zlen data * 8) inputBytesPerElem;
       '(d, err) ← UnpackAlign data inputPackingSize true;
       Ok (d, q * inputPackingSize, err)
     else Ok (data, zlen data * 8, None));
  match err with
  | Some e => Ok ([], Some e)
  | None =>
      let unused := 8 - Z.rem dataNbBits 8 in
      let unused := if decide (unused = 8) then 0 else unused in
      o ← newLastByteNbUnusedBits (unused mod 256);
      '(bb, _, err) ← PackAlign data (frBits - 1) (hashPackingOptions ++ [o]);
      Ok (bb, err)
  end.

(** [MiMCChecksumPackedData] and [Poseidon2ChecksumPackedData], by their hash. *)
Definition ChecksumPackedData (Sum : list Z → list Z) (data : list Z) (inputPackingSize : Z)
    (hashPackingOptions : list packAlignOption) : res (list Z * gerr) :=
  '(b, err) ← PackData data inputPackingSize hashPackingOptions;
  Ok (Sum b, err).

End pack.

(** * Packing and unpacking are inverse

    The 64-bit words of packed data as a function of the bits ([words_of]), and the
    proofs that [PackAlign] writes them and [UnpackAlign] reads them back. *)

(** ** Words *)

Definition widths_sum (ws : list Z) : Z := foldr Z.add 0 ws.

Definition widths_ok (ws : list Z) : Prop := Forall (λ n, 1 ≤ n ≤ 64) ws.

(** The words of the given widths cut from [l], big-endian. *)
Fixpoint words_of (ws : list Z) (l : list bool) : list Z :=
  match ws with
  | [] => []
  | n :: ws' => be_bytes 8 (of_bits (take (Z.to_nat n) l)) ++ words_of ws' (drop (Z.to_nat n) l)
  end.

Lemma widths_sum_app ws vs : widths_sum (ws ++ vs) = widths_sum ws + widths_sum vs.
Proof. induction ws as [|n ws IH]; simpl; [done|]. rewrite IH. lia. Qed.

Lemma widths_sum_nonneg ws : widths_ok ws → 0 ≤ widths_sum ws.
Proof. induction 1; simpl; lia. Qed.

Lemma words_of_app ws vs l : widths_ok ws →
  words_of (ws ++ vs) l = words_of ws l ++ words_of vs (drop (Z.to_nat (widths_sum ws)) l).
Proof.
  intros Hws. revert l. induction Hws as [|n ws Hn Hws IH]; intros l; cbn [app words_of widths_sum foldr]; [by rewrite drop_0|].
  fold (widths_sum ws). rewrite IH, <-(assoc_L (++)), drop_drop. do 4 f_equal. pose proof (widths_sum_nonneg ws Hws). lia.
Qed.

Lemma words_of_length ws l : zlen (words_of ws l) = 8 * zlen ws.
Proof.
  revert l. induction ws as [|n ws IH]; intros l; [done|]. cbn [words_of]. rewrite zlen_app, IH. unfold zlen.
  rewrite be_bytes_length. simpl. lia.
Qed.

Lemma words_of_take ws l k : widths_ok ws → widths_sum ws ≤ Z.of_nat k → words_of ws (take k l) = words_of ws l.
Proof.
  intros Hws. revert l k. induction Hws as [|n ws Hn Hws IH]; intros l k Hk; cbn [words_of]; [done|]. simpl in Hk.
  pose proof (widths_sum_nonneg ws Hws). rewrite take_take, Nat.min_l by lia. f_equal.
  rewrite <-(IH (drop (Z.to_nat n) l) (k - Z.to_nat n)%nat) by lia. f_equal.
  rewrite take_drop_commute. do 2 f_equal. lia.
Qed.

(** The bytes of the packed words are bytes. *)
Lemma words_of_bytes ws l : Forall is_byte (words_of ws l).
Proof. revert l. induction ws as [|n ws IH]; intros l; cbn [words_of]; [done|]. apply Forall_app. split; [apply be_bytes_is_byte|apply IH]. Qed.

(** ** The sizes the code supports *)

(** The first word of an element fills more than seven bytes, so that the element
    takes whole words: the sizes 57 to 64 modulo 64, among them 252 and 254. *)
Definition good_size (ps : Z) : Prop := 0 < ps ∧ 57 ≤ packingSizeLastU64 ps.

Lemma good_size_words ps : good_size ps → ∃ m, 0 ≤ m ∧ ps = packingSizeLastU64 ps + 64 * m ∧
  57 ≤ packingSizeLastU64 ps ≤ 64 ∧ Z.quot (ps + 7) 8 = 8 * (m + 1) ∧
  word_widths ps = packingSizeLastU64 ps :: replicate (Z.to_nat m) 64 ∧
  Z.quot (Z.quot (ps + 7) 8 - 8 + 7) 8 = m.
Proof.
  intros [Hp Hl]. set (l := packingSizeLastU64 ps) in *.
  assert (∃ m, 0 ≤ m ∧ ps = l + 64 * m ∧ l ≤ 64) as (m & Hm & E & Hl64).
  { unfold l, packingSizeLastU64. rewrite Z.rem_mod_nonneg by lia. pose proof (Z.mod_pos_bound ps 64). pose proof (Z.div_mod ps 64).
    rewrite (Z.mod_small (ps mod 64)) by lia. case_decide as E0.
    - exists (ps / 64 - 1). assert (ps / 64 ≠ 0) by lia. pose proof (Z.div_pos ps 64). lia.
    - exists (ps / 64). pose proof (Z.div_pos ps 64). lia. }
  exists m. rewrite (Z.quot_div_nonneg (ps + 7)) by lia.
  assert ((ps + 7) / 8 = 8 * (m + 1)) as Eb by (symmetry; apply (Z.div_unique _ _ _ (l - 57)); lia).
  rewrite Eb. split_and!; [done|done|done|done|done| |].
  - unfold word_widths. fold l. do 3 f_equal. symmetry. apply (Z.div_unique _ _ _ 63); lia.
  - rewrite Z.quot_div_nonneg by lia. symmetry. apply (Z.div_unique _ _ _ 7); lia.
Qed.

(** All the words of [n] elements. *)
Definition all_widths (ps n : Z) : list Z := concat (replicate (Z.to_nat n) (word_widths ps)).

Lemma word_widths_ok ps : good_size ps → widths_ok (word_widths ps) ∧ widths_sum (word_widths ps) = ps.
Proof.
  intros Hg. destruct (good_size_words ps Hg) as (m & Hm & E & Hl & _ & -> & _). split.
  - constructor; [lia|]. apply Forall_replicate. lia.
  - cut (widths_sum (replicate (Z.to_nat m) 64) = 64 * m); [simpl; lia|].
    rewrite <-(Z2Nat.id m) at 2 by done. generalize (Z.to_nat m). clear. intros k.
    induction k as [|k IH]; simpl; [done|]. rewrite IH. lia.
Qed.

Lemma repeat_widths_ok ws k : widths_ok ws → widths_ok (concat (replicate k ws)) ∧
  widths_sum (concat (replicate k ws)) = Z.of_nat k * widths_sum ws ∧ zlen (concat (replicate k ws)) = Z.of_nat k * zlen ws.
Proof.
  intros Hok. induction k as [|k (IH1 & IH2 & IH3)]; cbn [replicate concat]; [split; [constructor|done]|].
  rewrite widths_sum_app, zlen_app, IH2, IH3. split; [by apply Forall_app|lia].
Qed.

Lemma all_widths_ok ps n : good_size ps → 0 ≤ n → widths_ok (all_widths ps n) ∧ widths_sum (all_widths ps n) = n * ps.
Proof.
  intros Hg Hn. destruct (word_widths_ok ps Hg) as [Hok Hsum]. destruct (repeat_widths_ok (word_widths ps) (Z.to_nat n) Hok) as (H1 & H2 & _).
  split; [done|]. unfold all_widths. by rewrite H2, Hsum, Z2Nat.id.
Qed.

Lemma all_widths_split ps n i : 0 ≤ i < n →
  all_widths ps n = all_widths ps i ++ word_widths ps ++ all_widths ps (n - i - 1).
Proof.
  intros Hi. unfold all_widths. replace (Z.to_nat n) with (Z.to_nat i + S (Z.to_nat (n - i - 1)))%nat by lia.
  by rewrite replicate_add, concat_app.
Qed.

Lemma all_widths_length ps n m : 0 ≤ n → word_widths ps = packingSizeLastU64 ps :: replicate (Z.to_nat m) 64 → 0 ≤ m →
  zlen (all_widths ps n) = n * (m + 1).
Proof.
  intros Hn E Hm. unfold all_widths. rewrite <-(Z2Nat.id n) at 2 by done. generalize (Z.to_nat n). clear n Hn. intros k.
  induction k as [|k IH]; cbn [replicate concat]; [done|]. rewrite zlen_app, IH, E. unfold zlen. cbn [length]. rewrite length_replicate. lia.
Qed.

Section pack.
Context `{BitWriterSpec W, BitReaderSpec R}.

(** ** Packing *)

Lemma pack_words_spec ws (r : R) out : widths_ok ws → RTryError r = None → widths_sum ws ≤ zlen (rest r) →
  ∃ r', pack_words ws (out, r) = (out ++ words_of ws (rest r), r') ∧ RTryError r' = None ∧
    rest r' = drop (Z.to_nat (widths_sum ws)) (rest r).
Proof.
  unfold pack_words. intros Hws. revert r out. induction Hws as [|n ws Hn Hws IH]; intros r out Hr Hlen; cbn [foldl words_of fst snd].
  - exists r. by rewrite app_nil_r.
  - pose proof (widths_sum_nonneg ws Hws). simpl in Hlen.
    destruct (TryReadBits_spec n r Hr) as (r1 & -> & E1 & Hr1); [lia|lia|].
    destruct (IH r1 (out ++ be_bytes 8 (of_bits (take (Z.to_nat n) (rest r)))) Hr1) as (r' & -> & Hr' & E').
    { rewrite E1. unfold zlen in *. rewrite length_drop. lia. }
    exists r'. rewrite E', E1, drop_drop, <-(assoc_L (++)). split_and!; [done|done|]. f_equal. simpl. lia.
Qed.

Lemma pack_iter n ws (s : list Z * R) : Nat.iter n (pack_words ws) s = pack_words (concat (replicate n ws)) s.
Proof.
  induction n as [|n IH]; [done|]. change (S n) with (1 + n)%nat. rewrite (Nat.add_comm 1), replicate_add, concat_app.
  rewrite Nat.add_comm. simpl. rewrite app_nil_r, IH. unfold pack_words. by rewrite foldl_app.
Qed.

(** ** Unpacking *)

Lemma unpack_words_spec (r pre post : list Z) ws l (s : W * list Z) :
  widths_ok ws → r = pre ++ words_of ws l ++ post → widths_sum ws ≤ zlen l → TryError s.1 = None →
  ∃ s', unpack_words r (zlen pre) ws s = Ok s' ∧ put s s' (take (Z.to_nat (widths_sum ws)) l).
Proof.
  intros Hws Er Hlen Hs. unfold unpack_words.
  cut (∀ k vs j l s, zlen k = j → widths_ok vs → r = pre ++ k ++ words_of vs l ++ post → widths_sum vs ≤ zlen l → TryError s.1 = None →
    ∃ s', foldM (λ '(j, s) n, e ← slice r (zlen pre + j) (zlen pre + j + 8);
      let '(w, bs) := TryWriteBits (be_val e) n s.1 in Ok (j + 8, (w, s.2 ++ bs))) (j, s) vs = Ok s' ∧ put s s'.2 (take (Z.to_nat (widths_sum vs)) l)).
  { intros Hcut. destruct (Hcut [] ws 0 l s) as ([j' s'] & -> & Hp); [done..|]. simpl. eauto. }
  clear ws l s Hws Er Hlen Hs. intros k vs j l s Hj Hvs. revert k j l s Hj.
  induction Hvs as [|n vs Hn Hvs IH]; intros k j l s Hj Er Hlen Hs; cbn [foldM words_of] in *.
  - exists (j, s). split; [done|]. simpl. split; [done|]. exists []. by rewrite !app_nil_r.
  - simpl in Hlen. pose proof (widths_sum_nonneg vs Hvs). set (e := be_bytes 8 (of_bits (take (Z.to_nat n) l))) in *.
    assert (zlen e = 8) as He by (unfold zlen, e; by rewrite be_bytes_length).
    assert (slice r (zlen pre + j) (zlen pre + j + 8) = Ok e) as ->.
    { rewrite Er, <-Hj, slice_Ok; [|pose proof (zlen_nonneg pre); pose proof (zlen_nonneg k); lia|rewrite !zlen_app, He; pose proof (zlen_nonneg (words_of vs (drop (Z.to_nat n) l))); pose proof (zlen_nonneg post); lia].
      f_equal. rewrite (assoc_L (++) pre k). unfold zlen in *. rewrite drop_app_length' by (rewrite length_app; lia).
      rewrite <-(assoc_L (++) e). apply take_app_length'. lia. }
    cbn [mbind res_bind]. pose proof (of_bits_bound (take (Z.to_nat n) l)) as Hb. rewrite length_take in Hb.
    unfold zlen in Hlen. rewrite Nat.min_l in Hb by lia.
    assert (be_val e = of_bits (take (Z.to_nat n) l)) as ->.
    { unfold e. rewrite be_val_bytes. apply Z.mod_small. rewrite Z2Nat.id in Hb by lia.
      pose proof (Z.pow_le_mono_r 2 n 64). change (256 ^ Z.of_nat 8) with (2 ^ 64). lia. }
    pose proof (put_bits s (of_bits (take (Z.to_nat n) l)) n Hs ltac:(lia)) as Hput. simpl in Hput.
    destruct (TryWriteBits (of_bits (take (Z.to_nat n) l)) n s.1) as [w bs]. cbn [mbind res_bind].
    destruct (IH (k ++ e) (j + 8) (drop (Z.to_nat n) l) (w, s.2 ++ bs)) as (s' & -> & Hp').
    + rewrite zlen_app. lia.
    + rewrite Er, <-!(assoc_L (++)). done.
    + unfold zlen. rewrite length_drop. lia.
    + apply Hput.
    + exists s'. split; [done|]. pose proof (put_trans _ _ _ _ _ Hput Hp') as Hall.
      replace (Z.to_nat n) with (length (take (Z.to_nat n) l)) in Hall at 1 by (rewrite length_take; lia).
      rewrite to_bits_of_bits in Hall. change (widths_sum (n :: vs)) with (n + widths_sum vs).
      replace (Z.to_nat (n + widths_sum vs)) with (Z.to_nat n + Z.to_nat (widths_sum vs))%nat by lia.
      by rewrite take_take_drop in Hall.
Qed.

(** The elements one after the other. *)
Lemma unpack_elements ws n l : widths_ok ws → 0 ≤ n → n * widths_sum ws ≤ zlen l →
  ∃ s, foldM (λ s i, unpack_words (words_of (concat (replicate (Z.to_nat n) ws)) l) (8 * zlen ws * i) ws s) (NewWriter, []) (seqZ 0 n) = Ok s ∧
    put (NewWriter (W := W), []) s (take (Z.to_nat (n * widths_sum ws)) l).
Proof.
  intros Hws Hn Hl. set (r := words_of _ l). pose proof (widths_sum_nonneg ws Hws) as Hs0.
  destruct (foldM_seqZ (λ s i, unpack_words r (8 * zlen ws * i) ws s)
    (λ i s, put (NewWriter (W := W), []) s (take (Z.to_nat (i * widths_sum ws)) l)) 0 n (NewWriter, [])) as (s & E & Hs); [done| | |by exists s].
  - split; [apply pending_new|]. exists []. by rewrite !app_nil_r.
  - intros i s Hi Hs. destruct (repeat_widths_ok ws (Z.to_nat i) Hws) as (Hok & Hsum & Hlen). rewrite Z2Nat.id in Hsum, Hlen by lia.
    assert (r = words_of (concat (replicate (Z.to_nat i) ws)) l ++ words_of ws (drop (Z.to_nat (i * widths_sum ws)) l) ++
      words_of (concat (replicate (Z.to_nat (n - i - 1)) ws)) (drop (Z.to_nat (widths_sum ws)) (drop (Z.to_nat (i * widths_sum ws)) l))) as Er.
    { unfold r. replace (Z.to_nat n) with (Z.to_nat i + S (Z.to_nat (n - i - 1)))%nat by lia.
      by rewrite replicate_add, concat_app, words_of_app, Hsum, replicate_S; cbn [concat]; [rewrite words_of_app by done|done]. }
    destruct (unpack_words_spec r _ _ ws _ s Hws Er) as (s' & Es' & Hs').
    { unfold zlen in *. rewrite length_drop. nia. }
    { apply Hs. }
    exists s'. rewrite words_of_length, Hlen in Es'. replace (8 * zlen ws * i) with (8 * (i * zlen ws)) by lia. split; [done|].
    pose proof (put_trans _ _ _ _ _ Hs Hs') as Hp. rewrite take_take_drop in Hp.
    replace (Z.to_nat ((i + 1) * widths_sum ws)) with (Z.to_nat (i * widths_sum ws) + Z.to_nat (widths_sum ws))%nat; [done|].
    rewrite <-Z2Nat.inj_add by nia. f_equal. lia.
Qed.

(** [UnpackAlign] on the words of [n] elements: their bits, to a whole byte. *)
Lemma UnpackAlign_words ps n l nt : good_size ps → 0 ≤ n → n * ps ≤ zlen l →
  ∃ out k, Forall is_byte out ∧ bytes_bits out = take (Z.to_nat (n * ps)) l ++ replicate k false ∧ (k < 8)%nat ∧
    UnpackAlign (W := W) (words_of (all_widths ps n) l) ps nt =
      if nt : bool then Ok (out, None)
      else
        outLen ← terminal (length out) out; b ← idx out outLen;
        if decide (b ≠ 255) then Ok ([], Some "invalid terminal symbol"%string) else Ok (take (Z.to_nat outLen) out, None).
Proof.
  intros Hg Hn Hl. destruct (good_size_words ps Hg) as (m & Hm & Eps & HL & Eb & Ew & Eq). destruct (word_widths_ok ps Hg) as [Hwok Hsum].
  set (r := words_of (all_widths ps n) l).
  assert (zlen r = n * (8 * (m + 1))) as Hr by (unfold r; rewrite words_of_length, (all_widths_length ps n m); [lia|done..]).
  destruct (unpack_elements (word_widths ps) n l Hwok Hn) as (s & Efold & Hput); [by rewrite Hsum|].
  rewrite Hsum in Hput. fold (all_widths ps n) in Efold. fold r in Efold.
  assert (zlen (word_widths ps) = m + 1) as Ewl by (rewrite Ew; unfold zlen; cbn [length]; rewrite length_replicate; lia). rewrite Ewl in Efold.
  destruct Hput as (He & bs & Es & Hbs & P). destruct s as [w out0]. simpl in He, Es, P. subst out0.
  destruct (Close_spec w) as (w' & bs' & k & Ec & Pc & Hk & Hbs' & _ & _).
  exists (bs ++ bs'), k. split_and!; [by apply Forall_app| |done|].
  - rewrite bytes_bits_app, Pc, (assoc_L (++)), P. destruct pending_new as [-> _]. done.
  - unfold UnpackAlign. fold r. rewrite Eq, Eb, Hr. unfold go_quot. rewrite decide_False by lia. cbn [mbind res_bind].
    rewrite Z.quot_mul by lia. rewrite decide_False by (intros Hne; apply Hne; done). rewrite <-Ew, Efold. cbn [mbind res_bind].
    rewrite He, Ec. by destruct nt.
Qed.

(** ** [PackAlign] *)

(** The bytes that are packed: the input, the additional input, the terminal
    symbol and zeros. *)
Definition packed_bytes (a : list Z) (s : packAlignSettings) : list Z := a ++ concat (additionalInput s).

Lemma foldl_zlen n (ls : list (list Z)) : foldl (λ n data, n + zlen data) n ls = n + zlen (concat ls).
Proof. revert n. induction ls as [|l ls IH]; intros n; cbn [foldl concat]; [unfold zlen; simpl; lia|]. rewrite IH, zlen_app. lia. Qed.

Lemma initialize_spec n opts : let s := initialize n opts in
  dataNbBits s = (n + zlen (concat (additionalInput s)) + (if noTerminalSymbol s then 0 else 1)) * 8 - lastByteNbUnusedBits s.
Proof. unfold initialize. simpl. rewrite foldl_zlen. destruct (noTerminalSymbol _); lia. Qed.

Lemma rem_Ok v n : n ≠ 0 → go_rem v n = Ok (Z.rem v n).
Proof. intros. unfold go_rem. by rewrite decide_False. Qed.

(** [PackAlignSize] is the size of a whole number of elements. *)
Lemma PackAlignSize_spec n ps opts : 0 < ps → 0 ≤ dataNbBits (initialize n opts) →
  PackAlignSize n ps opts = Ok ((dataNbBits (initialize n opts) + (ps - 1)) / ps * Z.quot (ps + 7) 8).
Proof.
  intros Hp Hd. unfold PackAlignSize. set (d := dataNbBits _) in *. rewrite rem_Ok by lia. cbn [mbind res_bind].
  rewrite rem_Ok by lia. cbn [mbind res_bind]. rewrite quot_Ok by lia. cbn [mbind res_bind]. do 2 f_equal. rewrite (Z.rem_mod_nonneg d) by lia. pose proof (Z.mod_pos_bound d ps). pose proof (Z.div_mod d ps).
  rewrite Z.rem_mod_nonneg by lia. rewrite Z.quot_div_nonneg by (pose proof (Z.mod_pos_bound (ps - d mod ps) ps); lia).
  destruct (decide (d mod ps = 0)) as [E|E].
  - rewrite E, Z.sub_0_r, Z_mod_same_full, Z.add_0_r. rewrite (Z.div_unique (d + (ps - 1)) ps (d / ps) (ps - 1)); lia.
  - rewrite (Z.mod_small (ps - d mod ps)) by lia.
    rewrite <-(Z.div_unique (d + (ps - d mod ps)) ps (d / ps + 1) 0) by lia.
    rewrite <-(Z.div_unique (d + (ps - 1)) ps (d / ps + 1) (d mod ps - 1)) by lia. done.
Qed.

(** The options the code supports: up to seven unused bits, and none with the
    terminal symbol. *)
Record settings_ok (a : list Z) (s : packAlignSettings) : Prop := {
  ok_input : Forall is_byte a ∧ Forall (Forall is_byte) (additionalInput s);
  ok_unused : 0 ≤ lastByteNbUnusedBits s ≤ 7;
  ok_terminal : noTerminalSymbol s = true ∨ lastByteNbUnusedBits s = 0;
  ok_nonempty : lastByteNbUnusedBits s = 0 ∨ packed_bytes a s ≠ [] }.

Definition padding_of (s : packAlignSettings) (z : nat) : list Z := (if noTerminalSymbol s then 0 else 255) :: replicate z 0.

Lemma PackAlign_spec a ps opts (s := initialize (zlen a) opts) : good_size ps → settings_ok a s →
  ∃ n z, 0 ≤ n ∧ dataNbBits s ≤ n * ps < dataNbBits s + ps ∧ Z.of_nat z = (n * ps - dataNbBits s + 7) / 8 ∧
    let bits := bytes_bits (packed_bytes a s ++ padding_of s z) in
    n * ps ≤ zlen bits ∧
    PackAlign (R := R) a ps opts = Ok (words_of (all_widths ps n) bits, zlen (words_of (all_widths ps n) bits), None).
Proof.
  intros Hg [Hin Hun Hterm Hne]. destruct (good_size_words ps Hg) as (m & Hm & Eps & HL & Eb & Ew & _). pose proof Hg as [Hps _].
  pose proof (initialize_spec (zlen a) opts : dataNbBits s = _) as Ed. fold s in Ed.
  set (t := if noTerminalSymbol s then 0 else 1) in Ed. assert (0 ≤ t ≤ 1) as Ht by (unfold t; destruct (noTerminalSymbol s); lia).
  assert (zlen (packed_bytes a s) = zlen a + zlen (concat (additionalInput s))) as Epl by apply zlen_app.
  assert (0 ≤ dataNbBits s) as Hd0.
  { pose proof (zlen_nonneg (packed_bytes a s)) as Hp0. destruct Hne as [Hne|Hne]; [lia|].
    assert (1 ≤ zlen (packed_bytes a s)) by (destruct (packed_bytes a s); [done|unfold zlen; simpl; lia]). lia. }
  set (n := (dataNbBits s + (ps - 1)) / ps).
  assert (0 ≤ n ∧ dataNbBits s ≤ n * ps < dataNbBits s + ps) as [Hn Hnp].
  { unfold n. pose proof (Z.div_mod (dataNbBits s + (ps - 1)) ps). pose proof (Z.mod_pos_bound (dataNbBits s + (ps - 1)) ps).
    pose proof (Z.div_pos (dataNbBits s + (ps - 1)) ps). lia. }
  set (bp := (n * ps - dataNbBits s + 7) / 8).
  assert (0 ≤ bp ∧ n * ps - dataNbBits s ≤ 8 * bp ∧ bp ≤ 8 * (m + 1)) as (Hbp0 & Hbp & Hbp2).
  { unfold bp. pose proof (Z.div_mod (n * ps - dataNbBits s + 7) 8). pose proof (Z.mod_pos_bound (n * ps - dataNbBits s + 7) 8). lia. }
  exists n, (Z.to_nat bp). rewrite Z2Nat.id by done. split_and!; [done|lia|lia|done|].
  set (pad := padding_of s (Z.to_nat bp)). set (bits := bytes_bits (packed_bytes a s ++ pad)). cbv zeta.
  assert (zlen bits = 8 * (zlen (packed_bytes a s) + 1 + bp)) as Hbits.
  { unfold bits, zlen. rewrite bytes_bits_length, length_app. unfold pad, padding_of. simpl length. rewrite length_replicate. lia. }
  assert (n * ps ≤ zlen bits) as Hfit by lia. split; [done|].
  assert (Forall is_byte (packed_bytes a s ++ pad)) as Hbytes.
  { apply Forall_app. split; [apply Forall_app; split; [apply Hin|apply Forall_concat, Hin]|].
    unfold pad, padding_of. constructor; [by destruct (noTerminalSymbol s)|by apply Forall_replicate]. }
  destruct (rest_new (R := R) _ Hbytes) as [Er He]. fold bits in Er.
  destruct (all_widths_ok ps n Hg Hn) as [Hok Hsum].
  destruct (pack_words_spec (all_widths ps n) (NewReader (packed_bytes a s ++ pad)) [] Hok He) as (r' & Ep & He' & _); [by rewrite Er, Hsum|].
  rewrite Er in Ep. unfold PackAlign. fold s.
  assert (negb (noTerminalSymbol s) && negb (lastByteNbUnusedBits s =? 0) = false) as ->.
  { destruct Hterm as [-> | ->]; [done|]. by rewrite andb_false_r. }
  rewrite quot_Ok by lia. cbn [mbind res_bind]. rewrite (Z.quot_div_nonneg _ ps) by lia. fold n.
  rewrite Eb, (Z.quot_div_nonneg _ 8) by lia. fold bp.
  assert (slice ((if noTerminalSymbol s then [0] else [255]) ++ replicate (Z.to_nat (8 * (m + 1))) 0) 0 (bp + 1) = Ok pad) as ->.
  { rewrite slice_Ok; [|lia|destruct (noTerminalSymbol s); rewrite zlen_app, zlen_replicate by lia; unfold zlen; simpl; lia].
    rewrite drop_0, Z.sub_0_r. replace (Z.to_nat (bp + 1)) with (S (Z.to_nat bp)) by lia. unfold pad, padding_of.
    destruct (noTerminalSymbol s); cbn [app take]; rewrite take_replicate; do 3 f_equal; lia. }
  cbn [mbind res_bind]. rewrite quot_Ok by lia. cbn [mbind res_bind]. rewrite Z.quot_mul by lia.
  unfold packed_bytes in Ep. rewrite <-(assoc_L (++)) in Ep. rewrite pack_iter. fold (all_widths ps n). rewrite Ep, He'.
  rewrite PackAlignSize_spec by done. cbn [mbind res_bind]. fold s n. rewrite Eb, decide_False by (intros Hx; apply Hx; done).
  cbn [app]. rewrite words_of_length, (all_widths_length ps n m) by done. do 3 f_equal. lia.
Qed.

(** ** The round trip *)

Lemma bytes_bits_zeros z : bytes_bits (replicate z 0) = replicate (8 * z) false.
Proof.
  induction z as [|z IH]; [done|]. cbn [replicate]. rewrite bytes_bits_cons, IH, to_bits_0, <-replicate_add. f_equal. lia.
Qed.

Lemma terminal_spec (l : list Z) z b : b ≠ 0 →
  terminal (length (l ++ b :: replicate z 0)) (l ++ b :: replicate z 0) = Ok (zlen l).
Proof.
  intros Hb. rewrite length_app. cbn [length]. rewrite length_replicate.
  cut (∀ k, (k ≤ z)%nat → terminal (length l + S k) (l ++ b :: replicate z 0) = Ok (zlen l)); [intros Hc; by apply Hc|].
  induction k as [|k IH]; intros Hk; rewrite Nat.add_succ_r; cbn [terminal].
  - rewrite (idx_nat _ _ b); [|lia|by rewrite Nat2Z.id, Nat.add_0_r, lookup_app_r, Nat.sub_diag by lia].
    cbn [mbind res_bind]. rewrite (proj2 (Z.eqb_neq b 0)) by done. unfold zlen. do 2 f_equal. lia.
  - rewrite (idx_nat _ _ 0); [cbn [mbind res_bind]; apply IH; lia|lia|].
    rewrite Nat2Z.id, lookup_app_r by lia. replace (length l + S k - length l)%nat with (S k) by lia. cbn.
    apply lookup_replicate. split; [done|lia].
Qed.

(** What is packed with the terminal symbol is unpacked. *)
Lemma PackAlign_unpack a ps opts (s := initialize (zlen a) opts) :
  good_size ps → settings_ok a s → noTerminalSymbol s = false →
  ∃ n z, let bits := bytes_bits (packed_bytes a s ++ padding_of s z) in let out := words_of (all_widths ps n) bits in
    0 ≤ n ∧ n * ps ≤ zlen bits ∧ 8 * zlen (packed_bytes a s) < n * ps ∧ PackAlign (R := R) a ps opts = Ok (out, zlen out, None) ∧
    PackAlignSize (zlen a) ps opts = Ok (zlen out) ∧ UnpackAlign (W := W) out ps false = Ok (packed_bytes a s, None).
Proof.
  intros Hg Hs Ht. destruct (PackAlign_spec a ps opts Hg Hs) as (n & z & Hn & Hnp & Hz & Hfit & Epack). fold s in Hnp, Hz, Hfit, Epack.
  set (bits := bytes_bits _) in *. set (out := words_of _ _) in *. pose proof Hg as [Hps _]. exists n, z. cbv zeta. fold bits out.
  destruct (good_size_words ps Hg) as (m & Hm & Eps & HL & Eb & Ew & _).
  pose proof (initialize_spec (zlen a) opts : dataNbBits s = _) as Ed. fold s in Ed. rewrite Ht in Ed.
  assert (zlen (packed_bytes a s) = zlen a + zlen (concat (additionalInput s))) as Epl by apply zlen_app.
  pose proof (zlen_nonneg (packed_bytes a s)) as Hp0. destruct Hs as [Hin Hun [?|Hu] _]; [congruence|].
  assert (zlen out = n * (8 * (m + 1))) as Hlen by (unfold out; rewrite words_of_length, (all_widths_length ps n m); [lia|done..]).
  split_and!; [done|done|lia|done| |].
  - rewrite PackAlignSize_spec by (done || (fold s; lia)). fold s. rewrite Eb, Hlen.
    rewrite <-(Z.div_unique (dataNbBits s + (ps - 1)) ps n (dataNbBits s + (ps - 1) - ps * n)); [done|lia|lia].
  - destruct (UnpackAlign_words ps n bits false Hg Hn Hfit) as (o & k & Ho & Eo & Hk & Eun).
    fold out in Eun. rewrite Eun.
    assert (∃ y, o = packed_bytes a s ++ 255 :: replicate y 0) as [y ->].
    { set (e := n * ps - dataNbBits s) in *.
      assert (Z.to_nat (n * ps) = (8 * (length (packed_bytes a s) + 1) + Z.to_nat e)%nat) as En by (unfold zlen in *; lia).
      assert (take (Z.to_nat (n * ps)) bits = bytes_bits (packed_bytes a s ++ [255]) ++ replicate (Z.to_nat e) false) as Etake.
      { unfold bits, padding_of. rewrite Ht, cons_middle, (assoc_L (++)), (bytes_bits_app _ (replicate z 0)), bytes_bits_zeros, take_app.
        rewrite take_ge by (rewrite bytes_bits_length, length_app; simpl; lia). f_equal.
        rewrite take_replicate, bytes_bits_length, length_app. f_equal. simpl.
        pose proof (Z.div_mod (e + 7) 8). pose proof (Z.mod_pos_bound (e + 7) 8). unfold zlen in *. lia. }
      rewrite Etake, <-(assoc_L (++)), <-replicate_add in Eo.
      pose proof (f_equal length Eo) as El. rewrite length_app, !bytes_bits_length, length_replicate in El.
      exists (length o - length (packed_bytes a s ++ [255%Z]))%nat. rewrite cons_middle, (assoc_L (++)).
      apply bytes_bits_inj; [done| |].
      - apply Forall_app. split; [|by apply Forall_replicate]. apply Forall_app.
        split; [apply Forall_app; split; [apply Hin|apply Forall_concat, Hin]|by repeat constructor].
      - rewrite bytes_bits_app, bytes_bits_zeros, Eo. f_equal. f_equal. lia. }
    rewrite terminal_spec by done. cbn [mbind res_bind]. pose proof (zlen_nonneg (packed_bytes a s)).
    rewrite (idx_nat _ _ 255); [|done|unfold zlen; by rewrite Nat2Z.id, lookup_app_r, Nat.sub_diag by lia].
    cbn [mbind res_bind]. rewrite decide_False by (intros Hx; by apply Hx). unfold zlen. by rewrite Nat2Z.id, take_app_length.
Qed.
End pack.

(** * Theorems on packing *)

Section theorems.
Context `{BitWriterSpec W, BitReaderSpec R}.

Lemma words_of_bound ws l : widths_ok ws → 0 ≤ be_val (words_of ws l) ∧
  be_val (words_of ws l) < 2 ^ match ws with [] => 0 | n :: ws' => n + 64 * zlen ws' end.
Proof.
  intros Hws. pose proof (be_val_bound _ (words_of_bytes ws l)) as Hb. split; [lia|].
  destruct Hws as [|n ws Hn Hws]; [exact (proj2 Hb)|]. cbn [words_of]. rewrite be_val_app, be_val_bytes, words_of_length.
  pose proof (of_bits_bound (take (Z.to_nat n) l)) as Ho. pose proof (be_val_bound _ (words_of_bytes ws (drop (Z.to_nat n) l))) as Hr.
  rewrite words_of_length in Hr. rewrite Z.mod_small.
  2:{ split; [lia|]. eapply Z.lt_le_trans; [apply Ho|]. rewrite length_take. change (256 ^ Z.of_nat 8) with (2 ^ 64).
      apply Z.pow_le_mono_r; lia. }
  assert (of_bits (take (Z.to_nat n) l) < 2 ^ n) as Ho'.
  { eapply Z.lt_le_trans; [apply Ho|]. apply Z.pow_le_mono_r; rewrite ?length_take; lia. }
  pose proof (zlen_nonneg ws). replace (256 ^ (8 * zlen ws)) with (2 ^ (64 * zlen ws)) in *.
  2:{ replace (64 * zlen ws) with (8 * (8 * zlen ws)) by lia. by rewrite (Z.pow_mul_r 2 8) by lia. }
  rewrite Z.pow_add_r by lia. nia.
Qed.


Lemma words_of_zeros ws k : widths_ok ws → words_of ws (replicate k false) = replicate (8 * length ws) 0.
Proof.
  intros Hws. revert k. induction Hws as [|n ws Hn Hws IH]; intros k; [done|]. cbn [words_of].
  rewrite take_replicate, drop_replicate, IH, <-to_bits_0, of_bits_to_bits, Zmod_0_l.
  change (be_bytes 8 0) with (replicate 8 0). rewrite <-replicate_add. f_equal. simpl. lia.
Qed.

Lemma terminal_zeros k z : terminal k (replicate z 0) = Panic.
Proof.
  induction k as [|k IH]; [done|]. cbn [terminal]. unfold idx. rewrite decide_True, Nat2Z.id by lia.
  destruct (replicate z 0 !! k) as [b|] eqn:E; [|done]. apply lookup_replicate in E as [-> _]. simpl. exact IH.
Qed.

(** [UnpackAlign] panics on zeros: given any number of elements that are all
    zero, the search for the terminal symbol runs below index 0 instead of
    reporting an invalid terminal symbol. *)
Theorem UnpackAlign_zeros_panic ps n : good_size ps → 0 ≤ n →
  UnpackAlign (W := W) (replicate (Z.to_nat (n * Z.quot (ps + 7) 8)) 0) ps false = Panic.
Proof.
  intros Hg Hn. pose proof Hg as [Hps _]. destruct (good_size_words ps Hg) as (m & Hm & _ & _ & Eb & Ew & _).
  destruct (all_widths_ok ps n Hg Hn) as [Hok _]. pose proof (all_widths_length ps n m Hn Ew Hm) as Hl.
  set (l := replicate (Z.to_nat (n * ps)) false).
  assert (replicate (Z.to_nat (n * Z.quot (ps + 7) 8)) 0 = words_of (all_widths ps n) l) as ->.
  { unfold l. rewrite words_of_zeros, Eb by done. f_equal. unfold zlen in Hl. lia. }
  destruct (UnpackAlign_words (W := W) ps n l false Hg Hn) as (out & k & Hout & Eo & _ & ->).
  { unfold l, zlen. rewrite length_replicate. nia. }
  assert (out = replicate (length out) 0) as ->; [|by rewrite terminal_zeros].
  apply bytes_bits_inj; [done|by apply Forall_replicate|]. unfold l in Eo. rewrite take_replicate, <-replicate_add in Eo. rewrite bytes_bits_zeros, Eo. f_equal.
  apply (f_equal length) in Eo. rewrite bytes_bits_length, length_replicate in Eo. lia.
Qed.

(** [PackData] keeps the bits: data packed in [n] elements of [ps] bits, a size
    that is not a whole number of bytes, is re-packed into 252-bit elements that
    hold the same bits in the same order, followed by zeros. The bits are rounded up
    to whole bytes first, so there are as many elements as those bytes need: 126
    elements of 254 bits, which 127 elements of 252 bits hold exactly, take 128. *)
Theorem PackData_keeps_bits ps n l : good_size ps → Z.rem ps 8 ≠ 0 → 0 ≤ n → n * ps ≤ zlen l →
  let n' := (8 * ((n * ps + 7) / 8) + 251) / 252 in
  ∃ k, let bits := take (Z.to_nat (n * ps)) l ++ replicate k false in
    n' * 252 ≤ zlen bits ∧
    PackData (W := W) (R := R) (words_of (all_widths ps n) l) ps [NoTerminalSymbol] = Ok (words_of (all_widths 252 n') bits, None).
Proof.
  intros Hg Hr Hn Hl. pose proof Hg as [Hps _]. destruct (good_size_words ps Hg) as (m & Hm & _ & _ & Eb & Ew & _).
  destruct (UnpackAlign_words (W := W) ps n l true Hg Hn Hl) as (data & k & Hdata & Ed & Hk & Eun).
  assert (zlen (words_of (all_widths ps n) l) = n * (8 * (m + 1))) as Hlen.
  { rewrite words_of_length, (all_widths_length ps n m); [lia|done..]. }
  assert (zlen data = (n * ps + 7) / 8) as Hdl.
  { apply (f_equal length) in Ed. rewrite bytes_bits_length, length_app, length_take, length_replicate in Ed.
    apply (Z.div_unique _ _ _ (7 - Z.of_nat k)); unfold zlen in *; nia. }
  set (opts := [NoTerminalSymbol; WithLastByteNbUnusedBits 0]). rewrite <-Hdl.
  assert (good_size 252) as Hg252 by (split; [lia|by vm_compute]).
  assert (initialize (zlen data) opts = {| dataNbBits := 8 * zlen data; lastByteNbUnusedBits := 0; noTerminalSymbol := true; additionalInput := [] |}) as Einit.
  { unfold initialize. simpl. f_equal. lia. }
  destruct (PackAlign_spec (R := R) data 252 opts Hg252) as (n' & z & Hn' & Hnp & _ & Hfit & Epack).
  { rewrite Einit. split; simpl; [by split|lia|by left|by left]. }
  rewrite Einit in Hnp, Hfit, Epack. unfold packed_bytes, padding_of in Hfit, Epack.
  cbn [dataNbBits noTerminalSymbol additionalInput concat] in Hnp, Hfit, Epack.
  rewrite app_nil_r, bytes_bits_app, Ed in Hfit, Epack. change (0 :: replicate z 0) with (replicate (S z) 0) in Hfit, Epack.
  rewrite bytes_bits_zeros, <-(assoc_L (++)), <-replicate_add in Hfit, Epack.
  replace ((8 * zlen data + 251) / 252) with n' by (apply (Z.div_unique _ _ _ (8 * zlen data + 251 - 252 * n')); lia).
  exists (k + 8 * S z)%nat. cbv zeta. split; [done|].
  unfold PackData. rewrite decide_True by done. rewrite Eb, quot_Ok, Hlen by lia. cbn [mbind res_bind]. rewrite Eun. cbn [mbind res_bind].
  replace (n * (8 * (m + 1)) * 8) with (n * 8 * (8 * (m + 1))) by lia. rewrite Z.quot_mul by lia.
  replace (n * 8 * ps) with (n * ps * 8) by lia. rewrite Z.rem_mul, decide_True by lia.
  change (newLastByteNbUnusedBits (0 mod 256)) with (Ok (WithLastByteNbUnusedBits 0)). cbn [mbind res_bind].
  change ([NoTerminalSymbol] ++ [WithLastByteNbUnusedBits 0]) with opts. change (frBits - 1) with 252. by rewrite Epack.
Qed.

End theorems.

(** ** Witnesses *)

Section witnesses.
Import ListBits.

Definition pack_input : list Z := [1; 2; 3; 255; 0; 0].
Definition pack_options : list packAlignOption := [WithAdditionalInput [[7; 8]; [0; 0; 0]]].


Lemma UnpackAlign_zeros_panic_witness : UnpackAlign (W := cache) (replicate (Z.to_nat (3 * Z.quot (252 + 7) 8)) 0) 252 false = Panic.
Proof. apply (UnpackAlign_zeros_panic (W := cache) 252 3); [split; [lia|by vm_compute]|lia]. Defined.

Definition pack_bits : list bool := concat (replicate 254 [true; false]).

Lemma PackData_keeps_bits_witness :
  ∃ k, let bits := take (Z.to_nat (2 * 254)) pack_bits ++ replicate k false in
    3 * 252 ≤ zlen bits ∧
    PackData (W := cache) (R := list bool * gerr) (words_of (all_widths 254 2) pack_bits) 254 [NoTerminalSymbol] =
      Ok (words_of (all_widths 252 3) bits, None).
Proof.
  apply (PackData_keeps_bits (W := cache) (R := list bool * gerr) 254 2 pack_bits);
    [split; [lia|by vm_compute]|by vm_compute|lia|by vm_compute].
Defined.

End witnesses.
