(* ===== verification/Rlp.v ===== *)
(** * RLP and byte readers

    The two things the block encodings read with. [Reader] is Go's [bytes.Reader]:
    a byte string and a position, which [Seek] may move anywhere. [Rlp] is
    [github.com/ethereum/go-ethereum/rlp], third-party code: the encoding of a tree
    of byte strings and the decoder of one value from a stream, with their
    documented behaviour in [RlpLaws]; [PlainRlp] is an executable codec that has
    it. *)

From S2P Require Export Bits.

(** ** [bytes.Reader] *)

Record Reader := { rd_data : list Z; rd_pos : Z }.

Definition NewBytesReader (b : list Z) : Reader := {| rd_data := b; rd_pos := 0 |}.

Definition rd_set (r : Reader) (p : Z) : Reader := {| rd_data := rd_data r; rd_pos := p |}.

Lemma rd_set_set r p q : rd_set (rd_set r p) q = rd_set r q.
Proof. done. Qed.

(** [r.Len()]: the bytes left; [r.Size()]: all of them. *)
Definition rd_Len (r : Reader) : Z := if decide (zlen (rd_data r) ≤ rd_pos r) then 0 else zlen (rd_data r) - rd_pos r.
Definition rd_Size (r : Reader) : Z := zlen (rd_data r).

(** The bytes left, as a list. *)
Definition rd_left (r : Reader) : list Z := drop (Z.to_nat (rd_pos r)) (rd_data r).

(** [r.Read(buf)] with a buffer of [n] bytes. *)
Definition rd_Read (n : nat) (r : Reader) : (list Z * gerr) * Reader :=
  if decide (zlen (rd_data r) ≤ rd_pos r) then (([], Some "EOF"%string), r)
  else
    let b := take n (rd_left r) in
    ((b, None), rd_set r (rd_pos r + zlen b)).

(** [io.ReadFull(r, buf)], which [binary.Read] uses. *)
#[global] Instance rd_ReadFull : IoReader Reader := λ n r,
  if decide (n = 0%nat) then (([], None), r)
  else
    let '((b, err), r) := rd_Read n r in
    if decide (length b = n) then ((b, None), r)
    else ((b, Some (if decide (b = []) then "EOF" else "unexpected EOF")%string), r).

Definition rd_ReadByte (r : Reader) : (Z * gerr) * Reader :=
  if decide (zlen (rd_data r) ≤ rd_pos r) then ((0, Some "EOF"%string), r)
  else match rd_left r with
       | b :: _ => ((b, None), rd_set r (rd_pos r + 1))
       | [] => ((0, Some "EOF"%string), r)
       end.

Definition rd_UnreadByte (r : Reader) : gerr * Reader :=
  if decide (rd_pos r ≤ 0) then (Some "bytes.Reader.UnreadByte: at beginning of slice"%string, r)
  else (None, rd_set r (rd_pos r - 1)).

(** [r.Seek(offset, io.SeekCurrent)]: any position that is not negative. *)
Definition rd_Seek (offset : Z) (r : Reader) : gerr * Reader :=
  let abs := int64 (rd_pos r + offset) in
  if decide (abs < 0) then (Some "bytes.Reader.Seek: negative position"%string, r)
  else (None, rd_set r abs).

(** A reader in front of [l]. *)
Definition at_bytes (r : Reader) (l : list Z) : Prop := 0 ≤ rd_pos r ≤ zlen (rd_data r) ∧ rd_left r = l.

Lemma at_bytes_new b : at_bytes (NewBytesReader b) b.
Proof. split; [simpl; pose proof (zlen_nonneg b); lia|done]. Qed.

(** Moving over a prefix of what is left. *)
Lemma at_bytes_skip r p l : at_bytes r (p ++ l) → at_bytes (rd_set r (rd_pos r + zlen p)) l.
Proof.
  intros [Hp Hl]. unfold rd_left in *. assert (length (rd_data r) = Z.to_nat (rd_pos r) + length (p ++ l))%nat as Hlen.
  { rewrite <-Hl, length_drop. unfold zlen in Hp. lia. }
  rewrite length_app in Hlen. split; simpl; [unfold zlen in *; lia|].
  unfold rd_left. simpl. replace (Z.to_nat (rd_pos r + zlen p)) with (Z.to_nat (rd_pos r) + length p)%nat by (unfold zlen; lia).
  by rewrite <-drop_drop, Hl, drop_app_length.
Qed.

Lemma at_bytes_Len r l : at_bytes r l → rd_Len r = zlen l ∧ rd_Size r = rd_pos r + zlen l.
Proof.
  intros [Hp Hl]. unfold rd_Len, rd_Size. assert (zlen l = zlen (rd_data r) - rd_pos r) as ->.
  { rewrite <-Hl. unfold rd_left, zlen in *. rewrite length_drop. lia. }
  case_decide; lia.
Qed.

Lemma at_bytes_nonempty r b l : at_bytes r (b :: l) → rd_pos r < zlen (rd_data r).
Proof. intros [Hp Hl]. apply (f_equal length) in Hl. unfold rd_left in Hl. rewrite length_drop in Hl. unfold zlen. simpl in Hl. lia. Qed.

Lemma rd_Read_at r p l n : length p = n → (0 < n)%nat → at_bytes r (p ++ l) →
  rd_Read n r = ((p, None), rd_set r (rd_pos r + zlen p)).
Proof.
  intros <- Hn Hr. destruct p as [|b p]; [simpl in Hn; lia|]. pose proof (at_bytes_nonempty r b (p ++ l) Hr).
  unfold rd_Read. rewrite decide_False by lia. destruct Hr as [_ ->]. by rewrite take_app_length.
Qed.

Lemma rd_ReadFull_at r p l n : length p = n → (0 < n)%nat → at_bytes r (p ++ l) →
  ReadFull n r = ((p, None), rd_set r (rd_pos r + zlen p)).
Proof.
  intros Hn H0 Hr. unfold ReadFull, rd_ReadFull. rewrite decide_False by lia.
  rewrite (rd_Read_at r p l n) by done. by rewrite decide_True.
Qed.

Lemma rd_ReadByte_at r b l : at_bytes r (b :: l) → rd_ReadByte r = ((b, None), rd_set r (rd_pos r + 1)).
Proof.
  intros Hr. pose proof (at_bytes_nonempty r b l Hr). unfold rd_ReadByte. rewrite decide_False by lia. by destruct Hr as [_ ->].
Qed.

Lemma rd_Seek_at r p l : zlen (rd_data r) < 2 ^ 62 → at_bytes r (p ++ l) →
  rd_Seek (zlen p) r = (None, rd_set r (rd_pos r + zlen p)).
Proof.
  intros Hs Hr. pose proof (at_bytes_skip r p l Hr) as [Hp _]. simpl in Hp. unfold rd_Seek.
  rewrite int64_id by (unfold in_int64; lia). by rewrite decide_False by lia.
Qed.

(** ** RLP *)

Inductive item :=
| IBytes (l : list Z)
| IList (l : list item).

(** The big-endian bytes of a number, without leading zeros. *)
Definition be_min (n : Z) : list Z := if decide (n ≤ 0) then [] else be_bytes (Z.to_nat (Z.log2 n / 8 + 1)) n.

(** The header of a list whose payload has [n] bytes. *)
Definition list_header (n : Z) : list Z :=
  if decide (n ≤ 55) then [0xc0 + n] else (0xf7 + zlen (be_min n)) :: be_min n.

Inductive item_ok : item → Prop :=
| bytes_ok l : Forall is_byte l → item_ok (IBytes l)
| list_ok l : Forall item_ok l → item_ok (IList l).

(** [rlp.Encode], and [rlp.Decode] on the bytes left in a reader: the value and
    how many bytes it took. *)
Class Rlp := {
  rlp_Encode : item → list Z;
  rlp_Decode : list Z → option (item * Z) }.

Class RlpLaws `{Rlp} : Prop := {
  rlp_bytes x : item_ok x → zlen (rlp_Encode x) < 2 ^ 62 → Forall is_byte (rlp_Encode x);
  rlp_list l : rlp_Encode (IList l) = list_header (zlen (concat (rlp_Encode <$> l))) ++ concat (rlp_Encode <$> l);
  rlp_nonempty x : rlp_Encode x ≠ [];
  rlp_decode x r : item_ok x → zlen (rlp_Encode x) < 2 ^ 62 → rlp_Decode (rlp_Encode x ++ r) = Some (x, zlen (rlp_Encode x)) }.

Lemma be_min_val n : 0 ≤ n → be_val (be_min n) = n.
Proof.
  intros Hn. unfold be_min. case_decide as H0; [by replace n with 0 by lia|]. rewrite be_val_bytes. apply Z.mod_small. split; [done|].
  pose proof (Z.log2_nonneg n). pose proof (Z.div_pos (Z.log2 n) 8). rewrite Z2Nat.id by lia.
  change 256 with (2 ^ 8). rewrite <-Z.pow_mul_r by lia. eapply Z.lt_le_trans; [apply Z.log2_spec; lia|].
  apply Z.pow_le_mono_r; [lia|]. pose proof (Z.div_mod (Z.log2 n) 8). pose proof (Z.mod_pos_bound (Z.log2 n) 8). lia.
Qed.

Lemma be_min_bytes n : Forall is_byte (be_min n).
Proof. unfold be_min. case_decide; [done|]. apply be_bytes_is_byte. Qed.

Lemma be_min_length n k : 0 < n < 256 ^ k → 0 ≤ k → 1 ≤ zlen (be_min n) ≤ k.
Proof.
  intros Hn Hk. unfold be_min. rewrite decide_False by lia. unfold zlen. rewrite be_bytes_length.
  pose proof (Z.log2_nonneg n). pose proof (Z.div_pos (Z.log2 n) 8). rewrite Z2Nat.id by lia. split; [lia|].
  assert (Z.log2 n < 8 * k) as Hl.
  { apply Z.log2_lt_pow2; [lia|]. rewrite Z.pow_mul_r by lia. apply Hn. }
  pose proof (Z.div_lt_upper_bound (Z.log2 n) 8 k). lia.
Qed.

(** ** An executable codec *)

Module PlainRlp.

Definition bytes_header (n : Z) : list Z :=
  if decide (n ≤ 55) then [0x80 + n] else (0xb7 + zlen (be_min n)) :: be_min n.

Definition single (l : list Z) : bool := match l with [b] => (b <? 0x80) | _ => false end.

Fixpoint encode (x : item) : list Z :=
  match x with
  | IBytes l => if single l then l else bytes_header (zlen l) ++ l
  | IList l => let p := concat (encode <$> l) in list_header (zlen p) ++ p
  end.

(** The values of a payload. *)
Fixpoint items (dec : list Z → option (item * list Z)) (k : nat) (p : list Z) : option (list item) :=
  match p with
  | [] => Some []
  | _ => match k with
         | O => None
         | S k' => match dec p with
                   | None => None
                   | Some (x, r) => match items dec k' r with None => None | Some xs => Some (x :: xs) end
                   end
         end
  end.

(** The length announced by a header byte [b], in the long or the short form, and
    what follows. *)
Definition read_length (short long b : Z) (r : list Z) : Z * list Z :=
  if b <=? long then (b - short, r)
  else let k := Z.to_nat (b - long) in (be_val (take k r), drop k r).

Fixpoint decode (fuel : nat) (l : list Z) : option (item * list Z) :=
  match fuel, l with
  | S f, b :: r =>
      if b <? 0x80 then Some (IBytes [b], r)
      else if b <? 0xc0 then
        let '(n, r) := read_length 0x80 0xb7 b r in
        Some (IBytes (take (Z.to_nat n) r), drop (Z.to_nat n) r)
      else
        let '(n, r) := read_length 0xc0 0xf7 b r in
        match items (decode f) (S (Z.to_nat n)) (take (Z.to_nat n) r) with
        | None => None
        | Some xs => Some (IList xs, drop (Z.to_nat n) r)
        end
  | _, _ => None
  end.

#[global] Instance codec : Rlp := {
  rlp_Encode := encode;
  rlp_Decode l := match decode (length l) l with
                  | None => None
                  | Some (x, r) => Some (x, zlen l - zlen r)
                  end }.

(** Induction on trees. *)
Fixpoint item_ind' (P : item → Prop) (Hb : ∀ l, P (IBytes l)) (Hl : ∀ l, Forall P l → P (IList l)) (x : item) : P x :=
  match x with
  | IBytes l => Hb l
  | IList l => Hl l ((fix go l := match l return Forall P l with
                                  | [] => Forall_nil_2 P
                                  | x :: l' => Forall_cons_2 P x l' (item_ind' P Hb Hl x) (go l')
                                  end) l)
  end.

Lemma header_length n : 0 ≤ n → (1 ≤ length (list_header n))%nat ∧ (1 ≤ length (bytes_header n))%nat.
Proof. unfold list_header, bytes_header. case_decide; simpl; lia. Qed.

Lemma encode_nonempty x : (1 ≤ length (encode x))%nat.
Proof.
  destruct x as [l|l]; cbn [encode].
  - destruct (single l) eqn:E; [destruct l as [|? []]; try done; simpl; lia|]. rewrite length_app.
    pose proof (header_length (zlen l) (zlen_nonneg l)). lia.
  - rewrite length_app. pose proof (header_length (zlen (concat (encode <$> l))) (zlen_nonneg _)). lia.
Qed.

(** Reading a header back. *)
Lemma read_header short long n r : long = short + 55 → 0 ≤ n < 2 ^ 62 →
  ∃ b h, (if decide (n ≤ 55) then [short + n] else (long + zlen (be_min n)) :: be_min n) = b :: h ∧
    short ≤ b ≤ long + 8 ∧ read_length short long b (h ++ r) = (n, r).
Proof.
  intros -> Hn. unfold read_length. case_decide as H55.
  - eexists _, _. split; [done|]. split; [lia|]. rewrite (proj2 (Z.leb_le _ _)) by lia. simpl. f_equal. lia.
  - eexists _, _. split; [done|]. destruct (be_min_length n 8) as [H1 H8]; [lia|lia|]. split; [lia|].
    rewrite (proj2 (Z.leb_gt _ _)) by lia. replace (short + 55 + zlen (be_min n) - (short + 55)) with (zlen (be_min n)) by lia.
    unfold zlen. rewrite Nat2Z.id, take_app_length, drop_app_length, be_min_val by lia. done.
Qed.

Lemma items_spec dec l : ∀ k, (∀ x r, x ∈ l → dec (encode x ++ r) = Some (x, r)) → (length l ≤ k)%nat →
  items dec k (concat (encode <$> l)) = Some l.
Proof.
  induction l as [|x l IH]; intros k Hd Hk; [by destruct k|]. destruct k as [|k]; [simpl in Hk; lia|].
  rewrite fmap_cons. cbn [concat]. pose proof (encode_nonempty x) as Hne.
  destruct (encode x ++ concat (encode <$> l)) as [|b p] eqn:E.
  { apply (f_equal length) in E. rewrite length_app in E. simpl in E. lia. }
  cbn [items]. rewrite <-E, Hd by left. rewrite IH; [done| |simpl in Hk; lia]. intros y r Hy. apply Hd. by right.
Qed.

Lemma concat_length_ge l : (length l ≤ length (concat (encode <$> l)))%nat.
Proof.
  induction l as [|x l IH]; [done|]. rewrite fmap_cons. cbn [concat length]. rewrite length_app. pose proof (encode_nonempty x). lia.
Qed.

Lemma encode_elem x l : x ∈ l → (length (encode x) ≤ length (concat (encode <$> l)))%nat.
Proof.
  induction 1 as [x l|x y l _ IH]; rewrite fmap_cons; cbn [concat]; rewrite length_app; lia.
Qed.

Lemma encode_decode x : ∀ fuel r, zlen (encode x) < 2 ^ 62 → item_ok x → (length (encode x) ≤ fuel)%nat → decode fuel (encode x ++ r) = Some (x, r).
Proof.
  induction x as [l|l IH] using item_ind'; intros fuel r Hlen Hok Hf; pose proof (encode_nonempty (IBytes l)) as H1 || pose proof (encode_nonempty (IList l)) as H1.
  - inversion_clear Hok as [? Hb|]. destruct fuel as [|fuel]; [lia|]. cbn [encode] in *. destruct (single l) eqn:Es.
    + destruct l as [|b [|]]; try done. unfold single in Es. simpl app. cbn [decode]. by rewrite Es.
    + rewrite zlen_app in Hlen. destruct (read_header 0x80 0xb7 (zlen l) (l ++ r)) as (b & h & Eh & Hbr & Er); [done|pose proof (zlen_nonneg l); pose proof (zlen_nonneg (bytes_header (zlen l))); lia|].
      fold (bytes_header (zlen l)) in Eh. rewrite Eh. rewrite <-(assoc_L (++)). simpl app. cbn [decode].
      rewrite (proj2 (Z.ltb_ge _ _)) by lia. rewrite (proj2 (Z.ltb_lt _ _)) by lia. rewrite Er.
      unfold zlen. by rewrite Nat2Z.id, take_app_length, drop_app_length.
  - inversion_clear Hok as [|? Hb]. destruct fuel as [|fuel]; [lia|]. cbn [encode] in *. set (p := concat (encode <$> l)) in *.
    rewrite zlen_app in Hlen. rewrite length_app in Hf. pose proof (header_length (zlen p) (zlen_nonneg p)).
    destruct (read_header 0xc0 0xf7 (zlen p) (p ++ r)) as (b & h & Eh & Hbr & Er); [done|pose proof (zlen_nonneg p); pose proof (zlen_nonneg (list_header (zlen p))); lia|].
    fold (list_header (zlen p)) in Eh. rewrite Eh. rewrite <-(assoc_L (++)). simpl app. cbn [decode].
    rewrite !(proj2 (Z.ltb_ge _ _)) by lia. rewrite Er. unfold zlen at 1 2 3. rewrite Nat2Z.id, take_app_length, drop_app_length.
    unfold p at 2. rewrite items_spec; [done| |pose proof (concat_length_ge l); unfold p; lia].
    intros x s Hx. rewrite Forall_forall in IH, Hb. pose proof (encode_elem x l Hx). unfold p, zlen in *. apply IH; [done|lia|by apply Hb|lia].
Qed.

Lemma list_header_bytes n : 0 ≤ n < 2 ^ 62 → Forall is_byte (list_header n) ∧ Forall is_byte (bytes_header n).
Proof.
  intros Hn. unfold list_header, bytes_header. case_decide; [split; repeat constructor; unfold is_byte; lia|].
  pose proof (be_min_length n 8). pose proof (be_min_bytes n). split; constructor; try done; unfold is_byte; lia.
Qed.

Lemma encode_bytes x : item_ok x → zlen (encode x) < 2 ^ 62 → Forall is_byte (encode x).
Proof.
  induction x as [l|l IH] using item_ind'; intros Hok Hlen; cbn [encode] in *.
  - inversion_clear Hok as [? Hb|]. destruct (single l); [done|]. rewrite zlen_app in Hlen. apply Forall_app. split; [|done].
    apply list_header_bytes. pose proof (zlen_nonneg l). pose proof (zlen_nonneg (bytes_header (zlen l))). lia.
  - inversion_clear Hok as [|? Hb]. set (p := concat (encode <$> l)) in *. rewrite zlen_app in Hlen.
    pose proof (zlen_nonneg p). pose proof (zlen_nonneg (list_header (zlen p))). apply Forall_app. split; [apply list_header_bytes; lia|].
    apply Forall_concat, Forall_fmap, Forall_forall. intros x Hx. rewrite Forall_forall in IH, Hb.
    pose proof (encode_elem x l Hx). apply IH; [done|by apply Hb|]. unfold p, zlen in *. lia.
Qed.

#[global] Instance codec_laws : RlpLaws.
Proof.
  split.
  - apply encode_bytes.
  - done.
  - intros x E. pose proof (encode_nonempty x) as Hn. change (rlp_Encode x) with (encode x) in E. rewrite E in Hn. simpl in Hn. lia.
  - intros x r Hok Hlen. change (rlp_Encode x) with (encode x) in *. unfold rlp_Decode, codec.
    rewrite encode_decode; [|done|done|rewrite length_app; lia]. rewrite zlen_app. do 2 f_equal. lia.
Qed.

End PlainRlp.
