(* ===== verification/Tx.v ===== *)
(** * Transactions in and out of RLP

    Models src/prover/backend/ethereum/tx_encoding.go: [EncodeTxForSigning], which
    serializes a transaction without its signature, and [DecodeTxFromBytes], which
    reads one back, with the casts of the fields ([TryCast], one definition per
    target type, as the code switches on it). The transactions are those of
    go-ethereum; the signature is not part of the encoding, so a [Transaction]
    carries what the code asks of it: whether it is replay-protected, the chain
    identifier and the recovered sender. *)

From S2P Require Export Rlp.

(** ** Transactions *)

(** [types.AccessTuple] *)
Record AccessTuple := { at_Address : list Z; at_StorageKeys : list (list Z) }.

(** [types.SetCodeAuthorization] *)
Record SetCodeAuthorization := {
  au_ChainID : Z; au_Address : list Z; au_Nonce : Z; au_V : Z; au_R : Z; au_S : Z }.

(** [types.TxData]; the addresses that may be nil are options. *)
Inductive TxData :=
| LegacyTx (nonce gasPrice gas : Z) (to : option (list Z)) (value : Z) (data : list Z)
| AccessListTx (chainID nonce gasPrice gas : Z) (to : option (list Z)) (value : Z) (data : list Z) (al : list AccessTuple)
| DynamicFeeTx (chainID nonce gasTipCap gasFeeCap gas : Z) (to : option (list Z)) (value : Z) (data : list Z) (al : list AccessTuple)
| SetCodeTx (chainID nonce gasTipCap gasFeeCap gas : Z) (to : list Z) (value : Z) (data : list Z) (al : list AccessTuple)
    (auths : list SetCodeAuthorization)
| BlobTx.

Record Transaction := {
  tx_inner : TxData;
  tx_Protected : bool;
  tx_legacyChainId : Z;
  tx_sender : option (list Z) }.

Definition LegacyTxType : Z := 0.
Definition AccessListTxType : Z := 1.
Definition DynamicFeeTxType : Z := 2.
Definition BlobTxType : Z := 3.
Definition SetCodeTxType : Z := 4.

(** [ethereum.GetFrom]: panics when the sender cannot be recovered. *)
Definition GetFrom (tx : Transaction) : res (list Z) :=
  match tx_sender tx with Some a => Ok a | None => Panic end.

(** ** Encoding *)

(** How [rlp.Encode] represents the types of the fields: integers by their
    big-endian bytes, nil addresses by the empty string. *)
Definition num (n : Z) : item := IBytes (be_min n).
Definition addr_ptr (o : option (list Z)) : item := IBytes (default [] o).
Definition access_list (al : list AccessTuple) : item :=
  IList ((λ t, IList [IBytes (at_Address t); IList (IBytes <$> at_StorageKeys t)]) <$> al).
Definition auth_list (l : list SetCodeAuthorization) : item :=
  IList ((λ a, IList [num (au_ChainID a); IBytes (au_Address a); num (au_Nonce a); num (au_V a); num (au_R a); num (au_S a)]) <$> l).

(** The type byte, if any, and the fields. *)
Definition tx_fields (tx : Transaction) : res (list Z * list item) :=
  match tx_inner tx with
  | DynamicFeeTx c n t f g to v d al =>
      Ok ([DynamicFeeTxType], [num c; num n; num t; num f; num g; addr_ptr to; num v; IBytes d; access_list al])
  | AccessListTx c n p g to v d al =>
      Ok ([AccessListTxType], [num c; num n; num p; num g; addr_ptr to; num v; IBytes d; access_list al])
  | LegacyTx n p g to v d =>
      if tx_Protected tx
      then Ok ([], [num n; num p; num g; addr_ptr to; num v; IBytes d; num (tx_legacyChainId tx); num 0; num 0])
      else Ok ([], [num n; num p; num g; addr_ptr to; num v; IBytes d])
  | SetCodeTx c n t f g to v d al au =>
      Ok ([SetCodeTxType], [num c; num n; num t; num f; num g; addr_ptr (Some to); num v; IBytes d; access_list al; auth_list au])
  | BlobTx => Panic
  end.

Definition EncodeTxForSigning `{Rlp} (tx : Transaction) : res (list Z) :=
  '(prefix, fields) ← tx_fields tx;
  Ok (prefix ++ rlp_Encode (IList fields)).

(** ** Casts *)

(** [errors.Join] *)
Definition Join (l : list gerr) : gerr :=
  match omap id l with
  | [] => None
  | es => Some (String.concat (String (Ascii.ascii_of_nat 10) EmptyString) es)
  end.

Definition zero_bytes (n : nat) : list Z := replicate n 0.

(** [common.BytesToAddress] and [common.BytesToHash]: the last [n] bytes, padded
    with zeros on the left. *)
Definition fixed_bytes (n : nat) (l : list Z) : list Z :=
  let l := drop (length l - n) l in zero_bytes (n - length l) ++ l.

Definition unsupported : gerr := Some "unsupported type"%string.
Definition could_not_decode : gerr := Some "could not decode"%string.

Definition TryCast_address_ptr (x : item) : option (list Z) * gerr :=
  match x with
  | IList _ => (None, unsupported)
  | IBytes b => (if decide (0 < zlen b) then Some (fixed_bytes 20 b) else None, None)
  end.

Definition TryCast_address (x : item) : list Z * gerr :=
  match x with
  | IList _ => (zero_bytes 20, unsupported)
  | IBytes b => (fixed_bytes 20 b, None)
  end.

Definition TryCast_hash (x : item) : list Z * gerr :=
  match x with
  | IList _ => (zero_bytes 32, unsupported)
  | IBytes b => (fixed_bytes 32 b, None)
  end.

(** [*big.Int]; nil when the cast fails. *)
Definition TryCast_bigint (x : item) : Z * gerr :=
  match x with
  | IList _ => (0, unsupported)
  | IBytes b => (be_val b, None)
  end.

(** [big.Int.Uint64]: the low 64 bits. *)
Definition TryCast_uint64 (x : item) : Z * gerr :=
  match x with
  | IList _ => (0, unsupported)
  | IBytes b => (uint64 (be_val b), None)
  end.

Definition TryCast_bytes (x : item) : list Z * gerr :=
  match x with
  | IList _ => ([], unsupported)
  | IBytes b => (b, None)
  end.

Definition TryCast_uint8 (x : item) : Z * gerr :=
  match x with
  | IList _ => (0, unsupported)
  | IBytes [] => (0, None)
  | IBytes [b] => (b, None)
  | IBytes _ => (0, could_not_decode)
  end.

(** [uint256.Int.SetBytes]: the last 32 bytes. *)
Definition TryCast_uint256 (x : item) : Z * gerr :=
  match x with
  | IList _ => (0, unsupported)
  | IBytes b => (be_val (drop (length b - 32) b), None)
  end.

(** [[]common.Hash]: the errors of the elements are dropped. *)
Definition TryCast_hashes (x : item) : list (list Z) * gerr :=
  match x with
  | IList l => ((λ y, (TryCast_hash y).1) <$> l, None)
  | IBytes _ => ([], could_not_decode)
  end.

Definition TryCast_access_tuple (x : item) : res (AccessTuple * gerr) :=
  match x with
  | IList l =>
      x0 ← idx l 0;
      x1 ← idx l 1;
      let '(a, e0) := TryCast_address x0 in
      let '(k, e1) := TryCast_hashes x1 in
      Ok ({| at_Address := a; at_StorageKeys := k |}, Join [e0; e1])
  | IBytes _ => Ok ({| at_Address := zero_bytes 20; at_StorageKeys := [] |}, could_not_decode)
  end.

(** The loops over a list: the errors are joined. *)
Definition cast_all {A} (cast : item → res (A * gerr)) (l : list item) : res (list A * gerr) :=
  rs ← mapR cast l; Ok (rs.*1, Join rs.*2).

Definition TryCast_access_list (x : item) : res (list AccessTuple * gerr) :=
  match x with
  | IList l => cast_all TryCast_access_tuple l
  | IBytes _ => Ok ([], could_not_decode)
  end.

Definition TryCast_auth (x : item) : res (SetCodeAuthorization * gerr) :=
  match x with
  | IList l =>
      x0 ← idx l 0; x1 ← idx l 1; x2 ← idx l 2; x3 ← idx l 3; x4 ← idx l 4; x5 ← idx l 5;
      let '(c, e0) := TryCast_uint256 x0 in
      let '(a, e1) := TryCast_address x1 in
      let '(n, e2) := TryCast_uint64 x2 in
      let '(v, e3) := TryCast_uint8 x3 in
      let '(r, e4) := TryCast_uint256 x4 in
      let '(s, e5) := TryCast_uint256 x5 in
      Ok ({| au_ChainID := c; au_Address := a; au_Nonce := n; au_V := v; au_R := r; au_S := s |},
          Join [e0; e1; e2; e3; e4; e5])
  | IBytes _ =>
      Ok ({| au_ChainID := 0; au_Address := zero_bytes 20; au_Nonce := 0; au_V := 0; au_R := 0; au_S := 0 |}, could_not_decode)
  end.

Definition TryCast_auth_list (x : item) : res (list SetCodeAuthorization * gerr) :=
  match x with
  | IList l => cast_all TryCast_auth l
  | IBytes _ => Ok ([], could_not_decode)
  end.

(** ** Decoding *)

Definition setCodeNumField : Z := 10.
Definition dynFeeNumField : Z := 9.
Definition accessListTxNumField : Z := 8.
Definition legacyTxNumField : Z := 9.
Definition unprotectedTxNumField : Z := 6.

Section decode.
Context `{Rlp}.

(** [rlp.Decode(b, &decTx)] into a slice of values: the fields, or the error. *)
Definition decode_fields (r : Reader) : (list item + string) * Reader :=
  match rlp_Decode (rd_left r) with
  | Some (IList l, n) => (inl l, rd_set r (rd_pos r + n))
  | Some (IBytes _, n) => (inr "could not rlp decode transaction"%string, rd_set r (rd_pos r + n))
  | None => (inr "could not rlp decode transaction"%string, r)
  end.

Definition decodeSetCodeTx (r : Reader) : res ((option TxData * gerr) * Reader) :=
  let '(d, r) := decode_fields r in
  match d with
  | inr e => Ok ((None, Some e), r)
  | inl [c; n; t; f; g; to; v; dt; al; au] =>
      let '(c, e0) := TryCast_uint256 c in
      let '(n, e1) := TryCast_uint64 n in
      let '(t, e2) := TryCast_uint256 t in
      let '(f, e3) := TryCast_uint256 f in
      let '(g, e4) := TryCast_uint64 g in
      let '(to, e5) := TryCast_address to in
      let '(v, e6) := TryCast_uint256 v in
      let '(dt, e7) := TryCast_bytes dt in
      '(al, e8) ← TryCast_access_list al;
      '(au, e9) ← TryCast_auth_list au;
      Ok ((Some (SetCodeTx c n t f g to v dt al au), Join [e0; e1; e2; e3; e4; e5; e6; e7; e8; e9]), r)
  | inl _ => Ok ((None, Some "invalid number of field for a set-code transaction"%string), r)
  end.

Definition decodeDynamicFeeTx (r : Reader) : res ((option TxData * gerr) * Reader) :=
  let '(d, r) := decode_fields r in
  match d with
  | inr e => Ok ((None, Some e), r)
  | inl [c; n; t; f; g; to; v; dt; al] =>
      let '(c, e0) := TryCast_bigint c in
      let '(n, e1) := TryCast_uint64 n in
      let '(t, e2) := TryCast_bigint t in
      let '(f, e3) := TryCast_bigint f in
      let '(g, e4) := TryCast_uint64 g in
      let '(to, e5) := TryCast_address_ptr to in
      let '(v, e6) := TryCast_bigint v in
      let '(dt, e7) := TryCast_bytes dt in
      '(al, e8) ← TryCast_access_list al;
      Ok ((Some (DynamicFeeTx c n t f g to v dt al), Join [e0; e1; e2; e3; e4; e5; e6; e7; e8]), r)
  | inl _ => Ok ((None, Some "invalid number of field for a dynamic transaction"%string), r)
  end.

Definition decodeAccessListTx (r : Reader) : res ((option TxData * gerr) * Reader) :=
  let '(d, r) := decode_fields r in
  match d with
  | inr e => Ok ((None, Some e), r)
  | inl [c; n; p; g; to; v; dt; al] =>
      let '(c, e0) := TryCast_bigint c in
      let '(n, e1) := TryCast_uint64 n in
      let '(p, e2) := TryCast_bigint p in
      let '(g, e3) := TryCast_uint64 g in
      let '(to, e4) := TryCast_address_ptr to in
      let '(v, e5) := TryCast_bigint v in
      let '(dt, e6) := TryCast_bytes dt in
      '(al, e7) ← TryCast_access_list al;
      Ok ((Some (AccessListTx c n p g to v dt al), Join [e0; e1; e2; e3; e4; e5; e6; e7]), r)
  | inl _ => Ok ((None, Some "invalid number of field for a dynamic transaction"%string), r)
  end.

(** Nine fields or six; the chain identifier is not read. *)
Definition decodeLegacyTx (r : Reader) : res ((option TxData * gerr) * Reader) :=
  let '(d, r) := decode_fields r in
  match d with
  | inr e => Ok ((None, Some e), r)
  | inl l =>
      if decide (zlen l ≠ legacyTxNumField ∧ zlen l ≠ unprotectedTxNumField)
      then Ok ((None, Some "unexpected number of field"%string), r)
      else
        x0 ← idx l 0; x1 ← idx l 1; x2 ← idx l 2; x3 ← idx l 3; x4 ← idx l 4; x5 ← idx l 5;
        let '(n, e0) := TryCast_uint64 x0 in
        let '(p, e1) := TryCast_bigint x1 in
        let '(g, e2) := TryCast_uint64 x2 in
        let '(to, e3) := TryCast_address_ptr x3 in
        let '(v, e4) := TryCast_bigint x4 in
        let '(dt, e5) := TryCast_bytes x5 in
        Ok ((Some (LegacyTx n p g to v dt), Join [e0; e1; e2; e3; e4; e5]), r)
  end.

Definition DecodeTxFromBytes (r : Reader) : res ((option TxData * gerr) * Reader) :=
  if decide (rd_Len r = 0) then Ok ((None, Some "empty buffer"%string), r)
  else
    let '((firstByte, err), r) := rd_ReadByte r in
    match err with
    | Some e => Ok ((None, Some "could not read the first byte"%string), r)
    | None =>
        if decide (firstByte = DynamicFeeTxType) then decodeDynamicFeeTx r
        else if decide (firstByte = AccessListTxType) then decodeAccessListTx r
        else if decide (firstByte = SetCodeTxType) then decodeSetCodeTx r
        else if decide (0xc0 < firstByte) then decodeLegacyTx (rd_UnreadByte r).2
        else Ok ((None, Some "unexpected first byte"%string), r)
    end.

End decode.

(** ** Well-formed transactions *)

Definition is_word (n : Z) : Prop := 0 ≤ n < 2 ^ 64.
Definition is_uint256 (n : Z) : Prop := 0 ≤ n < 2 ^ 256.
Definition is_address (a : list Z) : Prop := Forall is_byte a ∧ length a = 20%nat.
Definition is_hash (h : list Z) : Prop := Forall is_byte h ∧ length h = 32%nat.

Definition tuple_ok (t : AccessTuple) : Prop := is_address (at_Address t) ∧ Forall is_hash (at_StorageKeys t).

Definition auth_ok (a : SetCodeAuthorization) : Prop :=
  is_uint256 (au_ChainID a) ∧ is_address (au_Address a) ∧ is_word (au_Nonce a) ∧ is_byte (au_V a) ∧
  is_uint256 (au_R a) ∧ is_uint256 (au_S a).

Definition to_ok (o : option (list Z)) : Prop := match o with Some a => is_address a | None => True end.

Definition data_ok (t : TxData) : Prop :=
  match t with
  | LegacyTx n p g to v d => is_word n ∧ 0 ≤ p ∧ is_word g ∧ to_ok to ∧ 0 ≤ v ∧ Forall is_byte d
  | AccessListTx c n p g to v d al =>
      0 ≤ c ∧ is_word n ∧ 0 ≤ p ∧ is_word g ∧ to_ok to ∧ 0 ≤ v ∧ Forall is_byte d ∧ Forall tuple_ok al
  | DynamicFeeTx c n t f g to v d al =>
      0 ≤ c ∧ is_word n ∧ 0 ≤ t ∧ 0 ≤ f ∧ is_word g ∧ to_ok to ∧ 0 ≤ v ∧ Forall is_byte d ∧ Forall tuple_ok al
  | SetCodeTx c n t f g to v d al au =>
      is_uint256 c ∧ is_word n ∧ is_uint256 t ∧ is_uint256 f ∧ is_word g ∧ is_address to ∧ is_uint256 v ∧
      Forall is_byte d ∧ Forall tuple_ok al ∧ Forall auth_ok au
  | BlobTx => False
  end.

Definition tx_ok (tx : Transaction) : Prop :=
  data_ok (tx_inner tx) ∧ 0 ≤ tx_legacyChainId tx ∧ ∃ a, tx_sender tx = Some a ∧ is_address a.

(** * Decoding a transaction gives it back

    The casts invert the encodings of the fields, and [DecodeTxFromBytes] inverts
    [EncodeTxForSigning] ([DecodeTx_spec]). *)



(** ** Casts of encoded fields *)

Lemma Join_none l : Forall (λ e, e = None) l → Join l = None.
Proof.
  intros Hl. unfold Join. cut (omap id l = []); [by intros ->|]. induction Hl as [|e l -> _ IH]; [done|]. exact IH.
Qed.

Lemma cast_bigint n : 0 ≤ n → TryCast_bigint (num n) = (n, None).
Proof. intros Hn. simpl. by rewrite be_min_val. Qed.

Lemma cast_uint64 n : is_word n → TryCast_uint64 (num n) = (n, None).
Proof. intros [H0 Hn]. simpl. rewrite be_min_val by done. unfold uint64. by rewrite Z.mod_small. Qed.

Lemma be_min_short n k : 0 ≤ n < 256 ^ k → 0 ≤ k → zlen (be_min n) ≤ k.
Proof.
  intros Hn Hk. destruct (decide (n = 0)) as [->|]; [unfold be_min; rewrite decide_True by done; done|].
  apply be_min_length; [lia|done].
Qed.

Lemma cast_uint256 n : is_uint256 n → TryCast_uint256 (num n) = (n, None).
Proof.
  intros [H0 Hn]. simpl. pose proof (be_min_short n 32) as Hl. change (256 ^ 32) with (2 ^ 256) in Hl. unfold zlen in Hl.
  replace (length (be_min n) - 32)%nat with 0%nat by lia. rewrite drop_0. by rewrite be_min_val.
Qed.

Lemma cast_uint8 n : is_byte n → TryCast_uint8 (num n) = (n, None).
Proof.
  intros [H0 Hn]. unfold num. pose proof (be_min_short n 1) as Hl. pose proof (be_min_val n H0) as Hv. unfold zlen in Hl.
  destruct (be_min n) as [|b [|]]; simpl in *; [by rewrite <-Hv|by rewrite <-Hv|lia].
Qed.

Lemma fixed_bytes_id n l : length l = n → fixed_bytes n l = l.
Proof. intros <-. unfold fixed_bytes. rewrite Nat.sub_diag, drop_0, Nat.sub_diag. done. Qed.

Lemma cast_address a : is_address a → TryCast_address (IBytes a) = (a, None).
Proof. intros [_ Ha]. simpl. by rewrite fixed_bytes_id. Qed.

Lemma cast_address_ptr o : to_ok o → TryCast_address_ptr (addr_ptr o) = (o, None).
Proof.
  destruct o as [a|]; [|done]. intros [_ Ha]. simpl. rewrite decide_True by (unfold zlen; lia). by rewrite fixed_bytes_id.
Qed.

Lemma cast_hashes l : Forall is_hash l → TryCast_hashes (IList (IBytes <$> l)) = (l, None).
Proof.
  intros Hl. simpl. f_equal. induction Hl as [|h l [_ Hh] _ IH]; [done|]. rewrite !fmap_cons. f_equal; [|exact IH].
  simpl. by rewrite fixed_bytes_id.
Qed.

Lemma cast_all_spec {A} (cast : item → res (A * gerr)) (f : A → item) l :
  Forall (λ x, cast (f x) = Ok (x, None)) l → cast_all cast (f <$> l) = Ok (l, None).
Proof.
  intros Hl. unfold cast_all. assert (mapR cast (f <$> l) = Ok ((λ x, (x, None)) <$> l)) as ->.
  { induction Hl as [|x l Hx _ IH]; [done|]. rewrite fmap_cons. cbn [mapR]. rewrite Hx. simpl. by rewrite IH. }
  cbn [mbind res_bind]. do 2 f_equal.
  - rewrite <-list_fmap_compose. apply list_fmap_id.
  - apply Join_none. rewrite <-list_fmap_compose. by apply Forall_fmap, Forall_true.
Qed.

Lemma cast_access_list al : Forall tuple_ok al → TryCast_access_list (access_list al) = Ok (al, None).
Proof.
  intros Hal. apply cast_all_spec. eapply Forall_impl; [exact Hal|]. intros [a k] [Ha Hk]. simpl in *.
  rewrite fixed_bytes_id by apply Ha. pose proof (cast_hashes k Hk) as Ek. simpl in Ek. injection Ek as ->. done.
Qed.

Lemma TryCast_auth_fields x0 x1 x2 x3 x4 x5 : TryCast_auth (IList [x0; x1; x2; x3; x4; x5]) =
  let '(c, e0) := TryCast_uint256 x0 in let '(a, e1) := TryCast_address x1 in let '(n, e2) := TryCast_uint64 x2 in
  let '(v, e3) := TryCast_uint8 x3 in let '(r, e4) := TryCast_uint256 x4 in let '(s, e5) := TryCast_uint256 x5 in
  Ok ({| au_ChainID := c; au_Address := a; au_Nonce := n; au_V := v; au_R := r; au_S := s |}, Join [e0; e1; e2; e3; e4; e5]).
Proof. done. Qed.

Lemma cast_auth_list l : Forall auth_ok l → TryCast_auth_list (auth_list l) = Ok (l, None).
Proof.
  intros Hl. apply cast_all_spec. eapply Forall_impl; [exact Hl|]. intros [c a n v r s] (Hc & Ha & Hn & Hv & Hr & Hs).
  cbn [au_ChainID au_Address au_Nonce au_V au_R au_S] in *. rewrite TryCast_auth_fields.
  rewrite !cast_uint256, cast_address, cast_uint64, cast_uint8 by done. done.
Qed.

(** ** The fields are well-formed items *)

Lemma num_ok n : item_ok (num n).
Proof. constructor. apply be_min_bytes. Qed.

Lemma addr_ptr_ok o : to_ok o → item_ok (addr_ptr o).
Proof. destruct o as [a|]; constructor; [apply H|constructor]. Qed.

Lemma access_list_ok al : Forall tuple_ok al → item_ok (access_list al).
Proof.
  intros Hal. constructor. apply Forall_fmap. eapply Forall_impl; [exact Hal|]. intros [a k] [Ha Hk]. simpl in *.
  constructor. constructor; [constructor; apply Ha|]. constructor; [|constructor]. constructor. apply Forall_fmap.
  eapply Forall_impl; [exact Hk|]. intros h [Hh _]. by constructor.
Qed.

Lemma auth_list_ok l : Forall auth_ok l → item_ok (auth_list l).
Proof.
  intros Hl. constructor. apply Forall_fmap. eapply Forall_impl; [exact Hl|]. intros [c a n v r s] (Hc & Ha & _). simpl in *.
  constructor. repeat (constructor; [first [apply num_ok|constructor; apply Ha]|]). constructor.
Qed.

(** ** Transactions *)

Section decode.
Context `{Rlp, !RlpLaws}.

Lemma decode_fields_at r fields l : Forall item_ok fields → zlen (rlp_Encode (IList fields)) < 2 ^ 62 →
  at_bytes r (rlp_Encode (IList fields) ++ l) →
  decode_fields r = (inl fields, rd_set r (rd_pos r + zlen (rlp_Encode (IList fields)))).
Proof.
  intros Hf Hl [_ Hr]. unfold decode_fields. rewrite Hr, rlp_decode; [done|by constructor|done].
Qed.

Lemma list_header_first n : 0 < n < 2 ^ 62 → ∃ b h, list_header n = b :: h ∧ 0xc0 < b.
Proof.
  intros Hn. unfold list_header. case_decide; [eexists _, _; split; [done|lia]|].
  pose proof (zlen_nonneg (be_min n)). eexists _, _. split; [done|lia].
Qed.

(** The first byte of a list that is not empty. *)
Lemma rlp_list_first x l : zlen (rlp_Encode (IList (x :: l))) < 2 ^ 62 →
  ∃ b h, rlp_Encode (IList (x :: l)) = b :: h ∧ 0xc0 < b.
Proof.
  rewrite rlp_list. set (p := concat _). rewrite zlen_app. intros Hl. pose proof (zlen_nonneg (list_header (zlen p))).
  assert (0 < zlen p) as Hp.
  { unfold p. rewrite fmap_cons. cbn [concat]. rewrite zlen_app. pose proof (rlp_nonempty x) as Hx.
    pose proof (zlen_nonneg (concat (rlp_Encode <$> l))). destruct (rlp_Encode x); [done|]. unfold zlen at 1. simpl. lia. }
  destruct (list_header_first (zlen p)) as (b & h & -> & Hb); [lia|]. by exists b, (h ++ p).
Qed.

Lemma tx_fields_ok tx prefix fields : tx_ok tx → tx_fields tx = Ok (prefix, fields) → Forall item_ok fields.
Proof.
  intros (Hd & Hc & _). unfold tx_fields. destruct (tx_inner tx); simpl in Hd; try done; try destruct (tx_Protected tx);
    intros [= <- <-]; repeat (constructor; [first [apply num_ok|apply addr_ptr_ok; tauto|apply access_list_ok; tauto|apply auth_list_ok; tauto|constructor; tauto]|]); constructor.
Qed.

(** Reading the type byte of a typed transaction. *)
Lemma DecodeTx_typed r t l : at_bytes r (t :: l) → t = DynamicFeeTxType ∨ t = AccessListTxType ∨ t = SetCodeTxType →
  let r' := rd_set r (rd_pos r + 1) in at_bytes r' l ∧
  DecodeTxFromBytes r = (if decide (t = DynamicFeeTxType) then decodeDynamicFeeTx r'
    else if decide (t = AccessListTxType) then decodeAccessListTx r' else decodeSetCodeTx r').
Proof.
  intros Hr Ht. split; [exact (at_bytes_skip r [t] l Hr)|]. unfold DecodeTxFromBytes. destruct (at_bytes_Len _ _ Hr) as [-> _].
  rewrite decide_False by (unfold zlen; simpl; lia). rewrite (rd_ReadByte_at r t l Hr).
  destruct Ht as [-> | [-> | ->]]; done.
Qed.

Lemma DecodeTx_legacy r b l : at_bytes r (b :: l) → 0xc0 < b → DecodeTxFromBytes r = decodeLegacyTx r.
Proof.
  intros Hr Hb. unfold DecodeTxFromBytes. destruct (at_bytes_Len _ _ Hr) as [-> _].
  rewrite decide_False by (unfold zlen; simpl; lia). rewrite (rd_ReadByte_at r b l Hr).
  unfold DynamicFeeTxType, AccessListTxType, SetCodeTxType. rewrite !decide_False by lia. rewrite decide_True by done.
  unfold rd_UnreadByte. destruct Hr as [Hp _]. simpl. rewrite decide_False by lia. simpl. f_equal. destruct r as [d p].
  unfold rd_set. simpl. f_equal. lia.
Qed.

(** [DecodeTxFromBytes] reads back what [EncodeTxForSigning] wrote and stops at
    its end. *)
Lemma DecodeTx_spec tx r l : tx_ok tx → ∃ b, EncodeTxForSigning tx = Ok b ∧ b ≠ [] ∧
  (zlen b < 2 ^ 62 → Forall is_byte b ∧
   (at_bytes r (b ++ l) → DecodeTxFromBytes r = Ok ((Some (tx_inner tx), None), rd_set r (rd_pos r + zlen b)))).
Proof.
  intros Htx. unfold EncodeTxForSigning.
  assert (∃ prefix fields, tx_fields tx = Ok (prefix, fields)) as (prefix & fields & E).
  { destruct Htx as (Hd & _). unfold tx_fields. destruct (tx_inner tx); try done; try destruct (tx_Protected tx); eauto. }
  pose proof (tx_fields_ok tx prefix fields Htx E) as Hok. rewrite E. cbn [mbind res_bind]. eexists. split; [done|].
  split; [intros Hnil%app_nil; destruct Hnil as [_ Hnil]; by apply rlp_nonempty in Hnil|].
  set (e := rlp_Encode (IList fields)). rewrite zlen_app. pose proof (zlen_nonneg prefix). intros Hlen.
  assert (zlen e < 2 ^ 62) as Hle by lia. split.
  { apply Forall_app. split; [|apply rlp_bytes; [by constructor|done]].
    destruct Htx as (Hd & _). unfold tx_fields in E. destruct (tx_inner tx); try done; try destruct (tx_Protected tx); injection E as <- <-; by repeat constructor. }
  rewrite <-(assoc_L (++)). intros Hr. destruct Htx as (Hd & Hc & _). unfold tx_fields in E.
  destruct (tx_inner tx) as [n p g to v d|c n p g to v d al|c n t f g to v d al|c n t f g to v d al au|]; simpl in Hd; [..|done].
  - assert (∃ fs, fields = [num n; num p; num g; addr_ptr to; num v; IBytes d] ++ fs ∧ prefix = [] ∧ (zlen fields = 9 ∨ zlen fields = 6)) as (fs & Ef & -> & Hfl).
    { destruct (tx_Protected tx); injection E as <- <-; [by eexists [_; _; _]; split_and!; [..|left]|by exists []; split_and!; [..|right]]. }
    destruct (rlp_list_first (num n) ([num p; num g; addr_ptr to; num v; IBytes d] ++ fs)) as (b & h & Eb & Hb).
    { unfold e in Hle. by rewrite Ef in Hle. }
    assert (e = b :: h) as Ebh by (unfold e; rewrite Ef; exact Eb).
    simpl app in Hr. rewrite (DecodeTx_legacy r b (h ++ l)); [|by rewrite Ebh in Hr|done].
    unfold decodeLegacyTx. rewrite (decode_fields_at r fields l) by done. fold e.
    rewrite decide_False by (unfold legacyTxNumField, unprotectedTxNumField; lia). rewrite Ef.
    destruct Hd as (Hn & Hp & Hg & Hto & Hv & Hdd).
    change (idx (_ ++ fs) 0) with (Ok (num n)). change (idx (_ ++ fs) 1) with (Ok (num p)). change (idx (_ ++ fs) 2) with (Ok (num g)).
    change (idx (_ ++ fs) 3) with (Ok (addr_ptr to)). change (idx (_ ++ fs) 4) with (Ok (num v)). change (idx (_ ++ fs) 5) with (Ok (IBytes d)).
    cbn [mbind res_bind]. rewrite !cast_uint64, !cast_bigint, cast_address_ptr by done. done.
  - injection E as <- <-. destruct (DecodeTx_typed r AccessListTxType (e ++ l)) as [Hr' ->]; [done|by right; left|]. rewrite decide_False, decide_True by done.
    unfold decodeAccessListTx. rewrite (decode_fields_at _ _ l Hok) by done. fold e.
    destruct Hd as (Hcc & Hn & Hp & Hg & Hto & Hv & Hdd & Hal). rewrite !cast_bigint, !cast_uint64, cast_address_ptr, cast_access_list by done.
    cbn. do 3 f_equal. unfold zlen. simpl. lia.
  - injection E as <- <-. destruct (DecodeTx_typed r DynamicFeeTxType (e ++ l)) as [Hr' ->]; [done|by left|]. rewrite decide_True by done.
    unfold decodeDynamicFeeTx. rewrite (decode_fields_at _ _ l Hok) by done. fold e.
    destruct Hd as (Hcc & Hn & Ht & Hf & Hg & Hto & Hv & Hdd & Hal). rewrite !cast_bigint, !cast_uint64, cast_address_ptr, cast_access_list by done.
    cbn. do 3 f_equal. unfold zlen. simpl. lia.
  - injection E as <- <-. destruct (DecodeTx_typed r SetCodeTxType (e ++ l)) as [Hr' ->]; [done|by right; right|]. rewrite !decide_False by done.
    unfold decodeSetCodeTx. rewrite (decode_fields_at _ _ l Hok) by done. fold e.
    destruct Hd as (Hcc & Hn & Ht & Hf & Hg & Hto & Hv & Hdd & Hal & Hau). change (addr_ptr (Some to)) with (IBytes to).
    rewrite !cast_uint256, !cast_uint64, cast_address, cast_access_list by done. cbn [mbind res_bind]. rewrite cast_auth_list by done.
    cbn. do 3 f_equal. unfold zlen. simpl. lia.
Qed.

End decode.
