(* ===== verification/BlockEncode.v ===== *)
(** * The encoding of blocks before compression

    Models src/prover/lib/compressor/blob/v1/encode.go: [EncodeBlockForCompression]
    writes the number of transactions, the timestamp, the block hash and, for every
    transaction, its sender and its unsigned encoding; [ScanBlockByteLen] finds the
    end of such a block in a stream; [DecodeBlockFromUncompressed] reads one back. *)

From S2P Require Export Tx.

(** [types.Block]: what the encoder asks of it. A nil pointer or slice is [None]. *)
Record Block := { bl_Time : Z; bl_Transactions : option (list (option Transaction)); bl_Hash : list Z }.

(** [encode.DecodedBlockData] *)
Record DecodedBlockData := { BlockHash : list Z; Timestamp : Z; Froms : list (list Z); Txs : list (option TxData) }.

(** ** Encoding *)

Definition EncodeTxForCompression `{Rlp} (tx : option Transaction) : res (list Z * gerr) :=
  match tx with
  | None => Ok ([], Some "transactions is nil"%string)
  | Some tx =>
      from ← GetFrom tx;
      txRlp ← EncodeTxForSigning tx;
      Ok (from ++ txRlp, None)
  end.

(** The loop over the transactions stops at the first error. *)
Fixpoint encode_txs `{Rlp} (txs : list (option Transaction)) (w : list Z) : res (list Z * gerr) :=
  match txs with
  | [] => Ok (w, None)
  | tx :: txs' =>
      '(b, err) ← EncodeTxForCompression tx;
      match err with
      | Some e => Ok (w ++ b, Some "could not encode transaction"%string)
      | None => encode_txs txs' (w ++ b)
      end
  end.

(** What is written to [w], and the error. *)
Definition EncodeBlockForCompression `{Rlp} (block : option Block) : res (list Z * gerr) :=
  match block with
  | None => Ok ([], Some "block is nil"%string)
  | Some block =>
      match bl_Transactions block with
      | None => Ok ([], Some "block has nil transactions"%string)
      | Some transactions =>
          let numTxs := zlen transactions mod 2 ^ 16 in
          let timestamp := bl_Time block mod 2 ^ 32 in
          encode_txs transactions (be_bytes 2 numTxs ++ be_bytes 4 timestamp ++ bl_Hash block)
      end
  end.

(** ** Scanning *)

(** Advances over an RLP list. The length bytes go to the end of a zeroed buffer
    of eight, as many as there are; the error of [Seek] is not looked at. *)
Definition passRlpList (r : Reader) : gerr * Reader :=
  let '((firstByte, err), r) := rd_ReadByte r in
  match err with
  | Some e => (Some "could not read the first byte"%string, r)
  | None =>
      if decide (firstByte < 0xc0) then (Some "not an RLP list"%string, r)
      else if decide (firstByte ≤ 0xf7) then (None, (rd_Seek (firstByte - 0xc0) r).2)
      else
        let l := Z.to_nat (firstByte - 0xf7) in
        let '((b, _), r) := rd_Read l r in
        let payloadLen := be_val (zero_bytes (8 - l) ++ read_array l b) in
        (None, (rd_Seek (int64 payloadLen) r).2)
  end.

Definition addressLen : Z := 20.
Definition preTxBufSize : Z := 32 + 4.

Fixpoint scan_txs (n : nat) (r : Reader) : gerr * Reader :=
  match n with
  | O => (None, r)
  | S n' =>
      let r := (rd_Seek addressLen r).2 in
      let '((prefix, err), r) := rd_ReadByte r in
      match err with
      | Some e => (Some "could not read the prefix byte of the tx"%string, r)
      | None =>
          let '(err, r) := if decide (0xc0 < prefix) then rd_UnreadByte r else (None, r) in
          match err with
          | Some e => (Some "failed to rewind tx prefix"%string, r)
          | None =>
              let '(err, r) := passRlpList r in
              match err with
              | Some e => (Some "failed passing transaction"%string, r)
              | None => scan_txs n' r
              end
          end
      end
  end.

Definition ScanBlockByteLen (b : list Z) : Z * gerr :=
  let '((n, err), r) := ReadFull 2 (NewBytesReader b) in
  match err with
  | Some e => (-1, Some "could not decode nb txs"%string)
  | None =>
      let decNumTxs := be_val n in
      let r := (rd_Seek preTxBufSize r).2 in
      let '(err, r) := scan_txs (Z.to_nat decNumTxs) r in
      match err with
      | Some e => (-1, Some e)
      | None => (rd_Size r - rd_Len r, None)
      end
  end.

(** ** Decoding *)

Definition DecodeTxFromUncompressed `{Rlp} (r : Reader) : res ((list Z * option TxData * gerr) * Reader) :=
  let '((from, err), r) := rd_Read 20 r in
  match err with
  | Some e => Ok ((zero_bytes 20, None, Some "could not read from address"%string), r)
  | None =>
      '((tx, err), r) ← DecodeTxFromBytes r;
      Ok ((read_array 20 from, tx, err), r)
  end.

Fixpoint decode_txs `{Rlp} (n : nat) (r : Reader) : res ((list (list Z * option TxData) * gerr) * Reader) :=
  match n with
  | O => Ok (([], None), r)
  | S n' =>
      '((from, tx, err), r) ← DecodeTxFromUncompressed r;
      match err with
      | Some e => Ok (([], Some "could not decode transaction"%string), r)
      | None =>
          '((l, err), r) ← decode_txs n' r;
          Ok (((from, tx) :: l, err), r)
      end
  end.

Definition emptyBlockData : DecodedBlockData := {| BlockHash := zero_bytes 32; Timestamp := 0; Froms := []; Txs := [] |}.

Definition DecodeBlockFromUncompressed `{Rlp} (r : Reader) : res ((DecodedBlockData * gerr) * Reader) :=
  let '((n, err), r) := ReadFull 2 r in
  match err with Some e => Ok ((emptyBlockData, Some "could not decode nb txs"%string), r) | None =>
  let '((t, err), r) := ReadFull 4 r in
  match err with Some e => Ok ((emptyBlockData, Some "could not decode timestamp"%string), r) | None =>
  let '((h, err), r) := rd_Read 32 r in
  match err with Some e => Ok ((emptyBlockData, Some "could not read the block hash"%string), r) | None =>
  '((l, err), r) ← decode_txs (Z.to_nat (be_val n)) r;
  match err with
  | Some e => Ok ((emptyBlockData, Some e), r)
  | None => Ok (({| BlockHash := read_array 32 h; Timestamp := be_val t; Froms := l.*1; Txs := l.*2 |}, None), r)
  end end end end.

(** [rlp.Decode] into a [types.Block] and into a [types.Transaction]. *)
Class BlockRlp := {
  rlp_DecodeBlock : list Z → Block + string;
  rlp_DecodeTx : list Z → Transaction + string }.

(** ** Blocks that can be encoded *)

Record block_ok (b : Block) : Prop := {
  bok_hash : is_hash (bl_Hash b);
  bok_txs : ∃ txs, bl_Transactions b = Some (Some <$> txs) ∧ Forall tx_ok txs ∧ zlen txs < 2 ^ 16 }.

(** ** Scanning and decoding what was encoded *)

Section facts.
Context `{Rlp, !RlpLaws}.

(** Advancing over an encoded list. *)
Lemma passRlpList_at r x l : zlen (rd_data r) < 2 ^ 62 → at_bytes r (rlp_Encode (IList x) ++ l) →
  passRlpList r = (None, rd_set r (rd_pos r + zlen (rlp_Encode (IList x)))).
Proof.
  rewrite rlp_list. set (p := concat _). intros Hs Hr. rewrite <-(assoc_L (++)) in Hr.
  pose proof (zlen_nonneg p) as Hp0. assert (zlen p < 2 ^ 62) as Hp.
  { destruct (at_bytes_Len _ _ Hr) as [_ E]. unfold rd_Size in E. rewrite !zlen_app in E. destruct Hr as [Hr _].
    pose proof (zlen_nonneg l). pose proof (zlen_nonneg (list_header (zlen p))). lia. }
  rewrite zlen_app. unfold passRlpList, list_header in *. case_decide as H55.
  - rewrite (rd_ReadByte_at r (0xc0 + zlen p) (p ++ l) Hr). rewrite decide_False, decide_True by lia.
    pose proof (at_bytes_skip r [0xc0 + zlen p] (p ++ l) Hr) as Hr'. change (zlen [0xc0 + zlen p]) with 1 in *.
    replace (0xc0 + zlen p - 0xc0) with (zlen p) by lia. rewrite (rd_Seek_at _ p l) by done. cbn [snd]. rewrite rd_set_set. do 2 f_equal. simpl. lia.
  - set (m := be_min (zlen p)) in *. destruct (be_min_length (zlen p) 8) as [Hm1 Hm8]; [lia|lia|]. fold m in Hm1, Hm8.
    rewrite (rd_ReadByte_at r (0xf7 + zlen m) (m ++ p ++ l) Hr). rewrite !decide_False by lia.
    pose proof (at_bytes_skip r [0xf7 + zlen m] (m ++ p ++ l) Hr) as Hr1. change (zlen [0xf7 + zlen m]) with 1 in Hr1.
    replace (Z.to_nat (0xf7 + zlen m - 0xf7)) with (length m) by (unfold zlen; lia). unfold zlen in Hm1, Hm8.
    rewrite (rd_Read_at _ m (p ++ l) (length m)) by (done || lia). rewrite read_array_full by done.
    pose proof (at_bytes_skip _ m (p ++ l) Hr1) as Hr2.
    assert (be_val (zero_bytes (8 - length m) ++ m) = zlen p) as ->.
    { rewrite be_val_app. unfold m at 3. rewrite be_min_val by lia. unfold zero_bytes.
      assert (∀ k, be_val (replicate k 0) = 0) as ->; [|lia]. induction k as [|k IH]; [done|]. rewrite replicate_S_end, be_val_app, IH. done. }
    rewrite (int64_id (zlen p)) by (unfold in_int64; lia). rewrite (rd_Seek_at _ p l) by done.
    cbn [snd]. rewrite !rd_set_set. do 2 f_equal. unfold zlen. cbn [rd_set rd_pos length]. lia.
Qed.

(** The bytes of the transactions. *)
Lemma encode_txs_spec txs : Forall tx_ok txs → ∀ w, ∃ bs, encode_txs (Some <$> txs) w = Ok (w ++ concat bs, None) ∧
  Forall2 (λ tx b, EncodeTxForCompression (Some tx) = Ok (b, None)) txs bs.
Proof.
  induction 1 as [|tx txs Htx _ IH]; intros w; [exists []; simpl; by rewrite app_nil_r|].
  destruct (DecodeTx_spec tx (NewBytesReader []) [] Htx) as (b & Eb & _).
  assert (∃ c, EncodeTxForCompression (Some tx) = Ok (c, None)) as [c Ec].
  { destruct Htx as (_ & _ & a & Ea & _). unfold EncodeTxForCompression, GetFrom. rewrite Ea. simpl. rewrite Eb. simpl. eauto. }
  rewrite fmap_cons. cbn [encode_txs]. rewrite Ec. cbn [mbind res_bind]. destruct (IH (w ++ c)) as (bs & -> & Hbs).
  exists (c :: bs). split; [by rewrite <-(assoc_L (++))|by constructor].
Qed.

(** A transaction on the wire: the sender, the type byte if any, and the list. *)
Lemma tx_wire tx b : tx_ok tx → EncodeTxForCompression (Some tx) = Ok (b, None) →
  ∃ from prefix f0 fields, tx_sender tx = Some from ∧ is_address from ∧
    b = from ++ prefix ++ rlp_Encode (IList (f0 :: fields)) ∧
    EncodeTxForSigning tx = Ok (prefix ++ rlp_Encode (IList (f0 :: fields))) ∧ (prefix = [] ∨ ∃ t, prefix = [t] ∧ t ≤ 4).
Proof.
  intros (Hd & _ & a & Ea & Ha). unfold EncodeTxForCompression, GetFrom, EncodeTxForSigning. rewrite Ea. cbn [mbind res_bind].
  destruct (tx_fields tx) as [[prefix fs]|] eqn:E; [|done]. cbn [mbind res_bind]. intros [= <-].
  assert (∃ f0 fields, fs = f0 :: fields) as (f0 & fields & ->).
  { unfold tx_fields in E. destruct (tx_inner tx); try done; try destruct (tx_Protected tx); injection E as _ <-; eauto. }
  exists a, prefix, f0, fields. split_and!; [done|done|done|done|].
  unfold tx_fields in E. destruct (tx_inner tx); try done; try destruct (tx_Protected tx); injection E as <- _;
    (by left) || (right; eexists; split; [reflexivity|by vm_compute]).
Qed.

Lemma scan_tx_at tx b l r n : tx_ok tx → EncodeTxForCompression (Some tx) = Ok (b, None) →
  zlen (rd_data r) < 2 ^ 62 → at_bytes r (b ++ l) → scan_txs (S n) r = scan_txs n (rd_set r (rd_pos r + zlen b)).
Proof.
  intros Htx Eb Hs Hr. destruct (tx_wire tx b Htx Eb) as (from & prefix & f0 & fields & _ & [_ Hfrom] & -> & _ & Hpre).
  set (e := rlp_Encode (IList (f0 :: fields))) in *. rewrite <-!(assoc_L (++)) in Hr.
  assert (zlen from = addressLen) as Hf by (unfold zlen; rewrite Hfrom; done).
  pose proof (at_bytes_skip r from _ Hr) as Hr1. cbn [scan_txs]. rewrite <-Hf, (rd_Seek_at r from _ Hs Hr). cbn [snd].
  set (r1 := rd_set r (rd_pos r + zlen from)) in *.
  assert (zlen e < 2 ^ 62) as He.
  { destruct (at_bytes_Len _ _ Hr1) as [_ E1]. unfold rd_Size in E1. change (rd_data r1) with (rd_data r) in E1. rewrite !zlen_app in E1.
    pose proof (zlen_nonneg prefix). pose proof (zlen_nonneg l). destruct Hr1 as [Hp _]. lia. }
  destruct (rlp_list_first f0 fields He) as (b0 & h & Eh & Hb0). fold e in Eh.
  destruct Hpre as [->|(t & -> & Ht)].
  - simpl app in *. assert (rd_ReadByte r1 = ((b0, None), rd_set r1 (rd_pos r1 + 1))) as ->.
    { rewrite Eh in Hr1. by apply (rd_ReadByte_at r1 b0 (h ++ l)). }
    rewrite decide_True by done. destruct Hr1 as [Hp1 Hl1]. unfold rd_UnreadByte. cbn [rd_pos rd_set]. rewrite decide_False by lia.
    rewrite rd_set_set. replace (rd_set r1 (rd_pos r1 + 1 - 1)) with r1 by (unfold rd_set; destruct r1; simpl; f_equal; lia).
    rewrite (passRlpList_at r1 (f0 :: fields) l) by done. fold e. rewrite zlen_app. f_equal. unfold r1. rewrite rd_set_set.
    f_equal. simpl. lia.
  - rewrite (rd_ReadByte_at r1 t (e ++ l)) by done. rewrite decide_False by lia.
    pose proof (at_bytes_skip r1 [t] (e ++ l) Hr1) as Hr2. rewrite (passRlpList_at (rd_set r1 (rd_pos r1 + 1)) (f0 :: fields) l) by done. fold e.
    rewrite !zlen_app. f_equal. unfold r1. rewrite !rd_set_set. f_equal. simpl. change (zlen [t]) with 1. lia.
Qed.

Lemma scan_txs_at txs bs : Forall2 (λ tx b, EncodeTxForCompression (Some tx) = Ok (b, None)) txs bs → Forall tx_ok txs →
  ∀ r l, zlen (rd_data r) < 2 ^ 62 → at_bytes r (concat bs ++ l) →
  scan_txs (length txs) r = (None, rd_set r (rd_pos r + zlen (concat bs))).
Proof.
  induction 1 as [|tx b txs bs Eb _ IH]; intros Hok r l Hs Hr.
  - simpl. f_equal. destruct r as [dd pp]. unfold rd_set. simpl. f_equal. unfold zlen. simpl. lia.
  - inversion_clear Hok as [|? ? Htx Hok']. cbn [concat] in *. rewrite <-(assoc_L (++)) in Hr. cbn [length].
    rewrite (scan_tx_at tx b (concat bs ++ l)) by done. rewrite (IH Hok' _ l); [|done|by apply at_bytes_skip].
    rewrite rd_set_set, zlen_app. do 2 f_equal. simpl. lia.
Qed.

Lemma decode_txs_at txs bs : Forall2 (λ tx b, EncodeTxForCompression (Some tx) = Ok (b, None)) txs bs → Forall tx_ok txs →
  ∀ r l, zlen (rd_data r) < 2 ^ 62 → at_bytes r (concat bs ++ l) → ∃ out,
  decode_txs (length txs) r = Ok ((out, None), rd_set r (rd_pos r + zlen (concat bs))) ∧
  Some <$> out.*1 = tx_sender <$> txs ∧ out.*2 = (λ tx, Some (tx_inner tx)) <$> txs.
Proof.
  induction 1 as [|tx b txs bs Eb _ IH]; intros Hok r l Hs Hr.
  - exists []. split; [|done]. simpl. do 2 f_equal. destruct r as [dd pp]. unfold rd_set. simpl. f_equal. unfold zlen. simpl. lia.
  - inversion_clear Hok as [|? ? Htx Hok']. cbn [concat] in *. rewrite <-(assoc_L (++)) in Hr. cbn [length decode_txs].
    destruct (tx_wire tx b Htx Eb) as (from & prefix & f0 & fields & Esender & [_ Hfrom] & Ewire & Esign & _).
    set (e := prefix ++ rlp_Encode (IList (f0 :: fields))) in *. pose proof Hr as Hr0. rewrite Ewire, <-(assoc_L (++)) in Hr0.
    pose proof (at_bytes_skip r from _ Hr0) as Hr1. unfold DecodeTxFromUncompressed. rewrite (rd_Read_at r from _ 20) by (done || lia).
    rewrite read_array_full by done.
    destruct (DecodeTx_spec tx (rd_set r (rd_pos r + zlen from)) (concat bs ++ l) Htx) as (e' & Ee' & _ & Hdec).
    rewrite Esign in Ee'. injection Ee' as <-. destruct Hdec as [_ Hdec].
    { destruct (at_bytes_Len _ _ Hr1) as [_ E1]. unfold rd_Size in E1. simpl rd_data in E1. rewrite !zlen_app in E1.
      pose proof (zlen_nonneg l). pose proof (zlen_nonneg (concat bs)). destruct Hr1 as [Hp _]. lia. }
    rewrite (Hdec Hr1). cbn [mbind res_bind].
    assert (rd_set (rd_set r (rd_pos r + zlen from)) (rd_pos (rd_set r (rd_pos r + zlen from)) + zlen e) = rd_set r (rd_pos r + zlen b)) as ->.
    { rewrite rd_set_set, Ewire, zlen_app. f_equal. simpl. lia. }
    destruct (IH Hok' (rd_set r (rd_pos r + zlen b)) l) as (out & -> & E1 & E2); [done|by apply at_bytes_skip|].
    exists ((from, Some (tx_inner tx)) :: out). cbn [mbind res_bind]. split_and!.
    + rewrite rd_set_set, zlen_app. do 2 f_equal. f_equal. simpl. lia.
    + rewrite !fmap_cons. cbn [fst]. by rewrite E1, Esender.
    + rewrite !fmap_cons. cbn [snd]. by rewrite E2.
Qed.

(** The bytes of a block. *)
Lemma EncodeBlock_spec bl : block_ok bl → ∃ txs bs b, bl_Transactions bl = Some (Some <$> txs) ∧
  Forall tx_ok txs ∧ zlen txs < 2 ^ 16 ∧
  Forall2 (λ tx b, EncodeTxForCompression (Some tx) = Ok (b, None)) txs bs ∧
  b = be_bytes 2 (zlen txs) ++ be_bytes 4 (bl_Time bl mod 2 ^ 32) ++ bl_Hash bl ++ concat bs ∧
  EncodeBlockForCompression (Some bl) = Ok (b, None).
Proof.
  intros [Hh (txs & Etxs & Hok & Hlen)].
  destruct (encode_txs_spec txs Hok (be_bytes 2 (zlen txs) ++ be_bytes 4 (bl_Time bl mod 2 ^ 32) ++ bl_Hash bl)) as (bs & E & Hbs).
  exists txs, bs, (be_bytes 2 (zlen txs) ++ be_bytes 4 (bl_Time bl mod 2 ^ 32) ++ bl_Hash bl ++ concat bs). split_and!; [done|done|done|done|done|].
  unfold EncodeBlockForCompression. rewrite Etxs. assert (zlen (Some <$> txs) = zlen txs) as -> by (unfold zlen; by rewrite length_fmap).
  pose proof (zlen_nonneg txs). rewrite (Z.mod_small (zlen txs)) by lia. rewrite E, <-!(assoc_L (++)). done.
Qed.

(** [ScanBlockByteLen] finds the end of an encoded block, whatever follows. *)
Lemma ScanBlock_spec bl b l : block_ok bl → EncodeBlockForCompression (Some bl) = Ok (b, None) → zlen (b ++ l) < 2 ^ 62 →
  ScanBlockByteLen (b ++ l) = (zlen b, None) ∧ 38 ≤ zlen b.
Proof.
  intros Hbl Eb Hs. destruct (EncodeBlock_spec bl Hbl) as (txs & bs & b' & _ & Hok & Hlen & Hbs & Eb' & E).
  rewrite E in Eb. injection Eb as <-. destruct (bok_hash _ Hbl) as [_ Hh]. pose proof (zlen_nonneg txs) as Hn0.
  set (h := be_bytes 4 (bl_Time bl mod 2 ^ 32) ++ bl_Hash bl). assert (zlen h = preTxBufSize) as Hpre by (unfold h; rewrite zlen_app; unfold zlen; rewrite be_bytes_length, Hh; done).
  assert (b' = be_bytes 2 (zlen txs) ++ h ++ concat bs) as -> by (rewrite Eb'; unfold h; by rewrite <-!(assoc_L (++))).
  assert (zlen (be_bytes 2 (zlen txs)) = 2) as H2 by (unfold zlen; by rewrite be_bytes_length).
  pose proof (at_bytes_new ((be_bytes 2 (zlen txs) ++ h ++ concat bs) ++ l)) as Hr0. set (r0 := NewBytesReader _) in *.
  assert (zlen (rd_data r0) < 2 ^ 62) as Hs0 by exact Hs. rewrite <-!(assoc_L (++)) in Hr0.
  split; [|rewrite !zlen_app, H2, Hpre; unfold preTxBufSize; pose proof (zlen_nonneg (concat bs)); lia].
  unfold ScanBlockByteLen. fold r0. rewrite (rd_ReadFull_at r0 _ _ 2 (be_bytes_length _ _) ltac:(lia) Hr0).
  pose proof (at_bytes_skip r0 _ _ Hr0) as Hr1. set (r1 := rd_set r0 _) in *.
  rewrite <-Hpre, (rd_Seek_at r1 h _ Hs0 Hr1). cbn [snd]. pose proof (at_bytes_skip _ h _ Hr1) as Hr2. unfold r1 in *.
  rewrite be_val_bytes, Z.mod_small by (change (256 ^ Z.of_nat 2) with (2 ^ 16); lia).
  replace (Z.to_nat (zlen txs)) with (length txs) by (unfold zlen; lia).
  rewrite (scan_txs_at txs bs Hbs Hok _ l) by done. rewrite !rd_set_set.
  pose proof (at_bytes_skip _ (concat bs) l Hr2) as Hr3. rewrite !rd_set_set in Hr3. destruct (at_bytes_Len _ _ Hr3) as [-> ->].
  cbn [rd_pos rd_set]. rewrite !zlen_app. change (rd_pos r0) with 0. f_equal. lia.
Qed.

(** Decoding gives back the block, up to the timestamp modulo 2^32. *)
Lemma DecodeBlock_spec bl b l r : block_ok bl → EncodeBlockForCompression (Some bl) = Ok (b, None) →
  zlen (rd_data r) < 2 ^ 62 → at_bytes r (b ++ l) → ∃ d,
  DecodeBlockFromUncompressed r = Ok ((d, None), rd_set r (rd_pos r + zlen b)) ∧
  BlockHash d = bl_Hash bl ∧ Timestamp d = bl_Time bl mod 2 ^ 32 ∧
  ∃ txs, bl_Transactions bl = Some (Some <$> txs) ∧ Some <$> Froms d = tx_sender <$> txs ∧ Txs d = (λ tx, Some (tx_inner tx)) <$> txs.
Proof.
  intros Hbl Eb Hs Hr0. destruct (EncodeBlock_spec bl Hbl) as (txs & bs & b' & Etxs & Hok & Hlen & Hbs & Eb' & E).
  rewrite E in Eb. injection Eb as <-. destruct (bok_hash _ Hbl) as [_ Hh]. pose proof (zlen_nonneg txs) as Hn0.
  rewrite Eb', <-!(assoc_L (++)) in Hr0. unfold DecodeBlockFromUncompressed.
  rewrite (rd_ReadFull_at r _ _ 2 (be_bytes_length _ _) ltac:(lia) Hr0). pose proof (at_bytes_skip r _ _ Hr0) as Hr1. set (r1 := rd_set r _) in *.
  rewrite (rd_ReadFull_at r1 _ _ 4 (be_bytes_length _ _) ltac:(lia) Hr1). pose proof (at_bytes_skip r1 _ _ Hr1) as Hr2. set (r2 := rd_set r1 _) in *.
  rewrite (rd_Read_at r2 _ _ 32) by (done || lia). pose proof (at_bytes_skip r2 _ _ Hr2) as Hr3. set (r3 := rd_set r2 _) in *.
  rewrite !be_val_bytes, (Z.mod_small (zlen txs)) by (change (256 ^ Z.of_nat 2) with (2 ^ 16); lia).
  replace (Z.to_nat (zlen txs)) with (length txs) by (unfold zlen; lia).
  destruct (decode_txs_at txs bs Hbs Hok r3 l) as (out & -> & E1 & E2); [done|done|]. cbn [mbind res_bind]. eexists. split_and!.
  - do 2 f_equal. unfold r3, r2, r1. rewrite !rd_set_set, Eb', !zlen_app. f_equal. simpl. lia.
  - by apply read_array_full.
  - cbn [Timestamp]. change (256 ^ Z.of_nat 4) with (2 ^ 32). apply Z.mod_mod. lia.
  - exists txs. done.
Qed.

Lemma EncodeTx_bytes tx b : tx_ok tx → EncodeTxForCompression (Some tx) = Ok (b, None) → zlen b < 2 ^ 62 → Forall is_byte b.
Proof.
  intros Htx Eb Hl. destruct (tx_wire tx b Htx Eb) as (from & prefix & f0 & fields & _ & [Hfrom _] & -> & Es & _).
  destruct (DecodeTx_spec tx (NewBytesReader []) [] Htx) as (e & Ee & _ & He). rewrite Es in Ee. injection Ee as <-.
  apply Forall_app. split; [done|]. apply He. rewrite zlen_app in Hl. pose proof (zlen_nonneg from). lia.
Qed.

Lemma EncodeBlock_bytes bl b : block_ok bl → EncodeBlockForCompression (Some bl) = Ok (b, None) → zlen b < 2 ^ 62 → Forall is_byte b.
Proof.
  intros Hbl Eb Hl. destruct (EncodeBlock_spec bl Hbl) as (txs & bs & b' & _ & Hok & _ & Hbs & Eb' & E). rewrite E in Eb. injection Eb as <-.
  rewrite Eb' in *. rewrite !Forall_app. split_and!; [apply be_bytes_is_byte|apply be_bytes_is_byte|apply (bok_hash _ Hbl)|].
  assert (zlen (concat bs) < 2 ^ 62) as Hc.
  { rewrite !zlen_app in Hl. pose proof (zlen_nonneg (be_bytes 2 (zlen txs))). pose proof (zlen_nonneg (be_bytes 4 (bl_Time bl mod 2 ^ 32))).
    pose proof (zlen_nonneg (bl_Hash bl)). lia. }
  clear -Hbs Hok Hc H0. induction Hbs as [|tx b txs bs Eb _ IH]; [constructor|]. inversion_clear Hok. cbn [concat] in *. rewrite zlen_app in Hc.
  pose proof (zlen_nonneg b). pose proof (zlen_nonneg (concat bs)). apply Forall_app. split; [eapply EncodeTx_bytes; [done|done|lia]|apply IH; [done|lia]].
Qed.
End facts.
