(* ===== verification/CompressorApi.v ===== *)
(** * The compressor the blob makers rely on

    The interface of an LZSS compressor as both blob makers call it. The v0 maker
    uses the compressor of the repository (src/prover/lib/compressor/blob/v0/compress/lzss,
    modelled by [Lzss], which discharges the laws in [LzssApi]); the v1 and v2 makers
    call the package github.com/consensys/compress/lzss, of which only this interface
    is known: a byte string with one level of undo, whose output decompresses to
    the bytes written. *)

From S2P Require Export Rlp.

Class CompressorOps (C : Type) := {
  cz_MaxInputSize : Z;
  cz_HeaderSize : Z;
  cz_AugmentDict : list Z → list Z;
  cz_NewCompressor : list Z → res (option C * gerr);
  cz_Reset : C → C;
  cz_Write : C → list Z → res (C * Z * gerr);
  cz_Revert : C → res (C * gerr);
  cz_ConsiderBypassing : C → C * bool;
  cz_Len : C → Z;
  cz_Written : C → Z;
  cz_WrittenBytes : C → list Z;
  cz_Bytes : C → list Z;
  cz_CompressedSize256k : C → list Z → res (Z * gerr);
  cz_Decompress : list Z → list Z → res (list Z * gerr) }.

(** [cz_rep dict c s p]: the compressor for [dict] holds the bytes [s]; [Revert] is
    allowed when [p] is [Some p'], and goes back to [p']. *)
Class CompressorLaws C `{CompressorOps C} := {
  cz_rep : list Z → C → list Z → option (list Z) → Prop;
  cz_new dict c : cz_NewCompressor dict = Ok (Some c, None) → cz_rep dict c [] (Some []);
  cz_reset dict c s p : cz_rep dict c s p → cz_rep dict (cz_Reset c) [] (Some []);
  cz_write dict c s p d : cz_rep dict c s p → Forall is_byte d → zlen s + zlen d ≤ cz_MaxInputSize →
    ∃ c', cz_Write c d = Ok (c', zlen d, None) ∧ cz_rep dict c' (s ++ d) (Some s);
  cz_revert dict c s p : cz_rep dict c s (Some p) → ∃ c', cz_Revert c = Ok (c', None) ∧ cz_rep dict c' p None;
  (** Writing again what was reverted takes the same space. *)
  cz_rewrite dict c s p d c1 c2 : cz_rep dict c s p → Forall is_byte d → zlen s + zlen d ≤ cz_MaxInputSize →
    cz_Write c d = Ok (c1, zlen d, None) → cz_Revert c1 = Ok (c2, None) →
    ∃ c3, cz_Write c2 d = Ok (c3, zlen d, None) ∧ cz_Len c3 = cz_Len c1;
  (** The space a first write takes depends on nothing but the dictionary. *)
  cz_fresh dict c1 s1 p1 c2 s2 p2 d c1' c2' n1 n2 : cz_rep dict c1 s1 p1 → cz_rep dict c2 s2 p2 →
    Forall is_byte d → zlen d ≤ cz_MaxInputSize →
    cz_Write (cz_Reset c1) d = Ok (c1', n1, None) → cz_Write (cz_Reset c2) d = Ok (c2', n2, None) →
    cz_Len c1' = cz_Len c2';
  (** Bypassing stores the bytes as they are after the header, when that is shorter. *)
  cz_bypass dict c s p : cz_rep dict c s p →
    cz_rep dict (cz_ConsiderBypassing c).1 s p ∧
    (cz_ConsiderBypassing c).2 = bool_decide (zlen s + cz_HeaderSize < cz_Len c) ∧
    ((cz_ConsiderBypassing c).2 = true → cz_Len (cz_ConsiderBypassing c).1 = zlen s + cz_HeaderSize);
  cz_content dict c s p : cz_rep dict c s p → Forall is_byte s ∧ Forall is_byte (cz_Bytes c) ∧
    cz_Len c = zlen (cz_Bytes c) ∧ cz_WrittenBytes c = s ∧ cz_Written c = zlen s ∧
    cz_Decompress (cz_Bytes c) dict = Ok (s, None) }.
