(* ===== verification/Dictionary.v ===== *)
(** * The store of compression dictionaries

    Models src/prover/lib/compressor/blob/dictionary/dictionary.go: the checksum of a
    dictionary for a version of the blob format, and the [Store] that finds a
    dictionary by its checksum. A [Store] holds a map per version; dictionaries are
    loaded for the most recent version only, and [Get] fills the map of an older
    version when it misses. The hash functions are those of gnark; Go's unspecified
    iteration order over a map is [range]. *)

From S2P Require Export Pack.

Class DictHash := {
  mimc_Sum : list Z → list Z;
  poseidon2_Sum : list Z → list Z;
  ChecksumPaddedBytes : list Z → list Z }.

(** [for _, dict := range m]: the values, in some order. *)
Class MapRange := { range : gmap (list Z) (list Z) → list (list Z) }.
Class MapRangeLaws `{MapRange} : Prop := { range_perm m : range m ≡ₚ (map_to_list m).*2 }.

(** A nil map is [None]: reading it finds nothing, writing to it panics. *)
Notation Store := (list (option (gmap (list Z) (list Z)))) (only parsing).

Definition map_len (m : option (gmap (list Z) (list Z))) : Z := Z.of_nat (size (default ∅ m)).

Section dictionary.
Context `{DictHash, MapRange, BitWriter W, BitReader R}.

Definition Checksum (dict : list Z) (version : Z) : res (list Z * gerr) :=
  if decide (version = 2) then ChecksumPackedData (W := W) (R := R) poseidon2_Sum dict 8 []
  else if decide (version = 1) then ChecksumPackedData (W := W) (R := R) mimc_Sum dict 8 []
  else if decide (version = 0) then Ok (ChecksumPaddedBytes dict, None)
  else Ok ([], Some "unsupported version"%string).

Definition add (s : Store) (dict : list Z) (version : Z) : res (Store * gerr) :=
  '(checksum, err) ← Checksum dict version;
  match err with Some e => Ok (s, Some e) | None =>
  m ← idx s version;
  let existing := m ≫= lookup checksum in
  if decide (existing ≠ None ∧ existing ≠ Some dict) then Ok (s, Some "unmatching dictionary found"%string)
  else
    match m with
    | None => Panic
    | Some m => s ← store s version (Some (<[checksum := dict]> m)); Ok (s, None)
    end
  end.

(** The loops stop at the first error. *)
Fixpoint add_all (s : Store) (dicts : list (list Z)) (version : Z) : res (Store * gerr) :=
  match dicts with
  | [] => Ok (s, None)
  | d :: dicts' =>
      '(s, err) ← add s d version;
      match err with Some e => Ok (s, Some e) | None => add_all s dicts' version end
  end.

Section load.
(** [os.ReadFile] *)
Context (ReadFile : string → list Z * gerr).

Fixpoint Load_loop (s : Store) (paths : list string) (vsn : Z) : res (Store * gerr) :=
  match paths with
  | [] => Ok (s, None)
  | p :: paths' =>
      let '(dict, err) := ReadFile p in
      match err with Some e => Ok (s, Some e) | None =>
      '(s, err) ← add s dict vsn;
      match err with Some e => Ok (s, Some e) | None => Load_loop s paths' vsn end
      end
  end.

Definition Load (s : Store) (paths : list string) : res (Store * gerr) :=
  let vsn := (zlen s mod 2 ^ 16 - 1) mod 2 ^ 16 in
  Load_loop s paths vsn.

Definition NewStore (paths : list string) : res Store :=
  '(s, err) ← Load (replicate 3 (Some ∅)) paths;
  match err with Some e => Panic | None => Ok s end.
End load.

Definition SingletonStore (dict : list Z) (version : Z) : res (Store * gerr) :=
  let s := replicate (Z.to_nat ((version + 1) mod 2 ^ 16)) None in
  '(key, err) ← Checksum dict version;
  s ← store s version (Some (<[key := dict]> ∅));
  Ok (s, err).

(** [Get]; the store it leaves is returned too. The recursive call is the code's;
    a recursion without end exhausts the stack, a panic. *)
Fixpoint Get (fuel : nat) (s : Store) (checksum : list Z) (version : Z) : res (Store * list Z * gerr) :=
  if decide (zlen s ≤ version) then Ok (s, [], Some "unrecognized blob version"%string)
  else
    m ← idx s version;
    match m ≫= lookup checksum with
    | Some d => Ok (s, d, None)
    | None =>
        last ← idx s (zlen s - 1);
        if decide (map_len m ≠ map_len last) then
          '(s, err) ← add_all s (range (default ∅ last)) version;
          match err with
          | Some e => Ok (s, [], Some e)
          | None => match fuel with O => Panic | S fuel' => Get fuel' s checksum version end
          end
        else Ok (s, [], Some "no dictionary found in store with checksum"%string)
    end.

End dictionary.

(** ** What a store finds *)

Section facts.
Context `{DictHash, MapRange, !MapRangeLaws, BitWriterSpec W, BitReaderSpec R}.
Notation Checksum := (Checksum (W := W) (R := R)).
Notation add := (add (W := W) (R := R)).
Notation add_all := (add_all (W := W) (R := R)).
Notation Get := (Get (W := W) (R := R)).

Lemma good_252 : good_size 252.
Proof. split; [lia|by vm_compute]. Qed.

(** Packing bytes for the hash never fails. *)
Lemma ChecksumPackedData_ok Sum dict : Forall is_byte dict →
  ∃ b, ChecksumPackedData (W := W) (R := R) Sum dict 8 [] = Ok (Sum b, None).
Proof.
  intros Hd. destruct (PackAlign_spec (R := R) dict 252 [WithLastByteNbUnusedBits 0] good_252) as (n & z & _ & _ & _ & _ & E).
  { split; cbn; [by split; [|constructor]|lia|by right|by left]. }
  unfold ChecksumPackedData, PackData. rewrite decide_False by (vm_compute; intros Hx; by apply Hx). cbn [mbind res_bind].
  rewrite Z.rem_mul by lia. cbn [Z.sub]. change (8 - 0) with 8. rewrite decide_True by done. unfold newLastByteNbUnusedBits.
  change (0 mod 256) with 0. rewrite decide_False by lia. cbn [mbind res_bind app]. change (frBits - 1) with 252. rewrite E. cbn [mbind res_bind]. eauto.
Qed.

Lemma Checksum_ok dict v : Forall is_byte dict → 0 ≤ v ≤ 2 → ∃ h, Checksum dict v = Ok (h, None).
Proof.
  intros Hd Hv. unfold Checksum. repeat case_decide; try lia; eauto; destruct (ChecksumPackedData_ok poseidon2_Sum dict Hd) as [b1 E1];
    destruct (ChecksumPackedData_ok mimc_Sum dict Hd) as [b2 E2]; eauto.
Qed.

(** [m] caches, for version [v], dictionaries of [D] under their checksums. *)
Definition cache (D : gset (list Z)) (v : Z) (m : gmap (list Z) (list Z)) : Prop :=
  ∀ k d, m !! k = Some d → d ∈ D ∧ Checksum d v = Ok (k, None).

Definition full (D : gset (list Z)) (v : Z) (m : gmap (list Z) (list Z)) : Prop :=
  ∀ k d, d ∈ D → Checksum d v = Ok (k, None) → m !! k = Some d.

(** Two dictionaries of [D] with one checksum are one dictionary. *)
Definition no_collision (D : gset (list Z)) (v : Z) : Prop :=
  ∀ d d' k, d ∈ D → d' ∈ D → Checksum d v = Ok (k, None) → Checksum d' v = Ok (k, None) → d = d'.

(** A store for the dictionaries [D], as [NewStore] makes it: three maps, of which
    the last holds all of [D]. *)
Record store_inv (D : gset (list Z)) (s : Store) : Prop := {
  si_len : zlen s = 3;
  si_bytes d : d ∈ D → Forall is_byte d;
  si_cache v : 0 ≤ v ≤ 2 → ∃ m, idx s v = Ok (Some m) ∧ cache D v m;
  si_full m : idx s 2 = Ok (Some m) → full D 2 m }.

Lemma cache_values D v m : cache D v m → NoDup (map_to_list m).*2 ∧ ∀ d, d ∈ (map_to_list m).*2 → d ∈ D.
Proof.
  intros Hc. split.
  - apply NoDup_fmap_2_strong; [|apply NoDup_map_to_list]. intros [k d] [k' d'] M1%elem_of_map_to_list M2%elem_of_map_to_list [= <-].
    apply Hc in M1 as [_ E1]. apply Hc in M2 as [_ E2]. simpl in *. congruence.
  - intros d ([k d'] & -> & M1%elem_of_map_to_list)%list_elem_of_fmap. by apply Hc in M1 as [? _].
Qed.

Lemma map_size (m : gmap (list Z) (list Z)) : size m = length (map_to_list m).*2.
Proof. by rewrite length_fmap, length_map_to_list. Qed.

(** A cache is complete exactly when it has as many entries as there are
    dictionaries: the test [Get] makes. *)
Lemma cache_full D v m : 0 ≤ v ≤ 2 → (∀ d, d ∈ D → Forall is_byte d) → cache D v m → full D v m ↔ size m = size D.
Proof.
  intros Hv Hb Hc. destruct (cache_values D v m Hc) as [Hnd Hsub]. rewrite map_size. assert (size D = length (elements D)) as -> by done. split.
  - intros Hf. apply Permutation_length, NoDup_Permutation; [done|apply NoDup_elements|]. intros d. rewrite elem_of_elements.
    split; [apply Hsub|]. intros Hd. destruct (Checksum_ok d v (Hb d Hd) Hv) as [k Ek]. apply list_elem_of_fmap. exists (k, d).
    split; [done|]. apply elem_of_map_to_list. by apply Hf.
  - intros El k d Hd Ek. assert ((map_to_list m).*2 ≡ₚ elements D) as Hp.
    { apply submseteq_length_Permutation; [|lia]. apply NoDup_submseteq; [done|]. intros x Hx. apply elem_of_elements. by apply Hsub. }
    assert (d ∈ (map_to_list m).*2) as ([k' d'] & -> & Hm%elem_of_map_to_list)%list_elem_of_fmap by (rewrite Hp; by apply elem_of_elements).
    destruct (Hc _ _ Hm) as [_ E']. simpl in *. congruence.
Qed.

Lemma add_ok D s v m d k : cache D v m → no_collision D v → idx s v = Ok (Some m) → d ∈ D → Checksum d v = Ok (k, None) →
  add s d v = Ok (<[Z.to_nat v := Some (<[k := d]> m)]> s, None) ∧ cache D v (<[k := d]> m).
Proof.
  intros Hc Hn Hs Hd Hk. split.
  - unfold add. rewrite Hk. cbn [mbind res_bind]. rewrite Hs. cbn [mbind res_bind option_bind]. rewrite decide_False.
    2:{ intros [M1 M2]. destruct (m !! k) as [d'|] eqn:E; [|done]. destruct (Hc _ _ E) as [Hd' Ek']. by rewrite (Hn d d' k) in M2. }
    apply idx_Ok in Hs as [Hv Hs]. apply lookup_lt_Some in Hs. rewrite store_Ok by (unfold zlen; lia). done.
  - intros k' d' [[<- <-]|[_ E]]%lookup_insert_Some; [done|by apply Hc].
Qed.

Lemma add_all_ok D v : 0 ≤ v ≤ 2 → (∀ d, d ∈ D → Forall is_byte d) → no_collision D v →
  ∀ dicts s m, (∀ d, d ∈ dicts → d ∈ D) → cache D v m → idx s v = Ok (Some m) →
  ∃ m', add_all s dicts v = Ok (<[Z.to_nat v := Some m']> s, None) ∧ cache D v m' ∧
    (∀ d k, Checksum d v = Ok (k, None) → d ∈ dicts ∨ m !! k = Some d → m' !! k = Some d).
Proof.
  intros Hv Hb Hn. induction dicts as [|d dicts IH]; intros s m Hd Hc Hs; cbn [add_all].
  - exists m. split_and!; [|done|intros d k _ [Hx|]; [by apply not_elem_of_nil in Hx|done]].
    apply idx_Ok in Hs as [_ Hs]. by rewrite list_insert_id.
  - assert (d ∈ D) as HdD by (apply Hd, list_elem_of_here). destruct (Checksum_ok d v (Hb d HdD) Hv) as [k Ek].
    destruct (add_ok D s v m d k) as [-> Hc']; [done..|]. cbn [mbind res_bind].
    assert (v < zlen s) as Hlt by (apply idx_Ok in Hs as [_ Hs]; apply lookup_lt_Some in Hs; unfold zlen; lia).
    destruct (IH (<[Z.to_nat v := Some (<[k := d]> m)]> s) (<[k := d]> m)) as (m' & -> & Hm' & Hf); [|done| |].
    { intros x Hx. apply Hd. by apply list_elem_of_further. }
    { apply idx_Ok. split; [lia|]. apply list_lookup_insert_eq. unfold zlen in Hlt. lia. }
    exists m'. split_and!; [by rewrite list_insert_insert_eq|done|]. intros d' k' Ek' Hin. apply Hf; [done|].
    destruct (decide (k' = k)) as [->|Hne].
    + right. rewrite lookup_insert_eq. f_equal. apply (Hn d d' k); [done| |done|done].
      destruct Hin as [Hin|Hin]; [by apply Hd|by apply Hc in Hin as [? _]].
    + rewrite lookup_insert_ne by done. destruct Hin as [[->|Hin]%elem_of_cons|Hin]; [congruence|by left|by right].
Qed.

Lemma store_inv_insert D s v m : store_inv D s → 0 ≤ v ≤ 2 → cache D v m → full D v m → store_inv D (<[Z.to_nat v := Some m]> s).
Proof.
  intros [Hl Hb Hc Hf] Hv Hm Hfm. unfold zlen in Hl.
  assert (∀ v', 0 ≤ v' ≤ 2 → idx (<[Z.to_nat v := Some m]> s) v' = if decide (v' = v) then Ok (Some m) else idx s v') as Hidx.
  { intros v' Hv'. case_decide as Heq.
    - subst v'. apply idx_Ok. split; [lia|]. apply list_lookup_insert_eq. lia.
    - destruct (Hc v' Hv') as (m' & E & _). rewrite E. apply idx_Ok in E as [_ E]. apply idx_Ok. split; [lia|].
      etransitivity; [apply list_lookup_insert_ne; lia|done]. }
  split; [unfold zlen; etransitivity; [apply f_equal, length_insert|done]|done| |].
  - intros v' Hv'. rewrite Hidx by done. case_decide; [subst; eauto|by apply Hc].
  - intros m'. rewrite Hidx by lia. case_decide; [intros [= <-]; by subst|apply Hf].
Qed.

(** [Get] finds exactly the dictionaries of the store, at every version. *)
Lemma Get_ok D s v k : store_inv D s → 0 ≤ v ≤ 2 → no_collision D v →
  ∃ s', store_inv D s' ∧
    ((∃ d, d ∈ D ∧ Checksum d v = Ok (k, None) ∧ Get 1 s k v = Ok (s', d, None)) ∨
     ((∀ d, d ∈ D → Checksum d v ≠ Ok (k, None)) ∧
      Get 1 s k v = Ok (s', [], Some "no dictionary found in store with checksum"%string))).
Proof.
  intros Hs Hv Hn. pose proof Hs as [Hl Hb Hc Hf]. destruct (Hc v Hv) as (m & Em & Hm). destruct (Hc 2) as (m2 & Em2 & Hm2); [lia|].
  pose proof (proj1 (cache_full D 2 m2 ltac:(lia) Hb Hm2) (Hf m2 Em2)) as Hsz.
  cbn [Dictionary.Get]. rewrite !Hl, decide_False by lia. change (3 - 1) with 2. rewrite Em, Em2. cbn [mbind res_bind option_bind]. unfold map_len. cbn [default].
  destruct (m !! k) as [d|] eqn:Ek. { exists s. split; [done|]. left. exists d. by apply Hm in Ek as [? ?]. }
  cbn [default from_option id]. case_decide as Hne.
  - destruct (add_all_ok D v Hv Hb Hn (range m2) s m) as (m' & -> & Hm' & Hall); [|done|done|].
    { intros d. rewrite range_perm. apply (cache_values D 2 m2 Hm2). }
    cbn [mbind res_bind Dictionary.Get]. assert (full D v m') as Hf'.
    { intros k' d Hd Ek'. apply Hall; [done|]. left. rewrite range_perm. destruct (Checksum_ok d 2 (Hb d Hd)) as [k2 E2]; [lia|].
      apply list_elem_of_fmap. exists (k2, d). split; [done|]. apply elem_of_map_to_list. by apply (Hf m2 Em2). }
    pose proof (store_inv_insert D s v m' Hs Hv Hm' Hf') as Hs'. set (s' := <[Z.to_nat v := Some m']> s) in *. exists s'. split; [done|].
    pose proof Hs' as [Hl' _ Hc' Hfs']. rewrite !Hl', decide_False by lia. change (3 - 1) with 2.
    assert (idx s' v = Ok (Some m')) as Em'.
    { apply idx_Ok. split; [lia|]. apply list_lookup_insert_eq. unfold zlen in Hl. lia. }
    rewrite Em'. cbn [mbind res_bind option_bind]. destruct (m' !! k) as [d|] eqn:Ek'.
    { left. exists d. by apply Hm' in Ek' as [? ?]. }
    right. split. { intros d Hd E. apply Hf' in E; [|done]. congruence. }
    destruct (Hc' 2) as (m2' & Em2' & Hm2'); [lia|]. rewrite Em2'. cbn [mbind res_bind]. unfold map_len. cbn [default from_option id].
    pose proof (proj1 (cache_full D 2 m2' ltac:(lia) Hb Hm2') (Hfs' m2' Em2')). pose proof (proj1 (cache_full D v m' Hv Hb Hm') Hf').
    by rewrite decide_False by lia.
  - exists s. split; [done|]. right. split; [|done]. intros d Hd E. assert (full D v m) as Hfm by (apply (cache_full D v m Hv Hb Hm); lia).
    apply Hfm in E; [|done]. congruence.
Qed.

(** Loading one more dictionary. *)
Lemma add_inv D s d : store_inv D s → Forall is_byte d → no_collision ({[d]} ∪ D) 2 →
  ∃ s', add s d 2 = Ok (s', None) ∧ store_inv ({[d]} ∪ D) s'.
Proof.
  intros [Hl Hb Hc Hf] Hd Hn. set (D' := {[d]} ∪ D) in *. destruct (Hc 2) as (m & Em & Hm); [lia|].
  assert (∀ v m, cache D v m → cache D' v m) as Hmono by (intros v m' Hm' k x Hx; apply Hm' in Hx as [? ?]; split; [set_solver|done]).
  destruct (Checksum_ok d 2 Hd) as [k Ek]; [lia|]. destruct (add_ok D' s 2 m d k) as [-> Hc']; [by apply Hmono|done|done|set_solver|done|].
  eexists. split; [done|]. assert (∀ x, x ∈ D' → Forall is_byte x) as Hb' by (intros x [->%elem_of_singleton|]%elem_of_union; eauto).
  unfold zlen in Hl. split.
  - unfold zlen. etransitivity; [apply f_equal, length_insert|done].
  - done.
  - intros v Hv. destruct (decide (v = 2)) as [->|]; [exists (<[k := d]> m); split; [|done]; apply idx_Ok; split; [lia|]; apply list_lookup_insert_eq; lia|].
    destruct (Hc v Hv) as (mv & [? E]%idx_Ok & Hmv). exists mv. split; [|by apply Hmono]. apply idx_Ok. split; [done|].
    etransitivity; [apply list_lookup_insert_ne; lia|done].
  - intros m' [_ Em']%idx_Ok. rewrite list_lookup_insert_eq in Em' by lia. injection Em' as <-. intros k' x Hx Ex.
    destruct (decide (x = d)) as [->|Hne]; [assert (k' = k) as -> by congruence; apply lookup_insert_eq|].
    rewrite lookup_insert_ne; [apply (Hf m Em); [set_solver|done]|]. intros <-. apply Hne. symmetry. apply (Hn d x k); [set_solver|done|done|done].
Qed.

Lemma NewStore_inv : store_inv ∅ (replicate 3 (Some ∅)).
Proof.
  split; [done|set_solver| |intros m _ k d Hd; set_solver]. intros v Hv. exists ∅. split; [|intros k d Hx; by rewrite lookup_empty in Hx].
  apply idx_Ok. split; [lia|]. apply lookup_replicate. split; [done|lia].
Qed.

(** [NewStore] of readable files without collisions for version 2. *)
Lemma Load_ok ReadFile paths : ∀ D s, store_inv D s →
  Forall (λ p, ∃ d, ReadFile p = (d, None) ∧ Forall is_byte d) paths →
  no_collision (list_to_set ((λ p, (ReadFile p).1) <$> paths) ∪ D) 2 →
  ∃ s', Load_loop (W := W) (R := R) ReadFile s paths 2 = Ok (s', None) ∧
    store_inv (list_to_set ((λ p, (ReadFile p).1) <$> paths) ∪ D) s'.
Proof.
  induction paths as [|p paths IH]; intros D s Hs Hok Hn.
  - simpl in *. exists s. split; [done|]. by replace (∅ ∪ D) with D by set_solver.
  - inversion_clear Hok as [|? ? (d & E & Hd) Hok']. cbn [Load_loop]. rewrite fmap_cons in *. cbn [list_to_set] in *. rewrite E in *. cbn [fst] in *.
    destruct (add_inv D s d Hs Hd) as (s1 & -> & Hs1).
    { intros d1 d2 k Hx Hy. apply Hn; set_solver. }
    cbn [mbind res_bind]. set (L := list_to_set ((λ p, (ReadFile p).1) <$> paths)) in *.
    replace ({[d]} ∪ L ∪ D) with (L ∪ ({[d]} ∪ D)) in * by set_solver. by apply IH.
Qed.

(** The store of one dictionary finds it at its own version. *)
Lemma SingletonStore_Get dict v s : 0 ≤ v < 2 ^ 16 - 1 → SingletonStore (W := W) (R := R) dict v = Ok (s, None) →
  ∃ k, Checksum dict v = Ok (k, None) ∧ ∀ fuel, Get fuel s k v = Ok (s, dict, None).
Proof.
  intros Hv. unfold SingletonStore. destruct (Checksum dict v) as [[k err]|]; [|done]. cbn [mbind res_bind].
  rewrite (Z.mod_small (v + 1)) by lia. rewrite store_Ok by (rewrite zlen_replicate by lia; lia). cbn [mbind res_bind]. intros [= <- ->].
  exists k. split; [done|]. intros fuel. set (s := <[_ := _]> _).
  assert (zlen s = v + 1) as Hl by (unfold s, zlen; rewrite length_insert, length_replicate; lia).
  assert (idx s v = Ok (Some {[k := dict]})) as Es.
  { apply idx_Ok. split; [lia|]. apply list_lookup_insert_eq. rewrite length_replicate. lia. }
  destruct fuel; cbn [Dictionary.Get]; rewrite decide_False by lia; rewrite Es; cbn [mbind res_bind option_bind]; by rewrite lookup_singleton_eq.
Qed.

(** At an older version it panics: [Get] writes to a nil map. *)
Lemma SingletonStore_older_panics dict v v' s k fuel : 0 ≤ v' < v → v ≤ 2 → Forall is_byte dict →
  SingletonStore (W := W) (R := R) dict v = Ok (s, None) → Get fuel s k v' = Panic.
Proof.
  intros Hv' Hv Hd. destruct (Checksum_ok dict v Hd) as [kd Ek]; [lia|]. unfold SingletonStore. rewrite Ek. cbn [mbind res_bind].
  rewrite (Z.mod_small (v + 1)) by lia. rewrite store_Ok by (rewrite zlen_replicate by lia; lia). cbn [mbind res_bind]. intros [= <-]. set (s := <[_ := _]> _).
  assert (zlen s = v + 1) as Hl by (unfold s, zlen; rewrite length_insert, length_replicate; lia).
  assert (idx s (zlen s - 1) = Ok (Some {[kd := dict]})) as Es.
  { apply idx_Ok. split; [lia|]. rewrite Hl. replace (Z.to_nat (v + 1 - 1)) with (Z.to_nat v) by lia. apply list_lookup_insert_eq. rewrite length_replicate. lia. }
  assert (idx s v' = Ok None) as Es'.
  { apply idx_Ok. split; [lia|]. unfold s. rewrite list_lookup_insert_ne by lia. apply lookup_replicate. split; [done|lia]. }
  assert (∀ l, l ≡ₚ [dict] → add_all s l v' = Panic) as Hadd.
  { intros l ->%Permutation_singleton_r. cbn [Dictionary.add_all]. unfold add. destruct (Checksum_ok dict v' Hd) as [k' ->]; [lia|]. cbn [mbind res_bind].
    rewrite Es'. cbn [mbind res_bind option_bind]. rewrite decide_False by (intros [Hx _]; by apply Hx). done. }
  destruct fuel; cbn [Dictionary.Get]; rewrite decide_False by lia; rewrite Es'; cbn [mbind res_bind option_bind]; rewrite Es; cbn [mbind res_bind];
    unfold map_len; cbn [default from_option id]; rewrite map_size_empty, map_size_singleton, decide_True by lia;
    rewrite Hadd; [done|by rewrite range_perm, map_to_list_singleton|done|by rewrite range_perm, map_to_list_singleton].
Qed.
End facts.
