(* ===== verification/HeaderV1.v ===== *)
(** * The header of a v1 or v2 blob

    Models src/prover/lib/compressor/blob/v1/header.go: the table of batch sizes,
    the batch under construction, and the serialization of the header in front of
    the compressed payload. *)

From S2P Require Export Rlp Utils.

Definition PackingSizeU256 : Z := 254.
Definition ByteLenEncodingBytes : Z := 3.
Definition NbElemsEncodingBytes : Z := 2.

Record Header := {
  BatchSizes : list Z;
  CurrBatchBlocksLen : list Z;
  DictChecksum : list Z;
  hdVersion : Z }.

Definition set_table (s : Header) (sizes curr : list Z) : Header :=
  {| BatchSizes := sizes; CurrBatchBlocksLen := curr; DictChecksum := DictChecksum s; hdVersion := hdVersion s |}.

Definition sum (s : list Z) : Z := foldl Z.add 0 s.

(** [s.Equals(other)] *)
Definition header_Equals (s : Header) (other : option Header) : res bool :=
  match other with
  | None => Ok false
  | Some other =>
      if decide (DictChecksum s ≠ DictChecksum other) then Ok false
      else
        let sSum := sum (CurrBatchBlocksLen s) in
        let otherSum := sum (CurrBatchBlocksLen other) in
        if decide (sSum = otherSum) then Ok (bool_decide (BatchSizes s = BatchSizes other))
        else if decide (sSum ≠ 0 ∧ otherSum ≠ 0) then Ok false
        else
          let '(small, large, smallSum) :=
            if decide (sSum = 0) then (other, s, otherSum) else (s, other, sSum) in
          let n := zlen (BatchSizes small) in
          if decide (zlen (BatchSizes large) ≠ n + 1) then Ok false
          else
            pre ← slice (BatchSizes large) 0 n;
            if decide (BatchSizes small = pre) then
              last ← idx (BatchSizes large) n;
              Ok (bool_decide (last = smallSum))
            else Ok false
  end.

Definition NbBatches (s : Header) : Z := zlen (BatchSizes s).

Definition sealBatch (s : Header) : Header :=
  if decide (zlen (CurrBatchBlocksLen s) ≠ 0)
  then set_table s (BatchSizes s ++ [sum (CurrBatchBlocksLen s)]) []
  else s.

Definition ByteSize (s : Header) : Z :=
  let exCurr := 2 + 32 + NbElemsEncodingBytes + zlen (BatchSizes s) * ByteLenEncodingBytes in
  if decide (zlen (CurrBatchBlocksLen s) ≠ 0) then exCurr + ByteLenEncodingBytes else exCurr.

Definition ByteSizePacked (s : Header) : res Z :=
  let byteSizeUnpacked := ByteSize s in
  n ← Utils.DivCeil (byteSizeUnpacked * 8) PackingSizeU256;
  Ok (byteSizeUnpacked + n).

Definition addBlock (s : Header) (blockLen : Z) : Header :=
  set_table s (BatchSizes s) (CurrBatchBlocksLen s ++ [blockLen]).

Definition removeLastBlock (s : Header) : res Header :=
  l ← slice (CurrBatchBlocksLen s) 0 (zlen (CurrBatchBlocksLen s) - 1);
  Ok (set_table s (BatchSizes s) l).

Definition resetTable (s : Header) : Header := set_table s [] [].

(** [writeLen]: three bytes, big-endian; the bytes written so far and their count
    come first. *)
Definition writeLen (s : list Z * Z) (batchLen : Z) : list Z * Z * gerr :=
  if decide (batchLen < 0 ∨ 2 ^ 24 ≤ batchLen) then (s, Some "batch size out of range [0, 2^24)"%string)
  else ((s.1 ++ be_bytes 3 batchLen, s.2 + 3), None).

Fixpoint writeLens (s : list Z * Z) (l : list Z) : list Z * Z * gerr :=
  match l with
  | [] => (s, None)
  | n :: l' =>
      let '(s, err) := writeLen s n in
      match err with Some e => (s, Some e) | None => writeLens s l' end
  end.

(** [WriteTo] a buffer, which takes every byte. *)
Definition WriteTo (s : Header) : list Z * Z * gerr :=
  let w := be_bytes 2 ((0xffff - hdVersion s + 1) mod 2 ^ 16) ++ DictChecksum s in
  let nbBatches := zlen (BatchSizes s) mod 2 ^ 16 in
  let nbBatches := if decide (zlen (CurrBatchBlocksLen s) ≠ 0) then (nbBatches + 1) mod 2 ^ 16 else nbBatches in
  let w := w ++ be_bytes 2 nbBatches in
  let written := 2 + 32 + NbElemsEncodingBytes in
  let '(w, err) := writeLens (w, written) (BatchSizes s) in
  match err with
  | Some e => (w, Some e)
  | None => if decide (zlen (CurrBatchBlocksLen s) ≠ 0) then writeLen w (sum (CurrBatchBlocksLen s)) else (w, None)
  end.

(** The loop of [ReadFrom]: [n] batches remain to be read into the slots that
    follow [sizes]. *)
Fixpoint readLens `{IoReader R} (n : nat) (sizes : list Z) (read : Z) (r : R) : list Z * Z * gerr * R :=
  match n with
  | O => (sizes, read, None, r)
  | S n' =>
      let '((buf, err), r) := ReadFull 3 r in
      match err with
      | Some e => (sizes ++ replicate n 0, read, Some e, r)
      | None => readLens n' (sizes ++ [be_val buf]) (read + ByteLenEncodingBytes) r
      end
  end.

(** [ReadFrom]; a checksum that is cut short leaves what was read of it. *)
Definition ReadFrom `{IoReader R} (s : Header) (r : R) : Header * Z * gerr * R :=
  let read := 0 in
  let '((v, err), r) := ReadFull 2 r in
  match err with Some e => (s, read, Some e, r) | None =>
  let givenVersion := be_val v in
  let read := read + 2 in
  if decide ((givenVersion + hdVersion s) mod 2 ^ 16 ≠ 0) then (s, read, Some "unsupported blob version"%string, r)
  else
    let '((ck, err), r) := ReadFull 32 r in
    let s := {| BatchSizes := BatchSizes s; CurrBatchBlocksLen := CurrBatchBlocksLen s;
                DictChecksum := ck ++ drop (length ck) (DictChecksum s); hdVersion := hdVersion s |} in
    match err with Some e => (s, read, Some e, r) | None =>
    let read := read + 32 in
    let '((n, err), r) := ReadFull 2 r in
    match err with Some e => (s, read, Some e, r) | None =>
    let nbBatches := be_val n in
    let read := read + NbElemsEncodingBytes in
    let '(sizes, read, err, r) := readLens (Z.to_nat nbBatches) [] read r in
    (set_table s sizes (CurrBatchBlocksLen s), read, err, r)
    end end
  end.

(** ** The bytes of a header *)

Definition is_size (n : Z) : Prop := 0 ≤ n < 2 ^ 24.

(** The batch sizes with the current batch sealed. *)
Definition sealed (s : Header) : list Z := BatchSizes (sealBatch s).

(** What [WriteTo] can represent. *)
Record header_ok (s : Header) : Prop := {
  hok_checksum : Forall is_byte (DictChecksum s) ∧ length (DictChecksum s) = 32%nat;
  hok_version : 0 ≤ hdVersion s < 2 ^ 16;
  hok_sizes : Forall is_size (sealed s);
  hok_count : zlen (sealed s) < 2 ^ 16 }.

Definition header_bytes (s : Header) : list Z :=
  be_bytes 2 ((- hdVersion s) mod 2 ^ 16) ++ DictChecksum s ++ be_bytes 2 (zlen (sealed s)) ++ concat (be_bytes 3 <$> sealed s).

Lemma sealed_eq s : sealed s = BatchSizes s ++ (if decide (zlen (CurrBatchBlocksLen s) ≠ 0) then [sum (CurrBatchBlocksLen s)] else []).
Proof. unfold sealed, sealBatch. case_decide; [done|]. by rewrite app_nil_r. Qed.

Lemma concat_lens_length l : zlen (concat (be_bytes 3 <$> l)) = 3 * zlen l.
Proof. unfold zlen. induction l as [|n l IH]; [done|]. rewrite fmap_cons. cbn [concat]. rewrite length_app, be_bytes_length. simpl length. lia. Qed.

Lemma header_bytes_zlen s : length (DictChecksum s) = 32%nat → zlen (header_bytes s) = ByteSize s.
Proof.
  intros Hc. unfold header_bytes. rewrite !zlen_app, concat_lens_length, sealed_eq, zlen_app. unfold ByteSize.
  assert (zlen (DictChecksum s) = 32) as -> by (unfold zlen; lia). unfold zlen at 1 2. rewrite !be_bytes_length. unfold NbElemsEncodingBytes, ByteLenEncodingBytes.
  case_decide; unfold zlen; simpl; lia.
Qed.

Lemma writeLens_app l l' s : (writeLens s l).2 = None → writeLens s (l ++ l') = writeLens (writeLens s l).1 l'.
Proof.
  revert s. induction l as [|n l IH]; intros s; cbn [app writeLens]; [done|]. destruct (writeLen s n) as [s' [e|]]; [done|apply IH].
Qed.

Lemma writeLens_spec l : Forall is_size l → ∀ s, writeLens s l = ((s.1 ++ concat (be_bytes 3 <$> l), s.2 + 3 * zlen l), None).
Proof.
  induction 1 as [|n l Hn _ IH]; intros s; cbn [writeLens].
  - rewrite app_nil_r. destruct s. unfold zlen. simpl. by rewrite Z.add_0_r.
  - unfold writeLen. unfold is_size in Hn. rewrite decide_False by lia. rewrite IH. cbn [fst snd]. rewrite fmap_cons, <-(assoc_L (++)).
    unfold zlen. simpl length. do 2 f_equal. lia.
Qed.

Lemma WriteTo_spec s : header_ok s → WriteTo s = ((header_bytes s, ByteSize s), None).
Proof.
  intros [[_ Hc] Hv Hs Hn]. rewrite <-(header_bytes_zlen s Hc). unfold WriteTo, header_bytes. set (w := be_bytes 2 ((0xffff - hdVersion s + 1) mod 2 ^ 16) ++ _).
  assert ((0xffff - hdVersion s + 1) mod 2 ^ 16 = (- hdVersion s) mod 2 ^ 16) as Ev.
  { rewrite <-(Z.mod_add (- hdVersion s) 1 (2 ^ 16)) by lia. f_equal. lia. }
  pose proof (zlen_nonneg (BatchSizes s)) as Hb0.
  assert ((if decide (zlen (CurrBatchBlocksLen s) ≠ 0) then (zlen (BatchSizes s) mod 2 ^ 16 + 1) mod 2 ^ 16 else zlen (BatchSizes s) mod 2 ^ 16) = zlen (sealed s)) as ->.
  { rewrite sealed_eq, zlen_app in Hn |- *. assert (zlen (BatchSizes s) < 2 ^ 16) by (case_decide; unfold zlen in *; simpl in *; lia).
    rewrite (Z.mod_small (zlen (BatchSizes s))) by lia. case_decide; [|unfold zlen; simpl; lia]. change (zlen [_]) with 1 in *. apply Z.mod_small. lia. }
  rewrite sealed_eq in Hs. apply Forall_app in Hs as [Hs1 Hs2]. rewrite writeLens_spec by done. cbn [fst snd].
  rewrite !zlen_app, concat_lens_length. assert (zlen (DictChecksum s) = 32) as -> by (unfold zlen; lia).
  assert (∀ n, zlen (be_bytes 2 n) = 2) as Hb2 by (intros n; unfold zlen; by rewrite be_bytes_length). rewrite !Hb2. unfold w. rewrite Ev, <-!(assoc_L (++)).
  rewrite sealed_eq, fmap_app, concat_app, zlen_app. case_decide.
  - unfold writeLen. inversion_clear Hs2 as [|? ? Hsz _]. unfold is_size in Hsz. rewrite decide_False by lia. cbn [fst snd].
    rewrite <-!(assoc_L (++)). rewrite fmap_cons. cbn [fmap list_fmap concat]. rewrite app_nil_r. change (zlen [_]) with 1. do 2 f_equal. unfold NbElemsEncodingBytes. lia.
  - cbn [fmap list_fmap concat]. rewrite !app_nil_r. change (zlen []) with 0. do 2 f_equal. unfold NbElemsEncodingBytes. lia.
Qed.

Lemma header_bytes_ok s : header_ok s → Forall is_byte (header_bytes s).
Proof.
  intros [[Hc _] _ _ _]. unfold header_bytes. rewrite !Forall_app. split_and!; [apply be_bytes_is_byte|done|apply be_bytes_is_byte|].
  apply Forall_concat, Forall_fmap, Forall_true. intros n. apply be_bytes_is_byte.
Qed.

Lemma readLens_at l : Forall is_size l → ∀ sizes read r rest, at_bytes r (concat (be_bytes 3 <$> l) ++ rest) →
  readLens (length l) sizes read r = (sizes ++ l, read + 3 * zlen l, None, rd_set r (rd_pos r + 3 * zlen l)).
Proof.
  induction 1 as [|n l Hn _ IH]; intros sizes read r rest Hr; cbn [length readLens].
  - rewrite app_nil_r. change (zlen []) with 0. rewrite !Z.add_0_r. by destruct r.
  - rewrite fmap_cons in Hr. cbn [concat] in Hr. rewrite <-(assoc_L (++)) in Hr.
    rewrite (rd_ReadFull_at r _ _ 3 (be_bytes_length _ _) ltac:(lia) Hr). pose proof (at_bytes_skip r _ _ Hr) as Hr1.
    rewrite (IH _ _ _ rest Hr1), be_val_bytes. unfold is_size in Hn. rewrite Z.mod_small by lia.
    rewrite <-(assoc_L (++)), rd_set_set. unfold zlen. rewrite be_bytes_length. cbn [rd_pos rd_set length app]. unfold ByteLenEncodingBytes.
    f_equal; [f_equal; f_equal; lia|]. f_equal. lia.
Qed.

(** Reading back what [WriteTo] wrote, for a header of the same version. *)
Lemma ReadFrom_at s s0 r rest : header_ok s → hdVersion s0 = hdVersion s → (length (DictChecksum s0) ≤ 32)%nat → at_bytes r (header_bytes s ++ rest) →
  ReadFrom s0 r = ({| BatchSizes := sealed s; CurrBatchBlocksLen := CurrBatchBlocksLen s0; DictChecksum := DictChecksum s; hdVersion := hdVersion s |},
    ByteSize s, None, rd_set r (rd_pos r + ByteSize s)).
Proof.
  intros [[Hcb Hc] Hv Hs Hn] Ev Hl0 Hr. rewrite <-(header_bytes_zlen s Hc). unfold header_bytes in *. rewrite <-!(assoc_L (++)) in Hr. unfold ReadFrom.
  rewrite (rd_ReadFull_at r _ _ 2 (be_bytes_length _ _) ltac:(lia) Hr). pose proof (at_bytes_skip r _ _ Hr) as Hr1. set (r1 := rd_set r _) in *.
  rewrite be_val_bytes. change (256 ^ Z.of_nat 2) with (2 ^ 16). rewrite Z.mod_mod by lia.
  rewrite decide_False by (rewrite Ev, Z.add_mod_idemp_l, Z.add_opp_diag_l by lia; intros Hx; by apply Hx).
  rewrite (rd_ReadFull_at r1 _ _ 32 Hc ltac:(lia) Hr1). pose proof (at_bytes_skip r1 _ _ Hr1) as Hr2. set (r2 := rd_set r1 _) in *.
  rewrite (rd_ReadFull_at r2 _ _ 2 (be_bytes_length _ _) ltac:(lia) Hr2). pose proof (at_bytes_skip r2 _ _ Hr2) as Hr3. set (r3 := rd_set r2 _) in *.
  pose proof (zlen_nonneg (sealed s)). rewrite be_val_bytes, Z.mod_small by (change (256 ^ Z.of_nat 2) with (2 ^ 16); lia).
  replace (Z.to_nat (zlen (sealed s))) with (length (sealed s)) by (unfold zlen; lia). rewrite (readLens_at _ Hs _ _ _ rest Hr3).
  cbn [app]. unfold set_table. cbn [DictChecksum hdVersion CurrBatchBlocksLen]. rewrite drop_ge, app_nil_r by lia. rewrite Ev.
  rewrite !zlen_app, concat_lens_length. unfold r3, r2, r1. rewrite !rd_set_set. cbn [rd_pos rd_set].
  assert (∀ n, zlen (be_bytes 2 n) = 2) as Hb2 by (intros n; unfold zlen; by rewrite be_bytes_length). rewrite !Hb2.
  assert (zlen (DictChecksum s) = 32) as -> by (unfold zlen; lia). unfold NbElemsEncodingBytes. f_equal; [f_equal; f_equal; lia|]. f_equal. lia.
Qed.

(** A blob of another version is refused. *)
Lemma ReadFrom_other_version s s0 r rest : header_ok s → 0 ≤ hdVersion s0 < 2 ^ 16 → hdVersion s0 ≠ hdVersion s → at_bytes r (header_bytes s ++ rest) →
  ∃ s' r', ReadFrom s0 r = (s', 2, Some "unsupported blob version"%string, r').
Proof.
  intros [_ Hv _ _] Hv0 Hne Hr. unfold header_bytes in Hr. rewrite <-!(assoc_L (++)) in Hr. unfold ReadFrom.
  rewrite (rd_ReadFull_at r _ _ 2 (be_bytes_length _ _) ltac:(lia) Hr). rewrite be_val_bytes. change (256 ^ Z.of_nat 2) with (2 ^ 16). rewrite Z.mod_mod by lia.
  rewrite decide_True; [by eexists _, _|]. rewrite Z.add_mod_idemp_l by lia. intros Hx. apply Z.mod_divide in Hx as [q Hq]; lia.
Qed.

(** The header that is read back equals the one written, whether or not the last
    batch was sealed since. *)
Lemma header_Equals_sealed s v : CurrBatchBlocksLen s = [] ∨ 0 < sum (CurrBatchBlocksLen s) →
  let h := {| BatchSizes := sealed s; CurrBatchBlocksLen := []; DictChecksum := DictChecksum s; hdVersion := v |} in
  header_Equals h (Some s) = Ok true ∧ header_Equals h (Some (sealBatch s)) = Ok true.
Proof.
  intros Hc h. unfold h, header_Equals. cbn [DictChecksum CurrBatchBlocksLen BatchSizes]. change (sum []) with 0. unfold sealed, sealBatch.
  destruct (decide (zlen (CurrBatchBlocksLen s) ≠ 0)) as [Hz|Hz]; cbn [set_table DictChecksum CurrBatchBlocksLen BatchSizes];
    rewrite !(decide_False (P := DictChecksum s ≠ DictChecksum s)) by (intros Hx; by apply Hx).
  - destruct Hc as [Hc|Hc]; [by rewrite Hc in Hz|]. change (sum []) with 0. split; [|rewrite decide_True by done; f_equal; by apply bool_decide_eq_true].
    rewrite (decide_False (P := 0 = _)) by lia. rewrite (decide_False (P := 0 ≠ 0 ∧ _)) by lia. rewrite decide_True by done. cbn [BatchSizes].
    rewrite zlen_app. change (zlen [_]) with 1. rewrite decide_False by lia.
    pose proof (zlen_nonneg (BatchSizes s)). rewrite slice_Ok by (rewrite ?zlen_app; change (zlen [_]) with 1; lia). cbn [mbind res_bind].
    rewrite drop_0, Z.sub_0_r. unfold zlen. rewrite Nat2Z.id, take_app_length, decide_True by done.
    rewrite (idx_nat _ _ (sum (CurrBatchBlocksLen s))); [|lia|by rewrite Nat2Z.id, lookup_app_r, Nat.sub_diag by lia]. cbn [mbind res_bind].
    f_equal. by apply bool_decide_eq_true.
  - assert (CurrBatchBlocksLen s = []) as -> by (destruct (CurrBatchBlocksLen s); [done|]; exfalso; apply Hz; unfold zlen; simpl; lia).
    change (sum []) with 0. rewrite decide_True by done. split; f_equal; by apply bool_decide_eq_true.
Qed.
