(* ===== verification/BlobV1.v ===== *)
(** * Making v1 and v2 blobs

    Models src/prover/lib/compressor/blob/v1/blob_maker.go and v2/blob_maker.go: the
    [BlobMaker], which appends RLP-encoded blocks to a compressed blob as long as it
    fits, and the decompression of a blob. The compressor is the interface of
    [CompressorApi]; the decoding of RLP blocks and transactions is go-ethereum's.
    The buffers [buf] and [packBuffer] are emptied before each use and are local
    here. [currentBlob] is a fixed array in the code; here it is the part of it
    written so far. *)

From S2P Require Export CompressorApi Dictionary HeaderV1 BlockEncode.

Definition maxOutputSize : Z := 2 ^ 20.
Definition MaxUncompressedBytes : Z := 780000.
Definition MaxUsableBytes : Z := 32 * 4096.

Record BlobMaker {C : Type} := {
  Limit : Z;
  compressor : C;
  dict : list Z;
  dictStore : Store;
  version : Z;
  header : Header;
  currentBlob : list Z;
  currentBlobLength : Z }.
Arguments BlobMaker : clear implicits.

Record BlobDecompressionResponse := {
  resp_Header : option Header;
  resp_Blocks : list (list Z);
  resp_RawPayload : list Z;
  resp_Dict : list Z }.

Definition set_compressor {C} (bm : BlobMaker C) (c : C) : BlobMaker C :=
  {| Limit := Limit bm; compressor := c; dict := dict bm; dictStore := dictStore bm; version := version bm;
     header := header bm; currentBlob := currentBlob bm; currentBlobLength := currentBlobLength bm |}.

Definition set_header {C} (bm : BlobMaker C) (h : Header) : BlobMaker C :=
  {| Limit := Limit bm; compressor := compressor bm; dict := dict bm; dictStore := dictStore bm; version := version bm;
     header := h; currentBlob := currentBlob bm; currentBlobLength := currentBlobLength bm |}.

Definition set_blob {C} (bm : BlobMaker C) (blob : list Z) (n : Z) : BlobMaker C :=
  {| Limit := Limit bm; compressor := compressor bm; dict := dict bm; dictStore := dictStore bm; version := version bm;
     header := header bm; currentBlob := blob; currentBlobLength := n |}.

Definition set_store {C} (bm : BlobMaker C) (s : Store) : BlobMaker C :=
  {| Limit := Limit bm; compressor := compressor bm; dict := dict bm; dictStore := s; version := version bm;
     header := header bm; currentBlob := currentBlob bm; currentBlobLength := currentBlobLength bm |}.

(** ** Decompression *)

(** The blocks of a batch, which ends at [limit]. A block of length 0 would be found
    again without end, each time appended to the blocks until memory is exhausted:
    running out of fuel is a panic. *)
Fixpoint scan_batch (fuel : nat) (payload : list Z) (limit offset : Z) (blocks : list (list Z)) : res (list (list Z) * Z * gerr) :=
  if decide (offset < limit) then
    match fuel with
    | O => Panic
    | S fuel' =>
        rest ← slice payload offset (zlen payload);
        let '(blockLen, err) := ScanBlockByteLen rest in
        match err with
        | Some e => Ok (blocks, offset, Some e)
        | None =>
            b ← slice payload offset (offset + blockLen);
            scan_batch fuel' payload limit (offset + blockLen) (blocks ++ [b])
        end
    end
  else Ok (blocks, offset, None).

(** The loop over the batches. *)
Fixpoint scan_batches (payload : list Z) (sizes : list Z) (offset : Z) (blocks : list (list Z)) : res (list (list Z) * gerr) :=
  match sizes with
  | [] => Ok (blocks, None)
  | batchLen :: sizes' =>
      '(blocks, offset', err) ← scan_batch (S (length payload)) payload (offset + batchLen) offset blocks;
      match err with Some e => Ok (blocks, Some e) | None =>
      if decide (offset' ≠ offset + batchLen) then Ok (blocks, Some "incorrect batch length"%string)
      else scan_batches payload sizes' offset' blocks
      end
  end.

Definition emptyHeader (version : Z) : Header :=
  {| BatchSizes := []; CurrBatchBlocksLen := []; DictChecksum := zero_bytes 32; hdVersion := version |}.

Section v1.
Context `{CompressorOps C, Rlp, BlockRlp, DictHash, MapRange, BitWriter W, BitReader R}.
Notation BlobMaker := (BlobMaker C).

(** [DecompressBlobVersioned]; [Get] may fill the store. *)
Definition DecompressBlobVersioned (version : Z) (b : list Z) (s : Store) : res (BlobDecompressionResponse * gerr * Store) :=
  let resp h bs p d := {| resp_Header := h; resp_Blocks := bs; resp_RawPayload := p; resp_Dict := d |} in
  '(b, err) ← UnpackAlign (W := W) b PackingSizeU256 false;
  match err with Some e => Ok (resp None [] [] [], Some e, s) | None =>
  let '(h, read, err, _) := ReadFrom (emptyHeader version) (NewBytesReader b) in
  match err with Some e => Ok (resp (Some h) [] [] [], Some "failed to read blob header"%string, s) | None =>
  '(s, d, err) ← Get (W := W) (R := R) 1 s (DictChecksum h) version;
  match err with Some e => Ok (resp (Some h) [] [] d, Some e, s) | None =>
  b ← slice b read (zlen b);
  '(payload, err) ← cz_Decompress b d;
  match err with Some e => Ok (resp (Some h) [] payload d, Some "failed to decompress blob body"%string, s) | None =>
  '(blocks, err) ← scan_batches payload (BatchSizes h) 0 [];
  Ok (resp (Some h) blocks payload d, err, s)
  end end end end.

Definition DecompressBlob := DecompressBlobVersioned 1.

(** ** The blob maker *)

Definition StartNewBatch (bm : BlobMaker) : BlobMaker := set_header bm (sealBatch (header bm)).

(** [NewVersionedBlobMaker]; [file] is what [os.ReadFile(dictPath)] returns. *)
Definition NewVersionedBlobMaker (version dataLimit : Z) (file : list Z * gerr) : res (option BlobMaker * gerr) :=
  let '(d, err) := file in
  match err with Some e => Ok (None, Some e) | None =>
  let d := cz_AugmentDict d in
  '(s, err) ← SingletonStore (W := W) (R := R) d version;
  match err with Some e => Ok (None, Some e) | None =>
  '(ck, err) ← Checksum (W := W) (R := R) d version;
  match err with Some e => Ok (None, Some e) | None =>
  '(c, err) ← cz_NewCompressor d;
  match c, err with
  | Some c, None =>
      let h := {| BatchSizes := []; CurrBatchBlocksLen := []; DictChecksum := read_array 32 (take 32 ck); hdVersion := version |} in
      let bm := {| Limit := dataLimit; compressor := c; dict := d; dictStore := s; version := version; header := h;
                   currentBlob := []; currentBlobLength := 0 |} in
      Ok (Some (StartNewBatch bm), None)
  | _, _ => Ok (None, err)
  end end end end.

Definition NewBlobMaker := NewVersionedBlobMaker 1.

Definition Reset (bm : BlobMaker) : BlobMaker :=
  let bm := set_header bm (resetTable (header bm)) in
  let bm := set_blob bm (currentBlob bm) 0 in
  let bm := set_compressor bm (cz_Reset (compressor bm)) in
  set_header bm (sealBatch (header bm)).

Definition Len (bm : BlobMaker) : Z := currentBlobLength bm.
Definition Written (bm : BlobMaker) : Z := cz_Written (compressor bm).

(** [Bytes], with its checks that the blob decompresses to what was written. *)
Definition Bytes (bm : BlobMaker) : res (BlobMaker * list Z) :=
  blob ← slice (currentBlob bm) 0 (currentBlobLength bm);
  if decide (0 < currentBlobLength bm) then
    '(resp, err, s) ← DecompressBlobVersioned (version bm) blob (dictStore bm);
    match err, resp_Header resp with
    | None, Some h =>
        eq ← header_Equals h (Some (header bm));
        if negb eq then Panic
        else if decide (resp_RawPayload resp ≠ cz_WrittenBytes (compressor bm)) then Panic
        else Ok (set_store bm s, blob)
    | _, _ => Panic
    end
  else Ok (bm, blob).

Definition fitsInBlob (bm : BlobMaker) (bufLen : Z) : res bool :=
  n ← PackAlignSize (bufLen + cz_Len (compressor bm)) PackingSizeU256 [];
  Ok (bool_decide (n ≤ Limit bm)).

(** The closure [revert]. *)
Definition revert (bm : BlobMaker) (payload : list Z) (prevLen : Z) (recompressionAttempted : bool) : res (BlobMaker * gerr) :=
  h ← removeLastBlock (header bm);
  let bm := set_header bm h in
  if negb recompressionAttempted then
    '(c, err) ← cz_Revert (compressor bm);
    Ok (set_compressor bm c, err)
  else
    p ← slice payload 0 prevLen;
    '(c, _, err) ← cz_Write (cz_Reset (compressor bm)) p;
    Ok (set_compressor bm c, match err with Some e => Some "reverting the compressor"%string | None => None end).

(** What follows the label [bypass]: the data fits. *)
Definition accept (bm : BlobMaker) (buf payload : list Z) (prevLen : Z) (recompressionAttempted forceReset : bool) : res (BlobMaker * bool * gerr) :=
  if forceReset then
    '(bm, err) ← revert bm payload prevLen recompressionAttempted;
    match err with
    | Some e => Ok (bm, false, Some "reverting because forceReset == true even though the blob isn't full"%string)
    | None => Ok (bm, true, None)
    end
  else
    '(packed, n2, err) ← PackAlign (R := R) buf PackingSizeU256 [WithAdditionalInput [cz_Bytes (compressor bm)]];
    match err with
    | Some e =>
        '(bm, _) ← revert bm payload prevLen recompressionAttempted;
        Ok (bm, false, Some "when packing blob"%string)
    | None =>
        let bm := set_blob bm (currentBlob bm) n2 in
        if decide (n2 < 0 ∨ maxOutputSize < n2) then Panic
        else Ok (set_blob bm (take (Z.to_nat n2) packed ++ drop (Z.to_nat n2) (currentBlob bm)) n2, true, None)
    end.

(** The attempt to recompress everything in one go, and then not to compress. *)
Definition recompress (bm : BlobMaker) (buf payload : list Z) (prevLen : Z) (forceReset : bool) : res (BlobMaker * bool * gerr) :=
  '(c, _, err) ← cz_Write (cz_Reset (compressor bm)) payload;
  let bm := set_compressor bm c in
  match err with
  | Some e =>
      '(bm, _) ← revert bm payload prevLen true;
      Ok (bm, false, Some "when recompressing the blob"%string)
  | None =>
      fits ← fitsInBlob bm (zlen buf);
      if (fits : bool) then accept bm buf payload prevLen true forceReset
      else
        let '(c, bypassed) := cz_ConsiderBypassing (compressor bm) in
        let bm := set_compressor bm c in
        fits ← (if (bypassed : bool) then fitsInBlob bm (zlen buf) else Ok false);
        if (fits : bool) then accept bm buf payload prevLen true forceReset
        else
          '(bm, err) ← revert bm payload prevLen true;
          match err with
          | Some e => Ok (bm, false, Some "when reverting compressor because blob is full"%string)
          | None => Ok (bm, false, None)
          end
  end.

Definition Write (bm : BlobMaker) (rlpBlock : list Z) (forceReset : bool) : res (BlobMaker * bool * gerr) :=
  let prevLen := cz_Written (compressor bm) in
  match rlp_DecodeBlock rlpBlock with
  | inr e => Ok (bm, false, Some "when decoding input RLP block"%string)
  | inl block =>
  '(buf, err) ← EncodeBlockForCompression (Some block);
  match err with Some e => Ok (bm, false, Some "when re-encoding block for compression"%string) | None =>
  let blockLen := zlen buf in
  '(c, _, err) ← cz_Write (compressor bm) buf;
  let bm := set_compressor bm c in
  match err with
  | Some e =>
      '(c, innerErr) ← cz_Revert (compressor bm);
      Ok (set_compressor bm c, false, Some (match innerErr with
        | Some _ => "when reverting compressor because writing failed" | None => "when writing block to compressor" end)%string)
  | None =>
  let bm := set_header bm (addBlock (header bm) blockLen) in
  let '(buf, _, err) := WriteTo (header bm) in
  match err with
  | Some e =>
      h ← removeLastBlock (header bm);
      Ok (set_header bm h, false, Some "when writing header to buffer"%string)
  | None =>
  if decide (MaxUncompressedBytes < cz_Written (compressor bm) + zlen buf) then
    '(c, err) ← cz_Revert (compressor bm);
    let bm := set_compressor bm c in
    match err with
    | Some e => Ok (bm, false, Some "when reverting compressor because uncompressed blob is > maxUncompressedSize"%string)
    | None => h ← removeLastBlock (header bm); Ok (set_header bm h, false, None)
    end
  else
    let payload := cz_WrittenBytes (compressor bm) in
    fits ← fitsInBlob bm (zlen buf);
    if (fits : bool) then accept bm buf payload prevLen false forceReset
    else recompress bm buf payload prevLen forceReset
  end end end end.

Definition Equals (bm other : BlobMaker) : res bool :=
  if decide (Limit bm ≠ Limit other) then Ok false
  else if decide (currentBlobLength bm ≠ currentBlobLength other) then Ok false
  else
    b ← slice (currentBlob bm) 0 (currentBlobLength bm);
    b' ← slice (currentBlob other) 0 (currentBlobLength other);
    if decide (b ≠ b') then Ok false
    else if decide (zlen (BatchSizes (header bm)) ≠ zlen (BatchSizes (header other))) then Ok false
    else Ok (bool_decide (BatchSizes (header bm) = BatchSizes (header other))).

(** ** Sizes *)

Definition WorstCompressedBlockSize (bm : BlobMaker) (rlpBlock : list Z) : res (bool * Z * gerr) :=
  match rlp_DecodeBlock rlpBlock with
  | inr e => Ok (false, -1, Some "failed to decode RLP block"%string)
  | inl block =>
      '(inputSlice, err) ← EncodeBlockForCompression (Some block);
      match err with Some e => Ok (false, -1, Some "failed to encode block"%string) | None =>
      '(n, err) ← cz_CompressedSize256k (compressor bm) inputSlice;
      match err with Some e => Ok (false, -1, Some e) | None =>
      let expandingBlock := bool_decide (zlen inputSlice < n) in
      let n := if expandingBlock then zlen inputSlice + cz_HeaderSize else n in
      n ← PackAlignSize n PackingSizeU256 [NoTerminalSymbol];
      Ok (expandingBlock, n, None)
      end end
  end.

Definition WorstCompressedTxSize (bm : BlobMaker) (rlpTx : list Z) : res (Z * gerr) :=
  match rlp_DecodeTx rlpTx with
  | inr e => Ok (-1, Some e)
  | inl tx =>
      '(inputSlice, err) ← EncodeTxForCompression (Some tx);
      match err with Some e => Ok (-1, Some "failed to encode transaction"%string) | None =>
      cz_CompressedSize256k (compressor bm) inputSlice
      end
  end.

Definition RawCompressedSize (bm : BlobMaker) (data : list Z) : res (Z * gerr) :=
  '(n, err) ← cz_CompressedSize256k (compressor bm) data;
  match err with Some e => Ok (-1, Some e) | None =>
  let n := if decide (zlen data < n) then zlen data + cz_HeaderSize else n in
  n ← PackAlignSize n PackingSizeU256 [NoTerminalSymbol];
  Ok (n, None)
  end.

End v1.
