(* ===== verification/PackV0.v ===== *)
(** * The packing of v0 blobs

    Models [PackAlign], [UnpackAlign] and their sizes in
    src/prover/lib/compressor/blob/v0/blob_maker.go: 31 bytes per 32-byte element,
    with the length of the padding after the data. *)

From S2P Require Export Pack.

Definition packingSizeU256 : Z := 248.
Definition packingSizeLastU64 : Z := 64 - 256 + packingSizeU256.

Definition packAlignSizeToRefactor (lena lenb : Z) : Z :=
  let nbBytes := lena + lenb + 1 in
  let nbBits := nbBytes * 8 in
  let extraBits := Z.rem (packingSizeU256 - Z.rem nbBits packingSizeU256) packingSizeU256 in
  let nbBits := nbBits + extraBits in
  Z.quot nbBits packingSizeU256 * 32.

Definition PackAlignSize (a b : list Z) : Z :=
  let nbBytes := zlen a + zlen b + 1 in
  let nbBits := nbBytes * 8 in
  let extraBits := Z.rem (packingSizeU256 - Z.rem nbBits packingSizeU256) packingSizeU256 in
  let nbBits := nbBits + extraBits in
  Z.quot nbBits packingSizeU256 * 32.

Definition words_v0 : list Z := [packingSizeLastU64; 64; 64; 64].

Section pack.
Context `{BitWriter W, BitReader R}.

Definition PackAlign (a b : list Z) : res (list Z * Z * gerr) :=
  let nbBytes := zlen a + zlen b + 1 in
  let nbBits := nbBytes * 8 in
  let extraBits := Z.rem (packingSizeU256 - Z.rem nbBits packingSizeU256) packingSizeU256 in
  let nbBits := nbBits + extraBits in
  if decide (Z.rem nbBits packingSizeU256 ≠ 0) then Ok ([], 0, Some "nbBits mod packingSizeU256 != 0"%string)
  else
    let bytePadding := Z.quot (extraBits + 7) 8 in
    let buf := ((bytePadding + 1) mod 256) :: replicate 31 0 in
    padding ← slice buf 0 (bytePadding + 1);
    let r := NewReader (a ++ b ++ padding) in
    let '(out, r) := Nat.iter (Z.to_nat (Z.quot nbBits packingSizeU256)) (pack_words words_v0) ([], r) in
    match RTryError r with
    | Some e => Ok (out, 0, Some "when reading from multi-reader"%string)
    | None =>
        let n1 := Z.quot nbBits packingSizeU256 * 32 in
        if decide (n1 ≠ PackAlignSize a b) then Ok (out, 0, Some "inconsistent PackAlignSize"%string)
        else Ok (out, n1, None)
    end.

(** [for out.Bytes()[out.Len()-1] == 0], on the bytes last first. *)
Fixpoint drop_zeros (l : list Z) (cpt : Z) : res (list Z * Z) :=
  match l with
  | [] => Panic
  | b :: l' => if decide (b = 0) then drop_zeros l' (cpt + 1) else Ok (l, cpt)
  end.

Definition UnpackAlign (r : list Z) : res (list Z * gerr) :=
  if decide (Z.rem (zlen r) 32 ≠ 0) then Ok ([], Some "invalid data length; expected multiple of 32"%string)
  else
    let n := Z.quot (zlen r) 32 in
    '(w, out) ← foldM (λ s i, unpack_words r (32 * i) words_v0 s) (NewWriter, []) (seqZ 0 n);
    match TryError w with Some e => Ok ([], Some "when writing to bitio.Writer"%string) | None =>
    let '(w, bs, err) := Close w in
    match err with Some e => Ok ([], Some "when closing bitio.Writer"%string) | None =>
    '(l, cpt) ← drop_zeros (rev (out ++ bs)) 0;
    lastNonZero ← idx l 0;
    if decide (Z.rem cpt 31 ≠ lastNonZero - 1) then Ok ([], Some "invalid padding length"%string)
    else Ok (rev (tail l), None)
    end end.
End pack.

(** ** Unpacking what was packed *)

(** Any input takes whole elements of 31 bytes with its padding. *)
Lemma padding_v0 len : 0 ≤ len →
  let nbBits := (len + 1) * 8 in
  let extraBits := Z.rem (packingSizeU256 - Z.rem nbBits packingSizeU256) packingSizeU256 in
  ∃ n p, 0 < n ∧ 0 ≤ p ≤ 30 ∧ len + 1 + p = 31 * n ∧ extraBits = 8 * p ∧ nbBits + extraBits = n * packingSizeU256 ∧ n = len / 31 + 1.
Proof.
  intros Hl nbBits extraBits. pose proof (Z.div_mod len 31). pose proof (Z.mod_pos_bound len 31). pose proof (Z.div_pos len 31).
  exists (len / 31 + 1), (30 - len mod 31). set (q := len / 31) in *. set (m := len mod 31) in *.
  assert (extraBits = 8 * (30 - m)) as E.
  { unfold extraBits, packingSizeU256. rewrite (Z.rem_mod_nonneg nbBits) by (unfold nbBits; lia). destruct (decide (m = 30)) as [Em|Em].
    - assert (nbBits mod 248 = 0) as -> by (symmetry; apply (Z.mod_unique _ _ (q + 1)); unfold nbBits; lia). rewrite Em. done.
    - assert (nbBits mod 248 = 8 * (m + 1)) as -> by (symmetry; apply (Z.mod_unique _ _ q); unfold nbBits; lia).
      rewrite Z.rem_mod_nonneg by lia. rewrite Z.mod_small; lia. }
  unfold packingSizeU256. split_and!; [lia|lia|lia|lia|done|unfold nbBits; lia|done].
Qed.

Lemma drop_zeros_spec_v0 l z b cpt : b ≠ 0 → drop_zeros (replicate z 0 ++ b :: l) cpt = Ok (b :: l, cpt + Z.of_nat z).
Proof.
  intros Hb. revert cpt. induction z as [|z IH]; intros cpt; cbn [replicate app drop_zeros].
  - rewrite decide_False by done. by rewrite Z.add_0_r.
  - rewrite decide_True by done. rewrite IH. do 2 f_equal. lia.
Qed.

Lemma words_v0_ok : widths_ok words_v0 ∧ widths_sum words_v0 = 248.
Proof. split; [|done]. repeat (constructor; [by vm_compute|]). constructor. Qed.

Lemma PackAlignSize_v0 a b : PackAlignSize a b = 32 * ((zlen a + zlen b) / 31 + 1) ∧ packAlignSizeToRefactor (zlen a) (zlen b) = PackAlignSize a b.
Proof.
  split; [|done]. unfold PackAlignSize. pose proof (zlen_nonneg a). pose proof (zlen_nonneg b).
  destruct (padding_v0 (zlen a + zlen b)) as (n & p & Hn & Hp & E1 & E2 & E3 & E4); [lia|]. rewrite E3, Z.quot_mul by done. lia.
Qed.

Lemma be_bytes_high n x : 0 ≤ x < 256 ^ Z.of_nat n → be_bytes (S n) x = 0 :: be_bytes n x.
Proof.
  revert x. induction n as [|n IH]; intros x Hx; [by replace x with 0 by (simpl in Hx; lia)|]. rewrite Nat2Z.inj_succ, Z.pow_succ_r in Hx by lia.
  change (be_bytes (S (S n)) x) with (be_bytes (S n) (x / 256) ++ [x mod 256]). rewrite IH; [done|].
  split; [apply Z.div_pos; lia|apply Z.div_lt_upper_bound; lia].
Qed.

Section facts.
Context `{BitWriterSpec W, BitReaderSpec R}.

Lemma PackAlign_v0 a b : Forall is_byte a → Forall is_byte b → ∃ out, PackAlign (R := R) a b = Ok (out, zlen out, None) ∧ zlen out = PackAlignSize a b ∧
  UnpackAlign (W := W) out = Ok (a ++ b, None) ∧ head out = Some 0.
Proof.
  intros Ha Hb. pose proof (zlen_nonneg a) as Ha0. pose proof (zlen_nonneg b) as Hb0. destruct words_v0_ok as [Hwok Hsum].
  destruct (padding_v0 (zlen a + zlen b)) as (n & p & Hn & Hp & E1 & E2 & E3 & E4); [lia|].
  set (pad := (p + 1) :: replicate (Z.to_nat p) 0). set (bytes := a ++ b ++ pad).
  assert (zlen bytes = 31 * n) as Hlen by (unfold bytes, pad; rewrite !zlen_app; unfold zlen in *; cbn [length]; rewrite length_replicate; lia).
  assert (Forall is_byte bytes) as Hbytes.
  { unfold bytes. rewrite !Forall_app. split_and!; [done|done|]. constructor; [unfold is_byte; lia|by apply Forall_replicate]. }
  set (bits := bytes_bits bytes). assert (zlen bits = n * 248) as Hbits by (unfold bits, zlen in *; rewrite bytes_bits_length; lia).
  set (ws := concat (replicate (Z.to_nat n) words_v0)). destruct (repeat_widths_ok words_v0 (Z.to_nat n) Hwok) as (Hok & Hsumn & Hlenn). fold ws in Hok, Hsumn, Hlenn.
  rewrite Hsum, Z2Nat.id in Hsumn by lia. rewrite Z2Nat.id in Hlenn by lia. change (zlen words_v0) with 4 in Hlenn.
  set (out := words_of ws bits). assert (zlen out = n * 32) as Hout by (unfold out; rewrite words_of_length; lia).
  exists out. split_and!.
  - destruct (rest_new (R := R) bytes Hbytes) as [Er He]. fold bits in Er.
    destruct (pack_words_spec ws (NewReader bytes) [] Hok He) as (r' & Ep & He' & _); [rewrite Er; lia|]. rewrite Er in Ep. fold out in Ep. cbn [app] in Ep.
    unfold PackAlign. rewrite E3, E2. change (Z.rem (n * packingSizeU256) packingSizeU256) with (Z.rem (n * 248) 248). rewrite Z.rem_mul by lia.
    rewrite decide_False by (intros Hx; by apply Hx). replace (Z.quot (8 * p + 7) 8) with p by (rewrite Z.quot_div_nonneg by lia; apply (Z.div_unique _ _ _ 7); lia).
    assert (slice (((p + 1) mod 256) :: replicate 31 0) 0 (p + 1) = Ok pad) as ->.
    { rewrite slice_Ok by (unfold zlen; cbn [length]; rewrite ?length_replicate; lia). rewrite drop_0, Z.sub_0_r, Z.mod_small by lia.
      replace (Z.to_nat (p + 1)) with (S (Z.to_nat p)) by lia. unfold firstn. fold (@firstn Z). rewrite take_replicate. unfold pad. do 3 f_equal. lia. }
    cbn [mbind res_bind]. fold bytes. change (Z.quot (n * packingSizeU256) packingSizeU256) with (Z.quot (n * 248) 248). rewrite Z.quot_mul by lia.
    rewrite pack_iter. fold ws. rewrite Ep, He'. rewrite (proj1 (PackAlignSize_v0 a b)), <-E4, decide_False by lia. rewrite Hout. done.
  - rewrite (proj1 (PackAlignSize_v0 a b)). lia.
  - destruct (unpack_elements (W := W) words_v0 n bits Hwok) as ([w o] & Efold & Hput); [lia|rewrite Hsum; lia|]. rewrite Hsum in Hput. fold ws out in Efold.
    change (8 * zlen words_v0) with 32 in Efold. unfold UnpackAlign. rewrite Hout, Z.rem_mul, Z.quot_mul by lia. rewrite decide_False by (intros Hx; by apply Hx).
    rewrite Efold. cbn [mbind res_bind]. destruct Hput as (He & bs & Es & Hbs & P). cbn [fst snd] in He, Es, P. subst o. rewrite He.
    destruct (Close_spec w) as (w' & bs' & k & -> & Pc & Hk & Hbs' & _ & _). destruct pending_new as [Epn _]. cbn [app].
    assert (bs ++ bs' = bytes) as ->.
    { rewrite take_ge in P by (unfold zlen in Hbits; lia). rewrite Epn in P. simpl app in P.
      assert (bytes_bits (bs ++ bs') = bits ++ replicate k false) as Eb by (rewrite bytes_bits_app, Pc, (assoc_L (++)), P; done).
      assert (k = 0%nat) as ->. { apply (f_equal length) in Eb. rewrite length_app, bytes_bits_length, length_replicate in Eb. unfold zlen in Hbits. lia. }
      rewrite app_nil_r in Eb. apply bytes_bits_inj; [by apply Forall_app|done|done]. }
    assert (rev bytes = replicate (Z.to_nat p) 0 ++ (p + 1) :: rev (a ++ b)) as ->.
    { unfold bytes, pad. rewrite (assoc_L (++)), rev_app_distr. cbn [rev]. rewrite <-(assoc_L (++)). f_equal. rewrite rev_alt. apply reverse_replicate. }
    rewrite drop_zeros_spec_v0 by lia. cbn [mbind res_bind]. change (idx ((p + 1) :: rev (a ++ b)) 0) with (Ok (p + 1)). cbn [mbind res_bind].
    rewrite Z2Nat.id, Z.rem_mod_nonneg, Z.mod_small by lia. rewrite decide_False by lia. cbn [tail]. by rewrite rev_involutive.
  - unfold out, ws. destruct (Z.to_nat n) as [|k] eqn:Ek; [lia|]. cbn [replicate concat words_v0 app words_of].
    rewrite be_bytes_high; [done|]. pose proof (of_bits_bound (take (Z.to_nat packingSizeLastU64) bits)) as Hob. rewrite length_take in Hob.
    split; [lia|]. eapply Z.lt_le_trans; [apply Hob|]. change (256 ^ Z.of_nat 7) with (2 ^ 56). apply Z.pow_le_mono_r; [lia|]. change (Z.to_nat packingSizeLastU64) with 56%nat. lia.
Qed.
End facts.
