(* ===== verification/BlobContent.v ===== *)
(** * What a blob maker has accepted

    The specification state of both blob makers: batches of encoded blocks, of which
    the last is under construction. *)

From S2P Require Export Prelude.

(** The sealed batches and the one under construction, as lists of encoded blocks. *)
Record content := { past : list (list (list Z)); cur : list (list Z) }.

Definition batches (ct : content) : list (list (list Z)) := past ct ++ (if decide (cur ct = []) then [] else [cur ct]).
Definition blocks (ct : content) : list (list Z) := concat (past ct) ++ cur ct.
Definition payload_of (ct : content) : list Z := concat (blocks ct).

Definition empty_content : content := {| past := []; cur := [] |}.
Definition seal (ct : content) : content := {| past := batches ct; cur := [] |}.
Definition push (ct : content) (b : list Z) : content := {| past := past ct; cur := cur ct ++ [b] |}.

Lemma blocks_batches ct : concat (batches ct) = blocks ct.
Proof. unfold batches, blocks. rewrite concat_app. case_decide as E; [by rewrite E|]. simpl. by rewrite app_nil_r. Qed.

Lemma blocks_seal ct : blocks (seal ct) = blocks ct.
Proof. unfold blocks at 1. simpl. by rewrite blocks_batches, app_nil_r. Qed.

Lemma blocks_push ct b : blocks (push ct b) = blocks ct ++ [b].
Proof. unfold blocks. simpl. by rewrite (assoc_L (++)). Qed.

Lemma payload_push ct b : payload_of (push ct b) = payload_of ct ++ b.
Proof. unfold payload_of. rewrite blocks_push, concat_app. simpl. by rewrite app_nil_r. Qed.

(** ** Slices *)

Lemma slice_mid {A} (pre b rest : list A) : slice (pre ++ b ++ rest) (zlen pre) (zlen pre + zlen b) = Ok b.
Proof.
  pose proof (zlen_nonneg pre). pose proof (zlen_nonneg b). pose proof (zlen_nonneg rest). rewrite slice_Ok by (rewrite ?zlen_app; lia).
  replace (Z.to_nat (zlen pre + zlen b - zlen pre)) with (length b) by (unfold zlen; lia). replace (Z.to_nat (zlen pre)) with (length pre) by (unfold zlen; lia).
  by rewrite drop_app_length, take_app_length.
Qed.

Lemma slice_tail {A} (pre rest : list A) : slice (pre ++ rest) (zlen pre) (zlen (pre ++ rest)) = Ok rest.
Proof. rewrite zlen_app. pose proof (slice_mid pre rest []) as E. by rewrite app_nil_r in E. Qed.
