(* ===== verification/BlobV1Facts.v ===== *)
(** * What a v1 blob maker holds

    The invariant of the [BlobMaker] of [BlobV1] between calls, in terms of the
    batches of encoded blocks it has accepted, and the proof that each operation
    keeps it. *)

From S2P Require Export BlobV1 BlobContent.

(** ** Contents *)

(** An encoded block: [ScanBlockByteLen] finds its end. *)
Record is_block (b : list Z) : Prop := {
  blk_bytes : Forall is_byte b;
  blk_min : 38 ≤ zlen b;
  blk_scan l : zlen (b ++ l) < 2 ^ 62 → ScanBlockByteLen (b ++ l) = (zlen b, None) }.

Record content_ok (ct : content) : Prop := {
  cok_blocks : Forall is_block (blocks ct);
  cok_past : Forall (λ b, b ≠ []) (past ct);
  cok_size : zlen (payload_of ct) ≤ 2 ^ 21 }.

Lemma content_ok_seal ct : content_ok ct → content_ok (seal ct).
Proof.
  intros [Hb Hp Hs]. split; unfold payload_of; rewrite ?blocks_seal; [done| |done]. simpl. unfold batches. apply Forall_app. split; [done|].
  case_decide; by repeat constructor.
Qed.

Lemma content_ok_push ct b : content_ok ct → is_block b → zlen (payload_of ct) + zlen b ≤ 2 ^ 21 → content_ok (push ct b).
Proof.
  intros [Hb Hp Hs] Hbl Hl. split; [|done|rewrite payload_push, zlen_app; lia]. rewrite blocks_push. apply Forall_app. split; [done|by apply Forall_singleton].
Qed.

Lemma content_ok_empty : content_ok empty_content.
Proof. split; [constructor|constructor|by vm_compute]. Qed.

Lemma is_block_encoded `{RlpLaws} bl b : block_ok bl → EncodeBlockForCompression (Some bl) = Ok (b, None) → zlen b < 2 ^ 62 → is_block b.
Proof.
  intros Hbl Eb Hl. split; [by eapply EncodeBlock_bytes| |].
  - apply (ScanBlock_spec bl b [] Hbl Eb). by rewrite app_nil_r.
  - intros l Hs. by apply (ScanBlock_spec bl b l Hbl Eb).
Qed.

(** ** The header of a content *)

Definition header_for (ct : content) (ck : list Z) (v : Z) : Header :=
  {| BatchSizes := (λ b, zlen (concat b)) <$> past ct; CurrBatchBlocksLen := zlen <$> cur ct; DictChecksum := ck; hdVersion := v |}.

Lemma sum_add l n : foldl Z.add n l = n + sum l.
Proof.
  revert n. induction l as [|x l IH]; intros n; [unfold sum; simpl; lia|]. unfold sum. cbn [foldl]. rewrite (IH (n + x)), (IH (0 + x)). lia.
Qed.

Lemma sum_zlen (bs : list (list Z)) : sum (zlen <$> bs) = zlen (concat bs).
Proof. induction bs as [|b bs IH]; [done|]. rewrite fmap_cons. cbn [concat]. rewrite zlen_app, <-IH. unfold sum at 1. cbn [foldl]. rewrite sum_add. lia. Qed.

Lemma sealed_for ct ck v : sealed (header_for ct ck v) = (λ b, zlen (concat b)) <$> batches ct.
Proof.
  rewrite sealed_eq. unfold batches, header_for. cbn [BatchSizes CurrBatchBlocksLen]. rewrite fmap_app. f_equal.
  destruct (decide (cur ct = [])) as [->|E]; [done|]. rewrite sum_zlen, decide_True; [done|].
  destruct (cur ct); [done|]. unfold zlen at 1. simpl. lia.
Qed.

Lemma sealBatch_for ct ck v : sealBatch (header_for ct ck v) = header_for (seal ct) ck v.
Proof.
  pose proof (sealed_for ct ck v) as E. unfold sealed in E. unfold sealBatch, header_for, set_table in *. simpl in *.
  case_decide as Hz; simpl in *; [by rewrite E|].
  assert (cur ct = []) as Ec by (destruct (cur ct); [done|]; unfold zlen at 1 in Hz; simpl in Hz; lia). by rewrite E, Ec.
Qed.

Lemma addBlock_for ct ck v b : addBlock (header_for ct ck v) (zlen b) = header_for (push ct b) ck v.
Proof. unfold addBlock, header_for, set_table. simpl. by rewrite fmap_app. Qed.

Lemma removeLastBlock_for ct ck v b : removeLastBlock (header_for (push ct b) ck v) = Ok (header_for ct ck v).
Proof.
  unfold removeLastBlock, header_for, set_table. simpl. rewrite fmap_app. simpl. rewrite zlen_app. change (zlen [_]) with 1.
  pose proof (zlen_nonneg (zlen <$> cur ct)). rewrite slice_Ok by (rewrite ?zlen_app; change (zlen [zlen b]) with 1; lia). simpl. do 2 f_equal.
  rewrite drop_0, Z.add_simpl_r, Z.sub_0_r, take_app_length'; [by destruct ct|set (l := zlen <$> cur ct); unfold zlen; lia].
Qed.

Lemma resetTable_for ct ck v : resetTable (header_for ct ck v) = header_for empty_content ck v.
Proof. done. Qed.

Lemma header_bytes_seal ct ck v : header_bytes (header_for (seal ct) ck v) = header_bytes (header_for ct ck v).
Proof.
  unfold header_bytes. cbn [header_for hdVersion DictChecksum]. rewrite !sealed_for.
  assert (batches (seal ct) = batches ct) as ->; [|done]. unfold batches at 1. simpl. by rewrite app_nil_r.
Qed.

(** The header read from a blob equals the header of the maker. *)
Lemma header_Equals_for ct ck v : content_ok ct → header_Equals (sealBatch (header_for ct ck v)) (Some (header_for ct ck v)) = Ok true.
Proof.
  intros Hct. destruct (header_Equals_sealed (header_for ct ck v) v) as [E _].
  - destruct (cur ct) as [|b bs] eqn:E; unfold header_for; cbn [CurrBatchBlocksLen]; rewrite E; [by left|right]. rewrite sum_zlen.
    assert (is_block b) as [_ Hm _] by (pose proof (cok_blocks _ Hct) as Hx; unfold blocks in Hx; rewrite E in Hx; apply Forall_app in Hx as [_ Hx]; by inversion Hx).
    cbn [concat]. rewrite zlen_app. pose proof (zlen_nonneg (concat bs)). lia.
  - rewrite <-E. f_equal. rewrite sealed_for, sealBatch_for. done.
Qed.

(** A sealed batch takes at least 38 bytes of the payload. *)
Lemma batches_bound ct : content_ok ct → Forall (λ b, 38 ≤ zlen (concat b) < 2 ^ 24) (batches ct) ∧ 38 * zlen (batches ct) ≤ zlen (payload_of ct).
Proof.
  intros [Hb Hp Hs]. unfold payload_of in *. rewrite <-blocks_batches in *.
  assert (Forall (λ b, b ≠ []) (batches ct)) as Hne by (unfold batches; apply Forall_app; split; [done|]; case_decide; by repeat constructor).
  clear Hp. induction (batches ct) as [|b bs IH]; [split; [constructor|done]|]. inversion_clear Hne as [|? ? Hb1 Hne'].
  cbn [concat] in *. rewrite concat_app, zlen_app in *. apply Forall_app in Hb as [Hbb Hbs].
  pose proof (zlen_nonneg (concat b)). pose proof (zlen_nonneg (concat (concat bs))). destruct IH as [IH1 IH2]; [done|lia|done|].
  destruct b as [|x b]; [done|]. inversion_clear Hbb as [|? ? [_ Hx _] _]. assert (38 ≤ zlen (concat (x :: b))) by (cbn [concat]; rewrite zlen_app; pose proof (zlen_nonneg (concat b)); lia).
  split; [constructor; [lia|done]|]. assert (zlen ((x :: b) :: bs) = zlen bs + 1) by (unfold zlen; simpl; lia). lia.
Qed.

Lemma header_for_ok ct ck v : content_ok ct → Forall is_byte ck → length ck = 32%nat → 0 ≤ v < 2 ^ 16 → header_ok (header_for ct ck v).
Proof.
  intros Hct Hck Hlen Hv. destruct (batches_bound ct Hct) as [Hb Hn]. pose proof (cok_size _ Hct). split; [done|done| |].
  - rewrite sealed_for. apply Forall_fmap. eapply Forall_impl; [exact Hb|]. intros b. simpl. unfold is_size. lia.
  - rewrite sealed_for. unfold zlen in *. rewrite length_fmap. lia.
Qed.

(** ** Finding the blocks *)

(** The blocks [bs] between [pre] and [rest]. *)
Lemma scan_batch_spec bs : Forall is_block bs → ∀ fuel pre rest acc, zlen (pre ++ concat bs ++ rest) < 2 ^ 62 → (length bs ≤ fuel)%nat →
  scan_batch fuel (pre ++ concat bs ++ rest) (zlen pre + zlen (concat bs)) (zlen pre) acc =
    Ok (acc ++ bs, zlen pre + zlen (concat bs), None).
Proof.
  induction 1 as [|b bs Hb Hbs IH]; intros fuel pre rest acc Hs Hf.
  - cbn [concat]. change (zlen []) with 0. destruct fuel; cbn [scan_batch]; rewrite decide_False by lia; by rewrite Z.add_0_r, app_nil_r.
  - destruct fuel as [|fuel]; [simpl in Hf; lia|]. cbn [scan_batch concat]. cbn [concat] in Hs. rewrite !zlen_app in *.
    pose proof (blk_min b Hb). pose proof (zlen_nonneg (concat bs)). pose proof (zlen_nonneg pre). pose proof (zlen_nonneg rest). rewrite decide_True by lia.
    rewrite <-!zlen_app, slice_tail, <-(assoc_L (++) b). cbn [mbind res_bind]. rewrite (blk_scan b Hb) by (rewrite !zlen_app; lia).
    rewrite slice_mid. cbn [mbind res_bind]. rewrite !zlen_app.
    replace (zlen pre + (zlen b + zlen (concat bs))) with (zlen (pre ++ b) + zlen (concat bs)) by (rewrite zlen_app; lia).
    replace (zlen pre + zlen b) with (zlen (pre ++ b)) by (rewrite zlen_app; lia). rewrite (assoc_L (++) pre b).
    rewrite IH; [by rewrite <-(assoc_L (++))|rewrite !zlen_app; lia|simpl in Hf; lia].
Qed.

Lemma blocks_fuel bs : Forall is_block bs → (length bs ≤ length (concat bs))%nat.
Proof.
  induction 1 as [|b bs Hb _ IH]; [done|]. cbn [concat]. rewrite length_app. pose proof (blk_min b Hb). unfold zlen in *. simpl length. lia.
Qed.

Lemma scan_batches_spec bts : ∀ pre acc, Forall is_block (concat bts) → zlen (pre ++ concat (concat bts)) < 2 ^ 62 →
  scan_batches (pre ++ concat (concat bts)) ((λ b, zlen (concat b)) <$> bts) (zlen pre) acc = Ok (acc ++ concat bts, None).
Proof.
  induction bts as [|b bts IH]; intros pre acc Hb Hs; [cbn [fmap list_fmap scan_batches concat]; by rewrite app_nil_r|].
  rewrite fmap_cons. cbn [scan_batches]. cbn [concat] in *. rewrite concat_app in *. apply Forall_app in Hb as [Hb1 Hb2].
  rewrite scan_batch_spec; [|done|done|pose proof (blocks_fuel b Hb1); rewrite !length_app; lia]. cbn [mbind res_bind].
  rewrite decide_False by (intros Hx; by apply Hx). rewrite <-zlen_app, (assoc_L (++) pre). rewrite IH; [by rewrite (assoc_L (++))|done|by rewrite <-(assoc_L (++))].
Qed.

(** ** The invariant *)

Class DictHashLaws `{DictHash} : Prop := {
  mimc_32 l : Forall is_byte (mimc_Sum l) ∧ length (mimc_Sum l) = 32%nat;
  poseidon2_32 l : Forall is_byte (poseidon2_Sum l) ∧ length (poseidon2_Sum l) = 32%nat;
  padded_32 l : Forall is_byte (ChecksumPaddedBytes l) ∧ length (ChecksumPaddedBytes l) = 32%nat }.

Section facts.
Context `{CompressorLaws C, RlpLaws, BlockRlp, DictHashLaws, MapRange, BitWriterSpec W, BitReaderSpec R}.
Notation BlobMaker := (BlobMaker C).
Notation Decompress := (DecompressBlobVersioned (C := C) (W := W) (R := R)).
Notation UnpackAlign := (UnpackAlign (W := W)).
Notation Get := (Get (W := W) (R := R)).

(** What a [BlobMaker] never changes. *)
Record setup (bm : BlobMaker) (ck : list Z) : Prop := {
  su_checksum : Forall is_byte ck ∧ length ck = 32%nat;
  su_version : 0 ≤ version bm < 2 ^ 16;
  su_store fuel : Get fuel (dictStore bm) ck (version bm) = Ok (dictStore bm, dict bm, None);
  su_limit : Limit bm ≤ maxOutputSize }.

(** A blob for the content [ct]: the header and a compressed payload, packed. *)
Definition is_blob (ct : content) (ck : list Z) (v : Z) (d blob : list Z) : Prop :=
  ∃ z, Forall is_byte z ∧
    PackAlign (R := R) (header_bytes (header_for ct ck v)) PackingSizeU256 [WithAdditionalInput [z]] = Ok (blob, zlen blob, None) ∧
    UnpackAlign blob PackingSizeU256 false = Ok (header_bytes (header_for ct ck v) ++ z, None) ∧
    cz_Decompress z d = Ok (payload_of ct, None).

Record inv (bm : BlobMaker) (ck : list Z) (ct : content) : Prop := {
  inv_setup : setup bm ck;
  inv_content : content_ok ct;
  inv_max : zlen (payload_of ct) ≤ MaxUncompressedBytes;
  inv_compressor : ∃ p, cz_rep (dict bm) (compressor bm) (payload_of ct) p;
  inv_header : header bm = header_for ct ck (version bm);
  inv_length : 0 ≤ currentBlobLength bm ≤ zlen (currentBlob bm) ∧ currentBlobLength bm ≤ maxOutputSize;
  inv_blob : currentBlobLength bm = 0 ∧ blocks ct = [] ∨
    (0 < currentBlobLength bm ≤ Limit bm ∧ blocks ct ≠ []) ∧
    is_blob ct ck (version bm) (dict bm) (take (Z.to_nat (currentBlobLength bm)) (currentBlob bm)) }.

(** A blob decompresses to its content, with any store that has the dictionary. *)
Lemma is_blob_decompress ct ck v d blob s s' : content_ok ct → Forall is_byte ck → length ck = 32%nat → 0 ≤ v < 2 ^ 16 →
  is_blob ct ck v d blob → Get 1 s ck v = Ok (s', d, None) →
  Decompress v blob s = Ok ({| resp_Header := Some (header_for (seal ct) ck v); resp_Blocks := blocks ct;
    resp_RawPayload := payload_of ct; resp_Dict := d |}, None, s').
Proof.
  intros Hct Hck Hlen Hv (z & _ & _ & Eun & Edec) Eget. pose proof (header_for_ok ct ck v Hct Hck Hlen Hv) as Hh.
  unfold DecompressBlobVersioned. rewrite Eun. cbn [mbind res_bind].
  rewrite (ReadFrom_at (header_for ct ck v) (emptyHeader v) _ z Hh) by (done || apply at_bytes_new). cbn [DictChecksum]. simpl (DictChecksum (header_for _ _ _)).
  rewrite Eget. cbn [mbind res_bind]. pose proof (header_bytes_zlen (header_for ct ck v) Hlen) as Hl. rewrite <-Hl.
  rewrite slice_tail. cbn [mbind res_bind]. rewrite Edec. cbn [mbind res_bind]. cbn [BatchSizes]. rewrite sealed_for. pose proof (cok_size _ Hct) as Hs.
  assert (payload_of ct = [] ++ concat (concat (batches ct))) as Ep by (unfold payload_of; by rewrite blocks_batches).
  rewrite Ep at 1. rewrite (scan_batches_spec (batches ct) []); [|rewrite blocks_batches; apply Hct|rewrite <-Ep; lia]. cbn [mbind res_bind app].
  rewrite blocks_batches. done.
Qed.

Lemma inv_Bytes bm ck ct : inv bm ck ct → ∃ blob, Bytes (W := W) (R := R) bm = Ok (bm, blob) ∧ zlen blob = Len bm ∧
  (blocks ct = [] ∧ blob = [] ∨ (0 < zlen blob ≤ Limit bm ∧ blocks ct ≠ []) ∧ is_blob ct ck (version bm) (dict bm) blob).
Proof.
  intros [[[Hckb Hckl] Hv Hst Hlim] Hct Hmax [p Hrep] Hhd [Hl Hl2] Hbl]. unfold Bytes. rewrite slice_Ok by lia. cbn [mbind res_bind].
  rewrite drop_0, Z.sub_0_r. set (blob := take _ _) in *. assert (zlen blob = currentBlobLength bm) as Ebl by (unfold blob, zlen in *; rewrite length_take; lia).
  exists blob. destruct Hbl as [[E0 Ee]|[Hpos Hb]].
  - rewrite decide_False by lia. split_and!; [done|done|]. left. split; [done|]. apply nil_length_inv. unfold zlen in Ebl. lia.
  - rewrite decide_True by lia. rewrite (is_blob_decompress ct ck (version bm) (dict bm) blob _ (dictStore bm)) by (done || apply Hst).
    cbn [mbind res_bind resp_Header]. rewrite Hhd.
    rewrite <-(sealBatch_for ct), header_Equals_for by done. cbn [mbind res_bind negb resp_RawPayload].
    destruct (cz_content _ _ _ _ Hrep) as (_ & _ & _ & -> & _ & _). rewrite decide_False by (intros Hx; by apply Hx).
    split_and!; [by destruct bm|done|right; by rewrite Ebl].
Qed.

(** ** Writing a block *)

(** The size of [n] bytes once packed, with the terminal symbol. *)
Definition packed_size (n : Z) : Z := (8 * (n + 1) + 253) / 254 * 32.

Lemma good_254 : good_size PackingSizeU256.
Proof. split; [done|by vm_compute]. Qed.

Lemma PackAlignSize_254 n : 0 ≤ n → PackAlignSize n PackingSizeU256 [] = Ok (packed_size n).
Proof.
  intros Hn. assert (dataNbBits (initialize n []) = 8 * (n + 1)) as E by (unfold initialize; cbn [dataNbBits foldl noTerminalSymbol lastByteNbUnusedBits additionalInput]; lia).
  rewrite PackAlignSize_spec; [by rewrite E|done|lia].
Qed.

Lemma packed_size_mono n m : n ≤ m → packed_size n ≤ packed_size m.
Proof. intros. unfold packed_size. apply Z.mul_le_mono_nonneg_r; [lia|]. apply Z.div_le_mono; lia. Qed.

Lemma fitsInBlob_eq (bm : BlobMaker) d s p n : cz_rep d (compressor bm) s p → 0 ≤ n →
  fitsInBlob bm n = Ok (bool_decide (packed_size (n + cz_Len (compressor bm)) ≤ Limit bm)).
Proof.
  intros Hrep Hn. destruct (cz_content _ _ _ _ Hrep) as (_ & _ & El & _). pose proof (zlen_nonneg (cz_Bytes (compressor bm))).
  unfold fitsInBlob. rewrite PackAlignSize_254 by lia. done.
Qed.

(** A maker that has written [b] to the compressor and to the header, on its way to
    accept or to refuse it. *)
Record trying (bm : BlobMaker) (ck : list Z) (ct : content) (b : list Z) (p : option (list Z)) : Prop := {
  tr_setup : setup bm ck;
  tr_old : content_ok ct;
  tr_new : content_ok (push ct b);
  tr_old_max : zlen (payload_of ct) ≤ MaxUncompressedBytes;
  tr_new_max : zlen (payload_of (push ct b)) ≤ cz_MaxInputSize;
  tr_compressor : cz_rep (dict bm) (compressor bm) (payload_of (push ct b)) p;
  tr_header : header bm = header_for (push ct b) ck (version bm);
  tr_length : 0 ≤ currentBlobLength bm ≤ zlen (currentBlob bm) ∧ currentBlobLength bm ≤ maxOutputSize;
  tr_blob : currentBlobLength bm = 0 ∧ blocks ct = [] ∨
    (0 < currentBlobLength bm ≤ Limit bm ∧ blocks ct ≠ []) ∧
    is_blob ct ck (version bm) (dict bm) (take (Z.to_nat (currentBlobLength bm)) (currentBlob bm)) }.

(** Two makers that agree on all but compressor, header and blob. *)
Definition same (bm bm' : BlobMaker) : Prop :=
  Limit bm' = Limit bm ∧ dict bm' = dict bm ∧ dictStore bm' = dictStore bm ∧ version bm' = version bm.

Lemma setup_same bm bm' ck : same bm bm' → setup bm ck → setup bm' ck.
Proof. intros (E1 & E2 & E3 & E4) [? ? ? ?]. split; rewrite ?E1, ?E2, ?E3, ?E4; done. Qed.

Lemma trying_compressor bm ck ct b p c p' : trying bm ck ct b p → cz_rep (dict bm) c (payload_of (push ct b)) p' →
  trying (set_compressor bm c) ck ct b p'.
Proof. intros [[] ? ? ? ? ? ? ? ?] Hc. by split. Qed.

(** Refusing: back to the content before. *)
Lemma trying_back bm ck ct b p c p' : trying bm ck ct b p → cz_rep (dict bm) c (payload_of ct) p' →
  inv (set_compressor (set_header bm (header_for ct ck (version bm))) c) ck ct.
Proof. intros [[] ? ? ? ? ? ? ? ?] Hc. split; eauto. done. Qed.

Lemma revert_ok bm ck ct b p (attempted : bool) : trying bm ck ct b p → (attempted = false → p = Some (payload_of ct)) →
  ∃ c', revert bm (payload_of (push ct b)) (zlen (payload_of ct)) attempted =
      Ok (set_compressor (set_header bm (header_for ct ck (version bm))) c', None) ∧
    inv (set_compressor (set_header bm (header_for ct ck (version bm))) c') ck ct ∧
    (attempted = false → cz_Revert (compressor bm) = Ok (c', None)).
Proof.
  intros Ht Hp. pose proof Ht as [_ Hct _ Hmax Hin Hrep Hh _ _]. unfold revert. rewrite Hh, removeLastBlock_for. cbn [mbind res_bind compressor set_header].
  destruct attempted; cbn [negb].
  - assert (slice (payload_of (push ct b)) 0 (zlen (payload_of ct)) = Ok (payload_of ct)) as ->.
    { rewrite payload_push. exact (slice_mid [] (payload_of ct) b). }
    cbn [mbind res_bind]. destruct (cz_write (dict bm) (cz_Reset (compressor bm)) [] (Some []) (payload_of ct)) as (c' & Ew & Hc').
    { by eapply cz_reset. }
    { apply Forall_concat. eapply Forall_impl; [apply (cok_blocks _ Hct)|]. by intros ? []. }
    { rewrite payload_push, zlen_app in Hin. pose proof (zlen_nonneg b). change (zlen []) with 0. lia. }
    rewrite Ew. cbn [mbind res_bind]. exists c'. split_and!; [done|by eapply trying_back|done].
  - destruct (cz_revert (dict bm) (compressor bm) (payload_of (push ct b)) (payload_of ct)) as (c' & Er & Hc'); [by rewrite <-Hp|].
    rewrite Er. cbn [mbind res_bind]. exists c'. split_and!; [done|by eapply trying_back|done].
Qed.

(** Accepting: the packed header and payload become the blob. *)
Lemma accept_ok bm ck ct b p (attempted : bool) : trying bm ck ct b p → zlen (payload_of (push ct b)) ≤ MaxUncompressedBytes →
  let h := header_for (push ct b) ck (version bm) in
  packed_size (ByteSize h + cz_Len (compressor bm)) ≤ Limit bm →
  ∃ bm', accept (R := R) bm (header_bytes h) (payload_of (push ct b)) (zlen (payload_of ct)) attempted false = Ok (bm', true, None) ∧
    inv bm' ck (push ct b) ∧ same bm bm' ∧ compressor bm' = compressor bm.
Proof.
  intros [Hs Hct Hct' Hmax Hin Hrep Hh Hl Hbl] Hmax' h Hfit. pose proof Hs as [[Hckb Hckl] Hv Hst Hlim].
  pose proof (header_for_ok (push ct b) ck (version bm) Hct' Hckb Hckl Hv) as Hok. fold h in Hok.
  destruct (cz_content _ _ _ _ Hrep) as (_ & Hbytes & El & _ & _ & Edec). set (z := cz_Bytes (compressor bm)) in *.
  set (opts := [WithAdditionalInput [z]]).
  destruct (PackAlign_unpack (W := W) (R := R) (header_bytes h) PackingSizeU256 opts good_254) as (n & y & Hn & Hfit2 & _ & Epack & Esize & Eun).
  { split; cbn; [split; [by apply header_bytes_ok|by apply Forall_singleton]|lia|by right|by left]. }
  { done. }
  set (out := words_of _ _) in *. change (packed_bytes (header_bytes h) (initialize (zlen (header_bytes h)) opts)) with (header_bytes h ++ z ++ []) in Eun.
  rewrite app_nil_r in Eun. assert (PackAlignSize (zlen (header_bytes h)) PackingSizeU256 opts = Ok (packed_size (ByteSize h + zlen z))) as Esize'.
  { pose proof (zlen_nonneg z). pose proof (zlen_nonneg (header_bytes h)). rewrite <-(header_bytes_zlen h) by done.
    assert (dataNbBits (initialize (zlen (header_bytes h)) opts) = 8 * (zlen (header_bytes h) + zlen z + 1)) as E.
    { unfold initialize. cbn [dataNbBits foldl apply_option opts noTerminalSymbol lastByteNbUnusedBits additionalInput app]. lia. }
    rewrite PackAlignSize_spec; [by rewrite E|done|lia]. }
  rewrite Esize in Esize'. injection Esize' as Eout. rewrite El, <-Eout in Hfit.
  assert (0 < zlen out) as Hpos. { rewrite Eout. unfold packed_size, ByteSize, NbElemsEncodingBytes, ByteLenEncodingBytes. pose proof (zlen_nonneg z). pose proof (zlen_nonneg (BatchSizes h)).
    case_decide; Z.to_euclidean_division_equations; lia. }
  unfold accept. fold z. fold opts. rewrite Epack. cbn [mbind res_bind]. rewrite decide_False by lia. eexists. split_and!; [done| |done|done].
  assert (Z.to_nat (zlen out) = length out) as Eto by (unfold zlen; lia).
  split; cbn [set_blob currentBlobLength currentBlob dict compressor header version Limit]; [by destruct Hs|done|done|by eexists|done| |].
  - rewrite zlen_app, Eto, firstn_all. pose proof (zlen_nonneg (drop (length out) (currentBlob bm))). lia.
  - right. split; [split; [lia|rewrite blocks_push; by destruct (blocks ct)]|]. rewrite Eto, firstn_all, take_app_length. exists z. done.
Qed.

Definition fits (bm : BlobMaker) (n : Z) : bool := bool_decide (packed_size n ≤ Limit bm).

(** After the label [bypass], with or without [forceReset]. *)
Lemma accept_any bm ck ct b p (attempted f : bool) : trying bm ck ct b p → (attempted = false → p = Some (payload_of ct)) →
  zlen (payload_of (push ct b)) ≤ MaxUncompressedBytes →
  let h := header_for (push ct b) ck (version bm) in
  fits bm (ByteSize h + cz_Len (compressor bm)) = true →
  ∃ bm', accept (R := R) bm (header_bytes h) (payload_of (push ct b)) (zlen (payload_of ct)) attempted f = Ok (bm', true, None) ∧
    inv bm' ck (if f then ct else push ct b) ∧ same bm bm' ∧
    (attempted = false → f = true → cz_Revert (compressor bm) = Ok (compressor bm', None)).
Proof.
  intros Ht Hp Hmax h Hfit. apply bool_decide_eq_true in Hfit. destruct f.
  - destruct (revert_ok bm ck ct b p attempted Ht Hp) as (c' & E & Hi & Hr). unfold accept. rewrite E. cbn [mbind res_bind]. eexists. split_and!; [done|done|done|intros Ha _; by apply Hr].
  - destruct (accept_ok bm ck ct b p attempted Ht Hmax Hfit) as (bm' & E & Hi & Hs & _). by exists bm'.
Qed.

(** The second chance, as a predicate: everything compressed in one go into [len]
    bytes, or not compressed at all. *)
Definition second_chance (bm : BlobMaker) (hdr payload len : Z) : bool :=
  fits bm (hdr + len) || (bool_decide (payload + cz_HeaderSize < len) && fits bm (hdr + (payload + cz_HeaderSize))).

Lemma recompress_ok bm ck ct b p (f : bool) : trying bm ck ct b p → zlen (payload_of (push ct b)) ≤ MaxUncompressedBytes →
  let h := header_for (push ct b) ck (version bm) in
  ∃ c2, cz_Write (cz_Reset (compressor bm)) (payload_of (push ct b)) = Ok (c2, zlen (payload_of (push ct b)), None) ∧
  let ok := second_chance bm (ByteSize h) (zlen (payload_of (push ct b))) (cz_Len c2) in
  ∃ bm', recompress (R := R) bm (header_bytes h) (payload_of (push ct b)) (zlen (payload_of ct)) f = Ok (bm', ok, None) ∧
    inv bm' ck (if ok && negb f then push ct b else ct) ∧ same bm bm'.
Proof.
  intros Ht Hmax h. pose proof Ht as [Hs _ Hct' _ Hin Hrep _ _ _]. set (payload := payload_of (push ct b)) in *.
  destruct (cz_write (dict bm) (cz_Reset (compressor bm)) [] (Some []) payload) as (c2 & Ew & Hc2).
  { by eapply cz_reset. } { apply (cz_content _ _ _ _ Hrep). } { done. }
  exists c2. split; [done|]. intros ok. unfold recompress. rewrite Ew. cbn [mbind res_bind]. simpl app in Hc2.
  pose proof (trying_compressor _ _ _ _ _ _ _ Ht Hc2) as Ht2. set (bm2 := set_compressor bm c2) in *.
  assert (zlen (header_bytes h) = ByteSize h) as Ehl by (apply header_bytes_zlen; apply Hs). pose proof (zlen_nonneg (header_bytes h)).
  rewrite (fitsInBlob_eq bm2 (dict bm) payload _ _ Hc2) by done. cbn [mbind res_bind]. rewrite Ehl.
  change (bool_decide _) with (fits bm (ByteSize h + cz_Len c2)). unfold ok, second_chance.
  destruct (fits bm (ByteSize h + cz_Len c2)) eqn:Efit.
  { destruct (accept_any bm2 ck ct b _ true f Ht2) as (bm' & E & Hi & Hsm & _); [done|done|done|]. change (version bm2) with (version bm) in E. fold h payload in E. rewrite E. exists bm'. split; [done|]. by destruct f. }
  cbn [orb]. destruct (cz_bypass _ _ _ _ Hc2) as (Hc3 & Eb & Elen). cbn [compressor set_compressor bm2]. destruct (cz_ConsiderBypassing c2) as [c3 byp]. cbn [fst snd] in *.
  pose proof (trying_compressor _ _ _ _ _ _ _ Ht2 Hc3) as Ht3. set (bm3 := set_compressor bm2 c3) in *.
  assert ((if byp then fitsInBlob bm3 (ByteSize h) else Ok false) =
    Ok (bool_decide (zlen payload + cz_HeaderSize < cz_Len c2) && fits bm (ByteSize h + (zlen payload + cz_HeaderSize)))) as ->.
  { rewrite <-Eb. destruct byp; [|done]. rewrite (fitsInBlob_eq bm3 (dict bm) payload _ _ Hc3) by lia. cbn [compressor set_compressor bm3]. by rewrite Elen. }
  cbn [mbind res_bind]. destruct (_ && _) eqn:Efit3.
  - apply andb_true_iff in Efit3 as [Eb3 Efit3]. rewrite Eb3 in Eb. destruct (accept_any bm3 ck ct b _ true f Ht3) as (bm' & E & Hi & Hsm & _); [done|done| |].
    { cbn [compressor set_compressor bm3]. by rewrite Elen. }
    change (version bm3) with (version bm) in E. fold h payload in E. rewrite E. exists bm'. split; [done|]. by destruct f.
  - destruct (revert_ok bm3 ck ct b _ true Ht3) as (c' & E & Hi & _); [done|]. fold payload in E. rewrite E. cbn [mbind res_bind]. eexists. by split_and!.
Qed.

(** When [Write] answers true: the blob stays below [MaxUncompressedBytes], and the
    block fits when appended, or after the second chance. *)
Definition accepts (bm : BlobMaker) (hdr payload len1 len2 : Z) : bool :=
  bool_decide (payload + hdr ≤ MaxUncompressedBytes) && (fits bm (hdr + len1) || second_chance bm hdr payload len2).

(** The blocks a caller may write: well-formed, and small enough for the
    compressor's input buffer next to a full blob. *)
Record block_fits (rlpBlock : list Z) (b : list Z) : Prop := {
  bf_decode : ∃ block, rlp_DecodeBlock rlpBlock = inl block ∧ block_ok block ∧ EncodeBlockForCompression (Some block) = Ok (b, None);
  bf_size : MaxUncompressedBytes + zlen b ≤ cz_MaxInputSize;
  bf_max : cz_MaxInputSize ≤ 2 ^ 21 }.

Lemma Write_ok bm ck ct rlpBlock b (f : bool) : inv bm ck ct → block_fits rlpBlock b →
  ∃ c1 c2, cz_Write (compressor bm) b = Ok (c1, zlen b, None) ∧
    cz_Write (cz_Reset c1) (payload_of (push ct b)) = Ok (c2, zlen (payload_of (push ct b)), None) ∧
    let hdr := ByteSize (header_for (push ct b) ck (version bm)) in
    let ok := accepts bm hdr (zlen (payload_of (push ct b))) (cz_Len c1) (cz_Len c2) in
    ∃ bm', Write (R := R) bm rlpBlock f = Ok (bm', ok, None) ∧ inv bm' ck (if ok && negb f then push ct b else ct) ∧ same bm bm' ∧
      (ok && fits bm (hdr + cz_Len c1) && f = true → cz_Revert c1 = Ok (compressor bm', None)).
Proof.
  intros [Hs Hct Hmax [p Hrep] Hh Hl Hbl] [(block & Edec & Hok & Eenc) Hsize HMax]. pose proof Hs as [[Hckb Hckl] Hv _ _].
  pose proof (zlen_nonneg (payload_of ct)). pose proof (zlen_nonneg b).
  assert (is_block b) as Hb by (eapply is_block_encoded; [done|done|unfold MaxUncompressedBytes in *; lia]).
  assert (content_ok (push ct b)) as Hct' by (apply content_ok_push; [done|done|unfold MaxUncompressedBytes in *; lia]).
  assert (zlen (payload_of (push ct b)) ≤ cz_MaxInputSize) as Hin by (rewrite payload_push, zlen_app; lia).
  destruct (cz_write (dict bm) (compressor bm) _ p b Hrep (blk_bytes b Hb)) as (c1 & Ew & Hc1); [lia|]. rewrite <-payload_push in Hc1.
  set (bm1 := set_header (set_compressor bm c1) (header_for (push ct b) ck (version bm))).
  assert (trying bm1 ck ct b (Some (payload_of ct))) as Ht by (destruct Hs; by split).
  destruct (cz_write (dict bm) (cz_Reset c1) [] (Some []) (payload_of (push ct b))) as (c2 & Ew2 & _).
  { by eapply cz_reset. } { apply (cz_content _ _ _ _ Hc1). } { done. }
  exists c1, c2. split_and!; [done|done|]. intros hdr ok. unfold Write. rewrite Edec, Eenc. cbn [mbind res_bind]. rewrite Ew. cbn [mbind res_bind header set_compressor].
  rewrite Hh, addBlock_for. change (set_header (set_compressor bm c1) (header_for (push ct b) ck (version bm))) with bm1. cbn [header set_header bm1 compressor set_compressor].
  pose proof (header_for_ok (push ct b) ck (version bm) Hct' Hckb Hckl Hv) as Hhok. rewrite (WriteTo_spec _ Hhok). cbn [mbind res_bind].
  assert (zlen (header_bytes (header_for (push ct b) ck (version bm))) = hdr) as Ehl by by apply header_bytes_zlen. rewrite Ehl.
  assert (0 ≤ hdr) as Hhdr by (rewrite <-Ehl; apply zlen_nonneg).
  destruct (cz_content _ _ _ _ Hrep) as (_ & _ & _ & _ & -> & _). destruct (cz_content _ _ _ _ Hc1) as (_ & _ & _ & Ewb & -> & _). rewrite Ewb.
  unfold ok, accepts. destruct (decide (MaxUncompressedBytes < zlen (payload_of (push ct b)) + hdr)) as [Hbig|Hsmall].
  - rewrite (bool_decide_eq_false_2 (_ + hdr ≤ _)) by lia. cbn [andb]. destruct (cz_revert _ _ _ _ Hc1) as (c' & -> & Hc'). cbn [mbind res_bind header set_compressor].
    rewrite removeLastBlock_for. cbn [mbind res_bind]. eexists. split_and!; [done| |done|done]. exact (trying_back bm1 ck ct b _ c' _ Ht Hc').
  - rewrite (bool_decide_eq_true_2 (_ + hdr ≤ _)) by lia. cbn [andb]. rewrite (fitsInBlob_eq bm1 (dict bm) _ _ _ Hc1) by done. cbn [mbind res_bind].
    change (bool_decide _) with (fits bm (hdr + cz_Len c1)). destruct (fits bm (hdr + cz_Len c1)) eqn:Efit; cbn [orb].
    + destruct (accept_any bm1 ck ct b _ false f Ht) as (bm' & E & Hi & Hsm & Hr); [done|lia|done|]. change (version bm1) with (version bm) in E. rewrite E.
      exists bm'. split_and!; [done|by destruct f|done|]. intros Hf. apply Hr; [done|]. by apply andb_true_iff in Hf as [_ ?].
    + destruct (recompress_ok bm1 ck ct b _ f Ht ltac:(lia)) as (c2' & Ew2' & bm' & E & Hi & Hsm). change (compressor bm1) with c1 in Ew2'.
      rewrite Ew2 in Ew2'. injection Ew2' as <-. change (version bm1) with (version bm) in E. rewrite E.
      exists bm'. split_and!; [done|done|done|]. rewrite andb_false_r. done.
Qed.

Lemma StartNewBatch_ok bm ck ct : inv bm ck ct → inv (StartNewBatch bm) ck (seal ct) ∧ same bm (StartNewBatch bm).
Proof.
  intros [[] Hct Hmax [p Hrep] Hh Hl Hbl]. split; [|done]. assert (payload_of (seal ct) = payload_of ct) as Ep by (unfold payload_of; by rewrite blocks_seal).
  split; rewrite ?Ep; cbn [StartNewBatch set_header header currentBlobLength currentBlob compressor dict version Limit]; [by split|by apply content_ok_seal|done|by exists p| |done|].
  - by rewrite Hh, sealBatch_for.
  - rewrite blocks_seal. destruct Hbl as [|[Hpos (z & Hz)]]; [by left|right]. split; [done|]. exists z. by rewrite Ep, header_bytes_seal.
Qed.

Lemma Reset_ok bm ck ct : inv bm ck ct → inv (Reset bm) ck empty_content ∧ same bm (Reset bm).
Proof.
  intros [[] Hct Hmax [p Hrep] Hh [Hl Hl2] Hbl]. split; [|done]. unfold Reset. cbn [set_header set_blob set_compressor header currentBlob compressor]. rewrite Hh, resetTable_for, sealBatch_for.
  split; cbn [set_header set_blob set_compressor header currentBlob currentBlobLength compressor dict version Limit]; [by split|apply content_ok_empty|by vm_compute| |done| |by left].
  - eexists. by eapply cz_reset.
  - unfold maxOutputSize. pose proof (zlen_nonneg (currentBlob bm)). lia.
Qed.

Lemma Checksum_32 d v k : Checksum (W := W) (R := R) d v = Ok (k, None) → Forall is_byte k ∧ length k = 32%nat.
Proof.
  unfold Checksum, ChecksumPackedData. repeat case_decide; try (destruct (PackData _ _ _) as [[b e]|]; [|done]; cbn [mbind res_bind]); intros [= <-]; subst;
    [apply poseidon2_32|apply mimc_32|apply padded_32].
Qed.

Lemma New_ok v limit file bm : 0 ≤ v < 2 ^ 16 - 1 → limit ≤ maxOutputSize → NewVersionedBlobMaker (W := W) (R := R) v limit file = Ok (Some bm, None) →
  ∃ ck, Checksum (W := W) (R := R) (dict bm) v = Ok (ck, None) ∧ inv bm ck empty_content ∧ version bm = v ∧ Limit bm = limit ∧ dict bm = cz_AugmentDict file.1.
Proof.
  intros Hv Hlim. unfold NewVersionedBlobMaker. destruct file as [d [e|]]; [done|]. set (d' := cz_AugmentDict d).
  destruct (SingletonStore d' v) as [[s [e|]]|] eqn:Es; cbn [mbind res_bind]; [done| |done].
  destruct (SingletonStore_Get (W := W) (R := R) d' v s Hv Es) as (ck & Eck & Hget). rewrite Eck. cbn [mbind res_bind].
  destruct (cz_NewCompressor d') as [[[c|] [e|]]|] eqn:Ec; cbn [mbind res_bind]; try done. intros [= <-].
  destruct (Checksum_32 d' v ck Eck) as [Hb Hlen]. exists ck. split; [done|]. rewrite firstn_all2, read_array_full by lia.
  split_and!; [|done|done|done]. split; cbn [StartNewBatch set_header header currentBlobLength currentBlob compressor dict version Limit dictStore].
  - split; [done|simpl; lia|done|done].
  - apply content_ok_empty.
  - by vm_compute.
  - eexists. by apply cz_new.
  - done.
  - by vm_compute.
  - by left.
Qed.
End facts.

(** ** Fuel of the search for blocks *)

Definition pos_ok (r : Reader) : Prop := 0 ≤ rd_pos r.

Lemma pos_Seek n r : pos_ok r → pos_ok (rd_Seek n r).2 ∧ rd_data (rd_Seek n r).2 = rd_data r.
Proof. unfold pos_ok, rd_Seek. intros. case_decide; simpl; split; try done; lia. Qed.

Lemma pos_ReadByte r : pos_ok r → pos_ok (rd_ReadByte r).2 ∧ rd_data (rd_ReadByte r).2 = rd_data r.
Proof. unfold pos_ok, rd_ReadByte. intros. case_decide; [done|]. destruct (rd_left r); simpl; split; try done; lia. Qed.

Lemma pos_UnreadByte r : pos_ok r → pos_ok (rd_UnreadByte r).2 ∧ rd_data (rd_UnreadByte r).2 = rd_data r.
Proof. unfold pos_ok, rd_UnreadByte. intros. case_decide; simpl; split; try done; lia. Qed.

Lemma pos_Read n r : pos_ok r → pos_ok (rd_Read n r).2 ∧ rd_data (rd_Read n r).2 = rd_data r.
Proof. unfold pos_ok, rd_Read. intros. case_decide; simpl; split; try done. pose proof (zlen_nonneg (take n (rd_left r))). lia. Qed.

Lemma pos_passRlpList r : pos_ok r → pos_ok (passRlpList r).2 ∧ rd_data (passRlpList r).2 = rd_data r.
Proof.
  intros Hr. unfold passRlpList. destruct (pos_ReadByte r Hr) as [H1 E1]. destruct (rd_ReadByte r) as [[fb [e|]] r1]; cbn [snd] in *; [done|].
  repeat case_decide; cbn [snd]; [done|rewrite <-E1; by apply pos_Seek|].
  destruct (pos_Read (Z.to_nat (fb - 0xf7)) r1 H1) as [H2 E2]. destruct (rd_Read _ r1) as [[bb e2] r2]. cbn [snd] in *. rewrite <-E1, <-E2. by apply pos_Seek.
Qed.

Lemma pos_scan_txs n : ∀ r, pos_ok r → pos_ok (scan_txs n r).2 ∧ rd_data (scan_txs n r).2 = rd_data r.
Proof.
  induction n as [|n IH]; intros r Hr; [done|]. cbn [scan_txs]. destruct (pos_Seek addressLen r Hr) as [H1 E1]. set (r1 := (rd_Seek addressLen r).2) in *.
  destruct (pos_ReadByte r1 H1) as [H2 E2]. destruct (rd_ReadByte r1) as [[fb [e|]] r2]; cbn [snd] in *; [by rewrite E2|].
  assert (∀ s, s = (if decide (0xc0 < fb) then rd_UnreadByte r2 else (None, r2)) → pos_ok s.2 ∧ rd_data s.2 = rd_data r) as Hs.
  { intros s ->. case_decide; [destruct (pos_UnreadByte r2 H2) as [? ->]|]; cbn [snd]; by rewrite E2. }
  destruct (if decide _ then _ else _) as [[e|] r3]; destruct (Hs _ eq_refl) as [H3 E3]; cbn [snd] in *; [done|].
  destruct (pos_passRlpList r3 H3) as [H4 E4]. destruct (passRlpList r3) as [[e|] r4]; cbn [snd] in *; [by rewrite E4|].
  destruct (IH r4 H4) as [? ->]. by rewrite E4.
Qed.

(** A length that is returned stays within the bytes; it may be 0. *)
Lemma ScanBlock_bounds b n : ScanBlockByteLen b = (n, None) → 0 ≤ n ≤ zlen b.
Proof.
  unfold ScanBlockByteLen, ReadFull, rd_ReadFull. rewrite decide_False by lia. destruct (pos_Read 2 (NewBytesReader b)) as [H1 E1]; [done|].
  destruct (rd_Read 2 _) as [[nb e] r1]. cbn [snd] in *. case_decide; [|done].
  destruct (pos_Seek preTxBufSize r1 H1) as [H2 E2]. set (r2 := (rd_Seek preTxBufSize r1).2) in *.
  destruct (pos_scan_txs (Z.to_nat (be_val nb)) r2 H2) as [H3 E3]. destruct (scan_txs _ r2) as [[e3|] r3]; [done|]. cbn [snd] in *. intros [= <-].
  unfold rd_Size, rd_Len. rewrite E3, E2, E1. simpl. unfold pos_ok in H3. pose proof (zlen_nonneg b). case_decide; lia.
Qed.

(** The fuel [scan_batches] gives is enough: when it runs out, so does any other, as
    a block of length 0 is found again for ever. *)
Lemma scan_batch_fuel fuel : ∀ payload limit offset acc, 0 ≤ offset ≤ zlen payload → zlen payload < offset + Z.of_nat fuel →
  scan_batch fuel payload limit offset acc = Panic → ∀ fuel', scan_batch fuel' payload limit offset acc = Panic.
Proof.
  induction fuel as [|fuel IH]; intros payload limit offset acc Ho Hf; [lia|]. cbn [scan_batch].
  destruct (decide (offset < limit)) as [Hlim|]; [|done]. rewrite slice_Ok by lia. cbn [mbind res_bind]. set (rest := take _ _).
  assert (zlen rest = zlen payload - offset) as Hrl by (unfold rest, zlen in *; rewrite length_take, length_drop; lia).
  destruct (ScanBlockByteLen rest) as [n [e|]] eqn:Es; [done|]. destruct (ScanBlock_bounds rest n Es) as [Hn0 Hn]. intros Hp.
  destruct (decide (n = 0)) as [->|Hn1].
  - clear Hp. intros fuel'. revert acc. induction fuel' as [|fuel' IH']; intros acc; cbn [scan_batch]; rewrite decide_True by done; [done|].
    rewrite slice_Ok by lia. cbn [mbind res_bind]. fold rest. rewrite Es, Z.add_0_r, slice_Ok by lia. cbn [mbind res_bind]. apply IH'.
  - intros fuel'. destruct fuel' as [|fuel']; cbn [scan_batch]; rewrite decide_True by done; [done|]. rewrite slice_Ok by lia. cbn [mbind res_bind]. fold rest. rewrite Es.
    destruct (slice payload offset (offset + n)) as [blk|]; [|done]. cbn [mbind res_bind] in *. apply (IH payload limit (offset + n) (acc ++ [blk])); [lia|lia|done].
Qed.

(** * Theorems on v1 and v2 blobs *)



(** ** The maker as a list of batches *)

Inductive op := OpStartNewBatch | OpReset | OpWrite (rlpBlock : list Z) (forceReset : bool).

Section theorems.
Context `{CompressorLaws C, RlpLaws, BlockRlp, DictHashLaws, MapRange, BitWriterSpec W, BitReaderSpec R}.
Notation BlobMaker := (BlobMaker C).
Notation Decompress := (DecompressBlobVersioned (C := C) (W := W) (R := R)).
Notation Write := (Write (R := R)).

Definition step (bm : BlobMaker) (o : op) : res (BlobMaker * bool) :=
  match o with
  | OpStartNewBatch => Ok (StartNewBatch bm, false)
  | OpReset => Ok (Reset bm, false)
  | OpWrite rlpBlock f => '(bm, ok, _) ← Write bm rlpBlock f; Ok (bm, ok)
  end.

(** The answers of the calls are kept. *)
Fixpoint run (bm : BlobMaker) (ops : list op) : res (BlobMaker * list bool) :=
  match ops with
  | [] => Ok (bm, [])
  | o :: ops' => '(bm, ok) ← step bm o; '(bm, oks) ← run bm ops'; Ok (bm, ok :: oks)
  end.

(** What [Write] compresses for an RLP block. *)
Definition encoded (rlpBlock : list Z) : list Z :=
  match rlp_DecodeBlock rlpBlock with
  | inl block => match EncodeBlockForCompression (Some block) with Ok (b, _) => b | Panic => [] end
  | inr _ => []
  end.

(** The specification: batches of blocks, where a block is appended when [Write]
    answers true and was not asked to forget it. *)
Definition spec_step (ct : content) (oo : op * bool) : content :=
  match oo.1 with
  | OpStartNewBatch => seal ct
  | OpReset => empty_content
  | OpWrite rlpBlock f => if oo.2 && negb f then push ct (encoded rlpBlock) else ct
  end.

Definition op_ok (o : op) : Prop :=
  match o with
  | OpWrite rlpBlock _ => (∃ e, rlp_DecodeBlock rlpBlock = inr e) ∨ block_fits (C := C) rlpBlock (encoded rlpBlock)
  | _ => True
  end.

Lemma step_inv bm ck ct o : inv (W := W) (R := R) bm ck ct → op_ok o →
  ∃ bm' ok, step bm o = Ok (bm', ok) ∧ inv (W := W) (R := R) bm' ck (spec_step ct (o, ok)) ∧ same bm bm'.
Proof.
  intros Hi Ho. destruct o as [| |r f]; cbn [step].
  - eexists _, _. split; [done|]. by apply StartNewBatch_ok.
  - eexists _, _. split; [done|]. by eapply Reset_ok.
  - destruct Ho as [[e Ee]|Hf].
    + exists bm, false. unfold Write, BlobV1.Write. rewrite Ee. done.
    + destruct (Write_ok (W := W) (R := R) bm ck ct r _ f Hi Hf) as (c1 & c2 & _ & _ & bm' & E & Hi' & Hs & _). rewrite E. cbn [mbind res_bind].
      eexists bm', _. done.
Qed.

Lemma run_inv ops : ∀ bm ck ct, inv (W := W) (R := R) bm ck ct → Forall op_ok ops →
  ∃ bm' oks, run bm ops = Ok (bm', oks) ∧ length oks = length ops ∧ inv (W := W) (R := R) bm' ck (foldl spec_step ct (zip ops oks)) ∧ same bm bm'.
Proof.
  induction ops as [|o ops IH]; intros bm ck ct Hi Ho; cbn [run]; [by exists bm, []|]. inversion_clear Ho as [|? ? Ho1 Ho2].
  destruct (step_inv bm ck ct o Hi Ho1) as (bm1 & ok & -> & Hi1 & Hs1). cbn [mbind res_bind].
  destruct (IH bm1 ck _ Hi1 Ho2) as (bm2 & oks & -> & El & Hi2 & Hs2). cbn [mbind res_bind]. exists bm2, (ok :: oks).
  split_and!; [done|simpl; lia|done|]. destruct Hs1 as (? & ? & ? & ?), Hs2 as (? & ? & ? & ?). unfold same. split_and!; congruence.
Qed.


(** C17. [forceReset] asks the question that [Write] answers: on any state a maker
    reaches, Write(block, true) gives the answer Write(block, false) would give, and
    after an answer true the block can indeed be appended, although the first call
    may have left the compressor in another state (it recompresses what it had). *)
Theorem CanWrite_then_Write v limit file (bm bm0 : BlobMaker) ops oks r :
  0 ≤ v < 2 ^ 16 - 1 → limit ≤ maxOutputSize → NewVersionedBlobMaker (W := W) (R := R) v limit file = Ok (Some bm, None) → Forall op_ok ops →
  run bm ops = Ok (bm0, oks) → block_fits (C := C) r (encoded r) →
  ∃ ok bm1 bm2, Write bm0 r true = Ok (bm1, ok, None) ∧ Write bm0 r false = Ok (bm2, ok, None) ∧
    (ok = true → ∃ bm3, Write bm1 r false = Ok (bm3, true, None)).
Proof.
  intros Hv Hlim Enew Hops Erun Hr. destruct (New_ok (W := W) (R := R) v limit file bm Hv Hlim Enew) as (ck & _ & Hi & _).
  destruct (run_inv ops bm ck empty_content Hi Hops) as (x & y & Ex & _ & Hi0 & _). rewrite Erun in Ex. injection Ex as <- <-. clear Hi Erun Enew Hops. set (ct := foldl _ _ _) in *.
  set (b := encoded r) in *. destruct (Write_ok (W := W) (R := R) bm0 ck ct r b true Hi0 Hr) as (c1 & c2 & E1 & E2 & bm1 & Ew1 & Hi1 & (S1 & S2 & S3 & S4) & Hrev).
  destruct (Write_ok (W := W) (R := R) bm0 ck ct r b false Hi0 Hr) as (c1' & c2' & E1' & E2' & bm2 & Ew2 & _ & _ & _).
  rewrite E1 in E1'. injection E1' as <-. rewrite E2 in E2'. injection E2' as <-. eexists _, bm1, bm2. split_and!; [exact Ew1|exact Ew2|]. intros Hok.
  rewrite andb_false_r in Hi1. destruct (Write_ok (W := W) (R := R) bm1 ck ct r b false Hi1 Hr) as (d1 & d2 & F1 & F2 & bm3 & Ew3 & _ & _ & _).
  exists bm3. rewrite Ew3. do 3 f_equal. rewrite S4. set (hdr := ByteSize _) in *. set (pl := zlen (payload_of _)) in *.
  assert (∀ n, fits bm1 n = fits bm0 n) as Efit by (intros n; unfold fits; by rewrite S1).
  pose proof (inv_compressor _ _ _ Hi0) as [p0 Hc0]. pose proof (inv_compressor _ _ _ Hi1) as [p1 Hc1]. rewrite S2 in Hc1.
  destruct Hr as [(block & Edec & Hblk & Eenc) Hsz HM]. pose proof (inv_max _ _ _ Hi0). unfold MaxUncompressedBytes in *.
  assert (Forall is_byte b) as Hbb by (eapply EncodeBlock_bytes; [done|done|pose proof (zlen_nonneg b); lia]).
  pose proof Hok as Hok0. unfold accepts, second_chance in Hok |- *. apply andb_true_iff in Hok as [-> Hok]. cbn [andb]. rewrite !Efit. apply orb_true_iff.
  destruct (fits bm0 (hdr + cz_Len c1)) eqn:Ef1; [left|right].
  - destruct (cz_rewrite (dict bm0) (compressor bm0) _ p0 b c1 (compressor bm1) Hc0 Hbb) as (c3 & F3 & E3).
    { lia. } { done. } { apply Hrev. by rewrite Hok0, ?Ef1. }
    rewrite F1 in F3. injection F3 as <-. by rewrite E3.
  - assert (zlen (payload_of ct) + zlen b ≤ cz_MaxInputSize) as Hfit by lia.
    destruct (cz_write _ _ _ _ b Hc0 Hbb Hfit) as (x & Ex & Hx). rewrite E1 in Ex. injection Ex as <-.
    destruct (cz_write _ _ _ _ b Hc1 Hbb Hfit) as (y & Ey & Hy). rewrite F1 in Ey. injection Ey as <-.
    rewrite (cz_fresh (dict bm0) d1 _ _ c1 _ _ (payload_of (push ct b)) d2 c2 pl pl Hy Hx); [done| |rewrite payload_push, zlen_app; lia|exact F2|exact E2].
    rewrite payload_push. apply (cz_content _ _ _ _ Hx).
Qed.

(** A transaction whose RLP header announces 2^64 - 67 bytes: [passRlpList] seeks back
    to the start of the payload. *)
Definition endless : list Z := be_bytes 2 1 ++ zero_bytes 36 ++ zero_bytes 20 ++ [255] ++ be_bytes 8 (2 ^ 64 - 67).

Lemma endless_scan : ScanBlockByteLen endless = (0, None).
Proof. by vm_compute. Qed.

Lemma endless_loop fuel limit acc : 0 < limit → scan_batch fuel endless limit 0 acc = Panic.
Proof.
  intros Hl. revert acc. induction fuel as [|fuel IH]; intros acc; cbn [scan_batch]; rewrite decide_True by done; [done|].
  pose proof (slice_tail [] endless) as Es. cbn [app] in Es. change (zlen []) with 0 in Es. rewrite Es. cbn [mbind res_bind]. rewrite endless_scan. apply IH.
Qed.

End theorems.
