(* ===== verification/LzssApi.v ===== *)
(** * The repository's compressor as the blob makers see it

    [Lzss] discharges the laws of [CompressorApi]. *)

From S2P Require Export LzssRun CompressorApi.

Section api.
Context `{SuffixSort, !SuffixSortLaws, BitWriterSpec W, BitReaderSpec R}.
Notation Compressor := (Compressor W).

(** What [write] reads of the compressor. *)
Definition reads (c : Compressor) := (dictData c, dictIndex c, dictReservedIdx c, level c).

Lemma write_reads `{writer T} (c c' : Compressor) d ix (w : T) i : reads c = reads c' → write c d ix w i = write c' d ix w i.
Proof.
  intros [= E1 E2 E3 E4]. unfold write, write_loop, write_step, write_lazy, write_run, fillBackrefs, dictBackRefType, shortBackRefType, longBackRefType, dictLen.
  by rewrite E1, E2, E3, E4.
Qed.

(** The length after a write is a function of the length before and of what
    [write] reads. *)
Lemma Write_Len dict1 dict2 (c1 c2 : Compressor) d c1' c2' n1 n2 :
  LzssRun.inv dict1 c1 → LzssRun.inv dict2 c2 → Forall is_byte d → zlen (inBuf c1) + zlen d ≤ MaxInputSize →
  inBuf c1 = inBuf c2 → reads c1 = reads c2 → zlen (outBuf c1) = zlen (outBuf c2) → nbSkippedBits c1 = nbSkippedBits c2 →
  Write c1 d = Ok (c1', n1, None) → Write c2 d = Ok (c2', n2, None) → zlen (outBuf c1') = zlen (outBuf c2').
Proof.
  intros Hi1 Hi2 Hd Hfit Ein Er Eo Es E1 E2. assert (level c1 = level c2) as El by by injection Er. pose proof Hfit as Hfit2. rewrite Ein in Hfit2.
  destruct (decide (level c1 = NoCompression)) as [Hl|Hl].
  - destruct (Write_raw dict1 c1 d Hi1 Hd Hfit Hl) as (x & Ex & _ & Hx). destruct (Write_raw dict2 c2 d Hi2 Hd Hfit2) as (y & Ey & _ & Hy); [congruence|].
    rewrite E1 in Ex. rewrite E2 in Ey. injection Ex as <- _. injection Ey as <- _. lia.
  - destruct (Write_compressed dict1 c1 d Hi1 Hd Hfit Hl) as (x & Ex & [Hix _] & b1 & Hb1 & Hx).
    destruct (Write_compressed dict2 c2 d Hi2 Hd Hfit2) as (y & Ey & [Hiy _] & b2 & Hb2 & Hy); [congruence|].
    rewrite E1 in Ex. rewrite E2 in Ey. injection Ex as <- _. injection Ey as <- _.
    rewrite Ein, (write_reads c1 c2) in Hb1 by done. rewrite Hb1 in Hb2. injection Hb2 as <-.
    pose proof (stream_skipped _ _ _ _ _ (LzssRun.inv_stream _ _ Hix)). pose proof (stream_skipped _ _ _ _ _ (LzssRun.inv_stream _ _ Hiy)). lia.
Qed.

Definition LzssOps : CompressorOps Compressor := {|
  cz_MaxInputSize := MaxInputSize;
  cz_HeaderSize := HeaderSize;
  cz_AugmentDict := AugmentDict;
  cz_NewCompressor d := NewCompressor d BestCompression;
  cz_Reset := Reset;
  cz_Write := Write;
  cz_Revert := Revert;
  cz_ConsiderBypassing := ConsiderBypassing;
  cz_Len := Len;
  cz_Written := Written;
  cz_WrittenBytes := WrittenBytes;
  cz_Bytes := Bytes;
  cz_CompressedSize256k := CompressedSize256k;
  cz_Decompress := Decompress (R := R) |}.

Definition rep (dict : list Z) (c : Compressor) (s : list Z) (p : option (list Z)) : Prop :=
  refines dict c (s, p) ∧ intendedLevel c = BestCompression.

Lemma reads_fixed dict c c' : LzssRun.inv dict c → LzssRun.inv dict c' → intendedLevel c = BestCompression → intendedLevel c' = BestCompression →
  level c = level c' → reads c = reads c'.
Proof.
  intros [[E1 _ [?|E2] E3 _ _] _ _ _ _] [[E1' _ [?|E2'] E3' _ _] _ _ _ _] Hl Hl' El; try by rewrite ?Hl, ?Hl' in *. unfold reads. by rewrite E1, E2, E3, E1', E2', E3', El.
Qed.

Lemma Revert_level c c' e : Revert c = Ok (c', e) → justBypassed c = false →
  level c' = level c ∧ intendedLevel c' = intendedLevel c ∧ (lastInLen c ≠ -1 → nbSkippedBits c' = lastNbSkippedBits c ∧
    outBuf c' = take (Z.to_nat (lastOutLen c)) (outBuf c)).
Proof.
  intros E Hb. revert E. unfold Revert. case_decide; [by intros [= <- <-]|]. unfold Truncate. case_decide; [|done]. cbn [mbind res_bind justBypassed set_in]. rewrite Hb.
  case_decide; [|done]. cbn [mbind res_bind]. by intros [= <- <-].
Qed.

Lemma NewCompressor_Some dict c e : NewCompressor dict BestCompression = Ok (Some c, e) → rep dict c [] (Some []).
Proof.
  intros E. destruct (decide (MaxDictSize < zlen (AugmentDict dict))) as [Hbig|Hsm]; [unfold NewCompressor in E; by rewrite decide_True in E|].
  destruct (NewCompressor_inv dict BestCompression) as (c' & E' & Hi & Hin & Hl); [done|lia|]. rewrite E in E'. injection E' as <- _.
  split; [split_and!; [done|done|]; cbn [fst snd]; rewrite Hin, Hl; split; [done|apply take_nil]|].
  revert E. unfold NewCompressor. rewrite decide_False by lia. destruct (if decide _ then _ else _); [|done]. cbn [mbind res_bind]. by intros [= <- _].
Qed.

Lemma rep_write dict c s p d : rep dict c s p → Forall is_byte d → zlen s + zlen d ≤ MaxInputSize →
  ∃ c', Write c d = Ok (c', zlen d, None) ∧ rep dict c' (s ++ d) (Some s) ∧ wrote dict c d c'.
Proof.
  intros [(Hi & Hb & _) Hl] Hd Hfit. cbn [fst snd] in *. destruct (Write_inv dict c d Hi Hd) as (c' & E & Hw); [by rewrite Hb|].
  exists c'. split_and!; [done| |done]. pose proof Hw as (Hi' & Ein & Eli & _ & _ & Eil & _). pose proof (zlen_nonneg (inBuf c)).
  split; [|congruence]. split_and!; [done|by rewrite Ein, <-Hb|]. cbn [snd]. rewrite Ein, Eli. split; [lia|]. rewrite <-Hb. unfold zlen. by rewrite Nat2Z.id, take_app_length.
Qed.

Lemma rep_revert dict c s p : rep dict c s (Some p) → ∃ c', Revert c = Ok (c', None) ∧ rep dict c' p None.
Proof.
  intros [(Hi & Hb & Hne & Hp) Hl]. cbn [fst snd] in *. destruct (Revert_inv dict c Hi Hne) as (c' & E & Hi' & Ein & _). exists c'. split; [done|].
  split; [split_and!; [done|cbn [fst]; congruence|done]|]. destruct (justBypassed c) eqn:Ej; [|destruct (Revert_level c c' None E Ej) as (_ & -> & _); done].
  revert E. unfold Revert. rewrite decide_False by done. destruct (Truncate _ _) as [inb|] eqn:Et; [|done]. cbn [mbind res_bind justBypassed set_in inBuf]. rewrite Ej.
  assert (inb = take (Z.to_nat (lastInLen c)) (inBuf c) ∧ (Z.to_nat (lastInLen c) ≤ length (inBuf c))%nat) as [Einb _].
  { unfold Truncate in Et. case_decide; [|done]. injection Et as <-. unfold zlen in *. split; [done|lia]. }
  destruct (Reset_inv dict (set_in c inb (-1))) as [Hr Hr0]; [by destruct Hi as [[] ? ? ? ?]|by destruct Hi as [[] ? ? ? ?]|].
  destruct Hi as [? ? [Hby Hmx] ? ?]. destruct (Write_inv dict (Reset (set_in c inb (-1))) inb Hr) as (x & -> & _ & _ & _ & _ & _ & Ex & _).
  { rewrite Einb. by apply Forall_take. } { rewrite Hr0, Einb. unfold zlen in *. rewrite length_take. simpl. lia. }
  cbn [mbind res_bind]. intros [= <-]. by rewrite Ex.
Qed.

Lemma rep_bypass dict c s p : rep dict c s p → rep dict (ConsiderBypassing c).1 s p.
Proof.
  intros [(Hi & Hb & Hp) Hl]. destruct (ConsiderBypassing_inv dict c Hi) as (Hi' & Ein & Eli). split; [split_and!; [done|by rewrite Ein|by rewrite Eli, Ein]|].
  unfold ConsiderBypassing. by case_decide.
Qed.

Lemma rep_rewrite dict c s p d c1 c2 : rep dict c s p → Forall is_byte d → zlen s + zlen d ≤ MaxInputSize →
  Write c d = Ok (c1, zlen d, None) → Revert c1 = Ok (c2, None) → ∃ c3, Write c2 d = Ok (c3, zlen d, None) ∧ Len c3 = Len c1.
Proof.
  intros Hr Hd Hfit E1 E2. destruct (rep_write dict c s p d Hr Hd Hfit) as (x & Ex & Hr1 & Hw). rewrite E1 in Ex. injection Ex as <-.
  destruct (rep_revert dict c1 _ _ Hr1) as (y & Ey & Hr2). rewrite E2 in Ey. injection Ey as <-.
  destruct (rep_write dict c2 s None d Hr2 Hd Hfit) as (c3 & E3 & _). exists c3. split; [done|].
  destruct Hw as (Hi1 & Ein & Eli & Elv & Ej & Eil & Elo & Els). destruct (Revert_level c1 c2 None E2 Ej) as (El2 & Ei2 & Hout). pose proof (zlen_nonneg (inBuf c)).
  destruct Hout as [Esk Eout]; [lia|]. destruct Hr as [(Hi & Hb & _) Hl]. destruct Hr2 as [(Hi2 & Hb2 & _) Hl2]. cbn [fst snd] in *. symmetry.
  assert (lastOutLen c1 ≤ zlen (outBuf c1)) as Hlo.
  { destruct (LzssRun.inv_last _ _ Hi1) as [|[_ [Hx|[? _]]]]; [lia|by rewrite Ej in Hx|lia]. }
  eapply (Write_Len dict dict c c2 d c1 c3); [done|done|done|by rewrite Hb|congruence| | |congruence|done|done].
  - apply (reads_fixed dict); [done|done|done|done|congruence].
  - rewrite Eout, Elo. unfold zlen in *. rewrite length_take. lia.
Qed.

#[global] Instance LzssLaws : CompressorLaws Compressor (H := LzssOps).
Proof.
  refine {| cz_rep := rep |}; simpl.
  - intros dict c E. by apply (NewCompressor_Some dict c None).
  - intros dict c s p [(Hi & _) Hl]. destruct (Reset_inv dict c) as [Hr Hr0]; [apply Hi..|]. split; [|done]. split_and!; [done|done|]. split; [done|]. rewrite Hr0. apply take_nil.
  - intros dict c s p d Hr Hd Hfit. destruct (rep_write dict c s p d Hr Hd Hfit) as (c' & E & Hr' & _). eauto.
  - apply rep_revert.
  - apply rep_rewrite.
  - intros dict c1 s1 p1 c2 s2 p2 d c1' c2' n1 n2 [(Hi1 & _) Hl1] [(Hi2 & _) Hl2] Hd Hfit E1 E2.
    destruct (Reset_inv dict c1) as [Hr1 Hb1]; [apply Hi1..|]. destruct (Reset_inv dict c2) as [Hr2 Hb2]; [apply Hi2..|].
    assert (level (Reset c1) = level (Reset c2)) as Elv by (simpl; congruence).
    eapply (Write_Len dict dict (Reset c1) (Reset c2) d); [done|done|done|by rewrite Hb1|done|by apply (reads_fixed dict)| |done|done|done].
    change (outBuf (Reset c1)) with (header_WriteTo (header_of (level (Reset c1)))). by rewrite Elv.
  - intros dict c s p Hr. split_and!; [by apply rep_bypass| |]; destruct Hr as [(Hi & Hb & _) _]; cbn [fst] in Hb; rewrite <-Hb;
      unfold ConsiderBypassing, Len, HeaderSize; change (headerBitLen / 8) with 3; case_decide as Hc; cbn [fst snd].
    + by rewrite bool_decide_eq_true_2.
    + by rewrite bool_decide_eq_false_2.
    + intros _. cbn [outBuf set_out]. rewrite zlen_app. unfold zlen. simpl. lia.
    + done.
  - intros dict c s p [(Hi & Hb & _) Hl]. cbn [fst] in Hb. destruct Hi as [Hf Hc [Hin Hm] Hst Hlast]. split_and!; [by rewrite <-Hb|apply Hst|done|done|by rewrite <-Hb|].
    rewrite <-Hb. eapply stream_decompress; [apply Hf|]. by rewrite <-(fix_dict _ _ Hf).
Qed.
End api.
