(* ===== verification/BlockEncodeV0.v ===== *)
(** * The v0 encoding of blocks

    Models src/prover/lib/compressor/blob/v0/encode.go: a block is its timestamp and
    its transactions, each with the sender among its fields and without the chain
    identifier; nothing marks the end of a block but the end of the bytes. The
    option [WithTxAddressGetter] of encode/encode.go is the argument [getAddress]. *)

From S2P Require Export BlockEncode.

(** [binary.LittleEndian] *)
Definition le_bytes (n : nat) (x : Z) : list Z := rev (be_bytes n x).
Definition le_val (l : list Z) : Z := be_val (rev l).

(** What is encoded of a transaction, given the sender. *)
Definition tx_fields_v0 (from : list Z) (tx : Transaction) : res (list Z * list item) :=
  match tx_inner tx with
  | DynamicFeeTx _ n t f g to v d al =>
      Ok ([DynamicFeeTxType], [num n; num t; num f; num g; IBytes from; addr_ptr to; num v; IBytes d; access_list al])
  | AccessListTx _ n p g to v d al =>
      Ok ([AccessListTxType], [num n; num p; num g; IBytes from; addr_ptr to; num v; IBytes d; access_list al])
  | LegacyTx n p g to v d => Ok ([], [num n; num p; num g; IBytes from; addr_ptr to; num v; IBytes d])
  | SetCodeTx _ _ _ _ _ _ _ _ _ _ | BlobTx => Panic
  end.

Section encode.
Context `{Rlp} (getAddress : Transaction → res (list Z)).

(** [EncodeTxForCompression]; a nil transaction is a nil dereference. *)
Definition EncodeTxForCompression (tx : option Transaction) : res (list Z) :=
  match tx with
  | None => Panic
  | Some tx =>
      from ← getAddress tx;
      '(prefix, fields) ← tx_fields_v0 from tx;
      Ok (prefix ++ rlp_Encode (IList fields))
  end.

Definition EncodeBlockForCompression (block : option Block) : res (list Z * gerr) :=
  match block with
  | None => Panic
  | Some block =>
      bs ← mapR EncodeTxForCompression (default [] (bl_Transactions block));
      Ok (le_bytes 8 (bl_Time block) ++ concat bs, None)
  end.
End encode.

(** ** Decoding *)

Section decode.
Context `{Rlp}.

Definition ReadTxAsRlp (r : Reader) : (list item * Z * gerr) * Reader :=
  let '((firstByte, err), r) := rd_ReadByte r in
  match err with
  | Some e => (([], 0, Some "could not read the first byte"%string), r)
  | None =>
      let '(_type, err, r) :=
        if decide (firstByte = AccessListTxType ∨ firstByte = DynamicFeeTxType) then (firstByte, None, r)
        else if decide (0xc0 < firstByte) then let '(err, r) := rd_UnreadByte r in (0, err, r)
        else (0, Some "unexpected first byte"%string, r) in
      match err with
      | Some e => (([], _type, Some e), r)
      | None =>
          let '(d, r) := decode_fields r in
          match d with
          | inl fields => ((fields, _type, None), r)
          | inr e => (([], _type, Some e), r)
          end
      end
  end.

(** The decoders put the sender where [from] points. *)
Definition decodeLegacyTx (fields : list item) : res (list Z * option TxData * gerr) :=
  match fields with
  | [n; p; g; from; to; v; d] =>
      let '(n, e0) := TryCast_uint64 n in
      let '(p, e1) := TryCast_bigint p in
      let '(g, e2) := TryCast_uint64 g in
      let '(from, e3) := TryCast_address from in
      let '(to, e4) := TryCast_address_ptr to in
      let '(v, e5) := TryCast_bigint v in
      let '(d, e6) := TryCast_bytes d in
      Ok (from, Some (LegacyTx n p g to v d), Join [e0; e1; e2; e3; e4; e5; e6])
  | _ => Ok (zero_bytes 20, None, Some "unexpected number of field"%string)
  end.

Definition decodeAccessListTx (fields : list item) : res (list Z * option TxData * gerr) :=
  match fields with
  | [n; p; g; from; to; v; d; al] =>
      let '(n, e0) := TryCast_uint64 n in
      let '(p, e1) := TryCast_bigint p in
      let '(g, e2) := TryCast_uint64 g in
      let '(from, e3) := TryCast_address from in
      let '(to, e4) := TryCast_address_ptr to in
      let '(v, e5) := TryCast_bigint v in
      let '(d, e6) := TryCast_bytes d in
      '(al, e7) ← TryCast_access_list al;
      Ok (from, Some (AccessListTx 0 n p g to v d al), Join [e0; e1; e2; e3; e4; e5; e6; e7])
  | _ => Ok (zero_bytes 20, None, Some "invalid number of field for a dynamic transaction"%string)
  end.

Definition decodeDynamicFeeTx (fields : list item) : res (list Z * option TxData * gerr) :=
  match fields with
  | [n; t; f; g; from; to; v; d; al] =>
      let '(n, e0) := TryCast_uint64 n in
      let '(t, e1) := TryCast_bigint t in
      let '(f, e2) := TryCast_bigint f in
      let '(g, e3) := TryCast_uint64 g in
      let '(from, e4) := TryCast_address from in
      let '(to, e5) := TryCast_address_ptr to in
      let '(v, e6) := TryCast_bigint v in
      let '(d, e7) := TryCast_bytes d in
      '(al, e8) ← TryCast_access_list al;
      Ok (from, Some (DynamicFeeTx 0 n t f g to v d al), Join [e0; e1; e2; e3; e4; e5; e6; e7; e8])
  | _ => Ok (zero_bytes 20, None, Some "invalid number of field for a dynamic transaction"%string)
  end.

Definition DecodeTxFromUncompressed (r : Reader) : res ((list Z * option TxData * gerr) * Reader) :=
  let '((fields, _type, err), r) := ReadTxAsRlp r in
  match err with
  | Some e => Ok ((zero_bytes 20, None, Some e), r)
  | None =>
      dec ← idx [decodeLegacyTx; decodeAccessListTx; decodeDynamicFeeTx] _type;
      x ← dec fields;
      Ok (x, r)
  end.

(** [for r.Len() != 0]: a transaction takes at least a byte. *)
Fixpoint decode_all (fuel : nat) (r : Reader) (l : list (list Z * option TxData)) : res ((list (list Z * option TxData) * gerr) * Reader) :=
  if decide (rd_Len r = 0) then Ok ((l, None), r)
  else
    match fuel with
    | O => Panic
    | S fuel' =>
        '((from, tx, err), r) ← DecodeTxFromUncompressed r;
        match err with
        | Some e => Ok ((l, Some "could not decode transaction"%string), r)
        | None => decode_all fuel' r (l ++ [(from, tx)])
        end
    end.

Definition DecodeBlockFromUncompressed (r : Reader) : res ((DecodedBlockData * gerr) * Reader) :=
  let '((t, err), r) := ReadFull 8 r in
  match err with Some e => Ok ((emptyBlockData, Some "could not decode timestamp"%string), r) | None =>
  '((l, err), r) ← decode_all (Z.to_nat (rd_Len r)) r [];
  match err with
  | Some e => Ok ((emptyBlockData, Some e), r)
  | None => Ok (({| BlockHash := zero_bytes 32; Timestamp := le_val t; Froms := l.*1; Txs := l.*2 |}, None), r)
  end end.
End decode.

(** ** Decoding what was encoded *)

Definition supported_v0 (t : TxData) : bool :=
  match t with SetCodeTx _ _ _ _ _ _ _ _ _ _ | BlobTx => false | _ => true end.

Definition without_chain_id (t : TxData) : TxData :=
  match t with
  | AccessListTx _ n p g to v d al => AccessListTx 0 n p g to v d al
  | DynamicFeeTx _ n t f g to v d al => DynamicFeeTx 0 n t f g to v d al
  | t => t
  end.

Lemma le_bytes_length n x : length (le_bytes n x) = n.
Proof. unfold le_bytes. by rewrite length_rev, be_bytes_length. Qed.

Lemma le_val_bytes n x : le_val (le_bytes n x) = x mod 256 ^ Z.of_nat n.
Proof. unfold le_val, le_bytes. by rewrite rev_involutive, be_val_bytes. Qed.

Section facts.
Context `{Rlp, !RlpLaws}.

Lemma tx_fields_v0_ok from tx prefix fields : data_ok (tx_inner tx) → is_address from → tx_fields_v0 from tx = Ok (prefix, fields) → Forall item_ok fields.
Proof.
  intros Hd [Hf _]. unfold tx_fields_v0. destruct (tx_inner tx); simpl in Hd; try done;
    intros [= <- <-]; repeat (constructor; [first [apply num_ok|apply addr_ptr_ok; tauto|apply access_list_ok; tauto|constructor; tauto]|]); constructor.
Qed.

(** Reading one transaction back, with its sender. *)
Lemma DecodeTx_v0_at tx from b r l : data_ok (tx_inner tx) → is_address from → EncodeTxForCompression (λ _, Ok from) (Some tx) = Ok b → zlen b < 2 ^ 62 →
  (Forall is_byte b ∧ b ≠ []) ∧ (at_bytes r (b ++ l) →
   DecodeTxFromUncompressed r = Ok ((from, Some (without_chain_id (tx_inner tx)), None), rd_set r (rd_pos r + zlen b))).
Proof.
  intros Hd Ha. unfold EncodeTxForCompression. cbn [mbind res_bind]. destruct (tx_fields_v0 from tx) as [[prefix fields]|] eqn:E; [|done].
  cbn [mbind res_bind]. intros [= <-] Hl. pose proof (tx_fields_v0_ok from tx prefix fields Hd Ha E) as Hok. set (e := rlp_Encode (IList fields)) in *.
  assert (zlen e < 2 ^ 62) as Hle by (rewrite zlen_app in Hl; pose proof (zlen_nonneg prefix); lia). split.
  { split; [|intros Hnil%app_nil; destruct Hnil as [_ Hnil]; by apply rlp_nonempty in Hnil]. apply Forall_app. split; [|apply rlp_bytes; [by constructor|done]].
    unfold tx_fields_v0 in E. destruct (tx_inner tx); try done; injection E as <- <-; by repeat constructor. }
  rewrite <-(assoc_L (++)). intros Hr. unfold DecodeTxFromUncompressed, ReadTxAsRlp. unfold tx_fields_v0 in E.
  destruct (tx_inner tx) as [n p g to v d|c n p g to v d al|c n t f g to v d al| |]; simpl in Hd; try done; injection E as <- <-; simpl app in Hr.
  - destruct (rlp_list_first (num n) [num p; num g; IBytes from; addr_ptr to; num v; IBytes d] Hle) as (b & h & Ebh & Hb). fold e in Ebh. assert (at_bytes r (b :: h ++ l)) as Hr1 by (rewrite Ebh in Hr; exact Hr).
    rewrite (rd_ReadByte_at r b (h ++ l) Hr1). unfold AccessListTxType, DynamicFeeTxType. rewrite decide_False by lia. rewrite decide_True by done.
    unfold rd_UnreadByte. pose proof Hr as [Hp _]. cbn [rd_pos rd_set]. rewrite decide_False by lia. rewrite rd_set_set. replace (rd_set r (rd_pos r + 1 - 1)) with r by (destruct r; unfold rd_set; simpl; f_equal; lia).
    rewrite (decode_fields_at r _ l Hok) by done. fold e. cbn [mbind res_bind].
    change (idx [decodeLegacyTx; decodeAccessListTx; decodeDynamicFeeTx] 0) with (Ok decodeLegacyTx). cbn [mbind res_bind decodeLegacyTx].
    destruct Hd as (Hn & Hpp & Hg & Hto & Hv & Hdd). rewrite !cast_uint64, !cast_bigint, cast_address, cast_address_ptr by done. done.
  - rewrite (rd_ReadByte_at r _ _ Hr). rewrite decide_True by by left. pose proof (at_bytes_skip r [AccessListTxType] (e ++ l) Hr) as Hr1.
    rewrite (decode_fields_at _ _ l Hok) by done. fold e. cbn [mbind res_bind].
    change (idx [decodeLegacyTx; decodeAccessListTx; decodeDynamicFeeTx] AccessListTxType) with (Ok decodeAccessListTx). cbn [mbind res_bind decodeAccessListTx].
    destruct Hd as (Hcc & Hn & Hpp & Hg & Hto & Hv & Hdd & Hal). rewrite !cast_uint64, !cast_bigint, cast_address, cast_address_ptr, cast_access_list by done.
    cbn [mbind res_bind TryCast_bytes]. do 2 f_equal. rewrite rd_set_set, zlen_app. f_equal. change (zlen [_]) with 1. simpl rd_pos. lia.
  - rewrite (rd_ReadByte_at r _ _ Hr). rewrite decide_True by by right. pose proof (at_bytes_skip r [DynamicFeeTxType] (e ++ l) Hr) as Hr1.
    rewrite (decode_fields_at _ _ l Hok) by done. fold e. cbn [mbind res_bind].
    change (idx [decodeLegacyTx; decodeAccessListTx; decodeDynamicFeeTx] DynamicFeeTxType) with (Ok decodeDynamicFeeTx). cbn [mbind res_bind decodeDynamicFeeTx].
    destruct Hd as (Hcc & Hn & Ht & Hf & Hg & Hto & Hv & Hdd & Hal). rewrite !cast_uint64, !cast_bigint, cast_address, cast_address_ptr, cast_access_list by done.
    cbn [mbind res_bind TryCast_bytes]. do 2 f_equal. rewrite rd_set_set, zlen_app. f_equal. change (zlen [_]) with 1. simpl rd_pos. lia.
Qed.
End facts.

Section blocks.
Context `{Rlp, !RlpLaws} (getAddress : Transaction → res (list Z)).

(** A block the v0 format can hold: no set-code transactions, and a sender that
    [getAddress] finds for each transaction. *)
Record block_ok_v0 (b : Block) : Prop := {
  bok0_time : 0 ≤ bl_Time b < 2 ^ 64;
  bok0_txs : ∃ txs, default [] (bl_Transactions b) = Some <$> txs ∧
    Forall (λ tx, data_ok (tx_inner tx) ∧ supported_v0 (tx_inner tx) = true ∧ ∃ a, getAddress tx = Ok a ∧ is_address a) txs }.

Lemma EncodeTx_getAddress tx a : getAddress tx = Ok a →
  EncodeTxForCompression getAddress (Some tx) = EncodeTxForCompression (λ _, Ok a) (Some tx).
Proof. intros E. unfold EncodeTxForCompression. by rewrite E. Qed.

Lemma decode_all_at txs bs : Forall2 (λ tx b, EncodeTxForCompression getAddress (Some tx) = Ok b) txs bs →
  Forall (λ tx, data_ok (tx_inner tx) ∧ supported_v0 (tx_inner tx) = true ∧ ∃ a, getAddress tx = Ok a ∧ is_address a) txs → zlen (concat bs) < 2 ^ 62 →
  (Forall is_byte (concat bs) ∧ (length txs ≤ length (concat bs))%nat) ∧
  ∀ r acc fuel, at_bytes r (concat bs) → (length txs ≤ fuel)%nat → ∃ out r',
    decode_all fuel r acc = Ok ((acc ++ out, None), r') ∧ Ok <$> out.*1 = getAddress <$> txs ∧
    out.*2 = (λ tx, Some (without_chain_id (tx_inner tx))) <$> txs.
Proof.
  induction 1 as [|tx b txs bs Eb _ IH]; intros Hok Hl.
  - split; [done|]. intros r acc fuel Hr _. exists [], r. destruct (at_bytes_Len _ _ Hr) as [E _]. destruct fuel; cbn [decode_all]; rewrite decide_True by done; by rewrite app_nil_r.
  - apply Forall_cons in Hok as [(Hd & _ & a & Ea & Ha) Hok']. rewrite (EncodeTx_getAddress tx a Ea) in Eb. cbn [concat] in *. rewrite zlen_app in Hl.
    pose proof (zlen_nonneg b). pose proof (zlen_nonneg (concat bs)). destruct IH as [[IH1 IH2] IH3]; [done|lia|].
    pose proof (λ r, DecodeTx_v0_at tx a b r (concat bs) Hd Ha Eb ltac:(lia)) as Hdec. destruct (Hdec (NewBytesReader [])) as [[Hbb Hbn] _].
    assert (1 ≤ length b)%nat by (destruct b; [done|simpl; lia]). split; [split; [by apply Forall_app|rewrite length_app; simpl; lia]|].
    intros r acc fuel Hr Hf. simpl in Hf. destruct fuel as [|fuel]; [lia|]. cbn [decode_all]. destruct (at_bytes_Len _ _ Hr) as [E _].
    rewrite decide_False by (rewrite E, zlen_app; unfold zlen in *; lia). destruct (Hdec r) as [_ ->]; [|done]. cbn [mbind res_bind].
    destruct (IH3 (rd_set r (rd_pos r + zlen b)) (acc ++ [(a, Some (without_chain_id (tx_inner tx)))]) fuel) as (out & r' & -> & E1 & E2); [by apply at_bytes_skip|lia|].
    exists ((a, Some (without_chain_id (tx_inner tx))) :: out), r'. rewrite <-(assoc_L (++)). split_and!; [done| |].
    + rewrite !fmap_cons. cbn [fst]. by rewrite E1, Ea.
    + rewrite !fmap_cons. cbn [snd]. by rewrite E2.
Qed.

Lemma EncodeBlock_v0 bl : block_ok_v0 bl → ∃ txs bs, default [] (bl_Transactions bl) = Some <$> txs ∧
  Forall2 (λ tx b, EncodeTxForCompression getAddress (Some tx) = Ok b) txs bs ∧
  EncodeBlockForCompression getAddress (Some bl) = Ok (le_bytes 8 (bl_Time bl) ++ concat bs, None).
Proof.
  intros [_ (txs & Etxs & Hok)]. assert (∃ bs, Forall2 (λ tx b, EncodeTxForCompression getAddress (Some tx) = Ok b) txs bs) as [bs Hbs].
  { clear Etxs. induction Hok as [|tx txs (_ & Hs & a & Ea & _) _ [bs IH]]; [exists []; constructor|].
    assert (∃ b, EncodeTxForCompression getAddress (Some tx) = Ok b) as [b Eb]; [|exists (b :: bs); by constructor].
    unfold EncodeTxForCompression. rewrite Ea. cbn [mbind res_bind]. unfold tx_fields_v0. destruct (tx_inner tx); try done; cbn [mbind res_bind]; eauto. }
  exists txs, bs. split_and!; [done|done|]. unfold EncodeBlockForCompression. rewrite Etxs.
  assert (mapR (EncodeTxForCompression getAddress) (Some <$> txs) = Ok bs) as ->; [|done].
  clear -Hbs. induction Hbs as [|tx b txs bs E _ IH]; [done|]. rewrite fmap_cons. cbn [mapR]. rewrite E. cbn [mbind res_bind]. by rewrite IH.
Qed.

(** Decoding an encoded block gives the timestamp, the senders and the transactions
    without their chain identifier. *)
Lemma DecodeBlock_v0 bl b : block_ok_v0 bl → EncodeBlockForCompression getAddress (Some bl) = Ok (b, None) → zlen b < 2 ^ 62 →
  Forall is_byte b ∧ ∃ d r txs, DecodeBlockFromUncompressed (NewBytesReader b) = Ok ((d, None), r) ∧ BlockHash d = zero_bytes 32 ∧ Timestamp d = bl_Time bl ∧
    default [] (bl_Transactions bl) = Some <$> txs ∧ Ok <$> Froms d = getAddress <$> txs ∧ Txs d = (λ tx, Some (without_chain_id (tx_inner tx))) <$> txs.
Proof.
  intros Hbl Eb Hl. destruct (EncodeBlock_v0 bl Hbl) as (txs & bs & Etxs & Hbs & E). assert (b = le_bytes 8 (bl_Time bl) ++ concat bs) as -> by congruence.
  destruct Hbl as [Ht (txs' & Etxs' & Hok)]. rewrite Etxs in Etxs'. apply list_fmap_eq_inj in Etxs'; [subst txs'|congruence].
  rewrite zlen_app in Hl. pose proof (zlen_nonneg (le_bytes 8 (bl_Time bl))). destruct (decode_all_at txs bs Hbs Hok) as [[Hb Hn] Hdec]; [lia|].
  split; [apply Forall_app; split; [unfold le_bytes; apply Forall_rev, be_bytes_is_byte|done]|].
  pose proof (at_bytes_new (le_bytes 8 (bl_Time bl) ++ concat bs)) as Hr. set (r0 := NewBytesReader _) in *. unfold DecodeBlockFromUncompressed.
  rewrite (rd_ReadFull_at r0 _ _ 8 (le_bytes_length _ _) ltac:(lia) Hr). pose proof (at_bytes_skip r0 _ _ Hr) as Hr1. set (r1 := rd_set r0 _) in *.
  destruct (at_bytes_Len _ _ Hr1) as [El _]. destruct (Hdec r1 [] (Z.to_nat (rd_Len r1)) Hr1) as (out & r' & -> & E1 & E2); [rewrite El; unfold zlen; lia|].
  cbn [mbind res_bind app]. eexists _, r', txs. split_and!; [done|done| |done|done|done].
  cbn [Timestamp]. rewrite le_val_bytes. apply Z.mod_small. exact Ht.
Qed.
End blocks.
