(* ===== verification/HeaderV0.v ===== *)
(** * The header of a v0 blob

    Models src/prover/lib/compressor/blob/v0/header.go: the table of the block lengths
    of each batch, its serialization (little-endian) and the comparison of headers. *)

From S2P Require Export BlockEncodeV0 Utils.

Definition packingSizeU256_v0 : Z := 248.

Record Header := {
  DictChecksum : list Z;
  table : list (list Z);
  byteSizeUnpacked : Z }.

Definition set_table (s : Header) (t : list (list Z)) : Header :=
  {| DictChecksum := DictChecksum s; table := t; byteSizeUnpacked := byteSizeUnpacked s |}.

(** The loops of [CheckEquality] over the batches of the header with fewer of them. *)
Fixpoint check_tables (small large : list (list Z)) : res gerr :=
  match small, large with
  | [], rest => Ok (if decide (Exists (λ b, b ≠ []) rest) then Some "batch count mismatch"%string else None)
  | b :: small', b' :: large' =>
      if decide (length b ≠ length b') then Ok (Some "batch size mismatch"%string)
      else if decide (b ≠ b') then Ok (Some "block size mismatch"%string)
      else check_tables small' large'
  | _ :: _, [] => Panic
  end.

Definition CheckEquality (s : Header) (other : option Header) : res gerr :=
  match other with
  | None => Ok (Some "empty header"%string)
  | Some other =>
      if decide (DictChecksum s ≠ DictChecksum other) then Ok (Some "dictionary mismatch"%string)
      else if decide (zlen (table other) < zlen (table s)) then check_tables (table other) (table s)
      else check_tables (table s) (table other)
  end.

Definition header_Equals (s : Header) (other : option Header) : res bool :=
  err ← CheckEquality s other; Ok (bool_decide (err = None)).

Definition NbBatches (s : Header) : Z := zlen (table s).
Definition NbBlocksInBatch (s : Header) (i : Z) : res Z := b ← idx (table s) i; Ok (zlen b).
Definition BlockLength (s : Header) (i j : Z) : res Z := b ← idx (table s) i; idx b j.

Definition addBatch (s : Header) : Header := set_table s (table s ++ [[]]).

Definition ByteSize (s : Header) : Z := byteSizeUnpacked s.
Definition ByteSizePacked (s : Header) : res Z :=
  n ← Utils.DivCeil (byteSizeUnpacked s * 8) packingSizeU256_v0;
  Ok (byteSizeUnpacked s + n).

Definition addBlock (s : Header) (blockLength : Z) : res Header :=
  let batchID := zlen (table s) - 1 in
  b ← idx (table s) batchID;
  t ← store (table s) batchID (b ++ [blockLength]);
  Ok (set_table s t).

Definition removeLastBlock (s : Header) : res Header :=
  let batchID := zlen (table s) - 1 in
  b ← idx (table s) batchID;
  b ← slice b 0 (zlen b - 1);
  t ← store (table s) batchID b;
  Ok (set_table s t).

Definition resetTable (s : Header) : Header := set_table s [].

(** ** Serialization *)

(** The block lengths of a batch; the bytes written so far and their count. *)
Fixpoint write_blocks (s : list Z * Z) (batch : list Z) : list Z * Z * gerr :=
  match batch with
  | [] => (s, None)
  | n :: batch' =>
      if decide (2 ^ 24 - 1 < n) then (s, Some "block length too big: bigger than uint24"%string)
      else write_blocks (s.1 ++ le_bytes 3 n, s.2 + 3) batch'
  end.

Fixpoint write_batches (s : list Z * Z) (t : list (list Z)) : list Z * Z * gerr :=
  match t with
  | [] => (s, None)
  | batch :: t' =>
      let nbBlocksInBatch := zlen batch mod 2 ^ 16 in
      if decide (nbBlocksInBatch ≠ zlen batch) then (s, Some "nb blocks in batch too big: bigger than uint16"%string)
      else
        let '(s, err) := write_blocks (s.1 ++ le_bytes 2 nbBlocksInBatch, s.2 + 2) batch in
        match err with Some e => (s, Some e) | None => write_batches s t' end
  end.

(** [WriteTo] a buffer. The number of batches is cut to 16 bits. *)
Definition WriteTo (s : Header) : list Z * Z * gerr :=
  write_batches (DictChecksum s ++ le_bytes 2 (zlen (table s) mod 2 ^ 16), 32 + 2) (table s).

Section read.
Context `{IoReader R}.

(** The slots that are not read yet hold zeros. *)
Fixpoint read_blocks (n : nat) (acc : list Z) (read : Z) (r : R) : list Z * Z * gerr * R :=
  match n with
  | O => (acc, read, None, r)
  | S n' =>
      let '((buf, err), r) := ReadFull 3 r in
      match err with
      | Some e => (acc ++ replicate n 0, read, Some e, r)
      | None => read_blocks n' (acc ++ [le_val buf]) (read + 3) r
      end
  end.

Fixpoint read_batches (n : nat) (acc : list (list Z)) (read : Z) (r : R) : list (list Z) * Z * gerr * R :=
  match n with
  | O => (acc, read, None, r)
  | S n' =>
      let '((nb, err), r) := ReadFull 2 r in
      match err with
      | Some e => (acc ++ replicate n [], read, Some e, r)
      | None =>
          let '(b, read, err, r) := read_blocks (Z.to_nat (le_val nb)) [] (read + 2) r in
          match err with
          | Some e => (acc ++ b :: replicate n' [], read, Some e, r)
          | None => read_batches n' (acc ++ [b]) read r
          end
      end
  end.

Definition ReadFrom (s : Header) (r : R) : Header * Z * gerr * R :=
  let read := 0 in
  let '((ck, err), r) := ReadFull 32 r in
  let s := {| DictChecksum := ck ++ drop (length ck) (DictChecksum s); table := table s; byteSizeUnpacked := byteSizeUnpacked s |} in
  match err with Some e => (s, read, Some e, r) | None =>
  let read := read + 32 in
  let '((n, err), r) := ReadFull 2 r in
  match err with Some e => (s, read, Some e, r) | None =>
  let read := read + 2 in
  let '(t, read, err, r) := read_batches (Z.to_nat (le_val n)) [] read r in
  let s := set_table s t in
  match err with
  | Some e => (s, read, Some e, r)
  | None => ({| DictChecksum := DictChecksum s; table := table s; byteSizeUnpacked := read |}, read, None, r)
  end end end.
End read.

(** ** Reading back what was written *)

Definition is_length (n : Z) : Prop := 0 ≤ n < 2 ^ 24.

Record header_ok (s : Header) : Prop := {
  hok_checksum : Forall is_byte (DictChecksum s) ∧ length (DictChecksum s) = 32%nat;
  hok_count : zlen (table s) < 2 ^ 16;
  hok_batches : Forall (λ b, zlen b < 2 ^ 16 ∧ Forall is_length b) (table s) }.

Definition batch_bytes (b : list Z) : list Z := le_bytes 2 (zlen b) ++ concat (le_bytes 3 <$> b).

Definition header_bytes (s : Header) : list Z :=
  DictChecksum s ++ le_bytes 2 (zlen (table s)) ++ concat (batch_bytes <$> table s).

Lemma le_bytes_zlen n x : zlen (le_bytes n x) = Z.of_nat n.
Proof. unfold zlen. by rewrite le_bytes_length. Qed.

Lemma le_bytes_is_byte n x : Forall is_byte (le_bytes n x).
Proof. apply Forall_rev, be_bytes_is_byte. Qed.

Lemma write_blocks_spec b : Forall is_length b → ∀ s, write_blocks s b = ((s.1 ++ concat (le_bytes 3 <$> b), s.2 + zlen (concat (le_bytes 3 <$> b))), None).
Proof.
  induction 1 as [|n b Hn _ IH]; intros s; cbn [write_blocks]; [destruct s; cbn; by rewrite app_nil_r, Z.add_0_r|].
  unfold is_length in Hn. rewrite decide_False by lia. rewrite IH, fmap_cons. cbn [concat fst snd]. rewrite zlen_app, le_bytes_zlen, <-(assoc_L (++)). do 2 f_equal. lia.
Qed.

Lemma write_batches_spec t : Forall (λ b, zlen b < 2 ^ 16 ∧ Forall is_length b) t → ∀ s,
  write_batches s t = ((s.1 ++ concat (batch_bytes <$> t), s.2 + zlen (concat (batch_bytes <$> t))), None).
Proof.
  induction 1 as [|b t [Hl Hb] _ IH]; intros s; cbn [write_batches]; [destruct s; cbn; by rewrite app_nil_r, Z.add_0_r|].
  pose proof (zlen_nonneg b). rewrite Z.mod_small, decide_False by lia. rewrite write_blocks_spec by done. cbn [fst snd]. rewrite IH, fmap_cons. cbn [concat fst snd].
  unfold batch_bytes at 3 5. rewrite !zlen_app, le_bytes_zlen, <-!(assoc_L (++)). do 2 f_equal. lia.
Qed.

Lemma WriteTo_spec_v0 s : header_ok s → WriteTo s = ((header_bytes s, zlen (header_bytes s)), None) ∧ Forall is_byte (header_bytes s).
Proof.
  intros [[Hcb Hcl] Hn Hb]. pose proof (zlen_nonneg (table s)). split.
  - unfold WriteTo, header_bytes. rewrite Z.mod_small by lia. rewrite write_batches_spec by done. cbn [fst snd].
    rewrite !zlen_app, le_bytes_zlen, <-!(assoc_L (++)). do 2 f_equal. unfold zlen at 2. rewrite Hcl. lia.
  - unfold header_bytes. rewrite !Forall_app. split_and!; [done|apply le_bytes_is_byte|]. apply Forall_concat, Forall_fmap, Forall_true. intros b.
    unfold compose, batch_bytes. apply Forall_app. split; [apply le_bytes_is_byte|]. apply Forall_concat, Forall_fmap, Forall_true. intros n. apply le_bytes_is_byte.
Qed.

Lemma read_blocks_at b : Forall is_length b → ∀ acc read r rest, at_bytes r (concat (le_bytes 3 <$> b) ++ rest) →
  read_blocks (length b) acc read r = (acc ++ b, read + zlen (concat (le_bytes 3 <$> b)), None, rd_set r (rd_pos r + zlen (concat (le_bytes 3 <$> b)))).
Proof.
  induction 1 as [|n b Hn _ IH]; intros acc read r rest Hr; cbn [length read_blocks].
  - cbn. rewrite app_nil_r, !Z.add_0_r. by destruct r.
  - rewrite fmap_cons in Hr |- *. cbn [concat] in Hr |- *. rewrite <-(assoc_L (++)) in Hr. rewrite (rd_ReadFull_at r _ _ 3 (le_bytes_length _ _) ltac:(lia) Hr).
    pose proof (at_bytes_skip r _ _ Hr) as Hr1. rewrite (IH _ _ _ rest Hr1), le_val_bytes. unfold is_length in Hn. rewrite Z.mod_small by lia.
    rewrite <-(assoc_L (++)), rd_set_set, zlen_app, le_bytes_zlen. cbn [rd_pos rd_set app]. f_equal; [f_equal; f_equal; lia|f_equal; lia].
Qed.

Lemma read_batches_at t : Forall (λ b, zlen b < 2 ^ 16 ∧ Forall is_length b) t → ∀ acc read r rest, at_bytes r (concat (batch_bytes <$> t) ++ rest) →
  read_batches (length t) acc read r = (acc ++ t, read + zlen (concat (batch_bytes <$> t)), None, rd_set r (rd_pos r + zlen (concat (batch_bytes <$> t)))).
Proof.
  induction 1 as [|b t [Hl Hb] _ IH]; intros acc read r rest Hr; cbn [length read_batches].
  - cbn. rewrite app_nil_r, !Z.add_0_r. by destruct r.
  - rewrite fmap_cons in Hr |- *. cbn [concat] in Hr |- *. unfold batch_bytes at 1 in Hr. rewrite <-!(assoc_L (++)) in Hr.
    rewrite (rd_ReadFull_at r _ _ 2 (le_bytes_length _ _) ltac:(lia) Hr). pose proof (at_bytes_skip r _ _ Hr) as Hr1. set (r1 := rd_set r _) in *.
    pose proof (zlen_nonneg b). rewrite le_val_bytes, Z.mod_small by (change (256 ^ Z.of_nat 2) with (2 ^ 16); lia).
    replace (Z.to_nat (zlen b)) with (length b) by (unfold zlen; lia). rewrite (read_blocks_at b Hb _ _ _ _ Hr1). pose proof (at_bytes_skip r1 _ _ Hr1) as Hr2.
    cbn [app]. rewrite (IH _ _ _ rest Hr2). assert (zlen (batch_bytes b) = 2 + zlen (concat (le_bytes 3 <$> b))) as Ebb by (unfold batch_bytes; by rewrite zlen_app, le_bytes_zlen).
    rewrite zlen_app, Ebb, <-(assoc_L (++)). unfold r1. rewrite !rd_set_set, le_bytes_zlen. cbn [rd_pos rd_set app].
    f_equal; [f_equal; f_equal; lia|f_equal; lia].
Qed.

Lemma ReadFrom_at_v0 s s0 r rest : header_ok s → (length (DictChecksum s0) ≤ 32)%nat → at_bytes r (header_bytes s ++ rest) →
  ReadFrom s0 r = ({| DictChecksum := DictChecksum s; table := table s; byteSizeUnpacked := zlen (header_bytes s) |},
    zlen (header_bytes s), None, rd_set r (rd_pos r + zlen (header_bytes s))).
Proof.
  intros [[Hcb Hcl] Hn Hb] Hl0 Hr. unfold header_bytes in *. rewrite <-!(assoc_L (++)) in Hr. unfold ReadFrom.
  rewrite (rd_ReadFull_at r _ _ 32 Hcl ltac:(lia) Hr). pose proof (at_bytes_skip r _ _ Hr) as Hr1. set (r1 := rd_set r _) in *.
  rewrite (rd_ReadFull_at r1 _ _ 2 (le_bytes_length _ _) ltac:(lia) Hr1). pose proof (at_bytes_skip r1 _ _ Hr1) as Hr2. set (r2 := rd_set r1 _) in *.
  pose proof (zlen_nonneg (table s)). rewrite le_val_bytes, Z.mod_small by (change (256 ^ Z.of_nat 2) with (2 ^ 16); lia).
  replace (Z.to_nat (zlen (table s))) with (length (table s)) by (unfold zlen; lia). rewrite (read_batches_at _ Hb _ _ _ _ Hr2).
  cbn [set_table DictChecksum table app]. rewrite drop_ge, app_nil_r by lia. unfold r2, r1. rewrite !rd_set_set, !zlen_app, le_bytes_zlen. cbn [rd_pos rd_set].
  assert (zlen (DictChecksum s) = 32) as -> by (unfold zlen; lia). by rewrite !Z.add_assoc.
Qed.

(** ** Equality up to empty batches at the end *)

Lemma check_tables_refl t k : check_tables t (t ++ replicate k []) = Ok None.
Proof.
  induction t as [|b t IH]; cbn [check_tables app].
  - destruct k; [by rewrite decide_False by (intros Hx; inversion Hx)|]. rewrite decide_False; [done|].
    rewrite Exists_exists. intros (x & [-> _]%elem_of_replicate & Hx). done.
  - rewrite !decide_False by (intros Hx; by apply Hx). done.
Qed.

Lemma CheckEquality_refl s s' k : DictChecksum s' = DictChecksum s → table s' = table s ++ replicate k [] → CheckEquality s (Some s') = Ok None.
Proof.
  intros E1 E2. unfold CheckEquality. rewrite E1, E2, decide_False by (intros Hx; by apply Hx). rewrite decide_False by (rewrite zlen_app; pose proof (zlen_nonneg (replicate k (@nil Z))); lia).
  apply check_tables_refl.
Qed.
