(* ===== verification/BlobV0.v ===== *)
(** * Making v0 blobs

    Models the [BlobMaker] of src/prover/lib/compressor/blob/v0/blob_maker.go. The
    compressor is the interface of [CompressorApi], which the repository's own LZSS
    implements; the option [WithTxAddressGetter] is the argument [getAddress]. The
    buffers [buf] and [packBuffer] are emptied before each use and are local here;
    [currentBlob] is the part of the fixed array that was written so far. *)

From S2P Require Export CompressorApi Dictionary PackV0 HeaderV0.

Definition maxOutputSize : Z := 2 ^ 20.
Definition MaxUncompressedBytes : Z := 780000.
Definition MaxUsableBytes : Z := 32 * 4096.

Record BlobMaker {C : Type} := {
  limit : Z;
  compressor : C;
  dict : list Z;
  dictStore : Store;
  header : Header;
  currentBlob : list Z;
  currentBlobLength : Z }.
Arguments BlobMaker : clear implicits.

Definition set_compressor {C} (bm : BlobMaker C) (c : C) : BlobMaker C :=
  {| limit := limit bm; compressor := c; dict := dict bm; dictStore := dictStore bm;
     header := header bm; currentBlob := currentBlob bm; currentBlobLength := currentBlobLength bm |}.

Definition set_header {C} (bm : BlobMaker C) (h : Header) : BlobMaker C :=
  {| limit := limit bm; compressor := compressor bm; dict := dict bm; dictStore := dictStore bm;
     header := h; currentBlob := currentBlob bm; currentBlobLength := currentBlobLength bm |}.

Definition set_blob {C} (bm : BlobMaker C) (blob : list Z) (n : Z) : BlobMaker C :=
  {| limit := limit bm; compressor := compressor bm; dict := dict bm; dictStore := dictStore bm;
     header := header bm; currentBlob := blob; currentBlobLength := n |}.

Definition set_store {C} (bm : BlobMaker C) (s : Store) : BlobMaker C :=
  {| limit := limit bm; compressor := compressor bm; dict := dict bm; dictStore := s;
     header := header bm; currentBlob := currentBlob bm; currentBlobLength := currentBlobLength bm |}.

(** The loop of [DecompressBlob] over the block lengths. Go allows a slice to reach
    past the length up to the capacity, which is unspecified: past the length is a
    panic here. *)
Fixpoint cut_blocks (rawBlocks : list Z) (lengths : list Z) (offset : Z) (blocks : list (list Z)) : res (list (list Z)) :=
  match lengths with
  | [] => Ok blocks
  | n :: lengths' => b ← slice rawBlocks offset (offset + n); cut_blocks rawBlocks lengths' (offset + n) (blocks ++ [b])
  end.

Definition emptyHeader : Header := {| DictChecksum := zero_bytes 32; table := []; byteSizeUnpacked := 0 |}.

Section v0.
Context `{CompressorOps C, Rlp, BlockRlp, DictHash, MapRange, BitWriter W, BitReader R}.
Notation BlobMaker := (BlobMaker C).

(** [DecompressBlob]: the header, the payload packed again, the blocks. *)
Definition DecompressBlob (b : list Z) (s : Store) : res (option Header * list Z * list (list Z) * gerr * Store) :=
  '(b, err) ← UnpackAlign (W := W) b;
  match err with Some e => Ok (None, [], [], Some e, s) | None =>
  let '(h, read, err, _) := ReadFrom emptyHeader (NewBytesReader b) in
  match err with Some e => Ok (None, [], [], Some "failed to read blob header"%string, s) | None =>
  '(s, d, err) ← Get (W := W) (R := R) 1 s (DictChecksum h) 0;
  match err with Some e => Ok (None, [], [], Some e, s) | None =>
  b ← slice b read (zlen b);
  '(rawBlocks, err) ← cz_Decompress b d;
  match err with Some e => Ok (None, [], [], Some "failed to decompress blob body"%string, s) | None =>
  blocks ← cut_blocks rawBlocks (concat (table h)) 0 [];
  '(buf, _, err) ← PackAlign (R := R) rawBlocks [];
  match err with
  | Some e => Ok (None, [], [], Some "error packing raw blocks"%string, s)
  | None => Ok (Some h, buf, blocks, None, s)
  end end end end end.

Definition StartNewBatch (bm : BlobMaker) : res BlobMaker :=
  let nbBatches := NbBatches (header bm) in
  empty ← (if decide (0 < nbBatches) then n ← NbBlocksInBatch (header bm) (nbBatches - 1); Ok (bool_decide (n = 0)) else Ok false);
  if (empty : bool) then Ok bm else Ok (set_header bm (addBatch (header bm))).

Definition NewBlobMaker (dataLimit : Z) (file : list Z * gerr) : res (option BlobMaker * gerr) :=
  let '(d, err) := file in
  match err with Some e => Ok (None, Some e) | None =>
  let d := cz_AugmentDict d in
  '(s, err) ← SingletonStore (W := W) (R := R) d 0;
  match err with Some e => Ok (None, Some e) | None =>
  let ck := ChecksumPaddedBytes d in
  '(c, err) ← cz_NewCompressor d;
  match c, err with
  | Some c, None =>
      let h := {| DictChecksum := read_array 32 (take 32 ck); table := []; byteSizeUnpacked := 0 |} in
      bm ← StartNewBatch {| limit := dataLimit; compressor := c; dict := d; dictStore := s; header := h; currentBlob := []; currentBlobLength := 0 |};
      Ok (Some bm, None)
  | _, _ => Ok (None, err)
  end end end.

Definition Reset (bm : BlobMaker) : res BlobMaker :=
  let bm := set_header bm (resetTable (header bm)) in
  let bm := set_blob bm (currentBlob bm) 0 in
  let bm := set_compressor bm (cz_Reset (compressor bm)) in
  StartNewBatch bm.

Definition Len (bm : BlobMaker) : Z := currentBlobLength bm.
Definition Written (bm : BlobMaker) : Z := cz_Written (compressor bm).

Definition Bytes (bm : BlobMaker) : res (BlobMaker * list Z) :=
  blob ← slice (currentBlob bm) 0 (currentBlobLength bm);
  if decide (0 < currentBlobLength bm) then
    '(h, rawBlocks, _, err, s) ← DecompressBlob blob (dictStore bm);
    match err, h with
    | None, Some h =>
        err ← CheckEquality h (Some (header bm));
        match err with Some e => Panic | None =>
        '(rawBlocksUnpacked, err) ← UnpackAlign (W := W) rawBlocks;
        match err with Some e => Panic | None =>
        if decide (rawBlocksUnpacked ≠ cz_WrittenBytes (compressor bm)) then Panic
        else Ok (set_store bm s, blob)
        end end
    | _, _ => Panic
    end
  else Ok (bm, blob).

(** [Revert] and [removeLastBlock], as on each way out of [Write]. *)
Definition discard (bm : BlobMaker) (ok : bool) (msg : string) : res (BlobMaker * bool * gerr) :=
  '(c, err) ← cz_Revert (compressor bm);
  let bm := set_compressor bm c in
  match err with
  | Some e => Ok (bm, false, Some msg)
  | None => h ← removeLastBlock (header bm); Ok (set_header bm h, ok, None)
  end.

(** What follows the label [bypass]. *)
Definition accept (bm : BlobMaker) (buf : list Z) (forceReset : bool) : res (BlobMaker * bool * gerr) :=
  if forceReset then discard bm true "when reverting compressor (blob is not full but forceReset == true)"%string
  else
    '(packed, n2, err) ← PackAlign (R := R) buf (cz_Bytes (compressor bm));
    match err with
    | Some e =>
        '(c, _) ← cz_Revert (compressor bm);
        h ← removeLastBlock (header bm);
        Ok (set_header (set_compressor bm c) h, false, Some "when packing blob"%string)
    | None =>
        let bm := set_blob bm (currentBlob bm) n2 in
        if decide (n2 < 0 ∨ maxOutputSize < n2) then Panic
        else Ok (set_blob bm (take (Z.to_nat n2) packed ++ drop (Z.to_nat n2) (currentBlob bm)) n2, true, None)
    end.

Definition Write (getAddress : Transaction → res (list Z)) (bm : BlobMaker) (rlpBlock : list Z) (forceReset : bool) : res (BlobMaker * bool * gerr) :=
  match rlp_DecodeBlock rlpBlock with
  | inr e => Ok (bm, false, Some "when decoding input RLP block"%string)
  | inl block =>
  '(buf, err) ← EncodeBlockForCompression getAddress (Some block);
  match err with Some e => Ok (bm, false, Some "when re-encoding block for compression"%string) | None =>
  let blockLen := zlen buf in
  '(c, _, err) ← cz_Write (compressor bm) buf;
  let bm := set_compressor bm c in
  match err with
  | Some e => Ok (bm, false, Some "when writing block to compressor"%string)
  | None =>
  h ← addBlock (header bm) blockLen;
  let bm := set_header bm h in
  let '(buf, _, err) := WriteTo (header bm) in
  match err with
  | Some e =>
      h ← removeLastBlock (header bm);
      Ok (set_header bm h, false, Some "when writing header to buffer"%string)
  | None =>
  if decide (MaxUncompressedBytes < cz_Written (compressor bm) + zlen buf) then
    discard bm false "when reverting compressor because uncompressed blob is > maxUncompressedSize"%string
  else if decide (PackAlignSize buf (cz_Bytes (compressor bm)) ≤ limit bm) then accept bm buf forceReset
  else
    let '(c, bypassed) := cz_ConsiderBypassing (compressor bm) in
    let bm := set_compressor bm c in
    if bypassed && bool_decide (PackAlignSize buf (cz_Bytes (compressor bm)) ≤ limit bm) then accept bm buf forceReset
    else discard bm false "when reverting compressor because blob is full"%string
  end end end end.

Definition Equals (bm other : BlobMaker) : res bool :=
  if decide (limit bm ≠ limit other) then Ok false
  else if decide (currentBlobLength bm ≠ currentBlobLength other) then Ok false
  else
    b ← slice (currentBlob bm) 0 (currentBlobLength bm);
    b' ← slice (currentBlob other) 0 (currentBlobLength other);
    Ok (bool_decide (b = b' ∧ table (header bm) = table (header other))).

(** ** Sizes *)

Definition WorstCompressedBlockSize (bm : BlobMaker) (rlpBlock : list Z) : res (bool * Z * gerr) :=
  match rlp_DecodeBlock rlpBlock with
  | inr e => Ok (false, -1, Some "failed to decode RLP block"%string)
  | inl block =>
      '(inputSlice, err) ← EncodeBlockForCompression GetFrom (Some block);
      match err with Some e => Ok (false, -1, Some "failed to encode block"%string) | None =>
      '(n, err) ← cz_CompressedSize256k (compressor bm) inputSlice;
      match err with Some e => Ok (false, -1, Some e) | None =>
      let expandingBlock := bool_decide (zlen inputSlice < n) in
      let n := if expandingBlock then zlen inputSlice + cz_HeaderSize else n in
      Ok (expandingBlock, packAlignSizeToRefactor n 0, None)
      end end
  end.

Definition WorstCompressedTxSize (bm : BlobMaker) (rlpTx : list Z) : res (Z * gerr) :=
  match rlp_DecodeTx rlpTx with
  | inr e => Ok (-1, Some e)
  | inl tx =>
      inputSlice ← EncodeTxForCompression GetFrom (Some tx);
      cz_CompressedSize256k (compressor bm) inputSlice
  end.

Definition RawCompressedSize (bm : BlobMaker) (data : list Z) : res (Z * gerr) :=
  '(n, err) ← cz_CompressedSize256k (compressor bm) data;
  match err with Some e => Ok (-1, Some e) | None =>
  let n := if decide (zlen data < n) then zlen data + cz_HeaderSize else n in
  Ok (packAlignSizeToRefactor n 0, None)
  end.

End v0.
