(* ===== verification/BlobV0Facts.v ===== *)
(** * What a v0 blob maker holds

    The invariant of the [BlobMaker] of [BlobV0] between calls, in terms of the
    batches of encoded blocks it has accepted, and the proof that each operation
    keeps it. *)

From S2P Require Export LzssApi BlobV0 BlobContent.

(** ** The table of a content *)

Definition batch_lengths (b : list (list Z)) : list Z := zlen <$> b.

Definition table_for (ct : content) : list (list Z) := batch_lengths <$> (past ct ++ [cur ct]).

Definition header_for (ct : content) (ck : list Z) : Header :=
  {| DictChecksum := ck; table := table_for ct; byteSizeUnpacked := 0 |}.

Record content_ok (ct : content) : Prop := {
  cok_blocks : Forall (λ b, Forall is_byte b ∧ 8 ≤ zlen b) (blocks ct);
  cok_past : Forall (λ b, b ≠ []) (past ct);
  cok_size : zlen (payload_of ct) ≤ 2 ^ 21 }.

Lemma content_ok_seal_v0 ct : content_ok ct → content_ok (seal ct).
Proof.
  intros [Hb Hp Hs]. split; unfold payload_of; rewrite ?blocks_seal; [done| |done]. simpl. unfold batches. apply Forall_app. split; [done|].
  case_decide; by repeat constructor.
Qed.

Lemma content_ok_push_v0 ct b : content_ok ct → Forall is_byte b → 8 ≤ zlen b → zlen (payload_of ct) + zlen b ≤ 2 ^ 21 → content_ok (push ct b).
Proof.
  intros [Hb Hp Hs] Hbb H8 Hl. split; [|done|rewrite payload_push, zlen_app; lia]. rewrite blocks_push. apply Forall_app. split; [done|by apply Forall_singleton].
Qed.

Lemma content_ok_empty_v0 : content_ok empty_content.
Proof. split; [constructor|constructor|by vm_compute]. Qed.

(** The last batch. *)
Lemma table_last ct : table_for ct = (batch_lengths <$> past ct) ++ [zlen <$> cur ct].
Proof. unfold table_for. by rewrite fmap_app. Qed.

Lemma idx_last {A} (l : list A) x : idx (l ++ [x]) (zlen (l ++ [x]) - 1) = Ok x.
Proof.
  rewrite zlen_app. change (zlen [x]) with 1. pose proof (zlen_nonneg l). apply idx_nat; [lia|].
  rewrite lookup_app_r by (unfold zlen; lia). replace (Z.to_nat (zlen l + 1 - 1) - length l)%nat with 0%nat by (unfold zlen; lia). done.
Qed.

Lemma store_last {A} (l : list A) x y : store (l ++ [x]) (zlen (l ++ [x]) - 1) y = Ok (l ++ [y]).
Proof.
  rewrite zlen_app. change (zlen [x]) with 1. pose proof (zlen_nonneg l). rewrite store_Ok by (rewrite zlen_app; change (zlen [x]) with 1; lia).
  replace (Z.to_nat (zlen l + 1 - 1)) with (length l + 0)%nat by (unfold zlen; lia). by rewrite insert_app_r.
Qed.

Lemma addBlock_for_v0 ct ck b : addBlock (header_for ct ck) (zlen b) = Ok (header_for (push ct b) ck).
Proof.
  unfold addBlock, header_for. cbn [table]. rewrite table_last, idx_last. cbn [mbind res_bind]. rewrite store_last. cbn [mbind res_bind].
  unfold set_table. cbn [DictChecksum byteSizeUnpacked]. rewrite table_last. cbn [push past cur]. by rewrite fmap_app.
Qed.

Lemma removeLastBlock_for_v0 ct ck b : removeLastBlock (header_for (push ct b) ck) = Ok (header_for ct ck).
Proof.
  unfold removeLastBlock, header_for. cbn [table]. rewrite !table_last, idx_last. cbn [mbind res_bind push past cur]. rewrite fmap_app.
  set (l := zlen <$> cur ct). change (zlen <$> [b]) with [zlen b]. rewrite (zlen_app l). change (zlen [zlen b]) with 1. rewrite Z.add_simpl_r.
  pose proof (slice_mid [] l [zlen b]) as E. cbn [app] in E. change (zlen []) with 0 in E. rewrite Z.add_0_l in E. rewrite E. cbn [mbind res_bind].
  rewrite store_last. cbn [mbind res_bind]. done.
Qed.

Lemma concat_table ct : concat (table_for ct) = zlen <$> blocks ct.
Proof.
  unfold table_for, blocks. assert (∀ bs : list (list (list Z)), concat (batch_lengths <$> bs) = zlen <$> concat bs) as E.
  { induction bs as [|b bs IH]; [done|]. rewrite fmap_cons. cbn [concat]. rewrite IH. unfold batch_lengths at 1. by rewrite fmap_app. }
  rewrite E, concat_app. cbn [concat]. by rewrite app_nil_r.
Qed.

Lemma concat_empty {A} (t : list (list A)) k : concat (t ++ replicate k []) = concat t.
Proof. rewrite concat_app. assert (concat (replicate k (@nil A)) = []) as ->; [by induction k|]. apply app_nil_r. Qed.

Lemma zlen_blocks ct : zlen (blocks ct) = zlen (concat (past ct)) + zlen (cur ct).
Proof. unfold blocks. apply zlen_app. Qed.

(** A payload of at most 2^21 bytes keeps the lengths below 2^24. *)
Lemma blocks_short ct : content_ok ct → Forall is_length (zlen <$> blocks ct).
Proof.
  intros [Hb _ Hs]. unfold payload_of in Hs. apply Forall_fmap, Forall_forall. intros b Hin. unfold compose, is_length. pose proof (zlen_nonneg b).
  apply list_elem_of_split in Hin as (l1 & l2 & E). rewrite E, concat_app, zlen_app in Hs. cbn [concat] in Hs. rewrite zlen_app in Hs.
  pose proof (zlen_nonneg (concat l1)). pose proof (zlen_nonneg (concat l2)). lia.
Qed.

Lemma past_count ct : content_ok ct → zlen (past ct) ≤ zlen (concat (past ct)).
Proof.
  intros [_ Hp _]. induction Hp as [|b bs Hb _ IH]; [done|]. cbn [concat]. rewrite zlen_app. assert (1 ≤ zlen b) by (destruct b; [done|unfold zlen; simpl; lia]).
  unfold zlen in *. simpl length. lia.
Qed.

Lemma header_for_ok_v0 ct ck : content_ok ct → Forall is_byte ck → length ck = 32%nat → zlen (blocks ct) < 2 ^ 16 - 1 → header_ok (header_for ct ck).
Proof.
  intros Hct Hck Hlen Hn. pose proof (past_count ct Hct). rewrite zlen_blocks in Hn. pose proof (zlen_nonneg (cur ct)). split; [done| |].
  - cbn [header_for table]. rewrite table_last, zlen_app. change (zlen [_]) with 1. unfold zlen in *. rewrite length_fmap. lia.
  - cbn [header_for table]. pose proof (blocks_short ct Hct) as Hs. rewrite <-concat_table in Hs. apply Forall_forall. intros b Hin.
    apply list_elem_of_split in Hin as (l1 & l2 & E). rewrite E, concat_app in Hs. cbn [concat] in Hs. rewrite !Forall_app in Hs. split; [|tauto].
    assert (zlen (concat (table_for ct)) = zlen (blocks ct)) as El by (rewrite concat_table; unfold zlen; by rewrite length_fmap).
    rewrite E, concat_app in El. cbn [concat] in El. rewrite !zlen_app in El. rewrite zlen_blocks in El. pose proof (zlen_nonneg (concat l1)). pose proof (zlen_nonneg (concat l2)). lia.
Qed.

Lemma header_bytes_size ct ck : length ck = 32%nat → zlen (header_bytes (header_for ct ck)) = 34 + 2 * (zlen (past ct) + 1) + 3 * zlen (blocks ct).
Proof.
  intros Hl. unfold header_bytes. cbn [header_for DictChecksum table]. rewrite !zlen_app, le_bytes_zlen. assert (zlen ck = 32) as -> by (unfold zlen; lia).
  assert (∀ b, zlen (batch_bytes b) = 2 + 3 * zlen b) as Eb.
  { intros b. unfold batch_bytes. rewrite zlen_app, le_bytes_zlen. f_equal. induction b as [|n b IH]; [done|]. rewrite fmap_cons. cbn [concat]. rewrite zlen_app, le_bytes_zlen, IH.
    unfold zlen. simpl length. lia. }
  assert (∀ t, zlen (concat (batch_bytes <$> t)) = 2 * zlen t + 3 * zlen (concat t)) as ->.
  { induction t as [|b t IH]; [done|]. rewrite fmap_cons. cbn [concat]. rewrite !zlen_app, Eb, IH. unfold zlen. simpl length. lia. }
  rewrite concat_table, table_last, zlen_app. change (zlen [_]) with 1. unfold zlen. rewrite !length_fmap. lia.
Qed.

(** ** Cutting the payload *)

Lemma cut_blocks_spec bs : ∀ pre rest acc, cut_blocks (pre ++ concat bs ++ rest) (zlen <$> bs) (zlen pre) acc = Ok (acc ++ bs).
Proof.
  induction bs as [|b bs IH]; intros pre rest acc; [cbn; by rewrite app_nil_r|]. rewrite fmap_cons. cbn [cut_blocks concat].
  rewrite <-(assoc_L (++) b), slice_mid. cbn [mbind res_bind]. rewrite <-zlen_app, (assoc_L (++) pre b), IH. by rewrite <-(assoc_L (++)).
Qed.

(** ** The invariant *)

Section facts.
Context `{CompressorLaws C, RlpLaws, BlockRlp, DictHash, MapRange, BitWriterSpec W, BitReaderSpec R}.
Notation BlobMaker := (BlobMaker C).
Notation Decompress := (DecompressBlob (C := C) (W := W) (R := R)).
Notation UnpackAlign := (UnpackAlign (W := W)).
Notation PackAlign := (PackAlign (R := R)).
Notation Get := (Get (W := W) (R := R)).

Record setup (bm : BlobMaker) (ck : list Z) : Prop := {
  su_checksum : Forall is_byte ck ∧ length ck = 32%nat;
  su_store fuel : Get fuel (dictStore bm) ck 0 = Ok (dictStore bm, dict bm, None);
  su_limit : limit bm ≤ maxOutputSize }.

(** A blob for the content [ct]; batches that are empty may have been added since. *)
Definition is_blob (ct : content) (ck : list Z) (d blob : list Z) : Prop :=
  ∃ t k z, let h := {| DictChecksum := ck; table := t; byteSizeUnpacked := 0 |} in
    table_for ct = t ++ replicate k [] ∧ header_ok h ∧ Forall is_byte z ∧
    PackAlign (header_bytes h) z = Ok (blob, zlen blob, None) ∧
    UnpackAlign blob = Ok (header_bytes h ++ z, None) ∧ cz_Decompress z d = Ok (payload_of ct, None).

Record inv (bm : BlobMaker) (ck : list Z) (ct : content) : Prop := {
  inv_setup : setup bm ck;
  inv_content : content_ok ct;
  inv_max : zlen (payload_of ct) ≤ MaxUncompressedBytes;
  inv_count : 3 * zlen (blocks ct) ≤ Z.max 0 (limit bm);
  inv_compressor : ∃ p, cz_rep (dict bm) (compressor bm) (payload_of ct) p;
  inv_header : header bm = header_for ct ck;
  inv_length : 0 ≤ currentBlobLength bm ≤ zlen (currentBlob bm) ∧ currentBlobLength bm ≤ maxOutputSize;
  inv_blob : currentBlobLength bm = 0 ∧ blocks ct = [] ∨
    (0 < currentBlobLength bm ≤ limit bm ∧ blocks ct ≠ []) ∧
    is_blob ct ck (dict bm) (take (Z.to_nat (currentBlobLength bm)) (currentBlob bm)) }.

(** Decompressing a blob; its payload is packed again. *)
Lemma is_blob_decompress_v0 ct ck d blob s s' : content_ok ct → is_blob ct ck d blob → Get 1 s ck 0 = Ok (s', d, None) →
  ∃ h raw, Decompress blob s = Ok (Some h, raw, blocks ct, None, s') ∧ DictChecksum h = ck ∧ UnpackAlign raw = Ok (payload_of ct, None) ∧
    CheckEquality h (Some (header_for ct ck)) = Ok None.
Proof.
  intros Hct (t & k & z & Et & Hh & Hz & _ & Eun & Edec) Eget. unfold DecompressBlob. rewrite Eun. cbn [mbind res_bind].
  rewrite (ReadFrom_at_v0 _ emptyHeader _ z Hh) by (done || apply at_bytes_new). cbn [DictChecksum]. rewrite Eget. cbn [mbind res_bind].
  rewrite slice_tail. cbn [mbind res_bind]. rewrite Edec. cbn [mbind res_bind table].
  assert (concat t = zlen <$> blocks ct) as -> by (rewrite <-concat_table, Et; symmetry; apply concat_empty).
  pose proof (cut_blocks_spec (blocks ct) [] [] []) as Ecut. cbn [app] in Ecut. rewrite app_nil_r in Ecut. fold (payload_of ct) in Ecut.
  change (zlen []) with 0 in Ecut. rewrite Ecut. cbn [mbind res_bind].
  assert (Forall is_byte (payload_of ct)) as Hp by (apply Forall_concat; eapply Forall_impl; [apply (cok_blocks _ Hct)|]; by intros ? [? _]).
  destruct (PackAlign_v0 (W := W) (R := R) (payload_of ct) [] Hp) as (raw & -> & _ & Eraw & _); [constructor|]. rewrite app_nil_r in Eraw. cbn [mbind res_bind].
  eexists _, raw. split_and!; [done|done|done|]. by apply (CheckEquality_refl _ _ k).
Qed.

Lemma inv_Bytes_v0 bm ck ct : inv bm ck ct → ∃ blob, Bytes (W := W) (R := R) bm = Ok (bm, blob) ∧ zlen blob = Len bm ∧
  (blocks ct = [] ∧ blob = [] ∨ (0 < zlen blob ≤ limit bm ∧ blocks ct ≠ []) ∧ is_blob ct ck (dict bm) blob).
Proof.
  intros [[Hck Hst Hlim] Hct Hmax _ [p Hrep] Hhd [Hl Hl2] Hbl]. unfold Bytes. rewrite slice_Ok by lia. cbn [mbind res_bind].
  rewrite drop_0, Z.sub_0_r. set (blob := take _ _) in *. assert (zlen blob = currentBlobLength bm) as Ebl by (unfold blob, zlen in *; rewrite length_take; lia).
  exists blob. destruct Hbl as [[E0 Ee]|[Hpos Hb]].
  - rewrite decide_False by lia. split_and!; [done|done|]. left. split; [done|]. apply nil_length_inv. unfold zlen in Ebl. lia.
  - rewrite decide_True by lia. destruct (is_blob_decompress_v0 ct ck (dict bm) blob (dictStore bm) (dictStore bm)) as (h & raw & -> & _ & Eraw & Eeq); [done|done|apply Hst|].
    cbn [mbind res_bind]. rewrite Hhd, Eeq. cbn [mbind res_bind]. rewrite Eraw. cbn [mbind res_bind].
    destruct (cz_content _ _ _ _ Hrep) as (_ & _ & _ & -> & _ & _). rewrite decide_False by (intros Hx; by apply Hx).
    split_and!; [by destruct bm|done|right; by rewrite Ebl].
Qed.

(** ** Writing a block *)

Record trying (bm : BlobMaker) (ck : list Z) (ct : content) (b : list Z) : Prop := {
  tr_setup : setup bm ck;
  tr_old : content_ok ct;
  tr_new : content_ok (push ct b);
  tr_old_max : zlen (payload_of ct) ≤ MaxUncompressedBytes;
  tr_count : 3 * zlen (blocks ct) ≤ Z.max 0 (limit bm);
  tr_compressor : cz_rep (dict bm) (compressor bm) (payload_of (push ct b)) (Some (payload_of ct));
  tr_header : header bm = header_for (push ct b) ck;
  tr_header_ok : header_ok (header_for (push ct b) ck);
  tr_length : 0 ≤ currentBlobLength bm ≤ zlen (currentBlob bm) ∧ currentBlobLength bm ≤ maxOutputSize;
  tr_blob : currentBlobLength bm = 0 ∧ blocks ct = [] ∨
    (0 < currentBlobLength bm ≤ limit bm ∧ blocks ct ≠ []) ∧
    is_blob ct ck (dict bm) (take (Z.to_nat (currentBlobLength bm)) (currentBlob bm)) }.

Definition same (bm bm' : BlobMaker) : Prop := limit bm' = limit bm ∧ dict bm' = dict bm ∧ dictStore bm' = dictStore bm.

Lemma discard_ok bm ck ct b ok msg : trying bm ck ct b → ∃ bm', discard bm ok msg = Ok (bm', ok, None) ∧ inv bm' ck ct ∧ same bm bm' ∧
  cz_Revert (compressor bm) = Ok (compressor bm', None).
Proof.
  intros [[] Hct _ Hmax Hcnt Hrep Hh _ Hl Hbl]. unfold discard. destruct (cz_revert _ _ _ _ Hrep) as (c' & -> & Hc'). cbn [mbind res_bind header set_compressor].
  rewrite Hh, removeLastBlock_for_v0. cbn [mbind res_bind]. eexists. split_and!; [done| |done|done]. split; eauto. done.
Qed.

Lemma trying_compressor_v0 bm ck ct b c : trying bm ck ct b → cz_rep (dict bm) c (payload_of (push ct b)) (Some (payload_of ct)) → trying (set_compressor bm c) ck ct b.
Proof. intros [[] ? ? ? ? ? ? ? ? ?] Hc. by split. Qed.

Lemma accept_ok_v0 bm ck ct b (f : bool) : trying bm ck ct b → zlen (payload_of (push ct b)) ≤ MaxUncompressedBytes →
  let hb := header_bytes (header_for (push ct b) ck) in
  PackAlignSize hb (cz_Bytes (compressor bm)) ≤ limit bm →
  ∃ bm', accept (R := R) bm hb f = Ok (bm', true, None) ∧ inv bm' ck (if f then ct else push ct b) ∧ same bm bm' ∧
    (f = true → cz_Revert (compressor bm) = Ok (compressor bm', None)).
Proof.
  intros Ht Hmax hb Hfit. destruct f.
  - unfold accept. destruct (discard_ok bm ck ct b true "when reverting compressor (blob is not full but forceReset == true)" Ht) as (bm' & E & Hi & Hs & Hr). by exists bm'.
  - destruct Ht as [Hs Hct Hct' _ Hcnt Hrep Hh Hhok Hl Hbl]. pose proof Hs as [[Hckb Hckl] Hst Hlim].
    destruct (cz_content _ _ _ _ Hrep) as (_ & Hz & _ & _ & _ & Edec). set (z := cz_Bytes (compressor bm)) in *. destruct (WriteTo_spec_v0 _ Hhok) as [_ Hhb]. fold hb in Hhb.
    destruct (PackAlign_v0 (W := W) (R := R) hb z Hhb Hz) as (out & Epack & Esize & Eun & _).
    unfold accept. fold z. rewrite Epack. cbn [mbind res_bind]. destruct (PackAlignSize_v0 hb z) as [Es _].
    pose proof (zlen_nonneg z). pose proof (zlen_nonneg hb). pose proof (Z.div_pos (zlen hb + zlen z) 31). pose proof (Z.div_mod (zlen hb + zlen z) 31). pose proof (Z.mod_pos_bound (zlen hb + zlen z) 31).
    rewrite decide_False by lia. assert (Z.to_nat (zlen out) = length out) as Eto by (unfold zlen; lia).
    eexists. split_and!; [done| |done|done]. split; cbn [set_blob currentBlobLength currentBlob dict compressor header limit]; [by destruct Hs|done|done| |by eexists|done| |].
    + pose proof (header_bytes_size (push ct b) ck Hckl) as Ehs. fold hb in Ehs. pose proof (zlen_nonneg (past (push ct b))). lia.
    + rewrite zlen_app, Eto, firstn_all. pose proof (zlen_nonneg (drop (length out) (currentBlob bm))). lia.
    + right. split; [split; [lia|rewrite blocks_push; by destruct (blocks ct)]|]. rewrite Eto, firstn_all, take_app_length.
      exists (table_for (push ct b)), 0%nat, z. cbn [replicate]. rewrite app_nil_r. done.
Qed.

(** The size of [n] bytes once packed. *)
Definition fits (bm : BlobMaker) (n : Z) : bool := bool_decide (32 * (n / 31 + 1) ≤ limit bm).

Definition accepts (bm : BlobMaker) (hdr payload len : Z) : bool :=
  bool_decide (payload + hdr ≤ MaxUncompressedBytes) &&
  (fits bm (hdr + len) || (bool_decide (payload + cz_HeaderSize < len) && fits bm (hdr + (payload + cz_HeaderSize)))).

(** The blocks a caller may write. *)
Record block_fits (getAddress : Transaction → res (list Z)) (rlpBlock b : list Z) : Prop := {
  bf_decode : ∃ block, rlp_DecodeBlock rlpBlock = inl block ∧ block_ok_v0 getAddress block ∧ EncodeBlockForCompression getAddress (Some block) = Ok (b, None);
  bf_size : MaxUncompressedBytes + zlen b ≤ cz_MaxInputSize;
  bf_max : cz_MaxInputSize ≤ 2 ^ 21 }.

Lemma block_fits_bytes getAddress r b : block_fits getAddress r b → Forall is_byte b ∧ 8 ≤ zlen b.
Proof.
  intros [(block & _ & Hok & E) Hs Hm]. unfold MaxUncompressedBytes in *. split; [eapply DecodeBlock_v0; [done|done|lia]|].
  destruct (EncodeBlock_v0 getAddress block Hok) as (txs & bs & _ & _ & E'). assert (b = le_bytes 8 (bl_Time block) ++ concat bs) as -> by congruence.
  rewrite zlen_app, le_bytes_zlen. pose proof (zlen_nonneg (concat bs)). lia.
Qed.

(** The state [Write] reaches once the block is in the compressor and the header. *)
Lemma Write_trying bm ck ct getAddress r b : inv bm ck ct → block_fits getAddress r b → ∃ c1,
  cz_Write (compressor bm) b = Ok (c1, zlen b, None) ∧ cz_rep (dict bm) c1 (payload_of (push ct b)) (Some (payload_of ct)) ∧ content_ok (push ct b) ∧
  (header_ok (header_for (push ct b) ck) → trying (set_header (set_compressor bm c1) (header_for (push ct b) ck)) ck ct b).
Proof.
  intros [Hs Hct Hmax Hcnt [p Hrep] Hh Hl Hbl] Hf. destruct (block_fits_bytes _ _ _ Hf) as [Hb H8]. destruct Hf as [_ Hsize HMax].
  assert (content_ok (push ct b)) as Hct' by (apply content_ok_push_v0; [done|done|done|unfold MaxUncompressedBytes in *; lia]).
  destruct (cz_write (dict bm) (compressor bm) _ p b Hrep Hb) as (c1 & Ew & Hc1); [lia|]. rewrite <-payload_push in Hc1.
  exists c1. split_and!; [done|done|done|]. intros Hhok. destruct Hs. by split.
Qed.

Lemma Write_ok_v0 bm ck ct getAddress r b (f : bool) : inv bm ck ct → limit bm ≤ MaxUsableBytes → block_fits getAddress r b → ∃ c1,
  cz_Write (compressor bm) b = Ok (c1, zlen b, None) ∧
  let hdr := zlen (header_bytes (header_for (push ct b) ck)) in
  let ok := accepts bm hdr (zlen (payload_of (push ct b))) (cz_Len c1) in
  ∃ bm', Write (R := R) getAddress bm r f = Ok (bm', ok, None) ∧ inv bm' ck (if ok && negb f then push ct b else ct) ∧ same bm bm' ∧
    (fits bm (hdr + cz_Len c1) = true → ok && f = true → cz_Revert c1 = Ok (compressor bm', None)).
Proof.
  intros Hi Hlim Hf. destruct (Write_trying bm ck ct getAddress r b Hi Hf) as (c1 & Ew & Hc1 & Hct' & Htry). exists c1. split; [done|]. intros hdr ok.
  pose proof (zlen_nonneg (header_bytes (header_for (push ct b) ck)) : 0 ≤ hdr).
  destruct Hi as [Hs Hct Hmax Hcnt _ Hh _ _]. destruct Hs as [[Hckb Hckl] Hst Hlim'].
  assert (header_ok (header_for (push ct b) ck)) as Hhok.
  { apply header_for_ok_v0; [done|done|done|]. rewrite blocks_push, zlen_app. change (zlen [b]) with 1. unfold MaxUsableBytes in Hlim. lia. }
  pose proof (Htry Hhok) as Ht. set (bm1 := set_header (set_compressor bm c1) (header_for (push ct b) ck)) in *. destruct (WriteTo_spec_v0 _ Hhok) as [Ewt _].
  destruct Hf as [(block & Edec & Hblk & Eenc) Hsize HMax]. unfold Write. rewrite Edec, Eenc. cbn [mbind res_bind]. rewrite Ew. cbn [mbind res_bind header set_compressor].
  rewrite Hh, addBlock_for_v0. cbn [mbind res_bind]. change (set_header _ (header_for (push ct b) ck)) with bm1. cbn [header set_header bm1]. rewrite Ewt. fold hdr.
  cbn [compressor set_compressor set_header bm1]. destruct (cz_content _ _ _ _ Hc1) as (_ & _ & El & _ & -> & _). unfold ok, accepts.
  destruct (decide (MaxUncompressedBytes < zlen (payload_of (push ct b)) + hdr)) as [Hbig|Hsmall].
  - rewrite (bool_decide_eq_false_2 (_ + hdr ≤ _)) by lia. cbn [andb].
    destruct (discard_ok bm1 ck ct b false "when reverting compressor because uncompressed blob is > maxUncompressedSize" Ht) as (bm' & E & Hi' & Hsm & _). exists bm'. by split_and!.
  - rewrite (bool_decide_eq_true_2 (_ + hdr ≤ _)) by lia. cbn [andb].
    assert (∀ c, cz_Len c = zlen (cz_Bytes c) → PackAlignSize (header_bytes (header_for (push ct b) ck)) (cz_Bytes c) = 32 * ((hdr + cz_Len c) / 31 + 1)) as Esz.
    { intros c Ec. rewrite Ec. apply PackAlignSize_v0. }
    rewrite (Esz c1 El). unfold fits. destruct (decide (32 * ((hdr + cz_Len c1) / 31 + 1) ≤ limit bm)) as [Hfit|Hnofit].
    + rewrite (bool_decide_eq_true_2 _ Hfit). cbn [orb]. change (limit bm1) with (limit bm) in *. rewrite decide_True by done.
      destruct (accept_ok_v0 bm1 ck ct b f Ht) as (bm' & E & Hi' & Hsm & Hr); [lia|change (compressor bm1) with c1; rewrite (Esz c1 El); exact Hfit|].
      rewrite E. exists bm'. split_and!; [done|by destruct f|done|]. intros _ Hff. by apply Hr.
    + rewrite (bool_decide_eq_false_2 _ Hnofit). cbn [orb]. rewrite decide_False by done.
      destruct (cz_bypass _ _ _ _ Hc1) as (Hc2 & Eb & Elen). destruct (cz_ConsiderBypassing c1) as [c2 byp]. cbn [fst snd] in *.
      pose proof (trying_compressor_v0 _ _ _ _ _ Ht Hc2) as Ht2. set (bm2 := set_compressor bm1 c2) in *. destruct (cz_content _ _ _ _ Hc2) as (_ & _ & El2 & _).
      rewrite <-Eb. cbn [compressor set_compressor bm2]. rewrite (Esz c2 El2). change (limit bm2) with (limit bm).
      destruct byp; cbn [andb].
      * rewrite Elen by done. destruct (bool_decide (32 * ((hdr + (zlen (payload_of (push ct b)) + cz_HeaderSize)) / 31 + 1) ≤ limit bm)) eqn:Efit.
        -- apply bool_decide_eq_true in Efit. destruct (accept_ok_v0 bm2 ck ct b f Ht2) as (bm' & E & Hi' & Hsm & Hr); [lia|cbn [compressor set_compressor bm2]; rewrite (Esz c2 El2), Elen by done; exact Efit|].
           rewrite E. exists bm'. split_and!; [done|by destruct f|done|done].
        -- destruct (discard_ok bm2 ck ct b false "when reverting compressor because blob is full" Ht2) as (bm' & E & Hi' & Hsm & _). exists bm'. by split_and!.
      * destruct (discard_ok bm2 ck ct b false "when reverting compressor because blob is full" Ht2) as (bm' & E & Hi' & Hsm & _). exists bm'. by split_and!.
Qed.

Lemma StartNewBatch_for (bm : BlobMaker) ct ck : header bm = header_for ct ck → StartNewBatch bm = Ok (set_header bm (header_for (seal ct) ck)).
Proof.
  intros Hh. unfold StartNewBatch, NbBatches, NbBlocksInBatch. rewrite Hh. cbn [header_for table]. rewrite table_last.
  pose proof (zlen_nonneg (batch_lengths <$> past ct)). rewrite decide_True by (rewrite zlen_app; change (zlen [_]) with 1; lia).
  rewrite idx_last. cbn [mbind res_bind]. unfold seal, batches. destruct (decide (cur ct = [])) as [E|E].
  - rewrite E. cbn. rewrite app_nil_r. destruct bm, ct. cbn in *. by subst.
  - rewrite bool_decide_eq_false_2 by (destruct (cur ct); [done|]; unfold zlen at 1; simpl; lia). unfold header_for, addBatch, set_table. cbn [DictChecksum table byteSizeUnpacked].
    do 3 f_equal. unfold table_for. cbn [past cur]. by rewrite (fmap_app _ (past ct ++ [cur ct])) .
Qed.

Lemma StartNewBatch_ok_v0 bm ck ct : inv bm ck ct → ∃ bm', StartNewBatch bm = Ok bm' ∧ inv bm' ck (seal ct) ∧ same bm bm'.
Proof.
  intros [[] Hct Hmax Hcnt [p Hrep] Hh Hl Hbl]. rewrite (StartNewBatch_for bm ct ck Hh). eexists. split_and!; [done| |done].
  assert (payload_of (seal ct) = payload_of ct) as Ep by (unfold payload_of; by rewrite blocks_seal).
  split; rewrite ?Ep, ?blocks_seal; cbn [set_header header currentBlobLength currentBlob compressor dict limit]; [by split|by apply content_ok_seal_v0|done|done|by exists p|done|done|].
  destruct Hbl as [|[Hpos (t & k & z & Et & Hz)]]; [by left|right]. split; [done|].
  destruct (decide (cur ct = [])) as [E|E].
  - exists t, k, z. rewrite Ep. split; [|done]. rewrite <-Et. unfold seal, batches. rewrite decide_True by done. rewrite app_nil_r, <-E. done.
  - exists t, (k + 1)%nat, z. rewrite Ep. split; [|done]. rewrite replicate_add, (assoc_L (++)), <-Et. unfold seal, batches. rewrite decide_False by done. rewrite (table_last {| past := _; cur := [] |}).
    cbn [past cur]. unfold table_for. done.
Qed.

Lemma Reset_ok_v0 bm ck ct : inv bm ck ct → ∃ bm', Reset bm = Ok bm' ∧ inv bm' ck empty_content ∧ same bm bm'.
Proof.
  intros [[] Hct Hmax Hcnt [p Hrep] Hh [Hl Hl2] Hbl]. unfold Reset. rewrite Hh. unfold StartNewBatch. cbn [set_header set_blob set_compressor header currentBlob compressor resetTable header_for NbBatches].
  rewrite decide_False by done. cbn [mbind res_bind]. eexists. split_and!; [done| |done].
  split; cbn [set_header set_blob set_compressor header currentBlob currentBlobLength compressor dict limit]; [by split|apply content_ok_empty_v0|by vm_compute|change (zlen (blocks empty_content)) with 0; lia| |done| |by left].
  - eexists. by eapply cz_reset.
  - unfold maxOutputSize. pose proof (zlen_nonneg (currentBlob bm)). lia.
Qed.

Lemma New_ok_v0 lim file bm : (∀ l, Forall is_byte (ChecksumPaddedBytes l) ∧ length (ChecksumPaddedBytes l) = 32%nat) → lim ≤ maxOutputSize →
  NewBlobMaker (W := W) (R := R) lim file = Ok (Some bm, None) →
  let ck := ChecksumPaddedBytes (cz_AugmentDict file.1) in inv bm ck empty_content ∧ limit bm = lim ∧ dict bm = cz_AugmentDict file.1.
Proof.
  intros H32 Hlim. unfold NewBlobMaker. destruct file as [d [e|]]; [done|]. set (d' := cz_AugmentDict d). cbn [fst]. fold d'.
  destruct (SingletonStore d' 0) as [[s [e|]]|] eqn:Es; cbn [mbind res_bind]; [done| |done].
  destruct (SingletonStore_Get (W := W) (R := R) d' 0 s ltac:(lia) Es) as (ck & Eck & Hget). change (Ok (ChecksumPaddedBytes d', None : gerr) = Ok (ck, None : gerr)) in Eck. injection Eck as <-.
  destruct (cz_NewCompressor d') as [[[c|] [e|]]|] eqn:Ec; cbn [mbind res_bind]; try done.
  destruct (H32 d') as [Hb Hlen]. rewrite firstn_all2, read_array_full by lia. unfold StartNewBatch. cbn [header NbBatches table]. rewrite decide_False by done. cbn [mbind res_bind]. intros [= <-].
  split_and!; [|done|done]. split; cbn [set_header header currentBlobLength currentBlob compressor dict limit dictStore].
  - split; [done|done|done].
  - apply content_ok_empty_v0.
  - by vm_compute.
  - change (zlen (blocks empty_content)) with 0. lia.
  - eexists. by apply cz_new.
  - done.
  - by vm_compute.
  - by left.
Qed.

(** A batch of 65535 blocks is full: the header cannot be written with one more.
    [Write] then restores the header but leaves the block in the compressor, and
    [Bytes] panics from then on. *)
Lemma full_batch_breaks bm ck ct getAddress r b f : inv bm ck ct → zlen (cur ct) = 2 ^ 16 - 1 → block_fits getAddress r b →
  ∃ bm' e, Write (R := R) getAddress bm r f = Ok (bm', false, Some e) ∧ header bm' = header bm ∧
    cz_WrittenBytes (compressor bm') = payload_of ct ++ b ∧ Bytes (W := W) (R := R) bm' = Panic.
Proof.
  intros Hi Hfull Hf. destruct (Write_trying bm ck ct getAddress r b Hi Hf) as (c1 & Ew & Hc1 & Hct' & _). destruct (block_fits_bytes _ _ _ Hf) as [_ H8].
  pose proof Hi as [[Hck Hst _] Hct Hmax Hcnt _ Hh [Hl _] Hbl]. destruct Hf as [(block & Edec & Hblk & Eenc) _ _]. unfold Write. rewrite Edec, Eenc. cbn [mbind res_bind]. rewrite Ew.
  cbn [mbind res_bind header set_compressor]. rewrite Hh, addBlock_for_v0. cbn [mbind res_bind header set_header].
  assert (∀ t s, (∃ e s', write_batches s (t ++ [batch_lengths (cur ct ++ [b])]) = (s', Some e))) as Herr.
  { induction t as [|x t IH]; intros s; cbn [app write_batches].
    - assert (zlen (batch_lengths (cur ct ++ [b])) = 2 ^ 16) as El by (unfold batch_lengths, zlen in *; rewrite length_fmap, length_app; simpl; lia).
      rewrite El, decide_True by done. eauto.
    - case_decide; [eauto|]. destruct (write_blocks _ x) as [s' [e|]]; [eauto|apply IH]. }
  unfold WriteTo. cbn [header_for DictChecksum table]. set (n0 := zlen (table_for (push ct b)) mod 2 ^ 16). rewrite (table_last (push ct b)). cbn [push past cur]. change (zlen <$> cur ct ++ [b]) with (batch_lengths (cur ct ++ [b])).
  destruct (Herr (batch_lengths <$> past ct) (ck ++ le_bytes 2 n0, 32 + 2)) as (e & [buf n] & ->).
  rewrite removeLastBlock_for_v0. cbn [mbind res_bind]. eexists _, _. split_and!; [done|done| |].
  - cbn [compressor set_header set_compressor]. destruct (cz_content _ _ _ _ Hc1) as (_ & _ & _ & -> & _). apply payload_push.
  - destruct Hbl as [[_ E0]|[Hpos Hb]].
    { exfalso. unfold blocks in E0. apply app_nil in E0 as [_ E0]. rewrite E0 in Hfull. done. }
    unfold Bytes. cbn [currentBlob currentBlobLength set_header set_compressor dictStore header compressor]. rewrite slice_Ok by lia. cbn [mbind res_bind]. rewrite drop_0, Z.sub_0_r, decide_True by lia.
    destruct (is_blob_decompress_v0 ct ck (dict bm) _ (dictStore bm) (dictStore bm) Hct Hb) as (h & raw & -> & _ & Eraw & Eeq); [apply Hst|]. cbn [mbind res_bind]. rewrite Eeq. cbn [mbind res_bind].
    rewrite Eraw. cbn [mbind res_bind]. destruct (cz_content _ _ _ _ Hc1) as (_ & _ & _ & -> & _). rewrite decide_True; [done|]. rewrite payload_push. intros E.
    apply (f_equal zlen) in E. rewrite zlen_app in E. lia.
Qed.
End facts.

(** * Theorems on v0 blobs *)

Inductive op := OpStartNewBatch | OpReset | OpWrite (rlpBlock : list Z) (forceReset : bool).

Section run.
Context `{CompressorLaws C, RlpLaws, BlockRlp, DictHash, MapRange, BitWriterSpec W, BitReaderSpec R} (getAddress : Transaction → res (list Z)).
Notation BlobMaker := (BlobMaker C).
Notation Write := (Write (R := R) getAddress).

Definition step (bm : BlobMaker) (o : op) : res (BlobMaker * bool) :=
  match o with
  | OpStartNewBatch => bm ← StartNewBatch bm; Ok (bm, false)
  | OpReset => bm ← Reset bm; Ok (bm, false)
  | OpWrite rlpBlock f => '(bm, ok, _) ← Write bm rlpBlock f; Ok (bm, ok)
  end.

(** The answers of the calls are kept. *)
Fixpoint run (bm : BlobMaker) (ops : list op) : res (BlobMaker * list bool) :=
  match ops with
  | [] => Ok (bm, [])
  | o :: ops' => '(bm, ok) ← step bm o; '(bm, oks) ← run bm ops'; Ok (bm, ok :: oks)
  end.

Definition encoded (rlpBlock : list Z) : list Z :=
  match rlp_DecodeBlock rlpBlock with
  | inl block => match EncodeBlockForCompression getAddress (Some block) with Ok (b, _) => b | Panic => [] end
  | inr _ => []
  end.

(** The specification: batches of blocks. *)
Definition spec_step (ct : content) (oo : op * bool) : content :=
  match oo.1 with
  | OpStartNewBatch => seal ct
  | OpReset => empty_content
  | OpWrite rlpBlock f => if oo.2 && negb f then push ct (encoded rlpBlock) else ct
  end.

Definition op_ok (o : op) : Prop :=
  match o with
  | OpWrite rlpBlock _ => (∃ e, rlp_DecodeBlock rlpBlock = inr e) ∨ block_fits (C := C) getAddress rlpBlock (encoded rlpBlock)
  | _ => True
  end.

Lemma step_inv_v0 bm ck ct o : inv (W := W) (R := R) bm ck ct → limit bm ≤ MaxUsableBytes → op_ok o →
  ∃ bm' ok, step bm o = Ok (bm', ok) ∧ inv (W := W) (R := R) bm' ck (spec_step ct (o, ok)) ∧ same bm bm'.
Proof.
  intros Hi Hl Ho. destruct o as [| |r f]; cbn [step].
  - destruct (StartNewBatch_ok_v0 (W := W) (R := R) bm ck ct Hi) as (bm' & -> & Hi' & Hs). cbn [mbind res_bind]. by eexists _, _.
  - destruct (Reset_ok_v0 (W := W) (R := R) bm ck ct Hi) as (bm' & -> & Hi' & Hs). cbn [mbind res_bind]. by eexists _, _.
  - destruct Ho as [[e Ee]|Hf].
    + exists bm, false. unfold Write, BlobV0.Write. rewrite Ee. done.
    + destruct (Write_ok_v0 (W := W) (R := R) bm ck ct getAddress r _ f Hi Hl Hf) as (c1 & _ & bm' & E & Hi' & Hs & _). rewrite E. cbn [mbind res_bind].
      by eexists bm', _.
Qed.

Lemma run_inv_v0 ops : ∀ bm ck ct, inv (W := W) (R := R) bm ck ct → limit bm ≤ MaxUsableBytes → Forall op_ok ops →
  ∃ bm' oks, run bm ops = Ok (bm', oks) ∧ length oks = length ops ∧ inv (W := W) (R := R) bm' ck (foldl spec_step ct (zip ops oks)) ∧ same bm bm'.
Proof.
  induction ops as [|o ops IH]; intros bm ck ct Hi Hl Ho; cbn [run]; [by exists bm, []|]. inversion_clear Ho as [|? ? Ho1 Ho2].
  destruct (step_inv_v0 bm ck ct o Hi Hl Ho1) as (bm1 & ok & -> & Hi1 & (S1 & S2 & S3)). cbn [mbind res_bind].
  destruct (IH bm1 ck _ Hi1) as (bm2 & oks & -> & El & Hi2 & (T1 & T2 & T3)); [lia|done|]. cbn [mbind res_bind]. exists bm2, (ok :: oks).
  split_and!; [done|simpl; lia|done|]. unfold same. split_and!; congruence.
Qed.

(** [forceReset] asks what [Write] answers, and the answer stays true. *)
Lemma CanWrite_v0 bm ck ct r : inv (W := W) (R := R) bm ck ct → limit bm ≤ MaxUsableBytes → block_fits (C := C) getAddress r (encoded r) →
  ∃ ok bm1 bm2, Write bm r true = Ok (bm1, ok, None) ∧ Write bm r false = Ok (bm2, ok, None) ∧
    (ok = true → ∃ bm3, Write bm1 r false = Ok (bm3, true, None)).
Proof.
  intros Hi Hl Hf. set (b := encoded r) in *.
  destruct (Write_ok_v0 (W := W) (R := R) bm ck ct getAddress r b true Hi Hl Hf) as (c1 & E1 & bm1 & Ew1 & Hi1 & (S1 & S2 & S3) & Hrev).
  destruct (Write_ok_v0 (W := W) (R := R) bm ck ct getAddress r b false Hi Hl Hf) as (c1' & E1' & bm2 & Ew2 & _ & _ & _). rewrite E1 in E1'. injection E1' as <-.
  eexists _, bm1, bm2. split_and!; [exact Ew1|exact Ew2|]. intros Hok. rewrite andb_false_r in Hi1.
  destruct (Write_ok_v0 (W := W) (R := R) bm1 ck ct getAddress r b false Hi1) as (d1 & F1 & bm3 & Ew3 & _ & _ & _); [lia|done|]. exists bm3. rewrite Ew3. do 3 f_equal.
  set (hdr := zlen (header_bytes _)) in *. set (pl := zlen (payload_of _)) in *. assert (∀ n, fits bm1 n = fits bm n) as Efit by (intros n; unfold fits; by rewrite S1).
  destruct (inv_compressor _ _ _ Hi) as [p0 Hc0]. destruct (block_fits_bytes _ _ _ Hf) as [Hbb _]. pose proof (bf_size _ _ _ Hf). pose proof (inv_max _ _ _ Hi).
  pose proof Hok as Hok0. unfold accepts in Hok |- *. apply andb_true_iff in Hok as [-> Hok]. cbn [andb]. rewrite !Efit.
  destruct (fits bm (hdr + cz_Len c1)) eqn:Ef1.
  - destruct (cz_rewrite (dict bm) (compressor bm) _ p0 b c1 (compressor bm1) Hc0 Hbb) as (c3 & F3 & E3); [lia|done|by apply Hrev; [|rewrite Hok0]|].
    rewrite F1 in F3. injection F3 as <-. by rewrite E3, Ef1.
  - cbn [orb] in Hok. apply andb_true_iff in Hok as [_ Hok]. destruct (fits bm (hdr + cz_Len d1)) eqn:Ef2; [done|]. cbn [orb]. rewrite Hok, andb_true_r.
    apply bool_decide_eq_true. unfold fits in Hok, Ef2. apply bool_decide_eq_true in Hok. apply bool_decide_eq_false in Ef2.
    apply Z.nle_gt. intros Hle. apply Ef2. pose proof (Z.div_le_mono (hdr + cz_Len d1) (hdr + (pl + cz_HeaderSize)) 31). lia.
Qed.
End run.

Section theorems.
Context `{SuffixSort, !SuffixSortLaws, BitWriterSpec W, BitReaderSpec R, RlpLaws, BlockRlp, DictHash, MapRange} (getAddress : Transaction → res (list Z)).
#[local] Existing Instance LzssOps.
Notation Compressor := (Compressor W).

(** C13. The v0 blob maker with the repository's own compressor refines a list of
    batches of blocks. For a maker with a limit up to the 131072 usable bytes of a
    blob, and any sequence of StartNewBatch, Reset and Write calls on blocks of up to
    1.3MB: no call panics; Bytes does not panic on its sanity checks and returns a
    blob of [Len] bytes, at most the limit; with any store that finds the dictionary,
    DecompressBlob of that blob gives the blocks accepted since the last Reset, in
    order; and Write(block, true) answers what Write(block, false) would, and what it
    answers next. *)
Theorem BlobMaker_v0_refines_batches lim file (bm : BlobMaker Compressor) ops :
  (∀ l, Forall is_byte (ChecksumPaddedBytes l) ∧ length (ChecksumPaddedBytes l) = 32%nat) → lim ≤ MaxUsableBytes →
  NewBlobMaker (W := W) (R := R) lim file = Ok (Some bm, None) → Forall (op_ok (C := Compressor) getAddress) ops →
  ∃ bm' oks blob, run (R := R) getAddress bm ops = Ok (bm', oks) ∧ length oks = length ops ∧
    Bytes (W := W) (R := R) bm' = Ok (bm', blob) ∧ Len bm' = zlen blob ∧ zlen blob ≤ Z.max 0 lim ∧
    let ct := foldl (spec_step getAddress) empty_content (zip ops oks) in
    (blocks ct = [] ↔ blob = []) ∧
    (blocks ct ≠ [] → ∀ s s', Get (W := W) (R := R) 1 s (ChecksumPaddedBytes (AugmentDict file.1)) 0 = Ok (s', AugmentDict file.1, None) →
      ∃ h raw, DecompressBlob (C := Compressor) (W := W) (R := R) blob s = Ok (Some h, raw, blocks ct, None, s')) ∧
    (∀ r, block_fits (C := Compressor) getAddress r (encoded getAddress r) → ∃ ok bm1 bm2,
      Write (R := R) getAddress bm' r true = Ok (bm1, ok, None) ∧ Write (R := R) getAddress bm' r false = Ok (bm2, ok, None) ∧
      (ok = true → ∃ bm3, Write (R := R) getAddress bm1 r false = Ok (bm3, true, None))).
Proof.
  intros H32 Hlim Enew Hops. destruct (New_ok_v0 (W := W) (R := R) lim file bm H32) as (Hi & El & Ed); [unfold maxOutputSize, MaxUsableBytes in *; lia|done|]. cbn [cz_AugmentDict LzssOps] in *.
  destruct (run_inv_v0 (W := W) (R := R) getAddress ops bm _ empty_content Hi) as (bm' & oks & Erun & Elen & Hi' & (E1 & E2 & E3)); [lia|done|]. set (ct := foldl _ _ _) in *.
  destruct (inv_Bytes_v0 (W := W) (R := R) bm' _ ct Hi') as (blob & Eb & Ezl & Hb). exists bm', oks, blob. split_and!; [done|done|done|done| | | |].
  - destruct Hb as [[_ ->]|[[Hb _] _]]; [unfold zlen; simpl; lia|lia].
  - destruct Hb as [[Hb ->]|[[Hb Hne] _]]; [done|]. split; [done|]. intros ->. unfold zlen in Hb. simpl in Hb. lia.
  - intros Hne s s' Hget. destruct Hb as [[? _]|[_ Hb]]; [done|]. rewrite E2, Ed in Hb.
    destruct (is_blob_decompress_v0 (W := W) (R := R) ct _ _ blob s s' (inv_content _ _ _ Hi') Hb Hget) as (h & raw & E & _). eauto.
  - intros r Hr. apply (CanWrite_v0 (W := W) (R := R) getAddress bm' _ ct r Hi'); [lia|done].
Qed.
End theorems.
