(* ===== verification/Blob.v ===== *)
(** * Decompressing a blob of any version

    Models src/prover/lib/compressor/blob/blob.go and the conversions of
    src/prover/lib/compressor/blob/encode/encode.go: the version is read off the first
    bytes of the blob, the blob is decompressed by the code of its version, and every
    block is turned into a block of the standard format, with the sender of each
    transaction in the signature. The serialization of blocks is go-ethereum's. *)

From S2P Require Export LzssApi BlobV0Facts BlobV1Facts.

Definition GetVersion (blob : list Z) : Z :=
  match blob with
  | b0 :: b1 :: b2 :: _ => if decide (b0 = 0x3f ∧ b1 = 0xff) then (4 - Z.shiftr b2 6) mod 2 ^ 16 else 0
  | _ => 0
  end.

(** ** Standard blocks *)

(** A [types.Transaction] made by [types.NewTx], with the signature values that the
    code sets. *)
Record StdTx := { std_inner : TxData; std_R : Z; std_S : Z }.

(** A [types.Block] made by [types.NewBlock] with the other fields zero. *)
Record StdBlock := { std_ParentHash : list Z; std_Time : Z; std_Transactions : list StdTx }.

Definition InjectFromAddressIntoR (txData : option TxData) (from : list Z) : res StdTx :=
  match txData with
  | Some (DynamicFeeTx _ _ _ _ _ _ _ _ _ as tx) | Some (AccessListTx _ _ _ _ _ _ _ _ as tx)
  | Some (LegacyTx _ _ _ _ _ _ as tx) | Some (SetCodeTx _ _ _ _ _ _ _ _ _ _ as tx) =>
      Ok {| std_inner := tx; std_R := be_val from; std_S := 1 |}
  | Some BlobTx | None => Panic
  end.

Definition ToStd (d : DecodedBlockData) : res StdBlock :=
  txs ← mapR (λ i, tx ← idx (Txs d) i; from ← idx (Froms d) i; InjectFromAddressIntoR tx from) (seqZ 0 (zlen (Txs d)));
  Ok {| std_ParentHash := BlockHash d; std_Time := Timestamp d; std_Transactions := txs |}.

(** [big.Int.FillBytes] panics when the value does not fit. *)
Definition GetAddressFromR (tx : StdTx) : res (list Z) :=
  if decide (0 ≤ std_R tx < 256 ^ 20) then Ok (be_bytes 20 (std_R tx)) else Panic.

(** [rlp.EncodeToBytes] of a block. *)
Class StdRlp := { rlp_EncodeBlock : StdBlock → list Z + string }.

Section blob.
Context `{SuffixSort, CompressorOps C, Rlp, StdRlp, DictHash, MapRange, BitWriter W, BitReader R}.

(** The loop over the blocks. *)
Fixpoint serialize (blockDecoder : Reader → res ((DecodedBlockData * gerr) * Reader)) (blocks : list (list Z)) (acc : list (list Z)) : res (list (list Z) * gerr) :=
  match blocks with
  | [] => Ok (acc, None)
  | block :: blocks' =>
      '((d, err), _) ← blockDecoder (NewBytesReader block);
      match err with Some e => Ok (acc, Some e) | None =>
      b ← ToStd d;
      match rlp_EncodeBlock b with
      | inr e => Ok (acc, Some e)
      | inl x => serialize blockDecoder blocks' (acc ++ [x])
      end end
  end.

(** [DecompressBlob]; the v0 code uses the repository's own compressor. *)
Definition DecompressBlob (blob : list Z) (s : Store) : res (list Z * gerr * Store) :=
  let vsn := GetVersion blob in
  let finish blockDecoder '(blocks, err, s) :=
    match err with
    | Some e => Ok ([], Some e, s)
    | None =>
        '(l, err) ← serialize blockDecoder blocks [];
        match err with
        | Some e => Ok ([], Some e, s)
        | None => Ok (rlp_Encode (IList (IBytes <$> l)), None, s)
        end
    end in
  if decide (vsn = 0) then
    '(_, _, blocks, err, s) ← BlobV0.DecompressBlob (C := Lzss.Compressor W) (H := LzssOps (R := R)) (W := W) (R := R) blob s;
    finish BlockEncodeV0.DecodeBlockFromUncompressed (blocks, err, s)
  else if decide (vsn = 1) then
    '(r, err, s) ← BlobV1.DecompressBlob (C := C) (W := W) (R := R) blob s;
    finish BlockEncode.DecodeBlockFromUncompressed (resp_Blocks r, err, s)
  else if decide (vsn = 2) then
    '(r, err, s) ← DecompressBlobVersioned (C := C) (W := W) (R := R) 2 blob s;
    finish BlockEncode.DecodeBlockFromUncompressed (resp_Blocks r, err, s)
  else Ok ([], Some "unrecognized blob version"%string, s).
End blob.

(** * Theorems on decompressing blobs *)

(** ** The version *)

(** The first three bytes of a 62-bit word. *)
Lemma be_bytes_top x : 0 ≤ x < 2 ^ 64 → ∃ l, be_bytes 8 x = x / 2 ^ 56 :: (x / 2 ^ 48) mod 256 :: (x / 2 ^ 40) mod 256 :: l.
Proof.
  intros Hx. assert (∀ m n y, be_bytes (n + m) y = be_bytes m (y / 256 ^ Z.of_nat n) ++ be_bytes n y) as Hsplit.
  { intros m n. induction n as [|n IH]; intros y; [change (256 ^ Z.of_nat 0) with 1; by rewrite Z.div_1_r, app_nil_r|].
    rewrite Nat2Z.inj_succ, Z.pow_succ_r by lia. change (be_bytes (S n + m) y) with (be_bytes (n + m) (y / 256) ++ [y mod 256]).
    rewrite IH, <-(assoc_L (++)), Z.div_div by lia. done. }
  exists (be_bytes 5 x). change 8%nat with (5 + 3)%nat. rewrite Hsplit. change (256 ^ Z.of_nat 5) with (2 ^ 40).
  assert (be_bytes 3 (x / 2 ^ 40) = [(x / 2 ^ 40 / 256 / 256) mod 256; (x / 2 ^ 40 / 256) mod 256; (x / 2 ^ 40) mod 256]) as -> by done.
  rewrite !Z.div_div by lia. rewrite (Z.mod_small (x / _)); [done|]. split; [apply Z.div_pos; lia|apply Z.div_lt_upper_bound; lia].
Qed.

Lemma version_word v lo : 1 ≤ v ≤ 4 → 0 ≤ lo < 2 ^ 46 → ∀ l,
  GetVersion (be_bytes 8 ((2 ^ 16 - v) * 2 ^ 46 + lo) ++ l) = v.
Proof.
  intros Hv Hlo l. set (x := (2 ^ 16 - v) * 2 ^ 46 + lo). assert (x / 2 ^ 46 = 2 ^ 16 - v) as E46 by (symmetry; apply (Z.div_unique _ _ _ lo); unfold x; lia).
  destruct (be_bytes_top x) as [r ->]; [unfold x; lia|]. cbn [app GetVersion].
  assert (x / 2 ^ 56 = 63) as -> by (symmetry; apply (Z.div_unique _ _ _ (x - 63 * 2 ^ 56)); unfold x; lia).
  assert (x / 2 ^ 48 = 16383) as -> by (symmetry; apply (Z.div_unique _ _ _ (x - 16383 * 2 ^ 48)); unfold x; lia). rewrite decide_True by done.
  rewrite Z.shiftr_div_pow2 by lia. assert ((x / 2 ^ 40) mod 256 / 2 ^ 6 = 4 - v) as ->; [|rewrite Z.mod_small; lia].
  assert (x / 2 ^ 40 / 2 ^ 6 = 2 ^ 16 - v) as E40 by (rewrite Z.div_div by lia; exact E46). set (y := x / 2 ^ 40) in *.
  pose proof (Z.div_mod y 64 ltac:(lia)). pose proof (Z.mod_pos_bound y 64 ltac:(lia)). change (2 ^ 6) with 64 in *.
  assert (y mod 256 = 64 * (4 - v) + y mod 64) as -> by (symmetry; apply (Z.mod_unique _ _ (2 ^ 14 - 1)); lia). symmetry. apply (Z.div_unique _ _ _ (y mod 64)); lia.
Qed.

Lemma version_bytes v : 1 ≤ v ≤ 4 → be_bytes 2 ((- v) mod 2 ^ 16) = [255; 256 - v].
Proof.
  intros Hv. destruct (decide (v = 1)) as [->|]; [done|]. destruct (decide (v = 2)) as [->|]; [done|]. destruct (decide (v = 3)) as [->|]; [done|].
  by replace v with 4 by lia.
Qed.

Section version.
Context `{BitWriterSpec W, BitReaderSpec R}.

(** The version is read off a packed header. *)
Lemma GetVersion_packed h z blob n : header_ok h → 1 ≤ hdVersion h ≤ 4 → Forall is_byte z →
  Pack.PackAlign (R := R) (header_bytes h) PackingSizeU256 [WithAdditionalInput [z]] = Ok (blob, n, None) → GetVersion blob = hdVersion h.
Proof.
  intros Hh Hv Hz E. destruct (PackAlign_unpack (W := W) (R := R) (header_bytes h) PackingSizeU256 [WithAdditionalInput [z]] good_254) as (k & y & Hk & Hfit & Hlt & E' & _).
  { split; cbn; [split; [by apply header_bytes_ok|by apply Forall_singleton]|lia|by right|by left]. } { done. }
  set (s := initialize _ _) in *. set (rest := _ ++ padding_of s y) in *. rewrite E in E'.
  match type of E' with _ = Ok (?o, _, _) => assert (blob = o) as -> by congruence end. clear E E'.
  pose proof (zlen_nonneg (packed_bytes (header_bytes h) s)). unfold PackingSizeU256 in *. assert (1 ≤ k) as Hk1 by lia.
  assert (rest = 255 :: (256 - hdVersion h) :: (DictChecksum h ++ be_bytes 2 (zlen (sealed h)) ++ concat (be_bytes 3 <$> sealed h)) ++ z ++ padding_of s y) as Er.
  { unfold rest, packed_bytes. assert (concat (additionalInput s) = z) as -> by apply app_nil_r. unfold header_bytes. rewrite version_bytes by done.
    rewrite <-!(assoc_L (++)). done. }
  set (tl := (DictChecksum h ++ _) ++ _) in Er.
  assert (all_widths 254 k = 62 :: 64 :: 64 :: 64 :: all_widths 254 (k - 1)) as ->.
  { rewrite (all_widths_split 254 k 0) by lia. unfold all_widths at 1. simpl (Z.to_nat 0). cbn [replicate concat app]. by rewrite Z.sub_0_r. }
  cbn [words_of]. fold rest. rewrite Er, !bytes_bits_cons. change (Z.to_nat 62) with 62%nat.
  rewrite take_app, to_bits_length, take_ge by (rewrite to_bits_length; lia). rewrite take_app, to_bits_length, take_ge by (rewrite to_bits_length; lia).
  assert (length (take (62 - 8 - 8) (bytes_bits tl)) = 46%nat) as Hl.
  { rewrite length_take, bytes_bits_length. assert (32 ≤ length tl)%nat; [|lia]. unfold tl. rewrite !length_app. destruct Hh as [[_ ->] _ _ _]. lia. }
  rewrite !of_bits_app, length_app, !to_bits_length, Hl. pose proof (of_bits_bound (take (62 - 8 - 8) (bytes_bits tl))) as Hb. rewrite Hl in Hb.
  set (lo := of_bits (take (62 - 8 - 8) (bytes_bits tl))) in *. rewrite !of_bits_to_bits, !Z.mod_small by (cbn; lia).
  replace (255 * 2 ^ Z.of_nat (8 + 46) + ((256 - hdVersion h) * 2 ^ Z.of_nat 46 + lo)) with ((2 ^ 16 - hdVersion h) * 2 ^ 46 + lo) by (cbn; lia).
  apply version_word; [done|exact Hb].
Qed.
End version.

(** ** Standard blocks *)

(** What a block of the chain becomes: the hash goes to the parent's, the timestamp is
    kept modulo 2^32, the sender is in the signature. *)
Definition std_tx (tx : Transaction) : StdTx :=
  {| std_inner := tx_inner tx; std_R := be_val (default [] (tx_sender tx)); std_S := 1 |}.

Definition std_block (bl : Block) : StdBlock :=
  {| std_ParentHash := bl_Hash bl; std_Time := bl_Time bl mod 2 ^ 32;
     std_Transactions := std_tx <$> omap id (default [] (bl_Transactions bl)) |}.

Lemma be_val_inj_bytes l : Forall is_byte l → be_bytes (length l) (be_val l) = l.
Proof.
  induction l as [|b l IH] using rev_ind; intros Hl; [done|]. apply Forall_app in Hl as [Hl Hb]. rewrite Forall_singleton in Hb. unfold is_byte in Hb.
  rewrite length_app, Nat.add_comm. cbn [length Nat.add]. change (be_bytes (S (length l)) (be_val (l ++ [b]))) with (be_bytes (length l) (be_val (l ++ [b]) / 256) ++ [be_val (l ++ [b]) mod 256]).
  assert (be_val (l ++ [b]) = 256 * be_val l + b) as -> by (unfold be_val; rewrite foldl_app; simpl; lia).
  assert ((256 * be_val l + b) / 256 = be_val l) as -> by (symmetry; apply (Z.div_unique _ _ _ b); lia).
  assert ((256 * be_val l + b) mod 256 = b) as -> by (symmetry; apply (Z.mod_unique _ _ (be_val l)); lia). by rewrite IH.
Qed.

Lemma be_val_range l : Forall is_byte l → 0 ≤ be_val l < 256 ^ zlen l.
Proof.
  induction l as [|b l IH] using rev_ind; intros Hl; [done|]. apply Forall_app in Hl as [Hl Hb]. rewrite Forall_singleton in Hb. unfold is_byte in Hb.
  assert (be_val (l ++ [b]) = 256 * be_val l + b) as -> by (unfold be_val; rewrite foldl_app; simpl; lia). specialize (IH Hl).
  rewrite zlen_app. change (zlen [b]) with 1. rewrite Z.pow_add_r by (pose proof (zlen_nonneg l); lia). lia.
Qed.

(** The sender put into the signature is read back. *)
Lemma GetAddressFromR_std tx : tx_ok tx → GetAddressFromR (std_tx tx) = GetFrom tx.
Proof.
  intros (_ & _ & a & Ea & Hb & Hl). unfold GetAddressFromR, GetFrom, std_tx. rewrite Ea. simpl. pose proof (be_val_range a Hb) as Hr. unfold zlen in Hr. rewrite Hl in Hr.
  rewrite decide_True by done. f_equal. rewrite <-Hl. by apply be_val_inj_bytes.
Qed.

Lemma mapR_seqZ {A B} (f : Z → res B) (g : A → B) l : (∀ (i : nat) x, l !! i = Some x → f (Z.of_nat i) = Ok (g x)) →
  mapR f (seqZ 0 (Z.of_nat (length l))) = Ok (g <$> l).
Proof.
  induction l as [|x l IH] using rev_ind; intros Hf; [done|]. rewrite length_app, Nat2Z.inj_add. change (Z.of_nat (length [x])) with 1.
  rewrite seqZ_app, mapR_app, IH by (lia || (intros i y Hi; apply Hf; by apply lookup_app_l_Some)). cbn [mbind res_bind]. rewrite Z.add_0_l.
  change (seqZ (Z.of_nat (length l)) 1) with [Z.of_nat 0 + Z.of_nat (length l)]. cbn [mapR]. rewrite Z.add_0_l, (Hf (length l) x), fmap_app; [done|].
  by rewrite lookup_app_r, Nat.sub_diag by lia.
Qed.

Lemma ToStd_spec d bl txs : BlockHash d = bl_Hash bl → Timestamp d = bl_Time bl mod 2 ^ 32 → bl_Transactions bl = Some (Some <$> txs) →
  Some <$> Froms d = tx_sender <$> txs → Txs d = (λ tx, Some (tx_inner tx)) <$> txs → Forall (λ tx, data_ok (tx_inner tx)) txs → ToStd d = Ok (std_block bl).
Proof.
  intros E1 E2 E3 E4 E5 Hd. unfold ToStd, std_block. rewrite E1, E2, E3. cbn [default from_option id].
  rewrite E5. match goal with |- context [mapR ?f' _] => set (f := f') end.
  cut (mapR f (seqZ 0 (zlen ((λ tx, Some (tx_inner tx)) <$> txs))) = Ok (std_tx <$> txs)).
  { intros ->. cbn [mbind res_bind]. do 2 f_equal. clear. induction txs as [|tx l IH]; [done|]. rewrite !fmap_cons. cbn. by rewrite <-IH. }
  unfold zlen. rewrite length_fmap. apply mapR_seqZ.
  intros i tx Hi. unfold f. rewrite (idx_nat _ (Z.of_nat i) (Some (tx_inner tx))) by (lia || by rewrite Nat2Z.id, list_lookup_fmap, Hi). cbn [mbind res_bind].
  assert ((Some <$> Froms d) !! i = (tx_sender <$> txs) !! i) as Ei by by rewrite E4. rewrite !list_lookup_fmap, Hi in Ei. cbn in Ei.
  destruct (Froms d !! i) as [a|] eqn:Ea; [|done]. cbn in Ei. injection Ei as Ei. rewrite (idx_nat _ (Z.of_nat i) a) by (lia || by rewrite Nat2Z.id). cbn [mbind res_bind].
  apply Forall_lookup_1 with (i := i) (x := tx) in Hd; [|done]. unfold InjectFromAddressIntoR, std_tx. rewrite <-Ei. cbn. by destruct (tx_inner tx).
Qed.

(** ** From blocks to blob to standard blocks *)

(** The RLP blocks that a maker holds after a call, as the caller sees it. *)
Definition accepted_step (acc : list (list Z)) (oo : op * bool) : list (list Z) :=
  match oo.1 with
  | OpStartNewBatch => acc
  | OpReset => []
  | OpWrite rlpBlock f => if oo.2 && negb f then acc ++ [rlpBlock] else acc
  end.

Section theorems.
Context `{SuffixSort, CompressorLaws C, RlpLaws, BlockRlp, StdRlp, DictHashLaws, MapRange, BitWriterSpec W, BitReaderSpec R}.
Notation BlobMaker := (BlobV1.BlobMaker C).

(** The serialization of the standard form of an RLP block. *)
Definition serialized (r x : list Z) : Prop :=
  ∃ bl, rlp_DecodeBlock r = inl bl ∧ rlp_EncodeBlock (std_block bl) = inl x.

Lemma Forall_zip_fst {A B} (P : A → Prop) (l : list A) (k : list B) : Forall P l → Forall (λ p, P p.1) (zip l k).
Proof. intros Hl. revert k. induction Hl; intros [|? ?]; constructor; auto. Qed.

Lemma serialize_encoded rs xs acc : Forall (λ r, block_fits (C := C) r (encoded r)) rs → Forall2 serialized rs xs →
  serialize BlockEncode.DecodeBlockFromUncompressed (encoded <$> rs) acc = Ok (acc ++ xs, None).
Proof.
  intros Hrs Hx. revert acc. induction Hx as [|r x rs xs (bl & Ed & Ex) _ IH]; intros acc; [by rewrite app_nil_r|]. apply Forall_cons in Hrs as [Hr Hrs].
  rewrite fmap_cons. cbn [serialize]. destruct Hr as [(bl' & Ed' & Hok & Ee) Hs1 Hs2]. rewrite Ed in Ed'. injection Ed' as <-. unfold MaxUncompressedBytes in Hs1.
  assert (zlen (encoded r) < 2 ^ 62) as Hl by lia. pose proof (at_bytes_new (encoded r)) as Hat. rewrite <-(app_nil_r (encoded r)) in Hat at 2.
  destruct (DecodeBlock_spec bl _ [] (NewBytesReader (encoded r)) Hok Ee Hl Hat) as (d & -> & E1 & E2 & txs & E3 & E4 & E5). cbn [mbind res_bind].
  destruct (bok_txs _ Hok) as (txs' & E3' & Htx & _). rewrite E3 in E3'. injection E3' as E3'. apply list_fmap_eq_inj in E3' as <-; [|congruence].
  rewrite (ToStd_spec d bl txs E1 E2 E3 E4 E5) by (eapply Forall_impl; [exact Htx|by intros ? []]). cbn [mbind res_bind]. rewrite Ex, IH by done. by rewrite <-(assoc_L (++)).
Qed.

Lemma accepted_blocks (l : list (op * bool)) ct acc : Forall (λ oo, op_ok (C := C) oo.1) l → (∀ r f, (OpWrite r f, true) ∈ l → ∃ bl, rlp_DecodeBlock r = inl bl) →
  blocks ct = encoded <$> acc → Forall (λ r, block_fits (C := C) r (encoded r)) acc →
  blocks (foldl spec_step ct l) = encoded <$> foldl accepted_step acc l ∧ Forall (λ r, block_fits (C := C) r (encoded r)) (foldl accepted_step acc l).
Proof.
  revert ct acc. induction l as [|[o ok] l IH]; intros ct acc Hl Hd Eb Ha; [done|]. apply Forall_cons in Hl as [Ho Hl]. cbn [foldl].
  apply IH; [done|intros r f Hin; apply (Hd r f); by right| |]; unfold spec_step, accepted_step; destruct o as [| |r f]; cbn [fst snd]; try done.
  - by rewrite blocks_seal.
  - destruct (ok && negb f); [|done]. by rewrite blocks_push, fmap_app, Eb.
  - destruct (ok && negb f) eqn:E; [|done]. apply andb_true_iff in E as [-> _]. apply Forall_app. split; [done|]. rewrite Forall_singleton.
    destruct (Hd r f) as [bl Ebl]; [by left|]. destruct Ho as [[e Ee]|Hf]; [congruence|done].
Qed.

(** A call that answers true was given a block that decodes. *)
Lemma run_true ops : ∀ (bm bm' : BlobMaker) oks, run (R := R) bm ops = Ok (bm', oks) →
  ∀ r f, (OpWrite r f, true) ∈ zip ops oks → ∃ bl, rlp_DecodeBlock r = inl bl.
Proof.
  induction ops as [|o ops IH]; intros bm bm' oks; cbn [run]; [intros [= _ <-] r f Hin; by inversion Hin|].
  destruct (step bm o) as [[bm1 ok]|] eqn:Es; [|done]. cbn [mbind res_bind]. destruct (run bm1 ops) as [[bm2 oks']|] eqn:Er; [|done]. cbn [mbind res_bind].
  intros [= <- <-] r f. cbn [zip zip_with]. intros [E|Hin]%elem_of_cons; [|by eapply IH]. injection E as <- <-.
  cbn [step] in Es. unfold BlobV1.Write in Es. destruct (rlp_DecodeBlock r) as [bl|e]; [by exists bl|]. cbn [mbind res_bind] in Es. congruence.
Qed.

(** C11. Blocks go through a blob unchanged. Take a v1 or v2 maker and any sequence of
    calls, and let rs be the RLP blocks accepted since the last Reset. If rs is not
    empty, the version is read back off the blob, and the decompressor, with any store
    that finds the dictionary, returns the RLP list of the standard forms of rs: same
    hash (as parent), same transactions in order, timestamp modulo 2^32, and a
    signature from which the sender of each transaction is read back. *)
Theorem blob_roundtrip v lim file (bm : BlobMaker) ops :
  v = 1 ∨ v = 2 → lim ≤ maxOutputSize → NewVersionedBlobMaker (W := W) (R := R) v lim file = Ok (Some bm, None) → Forall (op_ok (C := C)) ops →
  ∃ bm' oks blob ck, run (R := R) bm ops = Ok (bm', oks) ∧ Bytes (W := W) (R := R) bm' = Ok (bm', blob) ∧
    Checksum (W := W) (R := R) (cz_AugmentDict file.1) v = Ok (ck, None) ∧
    let rs := foldl accepted_step [] (zip ops oks) in
    (rs ≠ [] → GetVersion blob = v ∧
      ∀ s s' xs, Get (W := W) (R := R) 1 s ck v = Ok (s', cz_AugmentDict file.1, None) → Forall2 serialized rs xs →
        Blob.DecompressBlob (C := C) (W := W) (R := R) blob s = Ok (rlp_Encode (IList (IBytes <$> xs)), None, s')) ∧
    Forall (λ r, ∀ bl tx, rlp_DecodeBlock r = inl bl → Some tx ∈ default [] (bl_Transactions bl) → GetAddressFromR (std_tx tx) = GetFrom tx) rs.
Proof.
  intros Hv Hlim Enew Hops. destruct (New_ok (W := W) (R := R) v lim file bm ltac:(lia) Hlim Enew) as (ck & Eck & Hi & Ev & El & Ed).
  destruct (run_inv ops bm ck empty_content Hi Hops) as (bm' & oks & Erun & Elen & Hi' & (E1 & E2 & _ & E4)).
  destruct (accepted_blocks (zip ops oks) empty_content []) as [Ebl Hfit]; [by apply Forall_zip_fst|by eapply run_true|done|constructor|].
  set (ct := foldl spec_step _ _) in *. set (rs := foldl accepted_step _ _) in *.
  destruct (inv_Bytes (W := W) (R := R) bm' ck ct Hi') as (blob & Eb & Ezl & Hb). exists bm', oks, blob, ck. cbv zeta; fold rs. split_and!; [done|done|by rewrite <-Ed| |].
  - intros Hne. destruct Hb as [[Hnil _]|[_ Hb]]; [rewrite Ebl in Hnil; by apply fmap_nil_inv in Hnil|]. rewrite E2, E4, Ev, Ed in Hb.
    destruct (inv_setup _ _ _ Hi') as [[Hcb Hcl] _ _ _]. pose proof (inv_content _ _ _ Hi') as Hct.
    assert (GetVersion blob = v) as Evsn.
    { pose proof Hb as (z & Hz & Epack & _). apply (GetVersion_packed (W := W) (R := R) (header_for ct ck v) z blob (zlen blob)); [apply header_for_ok; done || lia|cbn; lia|done|done]. }
    split; [done|]. intros s s' xs Hget Hxs. pose proof (is_blob_decompress (W := W) (R := R) ct ck v _ blob s s' Hct Hcb Hcl ltac:(lia) Hb Hget) as Edec.
    unfold Blob.DecompressBlob. rewrite Evsn, decide_False by lia.
    destruct Hv as [-> | ->]; cbn [decide decide_rel]; unfold BlobV1.DecompressBlob; rewrite Edec; cbn [mbind res_bind resp_Blocks]; rewrite Ebl, (serialize_encoded rs xs []) by done; done.
  - eapply Forall_impl; [exact Hfit|]. intros r [(bl & Ebd & Hok & _) _ _] bl' tx Ebl' Hin. rewrite Ebd in Ebl'. injection Ebl' as <-.
    destruct (bok_txs _ Hok) as (txs & Etxs & Htx & _). rewrite Etxs in Hin. cbn in Hin. apply list_elem_of_fmap in Hin as (tx' & [= <-] & Hin).
    apply GetAddressFromR_std. by eapply Forall_forall in Htx.
Qed.
End theorems.
