(* ===== verification/BlobWitnesses.v ===== *)
(** * The blob makers on a small example

    The theorems on blobs of all versions hold of running code: the list
    implementation of the bit streams, suffixes sorted by merging, the plain RLP codec
    and the repository's compressor, with a dictionary of a few bytes and a block with
    one transaction. *)

From S2P Require Export Blob.

Module BlobDemo.

#[export] Instance DemoHash : DictHash := {
  mimc_Sum l := zero_bytes 31 ++ [foldl Z.add 0 l mod 256];
  poseidon2_Sum l := zero_bytes 31 ++ [foldl Z.add 1 l mod 256];
  ChecksumPaddedBytes l := zero_bytes 31 ++ [foldl Z.add 2 l mod 256] }.

#[export] Instance DemoHashLaws : DictHashLaws.
Proof.
  assert (∀ x, Forall is_byte (zero_bytes 31 ++ [x mod 256]) ∧ length (zero_bytes 31 ++ [x mod 256]) = 32%nat) as Hx; [|by split; intros l; simpl; apply Hx].
  intros x. split; [|done]. apply Forall_app. split; [by apply Forall_replicate|]. rewrite Forall_singleton. apply Z.mod_pos_bound. lia.
Qed.

#[export] Instance DemoRange : MapRange := { range m := (map_to_list m).*2 }.

Definition tx : Transaction := {| tx_inner := LegacyTx 3 7 21000 (Some (replicate 20 9)) 1000 [1; 2; 3; 4; 5; 6]; tx_Protected := true; tx_legacyChainId := 59144;
  tx_sender := Some (replicate 20 4) |}.
Definition block : Block := {| bl_Time := 2 ^ 32 + 5; bl_Transactions := Some [Some tx; Some tx]; bl_Hash := replicate 32 8 |}.

(** One serialized block; nothing else decodes. *)
#[export] Instance DemoBlockRlp : BlockRlp := {
  rlp_DecodeBlock b := if decide (b = [1]) then inl block else inr "rlp"%string;
  rlp_DecodeTx b := if decide (b = [2]) then inl tx else inr "rlp"%string }.

#[export] Instance DemoStdRlp : StdRlp := { rlp_EncodeBlock b := inl (std_ParentHash b ++ [std_Time b]) }.

Definition dictionary : list Z * gerr := ([7; 7; 3; 9; 1; 2; 3; 4], None).
Definition script : list op := [OpWrite [1] true; OpWrite [1] false; OpStartNewBatch; OpWrite [0] false; OpWrite [1] false].
End BlobDemo.

Section witnesses.
Import ListBits MergeSuffixes PlainRlp BlobDemo.
Notation W := cache.
Notation R := (list bool * gerr)%type.
Notation C := (Lzss.Compressor cache).
#[local] Instance DemoOps : CompressorOps C := LzssOps (R := R).

Lemma demo_tx_ok : tx_ok tx.
Proof.
  assert (∀ b, 0 ≤ b < 256 → is_address (replicate 20 b)) as Ha by (intros b Hb; split; [by apply Forall_replicate|done]).
  split; [|split; [done|exists (replicate 20 4); split; [done|by apply Ha]]]. unfold data_ok, tx, tx_inner, is_word. split_and!; try done; [by apply Ha|].
  by apply (bool_decide_unpack _); vm_compute.
Qed.

Lemma demo_block_ok : block_ok block.
Proof. split; [split; [by apply (bool_decide_unpack _); vm_compute|done]|]. exists [tx; tx]. split_and!; [done|repeat constructor; apply demo_tx_ok|done]. Qed.

Lemma demo_fits : block_fits (C := C) [1] (encoded [1]).
Proof. split; [|by vm_compute|by vm_compute]. exists block. split_and!; [done|apply demo_block_ok|by vm_compute]. Qed.

Lemma demo_ops : Forall (op_ok (C := C)) script.
Proof. repeat (apply Forall_cons; split; [first [exact I|by right; exact demo_fits|left; by eexists]|]). constructor. Qed.


Lemma CanWrite_then_Write_witness :
  ∃ (bm bm0 : BlobV1.BlobMaker C) oks ok bm1, NewVersionedBlobMaker (W := W) (R := R) 2 4000 dictionary = Ok (Some bm, None) ∧
    run (R := R) bm script = Ok (bm0, oks) ∧ BlobV1.Write (R := R) bm0 [1] true = Ok (bm1, ok, None).
Proof.
  eexists _, _, _. edestruct (CanWrite_then_Write (C := C) (W := W) (R := R) 2 4000 dictionary) as (ok & bm1 & _ & Ew & _);
    [lia|by vm_compute|vm_compute; reflexivity|exact demo_ops|vm_compute; reflexivity|exact demo_fits|].
  exists ok, bm1. split_and!; [vm_compute; reflexivity|vm_compute; reflexivity|exact Ew].
Defined.


Lemma blob_roundtrip_witness :
  ∃ (bm bm' : BlobV1.BlobMaker C) oks blob, NewVersionedBlobMaker (W := W) (R := R) 1 4000 dictionary = Ok (Some bm, None) ∧
    run (R := R) bm script = Ok (bm', oks) ∧ Bytes (W := W) (R := R) bm' = Ok (bm', blob) ∧ oks = [true; true; false; false; true] ∧ GetVersion blob = 1.
Proof.
  eexists. edestruct (blob_roundtrip (C := C) (W := W) (R := R) 1 4000 dictionary) as (bm' & oks & blob & ck & Erun & Eb & _ & Hv & _);
    [by left|by vm_compute|vm_compute; reflexivity|exact demo_ops|].
  exists bm', oks, blob. assert (oks = [true; true; false; false; true]) as -> by (vm_compute in Erun; congruence).
  split_and!; [vm_compute; reflexivity|exact Erun|exact Eb|done|]. by apply Hv.
Defined.

Definition script_v0 : list BlobV0Facts.op := [BlobV0Facts.OpWrite [1] true; BlobV0Facts.OpStartNewBatch; BlobV0Facts.OpWrite [0] false; BlobV0Facts.OpWrite [1] false].

Lemma demo_fits_v0 : BlobV0Facts.block_fits (C := C) GetFrom [1] (BlobV0Facts.encoded GetFrom [1]).
Proof.
  split; [|by vm_compute|by vm_compute]. exists block. split_and!; [done| |by vm_compute]. split; [by vm_compute|]. exists [tx; tx]. split; [done|].
  assert (data_ok (tx_inner tx) ∧ supported_v0 (tx_inner tx) = true ∧ ∃ a, GetFrom tx = Ok a ∧ is_address a) by (destruct demo_tx_ok as (? & _ & a & Ea & ?); unfold GetFrom; rewrite Ea; eauto).
  by repeat apply Forall_cons_2; [| |constructor].
Qed.

Lemma BlobMaker_v0_refines_batches_witness :
  ∃ (bm bm' : BlobV0.BlobMaker C) oks blob, BlobV0.NewBlobMaker (W := W) (R := R) 4000 dictionary = Ok (Some bm, None) ∧
    BlobV0Facts.run (R := R) GetFrom bm script_v0 = Ok (bm', oks) ∧ BlobV0.Bytes (W := W) (R := R) bm' = Ok (bm', blob) ∧ zlen blob ≤ 4000.
Proof.
  eexists. edestruct (BlobMaker_v0_refines_batches (W := W) (R := R) GetFrom 4000 dictionary) as (bm' & oks & blob & Erun & _ & Eb & _ & Hl & _);
    [exact padded_32|by vm_compute|vm_compute; reflexivity| |exists bm', oks, blob; split_and!; [vm_compute; reflexivity|exact Erun|exact Eb|exact Hl]].
  repeat (apply Forall_cons; split; [first [exact I|by right; exact demo_fits_v0|left; by eexists]|]). constructor.
Defined.
End witnesses.
